(* ===== verification/_CoqProject ===== *)
-Q . S2P
Prelude.v
DbEffects.v
DbPolicy.v
DbConn.v
DbValidate.v
PreparedCache.v
PgStateMachine.v
DbExplain.v
AuditChain.v
ShellParse.v
PolicyEngine.v
SignalPolicy.v
HttpService.v
WalFrame.v
WalFs.v
Wal.v
WalInv.v
WalSpec.v
WalRecover.v
WalProps.v
WalReader.v
WalFollow.v
WalIndex.v
CredTable.v
ProxyHooks.v
McpCore.v
McpIntercept.v
Patterns.v
Identity.v
Taint.v
ChainRules.v
ProcContext.v
NetAcl.v
NetApproval.v
NetMaps.v
NetFilter.v
WtpBatch.v
WtpAck.v
WtpSession.v
WtpRun.v
WtpLive.v
WtpReplay.v
WtpCanonical.v
WtpStore.v
WtpStoreProps.v
WtpRestart.v
CompositeStore.v
AuditLog.v
AuditLogProps.v
