(* ===== verification/Prelude.v ===== *)
(** * agentsh: a verification library

    agentsh runs an agent's commands under policy. A policy engine answers every
    intercepted operation (commands, execve, files, sockets, registry, network,
    environment); a database proxy sits between clients and PostgreSQL and
    forwards only what a database policy permits; an audit log chains every event
    with an HMAC, and a write-ahead log keeps the events on disk until the
    receiver has acknowledged them; an HTTP proxy hands the agent fake credentials
    and exchanges them on the way out, forwards declared services, and filters the
    MCP tool calls of model responses; a network monitor decides connections by
    process, with approvals and maps in the kernel. This library models these cores as executable
    functions and proves what they promise.

    ** Parts of the program and the files that model them

    - [Prelude.v] (this file): the Go runtime the code leans on (strings, stable
      sorting, errors as [Result], first-match loops), the parameters for
      libraries outside the repository, the tactics, hint databases and generic
      lemmas all files share.
    - [DbEffects.v] (internal/db/effects): effect groups, subtypes, risk tiers,
      aliases, name resolutions, objects, [Order], [ClassifiedStatement].
    - [DbPolicy.v] (internal/db/policy: types.go, compile.go, evaluate.go): rule
      compilation and the statement evaluator [Evaluate] with its deny, coverage
      and fold passes; the abstract verdict it refines.
    - [DbConn.v] (compile.go, evaluate_conn.go): connection rules.
    - [DbValidate.v] (validate.go, decode.go phases B and C): load-time checks and
      what a loaded rule set guarantees.
    - [DbExplain.v] (explain.go): explanations of decisions.
    - [PreparedCache.v] (internal/db/proxy/postgres/preparedcache, cacheview.go,
      the wire adapter of extquery.go): the LRU of prepared statements with its
      element pointers ([Module Lru]), the [CacheView] interface as a class with
      laws, and its two implementations ([Module Fake], [Module Wire]).
    - [PgStateMachine.v] (internal/db/proxy/postgres/statemachine, and the dispatcher of
      extquery.go and redirect_runtime.go): the extended query protocol, one definition
      per handler, over any [CacheView]; the dispatcher over the LRU, with redirected
      and approved Parse messages and the policy taken anew for every frame; whole
      connections are the relation [reach].
    - [AuditChain.v] (internal/audit: sequence_allocator.go, sink_chain.go,
      integrity.go, logset.go): the sequence allocator ([Module Alloc]), the
      two-phase hash chain and the wrapping and verification of entries.
    - [ShellParse.v] (internal/shellparse): what command a [sh -c] script runs.
    - [PolicyEngine.v] (internal/policy: engine.go, env_policy.go, rules.go,
      model.go): rule compilation and every check of the engine; the command
      check calls [ShellParse].
    - [HttpService.v] (internal/policy: http_service.go, http_service_check.go,
      http_service_compile.go): declared HTTP services, their validation,
      compilation, request check and host lookup; it extends the engine.
    - [SignalPolicy.v] (internal/signal: engine.go, target.go, types.go; and
      internal/policy/engine_signal.go): signal rules.
    - The write-ahead log (internal/store/watchtower/wal) has ten files.
      [WalFrame.v] (framing.go, and the record codecs of wal.go): bytes, CRC32C,
      segment headers, frames, loss markers. [WalFs.v] (segment.go, meta.go): a
      state-and-error monad, a file system with inodes, directory entries and an
      oracle that makes any call fail, the buffered writer, segments. [Wal.v]
      (wal.go): Append, AppendLoss, MarkAcked, Close, recovery and Open.
      [WalInv.v]: Hoare triples for the monad and the abstract log (segments and
      their records) that a directory represents. [WalSpec.v]: what the steps of
      Append do to the abstract log. [WalRecover.v]: MarkAcked, crashes and Open.
      [WalProps.v]: the properties of the log and its refinement of an abstract
      one. [WalReader.v] (reader.go): the reader, one pass of its loop at a time.
      [WalFollow.v]: a reader that follows a log, its passes overlapping the appends.
      [WalIndex.v]: the per-generation index that the transport asks.
    - The watchtower transport (internal/store/watchtower/transport) has six files.
      [WtpBatch.v] (batcher.go, inflight.go, loss_reason.go, compress, the encoder of
      state_live.go): batches, frames in flight and the encoder. [WtpAck.v]
      (transport.go, and the dispatchers of state_connecting.go and
      recv_multiplexer.go): the cursors, the clamp on the server's acknowledgements
      and replay plans, over the operations of [Wal]. [WtpSession.v] (transport.go,
      replayer.go, recv_multiplexer.go, the state_ files): the receiving goroutine, the four
      states and the run loop, with everything that happens beside them as a script.
      [WtpRun.v], [WtpLive.v], [WtpReplay.v]: what the run loop does with its
      connections, what a Live session puts on the wire, what replay reaches.
    - The watchtower store (internal/store/watchtower) has four files. [WtpCanonical.v]
      (chain/canonical.go, chain.go): canonical JSON of integrity records and session
      contexts, over Go's UTF-8 and UTF-16 routines. [WtpStore.v] (compact, options.go,
      append.go, chain_restore.go, quarantine.go, store.go): the store over [Wal],
      [AuditChain] and [WtpSession]: the AppendEvent transaction, the restore of the chain,
      New, Close and Err. [WtpStoreProps.v]: one process. [WtpRestart.v]: several processes
      on one directory.
    - [CompositeStore.v] (internal/store/composite): the store that stamps every event and
      fans it out, over an interface of sinks that the watchtower store implements; its
      goroutines as steps under the read and write sides of its lock.
    - [AuditLog.v] (internal/store: integrity_wrapper.go, jsonl/jsonl.go; internal/audit:
      sidecar.go, logset.go): the signed log on disk, a file of JSON lines with its numbered
      backups and its sidecar, over [AuditChain] and a disk whose calls may fail: opening,
      rotation, writing and undoing, the two halves of a flush, the validation and the
      recovery of a start. [AuditLogProps.v]: its theorems.
    - [CredTable.v] (internal/proxy/credsub/table.go, secrets/fakegen.go,
      internal/session/secrets.go): the table of fake and real credentials
      ([Module Table]) with the segmentation its scan computes, the fake generator
      ([Module FakeGen]) and the bootstrap of a session ([Module Bootstrap]).
    - [ProxyHooks.v] (internal/proxy: hooks.go, credshook.go, declared_service.go):
      the hook registry, the three hooks over [CredTable] and the handler of
      declared services over the request check of [HttpService].
    - [McpCore.v] (internal/mcpregistry, internal/mcpinspect): the tool registry
      ([Module ToolRegistry]), the policy ([Module McpPolicy]), the cross-server
      analyzer ([Module Analyzer]) and the monitor with the whole history it
      refines, edit distance ([Module Names]), change detection ([Module
      Definitions]); [deliver] is the wiring of internal/api/app.go.
    - [McpIntercept.v] (internal/proxy: mcp_intercept.go, sse_intercept.go;
      internal/mcpinspect/ratelimit.go, pkg/ratelimit): interception of tool calls
      in whole responses and event streams over [McpCore], the decoding of JSON
      values into structs, and the token bucket ([Module RateLimit]).
    - Process contexts have five files. [Patterns.v] (internal/policy/pattern, and
      classifier.go of internal/policy/ancestry): patterns on names, the built-in
      classes and their registry, the classifier and the analysis of chains.
      [Identity.v] (internal/policy/identity): the process matcher. [Taint.v]
      (taint.go, snapshot.go, integration.go): the cache of processes that descend
      from an AI tool. [ChainRules.v] (chain.go): conditions and rules over that
      descent. [ProcContext.v] (internal/policy/context_eval.go): the command check
      of tainted processes over [Taint], [ChainRules] and [PolicyEngine].
    - Network access by process has four files. [NetAcl.v]
      (internal/netmonitor/pnacl: config.go, matcher.go, policy.go, manager.go): the
      rules, their validation and merging, the compiled engine and the caching
      evaluator of the manager. [NetApproval.v] (approval.go, persist.go,
      dialog_prompt.go): [Room], the waiting place of requests with one-slot
      channels that the next file shares, the approval provider as steps of its
      goroutines, and the rules that permanent answers write. [NetMaps.v]
      (internal/netmonitor/ebpf: collector.go, maps_linux.go, connection_holder.go,
      connect.bpf.c): structures crossing the kernel boundary with their layout, the
      maps, whose evictions an oracle chooses, the verdict of the hooks and the monitor. [NetFilter.v]
      (process_filter.go): the filter over [NetAcl]'s engine, [Room] and the maps.

    State is passed explicitly; an operation that mutates returns the new state.
    Errors are values ([Result], [option]); a Go panic that the code can reach is
    [None]. Integers are [Z] with their width written out where it matters
    (sequence numbers, generations). Maps and sets are [gmap] and [gset]; rule
    lists keep their order.

    ** What the theorems show

    - Database policy: [Evaluate] computes the most restrictive verdict, deny
      dominates, nothing is permitted uncovered, verdicts do not depend on rule
      order, adding a deny never loosens, redirects and approvals are sound (a redirect
      whose rules name other than one source relation is an implicit deny); a
      loaded policy compiles, redirects only reads, never holds a cancel request
      and waits at most ten minutes; explanations agree with the evaluator.
    - Proxy: only permitted statements are forwarded; an Execute is forwarded
      only for a portal bound to a Parse that was permitted, rewritten to a read under a
      redirect verdict, or approved, whatever the policy of each frame is; deny routing and
      the absorbing window, which a redirected Parse ignores; the LRU refines a bounded
      recency list.
    - Audit: the committed log of every sink is one chain, each entry hashed together with
      the hash before it, whatever tokens callers present; a rejected commit latches it,
      sequence numbers increase within their widths, wrapping then verifying
      succeeds, equal hashes mean equal records up to a collision.
    - Commands: the tokenizer decides a declarative quoting grammar, derivation is
      sound and inverts printing, nothing external is silently left to the
      shell's rule; the command check is the most restrictive verdict along the
      chain of nested shells and fails closed, except for scripts at the deepest
      level it follows, which are isolated in a theorem of their own.
    - Write-ahead log: appends lose nothing silently and fail cleanly or latch the
      log, acknowledgement removes only what was acknowledged, a crash in the
      middle of a record is recovered, a run of appends in order, acknowledgements,
      crashes and restarts refines a list of records with a watermark; a reader
      delivers a first-in first-out queue up to its first error, even when its passes
      overlap the appends, and its loop ends unless a file carries the largest index.
      Without faults the index answers for every record on disk.
      Theorems beside them isolate where the byte count drifts, where overflow
      forgets a marker and where a fault makes the index forget a generation.
    - Transport: batching loses and reorders nothing; the encoder computes a grouping
      and a receiver reads back exactly the batch; the persisted cursor never moves
      back nor ahead of the log, whatever the server sends; a replay plan reaches every
      record the server is missing, and the Replaying state ends with all of them on
      the wire; a Live session's frames are the records read, in order, less the batch
      in hand, and are in flight or acknowledged; the run loop leaks no connection or
      receiver and greets each connection once, first, with the cursor that is persisted
      then.
      Theorems beside them show the policy push that replay drops, the generation the live reader
      mixes up, the gap a replay batch spans and the older generations a zero
      acknowledgement gives up.
    - Store: a record's canonical form is read back; an AppendEvent that fails moves
      nothing in the chain and either latches the store or changes nothing; the bytes the
      accepted events give to the log are one chain, and, while stamps do not decrease,
      across restarts too, with New succeeding each time on a file system that does not fail. Examples beside them show the rejected event that stays in
      the log, the HMAC that collection changes and the timestamp that wraps.
    - Fan-out: in every interleaving each sink gets every stamp once, and no stamp of an
      earlier generation after a later one, so that a watchtower sink is never latched by a change of
      generation. Examples beside them show the event lost to an acknowledgement when two
      appends overtake each other, and the stamps a new process repeats.
    - Signed log: what a start accepts at two times agrees, from any entry with a common
      hash back to the oldest both hold, unless the messages signed for two entries of the
      logs collide, whatever was done to the files in between; the search for the last line, which reads from the end in chunks, finds it.
      Theorems beside them show three crashes that a start does not recover from: the torn
      write that is refused once, the lost line end that joins two entries, and the backlog
      in a backup that is refused for good.
    - Signals: the walk over parent links decides the ancestor relation and
      returns on acyclic registries; a self-parented process makes it diverge.
    - HTTP services: validated services compile, hosts lead to their service, and
      requests pass only on clean paths.
    - Engine: first-match semantics with the documented defaults, agreement of
      the execve check with the pre-check, containment of redirected files, the
      environment filter, and what compilation keeps.

    - Credentials: the table stays well formed, substitution is the
      leftmost-longest segmentation, scrubbing misses no occurrence, bootstrap
      wipes every secret on every path.
    - Declared services: a request is sent only when permitted or approved, its URL has
      the scheme and host of the configured upstream and it carries no hop-by-hop header;
      with a session's hooks it passed the leak guard, the stored request body is the
      agent's own, and what is returned and stored of the response is scrubbed where the
      service has scrubbing on. Theorems of their own show the credential of a second service
      leaving and the part of a path the policy does not see.
    - MCP: a tool taken over by another server is blocked, the bounded window gives
      the verdicts of the whole history while it holds it, whole responses and
      streams decide alike, the client of an Anthropic response or stream gets
      exactly the calls that passed, an OpenAI choice keeps exactly those, a bucket
      admits its burst; the cases that slip through are isolated as theorems.
    - Process contexts: every taint has its provenance, a child within the depth
      limit cannot shed its parent's, the command of a tainted process whose context is
      configured runs only for a reason its chain rules or its context give, and its
      descendants stay confined; classifier and
      matcher refine versions without a cache, shell laundering is detected exactly;
      the guard on regular expressions is exact until its score overflows.
    - Network access by process: the caching manager answers as the configuration
      evaluated afresh while names are unambiguous; in every interleaving a request
      or connection is decided only by an answer given to it, what the engine in force says
      of it, its timeout or its end, and the kernel's allow list gains only approved endpoints;
      a permanent answer is loaded back and wins; the hooks refuse only what the
      entries of the cgroup name, and all of it while the maps of all cgroups have room. Theorems of their own show that address ranges never reach
      the kernel and what of an IPv6 event is lost.

    ** Bounds and fuel

    The tokenizer, the scans and the folds are structural. The assignment
    stripper runs with fuel one more than the script's length, and
    [strip_loop_fuel] shows it always returns. Nested shells are followed for
    [maxShellCDeriveDepth] levels, as in the code. The walk over parent links is an
    unbounded loop in the code: it takes fuel, one more than the number of
    registered processes, after which it is shown never to return. Scanning a
    segment takes fuel one more than its bytes and never runs out ([Scan_unfold]);
    overflow reclamation takes one pass per file and one more; the reader's loop
    takes fuel from the segments and bytes left ([reader_terminates]). The
    substitution scan takes fuel one more than the bytes of the body, and
    [substitution_spec] is about its result. Streams and chunks are structural. The
    loop of a replay plan takes fuel one more than the generations to visit and never
    runs out ([plan_loop_ok]). The loops of a session take fuel: that replay ends is
    shown with fuel two more than the records on disk; the loop that restores the chain
    takes fuel one more than the bytes on disk allow records ([restore_ok]); the loops over
    the runes of a string take its length; the search for the last line of a file takes its
    bytes ([last_line_found]); a theorem about a run that may go on for
    ever holds for every fuel, at every point where it waits.

    ** Parameters

    gobwas/glob, Go's regexp and text/template, the net package's parsers, HMAC,
    JSON encoding, the Unicode tables behind ToLower and friends, sort.Slice's
    choice among equals, URL parsing and path matching, the evictions of the kernel's LRU maps, /proc and reverse DNS, the random source, [float64]
    arithmetic, the HTTP transport, the approver, the snapshot of a running process,
    the parsed form of a regular expression, protobuf, zstd and gzip, SHA-256, the mapper of events, the validation of
    protocol frames, the generated SQL classifier and the redirect planner
    are arguments (type classes or functions) with the documented laws the proofs need; each file ends with small
    instances on which the definitions are evaluated.

    ** Not modelled

    Network, file and process I/O, YAML decoding, the SQL classifier's generated
    parser, key management clients, operating-system enforcement layers, the detection of agents by behaviour (float64, called by
    nothing), the content detectors and pin store of MCP inspection and package
    checks. In the write-ahead log: mutexes
    (every method of the log, and of a reader, runs under its own lock; [WalFollow.v]
    treats the overlap of the two), the test-only append injector, and the JSON
    text of meta.json. In the transport: the length of backoffs (floating point with
    jitter), log lines and their rate limiter, the gRPC dialer, the sanitizer of
    log text. In the store: the names of quarantined directories and the mutex that makes
    AppendEvent one transaction. In the signed log: the lock on the file, the ticker of the
    flushes, unsigned inner stores, and what of a file is durable before a sync. In the proxy: mutexes, DLP, log levels and timings, the limit
    on the length of a stream's line. Of patterns: matching with a timeout. Of the
    kernel's maps: attachment and the ring buffer. Of the database proxy: executing the
    actions on the two connections, events, and the refresh of the catalog. *)

From stdpp Require Export base gmap strings list fin_maps sorting.
From stdpp Require Import pretty.
From Stdlib Require Export Ascii ZArith Lia Sorted Permutation.

(** ** Go runtime parameters

    The Go standard library routines whose behaviour on non-ASCII input depends
    on the Unicode tables are split the way the library splits them: an ASCII
    fast path, written out below, and a slow path that is a field of [GoLib].
    Every theorem of the development holds for all instances. *)
Class GoLib := {
  unicode_to_lower : string → string;   (** [strings.ToLower], some byte >= 0x80 *)
  unicode_to_upper : string → string;   (** [strings.ToUpper], some byte >= 0x80 *)
  unicode_trim_func : string → string;  (** [TrimFunc(s, unicode.IsSpace)], first byte >= 0x80 *)
  unicode_trim_right : string → string; (** [TrimRightFunc(s, unicode.IsSpace)], last byte >= 0x80 *)
  unicode_equal_fold : string → string → bool; (** [strings.EqualFold], some byte >= 0x80 *)
  go_quote : string → string;           (** [strconv.Quote], the [%q] verb on strings *)
  go_quote_byte : ascii → string;       (** the [%q] verb on bytes *)
}.

(** gobwas/glob, a third-party package: [glob.Compile pattern separators] and
    [Glob.Match]. *)
Class GlobLib := {
  glob : Type;
  glob_Compile : string → list ascii → option glob;
  glob_Match : glob → string → bool;
}.

(** Go's [regexp]: compilation may fail, matching is a boolean. *)
Class RegexpLib := {
  regexp : Type;
  regexp_Compile : string → option regexp;
  regexp_MatchString : regexp → string → bool;
}.

(** Go's [net] package: [ParseIP] gives the 4 bytes of an IPv4 address or the 16
    of an IPv6 one ([To4] applied); [ParseCIDR] gives the network's address and
    mask, equally long; [SplitHostPort] may fail. *)
Class NetLib := {
  net_ParseIP : string → option (list Z);
  net_ParseCIDR : string → option (list Z * list Z);
  net_SplitHostPort : string → option (string * string);
  net_JoinHostPort : string → string → string;
}.

(** ** Notations and tactics *)

(** Facts that close the routine goals of the component files. *)
Create HintDb agentsh discriminated.
(** Normal form of string concatenations. *)
Create HintDb agentsh_str.

Declare Scope agentsh_scope.
Delimit Scope agentsh_scope with agentsh.
Open Scope agentsh_scope.

(** A call that returns [(T, error)]. *)
Inductive Result (E A : Type) : Type :=
| Ok (a : A)
| Err (e : E).
Arguments Ok {E A} a.
Arguments Err {E A} e.

Definition rbind {E A B} (r : Result E A) (k : A → Result E B) : Result E B :=
  match r with Ok a => k a | Err e => Err e end.

Notation "'let!' x := r 'in' k" := (rbind r (λ x, k))
  (at level 10, x pattern, r at level 99, k at level 200) : agentsh_scope.

(** A loop [for _, x := range l] whose body may return an error: the first
    error stops it. *)
Fixpoint rmap {E A B} (f : A → Result E B) (l : list A) : Result E (list B) :=
  match l with
  | [] => Ok []
  | x :: l => let! y := f x in let! ys := rmap f l in Ok (y :: ys)
  end.

(** The first element of [l] that satisfies [p]: the shape of every
    first-match rule loop. *)
Fixpoint find_first {A} (p : A → bool) (l : list A) : option A :=
  match l with
  | [] => None
  | x :: l => if p x then Some x else find_first p l
  end.

(** [if cond { ... }] on the errors appended by a validation routine. *)
Definition err_if {E} (b : bool) (e : E) : list E := if b then [e] else [].

(** Case analysis on every [if]/[match] scrutinee of the goal or of [H]. *)
Ltac case_all :=
  repeat (case_match; simplify_eq/=; try done).

Ltac bool_hyps :=
  repeat match goal with
  | H : (_ && _)%bool = true |- _ => apply andb_true_iff in H as [??]
  | H : (_ || _)%bool = false |- _ => apply orb_false_iff in H as [??]
  | H : negb _ = true |- _ => apply negb_true_iff in H
  | H : negb _ = false |- _ => apply negb_false_iff in H
  | H : bool_decide _ = true |- _ => apply bool_decide_eq_true in H
  | H : bool_decide _ = false |- _ => apply bool_decide_eq_false in H
  | H : (_ =? _)%Z = true |- _ => apply Z.eqb_eq in H
  | H : (_ =? _)%Z = false |- _ => apply Z.eqb_neq in H
  | H : (_ <? _)%Z = true |- _ => apply Z.ltb_lt in H
  | H : (_ <? _)%Z = false |- _ => apply Z.ltb_ge in H
  | H : (_ <=? _)%Z = true |- _ => apply Z.leb_le in H
  | H : (_ <=? _)%Z = false |- _ => apply Z.leb_gt in H
  | H : String.eqb _ _ = true |- _ => apply String.eqb_eq in H
  | H : String.eqb _ _ = false |- _ => apply String.eqb_neq in H
  end.

(** ** Strings

    A Go string is a byte sequence; [string] is a list of bytes. *)
Definition byte_val (c : ascii) : Z := Z.of_nat (nat_of_ascii c).

Definition byte_in (lo hi c : ascii) : bool :=
  (byte_val lo <=? byte_val c)%Z && (byte_val c <=? byte_val hi)%Z.

Fixpoint str_forall (p : ascii → bool) (s : string) : bool :=
  match s with
  | EmptyString => true
  | String c s => p c && str_forall p s
  end.

Definition is_ascii (s : string) : bool := str_forall (λ c, (byte_val c <? 128)%Z) s.

Fixpoint str_map (f : ascii → ascii) (s : string) : string :=
  match s with
  | EmptyString => EmptyString
  | String c s => String (f c) (str_map f s)
  end.

Definition lower_byte (c : ascii) : ascii :=
  if byte_in "A" "Z" c then ascii_of_nat (nat_of_ascii c + 32) else c.
Definition upper_byte (c : ascii) : ascii :=
  if byte_in "a" "z" c then ascii_of_nat (nat_of_ascii c - 32) else c.

Definition ToLower `{GoLib} (s : string) : string :=
  if is_ascii s then str_map lower_byte s else unicode_to_lower s.
Definition ToUpper `{GoLib} (s : string) : string :=
  if is_ascii s then str_map upper_byte s else unicode_to_upper s.

Definition EqualFold `{GoLib} (s t : string) : bool :=
  if is_ascii s && is_ascii t then String.eqb (str_map lower_byte s) (str_map lower_byte t)
  else unicode_equal_fold s t.

Definition HasPrefix (s pre : string) : bool := String.prefix pre s.

Fixpoint HasSuffix (s suf : string) : bool :=
  if String.eqb s suf then true
  else match s with EmptyString => false | String _ s' => HasSuffix s' suf end.

(** [s[:n]] and [s[n:]] for [n <= len(s)]. *)
Fixpoint str_take (n : nat) (s : string) : string :=
  match n, s with
  | S n, String c s => String c (str_take n s)
  | _, _ => EmptyString
  end.
Fixpoint str_drop (n : nat) (s : string) : string :=
  match n, s with
  | S n, String _ s => str_drop n s
  | _, _ => s
  end.

Definition TrimPrefix (s pre : string) : string :=
  if HasPrefix s pre then str_drop (String.length pre) s else s.
Definition TrimSuffix (s suf : string) : string :=
  if HasSuffix s suf then str_take (String.length s - String.length suf) s else s.

Fixpoint Contains (s sub : string) : bool :=
  HasPrefix s sub || match s with EmptyString => false | String _ s' => Contains s' sub end.

Fixpoint str_existsb (p : ascii → bool) (s : string) : bool :=
  match s with
  | EmptyString => false
  | String c s => p c || str_existsb p s
  end.

Definition str_mem (c : ascii) (s : string) : bool := str_existsb (Ascii.eqb c) s.

(** [strings.ContainsAny s chars] for ASCII [chars]. *)
Definition ContainsAny (s chars : string) : bool := str_existsb (λ c, str_mem c chars) s.

(** [strings.IndexByte]: the position of the first [c]. *)
Fixpoint IndexByte (s : string) (c : ascii) : option nat :=
  match s with
  | EmptyString => None
  | String d s => if Ascii.eqb d c then Some O else S <$> IndexByte s c
  end.

(** [strings.Split s sep] for a one-byte separator: never empty. *)
Fixpoint Split (s : string) (sep : ascii) : list string :=
  match s with
  | EmptyString => [""]
  | String c s =>
      if Ascii.eqb c sep then "" :: Split s sep
      else match Split s sep with
           | w :: ws => String c w :: ws
           | [] => [String c ""]
           end
  end.

Fixpoint Join (l : list string) (sep : string) : string :=
  match l with
  | [] => ""
  | [s] => s
  | s :: l => s +:+ sep +:+ Join l sep
  end.

Fixpoint trim_left (p : ascii → bool) (s : string) : string :=
  match s with
  | EmptyString => EmptyString
  | String c s' => if p c then trim_left p s' else s
  end.
Fixpoint trim_right (p : ascii → bool) (s : string) : string :=
  match s with
  | EmptyString => EmptyString
  | String c s' =>
      match trim_right p s' with
      | EmptyString => if p c then EmptyString else String c EmptyString
      | t => String c t
      end
  end.

(** The ASCII bytes of [strings.TrimSpace]: tab, LF, VT, FF, CR and space. *)
Definition is_space_byte (c : ascii) : bool := Ascii.is_space c.

Definition is_rune_byte (c : ascii) : bool := (128 <=? byte_val c)%Z.

Fixpoint last_byte (s : string) : option ascii :=
  match s with
  | EmptyString => None
  | String c EmptyString => Some c
  | String _ s => last_byte s
  end.

(** [strings.TrimSpace]: ASCII spaces are cut from the left up to the first
    other byte; if that byte starts a multi-byte rune the Unicode routine takes
    over, and likewise from the right. *)
Definition TrimSpace `{GoLib} (s : string) : string :=
  match trim_left is_space_byte s with
  | EmptyString => EmptyString
  | String c _ as s' =>
      if is_rune_byte c then unicode_trim_func s'
      else let t := trim_right is_space_byte s' in
           match last_byte t with
           | Some d => if is_rune_byte d then unicode_trim_right t else t
           | None => t
           end
  end.

(** [strconv.ParseInt] in base 10 and 64 bits, and [strconv.Atoi] on a 64-bit
    platform. *)
Definition MaxInt64 : Z := 9223372036854775807.
Fixpoint parse_digits (s : string) (acc : Z) : option Z :=
  match s with
  | EmptyString => Some acc
  | String c s => if byte_in "0" "9" c then parse_digits s (acc * 10 + (byte_val c - 48))%Z else None
  end.
Definition ParseInt64 (s : string) : option Z :=
  let check (neg : bool) (digits : string) :=
    match digits with
    | EmptyString => None
    | _ => n ← parse_digits digits 0%Z;
           let z := (if neg then - n else n)%Z in
           if ((- MaxInt64 - 1 <=? z) && (z <=? MaxInt64))%Z then Some z else None
    end in
  match s with
  | String "-" d => check true d
  | String "+" d => check false d
  | _ => check false s
  end.

(** Parsing inverts the [%d] verb. *)
Section decimal.
#[local] Open Scope Z_scope.

Lemma digit_val x : (x < 10)%N → byte_in "0" "9" (pretty_N_char x) = true ∧ byte_val (pretty_N_char x) - 48 = Z.of_N x.
Proof.
  intros Hx. destruct x as [|p]; [by vm_compute|].
  do 4 (try destruct p as [p|p|]); try lia; by vm_compute.
Qed.

Lemma parse_digits_go x s : parse_digits (pretty_N_go x s) 0 = parse_digits s (Z.of_N x).
Proof.
  revert s. induction (N.lt_wf_0 x) as [x _ IH]; intros s.
  destruct (decide (0 < x)%N) as [Hx|Hx].
  - rewrite pretty_N_go_step by done. rewrite IH by (apply N.div_lt; lia). simpl.
    destruct (digit_val (x mod 10)) as [-> Hv]; [apply N.mod_lt; lia|]. f_equal. rewrite Hv.
    pose proof (N.div_mod x 10 ltac:(lia)). lia.
  - replace x with 0%N by lia. by rewrite pretty_N_go_0.
Qed.

Lemma parse_pretty_N (x : N) : parse_digits (pretty x) 0 = Some (Z.of_N x).
Proof.
  unfold pretty, pretty_N. case_decide as Hx; [by subst|]. by rewrite parse_digits_go.
Qed.

Lemma ParseInt64_pretty z : 0 ≤ z ≤ MaxInt64 → ParseInt64 (pretty z) = Some z.
Proof.
  intros Hz.
  assert (∀ x : N, ParseInt64 (pretty x) =
    if (- MaxInt64 - 1 <=? Z.of_N x) && (Z.of_N x <=? MaxInt64) then Some (Z.of_N x) else None) as Hgen.
  { intros x. pose proof (parse_pretty_N x) as Hp. unfold ParseInt64.
    destruct (pretty x) as [|c d] eqn:Hx.
    - exfalso. assert (pretty x = "") as Hx' by done. revert Hx'. unfold pretty, pretty_N.
      case_decide; [done|]. intros Hx'. pose proof (parse_digits_go x "") as Hg. rewrite Hx' in Hg.
      simpl in Hg. injection Hg as Hg. destruct x; lia.
    - simpl in Hp. destruct (byte_in "0" "9" c) eqn:Hc; [|done].
      assert (c ≠ "-"%char ∧ c ≠ "+"%char) as [Hm Hpl] by (split; intros ->; done).
      assert (∀ (A : Type) (a b d : A), match c with "-"%char => a | "+"%char => b | _ => d end = d) as Hmatch.
      { intros A a b e. destruct c as [[] [] [] [] [] [] [] []]; done. }
      rewrite Hmatch. simpl. rewrite Hc, Hp. done. }
  destruct z as [|p|p]; [by vm_compute|..|lia].
  change (pretty (Z.pos p)) with (pretty (Npos p)). rewrite Hgen. simpl Z.of_N.
  destruct (Z.leb_spec (- MaxInt64 - 1) (Z.pos p)), (Z.leb_spec (Z.pos p) MaxInt64); simpl; try done;
    unfold MaxInt64 in *; lia.
Qed.

Lemma pretty_N_go_digits x s :
  str_forall (byte_in "0" "9") s = true → str_forall (byte_in "0" "9") (pretty_N_go x s) = true.
Proof.
  revert s. induction (N.lt_wf_0 x) as [x _ IH]; intros s Hs. destruct (decide (0 < x)%N) as [Hx|Hx].
  - rewrite pretty_N_go_step by done. apply IH; [apply N.div_lt; lia|]. simpl. rewrite Hs, andb_true_r.
    apply digit_val. apply N.mod_lt. lia.
  - replace x with 0%N by lia. by rewrite pretty_N_go_0.
Qed.

Lemma pretty_digits z : 0 <= z → str_forall (byte_in "0" "9") (pretty z) = true.
Proof.
  intros Hz. destruct z as [|p|p]; [done|..|lia]. change (pretty (Z.pos p)) with (pretty (Npos p)).
  unfold pretty, pretty_N. case_decide; [done|]. by apply pretty_N_go_digits.
Qed.
End decimal.

(** A string that begins and ends with a visible ASCII byte is kept. *)
Definition visible (c : ascii) : bool := negb (is_space_byte c) && negb (is_rune_byte c).

Lemma trim_right_id p s d : last_byte s = Some d → p d = false → trim_right p s = s.
Proof.
  intros Hl Hd. induction s as [|c s IH]; [done|]. simpl.
  destruct s as [|c' s]; [simpl in *; simplify_eq; by rewrite Hd|].
  rewrite IH by done. done.
Qed.

Lemma TrimSpace_id `{GoLib} c s d :
  visible c = true → last_byte (String c s) = Some d → visible d = true →
  TrimSpace (String c s) = String c s.
Proof.
  unfold visible, TrimSpace. intros [Hc1 Hc2]%andb_true_iff Hl [Hd1 Hd2]%andb_true_iff.
  apply negb_true_iff in Hc1, Hc2, Hd1, Hd2. cbn [trim_left]. rewrite Hc1, Hc2.
  rewrite (trim_right_id _ _ d) by done. cbn zeta. by rewrite Hl, Hd2.
Qed.

(** A run of digits is trimmed to itself and has no other byte. *)
Lemma digit_visible c : byte_in "0" "9" c = true → visible c = true.
Proof. destruct c as [[] [] [] [] [] [] [] []]; by vm_compute. Qed.

Lemma digits_last s d : str_forall (byte_in "0" "9") s = true → last_byte s = Some d → byte_in "0" "9" d = true.
Proof.
  induction s as [|c s IH]; [done|]. simpl. intros [Hc Hs]%andb_true_iff.
  destruct s; [by intros [= <-]|]. by apply IH.
Qed.

Lemma last_byte_cons c s : is_Some (last_byte (String c s)).
Proof. revert c. induction s as [|c' s IH]; intros c; [by exists c|]. apply (IH c'). Qed.

Lemma TrimSpace_digits `{GoLib} s : str_forall (byte_in "0" "9") s = true → TrimSpace s = s.
Proof.
  destruct s as [|c s]; [done|]. intros Hs. destruct (last_byte_cons c s) as [d Hd].
  apply (TrimSpace_id c s d); [|done|].
  - apply digit_visible. simpl in Hs. by apply andb_true_iff in Hs as [? _].
  - apply digit_visible. by eapply digits_last.
Qed.

Lemma IndexByte_digits s c :
  str_forall (byte_in "0" "9") s = true → byte_in "0" "9" c = false → IndexByte s c = None.
Proof.
  intros Hs Hc. induction s as [|d s IH]; [done|]. simpl in *. apply andb_true_iff in Hs as [Hd Hs].
  destruct (Ascii.eqb_spec d c) as [->|]; [congruence|]. by rewrite IH.
Qed.

Lemma last_byte_app s t : t ≠ "" → last_byte (s +:+ t) = last_byte t.
Proof.
  intros Ht. induction s as [|c s IH]; [done|]. change (String c s +:+ t) with (String c (s +:+ t)).
  simpl. rewrite IH. destruct s, t; done.
Qed.

Lemma string_app_cons c s t : String c s +:+ t = String c (s +:+ t).
Proof. done. Qed.
Lemma string_app_assoc (a b c : string) : (a +:+ b) +:+ c = a +:+ b +:+ c.
Proof. induction a as [|x a IH]; [done|]. by rewrite !string_app_cons, IH. Qed.
Lemma string_app_nil (a : string) : a +:+ "" = a.
Proof. induction a as [|x a IH]; [done|]. by rewrite string_app_cons, IH. Qed.

(** Splitting at a separator *)
Lemma Split_nonempty s sep : Split s sep ≠ [].
Proof. destruct s as [|c s]; simpl; [done|]. repeat case_match; done. Qed.

Lemma Split_app a b sep : Split (a +:+ String sep b) sep = Split a sep ++ Split b sep.
Proof.
  induction a as [|c a IH].
  - simpl. by rewrite Ascii.eqb_refl.
  - rewrite string_app_cons. simpl. rewrite IH. destruct (Ascii.eqb c sep); [done|].
    pose proof (Split_nonempty a sep). by destruct (Split a sep).
Qed.

Lemma str_take_app s t : str_take (String.length s) (s +:+ t) = s.
Proof. induction s as [|c s IH]; [by destruct t|]. rewrite string_app_cons. simpl. by rewrite IH. Qed.

Lemma string_length_app s t : String.length (s +:+ t) = (String.length s + String.length t)%nat.
Proof. induction s as [|c s IH]; [done|]. rewrite string_app_cons. simpl. by rewrite IH. Qed.

Lemma HasSuffix_app s suf : HasSuffix (s +:+ suf) suf = true.
Proof.
  induction s as [|c s IH].
  - destruct suf; simpl; [done|]. by rewrite Ascii.eqb_refl, String.eqb_refl.
  - rewrite string_app_cons. cbn [HasSuffix]. by destruct (String.eqb _ _).
Qed.

Lemma HasSuffix_inv s suf : HasSuffix s suf = true → ∃ pre, s = pre +:+ suf.
Proof.
  induction s as [|c s IH]; cbn [HasSuffix].
  - destruct (String.eqb_spec "" suf) as [<-|]; [by exists ""|done].
  - destruct (String.eqb_spec (String c s) suf) as [<-|]; [by exists ""|].
    intros [pre ->]%IH. by exists (String c pre).
Qed.

Lemma TrimSuffix_app s suf : TrimSuffix (s +:+ suf) suf = s.
Proof.
  unfold TrimSuffix. rewrite HasSuffix_app, string_length_app.
  replace (String.length s + String.length suf - String.length suf)%nat with (String.length s) by lia.
  apply str_take_app.
Qed.

#[export] Hint Rewrite string_app_cons string_app_assoc string_app_nil : agentsh_str.

(** ** Association tables

    A Go [map] literal used as a read-only table, in one iteration order. *)
Fixpoint assoc {K V} `{EqDecision K} (k : K) (t : list (K * V)) : option V :=
  match t with
  | [] => None
  | (k', v) :: t => if decide (k = k') then Some v else assoc k t
  end.

Lemma assoc_elem {K V} `{EqDecision K} (k : K) (v : V) t : assoc k t = Some v → (k, v) ∈ t.
Proof.
  induction t as [|[k' v'] t IH]; simpl; [done|].
  case_decide; intros; simplify_eq; set_solver.
Qed.

Lemma assoc_NoDup {K V} `{EqDecision K} k v (t : list (K * V)) :
  NoDup t.*1 → (k, v) ∈ t → assoc k t = Some v.
Proof.
  induction t as [|[k' v'] t IH]; simpl; [set_solver|].
  intros [Hk Hnd]%NoDup_cons [[= -> ->]|Hin]%elem_of_cons; [by rewrite decide_True|].
  case_decide as Hd; [|by auto]. subst k'. destruct Hk.
  apply list_elem_of_fmap. by exists (k, v).
Qed.

Lemma assoc_None {K V} `{EqDecision K} k (t : list (K * V)) :
  (∀ p, p ∈ t → p.1 ≠ k) → assoc k t = None.
Proof.
  induction t as [|[k' v'] t IH]; simpl; [done|]. intros Ht.
  case_decide as Hd; [by destruct (Ht (k', v')); [set_solver|]|]. apply IH. set_solver.
Qed.

(** ** Stable sorting ([sort.SliceStable]) *)
Section stable_sort.
Context {A : Type} (less : A → A → bool).

Fixpoint stable_insert (x : A) (l : list A) : list A :=
  match l with
  | [] => [x]
  | y :: l => if less y x then y :: stable_insert x l else x :: y :: l
  end.

Fixpoint SliceStable (l : list A) : list A :=
  match l with
  | [] => []
  | x :: l => stable_insert x (SliceStable l)
  end.

Lemma stable_insert_perm x l : stable_insert x l ≡ₚ x :: l.
Proof.
  induction l as [|y l IH]; simpl; [done|].
  destruct (less y x); [|done]. rewrite IH. apply Permutation_swap.
Qed.

Lemma SliceStable_perm l : SliceStable l ≡ₚ l.
Proof. induction l as [|x l IH]; simpl; [done|]. by rewrite stable_insert_perm, IH. Qed.

(** Elements that never compare keep their input order. *)
Lemma stable_insert_filter (p : A → bool) x l :
  (p x = true → ∀ y, y ∈ l → p y = true → less y x = false) →
  base.filter (λ y, p y = true) (stable_insert x l) = base.filter (λ y, p y = true) (x :: l).
Proof.
  intros Hx. induction l as [|y l IH]; simpl; [done|].
  destruct (less y x) eqn:Hl; [|done].
  rewrite !filter_cons, IH.
  - rewrite filter_cons. repeat case_decide; try done.
    specialize (Hx ltac:(done) y ltac:(set_solver) ltac:(done)). congruence.
  - intros Hp z Hz. apply Hx; set_solver.
Qed.

Lemma SliceStable_stable (p : A → bool) l :
  (∀ x y, p x = true → p y = true → less x y = false) →
  base.filter (λ y, p y = true) (SliceStable l) = base.filter (λ y, p y = true) l.
Proof.
  intros Hp. induction l as [|x l IH]; simpl; [done|].
  rewrite stable_insert_filter by auto. by rewrite !filter_cons, IH.
Qed.

Context (less_asym : ∀ a b, less a b = true → less b a = false)
        (less_negtrans : ∀ a b c, less b a = false → less c b = false → less c a = false).

Lemma SliceStable_sorted l : StronglySorted (λ a b, less b a = false) (SliceStable l).
Proof.
  induction l as [|x l IH]; simpl; [constructor|].
  induction IH as [|y t Hs IHs Hy]; simpl; [by repeat constructor|].
  destruct (less y x) eqn:Hl.
  - constructor; [done|]. rewrite Forall_forall in *. intros z Hz.
    rewrite stable_insert_perm, elem_of_cons in Hz.
    destruct Hz as [->|Hz]; [by apply less_asym|by apply Hy].
  - constructor; [by constructor|]. constructor; [done|].
    eapply Forall_impl; [exact Hy|]. intros z Hz; simpl in *. eauto.
Qed.
End stable_sort.

(** ** Boolean searches over lists *)
Lemma existsb_elem {A} (p : A → bool) l : existsb p l = true ↔ ∃ x, x ∈ l ∧ p x = true.
Proof. rewrite existsb_exists. by setoid_rewrite list_elem_of_In. Qed.

Lemma existsb_false_elem {A} (p : A → bool) l : existsb p l = false ↔ ∀ x, x ∈ l → p x = false.
Proof.
  rewrite <-not_true_iff_false, existsb_elem. setoid_rewrite <-not_true_iff_false. naive_solver.
Qed.

Lemma filter_bool_elem {A} (p : A → bool) l x : x ∈ List.filter p l ↔ x ∈ l ∧ p x = true.
Proof. rewrite !list_elem_of_In. apply filter_In. Qed.

Lemma find_first_Some {A} (p : A → bool) l x : find_first p l = Some x → x ∈ l ∧ p x = true.
Proof.
  induction l as [|y l IH]; simpl; [done|].
  destruct (p y) eqn:?; intros Hf; simplify_eq; [set_solver|]. apply IH in Hf as []; set_solver.
Qed.

Lemma find_first_None {A} (p : A → bool) l : find_first p l = None ↔ ∀ x, x ∈ l → p x = false.
Proof.
  induction l as [|y l IH]; simpl; [set_solver|].
  destruct (p y) eqn:Hy; split.
  - done.
  - intros Ha. rewrite Ha in Hy; set_solver.
  - intros Hn x [->|Hx]%elem_of_cons; [done|]. by apply IH.
  - intros Ha. apply IH. set_solver.
Qed.

Lemma find_first_is_Some {A} (p : A → bool) l : is_Some (find_first p l) ↔ existsb p l = true.
Proof.
  rewrite <-not_eq_None_Some, find_first_None, <-existsb_false_elem. by destruct (existsb p l).
Qed.

#[export] Instance existsb_perm {A} (p : A → bool) : Proper ((≡ₚ) ==> (=)) (existsb p).
Proof.
  intros l k Hp. induction Hp as [|x l k _ IH|x y l|l k m _ IH1 _ IH2]; simpl.
  - done.
  - by rewrite IH.
  - by destruct (p x), (p y).
  - congruence.
Qed.

Lemma filter_all {A} (p : A → bool) l : Forall (λ x, p x = true) l → List.filter p l = l.
Proof. induction 1 as [|x l Hx _ IH]; [done|]. cbn. by rewrite Hx, IH. Qed.

Lemma filter_bool_perm {A} (p : A → bool) l k : l ≡ₚ k → List.filter p l ≡ₚ List.filter p k.
Proof.
  intros Hp. induction Hp as [|x l k _ IH|x y l|l k m _ IH1 _ IH2]; simpl.
  - done.
  - destruct (p x); by rewrite IH.
  - destruct (p x), (p y); try done. apply Permutation_swap.
  - by rewrite IH1.
Qed.

Lemma existsb_ext {A} (p q : A → bool) l : (∀ x, p x = q x) → existsb p l = existsb q l.
Proof. intros Hpq. induction l as [|x l IH]; simpl; [done|]. by rewrite Hpq, IH. Qed.

Lemma NoDup_fmap_inj_elem {A B} (f : A → B) l x y :
  NoDup (f <$> l) → x ∈ l → y ∈ l → f x = f y → x = y.
Proof.
  intros Hnd [i Hi]%list_elem_of_lookup [j Hj]%list_elem_of_lookup Hf.
  assert (i = j); [|by simplify_eq].
  eapply NoDup_lookup; [exact Hnd|rewrite list_lookup_fmap, Hi; done|].
  by rewrite list_lookup_fmap, Hj; simpl; f_equal.
Qed.

Lemma rmap_Ok {E A B} (f : A → Result E B) l ys :
  rmap f l = Ok ys ↔ Forall2 (λ x y, f x = Ok y) l ys.
Proof.
  revert ys. induction l as [|x l IH]; intros ys; simpl.
  { split; [by intros [= <-]|by inversion 1]. }
  split.
  - destruct (f x) eqn:Hx; simpl; [|done]. destruct (rmap f l) eqn:Hl; simpl; [|done].
    intros [= <-]. constructor; [done|]. by apply IH.
  - inversion 1 as [|? y ? ys' Hx Hl]; subst. rewrite Hx. simpl. apply IH in Hl. by rewrite Hl.
Qed.

Lemma rmap_Err {E A B} (f : A → Result E B) l e :
  rmap f l = Err e → ∃ x, x ∈ l ∧ f x = Err e.
Proof.
  induction l as [|x l IH]; simpl; [done|].
  destruct (f x) eqn:Hx; simpl; [|intros [= ->]; exists x; set_solver].
  destruct (rmap f l); simpl; [done|]. intros [= ->]. destruct IH as (y & ? & ?); [done|].
  exists y. set_solver.
Qed.

Lemma rbind_Err {E A B} (r : Result E A) (k : A → Result E B) e :
  rbind r k = Err e → r = Err e ∨ ∃ a, r = Ok a ∧ k a = Err e.
Proof. destruct r; simpl; naive_solver. Qed.

Lemma err_if_nil {E} b (e : E) : err_if b e = [] ↔ b = false.
Proof. by destruct b. Qed.

Lemma omap_length_le {A B} (f : A → option B) l : (length (omap f l) <= length l)%nat.
Proof. induction l as [|x l IH]; [done|]. cbn in *. destruct (f x); cbn in *; lia. Qed.

Lemma mjoin_nil {A B} (f : A → list B) l x : mjoin (f <$> l) = [] → x ∈ l → f x = [].
Proof.
  induction l as [|y l IH]; simpl; [set_solver|]. intros [Hy Hl]%app_nil [->|Hx]%elem_of_cons; auto.
Qed.

(** [let!] chains that return: every intermediate result did. *)
Lemma rbind_Ok {E A B} (r : Result E A) (k : A → Result E B) b :
  rbind r k = Ok b ↔ ∃ a, r = Ok a ∧ k a = Ok b.
Proof. destruct r; simpl; naive_solver. Qed.

Ltac ok_hyps :=
  repeat match goal with
  | H : rbind _ _ = Ok _ |- _ => apply rbind_Ok in H as (? & ? & H)
  end.

(** ** Instances for concrete runs

    Small total instances of the parameters, used to evaluate the definitions on
    concrete inputs. *)
Definition ascii_go : GoLib := {|
  unicode_to_lower := id; unicode_to_upper := id; unicode_trim_func := id; unicode_trim_right := id; unicode_equal_fold := String.eqb;
  go_quote := λ s, String (ascii_of_nat 34) (s +:+ String (ascii_of_nat 34) "");
  go_quote_byte := λ c, String "'" (String c "'") |}.

(** Literal patterns and the lone star. *)
Definition literal_glob : GlobLib := {|
  glob := string; glob_Compile := λ p _, Some p;
  glob_Match := λ g s, String.eqb g "*" || String.eqb g s |}.

(** No string is an address; hosts and ports are not split. *)
Definition no_net : NetLib := {|
  net_ParseIP := λ _, None; net_ParseCIDR := λ _, None;
  net_SplitHostPort := λ _, None; net_JoinHostPort := λ h p, h +:+ String ":" p |}.

Definition literal_regexp : RegexpLib := {|
  regexp := string; regexp_Compile := Some;
  regexp_MatchString := λ r s, Contains s r |}.

Lemma fmap_nil_iff {A B} (f : A → B) (l : list A) : f <$> l = [] ↔ l = [].
Proof. by destruct l. Qed.

#[export] Hint Resolve find_first_Some SliceStable_perm stable_insert_perm : agentsh.
#[export] Hint Resolve list_elem_of_fmap_2 : agentsh.
