(* ===== verification/DbEffects.v ===== *)
(** * Database operation taxonomy (internal/db/effects)

    Groups, subtypes, risk tiers, resolution tags, operator aliases, object
    references, effects and their canonical order.  Enumerations are [uint8] in
    the source and values outside the named constants are representable and
    handled, so they are [Z] codes here; Go map tables are association lists in
    one iteration order, and the lookups by name are shown not to depend on it. *)

From S2P Require Import Prelude.
Open Scope Z_scope.

(** ** Risk tiers (risk_tier.go) *)
Definition Safe : Z := 0.
Definition Low : Z := 1.
Definition Medium : Z := 2.
Definition High : Z := 3.
Definition Critical : Z := 4.

Definition riskTierNames : list string := ["safe"; "low"; "medium"; "high"; "critical"].

Definition RiskTier_String (t : Z) : string :=
  if Z.of_nat (length riskTierNames) <=? t then "unknown"
  else default "" (riskTierNames !! Z.to_nat t).

Definition RiskTier_Compare (t other : Z) : Z := t - other.

(** ** Groups (group.go) *)
Definition GroupRead : Z := 1.
Definition GroupWrite : Z := 2.
Definition GroupModify : Z := 3.
Definition GroupDelete : Z := 4.
Definition GroupBulkLoad : Z := 5.
Definition GroupBulkExport : Z := 6.
Definition GroupSchemaCreate : Z := 7.
Definition GroupSchemaAlter : Z := 8.
Definition GroupSchemaDestroy : Z := 9.
Definition GroupPrivilege : Z := 10.
Definition GroupTransaction : Z := 11.
Definition GroupSession : Z := 12.
Definition GroupMaintenance : Z := 13.
Definition GroupLock : Z := 14.
Definition GroupNotify : Z := 15.
Definition GroupProcedural : Z := 16.
Definition GroupUnsafeIO : Z := 17.
Definition GroupUnknown : Z := 18.

Record groupInfo := { gi_name : string; gi_tier : Z }.

Definition groupTable : list (Z * groupInfo) := [
  (GroupRead, {| gi_name := "read"; gi_tier := Low |});
  (GroupWrite, {| gi_name := "write"; gi_tier := Medium |});
  (GroupModify, {| gi_name := "modify"; gi_tier := Medium |});
  (GroupDelete, {| gi_name := "delete"; gi_tier := High |});
  (GroupBulkLoad, {| gi_name := "bulk_load"; gi_tier := High |});
  (GroupBulkExport, {| gi_name := "bulk_export"; gi_tier := Critical |});
  (GroupSchemaCreate, {| gi_name := "schema_create"; gi_tier := High |});
  (GroupSchemaAlter, {| gi_name := "schema_alter"; gi_tier := High |});
  (GroupSchemaDestroy, {| gi_name := "schema_destroy"; gi_tier := Critical |});
  (GroupPrivilege, {| gi_name := "privilege"; gi_tier := Critical |});
  (GroupTransaction, {| gi_name := "transaction"; gi_tier := Low |});
  (GroupSession, {| gi_name := "session"; gi_tier := Low |});
  (GroupMaintenance, {| gi_name := "maintenance"; gi_tier := Medium |});
  (GroupLock, {| gi_name := "lock"; gi_tier := Medium |});
  (GroupNotify, {| gi_name := "notify"; gi_tier := Low |});
  (GroupProcedural, {| gi_name := "procedural"; gi_tier := High |});
  (GroupUnsafeIO, {| gi_name := "unsafe_io"; gi_tier := Critical |});
  (GroupUnknown, {| gi_name := "unknown"; gi_tier := Critical |})
].

Definition Group_String (g : Z) : string :=
  match assoc g groupTable with Some info => gi_name info | None => "unknown" end.

Definition Group_RiskTier (g : Z) : Z :=
  match assoc g groupTable with Some info => gi_tier info | None => Critical end.

(** [ParseGroup] ranges over the table; [tbl] is the iteration order. *)
Fixpoint ParseGroup_over (tbl : list (Z * groupInfo)) (name : string) : option Z :=
  match tbl with
  | [] => None
  | (g, info) :: tbl =>
      if String.eqb (gi_name info) name then Some g else ParseGroup_over tbl name
  end.
Definition ParseGroup (name : string) : option Z := ParseGroup_over groupTable name.

(** ** Subtypes (subtype.go) *)

Definition SubtypeNone : Z := 0.
Definition SubtypeSet : Z := 1.
Definition SubtypeSetSearchPath : Z := 2.
Definition SubtypeSetRole : Z := 3.
Definition SubtypeSetSessionAuthorization : Z := 4.
Definition SubtypeSetLocal : Z := 5.
Definition SubtypeReset : Z := 6.
Definition SubtypeResetAll : Z := 7.
Definition SubtypeDiscard : Z := 8.
Definition SubtypeDiscardAll : Z := 9.
Definition SubtypeDiscardTemp : Z := 10.
Definition SubtypeDiscardPlans : Z := 11.
Definition SubtypeDiscardSequences : Z := 12.
Definition SubtypeCancelRequest : Z := 13.
Definition SubtypeCreateTable : Z := 14.
Definition SubtypeCreateIndex : Z := 15.
Definition SubtypeCreateView : Z := 16.
Definition SubtypeCreateSchema : Z := 17.
Definition SubtypeCreateFunction : Z := 18.
Definition SubtypeCreateMaterializedView : Z := 19.
Definition SubtypeCreateExtension : Z := 20.
Definition SubtypeCreateDatabase : Z := 21.
Definition SubtypeCreatePublication : Z := 22.
Definition SubtypeAlterPublication : Z := 23.
Definition SubtypeDropTable : Z := 24.
Definition SubtypeDropDatabase : Z := 25.
Definition SubtypeDropSchema : Z := 26.
Definition SubtypeDropIndex : Z := 27.
Definition SubtypeDropView : Z := 28.
Definition SubtypeDropFunction : Z := 29.
Definition SubtypeDropPublication : Z := 30.
Definition SubtypeTruncate : Z := 31.
Definition SubtypeGrant : Z := 32.
Definition SubtypeRevoke : Z := 33.
Definition SubtypeAlterRole : Z := 34.
Definition SubtypeCreateRole : Z := 35.
Definition SubtypeDropRole : Z := 36.
Definition SubtypeAlterSystem : Z := 37.
Definition SubtypeSecurityLabel : Z := 38.
Definition SubtypeCopyFromStdin : Z := 39.
Definition SubtypeCopyFromS3 : Z := 40.
Definition SubtypeCopyToStdout : Z := 41.
Definition SubtypeUnloadToS3 : Z := 42.
Definition SubtypeFunctionCallProtocol : Z := 43.
Definition SubtypeEscalatedFunctionCall : Z := 44.
Definition SubtypeCall : Z := 45.
Definition SubtypeDo : Z := 46.
Definition SubtypeAnonymousBlock : Z := 47.
Definition SubtypeDoOrAnon : Z := 48.
Definition SubtypeCreateSubscription : Z := 49.
Definition SubtypeAlterSubscription : Z := 50.
Definition SubtypeDropSubscription : Z := 51.
Definition SubtypeCreateServer : Z := 52.
Definition SubtypeAlterServer : Z := 53.
Definition SubtypeDropServer : Z := 54.
Definition SubtypeCreateUserMapping : Z := 55.
Definition SubtypeAlterUserMapping : Z := 56.
Definition SubtypeDropUserMapping : Z := 57.
Definition SubtypeCreateTablespace : Z := 58.
Definition SubtypeAlterTablespace : Z := 59.
Definition SubtypeDropTablespace : Z := 60.
Definition SubtypeCopyToPath : Z := 61.
Definition SubtypeCopyFromPath : Z := 62.
Definition SubtypeCopyToProgram : Z := 63.
Definition SubtypeCopyFromProgram : Z := 64.
Definition SubtypeLargeObjectIO : Z := 65.
Definition SubtypeServerFileRead : Z := 66.
Definition SubtypeDblinkCall : Z := 67.
Definition SubtypeFdwAccess : Z := 68.

(** [subtypeTable]: the name and the parent group of every subtype. *)
Definition subtypeTable : list (Z * (string * Z)) := [
  (SubtypeNone, ("", 0));
  (SubtypeSet, ("set", GroupSession));
  (SubtypeSetSearchPath, ("set_search_path", GroupSession));
  (SubtypeSetRole, ("set_role", GroupSession));
  (SubtypeSetSessionAuthorization, ("set_session_authorization", GroupSession));
  (SubtypeSetLocal, ("set_local", GroupSession));
  (SubtypeReset, ("reset", GroupSession));
  (SubtypeResetAll, ("reset_all", GroupSession));
  (SubtypeDiscard, ("discard", GroupSession));
  (SubtypeDiscardAll, ("discard_all", GroupSession));
  (SubtypeDiscardTemp, ("discard_temp", GroupSession));
  (SubtypeDiscardPlans, ("discard_plans", GroupSession));
  (SubtypeDiscardSequences, ("discard_sequences", GroupSession));
  (SubtypeCancelRequest, ("cancel_request", GroupSession));
  (SubtypeCreateTable, ("create_table", GroupSchemaCreate));
  (SubtypeCreateIndex, ("create_index", GroupSchemaCreate));
  (SubtypeCreateView, ("create_view", GroupSchemaCreate));
  (SubtypeCreateSchema, ("create_schema", GroupSchemaCreate));
  (SubtypeCreateFunction, ("create_function", GroupSchemaCreate));
  (SubtypeCreateMaterializedView, ("create_materialized_view", GroupSchemaCreate));
  (SubtypeCreateExtension, ("create_extension", GroupSchemaCreate));
  (SubtypeCreateDatabase, ("create_database", GroupSchemaCreate));
  (SubtypeCreatePublication, ("create_publication", GroupSchemaCreate));
  (SubtypeAlterPublication, ("alter_publication", GroupSchemaAlter));
  (SubtypeDropTable, ("drop_table", GroupSchemaDestroy));
  (SubtypeDropDatabase, ("drop_database", GroupSchemaDestroy));
  (SubtypeDropSchema, ("drop_schema", GroupSchemaDestroy));
  (SubtypeDropIndex, ("drop_index", GroupSchemaDestroy));
  (SubtypeDropView, ("drop_view", GroupSchemaDestroy));
  (SubtypeDropFunction, ("drop_function", GroupSchemaDestroy));
  (SubtypeDropPublication, ("drop_publication", GroupSchemaDestroy));
  (SubtypeTruncate, ("truncate", GroupSchemaDestroy));
  (SubtypeGrant, ("grant", GroupPrivilege));
  (SubtypeRevoke, ("revoke", GroupPrivilege));
  (SubtypeAlterRole, ("alter_role", GroupPrivilege));
  (SubtypeCreateRole, ("create_role", GroupPrivilege));
  (SubtypeDropRole, ("drop_role", GroupPrivilege));
  (SubtypeAlterSystem, ("alter_system", GroupPrivilege));
  (SubtypeSecurityLabel, ("security_label", GroupPrivilege));
  (SubtypeCopyFromStdin, ("copy_from_stdin", GroupBulkLoad));
  (SubtypeCopyFromS3, ("copy_from_s3", GroupBulkLoad));
  (SubtypeCopyToStdout, ("copy_to_stdout", GroupBulkExport));
  (SubtypeUnloadToS3, ("unload_to_s3", GroupBulkExport));
  (SubtypeFunctionCallProtocol, ("function_call_protocol", GroupProcedural));
  (SubtypeEscalatedFunctionCall, ("escalated_function_call", GroupProcedural));
  (SubtypeCall, ("call", GroupProcedural));
  (SubtypeDo, ("do", GroupProcedural));
  (SubtypeAnonymousBlock, ("anonymous_block", GroupProcedural));
  (SubtypeDoOrAnon, ("do_or_anon", GroupProcedural));
  (SubtypeCreateSubscription, ("create_subscription", GroupUnsafeIO));
  (SubtypeAlterSubscription, ("alter_subscription", GroupUnsafeIO));
  (SubtypeDropSubscription, ("drop_subscription", GroupUnsafeIO));
  (SubtypeCreateServer, ("create_server", GroupUnsafeIO));
  (SubtypeAlterServer, ("alter_server", GroupUnsafeIO));
  (SubtypeDropServer, ("drop_server", GroupUnsafeIO));
  (SubtypeCreateUserMapping, ("create_user_mapping", GroupUnsafeIO));
  (SubtypeAlterUserMapping, ("alter_user_mapping", GroupUnsafeIO));
  (SubtypeDropUserMapping, ("drop_user_mapping", GroupUnsafeIO));
  (SubtypeCreateTablespace, ("create_tablespace", GroupUnsafeIO));
  (SubtypeAlterTablespace, ("alter_tablespace", GroupUnsafeIO));
  (SubtypeDropTablespace, ("drop_tablespace", GroupUnsafeIO));
  (SubtypeCopyToPath, ("copy_to_path", GroupUnsafeIO));
  (SubtypeCopyFromPath, ("copy_from_path", GroupUnsafeIO));
  (SubtypeCopyToProgram, ("copy_to_program", GroupUnsafeIO));
  (SubtypeCopyFromProgram, ("copy_from_program", GroupUnsafeIO));
  (SubtypeLargeObjectIO, ("large_object_io", GroupUnsafeIO));
  (SubtypeServerFileRead, ("server_file_read", GroupUnsafeIO));
  (SubtypeDblinkCall, ("dblink_call", GroupUnsafeIO));
  (SubtypeFdwAccess, ("fdw_access", GroupUnsafeIO))
].

Definition Subtype_String (s : Z) : string :=
  match assoc s subtypeTable with Some info => info.1 | None => "" end.

Definition Subtype_Group (s : Z) : Z :=
  match assoc s subtypeTable with Some info => info.2 | None => 0 end.

Fixpoint ParseSubtype_over (tbl : list (Z * (string * Z))) (name : string) : option Z :=
  match tbl with
  | [] => None
  | (s, info) :: tbl => if String.eqb info.1 name then Some s else ParseSubtype_over tbl name
  end.
Definition ParseSubtype (name : string) : option Z :=
  if String.eqb name "" then None else ParseSubtype_over subtypeTable name.

(** ** Operator aliases (alias.go) *)
Definition aliasTable : list (string * list Z) := [
  ("READ", [GroupRead]);
  ("INSERT", [GroupWrite]);
  ("UPDATE", [GroupModify]);
  ("DELETE", [GroupDelete]);
  ("REMOVE", [GroupDelete]);
  ("CREATE", [GroupSchemaCreate]);
  ("DROP", [GroupSchemaDestroy]);
  ("ALTER", [GroupSchemaAlter]);
  ("TRUNCATE", [GroupSchemaDestroy]);
  ("EXPORT", [GroupBulkExport; GroupUnsafeIO]);
  ("LOAD", [GroupBulkLoad]);
  ("MUTATE", [GroupWrite; GroupModify; GroupDelete]);
  ("SCHEMA", [GroupSchemaCreate; GroupSchemaAlter; GroupSchemaDestroy]);
  ("MAINTENANCE", [GroupMaintenance]);
  ("LOCK_TABLES", [GroupLock]);
  ("LISTEN_NOTIFY", [GroupNotify]);
  ("DANGEROUS", [GroupSchemaDestroy; GroupPrivilege; GroupUnsafeIO; GroupProcedural;
                 GroupBulkExport; GroupLock])
].

(** The wildcard ranges over [groupTable]; every consumer uses the result as a set. *)
Definition ExpandAlias (token : string) : option (list Z) :=
  if String.eqb token "*" then
    Some (base.filter (λ g, g ≠ GroupUnknown) groupTable.*1)
  else match assoc token aliasTable with
  | Some groups => Some groups
  | None => match ParseGroup token with
            | Some g => Some [g]
            | None => None
            end
  end.

(** ** Resolution tags (resolution.go) *)
Definition ResolutionQualified : Z := 0.
Definition ResolutionUnqualified : Z := 1.
Definition ResolutionAmbiguousAfterSearchPath : Z := 2.
Definition ResolutionMaybeTempShadowed : Z := 3.
Definition ResolutionUnresolved : Z := 4.
Definition ResolutionCatalogResolved : Z := 5.
Definition ResolutionCatalogUnresolved : Z := 6.
Definition ResolutionCatalogUnavailable : Z := 7.

Definition resolutionNames : list string := [
  "qualified_syntactic"; "unqualified_syntactic"; "ambiguous_after_search_path";
  "maybe_temp_shadowed"; "unresolved"; "catalog_resolved"; "catalog_unresolved";
  "catalog_unavailable"
].

Definition resolutionConfidenceRank : list (Z * Z) := [
  (ResolutionCatalogResolved, 0);
  (ResolutionQualified, 1);
  (ResolutionUnqualified, 2);
  (ResolutionAmbiguousAfterSearchPath, 3);
  (ResolutionMaybeTempShadowed, 4);
  (ResolutionUnresolved, 5);
  (ResolutionCatalogUnresolved, 6);
  (ResolutionCatalogUnavailable, 7)
].

Definition Resolution_String (r : Z) : string :=
  if Z.of_nat (length resolutionNames) <=? r then ""
  else default "" (resolutionNames !! Z.to_nat r).

Definition resolutionRank (r : Z) : Z :=
  match assoc r resolutionConfidenceRank with
  | Some rank => rank
  | None => default 0 (assoc ResolutionCatalogUnavailable resolutionConfidenceRank)
  end.

Definition Fold (rs : list Z) : Z :=
  match rs with
  | [] => ResolutionQualified
  | r0 :: rest =>
      fold_left (λ worst r, if resolutionRank worst <? resolutionRank r then r else worst) rest r0
  end.

Fixpoint ParseResolution_from (i : Z) (names : list string) (name : string) : option Z :=
  match names with
  | [] => None
  | n :: names => if String.eqb n name then Some i else ParseResolution_from (i + 1) names name
  end.
Definition ParseResolution (name : string) : option Z :=
  ParseResolution_from 0 resolutionNames name.

(** ** Object references (object.go, resolved_object.go) *)
Definition ObjectTable : Z := 1.
Definition ObjectView : Z := 2.
Definition ObjectFunction : Z := 3.
Definition ObjectSchema : Z := 4.
Definition ObjectIndex : Z := 5.
Definition ObjectSequence : Z := 6.
Definition ObjectExternalEndpoint : Z := 7.
Definition ObjectFilesystemPath : Z := 8.
Definition ObjectProgram : Z := 9.
Definition ObjectSubscription : Z := 10.
Definition ObjectPublication : Z := 11.
Definition ObjectServer : Z := 12.
Definition ObjectUserMapping : Z := 13.
Definition ObjectTablespace : Z := 14.
Definition ObjectGUC : Z := 15.
Definition ObjectRole : Z := 16.

Definition objectKindNames : list (Z * string) := [
  (ObjectTable, "table"); (ObjectView, "view"); (ObjectFunction, "function");
  (ObjectSchema, "schema"); (ObjectIndex, "index"); (ObjectSequence, "sequence");
  (ObjectExternalEndpoint, "external_endpoint"); (ObjectFilesystemPath, "filesystem_path");
  (ObjectProgram, "program"); (ObjectSubscription, "subscription");
  (ObjectPublication, "publication"); (ObjectServer, "server");
  (ObjectUserMapping, "user_mapping"); (ObjectTablespace, "tablespace");
  (ObjectGUC, "guc"); (ObjectRole, "role")
].

Definition ObjectKind_String (k : Z) : string := default "" (assoc k objectKindNames).

Record ObjectRef := {
  obj_Kind : Z; obj_Schema : string; obj_Name : string; obj_Host : string;
  obj_Port : Z; obj_Path : string; obj_Argv0 : string
}.
Definition zeroObjectRef : ObjectRef := Build_ObjectRef 0 "" "" "" 0 "" "".

Record objectRefJSON := {
  oj_Kind : string; oj_Schema : string; oj_Name : string; oj_Host : string;
  oj_Port : Z; oj_Path : string; oj_Argv0 : string
}.

(** [ObjectRef.MarshalJSON] up to [json.Marshal] of the intermediate struct. *)
Definition ObjectRef_MarshalJSON (r : ObjectRef) : objectRefJSON :=
  let k := ObjectKind_String (obj_Kind r) in
  if bool_decide (obj_Kind r ∈ [ObjectTable; ObjectView; ObjectFunction; ObjectIndex; ObjectSequence]) then
    Build_objectRefJSON k (obj_Schema r) (obj_Name r) "" 0 "" ""
  else if obj_Kind r =? ObjectExternalEndpoint then
    Build_objectRefJSON k "" "" (obj_Host r) (obj_Port r) "" ""
  else if obj_Kind r =? ObjectFilesystemPath then
    Build_objectRefJSON k "" "" "" 0 (obj_Path r) ""
  else if obj_Kind r =? ObjectProgram then
    Build_objectRefJSON k "" "" "" 0 "" (obj_Argv0 r)
  else Build_objectRefJSON k "" (obj_Name r) "" 0 "" "".

Fixpoint kind_by_name (tbl : list (Z * string)) (name : string) : option Z :=
  match tbl with
  | [] => None
  | (k, n) :: tbl => if String.eqb n name then Some k else kind_by_name tbl name
  end.

(** [ObjectRef.UnmarshalJSON] after [json.Unmarshal]; [recv] is the receiver,
    whose kind is kept when the name is unknown. *)
Definition ObjectRef_UnmarshalJSON (recv : ObjectRef) (raw : objectRefJSON) : ObjectRef := {|
  obj_Kind := default (obj_Kind recv) (kind_by_name objectKindNames (oj_Kind raw));
  obj_Schema := oj_Schema raw; obj_Name := oj_Name raw; obj_Host := oj_Host raw;
  obj_Port := oj_Port raw; obj_Path := oj_Path raw; obj_Argv0 := oj_Argv0 raw
|}.

Definition ResolvedObjectSourceCatalog : string := "catalog".
Definition ResolvedObjectRelation : string := "relation".
Definition ResolvedObjectFunction : string := "function".

Record ResolvedObjectRef := {
  ro_Source : string; ro_Kind : string; ro_OID : Z; ro_Schema : string; ro_Name : string;
  ro_RelationKind : string; ro_FunctionIdentityArgs : string;
  ro_FunctionVolatility : string; ro_UnresolvedReason : string
}.
Definition zeroResolvedObjectRef : ResolvedObjectRef :=
  Build_ResolvedObjectRef "" "" 0 "" "" "" "" "" "".

Definition CanonicalName (r : ResolvedObjectRef) : string :=
  if String.eqb (ro_Schema r) "" then ro_Name r
  else ro_Schema r +:+ "." +:+ ro_Name r.

(** ** Effects (effect.go) *)
Record Effect := {
  eff_Group : Z; eff_Subtype : Z; eff_Objects : list ObjectRef;
  eff_ResolvedObjects : list ResolvedObjectRef; eff_Resolution : Z;
  eff_HasWhere : bool; eff_FunctionOID : option Z
}.

Definition canonicalGroupRankTable : list (Z * Z) := [
  (GroupUnknown, 0); (GroupUnsafeIO, 1); (GroupSchemaDestroy, 2);
  (GroupBulkExport, 3); (GroupPrivilege, 4);
  (GroupDelete, 0); (GroupSchemaCreate, 1); (GroupSchemaAlter, 2);
  (GroupBulkLoad, 3); (GroupProcedural, 4);
  (GroupModify, 0); (GroupWrite, 1); (GroupMaintenance, 2); (GroupLock, 3);
  (GroupRead, 0); (GroupTransaction, 1); (GroupSession, 2); (GroupNotify, 3)
].

(** Indexing a Go map by an absent key yields the zero value. *)
Definition canonicalGroupRank (g : Z) : Z := default 0 (assoc g canonicalGroupRankTable).

Definition effect_less (a b : Effect) : bool :=
  let ti := Group_RiskTier (eff_Group a) in
  let tj := Group_RiskTier (eff_Group b) in
  if negb (ti =? tj) then tj <? ti
  else canonicalGroupRank (eff_Group a) <? canonicalGroupRank (eff_Group b).

Definition Order (effects : list Effect) : list Effect := SliceStable effect_less effects.

(** ** Classified statements (statement.go) *)
Inductive ParserBackend := ParserBackendUnknown | ParserBackendLibPgQuery | ParserBackendPureGo.

Definition ParserBackend_String (b : ParserBackend) : string :=
  match b with
  | ParserBackendLibPgQuery => "libpg_query"
  | ParserBackendPureGo => "pure_go"
  | ParserBackendUnknown => ""
  end.

Inductive BulkOpKind := BulkOpNone | BulkOpIn | BulkOpOut.

Definition BulkOpKind_String (b : BulkOpKind) : string :=
  match b with BulkOpIn => "copy_in" | BulkOpOut => "copy_out" | BulkOpNone => "" end.

Definition in_quotes (s : string) : string :=
  String (ascii_of_nat 34) s +:+ String (ascii_of_nat 34) "".

Definition BulkOpKind_MarshalJSON (b : BulkOpKind) : string := in_quotes (BulkOpKind_String b).

Definition BulkOpKind_UnmarshalJSON (bs : string) : Result string BulkOpKind :=
  if String.eqb bs (in_quotes "") || String.eqb bs "null" then Ok BulkOpNone
  else if String.eqb bs (in_quotes "copy_in") then Ok BulkOpIn
  else if String.eqb bs (in_quotes "copy_out") then Ok BulkOpOut
  else Err ("unknown bulk_op " +:+ bs).

Record ClassifiedStatement := {
  cs_Effects : list Effect; cs_RawVerb : string; cs_ParserBackend : ParserBackend;
  cs_Error : string; cs_SourceStart : Z; cs_SourceEnd : Z; cs_PreparedName : string;
  cs_BulkOp : BulkOpKind
}.

Definition Primary (s : ClassifiedStatement) : option Effect := head (cs_Effects s).

Definition FoldResolution (s : ClassifiedStatement) : Z :=
  Fold (eff_Resolution <$> cs_Effects s).

(** ** Table lemmas *)
(** Searching a table by a column whose entries are distinct does not depend on
    the iteration order. *)
Section by_name.
Context {K V : Type} (nm : V → string).

Fixpoint parse_by (tbl : list (K * V)) (name : string) : option K :=
  match tbl with
  | [] => None
  | (k, v) :: tbl => if String.eqb (nm v) name then Some k else parse_by tbl name
  end.

Lemma parse_by_spec tbl name k :
  NoDup (nm <$> tbl.*2) →
  parse_by tbl name = Some k ↔ ∃ v, (k, v) ∈ tbl ∧ nm v = name.
Proof.
  induction tbl as [|[k' v'] tbl IH]; simpl; intros Hnd; [set_solver|].
  apply NoDup_cons in Hnd as [Hnin Hnd]. destruct (String.eqb_spec (nm v') name) as [<-|Hne].
  - split; [intros [= <-]; exists v'; set_solver|].
    intros (v & Hin & Heq). apply elem_of_cons in Hin as [[= -> ->]|Hin]; [done|].
    destruct Hnin. rewrite <-Heq. apply list_elem_of_fmap_2. by apply (list_elem_of_fmap_2 snd) in Hin.
  - rewrite IH by done. split; intros (v & Hin & Heq); exists v; [set_solver|].
    apply elem_of_cons in Hin as [[= -> ->]|Hin]; [congruence|done].
Qed.

Lemma parse_by_perm tbl tbl' name :
  NoDup (nm <$> tbl.*2) → tbl' ≡ₚ tbl → parse_by tbl' name = parse_by tbl name.
Proof.
  intros Hnd Hp. apply option_eq; intros k.
  rewrite !parse_by_spec; [|done|by rewrite Hp]. by setoid_rewrite Hp.
Qed.
End by_name.

Lemma ParseGroup_over_parse_by tbl name : ParseGroup_over tbl name = parse_by gi_name tbl name.
Proof. induction tbl as [|[??] tbl IH]; simpl; [done|]. by rewrite IH. Qed.

Lemma ParseSubtype_over_parse_by tbl name : ParseSubtype_over tbl name = parse_by fst tbl name.
Proof. induction tbl as [|[??] tbl IH]; simpl; [done|]. by rewrite IH. Qed.

Lemma groupTable_names : NoDup (gi_name <$> groupTable.*2).
Proof. by apply (bool_decide_unpack _); vm_compute. Qed.

Lemma subtypeTable_names : NoDup (fst <$> subtypeTable.*2).
Proof. by apply (bool_decide_unpack _); vm_compute. Qed.

Lemma forall_table {A} (p : A → bool) (l : list A) :
  forallb p l = true → ∀ x, x ∈ l → p x = true.
Proof. rewrite forallb_forall. intros H x Hx. apply H. by apply list_elem_of_In. Qed.

(** A decidable fact about every row of a table, by evaluation. *)
Lemma table_check {K V} (t : list (K * V)) (p : K → V → bool) k v :
  forallb (λ x, p x.1 x.2) t = true → (k, v) ∈ t → p k v = true.
Proof. intros Ht Hin. exact (forall_table _ _ Ht _ Hin). Qed.

(** The on-disk names are a bijection with the codes: every group, subtype
    and resolution tag is recovered from its printed name, a parsed name prints
    back, and the result of the name searches that range over a Go map does not
    depend on the iteration order of the map. *)
Theorem taxonomy_names_roundtrip :
  (∀ g, is_Some (assoc g groupTable) → ParseGroup (Group_String g) = Some g) ∧
  (∀ n g, ParseGroup n = Some g → Group_String g = n) ∧
  (∀ s, is_Some (assoc s subtypeTable) → s ≠ SubtypeNone → ParseSubtype (Subtype_String s) = Some s) ∧
  (∀ n s, ParseSubtype n = Some s → Subtype_String s = n) ∧
  (∀ r, 0 ≤ r < 8 → ParseResolution (Resolution_String r) = Some r) ∧
  (∀ tbl n, tbl ≡ₚ groupTable → ParseGroup_over tbl n = ParseGroup n) ∧
  (∀ tbl n, tbl ≡ₚ subtypeTable → ParseSubtype_over tbl n = ParseSubtype_over subtypeTable n).
Proof.
  split_and!.
  - intros g [i Hi%assoc_elem].
    apply (bool_decide_eq_true _), (table_check groupTable (λ g _, bool_decide (ParseGroup (Group_String g) = Some g)) g i); [by vm_compute|done].
  - intros n g Hp. unfold ParseGroup in Hp. rewrite ParseGroup_over_parse_by in Hp.
    apply parse_by_spec in Hp as (i & Hi & <-); [|apply groupTable_names].
    apply (bool_decide_eq_true _), (table_check groupTable (λ g i, bool_decide (Group_String g = gi_name i)) g i); [by vm_compute|done].
  - intros s [i Hi%assoc_elem] Hs.
    pose proof (table_check subtypeTable
      (λ s _, bool_decide (s ≠ SubtypeNone → ParseSubtype (Subtype_String s) = Some s)) s i) as Hc.
    apply bool_decide_eq_true in Hc; [auto|by vm_compute|done].
  - intros n s Hp. unfold ParseSubtype in Hp. case_match; [done|].
    rewrite ParseSubtype_over_parse_by in Hp.
    apply parse_by_spec in Hp as (i & Hi & <-); [|apply subtypeTable_names].
    apply (bool_decide_eq_true _), (table_check subtypeTable (λ s i, bool_decide (Subtype_String s = i.1)) s i); [by vm_compute|done].
  - intros r Hr. assert (r ∈ [0;1;2;3;4;5;6;7]) as Hin by (rewrite !elem_of_cons; lia).
    clear Hr; revert r Hin. apply Forall_forall. by repeat constructor.
  - intros tbl n Hp. unfold ParseGroup. rewrite !ParseGroup_over_parse_by.
    apply parse_by_perm; [apply groupTable_names|done].
  - intros tbl n Hp. rewrite !ParseSubtype_over_parse_by.
    apply parse_by_perm; [apply subtypeTable_names|done].
Qed.

(** ** Canonical effect order *)

Lemma effect_less_asym a b : effect_less a b = true → effect_less b a = false.
Proof. unfold effect_less. intros H. repeat case_match; bool_hyps; simpl in *; lia. Qed.

Lemma effect_less_negtrans a b c :
  effect_less b a = false → effect_less c b = false → effect_less c a = false.
Proof. unfold effect_less. intros H1 H2. repeat case_match; bool_hyps; simpl in *; lia. Qed.

Lemma effect_less_same_group g a b :
  bool_decide (eff_Group a = g) = true → bool_decide (eff_Group b = g) = true →
  effect_less a b = false.
Proof. intros; bool_hyps; subst. unfold effect_less. rewrite H0, Z.eqb_refl. apply Z.ltb_irrefl. Qed.

(** [Order] rearranges the effects without losing or inventing any, leaves no
    pair out of canonical order (tier first, then the within-tier rank), and is
    stable: effects of one group keep their classifier order. *)
Theorem Order_canonical (effects : list Effect) :
  Order effects ≡ₚ effects ∧
  StronglySorted (λ a b, effect_less b a = false) (Order effects) ∧
  ∀ g, base.filter (λ e, bool_decide (eff_Group e = g) = true) (Order effects)
       = base.filter (λ e, bool_decide (eff_Group e = g) = true) effects.
Proof.
  split_and!.
  - apply SliceStable_perm.
  - apply SliceStable_sorted; [apply effect_less_asym|apply effect_less_negtrans].
  - intros g. apply (SliceStable_stable effect_less). intros; by eapply effect_less_same_group.
Qed.

(** The primary effect of a statement whose effects are in canonical order is a
    riskiest one: no effect of the statement is in a higher tier. *)
Theorem primary_effect_riskiest (effects : list Effect) (cs : ClassifiedStatement) (p e : Effect) :
  cs_Effects cs = Order effects → Primary cs = Some p → e ∈ effects →
  Group_RiskTier (eff_Group e) ≤ Group_RiskTier (eff_Group p).
Proof.
  intros Ho Hp He. unfold Primary in Hp. rewrite Ho in Hp.
  assert (e ∈ Order effects) as Hin by (by unfold Order; rewrite SliceStable_perm).
  pose proof (SliceStable_sorted effect_less effect_less_asym effect_less_negtrans effects) as Hs.
  unfold Order in *. destruct Hs as [|x l Hs Hx]; simplify_eq/=.
  apply elem_of_cons in Hin as [->|Hin]; [lia|].
  rewrite Forall_forall in Hx. specialize (Hx e Hin). unfold effect_less in Hx.
  repeat case_match; bool_hyps; lia.
Qed.

Definition demo_effect (g : Z) : Effect := Build_Effect g 0 [] [] 0 false None.

Lemma primary_effect_riskiest_witness :
  Group_RiskTier GroupRead ≤ Group_RiskTier GroupDelete.
Proof.
  apply (primary_effect_riskiest [demo_effect GroupRead; demo_effect GroupDelete; demo_effect GroupWrite]
    (Build_ClassifiedStatement
       (Order [demo_effect GroupRead; demo_effect GroupDelete; demo_effect GroupWrite])
       "DELETE" ParserBackendLibPgQuery "" 0 0 "" BulkOpNone)
    (demo_effect GroupDelete) (demo_effect GroupRead)); [reflexivity|vm_compute; reflexivity|].
  apply elem_of_cons; by left.
Defined.

(** ** Resolution folding *)
Lemma fold_worst_spec (rest : list Z) (r0 : Z) :
  let w := fold_left (λ worst r, if resolutionRank worst <? resolutionRank r then r else worst) rest r0 in
  (w = r0 ∨ w ∈ rest) ∧ resolutionRank r0 ≤ resolutionRank w ∧
  ∀ r, r ∈ rest → resolutionRank r ≤ resolutionRank w.
Proof.
  revert r0. induction rest as [|x rest IH]; intros r0; simpl; [set_solver by lia|].
  destruct (IH (if resolutionRank r0 <? resolutionRank x then x else r0)) as (Hw & Hge & Hall).
  destruct (Z.ltb_spec (resolutionRank r0) (resolutionRank x));
    (split_and!; [set_solver|lia|]); intros r [->|Hr]%elem_of_cons; auto; lia.
Qed.

(** [Fold] returns a member of a non-empty list and no member is less confident:
    the statement-level resolution never overstates confidence. *)
Theorem Fold_worst (rs : list Z) (r : Z) :
  r ∈ rs → Fold rs ∈ rs ∧ resolutionRank r ≤ resolutionRank (Fold rs).
Proof.
  destruct rs as [|r0 rest]; [set_solver|]. intros Hr. unfold Fold.
  destruct (fold_worst_spec rest r0) as (Hw & Hge & Hall). split; [set_solver|].
  apply elem_of_cons in Hr as [->|Hr]; auto.
Qed.

Lemma Fold_worst_witness :
  Fold [ResolutionQualified; ResolutionUnresolved; ResolutionCatalogResolved] = ResolutionUnresolved ∧
  resolutionRank ResolutionCatalogResolved
  ≤ resolutionRank (Fold [ResolutionQualified; ResolutionUnresolved; ResolutionCatalogResolved]).
Proof.
  split; [reflexivity|].
  apply (Fold_worst [ResolutionQualified; ResolutionUnresolved; ResolutionCatalogResolved]
           ResolutionCatalogResolved).
  rewrite !elem_of_cons. by right; right; left.
Defined.

(** ** Alias expansion *)

Lemma group_key_known g : g ∈ groupTable.*1 → is_Some (assoc g groupTable).
Proof.
  intros Hg. pose proof (forall_table (λ g, bool_decide (is_Some (assoc g groupTable)))
    groupTable.*1 eq_refl g Hg) as Hc. by apply bool_decide_eq_true in Hc.
Qed.

(** An operation token expands only to groups of the table, never to the empty
    list, and reaches [GroupUnknown] only when the operator spells it out: the
    wildcard covers exactly the other seventeen groups. *)
Theorem ExpandAlias_sound (token : string) (gs : list Z) :
  ExpandAlias token = Some gs →
  gs ≠ [] ∧ (∀ g, g ∈ gs → is_Some (assoc g groupTable)) ∧
  (GroupUnknown ∈ gs → token = "unknown") ∧
  (token = "*" → ∀ g, is_Some (assoc g groupTable) → g ≠ GroupUnknown → g ∈ gs).
Proof.
  unfold ExpandAlias. destruct (String.eqb_spec token "*") as [->|Hstar].
  - intros [= <-]. split_and!; [by vm_compute|..].
    + intros g [_ Hg]%list_elem_of_filter. by apply group_key_known.
    + by intros [? _]%list_elem_of_filter.
    + intros _ g [i Hi%assoc_elem] Hne. apply list_elem_of_filter; split; [done|].
      by apply (list_elem_of_fmap_2 fst) in Hi.
  - destruct (assoc token aliasTable) as [groups|] eqn:Ha.
    + intros [= ->]. apply assoc_elem in Ha.
      pose proof (table_check aliasTable (λ _ gs, bool_decide (gs ≠ []) &&
        bool_decide (GroupUnknown ∉ gs) && forallb (λ g, bool_decide (is_Some (assoc g groupTable))) gs)
        _ _ eq_refl Ha) as Hc.
      cbv beta in Hc. bool_hyps. split_and!; try done. intros g Hg.
      pose proof (forall_table (λ g, bool_decide (is_Some (assoc g groupTable))) gs
        ltac:(done) g Hg) as Hc'. by apply bool_decide_eq_true in Hc'.
    + destruct (ParseGroup token) as [g|] eqn:Hp; [|done]. intros [= <-].
      unfold ParseGroup in Hp. rewrite ParseGroup_over_parse_by in Hp.
      apply parse_by_spec in Hp as (i & Hi & <-); [|apply groupTable_names].
      split_and!; [done| |..].
      * intros g' ->%list_elem_of_singleton. apply group_key_known. by apply (list_elem_of_fmap_2 fst) in Hi.
      * intros Hu%list_elem_of_singleton.
        pose proof (table_check groupTable
          (λ g i, bool_decide (GroupUnknown = g → gi_name i = "unknown")) g i eq_refl Hi) as Hc.
        apply bool_decide_eq_true in Hc. auto.
      * done.
Qed.

Lemma ExpandAlias_sound_witness :
  GroupUnknown ∉ default [] (ExpandAlias "DANGEROUS") ∧ default [] (ExpandAlias "DANGEROUS") ≠ [].
Proof.
  destruct (ExpandAlias_sound "DANGEROUS"
    [GroupSchemaDestroy; GroupPrivilege; GroupUnsafeIO; GroupProcedural; GroupBulkExport; GroupLock]
    eq_refl) as (H1 & _ & H2 & _).
  split; [intros H; discriminate (H2 H)|exact H1].
Defined.
