(* ===== verification/DbPolicy.v ===== *)
(** * Database policy: rule compilation and statement evaluation
    (internal/db/policy: types.go, compile.go, evaluate.go)

    The three-pass evaluator: explicit deny, per-object coverage, and the
    most-restrictive fold over rules and effects. *)

From S2P Require Import Prelude DbEffects.
Open Scope Z_scope.

(** ** Types (types.go) *)
Inductive DecisionVerb := VerbAllow | VerbAudit | VerbRedirect | VerbApprove | VerbDeny.
#[global] Instance DecisionVerb_eq_dec : EqDecision DecisionVerb.
Proof. solve_decision. Defined.

Definition DecisionVerb_String (v : DecisionVerb) : string :=
  match v with
  | VerbAllow => "allow" | VerbAudit => "audit" | VerbRedirect => "redirect"
  | VerbApprove => "approve" | VerbDeny => "deny"
  end.

Inductive RuleKind := RuleKindStatement | RuleKindConnection | RuleKindCancel.
#[global] Instance RuleKind_eq_dec : EqDecision RuleKind.
Proof. solve_decision. Defined.

Definition RuleKind_String (k : RuleKind) : string :=
  match k with
  | RuleKindStatement => "statement" | RuleKindConnection => "connection"
  | RuleKindCancel => "cancel"
  end.

Record RedirectAction := { ra_Relation : string }.
Record RedirectDecision := { rd_SourceRelation : string; rd_TargetRelation : string }.

Inductive ConnectionMatchKind := MatchConnect | MatchCancel | MatchReplication.
#[global] Instance ConnectionMatchKind_eq_dec : EqDecision ConnectionMatchKind.
Proof. solve_decision. Defined.

Record DBService := {
  svc_Name : string; svc_Family : string; svc_Dialect : string; svc_Upstream : string;
  svc_TLSMode : string; svc_AllowFunctionCallProtocol : bool; svc_AllowGSSEncryption : bool;
  svc_TrustedNetwork : bool
}.

(** Durations are nanosecond counts. *)
Record StatementRule := {
  sr_Name : string; sr_DBService : string; sr_DBFamily : string; sr_DBDialect : string;
  sr_Schemas : list string; sr_Objects : list string; sr_Relations : list string;
  sr_Functions : list string; sr_Operations : list string; sr_Subtypes : list string;
  sr_MatchObjectResolution : string; sr_RequireWhere : bool; sr_Decision : string;
  sr_Message : string; sr_Timeout : Z; sr_Redirect : option RedirectAction;
  sr_AcknowledgeAuditOnDangerous : bool; sr_DenyModeInTx : string
}.
Definition zeroStatementRule : StatementRule :=
  Build_StatementRule "" "" "" "" [] [] [] [] [] [] "" false "" "" 0 None false "".

Record ConnectionRule := {
  cr_Name : string; cr_DBService : string; cr_MatchKind : string; cr_DBUser : list string;
  cr_Database : string; cr_ApplicationName : string; cr_ClientIdentity : string;
  cr_Decision : string; cr_Message : string; cr_Timeout : Z
}.

Record ConnectionInfo := {
  ci_Service : string; ci_MatchKind : ConnectionMatchKind; ci_DBUser : string;
  ci_Database : string; ci_ApplicationName : string; ci_ClientIdentity : string
}.

Record ApprovalRequest := { ar_Timeout : Z; ar_ContributingApproveRules : list string }.

Record Decision := {
  d_Verb : DecisionVerb; d_RuleKind : RuleKind; d_RuleName : string;
  d_MatchingEffectIndex : Z; d_MatchingEffectGroup : Z; d_Reason : string;
  d_ContributingAuditRules : list string; d_Approval : option ApprovalRequest;
  d_Redirect : option RedirectDecision
}.

Definition mkDecision (v : DecisionVerb) (k : RuleKind) (name : string) (idx grp : Z)
    (reason : string) : Decision :=
  Build_Decision v k name idx grp reason [] None None.

(** ** Compiled rules (compile.go) *)
Definition second : Z := 1000000000.
Definition defaultApproveTimeout : Z := 60 * second.

Record messageContext := {
  mc_Operation : string; mc_Subtype : string; mc_Schema : string; mc_Object : string;
  mc_Verb : string; mc_StatementPreview : string
}.

(** Go's [text/template]. *)
Class TemplateLib := {
  template : Type;
  template_Parse : string → option template;
  template_Execute : template → messageContext → Result string string;
}.

Inductive resolutionMatcher := resAny | resEq (r : Z).

Definition resolutionMatcher_matches (m : resolutionMatcher) (r : Z) : bool :=
  match m with resAny => true | resEq r' => r' =? r end.

Record serviceFilter := { sf_service : string; sf_family : string; sf_dialect : string }.

(** [svc] is [None] for a nil [*DBService]. *)
Definition serviceFilter_matches (f : serviceFilter) (id : string) (svc : option DBService) : bool :=
  if negb (String.eqb (sf_service f) "") && negb (String.eqb (sf_service f) id) then false
  else if negb (String.eqb (sf_family f) "") &&
          match svc with None => true | Some s => negb (String.eqb (svc_Family s) (sf_family f)) end
  then false
  else if negb (String.eqb (sf_dialect f) "") &&
          match svc with None => true | Some s => negb (String.eqb (svc_Dialect s) (sf_dialect f)) end
  then false
  else true.

Inductive CompileError :=
| CE_UnhandledDecision (rule decision : string)
| CE_IncompleteRedirect (rule : string)
| CE_UnknownOperation (rule op : string)
| CE_UnknownSubtype (rule st : string)
| CE_UnknownResolution (rule res : string)
| CE_UnhandledMatchKind (rule mk : string)
| CE_Glob (rule field pat : string)
| CE_Template (rule : string).

Section policy.
Context `{GoLib, GlobLib, TemplateLib}.

Record compiledStatementRule := {
  c_src : StatementRule; c_verb : DecisionVerb; c_groups : gset Z; c_subtypes : gset Z;
  c_requireWhere : bool; c_resolution : resolutionMatcher; c_schemas : list glob;
  c_objects : list glob; c_relations : list glob; c_functions : list glob;
  c_timeout : Z; c_msgTemplate : option template; c_redirect : option RedirectDecision;
  c_serviceFilter : serviceFilter
}.

Record compiledConnectionRule := {
  cc_src : ConnectionRule; cc_verb : DecisionVerb; cc_matchKind : ConnectionMatchKind;
  cc_dbUsers : gset string; cc_database : string; cc_applicationName : option glob;
  cc_clientIdentity : option glob; cc_timeout : Z; cc_msgTemplate : option template;
  cc_serviceFilter : serviceFilter
}.

(** [RuleSet] less the redaction and unavoidability settings, which no
    evaluator reads. *)
Record RuleSet := {
  rs_services : gmap string DBService;
  rs_statement : list compiledStatementRule;
  rs_connection : list compiledConnectionRule
}.

Definition compile_globs (rule field : string) (pats : list string) : Result CompileError (list glob) :=
  rmap (λ pat, match glob_Compile pat [] with
               | Some g => Ok g
               | None => Err (CE_Glob rule field pat)
               end) pats.

Definition compile_message (rule msg : string) : Result CompileError (option template) :=
  if negb (String.eqb (TrimSpace msg) "") then
    match template_Parse msg with
    | Some t => Ok (Some t)
    | None => Err (CE_Template rule)
    end
  else Ok None.

Definition parse_decision (name dec : string) : Result CompileError DecisionVerb :=
  if String.eqb dec "allow" then Ok VerbAllow
  else if String.eqb dec "deny" then Ok VerbDeny
  else if String.eqb dec "approve" then Ok VerbApprove
  else if String.eqb dec "audit" then Ok VerbAudit
  else if String.eqb dec "redirect" then Ok VerbRedirect
  else Err (CE_UnhandledDecision name dec).

Definition compile_redirect (r : StatementRule) (verb : DecisionVerb)
    : Result CompileError (option RedirectDecision) :=
  if decide (verb = VerbRedirect) then
    match sr_Relations r, sr_Redirect r with
    | [src], Some a =>
        if String.eqb (ra_Relation a) "" then Err (CE_IncompleteRedirect (sr_Name r))
        else Ok (Some {| rd_SourceRelation := src; rd_TargetRelation := ra_Relation a |})
    | _, _ => Err (CE_IncompleteRedirect (sr_Name r))
    end
  else Ok None.

Definition compile_resolution (r : StatementRule) : Result CompileError resolutionMatcher :=
  let m := sr_MatchObjectResolution r in
  if String.eqb m "" || String.eqb m "*" then Ok resAny
  else match ParseResolution m with
       | Some res => Ok (resEq res)
       | None => Err (CE_UnknownResolution (sr_Name r) m)
       end.

(** [compileStatementRule]: every early return in source order. *)
Definition compileStatementRule (r : StatementRule) : Result CompileError compiledStatementRule :=
  let! verb := parse_decision (sr_Name r) (sr_Decision r) in
  let! redirect := compile_redirect r verb in
  let! gss := rmap (λ op, match ExpandAlias op with
                          | Some gs => Ok gs
                          | None => Err (CE_UnknownOperation (sr_Name r) op)
                          end) (sr_Operations r) in
  let! sts := rmap (λ st, match ParseSubtype st with
                          | Some s => Ok s
                          | None => Err (CE_UnknownSubtype (sr_Name r) st)
                          end) (sr_Subtypes r) in
  let! res := compile_resolution r in
  let! schemas := compile_globs (sr_Name r) "schemas" (sr_Schemas r) in
  let! objects := compile_globs (sr_Name r) "objects" (sr_Objects r) in
  let! relations := compile_globs (sr_Name r) "relations" (sr_Relations r) in
  let! functions := compile_globs (sr_Name r) "functions" (sr_Functions r) in
  let! tmpl := compile_message (sr_Name r) (sr_Message r) in
  Ok {|
    c_src := r; c_verb := verb;
    c_groups := list_to_set (mjoin gss); c_subtypes := list_to_set sts;
    c_requireWhere := sr_RequireWhere r; c_resolution := res;
    c_schemas := schemas; c_objects := objects; c_relations := relations;
    c_functions := functions;
    c_timeout := if String.eqb (sr_Decision r) "approve" && (sr_Timeout r =? 0)
                 then defaultApproveTimeout else sr_Timeout r;
    c_msgTemplate := tmpl; c_redirect := redirect;
    c_serviceFilter := {| sf_service := sr_DBService r; sf_family := sr_DBFamily r;
                          sf_dialect := sr_DBDialect r |}
  |}.

Definition hasObjectSelectors (c : compiledStatementRule) : bool :=
  match c_objects c, c_relations c, c_functions c with [], [], [] => false | _, _, _ => true end.
Definition coversAllObjects (c : compiledStatementRule) : bool := negb (hasObjectSelectors c).
Definition matchesResolution (c : compiledStatementRule) (r : Z) : bool :=
  resolutionMatcher_matches (c_resolution c) r.

Definition any_glob (gs : list glob) (target : string) : bool :=
  existsb (λ g, glob_Match g target) gs.

Definition objectMatchField (o : ObjectRef) : string :=
  if obj_Kind o =? ObjectExternalEndpoint then obj_Host o
  else if obj_Kind o =? ObjectFilesystemPath then obj_Path o
  else if obj_Kind o =? ObjectProgram then obj_Argv0 o
  else obj_Name o.

Definition objectMatches (c : compiledStatementRule) (o : ObjectRef) : bool :=
  if coversAllObjects c then true else any_glob (c_objects c) (objectMatchField o).

Definition schemaMatchesObjectSlot (c : compiledStatementRule) (o : ObjectRef)
    (resolved : ResolvedObjectRef) (hasResolved : bool) : bool :=
  match c_schemas c with
  | [] => true
  | gs => existsb (λ g,
      (negb (String.eqb (obj_Schema o) "") && glob_Match g (obj_Schema o)) ||
      (hasResolved && negb (String.eqb (ro_Schema resolved) "") && glob_Match g (ro_Schema resolved))) gs
  end.

Definition schemaMatchesResolvedObject (c : compiledStatementRule) (resolved : ResolvedObjectRef) : bool :=
  match c_schemas c with
  | [] => true
  | gs => if String.eqb (ro_Schema resolved) "" then false else any_glob gs (ro_Schema resolved)
  end.

Definition relationMatches (c : compiledStatementRule) (r : ResolvedObjectRef) : bool :=
  match c_relations c with
  | [] => false
  | gs =>
      if negb (String.eqb (ro_Source r) ResolvedObjectSourceCatalog) ||
         negb (String.eqb (ro_Kind r) ResolvedObjectRelation) ||
         negb (String.eqb (ro_UnresolvedReason r) "")
      then false else any_glob gs (CanonicalName r)
  end.

Definition resolvedFunctionIdentity (r : ResolvedObjectRef) : string :=
  CanonicalName r +:+ "(" +:+ ro_FunctionIdentityArgs r +:+ ")".

Definition functionMatches (c : compiledStatementRule) (r : ResolvedObjectRef) : bool :=
  match c_functions c with
  | [] => false
  | gs =>
      if negb (String.eqb (ro_Source r) ResolvedObjectSourceCatalog) ||
         negb (String.eqb (ro_Kind r) ResolvedObjectFunction) ||
         negb (String.eqb (ro_UnresolvedReason r) "")
      then false else any_glob gs (resolvedFunctionIdentity r)
  end.

Definition render (tmpl : option template) (raw : string) (ctx : messageContext) : string :=
  match tmpl with
  | None => raw
  | Some t => match template_Execute t ctx with
              | Ok s => s
              | Err e => "<message render error: " +:+ e +:+ ">"
              end
  end.
Definition renderMessage (c : compiledStatementRule) (ctx : messageContext) : string :=
  render (c_msgTemplate c) (sr_Message (c_src c)) ctx.

(** ** The evaluator (evaluate.go) *)

(** [internalVerb]: the order of the constructors is the order of the codes. *)
Inductive internalVerb :=
| verbAllow | verbAudit | verbRedirect | verbApprove | verbImplicitDeny | verbDeny.

Definition verb_code (v : internalVerb) : Z :=
  match v with
  | verbAllow => 0 | verbAudit => 1 | verbRedirect => 2 | verbApprove => 3
  | verbImplicitDeny => 4 | verbDeny => 5
  end.

Definition compareInternalVerb (a b : internalVerb) : Z :=
  if verb_code b <? verb_code a then 1 else if verb_code a <? verb_code b then -1 else 0.

(** [None] in [ed_rule] is a nil rule pointer. *)
Record effectDecision := {
  ed_verb : internalVerb;
  ed_rule : option compiledStatementRule;
  ed_contributingApprove : list compiledStatementRule;
  ed_contributingAudit : list compiledStatementRule;
  ed_uncoveredObject : ObjectRef;
  ed_denyMatchingObject : ObjectRef
}.
Definition implicit_effect (o : ObjectRef) : effectDecision :=
  Build_effectDecision verbImplicitDeny None [] [] o zeroObjectRef.
Definition deny_effect (r : compiledStatementRule) (o : ObjectRef) : effectDecision :=
  Build_effectDecision verbDeny (Some r) [] [] zeroObjectRef o.

Definition statementRulesFor (rs : RuleSet) (svc : string) : list compiledStatementRule :=
  List.filter (λ r, serviceFilter_matches (c_serviceFilter r) svc (rs_services rs !! svc)) (rs_statement rs).

Definition isRelationObjectKind (kind : Z) : bool :=
  (kind =? ObjectTable) || (kind =? ObjectView) || (kind =? ObjectSequence).

(** [relationObjectSlotOrdinal] and [functionObjectSlotOrdinal], which differ in
    the kind test [p]: the ordinal of slot [idx] among the slots satisfying [p]. *)
Fixpoint slot_ordinal (p : Z → bool) (objects : list ObjectRef) (idx : nat) (ordinal : Z) : Z :=
  match objects with
  | [] => -1
  | o :: objects =>
      match idx with
      | O => if p (obj_Kind o) then ordinal else -1
      | S idx => slot_ordinal p objects idx (if p (obj_Kind o) then ordinal + 1 else ordinal)
      end
  end.
Definition relationObjectSlotOrdinal (objects : list ObjectRef) (idx : nat) : Z :=
  slot_ordinal isRelationObjectKind objects idx 0.
Definition functionObjectSlotOrdinal (objects : list ObjectRef) (idx : nat) : Z :=
  slot_ordinal (λ k, k =? ObjectFunction) objects idx 0.

(** [resolvedRelationObjectAtOrdinal] and [resolvedFunctionObjectAtOrdinal]. *)
Fixpoint resolved_at (kind : string) (ros : list ResolvedObjectRef) (ordinal count : Z) : option ResolvedObjectRef :=
  match ros with
  | [] => None
  | ro :: ros =>
      if negb (String.eqb (ro_Kind ro) kind) then resolved_at kind ros ordinal count
      else if count =? ordinal then Some ro
      else resolved_at kind ros ordinal (count + 1)
  end.
Definition resolvedRelationObjectAtOrdinal (ros : list ResolvedObjectRef) (ordinal : Z) : option ResolvedObjectRef :=
  if ordinal <? 0 then None else resolved_at ResolvedObjectRelation ros ordinal 0.
Definition resolvedFunctionObjectAtOrdinal (ros : list ResolvedObjectRef) (ordinal : Z) : option ResolvedObjectRef :=
  if ordinal <? 0 then None else resolved_at ResolvedObjectFunction ros ordinal 0.

Definition resolvedObjectCompatibleWithSlot (o : ObjectRef) (resolved : ResolvedObjectRef) : bool :=
  if String.eqb (obj_Name o) "" || String.eqb (ro_Name resolved) "" ||
     negb (String.eqb (obj_Name o) (ro_Name resolved)) then false
  else if negb (String.eqb (obj_Schema o) "") && negb (String.eqb (obj_Schema o) (ro_Schema resolved)) then false
  else if String.eqb (ro_Kind resolved) ResolvedObjectRelation then isRelationObjectKind (obj_Kind o)
  else if String.eqb (ro_Kind resolved) ResolvedObjectFunction then obj_Kind o =? ObjectFunction
  else false.

Definition resolvedObjectForSlot (e : Effect) (idx : nat) : option ResolvedObjectRef :=
  match eff_Objects e !! idx with
  | None => None
  | Some o =>
      if isRelationObjectKind (obj_Kind o) then
        match resolvedRelationObjectAtOrdinal (eff_ResolvedObjects e)
                (relationObjectSlotOrdinal (eff_Objects e) idx) with
        | Some resolved => if resolvedObjectCompatibleWithSlot o resolved then Some resolved else None
        | None => None
        end
      else if obj_Kind o =? ObjectFunction then
        match resolvedFunctionObjectAtOrdinal (eff_ResolvedObjects e)
                (functionObjectSlotOrdinal (eff_Objects e) idx) with
        | Some resolved => if resolvedObjectCompatibleWithSlot o resolved then Some resolved else None
        | None => None
        end
      else find_first (resolvedObjectCompatibleWithSlot o) (eff_ResolvedObjects e)
  end.

Definition ruleMatchesObjectSlot (r : compiledStatementRule) (e : Effect) (idx : nat) : bool * string :=
  match eff_Objects e !! idx with
  | None => (false, "")
  | Some o =>
      let res := resolvedObjectForSlot e idx in
      let hasResolved := bool_decide (is_Some res) in
      let resolved := default zeroResolvedObjectRef res in
      if negb (schemaMatchesObjectSlot r o resolved hasResolved) then (false, "")
      else if negb (hasObjectSelectors r) then (true, "all")
      else if negb (bool_decide (length (c_objects r) = O)) && objectMatches r o then (true, "objects")
      else if hasResolved && relationMatches r resolved then (true, "relations")
      else if hasResolved && functionMatches r resolved then (true, "functions")
      else (false, "")
  end.

Definition ruleMatchesEffectMeta (r : compiledStatementRule) (e : Effect) : bool :=
  if negb (bool_decide (eff_Group e ∈ c_groups r)) then false
  else if c_requireWhere r && negb (eff_HasWhere e) then false
  else if negb (bool_decide (c_subtypes r = ∅)) && negb (bool_decide (eff_Subtype e ∈ c_subtypes r)) then false
  else if negb (matchesResolution r (eff_Resolution e)) then false
  else true.

Definition is_deny (r : compiledStatementRule) : bool := bool_decide (c_verb r = VerbDeny).

(** The accumulators of [foldCoverageRules]; [approveSeen]/[auditSeen] hold
    exactly the names of the rules already collected. *)
Record foldState := {
  fs_best : internalVerb; fs_redirect : option compiledStatementRule;
  fs_approve : list compiledStatementRule; fs_audit : list compiledStatementRule
}.
Definition rule_name (r : compiledStatementRule) : string := sr_Name (c_src r).
Definition max_verb (v best : internalVerb) : internalVerb :=
  if verb_code best <? verb_code v then v else best.
Definition add_named (r : compiledStatementRule) (l : list compiledStatementRule) : list compiledStatementRule :=
  if decide (rule_name r ∈ rule_name <$> l) then l else l ++ [r].

Definition fold_rule (st : foldState) (r : compiledStatementRule) : foldState :=
  match c_verb r with
  | VerbRedirect => Build_foldState (max_verb verbRedirect (fs_best st))
      (match fs_redirect st with None => Some r | Some q => Some q end) (fs_approve st) (fs_audit st)
  | VerbApprove => Build_foldState (max_verb verbApprove (fs_best st)) (fs_redirect st)
      (add_named r (fs_approve st)) (fs_audit st)
  | VerbAudit => Build_foldState (max_verb verbAudit (fs_best st)) (fs_redirect st)
      (fs_approve st) (add_named r (fs_audit st))
  | VerbAllow | VerbDeny => st
  end.

Definition foldCoverageRules (coverage : list compiledStatementRule) : effectDecision :=
  let st := fold_left fold_rule coverage (Build_foldState verbAllow None [] []) in
  let primary :=
    match fs_best st with
    | verbApprove => head (fs_approve st)
    | verbRedirect => fs_redirect st
    | verbAudit => head (fs_audit st)
    | _ => head coverage
    end in
  Build_effectDecision (fs_best st) primary (fs_approve st) (fs_audit st) zeroObjectRef zeroObjectRef.

(** A [*compiledStatementRule] is the pair of its position in [applicable], which
    is its identity, and the rule it points to. *)
Definition rule_ptr : Type := nat * compiledStatementRule.
Definition pointers (applicable : list compiledStatementRule) : list rule_ptr :=
  zip (seq 0 (length applicable)) applicable.

Definition coverageRulesInPolicyOrder (applicable : list rule_ptr) (coverage : list (list rule_ptr))
    : list compiledStatementRule :=
  let covered := (mjoin coverage).*1 in
  (List.filter (λ p : rule_ptr, bool_decide (p.1 ∈ covered)) applicable).*2.

Definition redirectSourceCount (coverage : list (list rule_ptr)) : nat :=
  size (list_to_set (C := gset string)
    (omap (λ p : rule_ptr, if decide (c_verb p.2 = VerbRedirect)
                           then rd_SourceRelation <$> c_redirect p.2 else None) (mjoin coverage))).

Definition foldObjectCoverageRules (applicable : list rule_ptr) (coverage : list (list rule_ptr)) : effectDecision :=
  let d := foldCoverageRules (coverageRulesInPolicyOrder applicable coverage) in
  match ed_verb d with
  | verbRedirect => if bool_decide (redirectSourceCount coverage = 1%nat) then d else implicit_effect zeroObjectRef
  | _ => d
  end.

Definition isObjectlessGroup (g : Z) : bool :=
  (g =? GroupTransaction) || (g =? GroupSession) || (g =? GroupNotify).

Definition isObjectlessEffect (e : Effect) : bool :=
  if isObjectlessGroup (eff_Group e) then true
  else (eff_Subtype e =? SubtypeFunctionCallProtocol) && bool_decide (length (eff_ResolvedObjects e) = O).

Definition isResolvedOnlyFunctionEffect (e : Effect) : bool :=
  if negb (bool_decide (length (eff_Objects e) = O)) || negb (eff_Group e =? GroupProcedural) then false
  else existsb (λ ro, String.eqb (ro_Kind ro) ResolvedObjectFunction) (eff_ResolvedObjects e).

Definition resolvedOnlyFunctionRuleMatches (r : compiledStatementRule) (resolved : ResolvedObjectRef) : bool :=
  String.eqb (ro_Kind resolved) ResolvedObjectFunction && schemaMatchesResolvedObject r resolved.

(** The inner loop of both passes of [evaluateEffectResolvedOnly]. *)
Definition resolved_only_hit (r : compiledStatementRule) (e : Effect) : bool :=
  existsb (λ ro, resolvedOnlyFunctionRuleMatches r ro && (negb (hasObjectSelectors r) || functionMatches r ro))
    (eff_ResolvedObjects e).

Definition evaluateEffectResolvedOnly (e : Effect) (applicable : list compiledStatementRule) : effectDecision :=
  match find_first (λ r, is_deny r && ruleMatchesEffectMeta r e && resolved_only_hit r e) applicable with
  | Some r => deny_effect r zeroObjectRef
  | None =>
      match List.filter (λ r, negb (is_deny r) && ruleMatchesEffectMeta r e && resolved_only_hit r e) applicable with
      | [] => implicit_effect zeroObjectRef
      | coverage => foldCoverageRules coverage
      end
  end.

Definition evaluateEffectObjectless (e : Effect) (applicable : list compiledStatementRule) : effectDecision :=
  match find_first (λ r, is_deny r && ruleMatchesEffectMeta r e && coversAllObjects r) applicable with
  | Some r => deny_effect r zeroObjectRef
  | None =>
      match List.filter (λ r, negb (is_deny r) && ruleMatchesEffectMeta r e && coversAllObjects r) applicable with
      | [] => implicit_effect zeroObjectRef
      | coverage => foldCoverageRules coverage
      end
  end.

(** Pass 1 of [evaluateEffect]: the first deny rule in policy order that matches
    some object, with its first matching object. *)
Fixpoint deny_pass (e : Effect) (applicable : list compiledStatementRule) : option (compiledStatementRule * ObjectRef) :=
  match applicable with
  | [] => None
  | r :: applicable =>
      if is_deny r && ruleMatchesEffectMeta r e then
        match find_first (λ i, (ruleMatchesObjectSlot r e i).1) (seq 0 (length (eff_Objects e))) with
        | Some i => Some (r, default zeroObjectRef (eff_Objects e !! i))
        | None => deny_pass e applicable
        end
      else deny_pass e applicable
  end.

(** Pass 2: the covering rules of object [i]. *)
Definition coverage_of (e : Effect) (applicable : list rule_ptr) (i : nat) : list rule_ptr :=
  List.filter (λ p : rule_ptr, negb (is_deny p.2) && ruleMatchesEffectMeta p.2 e &&
    (ruleMatchesObjectSlot p.2 e i).1) applicable.

Definition evaluateEffect (e : Effect) (applicable : list compiledStatementRule) : effectDecision :=
  match eff_Objects e with
  | [] =>
      if isResolvedOnlyFunctionEffect e then evaluateEffectResolvedOnly e applicable
      else if isObjectlessEffect e then evaluateEffectObjectless e applicable
      else implicit_effect zeroObjectRef
  | objects =>
      match deny_pass e applicable with
      | Some (r, o) => deny_effect r o
      | None =>
          let ptrs := pointers applicable in
          let coverage := coverage_of e ptrs <$> seq 0 (length objects) in
          match find_first (λ oc : ObjectRef * list rule_ptr, bool_decide (length oc.2 = O)) (zip objects coverage) with
          | Some oc => implicit_effect oc.1
          | None => foldObjectCoverageRules ptrs coverage
          end
      end
  end.

Definition messageContextFor (e : Effect) (stmt : ClassifiedStatement) : messageContext := {|
  mc_Operation := Group_String (eff_Group e);
  mc_Subtype := if eff_Subtype e =? SubtypeNone then "" else Subtype_String (eff_Subtype e);
  mc_Schema := match eff_Objects e with o :: _ => obj_Schema o | [] => "" end;
  mc_Object := match eff_Objects e with o :: _ => objectMatchField o | [] => "" end;
  mc_Verb := cs_RawVerb stmt;
  mc_StatementPreview := ""
|}.

Definition implicitDeny (stmt : ClassifiedStatement) (idx : nat) (reason : string) : Decision :=
  mkDecision VerbDeny RuleKindStatement "" (Z.of_nat idx)
    (match cs_Effects stmt !! idx with Some e => eff_Group e | None => 0 end) reason.

Definition best_step (perEffect : list effectDecision) (bestIdx i : nat) : nat :=
  match perEffect !! i, perEffect !! bestIdx with
  | Some d, Some b => if 0 <? compareInternalVerb (ed_verb d) (ed_verb b) then i else bestIdx
  | _, _ => bestIdx
  end.
Definition best_index (perEffect : list effectDecision) : nat :=
  fold_left (best_step perEffect) (seq 1 (length perEffect - 1)) O.

(** [foldEffects]; [None] is a nil dereference or an index out of range, which
    [Evaluate_never_panics] excludes. *)
Definition foldEffects (stmt : ClassifiedStatement) (perEffect : list effectDecision) : option Decision :=
  let bestIdx := best_index perEffect in
  d ← perEffect !! bestIdx;
  e ← cs_Effects stmt !! bestIdx;
  let ruled (v : DecisionVerb) (r : compiledStatementRule) :=
    mkDecision v RuleKindStatement (rule_name r) (Z.of_nat bestIdx) (eff_Group e)
      (renderMessage r (messageContextFor e stmt)) in
  match ed_verb d with
  | verbAllow => r ← ed_rule d; Some (ruled VerbAllow r)
  | verbAudit => r ← ed_rule d; Some (ruled VerbAudit r)
  | verbRedirect =>
      r ← ed_rule d;
      let b := ruled VerbRedirect r in
      Some (Build_Decision (d_Verb b) (d_RuleKind b) (d_RuleName b) (d_MatchingEffectIndex b)
              (d_MatchingEffectGroup b) (d_Reason b) [] None (c_redirect r))
  | verbApprove =>
      r0 ← head (ed_contributingApprove d);
      r ← ed_rule d;
      let timeout := fold_left (λ t q, if c_timeout q <? t then c_timeout q else t)
                       (ed_contributingApprove d) (c_timeout r0) in
      let b := ruled VerbApprove r in
      Some (Build_Decision (d_Verb b) (d_RuleKind b) (d_RuleName b) (d_MatchingEffectIndex b)
              (d_MatchingEffectGroup b) (d_Reason b) (rule_name <$> ed_contributingAudit d)
              (Some {| ar_Timeout := timeout;
                       ar_ContributingApproveRules := rule_name <$> ed_contributingApprove d |}) None)
  | verbImplicitDeny =>
      Some (implicitDeny stmt bestIdx
        ("no rule covers " +:+ go_quote (objectMatchField (ed_uncoveredObject d)) +:+ " in " +:+
         go_quote (Group_String (eff_Group e)) +:+ " effect"))
  | verbDeny => r ← ed_rule d; Some (ruled VerbDeny r)
  end.

(** [Evaluate] with panics explicit. *)
Definition EvaluateP (stmt : ClassifiedStatement) (rs : option RuleSet) (svc : string) : option Decision :=
  match rs with
  | None => Some (implicitDeny stmt 0 "policy not loaded")
  | Some rs =>
      let applicable := statementRulesFor rs svc in
      match cs_Effects stmt with
      | [] => Some (implicitDeny stmt 0 "no effects on statement")
      | effs => foldEffects stmt ((λ e, evaluateEffect e applicable) <$> effs)
      end
  end.

(** [Evaluate] as its callers see it. *)
Definition Evaluate (stmt : ClassifiedStatement) (rs : option RuleSet) (svc : string) : Decision :=
  default (implicitDeny stmt 0 "panic") (EvaluateP stmt rs svc).

(** [RuleSet.AllStatementRules]: deep copies of the source rules, in order. *)
Definition AllStatementRules (rs : option RuleSet) : list StatementRule :=
  match rs with None => [] | Some rs => c_src <$> rs_statement rs end.

Definition UsesCanonicalSelectors (rs : option RuleSet) (svc : string) : bool :=
  match rs with
  | None => false
  | Some rs => existsb (λ r, match c_relations r, c_functions r with [], [] => false | _, _ => true end)
                 (statementRulesFor rs svc)
  end.

(** ** Abstract specification

    What the evaluator promises, independently of passes, pointers and rule
    order.  A _slot_ of an effect is one of its objects, or the effect itself
    when it legitimately has none. *)
Definition slots (e : Effect) : list (option nat) :=
  match eff_Objects e with
  | [] => if isResolvedOnlyFunctionEffect e || isObjectlessEffect e then [None] else []
  | objects => Some <$> seq 0 (length objects)
  end.

Definition slot_hit (r : compiledStatementRule) (e : Effect) (s : option nat) : bool :=
  match s with
  | Some i => (ruleMatchesObjectSlot r e i).1
  | None => if isResolvedOnlyFunctionEffect e then resolved_only_hit r e else coversAllObjects r
  end.

Definition applies (r : compiledStatementRule) (e : Effect) (s : option nat) : bool :=
  ruleMatchesEffectMeta r e && slot_hit r e s.

Definition rank_of (v : DecisionVerb) : internalVerb :=
  match v with
  | VerbAllow => verbAllow | VerbAudit => verbAudit | VerbRedirect => verbRedirect
  | VerbApprove => verbApprove | VerbDeny => verbDeny
  end.
Definition public (v : internalVerb) : DecisionVerb :=
  match v with
  | verbAllow => VerbAllow | verbAudit => VerbAudit | verbRedirect => VerbRedirect
  | verbApprove => VerbApprove | verbImplicitDeny | verbDeny => VerbDeny
  end.

Definition denied_by (e : Effect) (r : compiledStatementRule) : bool :=
  is_deny r && existsb (applies r e) (slots e).
Definition covers (e : Effect) (s : option nat) (r : compiledStatementRule) : bool :=
  negb (is_deny r) && applies r e s.
Definition covering (e : Effect) (rules : list compiledStatementRule) : list compiledStatementRule :=
  List.filter (λ r, negb (is_deny r) && existsb (applies r e) (slots e)) rules.
Definition most_restrictive (rules : list compiledStatementRule) : internalVerb :=
  foldr (λ r v, max_verb (rank_of (c_verb r)) v) verbAllow rules.
Definition redirect_sources (rules : list compiledStatementRule) : gset string :=
  list_to_set (omap (λ r, if decide (c_verb r = VerbRedirect)
                          then rd_SourceRelation <$> c_redirect r else None) rules).

Definition effect_verdict (e : Effect) (rules : list compiledStatementRule) : internalVerb :=
  if existsb (denied_by e) rules then verbDeny
  else if bool_decide (slots e = []) || existsb (λ s, negb (existsb (covers e s) rules)) (slots e)
  then verbImplicitDeny
  else match most_restrictive (covering e rules), eff_Objects e with
       | verbRedirect, _ :: _ =>
           if bool_decide (size (redirect_sources (covering e rules)) = 1%nat)
           then verbRedirect else verbImplicitDeny
       | v, _ => v
       end.

Definition statement_verdict (stmt : ClassifiedStatement) (rules : list compiledStatementRule) : internalVerb :=
  match cs_Effects stmt with
  | [] => verbImplicitDeny
  | effs => foldr max_verb verbAllow ((λ e, effect_verdict e rules) <$> effs)
  end.

(** ** Lemmas *)
(** Pointer bookkeeping disappears: positions identify rules. *)
Lemma pointers_lookup rules p : p ∈ pointers rules ↔ rules !! p.1 = Some p.2.
Proof.
  unfold pointers. rewrite list_elem_of_lookup. setoid_rewrite lookup_zip_with_Some. split.
  - intros (i & x & y & -> & Hx & Hy). apply lookup_seq in Hx as [-> ?]. done.
  - intros Hp. exists p.1, p.1, p.2. split_and!; [by destruct p| |done].
    apply lookup_seq. split; [done|]. by apply lookup_lt_Some in Hp.
Qed.

Lemma filter_zip_snd (q : compiledStatementRule → bool) rules k :
  (List.filter (λ p : rule_ptr, q p.2) (zip (seq k (length rules)) rules)).*2 = List.filter q rules.
Proof.
  revert k. induction rules as [|r rules IH]; intros k; simpl; [done|].
  destruct (q r); simpl; by rewrite IH.
Qed.

Lemma coverage_elem e rules n p :
  p ∈ mjoin (coverage_of e (pointers rules) <$> seq 0 n) ↔
  rules !! p.1 = Some p.2 ∧ negb (is_deny p.2) && existsb (applies p.2 e) (Some <$> seq 0 n) = true.
Proof.
  rewrite list_elem_of_join. setoid_rewrite list_elem_of_fmap. split.
  - intros (? & Hp & i & -> & Hi). unfold coverage_of in Hp.
    apply filter_bool_elem in Hp as [Hp ?]. bool_hyps. split; [by apply pointers_lookup|].
    rewrite andb_true_iff. split; [by rewrite negb_true_iff|].
    apply existsb_elem. exists (Some i). unfold applies. simpl.
    rewrite list_elem_of_fmap, andb_true_iff. naive_solver.
  - intros [Hp [Hd (s & Hs & Ha)%existsb_elem]%andb_true_iff].
    apply list_elem_of_fmap in Hs as (i & -> & Hi). unfold applies in Ha. simpl in Ha.
    exists (coverage_of e (pointers rules) i). split; [|eauto].
    apply filter_bool_elem. split; [by apply pointers_lookup|].
    by rewrite <-andb_assoc, Hd, Ha.
Qed.

Lemma slots_objects e o os : eff_Objects e = o :: os → slots e = Some <$> seq 0 (length (eff_Objects e)).
Proof. unfold slots. by intros ->. Qed.

Lemma coverageRulesInPolicyOrder_spec e rules :
  slots e = Some <$> seq 0 (length (eff_Objects e)) →
  coverageRulesInPolicyOrder (pointers rules)
    (coverage_of e (pointers rules) <$> seq 0 (length (eff_Objects e))) = covering e rules.
Proof.
  intros Hs. unfold coverageRulesInPolicyOrder, covering. rewrite Hs.
  rewrite <-(filter_zip_snd _ rules 0). f_equal. apply filter_ext_in. intros p Hp%list_elem_of_In.
  apply pointers_lookup in Hp. apply eq_true_iff_eq. rewrite bool_decide_eq_true, list_elem_of_fmap.
  setoid_rewrite coverage_elem. split.
  - intros (q & Heq & Hq & Hb). rewrite Heq, Hq in Hp. by injection Hp as <-.
  - eauto.
Qed.

Lemma redirectSourceCount_spec e rules :
  slots e = Some <$> seq 0 (length (eff_Objects e)) →
  redirectSourceCount (coverage_of e (pointers rules) <$> seq 0 (length (eff_Objects e)))
  = size (redirect_sources (covering e rules)).
Proof.
  intros Hs. unfold redirectSourceCount, redirect_sources. f_equal. apply set_eq. intros x.
  rewrite !elem_of_list_to_set, !list_elem_of_omap. unfold covering. rewrite Hs. split.
  - intros (p & [Hp Hb]%coverage_elem & Hx). exists p.2. split; [|done].
    apply filter_bool_elem. split; [by eapply list_elem_of_lookup_2|done].
  - intros (r & [[i Hi]%list_elem_of_lookup Hb]%filter_bool_elem & Hx).
    exists (i, r). split; [|done]. by apply coverage_elem.
Qed.

(** The fold of [foldCoverageRules]: its verb is the most restrictive one, and
    the rule lists it reads from are non-empty whenever it reads from them. *)
Definition fold_inv (seen : list compiledStatementRule) (st : foldState) : Prop :=
  verb_code (fs_best st) = verb_code (most_restrictive seen) ∧
  (∀ r, r ∈ fs_approve st → r ∈ seen ∧ c_verb r = VerbApprove) ∧
  (∀ r, r ∈ fs_audit st → r ∈ seen ∧ c_verb r = VerbAudit) ∧
  (∀ r, fs_redirect st = Some r → r ∈ seen ∧ c_verb r = VerbRedirect) ∧
  (∀ r, r ∈ seen → c_verb r = VerbApprove → rule_name r ∈ rule_name <$> fs_approve st) ∧
  (∀ r, r ∈ seen → c_verb r = VerbAudit → fs_audit st ≠ []) ∧
  (∀ r, r ∈ seen → c_verb r = VerbRedirect → is_Some (fs_redirect st)).

Lemma verb_code_inj a b : verb_code a = verb_code b → a = b.
Proof. by destruct a, b. Qed.

Lemma verb_code_range v : 0 ≤ verb_code v ≤ 5.
Proof. destruct v; simpl; lia. Qed.

Lemma max_verb_code a b : verb_code (max_verb a b) = Z.max (verb_code a) (verb_code b).
Proof. unfold max_verb. destruct (Z.ltb_spec (verb_code b) (verb_code a)); lia. Qed.

Lemma most_restrictive_app l1 l2 :
  verb_code (most_restrictive (l1 ++ l2))
  = Z.max (verb_code (most_restrictive l1)) (verb_code (most_restrictive l2)).
Proof.
  unfold most_restrictive. induction l1 as [|r l1 IH]; simpl.
  - assert (0 ≤ verb_code (foldr (λ r v, max_verb (rank_of (c_verb r)) v) verbAllow l2))
      by (destruct (foldr _ _ l2); simpl; lia). lia.
  - rewrite !max_verb_code. fold (most_restrictive l1). fold (most_restrictive (l1 ++ l2)).
    unfold most_restrictive. rewrite IH. lia.
Qed.

Lemma add_named_elem r l x : x ∈ add_named r l → x ∈ l ∨ x = r.
Proof. unfold add_named. case_decide; set_solver. Qed.

Lemma add_named_names r l n :
  n ∈ rule_name <$> add_named r l ↔ n = rule_name r ∨ n ∈ rule_name <$> l.
Proof.
  unfold add_named. case_decide; [naive_solver|]. rewrite fmap_app. set_solver.
Qed.

Lemma add_named_nonempty r l : add_named r l ≠ [].
Proof.
  intros Hn. assert (rule_name r ∈ rule_name <$> add_named r l) as Hin
    by (rewrite add_named_names; auto). rewrite Hn in Hin. set_solver.
Qed.

Lemma most_restrictive_snoc l r :
  verb_code (most_restrictive (l ++ [r]))
  = Z.max (verb_code (most_restrictive l)) (verb_code (rank_of (c_verb r))).
Proof.
  rewrite most_restrictive_app. f_equal. unfold most_restrictive. simpl. rewrite max_verb_code.
  assert (0 ≤ verb_code (rank_of (c_verb r))) by (destruct (c_verb r); simpl; lia). simpl. lia.
Qed.

Lemma most_restrictive_bound l r : r ∈ l →
  verb_code (rank_of (c_verb r)) ≤ verb_code (most_restrictive l).
Proof.
  intros (l1 & l2 & ->)%list_elem_of_split.
  rewrite most_restrictive_app. unfold most_restrictive at 2. simpl. rewrite max_verb_code. lia.
Qed.

Lemma most_restrictive_attained l : l ≠ [] →
  ∃ r, r ∈ l ∧ rank_of (c_verb r) = most_restrictive l.
Proof.
  induction l as [|r l IH]; [done|]. intros _. unfold most_restrictive. simpl.
  fold (most_restrictive l). unfold max_verb.
  destruct (Z.ltb_spec (verb_code (most_restrictive l)) (verb_code (rank_of (c_verb r)))).
  { exists r. set_solver. }
  destruct (decide (l = [])) as [->|Hl].
  - exists r. split; [set_solver|]. apply verb_code_inj.
    unfold most_restrictive in *; simpl in *. destruct (c_verb r); simpl in *; lia.
  - destruct IH as (q & ? & ?); [done|]. exists q. set_solver.
Qed.

Lemma fold_rule_inv seen st r :
  is_deny r = false → fold_inv seen st → fold_inv (seen ++ [r]) (fold_rule st r).
Proof.
  intros Hd (Hb & Hap & Hau & Hre & Hap' & Hau' & Hre').
  unfold is_deny in Hd. apply bool_decide_eq_false in Hd.
  pose proof (verb_code_range (most_restrictive seen)).
  unfold fold_inv. rewrite most_restrictive_snoc.
  unfold fold_rule. destruct (c_verb r) eqn:Hv; simpl; [rewrite Hb| | | |done].
  2-4: rewrite max_verb_code, Hb.
  all: simpl verb_code in *.
  all: split_and!; try lia; intros q; rewrite ?elem_of_app, ?list_elem_of_singleton.
  all: try (intros [?| ->]; [by eauto|congruence]).
  all: try (intros Hq; first [apply Hap in Hq|apply Hau in Hq|apply Hre in Hq]; tauto).
  all: try (intros [Hq| ->] ?; [by eauto|congruence]).
  all: try (intros [Hq| ->] ?; by rewrite add_named_names; eauto).
  - intros [Hq| ->]%add_named_elem; [apply Hau in Hq|]; tauto.
  - intros _ _. apply add_named_nonempty.
  - destruct (fs_redirect st) as [q'|]; intros [= <-]; [|tauto].
    specialize (Hre q' eq_refl). tauto.
  - intros _ _. destruct (fs_redirect st); eauto.
  - intros [Hq| ->]%add_named_elem; [apply Hap in Hq|]; tauto.
Qed.

Lemma fold_rules_inv coverage :
  Forall (λ r, is_deny r = false) coverage →
  fold_inv coverage (fold_left fold_rule coverage (Build_foldState verbAllow None [] [])).
Proof.
  induction coverage as [|r l IH] using rev_ind; intros Hd.
  - unfold fold_inv. simpl. set_solver.
  - apply Forall_app in Hd as [Hl Hr].
    rewrite fold_left_app. apply fold_rule_inv; [by inversion Hr|exact (IH Hl)].
Qed.

Lemma foldCoverageRules_verb coverage :
  Forall (λ r, is_deny r = false) coverage →
  ed_verb (foldCoverageRules coverage) = most_restrictive coverage.
Proof. intros Hd%fold_rules_inv. apply verb_code_inj, Hd. Qed.

(** The rule a fold reports is one of the covering rules, and carries the verb
    the fold returns. *)
Lemma foldCoverageRules_rule coverage :
  Forall (λ r, is_deny r = false) coverage → coverage ≠ [] →
  ∃ r, ed_rule (foldCoverageRules coverage) = Some r ∧ r ∈ coverage ∧
       rank_of (c_verb r) = most_restrictive coverage.
Proof.
  intros Hd Hne. destruct (most_restrictive_attained _ Hne) as (q & Hq & Hqv).
  pose proof (fold_rules_inv _ Hd) as (Hb%verb_code_inj & Hap & Hau & Hre & Hap' & Hau' & Hre').
  unfold foldCoverageRules; simpl. set (st := fold_left _ _ _) in *. rewrite Hb, <-Hqv.
  rewrite Forall_forall in Hd. specialize (Hd q Hq). unfold is_deny in Hd.
  apply bool_decide_eq_false in Hd.
  destruct (c_verb q) eqn:Hqc; simpl; [| | | |done].
  - destruct coverage as [|c0 l]; [done|]. exists c0. split_and!; [done|set_solver|].
    apply verb_code_inj. pose proof (most_restrictive_bound (c0 :: l) c0 ltac:(set_solver)).
    pose proof (verb_code_range (rank_of (c_verb c0))). rewrite <-Hqv in *. simpl in *. lia.
  - destruct (fs_audit st) as [|a l]; [by destruct (Hau' q)|].
    exists a. destruct (Hau a) as [? ->]; set_solver.
  - destruct (Hre' q) as [a Ha]; [done..|]. rewrite Ha in *. exists a.
    by destruct (Hre a) as [? ->].
  - specialize (Hap' q Hq Hqc). destruct (fs_approve st) as [|a l]; [set_solver|].
    exists a. destruct (Hap a) as [? ->]; set_solver.
Qed.

(** What each effect decision satisfies: its verb is the abstract verdict, and
    the rules it carries are rules that apply to the effect. *)
Definition ruled_ok (e : Effect) (rules : list compiledStatementRule) (d : effectDecision) : Prop :=
  match ed_verb d with
  | verbImplicitDeny => True
  | verbDeny => ∃ r, ed_rule d = Some r ∧ r ∈ rules ∧ denied_by e r = true
  | v => ∃ r, ed_rule d = Some r ∧ r ∈ covering e rules ∧ rank_of (c_verb r) = v
  end.
Definition approvals_ok (e : Effect) (rules : list compiledStatementRule) (d : effectDecision) : Prop :=
  ed_verb d = verbApprove →
  ed_contributingApprove d ≠ [] ∧
  (∀ r, r ∈ ed_contributingApprove d → r ∈ covering e rules ∧ c_verb r = VerbApprove) ∧
  (∀ r, r ∈ covering e rules → c_verb r = VerbApprove →
        rule_name r ∈ rule_name <$> ed_contributingApprove d).
Definition effect_ok (e : Effect) (rules : list compiledStatementRule) (d : effectDecision) : Prop :=
  ed_verb d = effect_verdict e rules ∧ ruled_ok e rules d ∧ approvals_ok e rules d.

Lemma covering_no_deny e rules : Forall (λ r, is_deny r = false) (covering e rules).
Proof.
  apply Forall_forall. intros r [_ Hr]%filter_bool_elem.
  apply andb_true_iff in Hr as [Hr _]. by apply negb_true_iff.
Qed.

Lemma fold_covering_ok e rules :
  let d := foldCoverageRules (covering e rules) in
  covering e rules ≠ [] → ruled_ok e rules d ∧ approvals_ok e rules d.
Proof.
  intros d Hne. pose proof (covering_no_deny e rules) as Hd.
  destruct (foldCoverageRules_rule _ Hd Hne) as (r & Hr & Hin & Hv).
  rewrite <-foldCoverageRules_verb in Hv by done. split.
  - unfold ruled_ok. subst d. assert (ed_verb (foldCoverageRules (covering e rules)) ≠ verbDeny).
    { rewrite <-Hv. rewrite Forall_forall in Hd. specialize (Hd r Hin). unfold is_deny in Hd.
      apply bool_decide_eq_false in Hd. by destruct (c_verb r). }
    destruct (ed_verb _) eqn:?; eauto; done.
  - intros Ha. pose proof (fold_rules_inv _ Hd) as (_ & Hap & _ & _ & Hap' & _).
    split_and!; [|exact Hap|exact Hap'].
    intros Hn. assert (c_verb r = VerbApprove) as Hra.
    { subst d. rewrite Ha in Hv. by destruct (c_verb r). }
    specialize (Hap' r Hin Hra). subst d. unfold foldCoverageRules in Hn; simpl in Hn.
    rewrite Hn in Hap'. set_solver.
Qed.

Lemma implicit_effect_ok e rules o :
  effect_verdict e rules = verbImplicitDeny → effect_ok e rules (implicit_effect o).
Proof. by intros Hv; split_and!. Qed.

Lemma deny_effect_ok e rules r o :
  r ∈ rules → denied_by e r = true → effect_ok e rules (deny_effect r o).
Proof.
  intros Hr Hd. split_and!; [|by exists r|done]. unfold effect_verdict.
  assert (existsb (denied_by e) rules = true) as -> by (apply existsb_elem; eauto). done.
Qed.

Lemma covering_empty e rules s :
  s ∈ slots e → existsb (covers e s) rules = true → covering e rules ≠ [].
Proof.
  intros Hs (r & Hr & Hc)%existsb_elem Hn.
  assert (r ∈ covering e rules) as Hin; [|rewrite Hn in Hin; set_solver].
  unfold covers in Hc. apply filter_bool_elem. split; [done|].
  apply andb_true_iff in Hc as [-> Ha]. simpl. apply existsb_elem. eauto.
Qed.

(** The two object-less paths share their shape: one slot, [None]. *)
Lemma objectless_ok e rules (hit : compiledStatementRule → bool) :
  eff_Objects e = [] → slots e = [None] → (∀ r, slot_hit r e None = hit r) →
  effect_ok e rules
    match find_first (λ r, is_deny r && ruleMatchesEffectMeta r e && hit r) rules with
    | Some r => deny_effect r zeroObjectRef
    | None =>
        match List.filter (λ r, negb (is_deny r) && ruleMatchesEffectMeta r e && hit r) rules with
        | [] => implicit_effect zeroObjectRef
        | coverage => foldCoverageRules coverage
        end
    end.
Proof.
  intros Ho Hs Hh.
  assert (∀ r, denied_by e r = is_deny r && ruleMatchesEffectMeta r e && hit r) as Hden.
  { intros r. unfold denied_by, applies. rewrite Hs. cbn [existsb]. by rewrite orb_false_r, Hh, andb_assoc. }
  assert (List.filter (λ r, negb (is_deny r) && ruleMatchesEffectMeta r e && hit r) rules
          = covering e rules) as ->.
  { apply filter_ext_in. intros r _. unfold applies. rewrite Hs. cbn [existsb].
    by rewrite orb_false_r, Hh, andb_assoc. }
  destruct (find_first _ rules) as [r|] eqn:Hf.
  { apply find_first_Some in Hf as [Hr Hf]. apply deny_effect_ok; [done|by rewrite Hden]. }
  assert (existsb (denied_by e) rules = false) as Hnd.
  { apply existsb_false_elem. intros r Hr. rewrite Hden.
    by apply (proj1 (find_first_None _ _) Hf). }
  assert (existsb (covers e None) rules = negb (bool_decide (covering e rules = []))) as Hcov.
  { apply eq_true_iff_eq. rewrite existsb_elem, negb_true_iff, bool_decide_eq_false. split.
    - intros Hx. eapply (covering_empty _ _ None); [rewrite Hs; set_solver|by apply existsb_elem].
    - intros Hx. destruct (covering e rules) as [|r l] eqn:Hc; [done|].
      assert (r ∈ covering e rules) as [? Hr]%filter_bool_elem by (rewrite Hc; set_solver).
      rewrite Hs in Hr. cbn [existsb] in Hr. rewrite orb_false_r in Hr. by exists r. }
  assert (effect_verdict e rules =
    if bool_decide (covering e rules = []) then verbImplicitDeny
    else most_restrictive (covering e rules)) as Hev.
  { unfold effect_verdict. rewrite Hnd, Hs, Ho. cbn [existsb]. rewrite Hcov.
    rewrite (bool_decide_eq_false_2 ([None] = [])) by done. simpl.
    rewrite negb_involutive, orb_false_r.
    destruct (bool_decide _); [done|]. by destruct (most_restrictive _). }
  destruct (decide (covering e rules = [])) as [Hc|Hc].
  - rewrite Hc. apply implicit_effect_ok. by rewrite Hev, bool_decide_eq_true_2.
  - destruct (covering e rules) as [|r l] eqn:Hcl; [done|]. rewrite <-Hcl in *.
    split; [|by apply fold_covering_ok].
    by rewrite Hev, bool_decide_eq_false_2, foldCoverageRules_verb by auto using covering_no_deny.
Qed.

Lemma denied_by_slots e r : eff_Objects e ≠ [] →
  denied_by e r = true ↔ is_deny r = true ∧ ruleMatchesEffectMeta r e = true ∧
    ∃ i, i ∈ seq 0 (length (eff_Objects e)) ∧ (ruleMatchesObjectSlot r e i).1 = true.
Proof.
  intros Hne. destruct (eff_Objects e) as [|o os] eqn:Ho; [done|].
  unfold denied_by. rewrite (slots_objects _ _ _ Ho), Ho, andb_true_iff, existsb_elem.
  setoid_rewrite list_elem_of_fmap. unfold applies, slot_hit. split.
  - intros (? & s & (i & -> & Hi) & [??]%andb_true_iff). eauto.
  - intros (? & Hm & i & Hi & Hs). split; [done|]. exists (Some i). split; [eauto|].
    by rewrite Hm, Hs.
Qed.

Lemma deny_pass_Some e rules r o : eff_Objects e ≠ [] →
  deny_pass e rules = Some (r, o) → r ∈ rules ∧ denied_by e r = true.
Proof.
  intros Hne. induction rules as [|q rules IH]; simpl; [done|].
  destruct (is_deny q && ruleMatchesEffectMeta q e) eqn:Hq;
    [|intros []%IH; set_solver].
  destruct (find_first _ _) as [i|] eqn:Hf; [|intros []%IH; set_solver].
  intros [= <- <-]. apply find_first_Some in Hf. bool_hyps.
  split; [set_solver|]. apply denied_by_slots; eauto.
Qed.

Lemma deny_pass_None e rules : eff_Objects e ≠ [] →
  deny_pass e rules = None → existsb (denied_by e) rules = false.
Proof.
  intros Hne Hp. apply existsb_false_elem. revert Hp.
  induction rules as [|q rules IH]; simpl; [set_solver|]. intros Hp.
  assert (denied_by e q = false ∧ deny_pass e rules = None) as [Hq Hr];
    [|intros r [->|?]%elem_of_cons; auto].
  rewrite <-not_true_iff_false, denied_by_slots by done.
  destruct (is_deny q) eqn:Hd, (ruleMatchesEffectMeta q e) eqn:Hm; simpl in Hp; try naive_solver.
  destruct (find_first _ _) eqn:Hf; [done|]. split; [|done].
  intros (_ & _ & i & Hi & Hs). rewrite find_first_None in Hf. specialize (Hf i Hi). congruence.
Qed.

Lemma coverage_of_empty e rules i :
  coverage_of e (pointers rules) i = [] ↔ existsb (covers e (Some i)) rules = false.
Proof.
  rewrite existsb_false_elem. unfold coverage_of. split.
  - intros Hn r [k Hk]%list_elem_of_lookup. destruct (covers e (Some i) r) eqn:Hc; [|done].
    assert ((k, r) ∈ coverage_of e (pointers rules) i) as Hin;
      [|unfold coverage_of in Hin; rewrite Hn in Hin; set_solver].
    apply filter_bool_elem. split; [by apply pointers_lookup|].
    unfold covers, applies, slot_hit in Hc. by rewrite <-andb_assoc.
  - intros Hn. destruct (List.filter _ _) as [|p l] eqn:Hf; [done|].
    assert (p ∈ coverage_of e (pointers rules) i) as [Hp Hc]%filter_bool_elem
      by (unfold coverage_of; rewrite Hf; set_solver).
    apply pointers_lookup, list_elem_of_lookup_2 in Hp. specialize (Hn _ Hp).
    unfold covers, applies, slot_hit in Hn. rewrite andb_assoc in Hn. congruence.
Qed.

(** Pass 2 rejects exactly when some object has no covering rule. *)
Lemma uncovered_spec e rules (objects : list ObjectRef) :
  let coverage := coverage_of e (pointers rules) <$> seq 0 (length objects) in
  find_first (λ oc : ObjectRef * list rule_ptr, bool_decide (length oc.2 = O)) (zip objects coverage) = None ↔
  existsb (λ s, negb (existsb (covers e s) rules)) (Some <$> seq 0 (length objects)) = false.
Proof.
  intros coverage. rewrite find_first_None, existsb_false_elem. split.
  - intros Hz s (i & -> & Hi)%list_elem_of_fmap. apply negb_false_iff, not_false_iff_true.
    rewrite <-coverage_of_empty. intros Hc.
    destruct (lookup_lt_is_Some_2 objects i) as [o Ho]; [apply elem_of_seq in Hi; lia|].
    specialize (Hz (o, [])). rewrite bool_decide_eq_true_2 in Hz by done.
    discriminate Hz. apply list_elem_of_lookup. exists i. apply lookup_zip_with_Some.
    exists o, []. split_and!; [done..|]. unfold coverage. rewrite list_lookup_fmap.
    apply elem_of_seq in Hi. rewrite lookup_seq_lt by lia. simpl. by rewrite Hc.
  - intros Hs [o c] [i (x & y & [= -> ->] & Hx & Hy)%lookup_zip_with_Some]%list_elem_of_lookup.
    apply bool_decide_eq_false_2. intros Hl%nil_length_inv. simpl in Hl. subst y.
    unfold coverage in Hy. rewrite list_lookup_fmap in Hy.
    apply fmap_Some in Hy as (k & Hk & Hc). apply lookup_seq in Hk as [-> Hk].
    symmetry in Hc. apply coverage_of_empty in Hc. simpl in Hc.
    specialize (Hs (Some i)). rewrite Hc in Hs. discriminate Hs.
    apply list_elem_of_fmap. exists i. split; [done|]. apply elem_of_seq. lia.
Qed.

Lemma evaluateEffect_objects_ok e rules o os :
  eff_Objects e = o :: os → effect_ok e rules (evaluateEffect e rules).
Proof.
  intros Ho. pose proof (slots_objects _ _ _ Ho) as Hs.
  assert (eff_Objects e ≠ []) as Hne by (by rewrite Ho).
  unfold evaluateEffect. rewrite Ho. cbv zeta.
  destruct (deny_pass e rules) as [[r d]|] eqn:Hd.
  { apply deny_pass_Some in Hd as [??]; [|done]. by apply deny_effect_ok. }
  apply deny_pass_None in Hd; [|done]. rewrite <-Ho.
  destruct (find_first _ _) as [oc|] eqn:Hf.
  - apply implicit_effect_ok. unfold effect_verdict. rewrite Hd, Hs.
    destruct (existsb (λ s, negb _) _) eqn:Hx; [by rewrite orb_true_r|].
    apply uncovered_spec in Hx. congruence.
  - apply uncovered_spec in Hf.
    assert (covering e rules ≠ []) as Hc.
    { rewrite existsb_false_elem in Hf. specialize (Hf (Some 0%nat)).
      rewrite negb_false_iff in Hf. eapply covering_empty; [rewrite Hs|apply Hf];
      rewrite Ho; set_solver. }
    unfold foldObjectCoverageRules. rewrite coverageRulesInPolicyOrder_spec by done.
    rewrite redirectSourceCount_spec by done.
    rewrite foldCoverageRules_verb by apply covering_no_deny.
    assert (effect_verdict e rules =
      match most_restrictive (covering e rules) with
      | verbRedirect => if bool_decide (size (redirect_sources (covering e rules)) = 1%nat)
                        then verbRedirect else verbImplicitDeny
      | v => v
      end) as Hev.
    { unfold effect_verdict. rewrite Hd, Hs, Hf, Ho. simpl. by destruct (most_restrictive _). }
    pose proof (fold_covering_ok e rules Hc) as Hok.
    destruct (most_restrictive _) eqn:Hm; try (
      split; [rewrite Hev, foldCoverageRules_verb; auto using covering_no_deny|exact Hok]).
    destruct (bool_decide _) eqn:Hb; [|by apply implicit_effect_ok].
    split; [rewrite Hev, foldCoverageRules_verb; auto using covering_no_deny|exact Hok].
Qed.

(** Every effect decision implements the abstract verdict. *)
Lemma evaluateEffect_ok e rules : effect_ok e rules (evaluateEffect e rules).
Proof.
  destruct (eff_Objects e) as [|o os] eqn:Ho; [|by eapply evaluateEffect_objects_ok].
  unfold evaluateEffect. rewrite Ho. cbv zeta.
  destruct (isResolvedOnlyFunctionEffect e) eqn:Hr; [|destruct (isObjectlessEffect e) eqn:Hl].
  - apply objectless_ok; [done| |]; unfold slots, slot_hit; by rewrite ?Ho, Hr.
  - apply objectless_ok; [done| |]; unfold slots, slot_hit; by rewrite ?Ho, Hr, ?Hl.
  - apply implicit_effect_ok. unfold effect_verdict, denied_by, slots. rewrite Ho, Hr, Hl. simpl.
    assert (existsb (λ r, is_deny r && false) rules = false) as ->; [|done].
    apply existsb_false_elem. intros. apply andb_false_r.
Qed.

(** The fold over effects picks an index of a most restrictive decision. *)
Lemma best_index_prefix (l : list effectDecision) k : (k < length l)%nat →
  ∃ d, l !! fold_left (best_step l) (seq 1 k) O = Some d ∧
       ∀ j d', (j ≤ k)%nat → l !! j = Some d' → verb_code (ed_verb d') ≤ verb_code (ed_verb d).
Proof.
  induction k as [|k IH]; intros Hk.
  - destruct (lookup_lt_is_Some_2 l 0) as [d Hd]; [done|]. exists d. split; [done|].
    intros j d' Hj Hd'. replace j with 0%nat in Hd' by lia. simplify_eq. lia.
  - destruct IH as (d & Hd & Hmax); [lia|].
    rewrite seq_S, fold_left_app. simpl. unfold best_step at 1. rewrite Hd.
    destruct (lookup_lt_is_Some_2 l (S k)) as [n Hn]; [done|]. rewrite Hn.
    assert (∀ v, verb_code (ed_verb d) ≤ verb_code (ed_verb v) → verb_code (ed_verb n) ≤ verb_code (ed_verb v) →
      ∀ j d', (j ≤ S k)%nat → l !! j = Some d' → verb_code (ed_verb d') ≤ verb_code (ed_verb v)) as Hstep.
    { intros v ?? j d' Hj Hl. destruct (decide (j = S k)) as [->|]; [by simplify_eq|].
      specialize (Hmax j d' ltac:(lia) Hl). lia. }
    unfold compareInternalVerb.
    destruct (Z.ltb_spec (verb_code (ed_verb d)) (verb_code (ed_verb n))); simpl.
    + exists n. split; [done|]. apply Hstep; lia.
    + exists d. split; [by destruct (verb_code (ed_verb n) <? verb_code (ed_verb d))|]. apply Hstep; lia.
Qed.

Lemma best_index_spec (l : list effectDecision) : l ≠ [] →
  ∃ d, l !! best_index l = Some d ∧
       ∀ d', d' ∈ l → verb_code (ed_verb d') ≤ verb_code (ed_verb d).
Proof.
  intros Hne. destruct (best_index_prefix l (length l - 1)) as (d & Hd & Hmax).
  { destruct l; simpl in *; [done|lia]. }
  exists d. split; [done|]. intros d' [j Hj]%list_elem_of_lookup.
  apply (Hmax j d'); [|done]. apply lookup_lt_Some in Hj. lia.
Qed.

Lemma max_verbs_upper l v : v ∈ l → verb_code v ≤ verb_code (foldr max_verb verbAllow l).
Proof.
  induction l as [|w l IH]; simpl; [set_solver|]. rewrite max_verb_code.
  intros [->|Hv]%elem_of_cons; [lia|]. specialize (IH Hv). lia.
Qed.

Lemma max_verbs_lub l b : 0 ≤ b → (∀ v, v ∈ l → verb_code v ≤ b) →
  verb_code (foldr max_verb verbAllow l) ≤ b.
Proof.
  intros Hb. induction l as [|w l IH]; simpl; intros Hl; [done|]. rewrite max_verb_code.
  pose proof (Hl w ltac:(set_solver)). pose proof (IH ltac:(set_solver)). lia.
Qed.

Definition decision_ok (e : Effect) (rules : list compiledStatementRule) (v : internalVerb) (dec : Decision) : Prop :=
  d_Verb dec = public v ∧ d_RuleKind dec = RuleKindStatement ∧
  match v with
  | verbImplicitDeny => d_RuleName dec = ""
  | verbDeny => ∃ r, r ∈ rules ∧ denied_by e r = true ∧ d_RuleName dec = rule_name r
  | verbAllow | verbAudit =>
      ∃ r, r ∈ covering e rules ∧ rank_of (c_verb r) = v ∧ d_RuleName dec = rule_name r
  | verbRedirect =>
      ∃ r, r ∈ covering e rules ∧ c_verb r = VerbRedirect ∧ d_RuleName dec = rule_name r ∧
           d_Redirect dec = c_redirect r
  | verbApprove =>
      ∃ r a, r ∈ covering e rules ∧ c_verb r = VerbApprove ∧ d_RuleName dec = rule_name r ∧
        d_Approval dec = Some a ∧
        (∃ q, q ∈ covering e rules ∧ c_verb q = VerbApprove ∧ ar_Timeout a = c_timeout q) ∧
        (∀ q, q ∈ covering e rules → c_verb q = VerbApprove →
           rule_name q ∈ ar_ContributingApproveRules a ∧
           ((∀ p, p ∈ covering e rules → rule_name p = rule_name q → p = q) →
            ar_Timeout a ≤ c_timeout q))
  end.

(** The running minimum of the approve timeouts. *)
Lemma min_timeout_spec (l : list compiledStatementRule) r0 :
  let t := fold_left (λ t q, if c_timeout q <? t then c_timeout q else t) l (c_timeout r0) in
  t ≤ c_timeout r0 ∧ (∀ q, q ∈ l → t ≤ c_timeout q) ∧ ∃ q, q ∈ r0 :: l ∧ t = c_timeout q.
Proof.
  revert r0. induction l as [|q l IH]; intros r0; simpl.
  { split_and!; [lia|set_solver|exists r0; set_solver]. }
  destruct (Z.ltb_spec (c_timeout q) (c_timeout r0)).
  - destruct (IH q) as (Hq & Hl & p & Hp & Ht). split_and!; [lia| |exists p; set_solver].
    intros p' [->|?]%elem_of_cons; auto.
  - destruct (IH r0) as (Hq & Hl & p & Hp & Ht). split_and!; [lia| |exists p; set_solver].
    intros p' [->|?]%elem_of_cons; [lia|auto].
Qed.

Lemma approval_ok e rules d : approvals_ok e rules d → ed_verb d = verbApprove →
  ∃ r0, head (ed_contributingApprove d) = Some r0 ∧
    let a := {| ar_Timeout := fold_left (λ t q, if c_timeout q <? t then c_timeout q else t)
                                (ed_contributingApprove d) (c_timeout r0);
                ar_ContributingApproveRules := rule_name <$> ed_contributingApprove d |} in
    (∃ q, q ∈ covering e rules ∧ c_verb q = VerbApprove ∧ ar_Timeout a = c_timeout q) ∧
    (∀ q, q ∈ covering e rules → c_verb q = VerbApprove →
       rule_name q ∈ ar_ContributingApproveRules a ∧
       ((∀ p, p ∈ covering e rules → rule_name p = rule_name q → p = q) → ar_Timeout a ≤ c_timeout q)).
Proof.
  intros Hok Hv. destruct (Hok Hv) as (Hne & Hin & Hall).
  destruct (ed_contributingApprove d) as [|r0 l] eqn:Ha; [done|]. rewrite <-Ha in *.
  assert (r0 ∈ ed_contributingApprove d) as Hr0 by (rewrite Ha; set_solver).
  exists r0. split; [by rewrite Ha|]. cbv zeta. simpl.
  destruct (min_timeout_spec (ed_contributingApprove d) r0) as (_ & Hmin & q & Hq & Ht).
  split.
  - exists q. rewrite Ht. apply elem_of_cons in Hq as [->|Hq]; [specialize (Hin _ Hr0)|specialize (Hin _ Hq)]; tauto.
  - intros p Hp Hpa. specialize (Hall p Hp Hpa). split; [done|]. intros Hinj.
    apply list_elem_of_fmap in Hall as (p' & Hn & Hp'). specialize (Hin _ Hp') as [Hc _].
    rewrite <-(Hinj p' Hc) by done. by apply Hmin.
Qed.

Lemma EvaluateP_effects stmt rs svc : cs_Effects stmt ≠ [] →
  EvaluateP stmt (Some rs) svc =
  foldEffects stmt ((λ e, evaluateEffect e (statementRulesFor rs svc)) <$> cs_Effects stmt).
Proof. unfold EvaluateP. by destruct (cs_Effects stmt). Qed.

Lemma statement_verdict_effects stmt rules : cs_Effects stmt ≠ [] →
  statement_verdict stmt rules = foldr max_verb verbAllow ((λ e, effect_verdict e rules) <$> cs_Effects stmt).
Proof. unfold statement_verdict. by destruct (cs_Effects stmt). Qed.

Lemma EvaluateP_spec stmt rs svc : cs_Effects stmt ≠ [] →
  let rules := statementRulesFor rs svc in
  ∃ i e dec, cs_Effects stmt !! i = Some e ∧
    effect_verdict e rules = statement_verdict stmt rules ∧
    EvaluateP stmt (Some rs) svc = Some dec ∧
    d_MatchingEffectIndex dec = Z.of_nat i ∧ d_MatchingEffectGroup dec = eff_Group e ∧
    decision_ok e rules (statement_verdict stmt rules) dec.
Proof.
  intros Hne rules. rewrite EvaluateP_effects, statement_verdict_effects by done. fold rules.
  set (per := (λ e, evaluateEffect e rules) <$> cs_Effects stmt).
  destruct (best_index_spec per) as (d & Hd & Hmax).
  { unfold per. by destruct (cs_Effects stmt). }
  assert (∃ e, cs_Effects stmt !! best_index per = Some e ∧ d = evaluateEffect e rules) as (e & He & Hde).
  { unfold per at 2 in Hd. rewrite list_lookup_fmap in Hd.
    apply fmap_Some in Hd as (e & ? & ->). eauto. }
  destruct (evaluateEffect_ok e rules) as (Hv & Hr & Ha). rewrite <-Hde in *.
  assert (effect_verdict e rules = foldr max_verb verbAllow ((λ e, effect_verdict e rules) <$> cs_Effects stmt)) as Hmx.
  { apply verb_code_inj, Z.le_antisymm.
    - apply max_verbs_upper, list_elem_of_fmap. exists e. split; [done|].
      by eapply list_elem_of_lookup_2.
    - apply max_verbs_lub; [apply verb_code_range|].
      intros v (e' & -> & He')%list_elem_of_fmap. rewrite <-Hv.
      destruct (evaluateEffect_ok e' rules) as (<- & _). apply Hmax.
      apply list_elem_of_fmap. eauto. }
  exists (best_index per), e. unfold foldEffects. rewrite Hd, He. simpl.
  rewrite <-Hmx, <-Hv. unfold ruled_ok in Hr.
  destruct (ed_verb d) eqn:Hed; try destruct Hr as (r & -> & Hr & Hrv); simpl.
  all: try (eexists; split_and!; try done; split_and!; simpl; eauto; done).
  - eexists; split_and!; try done. split_and!; [done..|]. exists r. split_and!; try done.
    by destruct (c_verb r).
  - destruct (approval_ok _ _ _ Ha Hed) as (r0 & -> & Hap). simpl.
    eexists; split_and!; try done. split_and!; [done..|].
    eexists r, _. split_and!; try done; [by destruct (c_verb r)|apply Hap..].
  - eexists; split_and!; try done; simpl; by rewrite He.
Qed.

(** Rule order does not matter to the verdict: everything it reads is invariant
    under permutation of the rules. *)
#[local] Instance most_restrictive_perm : Proper ((≡ₚ) ==> (=)) most_restrictive.
Proof.
  intros l k Hp. apply verb_code_inj. unfold most_restrictive.
  induction Hp as [|r l k _ IH|r q l|l k m _ IH1 _ IH2]; simpl.
  - done.
  - by rewrite !max_verb_code, IH.
  - rewrite !max_verb_code. lia.
  - congruence.
Qed.

#[local] Instance covering_perm e : Proper ((≡ₚ) ==> (≡ₚ)) (covering e).
Proof. intros l k Hp. by apply filter_bool_perm. Qed.

#[local] Instance redirect_sources_perm : Proper ((≡ₚ) ==> (=)) redirect_sources.
Proof.
  intros l k Hp. apply set_eq. intros x. unfold redirect_sources.
  rewrite !elem_of_list_to_set. by rewrite (omap_Permutation _ l k Hp).
Qed.

#[local] Instance effect_verdict_perm e : Proper ((≡ₚ) ==> (=)) (effect_verdict e).
Proof.
  intros l k Hp. unfold effect_verdict.
  assert (existsb (λ s, negb (existsb (covers e s) l)) (slots e)
        = existsb (λ s, negb (existsb (covers e s) k)) (slots e)) as ->.
  { apply existsb_ext. intros s. by rewrite Hp. }
  assert (existsb (denied_by e) l = existsb (denied_by e) k) as -> by (by rewrite Hp).
  assert (most_restrictive (covering e l) = most_restrictive (covering e k)) as -> by (by rewrite Hp).
  assert (redirect_sources (covering e l) = redirect_sources (covering e k)) as -> by (by rewrite Hp).
  done.
Qed.

#[local] Instance statement_verdict_perm stmt : Proper ((≡ₚ) ==> (=)) (statement_verdict stmt).
Proof.
  intros l k Hp. unfold statement_verdict. destruct (cs_Effects stmt) as [|e es]; [done|].
  f_equal. apply list_fmap_ext. intros _ e' _. by rewrite Hp.
Qed.

Lemma effect_verdict_add_deny e r rules : is_deny r = true →
  effect_verdict e (r :: rules) = if denied_by e r then verbDeny else effect_verdict e rules.
Proof.
  intros Hd. unfold effect_verdict.
  assert (covering e (r :: rules) = covering e rules) as -> by (unfold covering; simpl; by rewrite Hd).
  assert (existsb (λ s, negb (existsb (covers e s) (r :: rules))) (slots e)
        = existsb (λ s, negb (existsb (covers e s) rules)) (slots e)) as ->.
  { apply existsb_ext. intros s. simpl. unfold covers at 1. by rewrite Hd. }
  simpl. by destruct (denied_by e r).
Qed.

(** *** Verdicts and applying rules *)
Lemma effect_verdict_le stmt e rules : e ∈ cs_Effects stmt →
  verb_code (effect_verdict e rules) ≤ verb_code (statement_verdict stmt rules).
Proof.
  intros He. rewrite statement_verdict_effects by (intros Hn; rewrite Hn in He; set_solver).
  apply max_verbs_upper, list_elem_of_fmap. eauto.
Qed.

Lemma effect_not_denied e rules : verb_code (effect_verdict e rules) < 4 →
  (∀ r s, r ∈ rules → s ∈ slots e → applies r e s = true → is_deny r = false) ∧
  slots e ≠ [] ∧
  (∀ s, s ∈ slots e → ∃ r, r ∈ rules ∧ covers e s r = true) ∧
  effect_verdict e rules = most_restrictive (covering e rules).
Proof.
  unfold effect_verdict. destruct (existsb (denied_by e) rules) eqn:Hd; [simpl; lia|].
  destruct (bool_decide (slots e = [])) eqn:Hs; [simpl; lia|].
  destruct (existsb (λ s, _) _) eqn:Hc; [simpl; lia|]. simpl. bool_hyps.
  rewrite existsb_false_elem in Hd. rewrite existsb_false_elem in Hc. intros Hv. split_and!; [|done| |].
  - intros r s Hr Hsl Ha. specialize (Hd r Hr). unfold denied_by in Hd.
    destruct (is_deny r); [|done]. simpl in Hd. rewrite existsb_false_elem in Hd.
    specialize (Hd s Hsl). congruence.
  - intros s Hsl. specialize (Hc s Hsl). apply negb_false_iff, existsb_elem in Hc. done.
  - destruct (most_restrictive _), (eff_Objects e); try done.
    destruct (bool_decide _); [done|simpl in Hv; lia].
Qed.

Lemma public_deny v : public v = VerbDeny ↔ 4 ≤ verb_code v.
Proof. destruct v; simpl; split; try done; lia. Qed.

Lemma Evaluate_verb stmt rs svc :
  d_Verb (Evaluate stmt (Some rs) svc) = public (statement_verdict stmt (statementRulesFor rs svc)).
Proof.
  destruct (decide (cs_Effects stmt = [])) as [Hn|Hn].
  - unfold Evaluate, EvaluateP, statement_verdict. by rewrite Hn.
  - destruct (EvaluateP_spec stmt rs svc Hn) as (i & e & dec & _ & _ & Hd & _ & _ & Hok & _).
    unfold Evaluate. by rewrite Hd.
Qed.

Lemma effect_verdict_denied e rules r s :
  r ∈ rules → is_deny r = true → s ∈ slots e → applies r e s = true → effect_verdict e rules = verbDeny.
Proof.
  intros Hr Hd Hs Ha. unfold effect_verdict.
  assert (existsb (denied_by e) rules = true) as ->; [|done].
  apply existsb_elem. exists r. split; [done|]. unfold denied_by. rewrite Hd.
  apply existsb_elem. eauto.
Qed.

Lemma max_verb_deny_l v : max_verb verbDeny v = verbDeny.
Proof. by destruct v. Qed.

Lemma max_verb_deny_r v : max_verb v verbDeny = verbDeny.
Proof. by destruct v. Qed.

Lemma statement_verdict_add_deny stmt r rules : is_deny r = true →
  statement_verdict stmt (r :: rules) = verbDeny ∨
  statement_verdict stmt (r :: rules) = statement_verdict stmt rules.
Proof.
  intros Hd. destruct (decide (cs_Effects stmt = [])) as [Hn|Hn].
  { right. unfold statement_verdict. by rewrite Hn. }
  rewrite !statement_verdict_effects by done.
  induction (cs_Effects stmt) as [|e es IH]; [by right|]. rewrite !fmap_cons. cbn [foldr].
  rewrite effect_verdict_add_deny by done.
  destruct (denied_by e r); [left; apply max_verb_deny_l|].
  destruct (decide (es = [])) as [->|Hes]; [by right|].
  destruct (IH Hes) as [Hi|Hi].
  - left. rewrite Hi. apply max_verb_deny_r.
  - right. by rewrite Hi.
Qed.

Lemma covering_in_scope e rs svc r : r ∈ covering e (statementRulesFor rs svc) → r ∈ rs_statement rs.
Proof. intros [[? _]%filter_bool_elem _]%filter_bool_elem. done. Qed.

Lemma elem_of_redirect_sources rules q rd :
  q ∈ rules → c_verb q = VerbRedirect → c_redirect q = Some rd →
  rd_SourceRelation rd ∈ redirect_sources rules.
Proof.
  intros Hq Hv Hr. unfold redirect_sources. apply elem_of_list_to_set, list_elem_of_omap.
  exists q. split; [done|]. by rewrite Hv, Hr.
Qed.

Lemma redirect_verdict_source e rules : eff_Objects e ≠ [] →
  effect_verdict e rules = verbRedirect → ∃ src, redirect_sources (covering e rules) = {[src]}.
Proof.
  intros Hne. unfold effect_verdict. destruct (existsb _ rules); [done|].
  destruct (_ || _)%bool; [done|]. destruct (eff_Objects e); [done|].
  destruct (most_restrictive _); try done. destruct (bool_decide _) eqn:Hb; [|done]. intros _.
  apply bool_decide_eq_true, size_1_elem_of in Hb as [src Hs]. exists src. by apply leibniz_equiv.
Qed.

Lemma parse_decision_String name dec v : parse_decision name dec = Ok v → DecisionVerb_String v = dec.
Proof.
  unfold parse_decision. intros Hv. repeat case_match; simplify_eq; bool_hyps; by subst.
Qed.

Lemma compile_redirect_Ok r rd : compile_redirect r VerbRedirect = Ok rd →
  ∃ src tgt, sr_Relations r = [src] ∧ tgt ≠ "" ∧
    rd = Some {| rd_SourceRelation := src; rd_TargetRelation := tgt |}.
Proof.
  unfold compile_redirect. simpl. destruct (sr_Relations r) as [|src [|]]; [done| |done].
  destruct (sr_Redirect r) as [a|]; [|done].
  destruct (String.eqb_spec (ra_Relation a) ""); [done|]. intros [= <-]. eauto.
Qed.

Lemma expand_operations name ops gss g :
  rmap (λ op, match ExpandAlias op with
              | Some gs => Ok gs
              | None => Err (CE_UnknownOperation name op)
              end) ops = Ok gss →
  (∃ gs, g ∈ gs ∧ gs ∈ gss) ↔ ∃ op gs, op ∈ ops ∧ ExpandAlias op = Some gs ∧ g ∈ gs.
Proof.
  rewrite rmap_Ok. induction 1 as [|op gs ops gss Hop _ IH]; [set_solver|].
  destruct (ExpandAlias op) as [gs'|] eqn:He; [|done]. injection Hop as ->.
  setoid_rewrite elem_of_cons. split.
  - intros (k & Hg & [->|Hk]); [eauto 6|].
    destruct (proj1 IH) as (? & ? & ? & ? & ?); eauto 10.
  - intros (o & k & [->|Ho] & Hk & Hg).
    + rewrite He in Hk. injection Hk as ->. eauto.
    + destruct (proj2 IH) as (? & ? & ?); eauto.
Qed.

Lemma Evaluate_redirect_rule stmt rs svc : d_Verb (Evaluate stmt (Some rs) svc) = VerbRedirect →
  ∃ e r, e ∈ cs_Effects stmt ∧ effect_verdict e (statementRulesFor rs svc) = verbRedirect ∧
    r ∈ covering e (statementRulesFor rs svc) ∧
    c_verb r = VerbRedirect ∧ d_Redirect (Evaluate stmt (Some rs) svc) = c_redirect r.
Proof.
  intros Hv. rewrite Evaluate_verb in Hv.
  assert (statement_verdict stmt (statementRulesFor rs svc) = verbRedirect) as Hsv by (by destruct (statement_verdict _ _)).
  destruct (EvaluateP_spec stmt rs svc) as (i & e & dec & Hi & Hee & Hev & _ & _ & _ & _ & Hok).
  { intros Hn. unfold statement_verdict in Hsv. by rewrite Hn in Hsv. }
  rewrite Hsv in Hok, Hee. destruct Hok as (r & Hr & Hrv & _ & Hrd). exists e, r.
  unfold Evaluate. rewrite Hev. split_and!; [by eapply list_elem_of_lookup_2|done..].
Qed.

Lemma Evaluate_approve_rule stmt rs svc : d_Verb (Evaluate stmt (Some rs) svc) = VerbApprove →
  ∃ e a, e ∈ cs_Effects stmt ∧ d_Approval (Evaluate stmt (Some rs) svc) = Some a ∧
    (∃ q, q ∈ covering e (statementRulesFor rs svc) ∧ c_verb q = VerbApprove ∧ ar_Timeout a = c_timeout q) ∧
    (∀ q, q ∈ covering e (statementRulesFor rs svc) → c_verb q = VerbApprove →
       rule_name q ∈ ar_ContributingApproveRules a ∧
       ((∀ p, p ∈ covering e (statementRulesFor rs svc) → rule_name p = rule_name q → p = q) →
        ar_Timeout a ≤ c_timeout q)).
Proof.
  intros Hv. rewrite Evaluate_verb in Hv.
  assert (statement_verdict stmt (statementRulesFor rs svc) = verbApprove) as Hsv by (by destruct (statement_verdict _ _)).
  destruct (EvaluateP_spec stmt rs svc) as (i & e & dec & Hi & _ & Hev & _ & _ & _ & _ & Hok).
  { intros Hn. unfold statement_verdict in Hsv. by rewrite Hn in Hsv. }
  rewrite Hsv in Hok. destruct Hok as (_ & a & _ & _ & _ & Ha & Hq & Hall).
  exists e, a. unfold Evaluate. rewrite Hev. split; [by eapply list_elem_of_lookup_2|done].
Qed.

Lemma covering_meta e rules r : r ∈ covering e rules → r ∈ rules ∧ ruleMatchesEffectMeta r e = true.
Proof.
  intros [Hr Hx]%filter_bool_elem. split; [done|]. apply andb_true_iff in Hx as [_ Hx].
  apply existsb_elem in Hx as (s & _ & Ha). unfold applies in Ha. by apply andb_true_iff in Ha as [? _].
Qed.

Lemma ruleMatchesEffectMeta_true r e : ruleMatchesEffectMeta r e = true →
  eff_Group e ∈ c_groups r ∧ matchesResolution r (eff_Resolution e) = true.
Proof. unfold ruleMatchesEffectMeta. intros Hm. repeat case_match; bool_hyps; try done. Qed.

(** *** Claims *)

Definition spec_verdict (stmt : ClassifiedStatement) (rs : option RuleSet) (svc : string) : internalVerb :=
  match rs with
  | None => verbImplicitDeny
  | Some rs => statement_verdict stmt (statementRulesFor rs svc)
  end.

(** C1. Evaluate never panics and refines the abstract specification: on every
    statement, rule set (nil included) and service it returns a decision whose
    verb is the most restrictive verdict over the statement's effects, where an
    effect is denied by any applying deny rule, implicitly denied when one of its
    objects has no covering rule, and otherwise gets the most restrictive verb
    of the rules covering its objects, except that a redirect of an effect with objects
    whose covering redirect rules do not agree on exactly one source relation is an
    implicit deny. *)
Theorem Evaluate_refines_spec stmt rs svc :
  ∃ dec, EvaluateP stmt rs svc = Some dec ∧ Evaluate stmt rs svc = dec ∧
         d_Verb dec = public (spec_verdict stmt rs svc).
Proof.
  destruct rs as [rs|]; [|by eexists]. pose proof (Evaluate_verb stmt rs svc) as Hv.
  assert (is_Some (EvaluateP stmt (Some rs) svc)) as [dec Hd].
  { destruct (decide (cs_Effects stmt = [])) as [Hn|Hn].
    - unfold EvaluateP. rewrite Hn. eauto.
    - destruct (EvaluateP_spec stmt rs svc Hn) as (? & ? & dec & _ & _ & -> & _). eauto. }
  exists dec. unfold Evaluate in *. rewrite Hd in *. done.
Qed.

(** Explicit deny dominates: if a deny rule in scope for the service applies
    to any object of any effect, the decision is deny, and it names a deny rule in
    scope that applies to the effect it reports, whatever the other rules say. *)
Theorem Evaluate_deny_dominates stmt rs svc e r s :
  e ∈ cs_Effects stmt → s ∈ slots e → r ∈ statementRulesFor rs svc →
  c_verb r = VerbDeny → applies r e s = true →
  d_Verb (Evaluate stmt (Some rs) svc) = VerbDeny ∧
  ∃ i e' r', cs_Effects stmt !! i = Some e' ∧
    d_MatchingEffectIndex (Evaluate stmt (Some rs) svc) = Z.of_nat i ∧
    r' ∈ statementRulesFor rs svc ∧ c_verb r' = VerbDeny ∧ denied_by e' r' = true ∧
    d_RuleName (Evaluate stmt (Some rs) svc) = rule_name r'.
Proof.
  intros He Hs Hr Hd Ha.
  assert (is_deny r = true) as Hdr by (by apply bool_decide_eq_true_2).
  assert (statement_verdict stmt (statementRulesFor rs svc) = verbDeny) as Hv.
  { pose proof (effect_verdict_le stmt e (statementRulesFor rs svc) He) as Hle.
    rewrite (effect_verdict_denied e _ r s) in Hle by done.
    apply verb_code_inj. pose proof (verb_code_range (statement_verdict stmt (statementRulesFor rs svc))).
    simpl in *. lia. }
  rewrite Evaluate_verb, Hv. split; [done|].
  destruct (EvaluateP_spec stmt rs svc) as (i & e' & dec & Hi & _ & Hev & Hix & _ & _ & _ & Hok).
  { intros Hn. rewrite Hn in He. set_solver. }
  rewrite Hv in Hok. destruct Hok as (r' & Hr' & Hd' & Hn). exists i, e', r'.
  unfold Evaluate. rewrite Hev. split_and!; try done.
  unfold denied_by in Hd'. apply andb_true_iff in Hd' as [Hd' _]. by apply bool_decide_eq_true in Hd'.
Qed.

(** Fail closed: a decision other than deny means the statement has effects,
    no deny rule in scope applies to any of its objects, and every object of every
    effect is covered by a non-deny rule in scope whose verb is no more
    restrictive than the decision. *)
Theorem Evaluate_permit_covered stmt rs svc :
  d_Verb (Evaluate stmt (Some rs) svc) ≠ VerbDeny →
  cs_Effects stmt ≠ [] ∧
  ∀ e, e ∈ cs_Effects stmt → slots e ≠ [] ∧ ∀ s, s ∈ slots e →
    (∀ r, r ∈ statementRulesFor rs svc → applies r e s = true →
       c_verb r ≠ VerbDeny ∧
       verb_code (rank_of (c_verb r)) ≤ verb_code (rank_of (d_Verb (Evaluate stmt (Some rs) svc)))) ∧
    ∃ r, r ∈ statementRulesFor rs svc ∧ applies r e s = true.
Proof.
  rewrite Evaluate_verb. set (rules := statementRulesFor rs svc). intros Hv.
  assert (verb_code (statement_verdict stmt rules) < 4) as Hlt.
  { rewrite public_deny in Hv. lia. }
  assert (rank_of (public (statement_verdict stmt rules)) = statement_verdict stmt rules) as ->.
  { destruct (statement_verdict stmt rules); simpl in *; done || lia. }
  split; [intros Hn; unfold statement_verdict in Hlt; rewrite Hn in Hlt; simpl in Hlt; lia|].
  intros e He. pose proof (effect_verdict_le stmt e rules He) as Hle.
  destruct (effect_not_denied e rules) as (Hnd & Hne & Hcov & Hmr); [lia|].
  split; [done|]. intros s Hs. split.
  - intros r Hr Ha. specialize (Hnd r s Hr Hs Ha) as Hf.
    unfold is_deny in Hf. split; [by apply bool_decide_eq_false in Hf|].
    etrans; [|exact Hle]. rewrite Hmr. apply most_restrictive_bound, filter_bool_elem.
    split; [done|]. rewrite (Hnd r s) by done. apply existsb_elem. eauto.
  - destruct (Hcov s Hs) as (r & Hr & Hc). exists r. split; [done|].
    unfold covers in Hc. by apply andb_true_iff in Hc as [_ ?].
Qed.

(** Rule order never changes the verb: two rule sets with the same services
    whose statement rules are permutations of each other give every statement the
    same verb (only the reported rule name may differ). *)
Theorem Evaluate_rule_order stmt rs1 rs2 svc :
  rs_services rs1 = rs_services rs2 → rs_statement rs1 ≡ₚ rs_statement rs2 →
  d_Verb (Evaluate stmt (Some rs1) svc) = d_Verb (Evaluate stmt (Some rs2) svc).
Proof.
  intros Hs Hp. rewrite !Evaluate_verb. unfold statementRulesFor. rewrite Hs.
  f_equal. apply statement_verdict_perm. by apply filter_bool_perm.
Qed.

(** Adding a deny rule, at any position, can only tighten: every statement
    keeps its verb or is now denied. *)
Theorem Evaluate_add_deny stmt services conns l1 l2 r svc :
  c_verb r = VerbDeny →
  let old := Build_RuleSet services (l1 ++ l2) conns in
  let new := Build_RuleSet services (l1 ++ r :: l2) conns in
  d_Verb (Evaluate stmt (Some new) svc) = VerbDeny ∨
  d_Verb (Evaluate stmt (Some new) svc) = d_Verb (Evaluate stmt (Some old) svc).
Proof.
  intros Hd old new. rewrite !Evaluate_verb.
  assert (is_deny r = true) as Hr by (by apply bool_decide_eq_true_2).
  assert (statementRulesFor new svc ≡ₚ
    (if serviceFilter_matches (c_serviceFilter r) svc (services !! svc) then [r] else []) ++
    statementRulesFor old svc) as Hp.
  { unfold statementRulesFor, old, new. simpl.
    rewrite (filter_bool_perm _ _ _ (symmetry (Permutation_middle l1 l2 r))). simpl.
    by destruct (serviceFilter_matches _ _ _). }
  rewrite (statement_verdict_perm stmt _ _ Hp).
  destruct (serviceFilter_matches _ _ _); simpl; [|by right].
  destruct (statement_verdict_add_deny stmt r (statementRulesFor old svc) Hr) as [-> | ->]; auto.
Qed.

(** Approval timeouts: when rule names are unique, an approve decision waits
    for the smallest timeout among the approve rules covering the effect it
    reports, and lists the names of all of them. *)
Theorem Evaluate_approve_timeout stmt rs svc :
  NoDup (rule_name <$> rs_statement rs) →
  d_Verb (Evaluate stmt (Some rs) svc) = VerbApprove →
  ∃ e a, e ∈ cs_Effects stmt ∧ d_Approval (Evaluate stmt (Some rs) svc) = Some a ∧
    let approvers := List.filter (λ r, bool_decide (c_verb r = VerbApprove)) (covering e (statementRulesFor rs svc)) in
    (∃ q, q ∈ approvers ∧ ar_Timeout a = c_timeout q) ∧
    ∀ q, q ∈ approvers → ar_Timeout a ≤ c_timeout q ∧ rule_name q ∈ ar_ContributingApproveRules a.
Proof.
  intros Hnd (e & a & He & Ha & (q & Hq & Hqv & Ht) & Hall)%Evaluate_approve_rule.
  exists e, a. split; [done|]. split; [done|].
  cbv zeta. split.
  - exists q. split; [|done]. apply filter_bool_elem. split; [done|]. by apply bool_decide_eq_true_2.
  - intros p [Hp Hpv]%filter_bool_elem. apply bool_decide_eq_true in Hpv.
    destruct (Hall p Hp Hpv) as [Hn Hle]. split; [|done]. apply Hle.
    intros p' Hp' Heq. eapply (NoDup_fmap_inj_elem rule_name); [exact Hnd| | |done].
    all: by apply (covering_in_scope e _ svc).
Qed.

(** Redirects are unambiguous: a redirect decision carries the target of a
    rule in scope that covers the reported effect, and when the effect has objects
    every redirect rule covering it names the same source relation. *)
Theorem Evaluate_redirect_sound stmt rs svc :
  d_Verb (Evaluate stmt (Some rs) svc) = VerbRedirect →
  ∃ e r, e ∈ cs_Effects stmt ∧ r ∈ covering e (statementRulesFor rs svc) ∧
    c_verb r = VerbRedirect ∧ d_Redirect (Evaluate stmt (Some rs) svc) = c_redirect r ∧
    (eff_Objects e ≠ [] → ∃ src, ∀ q rd, q ∈ covering e (statementRulesFor rs svc) →
       c_verb q = VerbRedirect → c_redirect q = Some rd → rd_SourceRelation rd = src).
Proof.
  intros (e & r & He & Hee & Hr & Hrv & Hrd)%Evaluate_redirect_rule. exists e, r.
  split_and!; try done. intros Hne.
  apply redirect_verdict_source in Hee as [src Hsrc]; [|done]. exists src. intros q rd Hq Hqv Hqr.
  apply (elem_of_redirect_sources _ q rd) in Hq; [|done..]. rewrite Hsrc in Hq. set_solver.
Qed.

(** A compiled rule is the rule that was written: its verb is the one its
    decision string names, its groups are exactly the expansion of its operations,
    a redirect rule has exactly one source relation and a non-empty target, and an
    approve rule never compiles to a zero timeout. *)
Theorem compileStatementRule_sound r c :
  compileStatementRule r = Ok c →
  c_src c = r ∧ DecisionVerb_String (c_verb c) = sr_Decision r ∧
  (∀ g, g ∈ c_groups c ↔ ∃ op gs, op ∈ sr_Operations r ∧ ExpandAlias op = Some gs ∧ g ∈ gs) ∧
  (c_verb c = VerbRedirect → ∃ src tgt, sr_Relations r = [src] ∧ tgt ≠ "" ∧
     c_redirect c = Some {| rd_SourceRelation := src; rd_TargetRelation := tgt |}) ∧
  (c_verb c = VerbApprove → c_timeout c ≠ 0).
Proof.
  unfold compileStatementRule. intros Hc. ok_hyps. injection Hc as <-. simpl.
  assert (DecisionVerb_String x = sr_Decision r) as Hverb by (by eapply parse_decision_String).
  split_and!; [done|done| | |].
  - intros g. rewrite elem_of_list_to_set, list_elem_of_join. eapply expand_operations; eassumption.
  - intros ->. by apply compile_redirect_Ok.
  - intros ->. simpl in Hverb. rewrite <-Hverb. simpl.
    destruct (Z.eqb_spec (sr_Timeout r) 0); [|done]. by vm_compute.
Qed.

End policy.

(** ** Concrete runs

    A service [pg] with four rules, compiled by [compileStatementRule], and the
    statements the witnesses evaluate. *)
Module Sample.
#[local] Existing Instance ascii_go.
#[local] Existing Instance literal_glob.
Definition raw_template : TemplateLib := {|
  template := string; template_Parse := Some; template_Execute := λ t _, Ok t |}.
#[local] Existing Instance raw_template.

Definition rule (name dec : string) (ops objects : list string) (timeout : Z) : StatementRule :=
  {| sr_Name := name; sr_DBService := "pg"; sr_DBFamily := ""; sr_DBDialect := "";
     sr_Schemas := []; sr_Objects := objects; sr_Relations := []; sr_Functions := [];
     sr_Operations := ops; sr_Subtypes := []; sr_MatchObjectResolution := "";
     sr_RequireWhere := false; sr_Decision := dec; sr_Message := ""; sr_Timeout := timeout;
     sr_Redirect := None; sr_AcknowledgeAuditOnDangerous := false; sr_DenyModeInTx := "" |}.
Definition swap_rule : StatementRule :=
  {| sr_Name := "swap"; sr_DBService := "pg"; sr_DBFamily := ""; sr_DBDialect := "";
     sr_Schemas := []; sr_Objects := []; sr_Relations := ["public.users"]; sr_Functions := [];
     sr_Operations := ["read"]; sr_Subtypes := []; sr_MatchObjectResolution := "";
     sr_RequireWhere := false; sr_Decision := "redirect"; sr_Message := ""; sr_Timeout := 0;
     sr_Redirect := Some {| ra_Relation := "public.users_view" |};
     sr_AcknowledgeAuditOnDangerous := false; sr_DenyModeInTx := "" |}.

Definition compiled (r : StatementRule) : list compiledStatementRule :=
  match compileStatementRule r with Ok c => [c] | Err _ => [] end.
Definition allow_reads := rule "allow-reads" "allow" ["read"] [] 0.
Definition deny_secrets := rule "deny-secrets" "deny" ["read"] ["secrets"] 0.
Definition slow_approve := rule "slow-approve" "approve" ["delete"] [] 0.
Definition fast_approve := rule "fast-approve" "approve" ["delete"] [] second.
Definition sources := [allow_reads; deny_secrets; slow_approve; fast_approve; swap_rule].
Definition rules : RuleSet := {|
  rs_services := ∅; rs_statement := mjoin (compiled <$> sources); rs_connection := [] |}.

Definition table (n : string) : ObjectRef := Build_ObjectRef ObjectTable "public" n "" 0 "" "".
Definition catalog (n : string) : ResolvedObjectRef :=
  Build_ResolvedObjectRef "catalog" "relation" 0 "public" n "r" "" "" "".
Definition effect (g : Z) (n : string) : Effect := Build_Effect g 0 [table n] [catalog n] 0 false None.
Definition stmt (effs : list Effect) : ClassifiedStatement :=
  Build_ClassifiedStatement effs "SELECT" ParserBackendLibPgQuery "" 0 0 "" BulkOpNone.
Definition read_secrets := stmt [effect GroupRead "orders"; effect GroupRead "secrets"].
Definition read_orders := stmt [effect GroupRead "orders"].
Definition read_users := stmt [effect GroupRead "users"].
Definition delete_orders := stmt [effect GroupDelete "orders"].
Definition deny_compiled : compiledStatementRule :=
  default (Build_compiledStatementRule deny_secrets VerbDeny ∅ ∅ false resAny [] [] [] [] 0 None None
             (Build_serviceFilter "" "" "")) (rs_statement rules !! 1%nat).

Example runs :
  d_Verb (Evaluate read_secrets (Some rules) "pg") = VerbDeny ∧
  d_Verb (Evaluate read_orders (Some rules) "pg") = VerbAllow ∧
  d_Verb (Evaluate read_users (Some rules) "pg") = VerbRedirect ∧
  d_Verb (Evaluate delete_orders (Some rules) "pg") = VerbApprove ∧
  d_Verb (Evaluate read_orders (Some rules) "other") = VerbDeny.
Proof. by vm_compute. Qed.

Lemma Evaluate_deny_dominates_witness :
  d_Verb (Evaluate read_secrets (Some rules) "pg") = VerbDeny.
Proof.
  apply (Evaluate_deny_dominates read_secrets rules "pg" (effect GroupRead "secrets") deny_compiled (Some 0%nat)).
  - apply list_elem_of_lookup_2 with 1%nat. reflexivity.
  - apply list_elem_of_lookup_2 with 0%nat. reflexivity.
  - apply list_elem_of_lookup_2 with 1%nat. vm_compute. reflexivity.
  - vm_compute. reflexivity.
  - vm_compute. reflexivity.
Defined.

Lemma Evaluate_permit_covered_witness :
  cs_Effects read_orders ≠ [].
Proof. apply (Evaluate_permit_covered read_orders rules "pg"). vm_compute. discriminate. Defined.

Definition reversed : RuleSet := {|
  rs_services := ∅; rs_statement := rev (rs_statement rules); rs_connection := [] |}.
Lemma Evaluate_rule_order_witness :
  d_Verb (Evaluate read_users (Some rules) "pg") = d_Verb (Evaluate read_users (Some reversed) "pg").
Proof. apply Evaluate_rule_order; [reflexivity|]. apply Permutation_rev. Defined.

Lemma Evaluate_add_deny_witness :
  let old := Build_RuleSet ∅ (mjoin (compiled <$> [allow_reads])) [] in
  let new := Build_RuleSet ∅ ([] ++ deny_compiled :: mjoin (compiled <$> [allow_reads])) [] in
  d_Verb (Evaluate read_orders (Some new) "pg") = VerbDeny ∨
  d_Verb (Evaluate read_orders (Some new) "pg") = d_Verb (Evaluate read_orders (Some old) "pg").
Proof.
  apply (Evaluate_add_deny read_orders ∅ [] [] (mjoin (compiled <$> [allow_reads])) deny_compiled "pg").
  vm_compute. reflexivity.
Defined.

Lemma Evaluate_approve_timeout_witness :
  ∃ a, d_Approval (Evaluate delete_orders (Some rules) "pg") = Some a ∧ ar_Timeout a = second.
Proof.
  destruct (Evaluate_approve_timeout delete_orders rules "pg") as (e & a & _ & Ha & _).
  - apply (bool_decide_unpack _). vm_compute. exact I.
  - vm_compute. reflexivity.
  - exists a. split; [exact Ha|]. vm_compute in Ha. injection Ha as <-. reflexivity.
Defined.

Lemma Evaluate_redirect_sound_witness :
  ∃ rd, d_Redirect (Evaluate read_users (Some rules) "pg") = Some rd ∧ rd_TargetRelation rd = "public.users_view".
Proof.
  destruct (Evaluate_redirect_sound read_users rules "pg") as (e & r & _ & _ & _ & _ & _).
  - vm_compute. reflexivity.
  - eexists. split; vm_compute; reflexivity.
Defined.

Lemma compileStatementRule_sound_witness :
  ∃ c, compileStatementRule swap_rule = Ok c ∧ c_verb c = VerbRedirect ∧ c_src c = swap_rule.
Proof.
  eexists. split; [vm_compute; reflexivity|]. split; [vm_compute; reflexivity|].
  apply (compileStatementRule_sound swap_rule). vm_compute. reflexivity.
Defined.
End Sample.
