(* ===== verification/DbConn.v ===== *)
(** * Database connection rules (internal/db/policy: evaluate_conn.go and the
    connection half of compile.go)

    Compilation of connection rules and [EvaluateConnection], the most
    restrictive matching rule with implicit deny. *)

From S2P Require Import Prelude DbEffects DbPolicy.
Open Scope Z_scope.

Section conn.
Context `{GoLib, GlobLib, TemplateLib}.

Definition conn_decision (r : ConnectionRule) : Result CompileError DecisionVerb :=
  if String.eqb (cr_Decision r) "allow" then Ok VerbAllow
  else if String.eqb (cr_Decision r) "deny" then Ok VerbDeny
  else if String.eqb (cr_Decision r) "approve" then Ok VerbApprove
  else if String.eqb (cr_Decision r) "audit" then Ok VerbAudit
  else Err (CE_UnhandledDecision (cr_Name r) (cr_Decision r)).

Definition conn_match_kind (r : ConnectionRule) : Result CompileError ConnectionMatchKind :=
  if String.eqb (cr_MatchKind r) "" || String.eqb (cr_MatchKind r) "connect" then Ok MatchConnect
  else if String.eqb (cr_MatchKind r) "cancel" then Ok MatchCancel
  else if String.eqb (cr_MatchKind r) "replication" then Ok MatchReplication
  else Err (CE_UnhandledMatchKind (cr_Name r) (cr_MatchKind r)).

Definition conn_glob (r : ConnectionRule) (field pat : string) : Result CompileError (option glob) :=
  if negb (String.eqb pat "") then
    match glob_Compile pat [] with
    | Some g => Ok (Some g)
    | None => Err (CE_Glob (cr_Name r) field pat)
    end
  else Ok None.

Definition compileConnectionRule (r : ConnectionRule) : Result CompileError compiledConnectionRule :=
  let! verb := conn_decision r in
  let! mk := conn_match_kind r in
  let! app := conn_glob r "application_name" (cr_ApplicationName r) in
  let! cid := conn_glob r "client_identity" (cr_ClientIdentity r) in
  let! tmpl := compile_message (cr_Name r) (cr_Message r) in
  Ok {|
    cc_src := r; cc_verb := verb; cc_matchKind := mk;
    cc_dbUsers := list_to_set (cr_DBUser r); cc_database := cr_Database r;
    cc_applicationName := app; cc_clientIdentity := cid;
    cc_timeout := if String.eqb (cr_Decision r) "approve" && (cr_Timeout r =? 0)
                  then defaultApproveTimeout else cr_Timeout r;
    cc_msgTemplate := tmpl;
    cc_serviceFilter := {| sf_service := cr_DBService r; sf_family := ""; sf_dialect := "" |}
  |}.

Definition conn_renderMessage (c : compiledConnectionRule) (ctx : messageContext) : string :=
  render (cc_msgTemplate c) (cr_Message (cc_src c)) ctx.

Definition connRuleMatchesInfo (r : compiledConnectionRule) (info : ConnectionInfo) : bool :=
  if negb (bool_decide (cc_dbUsers r = ∅)) && negb (bool_decide (ci_DBUser info ∈ cc_dbUsers r)) then false
  else if negb (String.eqb (cc_database r) "") && negb (String.eqb (cc_database r) (ci_Database info)) then false
  else if match cc_applicationName r with Some g => negb (glob_Match g (ci_ApplicationName info)) | None => false end
  then false
  else if match cc_clientIdentity r with Some g => negb (glob_Match g (ci_ClientIdentity info)) | None => false end
  then false
  else true.

Definition connectionRuleKindFor (mk : ConnectionMatchKind) : RuleKind :=
  match mk with MatchCancel => RuleKindCancel | _ => RuleKindConnection end.

Definition connKindString (mk : ConnectionMatchKind) : string :=
  match mk with
  | MatchConnect => "connect" | MatchCancel => "cancel" | MatchReplication => "replication"
  end.

Definition conn_rank (v : DecisionVerb) : Z :=
  match v with
  | VerbAllow => 0 | VerbAudit => 1 | VerbApprove => 2 | VerbDeny => 3 | VerbRedirect => -1
  end.
Definition compareConnVerb (a b : DecisionVerb) : Z := conn_rank a - conn_rank b.

(** The guards of the rule loop. *)
Definition conn_rule_matches (info : ConnectionInfo) (r : compiledConnectionRule) : bool :=
  bool_decide (cc_matchKind r = ci_MatchKind info) &&
  (String.eqb (sf_service (cc_serviceFilter r)) "" ||
   String.eqb (sf_service (cc_serviceFilter r)) (ci_Service info)) &&
  connRuleMatchesInfo r info.

Definition best_conn (best r : compiledConnectionRule) : compiledConnectionRule :=
  if 0 <? compareConnVerb (cc_verb r) (cc_verb best) then r else best.

Definition EvaluateConnection (info : ConnectionInfo) (rs : option RuleSet) : Decision :=
  let deny reason :=
    mkDecision VerbDeny (connectionRuleKindFor (ci_MatchKind info)) "" (-1) GroupUnknown reason in
  match rs with
  | None => deny "policy not loaded"
  | Some rs =>
      match List.filter (conn_rule_matches info) (rs_connection rs) with
      | [] => deny "no connection rule matched"
      | first :: rest =>
          let best := fold_left best_conn rest first in
          Build_Decision (cc_verb best) (connectionRuleKindFor (ci_MatchKind info))
            (cr_Name (cc_src best)) (-1) GroupUnknown
            (conn_renderMessage best
               (Build_messageContext (connKindString (ci_MatchKind info)) "" "" "" "" ""))
            []
            (if bool_decide (cc_verb best = VerbApprove)
             then Some {| ar_Timeout := cc_timeout best;
                          ar_ContributingApproveRules := [cr_Name (cc_src best)] |}
             else None)
            None
      end
  end.

(** ** Lemmas *)
Lemma best_conn_fold rest first :
  let best := fold_left best_conn rest first in
  best ∈ first :: rest ∧ ∀ r, r ∈ first :: rest → conn_rank (cc_verb r) ≤ conn_rank (cc_verb best).
Proof.
  revert first. induction rest as [|q rest IH]; intros first; simpl.
  { split; [set_solver|]. intros r ->%list_elem_of_singleton. lia. }
  destruct (IH (best_conn first q)) as [Hin Hmax].
  assert (best_conn first q = first ∨ best_conn first q = q) as Hor
    by (unfold best_conn; destruct (Z.ltb _ _); auto).
  assert (conn_rank (cc_verb first) ≤ conn_rank (cc_verb (best_conn first q)) ∧
          conn_rank (cc_verb q) ≤ conn_rank (cc_verb (best_conn first q))) as [Hf Hq].
  { unfold best_conn, compareConnVerb. destruct (Z.ltb_spec 0 (conn_rank (cc_verb q) - conn_rank (cc_verb first))); lia. }
  pose proof (Hmax (best_conn first q) ltac:(set_solver)).
  split.
  { apply elem_of_cons in Hin as [->|Hin]; [destruct Hor as [-> | ->]|]; rewrite !elem_of_cons; auto. }
  intros r [->|[->|Hr]%elem_of_cons]%elem_of_cons; [lia|lia|].
  apply Hmax. set_solver.
Qed.

(** [EvaluateConnection] as a choice among the matching rules. *)
Lemma EvaluateConnection_cases info rs :
  let matched := List.filter (conn_rule_matches info) (rs_connection rs) in
  (matched = [] ∧ d_Verb (EvaluateConnection info (Some rs)) = VerbDeny ∧
   d_RuleName (EvaluateConnection info (Some rs)) = "") ∨
  ∃ r, r ∈ matched ∧ cc_verb r = d_Verb (EvaluateConnection info (Some rs)) ∧
    cr_Name (cc_src r) = d_RuleName (EvaluateConnection info (Some rs)) ∧
    (∀ q, q ∈ matched → conn_rank (cc_verb q) ≤ conn_rank (cc_verb r)) ∧
    d_Approval (EvaluateConnection info (Some rs)) =
      if bool_decide (cc_verb r = VerbApprove)
      then Some {| ar_Timeout := cc_timeout r; ar_ContributingApproveRules := [cr_Name (cc_src r)] |}
      else None.
Proof.
  intros matched. unfold EvaluateConnection. fold matched.
  destruct matched as [|first rest]; [by left|]. right.
  destruct (best_conn_fold rest first) as [Hin Hmax].
  exists (fold_left best_conn rest first). done.
Qed.

(** Connections are denied by default and decided by the most restrictive
    matching rule: a permitting decision carries the verb and name of a rule that
    matches the connection, and any matching deny rule forces deny. *)
Theorem EvaluateConnection_most_restrictive info rs r :
  d_Verb (EvaluateConnection info (Some rs)) ≠ VerbDeny →
  (∃ q, q ∈ rs_connection rs ∧ conn_rule_matches info q = true ∧
     cc_verb q = d_Verb (EvaluateConnection info (Some rs)) ∧
     cr_Name (cc_src q) = d_RuleName (EvaluateConnection info (Some rs))) ∧
  (r ∈ rs_connection rs → conn_rule_matches info r = true →
     cc_verb r ≠ VerbDeny ∧
     conn_rank (cc_verb r) ≤ conn_rank (d_Verb (EvaluateConnection info (Some rs)))).
Proof.
  intros Hv. destruct (EvaluateConnection_cases info rs) as [(_ & Hd & _)|(q & Hq & Hqv & Hn & Hmax & _)];
    [congruence|]. apply filter_bool_elem in Hq as [Hq Hm]. split; [by exists q|].
  intros Hr Hrm. specialize (Hmax r (proj2 (filter_bool_elem _ _ _) (conj Hr Hrm))).
  rewrite <-Hqv in *. split; [|done]. intros Hd. rewrite Hd in Hmax.
  destruct (cc_verb q); simpl in Hmax; done || lia.
Qed.
End conn.

Module ConnSample.
#[local] Existing Instance ascii_go.
#[local] Existing Instance literal_glob.
#[local] Existing Instance Sample.raw_template.
Definition conn_rule (name dec user : string) : ConnectionRule :=
  Build_ConnectionRule name "" "" (if String.eqb user "" then [] else [user]) "" "" "" dec "" 0.
Definition compiled (r : ConnectionRule) : list compiledConnectionRule :=
  match compileConnectionRule r with Ok c => [c] | Err _ => [] end.
Definition conns : RuleSet :=
  Build_RuleSet ∅ [] (mjoin (compiled <$> [conn_rule "any" "allow" ""; conn_rule "root" "deny" "root"])).
Definition info (user : string) : ConnectionInfo :=
  Build_ConnectionInfo "pg" MatchConnect user "db" "psql" "agent".

Example conn_runs :
  d_Verb (EvaluateConnection (info "app") (Some conns)) = VerbAllow ∧
  d_Verb (EvaluateConnection (info "root") (Some conns)) = VerbDeny.
Proof. by vm_compute. Qed.

Lemma EvaluateConnection_most_restrictive_witness :
  ∃ q, q ∈ rs_connection conns ∧ conn_rule_matches (info "app") q = true ∧ cr_Name (cc_src q) = "any".
Proof.
  destruct (EvaluateConnection_most_restrictive (info "app") conns
    (default (Build_compiledConnectionRule (conn_rule "" "" "") VerbDeny MatchConnect ∅ "" None None 0 None
      (Build_serviceFilter "" "" "")) (rs_connection conns !! 0%nat))) as [(q & Hq & Hm & _ & Hn) _].
  - vm_compute. discriminate.
  - exists q. split; [exact Hq|]. split; [exact Hm|]. rewrite Hn. vm_compute. reflexivity.
Defined.
End ConnSample.
