(* ===== verification/DbValidate.v ===== *)
(** * Database policy validation and loading
    (internal/db/policy: validate.go and phases B and C of decode.go)

    The load-time checks, and what a rule set that passed them guarantees about
    every later evaluation. *)

From S2P Require Import Prelude DbEffects DbPolicy DbConn.
Open Scope Z_scope.

Definition approveTimeoutMax : Z := 600 * second.

(** One constructor per error code; the message text is not kept. *)
Inductive ValidationError :=
| service_tls_mode_required (svc : string)
| service_unknown_tls_mode (svc mode : string)
| service_plaintext_unsafe_dest (svc host : string)
| rule_service_unknown (rule svc : string)
| rule_service_passthrough (rule svc : string)
| rule_unknown_decision (rule dec : string)
| rule_operations_required (rule : string)
| rule_unknown_operation (rule op : string)
| rule_require_where_invalid_operation (rule : string)
| rule_unknown_subtype (rule st : string)
| rule_unknown_resolution (rule res : string)
| approve_timeout_exceeds_max (rule : string) (timeout : Z)
| rule_too_broad_allow (rule : string)
| rule_deny_mode_in_tx_not_deny (rule : string)
| rule_deny_mode_in_tx_unknown (rule mode : string)
| conn_unknown_match_kind (rule mk : string)
| conn_redirect_invalid (rule : string)
| cancel_rule_approve (rule : string)
| conn_passthrough_field_unavailable (rule : string)
| triggered_by_service (e : ValidationError) (svc : string)
| redirect_relation_required (rule : string)
| redirect_relation_not_canonical (rule rel : string)
| redirect_source_relation_required (rule : string)
| redirect_source_relation_not_canonical (rule rel : string)
| redirect_source_relation_exclusive (rule : string)
| redirect_requires_catalog_resolved (rule : string)
| redirect_operations_must_be_read (rule : string)
| redirect_requires_terminate_postgres_service (rule : string).

(** [Warning]; [Line] is never set and the message is determined by the rule
    name and the code. *)
Record Warning := { w_Rule : string; w_Field : string; w_Code : string }.

Definition IsLoopback (ip : list Z) : bool :=
  match ip with
  | [a; _; _; _] => a =? 127
  | _ => bool_decide (ip = replicate 15 0 ++ [1])
  end.
Definition IsPrivate (ip : list Z) : bool :=
  match ip with
  | [a; b; _; _] => (a =? 10) || ((a =? 172) && (Z.land b 240 =? 16)) || ((a =? 192) && (b =? 168))
  | a :: _ => bool_decide (length ip = 16%nat) && (Z.land a 254 =? 252)
  | [] => false
  end.

(** [net.SplitHostPort], host part; [None] is any of its errors. *)
Fixpoint LastIndexByte_from (s : string) (c : ascii) (i : nat) : option nat :=
  match s with
  | EmptyString => None
  | String d s => match LastIndexByte_from s c (S i) with
                  | Some j => Some j
                  | None => if Ascii.eqb d c then Some i else None
                  end
  end.
Definition SplitHostPort (hostport : string) : option string :=
  i ← LastIndexByte_from hostport ":" 0;
  if HasPrefix hostport "[" then
    fin ← IndexByte hostport "]";
    if negb (bool_decide (S fin = i)) then None
    else if str_mem "[" (str_drop 1 hostport) then None
    else if str_mem "]" (str_drop (S fin) hostport) then None
    else Some (str_take (fin - 1) (str_drop 1 hostport))
  else
    let host := str_take i hostport in
    if str_mem ":" host then None
    else if str_mem "[" hostport then None
    else if str_mem "]" hostport then None
    else Some host.

Section validate.
Context `{GoLib, GlobLib, TemplateLib, NetLib}.

Definition upstreamHost (upstream : string) : string := default upstream (SplitHostPort upstream).

Definition isLoopbackOrPrivate (host : string) : bool :=
  if String.eqb host "" then false
  else if EqualFold host "localhost" then true
  else match net_ParseIP host with
       | None => false
       | Some ip => IsLoopback ip || IsPrivate ip
       end.

Definition validateService (s : DBService) : list ValidationError :=
  (if String.eqb (svc_TLSMode s) "" then [service_tls_mode_required (svc_Name s)]
   else if String.eqb (svc_TLSMode s) "passthrough" || String.eqb (svc_TLSMode s) "terminate_reissue" ||
           String.eqb (svc_TLSMode s) "terminate_plaintext_upstream" then []
   else [service_unknown_tls_mode (svc_Name s) (svc_TLSMode s)]) ++
  (if String.eqb (svc_TLSMode s) "terminate_plaintext_upstream" && negb (svc_TrustedNetwork s) then
     err_if (negb (isLoopbackOrPrivate (upstreamHost (svc_Upstream s))))
       (service_plaintext_unsafe_dest (svc_Name s) (upstreamHost (svc_Upstream s)))
   else []).

Definition ruleHasCanonicalSelectors (r : StatementRule) : bool :=
  negb (bool_decide (sr_Relations r = [])) || negb (bool_decide (sr_Functions r = [])).
Definition ruleHasAnyObjectSelector (r : StatementRule) : bool :=
  negb (bool_decide (sr_Objects r = [])) || negb (bool_decide (sr_Relations r = [])) ||
  negb (bool_decide (sr_Functions r = [])).
Definition canonicalSelectorWarningField (r : StatementRule) : string :=
  if negb (bool_decide (sr_Relations r = [])) then "relations" else "functions".

Definition expandedGroups (r : StatementRule) : gset Z :=
  list_to_set (mjoin ((λ op, default [] (ExpandAlias op)) <$> sr_Operations r)).

Definition groupsOnlyRead (groups : gset Z) : bool :=
  if bool_decide (size groups = 0%nat) then false
  else if negb (bool_decide (size groups = 1%nat)) then false
  else bool_decide (GroupRead ∈ groups).
Definition groupsOnlyModifyDelete (groups : gset Z) : bool :=
  if bool_decide (size groups = 0%nat) then false
  else forallb (λ g, (g =? GroupModify) || (g =? GroupDelete)) (elements groups).
Definition allGroupsObjectless (groups : gset Z) : bool :=
  if bool_decide (size groups = 0%nat) then false
  else forallb isObjectlessGroup (elements groups).
Definition hasHighRisk (groups : gset Z) : bool :=
  existsb (λ g, (Group_RiskTier g =? High) || (Group_RiskTier g =? Critical)) (elements groups).

Definition ruleMatchesTerminatePostgresService (r : StatementRule) (svcs : gmap string DBService) : bool :=
  existsb (λ p : string * DBService,
    let (id, svc) := p in
    String.eqb (svc_Family svc) "postgres" && negb (String.eqb (svc_TLSMode svc) "passthrough") &&
    serviceFilter_matches {| sf_service := sr_DBService r; sf_family := sr_DBFamily r; sf_dialect := sr_DBDialect r |}
      id (Some svc)) (map_to_list svcs).

Fixpoint ident_rest (s : string) : bool :=
  match s with
  | EmptyString => true
  | String c s => (byte_in "a" "z" c || byte_in "0" "9" c || Ascii.eqb c "_") && ident_rest s
  end.
Definition isPlainIdentifier (s : string) : bool :=
  match s with
  | EmptyString => false
  | String c s => (byte_in "a" "z" c || Ascii.eqb c "_") && ident_rest s
  end.
Definition isCanonicalRelationName (s : string) : bool :=
  match Split s "." with
  | [a; b] => isPlainIdentifier a && isPlainIdentifier b
  | _ => false
  end.

Definition validateRedirectStatementRule (r : StatementRule) (svcs : gmap string DBService) (groups : gset Z)
    : list ValidationError :=
  let name := sr_Name r in
  (match sr_Redirect r with
   | None => [redirect_relation_required name]
   | Some a =>
       if String.eqb (ra_Relation a) "" then [redirect_relation_required name]
       else err_if (negb (isCanonicalRelationName (ra_Relation a)))
              (redirect_relation_not_canonical name (ra_Relation a))
   end) ++
  (match sr_Relations r with
   | [rel] => err_if (negb (isCanonicalRelationName rel)) (redirect_source_relation_not_canonical name rel)
   | _ => [redirect_source_relation_required name]
   end) ++
  err_if (negb (bool_decide (sr_Objects r = [])) || negb (bool_decide (sr_Functions r = [])))
    (redirect_source_relation_exclusive name) ++
  err_if (negb (String.eqb (sr_MatchObjectResolution r) "catalog_resolved")) (redirect_requires_catalog_resolved name) ++
  err_if (negb (groupsOnlyRead groups)) (redirect_operations_must_be_read name) ++
  err_if (negb (ruleMatchesTerminatePostgresService r svcs)) (redirect_requires_terminate_postgres_service name).

Definition is_decision (d : string) (ds : list string) : bool := existsb (String.eqb d) ds.

(** The fatal half of [validateStatementRule], checks in source order. *)
Definition validateStatementRule_errs (r : StatementRule) (svcs : gmap string DBService) : list ValidationError :=
  let name := sr_Name r in
  let groups := expandedGroups r in
  (if negb (String.eqb (sr_DBService r) "") then
     match svcs !! sr_DBService r with
     | None => [rule_service_unknown name (sr_DBService r)]
     | Some svc => err_if (String.eqb (svc_TLSMode svc) "passthrough") (rule_service_passthrough name (sr_DBService r))
     end
   else []) ++
  err_if (negb (is_decision (sr_Decision r) ["allow"; "deny"; "approve"; "audit"; "redirect"]))
    (rule_unknown_decision name (sr_Decision r)) ++
  err_if (bool_decide (sr_Operations r = [])) (rule_operations_required name) ++
  mjoin ((λ op, err_if (negb (bool_decide (is_Some (ExpandAlias op)))) (rule_unknown_operation name op)) <$> sr_Operations r) ++
  err_if (sr_RequireWhere r && negb (groupsOnlyModifyDelete groups)) (rule_require_where_invalid_operation name) ++
  mjoin ((λ st, err_if (negb (bool_decide (is_Some (ParseSubtype st)))) (rule_unknown_subtype name st)) <$> sr_Subtypes r) ++
  (if negb (String.eqb (sr_MatchObjectResolution r) "") && negb (String.eqb (sr_MatchObjectResolution r) "*") then
     err_if (negb (bool_decide (is_Some (ParseResolution (sr_MatchObjectResolution r)))))
       (rule_unknown_resolution name (sr_MatchObjectResolution r))
   else []) ++
  err_if (String.eqb (sr_Decision r) "approve" && (approveTimeoutMax <? sr_Timeout r))
    (approve_timeout_exceeds_max name (sr_Timeout r)) ++
  (if String.eqb (sr_Decision r) "redirect" then validateRedirectStatementRule r svcs groups else []) ++
  err_if (String.eqb (sr_Decision r) "allow" && String.eqb (sr_DBService r) "" && String.eqb (sr_DBFamily r) "" &&
          existsb (String.eqb "*") (sr_Operations r)) (rule_too_broad_allow name) ++
  (if negb (String.eqb (sr_DenyModeInTx r) "") then
     if negb (String.eqb (sr_Decision r) "deny") then [rule_deny_mode_in_tx_not_deny name]
     else if String.eqb (sr_DenyModeInTx r) "terminate" || String.eqb (sr_DenyModeInTx r) "rollback_then_continue" then []
     else [rule_deny_mode_in_tx_unknown name (sr_DenyModeInTx r)]
   else []).

(** The warning half. *)
Definition validateStatementRule_warns (r : StatementRule) (svcs : gmap string DBService) : list Warning :=
  let name := sr_Name r in
  let groups := expandedGroups r in
  err_if (String.eqb (sr_Decision r) "audit" && negb (sr_AcknowledgeAuditOnDangerous r) && hasHighRisk groups)
    {| w_Rule := name; w_Field := "decision"; w_Code := "audit_on_dangerous" |} ++
  (if ruleHasCanonicalSelectors r then
     err_if (negb (String.eqb (sr_MatchObjectResolution r) "catalog_resolved"))
       {| w_Rule := name; w_Field := "match_object_resolution"; w_Code := "canonical_selector_without_resolution_guard" |} ++
     err_if (negb (ruleMatchesTerminatePostgresService r svcs))
       {| w_Rule := name; w_Field := canonicalSelectorWarningField r; w_Code := "canonical_selector_without_catalog_service" |}
   else []) ++
  err_if (ruleHasAnyObjectSelector r && allGroupsObjectless groups)
    {| w_Rule := name; w_Field := "objects"; w_Code := "selector_on_objectless_operation" |}.

Definition validateConnectionRuleVsService (r : ConnectionRule) (svc : DBService) : option ValidationError :=
  if negb (String.eqb (svc_TLSMode svc) "passthrough") then None
  else if negb (bool_decide (cr_DBUser r = [])) || negb (String.eqb (cr_Database r) "") ||
          negb (String.eqb (cr_ApplicationName r) "")
  then Some (conn_passthrough_field_unavailable (cr_Name r))
  else None.

Definition effective_match_kind (r : ConnectionRule) : string :=
  if String.eqb (cr_MatchKind r) "" then "connect" else cr_MatchKind r.

Definition validateConnectionRule_errs (r : ConnectionRule) (svcs : gmap string DBService) : list ValidationError :=
  let name := cr_Name r in
  let mk := effective_match_kind r in
  (if negb (String.eqb (cr_DBService r) "") then
     match svcs !! cr_DBService r with
     | None => [rule_service_unknown name (cr_DBService r)]
     | Some svc => match validateConnectionRuleVsService r svc with Some e => [e] | None => [] end
     end
   else
     match find_first (λ s, bool_decide (is_Some (validateConnectionRuleVsService r s))) (map_to_list svcs).*2 with
     | Some s => match validateConnectionRuleVsService r s with
                 | Some e => [triggered_by_service e (svc_Name s)]
                 | None => []
                 end
     | None => []
     end) ++
  err_if (negb (is_decision mk ["connect"; "cancel"; "replication"])) (conn_unknown_match_kind name (cr_MatchKind r)) ++
  (if is_decision (cr_Decision r) ["allow"; "deny"; "approve"; "audit"] then []
   else if String.eqb (cr_Decision r) "redirect" then [conn_redirect_invalid name]
   else [rule_unknown_decision name (cr_Decision r)]) ++
  err_if (String.eqb mk "cancel" && String.eqb (cr_Decision r) "approve") (cancel_rule_approve name) ++
  err_if (String.eqb (cr_Decision r) "approve" && (approveTimeoutMax <? cr_Timeout r))
    (approve_timeout_exceeds_max name (cr_Timeout r)).

Definition validateConnectionRule_warns (r : ConnectionRule) : list Warning :=
  err_if (String.eqb (effective_match_kind r) "replication" && String.eqb (cr_Decision r) "approve")
    {| w_Rule := cr_Name r; w_Field := "decision"; w_Code := "approve_on_replication" |}.

(** [validate]: the warnings and every fatal issue. *)
Definition validate (svcs : gmap string DBService) (stmt : list StatementRule) (conn : list ConnectionRule)
    : list Warning * list ValidationError :=
  (mjoin ((λ r, validateStatementRule_warns r svcs) <$> stmt) ++ mjoin (validateConnectionRule_warns <$> conn),
   mjoin (validateService <$> (map_to_list svcs).*2) ++
   mjoin ((λ r, validateStatementRule_errs r svcs) <$> stmt) ++
   mjoin ((λ r, validateConnectionRule_errs r svcs) <$> conn)).

Inductive LoadError :=
| LE_Validation (errs : list ValidationError)
| LE_Compile (e : CompileError).

Definition compile_error {A} (r : Result CompileError A) : Result LoadError A :=
  match r with Ok a => Ok a | Err e => Err (LE_Compile e) end.

(** Phases B and C of [Decode], on the shapes phase A decoded. *)
Definition DecodeTail (svcs : gmap string DBService) (stmt : list StatementRule) (conn : list ConnectionRule)
    : Result LoadError RuleSet :=
  match (validate svcs stmt conn).2 with
  | [] =>
      let! cs := compile_error (rmap compileStatementRule stmt) in
      let! cc := compile_error (rmap compileConnectionRule conn) in
      Ok {| rs_services := svcs; rs_statement := cs; rs_connection := cc |}
  | errs => Err (LE_Validation errs)
  end.

(** ** What loading guarantees *)
Ltac split_errs :=
  repeat match goal with
  | H : _ ++ _ = [] |- _ => apply app_nil in H as [? H]
  | H : err_if _ _ = [] |- _ => apply err_if_nil in H
  end.

Lemma validate_stmt_nil svcs stmt conn r :
  (validate svcs stmt conn).2 = [] → r ∈ stmt → validateStatementRule_errs r svcs = [].
Proof. simpl. intros [_ [He _]%app_nil]%app_nil Hr. by eapply mjoin_nil in He. Qed.

Lemma validate_conn_nil svcs stmt conn r :
  (validate svcs stmt conn).2 = [] → r ∈ conn → validateConnectionRule_errs r svcs = [].
Proof. simpl. intros [_ [_ He]%app_nil]%app_nil Hr. by eapply mjoin_nil in He. Qed.

Lemma Forall2_in_r {A B} (R : A → B → Prop) l k y : Forall2 R l k → y ∈ k → ∃ x, x ∈ l ∧ R x y.
Proof.
  intros HR [i Hi]%list_elem_of_lookup. eapply Forall2_lookup_r in HR as (x & Hx & HR); [|done].
  exists x. split; [|done]. by eapply list_elem_of_lookup_2.
Qed.

Lemma DecodeTail_Ok svcs stmt conn rs : DecodeTail svcs stmt conn = Ok rs →
  (∀ c, c ∈ rs_statement rs →
     ∃ r, compileStatementRule r = Ok c ∧ validateStatementRule_errs r svcs = []) ∧
  (∀ c, c ∈ rs_connection rs →
     ∃ r, compileConnectionRule r = Ok c ∧ validateConnectionRule_errs r svcs = []).
Proof.
  unfold DecodeTail. destruct (validate _ _ _).2 eqn:Hv; [|done]. intros Hd.
  destruct (rmap compileStatementRule stmt) as [cs|] eqn:Hs; simpl in Hd; [|done].
  destruct (rmap compileConnectionRule conn) as [cc|] eqn:Hc; simpl in Hd; [|done].
  injection Hd as <-. simpl. apply rmap_Ok in Hs. apply rmap_Ok in Hc. split.
  - intros c Hin. destruct (Forall2_in_r _ _ _ _ Hs Hin) as (r & Hr & ?).
    exists r. split; [done|]. by eapply validate_stmt_nil.
  - intros c Hin. destruct (Forall2_in_r _ _ _ _ Hc Hin) as (r & Hr & ?).
    exists r. split; [done|]. by eapply validate_conn_nil.
Qed.

Definition late_error (e : CompileError) : Prop :=
  match e with CE_Glob _ _ _ | CE_Template _ => True | _ => False end.

Lemma compile_globs_late name field pats e : compile_globs name field pats = Err e → late_error e.
Proof.
  intros (p & _ & Hp)%rmap_Err. destruct (glob_Compile p []); simplify_eq. done.
Qed.

Lemma compile_message_late name msg e : compile_message name msg = Err e → late_error e.
Proof. unfold compile_message. intros Hm. repeat case_match; by simplify_eq. Qed.

Lemma validated_redirect_compiles r svcs e :
  validateRedirectStatementRule r svcs (expandedGroups r) = [] →
  compile_redirect r VerbRedirect ≠ Err e.
Proof.
  unfold validateRedirectStatementRule, compile_redirect. intros Hv. simpl.
  apply app_nil in Hv as [Ht Hv]. apply app_nil in Hv as [Hs _].
  destruct (sr_Relations r) as [|src [|]]; try done.
  destruct (sr_Redirect r); [|done]. by destruct (String.eqb _ _).
Qed.

Lemma validated_decision r svcs : validateStatementRule_errs r svcs = [] →
  ∃ v, parse_decision (sr_Name r) (sr_Decision r) = Ok v.
Proof.
  unfold validateStatementRule_errs. intros [_ [Hd _]%app_nil]%app_nil.
  apply err_if_nil, negb_false_iff, existsb_elem in Hd as (d & Hd & ->%String.eqb_eq).
  unfold parse_decision. rewrite !elem_of_cons in Hd.
  repeat (destruct Hd as [->|Hd]; [by eexists|]). set_solver.
Qed.

(** The facts about a validated rule that compilation and evaluation rely on. *)
Lemma validated_facts r svcs : validateStatementRule_errs r svcs = [] →
  (∀ op, op ∈ sr_Operations r → is_Some (ExpandAlias op)) ∧
  (∀ st, st ∈ sr_Subtypes r → is_Some (ParseSubtype st)) ∧
  (sr_MatchObjectResolution r = "" ∨ sr_MatchObjectResolution r = "*" ∨
   is_Some (ParseResolution (sr_MatchObjectResolution r))) ∧
  (sr_Decision r = "approve" → sr_Timeout r ≤ approveTimeoutMax) ∧
  (sr_Decision r = "redirect" → validateRedirectStatementRule r svcs (expandedGroups r) = []).
Proof.
  unfold validateStatementRule_errs. cbv zeta. intros Hv.
  do 3 (apply app_nil in Hv as [_ Hv]).
  apply app_nil in Hv as [Hop Hv]. apply app_nil in Hv as [_ Hv].
  apply app_nil in Hv as [Hst Hv]. apply app_nil in Hv as [Hres Hv].
  apply app_nil in Hv as [Hto Hv]. apply app_nil in Hv as [Hred _].
  split_and!.
  - intros op Hin. apply (mjoin_nil _ _ _ Hop), err_if_nil in Hin. bool_hyps. done.
  - intros st Hin. apply (mjoin_nil _ _ _ Hst), err_if_nil in Hin. bool_hyps. done.
  - destruct (String.eqb_spec (sr_MatchObjectResolution r) ""); [auto|].
    destruct (String.eqb_spec (sr_MatchObjectResolution r) "*"); [auto|]. simpl in Hres.
    apply err_if_nil in Hres. bool_hyps. auto.
  - intros Hd. rewrite Hd in Hto. apply err_if_nil in Hto. simpl in Hto. bool_hyps. done.
  - intros Hd. by rewrite Hd in Hred.
Qed.

Lemma validated_stmt_compiles r svcs e :
  validateStatementRule_errs r svcs = [] → compileStatementRule r = Err e → late_error e.
Proof.
  intros Hv Hc. destruct (validated_decision r svcs Hv) as [v Hpd].
  destruct (validated_facts r svcs Hv) as (Hop & Hst & Hres & _ & Hred).
  unfold compileStatementRule in Hc. rewrite Hpd in Hc. cbn [rbind] in Hc.
  apply rbind_Err in Hc as [Hc|(rd & _ & Hc)].
  { unfold compile_redirect in Hc. case_decide; [|done]. subst v.
    apply parse_decision_String in Hpd. symmetry in Hpd.
    by destruct (validated_redirect_compiles r svcs e (Hred Hpd)). }
  apply rbind_Err in Hc as [Hc|(gss & _ & Hc)].
  { apply rmap_Err in Hc as (op & Hin & Hc). by destruct (Hop op Hin) as [? Hx]; rewrite Hx in Hc. }
  apply rbind_Err in Hc as [Hc|(sts & _ & Hc)].
  { apply rmap_Err in Hc as (st & Hin & Hc). by destruct (Hst st Hin) as [? Hx]; rewrite Hx in Hc. }
  apply rbind_Err in Hc as [Hc|(res & _ & Hc)].
  { unfold compile_resolution in Hc.
    destruct Hres as [Hx|[Hx|[? Hx]]]; rewrite Hx in Hc; [done|done|by destruct (_ || _)%bool]. }
  repeat (apply rbind_Err in Hc as [Hc|(? & _ & Hc)];
    [first [by eapply compile_globs_late|by eapply compile_message_late]|]). done.
Qed.

Lemma validated_conn_facts r svcs : validateConnectionRule_errs r svcs = [] →
  is_decision (effective_match_kind r) ["connect"; "cancel"; "replication"] = true ∧
  is_decision (cr_Decision r) ["allow"; "deny"; "approve"; "audit"] = true ∧
  (cr_MatchKind r = "cancel" → cr_Decision r ≠ "approve") ∧
  (cr_Decision r = "approve" → cr_Timeout r ≤ approveTimeoutMax).
Proof.
  unfold validateConnectionRule_errs. cbv zeta. intros [_ Hv]%app_nil.
  apply app_nil in Hv as [Hmk Hv]. apply app_nil in Hv as [Hd Hv].
  apply app_nil in Hv as [Hca Hto]. split_and!.
  - apply err_if_nil in Hmk. bool_hyps. done.
  - destruct (is_decision (cr_Decision r) _); [done|]. by destruct (String.eqb _ _).
  - intros Hk Ha. apply err_if_nil in Hca. unfold effective_match_kind in Hca.
    by rewrite Hk, Ha in Hca.
  - intros Ha. apply err_if_nil in Hto. rewrite Ha in Hto. simpl in Hto. bool_hyps. done.
Qed.

Lemma conn_glob_late r field pat e : conn_glob r field pat = Err e → late_error e.
Proof. unfold conn_glob. intros Hm. repeat case_match; by simplify_eq. Qed.

Lemma validated_conn_compiles r svcs e :
  validateConnectionRule_errs r svcs = [] → compileConnectionRule r = Err e → late_error e.
Proof.
  intros (Hmk & Hd & _)%validated_conn_facts Hc. unfold compileConnectionRule in Hc.
  apply rbind_Err in Hc as [Hc|(v & _ & Hc)].
  { unfold is_decision in Hd. apply existsb_elem in Hd as (d & Hin & Heq%String.eqb_eq). exfalso.
    rewrite !elem_of_cons in Hin. unfold conn_decision in Hc. rewrite Heq in Hc.
    repeat (destruct Hin as [->|Hin]; [done|]). set_solver. }
  apply rbind_Err in Hc as [Hc|(mk & _ & Hc)].
  { unfold is_decision in Hmk. apply existsb_elem in Hmk as (d & Hin & Heq%String.eqb_eq). exfalso.
    unfold effective_match_kind in Heq. unfold conn_match_kind in Hc.
    destruct (String.eqb (cr_MatchKind r) ""); [done|]. simpl in Hc. rewrite Heq in Hc.
    rewrite !elem_of_cons in Hin. repeat (destruct Hin as [->|Hin]; [done|]). set_solver. }
  repeat (apply rbind_Err in Hc as [Hc|(? & _ & Hc)];
    [first [by eapply conn_glob_late|by eapply compile_message_late]|]). done.
Qed.

Lemma groupsOnlyRead_sound groups g : groupsOnlyRead groups = true → g ∈ groups → g = GroupRead.
Proof.
  unfold groupsOnlyRead. destruct (bool_decide (size groups = 0%nat)); [done|].
  destruct (bool_decide (size groups = 1%nat)) eqn:Hs; [|done]. simpl. intros Hr Hg.
  apply bool_decide_eq_true, size_1_elem_of in Hs as [x Hx]. bool_hyps. set_solver.
Qed.

Lemma compiled_groups r c g : compileStatementRule r = Ok c → g ∈ c_groups c → g ∈ expandedGroups r.
Proof.
  unfold compileStatementRule. intros Hc Hg. ok_hyps. injection Hc as <-. simpl in Hg.
  apply elem_of_list_to_set, list_elem_of_join in Hg.
  eapply expand_operations in Hg as (op & gs & Hop & Hgs & Hin); [|eassumption].
  apply elem_of_list_to_set, list_elem_of_join. exists gs. split; [done|].
  apply list_elem_of_fmap. exists op. by rewrite Hgs.
Qed.

Lemma compiled_resolution r c res e :
  compileStatementRule r = Ok c → sr_MatchObjectResolution r = "catalog_resolved" →
  matchesResolution c res = true → e = ResolutionCatalogResolved → res = e.
Proof.
  unfold compileStatementRule. intros Hc Hr Hm ->. ok_hyps. injection Hc as <-.
  unfold matchesResolution in Hm. cbn [c_resolution] in Hm.
  assert (compile_resolution r = Ok (resEq ResolutionCatalogResolved)) as Hx
    by (unfold compile_resolution; by rewrite Hr).
  rewrite Hx in *. simplify_eq. symmetry. by apply Z.eqb_eq in Hm.
Qed.

Lemma compiled_decision r c : compileStatementRule r = Ok c → DecisionVerb_String (c_verb c) = sr_Decision r.
Proof.
  unfold compileStatementRule. intros Hc. ok_hyps. injection Hc as <-. by eapply parse_decision_String.
Qed.

Lemma compiled_timeout r c svcs :
  compileStatementRule r = Ok c → validateStatementRule_errs r svcs = [] →
  c_verb c = VerbApprove → c_timeout c ≤ approveTimeoutMax.
Proof.
  intros Hc (_ & _ & _ & Ht & _)%validated_facts Hv.
  pose proof (compiled_decision r c Hc) as Hd. rewrite Hv in Hd. simpl in Hd.
  unfold compileStatementRule in Hc. ok_hyps. injection Hc as <-. simpl. rewrite <-Hd. simpl.
  destruct (sr_Timeout r =? 0); [by vm_compute|auto].
Qed.

Lemma compiled_conn r c : compileConnectionRule r = Ok c →
  DecisionVerb_String (cc_verb c) = cr_Decision r ∧ cc_verb c ≠ VerbRedirect ∧
  (cc_matchKind c = MatchCancel → cr_MatchKind r = "cancel") ∧
  cc_timeout c = if String.eqb (cr_Decision r) "approve" && (cr_Timeout r =? 0)
                 then defaultApproveTimeout else cr_Timeout r.
Proof.
  unfold compileConnectionRule. intros Hc. ok_hyps. injection Hc as <-. simpl.
  unfold conn_decision, conn_match_kind in *.
  repeat case_match; simplify_eq; bool_hyps; split_and!; done.
Qed.

Lemma validated_redirect_facts r svcs :
  validateRedirectStatementRule r svcs (expandedGroups r) = [] →
  ∃ src a, sr_Relations r = [src] ∧ sr_Redirect r = Some a ∧
    isCanonicalRelationName src = true ∧ isCanonicalRelationName (ra_Relation a) = true ∧
    sr_MatchObjectResolution r = "catalog_resolved" ∧ groupsOnlyRead (expandedGroups r) = true.
Proof.
  unfold validateRedirectStatementRule. cbv zeta. intros Hv.
  apply app_nil in Hv as [Ht Hv]. apply app_nil in Hv as [Hs Hv]. apply app_nil in Hv as [_ Hv].
  apply app_nil in Hv as [Hr Hv]. apply app_nil in Hv as [Hg _].
  destruct (sr_Redirect r) as [a|]; [|done]. destruct (sr_Relations r) as [|src [|]]; [done| |done].
  exists src, a. destruct (String.eqb (ra_Relation a) ""); [done|].
  apply err_if_nil in Ht, Hs, Hr, Hg. bool_hyps. done.
Qed.

Lemma compiled_redirect r c src a : compileStatementRule r = Ok c → c_verb c = VerbRedirect →
  sr_Relations r = [src] → sr_Redirect r = Some a →
  c_redirect c = Some {| rd_SourceRelation := src; rd_TargetRelation := ra_Relation a |}.
Proof.
  unfold compileStatementRule. intros Hc Hv Hr Ha. ok_hyps. injection Hc as <-. simpl in *. subst.
  unfold compile_redirect in *. rewrite Hr, Ha in *. simpl in *. by case_match; simplify_eq.
Qed.

(** Validation is complete for compilation: once the validator accepts a
    policy, compiling it can only fail on a glob or a message template, never on
    an operation, subtype, resolution, decision or redirect the validator let
    through. *)
Theorem validated_policy_compiles svcs stmt conn e :
  DecodeTail svcs stmt conn = Err (LE_Compile e) → late_error e.
Proof.
  unfold DecodeTail. destruct (validate _ _ _).2 eqn:Hv; [|done].
  destruct (rmap compileStatementRule stmt) eqn:Hs; simpl.
  - destruct (rmap compileConnectionRule conn) eqn:Hc; simpl; [done|]. intros [= ->].
    apply rmap_Err in Hc as (r & Hr & Hc). eapply validated_conn_compiles; [|done].
    by eapply validate_conn_nil.
  - intros [= ->]. apply rmap_Err in Hs as (r & Hr & Hs). eapply validated_stmt_compiles; [|done].
    by eapply validate_stmt_nil.
Qed.

(** In a loaded policy redirects only ever rewrite reads: a redirect
    decision means the statement has a read effect whose objects the catalog
    resolved, and it carries canonical schema.name source and target relations. *)
Theorem loaded_redirect_only_reads svcs stmts conns rs stmt svc :
  DecodeTail svcs stmts conns = Ok rs →
  d_Verb (Evaluate stmt (Some rs) svc) = VerbRedirect →
  ∃ e rd, e ∈ cs_Effects stmt ∧ eff_Group e = GroupRead ∧
    eff_Resolution e = ResolutionCatalogResolved ∧
    d_Redirect (Evaluate stmt (Some rs) svc) = Some rd ∧
    isCanonicalRelationName (rd_SourceRelation rd) = true ∧
    isCanonicalRelationName (rd_TargetRelation rd) = true.
Proof.
  intros [Hst _]%DecodeTail_Ok (e & c & He & _ & Hc & Hv & ->)%Evaluate_redirect_rule.
  destruct (Hst c) as (r & Hcomp & Hval); [by eapply covering_in_scope|].
  apply covering_meta in Hc as [_ [Hg Hm]%ruleMatchesEffectMeta_true].
  pose proof (compiled_decision r c Hcomp) as Hd. rewrite Hv in Hd. symmetry in Hd.
  apply validated_facts in Hval as (_ & _ & _ & _ & Hred). specialize (Hred Hd).
  destruct (validated_redirect_facts r svcs Hred) as (src & a & Hrel & Hra & Hs & Ht & Hres & Hgr).
  exists e, {| rd_SourceRelation := src; rd_TargetRelation := ra_Relation a |}. split_and!; try done.
  - apply (groupsOnlyRead_sound (expandedGroups r)); [done|]. by eapply compiled_groups.
  - by eapply compiled_resolution.
  - by eapply compiled_redirect.
Qed.

(** In a loaded policy cancel requests are never held: a cancel connection
    is allowed, audited or denied, but never waits for approval and is never
    redirected. *)
Theorem loaded_cancel_never_held svcs stmts conns rs info :
  DecodeTail svcs stmts conns = Ok rs → ci_MatchKind info = MatchCancel →
  let d := EvaluateConnection info (Some rs) in
  d_Verb d ≠ VerbApprove ∧ d_Verb d ≠ VerbRedirect ∧ d_Approval d = None.
Proof.
  intros [_ Hco]%DecodeTail_Ok Hk d.
  destruct (EvaluateConnection_cases info rs) as [(Hn & Hd & _)|(c & Hc & Hv & _ & _ & Ha)].
  { unfold d, EvaluateConnection. by rewrite Hn. }
  apply filter_bool_elem in Hc as [Hc Hm]. destruct (Hco c Hc) as (r & Hcomp & Hval).
  apply validated_conn_facts in Hval as (_ & _ & Hca & _).
  destruct (compiled_conn r c Hcomp) as (Hdec & Hnr & Hmk & _).
  unfold conn_rule_matches in Hm. bool_hyps. rewrite Hk in *. specialize (Hca (Hmk ltac:(done))).
  assert (cc_verb c ≠ VerbApprove) as Hna by (intros Hx; rewrite Hx in Hdec; by rewrite <-Hdec in Hca).
  unfold d. rewrite <-Hv, Ha, bool_decide_eq_false_2 by done. done.
Qed.

(** In a loaded policy every approval, for statements and for connections,
    waits at most ten minutes. *)
Theorem loaded_approval_bounded svcs stmts conns rs stmt svc info :
  DecodeTail svcs stmts conns = Ok rs →
  (d_Verb (Evaluate stmt (Some rs) svc) = VerbApprove →
   ∃ a, d_Approval (Evaluate stmt (Some rs) svc) = Some a ∧ ar_Timeout a ≤ approveTimeoutMax) ∧
  (d_Verb (EvaluateConnection info (Some rs)) = VerbApprove →
   ∃ a, d_Approval (EvaluateConnection info (Some rs)) = Some a ∧ ar_Timeout a ≤ approveTimeoutMax).
Proof.
  intros [Hst Hco]%DecodeTail_Ok. split.
  - intros (e & a & _ & Ha & (c & Hc & Hcv & Ht) & _)%Evaluate_approve_rule.
    exists a. split; [done|]. rewrite Ht. apply covering_in_scope in Hc.
    destruct (Hst c Hc) as (r & Hcomp & Hval). by eapply compiled_timeout.
  - intros Hv. destruct (EvaluateConnection_cases info rs) as [(_ & Hd & _)|(c & Hc & Hcv & _ & _ & Ha)]; [congruence|].
    apply filter_bool_elem in Hc as [Hc _]. destruct (Hco c Hc) as (r & Hcomp & Hval).
    apply validated_conn_facts in Hval as (_ & _ & _ & Hto).
    destruct (compiled_conn r c Hcomp) as (Hdec & _ & _ & Htm). rewrite Hcv, Hv in *.
    rewrite bool_decide_eq_true_2 in Ha by done. eexists. split; [done|]. simpl. rewrite Htm.
    simpl in Hdec. rewrite <-Hdec in *. simpl. destruct (cr_Timeout r =? 0); [by vm_compute|auto].
Qed.
End validate.

Module LoadSample.
#[local] Existing Instance ascii_go.
(** Literal patterns, with an unterminated class as the only malformed one. *)
Definition strict_glob : GlobLib := {|
  glob := string; glob_Compile := λ p _, if String.eqb p "[" then None else Some p;
  glob_Match := λ g s, String.eqb g "*" || String.eqb g s |}.
#[local] Existing Instance strict_glob.
#[local] Existing Instance Sample.raw_template.
Definition no_ips : NetLib := no_net.
#[local] Existing Instance no_ips.

Definition pg : DBService := Build_DBService "pg" "postgres" "postgres" "db:5432" "terminate_reissue" false false false.
Definition svcs : gmap string DBService := {["pg" := pg]}.
Definition stmts : list StatementRule :=
  [ Sample.rule "allow-reads" "allow" ["read"] [] 0;
    Sample.rule "approve-deletes" "approve" ["delete"] [] 0;
    {| sr_Name := "swap"; sr_DBService := "pg"; sr_DBFamily := ""; sr_DBDialect := "";
       sr_Schemas := []; sr_Objects := []; sr_Relations := ["public.users"]; sr_Functions := [];
       sr_Operations := ["read"]; sr_Subtypes := []; sr_MatchObjectResolution := "catalog_resolved";
       sr_RequireWhere := false; sr_Decision := "redirect"; sr_Message := ""; sr_Timeout := 0;
       sr_Redirect := Some {| ra_Relation := "public.users_view" |};
       sr_AcknowledgeAuditOnDangerous := false; sr_DenyModeInTx := "" |} ].
Definition conns : list ConnectionRule :=
  [ Build_ConnectionRule "connect" "pg" "" [] "" "" "" "approve" "" 0;
    Build_ConnectionRule "cancel" "pg" "cancel" [] "" "" "" "allow" "" 0 ].
Definition loaded : RuleSet :=
  match DecodeTail svcs stmts conns with Ok rs => rs | Err _ => Build_RuleSet ∅ [] [] end.
Definition read_users : ClassifiedStatement :=
  Sample.stmt [Build_Effect GroupRead 0 [Sample.table "users"] [Sample.catalog "users"]
                 ResolutionCatalogResolved false None].
Definition cancel_info : ConnectionInfo := Build_ConnectionInfo "pg" MatchCancel "app" "db" "psql" "agent".
Definition connect_info : ConnectionInfo := Build_ConnectionInfo "pg" MatchConnect "app" "db" "psql" "agent".

Lemma loaded_Ok : DecodeTail svcs stmts conns = Ok loaded.
Proof. vm_compute. reflexivity. Defined.

Lemma validated_policy_compiles_witness : late_error (CE_Glob "bad" "objects" "[").
Proof.
  apply (validated_policy_compiles svcs [Sample.rule "bad" "allow" ["read"] ["["] 0] []).
  vm_compute. reflexivity.
Defined.

Lemma loaded_redirect_only_reads_witness :
  ∃ rd, d_Redirect (Evaluate read_users (Some loaded) "pg") = Some rd ∧
        isCanonicalRelationName (rd_TargetRelation rd) = true.
Proof.
  destruct (loaded_redirect_only_reads svcs stmts conns loaded read_users "pg" loaded_Ok)
    as (e & rd & _ & _ & _ & Hrd & _ & Ht); [vm_compute; reflexivity|].
  exists rd. split; [exact Hrd|exact Ht].
Defined.

Lemma loaded_cancel_never_held_witness :
  d_Verb (EvaluateConnection cancel_info (Some loaded)) ≠ VerbApprove.
Proof. apply (loaded_cancel_never_held svcs stmts conns loaded cancel_info loaded_Ok eq_refl). Defined.

Lemma loaded_approval_bounded_witness :
  ∃ a, d_Approval (EvaluateConnection connect_info (Some loaded)) = Some a ∧ ar_Timeout a ≤ approveTimeoutMax.
Proof.
  apply (loaded_approval_bounded svcs stmts conns loaded read_users "pg" connect_info loaded_Ok).
  vm_compute. reflexivity.
Defined.
End LoadSample.
