(* ===== verification/PreparedCache.v ===== *)
(** * Prepared-statement cache (internal/db/proxy/postgres/preparedcache/cache.go)
    and the cache interface of the protocol state machine

    The cache is a doubly linked list of element pointers, most recently used
    first, together with a map from key to element.  Elements are locations of a
    heap, so the sharing between the list and the map is explicit.  The
    refinement theorems show that the pair behaves as one recency list. *)

From S2P Require Import Prelude DbEffects.
Open Scope Z_scope.

(** [policy.RedactionTier] (internal/db/policy/redaction.go). *)
Definition RedactNone : Z := 0.
Definition RedactParametersRedacted : Z := 1.
Definition RedactFull : Z := 2.
Definition redactionTierNames : list string := ["none"; "parameters_redacted"; "full"].
Definition RedactionTier_String (r : Z) : string :=
  if Z.of_nat (length redactionTierNames) <=? r then ""
  else default "" (redactionTierNames !! Z.to_nat r).
Fixpoint ParseRedactionTier_from (i : Z) (names : list string) (s : string) : option Z :=
  match names with
  | [] => None
  | n :: names => if String.eqb n s then Some i else ParseRedactionTier_from (i + 1) names s
  end.
Definition ParseRedactionTier (s : string) : option Z := ParseRedactionTier_from 0 redactionTierNames s.

Record RedirectMetadata := {
  rm_OriginalClassification : ClassifiedStatement; rm_OriginalSQL : string;
  rm_OriginalStatementDigest : string; rm_RewrittenStatementDigest : string;
  rm_Rule : string; rm_SourceRelation : string; rm_TargetRelation : string; rm_PolicyIdentity : string
}.
Record Entry := {
  en_Classification : ClassifiedStatement; en_RedactionTier : Z;
  en_CatalogRefreshSearchPath : bool; en_CatalogRefreshSnapshot : bool;
  en_Redirect : option RedirectMetadata
}.
Definition zeroClassifiedStatement : ClassifiedStatement :=
  Build_ClassifiedStatement [] "" ParserBackendUnknown "" 0 0 "" BulkOpNone.

(** ** The LRU *)
Module Lru.
Definition DefaultCapacity : Z := 4096.

Record cacheItem := { ci_key : string; ci_value : Entry }.

(** [order] holds element locations, front = most recent; [heap] holds what they
    point to; [fresh] is the next location to allocate. *)
Record Cache := {
  cap : Z; order : list nat; byKey : gmap string nat; heap : gmap nat cacheItem; fresh : nat
}.

Definition New (capacity : Z) : Cache :=
  {| cap := if capacity <=? 0 then DefaultCapacity else capacity;
     order := []; byKey := ∅; heap := ∅; fresh := 0 |}.

(** [list.Remove] and [list.MoveToFront] on an element of the list. *)
Definition list_Remove (el : nat) (l : list nat) : list nat := List.filter (λ x, negb (Nat.eqb x el)) l.
Definition MoveToFront (el : nat) (l : list nat) : list nat := el :: list_Remove el l.

(** The tail of [Put]: evict the back element when the list is over capacity. *)
Definition evict (c : Cache) : Cache :=
  if cap c <? Z.of_nat (length (order c)) then
    match last (order c) with
    | None => c
    | Some oldest =>
        match heap c !! oldest with
        | None => c
        | Some ci => {| cap := cap c; order := list_Remove oldest (order c);
                        byKey := delete (ci_key ci) (byKey c); heap := heap c; fresh := fresh c |}
        end
    end
  else c.

Definition Put (name : string) (e : Entry) (c : Cache) : Cache :=
  match byKey c !! name with
  | Some el =>
      {| cap := cap c; order := MoveToFront el (order c); byKey := byKey c;
         heap := alter (λ ci, {| ci_key := ci_key ci; ci_value := e |}) el (heap c); fresh := fresh c |}
  | None =>
      let el := fresh c in
      evict {| cap := cap c; order := el :: order c; byKey := <[name := el]> (byKey c);
               heap := <[el := {| ci_key := name; ci_value := e |}]> (heap c); fresh := S el |}
  end.

Definition Get (name : string) (c : Cache) : option Entry * Cache :=
  match byKey c !! name with
  | None => (None, c)
  | Some el =>
      (ci_value <$> heap c !! el,
       {| cap := cap c; order := MoveToFront el (order c); byKey := byKey c; heap := heap c; fresh := fresh c |})
  end.

Definition Delete (name : string) (c : Cache) : Cache :=
  match byKey c !! name with
  | None => c
  | Some el => {| cap := cap c; order := list_Remove el (order c); byKey := delete name (byKey c);
                  heap := heap c; fresh := fresh c |}
  end.

Definition Clear (c : Cache) : Cache :=
  {| cap := cap c; order := []; byKey := ∅; heap := heap c; fresh := fresh c |}.

Definition Len (c : Cache) : Z := Z.of_nat (length (order c)).

(** ** Specification: a recency list without pointers *)
Definition recency := list (string * Entry).
Definition r_remove (k : string) (l : recency) : recency :=
  List.filter (λ p : string * Entry, negb (String.eqb p.1 k)) l.
Definition r_put (n : nat) (k : string) (e : Entry) (l : recency) : recency :=
  take n ((k, e) :: r_remove k l).
Definition r_touch (k : string) (l : recency) : recency :=
  match assoc k l with Some e => (k, e) :: r_remove k l | None => l end.

Definition view_elem (c : Cache) (el : nat) : option (string * Entry) :=
  (λ ci, (ci_key ci, ci_value ci)) <$> heap c !! el.
(** The abstraction function. *)
Definition view (c : Cache) : recency := omap (view_elem c) (order c).

(** The representation invariant: list and map point to the same elements. *)
Record wf (c : Cache) : Prop := {
  wf_cap : 0 < cap c;
  wf_len : Z.of_nat (length (order c)) ≤ cap c;
  wf_nodup : NoDup (order c);
  wf_fresh : ∀ el, el ∈ order c → (el < fresh c)%nat;
  wf_alloc : ∀ el, el ∈ order c → ∃ ci, heap c !! el = Some ci ∧ byKey c !! ci_key ci = Some el;
  wf_key : ∀ k el, byKey c !! k = Some el → el ∈ order c ∧ ci_key <$> heap c !! el = Some k
}.

(** ** Lemmas *)
Lemma list_Remove_elem el l x : x ∈ list_Remove el l ↔ x ∈ l ∧ x ≠ el.
Proof.
  unfold list_Remove. rewrite filter_bool_elem, negb_true_iff, Nat.eqb_neq. done.
Qed.

Lemma list_Remove_NoDup el l : NoDup l → NoDup (list_Remove el l).
Proof. rewrite !NoDup_ListNoDup. apply List.NoDup_filter. Qed.

Lemma list_Remove_notin el l : el ∉ l → list_Remove el l = l.
Proof.
  induction l as [|x l IH]; simpl; [done|]. intros [Hx Hl]%not_elem_of_cons.
  destruct (Nat.eqb_spec x el) as [->|]; [done|]. simpl. by rewrite IH.
Qed.

Lemma list_Remove_last el l : el ∉ l → list_Remove el (l ++ [el]) = l.
Proof.
  intros Hl. unfold list_Remove. rewrite List.filter_app. simpl. rewrite Nat.eqb_refl. simpl.
  rewrite app_nil_r. by apply list_Remove_notin.
Qed.

Lemma MoveToFront_perm el l : NoDup l → el ∈ l → MoveToFront el l ≡ₚ l.
Proof.
  intros Hnd Hel. apply list.NoDup_Permutation; [|done|].
  - constructor; [rewrite list_Remove_elem; tauto|by apply list_Remove_NoDup].
  - intros x. unfold MoveToFront. rewrite elem_of_cons, list_Remove_elem.
    destruct (decide (x = el)) as [->|]; naive_solver.
Qed.

(** Removing an element removes its key from the recency list. *)
Lemma omap_remove (f : nat → option (string * Entry)) l k el :
  (∀ x, x ∈ l → ∃ p, f x = Some p ∧ (p.1 = k ↔ x = el)) →
  omap f (list_Remove el l) = r_remove k (omap f l).
Proof.
  induction l as [|x l IH]; intros Hl; [done|]. simpl.
  destruct (Hl x) as (p & Hf & Hiff); [set_solver|]. rewrite Hf.
  assert (∀ y, y ∈ l → ∃ p, f y = Some p ∧ (p.1 = k ↔ y = el)) as Hl' by (intros; apply Hl; set_solver).
  simpl. destruct (Nat.eqb_spec x el) as [Hx|Hx], (String.eqb_spec p.1 k) as [Hp|Hp]; simpl;
    try tauto. rewrite Hf. f_equal. by apply IH.
Qed.

Lemma omap_length_total {A B} (f : A → option B) (l : list A) :
  (∀ x, x ∈ l → is_Some (f x)) → length (omap f l) = length l.
Proof.
  induction l as [|x l IH]; intros Hl; [done|]. simpl.
  destruct (Hl x) as [y ->]; [set_solver|]. simpl. f_equal. apply IH. set_solver.
Qed.

Lemma omap_ext_elem {A B} (f g : A → option B) (l : list A) :
  (∀ x, x ∈ l → f x = g x) → omap f l = omap g l.
Proof.
  induction l as [|x l IH]; intros Hl; [done|]. simpl. rewrite Hl by set_solver.
  destruct (g x); [f_equal|]; apply IH; set_solver.
Qed.

Lemma r_remove_notin k (l : recency) : (∀ p, p ∈ l → p.1 ≠ k) → r_remove k l = l.
Proof.
  induction l as [|p l IH]; simpl; [done|]. intros Hl.
  destruct (String.eqb_spec p.1 k) as [Hp|]; [by destruct (Hl p); [set_solver|]|].
  simpl. f_equal. apply IH. set_solver.
Qed.

Section inv.
Context (c : Cache) (Hwf : wf c).

Lemma view_elem_order el : el ∈ order c →
  ∃ p, view_elem c el = Some p ∧ byKey c !! p.1 = Some el.
Proof.
  intros (ci & Hci & Hk)%(wf_alloc _ Hwf). exists (ci_key ci, ci_value ci).
  unfold view_elem. by rewrite Hci.
Qed.

Lemma view_length : length (view c) = length (order c).
Proof.
  apply omap_length_total. intros el (p & Hp & _)%view_elem_order. eauto.
Qed.

Lemma elem_of_view p : p ∈ view c ↔ ∃ el, byKey c !! p.1 = Some el ∧ view_elem c el = Some p.
Proof.
  unfold view. rewrite list_elem_of_omap. split.
  - intros (el & Hel & Hv). destruct (view_elem_order el Hel) as (q & Hq & Hk).
    simplify_eq. eauto.
  - intros (el & Hk & Hv). apply (wf_key _ Hwf) in Hk as [Hel _]. eauto.
Qed.

Lemma view_elem_key k el x : byKey c !! k = Some el → x ∈ order c →
  ∃ p, view_elem c x = Some p ∧ (p.1 = k ↔ x = el).
Proof.
  intros Hk Hx. destruct (view_elem_order x Hx) as (p & Hp & Hpk). exists p. split; [done|].
  split; [intros Heq; rewrite Heq in Hpk; congruence|]. intros ->.
  apply (wf_key _ Hwf) in Hk as [_ Hk]. unfold view_elem in Hp.
  destruct (heap c !! el); simpl in *; by simplify_eq.
Qed.

Lemma view_remove k el : byKey c !! k = Some el →
  omap (view_elem c) (list_Remove el (order c)) = r_remove k (view c).
Proof. intros Hk. apply omap_remove. intros x. by apply view_elem_key. Qed.

Lemma view_absent k : byKey c !! k = None → r_remove k (view c) = view c.
Proof.
  intros Hk. apply r_remove_notin. intros p (el & Hel & _)%elem_of_view Heq.
  rewrite Heq in Hel. congruence.
Qed.

Lemma view_keys_NoDup : NoDup (view c).*1.
Proof.
  assert (∀ l, NoDup l → (∀ x, x ∈ l → x ∈ order c) → NoDup (omap (view_elem c) l).*1) as Hgen;
    [|apply Hgen; [apply Hwf|done]].
  induction 1 as [|x l Hx Hnd IH]; intros Hl; [constructor|].
  destruct (view_elem_order x) as (p & Hp & Hk); [set_solver|]. simpl. rewrite Hp. simpl.
  constructor; [|apply IH; set_solver].
  intros (q & Hq & Hin)%list_elem_of_fmap. apply list_elem_of_omap in Hin as (y & Hy & Hyq).
  destruct (view_elem_order y) as (q' & Hq' & Hk'); [set_solver|].
  rewrite Hyq in Hq'. injection Hq' as <-. rewrite Hq, Hk' in Hk. by injection Hk as ->.
Qed.

Lemma assoc_view k : assoc k (view c) = el ← byKey c !! k; ci_value <$> heap c !! el.
Proof.
  destruct (byKey c !! k) as [el|] eqn:Hk; simpl.
  - pose proof (wf_key _ Hwf _ _ Hk) as [Hel Hkey]. destruct (heap c !! el) as [ci|] eqn:Hh; [|done].
    simpl in *. simplify_eq. apply assoc_NoDup; [apply view_keys_NoDup|].
    apply elem_of_view. exists el. split; [done|]. unfold view_elem. by rewrite Hh.
  - apply assoc_None. intros p (el & Hel & _)%elem_of_view Heq. rewrite Heq in Hel. congruence.
Qed.
End inv.

(** *** Operations preserve the invariant and implement the recency list *)
Lemma New_ok n : wf (New n) ∧ view (New n) = [].
Proof.
  split; [|done]. unfold New, DefaultCapacity.
  constructor; simpl; try set_solver; destruct (Z.leb_spec n 0); lia || constructor.
Qed.

Lemma moved_wf c k el h :
  wf c → byKey c !! k = Some el →
  (∀ x, ci_key <$> h !! x = ci_key <$> heap c !! x) →
  wf {| cap := cap c; order := MoveToFront el (order c); byKey := byKey c; heap := h; fresh := fresh c |}.
Proof.
  intros Hwf Hk Hh. pose proof (wf_key _ Hwf _ _ Hk) as [Hel _].
  pose proof (MoveToFront_perm el (order c) (wf_nodup _ Hwf) Hel) as Hp.
  constructor; cbn [cap order byKey heap fresh].
  - apply Hwf.
  - rewrite Hp. apply Hwf.
  - rewrite Hp. apply Hwf.
  - intros x. rewrite Hp. apply Hwf.
  - intros x. rewrite Hp. intros (ci & Hci & Hx)%(wf_alloc _ Hwf).
    specialize (Hh x). rewrite Hci in Hh. simpl in Hh. destruct (h !! x) as [ci'|]; [|done].
    simpl in Hh. simplify_eq. exists ci'. split; [done|]. congruence.
  - intros k' x Hx. rewrite Hp, Hh. by apply Hwf.
Qed.

Lemma Get_ok k c : wf c →
  wf (Get k c).2 ∧ (Get k c).1 = assoc k (view c) ∧ view (Get k c).2 = r_touch k (view c).
Proof.
  intros Hwf. unfold Get, r_touch. rewrite (assoc_view c Hwf).
  destruct (byKey c !! k) as [el|] eqn:Hk; simpl; [|done].
  pose proof (wf_key _ Hwf _ _ Hk) as [Hel Hkey].
  split_and!; [by eapply moved_wf|done|].
  destruct (heap c !! el) as [ci|] eqn:Hh; [|done]. simpl in *. simplify_eq.
  rewrite <-(view_remove c Hwf _ el Hk). unfold view. simpl. unfold view_elem at 1. simpl.
  by rewrite Hh.
Qed.

Lemma removed_wf c k el :
  wf c → byKey c !! k = Some el →
  wf {| cap := cap c; order := list_Remove el (order c); byKey := delete k (byKey c);
        heap := heap c; fresh := fresh c |}.
Proof.
  intros Hwf Hk. pose proof (wf_key _ Hwf _ _ Hk) as [Hel Hkey].
  constructor; simpl.
  - apply Hwf.
  - pose proof (List.filter_length_le (λ x, negb (Nat.eqb x el)) (order c)).
    pose proof (wf_len _ Hwf). unfold list_Remove. lia.
  - apply list_Remove_NoDup, Hwf.
  - intros x [Hx _]%list_Remove_elem. by apply Hwf.
  - intros x [Hx Hne]%list_Remove_elem. destruct (wf_alloc _ Hwf x Hx) as (ci & Hci & Hck).
    exists ci. split; [done|]. rewrite lookup_delete_ne; [done|].
    intros Heq. rewrite <-Heq in Hck. congruence.
  - intros k' x [Hne Hx]%lookup_delete_Some. destruct (wf_key _ Hwf _ _ Hx) as [Hin Hkx].
    split; [|done]. apply list_Remove_elem. split; [done|]. intros ->. congruence.
Qed.

Lemma Delete_ok k c : wf c → wf (Delete k c) ∧ view (Delete k c) = r_remove k (view c).
Proof.
  intros Hwf. unfold Delete. destruct (byKey c !! k) as [el|] eqn:Hk.
  - split; [by apply removed_wf|]. rewrite <-(view_remove c Hwf k el Hk). done.
  - split; [done|]. by rewrite view_absent.
Qed.

Lemma Clear_ok c : wf c → wf (Clear c) ∧ view (Clear c) = [].
Proof.
  intros Hwf. split; [|done]. constructor; simpl; try set_solver.
  - apply Hwf.
  - pose proof (wf_cap _ Hwf). lia.
  - constructor.
Qed.

Lemma Put_update_ok k e c el : wf c → byKey c !! k = Some el →
  wf (Put k e c) ∧ view (Put k e c) = (k, e) :: r_remove k (view c).
Proof.
  intros Hwf Hk. unfold Put. rewrite Hk. pose proof (wf_key _ Hwf _ _ Hk) as [Hel Hkey].
  destruct (heap c !! el) as [ci|] eqn:Hh; [|done]. simpl in Hkey. simplify_eq.
  split.
  - eapply moved_wf; [done|done|]. intros x. destruct (decide (x = el)) as [->|].
    + by rewrite lookup_alter_eq, Hh.
    + by rewrite lookup_alter_ne.
  - rewrite <-(view_remove c Hwf _ el Hk). unfold view. simpl. unfold view_elem at 1. simpl.
    rewrite lookup_alter_eq, Hh. simpl. f_equal. apply omap_ext_elem.
    intros x [_ Hx]%list_Remove_elem. unfold view_elem. simpl. by rewrite lookup_alter_ne.
Qed.

Definition with_cap (n : Z) (c : Cache) : Cache :=
  {| cap := n; order := order c; byKey := byKey c; heap := heap c; fresh := fresh c |}.

Lemma with_cap_wf n c : wf c → 0 < n → Z.of_nat (length (order c)) ≤ n → wf (with_cap n c).
Proof. intros [] ??. by constructor. Qed.

Definition pushed (k : string) (e : Entry) (c : Cache) : Cache :=
  {| cap := cap c; order := fresh c :: order c; byKey := <[k := fresh c]> (byKey c);
     heap := <[fresh c := {| ci_key := k; ci_value := e |}]> (heap c); fresh := S (fresh c) |}.

Lemma pushed_wf k e c : wf c → byKey c !! k = None → wf (with_cap (cap c + 1) (pushed k e c)).
Proof.
  intros Hwf Hk. assert (fresh c ∉ order c) as Hf by (intros Hx%(wf_fresh _ Hwf); lia).
  pose proof (wf_cap _ Hwf). pose proof (wf_len _ Hwf).
  constructor; simpl; [lia|lia| | | |].
  - constructor; [done|apply Hwf].
  - intros x [->|Hx%(wf_fresh _ Hwf)]%elem_of_cons; lia.
  - intros x [->|Hx]%elem_of_cons.
    + eexists. rewrite lookup_insert_eq. split; [done|]. by rewrite lookup_insert_eq.
    + destruct (wf_alloc _ Hwf x Hx) as (ci & Hci & Hck). exists ci.
      rewrite lookup_insert_ne by (intros <-; done). split; [done|].
      rewrite lookup_insert_ne; [done|]. intros ->. congruence.
  - intros k' x [[<- <-]|[Hne Hx]]%lookup_insert_Some.
    + rewrite lookup_insert_eq. set_solver.
    + destruct (wf_key _ Hwf _ _ Hx) as [Hin Hkx]. split; [set_solver|].
      rewrite lookup_insert_ne; [done|]. intros <-. done.
Qed.

Lemma pushed_view k e c : wf c → byKey c !! k = None → view (pushed k e c) = (k, e) :: view c.
Proof.
  intros Hwf Hk. unfold view. simpl. unfold view_elem at 1. simpl. rewrite lookup_insert_eq. simpl.
  f_equal. apply omap_ext_elem. intros x Hx%(wf_fresh _ Hwf). unfold view_elem. simpl.
  by rewrite lookup_insert_ne by lia.
Qed.

Lemma evict_ok k e c : wf c → byKey c !! k = None →
  wf (evict (pushed k e c)) ∧ view (evict (pushed k e c)) = take (Z.to_nat (cap c)) (view (pushed k e c)).
Proof.
  intros Hwf Hk. pose proof (pushed_wf k e c Hwf Hk) as Hp. set (p := pushed k e c) in *.
  pose proof (wf_cap _ Hwf) as Hc. pose proof (wf_len _ Hwf) as Hl.
  assert (length (view p) = length (order p)) as Hvl by exact (view_length _ Hp).
  assert (cap p = cap c ∧ length (order p) = S (length (order c))) as [Hcp Hlo] by done.
  clearbody p. unfold evict. rewrite Hcp.
  destruct (Z.ltb_spec (cap c) (Z.of_nat (length (order p)))) as [Hlt|Hge].
  - destruct (last (order p)) as [old|] eqn:Hlast;
      [|apply last_None in Hlast; by rewrite Hlast in Hlo].
    assert (old ∈ order p) as Hold by (by apply last_Some_elem_of).
    destruct (wf_alloc _ Hp old Hold) as (ci & Hci & Hck). simpl in Hci. rewrite Hci.
    pose proof (removed_wf _ _ _ Hp Hck) as Hr. apply last_Some in Hlast as [l Hlast].
    assert (list_Remove old (order p) = l) as Hrem.
    { rewrite Hlast. apply list_Remove_last. pose proof (wf_nodup _ Hp) as Hnd. simpl in Hnd.
      rewrite Hlast in Hnd. apply NoDup_app in Hnd as (_ & Hnd & _). intros Hin. set_solver. }
    assert (length l = length (order c)) as Hll.
    { apply (f_equal length) in Hlast. rewrite length_app in Hlast. simpl in Hlast. lia. }
    split.
    + apply (with_cap_wf (cap c)) in Hr; [exact Hr|done|]. cbn [order with_cap]. rewrite Hrem. lia.
    + unfold view at 1. cbn [order]. rewrite Hrem. unfold view.
      rewrite Hlast, omap_app, take_app_length'; [done|].
      rewrite omap_length_total; [lia|].
      intros x Hx. destruct (view_elem_order _ Hp x) as (? & Hv & _); [simpl; rewrite Hlast; set_solver|].
      unfold view_elem in *. simpl in Hv. eauto.
  - split; [|rewrite take_ge; [done|lia]]. replace p with (with_cap (cap c) (with_cap (cap c + 1) p)).
    + apply with_cap_wf; [done|done|simpl; lia].
    + destruct p. simpl in *. by subst.
Qed.

Lemma Put_ok k e c : wf c →
  wf (Put k e c) ∧ view (Put k e c) = r_put (Z.to_nat (cap c)) k e (view c) ∧ cap (Put k e c) = cap c.
Proof.
  intros Hwf. pose proof (wf_cap _ Hwf). pose proof (wf_len _ Hwf).
  destruct (byKey c !! k) as [el|] eqn:Hk.
  - destruct (Put_update_ok k e c el Hwf Hk) as [Hw Hv]. split; [done|].
    split; [|unfold Put; by rewrite Hk]. rewrite Hv. unfold r_put. rewrite take_ge; [done|].
    rewrite <-Hv, (view_length _ Hw). unfold Put. rewrite Hk. cbn [order].
    rewrite MoveToFront_perm; [lia|apply Hwf|]. by apply (wf_key _ Hwf) in Hk as [? _].
  - unfold Put. rewrite Hk. destruct (evict_ok k e c Hwf Hk) as [Hw Hv].
    fold (pushed k e c). split; [done|]. split.
    + rewrite Hv, pushed_view by done. unfold r_put. by rewrite (view_absent c Hwf).
    + unfold evict. destruct (_ <? _); [|done]. destruct (last _); [|done]. by destruct (heap _ !! _).
Qed.

(** The LRU refines a bounded recency list: every operation keeps the list
    and the key map consistent, and acts on the abstraction as put-at-front with
    truncation to the capacity (so it evicts exactly the least recently used key),
    lookup with promotion, removal, and clearing; the cache never exceeds its
    capacity. *)
Theorem Lru_refines c k e :
  wf c →
  (wf (Put k e c) ∧ view (Put k e c) = r_put (Z.to_nat (cap c)) k e (view c)) ∧
  (wf (Get k c).2 ∧ (Get k c).1 = assoc k (view c) ∧ view (Get k c).2 = r_touch k (view c)) ∧
  (wf (Delete k c) ∧ view (Delete k c) = r_remove k (view c)) ∧
  (wf (Clear c) ∧ view (Clear c) = []) ∧
  Len c = Z.of_nat (length (view c)) ∧ Len c ≤ cap c.
Proof.
  intros Hwf. destruct (Put_ok k e c Hwf) as (? & ? & _). split; [done|].
  split; [by apply Get_ok|]. split; [by apply Delete_ok|]. split; [by apply Clear_ok|].
  unfold Len. rewrite view_length by done. split; [done|apply Hwf].
Qed.

Definition demo_entry (v : string) : Entry :=
  Build_Entry (Build_ClassifiedStatement [] v ParserBackendUnknown "" 0 0 "" BulkOpNone) 0 false false None.

(** A capacity-two cache after [a], [b], a lookup of [a], then [c]: [b] is evicted. *)
Example Lru_evicts_lru :
  (view (Put "c" (demo_entry "C") (Get "a" (Put "b" (demo_entry "B") (Put "a" (demo_entry "A") (New 2)))).2)).*1
  = ["c"; "a"].
Proof. reflexivity. Qed.

Lemma Lru_refines_witness : wf (Put "a" (demo_entry "A") (New 2)).
Proof. apply (Lru_refines (New 2) "a" (demo_entry "A")). apply New_ok. Defined.
End Lru.

(** ** The cache interface of the state machine (statemachine/cacheview.go) *)
Record CacheValue := {
  cv_Verb : string; cv_GroupID : Z; cv_OpaqueID : string;
  cv_CatalogRefreshSearchPath : bool; cv_CatalogRefreshSnapshot : bool
}.

Class CacheView (C : Type) := {
  cv_Get : string → C → option CacheValue * C;
  cv_Put : string → CacheValue → C → C;
  cv_Delete : string → C → C;
  cv_Clear : C → C
}.

(** What the state machine relies on: which keys are present.  A bounded cache
    may forget other keys on [Put]; it never invents one. *)
Class CacheLaws (C : Type) `{CacheView C} := {
  cv_wf : C → Prop;
  cv_has : C → string → Prop;
  cv_Get_law : ∀ k c, cv_wf c →
    cv_wf (cv_Get k c).2 ∧ (is_Some (cv_Get k c).1 ↔ cv_has c k) ∧
    ∀ j, cv_has (cv_Get k c).2 j ↔ cv_has c j;
  cv_Put_law : ∀ k v c, cv_wf c →
    cv_wf (cv_Put k v c) ∧ cv_has (cv_Put k v c) k ∧ ∀ j, j ≠ k → cv_has (cv_Put k v c) j → cv_has c j;
  cv_Delete_law : ∀ k c, cv_wf c →
    cv_wf (cv_Delete k c) ∧ ∀ j, cv_has (cv_Delete k c) j ↔ j ≠ k ∧ cv_has c j;
  cv_Clear_law : ∀ c, cv_wf c → cv_wf (cv_Clear c) ∧ ∀ j, ¬ cv_has (cv_Clear c) j
}.

(** *** [FakeCacheView]: an unbounded map with an operation log *)
Module Fake.
Inductive Method := MGet | MPut | MDelete | MClear.
Record CacheOp := { op_Method : Method; op_Key : string; op_Value : option CacheValue; op_Hit : bool }.
Record FakeCacheView := { store : gmap string CacheValue; history : list CacheOp }.
Definition NewFakeCacheView : FakeCacheView := {| store := ∅; history := [] |}.
Definition FakeCacheView_Get (name : string) (f : FakeCacheView) : option CacheValue * FakeCacheView :=
  let v := store f !! name in
  (v, {| store := store f; history := history f ++ [Build_CacheOp MGet name v (bool_decide (is_Some v))] |}).
Definition FakeCacheView_Put (name : string) (v : CacheValue) (f : FakeCacheView) : FakeCacheView :=
  {| store := <[name := v]> (store f); history := history f ++ [Build_CacheOp MPut name (Some v) false] |}.
Definition FakeCacheView_Delete (name : string) (f : FakeCacheView) : FakeCacheView :=
  {| store := delete name (store f); history := history f ++ [Build_CacheOp MDelete name None false] |}.
Definition FakeCacheView_Clear (f : FakeCacheView) : FakeCacheView :=
  {| store := ∅; history := history f ++ [Build_CacheOp MClear "" None false] |}.
Definition Recorded (f : FakeCacheView) : list CacheOp := history f.
End Fake.

#[export] Instance fake_view : CacheView Fake.FakeCacheView := {|
  cv_Get := Fake.FakeCacheView_Get; cv_Put := Fake.FakeCacheView_Put; cv_Delete := Fake.FakeCacheView_Delete; cv_Clear := Fake.FakeCacheView_Clear |}.

#[export] Program Instance fake_laws : CacheLaws Fake.FakeCacheView := {|
  cv_wf := λ _, True; cv_has := λ f k, is_Some (Fake.store f !! k) |}.
Next Obligation. done. Qed.
Next Obligation.
  intros k v c _. simpl. split_and!; [done|by rewrite lookup_insert_eq|].
  intros j Hj. by rewrite lookup_insert_ne.
Qed.
Next Obligation.
  intros k c _. split; [done|]. intros j. simpl. rewrite lookup_delete_is_Some. naive_solver.
Qed.
Next Obligation. intros c _. split; [done|]. intros j. simpl. rewrite lookup_empty. by intros []. Qed.

(** *** [wireCacheView] (extquery.go): the LRU behind the interface *)
Module Wire.
Definition groupIDFromClassification (cs : ClassifiedStatement) : Z :=
  match cs_Effects cs with [] => 0 | e :: _ => Z.land (eff_Group e) 255 end.
Definition to_value (e : Entry) : CacheValue := {|
  cv_Verb := cs_RawVerb (en_Classification e);
  cv_GroupID := groupIDFromClassification (en_Classification e); cv_OpaqueID := "";
  cv_CatalogRefreshSearchPath := en_CatalogRefreshSearchPath e;
  cv_CatalogRefreshSnapshot := en_CatalogRefreshSnapshot e |}.
Definition wireCacheView_Get (name : string) (c : Lru.Cache) : option CacheValue * Lru.Cache :=
  let (e, c) := Lru.Get name c in (to_value <$> e, c).
Definition wireCacheView_Put (name : string) (v : CacheValue) (c : Lru.Cache) : Lru.Cache :=
  Lru.Put name {|
    en_Classification := Build_ClassifiedStatement [] (cv_Verb v) ParserBackendUnknown "" 0 0 "" BulkOpNone;
    en_RedactionTier := 0;
    en_CatalogRefreshSearchPath := cv_CatalogRefreshSearchPath v;
    en_CatalogRefreshSnapshot := cv_CatalogRefreshSnapshot v; en_Redirect := None |} c.
Definition wireCacheView_Delete (name : string) (c : Lru.Cache) : Lru.Cache := Lru.Delete name c.
Definition wireCacheView_Clear (c : Lru.Cache) : Lru.Cache := Lru.Clear c.
End Wire.

#[export] Instance wire_view : CacheView Lru.Cache := {|
  cv_Get := Wire.wireCacheView_Get; cv_Put := Wire.wireCacheView_Put; cv_Delete := Wire.wireCacheView_Delete; cv_Clear := Wire.wireCacheView_Clear |}.

Lemma assoc_r_remove k j l :
  assoc j (Lru.r_remove k l) = if decide (j = k) then None else assoc j l.
Proof.
  induction l as [|[k' e] l IH]; simpl; [by case_decide|].
  destruct (String.eqb_spec k' k) as [->|Hk]; simpl.
  - fold (Lru.r_remove k l). rewrite IH. by repeat case_decide.
  - fold (Lru.r_remove k l). rewrite IH. repeat case_decide; congruence.
Qed.

Lemma assoc_take j n (l : Lru.recency) : is_Some (assoc j (take n l)) → is_Some (assoc j l).
Proof.
  revert n. induction l as [|[k e] l IH]; intros [|n]; simpl; try by intros [].
  case_decide; [done|]. apply IH.
Qed.

(** What [Put] does to the keys: the new one is there, the others were. *)
Lemma Lru_Put_keys k e c :
  Lru.wf c →
  Lru.wf (Lru.Put k e c) ∧ is_Some (assoc k (Lru.view (Lru.Put k e c)))
  ∧ ∀ j, j ≠ k → is_Some (assoc j (Lru.view (Lru.Put k e c))) → is_Some (assoc j (Lru.view c)).
Proof.
  intros Hwf. destruct (Lru.Put_ok k e c Hwf) as (Hw & Hv & _). split; [done|]. rewrite Hv. unfold Lru.r_put.
  destruct (Z.to_nat (Lru.cap c)) eqn:Hn; [pose proof (Lru.wf_cap _ Hwf); lia|]. simpl. split.
  - by rewrite decide_True.
  - intros j Hj. rewrite decide_False by done. intros Ht%assoc_take.
    by rewrite assoc_r_remove, decide_False in Ht.
Qed.

#[export] Program Instance wire_laws : CacheLaws Lru.Cache := {|
  cv_wf := Lru.wf; cv_has := λ c k, is_Some (assoc k (Lru.view c)) |}.
Next Obligation.
  intros k c Hwf. destruct (Lru.Get_ok k c Hwf) as (Hw & Hg & Hv). simpl. unfold Wire.wireCacheView_Get.
  destruct (Lru.Get k c) as [e c'] eqn:Hc. simpl in *. subst e. split; [done|].
  rewrite fmap_is_Some. split; [done|]. intros j. rewrite Hv. unfold Lru.r_touch.
  destruct (assoc k (Lru.view c)) as [e|] eqn:Ha; [|done]. simpl.
  case_decide as Hj; [subst; by rewrite Ha|]. by rewrite assoc_r_remove, decide_False.
Qed.
Next Obligation.
  intros k v c Hwf. apply (Lru_Put_keys k _ c Hwf).
Qed.
Next Obligation.
  intros k c Hwf. destruct (Lru.Delete_ok k c Hwf) as [Hw Hv]. split; [done|]. intros j.
  simpl. unfold Wire.wireCacheView_Delete. rewrite Hv, assoc_r_remove. case_decide; [|naive_solver].
  split; [by intros []|tauto].
Qed.
Next Obligation.
  intros c Hwf. destruct (Lru.Clear_ok c Hwf) as [Hw Hv]. split; [done|]. intros j. simpl. by intros [].
Qed.
