(* ===== verification/PgStateMachine.v ===== *)
(** * The PostgreSQL proxy state machine
    (internal/db/proxy/postgres/statemachine: state.go, frame.go, action.go,
    denyroute.go, transition.go)

    [TransitionWithParser] is modelled handler by handler over an abstract cache
    ([CacheView]) and classifier; the dispatcher of extended frames
    (internal/db/proxy/postgres/extquery.go) drives it over the LRU behind the wire. *)

From S2P Require Import Prelude DbEffects DbPolicy PreparedCache.
Open Scope Z_scope.

(** ** State (state.go) *)
Inductive Phase :=
| PhasePreAuth | PhaseIdle | PhaseInQuery | PhaseInTx | PhaseInTxError | PhaseInCopyIn | PhaseInCopyOut.

Definition Phase_String (p : Phase) : string :=
  match p with
  | PhasePreAuth => "pre_auth" | PhaseIdle => "idle" | PhaseInQuery => "in_query"
  | PhaseInTx => "in_tx" | PhaseInTxError => "in_tx_error"
  | PhaseInCopyIn => "in_copy_in" | PhaseInCopyOut => "in_copy_out"
  end.

(** [LastUpstreamRFQ] is the status byte of the last upstream ReadyForQuery,
    zero before authentication; times are nanosecond counts. *)
Record ConnState := {
  cs_Phase : Phase; LastUpstreamRFQ : ascii; Absorbing : bool;
  UpstreamDirtySinceSync : bool; TxStartedAt : Z
}.
Definition set_flags (s : ConnState) (absorbing dirty : bool) : ConnState :=
  {| cs_Phase := cs_Phase s; LastUpstreamRFQ := LastUpstreamRFQ s; Absorbing := absorbing;
     UpstreamDirtySinceSync := dirty; TxStartedAt := TxStartedAt s |}.
Definition set_absorbing (s : ConnState) (b : bool) : ConnState := set_flags s b (UpstreamDirtySinceSync s).
Definition set_dirty (s : ConnState) (b : bool) : ConnState := set_flags s (Absorbing s) b.

(** ** Frames (frame.go) *)
Inductive Frame :=
| QueryFrame (SQL : string)
| ParseFrame (Name SQL : string)
| BindFrame (Portal Statement : string)
| DescribeFrame (ObjectType : ascii) (Name : string)
| ExecuteFrame (Portal : string)
| SyncFrame
| FlushFrame
| CloseFrame (ObjectType : ascii) (Name : string)
| TerminateFrame
| FunctionCallFrame (FunctionOID : Z)
| CopyDataFrame (Body : string)
| CopyDoneFrame
| CopyFailFrame (Message : string).

(** ** Actions (action.go) *)
Inductive Action :=
| ActionForward
| ActionSynthError (SQLState Message Severity : string)
| ActionSynthReadyForQuery (Status : ascii)
| ActionSynthParseComplete
| ActionSynthBindComplete
| ActionSuppress
| ActionInjectRollback
| ActionDrainUntilRFQ
| ActionClose
| ActionTrackUpstreamRFQ (Status : ascii)
| ActionApproverWait (Timeout : Z) (Stmt : ClassifiedStatement) (Rule : StatementRule).

Definition is_close (a : Action) : bool := match a with ActionClose => true | _ => false end.
Definition is_forward (a : Action) : bool := match a with ActionForward => true | _ => false end.
Definition is_wait (a : Action) : bool := match a with ActionApproverWait _ _ _ => true | _ => false end.
Definition containsClose (acts : list Action) : bool := existsb is_close acts.
(** [actionsCanForward] (extquery.go). *)
Definition actionsCanForward (acts : list Action) : bool := existsb is_forward acts.

(** ** Deny routing (denyroute.go) *)
Definition in_tx (s : ConnState) : bool :=
  Ascii.eqb (LastUpstreamRFQ s) "T" || Ascii.eqb (LastUpstreamRFQ s) "E".

Definition DenyRoute (s : ConnState) (rule : StatementRule) (msg sqlstate : string) : list Action :=
  if in_tx s then
    if String.eqb (sr_DenyModeInTx rule) "rollback_then_continue" then
      [ActionSynthError sqlstate msg ""; ActionInjectRollback; ActionDrainUntilRFQ; ActionSynthReadyForQuery "I"]
    else [ActionSynthError sqlstate msg "FATAL"; ActionClose]
  else if UpstreamDirtySinceSync s then [ActionSynthError sqlstate msg ""; ActionDrainUntilRFQ]
  else [ActionSynthError sqlstate msg ""; ActionSynthReadyForQuery "I"].

(** ** Helpers of transition.go *)
Definition portalCacheKey (name : string) : string := String (ascii_of_nat 0) ("portal:" +:+ name).

Definition renderDenyMessage (d : Decision) : string :=
  if negb (String.eqb (d_RuleName d) "") then "denied by AgentSH policy: " +:+ d_RuleName d
  else if negb (String.eqb (d_Reason d) "") then "denied by AgentSH policy: " +:+ d_Reason d
  else "denied by AgentSH policy".

Definition sqlstateForDecision (d : Decision) : string :=
  if decide (d_RuleKind d = RuleKindConnection) then "28000" else "42501".

Definition newApproverWaitAction (d : Decision) (cs : ClassifiedStatement) (rule : StatementRule) : Action :=
  let t := sr_Timeout rule in
  let t := if t =? 0 then match d_Approval d with Some a => ar_Timeout a | None => t end else t in
  let t := if t =? 0 then 60 * second else t in
  ActionApproverWait t cs rule.

Section machine.
Context `{GoLib, GlobLib, TemplateLib}.
(** The classifier behind [PolicyClassifier], at the options in force. *)
Context (classify : string → list ClassifiedStatement).
Context {C : Type} `{CacheView C}.
Context (rules : option RuleSet) (svc : string).

Definition lookupStatementRule (name : string) : StatementRule :=
  match rules with
  | None => zeroStatementRule
  | Some _ =>
      if String.eqb name "" then zeroStatementRule
      else default zeroStatementRule (find_first (λ r, String.eqb (sr_Name r) name) (AllStatementRules rules))
  end.

(** ** Handlers *)
Definition handleSync (s : ConnState) : ConnState * list Action :=
  if negb (Absorbing s) && negb (UpstreamDirtySinceSync s) then (s, [ActionForward])
  else if Absorbing s && UpstreamDirtySinceSync s then
    (set_flags s false false, [ActionForward; ActionDrainUntilRFQ])
  else if Absorbing s && negb (UpstreamDirtySinceSync s) then
    (set_absorbing s false, [ActionSynthReadyForQuery "I"])
  else (set_dirty s false, [ActionForward; ActionDrainUntilRFQ]).

(** The statement loop shared by [handleParse] and [handleQuery]: an approve
    decision returns at once, a deny decision breaks. *)
Inductive screening :=
| ScreenApprove (d : Decision) (cs : ClassifiedStatement)
| ScreenDeny (d : Decision)
| ScreenPass.
Fixpoint screen (stmts : list ClassifiedStatement) : screening :=
  match stmts with
  | [] => ScreenPass
  | cs :: stmts =>
      let d := Evaluate cs rules svc in
      match d_Verb d with
      | VerbApprove => ScreenApprove d cs
      | VerbDeny => ScreenDeny d
      | _ => screen stmts
      end
  end.

Definition first_verb (stmts : list ClassifiedStatement) : string :=
  match stmts with [] => "" | cs :: _ => cs_RawVerb cs end.
Definition first_group (stmts : list ClassifiedStatement) : Z :=
  match stmts with
  | cs :: _ => match cs_Effects cs with e :: _ => Z.land (eff_Group e) 255 | [] => 0 end
  | [] => 0
  end.

Definition handleParse (s : ConnState) (name sql : string) (cache : C) : ConnState * list Action * C :=
  if Absorbing s then (s, [ActionSuppress], cache)
  else
    let stmts := classify sql in
    match screen stmts with
    | ScreenApprove d cs => (s, [newApproverWaitAction d cs (lookupStatementRule (d_RuleName d))], cache)
    | ScreenDeny d =>
        let actions := DenyRoute s (lookupStatementRule (d_RuleName d)) (renderDenyMessage d) (sqlstateForDecision d) in
        (if containsClose actions then s else set_absorbing s true, actions, cache)
    | ScreenPass =>
        (set_dirty s true, [ActionForward],
         cv_Put name (Build_CacheValue (first_verb stmts) (first_group stmts) "" false false) cache)
    end.

Definition quoted (s : string) : string := String (ascii_of_nat 34) (s +:+ String (ascii_of_nat 34) "").

Definition handleBind (s : ConnState) (portal statement : string) (cache : C) : ConnState * list Action * C :=
  if Absorbing s then (s, [ActionSuppress], cache)
  else
    match cv_Get statement cache with
    | (None, cache) =>
        (set_absorbing s true,
         [ActionSynthError "34000" ("prepared statement " +:+ quoted statement +:+ " does not exist") ""], cache)
    | (Some entry, cache) =>
        (set_dirty s true, [ActionForward], cv_Put (portalCacheKey portal) entry cache)
    end.

Definition handleDescribe (s : ConnState) : ConnState * list Action :=
  if Absorbing s then (s, [ActionSuppress]) else (set_dirty s true, [ActionForward]).

Definition handleExecute (s : ConnState) (portal : string) (cache : C) : ConnState * list Action * C :=
  if Absorbing s then (s, [ActionSuppress], cache)
  else
    match cv_Get (portalCacheKey portal) cache with
    | (None, cache) =>
        (set_absorbing s true,
         [ActionSynthError "34000" ("portal " +:+ quoted portal +:+ " does not exist") ""], cache)
    | (Some _, cache) => (set_dirty s true, [ActionForward], cache)
    end.

Definition handleFlush (s : ConnState) : ConnState * list Action :=
  if Absorbing s then (s, [ActionSuppress]) else (s, [ActionForward]).

Definition handleClose (s : ConnState) (ot : ascii) (name : string) (cache : C) : ConnState * list Action * C :=
  if Absorbing s then (s, [ActionSuppress], cache)
  else
    (set_dirty s true, [ActionForward],
     if Ascii.eqb ot "S" then cv_Delete name cache
     else if Ascii.eqb ot "P" then cv_Delete (portalCacheKey name) cache
     else cache).

Definition handleQuery (s : ConnState) (sql : string) : ConnState * list Action :=
  if Absorbing s then (s, [ActionSuppress])
  else
    match screen (classify sql) with
    | ScreenApprove d cs => (s, [newApproverWaitAction d cs (lookupStatementRule (d_RuleName d))])
    | ScreenDeny d =>
        (s, DenyRoute s (lookupStatementRule (d_RuleName d)) (renderDenyMessage d) (sqlstateForDecision d))
    | ScreenPass => (s, [ActionForward])
    end.

Definition TransitionWithParser (s : ConnState) (frame : Frame) (cache : C) : ConnState * list Action * C :=
  match frame with
  | SyncFrame => (handleSync s, cache)
  | QueryFrame sql => (handleQuery s sql, cache)
  | ParseFrame name sql => handleParse s name sql cache
  | BindFrame portal statement => handleBind s portal statement cache
  | DescribeFrame _ _ => (handleDescribe s, cache)
  | ExecuteFrame portal => handleExecute s portal cache
  | FlushFrame => (handleFlush s, cache)
  | CloseFrame ot name => handleClose s ot name cache
  | TerminateFrame => (s, [ActionForward; ActionClose], cache)
  | _ => (s, [ActionSynthError "0A000" "frame not supported" ""; ActionClose], cache)
  end.

(** ** The status byte of upstream (upstreamread.go) *)
Definition observe_rfq (s : ConnState) (status : ascii) (now : Z) : ConnState :=
  let phase := if Ascii.eqb status "I" then PhaseIdle
               else if Ascii.eqb status "T" then PhaseInTx
               else if Ascii.eqb status "E" then PhaseInTxError else cs_Phase s in
  let started := if Ascii.eqb status "I" then 0
                 else if Ascii.eqb status "T" && negb (Ascii.eqb (LastUpstreamRFQ s) "T") then now
                 else TxStartedAt s in
  {| cs_Phase := phase; LastUpstreamRFQ := status; Absorbing := Absorbing s;
     UpstreamDirtySinceSync := false; TxStartedAt := started |}.

(** ** Screening *)
Definition permitted (cs : ClassifiedStatement) : Prop :=
  d_Verb (Evaluate cs rules svc) ≠ VerbDeny ∧ d_Verb (Evaluate cs rules svc) ≠ VerbApprove.

Lemma screen_pass stmts : screen stmts = ScreenPass ↔ Forall permitted stmts.
Proof.
  induction stmts as [|cs stmts IH]; simpl; [by split|].
  rewrite Forall_cons. unfold permitted at 1. destruct (d_Verb _) eqn:Hv; rewrite ?IH; naive_solver.
Qed.

Lemma DenyRoute_no_forward s r m q : actionsCanForward (DenyRoute s r m q) = false.
Proof. unfold DenyRoute. by repeat case_match. Qed.

Lemma newApproverWaitAction_no_forward d cs r : actionsCanForward [newApproverWaitAction d cs r] = false.
Proof. done. Qed.

Lemma handleParse_forward s name sql c s' acts c' :
  handleParse s name sql c = (s', acts, c') → actionsCanForward acts = true →
  Absorbing s = false ∧ Forall permitted (classify sql) ∧
  ∃ v, c' = cv_Put name v c ∧ s' = set_dirty s true.
Proof.
  unfold handleParse. destruct (Absorbing s); [by intros [= <- <- <-]|].
  destruct (screen (classify sql)) eqn:Hs.
  - intros [= <- <- <-]. by rewrite newApproverWaitAction_no_forward.
  - intros [= <- <- <-]. by rewrite DenyRoute_no_forward.
  - intros [= <- <- <-] _. apply screen_pass in Hs. eauto.
Qed.

Lemma handleParse_held s name sql c s' acts c' :
  handleParse s name sql c = (s', acts, c') → actionsCanForward acts = false → c' = c.
Proof.
  unfold handleParse. destruct (Absorbing s); [by intros [= <- <- <-]|].
  destruct (screen (classify sql)); by intros [= <- <- <-].
Qed.

(** ** What the machine forwards *)

(** Nothing unscreened is forwarded: when a Query or Parse frame is
    forwarded upstream, the connection is not in an absorbing window and policy
    permits every statement the classifier found in it; none is denied and none
    awaits approval. *)
Theorem forward_only_permitted s f c sql name :
  f = QueryFrame sql ∨ f = ParseFrame name sql →
  actionsCanForward (TransitionWithParser s f c).1.2 = true →
  Absorbing s = false ∧ ∀ cs, cs ∈ classify sql →
    d_Verb (Evaluate cs rules svc) ≠ VerbDeny ∧ d_Verb (Evaluate cs rules svc) ≠ VerbApprove.
Proof.
  intros [-> | ->]; simpl.
  - unfold handleQuery. destruct (Absorbing s); [done|]. destruct (screen _) eqn:Hs; simpl.
    + done.
    + by rewrite DenyRoute_no_forward.
    + apply screen_pass in Hs. rewrite Forall_forall in Hs. done.
  - destruct (handleParse s name sql c) as [[s' acts] c'] eqn:Hp. simpl. intros Hf.
    apply handleParse_forward in Hp as (Ha & Hperm & _); [|done].
    rewrite Forall_forall in Hperm. done.
Qed.

(** The absorbing window: after a deny, every Query and extended-protocol
    frame but Sync is suppressed, leaving the state and the cache unchanged, and
    Sync always closes the window: both flags are clear, nothing else changes, and
    the Sync is either forwarded upstream or answered by one synthesized
    ReadyForQuery, never both. *)
Theorem absorbing_window s f c :
  (Absorbing s = true →
   match f with
   | QueryFrame _ | ParseFrame _ _ | BindFrame _ _ | DescribeFrame _ _ | ExecuteFrame _ | FlushFrame | CloseFrame _ _ =>
       TransitionWithParser s f c = (s, [ActionSuppress], c)
   | _ => True
   end) ∧
  TransitionWithParser s SyncFrame c =
    (set_flags s false false,
     if Absorbing s && negb (UpstreamDirtySinceSync s) then [ActionSynthReadyForQuery "I"]
     else if Absorbing s || UpstreamDirtySinceSync s then [ActionForward; ActionDrainUntilRFQ]
     else [ActionForward], c).
Proof.
  split.
  - intros Ha. destruct f; simpl; try done;
      unfold handleQuery, handleParse, handleBind, handleDescribe, handleExecute, handleFlush, handleClose;
      by rewrite Ha.
  - destruct s as [ph rfq [] [] t]; reflexivity.
Qed.

(** Deny routing follows the transaction status: a denied statement is never
    forwarded; the connection closes, with a FATAL error, exactly when upstream is
    in a transaction and the rule does not ask for a rollback; a rollback is
    injected exactly when upstream is in a transaction and the rule asks for it. *)
Theorem DenyRoute_by_status s rule msg sqlstate :
  let acts := DenyRoute s rule msg sqlstate in
  let rollback := String.eqb (sr_DenyModeInTx rule) "rollback_then_continue" in
  actionsCanForward acts = false ∧
  containsClose acts = in_tx s && negb rollback ∧
  (ActionInjectRollback ∈ acts ↔ in_tx s && rollback = true) ∧
  head acts = Some (ActionSynthError sqlstate msg (if containsClose acts then "FATAL" else "")).
Proof.
  unfold DenyRoute. cbv zeta.
  destruct (in_tx s), (String.eqb _ _), (UpstreamDirtySinceSync s); simpl; split_and!; try done; set_solver.
Qed.
End machine.

(** ** The dispatcher (extquery.go)

    [handleExtendedFrame] over the wire cache: a Parse that the policy redirects is rewritten
    and forwarded without the machine, every other frame goes through it, and the cache
    entries get their metadata. The policy is fetched anew for every frame and again by the
    redirect path, so each frame comes with the rule sets and the classifier it meets. *)
Record RedirectPlan := { pl_RewrittenSQL : string; pl_Rule : string; pl_SourceRelation : string; pl_TargetRelation : string }.

(** What the dispatcher did with a frame: the machine's actions, or a Parse sent upstream
    with its query replaced. *)
Inductive Outcome := Acted (acts : list Action) | Rewritten (sql : string).
Definition forwards (o : Outcome) : bool :=
  match o with Acted acts => actionsCanForward acts | Rewritten _ => true end.

Definition statementIsReadOnly (stmt : ClassifiedStatement) : bool :=
  match cs_Effects stmt with [] => false | effs => forallb (λ e, eff_Group e =? GroupRead) effs end.

Section dispatcher.
Context `{GoLib, GlobLib, TemplateLib}.
(** [se_rules], [se_redirect_rules] and [se_plan_rules] are what [policy] returns to
    [handleExtendedFrame], [tryHandleRedirectParse] and [planRuntimeRedirect];
    [se_classify] and [se_reclassify] the classifier at the first and at the last options,
    the second with its error; [se_planner] is the active redirect planner. *)
Record Setting := {
  se_rules : option RuleSet; se_redirect_rules : option RuleSet; se_plan_rules : option RuleSet;
  se_classify : string → list ClassifiedStatement; se_reclassify : string → list ClassifiedStatement * bool;
  se_planner : string → ClassifiedStatement → Decision → StatementRule → Result string RedirectPlan
}.

Context (svc : string).
(** Metadata of cache entries: [statementsNeedCatalogRefresh] and [statementDigest]. *)
Context (refresh_needs : list ClassifiedStatement → bool * bool) (digest : string → string).

Definition planRuntimeRedirect (se : Setting) (sql : string) (stmt : ClassifiedStatement) (d : Decision)
    : Result string (RedirectPlan * ClassifiedStatement) :=
  match se_planner se sql stmt d (lookupStatementRule (se_plan_rules se) (d_RuleName d)) with
  | Err e => Err e
  | Ok plan =>
      let plan := Build_RedirectPlan (pl_RewrittenSQL plan)
                    (if String.eqb (pl_Rule plan) "" then d_RuleName d else pl_Rule plan)
                    (pl_SourceRelation plan) (pl_TargetRelation plan) in
      if String.eqb (pl_RewrittenSQL plan) "" then Err "empty_rewritten_statement"
      else match se_reclassify se (pl_RewrittenSQL plan) with
           | ([cs], false) =>
               if statementIsReadOnly cs then Ok (plan, cs) else Err "rewritten_statement_not_read_only"
           | _ => Err "rewritten_statement_unclassifiable"
           end
  end.

(** The loop over the decisions: [None] when one is deny or approve, else the first redirect. *)
Fixpoint first_redirect (rules : option RuleSet) (stmts : list ClassifiedStatement) (found : option Decision)
    : option (option Decision) :=
  match stmts with
  | [] => Some found
  | cs :: stmts =>
      let d := Evaluate cs rules svc in
      match d_Verb d with
      | VerbDeny | VerbApprove => None
      | VerbRedirect => first_redirect rules stmts (match found with Some _ => found | None => Some d end)
      | _ => first_redirect rules stmts found
      end
  end.

Definition redirect_error (reason : string) : string := "redirect rejected by AgentSH policy: " +:+ reason.
Definition redirect_entry (sql : string) (stmt : ClassifiedStatement) (d : Decision) (plan : RedirectPlan)
    (cs : ClassifiedStatement) : Entry :=
  let '(searchPath, snapshot) := refresh_needs [cs] in
  Build_Entry cs 0 searchPath snapshot
    (Some (Build_RedirectMetadata stmt sql (digest sql) (digest (pl_RewrittenSQL plan)) (pl_Rule plan)
             (pl_SourceRelation plan) (pl_TargetRelation plan) (d_RuleName d))).

(** [None]: not handled. The absorbing flag is not consulted, and a rejected batch does not
    set it. *)
Definition tryHandleRedirectParse (se : Setting) (s : ConnState) (name sql : string) (stmts : list ClassifiedStatement)
    (cache : Lru.Cache) : option (ConnState * Outcome * Lru.Cache) :=
  match first_redirect (se_redirect_rules se) stmts None with
  | None | Some None => None
  | Some (Some d) =>
      match stmts with
      | [stmt] =>
          match planRuntimeRedirect se sql stmt d with
          | Err reason =>
              let actions := DenyRoute s zeroStatementRule (redirect_error reason) "0A000" in
              Some (if containsClose actions then s else set_absorbing s true, Acted actions, cache)
          | Ok (plan, cs) =>
              Some (set_dirty s true, Rewritten (pl_RewrittenSQL plan),
                    Lru.Put name (redirect_entry sql stmt d plan cs) cache)
          end
      | _ => Some (s, Acted (DenyRoute s zeroStatementRule (redirect_error "multi-statement redirect unsupported") "0A000"),
                   cache)
      end
  end.

Definition preserveRedirectPortalMetadata (portal statement : string) (cache : Lru.Cache) : Lru.Cache :=
  match Lru.Get statement cache with
  | (Some entry, cache) =>
      match en_Redirect entry with Some _ => Lru.Put (portalCacheKey portal) entry cache | None => cache end
  | (None, cache) => cache
  end.

Definition parsed_entry (cs : ClassifiedStatement) (stmts : list ClassifiedStatement) : Entry :=
  let '(searchPath, snapshot) := refresh_needs stmts in Build_Entry cs 0 searchPath snapshot None.

Definition handleExtendedFrame (se : Setting) (s : ConnState) (frame : Frame) (cache : Lru.Cache)
    : ConnState * Outcome * Lru.Cache :=
  let stmts := match frame with ParseFrame _ sql => se_classify se sql | _ => [] end in
  let redirected := match frame, stmts with
                    | ParseFrame name sql, _ :: _ => tryHandleRedirectParse se s name sql stmts cache
                    | _, _ => None
                    end in
  match redirected with
  | Some r => r
  | None =>
      let '(s, acts, cache) := TransitionWithParser (se_classify se) (se_rules se) svc s frame cache in
      (s, Acted acts,
       if actionsCanForward acts then
         match frame, stmts with
         | ParseFrame name _, cs :: _ => Lru.Put name (parsed_entry cs stmts) cache
         | BindFrame portal statement, _ => preserveRedirectPortalMetadata portal statement cache
         | ExecuteFrame portal, _ => (Lru.Get (portalCacheKey portal) cache).2
         | _, _ => cache
         end
       else cache)
  end.

(** [cacheApprovedParse]: an approved Parse is cached and counts as forwarded. *)
Definition cacheApprovedParse (s : ConnState) (name : string) (stmt : ClassifiedStatement) (cache : Lru.Cache)
    : ConnState * Lru.Cache :=
  (set_dirty s true, Lru.Put name (parsed_entry stmt [stmt]) cache).

(** ** Traces

    The events of one connection that concern the wire cache: extended frames with their
    settings and outcomes, and approvals of a held Parse. Whatever else happens (status
    bytes of upstream, simple queries, COPY, function calls, denied approvals) may change the
    state and leaves the cache. *)
Inductive event :=
| EvFrame (se : Setting) (f : Frame) (o : Outcome)
| EvApproved (name : string).

Definition nul_free (s : string) : bool := str_forall (λ c, negb (Ascii.eqb c (ascii_of_nat 0))) s.
(** Names on the wire are NUL-terminated, so they contain no NUL. *)
Definition wire_names (f : Frame) : bool :=
  match f with
  | ParseFrame name _ => nul_free name
  | BindFrame portal statement => nul_free portal && nul_free statement
  | DescribeFrame _ name | CloseFrame _ name => nul_free name
  | ExecuteFrame portal => nul_free portal
  | _ => true
  end.
(** The frames [simpleQueryLoop] hands to [handleExtendedFrame]. *)
Definition is_extended (f : Frame) : bool :=
  match f with
  | ParseFrame _ _ | BindFrame _ _ | DescribeFrame _ _ | ExecuteFrame _ | SyncFrame | FlushFrame | CloseFrame _ _ => true
  | _ => false
  end.

Inductive reach : list event → ConnState → Lru.Cache → Prop :=
| reach_init s : reach [] s (Lru.New 0)
| reach_frame h s c se f s' o c' :
    reach h s c → is_extended f = true → wire_names f = true →
    handleExtendedFrame se s f c = (s', o, c') →
    reach (h ++ [EvFrame se f o]) s' c'
| reach_other h s c s' : reach h s c → reach h s' c
| reach_approved h h' s c se name sql acts stmt s' c' :
    reach h s c → h = h' ++ [EvFrame se (ParseFrame name sql) (Acted acts)] → existsb is_wait acts = true →
    nul_free name = true → cacheApprovedParse s name stmt c = (s', c') →
    reach (h ++ [EvApproved name]) s' c'.

(** Statement [n] was let through: a Parse whose statements the policy of that frame permits
    was forwarded; a Parse of one statement that the policy redirects was rewritten to a
    statement that only reads; or a held Parse was approved. *)
Definition granted (n : string) (h : list event) : Prop :=
  (∃ se sql acts, EvFrame se (ParseFrame n sql) (Acted acts) ∈ h ∧ actionsCanForward acts = true ∧
     Forall (permitted (se_rules se) svc) (se_classify se sql))
  ∨ (∃ se sql sql' cs cs', EvFrame se (ParseFrame n sql) (Rewritten sql') ∈ h ∧ se_classify se sql = [cs] ∧
       d_Verb (Evaluate cs (se_redirect_rules se) svc) = VerbRedirect ∧
       se_reclassify se sql' = ([cs'], false) ∧ statementIsReadOnly cs' = true)
  ∨ (∃ h1 h2 se sql acts, h = h1 ++ EvFrame se (ParseFrame n sql) (Acted acts) :: EvApproved n :: h2 ∧
       existsb is_wait acts = true).
(** Portal [p] was bound, by a forwarded Bind, to a statement granted before. *)
Definition bound (p : string) (h : list event) : Prop :=
  ∃ h1 h2 n se o, h = h1 ++ EvFrame se (BindFrame p n) o :: h2 ∧ forwards o = true ∧ granted n h1.

Lemma granted_app n h e : granted n h → granted n (h ++ [e]).
Proof.
  intros [(se & q & a & ? & ?)|[(se & q & q' & cs & cs' & ? & ?)|(h1 & h2 & se & q & a & -> & ?)]].
  - left. exists se, q, a. set_solver.
  - right; left. exists se, q, q', cs, cs'. set_solver.
  - right; right. exists h1, (h2 ++ [e]), se, q, a. by rewrite <-app_assoc.
Qed.
Lemma bound_app p h e : bound p h → bound p (h ++ [e]).
Proof.
  intros (h1 & h2 & n & se & a & -> & ? & ?). exists h1, (h2 ++ [e]), n, se, a.
  by rewrite <-app_assoc.
Qed.

Definition inv (h : list event) (c : Lru.Cache) : Prop :=
  cv_wf c ∧ (∀ n, nul_free n = true → cv_has c n → granted n h) ∧
  (∀ p, cv_has c (portalCacheKey p) → bound p h).

Lemma inv_app h c e : inv h c → inv (h ++ [e]) c.
Proof. intros (? & ? & ?). split_and!; eauto using granted_app, bound_app. Qed.

(** Anything a cache step keeps was there before. *)
Lemma inv_shrink h c c' : inv h c → cv_wf c' → (∀ k, cv_has c' k → cv_has c k) → inv h c'.
Proof. intros (? & ? & ?) ??. split_and!; eauto. Qed.

Lemma portal_key_nul p : nul_free (portalCacheKey p) = false.
Proof. done. Qed.

Lemma portalCacheKey_inj p q : portalCacheKey p = portalCacheKey q → p = q.
Proof. unfold portalCacheKey. by intros [= Hp]. Qed.

Lemma inv_put_statement h c n e : inv h c → nul_free n = true → granted n h → inv h (Lru.Put n e c).
Proof.
  intros (Hw & Hs & Hp) Hn Hg. destruct (Lru_Put_keys n e c Hw) as (Hw' & _ & Ho). split_and!; [done|..].
  - intros m Hm Hh. destruct (decide (m = n)) as [->|]; [done|]. apply Hs; [done|]. by apply Ho.
  - intros p Hh. apply Hp, Ho; [|done]. intros Heq. pose proof (portal_key_nul p). congruence.
Qed.

Lemma inv_put_portal h c p e : inv h c → bound p h → inv h (Lru.Put (portalCacheKey p) e c).
Proof.
  intros (Hw & Hs & Hp) Hb. destruct (Lru_Put_keys (portalCacheKey p) e c Hw) as (Hw' & _ & Ho).
  split_and!; [done|..].
  - intros m Hm Hh. apply Hs, Ho; [done| |done]. intros ->. pose proof (portal_key_nul p). congruence.
  - intros q Hh. destruct (decide (q = p)) as [->|Hne]; [done|]. apply Hp, Ho; [|done].
    by intros ?%portalCacheKey_inj.
Qed.

Lemma inv_get h c k : inv h c → inv h (Lru.Get k c).2.
Proof.
  intros Hi. destruct (cv_Get_law k c) as (Hw & _ & Hh); [apply Hi|].
  assert (Hc : (cv_Get k c).2 = (Lru.Get k c).2).
  { cbn. unfold Wire.wireCacheView_Get. by destruct (Lru.Get k c). }
  rewrite Hc in Hw, Hh. eapply inv_shrink; [done|done|]. intros j. by rewrite Hh.
Qed.
Lemma inv_cv_get h c k : inv h c → inv h (cv_Get k c).2.
Proof.
  intros Hi. apply (inv_get h c k) in Hi. cbn. unfold Wire.wireCacheView_Get. by destruct (Lru.Get k c).
Qed.

Lemma inv_delete h c k : inv h c → inv h (cv_Delete k c).
Proof.
  intros Hi. destruct (cv_Delete_law k c) as (Hw & Hh); [apply Hi|].
  eapply inv_shrink; [done|done|]. intros j. rewrite Hh. tauto.
Qed.

(** *** Steps keep the invariant *)
Lemma preserve_inv h c p n : inv h c → bound p h → inv h (preserveRedirectPortalMetadata p n c).
Proof.
  intros Hi Hb. unfold preserveRedirectPortalMetadata. apply (inv_get _ _ n) in Hi.
  destruct (Lru.Get n c) as [[e|] c1]; [|done]. destruct (en_Redirect e); [by apply inv_put_portal|done].
Qed.

Lemma bind_inv h se s p n c s' o c' :
  inv h c → nul_free n = true → handleExtendedFrame se s (BindFrame p n) c = (s', o, c') →
  inv (h ++ [EvFrame se (BindFrame p n) o]) c'.
Proof.
  intros Hi Hn. cbn -[preserveRedirectPortalMetadata]. unfold handleBind.
  destruct (Absorbing s); [intros [= <- <- <-]; by apply inv_app|].
  pose proof (inv_cv_get h c n Hi) as Hi'. destruct (cv_Get_law n c) as (_ & Hh & _); [apply Hi|].
  destruct (cv_Get n c) as [[entry|] c1]; simpl in Hi', Hh; intros [= <- <- <-]; [|by apply inv_app].
  assert (Hb : bound p (h ++ [EvFrame se (BindFrame p n) (Acted [ActionForward])])).
  { exists h, [], n, se, (Acted [ActionForward]). split_and!; [done..|]. apply Hi; [done|]. apply Hh. eauto. }
  cbn -[preserveRedirectPortalMetadata]. apply preserve_inv; [|done]. by apply inv_put_portal; [apply inv_app|].
Qed.

Lemma first_redirect_found rules cs d :
  first_redirect rules [cs] None = Some (Some d) → d = Evaluate cs rules svc ∧ d_Verb d = VerbRedirect.
Proof. cbn. destruct (d_Verb (Evaluate cs rules svc)) eqn:Hv; try done. intros [= <-]. done. Qed.

Lemma planRuntimeRedirect_ok se sql stmt d plan cs :
  planRuntimeRedirect se sql stmt d = Ok (plan, cs) →
  se_reclassify se (pl_RewrittenSQL plan) = ([cs], false) ∧ statementIsReadOnly cs = true.
Proof.
  unfold planRuntimeRedirect. destruct (se_planner _ _ _ _ _) as [pl|]; [|done]. cbn -[String.eqb].
  destruct (String.eqb _ _); [done|]. destruct (se_reclassify se _) as [[|cs0 [|]] []] eqn:Hc; try done.
  destruct (statementIsReadOnly cs0) eqn:Hr; [|done]. intros [= <- <-]. done.
Qed.

Lemma redirect_inv h se s n sql c s' o c' :
  inv h c → nul_free n = true → tryHandleRedirectParse se s n sql (se_classify se sql) c = Some (s', o, c') →
  inv (h ++ [EvFrame se (ParseFrame n sql) o]) c'.
Proof.
  intros Hi Hn. unfold tryHandleRedirectParse.
  destruct (first_redirect _ _ _) as [[d|]|] eqn:Hf; try done.
  destruct (se_classify se sql) as [|cs [|]] eqn:Hcl; try (intros [= <- <- <-]; by apply inv_app).
  apply first_redirect_found in Hf as [-> Hv].
  destruct (planRuntimeRedirect _ _ _ _) as [[plan cs']|] eqn:Hp; intros [= <- <- <-]; [|by apply inv_app].
  apply planRuntimeRedirect_ok in Hp as [Hr Hro]. apply inv_put_statement; [by apply inv_app|done|].
  right; left. exists se, sql, (pl_RewrittenSQL plan), cs, cs'. set_solver.
Qed.

Lemma parse_inv h se s n sql c s' o c' :
  inv h c → nul_free n = true → handleExtendedFrame se s (ParseFrame n sql) c = (s', o, c') →
  inv (h ++ [EvFrame se (ParseFrame n sql) o]) c'.
Proof.
  intros Hi Hn. unfold handleExtendedFrame.
  destruct (match se_classify se sql with [] => None | _ => _ end) as [[[s1 o1] c1]|] eqn:Hred.
  { intros [= <- <- <-]. eapply redirect_inv; [done|done|]. destruct (se_classify se sql) eqn:Hc; [done|exact Hred]. }
  cbn -[handleParse]. destruct (handleParse _ _ _ _ _ _ _) as [[s1 acts] c1] eqn:Hp. intros [= <- <- <-].
  destruct (actionsCanForward acts) eqn:Hf.
  - destruct (handleParse_forward _ _ _ _ _ _ _ _ _ _ Hp Hf) as (_ & Hperm & v & -> & _).
    assert (Hg : granted n (h ++ [EvFrame se (ParseFrame n sql) (Acted acts)])).
    { left. exists se, sql, acts. set_solver. }
    assert (Hi' : inv (h ++ [EvFrame se (ParseFrame n sql) (Acted acts)]) (cv_Put n v c))
      by (apply inv_put_statement; [by apply inv_app|done|done]).
    destruct (se_classify se sql); [done|]. by apply inv_put_statement.
  - rewrite (handleParse_held _ _ _ _ _ _ _ _ _ _ Hp Hf). by apply inv_app.
Qed.

Lemma execute_inv h se s p c s' o c' :
  inv h c → handleExtendedFrame se s (ExecuteFrame p) c = (s', o, c') →
  inv (h ++ [EvFrame se (ExecuteFrame p) o]) c' ∧ (forwards o = true → bound p h).
Proof.
  intros Hi. cbn -[Lru.Get]. unfold handleExecute.
  destruct (Absorbing s); [intros [= <- <- <-]; split; [by apply inv_app|done]|].
  pose proof (inv_cv_get h c (portalCacheKey p) Hi) as Hi'.
  destruct (cv_Get_law (portalCacheKey p) c) as (_ & Hh & _); [apply Hi|].
  destruct (cv_Get (portalCacheKey p) c) as [[entry|] c1]; simpl in Hi', Hh; intros [= <- <- <-]; cbn -[Lru.Get].
  - split; [apply inv_app; by apply inv_get|]. intros _. apply Hi, Hh. eauto.
  - split; [by apply inv_app|done].
Qed.

Lemma New_empty k : ¬ cv_has (Lru.New 0) k.
Proof. intros [? Hk]. discriminate Hk. Qed.

Lemma reach_inv h s c : reach h s c → inv h c.
Proof.
  induction 1 as [s|h s c se f s' o c' _ IH He Hf Ht| |h h' s c se n sql acts v s' c' _ IH Hh Hw Hn Hc].
  - split_and!; [apply Lru.New_ok|..]; intros ? **; by edestruct New_empty.
  - destruct f; try discriminate He; cbn [wire_names] in Hf.
    + by eapply parse_inv.
    + apply andb_true_iff in Hf as [_ Hf]. by eapply bind_inv.
    + cbn in Ht. destruct (handleDescribe s). injection Ht as <- <- <-. apply inv_app. by destruct (actionsCanForward _).
    + by eapply execute_inv.
    + cbn in Ht. destruct (handleSync s). injection Ht as <- <- <-. apply inv_app. by destruct (actionsCanForward _).
    + cbn in Ht. destruct (handleFlush s). injection Ht as <- <- <-. apply inv_app. by destruct (actionsCanForward _).
    + cbn -[cv_Delete] in Ht. unfold handleClose in Ht.
      destruct (Absorbing s); injection Ht as <- <- <-; [by apply inv_app|].
      apply inv_app. cbn -[cv_Delete]. repeat case_match; try done; by apply inv_delete.
  - done.
  - injection Hc as <- <-. apply inv_put_statement; [by apply inv_app|done|]. right; right.
    exists h', [], se, sql, acts. by rewrite Hh, <-app_assoc.
Qed.

End dispatcher.

(** ** Concrete runs *)
Module PgSample.
#[local] Existing Instance ascii_go.
#[local] Existing Instance literal_glob.
#[local] Existing Instance Sample.raw_template.

(** A classifier that knows four queries. *)
Definition classify (sql : string) : list ClassifiedStatement :=
  if String.eqb sql "SELECT orders" then [Sample.read_orders]
  else if String.eqb sql "SELECT secrets" then [Sample.read_secrets]
  else if String.eqb sql "DELETE orders" then [Sample.delete_orders]
  else if String.eqb sql "DELETE orders; SELECT secrets" then [Sample.delete_orders; Sample.read_secrets]
  else [].
Definition idle : ConnState := Build_ConnState PhaseIdle "I" false false 0.
Definition inTx : ConnState := Build_ConnState PhaseInTx "T" false false 0.
Definition step := TransitionWithParser classify (C := Lru.Cache) (Some Sample.rules) "pg".
Definition c0 : Lru.Cache := Lru.New 8.
Definition r1 := step idle (ParseFrame "q" "SELECT orders") c0.
Definition r2 := step r1.1.1 (BindFrame "p" "q") r1.2.

Lemma forward_only_permitted_witness :
  Absorbing idle = false.
Proof.
  apply (forward_only_permitted classify (C := Lru.Cache) (Some Sample.rules) "pg" idle
           (ParseFrame "q" "SELECT orders") c0 "SELECT orders" "q").
  - right. reflexivity.
  - vm_compute. reflexivity.
Defined.

(** A planner that knows one query. *)
Definition planner (sql : string) (cs : ClassifiedStatement) (d : Decision) (r : StatementRule)
    : Result string RedirectPlan :=
  if String.eqb sql "SELECT users" then Ok (Build_RedirectPlan "SELECT users_view" "" "public.users" "public.users_view")
  else Err "unsupported_redirect_shape".
Definition classify_all (sql : string) : list ClassifiedStatement :=
  if String.eqb sql "SELECT users" then [Sample.read_users]
  else if String.eqb sql "SELECT users_view" then [Sample.stmt [Sample.effect GroupRead "users_view"]]
  else classify sql.
Definition set_now : Setting :=
  Build_Setting (Some Sample.rules) (Some Sample.rules) (Some Sample.rules) classify_all
    (λ q, (classify_all q, false)) planner.
Definition handle := handleExtendedFrame "pg" (λ _, (false, false)) (λ q, q) set_now.
Definition w1 := handle idle (ParseFrame "u" "SELECT users") (Lru.New 0).
Definition w2 := handle w1.1.1 (BindFrame "p" "u") w1.2.
Definition w3 := handle w2.1.1 (ExecuteFrame "p") w2.2.


(** A redirected Parse is rewritten and forwarded inside an absorbing window, where every
    other frame is suppressed. *)
Example redirect_ignores_absorbing :
  let s := set_absorbing idle true in
  (step s (ParseFrame "u" "SELECT users") c0).1.2 = [ActionSuppress] ∧
  (handle s (ParseFrame "u" "SELECT users") c0).1.2 = Rewritten "SELECT users_view".
Proof. by vm_compute. Qed.

(** A Bind that misses the cache inside a transaction is answered without deny
    routing, and the Sync that follows reports the idle status although upstream
    is still in the transaction. *)
Example bind_miss_in_tx_reports_idle :
  let r := step inTx (BindFrame "p" "missing") c0 in
  LastUpstreamRFQ r.1.1 = "T"%char ∧
  (step r.1.1 SyncFrame r.2).1.2 = [ActionSynthReadyForQuery "I"].
Proof. by vm_compute. Qed.

(** A clean denied Parse is answered with a ReadyForQuery, and the Sync that ends
    its window with another. *)
Example clean_parse_deny_two_rfq :
  let r := step idle (ParseFrame "q" "SELECT secrets") c0 in
  ActionSynthReadyForQuery "I" ∈ r.1.2 ∧
  (step r.1.1 SyncFrame r.2).1.2 = [ActionSynthReadyForQuery "I"].
Proof. split; [apply list_elem_of_lookup_2 with 1%nat|]; by vm_compute. Qed.

(** A batch whose first statement awaits approval is held on that statement alone:
    the denied one behind it is not looked at. *)
Example approve_hides_later_deny :
  d_Verb (Evaluate Sample.read_secrets (Some Sample.rules) "pg") = VerbDeny ∧
  existsb is_wait (step idle (QueryFrame "DELETE orders; SELECT secrets") c0).1.2 = true.
Proof. by vm_compute. Qed.
End PgSample.
