(* ===== verification/DbExplain.v ===== *)
(** * Policy explanations (internal/db/policy/explain.go)

    [ExplainStatement] recomputes, next to the decision, which rules cover and
    which rules deny each object.  The theorem shows that what it reports is
    what the evaluator did. *)

From S2P Require Import Prelude DbEffects DbPolicy.
Open Scope Z_scope.

Record RuleMatch := { rmt_RuleName : string; rmt_Verb : DecisionVerb; rmt_Selector : string }.
Record ObjectCoverage := {
  oc_Index : nat; oc_Object : ObjectRef; oc_ResolvedObject : option ResolvedObjectRef;
  oc_Covered : bool; oc_CoveringRules : list RuleMatch; oc_UncoveredReason : string
}.
Record EffectExplanation := {
  ex_Index : nat; ex_Group : Z; ex_Subtype : Z; ex_Resolution : Z;
  ex_Coverage : list ObjectCoverage; ex_CoveringRules : list RuleMatch; ex_DenyRules : list RuleMatch
}.
Record StatementExplanation := {
  se_Decision : option Decision; se_ApplicableRules : list string; se_Effects : list EffectExplanation
}.

(** The [seen] set holds the keys of the matches appended so far. *)
Definition match_key (m : RuleMatch) : string :=
  rmt_RuleName m +:+ String (ascii_of_nat 0) (rmt_Selector m).
Definition appendRuleMatchUnique (acc : list RuleMatch * gset string) (m : RuleMatch) : list RuleMatch * gset string :=
  if decide (match_key m ∈ acc.2) then acc else (acc.1 ++ [m], {[match_key m]} ∪ acc.2).

Definition no_matches : list RuleMatch * gset string := ([], ∅).

Section explain.
Context `{GoLib, GlobLib, TemplateLib}.

Definition mk_match (r : compiledStatementRule) (sel : string) : RuleMatch :=
  {| rmt_RuleName := rule_name r; rmt_Verb := c_verb r; rmt_Selector := sel |}.

Definition collect (ms : list RuleMatch) (acc : list RuleMatch * gset string) : list RuleMatch * gset string :=
  fold_left appendRuleMatchUnique ms acc.

Fixpoint resolvedOnlyFunctionRuleSelector (r : compiledStatementRule) (ros : list ResolvedObjectRef) : option string :=
  match ros with
  | [] => None
  | resolved :: ros =>
      if negb (resolvedOnlyFunctionRuleMatches r resolved) then resolvedOnlyFunctionRuleSelector r ros
      else if negb (hasObjectSelectors r) then Some "all"
      else if functionMatches r resolved then Some "functions"
      else resolvedOnlyFunctionRuleSelector r ros
  end.

(** The rules of [applicable] that pass the effect guards, with the selector
    that matched, in policy order. *)
Definition selected (e : Effect) (applicable : list compiledStatementRule)
    (sel : compiledStatementRule → option string) : list (compiledStatementRule * string) :=
  omap (λ r, if ruleMatchesEffectMeta r e then (λ s, (r, s)) <$> sel r else None) applicable.

Definition matches_of (deny : bool) (l : list (compiledStatementRule * string)) : list RuleMatch :=
  (λ p : compiledStatementRule * string, mk_match p.1 p.2) <$>
  List.filter (λ p : compiledStatementRule * string, Bool.eqb (is_deny p.1) deny) l.

Definition objectless_selector (r : compiledStatementRule) : option string :=
  if negb (coversAllObjects r) then None else Some "all".

(** [explainResolvedOnlyFunctionEffect] and [explainObjectlessEffect]: the
    covering and the deny rules of an effect without objects. *)
Definition explainResolvedOnlyFunctionEffect (e : Effect) (applicable : list compiledStatementRule)
    : list RuleMatch * list RuleMatch :=
  let l := selected e applicable (λ r, resolvedOnlyFunctionRuleSelector r (eff_ResolvedObjects e)) in
  ((collect (matches_of false l) no_matches).1, (collect (matches_of true l) no_matches).1).
Definition explainObjectlessEffect (e : Effect) (applicable : list compiledStatementRule)
    : list RuleMatch * list RuleMatch :=
  let l := selected e applicable objectless_selector in
  ((collect (matches_of false l) no_matches).1, (collect (matches_of true l) no_matches).1).
Definition explainNoObjectEffect (e : Effect) (applicable : list compiledStatementRule)
    : list RuleMatch * list RuleMatch :=
  if isResolvedOnlyFunctionEffect e then explainResolvedOnlyFunctionEffect e applicable
  else if isObjectlessEffect e then explainObjectlessEffect e applicable
  else ([], []).

Definition slot_selector (e : Effect) (i : nat) (r : compiledStatementRule) : option string :=
  let (ok, selector) := ruleMatchesObjectSlot r e i in if ok then Some selector else None.

(** One iteration of the object loop: the coverage record and the deny rules seen. *)
Definition explainObject (e : Effect) (applicable : list compiledStatementRule) (i : nat) (obj : ObjectRef)
    (deny : list RuleMatch * gset string) : ObjectCoverage * (list RuleMatch * gset string) :=
  let l := selected e applicable (slot_selector e i) in
  let covering := matches_of false l in
  ({| oc_Index := i; oc_Object := obj; oc_ResolvedObject := resolvedObjectForSlot e i;
      oc_Covered := negb (bool_decide (length covering = 0%nat)); oc_CoveringRules := covering;
      oc_UncoveredReason := if bool_decide (length covering = 0%nat)
                            then "no matching non-deny rule covers object" else "" |},
   collect (matches_of true l) deny).

Fixpoint explainObjects (e : Effect) (applicable : list compiledStatementRule) (i : nat) (objs : list ObjectRef)
    (deny : list RuleMatch * gset string) : list ObjectCoverage * (list RuleMatch * gset string) :=
  match objs with
  | [] => ([], deny)
  | obj :: objs =>
      let (cov, deny) := explainObject e applicable i obj deny in
      let (covs, deny) := explainObjects e applicable (S i) objs deny in
      (cov :: covs, deny)
  end.

Definition explainEffect (index : nat) (e : Effect) (applicable : list compiledStatementRule)
    : effectDecision * EffectExplanation :=
  let mk covs covering deny := {|
    ex_Index := index; ex_Group := eff_Group e; ex_Subtype := eff_Subtype e;
    ex_Resolution := eff_Resolution e; ex_Coverage := covs; ex_CoveringRules := covering; ex_DenyRules := deny |} in
  (evaluateEffect e applicable,
   match eff_Objects e with
   | [] => let (covering, deny) := explainNoObjectEffect e applicable in mk [] covering deny
   | objs => let (covs, deny) := explainObjects e applicable 0 objs no_matches in mk covs [] deny.1
   end).

(** The decision is optional as in [EvaluateP]: [None] is a panic. *)
Definition ExplainStatement (stmt : ClassifiedStatement) (rs : option RuleSet) (svc : string) : StatementExplanation :=
  match rs with
  | None => {| se_Decision := Some (implicitDeny stmt 0 "policy not loaded"); se_ApplicableRules := []; se_Effects := [] |}
  | Some rs =>
      let applicable := statementRulesFor rs svc in
      let per := imap (λ i e, explainEffect i e applicable) (cs_Effects stmt) in
      let names := rule_name <$> applicable in
      match cs_Effects stmt with
      | [] => {| se_Decision := Some (implicitDeny stmt 0 "no effects on statement");
                 se_ApplicableRules := names; se_Effects := [] |}
      | _ => {| se_Decision := foldEffects stmt per.*1; se_ApplicableRules := names; se_Effects := per.*2 |}
      end
  end.

(** ** Lemmas *)
Lemma collect_nonempty ms acc : (collect ms acc).1 = [] → acc.1 = [] ∧ (acc.2 = ∅ → ms = []).
Proof.
  revert acc. induction ms as [|m ms IH]; intros acc; simpl; [done|].
  intros [Ha _]%IH. revert Ha. unfold appendRuleMatchUnique. case_decide as Hd; simpl.
  - intros ->. split; [done|]. intros He. rewrite He in Hd. set_solver.
  - intros Ha. by apply app_nil in Ha as [_ ?].
Qed.

Lemma collect_nil ms : (collect ms no_matches).1 = [] ↔ ms = [].
Proof. split; [intros [_ Hm]%collect_nonempty; auto|by intros ->]. Qed.

Lemma matches_of_nil deny e rules sel :
  matches_of deny (selected e rules sel) = [] ↔
  ∀ r, r ∈ rules → is_deny r = deny → ruleMatchesEffectMeta r e = true → sel r = None.
Proof.
  unfold matches_of. rewrite fmap_nil_iff. split.
  - intros Hf r Hr Hd Hm. destruct (sel r) as [s|] eqn:Hs; [|done].
    assert ((r, s) ∈ List.filter (λ p, Bool.eqb (is_deny p.1) deny) (selected e rules sel)) as Hin;
      [|rewrite Hf in Hin; set_solver].
    apply filter_bool_elem. split; [|simpl; rewrite Hd; apply Bool.eqb_reflx].
    apply list_elem_of_omap. exists r. by rewrite Hm, Hs.
  - intros Ha. destruct (List.filter _ _) as [|[r s] l] eqn:Hf; [done|]. exfalso.
    assert ((r, s) ∈ List.filter (λ p, Bool.eqb (is_deny p.1) deny) (selected e rules sel)) as
      [Hin Hd%Bool.eqb_prop]%filter_bool_elem by (rewrite Hf; set_solver).
    apply list_elem_of_omap in Hin as (q & Hq & Hx).
    destruct (ruleMatchesEffectMeta q e) eqn:Hm; [|done].
    destruct (sel q) eqn:Hs; [|done]. simpl in Hx. injection Hx as -> ->. simpl in Hd.
    by rewrite (Ha r Hq Hd Hm) in Hs.
Qed.

Lemma resolved_selector_hit r e :
  resolvedOnlyFunctionRuleSelector r (eff_ResolvedObjects e) = None ↔ resolved_only_hit r e = false.
Proof.
  unfold resolved_only_hit. induction (eff_ResolvedObjects e) as [|ro ros IH]; simpl; [done|].
  destruct (resolvedOnlyFunctionRuleMatches r ro), (hasObjectSelectors r), (functionMatches r ro); simpl; done.
Qed.

Lemma slot_selector_hit e i r : slot_selector e i r = None ↔ slot_hit r e (Some i) = false.
Proof.
  unfold slot_selector, slot_hit. destruct (ruleMatchesObjectSlot r e i) as [[] sel]; simpl; done.
Qed.

(** [slot_none sel s]: the selector search of the explanation agrees with the
    evaluator's test on slot [s]. *)
Lemma selected_spec deny e rules sel s :
  (∀ r, sel r = None ↔ slot_hit r e s = false) →
  matches_of deny (selected e rules sel) = [] ↔
  ∀ r, r ∈ rules → is_deny r = deny → applies r e s = false.
Proof.
  intros Hs. rewrite matches_of_nil. unfold applies. split.
  - intros Ha r Hr Hd. destruct (ruleMatchesEffectMeta r e) eqn:Hm; [|done]. by apply Hs, Ha.
  - intros Ha r Hr Hd Hm. apply Hs. specialize (Ha r Hr Hd). by rewrite Hm in Ha.
Qed.

Lemma covers_false e s rules :
  existsb (covers e s) rules = false ↔ ∀ r, r ∈ rules → is_deny r = false → applies r e s = false.
Proof.
  rewrite existsb_false_elem. unfold covers. split.
  - intros Ha r Hr Hd. specialize (Ha r Hr). by rewrite Hd in Ha.
  - intros Ha r Hr. destruct (is_deny r) eqn:Hd; [done|]. by apply Ha.
Qed.

Lemma explainObjects_coverage e rules objs i deny cov :
  cov ∈ (explainObjects e rules i objs deny).1 →
  oc_Covered cov = existsb (covers e (Some (oc_Index cov))) rules.
Proof.
  revert i deny. induction objs as [|o objs IH]; intros i deny; simpl; [set_solver|].
  destruct (explainObjects e rules (S i) objs _) as [covs d] eqn:He. simpl.
  intros [->|Hin]%elem_of_cons; [|eapply IH; by rewrite He]. simpl.
  pose proof (selected_spec false e rules (slot_selector e i) (Some i) (slot_selector_hit e i)) as Hs.
  rewrite <-covers_false in Hs.
  destruct (existsb _ _) eqn:Hx; [|by rewrite (proj2 Hs)].
  apply negb_true_iff, bool_decide_eq_false. intros Hl%nil_length_inv. by apply Hs in Hl.
Qed.

Lemma explainObjects_indices e rules objs i deny :
  oc_Index <$> (explainObjects e rules i objs deny).1 = seq i (length objs).
Proof.
  revert i deny. induction objs as [|o objs IH]; intros i deny; [done|]. simpl.
  destruct (explainObjects e rules (S i) objs _) as [covs d] eqn:He. simpl. f_equal.
  rewrite <-(IH (S i) (collect (matches_of true (selected e rules (slot_selector e i))) deny)).
  by rewrite He.
Qed.

Definition no_deny (e : Effect) (rules : list compiledStatementRule) (s : option nat) : Prop :=
  ∀ r, r ∈ rules → is_deny r = true → applies r e s = false.

Lemma collect_seen ms acc : (acc.1 = [] → acc.2 = ∅) →
  (collect ms acc).1 = [] → (collect ms acc).2 = ∅.
Proof.
  revert acc. induction ms as [|m ms IH]; intros acc Ha; simpl; [done|].
  apply IH. unfold appendRuleMatchUnique. case_decide; simpl; [done|]. by intros [_ ?]%app_nil.
Qed.

Lemma explainObjects_deny e rules objs i deny : (deny.1 = [] → deny.2 = ∅) →
  (explainObjects e rules i objs deny).2.1 = [] ↔
  deny.1 = [] ∧ ∀ j, (i ≤ j < i + length objs)%nat → no_deny e rules (Some j).
Proof.
  revert i deny. induction objs as [|o objs IH]; intros i deny Hd; simpl.
  { split; [intros ->; split; [done|intros; lia]|tauto]. }
  set (ms := matches_of true (selected e rules (slot_selector e i))).
  destruct (explainObjects e rules (S i) objs (collect ms deny)) as [covs d] eqn:He. simpl.
  pose proof (IH (S i) (collect ms deny)) as IHi. rewrite He in IHi. simpl in IHi. rewrite IHi.
  2:{ by apply collect_seen. }
  pose proof (selected_spec true e rules (slot_selector e i) (Some i) (slot_selector_hit e i)) as Hs.
  fold ms in Hs. split.
  - intros [Hc Hj]. apply collect_nonempty in Hc as [H1' H2']. split; [done|].
    intros j Hrange. destruct (decide (j = i)) as [->|]; [unfold no_deny; apply Hs; auto|]. apply Hj. lia.
  - intros [Hn Hj]. assert (ms = []) as -> by (apply (proj2 Hs), (Hj i); lia). split; [done|].
    intros j Hrange. apply Hj. lia.
Qed.

Lemma existsb_denied e rules : slots e ≠ [] →
  existsb (denied_by e) rules = false ↔ ∀ s, s ∈ slots e → no_deny e rules s.
Proof.
  intros _. rewrite existsb_false_elem. unfold denied_by, no_deny. split.
  - intros Ha s Hs r Hr Hd. specialize (Ha r Hr). rewrite Hd in Ha. simpl in Ha.
    rewrite existsb_false_elem in Ha. auto.
  - intros Ha r Hr. destruct (is_deny r) eqn:Hd; [|done]. apply existsb_false_elem. auto.
Qed.

Lemma explainEffect_objects i e rules : eff_Objects e ≠ [] →
  let ex := (explainEffect i e rules).2 in
  (ex_DenyRules ex = [] ↔ existsb (denied_by e) rules = false) ∧
  oc_Index <$> ex_Coverage ex = seq 0 (length (eff_Objects e)) ∧
  ∀ cov, cov ∈ ex_Coverage ex → oc_Covered cov = existsb (covers e (Some (oc_Index cov))) rules.
Proof.
  intros Hne. unfold explainEffect. destruct (eff_Objects e) as [|o os] eqn:Ho; [done|].
  pose proof (slots_objects e o os Ho) as Hs. rewrite Ho in Hs.
  destruct (explainObjects e rules 0 (o :: os) no_matches) as [covs deny] eqn:Hx.
  cbn [snd ex_DenyRules ex_Coverage]. split_and!.
  - pose proof (explainObjects_deny e rules (o :: os) 0 no_matches (λ _, eq_refl)) as Hd.
    rewrite Hx in Hd. cbn [snd fst] in Hd. rewrite Hd, existsb_denied by (by rewrite Hs). rewrite Hs. split.
    + intros [_ Ha] s (j & -> & Hj)%list_elem_of_fmap. apply elem_of_seq in Hj. apply Ha. lia.
    + intros Ha. split; [done|]. intros j Hj. apply Ha, list_elem_of_fmap. exists j.
      split; [done|]. apply elem_of_seq. lia.
  - pose proof (explainObjects_indices e rules (o :: os) 0 no_matches) as Hi. by rewrite Hx in Hi.
  - intros cov Hc. eapply (explainObjects_coverage e rules (o :: os) 0 no_matches). by rewrite Hx.
Qed.

Lemma explainEffect_no_objects i e rules : eff_Objects e = [] →
  let ex := (explainEffect i e rules).2 in
  (ex_DenyRules ex = [] ↔ existsb (denied_by e) rules = false) ∧
  (ex_CoveringRules ex = [] ↔ ∀ s, s ∈ slots e → existsb (covers e s) rules = false).
Proof.
  intros Ho. unfold explainEffect, explainNoObjectEffect. rewrite Ho.
  destruct (isResolvedOnlyFunctionEffect e) eqn:Hr; [|destruct (isObjectlessEffect e) eqn:Hl].
  - assert (slots e = [None]) as Hs by (unfold slots; by rewrite Ho, Hr).
    cbn [snd ex_DenyRules ex_CoveringRules explainResolvedOnlyFunctionEffect].
    rewrite !collect_nil, existsb_denied by (by rewrite Hs). rewrite Hs.
    setoid_rewrite list_elem_of_singleton. setoid_rewrite covers_false.
    split; rewrite (selected_spec _ e rules _ None); unfold no_deny; try naive_solver;
      intros r; unfold slot_hit; rewrite Hr; apply resolved_selector_hit.
  - assert (slots e = [None]) as Hs by (unfold slots; by rewrite Ho, Hr, Hl).
    cbn [snd ex_DenyRules ex_CoveringRules explainObjectlessEffect].
    rewrite !collect_nil, existsb_denied by (by rewrite Hs). rewrite Hs.
    setoid_rewrite list_elem_of_singleton. setoid_rewrite covers_false.
    split; rewrite (selected_spec _ e rules _ None); unfold no_deny; try naive_solver;
      intros r; unfold slot_hit, objectless_selector; rewrite Hr; by destruct (coversAllObjects r).
  - assert (slots e = []) as Hs by (unfold slots; by rewrite Ho, Hr, Hl).
    simpl. rewrite Hs. split; [|set_solver]. split; [|done]. intros _.
    apply existsb_false_elem. intros r _. unfold denied_by. rewrite Hs. apply andb_false_r.
Qed.

Lemma explain_fst (rules : list compiledStatementRule) effs :
  (imap (λ i e, explainEffect i e rules) effs).*1 = (λ e, evaluateEffect e rules) <$> effs.
Proof. rewrite fmap_imap. apply list_eq. intros j. rewrite list_lookup_imap, list_lookup_fmap. by destruct (effs !! j). Qed.

(** Explanations are faithful: the decision in an explanation is the
    decision Evaluate returns, an effect lists deny rules exactly when some
    applicable rule denies it, each object appears once, in order, and is reported
    covered exactly when the evaluator finds a covering rule for it, and an effect
    without objects lists covering rules exactly when it is covered. *)
Theorem ExplainStatement_faithful stmt rs svc :
  let x := ExplainStatement stmt (Some rs) svc in
  let rules := statementRulesFor rs svc in
  se_Decision x = EvaluateP stmt (Some rs) svc ∧
  ∀ i ex, se_Effects x !! i = Some ex → ∃ e, cs_Effects stmt !! i = Some e ∧
    (ex_DenyRules ex = [] ↔ existsb (denied_by e) rules = false) ∧
    (eff_Objects e = [] →
       ex_CoveringRules ex = [] ↔ ∀ s, s ∈ slots e → existsb (covers e s) rules = false) ∧
    (eff_Objects e ≠ [] →
       oc_Index <$> ex_Coverage ex = seq 0 (length (eff_Objects e)) ∧
       ∀ cov, cov ∈ ex_Coverage ex → oc_Covered cov = existsb (covers e (Some (oc_Index cov))) rules).
Proof.
  cbv zeta. unfold ExplainStatement, EvaluateP. destruct (cs_Effects stmt) as [|e0 es] eqn:He; [done|].
  rewrite <-He. cbn [se_Decision se_Effects]. rewrite explain_fst. split; [done|].
  intros i ex. rewrite list_lookup_fmap, list_lookup_imap.
  destruct (cs_Effects stmt !! i) as [e|]; [|done]. intros [= <-]. exists e. split; [done|].
  destruct (decide (eff_Objects e = [])) as [Ho|Ho].
  - destruct (explainEffect_no_objects i e (statementRulesFor rs svc) Ho) as [Hd Hc]. done.
  - destruct (explainEffect_objects i e (statementRulesFor rs svc) Ho) as (Hd & Hi & Hc). done.
Qed.
End explain.
