(* ===== verification/AuditChain.v ===== *)
(** * The tamper-evident audit chain
    (internal/audit: sequence_allocator.go, sink_chain.go, integrity.go)

    The shared (sequence, generation) allocator, the per-sink HMAC chain with its
    compute/commit tokens and fatal latch, and the wrapper that stamps JSON
    payloads.  HMAC and the JSON codec are parameters. *)

From stdpp Require Import pretty.
From S2P Require Import Prelude.
Open Scope Z_scope.

Definition MaxUint32 : Z := 4294967295.

(** ** Sequence allocator *)
Module Alloc.
Record SequenceAllocator := { sequence : Z; generation : Z }.
Record AllocatorState := { as_Sequence : Z; as_Generation : Z }.
Inductive AllocError := ErrSequenceOverflow | ErrGenerationOverflow | ErrInvalidAllocatorState.

Definition NewSequenceAllocator : SequenceAllocator := {| sequence := -1; generation := 0 |}.

Definition Next (a : SequenceAllocator) : Result AllocError (Z * Z) * SequenceAllocator :=
  if sequence a =? MaxInt64 then (Err ErrSequenceOverflow, a)
  else let a := {| sequence := sequence a + 1; generation := generation a |} in
       (Ok (sequence a, generation a), a).

Definition NextGeneration (a : SequenceAllocator) : Result AllocError Z * SequenceAllocator :=
  if generation a =? MaxUint32 then (Err ErrGenerationOverflow, a)
  else let a := {| sequence := -1; generation := generation a + 1 |} in (Ok (generation a), a).

Definition State (a : SequenceAllocator) : AllocatorState :=
  {| as_Sequence := sequence a; as_Generation := generation a |}.

Definition Restore (st : AllocatorState) (a : SequenceAllocator) : Result AllocError unit * SequenceAllocator :=
  if as_Sequence st <? -1 then (Err ErrInvalidAllocatorState, a)
  else (Ok tt, {| sequence := as_Sequence st; generation := as_Generation st |}).

(** Machine-width invariant: the counters stay in int64 and uint32. *)
Definition wf (a : SequenceAllocator) : Prop :=
  -1 ≤ sequence a ≤ MaxInt64 ∧ 0 ≤ generation a ≤ MaxUint32.

Inductive op := OpNext | OpNextGeneration.
(** The (generation, sequence) tuples handed out by a run of operations. *)
Fixpoint run (ops : list op) (a : SequenceAllocator) : list (Z * Z) * SequenceAllocator :=
  match ops with
  | [] => ([], a)
  | OpNext :: ops =>
      match Next a with
      | (Ok (s, g), a) => let (l, a) := run ops a in ((g, s) :: l, a)
      | (Err _, a) => run ops a
      end
  | OpNextGeneration :: ops => run ops (NextGeneration a).2
  end.

Definition lex_lt (x y : Z * Z) : Prop := x.1 < y.1 ∨ (x.1 = y.1 ∧ x.2 < y.2).

Lemma Next_wf a : wf a → wf (Next a).2.
Proof.
  unfold wf, Next. destruct (Z.eqb_spec (sequence a) MaxInt64); simpl; [done|]. lia.
Qed.

Lemma NextGeneration_wf a : wf a → wf (NextGeneration a).2.
Proof.
  unfold wf, NextGeneration. unfold MaxInt64, MaxUint32 in *.
  destruct (Z.eqb_spec (generation a) 4294967295); simpl; [done|]. lia.
Qed.

(** No (sequence, generation) tuple is ever issued twice: across any run of
    Next and NextGeneration, overflow errors included, the tuples handed out are
    strictly increasing in (generation, sequence) order, above the starting state,
    and the counters never leave int64 and uint32. *)
Theorem alloc_strictly_increasing ops a :
  wf a → wf (run ops a).2 ∧ StronglySorted lex_lt (run ops a).1 ∧
  Forall (λ t, lex_lt (generation a, sequence a) t ∧ 0 ≤ t.2 ≤ MaxInt64) (run ops a).1.
Proof.
  revert a. induction ops as [|[] ops IH]; intros a Hwf; simpl.
  - split_and!; [done|constructor|constructor].
  - pose proof (Next_wf a Hwf) as Hw. unfold Next in *.
    destruct (Z.eqb_spec (sequence a) MaxInt64); simpl in *; [by apply IH|].
    destruct (IH _ Hw) as (Hw' & Hs & Hf). simpl in Hf.
    destruct (run ops _) as [l a'] eqn:Hr. simpl in *. split_and!; [done| |].
    + constructor; [done|]. eapply Forall_impl; [exact Hf|]. by intros ? [? _].
    + constructor; [split; [right; simpl; lia|simpl; destruct Hwf; lia]|].
      eapply Forall_impl; [exact Hf|]. intros [g s]. unfold lex_lt. simpl. lia.
  - pose proof (NextGeneration_wf a Hwf) as Hw. unfold NextGeneration in *.
    destruct (Z.eqb_spec (generation a) MaxUint32); simpl in *; [by apply IH|].
    destruct (IH _ Hw) as (Hw' & Hs & Hf). split_and!; [done|done|].
    eapply Forall_impl; [exact Hf|]. intros [g s]. unfold lex_lt. simpl. lia.
Qed.

Lemma alloc_strictly_increasing_witness :
  StronglySorted lex_lt (run [OpNext; OpNext; OpNextGeneration; OpNext] NewSequenceAllocator).1 ∧
  (run [OpNext; OpNext; OpNextGeneration; OpNext] NewSequenceAllocator).1 = [(0, 0); (0, 1); (1, 0)].
Proof.
  split; [|reflexivity].
  apply (alloc_strictly_increasing [OpNext; OpNext; OpNextGeneration; OpNext] NewSequenceAllocator).
  unfold wf, MaxInt64, MaxUint32. simpl. lia.
Defined.

Lemma Restore_State a b : (Restore (State a) b).1 = Ok tt → (Restore (State a) b).2 = a.
Proof. unfold Restore, State. simpl. destruct a as [s g]; simpl. by destruct (s <? -1). Qed.
End Alloc.

(** ** Sink chain *)
Definition MinKeyLength : Z := 32.

(** crypto/hmac over SHA-256 and SHA-512: raw digests of a keyed message. *)
Class HmacLib := { hmac_sha256 : string → string → string; hmac_sha512 : string → string → string }.

Definition hex_digit (n : nat) : ascii :=
  if (n <? 10)%nat then ascii_of_nat (48 + n) else ascii_of_nat (87 + n).
(** [hex.EncodeToString]. *)
Fixpoint hex_EncodeToString (s : string) : string :=
  match s with
  | EmptyString => EmptyString
  | String c s => String (hex_digit (nat_of_ascii c / 16)) (String (hex_digit (nat_of_ascii c mod 16)) (hex_EncodeToString s))
  end.
Definition is_hex_digit (c : ascii) : bool := byte_in "0" "9" c || byte_in "a" "f" c || byte_in "A" "F" c.
(** [hex.DecodeString] succeeds on an even number of hex digits. *)
Definition hex_decodes (s : string) : bool := Nat.even (String.length s) && str_forall is_hex_digit s.

(** The bytes fed to the HMAC, separators included. *)
Definition preimage (formatVersion sequence : Z) (prevHash payload : string) : string :=
  pretty formatVersion +:+ "|" +:+ pretty sequence +:+ "|" +:+ prevHash +:+ "|" +:+ payload.

Section chain.
Context `{HmacLib}.

Definition computeIntegrityHash (key algorithm : string) (formatVersion sequence : Z) (prevHash payload : string)
    : option string :=
  let msg := preimage formatVersion sequence prevHash payload in
  if String.eqb algorithm "" then Some (hex_EncodeToString (hmac_sha256 key msg))
  else if String.eqb algorithm "hmac-sha512" then Some (hex_EncodeToString (hmac_sha512 key msg))
  else if negb (String.eqb algorithm "hmac-sha256") then None
  else Some (hex_EncodeToString (hmac_sha256 key msg)).

(** [sc_id] is the identity of the [*SinkChain]. *)
Record SinkChain := {
  sc_id : nat; sc_key : string; sc_algorithm : string; sc_generation : Z; sc_prevHash : string; sc_fatal : bool
}.
Record SinkChainState := { ss_Generation : Z; ss_PrevHash : string; ss_Fatal : bool }.
Record ComputeResult := {
  cr_entryHash : string; cr_prevHash : string; cr_sequence : Z; cr_generation : Z; cr_chain : nat
}.
Inductive ChainError :=
| ErrKeyTooShort | ErrUnsupportedAlgorithm | ErrNilResult | ErrFatalIntegrity | ErrCrossChainResult
| ErrBackwardsGeneration | ErrStaleResult | ErrInvalidChainState.

Definition set_fatal (c : SinkChain) : SinkChain :=
  Build_SinkChain (sc_id c) (sc_key c) (sc_algorithm c) (sc_generation c) (sc_prevHash c) true.

Definition NewSinkChain (id : nat) (key algorithm : string) : Result ChainError SinkChain :=
  if Z.of_nat (String.length key) <? MinKeyLength then Err ErrKeyTooShort
  else
    let algorithm := if String.eqb algorithm "" then "hmac-sha256" else algorithm in
    if String.eqb algorithm "hmac-sha256" || String.eqb algorithm "hmac-sha512"
    then Ok (Build_SinkChain id key algorithm 0 "" false)
    else Err ErrUnsupportedAlgorithm.

Definition Compute_ (c : SinkChain) (formatVersion sequence generation : Z) (payload : string)
    : Result ChainError ComputeResult :=
  if sc_fatal c then Err ErrFatalIntegrity
  else
    let prev := if negb (generation =? sc_generation c) then "" else sc_prevHash c in
    match computeIntegrityHash (sc_key c) (sc_algorithm c) formatVersion sequence prev payload with
    | None => Err ErrUnsupportedAlgorithm
    | Some hash => Ok {| cr_entryHash := hash; cr_prevHash := prev; cr_sequence := sequence;
                         cr_generation := generation; cr_chain := sc_id c |}
    end.

(** [Commit]: [None] is the nil token. *)
Definition Commit (c : SinkChain) (result : option ComputeResult) : Result ChainError unit * SinkChain :=
  match result with
  | None => (Err ErrNilResult, c)
  | Some r =>
      if sc_fatal c then (Err ErrFatalIntegrity, c)
      else if negb (Nat.eqb (cr_chain r) (sc_id c)) then (Err ErrCrossChainResult, set_fatal c)
      else if cr_generation r <? sc_generation c then (Err ErrBackwardsGeneration, set_fatal c)
      else
        let advance := Build_SinkChain (sc_id c) (sc_key c) (sc_algorithm c) (cr_generation r) (cr_entryHash r) (sc_fatal c) in
        if cr_generation r =? sc_generation c then
          if negb (String.eqb (cr_prevHash r) (sc_prevHash c)) then (Err ErrStaleResult, set_fatal c)
          else (Ok tt, advance)
        else
          if negb (String.eqb (cr_prevHash r) "") then (Err ErrStaleResult, set_fatal c)
          else (Ok tt, advance)
  end.

Definition Fatal (c : SinkChain) : SinkChain := set_fatal c.

Definition chain_State (c : SinkChain) : SinkChainState :=
  {| ss_Generation := sc_generation c; ss_PrevHash := sc_prevHash c; ss_Fatal := sc_fatal c |}.

Definition validatePrevHash (algorithm prevHash : string) : bool :=
  if String.eqb prevHash "" then true
  else
    let wantHex := if String.eqb algorithm "hmac-sha512" then 128 else 64 in
    if negb (Z.of_nat (String.length prevHash) =? wantHex) then false
    else hex_decodes prevHash.

Definition chain_Restore (c : SinkChain) (generation : Z) (prevHash : string) (fatal : bool)
    : Result ChainError unit * SinkChain :=
  if negb (validatePrevHash (sc_algorithm c) prevHash) then (Err ErrInvalidChainState, c)
  else (Ok tt, Build_SinkChain (sc_id c) (sc_key c) (sc_algorithm c) generation prevHash fatal).

(** ** Runs of sink chains

    Several sinks and any callers. The fields of a token are private to the package, so the
    tokens callers can present are nil, the zero value, and what Compute returned, at any
    time and on any sink; each is kept with what it was computed from. Sinks have positive
    identities; 0 is the nil pointer in the zero token. *)
Record Issued := mkIssued { i_tok : ComputeResult; i_formatVersion : Z; i_payload : string }.
Record Sinks := mkSinks { sinks : gmap nat SinkChain; issued : list Issued }.

Inductive presented := PNil | PZero | PIssued (i : nat).
Inductive chain_op :=
| OCompute (k : nat) (formatVersion sequence generation : Z) (payload : string)
| OCommit (k : nat) (tok : presented)
| OFatal (k : nat).

Definition zero_token : Issued := mkIssued (Build_ComputeResult "" "" 0 0 0) 0 "".
Definition token_of (s : Sinks) (p : presented) : option Issued :=
  match p with PNil => None | PZero => Some zero_token | PIssued i => issued s !! i end.

(** The entry a step commits, with its sink. *)
Definition chain_step (o : chain_op) (s : Sinks) : list (nat * Issued) * Sinks :=
  match o with
  | OCompute k f q g p =>
      match sinks s !! k with
      | None => ([], s)
      | Some c =>
          match Compute_ c f q g p with
          | Ok r => ([], mkSinks (sinks s) (issued s ++ [mkIssued r f p]))
          | Err _ => ([], s)
          end
      end
  | OCommit k tok =>
      match sinks s !! k with
      | None => ([], s)
      | Some c =>
          let t := token_of s tok in
          let '(res, c') := Commit c (i_tok <$> t) in
          (match res, t with Ok _, Some t => [(k, t)] | _, _ => [] end, mkSinks (<[k := c']> (sinks s)) (issued s))
      end
  | OFatal k => ([], mkSinks (alter Fatal k (sinks s)) (issued s))
  end.
Fixpoint chain_run (ops : list chain_op) (s : Sinks) : list (nat * Issued) * Sinks :=
  match ops with
  | [] => ([], s)
  | o :: ops =>
      let (l1, s1) := chain_step o s in
      let (l2, s2) := chain_run ops s1 in (l1 ++ l2, s2)
  end.

(** The entries of a sink. *)
Definition log_of (k : nat) (l : list (nat * Issued)) : list Issued :=
  omap (λ x, if (x.1 =? k)%nat then Some x.2 else None) l.

(** A committed token continues the chain, or opens a later generation from the
    empty hash. *)
Definition continues (generation : Z) (prevHash : string) (r : ComputeResult) : Prop :=
  (cr_generation r = generation ∧ cr_prevHash r = prevHash) ∨
  (generation < cr_generation r ∧ cr_prevHash r = "").
(** The entry's hash is the HMAC of what was passed to Compute and of the hash before it. *)
Definition hashed (key algorithm : string) (e : Issued) : Prop :=
  computeIntegrityHash key algorithm (i_formatVersion e) (cr_sequence (i_tok e)) (cr_prevHash (i_tok e)) (i_payload e)
  = Some (cr_entryHash (i_tok e)).
Fixpoint linked (key algorithm : string) (generation : Z) (prevHash : string) (log : list Issued) : Prop :=
  match log with
  | [] => True
  | e :: log =>
      continues generation prevHash (i_tok e) ∧ hashed key algorithm e ∧
      linked key algorithm (cr_generation (i_tok e)) (cr_entryHash (i_tok e)) log
  end.

Lemma Commit_Ok c r c' : Commit c (Some r) = (Ok tt, c') →
  sc_fatal c = false ∧ cr_chain r = sc_id c ∧ continues (sc_generation c) (sc_prevHash c) r ∧
  c' = Build_SinkChain (sc_id c) (sc_key c) (sc_algorithm c) (cr_generation r) (cr_entryHash r) false.
Proof.
  unfold Commit, continues. destruct (sc_fatal c) eqn:Hf; [done|].
  destruct (Nat.eqb_spec (cr_chain r) (sc_id c)); simpl; [|done].
  destruct (Z.ltb_spec (cr_generation r) (sc_generation c)); [done|].
  destruct (Z.eqb_spec (cr_generation r) (sc_generation c)).
  - destruct (String.eqb_spec (cr_prevHash r) (sc_prevHash c)); simpl; [|done].
    intros [= <-]. split_and!; [done|done|by left|done].
  - destruct (String.eqb_spec (cr_prevHash r) ""); simpl; [|done].
    intros [= <-]. split_and!; [done|done|right; split; [lia|done]|done].
Qed.

Lemma Commit_Err c r e c' : Commit c (Some r) = (Err e, c') → c' = set_fatal c.
Proof.
  unfold Commit. destruct c as [id k a g p f]; simpl. destruct f; simpl; [by intros [= <- <-]|].
  repeat case_match; intros; by simplify_eq.
Qed.

(** Sinks with their identities, and tokens that were computed. *)
Record sinks_wf (s : Sinks) : Prop := mkSinksWf {
  sw_nil : sinks s !! 0%nat = None;
  sw_id : ∀ k c, sinks s !! k = Some c → sc_id c = k;
  sw_issued : ∀ e c, e ∈ issued s → sinks s !! cr_chain (i_tok e) = Some c → hashed (sc_key c) (sc_algorithm c) e;
}.

Lemma Commit_same c t res c' : Commit c t = (res, c') →
  sc_id c' = sc_id c ∧ sc_key c' = sc_key c ∧ sc_algorithm c' = sc_algorithm c.
Proof.
  destruct t as [r|]; [|by intros [= <- <-]]. destruct res as [[]|e].
  - by intros (_ & _ & _ & ->)%Commit_Ok.
  - by intros ->%Commit_Err.
Qed.

(** A sink keeps its identity, key and algorithm. *)
Lemma sinks_wf_put s k c c' : sinks_wf s → sinks s !! k = Some c →
  sc_id c' = sc_id c → sc_key c' = sc_key c → sc_algorithm c' = sc_algorithm c →
  sinks_wf (mkSinks (<[k := c']> (sinks s)) (issued s)).
Proof.
  intros [Hn Hi Hh] Hk Hid Hkey Halg. constructor; cbn.
  - rewrite lookup_insert_ne; [done|]. intros ->. congruence.
  - intros k0 c0. destruct (decide (k = k0)) as [->|Hne].
    + rewrite lookup_insert_eq. intros [= <-]. rewrite Hid. by apply Hi.
    + rewrite lookup_insert_ne by done. apply Hi.
  - intros e c0 He. destruct (decide (k = cr_chain (i_tok e))) as [->|Hne].
    + rewrite lookup_insert_eq. intros [= <-]. rewrite Hkey, Halg. by apply Hh.
    + rewrite lookup_insert_ne by done. by apply Hh.
Qed.

Lemma chain_step_wf o s : sinks_wf s → sinks_wf (chain_step o s).2.
Proof.
  intros Hw. destruct o as [k f q g p|k tok|k]; cbn [chain_step].
  - destruct (sinks s !! k) as [c|] eqn:Hk; [|done]. unfold Compute_. destruct (sc_fatal c); [done|].
    destruct (computeIntegrityHash _ _ _ _ _ _) as [h|] eqn:Hc; [|done]. destruct Hw as [Hn Hi Hh]. constructor; cbn; [done..|].
    intros e c0 [He| ->%list_elem_of_singleton]%elem_of_app; [by apply Hh|]. cbn. rewrite (Hi k c Hk), Hk. by intros [= <-].
  - destruct (sinks s !! k) as [c|] eqn:Hk; [|done]. destruct (Commit c _) as [res c'] eqn:Hc.
    destruct (Commit_same _ _ _ _ Hc) as (? & ? & ?). by eapply sinks_wf_put.
  - destruct (sinks s !! k) as [c|] eqn:Hk.
    + replace (alter Fatal k (sinks s)) with (<[k := Fatal c]> (sinks s)); [by eapply sinks_wf_put|].
      apply map_eq. intros i. destruct (decide (k = i)) as [<-|Hne]; [by rewrite lookup_insert_eq, lookup_alter_eq, Hk|].
      by rewrite lookup_insert_ne, lookup_alter_ne.
    + replace (alter Fatal k (sinks s)) with (sinks s); [by destruct s|]. symmetry. apply alter_id. intros c Hc. congruence.
Qed.

(** What a step does to a sink: nothing but perhaps the latch, or it commits the next entry. *)
Lemma chain_step_sink o s k c : sinks_wf s → sinks s !! k = Some c →
  ∃ c', sinks (chain_step o s).2 !! k = Some c' ∧
    ((log_of k (chain_step o s).1 = [] ∧ (c' = c ∨ c' = set_fatal c)) ∨
     ∃ e, log_of k (chain_step o s).1 = [e] ∧ e ∈ issued s ∧ sc_fatal c = false ∧ cr_chain (i_tok e) = k ∧
       continues (sc_generation c) (sc_prevHash c) (i_tok e) ∧
       c' = Build_SinkChain k (sc_key c) (sc_algorithm c) (cr_generation (i_tok e)) (cr_entryHash (i_tok e)) false).
Proof.
  intros Hw Hk. destruct o as [k0 f q g p|k0 tok|k0]; cbn [chain_step].
  - exists c. destruct (sinks s !! k0) as [c0|]; [destruct (Compute_ _ _ _ _ _)|]; (split; [done|]; left; split; [done|by left]).
  - destruct (sinks s !! k0) as [c0|] eqn:Hk0; [|exists c; split; [done|]; left; split; [done|by left]]. destruct (Commit c0 _) as [res c'] eqn:Hc. cbn [fst snd sinks].
    destruct (decide (k0 = k)) as [->|Hne].
    2: { exists c. rewrite lookup_insert_ne by done. split; [done|]. left. split; [|by left].
         destruct res; [|done]. destruct (token_of s tok); [|done]. unfold log_of. cbn. by rewrite (proj2 (Nat.eqb_neq _ _)). }
    rewrite Hk in Hk0. injection Hk0 as <-. exists c'. rewrite lookup_insert_eq. split; [done|].
    destruct (token_of s tok) as [e|] eqn:Ht; cbn in Hc; [|injection Hc as <- <-; left; split; [done|by left]].
    destruct res as [[]|er]; [|apply Commit_Err in Hc as ->; left; split; [done|by right]]. right. exists e.
    apply Commit_Ok in Hc as (Hf & Hid & Hcont & ->). rewrite (sw_id _ Hw k c Hk) in *. unfold log_of. cbn. rewrite Nat.eqb_refl.
    split_and!; try done. destruct tok as [| |i]; cbn in Ht; [done| |by eapply list_elem_of_lookup_2].
    injection Ht as <-. cbn in Hid. subst k. pose proof (sw_nil _ Hw). congruence.
  - destruct (decide (k0 = k)) as [->|Hne].
    + exists (set_fatal c). cbn. rewrite lookup_alter_eq, Hk. split; [done|]. left. split; [done|by right].
    + exists c. cbn. rewrite lookup_alter_ne by done. split; [done|]. left. split; [done|by left].
Qed.

Lemma log_of_app k l1 l2 : log_of k (l1 ++ l2) = log_of k l1 ++ log_of k l2.
Proof. apply omap_app. Qed.

(** C36. The committed log of every sink is one linked hash chain. From sinks with
    their own identities, fresh or restored, let any callers compute, commit and latch on
    any sinks (and not restore again), presenting any token the package can give them: nil,
    the zero value, or what any Compute returned, stale, replayed, or of another sink. Then each
    entry committed on a sink was computed by that sink, carries the hash of the entry
    committed before it or the empty hash when it opens a strictly later generation, and its
    own hash is the keyed hash of its format version, sequence number, payload and that
    previous hash. *)
Theorem chain_log_linked ops s k c :
  sinks_wf s → sinks s !! k = Some c →
  linked (sc_key c) (sc_algorithm c) (sc_generation c) (sc_prevHash c) (log_of k (chain_run ops s).1) ∧
  Forall (λ e, cr_chain (i_tok e) = k) (log_of k (chain_run ops s).1).
Proof.
  revert s c. induction ops as [|o ops IH]; intros s c Hw Hk; [done|]. cbn [chain_run].
  pose proof (chain_step_wf o s Hw) as Hw1. destruct (chain_step_sink o s k c Hw Hk) as (c1 & Hk1 & Hcase).
  destruct (chain_step o s) as [l1 s1]. cbn [fst snd] in *. specialize (IH s1 c1 Hw1 Hk1).
  destruct (chain_run ops s1) as [l2 s2]. cbn [fst] in *. rewrite log_of_app.
  destruct Hcase as [[-> [->| ->]]|(e & -> & He & _ & Hid & Hcont & ->)]; [exact IH.. |]. destruct IH as [Hl Hf].
  split; [|by constructor]. cbn. split_and!; [done| |exact Hl]. apply (sw_issued _ Hw e c He). by rewrite Hid.
Qed.

Lemma chain_run_fatal ops s k c : sinks_wf s → sinks s !! k = Some c → sc_fatal c = true →
  log_of k (chain_run ops s).1 = [] ∧ sinks (chain_run ops s).2 !! k = Some c.
Proof.
  revert s. induction ops as [|o ops IH]; intros s Hw Hk Hf; [done|]. cbn [chain_run].
  pose proof (chain_step_wf o s Hw) as Hw1. destruct (chain_step_sink o s k c Hw Hk) as (c1 & Hk1 & Hcase).
  destruct (chain_step o s) as [l1 s1]. cbn [fst snd] in *.
  assert (c1 = c ∧ log_of k l1 = []) as [-> Hl].
  { destruct Hcase as [[-> [->| ->]]|(e & _ & _ & Hf' & _)]; [done| |congruence]. destruct c; cbn in *; by subst. }
  specialize (IH s1 Hw1 Hk1 Hf). destruct (chain_run ops s1) as [l2 s2]. cbn [fst snd] in *. by rewrite log_of_app, Hl.
Qed.

(** The fatal latch is sticky and total: a sink that rejected a token or was latched refuses
    every later Compute and Commit, and nothing is ever committed on it again. *)
Theorem fatal_latch ops s k c tok e c' :
  sinks_wf s → sinks s !! k = Some c → Commit c (Some tok) = (Err e, c') →
  let s' := mkSinks (<[k := c']> (sinks s)) (issued s) in
  log_of k (chain_run ops s').1 = [] ∧
  ∃ cf, sinks (chain_run ops s').2 !! k = Some cf ∧
    (∀ f q g p, Compute_ cf f q g p = Err ErrFatalIntegrity) ∧ (∀ r, Commit cf (Some r) = (Err ErrFatalIntegrity, cf)).
Proof.
  intros Hw Hk Hc s'. destruct (Commit_same _ _ _ _ Hc) as (Hi & Hy & Ha). apply Commit_Err in Hc as ->.
  assert (Hw' : sinks_wf s') by (by eapply sinks_wf_put).
  destruct (chain_run_fatal ops s' k (set_fatal c) Hw') as [Hl Hs]; [cbn; by rewrite lookup_insert_eq | done|].
  split; [done|]. exists (set_fatal c). split_and!; done.
Qed.
End chain.

(** ** The pre-image determines the record *)
Definition bar_free (s : string) : bool := str_forall (λ c, negb (Ascii.eqb c "|")) s.

Lemma bar_free_app s t : bar_free (s +:+ t) = bar_free s && bar_free t.
Proof.
  unfold bar_free. induction s as [|c s IH]; simpl; [done|]. rewrite IH. apply andb_assoc.
Qed.

Lemma pretty_N_char_bar x : Ascii.eqb (pretty_N_char x) "|" = false.
Proof. unfold pretty_N_char. by repeat case_match. Qed.

Lemma pretty_N_go_bar x s : bar_free s = true → bar_free (pretty_N_go x s) = true.
Proof.
  revert s. induction (N.lt_wf_0 x) as [x _ IH]; intros s Hs.
  destruct (decide (0 < x)%N) as [Hx|Hx].
  - rewrite pretty_N_go_step by done. apply IH; [apply N.div_lt; lia|].
    unfold bar_free in *. simpl. by rewrite pretty_N_char_bar.
  - replace x with 0%N by lia. by rewrite pretty_N_go_0.
Qed.

Lemma pretty_Z_bar (z : Z) : bar_free (pretty z) = true.
Proof.
  assert (∀ x : N, bar_free (pretty x) = true) as HN.
  { intros x. unfold pretty, pretty_N. case_decide; [done|]. by apply pretty_N_go_bar. }
  unfold pretty, pretty_Z. destruct z; [done|apply (HN (Npos _))|].
  apply (HN (Npos _)).
Qed.

(** A separator splits at its first occurrence. *)
Lemma bar_split s t s' t' : bar_free s = true → bar_free s' = true →
  s +:+ String "|" t = s' +:+ String "|" t' → s = s' ∧ t = t'.
Proof.
  revert s'. induction s as [|c s IH]; intros [|c' s'] Hs Hs' Heq; simpl in *.
  - by injection Heq as ->.
  - injection Heq as <- _. by simpl in Hs'.
  - injection Heq as -> _. by simpl in Hs.
  - injection Heq as <- Heq. apply andb_true_iff in Hs as [_ Hs]. apply andb_true_iff in Hs' as [_ Hs'].
    by destruct (IH s' Hs Hs' Heq) as [-> ->].
Qed.

Lemma preimage_inj fv s p q fv' s' p' q' : bar_free p = true → bar_free p' = true →
  preimage fv s p q = preimage fv' s' p' q' → fv = fv' ∧ s = s' ∧ p = p' ∧ q = q'.
Proof.
  unfold preimage. intros Hp Hp' Heq.
  apply bar_split in Heq as [->%(inj pretty) Heq]; [|apply pretty_Z_bar..].
  apply bar_split in Heq as [->%(inj pretty) Heq]; [|apply pretty_Z_bar..].
  by apply bar_split in Heq as [-> ->].
Qed.

Lemma hex_digit_inj n m : (n < 16)%nat → (m < 16)%nat → hex_digit n = hex_digit m → n = m.
Proof.
  unfold hex_digit. intros Hn Hm Heq. apply (f_equal nat_of_ascii) in Heq.
  destruct (Nat.ltb_spec n 10), (Nat.ltb_spec m 10);
    rewrite !nat_ascii_embedding in Heq by lia; lia.
Qed.

Lemma hex_EncodeToString_inj s t : hex_EncodeToString s = hex_EncodeToString t → s = t.
Proof.
  revert t. induction s as [|c s IH]; intros [|d t]; try done.
  cbn [hex_EncodeToString]. intros [= H1 H2 ->%IH]. f_equal.
  change (hex_digit (nat_of_ascii c / 16) = hex_digit (nat_of_ascii d / 16)) in H1.
  change (hex_digit (nat_of_ascii c mod 16) = hex_digit (nat_of_ascii d mod 16)) in H2.
  pose proof (nat_ascii_bounded c). pose proof (nat_ascii_bounded d).
  apply hex_digit_inj in H1; [|apply Nat.Div0.div_lt_upper_bound; lia..].
  apply hex_digit_inj in H2; [|apply Nat.mod_upper_bound; lia..].
  rewrite <-(ascii_nat_embedding c), <-(ascii_nat_embedding d). f_equal.
  rewrite (Nat.div_mod_eq (nat_of_ascii c) 16), (Nat.div_mod_eq (nat_of_ascii d) 16). congruence.
Qed.

Lemma validatePrevHash_bar alg p : validatePrevHash alg p = true → bar_free p = true.
Proof.
  unfold validatePrevHash. destruct (String.eqb_spec p "") as [->|]; [done|].
  destruct (negb _); [done|]. unfold hex_decodes. intros [_ Hp]%andb_true_iff. revert Hp.
  unfold bar_free. clear. induction p as [|c p IH]; simpl; [done|].
  intros [Hc Hp]%andb_true_iff. rewrite IH by done. rewrite andb_true_r.
  destruct (Ascii.eqb_spec c "|") as [->|]; done.
Qed.

(** These two messages are different and have the same keyed digest. *)
Definition collide `{HmacLib} (key m m' : string) : Prop :=
  m ≠ m' ∧ (hmac_sha256 key m = hmac_sha256 key m' ∨ hmac_sha512 key m = hmac_sha512 key m').

(** Records with the same hash, whose previous hashes hold no separator, agree. *)
Lemma same_hash_same_record `{HmacLib} key alg fv s p q fv' s' p' q' h :
  bar_free p = true → bar_free p' = true →
  computeIntegrityHash key alg fv s p q = Some h →
  computeIntegrityHash key alg fv' s' p' q' = Some h →
  (fv = fv' ∧ s = s' ∧ p = p' ∧ q = q') ∨ collide key (preimage fv s p q) (preimage fv' s' p' q').
Proof.
  intros Hp Hp' Hh Hh'.
  destruct (decide (preimage fv s p q = preimage fv' s' p' q')) as [Heq|Hne].
  { left. by apply preimage_inj. }
  right. split; [done|].
  unfold computeIntegrityHash in *. repeat case_match; simplify_eq.
  all: match goal with E : hex_EncodeToString _ = hex_EncodeToString _ |- _ =>
         apply hex_EncodeToString_inj in E; rewrite E; auto end.
Qed.

(** Tamper evidence of one record: two records with the same hash under the
    same key and algorithm, whose previous hashes are well-formed chain hashes,
    agree on format version, sequence number, previous hash and payload, unless the
    messages signed for the two are a collision of the underlying HMAC. *)
Theorem equal_hash_equal_record `{HmacLib} key alg fv s p q fv' s' p' q' h :
  validatePrevHash alg p = true → validatePrevHash alg p' = true →
  computeIntegrityHash key alg fv s p q = Some h →
  computeIntegrityHash key alg fv' s' p' q' = Some h →
  (fv = fv' ∧ s = s' ∧ p = p' ∧ q = q') ∨ collide key (preimage fv s p q) (preimage fv' s' p' q').
Proof. intros Hp%validatePrevHash_bar Hp'%validatePrevHash_bar. by apply same_hash_same_record. Qed.

(** ** The hashes of a chain *)

(** SHA-256 and SHA-512 digests have 32 and 64 bytes. *)
Class HmacLaws `{HmacLib} := {
  hmac256_length : ∀ k m, String.length (hmac_sha256 k m) = 32%nat;
  hmac512_length : ∀ k m, String.length (hmac_sha512 k m) = 64%nat;
}.

Definition known_algorithm (a : string) : Prop := a = "hmac-sha256" ∨ a = "hmac-sha512".

Lemma hex_length s : String.length (hex_EncodeToString s) = (2 * String.length s)%nat.
Proof. induction s as [|c s IH]; [done|]. cbn [hex_EncodeToString String.length]. rewrite IH. lia. Qed.

Lemma hex_decodes_hex s : hex_decodes (hex_EncodeToString s) = true.
Proof.
  unfold hex_decodes. rewrite hex_length, Nat.even_mul. cbn [Nat.even orb andb].
  assert (Hd : ∀ n, (n < 16)%nat → is_hex_digit (hex_digit n) = true).
  { intros n Hn. assert (Hin : n ∈ seq 0 16) by (apply elem_of_seq; lia).
    assert (Hall : Forall (λ n, is_hex_digit (hex_digit n) = true) (seq 0 16)) by (repeat constructor).
    rewrite Forall_forall in Hall. by apply Hall. }
  induction s as [|c s IH]; [done|]. cbn [hex_EncodeToString str_forall]. pose proof (nat_ascii_bounded c).
  rewrite IH, !Hd; [done | apply Nat.mod_upper_bound; lia | apply Nat.Div0.div_lt_upper_bound; lia].
Qed.

(** The hash of a known algorithm is one that Restore accepts. *)
Lemma computed_hash `{HmacLaws} k a fv q prev p : known_algorithm a →
  ∃ h, computeIntegrityHash k a fv q prev p = Some h ∧ validatePrevHash a h = true.
Proof.
  intros Ha. unfold computeIntegrityHash, validatePrevHash.
  destruct Ha as [->| ->]; cbn [String.eqb Ascii.eqb Bool.eqb negb]; eexists; (split; [reflexivity|]).
  - destruct (String.eqb _ ""); [done|]. by rewrite hex_length, hmac256_length, hex_decodes_hex.
  - destruct (String.eqb _ ""); [done|]. by rewrite hex_length, hmac512_length, hex_decodes_hex.
Qed.

Lemma hex_bar_free s : bar_free (hex_EncodeToString s) = true.
Proof.
  pose proof (hex_decodes_hex s) as [_ Hs]%andb_true_iff. revert Hs. unfold bar_free. generalize (hex_EncodeToString s) as t.
  induction t as [|c t IH]; [done|]. cbn. intros [Hc Ht]%andb_true_iff. rewrite IH by done. rewrite andb_true_r.
  destruct (Ascii.eqb_spec c "|") as [->|]; done.
Qed.

Lemma computed_bar_free `{HmacLib} k a fv q prev p h : computeIntegrityHash k a fv q prev p = Some h → bar_free h = true.
Proof. unfold computeIntegrityHash. repeat case_match; intros; simplify_eq; apply hex_bar_free. Qed.

(** ** The JSON wrapper (integrity.go) *)
(** The values [Decode] with [UseNumber] stores in an [any]; the fields of a
    [JObject] are those of a Go map, listed by increasing key. *)
Inductive json :=
| JNull
| JBool (b : bool)
| JNumber (literal : string)
| JString (s : string)
| JArray (l : list json)
| JObject (fields : list (string * json)).

(** A decoded [map[string]any]; [None] is the nil map. *)
Definition object := option (gmap string json).
Definition fields_to_map (fields : list (string * json)) : gmap string json :=
  fold_left (λ m kv, <[kv.1 := kv.2]> m) fields ∅.

Record IntegrityMetadata := { im_FormatVersion : Z; im_Sequence : Z; im_PrevHash : string; im_EntryHash : string }.
Definition IntegrityFormatVersion : Z := 2.
(** The struct as a decoder reads it back. *)
Definition metadata_json (m : IntegrityMetadata) : json :=
  JObject [("entry_hash", JString (im_EntryHash m)); ("format_version", JNumber (pretty (im_FormatVersion m)));
           ("prev_hash", JString (im_PrevHash m)); ("sequence", JNumber (pretty (im_Sequence m)))].

(** encoding/json: [Decoder.Decode] with [UseNumber] reads one value and leaves
    the rest of the input; the next [Decode] reports [io.EOF] when nothing but
    white space is left; [Marshal] prints a value, and a map whose "integrity"
    field holds an [IntegrityMetadata] struct. *)
Class JsonLib := {
  json_Decode : string → option (json * string);
  json_EOF : string → bool;
  json_Marshal : json → string;
  json_MarshalStamped : gmap string json → IntegrityMetadata → string
}.

(** [jsonInt64] on the values [UseNumber] produces ([json.Number.Int64] is
    [strconv.ParseInt] in base 10 and 64 bits); [jsonInt] is the same on a
    64-bit platform. *)
Definition jsonInt64 (v : option json) : option Z :=
  match v with Some (JNumber n) => ParseInt64 n | _ => None end.
Definition json_string (v : option json) : option string :=
  match v with Some (JString s) => Some s | _ => None end.

Definition integrityMetadataFromMap (v : option json) : option IntegrityMetadata :=
  match v with
  | Some (JObject fields) =>
      let m := fields_to_map fields in
      fv ← jsonInt64 (m !! "format_version");
      s ← jsonInt64 (m !! "sequence");
      p ← json_string (m !! "prev_hash");
      h ← json_string (m !! "entry_hash");
      Some {| im_FormatVersion := fv; im_Sequence := s; im_PrevHash := p; im_EntryHash := h |}
  | _ => None
  end.

Inductive WrapError :=
| WE_Parse | WE_Alloc (e : Alloc.AllocError) | WE_Chain (e : ChainError).
(** A call returns bytes, returns an error, or panics. *)
Inductive WrapResult := Wrapped (bytes : string) | WrapErr (e : WrapError) | WrapPanic.

Section wrapper.
Context `{HmacLib, JsonLib}.

Definition parseIntegrityPayloadUseNumber (payload : string) : option object :=
  match json_Decode payload with
  | Some (JObject fields, rest) => if json_EOF rest then Some (Some (fields_to_map fields)) else None
  | Some (JNull, rest) => if json_EOF rest then Some None else None
  | _ => None
  end.
Definition marshal_map (m : gmap string json) : string := json_Marshal (JObject (map_to_list m)).
Definition marshalCanonicalPayload (data : object) : string :=
  match data with Some m => marshal_map m | None => json_Marshal JNull end.

Record IntegrityChain := { ic_alloc : Alloc.SequenceAllocator; ic_chain : SinkChain }.

Definition NewIntegrityChainWithAlgorithm (id : nat) (key algorithm : string) : Result ChainError IntegrityChain :=
  let! chain := NewSinkChain id key algorithm in
  Ok {| ic_alloc := Alloc.NewSequenceAllocator; ic_chain := chain |}.
Definition NewIntegrityChain (id : nat) (key : string) : Result ChainError IntegrityChain :=
  if Z.of_nat (String.length key) <? MinKeyLength then Err ErrKeyTooShort
  else NewIntegrityChainWithAlgorithm id key "hmac-sha256".

Definition Wrap (payload : string) (c : IntegrityChain) : WrapResult * IntegrityChain :=
  match parseIntegrityPayloadUseNumber payload with
  | None => (WrapErr WE_Parse, c)
  | Some data =>
      let canonicalPayload := marshalCanonicalPayload data in
      match Alloc.Next (ic_alloc c) with
      | (Err e, alloc) => (WrapErr (WE_Alloc e), {| ic_alloc := alloc; ic_chain := ic_chain c |})
      | (Ok (seq, gen), alloc) =>
          let c := {| ic_alloc := alloc; ic_chain := ic_chain c |} in
          match Compute_ (ic_chain c) IntegrityFormatVersion seq gen canonicalPayload with
          | Err e => (WrapErr (WE_Chain e), c)
          | Ok result =>
              match data with
              | None => (WrapPanic, c)
              | Some m =>
                  let meta := {| im_FormatVersion := IntegrityFormatVersion; im_Sequence := seq;
                                 im_PrevHash := cr_prevHash result; im_EntryHash := cr_entryHash result |} in
                  let wrapped := json_MarshalStamped m meta in
                  match Commit (ic_chain c) (Some result) with
                  | (Err e, chain) => (WrapErr (WE_Chain e), {| ic_alloc := alloc; ic_chain := chain |})
                  | (Ok _, chain) => (Wrapped wrapped, {| ic_alloc := alloc; ic_chain := chain |})
                  end
              end
          end
      end
  end.

Definition ic_State (c : IntegrityChain) : Z * string :=
  (Alloc.as_Sequence (Alloc.State (ic_alloc c)), ss_PrevHash (chain_State (ic_chain c))).

Definition ic_Restore (sequence : Z) (prevHash : string) (c : IntegrityChain) : Result WrapError unit * IntegrityChain :=
  let prevAlloc := Alloc.State (ic_alloc c) in
  match Alloc.Restore {| Alloc.as_Sequence := sequence; Alloc.as_Generation := 0 |} (ic_alloc c) with
  | (Err e, alloc) => (Err (WE_Alloc e), {| ic_alloc := alloc; ic_chain := ic_chain c |})
  | (Ok _, alloc) =>
      match chain_Restore (ic_chain c) 0 prevHash false with
      | (Err e, chain) =>
          (Err (WE_Chain e), {| ic_alloc := (Alloc.Restore prevAlloc alloc).2; ic_chain := chain |})
      | (Ok _, chain) => (Ok tt, {| ic_alloc := alloc; ic_chain := chain |})
      end
  end.

(** [hmac.Equal] on two strings. *)
Definition hmac_Equal (a b : string) : bool := String.eqb a b.

Definition VerifyHash (key algorithm : string) (formatVersion sequence : Z) (prevHash payload expectedHash : string) : option bool :=
  data ← parseIntegrityPayloadUseNumber payload;
  let canonicalPayload := marshalCanonicalPayload (delete "integrity" <$> data) in
  actual ← computeIntegrityHash key algorithm formatVersion sequence prevHash canonicalPayload;
  Some (hmac_Equal actual expectedHash).

Definition VerifyWrapped (key algorithm wrapped : string) : option bool :=
  data ← parseIntegrityPayloadUseNumber wrapped;
  match integrityMetadataFromMap (m ← data; m !! "integrity") with
  | None => Some false
  | Some meta =>
      let canonicalPayload := marshalCanonicalPayload (delete "integrity" <$> data) in
      actual ← computeIntegrityHash key algorithm (im_FormatVersion meta) (im_Sequence meta) (im_PrevHash meta) canonicalPayload;
      Some (hmac_Equal actual (im_EntryHash meta))
  end.

(** [ParseIntegrityEntry] (logset.go): type, metadata and canonical payload of a line. *)
Record ParsedEntry := { pe_Type : string; pe_Integrity : option IntegrityMetadata; pe_CanonicalPayload : string }.
Definition ParseIntegrityEntry (line : string) : option ParsedEntry :=
  raw ← parseIntegrityPayloadUseNumber line;
  let typ := default "" (json_string (m ← raw; m !! "type")) in
  match (m ← raw; m !! "integrity") with
  | Some value =>
      meta ← integrityMetadataFromMap (Some value);
      Some {| pe_Type := typ; pe_Integrity := Some meta;
              pe_CanonicalPayload := marshalCanonicalPayload (delete "integrity" <$> raw) |}
  | None => Some {| pe_Type := typ; pe_Integrity := None; pe_CanonicalPayload := marshalCanonicalPayload raw |}
  end.

(** ** Lemmas *)
Lemma metadata_roundtrip meta :
  0 ≤ im_FormatVersion meta ≤ MaxInt64 → 0 ≤ im_Sequence meta ≤ MaxInt64 →
  integrityMetadataFromMap (Some (metadata_json meta)) = Some meta.
Proof.
  intros Hf Hs. unfold integrityMetadataFromMap, metadata_json. cbn [fields_to_map fold_left fst snd].
  unfold fields_to_map. cbn [fold_left fst snd].
  repeat first [rewrite lookup_insert_eq|rewrite lookup_insert_ne by done].
  cbn [jsonInt64 json_string]. rewrite !ParseInt64_pretty by done. by destruct meta.
Qed.

Lemma Wrap_Wrapped payload c w c' : Alloc.wf (ic_alloc c) → Wrap payload c = (Wrapped w, c') →
  ∃ m meta, parseIntegrityPayloadUseNumber payload = Some (Some m) ∧ w = json_MarshalStamped m meta ∧
    im_FormatVersion meta = IntegrityFormatVersion ∧
    im_Sequence meta = Alloc.sequence (ic_alloc c) + 1 ∧ 0 ≤ im_Sequence meta ≤ MaxInt64 ∧
    continues (sc_generation (ic_chain c)) (sc_prevHash (ic_chain c))
      {| cr_entryHash := im_EntryHash meta; cr_prevHash := im_PrevHash meta; cr_sequence := im_Sequence meta;
         cr_generation := Alloc.generation (ic_alloc c); cr_chain := sc_id (ic_chain c) |} ∧
    computeIntegrityHash (sc_key (ic_chain c)) (sc_algorithm (ic_chain c)) IntegrityFormatVersion
      (im_Sequence meta) (im_PrevHash meta) (marshal_map m) = Some (im_EntryHash meta) ∧
    Alloc.sequence (ic_alloc c') = im_Sequence meta ∧ sc_prevHash (ic_chain c') = im_EntryHash meta.
Proof.
  intros Hwf. unfold Wrap. destruct (parseIntegrityPayloadUseNumber payload) as [data|] eqn:Hp; [|done].
  pose proof (Alloc.Next_wf _ Hwf) as Hn. unfold Alloc.Next in *.
  destruct (Alloc.sequence (ic_alloc c) =? MaxInt64);
    cbn [fst snd Alloc.sequence Alloc.generation ic_alloc ic_chain] in *; [done|].
  unfold Compute_. destruct (sc_fatal (ic_chain c)) eqn:Hf; [done|].
  set (prev := if negb _ then _ else _). destruct (computeIntegrityHash _ _ _ _ _ _) as [h|] eqn:Hh; [|done].
  destruct data as [m|]; [|done].
  destruct (Commit (ic_chain c) _) as [[[]|e] chain] eqn:Hc; [|done]. intros [= <- <-].
  apply Commit_Ok in Hc as (_ & _ & Hcont & ->).
  eexists m, _. split_and!; try done; simpl; unfold Alloc.wf in *; simpl in *; lia.
Qed.

(** What Wrap writes verifies: wrapping a JSON object without an integrity
    field gives it the next sequence number and the current chain head, advances
    the chain to the new entry hash, and the bytes verify under the chain key
    whenever the decoder reads back the stamped object that was printed. *)
Theorem Wrap_then_verify payload m c w c' :
  Alloc.wf (ic_alloc c) → parseIntegrityPayloadUseNumber payload = Some (Some m) →
  m !! "integrity" = None → Wrap payload c = (Wrapped w, c') →
  ∃ meta, w = json_MarshalStamped m meta ∧ im_FormatVersion meta = IntegrityFormatVersion ∧
    im_Sequence meta = Alloc.sequence (ic_alloc c) + 1 ∧ ic_State c' = (im_Sequence meta, im_EntryHash meta) ∧
    (Alloc.generation (ic_alloc c) = sc_generation (ic_chain c) → im_PrevHash meta = sc_prevHash (ic_chain c)) ∧
    (parseIntegrityPayloadUseNumber w = Some (Some (<["integrity" := metadata_json meta]> m)) →
     VerifyWrapped (sc_key (ic_chain c)) (sc_algorithm (ic_chain c)) w = Some true).
Proof.
  intros Hwf Hp Hi Hw. destruct (Wrap_Wrapped payload c w c' Hwf Hw)
    as (m' & meta & Hp' & -> & Hfv & Hs & Hr & Hcont & Hh & Hs' & Hh').
  rewrite Hp in Hp'. injection Hp' as <-. exists meta. split_and!; [done|done|done| | |].
  - unfold ic_State. simpl. by rewrite Hs', Hh'.
  - intros Hg. destruct Hcont as [[_ ?]|[Hlt _]]; simpl in *; [done|lia].
  - intros Hrt. unfold VerifyWrapped. rewrite Hrt. simpl. rewrite lookup_insert_eq.
    rewrite metadata_roundtrip by (rewrite ?Hfv; unfold IntegrityFormatVersion, MaxInt64 in *; lia).
    rewrite Hfv. unfold marshalCanonicalPayload. simpl. rewrite delete_insert_id by done.
    rewrite Hh. unfold hmac_Equal. simpl. by rewrite String.eqb_refl.
Qed.

(** A payload that already has an integrity field is hashed with that field but
    verified without it, so it verifies only if both give the same hash. *)
Lemma Wrap_existing_integrity payload m c w c' :
  Alloc.wf (ic_alloc c) → parseIntegrityPayloadUseNumber payload = Some (Some m) →
  Wrap payload c = (Wrapped w, c') →
  (∀ meta, w = json_MarshalStamped m meta →
     parseIntegrityPayloadUseNumber w = Some (Some (<["integrity" := metadata_json meta]> m))) →
  VerifyWrapped (sc_key (ic_chain c)) (sc_algorithm (ic_chain c)) w = Some true →
  ∃ s p h,
    computeIntegrityHash (sc_key (ic_chain c)) (sc_algorithm (ic_chain c)) 2 s p (marshal_map m) = Some h ∧
    computeIntegrityHash (sc_key (ic_chain c)) (sc_algorithm (ic_chain c)) 2 s p
      (marshal_map (delete "integrity" m)) = Some h.
Proof.
  intros Hwf Hp Hw Hrt Hv. destruct (Wrap_Wrapped payload c w c' Hwf Hw)
    as (m' & meta & Hp' & Hwm & Hfv & Hs & Hr & _ & Hh & _).
  rewrite Hp in Hp'. injection Hp' as <-. specialize (Hrt meta Hwm).
  unfold VerifyWrapped in Hv. rewrite Hrt in Hv. simpl in Hv. rewrite lookup_insert_eq in Hv.
  rewrite metadata_roundtrip in Hv by (rewrite ?Hfv; unfold IntegrityFormatVersion, MaxInt64 in *; lia).
  rewrite Hfv in Hv. simpl in Hv. rewrite delete_insert_eq in Hv.
  destruct (computeIntegrityHash _ _ _ _ _ (marshal_map (delete _ _))) as [h|] eqn:Hh2; [|done].
  simpl in Hv. injection Hv as Heq. unfold hmac_Equal in Heq. apply String.eqb_eq in Heq. subst h. eauto.
Qed.

(** Restore is all or nothing: a rejected restore leaves the allocator and
    the chain exactly as they were, and an accepted one resumes at the given entry
    with a well-formed hash and no fatal latch. *)
Theorem Restore_atomic sequence prevHash c :
  Alloc.wf (ic_alloc c) →
  match ic_Restore sequence prevHash c with
  | (Ok _, c') => ic_State c' = (sequence, prevHash) ∧ -1 ≤ sequence ∧
                  validatePrevHash (sc_algorithm (ic_chain c)) prevHash = true ∧ sc_fatal (ic_chain c') = false
  | (Err _, c') => c' = c
  end.
Proof.
  intros [Hs _]. unfold ic_Restore, Alloc.Restore, chain_Restore. simpl.
  destruct (Z.ltb_spec sequence (-1)); [by destruct c|].
  destruct (validatePrevHash _ _) eqn:Hv; simpl; [done|].
  destruct (Z.ltb_spec (Alloc.sequence (ic_alloc c)) (-1)); [lia|]. by destruct c as [[] []].
Qed.
End wrapper.

(** ** Concrete runs *)
Module AuditSample.
(** A keyed checksum that prefixes the key length, and a codec for the empty
    object and its stamped form. *)
Definition toy_hmac : HmacLib := {|
  hmac_sha256 := λ k m, str_take 32 (m +:+ "................................");
  hmac_sha512 := λ k m, str_take 64 (m +:+ "................................................................") |}.
#[local] Existing Instance toy_hmac.
Definition key : string := "0123456789abcdef0123456789abcdef".
Definition start : IntegrityChain := {|
  ic_alloc := Alloc.NewSequenceAllocator;
  ic_chain := Build_SinkChain 1 key "hmac-sha256" 0 "" false |}.
Definition stamped (meta : IntegrityMetadata) : string := "{integrity:" +:+ im_EntryHash meta +:+ "}".
Definition first_hash : string :=
  default "" (computeIntegrityHash key "hmac-sha256" 2 0 "" "{}").
Definition first_meta : IntegrityMetadata := Build_IntegrityMetadata 2 0 "" first_hash.
Definition toy_json : JsonLib := {|
  json_Decode := λ s, if String.eqb s "{}" then Some (JObject [], "")
                      else if String.eqb s "null" then Some (JNull, "")
                      else if String.eqb s (stamped first_meta)
                      then Some (JObject [("integrity", metadata_json first_meta)], "") else None;
  json_EOF := String.eqb "";
  json_Marshal := λ v, match v with JObject [] => "{}" | _ => "null" end;
  json_MarshalStamped := λ _ meta, stamped meta |}.
#[local] Existing Instance toy_json.

Lemma Wrap_then_verify_witness :
  VerifyWrapped key "hmac-sha256" (stamped first_meta) = Some true.
Proof.
  destruct (Wrap_then_verify "{}" ∅ start (stamped first_meta) (Wrap "{}" start).2)
    as (meta & Hw & Hfv & Hs & Hst & Hprev & Hv).
  - unfold Alloc.wf, MaxInt64, MaxUint32. simpl. lia.
  - vm_compute. reflexivity.
  - reflexivity.
  - vm_compute. reflexivity.
  - change key with (sc_key (ic_chain start)). change "hmac-sha256" with (sc_algorithm (ic_chain start)).
    apply Hv. specialize (Hprev eq_refl). destruct meta as [fv s p h]. simpl in Hfv, Hs, Hprev. subst fv s p.
    vm_compute in Hst. injection Hst as <-. vm_compute. reflexivity.
Defined.

(** The JSON literal null decodes to a nil map: the wrapper takes a sequence
    number and then panics storing into it. *)
Example wrap_null_panics :
  (Wrap "null" start).1 = WrapPanic ∧ Alloc.sequence (ic_alloc (Wrap "null" start).2) = 0.
Proof. by vm_compute. Qed.

(** Two sinks; a token of each, the first committed twice. *)
Definition two_sinks : Sinks := mkSinks {[ 1%nat := ic_chain start; 2%nat := Build_SinkChain 2 key "hmac-sha512" 0 "" false ]} [].
Definition sample_ops : list chain_op :=
  [OCompute 1 2 0 0 "a"; OCommit 1 (PIssued 0); OCompute 1 2 1 0 "b"; OCompute 2 2 1 3 "b"; OCommit 2 (PIssued 2);
   OCommit 1 (PIssued 1); OCompute 1 2 2 1 "c"; OCommit 1 (PIssued 3); OCommit 1 (PIssued 0); OCommit 1 (PIssued 3)].
Lemma two_sinks_wf : sinks_wf two_sinks.
Proof.
  constructor; [by vm_compute| |intros e c He; by apply not_elem_of_nil in He].
  intros k c Hk. cbn [sinks two_sinks] in Hk. apply lookup_insert_Some in Hk as [[<- <-]|[_ Hk]]; [done|]. by apply lookup_singleton_Some in Hk as [<- <-].
Qed.
Lemma chain_log_linked_witness :
  i_payload <$> log_of 1 (chain_run sample_ops two_sinks).1 = ["a"; "b"; "c"] ∧
  linked key "hmac-sha256" 0 "" (log_of 1 (chain_run sample_ops two_sinks).1).
Proof.
  split; [vm_compute; reflexivity|]. apply (chain_log_linked sample_ops two_sinks 1 (ic_chain start)); [exact two_sinks_wf | by vm_compute].
Defined.

Lemma fatal_latch_witness :
  log_of 1 (chain_run sample_ops (mkSinks (<[1%nat := set_fatal (ic_chain start)]> (sinks two_sinks)) [])).1 = [].
Proof.
  apply (fatal_latch sample_ops two_sinks 1 (ic_chain start) (Build_ComputeResult "" "" 0 0 0) ErrCrossChainResult (set_fatal (ic_chain start)));
    [exact two_sinks_wf | by vm_compute | by vm_compute].
Defined.

Lemma equal_hash_equal_record_witness :
  (2 = 2 ∧ 0 = 0 ∧ "" = "" ∧ "{}" = "{}") ∨ collide key (preimage 2 0 "" "{}") (preimage 2 0 "" "{}").
Proof.
  apply (equal_hash_equal_record key "hmac-sha256" 2 0 "" "{}" 2 0 "" "{}" first_hash); vm_compute; reflexivity.
Defined.

Lemma Restore_atomic_witness :
  match ic_Restore 7 "zz" start with
  | (Ok _, c') => ic_State c' = (7, "zz") ∧ -1 ≤ 7 ∧
                  validatePrevHash "hmac-sha256" "zz" = true ∧ sc_fatal (ic_chain c') = false
  | (Err _, c') => c' = start
  end.
Proof. apply (Restore_atomic 7 "zz" start). unfold Alloc.wf, MaxInt64, MaxUint32. simpl. lia. Defined.
End AuditSample.
