(* ===== verification/ShellParse.v ===== *)
(** * Shell command derivation ([internal/shellparse/shellparse.go])

    The policy pre-check looks inside [sh -c script]: when the script is one
    simple command, the command it runs is checked in place of the shell; when
    it is not, the invocation is classified as a wrapper bypass (fail closed), as
    opaque (fail closed under a restrictive policy) or left to the shell's rule.

    - flag scan, assignment stripping, tokenizer, wrapper stripping and the two
      routines that explain a refusal: one definition per Go function;
    - [script_words], a declarative grammar of the quoting the tokenizer honours;
    - theorems: the tokenizer decides that grammar, quoting round-trips, a
      derived command is the one the grammar assigns to the script, and the
      explanations follow the classification. *)
From S2P Require Import Prelude.

(** ** Bytes *)
Definition dquote : ascii := ascii_of_nat 34.
Definition tab : ascii := ascii_of_nat 9.
Definition newline : ascii := ascii_of_nat 10.
Definition str1 (c : ascii) : string := String c "".

Lemma str1_app c s : str1 c +:+ s = String c s.
Proof. done. Qed.

(** [b == ' ' || b == '\t'] *)
Definition is_blank (b : ascii) : bool := Ascii.eqb b " " || Ascii.eqb b tab.

(** [strings.IndexAny] and [strings.LastIndexAny] with ASCII [chars]. *)
Fixpoint IndexAny (s chars : string) : option nat :=
  match s with
  | EmptyString => None
  | String c s => if str_mem c chars then Some O else S <$> IndexAny s chars
  end.
Fixpoint LastIndexAny (s chars : string) : option nat :=
  match s with
  | EmptyString => None
  | String c s =>
      match LastIndexAny s chars with
      | Some i => Some (S i)
      | None => if str_mem c chars then Some O else None
      end
  end.

(** The loops [for i < len(s) && p(s[i]) { i++ }]: [s[:i]] and [s[i:]]. *)
Fixpoint str_span (p : ascii → bool) (s : string) : string * string :=
  match s with
  | EmptyString => ("", "")
  | String c s' => if p c then let (a, b) := str_span p s' in (String c a, b) else ("", s)
  end.

(** [fmt]'s [%c] on a byte: the UTF-8 encoding of the code point. *)
Definition fmt_c (b : ascii) : string :=
  if is_rune_byte b then
    String (ascii_of_nat (192 + nat_of_ascii b / 64)) (str1 (ascii_of_nat (128 + nat_of_ascii b mod 64)))
  else str1 b.

(** [fmt]'s [%02x] on a byte. *)
Definition hex_digit (n : nat) : ascii := ascii_of_nat (if n <? 10 then 48 + n else 87 + n)%nat.
Definition fmt_02x (b : ascii) : string :=
  String (hex_digit (nat_of_ascii b / 16)) (str1 (hex_digit (nat_of_ascii b mod 16))).

(** ** Tables *)
Definition string_in (s : string) (l : list string) : bool := existsb (String.eqb s) l.

Definition isKnownShell (base : string) : bool :=
  string_in base ["sh"; "bash"; "dash"; "ash"; "mksh"; "ksh"; "zsh"].

Definition isTransparentWrapper (tok : string) : bool :=
  string_in tok ["exec"; "command"; "nohup"; "nice"; "time"; "env"].

Definition shellBuiltins : list string :=
  [":"; "."; "break"; "continue"; "eval"; "exec"; "exit";
   "export"; "readonly"; "return"; "set"; "shift"; "trap"; "unset";
   "alias"; "bg"; "cd"; "command"; "fc"; "fg"; "getopts"; "jobs";
   "kill"; "newgrp"; "read"; "umask"; "unalias"; "wait";
   "echo"; "printf"; "pwd"; "test"; "["; "true"; "false";
   "bind"; "builtin"; "caller"; "compgen"; "compopt"; "complete";
   "coproc"; "declare"; "dirs"; "disown"; "enable"; "hash"; "help";
   "history"; "let"; "local"; "logout"; "mapfile"; "popd"; "pushd";
   "readarray"; "shopt"; "source"; "suspend"; "times"; "type";
   "typeset"; "ulimit";
   "if"; "then"; "else"; "elif"; "fi"; "case"; "esac"; "while";
   "do"; "done"; "for"; "in"; "function"; "select"; "time"; "until";
   "{"; "}"; "!"; "[["; "]]"].
Definition isShellBuiltin (tok : string) : bool := string_in tok shellBuiltins.

Definition isSafeShellShortFlag (ch : ascii) : bool := str_mem ch "eufxlivBHs".

Definition isUnquotedAllowedByte (b : ascii) : bool :=
  byte_in "A" "Z" b || byte_in "a" "z" b || byte_in "0" "9" b || str_mem b "_./-".

Section shellparse.
Context `{GoLib}.

Definition basenameLower (s : string) : string :=
  let s := match LastIndexAny s "/\" with Some i => str_drop (i + 1) s | None => s end in
  TrimSuffix (ToLower s) ".real".

(** ** Locating the script *)

(** The inner loop over a short-option cluster: [None] on an unsafe flag,
    otherwise whether [c] was seen. *)
Fixpoint scan_cluster (cluster : string) (hasC : bool) : option bool :=
  match cluster with
  | EmptyString => Some hasC
  | String ch cluster =>
      if Ascii.eqb ch "c" then scan_cluster cluster true
      else if isSafeShellShortFlag ch then scan_cluster cluster hasC
      else None
  end.

Fixpoint findShellCFlag_from (i : nat) (shellArgs : list string) : option nat :=
  match shellArgs with
  | [] => None
  | arg :: rest =>
      match arg with
      | String a0 (String a1 _ as cluster) =>
          if negb (Ascii.eqb a0 "-") then None
          else if Ascii.eqb a1 "-" then None
          else match scan_cluster cluster false with
               | None => None
               | Some true => Some i
               | Some false => findShellCFlag_from (S i) rest
               end
      | _ => None
      end
  end.
Definition findShellCFlag (shellArgs : list string) : option nat := findShellCFlag_from 0 shellArgs.

Fixpoint hasShellCWithUnsafeOptions (shellArgs : list string) : bool :=
  match shellArgs with
  | [] => false
  | arg :: rest =>
      if String.eqb arg "--" then false
      else match arg with
           | String a0 (String a1 _ as cluster) =>
               if negb (Ascii.eqb a0 "-") then hasShellCWithUnsafeOptions rest
               else if Ascii.eqb a1 "-" then hasShellCWithUnsafeOptions rest
               else if str_mem "c" cluster then true
               else hasShellCWithUnsafeOptions rest
           | _ => hasShellCWithUnsafeOptions rest
           end
  end.

(** ** Environment assignments *)

Definition isValidAssignName (name : string) : bool :=
  match name with
  | EmptyString => false
  | String c rest =>
      (byte_in "A" "Z" c || byte_in "a" "z" c || Ascii.eqb c "_") &&
      str_forall (λ c, byte_in "A" "Z" c || byte_in "a" "z" c || byte_in "0" "9" c
                       || Ascii.eqb c "_") rest
  end.

Definition valueBytesAllowed (value : string) : bool :=
  str_forall (λ b, byte_in "A" "Z" b || byte_in "a" "z" b || byte_in "0" "9" b
                   || str_mem b "_./-") value.

(** One pass of the loop body: [None] when the loop breaks or returns the
    current remainder, [Some None] on a dirty value, [Some (Some r)] to go on
    with [r]. *)
Definition strip_one (remainder : string) : option (option string) :=
  let (_, rest) := str_span is_blank remainder in
  match rest with
  | EmptyString => None
  | _ =>
      let (tok, after) := str_span (λ b, negb (is_blank b)) rest in
      match IndexByte tok "=" with
      | None | Some O => None
      | Some eq =>
          if negb (isValidAssignName (str_take eq tok)) then None
          else if negb (valueBytesAllowed (str_drop (eq + 1) tok)) then Some None
          else Some (Some after)
      end
  end.

(** The loop; every pass that goes on consumes a token of two bytes or more, so
    the length of the script bounds the passes (see [strip_loop_fuel]). *)
Fixpoint strip_loop (fuel : nat) (remainder : string) : option (string * bool) :=
  match fuel with
  | O => None
  | S fuel =>
      match strip_one remainder with
      | None => Some (remainder, false)
      | Some None => Some ("", true)
      | Some (Some r) => strip_loop fuel r
      end
  end.
Definition stripLeadingAssignments (script : string) : string * bool :=
  match strip_loop (S (String.length script)) script with
  | Some r => r
  | None => (script, false)
  end.

(** ** Tokenizer *)

Inductive tokState := stateOutside | stateUnquoted | stateSingleQuote | stateDoubleQuote.

(** The byte loop with its variables [state], [tokens] and [cur]. *)
Fixpoint tokenize_loop (state : tokState) (tokens : list string) (cur : string)
    (script : string) : list string * bool :=
  match script with
  | EmptyString =>
      match state with
      | stateOutside => (tokens, false)
      | stateUnquoted => (tokens ++ [cur], false)
      | _ => ([], true)
      end
  | String b script =>
      match state with
      | stateOutside =>
          if is_blank b then tokenize_loop stateOutside tokens cur script
          else if Ascii.eqb b "'" then tokenize_loop stateSingleQuote tokens cur script
          else if Ascii.eqb b dquote then tokenize_loop stateDoubleQuote tokens cur script
          else if isUnquotedAllowedByte b
               then tokenize_loop stateUnquoted tokens (cur +:+ str1 b) script
          else ([], true)
      | stateUnquoted =>
          if is_blank b then tokenize_loop stateOutside (tokens ++ [cur]) "" script
          else if Ascii.eqb b "'" then tokenize_loop stateSingleQuote tokens cur script
          else if Ascii.eqb b dquote then tokenize_loop stateDoubleQuote tokens cur script
          else if isUnquotedAllowedByte b
               then tokenize_loop stateUnquoted tokens (cur +:+ str1 b) script
          else ([], true)
      | stateSingleQuote =>
          if Ascii.eqb b "'" then tokenize_loop stateUnquoted tokens cur script
          else tokenize_loop stateSingleQuote tokens (cur +:+ str1 b) script
      | stateDoubleQuote =>
          if Ascii.eqb b dquote then tokenize_loop stateUnquoted tokens cur script
          else if str_mem b "$`\" then ([], true)
          else tokenize_loop stateDoubleQuote tokens (cur +:+ str1 b) script
      end
  end.
Definition tokenizeSimpleScript (script : string) : list string * bool :=
  tokenize_loop stateOutside [] "" script.

(** ** Wrappers *)

Definition isNumericIncrement (s : string) : bool :=
  let digits := str_forall (byte_in "0" "9") in
  match s with
  | EmptyString => false
  | String c rest =>
      if str_mem c "+-" then negb (String.eqb rest "") && digits rest else digits s
  end.

Fixpoint stripWrappers (tokens : list string) : list string * bool :=
  match tokens with
  | wrapper :: ((next :: rest) as tokens') =>
      if isTransparentWrapper wrapper then
        if negb (HasPrefix next "-") then stripWrappers tokens'
        else
          let unparsed :=
            if String.eqb wrapper "command" && (String.eqb next "-v" || String.eqb next "-V")
            then (tokens, false) else ([], true) in
          match rest with
          | inc :: rest' =>
              if String.eqb wrapper "nice" && String.eqb next "-n" && isNumericIncrement inc
              then stripWrappers rest' else unparsed
          | [] => unparsed
          end
      else (tokens, false)
  | _ => (tokens, false)
  end.

Definition firstWord (s : string) : string :=
  let s := trim_left is_blank s in
  match IndexAny s (String " " (str1 tab)) with
  | Some i => str_take i s
  | None => s
  end.

(** ** Classification *)

Inductive parseStatus := statusFallback | statusOK | statusBypass | statusOpaque.
#[export] Instance parseStatus_eq_dec : EqDecision parseStatus.
Proof. solve_decision. Defined.

(** [parseSimpleShellC] from the script argument on. *)
Definition parse_script (arg : string) : string * list string * parseStatus :=
  let script := TrimSpace arg in
  if String.eqb script "" then ("", [], statusFallback)
  else
    let (script, dirty) := stripLeadingAssignments script in
    if dirty then ("", [], statusBypass)
    else
      let script := TrimSpace script in
      if String.eqb script "" then ("", [], statusFallback)
      else
        let (tokens, opaque) := tokenizeSimpleScript script in
        if opaque then
          if isTransparentWrapper (firstWord script) then ("", [], statusBypass)
          else ("", [], statusOpaque)
        else match tokens with
        | [] => ("", [], statusFallback)
        | _ =>
            let (tokens, bypass) := stripWrappers tokens in
            if bypass then ("", [], statusBypass)
            else match tokens with
                 | [] => ("", [], statusFallback)
                 | tok0 :: rest =>
                     if isShellBuiltin tok0 then ("", [], statusFallback)
                     else (tok0, rest, statusOK)
                 end
        end.

Definition parseSimpleShellC (shellArgs : list string) : string * list string * parseStatus :=
  match findShellCFlag shellArgs with
  | None =>
      if hasShellCWithUnsafeOptions shellArgs then ("", [], statusBypass)
      else ("", [], statusFallback)
  | Some cFlagIdx =>
      match shellArgs !! (cFlagIdx + 1)%nat with
      | None => ("", [], statusFallback)
      | Some arg => parse_script arg
      end
  end.

Definition is_shell (command : string) : bool :=
  negb (String.eqb command "") && isKnownShell (basenameLower command).

Definition DerivePolicyTarget (command : string) (args : list string)
    : string * list string * bool :=
  if negb (is_shell command) then ("", [], false)
  else match parseSimpleShellC args with
       | (cmd, argv, statusOK) => (cmd, argv, true)
       | _ => ("", [], false)
       end.

Definition IsShellCBypassAttempt (command : string) (args : list string) : bool :=
  if negb (is_shell command) then false
  else match parseSimpleShellC args with (_, _, statusBypass) => true | _ => false end.

Definition IsOpaqueShellC (command : string) (args : list string) : bool :=
  if negb (is_shell command) then false
  else match parseSimpleShellC args with (_, _, statusOpaque) => true | _ => false end.

(** ** Explanations *)

Definition unparsable_shell_c : string := "unparsable shell-c invocation".
Definition unparsable_script : string := "unparsable shell script".

(** The cluster loop of [computeBypassReason]: [inl] the reason to return,
    [inr foundC] when it falls through. *)
Fixpoint bypass_cluster (cluster : string) (foundC : bool) : string + bool :=
  match cluster with
  | EmptyString => inr foundC
  | String ch cluster =>
      if Ascii.eqb ch "c" then bypass_cluster cluster true
      else if negb (isSafeShellShortFlag ch)
           then inl ("unsafe option -" +:+ fmt_c ch +:+ " clustered with -c")
      else bypass_cluster cluster foundC
  end.

(** The option scan: [inl] the reason to return, [inr cFlagIdx] after the loop
    ([None] is -1). *)
Fixpoint bypass_scan (i : nat) (shellArgs : list string) : string + option nat :=
  match shellArgs with
  | [] => inr None
  | arg :: rest =>
      match arg with
      | String a0 (String a1 _ as cluster) =>
          if negb (Ascii.eqb a0 "-") && negb (Ascii.eqb a0 "+") then inr None
          else if Ascii.eqb a0 "-" && Ascii.eqb a1 "-"
               then inl ("long option " +:+ go_quote arg +:+ " is not in the safe set")
          else if string_in arg ["-o"; "+o"; "-O"; "+O"]
               then inl ("option " +:+ go_quote arg +:+ " takes an argument and shifts the script position")
          else if Ascii.eqb a0 "+"
               then inl (go_quote arg +:+ " starts with '+' which is not in the safe set")
          else match bypass_cluster cluster false with
               | inl r => inl r
               | inr true => inr (Some i)
               | inr false => bypass_scan (S i) rest
               end
      | _ => inr None
      end
  end.

(** The last loop of [computeBypassReason]. *)
Fixpoint bypass_wrapper (tokens : list string) : string :=
  match tokens with
  | wrapper :: ((next :: rest) as tokens') =>
      if isTransparentWrapper wrapper then
        if negb (HasPrefix next "-") then bypass_wrapper tokens'
        else
          let flagged := "wrapper " +:+ go_quote wrapper +:+ " used with flag " +:+ go_quote next in
          match rest with
          | inc :: rest' =>
              if String.eqb wrapper "nice" && String.eqb next "-n" && isNumericIncrement inc
              then bypass_wrapper rest' else flagged
          | [] => flagged
          end
      else unparsable_shell_c
  | _ => unparsable_shell_c
  end.

Definition bypass_script_reason (arg : string) : string :=
  let script := TrimSpace arg in
  if (stripLeadingAssignments script).2
  then "environment assignment with a value containing an unsafe character"
  else
    let script := TrimSpace (stripLeadingAssignments script).1 in
    if String.eqb script "" then unparsable_shell_c
    else
      let (tokens, opaque) := tokenizeSimpleScript script in
      if opaque then
        let head := firstWord script in
        if isTransparentWrapper head
        then "wrapper " +:+ go_quote head +:+ " used in a form we can't safely parse"
        else unparsable_shell_c
      else bypass_wrapper tokens.

Definition computeBypassReason (shellArgs : list string) : string :=
  match bypass_scan 0 shellArgs with
  | inl r => r
  | inr cFlagIdx =>
      match cFlagIdx ≫= λ i, shellArgs !! (i + 1)%nat with
      | None => unparsable_shell_c
      | Some arg => bypass_script_reason arg
      end
  end.

Definition describeOpaqueByte (b : ascii) : string :=
  if str_mem b ";|&" then "metacharacter " +:+ go_quote_byte b
  else if str_mem b "><" then "redirect " +:+ go_quote_byte b
  else if str_mem b "()" then "subshell " +:+ go_quote_byte b
  else if str_mem b "*?[" then "glob " +:+ go_quote_byte b
  else if Ascii.eqb b "$" then "expansion '$'"
  else if Ascii.eqb b "`" then "command substitution '`'"
  else if Ascii.eqb b "\" then "escape '\'"
  else if Ascii.eqb b "=" then "assignment-shape '='"
  else if Ascii.eqb b "#" then "comment '#'"
  else if Ascii.eqb b "~" then "tilde '~'"
  else if str_mem b "{}" then "brace " +:+ go_quote_byte b
  else if Ascii.eqb b "!" then "history expansion '!'"
  else if Ascii.eqb b newline then "newline"
  else "unsafe byte 0x" +:+ fmt_02x b.

(** The byte loop of [computeOpaqueReason]; its four states are the tokenizer's. *)
Fixpoint opaque_scan (state : tokState) (script : string) : string :=
  match script with
  | EmptyString =>
      match state with
      | stateSingleQuote | stateDoubleQuote => "unterminated quote"
      | _ => unparsable_script
      end
  | String b script =>
      match state with
      | stateOutside =>
          if is_blank b then opaque_scan stateOutside script
          else if Ascii.eqb b "'" then opaque_scan stateSingleQuote script
          else if Ascii.eqb b dquote then opaque_scan stateDoubleQuote script
          else if isUnquotedAllowedByte b then opaque_scan stateUnquoted script
          else describeOpaqueByte b
      | stateUnquoted =>
          if is_blank b then opaque_scan stateOutside script
          else if Ascii.eqb b "'" then opaque_scan stateSingleQuote script
          else if Ascii.eqb b dquote then opaque_scan stateDoubleQuote script
          else if isUnquotedAllowedByte b then opaque_scan stateUnquoted script
          else describeOpaqueByte b
      | stateSingleQuote =>
          opaque_scan (if Ascii.eqb b "'" then stateUnquoted else stateSingleQuote) script
      | stateDoubleQuote =>
          if Ascii.eqb b dquote then opaque_scan stateUnquoted script
          else if str_mem b "$`\" then describeOpaqueByte b
          else opaque_scan stateDoubleQuote script
      end
  end.

Definition computeOpaqueReason (shellArgs : list string) : string :=
  match findShellCFlag shellArgs ≫= λ i, shellArgs !! (i + 1)%nat with
  | None => unparsable_script
  | Some arg =>
      opaque_scan stateOutside (TrimSpace (stripLeadingAssignments (TrimSpace arg)).1)
  end.

Definition BypassReason (command : string) (args : list string) : string :=
  if IsShellCBypassAttempt command args then computeBypassReason args else "".

Definition OpaqueReason (command : string) (args : list string) : string :=
  if IsOpaqueShellC command args then computeOpaqueReason args else "".
End shellparse.

(** ** Grammar of simple scripts

    A word is a non-empty sequence of bare bytes, single-quoted spans and
    double-quoted spans; words are separated by blanks. *)
Inductive segment := Bare (b : ascii) | SQuoted (s : string) | DQuoted (s : string).

Definition segment_ok (g : segment) : bool :=
  match g with
  | Bare b => isUnquotedAllowedByte b
  | SQuoted s => str_forall (λ c, negb (Ascii.eqb c "'")) s
  | DQuoted s => str_forall (λ c, negb (Ascii.eqb c dquote) && negb (str_mem c "$`\")) s
  end.
Definition segment_src (g : segment) : string :=
  match g with
  | Bare b => str1 b
  | SQuoted s => str1 "'" +:+ s +:+ str1 "'"
  | DQuoted s => str1 dquote +:+ s +:+ str1 dquote
  end.
Definition segment_val (g : segment) : string :=
  match g with Bare b => str1 b | SQuoted s | DQuoted s => s end.

Definition word := list segment.
Definition word_ok (w : word) : bool := forallb segment_ok w.
Fixpoint word_src (w : word) : string :=
  match w with [] => "" | g :: w => segment_src g +:+ word_src w end.
Fixpoint word_val (w : word) : string :=
  match w with [] => "" | g :: w => segment_val g +:+ word_val w end.

Definition blanks (s : string) : bool := str_forall is_blank s.

(** The end of a word: the end of the script or a blank. *)
Definition at_boundary (s : string) : bool :=
  match s with EmptyString => true | String c _ => is_blank c end.

(** [script_words s toks]: the script [s] spells the words [toks]. *)
Inductive script_words : string → list string → Prop :=
| words_end s : blanks s = true → script_words s []
| words_cons s w rest toks :
    blanks s = true → w ≠ [] → word_ok w = true → at_boundary rest = true →
    script_words rest toks →
    script_words (s +:+ word_src w +:+ rest) (word_val w :: toks).

(** ** The tokenizer decides the grammar *)

(** Case analysis on the byte tests of a state machine. *)
Ltac byte_cases :=
  repeat match goal with
  | |- context [if is_blank ?b then _ else _] => destruct (is_blank b) eqn:?
  | |- context [if Ascii.eqb ?b ?c then _ else _] => destruct (Ascii.eqb_spec b c); subst
  | |- context [if isUnquotedAllowedByte ?b then _ else _] =>
      destruct (isUnquotedAllowedByte b) eqn:?
  | |- context [if str_mem ?b ?l then _ else _] => destruct (str_mem b l) eqn:?
  end.

(** The tokens collected so far are only ever appended to. *)
Lemma tokenize_tokens st tokens cur s :
  tokenize_loop st tokens cur s =
  if (tokenize_loop st [] cur s).2 then ([], true)
  else (tokens ++ (tokenize_loop st [] cur s).1, false).
Proof.
  revert st tokens cur. induction s as [|b s IH]; intros st tokens cur.
  - destruct st; simpl; by rewrite ?app_nil_r.
  - destruct st; cbn [tokenize_loop]; byte_cases; try done; try apply IH.
    rewrite (IH _ (tokens ++ [cur])), (IH _ ([] ++ [cur])).
    destruct (tokenize_loop stateOutside [] "" s) as [more []]; simpl; [done|].
    by rewrite <-app_assoc.
Qed.

(** What the rest of a script must look like in each state, and the tokens it
    yields. *)
Definition finishes (cur s : string) (toks : list string) : Prop :=
  ∃ w rest more, s = word_src w +:+ rest ∧ word_ok w = true ∧ at_boundary rest = true ∧
    script_words rest more ∧ toks = (cur +:+ word_val w) :: more.

Definition reads (st : tokState) (cur s : string) (toks : list string) : Prop :=
  match st with
  | stateOutside => cur = "" → script_words s toks
  | stateUnquoted => finishes cur s toks
  | stateSingleQuote => ∃ q rest, segment_ok (SQuoted q) = true ∧
      s = q +:+ String "'" rest ∧ finishes (cur +:+ q) rest toks
  | stateDoubleQuote => ∃ q rest, segment_ok (DQuoted q) = true ∧
      s = q +:+ String dquote rest ∧ finishes (cur +:+ q) rest toks
  end.

Lemma script_words_blank b s toks :
  is_blank b = true → script_words s toks → script_words (String b s) toks.
Proof.
  intros Hb Hs. destruct Hs as [s Hs|s w rest toks Hs ????].
  - apply words_end. unfold blanks in *. simpl. by rewrite Hb.
  - rewrite <-string_app_cons. apply words_cons; try done.
    unfold blanks in *. simpl. by rewrite Hb.
Qed.

(** A word in progress that starts here is a word of the script. *)
Lemma finishes_words g s toks :
  segment_ok g = true → finishes (segment_val g) s toks →
  script_words (segment_src g +:+ s) toks.
Proof.
  intros Hg (w & rest & more & -> & Hw & Hb & Hr & ->).
  rewrite <-string_app_assoc.
  change (segment_src g +:+ word_src w) with (word_src (g :: w)).
  change (segment_val g +:+ word_val w) with (word_val (g :: w)).
  change (word_src (g :: w) +:+ rest) with ("" +:+ word_src (g :: w) +:+ rest).
  apply words_cons; try done. simpl. by rewrite Hg.
Qed.

Lemma finishes_segment g cur s toks :
  segment_ok g = true → finishes (cur +:+ segment_val g) s toks →
  finishes cur (segment_src g +:+ s) toks.
Proof.
  intros Hg (w & rest & more & -> & Hw & Hb & Hr & ->).
  exists (g :: w), rest, more. simpl. rewrite Hg, !string_app_assoc. done.
Qed.

Lemma finishes_quoted (q : ascii) g cur rest toks s :
  segment_src g = str1 q +:+ segment_val g +:+ str1 q → segment_ok g = true →
  s = segment_val g +:+ String q rest → finishes (cur +:+ segment_val g) rest toks →
  finishes cur (String q s) toks.
Proof.
  intros Hsrc Hg -> Hf. replace (String q (segment_val g +:+ String q rest))
    with (segment_src g +:+ rest); [by apply finishes_segment|].
  by rewrite Hsrc, !string_app_assoc.
Qed.

Lemma words_quoted (q : ascii) g rest toks s :
  segment_src g = str1 q +:+ segment_val g +:+ str1 q → segment_ok g = true →
  s = segment_val g +:+ String q rest → finishes (segment_val g) rest toks →
  script_words (String q s) toks.
Proof.
  intros Hsrc Hg -> Hf. replace (String q (segment_val g +:+ String q rest))
    with (segment_src g +:+ rest); [by apply finishes_words|].
  by rewrite Hsrc, !string_app_assoc.
Qed.

Lemma tokenize_sound st cur s toks :
  tokenize_loop st [] cur s = (toks, false) → reads st cur s toks.
Proof.
  revert st cur toks. induction s as [|b s IH]; intros st cur toks.
  - destruct st; simpl; intros Ht; simplify_eq.
    + intros _. by apply words_end.
    + exists [], "", []. repeat split; [by apply words_end|]. by cbn [word_val]; rewrite string_app_nil.
  - destruct st; cbn [tokenize_loop]; byte_cases; intros Ht; try done;
      try (apply IH in Ht; cbn [reads] in *); try intros ->.
    + by apply script_words_blank; [|apply Ht].
    + destruct Ht as (q & rest & ? & -> & ?). by apply (words_quoted "'" (SQuoted q) rest).
    + destruct Ht as (q & rest & ? & -> & ?). by apply (words_quoted dquote (DQuoted q) rest).
    + rewrite <-str1_app. by apply (finishes_words (Bare b)).
    + rewrite tokenize_tokens in Ht.
      destruct (tokenize_loop stateOutside [] "" s) as [more []] eqn:Hs; simplify_eq/=.
      apply IH in Hs. exists [], (String b s), more. cbn [word_val]. rewrite string_app_nil.
      repeat split; [done|by apply script_words_blank, Hs].
    + destruct Ht as (q & rest & ? & -> & ?). by apply (finishes_quoted "'" (SQuoted q) _ rest).
    + destruct Ht as (q & rest & ? & -> & ?). by apply (finishes_quoted dquote (DQuoted q) _ rest).
    + rewrite <-str1_app. by apply (finishes_segment (Bare b)).
    + exists "", s. by rewrite string_app_nil.
    + destruct Ht as (q & rest & Hok & -> & Hf). exists (String b q), rest.
      rewrite string_app_assoc in Hf. repeat split; [|done]. simpl in *.
      rewrite Hok. by destruct (Ascii.eqb_spec b "'").
    + exists "", s. by rewrite string_app_nil.
    + destruct Ht as (q & rest & Hok & -> & Hf). exists (String b q), rest.
      rewrite string_app_assoc in Hf. repeat split; [|done]. simpl in Hok |- *.
      rewrite Hok. destruct (Ascii.eqb_spec b dquote); [done|].
      by rewrite Heqb0.
Qed.

(** Quoted spans and bare bytes extend the current token. *)
Lemma tokenize_squoted tokens cur q s :
  segment_ok (SQuoted q) = true →
  tokenize_loop stateSingleQuote tokens cur (q +:+ String "'" s) =
  tokenize_loop stateUnquoted tokens (cur +:+ q) s.
Proof.
  revert cur. induction q as [|c q IH]; intros cur Hq; [by rewrite string_app_nil|].
  rewrite string_app_cons. simpl in Hq. apply andb_true_iff in Hq as [Hc Hq]. bool_hyps.
  cbn [tokenize_loop]. by rewrite Hc, IH, string_app_assoc.
Qed.

Lemma tokenize_dquoted tokens cur q s :
  segment_ok (DQuoted q) = true →
  tokenize_loop stateDoubleQuote tokens cur (q +:+ String dquote s) =
  tokenize_loop stateUnquoted tokens (cur +:+ q) s.
Proof.
  revert cur. induction q as [|c q IH]; intros cur Hq; [by rewrite string_app_nil|].
  rewrite string_app_cons. cbn [segment_ok str_forall] in Hq.
  apply andb_true_iff in Hq as [Hc Hq]. bool_hyps.
  cbn [tokenize_loop]. by rewrite H, H0, IH, string_app_assoc.
Qed.

Lemma allowed_not_special b :
  isUnquotedAllowedByte b = true →
  is_blank b = false ∧ Ascii.eqb b "'" = false ∧ Ascii.eqb b dquote = false.
Proof. destruct b as [[] [] [] [] [] [] [] []]; by vm_compute. Qed.

Lemma tokenize_segment st g tokens cur s :
  st = stateOutside ∨ st = stateUnquoted → segment_ok g = true →
  tokenize_loop st tokens cur (segment_src g +:+ s) =
  tokenize_loop stateUnquoted tokens (cur +:+ segment_val g) s.
Proof.
  intros Hst Hg. destruct g as [b|q|q]; cbn [segment_src segment_val].
  - destruct (allowed_not_special b Hg) as (H1 & H2 & H3). rewrite str1_app.
    simpl in Hg. destruct Hst as [-> | ->]; cbn [tokenize_loop]; by rewrite H1, H2, H3, Hg.
  - rewrite !string_app_assoc, !str1_app, <-tokenize_squoted by done. by destruct Hst as [-> | ->].
  - rewrite !string_app_assoc, !str1_app, <-tokenize_dquoted by done. by destruct Hst as [-> | ->].
Qed.

Lemma tokenize_word w tokens cur s :
  word_ok w = true →
  tokenize_loop stateUnquoted tokens cur (word_src w +:+ s) =
  tokenize_loop stateUnquoted tokens (cur +:+ word_val w) s.
Proof.
  revert cur. induction w as [|g w IH]; intros cur Hw; simpl; [by rewrite string_app_nil|].
  simpl in Hw. apply andb_true_iff in Hw as [Hg Hw].
  by rewrite !string_app_assoc, tokenize_segment, IH, string_app_assoc by auto.
Qed.

Lemma tokenize_blanks tokens s t :
  blanks s = true → tokenize_loop stateOutside tokens "" (s +:+ t) = tokenize_loop stateOutside tokens "" t.
Proof.
  unfold blanks. induction s as [|b s IH]; [done|]. simpl. intros [Hb Hs]%andb_true_iff.
  by rewrite Hb, IH.
Qed.

Lemma tokenize_complete s toks :
  script_words s toks → ∀ tokens, tokenize_loop stateOutside tokens "" s = (tokens ++ toks, false).
Proof.
  induction 1 as [s Hs|s w rest toks Hs Hne Hw Hb _ IH]; intros tokens.
  - rewrite <-(string_app_nil s), tokenize_blanks, app_nil_r by done. done.
  - rewrite tokenize_blanks by done. destruct w as [|g w]; [done|].
    cbn [word_src word_val]. simpl in Hw. apply andb_true_iff in Hw as [Hg Hw].
    rewrite string_app_assoc, tokenize_segment, tokenize_word by auto.
    change ("" +:+ ?x) with x. destruct rest as [|b rest].
    + specialize (IH []). simpl in IH |- *. by simplify_eq.
    + simpl in Hb. specialize (IH (tokens ++ [segment_val g +:+ word_val w])).
      cbn [tokenize_loop] in IH |- *. rewrite Hb in IH |- *. by rewrite IH, <-app_assoc.
Qed.

(** Tokenizer correctness: [tokenizeSimpleScript] accepts a script with
    tokens [toks] exactly when the script spells [toks] in the grammar of bare
    bytes, single-quoted and double-quoted spans; every other script is opaque. *)
Theorem tokenizer_decides_grammar s :
  (∀ toks, tokenizeSimpleScript s = (toks, false) ↔ script_words s toks) ∧
  (tokenizeSimpleScript s = ([], true) ↔ ∀ toks, ¬ script_words s toks).
Proof.
  assert (Hi : ∀ toks, tokenizeSimpleScript s = (toks, false) ↔ script_words s toks).
  { intros toks. split.
    - intros Ht. by apply (tokenize_sound stateOutside "").
    - intros Hw. apply (tokenize_complete _ _ Hw []). }
  split; [done|]. split.
  - intros Ho toks Hw%Hi. congruence.
  - intros Hn. unfold tokenizeSimpleScript in *. rewrite tokenize_tokens.
    destruct (tokenize_loop stateOutside [] "" s) as [more []] eqn:Hs; [done|].
    destruct (Hn more). by apply Hi.
Qed.

(** ** Assignment prefixes *)

Lemma str_span_app p s : (str_span p s).1 +:+ (str_span p s).2 = s.
Proof.
  induction s as [|c s IH]; [done|]. simpl. destruct (p c); [|done].
  destruct (str_span p s) as [a b]. simpl in *. by rewrite string_app_cons, IH.
Qed.

Lemma str_span_forall p s : str_forall p (str_span p s).1 = true.
Proof.
  induction s as [|c s IH]; [done|]. simpl. destruct (p c) eqn:Hc; [|done].
  destruct (str_span p s). simpl in *. by rewrite Hc.
Qed.

Lemma str_span_stop p s c s' : (str_span p s).2 = String c s' → p c = false.
Proof.
  induction s as [|d s IH]; [done|]. simpl. destruct (p d) eqn:Hd.
  - destruct (str_span p s). simpl in *. auto.
  - simpl. by intros [= <- <-].
Qed.

Lemma str_span_all p a s :
  str_forall p a = true → match s with EmptyString => true | String c _ => negb (p c) end = true →
  str_span p (a +:+ s) = (a, s).
Proof.
  intros Ha Hs. induction a as [|c a IH].
  - destruct s as [|c s]; [done|]. simpl. bool_hyps. by rewrite Hs.
  - simpl in Ha. apply andb_true_iff in Ha as [Hc Ha]. rewrite string_app_cons.
    simpl. by rewrite Hc, IH.
Qed.

Lemma length_string_app s t : String.length (s +:+ t) = (String.length s + String.length t)%nat.
Proof. induction s as [|c s IH]; [done|]. rewrite string_app_cons. simpl. by rewrite IH. Qed.

Lemma IndexByte_split s c i :
  IndexByte s c = Some i → s = str_take i s +:+ String c (str_drop (i + 1) s).
Proof.
  revert i. induction s as [|d s IH]; intros i; [done|]. simpl.
  destruct (Ascii.eqb_spec d c) as [->|]; [by intros [= <-]|].
  destruct (IndexByte s c) as [j|]; simpl; intros [= <-]. simpl.
  by rewrite string_app_cons, <-IH.
Qed.

(** [assign_prefix s r]: [s] is clean assignments followed by [r]. *)
Inductive assign_prefix : string → string → Prop :=
| prefix_none r : assign_prefix r r
| prefix_assign bl name value s r :
    blanks bl = true → isValidAssignName name = true → valueBytesAllowed value = true →
    at_boundary s = true → assign_prefix s r →
    assign_prefix (bl +:+ name +:+ String "=" (value +:+ s)) r.

Lemma span_token_boundary s :
  at_boundary (str_span (λ b, negb (is_blank b)) s).2 = true.
Proof.
  destruct (str_span _ s).2 as [|d r] eqn:Hd; [done|].
  apply str_span_stop in Hd. by apply negb_false_iff in Hd.
Qed.

Lemma strip_one_next s r :
  strip_one s = Some (Some r) →
  ∃ bl name value, s = bl +:+ name +:+ String "=" (value +:+ r) ∧ blanks bl = true ∧
    isValidAssignName name = true ∧ valueBytesAllowed value = true ∧ at_boundary r = true.
Proof.
  unfold strip_one. pose proof (str_span_app is_blank s) as Hs.
  pose proof (str_span_forall is_blank s) as Hbl.
  destruct (str_span is_blank s) as [bl rest]. cbn [fst snd] in Hs, Hbl.
  destruct rest as [|c rest0]; [done|].
  pose proof (span_token_boundary (String c rest0)) as Hb.
  set (nb := λ b, negb (is_blank b)) in *. pose proof (str_span_app nb (String c rest0)) as Ht.
  destruct (str_span nb (String c rest0)) as [tok after]. cbn [fst snd] in Ht, Hb.
  destruct (IndexByte tok "=") as [[|eq]|] eqn:Heq; try done.
  destruct (isValidAssignName _) eqn:Hn; cbn [negb]; [|done].
  destruct (valueBytesAllowed _) eqn:Hv; cbn [negb]; [|done]. intros [= <-].
  exists bl, (str_take (S eq) tok), (str_drop (S eq + 1) tok). repeat split; try done.
  rewrite <-Hs, <-Ht. rewrite (IndexByte_split tok "=" (S eq)) at 1 by done.
  by autorewrite with agentsh_str.
Qed.

Lemma strip_one_shorter s r : strip_one s = Some (Some r) → (String.length r < String.length s)%nat.
Proof.
  intros (bl & name & value & -> & _)%strip_one_next.
  rewrite !length_string_app. simpl. rewrite length_string_app. lia.
Qed.

(** The fuel of [stripLeadingAssignments] is enough: the loop returns. *)
Lemma strip_loop_fuel n s : (String.length s < n)%nat → is_Some (strip_loop n s).
Proof.
  revert s. induction n as [|n IH]; intros s Hn; [lia|]. simpl.
  destruct (strip_one s) as [[r|]|] eqn:Hs; [|done|done].
  apply IH. apply strip_one_shorter in Hs. lia.
Qed.

Lemma strip_loop_clean n s r : strip_loop n s = Some (r, false) → assign_prefix s r.
Proof.
  revert s. induction n as [|n IH]; intros s; simpl; [done|].
  destruct (strip_one s) as [[r'|]|] eqn:Hs; [|done|].
  - intros Hr%IH. apply strip_one_next in Hs as (bl & name & value & -> & ?&?&?&?).
    by apply prefix_assign.
  - intros [= ->]. apply prefix_none.
Qed.

Lemma stripLeadingAssignments_clean s r :
  stripLeadingAssignments s = (r, false) → assign_prefix s r.
Proof.
  unfold stripLeadingAssignments.
  destruct (strip_loop_fuel (S (String.length s)) s) as [[r' d] Hr]; [lia|].
  rewrite Hr. intros [= -> ->]. by eapply strip_loop_clean.
Qed.

(** ** Options and wrappers *)

(** A short-option cluster of safe flags, with ([c = true]) or without [-c]. *)
Definition safe_cluster (c : bool) (arg : string) : Prop :=
  ∃ a1 rest, arg = String "-" (String a1 rest) ∧ a1 ≠ "-"%char ∧
    scan_cluster (String a1 rest) false = Some c.

Lemma findShellCFlag_from_Some i args k :
  findShellCFlag_from i args = Some k ↔
  ∃ flags cl rest, args = flags ++ cl :: rest ∧ Forall (safe_cluster false) flags ∧
    safe_cluster true cl ∧ k = (i + length flags)%nat.
Proof.
  revert i. induction args as [|arg args IH]; intros i.
  { simpl. split; [done|]. intros ([|??] & ? & ? & ? & _); done. }
  split.
  - cbn [findShellCFlag_from]. destruct arg as [|a0 [|a1 arg]]; try done.
    destruct (Ascii.eqb_spec a0 "-") as [->|]; [|done].
    destruct (Ascii.eqb_spec a1 "-"); [done|].
    destruct (scan_cluster _ _) as [[]|] eqn:Hsc; [| |done].
    + intros [= <-]. exists [], (String "-" (String a1 arg)), args. simpl.
      repeat split; [constructor| |lia]. by exists a1, arg.
    + intros (flags & cl & rest & -> & Hf & Hc & ->)%IH.
      exists (String "-" (String a1 arg) :: flags), cl, rest. simpl.
      repeat split; [|done|lia]. constructor; [by exists a1, arg|done].
  - intros ([|f flags] & cl & rest & Ha & Hf & (a1 & r & -> & Hd & Hsc) & ->).
    + simplify_eq Ha. intros -> ->. cbn [findShellCFlag_from app].
      rewrite (proj2 (Ascii.eqb_neq a1 "-") Hd), Hsc. simpl. f_equal. lia.
    + simplify_eq Ha. intros -> ->.
      apply Forall_cons in Hf as [(b1 & q & -> & Hd' & Hsc') Hf]. cbn [findShellCFlag_from].
      rewrite (proj2 (Ascii.eqb_neq b1 "-") Hd'), Hsc'. simpl.
      apply IH. exists flags, (String "-" (String a1 r)), rest.
      repeat split; [done| |simpl; lia]. by exists a1, r.
Qed.

(** [wrapped toks r]: [toks] is [r] behind transparent wrappers. *)
Inductive wrapped : list string → list string → Prop :=
| wrapped_none r : wrapped r r
| wrapped_plain w next rest r :
    isTransparentWrapper w = true → HasPrefix next "-" = false →
    wrapped (next :: rest) r → wrapped (w :: next :: rest) r
| wrapped_nice inc rest r :
    isNumericIncrement inc = true → wrapped rest r → wrapped ("nice" :: "-n" :: inc :: rest) r.

(** The token lists the strip loop leaves alone. *)
Definition unwrappable (r : list string) : Prop :=
  match r with
  | w :: next :: _ => isTransparentWrapper w = true →
      w = "command" ∧ (next = "-v" ∨ next = "-V")
  | _ => True
  end.

Lemma unwrappable_fixed r : unwrappable r → stripWrappers r = (r, false).
Proof.
  destruct r as [|w [|next rest]]; try done. cbn [unwrappable stripWrappers].
  destruct (isTransparentWrapper w); [|done]. intros [-> Hn]; [done|].
  destruct Hn as [-> | ->]; simpl; by destruct rest.
Qed.

Lemma stripWrappers_sound toks r :
  stripWrappers toks = (r, false) → wrapped toks r ∧ unwrappable r.
Proof.
  revert r. induction toks as [toks IH] using (induction_ltof1 _ (@length _)). unfold ltof in IH.
  intros r. destruct toks as [|w [|next rest]]; simpl;
    [by intros [= <-]; split; [apply wrapped_none|]..|].
  destruct (isTransparentWrapper w) eqn:Hw;
    [|intros [= <-]; split; [apply wrapped_none|simpl; congruence]].
  destruct (HasPrefix next "-") eqn:Hp; cbn [negb].
  2: { intros [? ?]%(IH (next :: rest)); [|simpl; lia]. split; [by apply wrapped_plain|done]. }
  assert (Hu : (if String.eqb w "command" && (String.eqb next "-v" || String.eqb next "-V")
                then (w :: next :: rest, false) else ([], true)) = (r, false) →
    wrapped (w :: next :: rest) r ∧ unwrappable r).
  { destruct (String.eqb_spec w "command") as [->|]; [|done].
    destruct (String.eqb_spec next "-v"), (String.eqb_spec next "-V"); simpl; try done;
      intros [= <-]; (split; [apply wrapped_none|]); simpl; auto. }
  destruct rest as [|inc rest]; [done|].
  destruct (_ && _ && _) eqn:Hn; [|done]. bool_hyps. subst.
  intros [? ?]%(IH rest); [|simpl; lia]. split; [by apply wrapped_nice|done].
Qed.

Lemma stripWrappers_complete toks r :
  wrapped toks r → unwrappable r → stripWrappers toks = (r, false).
Proof.
  intros Hw Hu. induction Hw as [r|w next rest r Hw Hp _ IH|inc rest r Hi _ IH].
  - by apply unwrappable_fixed.
  - cbn [stripWrappers]. rewrite Hw, Hp. by apply IH.
  - cbn [stripWrappers]. simpl. rewrite Hi. by apply IH.
Qed.

(** ** What a derived command is *)

Section derive.
Context `{GoLib}.

Lemma parse_script_OK arg cmd argv :
  parse_script arg = (cmd, argv, statusOK) →
  ∃ r toks, assign_prefix (TrimSpace arg) r ∧ script_words (TrimSpace r) toks ∧
    wrapped toks (cmd :: argv) ∧ isShellBuiltin cmd = false ∧
    (isTransparentWrapper cmd = true → argv = []).
Proof.
  unfold parse_script. destruct (String.eqb (TrimSpace arg) ""); [done|].
  destruct (stripLeadingAssignments (TrimSpace arg)) as [r []] eqn:Hs; [done|].
  destruct (String.eqb (TrimSpace r) ""); [done|].
  destruct (tokenizeSimpleScript (TrimSpace r)) as [toks []] eqn:Ht; [by case_match|].
  destruct toks as [|t toks]; [done|].
  destruct (stripWrappers (t :: toks)) as [[|u us] []] eqn:Hw; try done.
  destruct (isShellBuiltin u) eqn:Hb; [done|]. intros [= -> ->].
  apply stripWrappers_sound in Hw as [Hw Hu].
  exists r, (t :: toks). repeat split; try done.
  - by apply stripLeadingAssignments_clean.
  - by apply (tokenize_sound stateOutside "").
  - intros Htw. destruct argv as [|a argv]; [done|]. simpl in Hu.
    destruct (Hu Htw) as [-> _]. by vm_compute in Hb.
Qed.

(** C35. Derivation soundness: when [DerivePolicyTarget] replaces a shell
    invocation by [cmd argv], the command is a known shell, its arguments are
    safe option clusters ending in the one with [-c] followed by a script, and
    the script is clean environment assignments followed by words that spell
    [cmd argv] in the quoting grammar behind transparent wrappers; [cmd] is
    never a shell builtin nor a wrapper that still has a command to run. *)
Theorem derive_sound command args cmd argv :
  DerivePolicyTarget command args = (cmd, argv, true) →
  is_shell command = true ∧
  ∃ flags cluster script extra r toks,
    args = flags ++ cluster :: script :: extra ∧
    Forall (safe_cluster false) flags ∧ safe_cluster true cluster ∧
    assign_prefix (TrimSpace script) r ∧ script_words (TrimSpace r) toks ∧
    wrapped toks (cmd :: argv) ∧ isShellBuiltin cmd = false ∧
    (isTransparentWrapper cmd = true → argv = []).
Proof.
  unfold DerivePolicyTarget, parseSimpleShellC, findShellCFlag.
  destruct (is_shell command); simpl; [|done].
  destruct (findShellCFlag_from 0 args) as [k|] eqn:Hk; [|by destruct (hasShellCWithUnsafeOptions args)].
  apply findShellCFlag_from_Some in Hk as (flags & cl & rest & -> & Hf & Hc & ->).
  rewrite lookup_app_r by (simpl; lia).
  replace (0 + length flags + 1 - length flags)%nat with 1%nat by lia. simpl.
  destruct rest as [|script extra]; simpl; [done|].
  destruct (parse_script script) as [[cmd' argv'] []] eqn:Hp; try done.
  intros [= -> ->]. split; [done|]. apply parse_script_OK in Hp as (r & toks & Hp).
  exists flags, cl, script, extra, r, toks. naive_solver.
Qed.

(** ** Printing and deriving back *)

Fixpoint print_words (ws : list word) : string :=
  match ws with
  | [] => ""
  | [w] => word_src w
  | w :: ws => word_src w +:+ String " " (print_words ws)
  end.

(** [NAME=VALUE] assignments, each followed by a space, then the words. *)
Fixpoint print_script (assigns : list (string * string)) (ws : list word) : string :=
  match assigns with
  | [] => print_words ws
  | (name, value) :: assigns =>
      name +:+ String "=" (value +:+ String " " (print_script assigns ws))
  end.

Definition words_ok (ws : list word) : Prop := Forall (λ w, w ≠ [] ∧ word_ok w = true) ws.
Definition assigns_ok (l : list (string * string)) : Prop :=
  Forall (λ '(name, value), isValidAssignName name = true ∧ valueBytesAllowed value = true) l.

Lemma print_words_grammar ws : words_ok ws → script_words (print_words ws) (word_val <$> ws).
Proof.
  induction 1 as [|w ws [Hne Hw] Hws IH]; [by apply words_end|].
  destruct ws as [|w' ws].
  - cbn [print_words]. rewrite <-(string_app_nil (word_src w)).
    apply (words_cons ""); try done; by apply words_end.
  - apply (words_cons ""); try done. by apply script_words_blank.
Qed.

(** Strings that [TrimSpace] keeps. *)
Definition starts_visible (s : string) : Prop := ∃ c s', s = String c s' ∧ visible c = true.
Definition ends_visible (s : string) : Prop := ∃ d, last_byte s = Some d ∧ visible d = true.

Lemma TrimSpace_visible s : starts_visible s → ends_visible s → TrimSpace s = s.
Proof. intros (c & s' & -> & Hc) (d & Hd & Hv). by apply (TrimSpace_id c s' d). Qed.

Lemma starts_visible_app s t : starts_visible s → starts_visible (s +:+ t).
Proof. intros (c & s' & -> & Hc). exists c, (s' +:+ t). by rewrite string_app_cons. Qed.

Lemma ends_visible_app s t : ends_visible t → ends_visible (s +:+ t).
Proof.
  intros (d & Hd & Hv). exists d. rewrite last_byte_app; [done|]. by intros ->.
Qed.

Lemma ends_visible_cons c s : ends_visible s → ends_visible (String c s).
Proof. apply (ends_visible_app (str1 c)). Qed.

#[local] Hint Resolve starts_visible_app ends_visible_app ends_visible_cons : agentsh.

Lemma allowed_visible b : isUnquotedAllowedByte b = true → visible b = true.
Proof. destruct b as [[] [] [] [] [] [] [] []]; by vm_compute. Qed.

Lemma segment_visible g :
  segment_ok g = true → starts_visible (segment_src g) ∧ ends_visible (segment_src g).
Proof.
  destruct g as [b|q|q]; intros Hg; split; cbn [segment_src].
  - exists b, "". by rewrite allowed_visible.
  - exists b. by rewrite allowed_visible.
  - by exists "'"%char, (q +:+ str1 "'").
  - by apply ends_visible_cons, ends_visible_app; exists "'"%char.
  - by exists dquote, (q +:+ str1 dquote).
  - by apply ends_visible_cons, ends_visible_app; exists dquote.
Qed.

Lemma word_visible w :
  w ≠ [] → word_ok w = true → starts_visible (word_src w) ∧ ends_visible (word_src w).
Proof.
  induction w as [|g w IH]; [done|]. intros _ Hw. simpl in Hw.
  apply andb_true_iff in Hw as [Hg Hw]. destruct (segment_visible g Hg) as [H1 H2].
  cbn [word_src]. split; [by auto with agentsh|]. destruct w as [|g' w].
  - by cbn [word_src]; autorewrite with agentsh_str.
  - apply ends_visible_app. by apply IH.
Qed.

Lemma print_words_visible ws :
  ws ≠ [] → words_ok ws → starts_visible (print_words ws) ∧ ends_visible (print_words ws).
Proof.
  induction ws as [|w ws IH]; [done|]. intros _ [[Hne Hw] Hws]%Forall_cons.
  destruct (word_visible w Hne Hw). destruct ws as [|w' ws]; [done|].
  cbn [print_words]. split; [by auto with agentsh|].
  apply ends_visible_app, ends_visible_cons. by apply IH.
Qed.

Lemma assign_name_visible name : isValidAssignName name = true → starts_visible name.
Proof.
  destruct name as [|c name]; [done|]. simpl. intros [Hc _]%andb_true_iff. exists c, name.
  split; [done|]. clear name. by destruct c as [[] [] [] [] [] [] [] []]; vm_compute in Hc |- *.
Qed.

Lemma print_script_visible assigns ws :
  ws ≠ [] → assigns_ok assigns → words_ok ws →
  starts_visible (print_script assigns ws) ∧ ends_visible (print_script assigns ws).
Proof.
  intros Hne Ha Hw. induction Ha as [|[name value] assigns [Hn Hv] _ IH].
  - by apply print_words_visible.
  - cbn [print_script]. split; [by apply starts_visible_app, assign_name_visible|].
    destruct IH. auto with agentsh.
Qed.

(** *** The strip loop on printed scripts *)

Lemma str_forall_impl (p q : ascii → bool) s :
  (∀ c, p c = true → q c = true) → str_forall p s = true → str_forall q s = true.
Proof.
  intros Hpq. induction s as [|c s IH]; [done|]. simpl. intros [Hc Hs]%andb_true_iff.
  by rewrite (Hpq _ Hc), IH.
Qed.

Lemma str_forall_app p s t : str_forall p (s +:+ t) = str_forall p s && str_forall p t.
Proof. induction s as [|c s IH]; [done|]. rewrite string_app_cons. simpl. by rewrite IH, andb_assoc. Qed.

(** Bytes of assignment names and values: no blank, no [=], no quote. *)
Definition plain_byte (c : ascii) : bool :=
  negb (is_blank c) && negb (Ascii.eqb c "=") && negb (Ascii.eqb c "'") && negb (Ascii.eqb c dquote).

Lemma assign_name_plain name : isValidAssignName name = true → str_forall plain_byte name = true.
Proof.
  destruct name as [|c name]; [done|]. simpl. intros [Hc Hn]%andb_true_iff.
  apply andb_true_iff. split.
  - clear Hn. by destruct c as [[] [] [] [] [] [] [] []]; vm_compute in Hc |- *.
  - revert Hn. apply str_forall_impl. intros d.
    destruct d as [[] [] [] [] [] [] [] []]; by vm_compute.
Qed.

Lemma assign_value_plain v : valueBytesAllowed v = true → str_forall plain_byte v = true.
Proof.
  apply str_forall_impl. intros d. destruct d as [[] [] [] [] [] [] [] []]; by vm_compute.
Qed.

Lemma plain_nonblank s : str_forall plain_byte s = true → str_forall (λ b, negb (is_blank b)) s = true.
Proof. apply str_forall_impl. unfold plain_byte. intros c. by destruct (is_blank c). Qed.

Lemma IndexByte_plain s t :
  str_forall plain_byte s = true → IndexByte (s +:+ String "=" t) "=" = Some (String.length s).
Proof.
  induction s as [|c s IH]; [done|]. rewrite string_app_cons. simpl. intros [Hc Hs]%andb_true_iff.
  unfold plain_byte in Hc. destruct (is_blank c), (Ascii.eqb c "="); try done. by rewrite IH.
Qed.

Lemma str_drop_app s c t : str_drop (String.length s + 1) (s +:+ String c t) = t.
Proof. induction s as [|d s IH]; [done|]. rewrite string_app_cons. simpl. done. Qed.

Lemma strip_one_assign bl name value s :
  blanks bl = true → isValidAssignName name = true → valueBytesAllowed value = true →
  at_boundary s = true → strip_one (bl +:+ name +:+ String "=" (value +:+ s)) = Some (Some s).
Proof.
  intros Hbl Hn Hv Hs. pose proof (assign_name_plain _ Hn) as Hpn.
  pose proof (assign_value_plain _ Hv) as Hpv.
  unfold strip_one. rewrite str_span_all; [|done|].
  2: { apply plain_nonblank in Hpn. destruct name as [|c name]; [done|].
       rewrite string_app_cons. simpl in Hpn. by apply andb_true_iff in Hpn as [??]. }
  replace (name +:+ String "=" (value +:+ s)) with ((name +:+ String "=" value) +:+ s)
    by by autorewrite with agentsh_str.
  destruct ((name +:+ String "=" value) +:+ s) as [|c rest] eqn:Hrest; [by destruct name|].
  rewrite <-Hrest, str_span_all; [| |by destruct s; simpl in *; rewrite ?Hs].
  2: { rewrite str_forall_app. simpl. by rewrite !plain_nonblank. }
  rewrite IndexByte_plain by done. destruct (String.length name) as [|n] eqn:Hlen; [by destruct name|].
  rewrite <-Hlen, str_take_app, str_drop_app. by rewrite Hn, Hv.
Qed.

(** A word is never read as an assignment: an [=] in it is behind a quote. *)
Lemma word_token_quoted w rest i :
  word_ok w = true → at_boundary rest = true →
  let tok := (str_span (λ b, negb (is_blank b)) (word_src w +:+ rest)).1 in
  IndexByte tok "=" = Some i → str_forall plain_byte (str_take i tok) = false.
Proof.
  revert i. induction w as [|g w IH]; intros i; cbn [word_src].
  - intros _ Hr. change ("" +:+ rest) with rest. destruct rest as [|b rest]; [done|].
    simpl in *. by rewrite Hr.
  - simpl. intros [Hg Hw]%andb_true_iff Hr. specialize (IH (pred i) Hw Hr).
    rewrite string_app_assoc. destruct g as [b|q|q]; cbn [segment_src].
    + rewrite str1_app. cbn [str_span]. destruct (allowed_not_special b Hg) as (-> & _ & _).
      assert (Heq : Ascii.eqb b "=" = false)
        by (clear -Hg; by destruct b as [[] [] [] [] [] [] [] []]; vm_compute in Hg |- *).
      cbn [negb]. destruct (str_span _ (word_src w +:+ rest)) as [tok after]. simpl in *.
      rewrite Heq. destruct (IndexByte tok "=") as [j|]; simpl; [|done]. intros [= <-]. simpl in *.
      rewrite IH by done. apply andb_false_r.
    + rewrite !string_app_assoc, str1_app. cbn [str_span]. simpl.
      destruct (str_span _ (q +:+ _)) as [tok after]. simpl.
      destruct (IndexByte tok "="); simpl; [|done]. by intros [= <-].
    + rewrite !string_app_assoc, str1_app. cbn [str_span]. simpl.
      destruct (str_span _ (q +:+ _)) as [tok after]. simpl.
      destruct (IndexByte tok "="); simpl; [|done]. by intros [= <-].
Qed.

Lemma strip_one_word bl w rest :
  blanks bl = true → w ≠ [] → word_ok w = true → at_boundary rest = true →
  strip_one (bl +:+ word_src w +:+ rest) = None.
Proof.
  intros Hbl Hne Hw Hr. unfold strip_one.
  destruct (word_visible w Hne Hw) as [(c & s & Hs & Hc) _].
  assert (Hnb : is_blank c = false)
    by (clear -Hc; by destruct c as [[] [] [] [] [] [] [] []]; vm_compute in Hc |- *).
  rewrite str_span_all; [|done|by rewrite Hs, string_app_cons, Hnb].
  pose proof (word_token_quoted w rest) as Hq. rewrite Hs, string_app_cons in Hq |- *.
  destruct (str_span _ (String c (s +:+ rest))) as [tok after]. cbn [fst] in Hq.
  destruct (IndexByte tok "=") as [[|i]|] eqn:Hi; try done.
  specialize (Hq _ Hw Hr eq_refl).
  destruct (isValidAssignName (str_take (S i) tok)) eqn:Hn; [|done].
  apply assign_name_plain in Hn. congruence.
Qed.

Lemma strip_loop_complete s r n :
  assign_prefix s r → strip_one r = None → (String.length s < n)%nat →
  strip_loop n s = Some (r, false).
Proof.
  intros Hp Hr. revert n.
  induction Hp as [r|bl name value s r Hbl Hn Hv Hs _ IH]; intros [|n] Hlen; try lia; simpl.
  - by rewrite Hr.
  - rewrite strip_one_assign by done. apply IH; [done|].
    revert Hlen. rewrite !length_string_app. simpl. rewrite length_string_app. lia.
Qed.

Lemma print_words_first ws :
  ws ≠ [] → words_ok ws → ∃ w rest, print_words ws = word_src w +:+ rest ∧
    w ≠ [] ∧ word_ok w = true ∧ at_boundary rest = true.
Proof.
  destruct ws as [|w ws]; [done|]. intros _ [[Hne Hw] _]%Forall_cons.
  destruct ws as [|w' ws]; [exists w, ""; by rewrite string_app_nil|].
  by exists w, (String " " (print_words (w' :: ws))).
Qed.

Lemma print_script_prefix assigns ws bl :
  ws ≠ [] → assigns_ok assigns → words_ok ws → bl = "" ∨ bl = " " →
  ∃ bl', (bl' = "" ∨ bl' = " ") ∧
    assign_prefix (bl +:+ print_script assigns ws) (bl' +:+ print_words ws).
Proof.
  intros Hne Ha Hw. revert bl.
  induction Ha as [|[name value] assigns [Hn Hv] _ IH]; intros bl Hbl.
  - exists bl. split; [done|apply prefix_none].
  - destruct (IH " ") as (bl' & Hbl' & Hp); [by right|]. exists bl'. split; [done|].
    cbn [print_script]. apply prefix_assign; try done. by destruct Hbl as [-> | ->].
Qed.

Lemma print_script_strip assigns ws :
  ws ≠ [] → assigns_ok assigns → words_ok ws →
  ∃ r, stripLeadingAssignments (print_script assigns ws) = (r, false) ∧
    TrimSpace r = print_words ws.
Proof.
  intros Hne Ha Hw. destruct (print_script_prefix assigns ws "") as (bl & Hbl & Hp); [by auto..|].
  exists (bl +:+ print_words ws). split.
  - unfold stripLeadingAssignments.
    erewrite (strip_loop_complete (print_script assigns ws)); [done|exact Hp| |lia].
    destruct (print_words_first ws Hne Hw) as (w & rest & -> & ? & ? & ?).
    apply strip_one_word; try done. by destruct Hbl as [-> | ->].
  - destruct (print_words_visible ws Hne Hw) as [H1 H2].
    destruct Hbl as [-> | ->]; [|change (TrimSpace (print_words ws) = print_words ws)];
      by apply TrimSpace_visible.
Qed.

Lemma wrapped_nonempty toks c r : wrapped toks (c :: r) → toks ≠ [].
Proof. by inversion 1. Qed.

(** Derivation round trip: a command line printed as a script (clean
    environment assignments, then words in any mixture of bare and quoted spans
    whose values are a command behind transparent wrappers) and handed to a
    known shell behind safe options is derived back to exactly that command,
    unless it is a builtin or a wrapper with a command of its own. *)
Theorem derive_print_roundtrip command flags cluster extra assigns ws cmd argv :
  is_shell command = true → Forall (safe_cluster false) flags → safe_cluster true cluster →
  assigns_ok assigns → words_ok ws → wrapped (word_val <$> ws) (cmd :: argv) →
  isShellBuiltin cmd = false → (isTransparentWrapper cmd = true → argv = []) →
  DerivePolicyTarget command (flags ++ cluster :: print_script assigns ws :: extra)
  = (cmd, argv, true).
Proof.
  intros Hsh Hf Hc Ha Hw Hwr Hb Ht.
  assert (Hne : ws ≠ []) by (apply wrapped_nonempty in Hwr; by destruct ws).
  unfold DerivePolicyTarget, parseSimpleShellC, findShellCFlag. rewrite Hsh. cbn [negb].
  erewrite (proj2 (findShellCFlag_from_Some 0 _ (length flags)));
    [|by exists flags, cluster, (print_script assigns ws :: extra)].
  rewrite lookup_app_r by lia. replace (length flags + 1 - length flags)%nat with 1%nat by lia.
  simpl. unfold parse_script.
  destruct (print_script_visible assigns ws Hne Ha Hw) as [Hs1 Hs2].
  rewrite (TrimSpace_visible _ Hs1 Hs2). destruct Hs1 as (c & s & Hs & _). rewrite Hs.
  cbn [String.eqb]. rewrite <-Hs.
  destruct (print_script_strip assigns ws Hne Ha Hw) as (r & -> & ->).
  destruct (print_words_visible ws Hne Hw) as [(c' & s' & Hs' & _) _].
  rewrite Hs'. cbn [String.eqb]. rewrite <-Hs'. unfold tokenizeSimpleScript.
  rewrite (tokenize_complete _ _ (print_words_grammar ws Hw)). simpl.
  destruct (word_val <$> ws) as [|t toks] eqn:Htoks; [by destruct ws|].
  rewrite (stripWrappers_complete _ _ Hwr); [by rewrite Hb|].
  destruct argv as [|a argv]; [done|]. simpl. intros Hcw. by specialize (Ht Hcw).
Qed.

(** ** Refusals *)

Lemma parse_script_Fallback arg cmd argv :
  parse_script arg = (cmd, argv, statusFallback) →
  ∃ r, assign_prefix (TrimSpace arg) r ∧
    (TrimSpace r = "" ∨ ∃ toks rest, script_words (TrimSpace r) toks ∧ wrapped toks rest ∧
       (rest = [] ∨ ∃ b more, rest = b :: more ∧ isShellBuiltin b = true)).
Proof.
  unfold parse_script. destruct (String.eqb_spec (TrimSpace arg) "") as [Harg|_].
  { intros _. exists "". rewrite Harg. split; [apply prefix_none|by left]. }
  destruct (stripLeadingAssignments (TrimSpace arg)) as [r []] eqn:Hs; [done|].
  apply stripLeadingAssignments_clean in Hs.
  destruct (String.eqb_spec (TrimSpace r) "") as [Hr|_]; [by eauto|].
  destruct (tokenizeSimpleScript (TrimSpace r)) as [toks []] eqn:Ht; [by case_match|].
  apply (tokenize_sound stateOutside "") in Ht. simpl in Ht. specialize (Ht eq_refl).
  intros Hf. exists r. split; [done|]. right. destruct toks as [|t toks].
  { exists [], []. repeat split; [done|apply wrapped_none|by left]. }
  destruct (stripWrappers (t :: toks)) as [rest []] eqn:Hw; [done|].
  apply stripWrappers_sound in Hw as [Hw _]. exists (t :: toks), rest. repeat split; try done.
  destruct rest as [|u us]; [by left|]. right. exists u, us. split; [done|].
  by destruct (isShellBuiltin u).
Qed.

Lemma opaque_scan_iff st tokens cur s :
  (tokenize_loop st tokens cur s).2 = true → 
  opaque_scan st s = "unterminated quote" ∨
  ∃ b, isUnquotedAllowedByte b = false ∧ opaque_scan st s = describeOpaqueByte b.
Proof.
  revert st tokens cur. induction s as [|b s IH]; intros st tokens cur.
  - destruct st; simpl; auto; done.
  - destruct st; cbn [tokenize_loop opaque_scan]; byte_cases; intros Ho; try (by eapply IH);
      right; exists b; (split; [|done]); try done.
    match goal with Hm : str_mem b _ = true |- _ => clear -Hm end.
    by destruct b as [[] [] [] [] [] [] [] []]; vm_compute in * |- *.
Qed.

Lemma describeOpaqueByte_named b :
  describeOpaqueByte b ≠ "" ∧ describeOpaqueByte b ≠ unparsable_script.
Proof. unfold describeOpaqueByte. byte_cases; by split. Qed.

(** Nothing is silently left to the shell's own rule: when an invocation of a
    known shell that carries [-c] is neither derived nor flagged as bypass or
    opaque, then its script is missing, or consists of clean assignments only, or
    spells words that are empty or start with a shell builtin behind the
    transparent wrappers; no external command is named by it. *)
Theorem fallback_runs_no_external_command command args :
  is_shell command = true → hasShellCWithUnsafeOptions args = true →
  DerivePolicyTarget command args = ("", [], false) →
  IsShellCBypassAttempt command args = false → IsOpaqueShellC command args = false →
  ∃ flags cluster more,
    args = flags ++ cluster :: more ∧ safe_cluster true cluster ∧
    match more with
    | [] => True
    | script :: _ => ∃ r, assign_prefix (TrimSpace script) r ∧
        (TrimSpace r = "" ∨ ∃ toks rest, script_words (TrimSpace r) toks ∧ wrapped toks rest ∧
           (rest = [] ∨ ∃ b tl, rest = b :: tl ∧ isShellBuiltin b = true))
    end.
Proof.
  unfold DerivePolicyTarget, IsShellCBypassAttempt, IsOpaqueShellC.
  intros -> Hc. simpl. destruct (parseSimpleShellC args) as [[cmd argv] []] eqn:Hp; try done.
  intros _ _ _. unfold parseSimpleShellC, findShellCFlag in Hp. rewrite Hc in Hp.
  destruct (findShellCFlag_from 0 args) as [k|] eqn:Hk; [|done].
  apply findShellCFlag_from_Some in Hk as (flags & cl & more & -> & _ & Hcl & ->).
  exists flags, cl, more. repeat split; [done|]. destruct more as [|script more]; [done|].
  rewrite lookup_app_r in Hp by (simpl; lia).
  replace (0 + length flags + 1 - length flags)%nat with 1%nat in Hp by lia.
  simpl in Hp. by eapply parse_script_Fallback.
Qed.

Lemma bypass_cluster_scan cl f b : scan_cluster cl f = Some b → bypass_cluster cl f = inr b.
Proof.
  revert f. induction cl as [|ch cl IH]; intros f; simpl; [by intros [= ->]|].
  destruct (Ascii.eqb ch "c"); [apply IH|]. destruct (isSafeShellShortFlag ch); [apply IH|done].
Qed.

Lemma safe_cluster_no_operand a0 a1 rest b :
  scan_cluster (String a1 rest) false = Some b →
  string_in (String a0 (String a1 rest)) ["-o"; "+o"; "-O"; "+O"] = false.
Proof.
  intros Hs. unfold string_in. apply existsb_false_elem. intros x Hx.
  destruct (String.eqb_spec (String a0 (String a1 rest)) x) as [<-|]; [|done].
  rewrite !elem_of_cons, elem_of_nil in Hx.
  destruct Hx as [Hx|[Hx|[Hx|[Hx|[]]]]]; simplify_eq; by vm_compute in Hs.
Qed.

Lemma bypass_scan_found i args k :
  findShellCFlag_from i args = Some k → bypass_scan i args = inr (Some k).
Proof.
  revert i. induction args as [|arg args IH]; intros i; [done|].
  cbn [findShellCFlag_from bypass_scan]. destruct arg as [|a0 [|a1 rest]]; try done.
  destruct (Ascii.eqb_spec a0 "-") as [->|]; [|done].
  destruct (Ascii.eqb a1 "-"); [done|]. cbn [negb andb].
  destruct (scan_cluster _ _) as [b|] eqn:Hs; [|done].
  rewrite (safe_cluster_no_operand _ _ _ _ Hs), (bypass_cluster_scan _ _ _ Hs).
  destruct b; [by intros [= ->]|]. apply IH.
Qed.

Lemma bypass_wrapper_named toks r :
  stripWrappers toks = (r, true) → bypass_wrapper toks ≠ "" ∧ bypass_wrapper toks ≠ unparsable_shell_c.
Proof.
  induction toks as [toks IH] using (induction_ltof1 _ (@length _)). unfold ltof in IH.
  destruct toks as [|w [|next rest]]; [done..|]. cbn [stripWrappers bypass_wrapper].
  destruct (isTransparentWrapper w); [|done].
  destruct (HasPrefix next "-"); cbn [negb]; [|apply (IH (next :: rest)); simpl; lia].
  destruct rest as [|inc rest]; [by intros _|].
  destruct (_ && _ && _); [apply (IH rest); simpl; lia|by intros _].
Qed.

Lemma parse_script_Bypass arg cmd argv :
  parse_script arg = (cmd, argv, statusBypass) →
  bypass_script_reason arg ≠ "" ∧ bypass_script_reason arg ≠ unparsable_shell_c.
Proof.
  unfold parse_script, bypass_script_reason. destruct (String.eqb (TrimSpace arg) ""); [done|].
  destruct (stripLeadingAssignments (TrimSpace arg)) as [r []]; cbn [fst snd]; [by intros _|].
  destruct (String.eqb (TrimSpace r) ""); [done|].
  destruct (tokenizeSimpleScript (TrimSpace r)) as [toks []];
    [by destruct (isTransparentWrapper _)|].
  destruct toks as [|t toks]; [done|].
  destruct (stripWrappers (t :: toks)) as [rest []] eqn:Hw; [intros _; by eapply bypass_wrapper_named|].
  destruct rest as [|u us]; [done|]. by destruct (isShellBuiltin u).
Qed.

(** Refusals are explained: an invocation is classified as opaque exactly
    when [OpaqueReason] is not empty, and the reason then names an unterminated
    quote or a byte outside the bare set, found by a second state machine that
    agrees with the tokenizer; an invocation is a bypass attempt exactly when
    [BypassReason] is not empty, and when the [-c] option itself was readable
    the reason names the offending construct instead of the generic text. *)
Theorem refusal_reasons_agree command args :
  (IsOpaqueShellC command args = true ↔ OpaqueReason command args ≠ "") ∧
  (OpaqueReason command args ≠ "" → OpaqueReason command args = "unterminated quote" ∨
     ∃ b, isUnquotedAllowedByte b = false ∧ OpaqueReason command args = describeOpaqueByte b) ∧
  (findShellCFlag args ≠ None →
   (IsShellCBypassAttempt command args = true ↔ BypassReason command args ≠ "") ∧
   BypassReason command args ≠ unparsable_shell_c).
Proof.
  assert (Ho : IsOpaqueShellC command args = true →
    OpaqueReason command args = "unterminated quote" ∨
    ∃ b, isUnquotedAllowedByte b = false ∧ OpaqueReason command args = describeOpaqueByte b).
  { unfold OpaqueReason. intros Ho. rewrite Ho. revert Ho.
    unfold IsOpaqueShellC, parseSimpleShellC, computeOpaqueReason.
    destruct (negb _); [done|]. destruct (findShellCFlag args) as [k|]; [|by repeat case_match].
    simpl. destruct (args !! (k + 1)%nat) as [arg|]; [|done]. unfold parse_script.
    destruct (String.eqb _ ""); [done|].
    destruct (stripLeadingAssignments _) as [r []]; cbn [fst]; [done|].
    destruct (String.eqb _ ""); [done|]. unfold tokenizeSimpleScript.
    destruct (tokenize_loop stateOutside [] "" (TrimSpace r)) as [toks []] eqn:Ht.
    - intros _. eapply opaque_scan_iff. by rewrite Ht.
    - destruct toks; [done|]. destruct (stripWrappers _) as [[|u us] []]; try done.
      by destruct (isShellBuiltin u). }
  assert (Hne : IsOpaqueShellC command args = true ↔ OpaqueReason command args ≠ "").
  { split; [|by unfold OpaqueReason; case_match].
    intros [-> | (b & _ & ->)]%Ho; [done|apply describeOpaqueByte_named]. }
  split_and!; [done|by intros ?%Hne%Ho|]. intros Hf.
  unfold BypassReason. destruct (IsShellCBypassAttempt command args) eqn:Hb; [|done].
  revert Hb. unfold IsShellCBypassAttempt, parseSimpleShellC, computeBypassReason.
  destruct (negb _); [done|]. destruct (findShellCFlag args) as [k|] eqn:Hk; [|done].
  rewrite (bypass_scan_found 0 args k Hk). simpl.
  destruct (args !! (k + 1)%nat) as [arg|]; [|done].
  destruct (parse_script arg) as [[cmd argv] []] eqn:Hp; try done.
  intros _. apply parse_script_Bypass in Hp as [? ?]. done.
Qed.
End derive.

(** ** Concrete runs *)
Module ShellSample.
#[local] Existing Instance ascii_go.

Fixpoint bare_word (s : string) : word :=
  match s with EmptyString => [] | String c s => Bare c :: bare_word s end.

Definition dq (s : string) : string := String dquote (s +:+ str1 dquote).

Example derive_quoted :
  DerivePolicyTarget "/bin/SH.real" ["-e"; "-lc"; " PATH=/tmp nohup nice -n -5 'shut'down " +:+ dq "now; please" +:+ " "; "x"]
  = ("shutdown", ["now; please"], true).
Proof. vm_compute. reflexivity. Qed.

Example bypass_forms :
  (λ args, IsShellCBypassAttempt "bash" args) <$>
    [["-c"; "exec -a foo shutdown"]; ["-o"; "errexit"; "-c"; "shutdown"]; ["-c"; "PATH=/a:/b shutdown"];
     ["-c"; "nohup --x=1 rm"]; ["-c"; "command -v ls"]; ["-c"; "shutdown now"]]
  = [true; true; true; true; false; false].
Proof. vm_compute. reflexivity. Qed.

Example opaque_reasons :
  (λ s, OpaqueReason "zsh" ["-c"; s]) <$> ["a; b"; "echo 'x"; "ls *.go"; dq "$HOME"; "ls"]
  = ["metacharacter ';'"; "unterminated quote"; "glob '*'"; "expansion '$'"; ""].
Proof. vm_compute. reflexivity. Qed.

Lemma derive_sound_witness :
  ∃ flags cluster script extra,
    ["-e"; "-c"; "A=1 nohup 'shut'down now"] = flags ++ cluster :: script :: extra ∧
    safe_cluster true cluster.
Proof.
  destruct (derive_sound "sh" ["-e"; "-c"; "A=1 nohup 'shut'down now"] "shutdown" ["now"])
    as (_ & flags & cluster & script & extra & r & toks & Ha & _ & Hc & _);
    [vm_compute; reflexivity|].
  exists flags, cluster, script, extra. split; assumption.
Defined.

Lemma derive_print_roundtrip_witness :
  DerivePolicyTarget "/usr/bin/bash"
    (["-l"] ++ "-ec" :: print_script [("A", "1")]
       [bare_word "nohup"; [SQuoted "rm"]; [Bare "-"; DQuoted "rf"]; [SQuoted "/tmp/a b"]] :: ["x"])
  = ("rm", ["-rf"; "/tmp/a b"], true).
Proof.
  apply (derive_print_roundtrip "/usr/bin/bash" ["-l"] "-ec" ["x"] [("A", "1")]
    [bare_word "nohup"; [SQuoted "rm"]; [Bare "-"; DQuoted "rf"]; [SQuoted "/tmp/a b"]]
    "rm" ["-rf"; "/tmp/a b"]).
  - vm_compute; reflexivity.
  - constructor; [|constructor]. exists "l"%char, "". split; [reflexivity|]. by split.
  - exists "e"%char, "c". split; [reflexivity|]. by split.
  - repeat constructor; vm_compute; reflexivity.
  - repeat constructor; try discriminate; vm_compute; reflexivity.
  - apply wrapped_plain; [vm_compute; reflexivity..|]. apply wrapped_none.
  - vm_compute; reflexivity.
  - vm_compute; discriminate.
Defined.

Lemma fallback_runs_no_external_command_witness :
  ∃ flags cluster more, ["-c"; "A=1 command -v ls"] = flags ++ cluster :: more ∧
    safe_cluster true cluster.
Proof.
  destruct (fallback_runs_no_external_command "sh" ["-c"; "A=1 command -v ls"])
    as (flags & cluster & more & Ha & Hc & _); [vm_compute; reflexivity..|].
  exists flags, cluster, more. split; assumption.
Defined.
End ShellSample.
