(* ===== verification/PolicyEngine.v ===== *)
(** * The policy engine ([internal/policy])

    The engine compiles a policy's file, network, command, unix-socket, registry
    and environment rules and answers one question per intercepted operation.

    - data: the rule structs of [model.go], [rules.go] and [env_policy.go], the
      compiled rules and [Decision] of [engine.go];
    - operations: [NewEngine] (up to the signal and HTTP-service rules, which
      other components own), [wrapDecision], [matchCommandRules], [checkCommand],
      [CheckExecve], [CheckFile], [CheckUnixSocket], [CheckRegistry],
      [CheckNetworkIP], [CheckEnv], [MergeEnvPolicy] and [BuildEnv];
    - theorems: a command is judged by the most restrictive verdict found along
      its chain of nested shells, the chain fails closed, first-match semantics
      with the documented defaults, containment of redirected files, and the
      environment filter.

    Paths follow the Unix build of [path/filepath]. The Tor and threat-feed
    coordinators are interfaces of the engine: records of functions. *)
From S2P Require Import Prelude ShellParse.

(** ** [path/filepath] on Unix *)
Definition slash : ascii := "/".

(** [filepath.Base] *)
Definition Base (path : string) : string :=
  if String.eqb path "" then "."
  else
    let p := trim_right (Ascii.eqb slash) path in
    let p := match LastIndexAny p "/" with Some i => str_drop (i + 1) p | None => p end in
    if String.eqb p "" then "/" else p.

(** One element of [filepath.Clean]; the elements kept so far are in reverse. *)
Definition clean_step (rooted : bool) (acc : list string) (seg : string) : list string :=
  if String.eqb seg "" || String.eqb seg "." then acc
  else if String.eqb seg ".." then
    match acc with
    | [] => if rooted then [] else [".."]
    | top :: rest => if String.eqb top ".." then ".." :: acc else rest
    end
  else seg :: acc.

Definition clean_segs (rooted : bool) (segs : list string) : list string :=
  foldl (clean_step rooted) [] segs.

(** [filepath.Clean] *)
Definition Clean (path : string) : string :=
  if String.eqb path "" then "."
  else
    let rooted := HasPrefix path "/" in
    let body := Join (reverse (clean_segs rooted (Split path slash))) "/" in
    if rooted then String slash body
    else if String.eqb body "" then "." else body.

(** [filepath.Join] with two elements *)
Definition JoinPath (a b : string) : string :=
  if negb (String.eqb a "") then Clean (a +:+ String slash b)
  else if negb (String.eqb b "") then Clean b
  else "".

(** ** Data ([model.go], [rules.go], [env_policy.go], [pkg/types]) *)

Definition DecisionAllow : string := "allow".
Definition DecisionDeny : string := "deny".
Definition DecisionApprove : string := "approve".
Definition DecisionRedirect : string := "redirect".
Definition DecisionAudit : string := "audit".
Definition DecisionSoftDelete : string := "soft_delete".

Record ContextConfig := mkContext { MinDepth : Z; MaxDepth : Z }.

Record CommandRedirect := mkCommandRedirect {
  cr_Command : string; cr_Args : list string; cr_ArgsAppend : list string;
  cr_Environment : option (gmap string string) }.

Record FileRule := mkFileRule {
  file_Name : string; file_Paths : list string; file_Operations : list string;
  file_Decision : string; file_Message : string;
  file_RedirectTo : string; file_PreserveTree : bool }.

Record NetworkRule := mkNetworkRule {
  net_Name : string; net_Domains : list string; net_Ports : list Z; net_CIDRs : list string;
  net_Decision : string; net_Message : string }.

Record CommandRule := mkCommandRule {
  cmd_Name : string; cmd_Commands : list string; cmd_ArgsPatterns : list string;
  cmd_Decision : string; cmd_Message : string; cmd_RedirectTo : option CommandRedirect;
  cmd_Context : ContextConfig;
  cmd_EnvAllow : list string; cmd_EnvDeny : list string;
  cmd_EnvMaxBytes : Z; cmd_EnvMaxKeys : Z; cmd_EnvBlockIteration : option bool }.

Record UnixSocketRule := mkUnixRule {
  unix_Name : string; unix_Paths : list string; unix_Operations : list string;
  unix_Decision : string; unix_Message : string }.

Record RegistryRule := mkRegistryRule {
  reg_Name : string; reg_Paths : list string; reg_Operations : list string;
  reg_Decision : string; reg_Message : string; reg_Priority : Z }.

Record DnsRedirectRule := mkDnsRule {
  dns_Name : string; dns_Match : string; dns_ResolveTo : string; dns_Visibility : string;
  dns_OnFailure : string }.

Record ConnectRedirectTLSConfig := mkConnectTLS { tls_Mode : string; tls_SNI : string }.
Record ConnectRedirectRule := mkConnectRule {
  con_Name : string; con_Match : string; con_RedirectTo : string; con_RedirectToUnix : string;
  con_TLS : option ConnectRedirectTLSConfig; con_Visibility : string; con_Message : string;
  con_OnFailure : string }.

Record EnvPolicy := mkEnvPolicy {
  env_Allow : list string; env_Deny : list string; env_MaxBytes : Z; env_MaxKeys : Z;
  env_BlockIteration : bool }.

(** The rule sections of [Policy] the engine reads. *)
Record Policy := mkPolicy {
  FileRules : list FileRule; NetworkRules : list NetworkRule; CommandRules : list CommandRule;
  UnixRules : list UnixSocketRule; RegistryRules : list RegistryRule;
  DnsRedirectRules : list DnsRedirectRule; ConnectRedirectRules : list ConnectRedirectRule;
  pol_EnvPolicy : EnvPolicy }.

Record ResolvedEnvPolicy := mkResolvedEnv {
  res_Allow : list string; res_Deny : list string; res_MaxBytes : Z; res_MaxKeys : Z;
  res_BlockIteration : bool }.

Inductive ApprovalMode := ApprovalModeShadow | ApprovalModeEnforced.
Record ApprovalInfo := mkApproval { Required : bool; Mode : ApprovalMode }.

Record RedirectInfo := mkRedirectInfo {
  ri_Command : string; ri_Args : list string; ri_ArgsAppend : list string;
  ri_Environment : option (gmap string string); ri_Reason : string }.

Record FileRedirectInfo := mkFileRedirect {
  OriginalPath : string; RedirectPath : string; fr_Operation : string; fr_Reason : string }.

Record TorVerdict := mkTorVerdict {
  Vector : string; tor_Mode : string; tor_Decision : string; tor_Target : string }.

Record ThreatCheckResult := mkThreat { FeedName : string; MatchedDomain : string }.

Record Decision := mkDecision {
  PolicyDecision : string; EffectiveDecision : string; Rule : string; Message : string;
  Approval : option ApprovalInfo; Redirect : option RedirectInfo;
  FileRedirect : option FileRedirectInfo; dec_EnvPolicy : ResolvedEnvPolicy;
  ThreatFeed : string; ThreatMatch : string; ThreatAction : string; Tor : option TorVerdict }.

Definition empty_env : ResolvedEnvPolicy := mkResolvedEnv [] [] 0 0 false.

(** The composite literals of [wrapDecision]: the fields not named are zero. *)
Definition decision_lit (pd ed rule msg : string) : Decision :=
  mkDecision pd ed rule msg None None None empty_env "" "" "" None.

Definition set_approval (a : ApprovalInfo) (d : Decision) : Decision :=
  mkDecision (PolicyDecision d) (EffectiveDecision d) (Rule d) (Message d) (Some a) (Redirect d)
    (FileRedirect d) (dec_EnvPolicy d) (ThreatFeed d) (ThreatMatch d) (ThreatAction d) (Tor d).
Definition set_redirect (r : option RedirectInfo) (d : Decision) : Decision :=
  mkDecision (PolicyDecision d) (EffectiveDecision d) (Rule d) (Message d) (Approval d) r
    (FileRedirect d) (dec_EnvPolicy d) (ThreatFeed d) (ThreatMatch d) (ThreatAction d) (Tor d).
Definition set_file_redirect (r : FileRedirectInfo) (d : Decision) : Decision :=
  mkDecision (PolicyDecision d) (EffectiveDecision d) (Rule d) (Message d) (Approval d) (Redirect d)
    (Some r) (dec_EnvPolicy d) (ThreatFeed d) (ThreatMatch d) (ThreatAction d) (Tor d).
Definition set_env (v : ResolvedEnvPolicy) (d : Decision) : Decision :=
  mkDecision (PolicyDecision d) (EffectiveDecision d) (Rule d) (Message d) (Approval d) (Redirect d)
    (FileRedirect d) v (ThreatFeed d) (ThreatMatch d) (ThreatAction d) (Tor d).
Definition set_threat (feed domain action : string) (d : Decision) : Decision :=
  mkDecision (PolicyDecision d) (EffectiveDecision d) (Rule d) (Message d) (Approval d) (Redirect d)
    (FileRedirect d) (dec_EnvPolicy d) feed domain action (Tor d).
Definition set_tor (v : TorVerdict) (d : Decision) : Decision :=
  mkDecision (PolicyDecision d) (EffectiveDecision d) (Rule d) (Message d) (Approval d) (Redirect d)
    (FileRedirect d) (dec_EnvPolicy d) (ThreatFeed d) (ThreatMatch d) (ThreatAction d) (Some v).

(** ** Depth contexts ([rules.go]) *)

Definition DefaultContext : ContextConfig := mkContext 0 (-1).

Definition MatchesDepth (c : ContextConfig) (depth : Z) : bool :=
  if (depth <? MinDepth c)%Z then false
  else if (0 <=? MaxDepth c)%Z && (MaxDepth c <? depth)%Z then false
  else true.

(** The flag loop of [parseArray]: [hasDirect], [hasNested], or the unknown value. *)
Fixpoint parse_flags (arr : list string) (hasDirect hasNested : bool) : Result string (bool * bool) :=
  match arr with
  | [] => Ok (hasDirect, hasNested)
  | v :: arr =>
      if String.eqb v "direct" then parse_flags arr true hasNested
      else if String.eqb v "nested" then parse_flags arr hasDirect true
      else Err ("unknown context value: " +:+ v)
  end.
Definition parseArray (c : ContextConfig) (arr : list string) : Result string ContextConfig :=
  let! (d, n) := parse_flags arr false false in
  Ok (if d && n then mkContext 0 (-1)
      else if d then mkContext 0 0
      else if n then mkContext 1 (-1)
      else c).

(** The object form of [UnmarshalYAML]: [max_depth] absent means unlimited. *)
Definition context_of_object (minDepth : Z) (maxDepth : option Z) : ContextConfig :=
  mkContext minDepth (default (-1)%Z maxDepth).

(** ** Environment policy ([env_policy.go]) *)

(** The loop of [uniqStrings] with its set [m]. *)
Fixpoint uniq_from (m : gset string) (l : list string) : list string :=
  match l with
  | [] => []
  | s :: l => if decide (s ∈ m) then uniq_from m l else s :: uniq_from ({[s]} ∪ m) l
  end.
Definition uniqStrings (l : list string) : list string := uniq_from ∅ l.

Definition MergeEnvPolicy (global : EnvPolicy) (rule : CommandRule) : ResolvedEnvPolicy :=
  let allow := if decide (0 < length (cmd_EnvAllow rule))%nat then cmd_EnvAllow rule else env_Allow global in
  let deny := if decide (0 < length (cmd_EnvDeny rule))%nat then cmd_EnvDeny rule else env_Deny global in
  mkResolvedEnv (uniqStrings allow) (uniqStrings deny)
    (if (0 <? cmd_EnvMaxBytes rule)%Z then cmd_EnvMaxBytes rule else env_MaxBytes global)
    (if (0 <? cmd_EnvMaxKeys rule)%Z then cmd_EnvMaxKeys rule else env_MaxKeys global)
    (default (env_BlockIteration global) (cmd_EnvBlockIteration rule)).

(** [CommandRule{}] *)
Definition zero_rule : CommandRule :=
  mkCommandRule "" [] [] "" "" None (mkContext 0 0) [] [] 0 0 None.

Definition defaultSecretDeny : list string :=
  ["AWS_SECRET_ACCESS_KEY"; "AWS_ACCESS_KEY_ID"; "AWS_SESSION_TOKEN"; "AWS_PROFILE";
   "GOOGLE_APPLICATION_CREDENTIALS"; "GCP_SERVICE_ACCOUNT";
   "AZURE_CLIENT_SECRET"; "AZURE_CLIENT_ID"; "AZURE_TENANT_ID"; "AZURE_SUBSCRIPTION_ID";
   "SSH_AUTH_SOCK"; "SSH_AGENT_PID"; "DOCKER_HOST"; "DOCKER_TLS_VERIFY";
   "KUBECONFIG"; "GITHUB_TOKEN"; "GH_TOKEN";
   "LD_PRELOAD"; "LD_LIBRARY_PATH"; "LD_AUDIT"; "LD_DEBUG"; "LD_DEBUG_OUTPUT";
   "LD_DYNAMIC_WEAK"; "LD_HWCAP_MASK"; "LD_ORIGIN_PATH"; "LD_PROFILE"; "LD_PROFILE_OUTPUT";
   "LD_SHOW_AUXV"; "LD_TRACE_LOADED_OBJECTS";
   "DYLD_INSERT_LIBRARIES"; "DYLD_LIBRARY_PATH"; "DYLD_FRAMEWORK_PATH";
   "DYLD_FALLBACK_LIBRARY_PATH"; "DYLD_FALLBACK_FRAMEWORK_PATH"; "DYLD_IMAGE_SUFFIX";
   "DYLD_PRINT_LIBRARIES";
   "PYTHONPATH"; "PYTHONSTARTUP"; "PYTHONHOME"; "PYTHONUSERBASE";
   "RUBYLIB"; "RUBYOPT"; "PERL5LIB"; "PERL5OPT"; "PERLLIB"; "NODE_PATH"; "NODE_OPTIONS";
   "BASH_ENV"; "ENV"; "SHELLOPTS"; "BASHOPTS"; "CDPATH"; "GLOBIGNORE"; "MAILPATH";
   "PROMPT_COMMAND"; "GIT_ASKPASS"; "SSH_ASKPASS"; "GIT_SSH_COMMAND"].

Definition isInternalVar (name : string) : bool := HasPrefix name "AGENTSH_".

Definition splitKV (kv : string) : option (string * string) :=
  match IndexByte kv "=" with
  | None | Some O => None
  | Some idx => Some (str_take idx kv, str_drop (idx + 1) kv)
  end.

(** [sort.Strings]: byte order. *)
Fixpoint string_ltb (s t : string) : bool :=
  match s, t with
  | _, EmptyString => false
  | EmptyString, _ => true
  | String a s, String b t =>
      if (byte_val a <? byte_val b)%Z then true
      else if (byte_val b <? byte_val a)%Z then false
      else string_ltb s t
  end.

Inductive EnvError := env_exceeds_max_keys (max : Z) | env_exceeds_max_bytes (max : Z).

Section env.
Context `{GlobLib}.

(** Patterns that do not compile are skipped. *)
Definition compilePatterns (patterns : list string) : list glob :=
  omap (λ p, glob_Compile p []) patterns.

Definition matchesAnyPattern (name : string) (patterns : list string) (compiled : list glob) : bool :=
  existsb (λ p, String.eqb p name) patterns || existsb (λ g, glob_Match g name) compiled.

(** The closures [isDenied] and [isAllowed] of [BuildEnv]. *)
Definition env_isDenied (pol : ResolvedEnvPolicy) (name : string) : bool :=
  matchesAnyPattern name (res_Deny pol) (compilePatterns (res_Deny pol)) ||
  (bool_decide (res_Allow pol = []) && existsb (String.eqb name) defaultSecretDeny).
Definition env_isAllowed (pol : ResolvedEnvPolicy) (name : string) : bool :=
  if env_isDenied pol name then false
  else if bool_decide (res_Allow pol = []) then true
  else matchesAnyPattern name (res_Allow pol) (compilePatterns (res_Allow pol)).

(** The three loops that fill the map [allowed]; Go's iteration order over
    [addKeys] does not matter because its keys are distinct. *)
Definition env_base (pol : ResolvedEnvPolicy) (baseEnv : list string) : gmap string string :=
  foldl (λ m kv, match splitKV kv with
                 | Some (k, v) => if negb (String.eqb v "") && env_isAllowed pol k then <[k := v]> m else m
                 | None => m
                 end) ∅ baseEnv.
Definition env_allowed (pol : ResolvedEnvPolicy) (baseEnv : list string)
    (addKeys : gmap string string) : gmap string string :=
  let m := filter (λ kv, env_isAllowed pol kv.1 = true) addKeys ∪ env_base pol baseEnv in
  filter (λ kv, isInternalVar kv.1 = true) addKeys ∪ m.

Definition env_pair (kv : string * string) : string := kv.1 +:+ String "=" kv.2.

Definition BuildEnv (pol : ResolvedEnvPolicy) (baseEnv : list string) (addKeys : gmap string string)
    : Result EnvError (list string) :=
  let pairs := SliceStable string_ltb (env_pair <$> map_to_list (env_allowed pol baseEnv addKeys)) in
  if (0 <? res_MaxKeys pol)%Z && (res_MaxKeys pol <? Z.of_nat (length pairs))%Z
  then Err (env_exceeds_max_keys (res_MaxKeys pol))
  else
    let total := foldl (λ n p, (n + Z.of_nat (String.length p) + 1)%Z) 0%Z pairs in
    if (0 <? res_MaxBytes pol)%Z && (res_MaxBytes pol <? total)%Z
    then Err (env_exceeds_max_bytes (res_MaxBytes pol))
    else Ok pairs.
End env.

(** ** Compiled rules and [NewEngine] ([engine.go]) *)

(** [TorChecker] and [ThreatChecker], the engine's optional coordinators. *)
Record TorChecker := mkTorChecker {
  EvalExecve : string → list string → option TorVerdict;
  EvalConnect : option (list Z) → Z → option TorVerdict;
  EvalOnionName : string → option TorVerdict }.
Record ThreatChecker := mkThreatChecker { threat_Check : string → option ThreatCheckResult }.

(** [sort.Slice]: some sorted permutation; it promises no order among equals. *)
Class SortLib := {
  sort_Slice : ∀ {A}, (A → A → bool) → list A → list A;
}.
Class SortLaws `{SortLib} := {
  sort_Slice_perm : ∀ {A} (less : A → A → bool) l, sort_Slice less l ≡ₚ l;
  sort_Slice_sorted : ∀ {A} (less : A → A → bool) l,
    (∀ a b, less a b = true → less b a = false) →
    (∀ a b c, less b a = false → less c b = false → less c a = false) →
    StronglySorted (λ a b, less b a = false) (sort_Slice less l) }.

Inductive EngineError :=
| file_glob_error (rule pat : string) | network_domain_error (rule pat : string)
| network_cidr_error (rule cidr : string) | command_arg_error (rule pat : string)
| unix_glob_error (rule pat : string) | registry_glob_error (rule pat : string)
| env_allow_error (pat : string) | env_deny_error (pat : string).

Section engine.
Context `{GoLib, GlobLib, RegexpLib, NetLib, SortLib}.

Record compiledFileRule := mkCompiledFile {
  cf_rule : FileRule; cf_globs : list glob; cf_ops : gset string;
  cf_redirectTo : string; cf_preserveTree : bool }.
Record compiledNetworkRule := mkCompiledNetwork {
  cn_rule : NetworkRule; cn_domainGlobs : list glob; cn_cidrs : list (list Z * list Z);
  cn_ports : gset Z }.
Record compiledCommandRule := mkCompiledCommand {
  cc_rule : CommandRule; cc_basenames : gset string; cc_basenameGlobs : list glob;
  cc_fullPaths : gset string; cc_pathGlobs : list glob; cc_argsRegexes : list regexp }.
Record compiledUnixRule := mkCompiledUnix {
  cu_rule : UnixSocketRule; cu_paths : list glob; cu_ops : gset string }.
Record compiledRegistryRule := mkCompiledRegistry {
  cg_rule : RegistryRule; cg_globs : list glob; cg_ops : gset string; cg_priority : Z }.

(** The pattern is a nil pointer when the regular expression does not compile. *)
Record compiledDnsRedirectRule := mkCompiledDns {
  cd_rule : DnsRedirectRule; cd_pattern : option regexp }.
Record compiledConnectRedirectRule := mkCompiledConnect {
  ck_rule : ConnectRedirectRule; ck_pattern : option regexp }.

Record Engine := mkEngine {
  policy : Policy; enforceApprovals : bool; enforceRedirects : bool;
  compiledFileRules : list compiledFileRule; compiledNetworkRules : list compiledNetworkRule;
  compiledCommandRules : list compiledCommandRule; compiledUnixRules : list compiledUnixRule;
  compiledRegistryRules : list compiledRegistryRule;
  hasRestrictiveCommandRule : bool;
  dnsRedirectRules : list compiledDnsRedirectRule;
  connectRedirectRules : list compiledConnectRedirectRule;
  compiledEnvAllow : list glob; compiledEnvDeny : list glob;
  threatStore : option ThreatChecker; threatAction : string; torChecker : option TorChecker }.

Definition opt_err {E A} (o : option A) (e : E) : Result E A :=
  match o with Some a => Ok a | None => Err e end.

(** [for _, op := range r.Operations { cr.ops[strings.ToLower(op)] = struct{}{} }] *)
Definition lower_set (ops : list string) : gset string := list_to_set (ToLower <$> ops).

Definition compile_file_rule (r : FileRule) : Result EngineError compiledFileRule :=
  let! globs := rmap (λ pat, opt_err (glob_Compile pat [slash]) (file_glob_error (file_Name r) pat))
                  (file_Paths r) in
  Ok (mkCompiledFile r globs (lower_set (file_Operations r)) (file_RedirectTo r) (file_PreserveTree r)).

Definition compile_domain (rule pat : string) : Result EngineError glob :=
  match glob_Compile (ToLower pat) ["."%char] with
  | Some g => Ok g
  | None => opt_err (glob_Compile (ToLower pat) []) (network_domain_error rule pat)
  end.
Definition compile_network_rule (r : NetworkRule) : Result EngineError compiledNetworkRule :=
  let! globs := rmap (compile_domain (net_Name r)) (net_Domains r) in
  let! cidrs := rmap (λ c, opt_err (net_ParseCIDR c) (network_cidr_error (net_Name r) c)) (net_CIDRs r) in
  Ok (mkCompiledNetwork r globs cidrs (list_to_set (net_Ports r))).

(** One entry of [r.Commands]. *)
Definition add_command (cr : compiledCommandRule) (c : string) : compiledCommandRule :=
  let c := TrimSpace c in
  if String.eqb c "" then cr
  else if Contains c "/" then
    let exact := mkCompiledCommand (cc_rule cr) (cc_basenames cr) (cc_basenameGlobs cr)
                   ({[ToLower c]} ∪ cc_fullPaths cr) (cc_pathGlobs cr) (cc_argsRegexes cr) in
    if ContainsAny c "*?[" then
      match glob_Compile c [slash] with
      | None => exact
      | Some g => mkCompiledCommand (cc_rule cr) (cc_basenames cr) (cc_basenameGlobs cr)
                    (cc_fullPaths cr) (cc_pathGlobs cr ++ [g]) (cc_argsRegexes cr)
      end
    else exact
  else
    let exact := mkCompiledCommand (cc_rule cr) ({[ToLower c]} ∪ cc_basenames cr) (cc_basenameGlobs cr)
                   (cc_fullPaths cr) (cc_pathGlobs cr) (cc_argsRegexes cr) in
    if ContainsAny c "*?[" then
      match glob_Compile c [] with
      | None => exact
      | Some g => mkCompiledCommand (cc_rule cr) (cc_basenames cr) (cc_basenameGlobs cr ++ [g])
                    (cc_fullPaths cr) (cc_pathGlobs cr) (cc_argsRegexes cr)
      end
    else exact.

Definition compile_command_rule (r : CommandRule) : Result EngineError compiledCommandRule :=
  let cr := foldl add_command (mkCompiledCommand r ∅ [] ∅ [] []) (cmd_Commands r) in
  let! res := rmap (λ pat, opt_err (regexp_Compile pat) (command_arg_error (cmd_Name r) pat))
                (cmd_ArgsPatterns r) in
  Ok (mkCompiledCommand (cc_rule cr) (cc_basenames cr) (cc_basenameGlobs cr) (cc_fullPaths cr)
        (cc_pathGlobs cr) res).

Definition is_restrictive (r : compiledCommandRule) : bool :=
  string_in (ToLower (cmd_Decision (cc_rule r)))
    [DecisionDeny; DecisionRedirect; DecisionSoftDelete; DecisionApprove; DecisionAudit].

Definition compile_unix_path (rule pat : string) : Result EngineError glob :=
  match glob_Compile pat [slash] with
  | Some g => Ok g
  | None => opt_err (glob_Compile pat []) (unix_glob_error rule pat)
  end.
Definition compile_unix_rule (r : UnixSocketRule) : Result EngineError compiledUnixRule :=
  let! globs := rmap (compile_unix_path (unix_Name r)) (unix_Paths r) in
  Ok (mkCompiledUnix r globs (lower_set (unix_Operations r))).

(** Doubling of backslashes: [strings.ReplaceAll] of one by two. *)
Fixpoint escape_backslash (s : string) : string :=
  match s with
  | EmptyString => EmptyString
  | String c s =>
      if Ascii.eqb c "\" then String c (String c (escape_backslash s)) else String c (escape_backslash s)
  end.
Definition compile_registry_rule (r : RegistryRule) : Result EngineError compiledRegistryRule :=
  let! globs := rmap (λ pat, opt_err (glob_Compile (escape_backslash pat) [])
                               (registry_glob_error (reg_Name r) pat)) (reg_Paths r) in
  Ok (mkCompiledRegistry r globs (lower_set (reg_Operations r)) (reg_Priority r)).

Definition registry_less (a b : compiledRegistryRule) : bool := (cg_priority b <? cg_priority a)%Z.

(** [NewEngine] through the environment patterns; the signal and HTTP-service
    compilers that follow do not touch these fields. *)
Definition NewEngine (p : Policy) (approvals redirects : bool) : Result EngineError Engine :=
  let! files := rmap compile_file_rule (FileRules p) in
  let! nets := rmap compile_network_rule (NetworkRules p) in
  let! cmds := rmap compile_command_rule (CommandRules p) in
  let! unixs := rmap compile_unix_rule (UnixRules p) in
  let! regs := rmap compile_registry_rule (RegistryRules p) in
  let! allow := rmap (λ pat, opt_err (glob_Compile pat []) (env_allow_error pat))
                  (env_Allow (pol_EnvPolicy p)) in
  let! deny := rmap (λ pat, opt_err (glob_Compile pat []) (env_deny_error pat))
                 (env_Deny (pol_EnvPolicy p)) in
  Ok (mkEngine p approvals redirects files nets cmds unixs (sort_Slice registry_less regs)
        (existsb is_restrictive cmds)
        ((λ r, mkCompiledDns r (regexp_Compile (dns_Match r))) <$> DnsRedirectRules p)
        ((λ r, mkCompiledConnect r (regexp_Compile (con_Match r))) <$> ConnectRedirectRules p)
        allow deny None "" None).

(** [SetThreatStore] and [SetTorPolicy]. *)
Definition SetThreatStore (e : Engine) (store : option ThreatChecker) (action : string) : Engine :=
  mkEngine (policy e) (enforceApprovals e) (enforceRedirects e) (compiledFileRules e)
    (compiledNetworkRules e) (compiledCommandRules e) (compiledUnixRules e)
    (compiledRegistryRules e) (hasRestrictiveCommandRule e) (dnsRedirectRules e)
    (connectRedirectRules e) (compiledEnvAllow e)
    (compiledEnvDeny e) store
    (if String.eqb action "deny" || String.eqb action "audit" then action else "deny") (torChecker e).
Definition SetTorPolicy (e : Engine) (tc : option TorChecker) : Engine :=
  mkEngine (policy e) (enforceApprovals e) (enforceRedirects e) (compiledFileRules e)
    (compiledNetworkRules e) (compiledCommandRules e) (compiledUnixRules e)
    (compiledRegistryRules e) (hasRestrictiveCommandRule e) (dnsRedirectRules e)
    (connectRedirectRules e) (compiledEnvAllow e)
    (compiledEnvDeny e) (threatStore e) (threatAction e) tc.

(** ** Decisions *)

Definition toRedirectInfo (r : option CommandRedirect) (msg : string) : option RedirectInfo :=
  match r with
  | None => None
  | Some r => if String.eqb (TrimSpace (cr_Command r)) "" then None
              else Some (mkRedirectInfo (cr_Command r) (cr_Args r) (cr_ArgsAppend r) (cr_Environment r) msg)
  end.

Definition wrapDecision (e : Engine) (decision rule msg : string) (redirect : option CommandRedirect)
    : Decision :=
  let pd := ToLower decision in
  if String.eqb pd DecisionAllow then decision_lit pd pd rule msg
  else if String.eqb pd DecisionDeny then decision_lit pd pd rule msg
  else if String.eqb pd DecisionApprove then
    if enforceApprovals e
    then set_approval (mkApproval true ApprovalModeEnforced) (decision_lit pd pd rule msg)
    else set_approval (mkApproval true ApprovalModeShadow) (decision_lit pd DecisionAllow rule msg)
  else if String.eqb pd DecisionRedirect then
    if enforceRedirects e
    then set_redirect (toRedirectInfo redirect msg) (decision_lit pd pd rule msg)
    else set_redirect (toRedirectInfo redirect msg) (decision_lit pd DecisionAllow rule msg)
  else if String.eqb pd DecisionAudit then decision_lit pd DecisionAllow rule msg
  else if String.eqb pd DecisionSoftDelete then decision_lit pd DecisionAllow rule msg
  else decision_lit DecisionDeny DecisionDeny "invalid-policy-decision" "invalid decision in policy".

Definition matchOp (ops : gset string) (op : string) : bool :=
  bool_decide (ops = ∅) || bool_decide ("*" ∈ ops) || bool_decide (op ∈ ops).

(** ** Commands *)

Definition args_match (r : compiledCommandRule) (args : list string) : bool :=
  bool_decide (cc_argsRegexes r = []) ||
  existsb (λ re, regexp_MatchString re (Join args " ")) (cc_argsRegexes r).

Definition no_patterns (r : compiledCommandRule) : bool :=
  bool_decide (cc_basenames r = ∅) && bool_decide (cc_basenameGlobs r = []) &&
  bool_decide (cc_fullPaths r = ∅) && bool_decide (cc_pathGlobs r = []).

(** The pattern test of [matchCommandRules]. *)
Definition commandMatched (r : compiledCommandRule) (command : string) : bool :=
  let cmdLower := ToLower command in
  let cmdBase := ToLower (Base command) in
  let cmdBaseNorm := TrimSuffix cmdBase ".real" in
  no_patterns r
  || bool_decide (cmdLower ∈ cc_fullPaths r)
  || existsb (λ g, glob_Match g cmdLower || glob_Match g command) (cc_pathGlobs r)
  || (bool_decide (cmdBase ∈ cc_basenames r)
      || (negb (String.eqb cmdBaseNorm cmdBase) && bool_decide (cmdBaseNorm ∈ cc_basenames r)))
  || existsb (λ g, glob_Match g cmdBase || glob_Match g (Base command)
                   || (negb (String.eqb cmdBaseNorm cmdBase) && glob_Match g cmdBaseNorm))
       (cc_basenameGlobs r).

Definition command_rule_applies (command : string) (args : list string) (r : compiledCommandRule) : bool :=
  MatchesDepth (cmd_Context (cc_rule r)) 0 && commandMatched r command && args_match r args.

Definition rule_decision (e : Engine) (r : CommandRule) : Decision :=
  set_env (MergeEnvPolicy (pol_EnvPolicy (policy e)) r)
    (wrapDecision e (cmd_Decision r) (cmd_Name r) (cmd_Message r) (cmd_RedirectTo r)).
Definition default_command_decision (e : Engine) (name : string) : Decision :=
  set_env (MergeEnvPolicy (pol_EnvPolicy (policy e)) zero_rule)
    (wrapDecision e DecisionDeny name "" None).

Definition matchCommandRules (e : Engine) (command : string) (args : list string) : Decision * bool :=
  match find_first (command_rule_applies command args) (compiledCommandRules e) with
  | Some r => (rule_decision e (cc_rule r), true)
  | None => (default_command_decision e "default-deny-commands", false)
  end.

Definition decisionStrictness (d : string) : Z :=
  if String.eqb d DecisionDeny then 4
  else if String.eqb d DecisionRedirect || String.eqb d DecisionSoftDelete then 3
  else if String.eqb d DecisionApprove then 2
  else if String.eqb d DecisionAudit then 1
  else 0.

Inductive ShellCOpaqueMode := ShellCOpaqueEnforce | ShellCOpaqueAllow | ShellCOpaqueDeny.
Definition ParseShellCOpaqueMode (s : string) : ShellCOpaqueMode :=
  if String.eqb s "allow" then ShellCOpaqueAllow
  else if String.eqb s "deny" then ShellCOpaqueDeny
  else ShellCOpaqueEnforce.

Definition maxShellCDeriveDepth : nat := 4.

(** [if dec := ...; strictness(dec) > resultStrictness { ... result = dec }]: an
    audit or approve verdict keeps the environment of the result it replaces. *)
Definition supersede (result dec : Decision) : Decision :=
  if (decisionStrictness (PolicyDecision result) <? decisionStrictness (PolicyDecision dec))%Z then
    if String.eqb (PolicyDecision dec) DecisionAudit || String.eqb (PolicyDecision dec) DecisionApprove
    then set_env (dec_EnvPolicy result) dec else dec
  else result.

Definition bypass_decision (e : Engine) (cur : string) (curArgs : list string) : Decision :=
  let reason := BypassReason cur curArgs in
  wrapDecision e DecisionDeny "shellc-wrapper-bypass"
    (if String.eqb reason "" then "bypass attempt via unparsable shell-c wrapper"
     else "bypass attempt: " +:+ reason) None.

Definition opaque_decision (e : Engine) (cur : string) (curArgs : list string) : Decision :=
  let reason := OpaqueReason cur curArgs in
  wrapDecision e DecisionDeny "shellc-opaque-script"
    ((if String.eqb reason "" then "opaque shell script cannot be safely parsed for policy pre-check"
      else "opaque shell script: contains " +:+ reason)
     +:+ "; set sandbox.seccomp.shellc.opaque=allow to run it without per-exec enforcement, or enable execve enforcement (seccomp.execve + unix_sockets, or ptrace) to run it under policy") None.

Definition depth_decision (e : Engine) : Decision :=
  wrapDecision e DecisionDeny "shellc-depth-exceeded"
    "nested shell-c chain exceeded max derivation depth" None.

Definition opaque_denies (active : bool) (mode : ShellCOpaqueMode) : bool :=
  match mode with
  | ShellCOpaqueAllow => false
  | ShellCOpaqueDeny => true
  | ShellCOpaqueEnforce => negb active
  end.

(** The body run when [DerivePolicyTarget] refuses. *)
Definition refused (e : Engine) (active : bool) (mode : ShellCOpaqueMode)
    (result : Decision) (cur : string) (curArgs : list string) : Decision :=
  if IsShellCBypassAttempt cur curArgs then supersede result (bypass_decision e cur curArgs)
  else if hasRestrictiveCommandRule e && IsOpaqueShellC cur curArgs then
    if opaque_denies active mode then supersede result (opaque_decision e cur curArgs) else result
  else result.

(** The derivation loop, [n] iterations left; it returns [result], [cur] and
    [curArgs] as the loop leaves them. *)
Fixpoint derive_loop (e : Engine) (active : bool) (mode : ShellCOpaqueMode) (n : nat)
    (result : Decision) (cur : string) (curArgs : list string) : Decision * (string * list string) :=
  match n with
  | O => (result, (cur, curArgs))
  | S n =>
      match DerivePolicyTarget cur curArgs with
      | (_, _, false) => (refused e active mode result cur curArgs, (cur, curArgs))
      | (derivedCmd, derivedArgs, true) =>
          let (dec, matched) := matchCommandRules e derivedCmd derivedArgs in
          derive_loop e active mode n (if matched then supersede result dec else result)
            derivedCmd derivedArgs
      end
  end.

Definition checkCommand (e : Engine) (command : string) (args : list string)
    (execveEnforcementActive : bool) (opaqueMode : ShellCOpaqueMode) : Decision :=
  let (result, cur) := derive_loop e execveEnforcementActive opaqueMode maxShellCDeriveDepth
                         (matchCommandRules e command args).1 command args in
  match DerivePolicyTarget cur.1 cur.2 with
  | (_, _, true) => supersede result (depth_decision e)
  | _ => result
  end.
Definition CheckCommand (e : Engine) (command : string) (args : list string) : Decision :=
  checkCommand e command args false ShellCOpaqueEnforce.

(** The pattern test of [CheckExecve]: no [.real] normalization. *)
Definition execveMatched (r : compiledCommandRule) (filename : string) : bool :=
  let cmdLower := ToLower filename in
  let cmdBase := ToLower (Base filename) in
  no_patterns r
  || bool_decide (cmdLower ∈ cc_fullPaths r)
  || existsb (λ g, glob_Match g cmdLower || glob_Match g filename) (cc_pathGlobs r)
  || bool_decide (cmdBase ∈ cc_basenames r)
  || existsb (λ g, glob_Match g cmdBase || glob_Match g (Base filename)) (cc_basenameGlobs r).

Definition execve_rule_applies (filename : string) (argv : list string) (depth : Z)
    (r : compiledCommandRule) : bool :=
  MatchesDepth (cmd_Context (cc_rule r)) depth && execveMatched r filename && args_match r argv.

Definition tor_deny (e : Engine) (v : TorVerdict) : Decision :=
  set_tor v (wrapDecision e DecisionDeny ("tor:" +:+ Vector v) "blocked by Tor policy" None).

Definition CheckExecve (e : Engine) (filename : string) (argv : list string) (depth : Z) : Decision :=
  let rules :=
    match find_first (execve_rule_applies filename argv depth) (compiledCommandRules e) with
    | Some r => rule_decision e (cc_rule r)
    | None => default_command_decision e "default-deny-execve"
    end in
  match torChecker e ≫= λ tc, EvalExecve tc filename argv with
  | None => rules
  | Some v =>
      if String.eqb (tor_Decision v) "deny"
      then set_env (MergeEnvPolicy (pol_EnvPolicy (policy e)) zero_rule) (tor_deny e v)
      else set_tor v rules
  end.

(** ** Files, sockets and registry *)

Definition isReadOperation (op : string) : bool :=
  string_in op ["open"; "read"; "stat"; "list"; "readlink"; "access"].

Definition computeFileRedirect (originalPath operation targetBase : string) (preserveTree : bool)
    (msg : string) : FileRedirectInfo :=
  let newPath := if preserveTree then JoinPath targetBase originalPath
                 else JoinPath targetBase (Base originalPath) in
  mkFileRedirect originalPath newPath operation msg.

Definition file_rule_applies (p operation : string) (r : compiledFileRule) : bool :=
  matchOp (cf_ops r) operation && existsb (λ g, glob_Match g p) (cf_globs r).

Definition CheckFile (e : Engine) (p operation : string) : Decision :=
  let operation := ToLower operation in
  match find_first (file_rule_applies p operation) (compiledFileRules e) with
  | Some r =>
      let dec := wrapDecision e (file_Decision (cf_rule r)) (file_Name (cf_rule r))
                   (file_Message (cf_rule r)) None in
      if negb (String.eqb (cf_redirectTo r) "") && String.eqb (PolicyDecision dec) DecisionRedirect
      then set_file_redirect (computeFileRedirect p operation (cf_redirectTo r) (cf_preserveTree r)
                                (file_Message (cf_rule r))) dec
      else dec
  | None =>
      if isReadOperation operation then wrapDecision e DecisionAllow "default-allow-reads" "" None
      else wrapDecision e DecisionDeny "default-deny-files" "" None
  end.

Definition HasSoftDeleteFileRule (e : Engine) : bool :=
  existsb (λ r, String.eqb (ToLower (file_Decision (cf_rule r))) DecisionSoftDelete)
    (compiledFileRules e).

Definition unix_rule_applies (path operation : string) (r : compiledUnixRule) : bool :=
  matchOp (cu_ops r) operation && existsb (λ g, glob_Match g path) (cu_paths r).
Definition CheckUnixSocket (e : Engine) (path operation : string) : Decision :=
  match find_first (unix_rule_applies path (ToLower (TrimSpace operation))) (compiledUnixRules e) with
  | Some r => wrapDecision e (unix_Decision (cu_rule r)) (unix_Name (cu_rule r))
                (unix_Message (cu_rule r)) None
  | None => wrapDecision e DecisionDeny "default-deny-unix" "" None
  end.

Definition registry_rule_applies (path operation : string) (r : compiledRegistryRule) : bool :=
  matchOp (cg_ops r) operation &&
  existsb (λ g, glob_Match g path || glob_Match g (ToUpper path)) (cg_globs r).
Definition CheckRegistry (e : Engine) (path operation : string) : Decision :=
  match find_first (registry_rule_applies path (ToLower operation)) (compiledRegistryRules e) with
  | Some r => wrapDecision e (reg_Decision (cg_rule r)) (reg_Name (cg_rule r))
                (reg_Message (cg_rule r)) None
  | None => wrapDecision e DecisionDeny "default-deny-registry" "" None
  end.

(** ** Network *)

(** [net.IPNet.Contains] on addresses in [To4] form. *)
Fixpoint masked_eq (nn m ip : list Z) : bool :=
  match nn, m, ip with
  | n :: nn, k :: m, i :: ip => (Z.land n k =? Z.land i k)%Z && masked_eq nn m ip
  | _, _, _ => true
  end.
Definition IPNet_Contains (n : list Z * list Z) (ip : list Z) : bool :=
  bool_decide (length ip = length n.1) && masked_eq n.1 n.2 ip.

Definition network_rule_applies (domain : string) (ips : list (list Z)) (port : Z)
    (r : compiledNetworkRule) : bool :=
  (bool_decide (cn_ports r = ∅) || bool_decide (port ∈ cn_ports r)) &&
  (bool_decide (cn_domainGlobs r = []) ||
   existsb (λ g, negb (String.eqb domain "") && glob_Match g domain) (cn_domainGlobs r)) &&
  (bool_decide (cn_cidrs r = []) ||
   existsb (λ cand, existsb (λ cidr, IPNet_Contains cidr cand) (cn_cidrs r)) ips).

Definition threat_lookup (e : Engine) (domain : string) : option ThreatCheckResult :=
  threatStore e ≫= λ store, if String.eqb domain "" then None else threat_Check store domain.

Definition threat_deny (e : Engine) (t : ThreatCheckResult) : Decision :=
  set_threat (FeedName t) (MatchedDomain t) "deny"
    (wrapDecision e "deny" ("threat-feed:" +:+ FeedName t)
       ("domain matched threat feed: " +:+ FeedName t +:+ " (matched: " +:+ MatchedDomain t +:+ ")") None).

(** The rule loop and the default, with the audit metadata of the threat feed. *)
Definition network_rules_decision (e : Engine) (domain : string) (ips : list (list Z)) (port : Z)
    (threat : option ThreatCheckResult) : Decision :=
  let dec :=
    match find_first (network_rule_applies domain ips port) (compiledNetworkRules e) with
    | Some r => wrapDecision e (net_Decision (cn_rule r)) (net_Name (cn_rule r))
                  (net_Message (cn_rule r)) None
    | None => wrapDecision e DecisionDeny "default-deny-network" "" None
    end in
  match threat with
  | Some t => set_threat (FeedName t) (MatchedDomain t) "audit" dec
  | None => dec
  end.

(** [CheckNetworkIP] after the Tor check. *)
Definition network_check (e : Engine) (domain : string) (ip : option (list Z)) (port : Z) : Decision :=
  let domain := ToLower (TrimSpace domain) in
  let ips := match ip with
             | Some ip => [ip]
             | None => match net_ParseIP domain with Some ip => [ip] | None => [] end
             end in
  match threat_lookup e domain with
  | Some t => if String.eqb (threatAction e) "deny" then threat_deny e t
              else network_rules_decision e domain ips port (Some t)
  | None => network_rules_decision e domain ips port None
  end.

Definition CheckNetworkIP (e : Engine) (domain : string) (ip : option (list Z)) (port : Z) : Decision :=
  match torChecker e ≫= λ tc, EvalConnect tc ip port with
  | None => network_check e domain ip port
  | Some v => if String.eqb (tor_Decision v) "deny" then tor_deny e v
              else set_tor v (network_check e domain ip port)
  end.

(** ** DNS and connect redirects *)

Record DnsRedirectResult := mkDnsResult {
  dr_Matched : bool; dr_Rule : string; dr_ResolveTo : string; dr_Visibility : string;
  dr_OnFailure : string }.

Definition or_else (s d : string) : string := if String.eqb s "" then d else s.

(** [MatchString] on a nil pattern panics: the loops return [None] there. *)
Fixpoint redirect_match {R} (pattern : R → option regexp) (s : string) (rules : list R)
    : option (option R) :=
  match rules with
  | [] => Some None
  | r :: rules =>
      match pattern r with
      | None => None
      | Some re => if regexp_MatchString re s then Some (Some r) else redirect_match pattern s rules
      end
  end.

Definition EvaluateDnsRedirect (e : Engine) (hostname : string) : option DnsRedirectResult :=
  let hostname := TrimSuffix (ToLower (TrimSpace hostname)) "." in
  r ← redirect_match cd_pattern hostname (dnsRedirectRules e);
  match r with
  | Some r =>
      let r := cd_rule r in
      Some (mkDnsResult true (dns_Name r) (dns_ResolveTo r) (or_else (dns_Visibility r) "audit_only")
              (or_else (dns_OnFailure r) "fail_closed"))
  | None => Some (mkDnsResult false "" "" "" "")
  end.

Record ConnectRedirectResult := mkConnectResult {
  kr_Matched : bool; kr_Rule : string; kr_RedirectTo : string; kr_RedirectToUnix : string;
  kr_TLSMode : string; kr_SNI : string; kr_Visibility : string; kr_Message : string;
  kr_OnFailure : string }.

Definition EvaluateConnectRedirect (e : Engine) (hostPort : string) : option ConnectRedirectResult :=
  let hostPort := TrimSpace hostPort in
  let hostPort :=
    match net_SplitHostPort hostPort with
    | Some (host, port) => net_JoinHostPort (TrimSuffix (ToLower host) ".") port
    | None => TrimSuffix (ToLower hostPort) "."
    end in
  r ← redirect_match ck_pattern hostPort (connectRedirectRules e);
  match r with
  | Some r =>
      let r := ck_rule r in
      let (mode, sni) := match con_TLS r with
                         | Some t => (or_else (tls_Mode t) "passthrough", tls_SNI t)
                         | None => ("passthrough", "")
                         end in
      Some (mkConnectResult true (con_Name r) (con_RedirectTo r) (con_RedirectToUnix r) mode sni
              (or_else (con_Visibility r) "audit_only") (con_Message r)
              (or_else (con_OnFailure r) "fail_closed"))
  | None => Some (mkConnectResult false "" "" "" "" "" "" "" "")
  end.

(** ** Environment variables *)

Record EnvDecision := mkEnvDecision { Allowed : bool; MatchedBy : string; Pattern : string }.

(** The index of the first glob that matches: [for i, g := range globs]. *)
Fixpoint match_index (name : string) (i : nat) (globs : list glob) : option nat :=
  match globs with
  | [] => None
  | g :: globs => if glob_Match g name then Some i else match_index name (S i) globs
  end.

Definition CheckEnv (e : Engine) (name : string) : EnvDecision :=
  match match_index name 0 (compiledEnvDeny e) with
  | Some i => mkEnvDecision false "deny" (default "" (env_Deny (pol_EnvPolicy (policy e)) !! i))
  | None =>
      match compiledEnvAllow e with
      | [] =>
          match find_first (String.eqb name) defaultSecretDeny with
          | Some secret => mkEnvDecision false "default-secret-deny" secret
          | None => mkEnvDecision true "default-allow" ""
          end
      | allow =>
          match match_index name 0 allow with
          | Some i => mkEnvDecision true "allow" (default "" (env_Allow (pol_EnvPolicy (policy e)) !! i))
          | None => mkEnvDecision false "default-deny" ""
          end
      end
  end.
End engine.

(** ** Specification and properties *)

Section properties.
Context `{GoLib, GlobLib, RegexpLib, NetLib, SortLib}.

(** What the verdicts mean once enforcement switches are applied. *)
Definition effective_of (e : Engine) (pd : string) : string :=
  if String.eqb pd DecisionDeny then DecisionDeny
  else if String.eqb pd DecisionApprove && enforceApprovals e then DecisionApprove
  else if String.eqb pd DecisionRedirect && enforceRedirects e then DecisionRedirect
  else DecisionAllow.

Definition verdicts : list string :=
  [DecisionAllow; DecisionDeny; DecisionApprove; DecisionRedirect; DecisionAudit; DecisionSoftDelete].

(** The verdict a decision string of a policy stands for: unknown strings deny. *)
Definition verdict_of (decision : string) : string :=
  if string_in (ToLower decision) verdicts then ToLower decision else DecisionDeny.

Definition decision_ok (e : Engine) (d : Decision) : Prop :=
  string_in (PolicyDecision d) verdicts = true ∧
  EffectiveDecision d = effective_of e (PolicyDecision d).

Lemma wrapDecision_verdict e decision rule msg red :
  PolicyDecision (wrapDecision e decision rule msg red) = verdict_of decision.
Proof.
  unfold wrapDecision, verdict_of, verdicts, string_in. set (pd := ToLower decision). simpl.
  repeat match goal with |- context [String.eqb pd ?x] => destruct (String.eqb_spec pd x) end;
    try done; by repeat case_match.
Qed.

Lemma wrapDecision_ok e decision rule msg red : decision_ok e (wrapDecision e decision rule msg red).
Proof.
  unfold decision_ok, wrapDecision. set (pd := ToLower decision). clearbody pd.
  repeat match goal with |- context [String.eqb pd ?x] =>
    destruct (String.eqb_spec pd x); [subst pd|] end;
    unfold effective_of; simpl;
    try destruct (enforceApprovals e); try destruct (enforceRedirects e); by vm_compute.
Qed.

Lemma set_env_ok e v d : decision_ok e (set_env v d) ↔ decision_ok e d.
Proof. done. Qed.

Lemma matchCommandRules_ok e command args : decision_ok e (matchCommandRules e command args).1.
Proof. unfold matchCommandRules. case_match; apply set_env_ok, wrapDecision_ok. Qed.

Lemma supersede_ok e r d : decision_ok e r → decision_ok e d → decision_ok e (supersede r d).
Proof. unfold supersede. by repeat case_match. Qed.

Lemma supersede_strictness r d :
  decisionStrictness (PolicyDecision (supersede r d))
  = Z.max (decisionStrictness (PolicyDecision r)) (decisionStrictness (PolicyDecision d)).
Proof.
  unfold supersede. destruct (Z.ltb_spec (decisionStrictness (PolicyDecision r))
    (decisionStrictness (PolicyDecision d))); [|lia].
  destruct (_ || _); simpl; lia.
Qed.

Lemma strictness_bounds d : (0 <= decisionStrictness d <= 4)%Z.
Proof. unfold decisionStrictness. repeat case_match; lia. Qed.

Lemma strictness_deny d : (4 <= decisionStrictness d)%Z → d = DecisionDeny.
Proof. unfold decisionStrictness. repeat case_match; bool_hyps; try lia. done. Qed.

(** *** Nested shells *)

(** The verdict of the rule that explicitly matches a level; 0 when none does. *)
Definition explicit_strictness (e : Engine) (command : string) (args : list string) : Z :=
  match matchCommandRules e command args with
  | (d, true) => decisionStrictness (PolicyDecision d)
  | (_, false) => 0
  end.

(** 4 when the level at which derivation stops must be refused. *)
Definition refusal_strictness (e : Engine) (active : bool) (mode : ShellCOpaqueMode)
    (command : string) (args : list string) : Z :=
  if IsShellCBypassAttempt command args
     || (hasRestrictiveCommandRule e && IsOpaqueShellC command args && opaque_denies active mode)
  then 4 else 0.

Definition derivable (command : string) (args : list string) : bool :=
  (DerivePolicyTarget command args).2.

(** The abstract verdict on the commands nested in a shell invocation: the
    strictest explicit rule of the levels below, a refusal where derivation
    stops, and a deny when [n] levels did not reach the bottom. *)
Fixpoint nested_strictness (e : Engine) (active : bool) (mode : ShellCOpaqueMode) (n : nat)
    (command : string) (args : list string) : Z :=
  match n with
  | O => if derivable command args then 4 else 0
  | S n =>
      match DerivePolicyTarget command args with
      | (c, a, true) => Z.max (explicit_strictness e c a) (nested_strictness e active mode n c a)
      | _ => refusal_strictness e active mode command args
      end
  end.

Lemma deny_verdict : verdict_of DecisionDeny = DecisionDeny.
Proof. done. Qed.

Lemma refused_strictness e active mode r c a :
  decisionStrictness (PolicyDecision (refused e active mode r c a))
  = Z.max (decisionStrictness (PolicyDecision r)) (refusal_strictness e active mode c a).
Proof.
  pose proof (strictness_bounds (PolicyDecision r)). unfold refused, refusal_strictness.
  destruct (IsShellCBypassAttempt c a); simpl.
  { by rewrite supersede_strictness; unfold bypass_decision; rewrite wrapDecision_verdict. }
  destruct (hasRestrictiveCommandRule e && IsOpaqueShellC c a); simpl; [|lia].
  destruct (opaque_denies active mode); [|lia].
  by rewrite supersede_strictness; unfold opaque_decision; rewrite wrapDecision_verdict.
Qed.

Lemma derive_loop_strictness e active mode n r c a :
  let '(r', cur) := derive_loop e active mode n r c a in
  let final := match DerivePolicyTarget cur.1 cur.2 with
               | (_, _, true) => supersede r' (depth_decision e) | _ => r' end in
  decisionStrictness (PolicyDecision final)
  = Z.max (decisionStrictness (PolicyDecision r)) (nested_strictness e active mode n c a).
Proof.
  revert r c a. induction n as [|n IH]; intros r c a; simpl.
  - pose proof (strictness_bounds (PolicyDecision r)). unfold derivable.
    destruct (DerivePolicyTarget c a) as [[c' a'] []]; simpl; [|lia].
    by rewrite supersede_strictness; unfold depth_decision; rewrite wrapDecision_verdict.
  - destruct (DerivePolicyTarget c a) as [[c' a'] []] eqn:Hd.
    + unfold explicit_strictness. destruct (matchCommandRules e c' a') as [d m].
      specialize (IH (if m then supersede r d else r) c' a').
      destruct (derive_loop _ _ _ _ _ _ _) as [r' cur]. rewrite IH.
      destruct m; [rewrite supersede_strictness; lia|].
      pose proof (strictness_bounds (PolicyDecision r)). lia.
    + simpl. rewrite Hd. apply refused_strictness.
Qed.

Lemma derive_loop_ok e active mode n r c a :
  decision_ok e r → decision_ok e (derive_loop e active mode n r c a).1.
Proof.
  revert r c a. induction n as [|n IH]; intros r c a Hr; simpl; [done|].
  destruct (DerivePolicyTarget c a) as [[c' a'] []].
  - pose proof (matchCommandRules_ok e c' a') as Hm. destruct (matchCommandRules e c' a') as [d []];
      apply IH; [by apply supersede_ok|done].
  - simpl. unfold refused. repeat case_match; try done; apply supersede_ok; try done; apply wrapDecision_ok.
Qed.

Lemma checkCommand_strictness e command args active mode :
  decisionStrictness (PolicyDecision (checkCommand e command args active mode))
  = Z.max (decisionStrictness (PolicyDecision (matchCommandRules e command args).1))
      (nested_strictness e active mode maxShellCDeriveDepth command args).
Proof.
  unfold checkCommand.
  pose proof (derive_loop_strictness e active mode maxShellCDeriveDepth
    (matchCommandRules e command args).1 command args) as Hs.
  by destruct (derive_loop _ _ _ _ _ _ _) as [r cur].
Qed.

Lemma checkCommand_ok e command args active mode :
  decision_ok e (checkCommand e command args active mode).
Proof.
  unfold checkCommand.
  pose proof (derive_loop_ok e active mode maxShellCDeriveDepth _ command args
    (matchCommandRules_ok e command args)) as Hok.
  destruct (derive_loop _ _ _ _ _ _ _) as [r cur]. simpl in Hok.
  destruct (DerivePolicyTarget cur.1 cur.2) as [[? ?] []]; [|done].
  apply supersede_ok; [done|apply wrapDecision_ok].
Qed.

(** C28. Command verdict: [checkCommand] returns the most restrictive of the outer
    command's own verdict and the abstract verdict on the commands nested in it
    (strictest explicit rule at any level, refusal of bypass and opaque scripts,
    deny beyond the depth limit); the effective decision is the policy decision
    with the approval and redirect switches applied. *)
Theorem checkCommand_most_restrictive e command args active mode :
  let d := checkCommand e command args active mode in
  decisionStrictness (PolicyDecision d)
  = Z.max (decisionStrictness (PolicyDecision (matchCommandRules e command args).1))
      (nested_strictness e active mode maxShellCDeriveDepth command args) ∧
  decision_ok e d.
Proof. split; [apply checkCommand_strictness|apply checkCommand_ok]. Qed.

(** The levels below a shell invocation, outermost first, at most [n]. *)
Fixpoint shell_levels (n : nat) (l : string * list string) : list (string * list string) :=
  match n with
  | O => []
  | S n => match DerivePolicyTarget l.1 l.2 with
           | (c, a, true) => (c, a) :: shell_levels n (c, a)
           | _ => []
           end
  end.

(** The level at which the derivation loop stops. *)
Definition stop_level (n : nat) (l : string * list string) : string * list string :=
  default l (last (shell_levels n l)).

Lemma stop_level_derive n c a c' a' :
  DerivePolicyTarget c a = (c', a', true) → stop_level (S n) (c, a) = stop_level n (c', a').
Proof.
  intros Hd. unfold stop_level. cbn [shell_levels fst snd]. rewrite Hd.
  rewrite last_cons. by destruct (last _).
Qed.

Lemma shell_levels_derive n c a c' a' :
  DerivePolicyTarget c a = (c', a', true) →
  shell_levels (S n) (c, a) = (c', a') :: shell_levels n (c', a').
Proof. intros Hd. cbn [shell_levels fst snd]. by rewrite Hd. Qed.

Lemma shell_levels_stop n c a c' a' :
  DerivePolicyTarget c a = (c', a', false) → shell_levels (S n) (c, a) = [].
Proof. intros Hd. cbn [shell_levels fst snd]. by rewrite Hd. Qed.

Lemma nested_explicit e active mode n l l' :
  l' ∈ shell_levels n l →
  (explicit_strictness e l'.1 l'.2 <= nested_strictness e active mode n l.1 l.2)%Z.
Proof.
  revert l. induction n as [|n IH]; intros [c a]; [set_solver|]. cbn [nested_strictness fst snd].
  destruct (DerivePolicyTarget c a) as [[c' a'] []] eqn:Hd.
  - rewrite (shell_levels_derive _ _ _ _ _ Hd). intros [->|Hl]%elem_of_cons; [simpl; lia|].
    apply IH in Hl. simpl in Hl. lia.
  - rewrite (shell_levels_stop _ _ _ _ _ Hd). set_solver.
Qed.

Lemma nested_refusal e active mode n l :
  (length (shell_levels n l) < n)%nat →
  (refusal_strictness e active mode (stop_level n l).1 (stop_level n l).2
   <= nested_strictness e active mode n l.1 l.2)%Z.
Proof.
  revert l. induction n as [|n IH]; intros [c a]; [simpl; lia|]. cbn [nested_strictness fst snd].
  destruct (DerivePolicyTarget c a) as [[c' a'] []] eqn:Hd.
  - rewrite (shell_levels_derive _ _ _ _ _ Hd), (stop_level_derive _ _ _ _ _ Hd). simpl.
    intros Hlen. specialize (IH (c', a')). simpl in IH. lia.
  - intros _. unfold stop_level. rewrite (shell_levels_stop _ _ _ _ _ Hd). simpl. lia.
Qed.

Lemma nested_deep e active mode n l :
  length (shell_levels (S n) l) = S n → nested_strictness e active mode n l.1 l.2 = 4%Z.
Proof.
  revert l. induction n as [|n IH]; intros [c a].
  - simpl. unfold derivable. by destruct (DerivePolicyTarget c a) as [[c' a'] []].
  - cbn [nested_strictness fst snd]. destruct (DerivePolicyTarget c a) as [[c' a'] []] eqn:Hd.
    + rewrite (shell_levels_derive _ _ _ _ _ Hd). cbn [length]. intros [= Hlen].
      specialize (IH (c', a') Hlen). cbn [fst snd] in IH. rewrite IH. unfold explicit_strictness.
      destruct (matchCommandRules e c' a') as [d []]; [|done].
      pose proof (strictness_bounds (PolicyDecision d)). lia.
    + by rewrite (shell_levels_stop _ _ _ _ _ Hd).
Qed.

(** Strictness 4 means deny, in policy and in effect. *)
Lemma nested_deny e active mode command args :
  (4 <= nested_strictness e active mode maxShellCDeriveDepth command args)%Z →
  PolicyDecision (checkCommand e command args active mode) = DecisionDeny ∧
  EffectiveDecision (checkCommand e command args active mode) = DecisionDeny.
Proof.
  intros Hn. pose proof (checkCommand_strictness e command args active mode) as Hs.
  assert (Hd : PolicyDecision (checkCommand e command args active mode) = DecisionDeny)
    by (apply strictness_deny; lia).
  split; [done|]. destruct (checkCommand_ok e command args active mode) as [_ ->]. by rewrite Hd.
Qed.

(** C7. Nested shells fail closed. With [levels] the commands derived from an
    invocation, at most four deep: a rule that denies any of them denies the
    whole invocation; so does a wrapper bypass at the level where derivation
    stops above the limit, and a fifth level. An opaque script at that level is denied
    when the policy has a restrictive command rule and the opaque mode is deny, or is
    enforce and execve enforcement is not active. *)
Theorem nested_shells_fail_closed e command args active mode :
  let levels := shell_levels maxShellCDeriveDepth (command, args) in
  let stop := stop_level maxShellCDeriveDepth (command, args) in
  (∃ l d, l ∈ levels ∧ matchCommandRules e l.1 l.2 = (d, true) ∧ PolicyDecision d = DecisionDeny) ∨
  ((length levels < maxShellCDeriveDepth)%nat ∧
   (IsShellCBypassAttempt stop.1 stop.2 = true ∨
    (hasRestrictiveCommandRule e = true ∧ IsOpaqueShellC stop.1 stop.2 = true ∧
     opaque_denies active mode = true))) ∨
  length (shell_levels (S maxShellCDeriveDepth) (command, args)) = S maxShellCDeriveDepth →
  let d := checkCommand e command args active mode in
  PolicyDecision d = DecisionDeny ∧ EffectiveDecision d = DecisionDeny.
Proof.
  intros levels stop Hbad. apply nested_deny. destruct Hbad as [(l & d & Hl & Hm & Hd)|[[Hlen Hr]|Hdeep]].
  - apply (nested_explicit e active mode) in Hl. unfold explicit_strictness in Hl.
    rewrite Hm, Hd in Hl. exact Hl.
  - pose proof (nested_refusal e active mode _ (command, args) Hlen) as Hn.
    change (refusal_strictness e active mode stop.1 stop.2
            <= nested_strictness e active mode maxShellCDeriveDepth command args)%Z in Hn.
    unfold refusal_strictness in Hn.
    destruct Hr as [Hb|(Hr & Ho & Hm)]; [by rewrite Hb in Hn|].
    by rewrite Hr, Ho, Hm, orb_true_r in Hn.
  - pose proof (nested_deep e active mode maxShellCDeriveDepth (command, args) Hdeep) as Hn.
    simpl in Hn |- *. lia.
Qed.

Lemma nested_exact e active mode n l :
  length (shell_levels n l) = n → derivable (stop_level n l).1 (stop_level n l).2 = false →
  nested_strictness e active mode n l.1 l.2
  = foldr Z.max 0%Z ((λ l, explicit_strictness e l.1 l.2) <$> shell_levels n l).
Proof.
  revert l. induction n as [|n IH]; intros [c a].
  - simpl. intros _ Hd. unfold stop_level in Hd. simpl in Hd. by rewrite Hd.
  - cbn [nested_strictness fst snd]. destruct (DerivePolicyTarget c a) as [[c' a'] []] eqn:Hd.
    + rewrite (shell_levels_derive _ _ _ _ _ Hd), (stop_level_derive _ _ _ _ _ Hd). cbn [length].
      intros [= Hlen] Hnd. specialize (IH (c', a') Hlen Hnd). cbn [fst snd] in IH. rewrite IH. done.
    + by rewrite (shell_levels_stop _ _ _ _ _ Hd).
Qed.

(** The refusal of bypass and opaque scripts stops one level short of the
    depth limit: when derivation reaches its fourth level and that level is not
    derivable further, the verdict is the strictest explicit rule alone, whatever
    the fourth level's script is and whatever the opaque mode says. *)
Theorem depth_limit_skips_refusal e command args active mode :
  let levels := shell_levels maxShellCDeriveDepth (command, args) in
  let stop := stop_level maxShellCDeriveDepth (command, args) in
  length levels = maxShellCDeriveDepth → derivable stop.1 stop.2 = false →
  decisionStrictness (PolicyDecision (checkCommand e command args active mode))
  = Z.max (decisionStrictness (PolicyDecision (matchCommandRules e command args).1))
      (foldr Z.max 0%Z ((λ l, explicit_strictness e l.1 l.2) <$> levels)).
Proof.
  intros levels stop Hlen Hd. rewrite checkCommand_strictness. f_equal.
  by apply (nested_exact e active mode maxShellCDeriveDepth (command, args)).
Qed.

(** *** Execve interception *)

Lemma find_first_ext {A} (p q : A → bool) l : (∀ x, p x = q x) → find_first p l = find_first q l.
Proof. intros Hpq. induction l as [|x l IH]; simpl; [done|]. by rewrite Hpq, IH. Qed.

Lemma execveMatched_agrees r filename :
  TrimSuffix (ToLower (Base filename)) ".real" = ToLower (Base filename) →
  execveMatched r filename = commandMatched r filename.
Proof.
  intros Hr. unfold execveMatched, commandMatched. rewrite Hr, String.eqb_refl. simpl.
  rewrite orb_false_r. f_equal. apply existsb_ext. intros g. by rewrite orb_false_r.
Qed.

(** The execve check agrees with the pre-check: without a Tor verdict, a
    direct execve (depth 0) of a file whose basename carries no [.real] suffix
    gets exactly the decision of [matchCommandRules], up to the name of the
    default rule. *)
Theorem execve_agrees_with_precheck e filename argv :
  (torChecker e ≫= λ tc, EvalExecve tc filename argv) = None →
  TrimSuffix (ToLower (Base filename)) ".real" = ToLower (Base filename) →
  CheckExecve e filename argv 0 =
  match matchCommandRules e filename argv with
  | (d, true) => d
  | (_, false) => default_command_decision e "default-deny-execve"
  end.
Proof.
  intros Htor Hr. unfold CheckExecve, matchCommandRules. rewrite Htor.
  rewrite (find_first_ext _ (command_rule_applies filename argv)).
  - by destruct (find_first _ _).
  - intros r. unfold execve_rule_applies, command_rule_applies. by rewrite execveMatched_agrees.
Qed.

(** *** First match and defaults *)

(** [r] is the first rule of [l] that applies. *)
Definition first_applying {A} (p : A → bool) (l : list A) (r : A) : Prop :=
  ∃ before after, l = before ++ r :: after ∧ p r = true ∧ ∀ x, x ∈ before → p x = false.

Lemma find_first_applying {A} (p : A → bool) l r : find_first p l = Some r → first_applying p l r.
Proof.
  induction l as [|x l IH]; simpl; [done|]. destruct (p x) eqn:Hx.
  - intros [= ->]. exists [], l. set_solver.
  - intros (before & after & -> & Hr & Hb)%IH. exists (x :: before), after. set_solver.
Qed.

#[local] Hint Resolve find_first_applying : agentsh.

(** The policy strings that let an operation run. *)
Definition lets_run (e : Engine) (decision : string) : Prop :=
  effective_of e (verdict_of decision) = DecisionAllow.

Lemma wrapDecision_runs e decision rule msg red :
  EffectiveDecision (wrapDecision e decision rule msg red) = DecisionAllow ↔ lets_run e decision.
Proof.
  destruct (wrapDecision_ok e decision rule msg red) as [_ ->]. by rewrite wrapDecision_verdict.
Qed.

Lemma deny_never_runs e rule msg red :
  EffectiveDecision (wrapDecision e DecisionDeny rule msg red) ≠ DecisionAllow.
Proof. by rewrite wrapDecision_runs. Qed.

Lemma CheckFile_runs e p op :
  EffectiveDecision (CheckFile e p op) = DecisionAllow →
  (∃ r, first_applying (file_rule_applies p (ToLower op)) (compiledFileRules e) r ∧
        lets_run e (file_Decision (cf_rule r))) ∨
  (isReadOperation (ToLower op) = true ∧
   ∀ r, r ∈ compiledFileRules e → file_rule_applies p (ToLower op) r = false).
Proof.
  unfold CheckFile. destruct (find_first _ _) as [r|] eqn:Hf.
  - intros Hr. left. exists r. split; [by auto with agentsh|].
    revert Hr. case_match; simpl; by rewrite wrapDecision_runs.
  - destruct (isReadOperation _) eqn:Ho; intros Hr; [|by apply deny_never_runs in Hr].
    right. split; [done|]. by apply find_first_None.
Qed.

Lemma network_check_runs e domain ip port :
  EffectiveDecision (network_check e domain ip port) = DecisionAllow →
  ∃ ips r, first_applying (network_rule_applies (ToLower (TrimSpace domain)) ips port)
             (compiledNetworkRules e) r ∧ lets_run e (net_Decision (cn_rule r)).
Proof.
  unfold network_check. set (ips := match ip with Some ip => [ip] | None => _ end). clearbody ips.
  assert (Hrules : ∀ t d, EffectiveDecision (network_rules_decision e d ips port t) = DecisionAllow →
    ∃ r, first_applying (network_rule_applies d ips port) (compiledNetworkRules e) r ∧
         lets_run e (net_Decision (cn_rule r))).
  { intros t d. unfold network_rules_decision.
    destruct (find_first _ _) as [r|] eqn:Hf; destruct t; simpl;
      try (by intros ?%deny_never_runs); intros ?%wrapDecision_runs; eauto with agentsh. }
  destruct (threat_lookup _ _) as [t|]; [destruct (String.eqb _ _)|].
  - by intros ?%deny_never_runs.
  - intros ?%Hrules. eauto.
  - intros ?%Hrules. eauto.
Qed.

(** Nothing is allowed by accident: a file, unix-socket, registry or network
    operation is let through only by the first rule that applies to it, and only
    if that rule's decision string lets operations run; without an applying rule
    only file reads pass. An unknown decision string, a Tor deny and a denying
    threat feed never let anything through. *)
Theorem allowed_by_first_rule e :
  (∀ p op, EffectiveDecision (CheckFile e p op) = DecisionAllow →
     (∃ r, first_applying (file_rule_applies p (ToLower op)) (compiledFileRules e) r ∧
           lets_run e (file_Decision (cf_rule r))) ∨
     (isReadOperation (ToLower op) = true ∧
      ∀ r, r ∈ compiledFileRules e → file_rule_applies p (ToLower op) r = false)) ∧
  (∀ p op, EffectiveDecision (CheckUnixSocket e p op) = DecisionAllow →
     ∃ r, first_applying (unix_rule_applies p (ToLower (TrimSpace op))) (compiledUnixRules e) r ∧
          lets_run e (unix_Decision (cu_rule r))) ∧
  (∀ p op, EffectiveDecision (CheckRegistry e p op) = DecisionAllow →
     ∃ r, first_applying (registry_rule_applies p (ToLower op)) (compiledRegistryRules e) r ∧
          lets_run e (reg_Decision (cg_rule r))) ∧
  (∀ domain ip port, EffectiveDecision (CheckNetworkIP e domain ip port) = DecisionAllow →
     ∃ ips r, first_applying (network_rule_applies (ToLower (TrimSpace domain)) ips port)
                (compiledNetworkRules e) r ∧
          lets_run e (net_Decision (cn_rule r))).
Proof.
  split_and!.
  - apply CheckFile_runs.
  - intros p op. unfold CheckUnixSocket. destruct (find_first _ _) as [r|] eqn:Hf;
      [|by intros ?%deny_never_runs]. intros ?%wrapDecision_runs. eauto with agentsh.
  - intros p op. unfold CheckRegistry. destruct (find_first _ _) as [r|] eqn:Hf;
      [|by intros ?%deny_never_runs]. intros ?%wrapDecision_runs. eauto with agentsh.
  - intros domain ip port. unfold CheckNetworkIP.
    destruct (_ ≫= _) as [v|]; [|apply network_check_runs].
    destruct (String.eqb _ _); [by intros ?%deny_never_runs|apply network_check_runs].
Qed.

(** *** Redirected files stay under their target *)

Lemma Split_single s sep : str_mem sep s = false → Split s sep = [s].
Proof.
  induction s as [|c s IH]; [done|].
  change (str_mem sep (String c s)) with (Ascii.eqb sep c || str_mem sep s).
  intros [Hc Hs]%orb_false_iff. cbn [Split]. by rewrite Ascii.eqb_sym, Hc, IH.
Qed.

Lemma str_mem_slash c : str_mem c "/" = Ascii.eqb c slash.
Proof. unfold str_mem. simpl. by rewrite orb_false_r. Qed.

Lemma LastIndexAny_None s : LastIndexAny s "/" = None → str_mem slash s = false.
Proof.
  induction s as [|c s IH]; [done|]. cbn [LastIndexAny]. rewrite str_mem_slash.
  destruct (LastIndexAny s "/"); [done|]. destruct (Ascii.eqb c slash) eqn:Hc; [done|].
  intros _. change (Ascii.eqb slash c || str_mem slash s = false). by rewrite Ascii.eqb_sym, Hc, IH.
Qed.

Lemma LastIndexAny_slash s i :
  LastIndexAny s "/" = Some i →
  s = str_take i s +:+ String slash (str_drop (i + 1) s) ∧ str_mem slash (str_drop (i + 1) s) = false.
Proof.
  revert i. induction s as [|c s IH]; intros i; [done|]. cbn [LastIndexAny]. rewrite str_mem_slash.
  destruct (LastIndexAny s "/") as [j|] eqn:Hj.
  - intros [= <-]. destruct (IH j eq_refl) as [Hs Hn]. split; [|done].
    cbn [str_take]. rewrite string_app_cons. f_equal. exact Hs.
  - destruct (Ascii.eqb_spec c slash) as [->|]; [|done]. intros [= <-].
    split; [done|]. by apply LastIndexAny_None.
Qed.

Lemma trim_right_split q s : ∃ k, s = trim_right q s +:+ k ∧ str_forall q k = true.
Proof.
  induction s as [|c s (k & Hs & Hk)]; [by exists ""|]. cbn [trim_right].
  destruct (trim_right q s) as [|d t] eqn:Ht.
  - destruct (q c) eqn:Hc.
    + exists (String c s). split; [done|]. simpl. rewrite Hc. simpl in Hs. by rewrite Hs.
    + exists s. split; [done|]. simpl in Hs. by rewrite Hs.
  - exists k. split; [|done]. by rewrite string_app_cons, <-Hs.
Qed.

Definition no_dotdot (p : string) : Prop := ".." ∉ Split p slash.

Lemma Split_last_segment s i :
  LastIndexAny s "/" = Some i → str_drop (i + 1) s ∈ Split s slash.
Proof.
  intros [Hs Hn]%LastIndexAny_slash. rewrite Hs at 2.
  rewrite Split_app, (Split_single (str_drop _ _)) by done. set_solver.
Qed.

Lemma Split_trim_right s :
  trim_right (Ascii.eqb slash) s = s ∨ Split (trim_right (Ascii.eqb slash) s) slash ⊆ Split s slash.
Proof.
  destruct (trim_right_split (Ascii.eqb slash) s) as (k & Hs & Hk).
  destruct k as [|c k]; [left; by rewrite string_app_nil in Hs|]. right.
  cbn [str_forall] in Hk. destruct (Ascii.eqb_spec slash c) as [<-|]; [|done].
  rewrite Hs at 2. rewrite Split_app. set_solver.
Qed.

Lemma Base_no_dotdot p : no_dotdot p → no_dotdot (Base p).
Proof.
  unfold no_dotdot, Base. intros Hp. destruct (String.eqb p ""); [by vm_compute; set_solver|].
  set (t := trim_right (Ascii.eqb slash) p).
  assert (Ht : ".." ∉ Split t slash).
  { destruct (Split_trim_right p) as [Heq|Hsub]; unfold t; [by rewrite Heq|set_solver]. }
  destruct (LastIndexAny t "/") as [i|] eqn:Hi.
  - pose proof (Split_last_segment t i Hi) as Hin. apply LastIndexAny_slash in Hi as [_ Hn].
    destruct (String.eqb_spec (str_drop (i + 1) t) ""); [by vm_compute; set_solver|].
    rewrite Split_single by done. intros Hd%list_elem_of_singleton. by rewrite <-Hd in Hin.
  - destruct (String.eqb t ""); [by vm_compute; set_solver|done].
Qed.

(** Without [..] the elements are only pushed. *)
Lemma clean_push rooted segs acc :
  ".." ∉ segs → ∃ pushed, foldl (clean_step rooted) acc segs = pushed ++ acc.
Proof.
  revert acc. induction segs as [|x segs IH]; intros acc Hd; [by exists []|]. simpl.
  destruct (IH (clean_step rooted acc x)) as [pushed ->]; [set_solver|].
  unfold clean_step. destruct (_ || _); [by exists pushed|].
  destruct (String.eqb_spec x ".."); [set_solver|]. exists (pushed ++ [x]). by rewrite <-app_assoc.
Qed.

Lemma Join_app l k :
  l ≠ [] → k ≠ [] → Join (l ++ k) "/" = Join l "/" +:+ String slash (Join k "/").
Proof.
  intros Hl Hk. induction l as [|x l IH]; [done|]. destruct l as [|y l].
  - by destruct k.
  - change ((x :: y :: l) ++ k) with (x :: (y :: l) ++ k). 
    change (Join (x :: y :: l) "/") with (x +:+ "/" +:+ Join (y :: l) "/").
    change (Join (x :: (y :: l) ++ k) "/") with (x +:+ "/" +:+ Join ((y :: l) ++ k) "/").
    rewrite IH by done. by rewrite !string_app_assoc.
Qed.

(** [p] is [base] or below it. *)
Definition inside (base p : string) : Prop :=
  p = base ∨ ∃ rest, p = (if String.eqb base "/" then "/" else base +:+ "/") +:+ rest.

Lemma HasPrefix_app s t : HasPrefix s "/" = true → HasPrefix (s +:+ t) "/" = true.
Proof. destruct s as [|c s]; [done|]. rewrite string_app_cons. unfold HasPrefix. cbn [String.prefix].
  destruct (ascii_dec _ _); [|done]. intros _. by destruct (s +:+ t).
Qed.

Lemma JoinPath_inside target p :
  HasPrefix target "/" = true → no_dotdot p → inside (Clean target) (JoinPath target p).
Proof.
  intros Ht Hp. unfold JoinPath. destruct (String.eqb_spec target "") as [->|Hne]; [done|].
  cbn [negb]. unfold Clean. rewrite (proj2 (String.eqb_neq target "") Hne), Ht.
  assert (Hne' : String.eqb (target +:+ String slash p) "" = false) by (by destruct target).
  rewrite Hne', (HasPrefix_app target) by done. cbv zeta.
  unfold clean_segs. rewrite Split_app, foldl_app.
  destruct (clean_push true (Split p slash) (foldl (clean_step true) [] (Split target slash)) Hp)
    as [pushed ->].
  set (acc := foldl _ _ _). rewrite reverse_app. unfold inside.
  destruct pushed as [|x pushed]; [left; by rewrite app_nil_r|right].
  assert (Hpne : reverse (x :: pushed) ≠ []) by (rewrite reverse_cons; by destruct (reverse pushed)).
  destruct acc as [|y acc].
  - exists (Join (reverse (x :: pushed)) "/"). by rewrite app_nil_l.
  - assert (Hane : reverse (y :: acc) ≠ []) by (rewrite reverse_cons; by destruct (reverse acc)).
    rewrite Join_app by done. set (j := Join (reverse (y :: acc)) "/").
    destruct (String.eqb_spec (String slash j) "/") as [Hj|_].
    + injection Hj as Hj. rewrite Hj. by eexists (String slash _).
    + exists (Join (reverse (x :: pushed)) "/"). rewrite string_app_assoc. done.
Qed.

(** Redirected files stay inside: when [CheckFile] redirects a path without
    [..] elements and the rule's target is absolute, the new path is the cleaned
    target or lies below it, with or without [preserve_tree]; the redirect keeps
    the original path and belongs to a redirect rule that applies. *)
Theorem file_redirect_contained e p op info :
  FileRedirect (CheckFile e p op) = Some info → no_dotdot p →
  OriginalPath info = p ∧ PolicyDecision (CheckFile e p op) = DecisionRedirect ∧
  ∃ r, first_applying (file_rule_applies p (ToLower op)) (compiledFileRules e) r ∧
    (HasPrefix (cf_redirectTo r) "/" = true → inside (Clean (cf_redirectTo r)) (RedirectPath info)).
Proof.
  intros Hr Hp. assert (Hnone : ∀ d rule msg, FileRedirect (wrapDecision e d rule msg None) = None).
  { intros. unfold wrapDecision. by repeat case_match. }
  unfold CheckFile in *. destruct (find_first _ _) as [r|] eqn:Hf.
  - destruct (_ && _) eqn:Hc; [|by rewrite Hnone in Hr]. apply andb_true_iff in Hc as [_ Hc].
    injection Hr as <-. apply String.eqb_eq in Hc. split_and!; [done|done|].
    exists r. split; [by auto with agentsh|]. intros Ht. simpl.
    destruct (cf_preserveTree r); apply JoinPath_inside; try done. by apply Base_no_dotdot.
  - destruct (isReadOperation _); by rewrite Hnone in Hr.
Qed.

(** *** The child environment *)

Lemma string_ltb_asym s t : string_ltb s t = true → string_ltb t s = false.
Proof.
  revert t. induction s as [|a s IH]; intros [|b t]; simpl; try done.
  destruct (Z.ltb_spec (byte_val a) (byte_val b)), (Z.ltb_spec (byte_val b) (byte_val a));
    try done; try lia. apply IH.
Qed.

Lemma string_ltb_negtrans a b c :
  string_ltb b a = false → string_ltb c b = false → string_ltb c a = false.
Proof.
  revert b c. induction a as [|x a IH]; intros b c; [by destruct c|].
  destruct b as [|y b]; [done|]. destruct c as [|z c]; [done|]. simpl.
  destruct (Z.ltb_spec (byte_val y) (byte_val x)), (Z.ltb_spec (byte_val x) (byte_val y)),
    (Z.ltb_spec (byte_val z) (byte_val y)), (Z.ltb_spec (byte_val y) (byte_val z)),
    (Z.ltb_spec (byte_val z) (byte_val x)), (Z.ltb_spec (byte_val x) (byte_val z));
    try done; try lia. apply IH.
Qed.

(** What [env_base] keeps: allowed, non-empty variables of the base environment. *)
Lemma env_base_lookup pol base k v :
  env_base pol base !! k = Some v →
  env_isAllowed pol k = true ∧ v ≠ "" ∧ ∃ kv, kv ∈ base ∧ splitKV kv = Some (k, v).
Proof.
  unfold env_base. induction base as [|kv base IH] using rev_ind; [done|].
  rewrite foldl_app. simpl. set (m := foldl _ _ _) in *.
  assert (Hm : m !! k = Some v → env_isAllowed pol k = true ∧ v ≠ "" ∧
    ∃ kv', kv' ∈ base ++ [kv] ∧ splitKV kv' = Some (k, v)).
  { intros (? & ? & kv' & ? & ?)%IH. split_and!; try done. exists kv'. set_solver. }
  destruct (splitKV kv) as [[k' v']|] eqn:Hkv; [|done].
  destruct (negb (String.eqb v' "") && env_isAllowed pol k') eqn:Hc; [|done].
  rewrite lookup_insert_Some. intros [[-> ->]|[_ ?]]; [|by apply Hm].
  apply andb_true_iff in Hc as [Hv Ha]. apply negb_true_iff, String.eqb_neq in Hv.
  split_and!; try done. exists kv. set_solver.
Qed.

Lemma env_base_complete pol base kv k v :
  kv ∈ base → splitKV kv = Some (k, v) → v ≠ "" → env_isAllowed pol k = true →
  is_Some (env_base pol base !! k).
Proof.
  intros Hin Hkv Hv Ha. unfold env_base.
  induction base as [|x base IH] using rev_ind; [by apply elem_of_nil in Hin|].
  rewrite foldl_app. simpl. apply elem_of_app in Hin as [Hin|Hin%list_elem_of_singleton].
  - specialize (IH Hin). repeat case_match; try done.
    destruct (decide (s = k)) as [->|]; [by rewrite lookup_insert_eq|by rewrite lookup_insert_ne].
  - subst x. rewrite Hkv, Ha, (proj2 (String.eqb_neq v "") Hv). simpl. by rewrite lookup_insert_eq.
Qed.

Lemma env_allowed_lookup pol base add k v :
  env_allowed pol base add !! k = Some v ↔
  (isInternalVar k = true ∧ add !! k = Some v) ∨
  ((isInternalVar k = false ∨ add !! k = None) ∧
   ((env_isAllowed pol k = true ∧ add !! k = Some v) ∨
    ((env_isAllowed pol k = false ∨ add !! k = None) ∧ env_base pol base !! k = Some v))).
Proof.
  assert (Hf : ∀ (p : string → bool) v, filter (λ kv : string * string, p kv.1 = true) add !! k = Some v ↔
    add !! k = Some v ∧ p k = true) by (intros; apply map_lookup_filter_Some).
  assert (Hn : ∀ (p : string → bool), filter (λ kv : string * string, p kv.1 = true) add !! k = None ↔
    p k = false ∨ add !! k = None).
  { intros q. rewrite map_lookup_filter_None. simpl. destruct (add !! k), (q k); naive_solver. }
  unfold env_allowed. rewrite !lookup_union_Some_raw, Hf, Hn, Hf, Hn. tauto.
Qed.

Definition env_size (pairs : list string) : Z :=
  foldr (λ p n, (Z.of_nat (String.length p) + 1 + n)%Z) 0%Z pairs.

Lemma env_size_total pairs :
  foldl (λ n p, (n + Z.of_nat (String.length p) + 1)%Z) 0%Z pairs = env_size pairs.
Proof.
  assert (Hg : ∀ z, foldl (λ n p, (n + Z.of_nat (String.length p) + 1)%Z) z pairs
    = (z + env_size pairs)%Z); [|by rewrite Hg].
  induction pairs as [|p pairs IH]; intros z; simpl; [lia|]. rewrite IH. lia.
Qed.

(** The child environment: when [BuildEnv] succeeds its result is sorted,
    within the key and byte limits, and spells exactly the variables of
    [env_allowed]; each of these is allowed by the policy (so not denied, and not
    a default secret when there is no allow list) or is an internal variable the
    caller added; and every allowed non-empty base variable and every allowed or
    internal added variable is present. *)
Theorem BuildEnv_filters pol base add pairs :
  BuildEnv pol base add = Ok pairs →
  StronglySorted (λ a b, string_ltb b a = false) pairs ∧
  (∀ p, p ∈ pairs ↔ ∃ k v, p = env_pair (k, v) ∧ env_allowed pol base add !! k = Some v) ∧
  (∀ k v, env_allowed pol base add !! k = Some v →
     (env_isDenied pol k = false ∧ env_isAllowed pol k = true) ∨
     (isInternalVar k = true ∧ add !! k = Some v)) ∧
  (∀ kv k v, kv ∈ base → splitKV kv = Some (k, v) → v ≠ "" → env_isAllowed pol k = true →
     is_Some (env_allowed pol base add !! k)) ∧
  (∀ k v, add !! k = Some v → env_isAllowed pol k || isInternalVar k = true →
     env_allowed pol base add !! k = Some v) ∧
  ((0 < res_MaxKeys pol)%Z → (Z.of_nat (length pairs) <= res_MaxKeys pol)%Z) ∧
  ((0 < res_MaxBytes pol)%Z → (env_size pairs <= res_MaxBytes pol)%Z).
Proof.
  unfold BuildEnv. set (sorted := SliceStable _ _).
  destruct ((0 <? res_MaxKeys pol)%Z && _) eqn:Hk; [done|]. rewrite env_size_total.
  destruct ((0 <? res_MaxBytes pol)%Z && _) eqn:Hb; [done|]. intros [= <-]. split_and!.
  - apply SliceStable_sorted; [apply string_ltb_asym|apply string_ltb_negtrans].
  - intros p. unfold sorted. rewrite SliceStable_perm, list_elem_of_fmap. split.
    + intros ([k v] & -> & Hkv%elem_of_map_to_list). eauto.
    + intros (k & v & -> & Hkv). exists (k, v). by rewrite elem_of_map_to_list.
  - intros k v [?|(_ & [[Ha _]|[_ Ha]])]%env_allowed_lookup; [by right|left..].
    + unfold env_isAllowed in *. by destruct (env_isDenied pol k).
    + apply env_base_lookup in Ha as [Ha _]. unfold env_isAllowed in *. by destruct (env_isDenied pol k).
  - intros kv k v Hin Hkv Hv Ha. destruct (env_base_complete pol base kv k v) as [w Hw]; try done.
    unfold env_allowed. rewrite !lookup_union, Hw. by destruct (filter _ add !! k), (filter _ add !! k).
  - intros k v Hk' Ha. apply env_allowed_lookup. destruct (isInternalVar k); [by auto|].
    rewrite orb_false_r in Ha. auto 6.
  - intros Hp. apply andb_false_iff in Hk as [Hk|Hk]; apply Z.ltb_ge in Hk; lia.
  - intros Hp. apply andb_false_iff in Hb as [Hb|Hb]; apply Z.ltb_ge in Hb; lia.
Qed.

(** *** Compilation *)

Lemma rmap_fmap {E A B} (f : A → Result E B) (g : B → A) l ys :
  (∀ x y, f x = Ok y → g y = x) → rmap f l = Ok ys → g <$> ys = l.
Proof.
  intros Hfg Hl%rmap_Ok. induction Hl as [|x y l ys Hx _ IH]; [done|].
  rewrite fmap_cons, IH. by rewrite (Hfg _ _ Hx).
Qed.

Lemma add_command_rule cr c : cc_rule (add_command cr c) = cc_rule cr.
Proof. unfold add_command. by repeat case_match. Qed.

Lemma foldl_add_command_rule l cr : cc_rule (foldl add_command cr l) = cc_rule cr.
Proof. revert cr. induction l as [|c l IH]; intros cr; [done|]. simpl. by rewrite IH, add_command_rule. Qed.

Lemma add_command_grows cr c : cc_basenames cr ⊆ cc_basenames (add_command cr c).
Proof. unfold add_command. repeat case_match; simpl; set_solver. Qed.

(** A literal entry: no path separator and no glob character. *)
Definition literal_command (c : string) : Prop :=
  TrimSpace c ≠ "" ∧ Contains (TrimSpace c) "/" = false ∧ ContainsAny (TrimSpace c) "*?[" = false.

Lemma foldl_add_command_literal l cr c :
  c ∈ l → literal_command c → ToLower (TrimSpace c) ∈ cc_basenames (foldl add_command cr l).
Proof.
  intros Hc (Hne & Hs & Hg). revert cr.
  assert (Hmono : ∀ l cr, cc_basenames cr ⊆ cc_basenames (foldl add_command cr l)).
  { clear. induction l as [|c l IH]; intros cr; simpl; [done|].
    pose proof (add_command_grows cr c). specialize (IH (add_command cr c)). set_solver. }
  induction l as [|x l IH]; intros cr; [by apply elem_of_nil in Hc|].
  apply elem_of_cons in Hc as [<-|Hc]; simpl; [|by apply IH].
  apply (Hmono l). unfold add_command. rewrite (proj2 (String.eqb_neq _ _) Hne), Hs, Hg. simpl.
  set_solver.
Qed.

Lemma compile_command_rule_literal r cr c command :
  compile_command_rule r = Ok cr → c ∈ cmd_Commands r → literal_command c →
  ToLower (Base command) = ToLower (TrimSpace c) → commandMatched cr command = true.
Proof.
  unfold compile_command_rule. intros (res & _ & [= <-])%rbind_Ok Hc Hl Hb.
  unfold commandMatched. cbn [cc_fullPaths cc_pathGlobs cc_basenames cc_basenameGlobs].
  rewrite Hb. rewrite (bool_decide_eq_true_2 (ToLower (TrimSpace c) ∈ _))
    by (by apply foldl_add_command_literal). by rewrite !orb_true_r.
Qed.

Lemma is_restrictive_rule cr :
  is_restrictive cr = true ↔ verdict_of (cmd_Decision (cc_rule cr)) ≠ DecisionAllow ∧
    string_in (ToLower (cmd_Decision (cc_rule cr))) verdicts = true.
Proof.
  unfold is_restrictive, verdict_of, verdicts, string_in. set (d := ToLower _). clearbody d. simpl.
  repeat match goal with |- context [String.eqb d ?x] =>
    destruct (String.eqb_spec d x); [subst d|] end;
    (split; [intros ?; split; done|by intros [? ?]]).
Qed.

Lemma existsb_restrictive cmds :
  existsb is_restrictive cmds = true ↔ ∃ r, r ∈ cc_rule <$> cmds ∧
    verdict_of (cmd_Decision r) ≠ DecisionAllow ∧ string_in (ToLower (cmd_Decision r)) verdicts = true.
Proof.
  rewrite existsb_elem. setoid_rewrite is_restrictive_rule. split.
  - intros (cr & Hin & Hr). exists (cc_rule cr). split; [|done]. auto with agentsh.
  - intros (r & (cr & -> & Hin)%list_elem_of_fmap & Hr). eauto.
Qed.

(** Compilation keeps the policy: a compiled engine has the policy's file,
    network, command and unix rules in policy order; registry rules are the
    policy's with higher priorities first, so that the rule a registry check uses
    has the highest priority of those that apply; the restrictive flag is set
    exactly when some command rule has a valid decision other than allow; and a
    literal command entry matches every path with that basename, in any case. *)
Theorem NewEngine_keeps_policy `{!SortLaws} p approvals redirects e :
  NewEngine p approvals redirects = Ok e →
  cf_rule <$> compiledFileRules e = FileRules p ∧
  cn_rule <$> compiledNetworkRules e = NetworkRules p ∧
  cc_rule <$> compiledCommandRules e = CommandRules p ∧
  cu_rule <$> compiledUnixRules e = UnixRules p ∧
  cg_rule <$> compiledRegistryRules e ≡ₚ RegistryRules p ∧
  (∀ q r r', first_applying q (compiledRegistryRules e) r → r' ∈ compiledRegistryRules e →
     q r' = true → (cg_priority r' <= cg_priority r)%Z) ∧
  (hasRestrictiveCommandRule e = true ↔ ∃ r, r ∈ CommandRules p ∧
     verdict_of (cmd_Decision r) ≠ DecisionAllow ∧ string_in (ToLower (cmd_Decision r)) verdicts = true) ∧
  (∀ cr c command, cr ∈ compiledCommandRules e → c ∈ cmd_Commands (cc_rule cr) → literal_command c →
     ToLower (Base command) = ToLower (TrimSpace c) → commandMatched cr command = true).
Proof.
  unfold NewEngine. intros He. ok_hyps. simplify_eq He. intros <-. simpl.
  assert (Hcmds : cc_rule <$> x1 = CommandRules p).
  { eapply rmap_fmap; [|done]. intros r y (? & ? & [= <-])%rbind_Ok. simpl. by rewrite foldl_add_command_rule. }
  split_and!.
  - eapply rmap_fmap; [|done]. by intros r y (? & ? & [= <-])%rbind_Ok.
  - eapply rmap_fmap; [|done]. intros r y Hy. unfold compile_network_rule in Hy. ok_hyps. by simplify_eq.
  - done.
  - eapply rmap_fmap; [|done]. by intros r y (? & ? & [= <-])%rbind_Ok.
  - rewrite sort_Slice_perm. apply reflexive_eq. eapply rmap_fmap; [|done].
    by intros r y (? & ? & [= <-])%rbind_Ok.
  - intros q r r' (before & after & Hl & Hr & Hb) Hin Hq.
    assert (Hs : StronglySorted (λ a b, registry_less b a = false) (sort_Slice registry_less x3)).
    { apply sort_Slice_sorted; unfold registry_less; intros *; rewrite ?Z.ltb_lt, ?Z.ltb_ge; lia. }
    rewrite Hl in Hs, Hin. apply elem_of_app in Hin as [Hin|Hin].
    { apply Hb in Hin. congruence. }
    apply elem_of_cons in Hin as [->|Hin]; [done|].
    apply StronglySorted_app in Hs as (_ & _ & Hs). inversion Hs as [|? ? _ Hf]; subst.
    rewrite Forall_forall in Hf. specialize (Hf _ Hin). by apply Z.ltb_ge in Hf.
  - by rewrite existsb_restrictive, Hcmds.
  - intros cr c command Hcr Hc Hlit Hbase.
    match goal with Hx : rmap compile_command_rule _ = Ok _ |- _ => apply rmap_Ok in Hx;
      apply list_elem_of_lookup in Hcr as [i Hi];
      destruct (Forall2_lookup_r _ _ _ _ _ Hx Hi) as (r & Hr & Hcomp) end.
    eapply compile_command_rule_literal; [exact Hcomp| |done|done].
    revert Hc.
    pose proof (list_lookup_fmap cc_rule x1 i) as Hfi. rewrite Hcmds, Hi, Hr in Hfi. by injection Hfi as <-.
Qed.
End properties.

(** ** Concrete runs *)
Module EngineSample.
#[local] Existing Instance ascii_go.
#[local] Existing Instance literal_glob.
#[local] Existing Instance literal_regexp.

#[local] Existing Instance no_net.

Definition stable_sort : SortLib := {| sort_Slice := λ A less l, SliceStable less l |}.
#[local] Existing Instance stable_sort.
#[local] Instance stable_sort_laws : SortLaws.
Proof. split; intros; [apply SliceStable_perm|by apply SliceStable_sorted]. Qed.

Definition command_rule (name cmd decision : string) : CommandRule :=
  mkCommandRule name [cmd] [] decision "" None DefaultContext [] [] 0 0 None.

Definition sample_policy : Policy := mkPolicy
  [mkFileRule "scratch" ["/home/u/f"] ["write"] "redirect" "moved" "/ws/.scratch/" true;
   mkFileRule "read-secret" ["/etc/shadow"] ["*"] "deny" "" "" false]
  [mkNetworkRule "api" ["api.example.com"] [443%Z] [] "allow" ""]
  [command_rule "allow-sh" "sh" "allow"; command_rule "no-shutdown" "shutdown" "deny";
   command_rule "allow-ls" "ls" "allow"]
  [mkUnixRule "docker" ["/run/docker.sock"] [] "deny" ""]
  [mkRegistryRule "low" ["HKLM"] [] "allow" "" 1; mkRegistryRule "high" ["HKLM"] [] "deny" "" 5]
  [mkDnsRule "pin" "api." "10.0.0.1" "" ""]
  [mkConnectRule "proxy" "api." "" "/run/p.sock" None "warn" "" ""]
  (mkEnvPolicy [] ["SECRET"] 0 0 false).

Definition empty_engine : Engine :=
  mkEngine sample_policy false false [] [] [] [] [] false [] [] [] [] None "" None.
Definition sample_engine : Engine :=
  match NewEngine sample_policy true true with Ok e => e | Err _ => empty_engine end.

(** Single quotes around [s], with each quote inside closed, double-quoted and
    reopened. *)
Fixpoint quote_body (s : string) : string :=
  match s with
  | EmptyString => ""
  | String c s =>
      (if Ascii.eqb c "'" then "'" +:+ str1 dquote +:+ "'" +:+ str1 dquote +:+ "'" else str1 c)
      +:+ quote_body s
  end.
Definition squote (s : string) : string := "'" +:+ quote_body s +:+ "'".
Fixpoint nest (n : nat) (s : string) : string :=
  match n with O => s | S n => "sh -c " +:+ squote (nest n s) end.

Example nested_deny_found :
  (λ n, Rule (CheckCommand sample_engine "sh" ["-c"; nest n "shutdown now"])) <$> [0; 1; 2; 3; 4; 5]%nat
  = ["no-shutdown"; "no-shutdown"; "no-shutdown"; "no-shutdown"; "shellc-depth-exceeded"; "shellc-depth-exceeded"].
Proof. vm_compute. reflexivity. Qed.

(** The same opaque script is refused at nesting depths 0 to 3 and runs at 4. *)
Example opaque_at_limit_runs :
  (λ n, EffectiveDecision (checkCommand sample_engine "sh" ["-c"; nest n "shutdown; ls"] false ShellCOpaqueDeny))
    <$> [0; 1; 2; 3; 4]%nat
  = [DecisionDeny; DecisionDeny; DecisionDeny; DecisionDeny; DecisionAllow].
Proof. vm_compute. reflexivity. Qed.

Lemma nested_shells_fail_closed_witness :
  EffectiveDecision (checkCommand sample_engine "sh" ["-c"; nest 2 "shutdown; ls"] false ShellCOpaqueEnforce)
  = DecisionDeny.
Proof.
  apply (nested_shells_fail_closed sample_engine "sh" ["-c"; nest 2 "shutdown; ls"] false ShellCOpaqueEnforce).
  right; left. split; [vm_compute; lia|]. right. vm_compute. repeat split; reflexivity.
Defined.

Lemma depth_limit_skips_refusal_witness :
  IsOpaqueShellC "sh" ["-c"; "shutdown; ls"] = true ∧
  stop_level maxShellCDeriveDepth ("sh", ["-c"; nest 4 "shutdown; ls"]) = ("sh", ["-c"; "shutdown; ls"]) ∧
  decisionStrictness (PolicyDecision
    (checkCommand sample_engine "sh" ["-c"; nest 4 "shutdown; ls"] false ShellCOpaqueDeny)) = 0%Z.
Proof.
  split; [vm_compute; reflexivity|]. split; [vm_compute; reflexivity|].
  rewrite (depth_limit_skips_refusal sample_engine "sh" ["-c"; nest 4 "shutdown; ls"] false ShellCOpaqueDeny);
    vm_compute; reflexivity.
Defined.

Lemma execve_agrees_with_precheck_witness :
  CheckExecve sample_engine "/sbin/shutdown" ["shutdown"] 0
  = rule_decision sample_engine (command_rule "no-shutdown" "shutdown" "deny").
Proof.
  rewrite (execve_agrees_with_precheck sample_engine "/sbin/shutdown" ["shutdown"]);
    vm_compute; reflexivity.
Defined.

(** A renamed shell is recognized by the pre-check and not by the execve check. *)
Example real_suffix_differs :
  (Rule (matchCommandRules sample_engine "/bin/sh.real" []).1, Rule (CheckExecve sample_engine "/bin/sh.real" [] 0))
  = ("allow-sh", "default-deny-execve").
Proof. vm_compute. reflexivity. Qed.

Lemma file_redirect_contained_witness :
  FileRedirect (CheckFile sample_engine "/home/u/f" "Write")
    = Some (mkFileRedirect "/home/u/f" "/ws/.scratch/home/u/f" "write" "moved") ∧
  PolicyDecision (CheckFile sample_engine "/home/u/f" "Write") = DecisionRedirect.
Proof.
  split; [vm_compute; reflexivity|].
  apply (file_redirect_contained sample_engine "/home/u/f" "Write"
           (mkFileRedirect "/home/u/f" "/ws/.scratch/home/u/f" "write" "moved"));
    [vm_compute; reflexivity|]. unfold no_dotdot. vm_compute. set_solver.
Defined.

Lemma BuildEnv_filters_witness :
  StronglySorted (λ a b, string_ltb b a = false) ["AGENTSH_ID=7"; "HOME=/root"; "X=1"].
Proof.
  apply (BuildEnv_filters (mkResolvedEnv [] ["SECRET"] 100 10 false)
           ["HOME=/root"; "SECRET=s"; "LD_PRELOAD=x"; "EMPTY="]
           (<["AGENTSH_ID" := "7"]> (<["X" := "1"]> (<["SECRET" := "z"]> ∅)))
           ["AGENTSH_ID=7"; "HOME=/root"; "X=1"]).
  vm_compute. reflexivity.
Defined.

Lemma NewEngine_keeps_policy_witness :
  cc_rule <$> compiledCommandRules sample_engine = CommandRules sample_policy ∧
  hasRestrictiveCommandRule sample_engine = true.
Proof.
  split; [|vm_compute; reflexivity].
  apply (NewEngine_keeps_policy sample_policy true true sample_engine). vm_compute. reflexivity.
Defined.
End EngineSample.
