(* ===== verification/SignalPolicy.v ===== *)
(** * Signal policy ([internal/signal], [internal/policy/engine_signal.go])

    Signals between processes are checked against first-match rules on the signal
    number and on the relation between sender and target, which a registry of
    session processes computes by walking parent links.

    - [types.go], [target.go], [engine.go]: names, groups, targets, rules,
      [Check] and [ApplyFallback];
    - [registry.go]: the registry and [ClassifyTarget]; [isDescendantLocked] is an
      unbounded loop, modelled with fuel, [None] meaning that it has not returned;
    - theorems: the walk decides the ancestor relation and needs at most one step
      per registered process unless it never returns; it returns on acyclic
      registries; a process registered as its own parent makes it diverge; rule
      matching.

    Signal numbers are those of Linux. *)
From S2P Require Import Prelude.

Open Scope Z_scope.

(** ** Signal names and groups ([types.go]) *)

Definition signalNames : list (string * Z) :=
  [("SIGHUP", 1); ("SIGINT", 2); ("SIGQUIT", 3); ("SIGILL", 4); ("SIGTRAP", 5); ("SIGABRT", 6);
   ("SIGBUS", 7); ("SIGFPE", 8); ("SIGKILL", 9); ("SIGUSR1", 10); ("SIGSEGV", 11); ("SIGUSR2", 12);
   ("SIGPIPE", 13); ("SIGALRM", 14); ("SIGTERM", 15); ("SIGCHLD", 17); ("SIGCONT", 18);
   ("SIGSTOP", 19); ("SIGTSTP", 20); ("SIGTTIN", 21); ("SIGTTOU", 22); ("SIGURG", 23);
   ("SIGXCPU", 24); ("SIGXFSZ", 25); ("SIGVTALRM", 26); ("SIGPROF", 27); ("SIGWINCH", 28);
   ("SIGIO", 29); ("SIGSYS", 31)].

(** 1 to 31. *)
Definition AllSignals : list Z := (λ i, Z.of_nat i + 1) <$> seq 0 31.

Definition signalGroups : list (string * list Z) :=
  [("@fatal", [9; 15; 3; 6]); ("@job", [19; 18; 20; 21; 22]); ("@reload", [1; 10; 12]);
   ("@ignore", [17; 23; 28]); ("@all", AllSignals)].

(** [strconv.Atoi]: an optionally signed decimal that fits in 64 bits. *)
Fixpoint digits_val (acc : Z) (s : string) : option Z :=
  match s with
  | EmptyString => Some acc
  | String c s => if byte_in "0" "9" c then digits_val (10 * acc + (byte_val c - 48)) s else None
  end.
Definition Atoi (s : string) : option Z :=
  let body := match s with
              | String c rest => if Ascii.eqb c "-" || Ascii.eqb c "+" then rest else s
              | EmptyString => s
              end in
  if String.eqb body "" then None
  else n ← digits_val 0 body;
       let n := if HasPrefix s "-" then - n else n in
       if (- 2 ^ 63 <=? n) && (n <? 2 ^ 63) then Some n else None.

Inductive SignalError :=
| signal_out_of_range (n : Z) | unknown_signal (s : string) | unknown_group (s : string)
| invalid_target_type (s : string) | invalid_process_pattern (s : string)
| pid_range_not_positive | pid_range_inverted (min max : Z).

Section signal.
Context `{GoLib, GlobLib}.

Definition SignalFromString (s : string) : Result SignalError Z :=
  let s := TrimSpace (ToUpper s) in
  match Atoi s with
  | Some num => if (0 <? num) && (num <? 64) then Ok num else Err (signal_out_of_range num)
  | None =>
      match assoc s signalNames with
      | Some sig => Ok sig
      | None =>
          if HasPrefix s "SIG" then Err (unknown_signal s)
          else match assoc ("SIG" +:+ s) signalNames with
               | Some sig => Ok sig
               | None => Err (unknown_signal s)
               end
      end
  end.

Definition ExpandSignalGroup (group : string) : Result SignalError (list Z) :=
  let group := ToLower (TrimSpace group) in
  match assoc group signalGroups with
  | Some signals => Ok signals
  | None => Err (unknown_group group)
  end.

Definition IsSignalGroup (s : string) : bool := HasPrefix (TrimSpace s) "@".

(** ** Targets ([target.go]) *)

Inductive TargetType :=
| TargetSelf | TargetChildren | TargetDescendants | TargetSiblings | TargetSession | TargetParent
| TargetExternal | TargetSystem | TargetUser | TargetProcess | TargetPIDRange.
#[export] Instance TargetType_eq_dec : EqDecision TargetType.
Proof. solve_decision. Defined.

Definition validTargetTypes : list (string * TargetType) :=
  [("self", TargetSelf); ("children", TargetChildren); ("descendants", TargetDescendants);
   ("siblings", TargetSiblings); ("session", TargetSession); ("parent", TargetParent);
   ("external", TargetExternal); ("system", TargetSystem); ("user", TargetUser);
   ("process", TargetProcess); ("pid_range", TargetPIDRange)].

Record TargetSpec := mkTargetSpec {
  spec_Type : string; spec_Pattern : string; spec_Min : Z; spec_Max : Z }.
Record ParsedTarget := mkParsedTarget {
  pt_Type : TargetType; pt_ProcessGlob : option glob; pt_PIDMin : Z; pt_PIDMax : Z }.

Definition ParseTargetSpec (spec : TargetSpec) : Result SignalError ParsedTarget :=
  match assoc (ToLower (TrimSpace (spec_Type spec))) validTargetTypes with
  | None => Err (invalid_target_type (spec_Type spec))
  | Some ty =>
      let! g :=
        if bool_decide (ty = TargetProcess) && negb (String.eqb (spec_Pattern spec) "") then
          match glob_Compile (spec_Pattern spec) [] with
          | Some g => Ok (Some g)
          | None => Err (invalid_process_pattern (spec_Pattern spec))
          end
        else Ok None in
      if bool_decide (ty = TargetPIDRange) && ((spec_Min spec <=? 0) || (spec_Max spec <=? 0))
      then Err pid_range_not_positive
      else if bool_decide (ty = TargetPIDRange) && (spec_Max spec <? spec_Min spec)
      then Err (pid_range_inverted (spec_Min spec) (spec_Max spec))
      else Ok (mkParsedTarget ty g (spec_Min spec) (spec_Max spec))
  end.

Record TargetContext := mkTargetContext {
  SourcePID : Z; TargetPID : Z; TargetCmd : string;
  IsChild : bool; IsDescendant : bool; IsSibling : bool; IsParent : bool;
  InSession : bool; SameUser : bool }.

Definition Matches (t : ParsedTarget) (ctx : TargetContext) : bool :=
  match pt_Type t with
  | TargetSelf => TargetPID ctx =? SourcePID ctx
  | TargetChildren => IsChild ctx
  | TargetDescendants => IsDescendant ctx
  | TargetSiblings => IsSibling ctx
  | TargetSession => InSession ctx
  | TargetParent => IsParent ctx
  | TargetExternal => negb (InSession ctx)
  | TargetSystem => (TargetPID ctx =? 1) || (TargetPID ctx =? 2)
  | TargetUser => SameUser ctx && negb (InSession ctx)
  | TargetProcess => match pt_ProcessGlob t with
                     | None => false
                     | Some g => glob_Match g (TargetCmd ctx)
                     end
  | TargetPIDRange => (pt_PIDMin t <=? TargetPID ctx) && (TargetPID ctx <=? pt_PIDMax t)
  end.

(** ** Rules ([engine.go]) *)

Record SignalRule := mkSignalRule {
  sig_Name : string; sig_Description : string; sig_Signals : list string; sig_Target : TargetSpec;
  sig_Decision : string; sig_Fallback : string; sig_RedirectTo : string; sig_Message : string }.

(** [DecisionAction] is a string type; these are its named values. *)
Definition SigAllow : string := "allow".
Definition SigDeny : string := "deny".
Definition SigAudit : string := "audit".
Definition SigApprove : string := "approve".
Definition SigRedirect : string := "redirect".
Definition SigAbsorb : string := "absorb".

Record SignalDecision := mkSignalDecision {
  sd_Action : string; sd_Rule : string; sd_Message : string; sd_RedirectSignal : Z;
  sd_Fallback : string }.

Record compiledSignalRule := mkCompiledSignal {
  cs_rule : SignalRule; cs_signals : gset Z; cs_target : ParsedTarget; cs_redirect : Z }.

(** One entry of [rule.Signals]. *)
Definition expand_spec (spec : string) : Result SignalError (list Z) :=
  if IsSignalGroup spec then ExpandSignalGroup spec
  else let! sig := SignalFromString spec in Ok [sig].

Definition compile_signal_rule (rule : SignalRule) : Result SignalError compiledSignalRule :=
  let! sigs := rmap expand_spec (sig_Signals rule) in
  let! target := ParseTargetSpec (sig_Target rule) in
  let! redirect :=
    if String.eqb (sig_Decision rule) SigRedirect && negb (String.eqb (sig_RedirectTo rule) "")
    then SignalFromString (sig_RedirectTo rule) else Ok 0 in
  Ok (mkCompiledSignal rule (list_to_set (mjoin sigs)) target redirect).

Definition NewSignalEngine (rules : list SignalRule) : Result SignalError (list compiledSignalRule) :=
  rmap compile_signal_rule rules.

Definition signal_rule_applies (signal : Z) (ctx : TargetContext) (r : compiledSignalRule) : bool :=
  bool_decide (signal ∈ cs_signals r) && Matches (cs_target r) ctx.

Definition Check (rules : list compiledSignalRule) (signal : Z) (ctx : TargetContext) : SignalDecision :=
  match find_first (signal_rule_applies signal ctx) rules with
  | Some r => mkSignalDecision (sig_Decision (cs_rule r)) (sig_Name (cs_rule r))
                (sig_Message (cs_rule r)) (cs_redirect r) (sig_Fallback (cs_rule r))
  | None => mkSignalDecision SigDeny "" "no matching rule" 0 ""
  end.

Definition needs_block (action : string) : bool :=
  existsb (String.eqb action) [SigDeny; SigApprove; SigRedirect; SigAbsorb].

Definition ApplyFallback (dec : SignalDecision) (canBlock : bool) : SignalDecision :=
  if canBlock then dec
  else if negb (needs_block (sd_Action dec)) then dec
  else if negb (String.eqb (sd_Fallback dec) "") then
    mkSignalDecision (sd_Fallback dec) (sd_Rule dec) (sd_Message dec +:+ " (fallback applied)")
      (sd_RedirectSignal dec) (sd_Fallback dec)
  else mkSignalDecision SigAudit (sd_Rule dec) (sd_Message dec +:+ " (platform cannot enforce)") 0
         (sd_Fallback dec).

(** [compileSignalRules] of the policy package: no engine without rules. The
    policy's rule carries the same fields and a timeout that is not passed on. *)
Record PolicySignalRule := mkPolicySignalRule { ps_rule : SignalRule; ps_Timeout : Z }.
Definition compileSignalRules (rules : list PolicySignalRule)
    : Result SignalError (option (list compiledSignalRule)) :=
  match rules with
  | [] => Ok None
  | _ => let! e := NewSignalEngine (ps_rule <$> rules) in Ok (Some e)
  end.

(** ** Process registry ([registry.go]) *)

Record PIDRegistry := mkRegistry {
  supervisorPID : Z; supervisorUID : Z;
  parents : gmap Z Z; commands : gmap Z string; children : gmap Z (list Z); uids : gmap Z Z }.

Definition NewPIDRegistryWithUID (supervisor uid : Z) : PIDRegistry :=
  mkRegistry supervisor uid ∅ ∅ ∅ ∅.
Definition NewPIDRegistry (supervisor : Z) : PIDRegistry := NewPIDRegistryWithUID supervisor (-1).

(** [append(r.children[parent], pid)]: a missing entry is the nil slice. *)
Definition add_child (parent pid : Z) (m : gmap Z (list Z)) : gmap Z (list Z) :=
  <[parent := default [] (m !! parent) ++ [pid]]> m.

Definition Register (r : PIDRegistry) (pid parentPID : Z) (command : string) : PIDRegistry :=
  mkRegistry (supervisorPID r) (supervisorUID r) (<[pid := parentPID]> (parents r))
    (<[pid := command]> (commands r)) (add_child parentPID pid (children r))
    (if 0 <=? supervisorUID r then <[pid := supervisorUID r]> (uids r) else uids r).

Definition RegisterWithUID (r : PIDRegistry) (pid parentPID : Z) (command : string) (uid : Z) : PIDRegistry :=
  mkRegistry (supervisorPID r) (supervisorUID r) (<[pid := parentPID]> (parents r))
    (<[pid := command]> (commands r)) (add_child parentPID pid (children r)) (<[pid := uid]> (uids r)).

Fixpoint remove_first (pid : Z) (l : list Z) : list Z :=
  match l with
  | [] => []
  | c :: l => if c =? pid then l else c :: remove_first pid l
  end.

Definition Unregister (r : PIDRegistry) (pid : Z) : PIDRegistry :=
  let parentPID := default 0 (parents r !! pid) in
  mkRegistry (supervisorPID r) (supervisorUID r) (delete pid (parents r)) (delete pid (commands r))
    (delete pid (alter (remove_first pid) parentPID (children r))) (delete pid (uids r)).

Definition inSessionLocked (r : PIDRegistry) (pid : Z) : bool :=
  (pid =? supervisorPID r) || bool_decide (is_Some (parents r !! pid)).

(** The loop of [isDescendantLocked], at most [fuel] iterations. *)
Fixpoint isDescendantLocked (fuel : nat) (m : gmap Z Z) (ancestorPID current : Z) : option bool :=
  match fuel with
  | O => None
  | S fuel =>
      match m !! current with
      | None => Some false
      | Some parent =>
          if parent =? ancestorPID then Some true else isDescendantLocked fuel m ancestorPID parent
      end
  end.

(** A process's UID, with the supervisor's known from the registry itself. *)
Definition known_uid (r : PIDRegistry) (pid : Z) : option Z :=
  match uids r !! pid with
  | Some u => Some u
  | None => if (pid =? supervisorPID r) && (0 <=? supervisorUID r) then Some (supervisorUID r) else None
  end.

Definition ClassifyTarget (fuel : nat) (r : PIDRegistry) (sourcePID targetPID : Z) : option TargetContext :=
  let sameUser := match known_uid r sourcePID, known_uid r targetPID with
                  | Some u, Some v => u =? v
                  | _, _ => false
                  end in
  let ctx child desc sib par :=
    mkTargetContext sourcePID targetPID (default "" (commands r !! targetPID)) child desc sib par
      (inSessionLocked r targetPID) sameUser in
  let parent_of pid := default 0 (parents r !! pid) in
  if sourcePID =? targetPID then Some (ctx false false false false)
  else if targetPID =? supervisorPID r then Some (ctx false false false true)
  else if parent_of sourcePID =? targetPID then Some (ctx false false false true)
  else if parent_of targetPID =? sourcePID then Some (ctx true true false false)
  else
    d ← isDescendantLocked fuel (parents r) sourcePID targetPID;
    if (d : bool) then Some (ctx false true false false)
    else if (parent_of sourcePID =? parent_of targetPID) && negb (parent_of sourcePID =? 0)
    then Some (ctx false false true false)
    else Some (ctx false false false false).

(** [Handler.Evaluate] *)
Definition signal_Evaluate (fuel : nat) (rules : list compiledSignalRule) (r : PIDRegistry)
    (pid target signal : Z) : option SignalDecision :=
  ctx ← ClassifyTarget fuel r pid target; Some (Check rules signal ctx).
End signal.

(** ** The parent walk *)

(** [ancestor_of m a p]: following parent links from [p] reaches [a]. *)
Inductive ancestor_of (m : gmap Z Z) (a : Z) : Z → Prop :=
| ancestor_parent p : m !! p = Some a → ancestor_of m a p
| ancestor_step p q : m !! p = Some q → ancestor_of m a q → ancestor_of m a p.

Lemma walk_true fuel m a p : isDescendantLocked fuel m a p = Some true → ancestor_of m a p.
Proof.
  revert p. induction fuel as [|fuel IH]; intros p; simpl; [done|].
  destruct (m !! p) as [q|] eqn:Hq; [|done]. destruct (Z.eqb_spec q a) as [->|].
  - intros _. by apply ancestor_parent.
  - intros Hd. eapply ancestor_step; [done|]. by apply IH.
Qed.

Lemma walk_false fuel m a p : isDescendantLocked fuel m a p = Some false → ¬ ancestor_of m a p.
Proof.
  revert p. induction fuel as [|fuel IH]; intros p; simpl; [done|].
  destruct (m !! p) as [q|] eqn:Hq.
  - destruct (Z.eqb_spec q a) as [|Hne]; [done|]. intros Hd%IH Ha.
    destruct Ha as [p Hp|p q' Hp Ha]; simplify_eq.
  - intros _ Ha. destruct Ha; congruence.
Qed.

(** The [k]-th process of the walk from [p], while links exist. *)
Fixpoint visit (m : gmap Z Z) (k : nat) (p : Z) : option Z :=
  match k with
  | O => Some p
  | S k => q ← visit m k p; m !! q
  end.

Lemma visit_add m i k p q : visit m i p = Some q → visit m (i + k) p = visit m k q.
Proof.
  intros Hq. induction k as [|k IH]; [by rewrite Nat.add_0_r|].
  rewrite Nat.add_succ_r. simpl. by rewrite IH.
Qed.

(** Walking [fuel] steps without an answer visits [fuel] registered processes,
    none with parent [a]. *)
Lemma walk_none_visits fuel m a p k :
  isDescendantLocked fuel m a p = None → (k < fuel)%nat →
  ∃ q r, visit m k p = Some q ∧ m !! q = Some r ∧ r ≠ a.
Proof.
  revert p k. induction fuel as [|fuel IH]; intros p k; simpl; [lia|].
  destruct (m !! p) as [q|] eqn:Hq; [|done]. destruct (Z.eqb_spec q a) as [|Hne]; [done|].
  intros Hn Hk. destruct k as [|k]; [by exists p, q|].
  destruct (IH q k Hn) as (x & y & Hx & ? & ?); [lia|]. exists x, y. split; [|done].
  change (S k) with (1 + k)%nat. rewrite (visit_add m 1 k p q); [done|]. simpl. done.
Qed.

(** A set of processes closed under parent links that avoids [a]: the walk never
    answers from inside it. *)
Lemma walk_closed (m : gmap Z Z) a (P : Z → Prop) :
  (∀ x, P x → ∃ y, m !! x = Some y ∧ y ≠ a ∧ P y) →
  ∀ fuel p, P p → isDescendantLocked fuel m a p = None.
Proof.
  intros Hcl. induction fuel as [|fuel IH]; intros p Hp; simpl; [done|].
  destruct (Hcl p Hp) as (y & -> & Hy & HPy). rewrite (proj2 (Z.eqb_neq y a) Hy). by apply IH.
Qed.

Lemma dup_indices (l : list Z) :
  ¬ NoDup l → ∃ i j x, (i < j)%nat ∧ l !! i = Some x ∧ l !! j = Some x.
Proof.
  induction l as [|x l IH]; intros Hd; [destruct Hd; constructor|].
  destruct (decide (x ∈ l)) as [[k Hk]%list_elem_of_lookup|Hx].
  - exists 0%nat, (S k), x. split_and!; [lia|done|done].
  - destruct IH as (i & j & y & ? & ? & ?); [by intros ?; destruct Hd; constructor|].
    exists (S i), (S j), y. split_and!; [lia|done|done].
Qed.

Lemma visits_repeat m n p :
  (size m < n)%nat → (∀ k, (k < n)%nat → ∃ q r, visit m k p = Some q ∧ m !! q = Some r) →
  ∃ i j q, (i < j < n)%nat ∧ visit m i p = Some q ∧ visit m j p = Some q.
Proof.
  intros Hn Hv. set (vs := (λ k, default 0 (visit m k p)) <$> seq 0 n).
  assert (Hvs : ∀ k x, vs !! k = Some x → (k < n)%nat ∧ visit m k p = Some x).
  { intros k x. unfold vs. rewrite list_lookup_fmap.
    destruct (seq 0 n !! k) as [y|] eqn:Hk; [|done]. apply lookup_seq in Hk as [-> Hk].
    simpl. destruct (Hv k) as (q & r & -> & _); [lia|]. by intros [= <-]. }
  destruct (dup_indices vs) as (i & j & x & Hij & Hi & Hj).
  - intros Hnd. assert (Hlen : (length vs <= size m)%nat).
    { rewrite <-(size_list_to_set (C := gset Z)) by done. rewrite <-(size_dom m).
      apply subseteq_size. intros x. rewrite elem_of_list_to_set, elem_of_dom.
      intros [k Hk]%list_elem_of_lookup. apply Hvs in Hk as [Hk Hx].
      destruct (Hv k Hk) as (q & r & Hq & Hr). simplify_eq. by eexists. }
    unfold vs in Hlen. rewrite length_fmap, length_seq in Hlen. lia.
  - apply Hvs in Hi as [? Hi]. apply Hvs in Hj as [? Hj]. by exists i, j, x.
Qed.

(** Once the walk has taken more steps than there are processes, it never returns. *)
Lemma walk_diverges m a p :
  isDescendantLocked (S (size m)) m a p = None → ∀ fuel, isDescendantLocked fuel m a p = None.
Proof.
  intros Hn. set (n := S (size m)) in *.
  assert (Hv : ∀ k, (k < n)%nat → ∃ q r, visit m k p = Some q ∧ m !! q = Some r ∧ r ≠ a)
    by (intros k Hk; by eapply walk_none_visits).
  destruct (visits_repeat m n p) as (i & j & q & Hij & Hi & Hj); [unfold n; lia| |].
  { intros k Hk. destruct (Hv k Hk) as (x & y & ? & ? & _). by exists x, y. }
  intros fuel. apply (walk_closed m a (λ x, ∃ k, (k < n)%nat ∧ visit m k p = Some x)).
  - intros x (k & Hk & Hx). destruct (Hv k Hk) as (x' & y & Hx' & Hy & Hne). simplify_eq.
    exists y. split_and!; try done.
    assert (Hsk : visit m (S k) p = Some y) by (simpl; by rewrite Hx).
    destruct (decide (S k < n)%nat) as [|Hlast]; [by exists (S k)|].
    exists (i + (S k - j))%nat. split; [lia|].
    rewrite (visit_add m i _ p q Hi), <-(visit_add m j _ p q Hj).
    by replace (j + (S k - j))%nat with (S k) by lia.
  - exists 0%nat. split; [unfold n; lia|done].
Qed.

(** A walk that does not answer runs into a cycle. *)
Lemma visit_none m p n : m !! p = None → visit m (S n) p = None.
Proof. intros Hp. induction n as [|n IH]; [done|]. simpl in *. by rewrite IH. Qed.

Lemma ancestor_visit m k p q : visit m (S k) p = Some q → ancestor_of m q p.
Proof.
  revert p. induction k as [|k IH]; intros p Hk; [by apply ancestor_parent|].
  destruct (m !! p) as [r|] eqn:Hr; [|by rewrite visit_none in Hk].
  change (S (S k)) with (1 + S k)%nat in Hk. rewrite (visit_add m 1 (S k) p r) in Hk by done.
  eapply ancestor_step; [done|]. by apply IH.
Qed.

Lemma acyclic_walk m a p :
  (∀ q, ¬ ancestor_of m q q) → is_Some (isDescendantLocked (S (size m)) m a p).
Proof.
  intros Hac. apply not_eq_None_Some. intros Hn.
  destruct (visits_repeat m (S (size m)) p) as (i & j & q & Hij & Hi & Hj); [lia| |].
  { intros k Hk. destruct (walk_none_visits _ _ _ _ k Hn Hk) as (x & y & ? & ? & _). by exists x, y. }
  destruct (Hac q). apply (ancestor_visit m (j - i - 1)).
  rewrite <-(visit_add m i _ p q Hi). by replace (i + S (j - i - 1))%nat with j by lia.
Qed.

(** The descendant walk: [isDescendantLocked], given one iteration more than
    there are registered processes, either answers exactly whether the ancestor
    is reached by parent links, or never returns, for any number of iterations;
    and when the parent links have no cycle it always answers. *)
Theorem descendant_walk_correct m ancestor pid :
  let n := S (size m) in
  (isDescendantLocked n m ancestor pid = Some true → ancestor_of m ancestor pid) ∧
  (isDescendantLocked n m ancestor pid = Some false → ¬ ancestor_of m ancestor pid) ∧
  (isDescendantLocked n m ancestor pid = None → ∀ fuel, isDescendantLocked fuel m ancestor pid = None) ∧
  ((∀ p, ¬ ancestor_of m p p) → is_Some (isDescendantLocked n m ancestor pid)).
Proof.
  intros n. split_and!; [apply walk_true|apply walk_false|apply walk_diverges|apply acyclic_walk].
Qed.

(** *** Registration *)

Lemma ancestor_of_trans m a b c : ancestor_of m a b → ancestor_of m b c → ancestor_of m a c.
Proof. intros Hab Hbc. induction Hbc as [c Hc|c d Hc _ IH]; by eapply ancestor_step. Qed.

(** A path in the extended links is an old path or passes the new link. *)
Lemma ancestor_insert m pid par a p :
  ancestor_of (<[pid := par]> m) a p →
  ancestor_of m a p ∨
  ((p = pid ∨ ancestor_of (<[pid := par]> m) pid p) ∧
   (a = par ∨ ancestor_of (<[pid := par]> m) a par)).
Proof.
  intros Ha. induction Ha as [p Hp|p q Hp Ha IH].
  - apply lookup_insert_Some in Hp as [[-> ->]|[_ Hp]]; [auto|left; by apply ancestor_parent].
  - pose proof Hp as Hp'. apply lookup_insert_Some in Hp as [[-> ->]|[_ Hp]]; [auto|].
    destruct IH as [IH|[[->|Hq] IH]]; [left; by eapply ancestor_step|right..].
    + split; [|done]. right. by apply ancestor_parent.
    + split; [|done]. right. by eapply ancestor_step.
Qed.

(** Paths to a fresh process do not use its new link. *)
Lemma ancestor_insert_self m pid par q :
  ancestor_of (<[pid := par]> m) pid q → q = pid ∨ ancestor_of m pid q.
Proof.
  induction 1 as [q Hq|q x Hq _ IH]; apply lookup_insert_Some in Hq as [[-> _]|[_ Hq]]; auto.
  - right. by apply ancestor_parent.
  - right. destruct IH as [->|IH]; [by apply ancestor_parent|by eapply ancestor_step].
Qed.

Lemma insert_acyclic m pid par :
  (∀ p, ¬ ancestor_of m p p) → pid ≠ par → ¬ ancestor_of m pid par →
  ∀ p, ¬ ancestor_of (<[pid := par]> m) p p.
Proof.
  intros Hac Hne Hnd.
  assert (Hpid : ¬ ancestor_of (<[pid := par]> m) pid pid).
  { intros Ha. inversion Ha as [? Hp|? q Hp Hq]; rewrite lookup_insert_eq in Hp; simplify_eq.
    apply ancestor_insert_self in Hq as [->|Hq]; done. }
  assert (Hlink : ancestor_of (<[pid := par]> m) par pid)
    by (apply ancestor_parent; by rewrite lookup_insert_eq).
  intros p [Ha|[Hp Hpar]]%ancestor_insert; [by eapply Hac|]. apply Hpid.
  destruct Hpar as [->|Hpar], Hp as [->|Hp]; try done; eauto using ancestor_of_trans.
Qed.

Lemma ClassifyTarget_returns fuel r source target :
  is_Some (isDescendantLocked fuel (parents r) source target) →
  is_Some (ClassifyTarget fuel r source target).
Proof.
  intros [d Hd]. unfold ClassifyTarget. repeat case_match; try done; simpl.
  all: rewrite Hd; simpl; repeat case_match; done.
Qed.

(** Registering keeps the links acyclic: if no process is its own ancestor
    and a process is registered under a parent other than itself that does not
    descend from it, then again no process is its own ancestor, and every
    classification returns within one step per registered process. *)
Theorem register_keeps_acyclic r pid parentPID command :
  (∀ p, ¬ ancestor_of (parents r) p p) → pid ≠ parentPID → ¬ ancestor_of (parents r) pid parentPID →
  let r' := Register r pid parentPID command in
  (∀ p, ¬ ancestor_of (parents r') p p) ∧
  ∀ source target, is_Some (ClassifyTarget (S (size (parents r'))) r' source target).
Proof.
  intros Hac Hne Hnd r'.
  assert (Hac' : ∀ p, ¬ ancestor_of (parents r') p p) by (by apply insert_acyclic).
  split; [done|]. intros source target. by apply ClassifyTarget_returns, acyclic_walk.
Qed.

(** A process registered as its own parent hangs the classifier: after
    [Register pid pid], classifying a signal to [pid] from any other process that
    is not registered under [pid] never returns, unless [pid] is the supervisor. *)
Theorem self_parent_diverges r pid command source :
  source ≠ pid → pid ≠ supervisorPID r → default 0 (parents r !! source) ≠ pid →
  ∀ fuel, ClassifyTarget fuel (Register r pid pid command) source pid = None.
Proof.
  intros Hne Hsup Hpar fuel. unfold ClassifyTarget. cbn [Register supervisorPID parents].
  rewrite (proj2 (Z.eqb_neq _ _) Hne), (proj2 (Z.eqb_neq _ _) Hsup).
  rewrite lookup_insert_ne, (proj2 (Z.eqb_neq _ _) Hpar) by done.
  rewrite lookup_insert_eq. simpl. rewrite (proj2 (Z.eqb_neq pid source)) by done.
  rewrite (walk_closed (<[pid := pid]> (parents r)) source (λ x, x = pid)); [done| |done].
  intros x ->. exists pid. by rewrite lookup_insert_eq.
Qed.

(** ** Rules *)

Section rules.
Context `{GoLib, GlobLib}.

Definition valid_signal (n : Z) : Prop := 0 < n < 64.

Lemma signalNames_valid k v : assoc k signalNames = Some v → valid_signal v.
Proof.
  intros Hv%assoc_elem. assert (Hall : Forall (λ kv : string * Z, valid_signal kv.2) signalNames).
  { unfold valid_signal. repeat constructor; simpl; lia. }
  rewrite Forall_forall in Hall. by apply (Hall (k, v)).
Qed.

Lemma signalGroups_valid k vs n : assoc k signalGroups = Some vs → n ∈ vs → valid_signal n.
Proof.
  intros Hv%assoc_elem Hn.
  assert (Hall : Forall (λ kv : string * list Z, Forall valid_signal kv.2) signalGroups).
  { unfold valid_signal. vm_compute. repeat constructor. }
  rewrite Forall_forall in Hall. specialize (Hall _ Hv). rewrite Forall_forall in Hall. by apply Hall.
Qed.

Lemma SignalFromString_valid s n : SignalFromString s = Ok n → valid_signal n.
Proof.
  unfold SignalFromString, valid_signal. destruct (Atoi _) as [m|].
  - destruct (_ && _) eqn:Hm; [|done]. intros [= <-]. bool_hyps. lia.
  - destruct (assoc _ signalNames) eqn:Ha; [intros [= <-]; by eapply signalNames_valid|].
    destruct (HasPrefix _ _); [done|].
    destruct (assoc (_ +:+ _) signalNames) eqn:Hb; [|done]. intros [= <-]. by eapply signalNames_valid.
Qed.

Lemma expand_spec_valid spec l n : expand_spec spec = Ok l → n ∈ l → valid_signal n.
Proof.
  unfold expand_spec, ExpandSignalGroup. destruct (IsSignalGroup spec).
  - destruct (assoc _ _) as [vs|] eqn:Ha; [|done]. intros [= <-]. by eapply signalGroups_valid.
  - intros (m & Hm%SignalFromString_valid & [= <-])%rbind_Ok. set_solver.
Qed.

(** Signal rules: a compiled engine keeps the rules in order; every signal
    number it matches, and the target of a redirect rule that names one, lies
    between 1 and 63; a signal is decided by the first rule that names it and
    whose target matches, and denied when there is none. *)
Theorem signal_rules_sound rules e :
  NewSignalEngine rules = Ok e →
  cs_rule <$> e = rules ∧
  (∀ r n, r ∈ e → n ∈ cs_signals r → valid_signal n) ∧
  (∀ r, r ∈ e → sig_Decision (cs_rule r) = SigRedirect → sig_RedirectTo (cs_rule r) ≠ "" →
     valid_signal (cs_redirect r)) ∧
  (∀ signal ctx,
     (∃ before r after, e = before ++ r :: after ∧ signal ∈ cs_signals r ∧
        Matches (cs_target r) ctx = true ∧
        (∀ x, x ∈ before → signal_rule_applies signal ctx x = false) ∧
        sd_Rule (Check e signal ctx) = sig_Name (cs_rule r) ∧
        sd_Action (Check e signal ctx) = sig_Decision (cs_rule r)) ∨
     ((∀ x, x ∈ e → signal_rule_applies signal ctx x = false) ∧
      sd_Action (Check e signal ctx) = SigDeny)).
Proof.
  unfold NewSignalEngine. intros He%rmap_Ok.
  assert (Hc : ∀ r, r ∈ e → ∃ x, compile_signal_rule x = Ok r).
  { intros r [i Hi]%list_elem_of_lookup. destruct (Forall2_lookup_r _ _ _ _ _ He Hi) as (x & _ & ?). eauto. }
  split_and!.
  - induction He as [|x y l ys Hx _ IH]; [done|]. rewrite fmap_cons, IH.
    + unfold compile_signal_rule in Hx. ok_hyps. by simplify_eq.
    + intros r Hr. apply Hc. set_solver.
  - intros r n (x & Hx)%Hc Hn. unfold compile_signal_rule in Hx. ok_hyps. simplify_eq. simpl in Hn.
    apply elem_of_list_to_set, list_elem_of_join in Hn as (l & Hn & Hl).
    apply rmap_Ok in H1. apply list_elem_of_lookup in Hl as [i Hi].
    destruct (Forall2_lookup_r _ _ _ _ _ H1 Hi) as (spec & _ & Hs). by eapply expand_spec_valid.
  - intros r (x & Hx)%Hc Hd Hr. unfold compile_signal_rule in Hx. ok_hyps. simplify_eq. simpl in *.
    rewrite Hd in *. rewrite (proj2 (String.eqb_neq _ _) Hr) in *. cbn in H3. by eapply SignalFromString_valid.
  - intros signal ctx. unfold Check. destruct (find_first _ _) as [r|] eqn:Hf.
    + left. clear He Hc. revert Hf. induction e as [|x e IH]; simpl; [done|].
      destruct (signal_rule_applies signal ctx x) eqn:Hx.
      * intros [= ->]. exists [], r, e. unfold signal_rule_applies in Hx. bool_hyps. set_solver.
      * intros Hf. destruct (IH Hf) as (before & r' & after & -> & ? & ? & ? & ? & ?).
        exists (x :: before), r', after. set_solver.
    + right. split; [by apply find_first_None|done].
Qed.
End rules.

(** ** Concrete runs *)
Module SignalSample.
#[local] Existing Instance ascii_go.
#[local] Existing Instance literal_glob.

Definition sample_registry : PIDRegistry := Register (NewPIDRegistryWithUID 1 0) 10 1 "bash".

Definition sample_rules : list SignalRule :=
  [mkSignalRule "kids" "" ["@fatal"; "HUP"] (mkTargetSpec "Children" "" 0 0) "allow" "" "" "";
   mkSignalRule "soften" "" ["9"] (mkTargetSpec "session" "" 0 0) "redirect" "audit" "SIGTERM" ""].

Definition sample_compiled : list compiledSignalRule :=
  match NewSignalEngine sample_rules with Ok e => e | Err _ => [] end.

Lemma sample_acyclic : ∀ p, ¬ ancestor_of (parents sample_registry) p p.
Proof.
  apply (insert_acyclic ∅ 10 1); [|lia|].
  - intros p Ha. by inversion Ha.
  - intros Ha. by inversion Ha.
Qed.

Lemma register_keeps_acyclic_witness :
  is_Some (ClassifyTarget 3 (Register sample_registry 20 10 "make") 10 20).
Proof.
  apply (register_keeps_acyclic sample_registry 20 10 "make"); [exact sample_acyclic|lia|].
  intros Ha. inversion Ha as [? Hp|? q Hp Hq]; vm_compute in Hp; simplify_eq.
  inversion Hq as [? Hp|? q Hp' _]; [by vm_compute in Hp|by vm_compute in Hp'].
Defined.

(** A command started in its own process group and registered under its group
    id, signalled by a process it spawned. *)
Lemma self_parent_diverges_witness :
  ClassifyTarget 1000 (Register sample_registry 30 30 "make") 31 30 = None.
Proof.
  apply (self_parent_diverges sample_registry 30 "make" 31); vm_compute; discriminate.
Defined.

Lemma signal_rules_sound_witness :
  cs_rule <$> sample_compiled = sample_rules ∧
  sd_Rule (Check sample_compiled 9 (mkTargetContext 10 20 "make" false true false false true true)) = "soften".
Proof.
  split; [|vm_compute; reflexivity].
  apply (signal_rules_sound sample_rules sample_compiled). vm_compute. reflexivity.
Defined.
End SignalSample.
