(* ===== verification/HttpService.v ===== *)
(** * Declared HTTP services ([internal/policy]: http_service.go,
    http_service_compile.go, http_service_check.go)

    A policy may declare HTTP services reachable only through the gateway. They
    are validated, compiled into lookup tables by name and by host, and every
    request through the gateway is checked by method and path.

    - [canonicalizeHost], [ValidateHTTPServices], [compileHTTPServices],
      [CheckHTTPService], [DeclaredHTTPServiceHost],
      [DeclaredHTTPServiceAllowsDirect];
    - theorems: services that pass validation compile, every declared host then
      leads to its own service, and a request is let through only on a clean path
      by the first matching rule or an explicit default.

    [net/url] and [net/netip] parsing are parameters. The checks of secret
    references against providers are not modelled. *)
From S2P Require Import Prelude ShellParse PolicyEngine.

(** [url.Parse]: scheme and host; [netip.ParseAddr] with [Is6]. *)
Class UrlLib := {
  url_Parse : string → option (string * string);
  netip_Is6 : string → bool;
}.

Record HTTPServiceRule := mkHTTPRule {
  hr_Name : string; hr_Methods : list string; hr_Paths : list string; hr_Decision : string;
  hr_Message : string }.
Record HTTPServiceSecret := mkHTTPSecret { hs_Ref : string; hs_Format : string }.
Record HTTPService := mkHTTPService {
  svc_Name : string; svc_Upstream : string; svc_ExposeAs : string; svc_Aliases : list string;
  svc_AllowDirect : bool; svc_Default : string; svc_Rules : list HTTPServiceRule;
  svc_Secret : option HTTPServiceSecret }.

(** [httpServiceNameRe] and [envVarNameRe]. *)
Definition alnum (c : ascii) : bool := byte_in "A" "Z" c || byte_in "a" "z" c || byte_in "0" "9" c.
Definition httpServiceNameRe (s : string) : bool :=
  negb (String.eqb s "") && str_forall (λ c, alnum c || str_mem c "._-") s.
Definition envVarNameRe (s : string) : bool :=
  match s with
  | EmptyString => false
  | String c rest =>
      (byte_in "A" "Z" c || byte_in "a" "z" c || Ascii.eqb c "_") &&
      str_forall (λ c, alnum c || Ascii.eqb c "_") rest
  end.

Definition reservedEnvVarNames : list string :=
  ["ANTHROPIC_BASE_URL"; "OPENAI_BASE_URL"; "AGENTSH_SESSION_ID"].

Inductive HTTPError :=
| http_name_required (i : nat) | http_name_invalid (i : nat) (name : string)
| http_duplicate_name (name : string) | http_invalid_upstream (name url : string)
| http_upstream_not_https (name scheme : string) | http_invalid_host (name host : string)
| http_duplicate_host (name host owner : string) | http_invalid_alias (name alias : string)
| http_duplicate_alias (name host owner : string) | http_invalid_default (name dflt : string)
| http_derived_env_invalid (name env : string) | http_invalid_expose_as (name env : string)
| http_reserved_env (name env : string) | http_duplicate_env (name env owner : string)
| http_rule_decision (name rule dec : string) | http_rule_no_path (name rule : string)
| http_rule_empty_path (name rule : string) | http_rule_bad_glob (name rule pat : string)
| http_rule_empty_method (name rule : string).

(** [strings.Count s ":"] *)
Fixpoint count_byte (c : ascii) (s : string) : nat :=
  match s with
  | EmptyString => 0
  | String d s => (if Ascii.eqb d c then 1 else 0) + count_byte c s
  end.

Section http.
Context `{GoLib, GlobLib, RegexpLib, NetLib, SortLib, UrlLib}.

Definition canonicalizeHost (s : string) : option string :=
  let s := TrimSpace s in
  if String.eqb s "" then None
  else if HasPrefix s "[" then
    match IndexByte s "]" with
    | None => None
    | Some e =>
        let inner := str_take (e - 1) (str_drop 1 s) in
        let rest := str_drop (e + 1) s in
        if negb (String.eqb rest "") && negb (HasPrefix rest ":") then None
        else if netip_Is6 inner then Some (ToLower inner) else None
    end
  else if (2 <=? count_byte ":" s)%nat then None
  else
    let s := match LastIndexAny s ":" with Some i => str_take i s | None => s end in
    let s := TrimSuffix (ToLower s) "." in
    if String.eqb s "" then None else Some s.

(** ** Validation *)

Definition validateHTTPServiceRule (svc : string) (r : HTTPServiceRule) : Result HTTPError unit :=
  if negb (string_in (hr_Decision r) ["allow"; "deny"; "approve"; "audit"])
  then Err (http_rule_decision svc (hr_Name r) (hr_Decision r))
  else match hr_Paths r with
  | [] => Err (http_rule_no_path svc (hr_Name r))
  | paths =>
      let! _ := rmap (λ pat,
        if String.eqb (TrimSpace pat) "" then Err (http_rule_empty_path svc (hr_Name r))
        else match glob_Compile pat [slash] with
             | None => Err (http_rule_bad_glob svc (hr_Name r) pat)
             | Some _ => Ok tt
             end) paths in
      if existsb (λ m, String.eqb (TrimSpace m) "") (hr_Methods r)
      then Err (http_rule_empty_method svc (hr_Name r))
      else Ok tt
  end.

Record ValidateState := mkValidateState {
  nameSeen : gset string; hostSeen : gmap string string; envVarSeen : gmap string string }.

(** The alias loop: [hostSeen] grows as aliases are accepted. *)
Fixpoint validate_aliases (name : string) (aliases : list string) (seen : gmap string string)
    : Result HTTPError (gmap string string) :=
  match aliases with
  | [] => Ok seen
  | alias :: aliases =>
      match canonicalizeHost alias with
      | None => Err (http_invalid_alias name alias)
      | Some a =>
          match seen !! a with
          | Some other => Err (http_duplicate_alias name a other)
          | None => validate_aliases name aliases (<[a := name]> seen)
          end
      end
  end.

Definition expose_as (s : HTTPService) : string :=
  if String.eqb (svc_ExposeAs s) "" then ToUpper (svc_Name s) +:+ "_API_URL" else svc_ExposeAs s.

(** One iteration of the service loop; [insecure] is the test-only switch for
    plain-HTTP upstreams. *)
Definition validate_service (insecure : bool) (i : nat) (s : HTTPService) (st : ValidateState)
    : Result HTTPError ValidateState :=
  let name := svc_Name s in
  if String.eqb (TrimSpace name) "" then Err (http_name_required i)
  else if negb (httpServiceNameRe name) then Err (http_name_invalid i name)
  else if decide (ToLower name ∈ nameSeen st) then Err (http_duplicate_name name)
  else match url_Parse (svc_Upstream s) with
  | None => Err (http_invalid_upstream name (svc_Upstream s))
  | Some (scheme, uhost) =>
      if String.eqb uhost "" then Err (http_invalid_upstream name (svc_Upstream s))
      else if negb (String.eqb scheme "https") && negb (insecure && String.eqb scheme "http")
      then Err (http_upstream_not_https name scheme)
      else match canonicalizeHost uhost with
      | None => Err (http_invalid_host name uhost)
      | Some host =>
          match hostSeen st !! host with
          | Some other => Err (http_duplicate_host name host other)
          | None =>
              let! hosts := validate_aliases name (svc_Aliases s) (<[host := name]> (hostSeen st)) in
              if negb (string_in (svc_Default s) [""; "allow"; "deny"])
              then Err (http_invalid_default name (svc_Default s))
              else
                let env := expose_as s in
                if negb (envVarNameRe env)
                then Err (if String.eqb (svc_ExposeAs s) "" then http_derived_env_invalid name env
                          else http_invalid_expose_as name env)
                else
                  let key := ToUpper env in
                  if string_in key reservedEnvVarNames then Err (http_reserved_env name env)
                  else match envVarSeen st !! key with
                  | Some other => Err (http_duplicate_env name env other)
                  | None =>
                      let! _ := rmap (validateHTTPServiceRule name) (svc_Rules s) in
                      Ok (mkValidateState ({[ToLower name]} ∪ nameSeen st) hosts
                            (<[key := name]> (envVarSeen st)))
                  end
          end
      end
  end.

Fixpoint validate_from (insecure : bool) (i : nat) (svcs : list HTTPService) (st : ValidateState)
    : Result HTTPError unit :=
  match svcs with
  | [] => Ok tt
  | s :: svcs => let! st := validate_service insecure i s st in validate_from insecure (S i) svcs st
  end.
Definition ValidateHTTPServices (insecure : bool) (svcs : list HTTPService) : Result HTTPError unit :=
  validate_from insecure 0 svcs (mkValidateState ∅ ∅ ∅).

(** ** Compilation *)

Record compiledHTTPServiceRule := mkCompiledHTTPRule {
  ch_rule : HTTPServiceRule; ch_methods : gset string; ch_paths : list glob }.
Record compiledHTTPService := mkCompiledHTTP {
  cv_cfg : HTTPService; cv_rules : list compiledHTTPServiceRule; cv_envVar : string;
  cv_defaultDecision : string; cv_upstreamHost : string }.

Definition compile_http_rule (svc : string) (r : HTTPServiceRule) : Result HTTPError compiledHTTPServiceRule :=
  let! paths := rmap (λ pat, opt_err (glob_Compile pat [slash]) (http_rule_bad_glob svc (hr_Name r) pat))
                  (hr_Paths r) in
  Ok (mkCompiledHTTPRule r (list_to_set ((λ m, ToUpper (TrimSpace m)) <$> hr_Methods r)) paths).

Definition default_decision (s : HTTPService) : string :=
  if negb (String.eqb (svc_Default s) "") then svc_Default s
  else match svc_Rules s, svc_Secret s with
       | [], Some _ => "allow"
       | _, _ => "deny"
       end.

Fixpoint compile_aliases (s : HTTPService) (cs : compiledHTTPService) (aliases : list string)
    (byHost : gmap string compiledHTTPService) : Result HTTPError (gmap string compiledHTTPService) :=
  match aliases with
  | [] => Ok byHost
  | alias :: aliases =>
      match canonicalizeHost alias with
      | None => Err (http_invalid_alias (svc_Name s) alias)
      | Some a =>
          match byHost !! a with
          | Some other => Err (http_duplicate_alias (svc_Name s) a (svc_Name (cv_cfg other)))
          | None => compile_aliases s cs aliases (<[a := cs]> byHost)
          end
      end
  end.

Definition compile_service (s : HTTPService)
    (tables : gmap string compiledHTTPService * gmap string compiledHTTPService)
    : Result HTTPError (gmap string compiledHTTPService * gmap string compiledHTTPService) :=
  let (byName, byHost) := tables in
  match url_Parse (svc_Upstream s) with
  | None => Err (http_invalid_upstream (svc_Name s) (svc_Upstream s))
  | Some (_, uhost) =>
      match canonicalizeHost uhost with
      | None => Err (http_invalid_host (svc_Name s) uhost)
      | Some host =>
          let! rules := rmap (compile_http_rule (svc_Name s)) (svc_Rules s) in
          let cs := mkCompiledHTTP s rules (expose_as s) (default_decision s) host in
          match byName !! ToLower (svc_Name s) with
          | Some _ => Err (http_duplicate_name (svc_Name s))
          | None =>
              match byHost !! host with
              | Some other => Err (http_duplicate_host (svc_Name s) host (svc_Name (cv_cfg other)))
              | None =>
                  let! hosts := compile_aliases s cs (svc_Aliases s) (<[host := cs]> byHost) in
                  Ok (<[ToLower (svc_Name s) := cs]> byName, hosts)
              end
          end
      end
  end.

Fixpoint compile_from (svcs : list HTTPService)
    (tables : gmap string compiledHTTPService * gmap string compiledHTTPService)
    : Result HTTPError (gmap string compiledHTTPService * gmap string compiledHTTPService) :=
  match svcs with
  | [] => Ok tables
  | s :: svcs => let! tables := compile_service s tables in compile_from svcs tables
  end.
Definition compileHTTPServices (svcs : list HTTPService)
    : Result HTTPError (gmap string compiledHTTPService * gmap string compiledHTTPService) :=
  compile_from svcs (∅, ∅).

(** ** Checks; the engine with its service tables *)

Record HTTPEngine := mkHTTPEngine {
  he_engine : Engine; httpServices : gmap string compiledHTTPService;
  httpServiceHosts : gmap string compiledHTTPService }.

Definition methodMatchesHTTPRule (r : compiledHTTPServiceRule) (method : string) : bool :=
  bool_decide (ch_methods r = ∅) || bool_decide ("*" ∈ ch_methods r) || bool_decide (method ∈ ch_methods r).
Definition pathMatchesHTTPRule (r : compiledHTTPServiceRule) (reqPath : string) : bool :=
  existsb (λ g, glob_Match g reqPath) (ch_paths r).

Definition http_rule_applies (m path : string) (r : compiledHTTPServiceRule) : bool :=
  methodMatchesHTTPRule r m && pathMatchesHTTPRule r path.

(** The traversal guard. *)
Definition traversal (reqPath : string) : bool :=
  Contains reqPath "//" ||
  existsb (λ seg, String.eqb seg "." || String.eqb seg "..") (Split (TrimPrefix reqPath "/") slash).

Definition match_path (reqPath : string) : string :=
  if (1 <? String.length reqPath)%nat && HasSuffix reqPath "/" then TrimSuffix reqPath "/" else reqPath.

Definition CheckHTTPService (e : HTTPEngine) (service method reqPath : string) : Decision :=
  match httpServices e !! ToLower service with
  | None => wrapDecision (he_engine e) "deny" "" "unknown http_service" None
  | Some cs =>
      let reqPath := or_else reqPath "/" in
      if traversal reqPath then wrapDecision (he_engine e) "deny" "" "path traversal rejected" None
      else
        match find_first (http_rule_applies (ToUpper method) (match_path reqPath)) (cv_rules cs) with
        | Some r => wrapDecision (he_engine e) (hr_Decision (ch_rule r)) (hr_Name (ch_rule r))
                      (hr_Message (ch_rule r)) None
        | None =>
            if String.eqb (cv_defaultDecision cs) "allow"
            then wrapDecision (he_engine e) "allow" "default" "" None
            else wrapDecision (he_engine e) "deny" "default" "no rule matched" None
        end
  end.

(** Bare IPv6 literals are bracketed before canonicalization. *)
Definition rebracket (host : string) : string :=
  if negb (HasPrefix host "[") && (2 <=? count_byte ":" host)%nat then "[" +:+ host +:+ "]" else host.

Definition service_of_host (e : HTTPEngine) (host : string) : option compiledHTTPService :=
  h ← canonicalizeHost (rebracket host); httpServiceHosts e !! h.

Definition DeclaredHTTPServiceHost (e : HTTPEngine) (host : string) : option (string * string) :=
  cs ← service_of_host e host; Some (svc_Name (cv_cfg cs), cv_envVar cs).
Definition DeclaredHTTPServiceAllowsDirect (e : HTTPEngine) (host : string) : bool :=
  match service_of_host e host with Some cs => svc_AllowDirect (cv_cfg cs) | None => false end.
End http.

(** ** Properties *)

Section http_properties.
Context `{GoLib, GlobLib, RegexpLib, NetLib, SortLib, UrlLib}.

(** The hosts a service claims. *)
Definition declares (s : HTTPService) (h : string) : Prop :=
  (∃ scheme u, url_Parse (svc_Upstream s) = Some (scheme, u) ∧ canonicalizeHost u = Some h) ∨
  (∃ a, a ∈ svc_Aliases s ∧ canonicalizeHost a = Some h).

(** *** Validation implies compilation *)

Lemma validated_rule_compiles svc r :
  validateHTTPServiceRule svc r = Ok tt → ∃ cr, compile_http_rule svc r = Ok cr.
Proof.
  unfold validateHTTPServiceRule, compile_http_rule.
  destruct (negb _); [done|]. destruct (hr_Paths r) as [|p ps]; [done|].
  intros (us & Hus & _)%rbind_Ok.
  assert (Hp : ∃ gs, rmap (λ pat, opt_err (glob_Compile pat [slash]) (http_rule_bad_glob svc (hr_Name r) pat))
                       (p :: ps) = Ok gs).
  { apply rmap_Ok in Hus. revert Hus. generalize (p :: ps). intros l Hl.
    induction Hl as [|x y l us' Hx _ [gs IH]]; [by exists []|]. simpl.
    destruct (String.eqb (TrimSpace x) ""); [done|].
    destruct (glob_Compile x [slash]) as [g|]; [|done]. simpl. rewrite IH. by eexists. }
  destruct Hp as [gs ->]. simpl. by eexists.
Qed.

Lemma validated_rules_compile svc rules us :
  rmap (validateHTTPServiceRule svc) rules = Ok us → ∃ crs, rmap (compile_http_rule svc) rules = Ok crs.
Proof.
  intros Hl%rmap_Ok. induction Hl as [|r u rules us Hr _ [crs IH]]; [by exists []|].
  destruct u. destruct (validated_rule_compiles _ _ Hr) as [cr Hcr]. simpl. rewrite Hcr. simpl.
  rewrite IH. by eexists.
Qed.

Lemma validated_aliases_compile s cs aliases seen seen' byHost :
  dom byHost = dom seen → validate_aliases (svc_Name s) aliases seen = Ok seen' →
  ∃ byHost', compile_aliases s cs aliases byHost = Ok byHost' ∧ dom byHost' = dom seen'.
Proof.
  revert seen byHost. induction aliases as [|a aliases IH]; intros seen byHost Hdom; simpl.
  { intros [= <-]. eauto. }
  destruct (canonicalizeHost a) as [h|]; [|done].
  destruct (seen !! h) as [o|] eqn:Hs; [done|]. intros Hv.
  assert (byHost !! h = None) as ->.
  { apply not_elem_of_dom. rewrite Hdom. by apply not_elem_of_dom. }
  apply (IH (<[h := svc_Name s]> seen)); [|done]. by rewrite !dom_insert_L, Hdom.
Qed.

(** The tables and the validation state agree on what is taken. *)
Definition tables_agree (st : ValidateState)
    (t : gmap string compiledHTTPService * gmap string compiledHTTPService) : Prop :=
  dom t.1 = nameSeen st ∧ dom t.2 = dom (hostSeen st).

Lemma validated_service_compiles insecure i s st st' t :
  tables_agree st t → validate_service insecure i s st = Ok st' →
  ∃ t', compile_service s t = Ok t' ∧ tables_agree st' t'.
Proof.
  destruct t as [byName byHost]. intros [Hn Hh]. simpl in Hn, Hh. unfold validate_service, compile_service.
  destruct (String.eqb _ _); [done|]. destruct (negb _); [done|].
  destruct (decide _) as [|Hname]; [done|].
  destruct (url_Parse _) as [[scheme u]|]; [|done].
  destruct (String.eqb u ""); [done|]. destruct (_ && _); [done|].
  destruct (canonicalizeHost u) as [host|]; [|done].
  destruct (hostSeen st !! host) as [o|] eqn:Hhost; [done|].
  intros (hosts & Ha & Hrest)%rbind_Ok. destruct (negb _); [done|]. destruct (negb _); [done|].
  destruct (string_in _ _); [done|]. destruct (envVarSeen st !! _); [done|].
  apply rbind_Ok in Hrest as (us & Hr & [= <-]).
  destruct (validated_rules_compile _ _ _ Hr) as [crs ->]. simpl.
  set (cs := mkCompiledHTTP _ _ _ _ _).
  assert (byName !! ToLower (svc_Name s) = None) as -> by (apply not_elem_of_dom; by rewrite Hn).
  assert (byHost !! host = None) as ->
    by (apply not_elem_of_dom; rewrite Hh; by apply not_elem_of_dom).
  destruct (validated_aliases_compile s cs (svc_Aliases s) (<[host := svc_Name s]> (hostSeen st)) hosts
    (<[host := cs]> byHost)) as (byHost' & -> & Hdom); [by rewrite !dom_insert_L, Hh|done|].
  simpl. eexists. split; [done|]. split; simpl; [|done]. by rewrite dom_insert_L, Hn.
Qed.

Lemma validated_from_compiles insecure i svcs st t :
  tables_agree st t → validate_from insecure i svcs st = Ok tt → ∃ t', compile_from svcs t = Ok t'.
Proof.
  revert i st t. induction svcs as [|s svcs IH]; intros i st t Ht; simpl; [by eauto|].
  intros (st' & Hs & Hv)%rbind_Ok.
  destruct (validated_service_compiles _ _ _ _ _ _ Ht Hs) as (t' & -> & Ht'). simpl. by eapply IH.
Qed.

(** *** What the tables contain *)

Lemma compile_aliases_tables s cs aliases byHost byHost' :
  compile_aliases s cs aliases byHost = Ok byHost' →
  byHost ⊆ byHost' ∧
  (∀ a h, a ∈ aliases → canonicalizeHost a = Some h → byHost' !! h = Some cs) ∧
  (∀ h x, byHost' !! h = Some x → byHost !! h = Some x ∨
     (x = cs ∧ ∃ a, a ∈ aliases ∧ canonicalizeHost a = Some h)).
Proof.
  revert byHost. induction aliases as [|a aliases IH]; intros byHost; simpl.
  { intros [= <-]. split_and!; [done|set_solver|auto]. }
  destruct (canonicalizeHost a) as [h|] eqn:Ha; [|done].
  destruct (byHost !! h) as [o|] eqn:Hh; [done|]. intros (Hsub & Hin & Hfrom)%IH. split_and!.
  - etrans; [by apply insert_subseteq|done].
  - intros a' h' [->|Ha']%elem_of_cons Hc; [|by eapply Hin].
    simplify_eq. eapply lookup_weaken; [|done]. by rewrite lookup_insert_eq.
  - intros h' x Hx. destruct (Hfrom h' x Hx) as [Hx'|(-> & a' & ? & ?)].
    + apply lookup_insert_Some in Hx' as [[<- <-]|[_ ?]]; [|by left].
      right. split; [done|]. exists a. set_solver.
    + right. split; [done|]. exists a'. set_solver.
Qed.

Lemma compile_service_tables s t t' :
  compile_service s t = Ok t' →
  t.1 ⊆ t'.1 ∧ t.2 ⊆ t'.2 ∧
  (∃ cs, cv_cfg cs = s ∧ cv_defaultDecision cs = default_decision s ∧
     t'.1 !! ToLower (svc_Name s) = Some cs ∧ ∀ h, declares s h → t'.2 !! h = Some cs) ∧
  (∀ h x, t'.2 !! h = Some x → t.2 !! h = Some x ∨ (cv_cfg x = s ∧ declares s h)) ∧
  (∀ k x, t'.1 !! k = Some x → t.1 !! k = Some x ∨
     (cv_cfg x = s ∧ cv_defaultDecision x = default_decision s)).
Proof.
  destruct t as [byName byHost]. unfold compile_service.
  destruct (url_Parse (svc_Upstream s)) as [[scheme u]|] eqn:Hu; [|done].
  destruct (canonicalizeHost u) as [host|] eqn:Hc; [|done].
  intros (crs & _ & Ht)%rbind_Ok. set (cs := mkCompiledHTTP _ _ _ _ _) in Ht.
  destruct (byName !! ToLower (svc_Name s)) eqn:Hn; [done|].
  destruct (byHost !! host) eqn:Hh; [done|].
  apply rbind_Ok in Ht as (hosts & Ha & [= <-]). simpl.
  apply compile_aliases_tables in Ha as (Hsub & Hin & Hfrom). split_and!.
  - by apply insert_subseteq.
  - etrans; [by apply insert_subseteq|done].
  - exists cs. split_and!; [done|done|by rewrite lookup_insert_eq|].
    intros h [(sch & u' & Hu' & Hc')|(a & Hal & Hc')]; [|by eapply Hin].
    simplify_eq. eapply lookup_weaken; [|done]. by rewrite lookup_insert_eq.
  - intros h x Hx. destruct (Hfrom h x Hx) as [Hx'|(-> & a & ? & ?)].
    + apply lookup_insert_Some in Hx' as [[<- <-]|[_ ?]]; [|by left].
      right. split; [done|]. left. by exists scheme, u.
    + right. split; [done|]. right. by exists a.
  - intros k x [[<- <-]|[_ ?]]%lookup_insert_Some; [by right|by left].
Qed.

Lemma compile_from_tables svcs t t' :
  compile_from svcs t = Ok t' →
  t.1 ⊆ t'.1 ∧ t.2 ⊆ t'.2 ∧
  (∀ s, s ∈ svcs → ∃ cs, cv_cfg cs = s ∧ cv_defaultDecision cs = default_decision s ∧
     t'.1 !! ToLower (svc_Name s) = Some cs ∧ ∀ h, declares s h → t'.2 !! h = Some cs) ∧
  (∀ h x, t'.2 !! h = Some x → t.2 !! h = Some x ∨ (cv_cfg x ∈ svcs ∧ declares (cv_cfg x) h)) ∧
  (∀ k x, t'.1 !! k = Some x → t.1 !! k = Some x ∨
     (cv_cfg x ∈ svcs ∧ cv_defaultDecision x = default_decision (cv_cfg x))).
Proof.
  revert t. induction svcs as [|s svcs IH]; intros t; simpl.
  { intros [= <-]. split_and!; [done|done|set_solver|auto|auto]. }
  intros (t1 & (Hn1 & Hh1 & Hs1 & Hf1 & Hk1)%compile_service_tables & (Hn & Hh & Hs & Hf & Hk)%IH)%rbind_Ok.
  split_and!; [by etrans|by etrans| | |].
  - intros s' [->|Hin]%elem_of_cons; [|by apply Hs].
    destruct Hs1 as (cs & ? & ? & Hcs & Hd). exists cs. split_and!; try done.
    + by eapply lookup_weaken.
    + intros h Hdecl. eapply lookup_weaken; [by apply Hd|done].
  - intros h x [Hx|[Hx ?]]%Hf; [|right; set_solver].
    destruct (Hf1 _ _ Hx) as [?|[<- ?]]; [by left|right; set_solver].
  - intros k x [Hx|[Hx ?]]%Hk; [|right; set_solver].
    destruct (Hk1 _ _ Hx) as [?|[<- ?]]; [by left|right; set_solver].
Qed.

(** Declared services: a list of services that passes validation compiles;
    each service is then found under its name in any case, every host it declares
    leads to it and to no other service, and only declared hosts are known. *)
Theorem validated_services_compile insecure svcs :
  ValidateHTTPServices insecure svcs = Ok tt →
  ∃ byName byHost, compileHTTPServices svcs = Ok (byName, byHost) ∧
  (∀ s, s ∈ svcs → ∃ cs, cv_cfg cs = s ∧ byName !! ToLower (svc_Name s) = Some cs ∧
     ∀ h, declares s h → byHost !! h = Some cs) ∧
  (∀ h cs, byHost !! h = Some cs → cv_cfg cs ∈ svcs ∧ declares (cv_cfg cs) h).
Proof.
  intros Hv. destruct (validated_from_compiles insecure 0 svcs (mkValidateState ∅ ∅ ∅) (∅, ∅))
    as [[byName byHost] Hc]; [by split; simpl; rewrite ?dom_empty_L|done|].
  exists byName, byHost. split; [done|]. apply compile_from_tables in Hc as (_ & _ & Hs & Hf & _).
  split.
  - intros s (cs & ? & _ & ? & ?)%Hs. by exists cs.
  - intros h cs [Hcs|?]%Hf; [by cbn [snd] in Hcs; apply lookup_empty_Some in Hcs|done].
Qed.

Lemma default_decision_allow s :
  default_decision s = "allow" →
  svc_Default s = "allow" ∨ (svc_Default s = "" ∧ svc_Rules s = [] ∧ is_Some (svc_Secret s)).
Proof.
  unfold default_decision. destruct (String.eqb_spec (svc_Default s) ""); simpl; [|by left].
  right. destruct (svc_Rules s), (svc_Secret s); by auto.
Qed.

(** Gateway requests: a request is let through only when the service is
    declared, the path has no doubled separator and no [.] or [..] element, and
    either the first rule that matches method and path lets requests run, or no
    rule matches and the service's default is allow, which without an explicit
    default needs a service with a secret and no rules. *)
Theorem http_request_allowed e svcs service method reqPath :
  compileHTTPServices svcs = Ok (httpServices e, httpServiceHosts e) →
  EffectiveDecision (CheckHTTPService e service method reqPath) = DecisionAllow →
  ∃ cs, httpServices e !! ToLower service = Some cs ∧ cv_cfg cs ∈ svcs ∧
    traversal (or_else reqPath "/") = false ∧
    ((∃ r, first_applying (http_rule_applies (ToUpper method) (match_path (or_else reqPath "/")))
             (cv_rules cs) r ∧ lets_run (he_engine e) (hr_Decision (ch_rule r))) ∨
     ((∀ r, r ∈ cv_rules cs → http_rule_applies (ToUpper method) (match_path (or_else reqPath "/")) r = false) ∧
      (svc_Default (cv_cfg cs) = "allow" ∨
       (svc_Default (cv_cfg cs) = "" ∧ svc_Rules (cv_cfg cs) = [] ∧ is_Some (svc_Secret (cv_cfg cs)))))).
Proof.
  intros (_ & _ & _ & _ & Hk)%compile_from_tables. unfold CheckHTTPService.
  destruct (httpServices e !! ToLower service) as [cs|] eqn:Hcs; [|by intros ?%deny_never_runs].
  destruct (Hk _ _ Hcs) as [Hx|[Hin Hdef]]; [by cbn [fst] in Hx; apply lookup_empty_Some in Hx|].
  cbv zeta. destruct (traversal _) eqn:Ht; [by intros ?%deny_never_runs|].
  intros Hd. exists cs. split_and!; [done..|].
  destruct (find_first _ _) as [r|] eqn:Hf.
  - left. exists r. split; [by apply find_first_applying|]. by apply wrapDecision_runs in Hd.
  - right. split; [by apply find_first_None|]. apply default_decision_allow. rewrite <-Hdef.
    destruct (String.eqb_spec (cv_defaultDecision cs) "allow"); [done|]. by apply deny_never_runs in Hd.
Qed.
End http_properties.

(** ** Concrete runs *)
Module HttpSample.
#[local] Existing Instance ascii_go.
#[local] Existing Instance literal_glob.
#[local] Existing Instance literal_regexp.
#[local] Existing Instance no_net.
#[local] Existing Instance EngineSample.stable_sort.

(** URLs of the form [https://host]. *)
Definition plain_urls : UrlLib := {|
  url_Parse := λ s, if HasPrefix s "https://" then Some ("https", TrimPrefix s "https://") else None;
  netip_Is6 := λ s, String.eqb s "::1" |}.
#[local] Existing Instance plain_urls.

Definition sample_services : list HTTPService :=
  [mkHTTPService "GitHub" "https://api.github.com:443" "" ["GITHUB.com."; "[::1]"] false ""
     [mkHTTPRule "issues" ["GET"] ["/repos/x/issues"] "allow" ""] None;
   mkHTTPService "vault" "https://vault.local" "VAULT_URL" [] true "" [] (Some (mkHTTPSecret "r" "f"))].

Definition sample_tables : gmap string compiledHTTPService * gmap string compiledHTTPService :=
  match compileHTTPServices sample_services with Ok t => t | Err _ => (∅, ∅) end.
Definition sample_http : HTTPEngine :=
  mkHTTPEngine EngineSample.sample_engine sample_tables.1 sample_tables.2.

Example http_requests :
  (λ p, EffectiveDecision (CheckHTTPService sample_http "github" "get" p)) <$>
    ["/repos/x/issues/"; "/repos//x"; "/repos/../x"; "/other"]
  = [DecisionAllow; DecisionDeny; DecisionDeny; DecisionDeny].
Proof. vm_compute. reflexivity. Qed.

Example http_hosts :
  (λ h, DeclaredHTTPServiceHost sample_http h) <$> ["Api.GitHub.com"; "::1"; "github.com:8080"; "evil.com"]
  = [Some ("GitHub", "GITHUB_API_URL"); Some ("GitHub", "GITHUB_API_URL");
     Some ("GitHub", "GITHUB_API_URL"); None].
Proof. vm_compute. reflexivity. Qed.

Lemma validated_services_compile_witness :
  ∃ byName byHost, compileHTTPServices sample_services = Ok (byName, byHost).
Proof.
  destruct (validated_services_compile false sample_services) as (byName & byHost & Hc & _);
    [vm_compute; reflexivity|]. exists byName, byHost. exact Hc.
Defined.

Lemma http_request_allowed_witness :
  ∃ cs, httpServices sample_http !! "github" = Some cs ∧ traversal "/repos/x/issues" = false.
Proof.
  destruct (http_request_allowed sample_http sample_services "GitHub" "GET" "/repos/x/issues")
    as (cs & Hcs & _ & Ht & _); [vm_compute; reflexivity..|].
  exists cs. split; [exact Hcs|exact Ht].
Defined.
End HttpSample.
