(* ===== verification/WalFrame.v ===== *)
(** * Record framing of the watchtower write-ahead log

    internal/store/watchtower/wal/framing.go and the payload codecs of wal.go: the
    16-byte segment header, the length-prefixed CRC32C record frame, the
    (sequence, generation) prefix of user records and the loss-marker payload.

    A Go byte slice is a list of bytes; an [io.Reader] is the list of the bytes it
    has left, and a read returns the rest. Writers are modelled in WalFs; here the
    operations that emit bytes return what they pass to [Write]. *)

From S2P Require Import Prelude.
From stdpp Require Export numbers list.
Open Scope Z_scope.

(** ** encoding/binary *)

Notation bytes := (list ascii).

Definition b2z (b : ascii) : Z := Z.of_N (N_of_ascii b).
(** The conversion [byte(z)]. *)
Definition z2b (z : Z) : ascii := ascii_of_N (Z.to_N (z `mod` 256)).

(** [BigEndian.PutUint*], and the loops [out[k-i] = byte(z >> (8*i))]. *)
Fixpoint be_put (n : nat) (z : Z) : bytes :=
  match n with
  | O => []
  | S n' => z2b (Z.shiftr z (8 * Z.of_nat n')) :: be_put n' z
  end.

(** [BigEndian.Uint*], and the loops [z |= uint64(b[i]) << (8*(k-i))]. *)
Fixpoint be_get (bs : bytes) : Z :=
  match bs with
  | [] => 0
  | b :: r => Z.lor (Z.shiftl (b2z b) (8 * Z.of_nat (length r))) (be_get r)
  end.

Definition to_uint64 (z : Z) : Z := z `mod` 2 ^ 64.

(** ** hash/crc32, Castagnoli *)

Definition Castagnoli : Z := 0x82f63b78.

Definition crc_shift (c : Z) : Z :=
  if Z.land c 1 =? 1 then Z.lxor (Z.shiftr c 1) Castagnoli else Z.shiftr c 1.

(** [crc32.MakeTable(crc32.Castagnoli)] *)
Definition crcTable : list Z := (λ i, Nat.iter 8 crc_shift (Z.of_nat i)) <$> seq 0 256.

Definition crc_step (crc : Z) (v : ascii) : Z :=
  Z.lxor (nth (Z.to_nat (Z.lxor (Z.land crc 255) (b2z v))) crcTable 0) (Z.shiftr crc 8).

Definition uint32_not (c : Z) : Z := Z.lxor c 0xffffffff.

(** [crc32.Checksum] *)
Definition Checksum (p : bytes) : Z := uint32_not (fold_left crc_step p (uint32_not 0)).

(** ** Segment header *)

Definition SegmentHeaderSize : Z := 16.
Definition SegmentMagic : bytes := String.list_ascii_of_string "WTP1".
Definition SegmentVersion : Z := 1.
Definition FlagGenInit : Z := 1.
Definition knownFlagsMask : Z := FlagGenInit.

Record SegmentHeader := mkSegmentHeader {
  sh_Version : Z;
  sh_Flags : Z;
  sh_Generation : Z;
}.

#[export] Instance SegmentHeader_eq_dec : EqDecision SegmentHeader.
Proof. solve_decision. Defined.

Inductive HeaderErr :=
| ErrReservedFlags (flags : Z)
| ErrHeaderRead
| ErrBadMagic (got : bytes)
| ErrBadVersion (v : Z)
| ErrReservedBytes (b : bytes).

Definition WriteSegmentHeader (h : SegmentHeader) : Result HeaderErr bytes :=
  if negb (Z.ldiff (sh_Flags h) knownFlagsMask =? 0) then Err (ErrReservedFlags (sh_Flags h))
  else Ok (SegmentMagic ++ be_put 2 (sh_Version h) ++ be_put 2 (sh_Flags h) ++
           be_put 4 (sh_Generation h) ++ replicate 4 "000"%char).

(** [buf[a:b]] *)
Definition slice (a b : nat) (buf : bytes) : bytes := take (b - a) (drop a buf).

(** [io.ReadFull(r, make([]byte, n))]: the bytes, or how many came before the end. *)
Definition ReadFull (r : bytes) (n : nat) : Result nat bytes * bytes :=
  if (n <=? length r)%nat then (Ok (take n r), drop n r) else (Err (length r), []).

Definition ReadSegmentHeader (r : bytes) : Result HeaderErr SegmentHeader * bytes :=
  match ReadFull r (Z.to_nat SegmentHeaderSize) with
  | (Err _, r) => (Err ErrHeaderRead, r)
  | (Ok buf, r) =>
      if bool_decide (slice 0 4 buf ≠ SegmentMagic) then (Err (ErrBadMagic (slice 0 4 buf)), r)
      else
        let h := mkSegmentHeader (be_get (slice 4 6 buf)) (be_get (slice 6 8 buf))
                                 (be_get (slice 8 12 buf)) in
        if negb (sh_Version h =? SegmentVersion) then (Err (ErrBadVersion (sh_Version h)), r)
        else if negb (Z.ldiff (sh_Flags h) knownFlagsMask =? 0) then (Err (ErrReservedFlags (sh_Flags h)), r)
        else if existsb (λ b, negb (b2z b =? 0)) (slice 12 16 buf)
             then (Err (ErrReservedBytes (slice 12 16 buf)), r)
             else (Ok h, r)
  end.

(** ** Record frame *)

Definition MaxUint32 : Z := 2 ^ 32 - 1.
Definition MaxFramedPayload : Z := MaxUint32 - 4.

Inductive FrameErr :=
| ErrMaxPayload (max : Z)                  (** maxPayload outside (0, MaxFramedPayload] *)
| ErrEmptyPayload
| ErrPayloadTooLarge (size max : Z)        (** over the caller's bound: not a corruption *)
| ErrEOF
| ErrUnexpectedEOF
| ErrCorruptFrame (length : Z)
| ErrCRCMismatch.

#[export] Instance FrameErr_eq_dec : EqDecision FrameErr.
Proof. solve_decision. Defined.

(** The bound both directions put on [maxPayload]. *)
Definition bad_max (maxPayload : Z) : bool := (maxPayload <=? 0) || (MaxFramedPayload <? maxPayload).

(** The two slices [WriteRecord] passes to [w.Write]: frame header and payload. *)
Definition WriteRecord (payload : bytes) (maxPayload : Z) : Result FrameErr (list bytes) :=
  let len := Z.of_nat (length payload) in
  if bad_max maxPayload then Err (ErrMaxPayload maxPayload)
  else if len =? 0 then Err ErrEmptyPayload
  else if maxPayload <? len then Err (ErrPayloadTooLarge len maxPayload)
  else Ok [be_put 4 (len + 4) ++ be_put 4 (Checksum payload); payload].

Definition ReadRecord (r : bytes) (maxPayload : Z) : Result FrameErr bytes * bytes :=
  if bad_max maxPayload then (Err (ErrMaxPayload maxPayload), r)
  else
    match ReadFull r 8 with
    | (Err n, r) => (Err (if (n =? 0)%nat then ErrEOF else ErrUnexpectedEOF), r)
    | (Ok header, r) =>
        let length := be_get (slice 0 4 header) in
        let expectedCRC := be_get (slice 4 8 header) in
        if length <? 4 then (Err (ErrCorruptFrame length), r)
        else
          let payloadLen := length - 4 in
          if maxPayload <? payloadLen then (Err (ErrPayloadTooLarge payloadLen maxPayload), r)
          else
            match ReadFull r (Z.to_nat payloadLen) with
            | (Err _, r) => (Err ErrUnexpectedEOF, r)
            | (Ok payload, r) =>
                if negb (Checksum payload =? expectedCRC) then (Err ErrCRCMismatch, r)
                else (Ok payload, r)
            end
    end.

(** ** User-record prefix and loss markers (wal.go) *)

(** [LossMarkerSentinel]: nine bytes. *)
Definition LossMarkerSentinel : bytes :=
  "000"%char :: String.list_ascii_of_string "WTPLOSS" ++ ["000"%char].

Definition LossReasonOverflow : string := "overflow".
Definition LossReasonCRCCorruption : string := "crc_corruption".
Definition LossReasonAckRegressionAfterGC : string := "ack_regression_after_gc".

Record LossRecord := mkLoss {
  l_FromSequence : Z;
  l_ToSequence : Z;
  l_Generation : Z;
  l_Reason : string;
}.

#[export] Instance LossRecord_eq_dec : EqDecision LossRecord.
Proof. solve_decision. Defined.

Definition encodeSeqGenFrame (seq gen : Z) (payload : bytes) : bytes :=
  be_put 8 seq ++ be_put 4 gen ++ payload.

Definition parseSeqGen (framed : bytes) : option (Z * Z) :=
  if (length framed <? 12)%nat then None
  else Some (be_get (slice 0 8 framed), be_get (slice 8 12 framed)).

Definition isLossMarker (payload : bytes) : bool :=
  (length LossMarkerSentinel <=? length payload)%nat &&
  bool_decide (take (length LossMarkerSentinel) payload = LossMarkerSentinel).

(** [copy(out[0:10], LossMarkerSentinel)] fills nine of the ten bytes. *)
Definition encodeLossPayload (l : LossRecord) : bytes :=
  LossMarkerSentinel ++ ["000"%char] ++ be_put 8 (l_FromSequence l) ++ be_put 8 (l_ToSequence l) ++
  be_put 4 (l_Generation l) ++ String.list_ascii_of_string (l_Reason l).

Definition decodeLossPayload (payload : bytes) : option LossRecord :=
  if (length payload <? 30)%nat then None
  else if bool_decide (take (length LossMarkerSentinel) payload ≠ LossMarkerSentinel) then None
  else Some (mkLoss (be_get (slice 10 18 payload)) (be_get (slice 18 26 payload))
                    (be_get (slice 26 30 payload))
                    (String.string_of_list_ascii (drop 30 payload))).

(** ** Bytes and big-endian integers *)

Lemma Ok_inj {E A} (a b : A) : @Ok E A a = Ok b → a = b.
Proof. by intros [=]. Qed.

Lemma b2z_range b : 0 ≤ b2z b < 256.
Proof. unfold b2z. pose proof (N_ascii_bounded b). lia. Qed.

Lemma b2z_z2b z : b2z (z2b z) = z `mod` 256.
Proof.
  unfold b2z, z2b. pose proof (Z.mod_pos_bound z 256).
  rewrite N_ascii_embedding by lia. lia.
Qed.

Lemma b2z_inj a b : b2z a = b2z b → a = b.
Proof.
  unfold b2z. intros Hab%N2Z.inj. by rewrite <- (ascii_N_embedding a), Hab, ascii_N_embedding.
Qed.

Lemma length_be_put n z : length (be_put n z) = n.
Proof. induction n as [|n IH]; simpl; congruence. Qed.

Lemma testbit_high x k n : 0 ≤ x < 2 ^ k → 0 ≤ k ≤ n → Z.testbit x n = false.
Proof. intros Hx Hk. rewrite <- (Z.mod_small x (2 ^ k)) by lia. by apply Z.mod_pow2_bits_high. Qed.

(** Bits above and below position [k] do not meet. *)
Lemma lor_shift a b k : 0 ≤ k → 0 ≤ b < 2 ^ k → Z.lor (Z.shiftl a k) b = a * 2 ^ k + b.
Proof.
  intros Hk Hb. rewrite <- Z.shiftl_mul_pow2 by done. symmetry. apply Z.add_nocarry_lor.
  apply Z.bits_inj'. intros n Hn. rewrite Z.land_spec, Z.bits_0. destruct (decide (n < k)).
  - by rewrite Z.shiftl_spec_low by lia.
  - rewrite (testbit_high b k n) by lia. apply andb_false_r.
Qed.

Lemma be_get_bound bs : 0 ≤ be_get bs < 2 ^ (8 * Z.of_nat (length bs)) ∧
  match bs with
  | [] => True
  | b :: r => be_get bs = b2z b * 2 ^ (8 * Z.of_nat (length r)) + be_get r
  end.
Proof.
  induction bs as [|b r [IH _]]; [simpl; lia|]. cbn [be_get length].
  set (k := 8 * Z.of_nat (length r)) in *.
  assert (Heq : Z.lor (Z.shiftl (b2z b) k) (be_get r) = b2z b * 2 ^ k + be_get r) by (apply lor_shift; lia).
  rewrite Heq. split; [|done]. pose proof (b2z_range b).
  replace (8 * Z.of_nat (S (length r))) with (8 + k) by lia.
  rewrite Z.pow_add_r by lia. nia.
Qed.

Lemma be_get_range bs : 0 ≤ be_get bs < 2 ^ (8 * Z.of_nat (length bs)).
Proof. apply be_get_bound. Qed.

Lemma be_get_cons b r : be_get (b :: r) = b2z b * 2 ^ (8 * Z.of_nat (length r)) + be_get r.
Proof. apply (be_get_bound (b :: r)). Qed.

Lemma be_get_put n z : be_get (be_put n z) = z `mod` 2 ^ (8 * Z.of_nat n).
Proof.
  induction n as [|n IH]; [simpl; by rewrite Z.mod_1_r|]. cbn [be_put].
  rewrite be_get_cons, length_be_put, IH, b2z_z2b, Z.shiftr_div_pow2 by lia.
  replace (8 * Z.of_nat (S n)) with (8 * Z.of_nat n + 8) by lia.
  rewrite Z.pow_add_r, Z.rem_mul_r by lia. change (2 ^ 8) with 256. lia.
Qed.

Lemma be_get_put_small n z : 0 ≤ z < 2 ^ (8 * Z.of_nat n) → be_get (be_put n z) = z.
Proof. intros Hz. rewrite be_get_put. by apply Z.mod_small. Qed.

Lemma slice_app_l a b l r :
  (b ≤ length l)%nat → slice a b (l ++ r) = slice a b l.
Proof.
  intros Hb. unfold slice. destruct (decide (a ≤ b)%nat).
  - rewrite drop_app_le, take_app_le by (rewrite ?length_drop; lia). done.
  - replace (b - a)%nat with 0%nat by lia. done.
Qed.

Lemma slice_app_r a b l r :
  (length l ≤ a)%nat → slice a b (l ++ r) = slice (a - length l) (b - length l) r.
Proof.
  intros Ha. unfold slice. rewrite drop_app_ge by done. f_equal. lia.
Qed.

Lemma slice_all b l : length l = b → slice 0 b l = l.
Proof. intros <-. unfold slice. rewrite drop_0, Nat.sub_0_r. by apply take_ge. Qed.

(** Reads a field out of a concatenation of encoded fields. *)
Ltac be_field :=
  repeat first
    [ rewrite slice_app_r by (rewrite ?length_be_put; simpl; lia)
    | rewrite slice_app_l by (rewrite ?length_be_put; simpl; lia) ];
  rewrite ?length_be_put;
  cbn [Nat.sub length app LossMarkerSentinel SegmentMagic String.list_ascii_of_string];
  rewrite ?slice_all by (rewrite ?length_be_put; done);
  rewrite ?be_get_put.

Lemma ReadFull_app p r n : length p = n → ReadFull (p ++ r) n = (Ok p, r).
Proof.
  intros <-. unfold ReadFull. rewrite length_app.
  rewrite (proj2 (Nat.leb_le _ _)) by lia. by rewrite take_app_length, drop_app_length.
Qed.

Lemma ReadFull_short r n : (length r < n)%nat → ReadFull r n = (Err (length r), []).
Proof. intros Hn. unfold ReadFull. by rewrite (proj2 (Nat.leb_gt _ _)) by lia. Qed.

(** ** CRC32C *)

Lemma lxor_range n a b : 0 ≤ n → 0 ≤ a < 2 ^ n → 0 ≤ b < 2 ^ n → 0 ≤ Z.lxor a b < 2 ^ n.
Proof.
  intros Hn Ha Hb. assert (Hnn : 0 ≤ Z.lxor a b) by (apply Z.lxor_nonneg; lia).
  split; [done|]. rewrite <- (Z.mod_small a (2 ^ n)), <- (Z.mod_small b (2 ^ n)) by lia.
  assert (Heq : Z.lxor (a `mod` 2 ^ n) (b `mod` 2 ^ n) = Z.lxor a b `mod` 2 ^ n).
  { apply Z.bits_inj'. intros i Hi. rewrite Z.lxor_spec.
    destruct (decide (i < n)).
    - rewrite !Z.mod_pow2_bits_low by lia. by rewrite Z.lxor_spec.
    - rewrite !Z.mod_pow2_bits_high by lia. done. }
  rewrite Heq. apply Z.mod_pos_bound. lia.
Qed.

Lemma lxor_cancel_l a b c : Z.lxor a b = Z.lxor a c → b = c.
Proof.
  intros Heq. apply (f_equal (Z.lxor a)) in Heq.
  by rewrite <- !Z.lxor_assoc, Z.lxor_nilpotent, !Z.lxor_0_l in Heq.
Qed.

Definition is_uint32 (c : Z) : Prop := 0 ≤ c < 2 ^ 32.

Lemma crcTable_entry i : is_uint32 (nth i crcTable 0).
Proof.
  assert (Hall : forallb (λ c, (0 <=? c) && (c <? 2 ^ 32)) crcTable = true) by (vm_compute; reflexivity).
  rewrite forallb_forall in Hall. destruct (nth_in_or_default i crcTable 0) as [Hin | ->].
  - apply Hall in Hin. unfold is_uint32. lia.
  - unfold is_uint32. lia.
Qed.

(** The top bytes of the table's entries are pairwise different. *)
Lemma crcTable_top_inj i j : (i < 256)%nat → (j < 256)%nat →
  Z.shiftr (nth i crcTable 0) 24 = Z.shiftr (nth j crcTable 0) 24 → i = j.
Proof.
  intros Hi Hj Heq.
  assert (Hnd : bool_decide (NoDup ((λ c, Z.shiftr c 24) <$> crcTable)) = true) by (vm_compute; reflexivity).
  apply bool_decide_eq_true in Hnd. rewrite !nth_lookup in Heq.
  destruct (lookup_lt_is_Some_2 crcTable i) as [ci Hci]; [by vm_compute|].
  destruct (lookup_lt_is_Some_2 crcTable j) as [cj Hcj]; [by vm_compute|].
  rewrite Hci, Hcj in Heq. cbn in Heq.
  eapply NoDup_lookup; [exact Hnd | by rewrite list_lookup_fmap, Hci |].
  rewrite list_lookup_fmap, Hcj. cbn. by f_equal.
Qed.

(** The table index [byte(crc) ^ v]. *)
Lemma crc_index_range c v : 0 ≤ Z.lxor (Z.land c 255) (b2z v) < 256.
Proof.
  change 255 with (Z.ones 8). rewrite Z.land_ones by lia.
  apply (lxor_range 8); [lia | apply Z.mod_pos_bound; lia | apply b2z_range].
Qed.

Lemma shiftr_8_range c : is_uint32 c → 0 ≤ Z.shiftr c 8 < 2 ^ 24.
Proof.
  unfold is_uint32. intros Hc. rewrite Z.shiftr_div_pow2 by lia.
  split; [apply Z.div_pos; lia | apply Z.div_lt_upper_bound; lia].
Qed.

Lemma crc_step_range c v : is_uint32 c → is_uint32 (crc_step c v).
Proof.
  intros Hc. apply (lxor_range 32); [lia | apply crcTable_entry |].
  pose proof (shiftr_8_range c Hc). lia.
Qed.

(** A step determines its table index and the high 24 bits of the state. *)
Lemma crc_step_inv c1 c2 v1 v2 : is_uint32 c1 → is_uint32 c2 → crc_step c1 v1 = crc_step c2 v2 →
  Z.lxor (Z.land c1 255) (b2z v1) = Z.lxor (Z.land c2 255) (b2z v2) ∧ Z.shiftr c1 8 = Z.shiftr c2 8.
Proof.
  intros H1 H2 Heq. unfold crc_step in Heq.
  pose proof (crc_index_range c1 v1) as Hi1. pose proof (crc_index_range c2 v2) as Hi2.
  assert (Hidx : Z.to_nat (Z.lxor (Z.land c1 255) (b2z v1)) = Z.to_nat (Z.lxor (Z.land c2 255) (b2z v2))).
  { apply crcTable_top_inj; [lia..|].
    apply (f_equal (λ z, Z.shiftr z 24)) in Heq. rewrite !Z.shiftr_lxor in Heq.
    pose proof (shiftr_8_range c1 H1). pose proof (shiftr_8_range c2 H2).
    rewrite (Z.shiftr_div_pow2 (Z.shiftr c1 8)), (Z.shiftr_div_pow2 (Z.shiftr c2 8)) in Heq by lia.
    by rewrite (Z.div_small (Z.shiftr c1 8)), (Z.div_small (Z.shiftr c2 8)), !Z.lxor_0_r in Heq by lia. }
  rewrite Hidx in Heq. apply lxor_cancel_l in Heq. split; [lia | done].
Qed.

Lemma crc_step_state_inj c1 c2 v : is_uint32 c1 → is_uint32 c2 → crc_step c1 v = crc_step c2 v → c1 = c2.
Proof.
  intros H1 H2 Heq. destruct (crc_step_inv _ _ _ _ H1 H2 Heq) as [Hlo Hhi].
  rewrite !(Z.lxor_comm _ (b2z v)) in Hlo. apply lxor_cancel_l in Hlo.
  change 255 with (Z.ones 8) in Hlo. rewrite !Z.land_ones in Hlo by lia.
  rewrite !Z.shiftr_div_pow2 in Hhi by lia.
  rewrite (Z.div_mod c1 (2 ^ 8)), (Z.div_mod c2 (2 ^ 8)) by lia. by rewrite Hlo, Hhi.
Qed.

Lemma crc_step_byte_inj c v1 v2 : is_uint32 c → crc_step c v1 = crc_step c v2 → v1 = v2.
Proof.
  intros Hc Heq. destruct (crc_step_inv _ _ _ _ Hc Hc Heq) as [Hlo _].
  by apply b2z_inj, (lxor_cancel_l (Z.land c 255)).
Qed.

Lemma crc_fold_range p c : is_uint32 c → is_uint32 (fold_left crc_step p c).
Proof. revert c. induction p as [|v p IH]; intros c Hc; [done|]. apply IH, crc_step_range, Hc. Qed.

Lemma crc_fold_inj p c1 c2 : is_uint32 c1 → is_uint32 c2 →
  fold_left crc_step p c1 = fold_left crc_step p c2 → c1 = c2.
Proof.
  revert c1 c2. induction p as [|v p IH]; intros c1 c2 H1 H2; [done|]. cbn [fold_left]. intros Heq.
  apply IH in Heq; [|by apply crc_step_range..]. by eapply crc_step_state_inj.
Qed.

Lemma Checksum_range p : is_uint32 (Checksum p).
Proof.
  apply (lxor_range 32); [lia | | lia]. apply crc_fold_range. vm_compute. by split.
Qed.

(** Two payloads that differ in exactly one byte have different checksums. *)
Lemma Checksum_one_byte a x y b : x ≠ y → Checksum (a ++ x :: b) ≠ Checksum (a ++ y :: b).
Proof.
  intros Hxy Heq. unfold Checksum, uint32_not in Heq.
  rewrite !(Z.lxor_comm _ 0xffffffff) in Heq. apply lxor_cancel_l in Heq.
  rewrite !fold_left_app in Heq. cbn [fold_left] in Heq.
  set (c := fold_left crc_step a (Z.lxor 0xffffffff 0)) in *.
  assert (Hc : is_uint32 c) by (apply crc_fold_range; vm_compute; by split).
  apply crc_fold_inj in Heq; [|by apply crc_step_range..]. by apply Hxy, (crc_step_byte_inj c).
Qed.

(** ** Frames *)

(** What one record occupies on disk, and a run of records. *)
Definition frame (p : bytes) : bytes :=
  be_put 4 (Z.of_nat (length p) + 4) ++ be_put 4 (Checksum p) ++ p.

Definition frames (ps : list bytes) : bytes := mjoin (frame <$> ps).

(** A payload the writer accepts under bound [max]. *)
Definition fits (max : Z) (p : bytes) : Prop := 0 < Z.of_nat (length p) ≤ max.

Lemma length_frame p : length (frame p) = (8 + length p)%nat.
Proof. unfold frame. rewrite !length_app, !length_be_put. lia. Qed.

Lemma frames_app ps qs : frames (ps ++ qs) = frames ps ++ frames qs.
Proof. unfold frames. by rewrite fmap_app, join_app. Qed.

Lemma frames_cons p ps : frames (p :: ps) = frame p ++ frames ps.
Proof. done. Qed.

Lemma frames_snoc ps p : frames (ps ++ [p]) = frames ps ++ frame p.
Proof. rewrite frames_app. unfold frames at 2. simpl. by rewrite app_nil_r. Qed.

Lemma WriteRecord_Ok p max ws : WriteRecord p max = Ok ws →
  bad_max max = false ∧ fits max p ∧ mjoin ws = frame p.
Proof.
  unfold WriteRecord. destruct (bad_max max) eqn:Hb; [done|].
  destruct (Z.eqb_spec (Z.of_nat (length p)) 0); [done|].
  destruct (Z.ltb_spec max (Z.of_nat (length p))); [done|].
  intros [= <-]. split_and!; [done | unfold fits; lia |]. unfold frame. simpl.
  by rewrite app_nil_r.
Qed.

Lemma WriteRecord_fits p max : bad_max max = false → fits max p →
  WriteRecord p max = Ok [be_put 4 (Z.of_nat (length p) + 4) ++ be_put 4 (Checksum p); p].
Proof.
  intros Hb [H0 H1]. unfold WriteRecord. rewrite Hb.
  rewrite (proj2 (Z.eqb_neq _ _)), (proj2 (Z.ltb_ge _ _)) by lia. done.
Qed.

Lemma fits_length32 max (p : bytes) : bad_max max = false → Z.of_nat (length p) ≤ max →
  0 ≤ Z.of_nat (length p) + 4 < 2 ^ (8 * Z.of_nat 4).
Proof.
  unfold bad_max, MaxFramedPayload, MaxUint32. change (8 * Z.of_nat 4) with 32. lia.
Qed.

(** The reader inverts the writer, whatever follows the frame. *)
Lemma ReadRecord_frame p r max : bad_max max = false → Z.of_nat (length p) ≤ max →
  ReadRecord (frame p ++ r) max = (Ok p, r).
Proof.
  intros Hb Hp. pose proof (fits_length32 _ _ Hb Hp) as H32.
  unfold ReadRecord. rewrite Hb. unfold frame. rewrite <- !app_assoc, (app_assoc (be_put 4 _)).
  rewrite ReadFull_app by (by rewrite length_app, !length_be_put).
  cbv zeta. be_field. rewrite (Z.mod_small (Z.of_nat (length p) + 4)) by done.
  rewrite (proj2 (Z.ltb_ge _ 4)), (proj2 (Z.ltb_ge max _)) by lia.
  rewrite ReadFull_app by lia.
  rewrite Z.mod_small by apply Checksum_range. by rewrite Z.eqb_refl.
Qed.

(** A frame whose payload was changed in one byte is reported, not returned. *)
Lemma ReadRecord_one_byte a x y b r max :
  x ≠ y → bad_max max = false → Z.of_nat (length (a ++ x :: b)) ≤ max →
  ReadRecord (be_put 4 (Z.of_nat (length (a ++ x :: b)) + 4) ++ be_put 4 (Checksum (a ++ x :: b)) ++
              (a ++ y :: b) ++ r) max = (Err ErrCRCMismatch, r).
Proof.
  intros Hxy Hb Hp. pose proof (fits_length32 _ _ Hb Hp) as H32.
  unfold ReadRecord. rewrite Hb. rewrite (app_assoc (be_put 4 _)).
  rewrite ReadFull_app by (by rewrite length_app, !length_be_put).
  cbv zeta. be_field. rewrite (Z.mod_small (Z.of_nat _ + 4)) by done.
  rewrite (proj2 (Z.ltb_ge _ 4)), (proj2 (Z.ltb_ge max _)) by lia.
  rewrite ReadFull_app by (rewrite !length_app; rewrite length_app in H32; simpl in *; lia).
  rewrite Z.mod_small by apply Checksum_range.
  rewrite (proj2 (Z.eqb_neq _ _)); [done|]. by apply not_eq_sym, Checksum_one_byte.
Qed.

(** A torn frame, a strict prefix of a real one, is the end of the stream or an
    unexpected end, and consumes what is left. *)
Lemma ReadRecord_torn p t max : bad_max max = false → Z.of_nat (length p) ≤ max →
  t `prefix_of` frame p → t ≠ frame p →
  ReadRecord t max = (Err (if decide (t = []) then ErrEOF else ErrUnexpectedEOF), []).
Proof.
  intros Hb Hp Hpre Hne. pose proof (fits_length32 _ _ Hb Hp) as H32.
  assert (Hlt : (length t < 8 + length p)%nat).
  { pose proof (prefix_length _ _ Hpre) as Hle. rewrite length_frame in Hle.
    destruct (decide (length t = 8 + length p)%nat) as [Heq|]; [|lia].
    destruct Hne. apply prefix_length_eq; [done|]. rewrite length_frame. lia. }
  unfold ReadRecord. rewrite Hb. destruct (decide (length t < 8)%nat) as [Hs|Hs].
  { rewrite ReadFull_short by done. destruct t; [done|]. by rewrite decide_False. }
  rewrite decide_False by (intros ->; simpl in Hs; lia).
  set (h := be_put 4 (Z.of_nat (length p) + 4) ++ be_put 4 (Checksum p)).
  assert (Hh : length h = 8%nat) by (unfold h; by rewrite length_app, !length_be_put).
  destruct Hpre as [k Hk].
  assert (Hsplit : t = h ++ drop 8 t).
  { rewrite <- (take_drop 8 t) at 1. f_equal. rewrite <- (take_app_le t k) by lia.
    rewrite <- Hk. unfold frame. rewrite app_assoc. fold h. rewrite <- Hh. apply take_app_length. }
  rewrite Hsplit, ReadFull_app by done. unfold h. cbv zeta. be_field.
  rewrite (Z.mod_small (Z.of_nat _ + 4)) by done.
  rewrite (proj2 (Z.ltb_ge _ 4)), (proj2 (Z.ltb_ge max _)) by lia.
  by rewrite ReadFull_short by (rewrite length_drop; lia).
Qed.

Lemma ReadRecord_consumes r max p r' : ReadRecord r max = (Ok p, r') → (length r' + 8 ≤ length r)%nat.
Proof.
  unfold ReadRecord, ReadFull. destruct (bad_max max); [done|].
  destruct (Nat.leb_spec 8 (length r)); [|done]. repeat case_match; intros; simplify_eq.
  rewrite !length_drop. lia.
Qed.

(** ** Scanning a stream of records

    The loops of wal.go read records until the first error; what they do with the
    payloads is a fold over the list. *)
Fixpoint scan_records (fuel : nat) (r : bytes) (max : Z) : list bytes * FrameErr :=
  match fuel with
  | O => ([], ErrEOF)
  | S fuel =>
      match ReadRecord r max with
      | (Err e, _) => ([], e)
      | (Ok p, r) => let '(ps, e) := scan_records fuel r max in (p :: ps, e)
      end
  end.

Definition Scan (r : bytes) (max : Z) : list bytes * FrameErr := scan_records (S (length r)) r max.

Lemma scan_fuel f1 f2 r max : (length r < f1)%nat → (length r < f2)%nat →
  scan_records f1 r max = scan_records f2 r max.
Proof.
  revert f2 r. induction f1 as [|f1 IH]; intros [|f2] r H1 H2; [lia..|]. cbn [scan_records].
  destruct (ReadRecord r max) as [[p|e] r'] eqn:Hr; [|done].
  apply ReadRecord_consumes in Hr. by rewrite (IH f2) by lia.
Qed.

(** The loop's own equation: the fuel never runs out. *)
Lemma Scan_unfold r max : Scan r max =
  match ReadRecord r max with
  | (Err e, _) => ([], e)
  | (Ok p, r) => let '(ps, e) := Scan r max in (p :: ps, e)
  end.
Proof.
  unfold Scan. cbn [scan_records]. destruct (ReadRecord r max) as [[p|e] r'] eqn:Hr; [|done].
  apply ReadRecord_consumes in Hr. by rewrite (scan_fuel _ (S (length r'))) by lia.
Qed.

Lemma Scan_frames ps t max : bad_max max = false → Forall (fits max) ps →
  Scan (frames ps ++ t) max = (ps ++ (Scan t max).1, (Scan t max).2).
Proof.
  intros Hb. induction 1 as [|p ps Hp _ IH]; [apply surjective_pairing|].
  rewrite frames_cons, <- app_assoc, Scan_unfold.
  rewrite (ReadRecord_frame p) by (done || apply Hp). by rewrite IH.
Qed.

Lemma Scan_nil max : bad_max max = false → Scan [] max = ([], ErrEOF).
Proof. intros Hb. rewrite Scan_unfold. unfold ReadRecord. by rewrite Hb. Qed.

Lemma Scan_exact ps max : bad_max max = false → Forall (fits max) ps →
  Scan (frames ps) max = (ps, ErrEOF).
Proof.
  intros Hb Hp. rewrite <- (app_nil_r (frames ps)), Scan_frames, Scan_nil by done.
  simpl. by rewrite app_nil_r.
Qed.

(** ** Header and payload codecs *)

Lemma be_put_inj n x y : be_put n x = be_put n y ↔ x `mod` 2 ^ (8 * Z.of_nat n) = y `mod` 2 ^ (8 * Z.of_nat n).
Proof.
  split; [intros Heq; by rewrite <- !be_get_put, Heq|].
  intros Heq. induction n as [|n IH]; [done|]. cbn [be_put].
  assert (Hlow : x `mod` 2 ^ (8 * Z.of_nat n) = y `mod` 2 ^ (8 * Z.of_nat n) ∧
                 (x / 2 ^ (8 * Z.of_nat n)) `mod` 256 = (y / 2 ^ (8 * Z.of_nat n)) `mod` 256).
  { replace (8 * Z.of_nat (S n)) with (8 * Z.of_nat n + 8) in Heq by lia.
    rewrite Z.pow_add_r, !Z.rem_mul_r in Heq by lia. change (2 ^ 8) with 256 in Heq.
    apply and_comm, (Z.div_mod_unique (2 ^ (8 * Z.of_nat n))); [left; apply Z.mod_pos_bound; lia..|lia]. }
  rewrite (IH (proj1 Hlow)). f_equal. unfold z2b. rewrite !Z.shiftr_div_pow2 by lia.
  by rewrite (proj2 Hlow).
Qed.

Definition is_uint (w z : Z) : Prop := 0 ≤ z < 2 ^ w.

Definition header_wf (h : SegmentHeader) : Prop :=
  sh_Version h = SegmentVersion ∧ is_uint 16 (sh_Flags h) ∧ is_uint 32 (sh_Generation h).

Lemma length_WriteSegmentHeader h b : WriteSegmentHeader h = Ok b → length b = 16%nat.
Proof. unfold WriteSegmentHeader. case_match; [done|]. by intros [= <-]. Qed.

Lemma ReadSegmentHeader_write h b r : header_wf h → WriteSegmentHeader h = Ok b →
  ReadSegmentHeader (b ++ r) = (Ok h, r).
Proof.
  destruct h as [v fl g]. unfold header_wf, is_uint. cbn [sh_Version sh_Flags sh_Generation].
  intros (-> & Hf & Hg) Hw. pose proof (length_WriteSegmentHeader _ _ Hw) as Hl.
  unfold WriteSegmentHeader in Hw. cbn [sh_Version sh_Flags sh_Generation] in Hw.
  destruct (negb _) eqn:Hfl in Hw; [done|]. apply Ok_inj in Hw as <-.
  unfold ReadSegmentHeader. rewrite ReadFull_app by done. be_field.
  rewrite bool_decide_false by (intros Hc; by apply Hc).
  cbv zeta. cbn [sh_Version sh_Flags sh_Generation].
  rewrite !Z.mod_small by (change (8 * Z.of_nat 2) with 16; change (8 * Z.of_nat 4) with 32; unfold SegmentVersion; lia).
  by rewrite Hfl.
Qed.

Lemma length_encodeSeqGenFrame seq gen p : length (encodeSeqGenFrame seq gen p) = (12 + length p)%nat.
Proof. unfold encodeSeqGenFrame. rewrite !length_app, !length_be_put. lia. Qed.

Lemma parseSeqGen_encode seq gen p :
  parseSeqGen (encodeSeqGenFrame seq gen p) = Some (to_uint64 seq, gen `mod` 2 ^ 32).
Proof.
  unfold parseSeqGen. rewrite length_encodeSeqGenFrame. cbn [Nat.ltb Nat.leb Nat.add].
  unfold encodeSeqGenFrame. be_field. done.
Qed.

Lemma length_encodeLossPayload l :
  length (encodeLossPayload l) = (30 + length (String.list_ascii_of_string (l_Reason l)))%nat.
Proof. unfold encodeLossPayload. rewrite !length_app, !length_be_put. simpl. lia. Qed.

Lemma isLossMarker_encodeLoss l : isLossMarker (encodeLossPayload l) = true.
Proof.
  unfold isLossMarker. rewrite length_encodeLossPayload.
  rewrite (proj2 (Nat.leb_le _ _)) by (simpl; lia). cbn [andb].
  apply bool_decide_eq_true. unfold encodeLossPayload. apply take_app_length.
Qed.

Definition loss_wf (l : LossRecord) : Prop :=
  is_uint 64 (l_FromSequence l) ∧ is_uint 64 (l_ToSequence l) ∧ is_uint 32 (l_Generation l).

Lemma decodeLossPayload_encode l : loss_wf l → decodeLossPayload (encodeLossPayload l) = Some l.
Proof.
  destruct l as [f t g re]. unfold loss_wf, is_uint. cbn [l_FromSequence l_ToSequence l_Generation].
  intros (Hf & Ht & Hg). unfold decodeLossPayload. rewrite length_encodeLossPayload.
  rewrite (proj2 (Nat.ltb_ge _ _)) by lia.
  rewrite bool_decide_false by (unfold encodeLossPayload; rewrite take_app_length; tauto).
  assert (Hd : drop 30 (encodeLossPayload (mkLoss f t g re)) = String.list_ascii_of_string re).
  { unfold encodeLossPayload. rewrite !app_assoc.
    apply drop_app_length'. by rewrite !length_app, !length_be_put. }
  rewrite Hd, String.string_of_list_ascii_of_string.
  unfold encodeLossPayload. cbn [l_FromSequence l_ToSequence l_Generation l_Reason].
  be_field. by rewrite !Z.mod_small.
Qed.

(** The one sequence number whose eight bytes are the sentinel's first eight. *)
Definition sentinel_seq : Z := 0x00575450_4c4f5353.

(** When a user record is taken for a loss marker. *)
Lemma isLossMarker_user seq gen p :
  isLossMarker (encodeSeqGenFrame seq gen p) = true ↔
  to_uint64 seq = sentinel_seq ∧ (gen / 2 ^ 24) `mod` 256 = 0.
Proof.
  unfold isLossMarker. rewrite length_encodeSeqGenFrame.
  rewrite (proj2 (Nat.leb_le _ _)) by (simpl; lia). cbn [andb]. rewrite bool_decide_eq_true.
  assert (Htake : take (length LossMarkerSentinel) (encodeSeqGenFrame seq gen p) =
                  be_put 8 seq ++ [z2b (Z.shiftr gen 24)]).
  { unfold encodeSeqGenFrame. rewrite take_app_ge by (rewrite length_be_put; simpl; lia).
    rewrite length_be_put. done. }
  assert (Hsent : LossMarkerSentinel = be_put 8 sentinel_seq ++ ["000"%char]) by (vm_compute; reflexivity).
  rewrite Htake, Hsent. split.
  - intros [H8 H1]%app_inj_1; [|by rewrite !length_be_put]. split.
    + apply be_put_inj in H8. exact H8.
    + injection H1 as H1. apply (f_equal b2z) in H1. by rewrite b2z_z2b, Z.shiftr_div_pow2 in H1.
  - intros [H8 H1]. rewrite (proj2 (be_put_inj 8 seq sentinel_seq)) by exact H8. do 2 f_equal.
    apply b2z_inj. rewrite b2z_z2b, Z.shiftr_div_pow2 by lia. exact H1.
Qed.

(** ** Properties *)

(** Everything the write-ahead log encodes is decoded back, whatever bytes
    follow: a written segment header, a written record, a loss marker, the
    (sequence, generation) prefix of a user record. A user record is taken for a
    loss marker exactly when its sequence number spells the sentinel and its
    generation is below 2^24 (modulo 2^32). *)
Theorem wal_codec_roundtrip :
  (∀ h b r, header_wf h → WriteSegmentHeader h = Ok b → ReadSegmentHeader (b ++ r) = (Ok h, r)) ∧
  (∀ p max ws r, WriteRecord p max = Ok ws → ReadRecord (mjoin ws ++ r) max = (Ok p, r)) ∧
  (∀ l, loss_wf l → isLossMarker (encodeLossPayload l) = true ∧
                    decodeLossPayload (encodeLossPayload l) = Some l) ∧
  (∀ seq gen p, parseSeqGen (encodeSeqGenFrame seq gen p) = Some (to_uint64 seq, gen `mod` 2 ^ 32) ∧
                drop 12 (encodeSeqGenFrame seq gen p) = p ∧
                (isLossMarker (encodeSeqGenFrame seq gen p) = true ↔
                 to_uint64 seq = sentinel_seq ∧ (gen / 2 ^ 24) `mod` 256 = 0)).
Proof.
  split_and!.
  - intros. by apply ReadSegmentHeader_write.
  - intros p max ws r (Hb & [_ Hp] & ->)%WriteRecord_Ok. by apply ReadRecord_frame.
  - intros l Hl. split; [apply isLossMarker_encodeLoss | by apply decodeLossPayload_encode].
  - intros seq gen p. split_and!; [apply parseSeqGen_encode | | apply isLossMarker_user].
    unfold encodeSeqGenFrame. rewrite app_assoc. apply drop_app_length'.
    by rewrite length_app, !length_be_put.
Qed.

(** A record whose payload was altered in any single byte on disk is reported
    as a checksum mismatch and never returned, and the reader is left at the start
    of the next frame. *)
Theorem wal_corruption_detected a x y b r max ws :
  x ≠ y → WriteRecord (a ++ x :: b) max = Ok ws →
  ∃ hdr, ws = [hdr; a ++ x :: b] ∧
         ReadRecord (hdr ++ (a ++ y :: b) ++ r) max = (Err ErrCRCMismatch, r).
Proof.
  intros Hxy Hw. destruct (WriteRecord_Ok _ _ _ Hw) as (Hb & Hp & _).
  rewrite WriteRecord_fits in Hw by done. apply Ok_inj in Hw as <-.
  eexists. split; [done|]. rewrite <- app_assoc. apply ReadRecord_one_byte; [done.. | apply Hp].
Qed.

Lemma wal_corruption_detected_witness :
  ∃ hdr, [be_put 4 (3 + 4) ++ be_put 4 (Checksum (String.list_ascii_of_string "abc"));
          String.list_ascii_of_string "abc"] = [hdr; String.list_ascii_of_string "abc"] ∧
         ReadRecord (hdr ++ String.list_ascii_of_string "aXc" ++ String.list_ascii_of_string "rest") 100 =
           (Err ErrCRCMismatch, String.list_ascii_of_string "rest").
Proof.
  apply (wal_corruption_detected ["a"%char] "b"%char "X"%char ["c"%char]); [done|].
  vm_compute. reflexivity.
Defined.
