(* ===== verification/WalFs.v ===== *)
(** * Segment files of the write-ahead log

    internal/store/watchtower/wal/segment.go and meta.go over a model of what they
    use of the operating system: a directory of names, inodes with their bytes and
    how many of them are synced, and a fault oracle that decides for every system
    call whether it fails (a failing write leaves a prefix of its data). An open
    [*os.File] is an inode, so a file keeps its contents when it is renamed or
    unlinked while open. All paths are relative to the segments directory.

    Reads from an open file do not fail. Directory operations are durable as soon as
    they succeed; a crash only loses bytes that were not synced. *)

From S2P Require Import Prelude WalFrame.
Open Scope Z_scope.

(** ** State and error monad *)

Definition M (S E A : Type) : Type := S → Result E A * S.

Definition ret {S E A} (a : A) : M S E A := λ s, (Ok a, s).
Definition merr {S E A} (e : E) : M S E A := λ s, (Err e, s).
Definition bindM {S E A B} (m : M S E A) (k : A → M S E B) : M S E B := λ s,
  match m s with
  | (Ok a, s) => k a s
  | (Err e, s) => (Err e, s)
  end.
Definition mget {S E A} (f : S → A) : M S E A := λ s, (Ok (f s), s).
Definition mput {S E} (f : S → S) : M S E unit := λ s, (Ok tt, f s).
(** [v, err := m], the error kept as a value. *)
Definition mtry {S E E' A} (m : M S E A) : M S E' (Result E A) := λ s, (Ok (m s).1, (m s).2).
(** [_ = m], the error dropped. *)
Definition mignore {S E E' A} (m : M S E A) : M S E' unit := λ s, (Ok tt, (m s).2).
Definition merr_map {S E E' A} (f : E → E') (m : M S E A) : M S E' A := λ s,
  match m s with
  | (Ok a, s) => (Ok a, s)
  | (Err e, s) => (Err (f e), s)
  end.
Definition mlift {E A S} (r : Result E A) : M S E A := λ s, (r, s).

Notation "'let*' x := m 'in' k" := (bindM m (λ x, k))
  (at level 200, x name, m at level 100, k at level 200, right associativity) : agentsh_scope.
Notation "'do*' m 'in' k" := (bindM m (λ _, k))
  (at level 200, m at level 100, k at level 200, right associativity) : agentsh_scope.

(** ** Operating system *)

Record File := mkFile {
  f_data : bytes;
  f_synced : nat;     (** how many leading bytes a crash cannot lose *)
}.

(** meta.json, structured. *)
Record Meta := mkMeta {
  m_FormatVersion : Z;
  m_AckHighWatermarkSeq : Z;
  m_AckHighWatermarkGen : Z;
  m_AckRecorded : bool;
  m_SessionID : string;
  m_KeyFingerprint : string;
  m_ContextDigest : string;
}.

Inductive OsErr :=
| EIO            (** the fault oracle failed the call *)
| ENOENT
| EEXIST
| EClosed        (** ErrSegmentClosed *)
| ESegmentShort (size : Z)
| ENotInProgress
| EParseName
| EMetaVersion (v : Z)
| EHeader (e : HeaderErr)
| EFrame (e : FrameErr).

(** One entry per system call: [None] succeeds, [Some n] fails, a failing write
    after [n] of its bytes. Past the end of the list every call succeeds. *)
Record World := mkWorld {
  w_inodes : gmap nat File;
  w_dir : gmap string nat;
  w_next : nat;               (** the next unused inode *)
  w_meta : option Meta;
  w_faults : list (option nat);
}.

Definition set_faults (fs : list (option nat)) (w : World) : World :=
  mkWorld (w_inodes w) (w_dir w) (w_next w) (w_meta w) fs.
Definition set_inodes (i : gmap nat File) (w : World) : World :=
  mkWorld i (w_dir w) (w_next w) (w_meta w) (w_faults w).
Definition set_dir (d : gmap string nat) (w : World) : World :=
  mkWorld (w_inodes w) d (w_next w) (w_meta w) (w_faults w).
Definition set_meta (m : Meta) (w : World) : World :=
  mkWorld (w_inodes w) (w_dir w) (w_next w) (Some m) (w_faults w).

Definition Os := M World OsErr.

(** The outcome of the next system call. *)
Definition next_fault : Os (option nat) := λ w,
  match w_faults w with
  | [] => (Ok None, w)
  | f :: fs => (Ok f, set_faults fs w)
  end.

Definition io : Os unit := let* f := next_fault in match f with None => ret tt | Some _ => merr EIO end.

Definition os_ReadDir : Os (list string) :=
  do* io in
  mget (λ w, SliceStable (λ a b : string, String.ltb a b) (elements (dom (w_dir w)))).

Definition os_Open (name : string) : Os nat :=
  do* io in
  let* i := mget (λ w, w_dir w !! name) in
  match i with Some i => ret i | None => merr ENOENT end.

(** [O_CREATE|O_EXCL] *)
Definition os_Create (name : string) : Os nat :=
  do* io in
  let* i := mget (λ w, w_dir w !! name) in
  match i with
  | Some _ => merr EEXIST
  | None => λ w,
      let i := w_next w in
      (Ok i, mkWorld (<[i := mkFile [] 0]> (w_inodes w)) (<[name := i]> (w_dir w)) (S i) (w_meta w) (w_faults w))
  end.

Definition file_of (w : World) (i : nat) : File := default (mkFile [] 0) (w_inodes w !! i).
Definition data_of (w : World) (i : nat) : bytes := f_data (file_of w i).
Definition upd_file (i : nat) (f : File → File) (w : World) : World :=
  set_inodes (<[i := f (file_of w i)]> (w_inodes w)) w.

Definition append_data (d : bytes) (f : File) : File := mkFile (f_data f ++ d) (f_synced f).
Definition truncate_to (n : nat) (f : File) : File :=
  mkFile (take n (f_data f) ++ replicate (n - length (f_data f)) "000"%char) (f_synced f `min` n).

(** [File.Write] at the end of the file. *)
Definition file_Write (i : nat) (d : bytes) : Os unit :=
  let* f := next_fault in
  match f with
  | None => mput (upd_file i (append_data d))
  | Some n => do* mput (upd_file i (append_data (take n d))) in merr EIO
  end.

Definition file_Sync (i : nat) : Os unit :=
  do* io in mput (upd_file i (λ f, mkFile (f_data f) (length (f_data f)))).

Definition file_Truncate (i : nat) (n : Z) : Os unit :=
  do* io in mput (upd_file i (truncate_to (Z.to_nat n))).

Definition file_Close (i : nat) : Os unit := io.
Definition file_Size (i : nat) : Os Z := do* io in mget (λ w, Z.of_nat (length (data_of w i))).

Definition os_Stat (name : string) : Os Z :=
  let* i := os_Open name in mget (λ w, Z.of_nat (length (data_of w i))).

Definition os_Remove (name : string) : Os unit :=
  do* io in
  let* i := mget (λ w, w_dir w !! name) in
  match i with Some _ => mput (λ w, set_dir (delete name (w_dir w)) w) | None => merr ENOENT end.

Definition atomicRename (a b : string) : Os unit :=
  do* io in
  let* i := mget (λ w, w_dir w !! a) in
  match i with
  | Some i => mput (λ w, set_dir (<[b := i]> (delete a (w_dir w))) w)
  | None => merr ENOENT
  end.

Definition syncDir : Os unit := io.

(** ** Objects over the system *)

Definition lift {S A} (m : Os A) : M (S * World) OsErr A := λ s,
  let '(r, w) := m s.2 in (r, (s.1, w)).
Definition this {S A} (f : S → A) : M (S * World) OsErr A := mget (λ s, f s.1).
Definition modify {S} (f : S → S) : M (S * World) OsErr unit := mput (λ s, (f s.1, s.2)).
(** Run a method on a component of the object. *)
Definition zoom {S T A} (get : S → T) (put : T → S → S) (m : M (T * World) OsErr A) : M (S * World) OsErr A :=
  λ s, let '(r, (t, w)) := m (get s.1, s.2) in (r, (put t s.1, w)).

(** ** bufio.Writer *)

Record Writer := mkWriter { bw_buf : bytes; bw_err : bool }.

Definition BwM := M (Writer * World) OsErr.

Definition bufio_size : nat := 4096.

Definition fresh_writer : Writer := mkWriter [] false.

(** A write of the buffered or the given bytes; an error is kept. *)
Definition bw_out (i : nat) (d : bytes) : BwM unit :=
  let* r := mtry (lift (file_Write i d)) in
  match r with
  | Ok _ => modify (λ _, fresh_writer)
  | Err e => do* modify (λ b, mkWriter (bw_buf b) true) in merr e
  end.

Definition bw_Flush (i : nat) : BwM unit :=
  let* b := this (λ b, b) in
  if bw_err b then merr EIO
  else if decide (bw_buf b = []) then ret tt
  else bw_out i (bw_buf b).

Definition bw_buffer (p : bytes) : BwM unit := modify (λ b, mkWriter (bw_buf b ++ p) (bw_err b)).

(** [Write]: a slice that does not fit fills the buffer and flushes it; what is left
    and still does not fit an empty buffer goes to the file directly. *)
Definition bw_Write (i : nat) (p : bytes) : BwM unit :=
  let* b := this (λ b, b) in
  let avail := (bufio_size - length (bw_buf b))%nat in
  if bw_err b then merr EIO
  else if (length p <=? avail)%nat then bw_buffer p
  else
    let* rest := (if decide (bw_buf b = []) then ret p
                  else do* bw_buffer (take avail p) in do* bw_Flush i in ret (drop avail p)) in
    if (length rest <=? bufio_size)%nat then bw_buffer rest else bw_out i rest.

(** ** Segment names *)

Definition segmentExt : string := ".seg".
Definition inProgressSuffix : string := ".INPROGRESS".
Definition sealedSuffix : string := segmentExt.
Definition inprogressSuffix : string := segmentExt +:+ inProgressSuffix.

Definition digit (d : Z) : ascii := ascii_of_N (Z.to_N (48 + d)).

(** The decimal digits of [n], at most [fuel] of them: 20 hold every uint64. *)
Fixpoint decimal (fuel : nat) (n : Z) : string :=
  match fuel with
  | O => ""
  | S fuel =>
      if n <? 10 then String (digit n) ""
      else decimal fuel (n / 10) +:+ String (digit (n `mod` 10)) ""
  end.

Fixpoint zeros (n : nat) : string := match n with O => "" | S n => String "0" (zeros n) end.

(** [fmt.Sprintf("%010d", index)] *)
Definition pad10 (s : string) : string := zeros (10 - String.length s) +:+ s.

Definition segmentName (index : Z) : string := pad10 (decimal 20 index) +:+ segmentExt.

Definition digit_val (c : ascii) : option Z :=
  let v := byte_val c in if (48 <=? v) && (v <=? 57) then Some (v - 48) else None.

Fixpoint parse_digits (acc : Z) (s : string) : option Z :=
  match s with
  | EmptyString => Some acc
  | String c s =>
      match digit_val c with
      | Some d => parse_digits (acc * 10 + d) s
      | None => None
      end
  end.

(** [strconv.ParseUint(s, 10, 64)] *)
Definition ParseUint (s : string) : option Z :=
  if String.eqb s "" then None
  else match parse_digits 0 s with
       | Some v => if v <? 2 ^ 64 then Some v else None
       | None => None
       end.

Definition parseSegmentIndex (name : string) : option Z :=
  if HasSuffix name inprogressSuffix then ParseUint (TrimSuffix name inprogressSuffix)
  else if HasSuffix name sealedSuffix then ParseUint (TrimSuffix name sealedSuffix)
  else None.

(** ** Segment *)

Record Segment := mkSegment {
  s_index : Z;
  s_gen : Z;
  s_path : string;
  s_file : option nat;
  s_writer : Writer;
  s_bytes : Z;
  s_maxRecordBytes : Z;
  s_closed : bool;
}.

Definition set_writer (b : Writer) (s : Segment) : Segment :=
  mkSegment (s_index s) (s_gen s) (s_path s) (s_file s) b (s_bytes s) (s_maxRecordBytes s) (s_closed s).
Definition set_bytes (n : Z) (s : Segment) : Segment :=
  mkSegment (s_index s) (s_gen s) (s_path s) (s_file s) (s_writer s) n (s_maxRecordBytes s) (s_closed s).
(** [s.file = nil; s.writer = nil; s.closed = true] *)
Definition set_closed (path : string) (s : Segment) : Segment :=
  mkSegment (s_index s) (s_gen s) path None (mkWriter [] false) (s_bytes s) (s_maxRecordBytes s) true.

(** Methods of a segment: the segment and the system. *)
Definition SegM := M (Segment * World) OsErr.

(** Failure after creation: close and remove the file, report the error. *)
Definition abandon {A} (i : nat) (path : string) (e : OsErr) : Os A :=
  do* mignore (file_Close i) in do* mignore (os_Remove path) in merr e.

(** A fresh [bufio.Writer] run through [m]. *)
Definition with_writer (m : BwM unit) : Os Writer := λ w,
  let '(r, (b, w)) := m (fresh_writer, w) in (match r with Ok _ => Ok b | Err e => Err e end, w).

Definition OpenSegment (index : Z) (hdr : SegmentHeader) (maxRecordBytes : Z) : Os Segment :=
  if bad_max maxRecordBytes then merr (EFrame (ErrMaxPayload maxRecordBytes))
  else
    let path := segmentName index +:+ inProgressSuffix in
    let* f := os_Create path in
    match WriteSegmentHeader hdr with
    | Err e => abandon f path (EHeader e)
    | Ok b =>
        let* r := mtry (with_writer (do* bw_Write f b in bw_Flush f)) in
        match r with
        | Err e => abandon f path e
        | Ok w =>
            let* r := mtry (do* file_Sync f in syncDir) in
            match r with
            | Err e => abandon f path e
            | Ok _ => ret (mkSegment index (sh_Generation hdr) path (Some f) w SegmentHeaderSize maxRecordBytes false)
            end
        end
    end.

Definition ReopenSegment (path : string) (maxRecordBytes : Z) : Os Segment :=
  if bad_max maxRecordBytes then merr (EFrame (ErrMaxPayload maxRecordBytes))
  else
    let* f := os_Open path in
    let* size := file_Size f in
    if size <? SegmentHeaderSize then merr (ESegmentShort size)
    else
      let* data := mget (λ w, data_of w f) in
      match (ReadSegmentHeader data).1 with
      | Err e => merr (EHeader e)
      | Ok hdr =>
          if negb (HasSuffix path inprogressSuffix) then merr ENotInProgress
          else match ParseUint (TrimSuffix path inprogressSuffix) with
               | None => merr EParseName
               | Some index =>
                   ret (mkSegment index (sh_Generation hdr) path (Some f) fresh_writer size
                                   maxRecordBytes false)
               end
      end.

Definition on_writer (m : nat → BwM unit) : SegM unit :=
  let* f := this s_file in
  match f with
  | None => merr EClosed
  | Some i => zoom s_writer set_writer (m i)
  end.

Fixpoint seg_writes (chunks : list bytes) : SegM unit :=
  match chunks with
  | [] => ret tt
  | c :: cs => do* on_writer (λ i, bw_Write i c) in seg_writes cs
  end.

Definition Segment_WriteRecord (payload : bytes) : SegM unit :=
  let* s := this (λ s, s) in
  if s_closed s then merr EClosed
  else
    let startBytes := s_bytes s in
    match WriteRecord payload (s_maxRecordBytes s) with
    | Err e => merr (EFrame e)
    | Ok chunks =>
        do* seg_writes chunks in
        modify (set_bytes (startBytes + (8 + Z.of_nat (length payload))))
    end.

Definition on_file {A} (m : nat → Os A) : SegM A :=
  let* f := this s_file in
  match f with
  | None => merr EClosed
  | Some i => lift (m i)
  end.

Definition Segment_Sync : SegM unit :=
  let* s := this (λ s, s) in
  if s_closed s then merr EClosed
  else do* on_writer bw_Flush in on_file file_Sync.

Definition Seal : SegM string :=
  let* s := this (λ s, s) in
  if s_closed s then merr EClosed
  else
    do* Segment_Sync in
    do* on_file (λ i, file_Truncate i (s_bytes s)) in
    do* on_file file_Sync in
    do* on_file file_Close in
    let sealed := segmentName (s_index s) in
    do* lift (atomicRename (s_path s) sealed) in
    do* lift syncDir in
    do* modify (set_closed sealed) in
    ret sealed.

Definition Segment_Close : SegM unit :=
  let* s := this (λ s, s) in
  match s_closed s, s_file s with
  | false, Some i =>
      do* Segment_Sync in
      let* r := mtry (lift (file_Close i)) in
      do* modify (set_closed (s_path s)) in
      mlift r
  | _, _ =>
      modify (λ s, mkSegment (s_index s) (s_gen s) (s_path s) (s_file s) (s_writer s) (s_bytes s)
                             (s_maxRecordBytes s) true)
  end.

(** ** meta.json *)

Definition metaFormatVersion : Z := 2.

Definition set_ack_recorded (m : Meta) : Meta :=
  mkMeta (m_FormatVersion m) (m_AckHighWatermarkSeq m) (m_AckHighWatermarkGen m) true
         (m_SessionID m) (m_KeyFingerprint m) (m_ContextDigest m).

Definition ReadMeta : Os Meta :=
  do* io in
  let* m := mget w_meta in
  match m with
  | None => merr ENOENT
  | Some m =>
      if m_FormatVersion m =? 1 then ret (set_ack_recorded m)
      else if m_FormatVersion m =? metaFormatVersion then ret m
      else merr (EMetaVersion (m_FormatVersion m))
  end.

Definition stamp_version (m : Meta) : Meta :=
  mkMeta metaFormatVersion (m_AckHighWatermarkSeq m) (m_AckHighWatermarkGen m) (m_AckRecorded m)
         (m_SessionID m) (m_KeyFingerprint m) (m_ContextDigest m).

(** Open, write, sync and close the temporary file, rename it, sync the directory:
    only the rename changes meta.json. *)
Definition WriteMeta (m : Meta) : Os unit :=
  do* io in
  let removing (step : Os unit) : Os unit :=
    let* r := mtry step in
    match r with Ok _ => ret tt | Err e => do* mignore io in merr e end in
  do* removing io in
  do* removing io in
  do* removing io in
  do* removing (do* io in mput (set_meta (stamp_version m))) in
  syncDir.
