(* ===== verification/Wal.v ===== *)
(** * The watchtower write-ahead log

    internal/store/watchtower/wal/wal.go: opening and recovery, append with
    generation and size rolls, overflow reclamation, loss markers, acknowledgement
    and garbage collection. The state of a log is the struct's fields together with
    the system of WalFs; every operation runs under the log's mutex, so it is one
    transition of that pair.

    The append injector is left out: it is nil outside tests. *)

From S2P Require Import Prelude WalFrame WalFs.
Open Scope Z_scope.

(** ** Data *)

Inductive SyncMode := SyncImmediate | SyncDeferred.

Record Options := mkOptions {
  o_Dir : string;
  o_SegmentSize : Z;
  o_MaxTotalBytes : Z;
  o_SyncMode : SyncMode;
  o_SyncInterval : Z;
  o_SessionID : string;
  o_KeyFingerprint : string;
  o_ContextDigest : string;
}.

Inductive FailureClass := FailureNone | FailureClean | FailureAmbiguous.

Inductive WalErr :=
| ErrClosed
| ErrFatal (cause : OsErr)
| ErrSegmentBudget (size : Z)
| ErrOs (e : OsErr).

Record AppendError := mkAppendError {
  ae_Class : FailureClass;
  ae_Op : string;
  ae_Err : WalErr;
}.

Definition IsClean (e : AppendError) : bool := match ae_Class e with FailureClean => true | _ => false end.
Definition IsAmbiguous (e : AppendError) : bool := match ae_Class e with FailureAmbiguous => true | _ => false end.

Record ErrIdentityMismatch := mkMismatch {
  mm_MismatchedField : string;
  mm_PersistedSessionID : string;
  mm_ExpectedSessionID : string;
  mm_PersistedKeyFingerprint : string;
  mm_ExpectedKeyFingerprint : string;
  mm_PersistedContextDigest : string;
  mm_ExpectedContextDigest : string;
}.

Inductive OpenErr :=
| ErrDirRequired
| ErrSegmentSize (size : Z)
| ErrSyncMode
| ErrIdentity (m : ErrIdentityMismatch)
| ErrOpenOs (e : OsErr).

Record segmentEntry := mkEntry { e_name : string; e_idx : Z }.

(** reader.go's Reader; its mutex and back pointer have no counterpart. *)
Record Reader := mkReader {
  r_notify : bool;                 (** the one-slot notify channel holds a signal *)
  r_segments : list segmentEntry;
  r_current : option (nat * nat);  (** the open file and its offset *)
  r_curHdr : SegmentHeader;
  r_curIdx : Z;
  r_curLive : bool;
  r_nextScanIdx : Z;
  r_lastGoodSeq : Z;
  r_lastGoodGen : Z;
  r_lastGoodGenSet : bool;
  r_nextSeq : Z;
  r_readerGen : Z;
  r_lastEmittedSeq : Z;
  r_closed : bool;
}.

Record WAL := mkWAL {
  w_opts : Options;
  w_maxRec : Z;
  w_current : option Segment;
  w_closed : bool;
  w_fatalErr : option OsErr;
  w_highSeq : Z;
  w_highGen : Z;
  w_nextIndex : Z;
  w_totalBytes : Z;
  w_ackHighSeq : Z;
  w_ackHighGen : Z;
  w_ackPresent : bool;
  w_perGenDataHighWater : gmap Z Z;
  w_perGenAnyReplayable : gset Z;
  w_readers : gmap nat Reader;
}.

Definition set_current (c : option Segment) (w : WAL) : WAL :=
  mkWAL (w_opts w) (w_maxRec w) c (w_closed w) (w_fatalErr w) (w_highSeq w) (w_highGen w) (w_nextIndex w)
        (w_totalBytes w) (w_ackHighSeq w) (w_ackHighGen w) (w_ackPresent w) (w_perGenDataHighWater w)
        (w_perGenAnyReplayable w) (w_readers w).
Definition set_fatal (e : option OsErr) (w : WAL) : WAL :=
  mkWAL (w_opts w) (w_maxRec w) (w_current w) (w_closed w) e (w_highSeq w) (w_highGen w) (w_nextIndex w)
        (w_totalBytes w) (w_ackHighSeq w) (w_ackHighGen w) (w_ackPresent w) (w_perGenDataHighWater w)
        (w_perGenAnyReplayable w) (w_readers w).
Definition set_high (seq gen : Z) (w : WAL) : WAL :=
  mkWAL (w_opts w) (w_maxRec w) (w_current w) (w_closed w) (w_fatalErr w) seq gen (w_nextIndex w)
        (w_totalBytes w) (w_ackHighSeq w) (w_ackHighGen w) (w_ackPresent w) (w_perGenDataHighWater w)
        (w_perGenAnyReplayable w) (w_readers w).
Definition set_nextIndex (n : Z) (w : WAL) : WAL :=
  mkWAL (w_opts w) (w_maxRec w) (w_current w) (w_closed w) (w_fatalErr w) (w_highSeq w) (w_highGen w) n
        (w_totalBytes w) (w_ackHighSeq w) (w_ackHighGen w) (w_ackPresent w) (w_perGenDataHighWater w)
        (w_perGenAnyReplayable w) (w_readers w).
Definition add_total (n : Z) (w : WAL) : WAL :=
  mkWAL (w_opts w) (w_maxRec w) (w_current w) (w_closed w) (w_fatalErr w) (w_highSeq w) (w_highGen w)
        (w_nextIndex w) (w_totalBytes w + n) (w_ackHighSeq w) (w_ackHighGen w) (w_ackPresent w)
        (w_perGenDataHighWater w) (w_perGenAnyReplayable w) (w_readers w).
Definition set_ack (gen seq : Z) (w : WAL) : WAL :=
  mkWAL (w_opts w) (w_maxRec w) (w_current w) (w_closed w) (w_fatalErr w) (w_highSeq w) (w_highGen w)
        (w_nextIndex w) (w_totalBytes w) seq gen true
        (w_perGenDataHighWater w) (w_perGenAnyReplayable w) (w_readers w).
Definition set_gens (d : gmap Z Z) (a : gset Z) (w : WAL) : WAL :=
  mkWAL (w_opts w) (w_maxRec w) (w_current w) (w_closed w) (w_fatalErr w) (w_highSeq w) (w_highGen w)
        (w_nextIndex w) (w_totalBytes w) (w_ackHighSeq w) (w_ackHighGen w) (w_ackPresent w) d a (w_readers w).
Definition set_readers (c : bool) (r : gmap nat Reader) (w : WAL) : WAL :=
  mkWAL (w_opts w) (w_maxRec w) (w_current w) c (w_fatalErr w) (w_highSeq w) (w_highGen w)
        (w_nextIndex w) (w_totalBytes w) (w_ackHighSeq w) (w_ackHighGen w) (w_ackPresent w)
        (w_perGenDataHighWater w) (w_perGenAnyReplayable w) r.

(** [if cur, exists := m[gen]; !exists || seq > cur { m[gen] = seq }] *)
Definition bump (gen seq : Z) (m : gmap Z Z) : gmap Z Z :=
  match m !! gen with
  | Some cur => if cur <? seq then <[gen := seq]> m else m
  | None => <[gen := seq]> m
  end.

Definition WalM E := M (WAL * World) E.

(** ** Directory listings *)

Definition by_idx (l : list segmentEntry) : list segmentEntry := SliceStable (λ a b, e_idx a <? e_idx b) l.

Definition entry_of (name : string) : option segmentEntry := mkEntry name <$> parseSegmentIndex name.

Definition is_inprogress (name : string) : bool := HasSuffix name inprogressSuffix.
Definition is_sealed (name : string) : bool := HasSuffix name sealedSuffix && negb (is_inprogress name).

Definition entries_where (p : string → bool) (names : list string) : list segmentEntry :=
  by_idx (omap entry_of (List.filter p names)).

Definition list_sealed : Os (list segmentEntry) :=
  let* names := os_ReadDir in ret (entries_where is_sealed names).

Definition pickMaxByIndex (entries : list segmentEntry) : option segmentEntry :=
  match entries with
  | [] => None
  | e :: rest => Some (fold_left (λ max e, if e_idx max <? e_idx e then e else max) rest e)
  end.

(** ** Scanning one segment *)

Record SegScan := mkSegScan { sc_hiSeq : Z; sc_hasUser : bool; sc_gen : Z; sc_hasAny : bool }.

(** One iteration of the loop of [segmentHighSeqAndGen]. *)
Definition scan_step (s : SegScan) (payload : bytes) : SegScan :=
  if isLossMarker payload then mkSegScan (sc_hiSeq s) (sc_hasUser s) (sc_gen s) true
  else match parseSeqGen payload with
       | Some (seq, _) => mkSegScan (if sc_hiSeq s <? seq then seq else sc_hiSeq s) true (sc_gen s) true
       | None => s
       end.

Definition segmentHighSeqAndGen (path : string) (maxPayload : Z) : Os SegScan :=
  let* f := os_Open path in
  let* data := mget (λ w, data_of w f) in
  match ReadSegmentHeader data with
  | (Err e, _) => merr (EHeader e)
  | (Ok hdr, r) =>
      ret (fold_left scan_step (Scan r maxPayload).1 (mkSegScan 0 false (sh_Generation hdr) false))
  end.

(** ** Garbage collection *)

Definition segmentFullyAckedLocked (w : WAL) (segGen segHi : Z) (hasUser : bool) : bool :=
  if negb (w_ackPresent w) then false
  else if negb hasUser then segGen <=? w_ackHighGen w
  else if segGen <? w_ackHighGen w then true
  else (segGen =? w_ackHighGen w) && (segHi <=? w_ackHighSeq w).

(** The header generation of a file of the directory, if it can be read. *)
Definition surviving_gen (name : string) : Os (option Z) :=
  let* r := mtry (os_Open name) in
  match r with
  | Err _ => ret None
  | Ok f =>
      let* data := mget (λ w, data_of w f) in
      ret match (ReadSegmentHeader data).1 with Ok h => Some (sh_Generation h) | Err _ => None end
  end.

Fixpoint surviving_gens (names : list string) (acc : gset Z) : Os (gset Z) :=
  match names with
  | [] => ret acc
  | n :: ns =>
      if negb (HasSuffix n sealedSuffix) && negb (is_inprogress n) then surviving_gens ns acc
      else match parseSegmentIndex n with
           | None => surviving_gens ns acc
           | Some _ =>
               let* g := surviving_gen n in
               surviving_gens ns (match g with Some g => {[g]} ∪ acc | None => acc end)
           end
  end.

Definition prunePerGenMapsLocked {E} : WalM E unit := λ s,
  match os_ReadDir s.2 with
  | (Err _, W) => (Ok tt, (s.1, W))
  | (Ok names, W) =>
      match surviving_gens names ∅ W with
      | (Err _, W) => (Ok tt, (s.1, W))
      | (Ok surviving, W) =>
          (Ok tt, (set_gens (filter (λ kv, kv.1 ∈ surviving) (w_perGenDataHighWater s.1))
                            (w_perGenAnyReplayable s.1 ∩ surviving) s.1, W))
      end
  end.

(** [st, _ := os.Stat(path); os.Remove(path); if st != nil { totalBytes -= st.Size() }] *)
Definition remove_counted (path : string) : WalM OsErr unit :=
  let* st := mtry (lift (os_Stat path)) in
  do* lift (os_Remove path) in
  match st with Ok size => modify (add_total (- size)) | Err _ => ret tt end.

Fixpoint gc_acked_loop (l : list segmentEntry) (removed : nat) : WalM OsErr nat :=
  match l with
  | [] => ret removed
  | e :: l =>
      let* w := this (λ w, w) in
      let* sc := lift (segmentHighSeqAndGen (e_name e) (w_maxRec w)) in
      if negb (segmentFullyAckedLocked w (sc_gen sc) (sc_hiSeq sc) (sc_hasUser sc)) then ret removed
      else do* remove_counted (e_name e) in gc_acked_loop l (S removed)
  end.

Definition gcAckedLocked : WalM OsErr nat :=
  let* w := this (λ w, w) in
  if negb (w_ackPresent w) then ret 0%nat
  else
    let* sealed := lift list_sealed in
    match sealed with
    | [] => ret 0%nat
    | _ =>
        let* removed := gc_acked_loop sealed 0 in
        if (removed =? 0)%nat then ret removed
        else do* lift syncDir in do* prunePerGenMapsLocked in ret removed
    end.

(** The sequence numbers of the user records among [ps], in order. *)
Definition user_seqs (ps : list bytes) : list Z :=
  omap (λ p, if isLossMarker p then None else fst <$> parseSeqGen p) ps.

(** The loss record, and whether it covers a user record; [None]: nothing to drop. *)
Definition dropOldestLocked : WalM OsErr (option (LossRecord * bool)) :=
  let* sealed := lift list_sealed in
  match sealed with
  | [] => ret None
  | oldest :: _ =>
      let path := e_name oldest in
      let* w := this (λ w, w) in
      let* f := lift (os_Open path) in
      let* data := mget (λ s, data_of s.2 f) in
      let '(hdr, r) := ReadSegmentHeader data in
      let gen := match hdr with Ok h => sh_Generation h | Err _ => 0 end in
      let seqs := user_seqs (Scan r (w_maxRec w)).1 in
      do* remove_counted path in
      do* lift syncDir in
      do* prunePerGenMapsLocked in
      ret (Some (mkLoss (default 0 (head seqs)) (default 0 (last seqs)) gen LossReasonOverflow,
                  negb (bool_decide (seqs = []))))
  end.

(** ** Appending *)

(** [failAmbiguousLocked] on the error of [m]: the first error latches the log. *)
Definition ambiguous {A} (op : string) (m : WalM OsErr A) : WalM AppendError A := λ s,
  match m s with
  | (Ok a, s) => (Ok a, s)
  | (Err e, (w, W)) =>
      (Err (mkAppendError FailureAmbiguous op (ErrOs e)),
       (match w_fatalErr w with None => set_fatal (Some e) w | Some _ => w end, W))
  end.

(** A method of the live segment; without one the code would dereference nil. *)
Definition on_current {A} (m : SegM A) : WalM OsErr A := λ s,
  match w_current s.1 with
  | None => (Err EClosed, s)
  | Some seg => let '(r, (seg, W)) := m (seg, s.2) in (r, (set_current (Some seg) s.1, W))
  end.

Definition sealCurrentLocked : WalM OsErr unit :=
  let* c := this w_current in
  match c with
  | None => ret tt
  | Some _ => do* on_current Seal in modify (set_current None)
  end.

Definition openNewSegmentLocked (gen flags : Z) : WalM OsErr Segment :=
  let* w := this (λ w, w) in
  do* modify (set_nextIndex (to_uint64 (w_nextIndex w + 1))) in
  lift (OpenSegment (w_nextIndex w) (mkSegmentHeader SegmentVersion flags gen) (w_maxRec w)).

(** [seg, err := openNewSegmentLocked(..); w.current = seg] *)
Definition open_current (gen flags : Z) : WalM OsErr unit :=
  let* seg := openNewSegmentLocked gen flags in modify (set_current (Some seg)).

Definition notify_reader (r : Reader) : Reader :=
  mkReader true (r_segments r) (r_current r) (r_curHdr r) (r_curIdx r) (r_curLive r) (r_nextScanIdx r)
           (r_lastGoodSeq r) (r_lastGoodGen r) (r_lastGoodGenSet r) (r_nextSeq r) (r_readerGen r)
           (r_lastEmittedSeq r) (r_closed r).
Definition notifyReaders (w : WAL) : WAL := set_readers (w_closed w) (notify_reader <$> w_readers w) w.

Definition cur_gen (w : WAL) : Z := match w_current w with Some s => s_gen s | None => 0 end.

Definition appendLossLocked (loss : LossRecord) : WalM OsErr unit :=
  let payload := encodeLossPayload loss in
  do* on_current (Segment_WriteRecord payload) in
  do* on_current Segment_Sync in
  modify (λ w, notifyReaders (set_gens (w_perGenDataHighWater w) ({[cur_gen w]} ∪ w_perGenAnyReplayable w)
                                       (add_total (8 + Z.of_nat (length payload)) w))).

Definition over_budget (w : WAL) : bool :=
  o_MaxTotalBytes (w_opts w) <? w_totalBytes w + o_SegmentSize (w_opts w).

(** A marker for dropped records goes to the live segment, opened if there is none. *)
Definition overflow_marker (gen : Z) (loss : LossRecord) : WalM AppendError unit :=
  let* c := mget (λ s, w_current s.1) in
  do* (match c with
       | None => ambiguous "overflow-open" (open_current gen FlagGenInit)
       | Some _ => ret tt
       end) in
  ambiguous "overflow-loss" (appendLossLocked loss).

(** The second phase of overflow reclamation; each pass that continues removes a
    sealed file, so one pass per file of the directory and one more are enough. *)
Fixpoint overflow_loop (fuel : nat) (gen : Z) : WalM AppendError unit :=
  match fuel with
  | O => ret tt
  | S fuel =>
      let* over := mget (λ s, over_budget s.1) in
      if negb over then ret tt
      else
        let* r := ambiguous "overflow-gc" dropOldestLocked in
        match r with
        | None => ret tt
        | Some (loss, hasUserRange) =>
            if negb hasUserRange then overflow_loop fuel gen
            else
              do* overflow_marker gen loss in
              overflow_loop fuel gen
        end
  end.

Definition reclaim (gen : Z) : WalM AppendError unit :=
  let* over := mget (λ s, over_budget s.1) in
  if negb over then ret tt
  else
    do* ambiguous "overflow-gc-acked" gcAckedLocked in
    let* n := mget (λ s, size (w_dir s.2)) in
    overflow_loop (S n) gen.

Definition recordOverhead : Z := 8 + 12.

(** Roll the generation if it changed, open the first segment, roll a full one.
    Returns whether the generation was rolled. *)
Definition roll_generation (gen : Z) : WalM AppendError bool :=
  let* c := mget (λ s, w_current s.1) in
  match c with
  | Some seg =>
      if s_gen seg =? gen then ret false
      else
        do* ambiguous "seal-on-gen-roll" sealCurrentLocked in
        do* ambiguous "open-on-gen-roll" (open_current gen FlagGenInit) in
        ret true
  | None => ret false
  end.

Definition open_first (gen : Z) : WalM AppendError unit :=
  let* c := mget (λ s, w_current s.1) in
  match c with
  | Some _ => ret tt
  | None => ambiguous "open-first" (open_current gen FlagGenInit)
  end.

Definition roll_full (gen : Z) (payload : bytes) : WalM AppendError unit :=
  let* w := mget fst in
  match w_current w with
  | None => ret tt
  | Some seg =>
      if o_SegmentSize (w_opts w) <? s_bytes seg + (recordOverhead + Z.of_nat (length payload)) then
        do* ambiguous "seal-on-full" sealCurrentLocked in
        ambiguous "open-on-full" (open_current gen 0)
      else ret tt
  end.

Definition clean {A} (op : string) (e : WalErr) : WalM AppendError A :=
  merr (mkAppendError FailureClean op e).

Definition record_appended (seq gen : Z) (framed : bytes) (w : WAL) : WAL :=
  notifyReaders
    (add_total (8 + Z.of_nat (length framed))
       (set_gens (bump gen (to_uint64 seq) (w_perGenDataHighWater w)) ({[gen]} ∪ w_perGenAnyReplayable w)
          (set_high (to_uint64 seq) gen w))).

(** Append past its guards and the reclaiming of space. *)
Definition append_record (mode : SyncMode) (seq gen : Z) (payload : bytes) : WalM AppendError bool :=
  let* rolled := roll_generation gen in
  do* open_first gen in
  do* roll_full gen payload in
  let framed := encodeSeqGenFrame seq gen payload in
  do* ambiguous "write-record" (on_current (Segment_WriteRecord framed)) in
  do* (match mode with
       | SyncImmediate => ambiguous "sync" (on_current Segment_Sync)
       | SyncDeferred => ret tt
       end) in
  do* mput (λ s, (record_appended seq gen framed s.1, s.2)) in
  ret rolled.

(** Returns [AppendResult.GenerationRolled]. *)
Definition Append (seq gen : Z) (payload : bytes) : WalM AppendError bool :=
  let* w := mget fst in
  if w_closed w then clean "append" ErrClosed
  else match w_fatalErr w with
  | Some e => clean "append" (ErrFatal e)
  | None =>
      if o_SegmentSize (w_opts w) - SegmentHeaderSize <? recordOverhead + Z.of_nat (length payload)
      then clean "append" (ErrSegmentBudget (Z.of_nat (length payload)))
      else
        do* reclaim gen in
        append_record (o_SyncMode (w_opts w)) seq gen payload
  end.

Definition AppendLoss (loss : LossRecord) : WalM AppendError unit :=
  let* w := mget fst in
  if w_closed w then clean "append-loss" ErrClosed
  else match w_fatalErr w with
  | Some e => clean "append-loss" (ErrFatal e)
  | None =>
      do* (match w_current w with
           | None => ambiguous "open-loss-segment" (open_current (l_Generation loss) FlagGenInit)
           | Some _ => ret tt
           end) in
      let payload := encodeLossPayload loss in
      do* ambiguous "write-loss" (on_current (Segment_WriteRecord payload)) in
      do* ambiguous "sync-loss" (on_current Segment_Sync) in
      mput (λ s, (notifyReaders
                    (set_gens (w_perGenDataHighWater s.1) ({[cur_gen s.1]} ∪ w_perGenAnyReplayable s.1)
                              (add_total (8 + Z.of_nat (length payload)) s.1)), s.2))
  end.

(** ** Acknowledgement *)

(** [(gen, seq)] is past the watermark, in lexicographic order. *)
Definition ack_advances (w : WAL) (gen seq : Z) : bool :=
  negb (w_ackPresent w) || (w_ackHighGen w <? gen) || ((gen =? w_ackHighGen w) && (w_ackHighSeq w <? seq)).

(** The sealed segments that are fully acknowledged are removed; a file that cannot
    be scanned or removed is skipped. Returns whether one was removed. *)
Fixpoint mark_acked_loop (l : list segmentEntry) (removed : bool) : WalM OsErr bool :=
  match l with
  | [] => ret removed
  | e :: l =>
      let* w := this (λ w, w) in
      let* sc := mtry (lift (segmentHighSeqAndGen (e_name e) (w_maxRec w))) in
      match sc with
      | Err _ => mark_acked_loop l removed
      | Ok sc =>
          if negb (segmentFullyAckedLocked w (sc_gen sc) (sc_hiSeq sc) (sc_hasUser sc))
          then mark_acked_loop l removed
          else
            let* r := mtry (remove_counted (e_name e)) in
            mark_acked_loop l (match r with Ok _ => true | Err _ => removed end)
      end
  end.

Definition MarkAcked (gen seq : Z) : WalM OsErr unit :=
  do* modify (λ w, if ack_advances w gen seq then set_ack gen seq w else w) in
  let* w := this (λ w, w) in
  do* lift (WriteMeta (mkMeta 0 (w_ackHighSeq w) (w_ackHighGen w) true (o_SessionID (w_opts w))
                              (o_KeyFingerprint (w_opts w)) (o_ContextDigest (w_opts w)))) in
  let* sealed := lift list_sealed in
  let* removed := mark_acked_loop sealed false in
  if removed : bool then do* lift syncDir in prunePerGenMapsLocked else ret tt.

(** ** Closing and accessors *)

Definition close_reader (r : Reader) : Reader :=
  if r_closed r then r
  else mkReader (r_notify r) (r_segments r) None (r_curHdr r) (r_curIdx r) (r_curLive r) (r_nextScanIdx r)
                (r_lastGoodSeq r) (r_lastGoodGen r) (r_lastGoodGenSet r) (r_nextSeq r) (r_readerGen r)
                (r_lastEmittedSeq r) true.

(** Closing drops every reader; [close_reader] is what happens to each of them. *)
Definition Close : WalM OsErr unit :=
  let* w := this (λ w, w) in
  if w_closed w then ret tt
  else
    do* modify (set_readers true (close_reader <$> w_readers w)) in
    match w_current w with
    | None => ret tt
    | Some _ => do* on_current Segment_Close in modify (set_current None)
    end.

Definition HighWatermark (w : WAL) : Z := w_highSeq w.
Definition HighGeneration (w : WAL) : Z := w_highGen w.
Definition HighWaterSequence (w : WAL) : Z := w_highSeq w.

Definition WrittenDataHighWater (w : WAL) (gen : Z) : Result WalErr (option Z) :=
  if w_closed w then Err ErrClosed else Ok (w_perGenDataHighWater w !! gen).

Definition HasDataBelowGeneration (w : WAL) (threshold : Z) : Result WalErr bool :=
  if w_closed w then Err ErrClosed
  else Ok (existsb (λ kv, kv.1 <? threshold) (map_to_list (w_perGenDataHighWater w))).

Definition HasReplayableRecords (w : WAL) (gen : Z) : Result WalErr bool :=
  if w_closed w then Err ErrClosed else Ok (bool_decide (gen ∈ w_perGenAnyReplayable w)).

(** The first user record of the first segment of generation [gen] that has one;
    a segment that vanished is skipped, another open error or a bad header is
    returned. *)
Fixpoint earliest_loop (maxRec gen : Z) (l : list segmentEntry) : Os (option Z) :=
  match l with
  | [] => ret None
  | c :: l =>
      let* r := mtry (os_Open (e_name c)) in
      match r with
      | Err ENOENT => earliest_loop maxRec gen l
      | Err e => merr e
      | Ok f =>
          let* data := mget (λ w, data_of w f) in
          match ReadSegmentHeader data with
          | (Err e, _) => merr (EHeader e)
          | (Ok hdr, r) =>
              if negb (sh_Generation hdr =? gen) then earliest_loop maxRec gen l
              else match head (user_seqs (Scan r maxRec).1) with
                   | Some seq => ret (Some seq)
                   | None => earliest_loop maxRec gen l
                   end
          end
      end
  end.

Definition EarliestDataSequence (gen : Z) : WalM WalErr (option Z) :=
  let* w := mget fst in
  if w_closed w then merr ErrClosed
  else merr_map ErrOs (lift (
    let* names := os_ReadDir in
    earliest_loop (w_maxRec w) gen
      (entries_where (λ n, HasSuffix n sealedSuffix || is_inprogress n) names))).

(** ** Recovery *)

(** One record of the scan: markers make their segment's generation replayable, user
    records move the high watermark. *)
Definition recover_step (hdrGen : Z) (w : WAL) (payload : bytes) : WAL :=
  if isLossMarker payload
  then set_gens (w_perGenDataHighWater w) ({[hdrGen]} ∪ w_perGenAnyReplayable w) w
  else match parseSeqGen payload with
       | Some (seq, gen) =>
           set_gens (bump gen seq (w_perGenDataHighWater w)) ({[hdrGen]} ∪ w_perGenAnyReplayable w)
                    (set_high seq gen w)
       | None => w
       end.

(** The errors that end a scan without failing recovery. *)
Definition stops_scan (e : FrameErr) : bool :=
  match e with
  | ErrEOF | ErrUnexpectedEOF | ErrCRCMismatch | ErrCorruptFrame _ => true
  | _ => false
  end.

(** The offset past the last good record. *)
Definition scan_offset (ps : list bytes) : Z :=
  SegmentHeaderSize + foldr (λ p n, 8 + Z.of_nat (length p) + n) 0 ps.

Definition scanForRecovery (path : string) : WalM OsErr Z :=
  let* f := lift (os_Open path) in
  let* data := mget (λ s, data_of s.2 f) in
  match ReadSegmentHeader data with
  | (Err e, _) => merr (EHeader e)
  | (Ok hdr, r) =>
      do* modify (λ w, set_high (w_highSeq w) (sh_Generation hdr) w) in
      let* w := this (λ w, w) in
      let '(ps, e) := Scan r (w_maxRec w) in
      do* modify (λ w, fold_left (recover_step (sh_Generation hdr)) ps w) in
      if stops_scan e then ret (scan_offset ps) else merr (EFrame e)
  end.

Definition truncateLiveSegment (path : string) (lastGood : Z) : Os unit :=
  let* f := os_Open path in
  let* size := file_Size f in
  if size =? lastGood then ret tt
  else do* file_Truncate f lastGood in do* file_Sync f in syncDir.

Fixpoint add_sizes (l : list segmentEntry) : WalM OsErr unit :=
  match l with
  | [] => ret tt
  | e :: l =>
      let* size := lift (os_Stat (e_name e)) in
      do* modify (add_total size) in
      add_sizes l
  end.

(** The seed scan over all segments; a segment that cannot be scanned is skipped. *)
Fixpoint seed_gens (l : list segmentEntry) : WalM OsErr unit :=
  match l with
  | [] => ret tt
  | e :: l =>
      let* w := this (λ w, w) in
      let* sc := mtry (lift (segmentHighSeqAndGen (e_name e) (w_maxRec w))) in
      do* modify (λ w,
        match sc with
        | Err _ => w
        | Ok sc =>
            set_gens (if sc_hasUser sc then bump (sc_gen sc) (sc_hiSeq sc) (w_perGenDataHighWater w)
                      else w_perGenDataHighWater w)
                     (if sc_hasAny sc then {[sc_gen sc]} ∪ w_perGenAnyReplayable w
                      else w_perGenAnyReplayable w) w
        end) in
      seed_gens l
  end.

Definition max_idx (l : list segmentEntry) (m : Z) : Z :=
  match pickMaxByIndex l with
  | Some e => if m <=? e_idx e then e_idx e else m
  | None => m
  end.

Definition recover : WalM OsErr unit :=
  let* names := lift os_ReadDir in
  let sealed := entries_where is_sealed names in
  let inProgress := entries_where is_inprogress names in
  do* modify (set_nextIndex (to_uint64 (max_idx inProgress (max_idx sealed 0) + 1))) in
  do* (match pickMaxByIndex inProgress with
       | Some e =>
           let* lastGood := scanForRecovery (e_name e) in
           do* lift (truncateLiveSegment (e_name e) lastGood) in
           let* w := this (λ w, w) in
           let* seg := lift (ReopenSegment (e_name e) (w_maxRec w)) in
           modify (λ w, set_nextIndex (to_uint64 (s_index seg + 1)) (set_current (Some seg) w))
       | None =>
           match pickMaxByIndex sealed with
           | Some e => do* scanForRecovery (e_name e) in ret tt
           | None => ret tt
           end
       end) in
  do* add_sizes sealed in
  do* add_sizes inProgress in
  seed_gens (sealed ++ inProgress).

(** ** Opening *)

Definition nonEmpty (a b : string) : string := if String.eqb a "" then b else a.

Fixpoint any_records (names : list string) (maxPayload : Z) : Os bool :=
  match names with
  | [] => ret false
  | n :: ns =>
      if negb (HasSuffix n sealedSuffix) && negb (is_inprogress n) then any_records ns maxPayload
      else
        let* sc := mtry (segmentHighSeqAndGen n maxPayload) in
        match sc with
        | Err _ => ret true
        | Ok sc => if sc_hasUser sc then ret true else any_records ns maxPayload
        end
  end.

Definition segmentsDirHasRecords (maxPayload : Z) : Os bool :=
  let* names := os_ReadDir in any_records names maxPayload.

Definition mismatch (field : string) (m : Meta) (o : Options) : ErrIdentityMismatch :=
  mkMismatch field (m_SessionID m) (o_SessionID o) (m_KeyFingerprint m) (o_KeyFingerprint o)
             (m_ContextDigest m) (o_ContextDigest o).

(** The caller supplies a field the file leaves empty. *)
Definition backfills (persisted supplied : string) : bool :=
  String.eqb persisted "" && negb (String.eqb supplied "").

Definition recordBearingBackfillMismatch (m : Meta) (o : Options) : ErrIdentityMismatch :=
  mismatch (if backfills (m_SessionID m) (o_SessionID o) then "session_id"
            else if backfills (m_KeyFingerprint m) (o_KeyFingerprint o) then "key_fingerprint"
            else "context_digest") m o.

(** Both sides are present and differ. *)
Definition conflicts (persisted supplied : string) : bool :=
  negb (String.eqb persisted "") && negb (String.eqb supplied "") && negb (String.eqb persisted supplied).

Definition identity_conflict (m : Meta) (o : Options) : option ErrIdentityMismatch :=
  if conflicts (m_SessionID m) (o_SessionID o) then Some (mismatch "session_id" m o)
  else if conflicts (m_KeyFingerprint m) (o_KeyFingerprint o) then Some (mismatch "key_fingerprint" m o)
  else if conflicts (m_ContextDigest m) (o_ContextDigest o) then Some (mismatch "context_digest" m o)
  else None.

Definition empty_meta : Meta := mkMeta 0 0 0 false "" "" "".

Definition backfilled (m : Meta) (o : Options) : Meta :=
  mkMeta (m_FormatVersion m) (m_AckHighWatermarkSeq m) (m_AckHighWatermarkGen m) (m_AckRecorded m)
         (nonEmpty (m_SessionID m) (o_SessionID o)) (nonEmpty (m_KeyFingerprint m) (o_KeyFingerprint o))
         (nonEmpty (m_ContextDigest m) (o_ContextDigest o)).

Definition OpenM := M World OpenErr.
Definition os {A} (m : Os A) : OpenM A := merr_map ErrOpenOs m.

(** Write identity into meta.json unless records exist that it cannot vouch for. *)
Definition adopt_identity (on_disk written : Meta) (o : Options) (maxRec : Z) : OpenM unit :=
  let* hasRecords := os (segmentsDirHasRecords maxRec) in
  if hasRecords : bool then merr (ErrIdentity (recordBearingBackfillMismatch on_disk o))
  else os (WriteMeta written).

Definition new_wal (o : Options) (maxRec : Z) (ack : option Meta) : WAL :=
  let w := mkWAL o maxRec None false None 0 0 0 0 0 0 false ∅ ∅ ∅ in
  match ack with
  | Some m => if m_AckRecorded m then set_ack (m_AckHighWatermarkGen m) (m_AckHighWatermarkSeq m) w else w
  | None => w
  end.

Definition Open (o : Options) : OpenM WAL :=
  if String.eqb (o_Dir o) "" then merr ErrDirRequired
  else if o_SegmentSize o <=? SegmentHeaderSize then merr (ErrSegmentSize (o_SegmentSize o))
  else
    let maxRec := o_SegmentSize o - SegmentHeaderSize in
    if bad_max maxRec then merr (ErrSegmentSize (o_SegmentSize o))
    else match o_SyncMode o with
    | SyncDeferred => merr ErrSyncMode
    | SyncImmediate =>
        do* os io in   (* os.MkdirAll *)
        let* meta := mtry ReadMeta in
        let* ack := (match meta with
          | Ok m =>
              match identity_conflict m o with
              | Some e => merr (ErrIdentity e)
              | None =>
                  if backfills (m_SessionID m) (o_SessionID o) ||
                     backfills (m_KeyFingerprint m) (o_KeyFingerprint o) ||
                     backfills (m_ContextDigest m) (o_ContextDigest o)
                  then do* adopt_identity m (backfilled m o) o maxRec in ret (Some m)
                  else ret (Some m)
              end
          | Err ENOENT =>
              if negb (String.eqb (o_SessionID o) "") || negb (String.eqb (o_KeyFingerprint o) "") ||
                 negb (String.eqb (o_ContextDigest o) "")
              then do* adopt_identity empty_meta
                         (mkMeta 0 0 0 false (o_SessionID o) (o_KeyFingerprint o) (o_ContextDigest o))
                         o maxRec in ret None
              else ret None
          | Err e => merr (ErrOpenOs e)
          end) in
        λ W,
          match recover (new_wal o maxRec ack, W) with
          | (Ok _, (w, W)) => (Ok w, W)
          | (Err e, (_, W)) => (Err (ErrOpenOs e), W)
          end
    end.
