(* ===== verification/WalInv.v ===== *)
(** * Representation of the write-ahead log's files

    The abstract log of WalSpec is a list of segments; this file relates it to the
    directory and inodes of WalFs and proves, for every system call and segment
    method, what it does to that list. Statements are triples over the state and
    error monad: from the precondition a call either succeeds with its
    postcondition, or fails, and it fails only while the fault oracle has entries
    left. *)

From S2P Require Import Prelude WalFrame WalFs Wal.
Open Scope Z_scope.

(** ** Triples *)

Class HasFaults (S : Type) := faults_of : S → list (option nat).
#[export] Instance World_faults : HasFaults World := w_faults.
#[export] Instance pair_faults {S} : HasFaults (S * World) := λ s, w_faults s.2.

Definition triple {S E A} `{HasFaults S} (P : S → Prop) (m : M S E A) (Q : A → S → Prop) (X : S → Prop) : Prop :=
  ∀ s, P s →
    match m s with
    | (Ok a, s') => Q a s' ∧ (faults_of s = [] → faults_of s' = [])
    | (Err _, s') => X s' ∧ faults_of s ≠ []
    end.

Section rules.
Context {S E : Type} `{HasFaults S}.

Lemma t_ret {A} (a : A) (P : S → Prop) (X : S → Prop) : triple P (ret a : M S E A) (λ b s, b = a ∧ P s) X.
Proof. by intros s Hs. Qed.

Lemma t_bind {A B} P (m : M S E A) R (k : A → M S E B) Q X :
  triple P m R X → (∀ a, triple (R a) (k a) Q X) → triple P (bindM m k) Q X.
Proof.
  intros Hm Hk s Hs. unfold bindM. specialize (Hm s Hs). destruct (m s) as [[a|e] s1]; [|done].
  destruct Hm as [Ha Hf]. specialize (Hk a s1 Ha). destruct (k a s1) as [[b|e] s2].
  - destruct Hk. split; [done|]. by auto.
  - destruct Hk as [HX Hk]. split; [done|]. intros Hc. by apply Hk, Hf.
Qed.

Lemma t_conseq {A} (P P' : S → Prop) (m : M S E A) (Q Q' : A → S → Prop) (X X' : S → Prop) :
  triple P m Q X → (∀ s, P' s → P s) → (∀ a s, Q a s → Q' a s) → (∀ s, X s → X' s) → triple P' m Q' X'.
Proof.
  intros Hm HP HQ HX s Hs. specialize (Hm s (HP s Hs)). destruct (m s) as [[a|e] s'].
  - destruct Hm; split; auto.
  - destruct Hm; split; auto.
Qed.

Lemma t_pre {A} (P P' : S → Prop) (m : M S E A) Q X :
  triple P m Q X → (∀ s, P' s → P s) → triple P' m Q X.
Proof. intros. eapply t_conseq; eauto. Qed.

Lemma t_post {A} P (m : M S E A) (Q Q' : A → S → Prop) X :
  triple P m Q X → (∀ a s, Q a s → Q' a s) → triple P m Q' X.
Proof. intros. eapply t_conseq; eauto. Qed.

Lemma t_get {A} (f : S → A) P X : triple P (mget f : M S E A) (λ a s, a = f s ∧ P s) X.
Proof. by intros s Hs. Qed.

Lemma t_put (f : S → S) (P : S → Prop) (Q : S → Prop) X :
  (∀ s, P s → Q (f s) ∧ faults_of (f s) = faults_of s) → triple P (mput f : M S E unit) (λ _ s, Q s) X.
Proof. intros Hf s Hs. cbn. destruct (Hf s Hs) as [? ->]. done. Qed.

Lemma t_try {E' A} P (m : M S E A) Q X :
  triple P m Q X →
  triple P (mtry m : M S E' (Result E A)) (λ r s, match r with Ok a => Q a s | Err _ => X s end) (λ _, False).
Proof.
  intros Hm s Hs. unfold mtry. specialize (Hm s Hs). destruct (m s) as [[a|e] s']; cbn; [done|].
  destruct Hm as [? Hf]. split; [done|]. intros Hc. by destruct Hf.
Qed.

(** [if v, err := m; err != nil { h; return err }]. *)
Lemma t_try_abort {E' A B} P (m : M S E' A) Q X (k : A → M S E B) (h : E' → M S E B) Q' X' :
  triple P m Q X → (∀ e s, X s → ∃ e' s', h e s = (Err e', s') ∧ X' s') → (∀ a, triple (Q a) (k a) Q' X') →
  triple P (let* r := mtry m in match r with Ok a => k a | Err e => h e end) Q' X'.
Proof.
  intros Hm Hh Hk s Hs. unfold bindM, mtry. specialize (Hm s Hs). destruct (m s) as [[a|e] s1]; cbn.
  - destruct Hm as [HQ Hf]. specialize (Hk a s1 HQ). destruct (k a s1) as [[b|e] s2].
    + destruct Hk. split; [done|]. by auto.
    + destruct Hk as [HX Hk]. split; [done|]. intros Hc. by apply Hk, Hf.
  - destruct Hm as [HX Hf]. destruct (Hh e s1 HX) as (e' & s' & -> & HX'). done.
Qed.

Lemma t_pure {A} (φ : Prop) (P : S → Prop) (m : M S E A) Q X :
  (φ → triple P m Q X) → triple (λ s, φ ∧ P s) m Q X.
Proof. intros Hm s [Hφ Hs]. by apply Hm. Qed.

Lemma t_exists {A B} (P : B → S → Prop) (m : M S E A) Q X :
  (∀ b, triple (P b) m Q X) → triple (λ s, ∃ b, P b s) m Q X.
Proof. intros Hm s [b Hs]. by apply (Hm b). Qed.

Lemma t_err {E' A} (f : E → E') P (m : M S E A) Q X : triple P m Q X → triple P (merr_map f m) Q X.
Proof. intros Hm s Hs. unfold merr_map. specialize (Hm s Hs). by destruct (m s) as [[a|e] s']. Qed.

Lemma t_lift {T A} (t : T) (P : World → Prop) (m : Os A) Q X :
  triple P m Q X →
  triple (λ s, s.1 = t ∧ P s.2) (lift m : M (T * World) OsErr A) (λ a s, s.1 = t ∧ Q a s.2) (λ s, s.1 = t ∧ X s.2).
Proof.
  intros Hm [t' W] [Ht HW]. unfold lift. cbn in *. specialize (Hm W HW).
  destruct (m W) as [[a|e] W']; cbn in *; tauto.
Qed.
End rules.

(** ** Names *)

Lemma digit_val_digit d : 0 ≤ d < 10 → digit_val (digit d) = Some d.
Proof.
  intros Hd. assert (Hin : d = 0 ∨ d = 1 ∨ d = 2 ∨ d = 3 ∨ d = 4 ∨ d = 5 ∨ d = 6 ∨ d = 7 ∨ d = 8 ∨ d = 9) by lia.
  by repeat (destruct Hin as [->|Hin]; [done|]); subst.
Qed.

Lemma parse_digits_app acc s t :
  parse_digits acc (s +:+ t) = parse_digits acc s ≫= λ v, parse_digits v t.
Proof.
  revert acc. induction s as [|c s IH]; intros acc; [done|]. rewrite string_app_cons. cbn [parse_digits].
  destruct (digit_val c); [apply IH | done].
Qed.

Lemma parse_decimal fuel n : 0 ≤ n < 10 ^ Z.of_nat fuel →
  parse_digits 0 (decimal fuel n) = Some n ∧ (fuel ≠ 0%nat → decimal fuel n ≠ "").
Proof.
  revert n. induction fuel as [|fuel IH]; intros n Hn.
  { simpl in *. split; [f_equal; lia | done]. }
  cbn [decimal]. destruct (Z.ltb_spec n 10).
  - cbn [parse_digits]. rewrite digit_val_digit by lia. split; [f_equal; lia | done].
  - rewrite Nat2Z.inj_succ, Z.pow_succ_r in Hn by lia.
    destruct (IH (n / 10)) as [IHp _]; [split; [apply Z.div_pos; lia | apply Z.div_lt_upper_bound; lia]|].
    rewrite parse_digits_app, IHp. cbn [mbind option_bind parse_digits].
    rewrite digit_val_digit by (apply Z.mod_pos_bound; lia). split.
    + f_equal. pose proof (Z.div_mod n 10). lia.
    + intros _ Hc. apply (f_equal String.length) in Hc. rewrite string_length_app in Hc. simpl in Hc. lia.
Qed.

Lemma parse_zeros n s : parse_digits 0 (zeros n +:+ s) = parse_digits 0 s.
Proof. induction n as [|n IH]; [done|]. cbn [zeros]. rewrite string_app_cons. exact IH. Qed.

Definition is_index (n : Z) : Prop := 0 ≤ n < 2 ^ 64.

Lemma ParseUint_pad n : is_index n → ParseUint (pad10 (decimal 20 n)) = Some n.
Proof.
  unfold is_index. intros Hn. destruct (parse_decimal 20 n) as [Hp Hne].
  { split; [apply Hn|]. eapply Z.lt_trans; [apply Hn | vm_compute; reflexivity]. }
  specialize (Hne ltac:(done)). unfold ParseUint, pad10. revert Hp Hne. generalize (decimal 20 n) as d. intros d Hp Hne.
  rewrite parse_zeros, Hp, (proj2 (Z.ltb_lt _ _)) by apply Hn.
  destruct (String.eqb_spec (zeros (10 - String.length d) +:+ d) "") as [Hc|]; [|done].
  apply (f_equal String.length) in Hc. rewrite string_length_app in Hc.
  destruct d; [done|]. simpl in Hc. lia.
Qed.

Definition liveName (n : Z) : string := segmentName n +:+ inProgressSuffix.

Lemma liveName_eq n : liveName n = pad10 (decimal 20 n) +:+ inprogressSuffix.
Proof. unfold liveName, segmentName, inprogressSuffix. by rewrite string_app_assoc. Qed.

Lemma is_inprogress_live n : is_inprogress (liveName n) = true.
Proof. unfold is_inprogress. rewrite liveName_eq. apply HasSuffix_app. Qed.

(** Two suffixes that end differently exclude each other. *)
Lemma HasSuffix_last s suf suf' :
  suf ≠ "" → suf' ≠ "" → last_byte suf ≠ last_byte suf' → HasSuffix (s +:+ suf) suf' = false.
Proof.
  intros H1 H2 Hne. destruct (HasSuffix _ _) eqn:Hs; [|done].
  apply HasSuffix_inv in Hs as [pre Hpre]. apply (f_equal last_byte) in Hpre.
  by rewrite !last_byte_app in Hpre.
Qed.

Lemma is_inprogress_sealed n : is_inprogress (segmentName n) = false.
Proof. by apply HasSuffix_last. Qed.

Lemma is_sealed_sealed n : is_sealed (segmentName n) = true.
Proof. unfold is_sealed. rewrite is_inprogress_sealed. unfold segmentName, sealedSuffix. by rewrite HasSuffix_app. Qed.

Lemma is_sealed_live n : is_sealed (liveName n) = false.
Proof. unfold is_sealed. rewrite is_inprogress_live. apply andb_false_r. Qed.

(** The index a name carries is the one it was made from. *)
Lemma parseSegmentIndex_sealed n : is_index n → parseSegmentIndex (segmentName n) = Some n.
Proof.
  intros Hn. unfold parseSegmentIndex. change (HasSuffix ?s inprogressSuffix) with (is_inprogress s).
  rewrite is_inprogress_sealed. unfold segmentName, sealedSuffix.
  rewrite HasSuffix_app, TrimSuffix_app. by apply ParseUint_pad.
Qed.

Lemma parseSegmentIndex_live n : is_index n → parseSegmentIndex (liveName n) = Some n.
Proof.
  intros Hn. unfold parseSegmentIndex. change (HasSuffix ?s inprogressSuffix) with (is_inprogress s).
  rewrite is_inprogress_live, liveName_eq, TrimSuffix_app. by apply ParseUint_pad.
Qed.

(** ** System calls *)

(** [W] is [W0] except for the oracle. *)
Definition same (W0 W : World) : Prop := ∃ fs, W = set_faults fs W0.

Lemma same_refl W : same W W.
Proof. exists (w_faults W). by destruct W. Qed.

Lemma same_trans W1 W2 W3 : same W1 W2 → same W2 W3 → same W1 W3.
Proof. intros [fs ->] [fs' ->]. by exists fs'. Qed.

#[local] Hint Resolve same_refl : agentsh.

Lemma t_io W0 : triple (same W0) io (λ _, same W0) (same W0).
Proof.
  intros W HW. unfold io, next_fault, bindM. cbn. unfold faults_of, World_faults.
  destruct (w_faults W) as [|[n|] fs] eqn:Hf; cbn.
  - split; [done|]. by rewrite Hf.
  - split; [|done]. destruct HW as [gs ->]. by exists fs.
  - split; [|done]. destruct HW as [gs ->]. by exists fs.
Qed.

(** Inode [i] of [W0] with contents [d]. *)
Definition with_file (i : nat) (f : File) (W : World) : World := set_inodes (<[i := f]> (w_inodes W)) W.
Definition AtFile (W0 : World) (i : nat) (d : bytes) (W : World) : Prop :=
  ∃ sy, same (with_file i (mkFile d sy) W0) W.

Lemma file_of_AtFile W0 i d W : AtFile W0 i d W → data_of W i = d.
Proof. intros (sy & fs & ->). unfold data_of, file_of. cbn. by rewrite lookup_insert_eq. Qed.

Lemma upd_AtFile W0 i d sy f W : same (with_file i (mkFile d sy) W0) W →
  same (with_file i (f (mkFile d sy)) W0) (upd_file i f W).
Proof.
  intros [fs ->]. exists fs. unfold upd_file, file_of, with_file, set_inodes, set_faults. cbn.
  by rewrite lookup_insert_eq, insert_insert_eq.
Qed.

Lemma t_file_Write W0 i d x : triple (AtFile W0 i d) (file_Write i x) (λ _, AtFile W0 i (d ++ x)) (λ _, True).
Proof.
  intros W (sy & HW). unfold file_Write, next_fault, bindM. cbn. unfold faults_of, World_faults.
  destruct (w_faults W) as [|[n|] fs] eqn:Hf; cbn.
  - split; [exists sy; by apply (upd_AtFile _ _ _ _ (append_data x))|]. by cbn; rewrite Hf.
  - done.
  - split; [|done]. exists sy. apply (upd_AtFile _ _ _ _ (append_data x)).
    destruct HW as [gs ->]. by exists fs.
Qed.

(** A call that only consults the oracle and then updates the file. *)
Lemma t_file_upd W0 i d f :
  triple (AtFile W0 i d) (do* io in mput (upd_file i f)) (λ _ W, ∃ sy, same (with_file i (f (mkFile d sy)) W0) W) (AtFile W0 i d).
Proof.
  eapply t_bind with (R := λ _, AtFile W0 i d).
  - apply t_exists. intros sy. eapply t_conseq; [apply t_io | done | by exists sy..].
  - intros []. apply t_put. intros W (sy & HW). split; [|done]. exists sy. by apply upd_AtFile.
Qed.

Definition SyncedFile (W0 : World) (i : nat) (d : bytes) (W : World) : Prop :=
  same (with_file i (mkFile d (length d)) W0) W.

Lemma t_file_Sync W0 i d : triple (AtFile W0 i d) (file_Sync i) (λ _, SyncedFile W0 i d) (λ _, True).
Proof.
  eapply t_conseq; [apply (t_file_upd W0 i d) | done | | done].
  intros _ W (sy & HW). exact HW.
Qed.

Lemma truncate_to_id d sy : truncate_to (length d) (mkFile d sy) = mkFile d (sy `min` length d).
Proof. unfold truncate_to. cbn. rewrite take_ge, Nat.sub_diag by done. by rewrite app_nil_r. Qed.

Lemma t_file_Truncate W0 i d :
  triple (AtFile W0 i d) (file_Truncate i (Z.of_nat (length d))) (λ _, AtFile W0 i d) (λ _, True).
Proof.
  unfold file_Truncate. rewrite Nat2Z.id.
  eapply t_conseq; [apply (t_file_upd W0 i d) | done | | done].
  intros _ W (sy & HW). rewrite truncate_to_id in HW. by eexists.
Qed.

(** ** Buffered writer *)

(** The bytes in the file followed by the bytes in the buffer are [total]. *)
Definition BwAt (W0 : World) (i : nat) (total : bytes) (s : Writer * World) : Prop :=
  bw_err s.1 = false ∧ ∃ d, d ++ bw_buf s.1 = total ∧ AtFile W0 i d s.2.

Lemma t_bw_out W0 i d x :
  triple (λ s, AtFile W0 i d s.2) (bw_out i x) (λ _ s, s.1 = fresh_writer ∧ AtFile W0 i (d ++ x) s.2) (λ _, True).
Proof.
  intros [b W] HW. pose proof (t_file_Write W0 i d x W HW) as Ht. unfold bw_out, bindM, mtry, lift. cbn.
  destruct (file_Write i x W) as [[[]|e] W']; cbn in *; [|done].
  destruct Ht. done.
Qed.

Definition Flushed (W0 : World) (i : nat) (total : bytes) (s : Writer * World) : Prop :=
  s.1 = fresh_writer ∧ AtFile W0 i total s.2.

Lemma t_bw_Flush W0 i total : triple (BwAt W0 i total) (bw_Flush i) (λ _, Flushed W0 i total) (λ _, True).
Proof.
  intros [[buf err] W] (Herr & d & <- & HW). cbn in *. subst err. unfold bw_Flush. cbn.
  unfold bindM, this, mget. cbn. case_decide as Hb; cbn.
  - subst buf. rewrite app_nil_r. by split.
  - apply (t_bw_out W0 i d buf (mkWriter buf false, W) HW).
Qed.

Lemma t_bw_buffer W0 i total p : triple (BwAt W0 i total) (bw_buffer p) (λ _, BwAt W0 i (total ++ p)) (λ _, True).
Proof.
  apply t_put. intros [[buf err] W] (Herr & d & <- & HW). split; [|done].
  split; [done|]. exists d. cbn. by rewrite app_assoc.
Qed.

Lemma t_bw_Write W0 i total p : triple (BwAt W0 i total) (bw_Write i p) (λ _, BwAt W0 i (total ++ p)) (λ _, True).
Proof.
  intros s Hs. unfold bw_Write. unfold bindM at 1, this, mget. rewrite (proj1 Hs).
  remember (bw_buf s.1) as buf eqn:Hbuf. remember (bufio_size - length buf)%nat as avail eqn:Ha. clear Ha.
  destruct (Nat.leb_spec (length p) avail); [by apply (t_bw_buffer W0 i total p)|].
  assert (Hpre : BwAt W0 i total s ∧ bw_buf s.1 = buf) by done. clear Hs Hbuf. revert s Hpre.
  eapply t_bind with (R := λ rest s, ∃ t, t ++ rest = total ++ p ∧ BwAt W0 i t s ∧ bw_buf s.1 = []).
  - case_decide as Hb.
    + intros s [Hs Hbuf]. split; [|done]. exists total. split_and!; [done.. | by rewrite Hbuf].
    + eapply t_bind with (R := λ _, BwAt W0 i (total ++ take avail p)).
      { eapply t_pre; [apply t_bw_buffer | by intros s []]. }
      intros []. eapply t_bind; [apply t_bw_Flush|]. intros [].
      intros s [Hf HW]. split; [|done]. exists (total ++ take avail p).
      split_and!; [by rewrite <- app_assoc, take_drop | | by rewrite Hf].
      split; [by rewrite Hf|]. eexists. rewrite Hf. by rewrite app_nil_r.
  - intros rest. apply t_exists. intros t. apply t_pure. intros Heq. rewrite <- Heq.
    destruct (length rest <=? bufio_size)%nat.
    + eapply t_pre; [apply t_bw_buffer | by intros s []].
    + intros s [(Herr & d & Hd & HW) Hb]. rewrite Hb, app_nil_r in Hd. subst d.
      pose proof (t_bw_out W0 i t rest s HW) as Ht. destruct (bw_out i rest s) as [[[]|e] s']; [|done].
      destruct Ht as [[Hf HW'] Hff]. split; [|done]. split; [by rewrite Hf|].
      exists (t ++ rest). rewrite Hf. cbn. by rewrite app_nil_r.
Qed.

(** ** Segment methods *)

(** Segment [seg] with some writer, related to the system by [P]. *)
Definition SegP (seg : Segment) (P : Writer * World → Prop) (s : Segment * World) : Prop :=
  ∃ b, s.1 = set_writer b seg ∧ P (b, s.2).

Lemma set_writer_id seg : set_writer (s_writer seg) seg = seg.
Proof. by destruct seg. Qed.

Lemma t_on_writer seg i m P Q : s_file seg = Some i → triple P (m i) (λ _ : unit, Q) (λ _, True) →
  triple (SegP seg P) (on_writer m) (λ _, SegP seg Q) (λ _, True).
Proof.
  intros Hi Hm [s W] (b & Hs & HP). cbn in *. subst s. unfold on_writer, bindM, this, mget. cbn. rewrite Hi.
  unfold zoom. cbn. specialize (Hm _ HP). destruct (m i (b, W)) as [[[]|e] [b' W']]; cbn in *; [|tauto].
  destruct Hm as [HQ Hf]. split; [|exact Hf]. by exists b'.
Qed.

Lemma t_on_file {A} seg i (m : nat → Os A) b P Q X : s_file seg = Some i → triple P (m i) Q X →
  triple (SegP seg (λ s, s.1 = b ∧ P s.2)) (on_file m) (λ a, SegP seg (λ s, s.1 = b ∧ Q a s.2)) (λ _, True).
Proof.
  intros Hi Hm [s W] (b' & Hs & <- & HP). cbn in *. subst s. unfold on_file, bindM, this, mget. cbn. rewrite Hi.
  unfold lift. cbn. specialize (Hm _ HP). destruct (m i W) as [[a|e] W']; cbn in *; [|tauto].
  destruct Hm as [HQ Hf]. split; [|exact Hf]. by exists b'.
Qed.

(** A method that starts by reading the segment. *)
Lemma t_read_seg {A} seg P (k : Segment → SegM A) Q X :
  (∀ b, triple (λ s, s.1 = set_writer b seg ∧ P (b, s.2)) (k (set_writer b seg)) Q X) →
  triple (SegP seg P) (let* s := this (λ s, s) in k s) Q X.
Proof.
  intros Hk [s W] (b & Hs & HP). cbn in Hs. subst s. unfold bindM, this, mget. cbn.
  by apply Hk.
Qed.

Lemma t_Segment_Sync W0 seg i total : s_file seg = Some i → s_closed seg = false →
  triple (SegP seg (BwAt W0 i total)) Segment_Sync
         (λ _, SegP seg (λ s, s.1 = fresh_writer ∧ SyncedFile W0 i total s.2)) (λ _, True).
Proof.
  intros Hi Hc. unfold Segment_Sync. apply t_read_seg. intros b. cbn. rewrite Hc.
  eapply t_bind.
  - eapply t_pre; [apply (t_on_writer seg i bw_Flush); [done | apply t_bw_Flush]|].
    intros s [Hs HP]. by exists b.
  - intros []. eapply t_pre.
    + apply (t_on_file seg i file_Sync fresh_writer (AtFile W0 i total) (λ _, SyncedFile W0 i total) (λ _, True)); [done | apply t_file_Sync].
    + intros s (b' & Hs & HP). by exists b'.
Qed.

Lemma t_seg_writes W0 seg i total cs : s_file seg = Some i →
  triple (SegP seg (BwAt W0 i total)) (seg_writes cs) (λ _, SegP seg (BwAt W0 i (total ++ mjoin cs))) (λ _, True).
Proof.
  intros Hi. revert total. induction cs as [|c cs IH]; intros total; cbn [seg_writes].
  - intros s Hs. cbn. by rewrite app_nil_r.
  - eapply t_bind; [apply (t_on_writer seg i); [done | apply t_bw_Write]|]. intros [].
    change (mjoin (c :: cs)) with (c ++ mjoin cs). rewrite app_assoc. apply IH.
Qed.

Lemma t_Segment_WriteRecord W0 seg i d p :
  s_file seg = Some i → s_closed seg = false → bad_max (s_maxRecordBytes seg) = false →
  fits (s_maxRecordBytes seg) p →
  triple (SegP seg (BwAt W0 i d)) (Segment_WriteRecord p)
         (λ _, SegP (set_bytes (s_bytes seg + (8 + Z.of_nat (length p))) seg) (BwAt W0 i (d ++ frame p))) (λ _, True).
Proof.
  intros Hi Hc Hb Hp. unfold Segment_WriteRecord. apply t_read_seg. intros b. cbn. rewrite Hc.
  rewrite WriteRecord_fits by done.
  eapply t_bind.
  - eapply t_pre; [apply (t_seg_writes W0 seg i d); done|]. intros s [Hs HP]. by exists b.
  - intros []. apply t_put. intros s (b' & Hs & HP). split; [|done]. exists b'. split; [cbn; by rewrite Hs|].
    cbn in HP. unfold frame. cbn. by rewrite app_nil_r in HP.
Qed.

Definition renamed (a b : string) (i : nat) (W : World) : World := set_dir (<[b := i]> (delete a (w_dir W))) W.

Lemma t_Seal W0 seg i d : s_file seg = Some i → s_closed seg = false → s_bytes seg = Z.of_nat (length d) →
  w_dir W0 !! s_path seg = Some i →
  triple (SegP seg (BwAt W0 i d)) Seal
         (λ _ s, same (renamed (s_path seg) (segmentName (s_index seg)) i (with_file i (mkFile d (length d)) W0)) s.2)
         (λ _, True).
Proof.
  intros Hi Hc Hb Hdir. set (W1 := renamed (s_path seg) (segmentName (s_index seg)) i (with_file i (mkFile d (length d)) W0)).
  unfold Seal. apply t_read_seg. intros b. cbn. rewrite Hc, Hb.
  eapply t_bind.
  { eapply t_pre; [apply (t_Segment_Sync W0 seg i d); done|]. intros s [Hs HP]. by exists b. }
  intros []. eapply t_bind.
  { eapply t_pre; [apply (t_on_file seg i (λ i, file_Truncate i (Z.of_nat (length d))) fresh_writer (AtFile W0 i d) (λ _, AtFile W0 i d) (λ _, True)); [done | apply t_file_Truncate]|].
    intros s (b' & Hs & Hb' & HP). cbn in Hb'. subst b'. exists fresh_writer. split_and!; [done..|]. by eexists. }
  intros []. eapply t_bind.
  { apply (t_on_file seg i file_Sync fresh_writer (AtFile W0 i d) (λ _, SyncedFile W0 i d) (λ _, True)); [done | apply t_file_Sync]. }
  intros []. eapply t_bind.
  { apply (t_on_file seg i file_Close fresh_writer (SyncedFile W0 i d) (λ _, SyncedFile W0 i d) (SyncedFile W0 i d)); [done | apply t_io]. }
  intros []. eapply t_bind with
    (R := λ _ s, s.1 = set_writer fresh_writer seg ∧
                 same W1 s.2).
  { eapply t_conseq; [apply (t_lift (set_writer fresh_writer seg)) with
      (P := same (with_file i (mkFile d (length d)) W0))
      (Q := λ _, same W1)
      (X := λ _, True) | | by intros [] ? | done].
    - unfold atomicRename. eapply t_bind; [eapply t_conseq; [apply t_io|done..]|]. intros [].
      intros W HW. unfold bindM, mget. destruct HW as [fs ->]. cbn. rewrite Hdir. cbn.
      split; [|done]. by exists fs.
    - intros s (b' & Hs & Hb' & HP). cbn in Hb'. by subst b'. }
  intros []. eapply t_bind with (R := λ _ s, same W1 s.2).
  { eapply t_conseq; [apply (t_lift (set_writer fresh_writer seg)), (t_io W1) | done | by intros [] s [] | done]. }
  intros []. eapply t_bind.
  { eapply t_put with (Q := λ s, same W1 s.2).
    done. }
  intros []. intros s HP. done.
Qed.

(** ** Abstract segments *)

Inductive ARec :=
| AUser (seq : Z) (payload : bytes)
| ALoss (l : LossRecord).

#[export] Instance ARec_eq_dec : EqDecision ARec.
Proof. solve_decision. Defined.

Record ASeg := mkASeg {
  a_idx : Z;
  a_gen : Z;
  a_flags : Z;
  a_recs : list ARec;
  a_live : bool;
}.

Definition enc (gen : Z) (r : ARec) : bytes :=
  match r with
  | AUser seq p => encodeSeqGenFrame seq gen p
  | ALoss l => encodeLossPayload l
  end.

Definition a_name (a : ASeg) : string := if a_live a then liveName (a_idx a) else segmentName (a_idx a).
Definition a_hdr (a : ASeg) : SegmentHeader := mkSegmentHeader SegmentVersion (a_flags a) (a_gen a).
Definition hdr_bytes (h : SegmentHeader) : bytes :=
  match WriteSegmentHeader h with Ok b => b | Err _ => [] end.
Definition a_payloads (a : ASeg) : list bytes := enc (a_gen a) <$> a_recs a.
Definition a_bytes (a : ASeg) : bytes := hdr_bytes (a_hdr a) ++ frames (a_payloads a).

(** The records the log writes: user sequence numbers are non-negative int64 other
    than the one that spells the sentinel. *)
Definition rec_wf (max gen : Z) (r : ARec) : Prop :=
  fits max (enc gen r) ∧
  match r with
  | AUser seq _ => 0 ≤ seq < 2 ^ 63 ∧ seq ≠ sentinel_seq
  | ALoss l => loss_wf l
  end.

Definition seg_wf (max : Z) (a : ASeg) : Prop :=
  is_index (a_idx a) ∧ is_uint 32 (a_gen a) ∧ (a_flags a = 0 ∨ a_flags a = FlagGenInit) ∧
  Forall (rec_wf max (a_gen a)) (a_recs a).

Definition a_users (a : ASeg) : list Z := omap (λ r, match r with AUser s _ => Some s | ALoss _ => None end) (a_recs a).

Lemma sentinel_seq_small : sentinel_seq < 2 ^ 63.
Proof. done. Qed.

Lemma to_uint64_small z : 0 ≤ z < 2 ^ 63 → to_uint64 z = z.
Proof. intros Hz. apply Z.mod_small. lia. Qed.

Lemma isLossMarker_enc max gen r : rec_wf max gen r →
  isLossMarker (enc gen r) = match r with AUser _ _ => false | ALoss _ => true end.
Proof.
  destruct r as [seq p|l]; cbn [enc]; intros [_ Hr].
  - destruct (isLossMarker (encodeSeqGenFrame seq gen p)) eqn:Hm; [|done]. destruct (proj1 (isLossMarker_user _ _ _) Hm) as [Hs _].
    rewrite to_uint64_small in Hs by lia. by destruct Hr.
  - apply isLossMarker_encodeLoss.
Qed.

Lemma parseSeqGen_enc max gen seq p : is_uint 32 gen → rec_wf max gen (AUser seq p) →
  parseSeqGen (enc gen (AUser seq p)) = Some (seq, gen).
Proof.
  intros Hg [_ Hr]. cbn [enc]. rewrite parseSeqGen_encode, to_uint64_small by lia.
  by rewrite Z.mod_small.
Qed.

Lemma user_seqs_enc max a : seg_wf max a → user_seqs (a_payloads a) = a_users a.
Proof.
  intros (_ & Hg & _ & Hr). unfold a_payloads, a_users. revert Hr. generalize (a_recs a).
  induction 1 as [|r l Hr _ IH]; [done|]. unfold user_seqs in *. cbn [fmap list_fmap omap list_omap].
  rewrite (isLossMarker_enc _ _ _ Hr). destruct r as [seq p|lo]; [|exact IH].
  rewrite (parseSeqGen_enc _ _ _ _ Hg Hr). cbn. by rewrite IH.
Qed.

Lemma seg_fits max a : seg_wf max a → Forall (fits max) (a_payloads a).
Proof.
  intros (_ & _ & _ & Hr). unfold a_payloads. apply Forall_fmap.
  eapply Forall_impl; [exact Hr|]. by intros r [].
Qed.

Lemma hdr_bytes_ok max a : seg_wf max a → WriteSegmentHeader (a_hdr a) = Ok (hdr_bytes (a_hdr a)).
Proof. intros (_ & _ & [Hf|Hf] & _); unfold hdr_bytes, WriteSegmentHeader; cbn; by rewrite Hf. Qed.

Lemma length_hdr_bytes max a : seg_wf max a → length (hdr_bytes (a_hdr a)) = 16%nat.
Proof. intros Ha. by eapply length_WriteSegmentHeader, hdr_bytes_ok. Qed.

Lemma a_hdr_wf max a : seg_wf max a → header_wf (a_hdr a).
Proof.
  intros (_ & Hg & Hf & _). unfold header_wf. cbn. split_and!; [done | | done].
  unfold is_uint, FlagGenInit in *. lia.
Qed.

(** Reading a segment's file: its header, then exactly its records. *)
Lemma read_a_bytes max a t : seg_wf max a →
  ReadSegmentHeader (a_bytes a ++ t) = (Ok (a_hdr a), frames (a_payloads a) ++ t).
Proof.
  intros Ha. unfold a_bytes. rewrite <- app_assoc.
  apply ReadSegmentHeader_write; [by eapply a_hdr_wf | by eapply hdr_bytes_ok].
Qed.

Lemma scan_a_bytes max a : bad_max max = false → seg_wf max a →
  Scan (frames (a_payloads a)) max = (a_payloads a, ErrEOF).
Proof. intros Hb Ha. apply Scan_exact; [done | by apply seg_fits]. Qed.

Definition a_size (a : ASeg) : Z := Z.of_nat (length (a_bytes a)).

Lemma parse_a_name a : is_index (a_idx a) → parseSegmentIndex (a_name a) = Some (a_idx a).
Proof.
  intros Hi. unfold a_name. destruct (a_live a); [by apply parseSegmentIndex_live | by apply parseSegmentIndex_sealed].
Qed.

Lemma is_sealed_a_name a : is_sealed (a_name a) = negb (a_live a).
Proof. unfold a_name. destruct (a_live a); [apply is_sealed_live | apply is_sealed_sealed]. Qed.

Lemma is_inprogress_a_name a : is_inprogress (a_name a) = a_live a.
Proof. unfold a_name. destruct (a_live a); [apply is_inprogress_live | apply is_inprogress_sealed]. Qed.

(** ** The directory *)

Notation Slots := (list (ASeg * nat)).

Definition idxs (L : Slots) : list Z := (λ x, a_idx x.1) <$> L.

(** The segments [L], each with its inode, are exactly the directory, in index
    order, every file synced. *)
Record Rep (max : Z) (W : World) (L : Slots) : Prop := mkRep {
  rep_dir : w_dir W = list_to_map ((λ x, (a_name x.1, x.2)) <$> L);
  rep_sorted : StronglySorted Z.lt (idxs L);
  rep_inodes : NoDup (L.*2);
  rep_files : Forall (λ x, w_inodes W !! x.2 = Some (mkFile (a_bytes x.1) (length (a_bytes x.1)))) L;
  rep_next : Forall (λ x, (x.2 < w_next W)%nat) L;
  rep_wf : Forall (λ x, seg_wf max x.1) L;
}.

Lemma Rep_same max W W' L : same W W' → Rep max W L → Rep max W' L.
Proof. intros [fs ->] []. by constructor. Qed.

Lemma idxs_app L1 L2 : idxs (L1 ++ L2) = idxs L1 ++ idxs L2.
Proof. apply fmap_app. Qed.

Lemma StronglySorted_lt_NoDup l : StronglySorted Z.lt l → NoDup l.
Proof.
  induction 1 as [|x l _ IH Hx]; constructor; [|done].
  intros Hin. rewrite Forall_forall in Hx. specialize (Hx x Hin). lia.
Qed.

Lemma Rep_idx_NoDup max W L : Rep max W L → NoDup (idxs L).
Proof. intros HR. apply StronglySorted_lt_NoDup, HR. Qed.

Lemma sorted_cons x L : StronglySorted Z.lt (idxs (x :: L)) ↔
  StronglySorted Z.lt (idxs L) ∧ Forall (λ y, a_idx x.1 < a_idx y.1) L.
Proof.
  unfold idxs. change ((λ x : ASeg * nat, a_idx x.1) <$> x :: L) with (a_idx x.1 :: ((λ x : ASeg * nat, a_idx x.1) <$> L)).
  rewrite StronglySorted_cons, Forall_fmap. tauto.
Qed.

(** Names are pairwise different. *)
Lemma Rep_names_NoDup max W L : Rep max W L → NoDup ((λ x : ASeg * nat, a_name x.1) <$> L).
Proof.
  intros HR. pose proof (Rep_idx_NoDup _ _ _ HR) as Hnd. destruct HR as [_ _ _ _ _ Hwf]. clear W.
  induction L as [|x L IH]; [constructor|]. inversion Hnd as [|?? Hx Hnd']; subst.
  inversion Hwf as [|?? Hxw Hwf']; subst. cbn. constructor; [|by apply IH].
  intros (y & Hy & Hin)%list_elem_of_fmap. apply Hx. apply list_elem_of_fmap. exists y. split; [|done].
  rewrite Forall_forall in Hwf'. specialize (Hwf' y Hin).
  apply (f_equal parseSegmentIndex) in Hy. rewrite !parse_a_name in Hy by (apply Hxw || apply Hwf'). by injection Hy.
Qed.

Lemma Rep_lookup max W L x : Rep max W L → x ∈ L → w_dir W !! a_name x.1 = Some x.2.
Proof.
  intros HR Hx. rewrite (rep_dir _ _ _ HR). apply elem_of_list_to_map.
  - rewrite <- list_fmap_compose. exact (Rep_names_NoDup _ _ _ HR).
  - apply list_elem_of_fmap. by exists x.
Qed.

Lemma Rep_data max W L x : Rep max W L → x ∈ L → data_of W x.2 = a_bytes x.1.
Proof.
  intros HR Hx. pose proof (rep_files _ _ _ HR) as Hf. rewrite Forall_forall in Hf.
  unfold data_of, file_of. by rewrite (Hf x Hx).
Qed.

Lemma Rep_wf max W L x : Rep max W L → x ∈ L → seg_wf max x.1.
Proof. intros HR Hx. pose proof (rep_wf _ _ _ HR) as Hf. rewrite Forall_forall in Hf. by apply Hf. Qed.

Lemma Rep_dom max W L : Rep max W L → elements (dom (w_dir W)) ≡ₚ (λ x, a_name x.1) <$> L.
Proof.
  intros HR. rewrite (rep_dir _ _ _ HR). rewrite dom_list_to_map. rewrite <- list_fmap_compose.
  apply elements_list_to_set. exact (Rep_names_NoDup _ _ _ HR).
Qed.

(** ** Triples for calls on a represented directory *)

Definition stable (P : World → Prop) : Prop := ∀ W W', same W W' → P W → P W'.

Lemma stable_Rep max L : stable (λ W, Rep max W L).
Proof. intros W W'. apply Rep_same. Qed.

Lemma t_io_stable P : stable P → triple P io (λ _, P) P.
Proof.
  intros HP W HW. pose proof (t_io W W (same_refl W)) as Ht. destruct (io W) as [[[]|e] W'].
  - destruct Ht. split; [by eapply HP | done].
  - destruct Ht. split; [by eapply HP | done].
Qed.

(** The oracle is known to be exhausted when [nf] is true. *)
Definition NF {S} `{HasFaults S} (nf : bool) (s : S) : Prop := nf = true → faults_of s = [].

Lemma t_nf {S E A} `{HasFaults S} nf P (m : M S E A) Q X : triple P m Q X →
  triple (λ s, P s ∧ NF nf s) m (λ a s, Q a s ∧ NF nf s) (λ s, X s ∧ nf = false).
Proof.
  intros Hm s [Hs Hn]. specialize (Hm s Hs). destruct (m s) as [[a|e] s'].
  - destruct Hm as [HQ Hf]. split; [|done]. split; [done|]. intros Ht. by apply Hf, Hn.
  - destruct Hm as [HX Hf]. split; [|done]. split; [done|]. destruct nf; [|done]. by destruct Hf; apply Hn.
Qed.

Section represented.
Context (max : Z) (Hmax : bad_max max = false).

Lemma t_os_Open L x : x ∈ L →
  triple (λ W, Rep max W L) (os_Open (a_name x.1)) (λ f W, f = x.2 ∧ Rep max W L) (λ W, Rep max W L).
Proof.
  intros Hx. unfold os_Open. eapply t_bind; [apply t_io_stable, stable_Rep|]. intros [].
  intros W HR. unfold bindM, mget. by rewrite (Rep_lookup _ _ _ _ HR Hx).
Qed.

Lemma t_os_Stat L x : x ∈ L →
  triple (λ W, Rep max W L) (os_Stat (a_name x.1)) (λ n W, n = a_size x.1 ∧ Rep max W L) (λ W, Rep max W L).
Proof.
  intros Hx. unfold os_Stat. eapply t_bind; [by apply t_os_Open|]. intros f. apply t_pure. intros ->.
  intros W HR. unfold mget. rewrite (Rep_data _ _ _ _ HR Hx). done.
Qed.

Lemma t_os_ReadDir L :
  triple (λ W, Rep max W L) os_ReadDir (λ names W, names ≡ₚ (λ x, a_name x.1) <$> L ∧ Rep max W L) (λ W, Rep max W L).
Proof.
  unfold os_ReadDir. eapply t_bind; [apply t_io_stable, stable_Rep|]. intros [].
  intros W HR. unfold mget. split; [|done]. split; [|done].
  rewrite SliceStable_perm. by apply Rep_dom with max.
Qed.

Definition slot_entry (x : ASeg * nat) : segmentEntry := mkEntry (a_name x.1) (a_idx x.1).

Lemma omap_entry_of L : Forall (λ x, seg_wf max x.1) L →
  omap entry_of ((λ x, a_name x.1) <$> L) = slot_entry <$> L.
Proof.
  induction 1 as [|x L Hx _ IH]; [done|]. cbn [fmap list_fmap omap list_omap]. unfold entry_of at 1.
  rewrite parse_a_name by apply Hx. cbn. by f_equal.
Qed.

Lemma filter_fmap_bool {A B} (f : A → B) (p : B → bool) l : List.filter p (f <$> l) = f <$> List.filter (λ x, p (f x)) l.
Proof. induction l as [|x l IH]; [done|]. cbn. destruct (p (f x)); cbn; by rewrite IH. Qed.

Lemma Forall_filter_bool {A} (P : A → Prop) (p : A → bool) l : Forall P l → Forall P (List.filter p l).
Proof. induction 1 as [|x l Hx _ IH]; [done|]. cbn. destruct (p x); [by constructor | done]. Qed.

Lemma filter_sorted (p : ASeg * nat → bool) L : StronglySorted Z.lt (idxs L) → StronglySorted Z.lt (idxs (List.filter p L)).
Proof.
  induction L as [|x L IH]; [done|]. intros [Hs Hx]%sorted_cons. cbn [List.filter].
  destruct (p x); [|by apply IH]. apply sorted_cons. split; [by apply IH|]. by apply Forall_filter_bool.
Qed.

Lemma StronglySorted_mono {A} (R R' : A → A → Prop) l : (∀ x y, R x y → R' x y) → StronglySorted R l → StronglySorted R' l.
Proof. intros Himp. induction 1 as [|x l _ IH Hx]; constructor; [done|]. eapply Forall_impl; eauto. Qed.

(** A listing, filtered by name and sorted by index, is the list of the segments
    it selects. *)
Lemma entries_where_Rep p W L names : Rep max W L → names ≡ₚ (λ x, a_name x.1) <$> L →
  entries_where p names = slot_entry <$> List.filter (λ x, p (a_name x.1)) L.
Proof.
  intros HR Hp. unfold entries_where, by_idx. set (F := List.filter (λ x, p (a_name x.1)) L).
  assert (HF : Forall (λ x, seg_wf max x.1) F) by apply Forall_filter_bool, HR.
  assert (Hperm : omap entry_of (List.filter p names) ≡ₚ slot_entry <$> F).
  { rewrite <- omap_entry_of by done. unfold F.
    rewrite <- (filter_fmap_bool (λ x : ASeg * nat, a_name x.1) p L). by rewrite (filter_bool_perm p _ _ Hp). }
  assert (Hlt : StronglySorted Z.lt (idxs F)) by apply filter_sorted, HR.
  apply (StronglySorted_unique_strong (λ a b, e_idx a ≤ e_idx b)).
  - intros e1 e2 H1 H2 Hle Hge. rewrite SliceStable_perm, Hperm in H1.
    apply list_elem_of_fmap in H1 as (x & -> & Hx). apply list_elem_of_fmap in H2 as (y & -> & Hy).
    cbn in Hle, Hge. f_equal.
    apply (NoDup_fmap_inj_elem (λ x : ASeg * nat, a_idx x.1) F); [|done..|cbn; lia].
    by apply StronglySorted_lt_NoDup.
  - eapply StronglySorted_mono; [|apply SliceStable_sorted]; cbn; intros; lia.
  - clear -Hlt. induction F as [|x F IH]; [constructor|].
    apply sorted_cons in Hlt as [Hs Hx]. cbn. constructor; [by apply IH|].
    apply Forall_fmap. eapply Forall_impl; [exact Hx|]. cbn. intros. lia.
  - by rewrite SliceStable_perm.
Qed.

Definition sealed_of (L : Slots) : Slots := List.filter (λ x, negb (a_live x.1)) L.

Lemma filter_ext_bool {A} (p q : A → bool) l : (∀ x, p x = q x) → List.filter p l = List.filter q l.
Proof. intros Hpq. induction l as [|x l IH]; [done|]. cbn. by rewrite Hpq, IH. Qed.

Lemma t_list_sealed L :
  triple (λ W, Rep max W L) list_sealed (λ es W, es = slot_entry <$> sealed_of L ∧ Rep max W L) (λ W, Rep max W L).
Proof.
  unfold list_sealed. eapply t_bind; [apply t_os_ReadDir|]. intros names. apply t_pure. intros Hn.
  intros W HR. split; [|done]. split; [|done]. rewrite (entries_where_Rep _ _ _ _ HR Hn).
  f_equal. apply filter_ext_bool. intros x. apply is_sealed_a_name.
Qed.

(** *** Scanning *)

Definition users_max (hi : Z) (us : list Z) : Z := fold_left (λ hi s, if hi <? s then s else hi) us hi.

Definition scan_of (a : ASeg) : SegScan :=
  mkSegScan (users_max 0 (a_users a)) (negb (bool_decide (a_users a = []))) (a_gen a)
            (negb (bool_decide (a_recs a = []))).

Lemma scan_fold gen rs hi u any : is_uint 32 gen → Forall (rec_wf max gen) rs →
  fold_left scan_step (enc gen <$> rs) (mkSegScan hi u gen any) =
  let us := omap (λ r, match r with AUser s _ => Some s | ALoss _ => None end) rs in
  mkSegScan (users_max hi us) (u || negb (bool_decide (us = []))) gen (any || negb (bool_decide (rs = []))).
Proof.
  intros Hg Hr. revert hi u any. induction Hr as [|r rs Hr _ IH]; intros hi u any.
  { cbn. by rewrite !orb_false_r. }
  cbn [fmap list_fmap fold_left]. unfold scan_step at 2. rewrite (isLossMarker_enc _ _ _ Hr).
  destruct r as [seq p|l].
  - rewrite (parseSeqGen_enc _ _ _ _ Hg Hr). cbn [sc_hiSeq sc_hasUser sc_gen sc_hasAny]. rewrite IH.
    cbn. by rewrite !orb_true_r.
  - rewrite IH. cbn. by rewrite !orb_true_r.
Qed.

Lemma t_segmentHigh L x : x ∈ L →
  triple (λ W, Rep max W L) (segmentHighSeqAndGen (a_name x.1) max)
         (λ sc W, sc = scan_of x.1 ∧ Rep max W L) (λ W, Rep max W L).
Proof.
  intros Hx. unfold segmentHighSeqAndGen. eapply t_bind; [by apply t_os_Open|]. intros f.
  apply t_pure. intros ->. intros W HR. unfold bindM at 1, mget. rewrite (Rep_data _ _ _ _ HR Hx).
  pose proof (Rep_wf _ _ _ _ HR Hx) as Hwf.
  rewrite <- (app_nil_r (a_bytes x.1)), (read_a_bytes max) by done. rewrite app_nil_r, (scan_a_bytes max) by done.
  split; [|done]. split; [|done]. unfold scan_of, a_users. cbn [fst a_hdr sh_Generation].
  destruct Hwf as (_ & Hg & _ & Hr). unfold a_payloads. by rewrite scan_fold.
Qed.

(** *** Removing and creating files *)

Lemma Forall_mid {A} (P : A → Prop) l1 x l2 : Forall P (l1 ++ x :: l2) → Forall P (l1 ++ l2).
Proof. rewrite !Forall_app, Forall_cons. tauto. Qed.

Lemma Rep_remove W L1 x L2 : Rep max W (L1 ++ x :: L2) →
  Rep max (set_dir (delete (a_name x.1) (w_dir W)) W) (L1 ++ L2).
Proof.
  intros HR. pose proof (Rep_names_NoDup _ _ _ HR) as Hnd.
  assert (Hsub : L1 ++ L2 `sublist_of` L1 ++ x :: L2) by (apply sublist_app; [done | by apply sublist_cons]).
  constructor; cbn.
  - rewrite (rep_dir _ _ _ HR), !fmap_app, fmap_cons.
    rewrite fmap_app, fmap_cons in Hnd. apply NoDup_app in Hnd as (_ & Hdis & Hnd). apply NoDup_cons in Hnd as [Hx2 _].
    rewrite !list_to_map_app, list_to_map_cons.
    rewrite delete_union, delete_insert_eq.
    rewrite !delete_id; [done | |]; apply not_elem_of_list_to_map; rewrite <- list_fmap_compose.
    + exact Hx2.
    + intros Hin. apply (Hdis _ Hin). apply elem_of_cons. by left.
  - destruct HR as [_ Hs _ _ _ _]. rewrite idxs_app in *. apply StronglySorted_app in Hs as (H1 & H2 & H3).
    apply sorted_cons in H3 as [H3 _]. apply StronglySorted_app. split_and!; [|done..].
    intros a b Ha Hb. apply H1; [done|]. apply elem_of_cons. by right.
  - eapply sublist_NoDup; [exact (rep_inodes _ _ _ HR) | by apply fmap_sublist].
  - apply (Forall_mid _ _ x), HR.
  - apply (Forall_mid _ _ x), HR.
  - apply (Forall_mid _ _ x), HR.
Qed.

Lemma t_os_Remove L1 x L2 :
  triple (λ W, Rep max W (L1 ++ x :: L2)) (os_Remove (a_name x.1)) (λ _ W, Rep max W (L1 ++ L2)) (λ W, Rep max W (L1 ++ x :: L2)).
Proof.
  unfold os_Remove. eapply t_bind; [apply t_io_stable, stable_Rep|]. intros [].
  intros W HR. unfold bindM, mget.
  rewrite (Rep_lookup _ _ _ x HR) by (apply elem_of_app; right; apply elem_of_cons; by left).
  split; [|done]. by apply Rep_remove.
Qed.

Lemma Rep_snoc W W' L x : Rep max W L →
  w_dir W' = <[a_name x.1 := x.2]> (w_dir W) →
  (∀ i, i ≠ x.2 → w_inodes W' !! i = w_inodes W !! i) →
  w_inodes W' !! x.2 = Some (mkFile (a_bytes x.1) (length (a_bytes x.1))) →
  (w_next W ≤ w_next W')%nat → (x.2 < w_next W')%nat →
  Forall (λ y, a_idx y.1 < a_idx x.1) L → x.2 ∉ L.*2 → seg_wf max x.1 →
  Rep max W' (L ++ [x]).
Proof.
  intros HR Hdir Hino Hx Hnx Hxn Hidx Hfresh Hwf. constructor.
  - rewrite Hdir, (rep_dir _ _ _ HR), fmap_app.
    change ((λ x : ASeg * nat, (a_name x.1, x.2)) <$> [x]) with [(a_name x.1, x.2)].
    rewrite list_to_map_snoc; [done|].
    rewrite <- list_fmap_compose. cbn. intros (y & Hy & Hin)%list_elem_of_fmap.
    pose proof (Rep_wf _ _ _ _ HR Hin) as Hyw. rewrite Forall_forall in Hidx. specialize (Hidx y Hin).
    cbn in Hy. apply (f_equal parseSegmentIndex) in Hy.
    rewrite !parse_a_name in Hy by (apply Hyw || apply Hwf). injection Hy. lia.
  - rewrite idxs_app. apply StronglySorted_app. split_and!; [|apply HR | repeat constructor].
    intros a b (y & -> & Hy)%list_elem_of_fmap Hb. apply list_elem_of_singleton in Hb as ->.
    rewrite Forall_forall in Hidx. by apply Hidx.
  - rewrite fmap_app. apply NoDup_app. split_and!; [apply HR | | apply NoDup_singleton].
    intros i Hi ->%list_elem_of_singleton. done.
  - apply Forall_app. split; [|by constructor]. pose proof (rep_files _ _ _ HR) as Hf.
    rewrite Forall_forall in *. intros y Hy. rewrite Hino; [by apply Hf|].
    intros Heq. apply Hfresh. apply list_elem_of_fmap. by exists y.
  - apply Forall_app. split; [|by constructor]. eapply Forall_impl; [exact (rep_next _ _ _ HR)|]. cbn. intros. lia.
  - apply Forall_app. split; [apply HR | by constructor].
Qed.

Lemma Rep_fresh W L : Rep max W L → w_next W ∉ L.*2.
Proof.
  intros HR (y & Hy & Hin)%list_elem_of_fmap. pose proof (rep_next _ _ _ HR) as Hn.
  rewrite Forall_forall in Hn. specialize (Hn y Hin). lia.
Qed.

Definition fresh_seg (idx gen flags : Z) : ASeg := mkASeg idx gen flags [] true.
Definition seg_of (a : ASeg) (i : nat) : Segment :=
  mkSegment (a_idx a) (a_gen a) (a_name a) (Some i) fresh_writer (a_size a) max false.

Lemma t_OpenSegment L idx gen flags :
  is_index idx → is_uint 32 gen → (flags = 0 ∨ flags = FlagGenInit) → Forall (λ y, a_idx y.1 < idx) L →
  triple (λ W, Rep max W L) (OpenSegment idx (mkSegmentHeader SegmentVersion flags gen) max)
    (λ s W, ∃ i, s = seg_of (fresh_seg idx gen flags) i ∧ Rep max W (L ++ [(fresh_seg idx gen flags, i)]))
    (λ _, True).
Proof.
  intros Hi Hg Hfl Hidx. set (a := fresh_seg idx gen flags).
  assert (Hwf : seg_wf max a) by (split_and!; [done..|constructor]).
  unfold OpenSegment. rewrite Hmax. change (mkSegmentHeader SegmentVersion flags gen) with (a_hdr a).
  rewrite (hdr_bytes_ok max) by done. change (segmentName idx +:+ inProgressSuffix) with (a_name a).
  set (h := hdr_bytes (a_hdr a)).
  assert (Hbytes : a_bytes a = h) by (unfold a_bytes; cbn; apply app_nil_r).
  eapply t_bind with (R := λ i W, ∃ W0, Rep max W0 L ∧ i = w_next W0 ∧
    AtFile (mkWorld (w_inodes W0) (<[a_name a := i]> (w_dir W0)) (S i) (w_meta W0) (w_faults W0)) i [] W).
  { unfold os_Create. eapply t_bind; [eapply t_conseq; [apply t_io_stable, (stable_Rep max L) | done..]|]. intros [].
    intros W HR. unfold bindM, mget. destruct (w_dir W !! a_name a) eqn:Hd.
    - exfalso. rewrite (rep_dir _ _ _ HR) in Hd. apply elem_of_list_to_map_2 in Hd.
      apply list_elem_of_fmap in Hd as (y & [= Hn _] & Hy). pose proof (Rep_wf _ _ _ _ HR Hy) as Hyw.
      rewrite Forall_forall in Hidx. specialize (Hidx y Hy).
      apply (f_equal parseSegmentIndex) in Hn. rewrite !parse_a_name in Hn by (apply Hyw || apply Hwf).
      injection Hn as Hn. cbn in Hn. lia.
    - split; [|done]. exists W. split_and!; [done..|]. exists 0%nat, (w_faults W). done. }
  intros i. apply t_exists. intros W0. apply t_pure. intros HR. apply t_pure. intros ->. set (i := w_next W0).
  set (W1 := mkWorld _ _ _ _ _).
  apply t_try_abort with (Q := λ b W, b = fresh_writer ∧ AtFile W1 i h W) (X := λ _, True).
  { intros W HW. unfold with_writer.
    assert (Ht : triple (BwAt W1 i []) (do* bw_Write i h in bw_Flush i) (λ _, Flushed W1 i h) (λ _, True)).
    { eapply t_bind; [apply t_bw_Write|]. intros []. apply t_bw_Flush. }
    assert (Hpre : BwAt W1 i [] (fresh_writer, W)) by (split; [done|]; by exists []).
    specialize (Ht _ Hpre). destruct ((do* bw_Write i h in bw_Flush i) (fresh_writer, W)) as [[[]|e] [b W']]; cbn in *; [|done].
    destruct Ht as [[Hb HW'] Hf]. done. }
  { intros e W _. by do 2 eexists. }
  intros b. apply t_pure. intros ->.
  apply t_try_abort with (Q := λ _, SyncedFile W1 i h) (X := λ _, True).
  { eapply t_bind; [apply t_file_Sync|]. intros []. eapply t_conseq; [apply t_io | done..]. }
  { intros e W _. by do 2 eexists. }
  intros [] W HW. split; [|done]. exists i. split.
  { unfold seg_of, a_size. rewrite Hbytes. unfold h. by rewrite (length_hdr_bytes max). }
  eapply Rep_same; [exact HW|]. apply (Rep_snoc W0); cbn; try done.
  - intros j Hj. by rewrite lookup_insert_ne.
  - rewrite lookup_insert_eq. by rewrite Hbytes.
  - lia.
  - lia.
  - by apply Rep_fresh.
Qed.

(** *** The last segment *)

Lemma last_idx W L x : Rep max W (L ++ [x]) → Forall (λ y, a_idx y.1 < a_idx x.1) L.
Proof.
  intros HR. pose proof (rep_sorted _ _ _ HR) as Hs. rewrite idxs_app in Hs.
  apply StronglySorted_app in Hs as (Hlt & _ & _). apply Forall_forall. intros y Hy.
  apply Hlt; [apply list_elem_of_fmap; by exists y | apply list_elem_of_fmap; exists x]. by rewrite list_elem_of_singleton.
Qed.

Lemma Rep_replace_last W W' L a a' i : Rep max W (L ++ [(a, i)]) → a_idx a' = a_idx a → seg_wf max a' →
  w_dir W' = <[a_name a' := i]> (delete (a_name a) (w_dir W)) →
  w_inodes W' = <[i := mkFile (a_bytes a') (length (a_bytes a'))]> (w_inodes W) →
  w_next W' = w_next W → Rep max W' (L ++ [(a', i)]).
Proof.
  intros HR Hidx Hwf Hdir Hino Hnext. pose proof (Rep_remove W L (a, i) [] HR) as HR0.
  rewrite app_nil_r in HR0. eapply (Rep_snoc _ W' L (a', i)); cbn.
  - exact HR0.
  - exact Hdir.
  - intros j Hj. rewrite Hino. by rewrite lookup_insert_ne.
  - rewrite Hino. apply lookup_insert_eq.
  - by rewrite Hnext.
  - rewrite Hnext. pose proof (rep_next _ _ _ HR) as Hn. apply Forall_app in Hn as [_ Hn]. by inversion Hn.
  - rewrite Hidx. exact (last_idx _ _ _ HR).
  - pose proof (rep_inodes _ _ _ HR) as Hnd. rewrite fmap_app in Hnd. apply NoDup_app in Hnd as (_ & Hd & _).
    intros Hi. apply (Hd _ Hi). cbn. by apply list_elem_of_singleton.
  - done.
Qed.

Definition add_rec (r : ARec) (a : ASeg) : ASeg :=
  mkASeg (a_idx a) (a_gen a) (a_flags a) (a_recs a ++ [r]) (a_live a).
Definition seal_seg (a : ASeg) : ASeg := mkASeg (a_idx a) (a_gen a) (a_flags a) (a_recs a) false.

Lemma a_bytes_add_rec r a : a_bytes (add_rec r a) = a_bytes a ++ frame (enc (a_gen a) r).
Proof. unfold a_bytes, a_payloads. cbn [add_rec a_recs a_gen]. rewrite fmap_app. by rewrite (frames_snoc _ (enc (a_gen a) r)), app_assoc. Qed.

Lemma seg_wf_add_rec r a : seg_wf max a → rec_wf max (a_gen a) r → seg_wf max (add_rec r a).
Proof. intros (Hi & Hg & Hf & Hr) Hrec. split_and!; [done..|]. apply Forall_app. split; [done | by constructor]. Qed.

Lemma dir_last W L x : Rep max W (L ++ [x]) → w_dir W !! a_name x.1 = Some x.2.
Proof. intros HR. apply (Rep_lookup _ _ _ _ HR). apply elem_of_app. right. by apply list_elem_of_singleton. Qed.

Lemma Rep_add_rec W L a i r : Rep max W (L ++ [(a, i)]) → rec_wf max (a_gen a) r →
  Rep max (with_file i (mkFile (a_bytes (add_rec r a)) (length (a_bytes (add_rec r a)))) W) (L ++ [(add_rec r a, i)]).
Proof.
  intros HR Hr. eapply Rep_replace_last; [exact HR | done | | | done | done].
  - apply seg_wf_add_rec; [|done]. apply (Rep_wf _ _ _ (a, i) HR), elem_of_app. right. by apply list_elem_of_singleton.
  - cbn. symmetry. apply insert_delete_id. exact (dir_last _ _ _ HR).
Qed.

Lemma Rep_seal W L a i : Rep max W (L ++ [(a, i)]) → a_live a = true →
  Rep max (renamed (a_name a) (segmentName (a_idx a)) i (with_file i (mkFile (a_bytes a) (length (a_bytes a))) W))
      (L ++ [(seal_seg a, i)]).
Proof.
  intros HR Hl. eapply Rep_replace_last; [exact HR | done | | done | done | done].
  pose proof (Rep_wf _ _ _ (a, i) HR) as Hwf. apply Hwf, elem_of_app. right. by apply list_elem_of_singleton.
Qed.

(** The segment object of the live file, and what the segment methods do to it. *)
Lemma SyncedFile_Rep W L a i : Rep max W (L ++ [(a, i)]) → AtFile W i (a_bytes a) W.
Proof.
  intros HR. pose proof (rep_files _ _ _ HR) as Hf. apply Forall_app in Hf as [_ Hf]. inversion Hf as [|? ? Hi _]; subst.
  cbn in Hi. exists (length (a_bytes a)), (w_faults W). unfold with_file, set_inodes, set_faults.
  rewrite insert_id by done. by destruct W.
Qed.

Lemma t_write_record L a i r : rec_wf max (a_gen a) r →
  triple (λ s, s.1 = seg_of a i ∧ Rep max s.2 (L ++ [(a, i)])) (Segment_WriteRecord (enc (a_gen a) r))
         (λ _ s, ∃ W0, Rep max W0 (L ++ [(a, i)]) ∧
                       SegP (seg_of (add_rec r a) i) (BwAt W0 i (a_bytes (add_rec r a))) s) (λ _, True).
Proof.
  intros Hr [s W] [Hs HR]. cbn in Hs, HR. subst s.
  pose proof (t_Segment_WriteRecord W (seg_of a i) i (a_bytes a) (enc (a_gen a) r)
                eq_refl eq_refl Hmax (proj1 Hr)) as Ht.
  assert (Hpre : SegP (seg_of a i) (BwAt W i (a_bytes a)) (seg_of a i, W)).
  { exists fresh_writer. split; [done|]. split; [done|]. exists (a_bytes a). cbn. rewrite app_nil_r.
    split; [done|]. by eapply SyncedFile_Rep. }
  specialize (Ht _ Hpre). destruct (Segment_WriteRecord _ _) as [[[]|e] s']; [|tauto].
  destruct Ht as [HQ Hf]. split; [|exact Hf]. exists W. split; [done|].
  rewrite a_bytes_add_rec. destruct HQ as (b & Hs' & HB). exists b. split; [|done]. rewrite Hs'.
  unfold seg_of, set_bytes, set_writer, a_size. cbn. f_equal. rewrite a_bytes_add_rec, length_app, length_frame. lia.
Qed.

Lemma t_sync_record L a i r : rec_wf max (a_gen a) r →
  triple (λ s, ∃ W0, Rep max W0 (L ++ [(a, i)]) ∧ SegP (seg_of (add_rec r a) i) (BwAt W0 i (a_bytes (add_rec r a))) s)
         Segment_Sync
         (λ _ s, s.1 = seg_of (add_rec r a) i ∧ Rep max s.2 (L ++ [(add_rec r a, i)])) (λ _, True).
Proof.
  intros Hr. apply t_exists. intros W0. apply t_pure. intros HR.
  eapply t_post; [by apply (t_Segment_Sync W0 (seg_of (add_rec r a) i) i)|].
  intros [] s (b & Hs & Hb & HW). cbn in Hb. subst b. split; [exact Hs|]. eapply Rep_same; [exact HW|]. by apply Rep_add_rec.
Qed.

Lemma t_seal L a i : a_live a = true →
  triple (λ s, s.1 = seg_of a i ∧ Rep max s.2 (L ++ [(a, i)])) Seal
         (λ _ s, Rep max s.2 (L ++ [(seal_seg a, i)])) (λ _, True).
Proof.
  intros Hl [s W] [Hs HR]. cbn in Hs, HR. subst s.
  pose proof (t_Seal W (seg_of a i) i (a_bytes a) eq_refl eq_refl eq_refl (dir_last _ _ _ HR)) as Ht.
  assert (Hpre : SegP (seg_of a i) (BwAt W i (a_bytes a)) (seg_of a i, W)).
  { exists fresh_writer. split; [done|]. split; [done|]. exists (a_bytes a). cbn. rewrite app_nil_r.
    split; [done|]. by eapply SyncedFile_Rep. }
  specialize (Ht _ Hpre). destruct (Seal _) as [[p|e] s']; [|tauto].
  destruct Ht as [HQ Hf]. split; [|exact Hf]. eapply Rep_same; [exact HQ|]. by apply Rep_seal.
Qed.
End represented.
