(* ===== verification/WalSpec.v ===== *)
(** * What the write-ahead log promises

    The abstract log is a list of segments with their records (WalInv). This file
    states and proves what the operations of wal.go do to it: an append that returns
    success has made its record durable and has lost no record silently,
    acknowledgement removes only acknowledged records, an ambiguous failure latches
    the log, recovery after a crash brings back exactly the records that were
    written. *)

From S2P Require Import Prelude WalFrame WalFs Wal WalInv.
Open Scope Z_scope.

(** ** State invariant *)

Record AckMark := mkAck { ak_present : bool; ak_gen : Z; ak_seq : Z }.

(** The receiver has record [(gen, seq)]. *)
Definition acked (k : AckMark) (gen seq : Z) : Prop :=
  ak_present k = true ∧ (gen < ak_gen k ∨ (gen = ak_gen k ∧ seq ≤ ak_seq k)).

Definition ack_of (w : WAL) : AckMark := mkAck (w_ackPresent w) (w_ackHighGen w) (w_ackHighSeq w).

Definition is_sealed_slot (x : ASeg * nat) : Prop := a_live x.1 = false.

(** The live segment is the last slot of the directory, all others are sealed. *)
Definition Live (max : Z) (c : option Segment) (L : Slots) : Prop :=
  match c with
  | None => Forall is_sealed_slot L
  | Some seg => ∃ L0 a i, L = L0 ++ [(a, i)] ∧ Forall is_sealed_slot L0 ∧ a_live a = true ∧ seg = seg_of max a i
  end.

Definition disk_bytes (L : Slots) : Z := foldr (λ x n, a_size x.1 + n) 0 L.

(** The log holds record [r] in a segment of generation [gen]. *)
Definition has_rec (L : Slots) (gen : Z) (r : ARec) : Prop := ∃ x, x ∈ L ∧ a_gen x.1 = gen ∧ r ∈ a_recs x.1.

Lemma has_rec_app L1 L2 g r : has_rec (L1 ++ L2) g r ↔ has_rec L1 g r ∨ has_rec L2 g r.
Proof.
  unfold has_rec. split.
  - intros (x & [Hx|Hx]%elem_of_app & H); [left | right]; by exists x.
  - intros [(x & Hx & H) | (x & Hx & H)]; exists x; split; try done; apply elem_of_app; tauto.
Qed.

Lemma has_rec_single x g r : has_rec [x] g r ↔ a_gen x.1 = g ∧ r ∈ a_recs x.1.
Proof.
  unfold has_rec. split; [by intros (y & ->%list_elem_of_singleton & H)|].
  intros H. exists x. split; [by apply list_elem_of_singleton | done].
Qed.

(** ** The index of the log

    [perGenDataHighWater] and [perGenAnyReplayable] answer for the segments without
    reading them. *)

(** The user sequence numbers of generation [g], in log order. *)
Definition gen_users (g : Z) (L : Slots) : list Z :=
  mjoin ((λ x : ASeg * nat, if a_gen x.1 =? g then a_users x.1 else []) <$> L).

(** The maps cover every record of [L]; generations and, within each of them, sequence
    numbers do not decrease along the log, and [top] bounds the generations. *)
Record Counted (top : Z) (L : Slots) (w : WAL) : Prop := mkCounted {
  ct_order : ∀ g, StronglySorted Z.le (gen_users g L);
  ct_gens : StronglySorted Z.le ((λ x : ASeg * nat, a_gen x.1) <$> L);
  ct_top : Forall (λ x, a_gen x.1 ≤ top) L;
  ct_data : ∀ x q, x ∈ L → q ∈ a_users x.1 → ∃ h, w_perGenDataHighWater w !! a_gen x.1 = Some h ∧ q ≤ h;
  ct_any : ∀ x, x ∈ L → a_recs x.1 ≠ [] → a_gen x.1 ∈ w_perGenAnyReplayable w;
}.

Lemma gen_users_app g L1 L2 : gen_users g (L1 ++ L2) = gen_users g L1 ++ gen_users g L2.
Proof. unfold gen_users. by rewrite fmap_app, join_app. Qed.

Lemma gen_users_single g x : gen_users g [x] = if a_gen x.1 =? g then a_users x.1 else [].
Proof. unfold gen_users. cbn. by rewrite app_nil_r. Qed.

Lemma gen_users_elem g L q : q ∈ gen_users g L ↔ ∃ x, x ∈ L ∧ a_gen x.1 = g ∧ q ∈ a_users x.1.
Proof.
  unfold gen_users. rewrite list_elem_of_join. split.
  - intros (l & Hq & (x & -> & Hx)%list_elem_of_fmap). exists x. destruct (Z.eqb_spec (a_gen x.1) g); [done|].
    by apply not_elem_of_nil in Hq.
  - intros (x & Hx & Hg & Hq). eexists. split; [|apply list_elem_of_fmap; exists x; done].
    by rewrite (proj2 (Z.eqb_eq _ _) Hg).
Qed.

Lemma sorted_sublist (l l' : list Z) : l' `sublist_of` l → StronglySorted Z.le l → StronglySorted Z.le l'.
Proof.
  induction 1 as [|x l1 l2 Hsub IH|x l1 l2 Hsub IH]; intros Hs; [done | |].
  - inversion Hs as [|?? Hs' Hx]; subst. constructor; [by apply IH|]. apply Forall_forall. intros y Hy.
    rewrite Forall_forall in Hx. by apply Hx, (elem_of_sublist _ _ _ Hy).
  - inversion Hs; subst. by apply IH.
Qed.

Lemma gen_users_sublist g L L' : L' `sublist_of` L → gen_users g L' `sublist_of` gen_users g L.
Proof.
  unfold gen_users. induction 1 as [|x l1 l2 Hsub IH|x l1 l2 Hsub IH]; cbn; [done | by apply sublist_app | by apply sublist_inserts_l].
Qed.

Lemma Counted_sublist top L L' w : L' `sublist_of` L → Counted top L w → Counted top L' w.
Proof.
  intros Hs [Ho Hg Ht Hd Ha]. constructor.
  - intros g. eapply sorted_sublist; [by apply gen_users_sublist | apply Ho].
  - eapply sorted_sublist; [|exact Hg]. clear -Hs. induction Hs; cbn; [constructor | by apply sublist_skip | by apply sublist_cons].
  - apply Forall_forall. intros x Hx. rewrite Forall_forall in Ht. by apply Ht, (elem_of_sublist _ _ _ Hx).
  - intros x q Hx. apply Hd. by apply (elem_of_sublist _ _ _ Hx).
  - intros x Hx. apply Ha. by apply (elem_of_sublist _ _ _ Hx).
Qed.

(** The maps may change where the log has no generation, or grow. *)
Lemma Counted_maps top L w w' : Counted top L w →
  (∀ x h, x ∈ L → w_perGenDataHighWater w !! a_gen x.1 = Some h → ∃ h', w_perGenDataHighWater w' !! a_gen x.1 = Some h' ∧ h ≤ h') →
  (∀ x, x ∈ L → a_gen x.1 ∈ w_perGenAnyReplayable w → a_gen x.1 ∈ w_perGenAnyReplayable w') → Counted top L w'.
Proof.
  intros [Ho Hg Ht Hd Ha] H1 H2. constructor; try done.
  - intros x q Hx Hq. destruct (Hd x q Hx Hq) as (h & Hh & Hle). destruct (H1 x h Hx Hh) as (h' & Hh' & Hle').
    exists h'. split; [done | lia].
  - intros x Hx Hr. by apply H2, Ha.
Qed.

Lemma Counted_same top L w w' : w_perGenDataHighWater w' = w_perGenDataHighWater w →
  w_perGenAnyReplayable w' = w_perGenAnyReplayable w → Counted top L w → Counted top L w'.
Proof. intros H1 H2 HC. eapply Counted_maps; [exact HC | rewrite H1; eauto with lia | by rewrite H2]. Qed.

Lemma bump_ge gen seq m g h : m !! g = Some h → ∃ h', bump gen seq m !! g = Some h' ∧ h ≤ h'.
Proof.
  intros Hh. unfold bump. destruct (decide (gen = g)) as [->|Hne].
  - rewrite Hh. destruct (Z.ltb_spec h seq); [exists seq; rewrite lookup_insert_eq; split; [done|lia] | exists h; split; [done|lia]].
  - exists h. split; [|lia]. destruct (m !! gen); [destruct (_ <? _)|]; rewrite ?lookup_insert_ne by done; done.
Qed.

Lemma bump_covers gen seq m : ∃ h, bump gen seq m !! gen = Some h ∧ seq ≤ h.
Proof.
  unfold bump. destruct (m !! gen) as [c|] eqn:Hc; [destruct (Z.ltb_spec c seq); [|exists c; split; [done|lia]]|];
    (exists seq; rewrite lookup_insert_eq; split; [done|lia]).
Qed.

(** A new segment, and a record more in the last one. *)
Lemma Counted_snoc top L x w : Counted top L w → a_gen x.1 = top → a_recs x.1 = [] → Counted top (L ++ [x]) w.
Proof.
  intros [Ho Hg Ht Hd Ha] Hx Hr. assert (Hu : a_users x.1 = []) by (unfold a_users; by rewrite Hr). constructor.
  - intros g. rewrite gen_users_app, gen_users_single, Hu. destruct (_ =? _); rewrite app_nil_r; apply Ho.
  - rewrite fmap_app. apply StronglySorted_app. split_and!; [|done | repeat constructor]. cbn.
    intros g g' (y & -> & Hy)%list_elem_of_fmap ->%list_elem_of_singleton. rewrite Forall_forall in Ht. rewrite Hx. by apply Ht.
  - apply Forall_app. split; [done|]. apply Forall_singleton. lia.
  - intros y q [Hy|Hy%list_elem_of_singleton]%elem_of_app Hq; [by apply Hd|]. subst y. rewrite Hu in Hq. by apply not_elem_of_nil in Hq.
  - intros y [Hy|Hy%list_elem_of_singleton]%elem_of_app Hne; [by apply Ha|]. by subst y.
Qed.

Lemma Counted_last top L x y w : Counted top (L ++ [x]) w → a_gen y.1 = a_gen x.1 →
  (∀ g, a_gen x.1 = g → StronglySorted Z.le (gen_users g L ++ a_users y.1)) →
  (∀ q, q ∈ a_users y.1 → ∃ h, w_perGenDataHighWater w !! a_gen y.1 = Some h ∧ q ≤ h) →
  (a_recs y.1 ≠ [] → a_gen y.1 ∈ w_perGenAnyReplayable w) → Counted top (L ++ [y]) w.
Proof.
  intros HC Hg Hs Hq Hr. pose proof (Counted_sublist top (L ++ [x]) L w (sublist_inserts_r _ _ _ (reflexivity _)) HC) as HC0.
  destruct HC as [Ho Hgs Ht _ _]. destruct HC0 as [_ _ _ Hd Ha]. constructor.
  - intros g. specialize (Ho g). rewrite gen_users_app, gen_users_single in *. rewrite Hg.
    destruct (Z.eqb_spec (a_gen x.1) g); [by apply Hs | done].
  - rewrite fmap_app in *. cbn in *. by rewrite Hg.
  - apply Forall_app in Ht as [H1 H2]. apply Forall_app. split; [done|]. apply Forall_singleton. rewrite Hg. by inversion H2.
  - intros z q [Hz|Hz%list_elem_of_singleton]%elem_of_app Hzq; [by apply Hd | subst z; by apply Hq].
  - intros z [Hz|Hz%list_elem_of_singleton]%elem_of_app Hzr; [by apply Ha | subst z; by apply Hr].
Qed.

Lemma gen_users_last top L x w : Counted top (L ++ [x]) w → StronglySorted Z.le (gen_users (a_gen x.1) L ++ a_users x.1).
Proof. intros [Ho _ _ _ _]. specialize (Ho (a_gen x.1)). by rewrite gen_users_app, gen_users_single, Z.eqb_refl in Ho. Qed.

Lemma Counted_seal top L a i w : Counted top (L ++ [(a, i)]) w → Counted top (L ++ [(seal_seg a, i)]) w.
Proof.
  intros HC. assert (Hin : (a, i) ∈ L ++ [(a, i)]) by (apply elem_of_app; right; by apply list_elem_of_singleton).
  eapply Counted_last; [exact HC | done | | |].
  - intros g <-. exact (gen_users_last _ _ _ _ HC).
  - intros q Hq. by apply (ct_data _ _ _ HC (a, i)).
  - intros Hr. by apply (ct_any _ _ _ HC (a, i)).
Qed.

Lemma add_loss_users l a : a_users (add_rec (ALoss l) a) = a_users a.
Proof. unfold a_users. cbn. by rewrite omap_app, app_nil_r. Qed.

Lemma add_user_users q p a : a_users (add_rec (AUser q p) a) = a_users a ++ [q].
Proof. unfold a_users. cbn. by rewrite omap_app. Qed.

Lemma sorted_snoc us q : StronglySorted Z.le us → Forall (λ u, u ≤ q) us → StronglySorted Z.le (us ++ [q]).
Proof.
  intros Hs Hq. apply StronglySorted_app. split_and!; [|done | repeat constructor].
  intros a b Ha ->%list_elem_of_singleton. rewrite Forall_forall in Hq. by apply Hq.
Qed.

(** One record more in the last segment, entered in the maps. *)
Lemma Counted_add top L a i r w w' : Counted top (L ++ [(a, i)]) w →
  (∀ g h, w_perGenDataHighWater w !! g = Some h → ∃ h', w_perGenDataHighWater w' !! g = Some h' ∧ h ≤ h') →
  w_perGenAnyReplayable w' = {[a_gen a]} ∪ w_perGenAnyReplayable w →
  StronglySorted Z.le (gen_users (a_gen a) L ++ a_users (add_rec r a)) →
  (∀ q, q ∈ a_users (add_rec r a) → q ∈ a_users a ∨ ∃ h, w_perGenDataHighWater w' !! a_gen a = Some h ∧ q ≤ h) →
  Counted top (L ++ [(add_rec r a, i)]) w'.
Proof.
  intros HC Hh Ha Hs Hq.
  assert (HC' : Counted top (L ++ [(a, i)]) w').
  { eapply Counted_maps; [exact HC | intros x h _; apply Hh | intros x _; rewrite Ha; set_solver]. }
  eapply Counted_last; [exact HC' | done | by intros g <- | | intros _; cbn; rewrite Ha; set_solver].
  cbn [fst]. intros q Hin. destruct (Hq q Hin) as [Hold|]; [|done]. apply (ct_data _ _ _ HC' (a, i)); [|done].
  apply elem_of_app. right. by apply list_elem_of_singleton.
Qed.

Lemma Counted_add_loss top L a i l w w' : Counted top (L ++ [(a, i)]) w → w_perGenDataHighWater w' = w_perGenDataHighWater w →
  w_perGenAnyReplayable w' = {[a_gen a]} ∪ w_perGenAnyReplayable w → Counted top (L ++ [(add_rec (ALoss l) a, i)]) w'.
Proof.
  intros HC Hh Ha. eapply Counted_add; [exact HC | rewrite Hh; eauto with lia | done | |]; rewrite add_loss_users; [|auto].
  exact (gen_users_last _ _ _ _ HC).
Qed.

Lemma Counted_add_user top L a i q p w w' : Counted top (L ++ [(a, i)]) w →
  Forall (λ u, u ≤ q) (gen_users (a_gen a) L ++ a_users a) →
  w_perGenDataHighWater w' = bump (a_gen a) q (w_perGenDataHighWater w) →
  w_perGenAnyReplayable w' = {[a_gen a]} ∪ w_perGenAnyReplayable w → Counted top (L ++ [(add_rec (AUser q p) a, i)]) w'.
Proof.
  intros HC Hle Hh Ha. eapply Counted_add; [exact HC | rewrite Hh; intros; by apply bump_ge | done | |]; rewrite add_user_users.
  - rewrite app_assoc. apply sorted_snoc; [|done]. exact (gen_users_last _ _ _ _ HC).
  - rewrite Hh. intros u [Hu|Hu%list_elem_of_singleton]%elem_of_app; [by left | subst u; right; apply bump_covers].
Qed.

Section wal.
(** The largest record, the configuration, the acknowledgement, the byte-count
    offset, and whether the oracle is known to be exhausted. *)
Context (max : Z) (Hmax : bad_max max = false) (o : Options) (k : AckMark) (c0 : Z) (nf : bool).
(** The highest generation, when the per-generation maps are known to index the log. *)
Context (gt : option Z).
(** A condition on the user records of each generation, by sequence number and payload. *)
Context (U : Z → Z → bytes → Prop).

(** Sequence numbers do not decrease within a segment, and its records meet the condition. *)
Definition users_ok (a : ASeg) : Prop :=
  StronglySorted Z.le (a_users a) ∧ Forall (λ r, match r with AUser q p => U (a_gen a) q p | ALoss _ => True end) (a_recs a).

Lemma users_ok_elem a q : users_ok a → q ∈ a_users a → ∃ p, U (a_gen a) q p.
Proof.
  intros [_ HU] ([q' p|l] & Hr & [= <-])%list_elem_of_omap. exists p. rewrite Forall_forall in HU. by apply (HU (AUser q' p)).
Qed.

Record Inv (n : Z) (L : Slots) (s : WAL * World) : Prop := mkInv {
  iv_rep : Rep max s.2 L;
  iv_opts : w_opts s.1 = o;
  iv_max : w_maxRec s.1 = max;
  iv_closed : w_closed s.1 = false;
  iv_fatal : w_fatalErr s.1 = None;
  iv_ack : ack_of s.1 = k;
  iv_next : w_nextIndex s.1 = n;
  iv_idx : Forall (λ y, a_idx y.1 < n) L;
  iv_live : Live max (w_current s.1) L;
  iv_users : Forall (λ x, users_ok x.1) L;
  iv_total : nf = true → w_totalBytes s.1 + 16 * n = disk_bytes L + c0;
  iv_nf : NF nf s;
  (** without faults the maps index the log *)
  iv_counts : nf = true → ∀ top, gt = Some top → Counted top L s.1;
}.

(** An append of generation [gen] happens at the highest one. *)
Definition top_is (gen : Z) : Prop := ∀ top, gt = Some top → gen = top.

Lemma disk_bytes_app L1 L2 : disk_bytes (L1 ++ L2) = disk_bytes L1 + disk_bytes L2.
Proof. unfold disk_bytes. induction L1 as [|x L1 IH]; [done|]. cbn. rewrite IH. lia. Qed.

Lemma Inv_world n L w W W' : same W W' → (w_faults W = [] → w_faults W' = []) → Inv n L (w, W) → Inv n L (w, W').
Proof.
  intros Hsame Hf []. constructor; try done; cbn in *.
  - by eapply Rep_same.
  - intros Hn. by apply Hf, iv_nf0.
Qed.

(** A call that only reads the directory. *)
Lemma t_lift_rep {A} n L (m : Os A) (Q : A → Prop) :
  triple (λ W, Rep max W L) m (λ a W, Q a ∧ Rep max W L) (λ W, Rep max W L) →
  triple (Inv n L) (lift m) (λ a s, Q a ∧ Inv n L s) (λ s, Inv n L s ∧ nf = false).
Proof.
  intros Hm [w W] HI. unfold lift. cbn. specialize (Hm W (iv_rep _ _ _ HI)).
  destruct (m W) as [[a|e] W']; cbn in *.
  - destruct Hm as [[HQ HR] Hf]. split; [|done]. split; [done|]. destruct HI. constructor; try done.
    intros Hn. by apply Hf, iv_nf0.
  - destruct Hm as [HR Hf]. split; [|done]. destruct nf eqn:Hn; [by destruct Hf; apply (iv_nf _ _ _ HI)|].
    split; [|done]. destruct HI. constructor; try done. intros ?; congruence.
Qed.

(** Error postconditions are irrelevant outside [mtry]. *)
Lemma t_weak {S E A} `{HasFaults S} P (m : M S E A) Q X : triple P m Q X → triple P m Q (λ _, True).
Proof. intros. by eapply t_conseq. Qed.

Lemma t_this {A B} n L (f : WAL → A) (g : A → WalM OsErr B) Q X :
  (∀ w, triple (λ s, Inv n L s ∧ s.1 = w) (g (f w)) Q X) →
  triple (Inv n L) (let* a := this f in g a) Q X.
Proof. intros Hg s Hs. unfold bindM, this, mget. by apply Hg. Qed.

Lemma Live_sealed_mid c L1 x L2 : is_sealed_slot x → Live max c (L1 ++ x :: L2) → Live max c (L1 ++ L2).
Proof.
  intros Hx. destruct c as [seg|]; cbn; [|apply Forall_mid].
  intros (L0 & a & i & HL & HF & Ha & Hseg). destruct L2 as [|y L2 _] using rev_ind.
  - apply app_inj_tail in HL as [_ ->]. unfold is_sealed_slot in Hx. cbn in Hx. congruence.
  - rewrite app_comm_cons, app_assoc in HL. apply app_inj_tail in HL as [<- ->].
    exists (L1 ++ L2), a, i. rewrite app_assoc. split_and!; [done | by apply (Forall_mid _ _ x) | done..].
Qed.

Lemma t_remove_counted n L1 x L2 : is_sealed_slot x →
  triple (Inv n (L1 ++ x :: L2)) (remove_counted (a_name x.1)) (λ _, Inv n (L1 ++ L2))
         (λ s, Inv n (L1 ++ x :: L2) s ∧ nf = false).
Proof.
  intros Hx. assert (Hin : x ∈ L1 ++ x :: L2) by (apply elem_of_app; right; apply elem_of_cons; by left).
  unfold remove_counted. eapply t_bind.
  - eapply t_conseq with (X := λ _, False); [apply t_try, (t_lift_rep n _ _ _ (t_os_Stat max _ _ Hin)) | done | | done].
    intros r s Hr. exact Hr.
  - intros r. eapply t_bind with (R := λ _ s, match r with Ok m => m = a_size x.1 | Err _ => nf = false end ∧
        (∃ W, Inv n (L1 ++ x :: L2) (s.1, W)) ∧ Rep max s.2 (L1 ++ L2) ∧ NF nf s).
    + intros [w W] Hr.
      assert (HI : Inv n (L1 ++ x :: L2) (w, W) ∧ match r with Ok m => m = a_size x.1 | Err _ => nf = false end)
        by (destruct r; tauto).
      destruct HI as [HI Hsz]. unfold lift. cbn. pose proof (t_os_Remove max L1 x L2 W (iv_rep _ _ _ HI)) as Ht.
      destruct (os_Remove (a_name x.1) W) as [[[]|e] W']; cbn in *.
      * destruct Ht as [HR Hf]. split; [|done]. split_and!; [done | by exists W | done |].
        intros Hn. by apply Hf, (iv_nf _ _ _ HI).
      * destruct Ht as [HR Hf]. split; [|done].
        destruct nf eqn:Hn; [by destruct Hf; apply (iv_nf _ _ _ HI)|]. split; [|done].
        destruct HI. constructor; try done. intros ?; congruence.
    + intros [] [w W] (Hsz & [W0 HI] & HR & Hnf). cbn in *.
      assert (Hfin : ∀ t, (nf = true → t = - a_size x.1) → Inv n (L1 ++ L2) (add_total t w, W)).
      { intros t Ht. destruct HI as [? ? ? ? ? ? ? Hidx Hlive Hus Htot ? Hct]. constructor; try done; cbn in *.
        - by apply (Forall_mid _ _ x).
        - by eapply Live_sealed_mid.
        - by apply (Forall_mid _ _ x).
        - intros Hn. specialize (Htot Hn). rewrite disk_bytes_app in *.
          change (disk_bytes (x :: L2)) with (a_size x.1 + disk_bytes L2) in Htot. rewrite (Ht Hn). lia.
        - intros Hn top Htop. eapply Counted_sublist; [|by eapply Counted_same, (Hct Hn top Htop)].
          apply sublist_app; [done | by apply sublist_cons]. }
      destruct r as [m|e]; cbn.
      * split; [|done]. apply Hfin. by intros _; rewrite Hsz.
      * split; [|done]. specialize (Hfin 0). unfold add_total in Hfin. rewrite Z.add_0_r in Hfin.
        destruct w; cbn in *. apply Hfin. intros Hn. by rewrite Hn in Hsz.
Qed.

Lemma Inv_set_gens n L w W d a : Inv n L (w, W) →
  (nf = true → ∀ top, gt = Some top → Counted top L (set_gens d a w)) → Inv n L (set_gens d a w, W).
Proof. intros [] ?. by constructor. Qed.

Lemma Rep_name_inj W L x y : Rep max W L → x ∈ L → y ∈ L → a_name x.1 = a_name y.1 → x = y.
Proof.
  intros HR Hx Hy. apply (NoDup_fmap_inj_elem (λ x : ASeg * nat, a_name x.1) L); [|done..].
  rewrite <- (Rep_dom _ _ _ HR). apply NoDup_elements.
Qed.

(** Without faults every generation of the log survives. *)
Lemma t_surviving_gens L names acc : names ⊆ ((λ x, a_name x.1) <$> L) →
  triple (λ W, Rep max W L ∧ NF nf W) (surviving_gens names acc)
    (λ g W, Rep max W L ∧ NF nf W ∧ (nf = true → acc ⊆ g ∧ ∀ x, x ∈ L → a_name x.1 ∈ names → a_gen x.1 ∈ g)) (λ _, False).
Proof.
  intros Hn. revert acc. induction names as [|nm names IH]; intros acc; cbn [surviving_gens].
  { intros W [HR Hnf]. split; [|done]. split_and!; [done..|]. intros _. split; [done|]. intros x _ Hx. by apply not_elem_of_nil in Hx. }
  assert (Hn' : names ⊆ ((λ x, a_name x.1) <$> L)) by (intros y Hy; apply Hn, elem_of_cons; by right).
  assert (Hnm : nm ∈ (λ x : ASeg * nat, a_name x.1) <$> L) by (apply Hn, elem_of_cons; by left).
  apply list_elem_of_fmap in Hnm as (x & -> & Hx). specialize (IH Hn').
  assert (Hseg : negb (HasSuffix (a_name x.1) sealedSuffix) && negb (is_inprogress (a_name x.1)) = false).
  { pose proof (is_sealed_a_name x.1) as Hs. rewrite is_inprogress_a_name. unfold is_sealed in Hs.
    destruct (a_live x.1); [by rewrite andb_false_r|]. by apply andb_true_iff in Hs as [-> _]. }
  rewrite Hseg. intros W HW. pose proof (Rep_wf _ _ _ _ (proj1 HW) Hx) as Hwf.
  assert (Hinj : ∀ y, y ∈ L → a_name y.1 = a_name x.1 → y = x) by (intros y Hy Hyx; apply (Rep_name_inj W L); [apply HW | done..]).
  rewrite (parse_a_name x.1) by apply Hwf. revert W HW.
  eapply t_bind with (R := λ g W, (nf = true → g = Some (a_gen x.1)) ∧ Rep max W L ∧ NF nf W).
  - intros W [HR Hnf]. unfold surviving_gen, bindM, mtry.
    pose proof (t_os_Open max L x Hx W HR) as Ho. destruct (os_Open (a_name x.1) W) as [[f|e] W1]; cbn in *.
    + destruct Ho as [[-> HR1] Hf1]. split; [|done].
      rewrite (Rep_data _ _ _ _ HR1 Hx), <- (app_nil_r (a_bytes x.1)), (read_a_bytes max) by done.
      split_and!; [done..|]. intros Hn1. by apply Hf1, Hnf.
    + destruct Ho as [HR1 Hf1]. split; [split_and!; [|done|]; intros Hn1; exfalso; by apply Hf1, Hnf|].
      intros Hw. by apply Hf1 in Hw.
  - intros g. apply t_pure. intros Hg. eapply t_post; [apply IH|]. intros g' W (HR' & Hnf' & Hall). split_and!; [done..|].
    intros Hn1. destruct (Hall Hn1) as [Hsub Hin]. rewrite (Hg Hn1) in Hsub. split; [set_solver|].
    intros y Hy [Hyx|Hyn]%elem_of_cons; [|by apply Hin]. rewrite (Hinj y Hy Hyx). set_solver.
Qed.

Lemma Counted_prune top L w (g : gset Z) : (∀ x, x ∈ L → a_gen x.1 ∈ g) → Counted top L w →
  Counted top L (set_gens (filter (λ kv, kv.1 ∈ g) (w_perGenDataHighWater w)) (w_perGenAnyReplayable w ∩ g) w).
Proof.
  intros Hg HC. eapply Counted_maps; [exact HC | |]; cbn.
  - intros x h Hx Hh. exists h. split; [|lia]. apply map_lookup_filter_Some. split; [done|]. by apply Hg.
  - intros x Hx Ha. apply elem_of_intersection. split; [done | by apply Hg].
Qed.

Lemma t_prune {E} n L : triple (Inv n L) (prunePerGenMapsLocked : WalM E unit) (λ _, Inv n L) (λ _, True).
Proof.
  intros [w W] HI. unfold prunePerGenMapsLocked. cbn [fst snd].
  pose proof (t_os_ReadDir max L W (iv_rep _ _ _ HI)) as Hr. destruct (os_ReadDir W) as [[names|e] W1].
  - destruct Hr as [[Hp HR1] Hf1].
    assert (Hsub : names ⊆ ((λ x : ASeg * nat, a_name x.1) <$> L)) by (intros y; by rewrite Hp).
    assert (Hn1 : NF nf W1) by (intros Hn; by apply Hf1, (iv_nf _ _ _ HI)).
    pose proof (t_surviving_gens L names ∅ Hsub W1 (conj HR1 Hn1)) as Hs.
    destruct (surviving_gens names ∅ W1) as [[g|e] W2]; [|tauto].
    destruct Hs as [(HR2 & Hn2 & Hg) Hf2]. split; [|by intros Hf; apply Hf2, Hf1]. apply Inv_set_gens.
    + destruct HI. by constructor.
    + intros Hn top Htop. apply Counted_prune; [|by apply HI]. intros x Hx. apply (proj2 (Hg Hn) x Hx).
      rewrite Hp. apply list_elem_of_fmap. by exists x.
  - destruct Hr as [HR1 Hf1]. split; [|done]. destruct HI. constructor; try done.
    intros Hn. exfalso. by apply Hf1, iv_nf0.
Qed.

(** ** Reclaiming space *)

Definition fully_acked (a : ASeg) : bool :=
  if negb (ak_present k) then false
  else if bool_decide (a_users a = []) then a_gen a <=? ak_gen k
  else if a_gen a <? ak_gen k then true
  else (a_gen a =? ak_gen k) && (users_max 0 (a_users a) <=? ak_seq k).

Lemma segmentFullyAcked_scan w a : ack_of w = k →
  segmentFullyAckedLocked w (sc_gen (scan_of a)) (sc_hiSeq (scan_of a)) (sc_hasUser (scan_of a)) = fully_acked a.
Proof.
  intros Hk. unfold segmentFullyAckedLocked, fully_acked. rewrite <- Hk. cbn. by destruct (bool_decide (a_users a = [])), (w_ackPresent w).
Qed.

Lemma users_max_ge us : ∀ hi, hi ≤ users_max hi us ∧ ∀ q, q ∈ us → q ≤ users_max hi us.
Proof.
  unfold users_max. induction us as [|u us IH]; intros hi; cbn [fold_left].
  { split; [lia|]. intros q Hq. by apply not_elem_of_nil in Hq. }
  destruct (IH (if hi <? u then u else hi)) as [H1 H2]. split.
  - destruct (Z.ltb_spec hi u); lia.
  - intros q [->|Hq]%elem_of_cons; [|by apply H2]. destruct (Z.ltb_spec hi u); lia.
Qed.

(** A segment counts as acknowledged only if every user record in it is. *)
Lemma fully_acked_users a q : fully_acked a = true → q ∈ a_users a → acked k (a_gen a) q.
Proof.
  unfold fully_acked, acked. intros Hf Hq. destruct (ak_present k); [|done]. split; [done|]. cbn in Hf.
  rewrite bool_decide_false in Hf by (intros Hc; rewrite Hc in Hq; by apply not_elem_of_nil in Hq).
  destruct (Z.ltb_spec (a_gen a) (ak_gen k)); [by left|]. right.
  pose proof (proj2 (users_max_ge (a_users a) 0) q Hq). lia.
Qed.

Lemma sealed_of_all L : Forall is_sealed_slot L → sealed_of L = L.
Proof.
  unfold sealed_of, is_sealed_slot. induction 1 as [|x L Hx _ IH]; [done|]. cbn. by rewrite Hx, IH.
Qed.

(** The sealed segments come first. *)
Lemma Live_split c L : Live max c L →
  Forall is_sealed_slot (sealed_of L) ∧ ∃ T, L = sealed_of L ++ T ∧ sealed_of T = [].
Proof.
  destruct c as [seg|]; cbn.
  - intros (L0 & a & i & -> & HF & Ha & _). assert (Hs : sealed_of (L0 ++ [(a, i)]) = L0).
    { unfold sealed_of. rewrite List.filter_app. cbn. rewrite Ha. cbn. rewrite app_nil_r. by apply sealed_of_all. }
    rewrite Hs. split; [done|]. exists [(a, i)]. split; [done|]. cbn. by rewrite Ha.
  - intros HF. rewrite sealed_of_all by done. split; [done|]. exists []. by rewrite app_nil_r.
Qed.

Lemma t_gc_loop n S T r : Forall is_sealed_slot S →
  triple (Inv n (S ++ T)) (gc_acked_loop (slot_entry <$> S) r)
    (λ _ s, ∃ D K, S = D ++ K ∧ Forall (λ x, fully_acked x.1 = true) D ∧ Inv n (K ++ T) s) (λ _, True).
Proof.
  revert r. induction S as [|x S IH]; intros r HS; cbn [fmap list_fmap gc_acked_loop].
  { intros s HI. split; [|done]. by exists [], []. }
  inversion HS as [|?? Hx HS']; subst.
  apply t_this. intros w. intros s0 [HI0 Hw]. assert (Hwm : w_maxRec w = max) by (rewrite <- Hw; apply HI0).
  assert (Hwk : ack_of w = k) by (rewrite <- Hw; apply HI0). rewrite Hwm. clear Hw. revert s0 HI0.
  assert (Hin : x ∈ (x :: S) ++ T) by (apply elem_of_cons; by left).
  eapply t_bind.
  { eapply t_weak, (t_lift_rep n ((x :: S) ++ T) _ _ (t_segmentHigh max Hmax _ _ Hin)). }
  intros sc. apply t_pure. intros ->. rewrite segmentFullyAcked_scan by done.
  destruct (fully_acked x.1) eqn:Hf; cbn [negb].
  - eapply t_bind; [eapply t_weak, (t_remove_counted n [] x (S ++ T)); done|]. intros [].
    eapply t_post; [by apply IH|]. intros _ s (D & K & -> & HD & HI). exists (x :: D), K. split_and!; [done | by constructor | done].
  - intros s HI. split; [|done]. by exists [], (x :: S).
Qed.

(** Collecting acknowledged segments drops a prefix of acknowledged, sealed ones. *)
Lemma t_gcAcked n L :
  triple (Inv n L) gcAckedLocked
    (λ _ s, ∃ D K, L = D ++ K ∧ Forall (λ x, fully_acked x.1 = true ∧ is_sealed_slot x) D ∧ Inv n K s) (λ _, True).
Proof.
  unfold gcAckedLocked. apply t_this. intros w. intros s0 [HI0 _]. revert s0 HI0.
  destruct (negb _); [intros s HI; split; [|done]; by exists [], L|].
  eapply t_bind; [eapply t_weak, (t_lift_rep n L _ _ (t_list_sealed max L))|].
  intros es. apply t_pure. intros ->. intros s0 HI0.
  destruct (Live_split _ _ (iv_live _ _ _ HI0)) as (HS & T & HL & _).
  assert (Hloop : triple (Inv n L) (let* removed := gc_acked_loop (slot_entry <$> sealed_of L) 0 in
      if (removed =? 0)%nat then ret removed
      else do* lift syncDir in do* prunePerGenMapsLocked in ret removed)
    (λ _ s, ∃ D K, L = D ++ K ∧ Forall (λ x, fully_acked x.1 = true ∧ is_sealed_slot x) D ∧ Inv n K s) (λ _, True)).
  { eapply t_bind with (R := λ _ s, ∃ D K, L = D ++ K ∧ Forall (λ x, fully_acked x.1 = true ∧ is_sealed_slot x) D ∧ Inv n K s).
    - rewrite HL at 1. eapply t_post; [by apply t_gc_loop|].
      intros _ s (D & K & HDK & HD & HI). exists D, (K ++ T). split_and!; [|..|done].
      + rewrite HL at 1. by rewrite HDK, app_assoc.
      + rewrite HDK in HS. apply Forall_app in HS as [HS _]. by apply Forall_and.
    - intros removed. destruct (_ =? _)%nat; [by intros s HI|].
      apply t_exists. intros D. apply t_exists. intros K. apply t_pure. intros HDK. apply t_pure. intros HD.
      eapply t_bind with (R := λ _, Inv n K).
      { eapply t_conseq; [apply (t_lift_rep n K _ (λ _, True)) | done | by intros [] s [] | done].
        eapply t_conseq; [apply t_io_stable, (stable_Rep max K) | done..]. }
      intros []. eapply t_bind; [apply t_prune|]. intros [] s HI. split; [|done]. by exists D, K. }
  destruct (slot_entry <$> sealed_of L) as [|e es] eqn:Hes.
  - intros. split; [|done]. by exists [], L.
  - apply Hloop. exact HI0.
Qed.

(** The marker written for a dropped segment. *)
Definition loss_of (a : ASeg) : LossRecord :=
  mkLoss (default 0 (head (a_users a))) (default 0 (last (a_users a))) (a_gen a) LossReasonOverflow.

Lemma t_dropOldest n L :
  triple (Inv n L) dropOldestLocked
    (λ r s, match r with
            | None => sealed_of L = [] ∧ Inv n L s
            | Some (l, b) => ∃ x K, L = x :: K ∧ is_sealed_slot x ∧ l = loss_of x.1 ∧
                                    b = negb (bool_decide (a_users x.1 = [])) ∧ Inv n K s
            end) (λ _, True).
Proof.
  unfold dropOldestLocked.
  eapply t_bind; [eapply t_weak, (t_lift_rep n L _ _ (t_list_sealed max L))|].
  intros es. apply t_pure. intros ->. intros s0 HI0.
  destruct (Live_split _ _ (iv_live _ _ _ HI0)) as (HS & T & HL & _).
  destruct (sealed_of L) as [|x S] eqn:Hsl; cbn [fmap list_fmap].
  { split; [|done]. done. }
  apply Forall_cons in HS as [Hx _]. revert s0 HI0. clear Hsl. subst L. change ((x :: S) ++ T) with (x :: (S ++ T)).
  generalize (S ++ T). intros K.
  assert (Hin : x ∈ x :: K) by (apply elem_of_cons; by left).
  apply t_this. intros w. intros s0 [HI0 Hw]. assert (Hwm : w_maxRec w = max) by (rewrite <- Hw; apply HI0).
  rewrite Hwm. clear Hw. revert s0 HI0. cbn [slot_entry e_name].
  eapply t_bind; [eapply t_weak, (t_lift_rep n (x :: K) _ _ (t_os_Open max _ _ Hin))|].
  intros f. apply t_pure. intros ->. intros s HI. unfold bindM at 1, mget.
  rewrite (Rep_data _ _ _ _ (iv_rep _ _ _ HI) Hin). pose proof (Rep_wf _ _ _ _ (iv_rep _ _ _ HI) Hin) as Hwf.
  rewrite <- (app_nil_r (a_bytes x.1)), (read_a_bytes max) by done. rewrite app_nil_r, (scan_a_bytes max) by done.
  cbn [fst]. rewrite (user_seqs_enc max) by done. revert s HI.
  eapply t_bind; [eapply t_weak, (t_remove_counted n [] x K); done|]. intros [].
  eapply t_bind with (R := λ _, Inv n K).
  { eapply t_conseq; [apply (t_lift_rep n K _ (λ _, True)) | done | by intros [] s [] | done].
    eapply t_conseq; [apply t_io_stable, (stable_Rep max K) | done..]. }
  intros []. eapply t_bind; [apply t_prune|]. intros [] s HI. split; [|done].
  exists x, K. done.
Qed.

(** ** Writing *)

Lemma Inv_nonneg n L s x : Inv n L s → x ∈ L → 0 ≤ a_idx x.1 < n.
Proof.
  intros HI Hx. pose proof (Rep_wf _ _ _ _ (iv_rep _ _ _ HI) Hx) as [[Hi _] _].
  pose proof (iv_idx _ _ _ HI) as Hn. rewrite Forall_forall in Hn. specialize (Hn x Hx). lia.
Qed.

Lemma a_size_fresh idx gen fl : (fl = 0 ∨ fl = FlagGenInit) → a_size (fresh_seg idx gen fl) = 16.
Proof.
  intros Hfl. unfold a_size, a_bytes, hdr_bytes, WriteSegmentHeader. cbn [fresh_seg a_hdr a_flags sh_Flags a_recs].
  by destruct Hfl as [-> | ->].
Qed.

Lemma t_open_current n L gen fl : top_is gen → 0 ≤ n → n + 1 < 2 ^ 64 → is_uint 32 gen → (fl = 0 ∨ fl = FlagGenInit) →
  triple (λ s, Inv n L s ∧ w_current s.1 = None) (open_current gen fl)
    (λ _ s, ∃ i, Inv (n + 1) (L ++ [(fresh_seg n gen fl, i)]) s ∧ w_current s.1 = Some (seg_of max (fresh_seg n gen fl) i))
    (λ _, True).
Proof.
  intros Htop Hn Hn1 Hg Hfl [w W] [HI Hc]. cbn in Hc. unfold open_current, openNewSegmentLocked, bindM, this, mget, modify, mput, lift.
  cbn. rewrite (iv_next _ _ _ HI : w_nextIndex w = n), (iv_max _ _ _ HI : w_maxRec w = max).
  pose proof (t_OpenSegment max Hmax L n gen fl ltac:(unfold is_index; lia) Hg Hfl (iv_idx _ _ _ HI) W (iv_rep _ _ _ HI)) as Ht.
  destruct (OpenSegment _ _ _ W) as [[seg|e] W']; cbn; [|tauto].
  destruct Ht as [(i & -> & HR) Hf]. split; [|exact Hf]. exists i. split; [|done].
  destruct HI as [_ ? ? ? ? ? ? Hidx Hlive Hus Htot Hnf Hct]. cbn in *. rewrite Hc in Hlive. constructor; cbn; try done.
  - unfold to_uint64. apply Z.mod_small. lia.
  - apply Forall_app. split; [|constructor; [cbn; lia | constructor]].
    eapply Forall_impl; [exact Hidx|]. cbn. intros. lia.
  - by exists L, (fresh_seg n gen fl), i.
  - apply Forall_app. split; [done|]. by repeat constructor.
  - intros Hn'. rewrite disk_bytes_app. cbn [disk_bytes foldr fst]. rewrite a_size_fresh by done.
    specialize (Htot Hn'). lia.
  - intros Hn'. by apply Hf, Hnf.
  - intros Hn' top Ht. apply Counted_snoc; [|by apply Htop|done]. by eapply Counted_same, Hct.
Qed.

(** Between writing and syncing a record, and after syncing it: the counters still
    describe the log without it. *)
Definition Wrote (n : Z) (L : Slots) (a : ASeg) (i : nat) (r : ARec) (s : WAL * World) : Prop :=
  ∃ w0 W1 seg, Inv n (L ++ [(a, i)]) (w0, W1) ∧ w_current w0 = Some (seg_of max a i) ∧ s.1 = set_current (Some seg) w0 ∧
    (∃ W0, Rep max W0 (L ++ [(a, i)]) ∧ SegP (seg_of max (add_rec r a) i) (BwAt W0 i (a_bytes (add_rec r a))) (seg, s.2)) ∧
    NF nf s.

Definition Synced (n : Z) (L : Slots) (a : ASeg) (i : nat) (r : ARec) (s : WAL * World) : Prop :=
  ∃ w0 W1, Inv n (L ++ [(a, i)]) (w0, W1) ∧ w_current w0 = Some (seg_of max a i) ∧ s.1 = set_current (Some (seg_of max (add_rec r a) i)) w0 ∧
    Rep max s.2 (L ++ [(add_rec r a, i)]) ∧ NF nf s.

Lemma run_on_current {A} (m : SegM A) w W seg : w_current w = Some seg →
  on_current m (w, W) = ((m (seg, W)).1, (set_current (Some (m (seg, W)).2.1) w, (m (seg, W)).2.2)).
Proof. intros Hc. unfold on_current. cbn [fst snd]. rewrite Hc. by destruct (m (seg, W)) as [r [seg' W']]. Qed.

Lemma t_on_write n L a i r : rec_wf max (a_gen a) r →
  triple (λ s, Inv n (L ++ [(a, i)]) s ∧ w_current s.1 = Some (seg_of max a i))
    (on_current (Segment_WriteRecord (enc (a_gen a) r))) (λ _, Wrote n L a i r) (λ _, True).
Proof.
  intros Hr [w W] [HI Hc]. rewrite (run_on_current _ w W _ Hc).
  pose proof (t_write_record max Hmax L a i r Hr (seg_of max a i, W) (conj eq_refl (iv_rep _ _ _ HI))) as Ht.
  destruct (Segment_WriteRecord _ _) as [[[]|e] [seg W']]; cbn [fst snd]; [|exact (conj I (proj2 Ht))].
  destruct Ht as [HQ Hf]. split; [|exact Hf]. exists w, W, seg. split_and!; [done..|].
  intros Hn. by apply Hf, (iv_nf _ _ _ HI).
Qed.

Lemma t_on_sync n L a i r : rec_wf max (a_gen a) r →
  triple (Wrote n L a i r) (on_current Segment_Sync) (λ _, Synced n L a i r) (λ _, True).
Proof.
  intros Hr [w W] (w0 & W1 & seg & HI & Hc0 & Hw & HP & Hnf). cbn in Hw. subst w. rewrite (run_on_current _ _ W seg) by done.
  pose proof (t_sync_record max L a i r Hr (seg, W) HP) as Ht.
  destruct (Segment_Sync _) as [[[]|e] [seg' W']]; cbn [fst snd]; [|exact (conj I (proj2 Ht))].
  destruct Ht as [[Hs HR] Hf]. cbn in Hs. subst seg'. split; [|exact Hf]. exists w0, W1. split_and!; [done..|].
  intros Hn. by apply Hf, Hnf.
Qed.

(** Once the counters are updated the log has the record. *)
Lemma Inv_appended n L a i r s w : Synced n L a i r s → w_current s.1 = w_current w →
  w_opts w = w_opts s.1 → w_maxRec w = w_maxRec s.1 → w_closed w = w_closed s.1 → w_fatalErr w = w_fatalErr s.1 →
  ack_of w = ack_of s.1 → w_nextIndex w = w_nextIndex s.1 →
  w_totalBytes w = w_totalBytes s.1 + (8 + Z.of_nat (length (enc (a_gen a) r))) →
  users_ok (add_rec r a) →
  (nf = true → ∀ top, gt = Some top → Counted top (L ++ [(a, i)]) s.1 → Counted top (L ++ [(add_rec r a, i)]) w) →
  Inv n (L ++ [(add_rec r a, i)]) (w, s.2) ∧ w_current w = Some (seg_of max (add_rec r a) i).
Proof.
  intros (w0 & W1 & HI & Hc0 & Hs & HR & Hnf) Hc Ho Hm Hcl Hfa Hak Hnx Htot Hus Hcn.
  rewrite Hs in Hc, Ho, Hm, Hcl, Hfa, Hak, Hnx, Htot, Hcn. cbn in *. split; [|done].
  destruct HI as [_ ? ? ? ? ? ? Hidx Hlive Hus0 Htot0 _ Hct]. cbn in *. constructor; cbn; try congruence; try done.
  - change (ack_of w0 = k) in iv_ack0. rewrite Hak. exact iv_ack0.
  - apply Forall_app in Hidx as [H1 H2]. apply Forall_app. split; [done|]. inversion H2; subst. by repeat constructor.
  - rewrite <- Hc. assert (Ha : a_live a = true ∧ Forall is_sealed_slot L).
    { rewrite Hc0 in Hlive. destruct Hlive as (L0 & a0 & i0 & HL & HF & Ha & _).
      by apply app_inj_tail in HL as [<- [= -> ->]]. }
    exists L, (add_rec r a), i. by destruct Ha.
  - apply Forall_app in Hus0 as [H1 H2]. apply Forall_app. split; [done|]. by apply Forall_singleton.
  - intros Hn. specialize (Htot0 Hn). rewrite Htot. rewrite !disk_bytes_app in *. cbn [disk_bytes foldr fst] in *.
    unfold a_size in *. rewrite a_bytes_add_rec, length_app, length_frame. lia.
  - intros Hn top Ht. apply Hcn; [done..|]. by eapply Counted_same, Hct.
Qed.


Lemma last_users n L a i s : Inv n (L ++ [(a, i)]) s → users_ok a.
Proof. intros HI. pose proof (iv_users _ _ _ HI) as Hu. apply Forall_app in Hu as [_ Hu]. by inversion Hu. Qed.

Lemma t_appendLoss n L a i l : rec_wf max (a_gen a) (ALoss l) →
  triple (λ s, Inv n (L ++ [(a, i)]) s ∧ w_current s.1 = Some (seg_of max a i)) (appendLossLocked l)
    (λ _ s, Inv n (L ++ [(add_rec (ALoss l) a, i)]) s ∧ w_current s.1 = Some (seg_of max (add_rec (ALoss l) a) i))
    (λ _, True).
Proof.
  intros Hr. unfold appendLossLocked. eapply t_bind; [by apply (t_on_write n L a i (ALoss l))|]. intros [].
  eapply t_bind; [by apply t_on_sync|]. intros []. apply t_put. intros s Hs. split; [|done]. cbn [fst snd].
  eapply Inv_appended; [exact Hs | done..| |].
  - destruct Hs as (w0 & W1 & HI & _). destruct (last_users _ _ _ _ _ HI) as [Hs1 Hs2].
    split; [by rewrite add_loss_users|]. apply Forall_app. split; [exact Hs2 | by apply Forall_singleton].
  - intros _ top _ HC. apply (Counted_add_loss _ _ _ _ _ _ _ HC); [done|]. cbn. destruct Hs as (w0 & W1 & _ & _ & -> & _). done.
Qed.

(** ** Slots that survive, records that are accounted for *)

Definition slot_ext (x y : ASeg * nat) : Prop :=
  x.2 = y.2 ∧ a_idx x.1 = a_idx y.1 ∧ a_gen x.1 = a_gen y.1 ∧ a_flags x.1 = a_flags y.1 ∧
  a_recs x.1 `prefix_of` a_recs y.1.

Lemma slot_ext_refl x : slot_ext x x.
Proof. by repeat split. Qed.
Lemma slot_ext_trans x y z : slot_ext x y → slot_ext y z → slot_ext x z.
Proof. intros (?&?&?&?&?) (?&?&?&?&?). split_and!; try congruence. by etrans. Qed.

Definition covers (l : LossRecord) (gen q : Z) : Prop :=
  l_Generation l = gen ∧ l_FromSequence l ≤ q ≤ l_ToSequence l.

(** A marker in the live segment accounts for every user record of [a]. *)
Definition CoveredLast (a : ASeg) (L : Slots) : Prop :=
  a_users a = [] ∨
  ∃ L0 y l, L = L0 ++ [y] ∧ a_live y.1 = true ∧ ALoss l ∈ a_recs y.1 ∧ ∀ q, q ∈ a_users a → covers l (a_gen a) q.

Definition acked_users (a : ASeg) : Prop := ∀ q, q ∈ a_users a → acked k (a_gen a) q.

Record Safe (L L' : Slots) : Prop := mkSafe {
  safe_all : ∀ x, x ∈ L → (∃ y, y ∈ L' ∧ slot_ext x y) ∨ acked_users x.1 ∨ CoveredLast x.1 L';
  safe_live : ∀ L0 x, L = L0 ++ [x] → a_live x.1 = true → ∃ L0' y, L' = L0' ++ [y] ∧ a_live y.1 = true ∧ slot_ext x y;
}.

Lemma prefix_users x y : a_recs x `prefix_of` a_recs y → a_users x ⊆ a_users y.
Proof. intros [t Ht]. unfold a_users. rewrite Ht, omap_app. set_solver. Qed.

Lemma Safe_refl L : Safe L L.
Proof.
  constructor; [|intros L0 x -> Hl; exists L0, x; by split_and!; [..|apply slot_ext_refl]].
  intros x Hx. left. exists x. split; [done | apply slot_ext_refl].
Qed.

Lemma Safe_trans L1 L2 L3 : Safe L1 L2 → Safe L2 L3 → Safe L1 L3.
Proof.
  intros [A1 V1] [A2 V2]. constructor.
  - intros x Hx. destruct (A1 x Hx) as [(y & Hy & Hxy) | [Ha | Hc]].
    + assert (Hu : a_users x.1 ⊆ a_users y.1) by apply prefix_users, Hxy.
      assert (Hg : a_gen x.1 = a_gen y.1) by apply Hxy.
      destruct (A2 y Hy) as [(z & Hz & Hyz) | [Ha | Hc]].
      * left. exists z. split; [done | by eapply slot_ext_trans].
      * right; left. intros q Hq. rewrite Hg. by apply Ha, Hu.
      * right; right. destruct Hc as [He | (L0 & z & l & HL & Hz & Hl & Hq)].
        -- left. rewrite He in Hu. destruct (a_users x.1) as [|u us]; [done|]. exfalso. eapply not_elem_of_nil, Hu, elem_of_cons. by left.
        -- right. exists L0, z, l. split_and!; [done..|]. intros q Hxq. rewrite Hg. by apply Hq, Hu.
    + by right; left.
    + right; right. destruct Hc as [He | (L0 & z & l & HL & Hz & Hl & Hq)]; [by left | right].
      destruct (V2 L0 z HL Hz) as (L0' & z' & HL' & Hz' & Hext). exists L0', z', l. split_and!; [done..| |done].
      destruct Hext as (_ & _ & _ & _ & [t Ht]). rewrite Ht. apply elem_of_app. by left.
  - intros L0 x HL Hx. destruct (V1 L0 x HL Hx) as (L0' & y & HL' & Hy & Hxy).
    destruct (V2 L0' y HL' Hy) as (L0'' & z & HL'' & Hz & Hyz). exists L0'', z. split_and!; [done..|]. by eapply slot_ext_trans.
Qed.

Lemma Safe_app_r L N : (∀ L0 x, L = L0 ++ [x] → a_live x.1 = false) → Safe L (L ++ N).
Proof.
  intros Hs. constructor.
  - intros x Hx. left. exists x. split; [apply elem_of_app; by left | apply slot_ext_refl].
  - intros L0 x HL Hx. by rewrite (Hs L0 x HL) in Hx.
Qed.

Lemma Safe_last L x y : slot_ext x y → a_live y.1 = true → Safe (L ++ [x]) (L ++ [y]).
Proof.
  intros Hxy Hy. constructor.
  - intros z [Hz | ->%list_elem_of_singleton]%elem_of_app; left.
    + exists z. split; [apply elem_of_app; by left | apply slot_ext_refl].
    + exists y. split; [|done]. apply elem_of_app. right. by apply list_elem_of_singleton.
  - intros L0 z [<- ->]%app_inj_tail _. by exists L, y.
Qed.

(** Dropping the first segment. *)
Lemma Safe_drop x K : a_live x.1 = false → (acked_users x.1 ∨ a_users x.1 = []) → Safe (x :: K) K.
Proof.
  intros Hx Ha. constructor.
  - intros z [-> | Hz]%elem_of_cons.
    + destruct Ha; [by right; left | right; right; by left].
    + left. exists z. split; [done | apply slot_ext_refl].
  - intros L0 z HL Hz. destruct L0 as [|w L0]; injection HL as -> HL; [by rewrite Hz in Hx|].
    exists L0, z. split_and!; [done..|apply slot_ext_refl].
Qed.

Lemma sorted_head_last us q : StronglySorted Z.le us → q ∈ us → default 0 (head us) ≤ q ≤ default 0 (last us).
Proof.
  induction 1 as [|u us Hs IH Hu]; intros Hq; [by apply not_elem_of_nil in Hq|].
  rewrite Forall_forall in Hu. cbn [head default]. rewrite last_cons.
  apply elem_of_cons in Hq as [-> | Hq].
  - destruct (last us) as [z|] eqn:Hl; cbn; [|lia]. apply last_Some_elem_of in Hl. specialize (Hu z Hl). cbn. lia.
  - specialize (IH Hq). specialize (Hu q Hq). destruct (last us) as [z|] eqn:Hl; cbn in *; [lia|].
    apply last_None in Hl. subst us. by apply not_elem_of_nil in Hq.
Qed.

Lemma loss_of_covers a q : StronglySorted Z.le (a_users a) → q ∈ a_users a → covers (loss_of a) (a_gen a) q.
Proof. intros Hs Hq. split; [done|]. by apply sorted_head_last. Qed.

Lemma a_users_range a q : seg_wf max a → q ∈ a_users a → 0 ≤ q < 2 ^ 63.
Proof.
  intros (_ & _ & _ & Hr) Hq. unfold a_users in Hq. apply list_elem_of_omap in Hq as (r & Hr' & Heq).
  rewrite Forall_forall in Hr. specialize (Hr r Hr'). destruct r; [|done]. injection Heq as <-. apply Hr.
Qed.

Lemma rec_wf_loss_of g a : 38 ≤ max → seg_wf max a → rec_wf max g (ALoss (loss_of a)).
Proof.
  intros H38 Ha. split.
  - cbn [enc]. unfold fits. rewrite length_encodeLossPayload. cbn. lia.
  - assert (Hd : ∀ z, z ∈ a_users a ∨ z = 0 → is_uint 64 z).
    { intros z [Hz| ->]; [apply (a_users_range a z Ha) in Hz|]; unfold is_uint; lia. }
    split_and!; cbn; [apply Hd | apply Hd | apply Ha].
    + destruct (a_users a) as [|u us]; [by right|]. left. cbn. apply elem_of_cons. by left.
    + destruct (last (a_users a)) as [z|] eqn:Hl; [left | by right]. cbn. by apply last_Some_elem_of in Hl.
Qed.

Lemma t_amb {A} op P (m : WalM OsErr A) Q X : triple P m Q X → triple P (ambiguous op m) Q (λ _, True).
Proof.
  intros Hm s Hs. unfold ambiguous. specialize (Hm s Hs). destruct (m s) as [[a|e] [w W]]; [done|]. by destruct Hm.
Qed.

(** There is a live segment. *)
Definition has_live (w : WAL) : bool := match w_current w with Some _ => true | None => false end.
(** How many segments may still have to be opened for markers. *)
Definition spare (c : bool) : Z := if c then 0 else 1.

Lemma spare_nonneg c : 0 ≤ spare c.
Proof. by destruct c. Qed.

Lemma Inv_live n L s seg : Inv n L s → w_current s.1 = Some seg →
  ∃ L0 a i, L = L0 ++ [(a, i)] ∧ Forall is_sealed_slot L0 ∧ a_live a = true ∧ seg = seg_of max a i.
Proof. intros HI Hc. pose proof (iv_live _ _ _ HI) as Hl. by rewrite Hc in Hl. Qed.

Lemma Inv_no_live n L s : Inv n L s → w_current s.1 = None → Forall is_sealed_slot L.
Proof. intros HI Hc. pose proof (iv_live _ _ _ HI) as Hl. by rewrite Hc in Hl. Qed.

Lemma not_live_last L : Forall is_sealed_slot L → ∀ L0 x, L = L0 ++ [x] → a_live x.1 = false.
Proof. intros HF L0 x ->. apply Forall_app in HF as [_ HF]. by inversion HF. Qed.

Lemma existsb_sealed L : Forall is_sealed_slot L → existsb (λ x, a_live x.1) L = false.
Proof. induction 1 as [|x L Hx _ IH]; [done|]. cbn. by rewrite Hx, IH. Qed.

Lemma Inv_has_live n L s : Inv n L s → has_live s.1 = existsb (λ x, a_live x.1) L.
Proof.
  intros HI. unfold has_live. destruct (w_current s.1) as [seg|] eqn:Hc.
  - destruct (Inv_live _ _ _ _ HI Hc) as (L0 & a & i & -> & HF & Ha & _). rewrite existsb_app. cbn. by rewrite Ha, orb_true_r.
  - symmetry. apply existsb_sealed. by eapply Inv_no_live.
Qed.

(** One marker, into the live segment or into a fresh one. *)
Lemma t_marker c n L gen l : top_is gen → 0 ≤ n → n + spare c < 2 ^ 64 → is_uint 32 gen → (∀ g, rec_wf max g (ALoss l)) →
  triple (λ s, Inv n L s ∧ has_live s.1 = c)
    (overflow_marker gen l)
    (λ _ s, ∃ n' L0 y, Inv n' (L0 ++ [y]) s ∧ a_live y.1 = true ∧ ALoss l ∈ a_recs y.1 ∧ Safe L (L0 ++ [y]) ∧
            has_live s.1 = true ∧ n ≤ n' ∧ n' ≤ n + spare c ∧ sealed_of (L0 ++ [y]) = sealed_of L)
    (λ _, True).
Proof.
  intros Htop Hn Hb Hg Hl s [HI <-]. unfold overflow_marker. unfold bindM at 1, mget.
  destruct (w_current s.1) as [seg|] eqn:Hc.
  - destruct (Inv_live _ _ _ _ HI Hc) as (L0 & a & i & HL & HF & Ha & ->). subst L.
    unfold bindM, ret. pose proof (t_amb "overflow-loss" _ _ _ _ (t_appendLoss n L0 a i l (Hl _)) s (conj HI Hc)) as Ht.
    destruct (ambiguous _ _ s) as [[[]|e] s']; [|done]. destruct Ht as [[HI' Hc'] Hf]. split; [|done].
    exists n, L0, (add_rec (ALoss l) a, i). unfold has_live. rewrite Hc', Hc. cbn [spare].
    split_and!; try done; try lia.
    + cbn. apply elem_of_app. right. by apply list_elem_of_singleton.
    + apply Safe_last; [|done]. split_and!; [done..|]. cbn. by eexists.
    + unfold sealed_of. rewrite !List.filter_app. cbn. by rewrite Ha.
  - unfold has_live in Hb. rewrite Hc in Hb. cbn in Hb. pose proof (Inv_no_live _ _ _ HI Hc) as HF.
    pose proof (t_amb "overflow-open" _ _ _ _ (t_open_current n L gen FlagGenInit Htop Hn Hb Hg (or_intror eq_refl)) s (conj HI Hc)) as Ht.
    unfold bindM. destruct (ambiguous _ _ s) as [[[]|e] s1]; [|done]. destruct Ht as [(i & HI1 & Hc1) Hf1].
    set (a := fresh_seg n gen FlagGenInit) in *.
    pose proof (t_amb "overflow-loss" _ _ _ _ (t_appendLoss (n + 1) L a i l (Hl _)) s1 (conj HI1 Hc1)) as Ht.
    destruct (ambiguous _ _ s1) as [[[]|e] s']; [|destruct Ht as [_ Ht]; split; [done|]; intros Hcc; by apply Ht, Hf1].
    destruct Ht as [[HI' Hc'] Hf]. split; [|by intros Hcc; apply Hf, Hf1].
    exists (n + 1), L, (add_rec (ALoss l) a, i). unfold has_live. rewrite Hc', Hc. cbn [spare].
    split_and!; try done; try lia.
    + cbn. apply list_elem_of_singleton. done.
    + apply Safe_app_r. by apply not_live_last.
    + unfold sealed_of. rewrite List.filter_app. cbn. by rewrite app_nil_r.
Qed.

(** Dropping a segment after marking its range in the live one. *)
Lemma Safe_marked x K L0 y : is_sealed_slot x → StronglySorted Z.le (a_users x.1) → Safe K (L0 ++ [y]) →
  a_live y.1 = true → ALoss (loss_of x.1) ∈ a_recs y.1 → Safe (x :: K) (L0 ++ [y]).
Proof.
  intros Hx Hus [HA HV] Hy Hl. constructor.
  - intros z [-> | Hz]%elem_of_cons; [|by apply HA]. right; right; right.
    exists L0, y, (loss_of x.1). split_and!; [done..|]. intros q Hq. by apply loss_of_covers.
  - intros M z HM Hz. destruct M as [|m M]; injection HM as -> HM; [unfold is_sealed_slot in Hx; congruence|]. by apply (HV M z).
Qed.

Definition Reclaimed (c : bool) (n : Z) (L : Slots) (s : WAL * World) : Prop :=
  ∃ n' L', Inv n' L' s ∧ Safe L L' ∧ n ≤ n' ∧ n' + spare (has_live s.1) ≤ n + spare c ∧
           (over_budget s.1 = false ∨ sealed_of L' = []).

(** The second phase ends under budget or with nothing left to drop; whatever it
    dropped is acknowledged, empty, or covered by a marker. *)
Lemma t_overflow_loop c fuel n L gen : top_is gen → 38 ≤ max → 0 ≤ n → n + spare c < 2 ^ 64 → is_uint 32 gen →
  (length (sealed_of L) < fuel)%nat →
  triple (λ s, Inv n L s ∧ has_live s.1 = c) (overflow_loop fuel gen) (λ _, Reclaimed c n L) (λ _, True).
Proof.
  intros Htop H38. revert c n L. induction fuel as [|fuel IH]; intros c n L Hn Hb Hg Hfuel; [lia|].
  cbn [overflow_loop]. intros s [HI Hc]. unfold bindM at 1, mget.
  destruct (over_budget s.1) eqn:Hov; cbn [negb].
  2:{ split; [|done]. exists n, L. rewrite Hc. split_and!; [done | apply Safe_refl | lia | lia | by left]. }
  assert (Hwfs : Forall (λ x, seg_wf max x.1) L) by apply (iv_rep _ _ _ HI).
  pose proof (iv_users _ _ _ HI) as Hus. rewrite (Inv_has_live _ _ _ HI) in Hc. clear Hov. revert s HI.
  eapply t_bind; [eapply t_amb, t_dropOldest|]. intros [[l b]|].
  - apply t_exists. intros x. apply t_exists. intros K. apply t_pure. intros ->. apply t_pure. intros Hx.
    apply t_pure. intros ->. apply t_pure. intros ->.
    apply Forall_cons in Hwfs as [Hwf _]. apply Forall_cons in Hus as [[Hus _] _].
    cbn in Hc. rewrite Hx in Hc. cbn in Hc.
    assert (HfK : (length (sealed_of K) < fuel)%nat) by (unfold sealed_of in *; cbn in Hfuel; rewrite Hx in Hfuel; cbn in Hfuel; lia).
    assert (HcK : ∀ s, Inv n K s → Inv n K s ∧ has_live s.1 = c) by (intros s HI; split; [done|]; by rewrite (Inv_has_live _ _ _ HI)).
    case_bool_decide as Hu; cbn [negb].
    + eapply t_conseq; [apply (IH c n K Hn Hb Hg HfK) | done | | done].
      intros [] s2 (n' & L' & HI' & HS & Hb1 & Hb2 & Hdone). exists n', L'. split_and!; try done.
      eapply Safe_trans; [|exact HS]. apply Safe_drop; [done | by right].
    + eapply t_bind.
      { eapply t_pre; [apply (t_marker c n K gen (loss_of x.1)); try done; intros g; by apply rec_wf_loss_of | done]. }
      intros []. apply t_exists. intros n1. apply t_exists. intros L0. apply t_exists. intros y.
      intros s2 (HI2 & Hy & Hl & HS & Hc2 & Hn1 & Hn2 & Hseal).
      assert (Hf2 : (length (sealed_of (L0 ++ [y])) < fuel)%nat) by (by rewrite Hseal).
      pose proof (IH true n1 (L0 ++ [y]) ltac:(lia) ltac:(cbn; lia) Hg Hf2 s2 (conj HI2 Hc2)) as Ht.
      destruct (overflow_loop fuel gen s2) as [[[]|e] s3]; [|done].
      destruct Ht as [(n' & L' & HI' & HS' & Hb1 & Hb2 & Hdone) Hf3]. split; [|done].
      exists n', L'. cbn [spare] in Hb2. split_and!; try done; try lia.
      eapply Safe_trans; [|exact HS']. by eapply Safe_marked.
  - apply t_pure. intros Hs s HI. split; [|done]. exists n, L. rewrite (Inv_has_live _ _ _ HI), Hc.
    split_and!; [done | apply Safe_refl | lia | lia | by right].
Qed.
(** ** Append *)

Definition Ext (L L' : Slots) : Prop := ∀ x, x ∈ L → ∃ y, y ∈ L' ∧ slot_ext x y.

Lemma Ext_refl L : Ext L L.
Proof. intros x Hx. exists x. split; [done | apply slot_ext_refl]. Qed.

Lemma Ext_trans L1 L2 L3 : Ext L1 L2 → Ext L2 L3 → Ext L1 L3.
Proof.
  intros H1 H2 x Hx. destruct (H1 x Hx) as (y & Hy & Hxy). destruct (H2 y Hy) as (z & Hz & Hyz).
  exists z. split; [done | by eapply slot_ext_trans].
Qed.

Lemma Ext_app L N : Ext L (L ++ N).
Proof. intros x Hx. exists x. split; [apply elem_of_app; by left | apply slot_ext_refl]. Qed.

Lemma Ext_last L x y : slot_ext x y → Ext (L ++ [x]) (L ++ [y]).
Proof.
  intros Hxy z [Hz | ->%list_elem_of_singleton]%elem_of_app.
  - exists z. split; [apply elem_of_app; by left | apply slot_ext_refl].
  - exists y. split; [|done]. apply elem_of_app. right. by apply list_elem_of_singleton.
Qed.

(** The same segment, possibly sealed since. *)
Definition seg_le (x y : ASeg * nat) : Prop :=
  x.2 = y.2 ∧ seal_seg x.1 = seal_seg y.1 ∧ (a_live y.1 = true → a_live x.1 = true).

Lemma seg_le_fields x y : seg_le x y → a_idx x.1 = a_idx y.1 ∧ a_gen x.1 = a_gen y.1 ∧ a_flags x.1 = a_flags y.1 ∧ a_recs x.1 = a_recs y.1.
Proof. intros (_ & Hs & _). unfold seal_seg in Hs. by injection Hs. Qed.

(** Segments are sealed, and empty ones opened at index [n] or above; no record comes
    or goes. *)
Definition Grow (n : Z) (L L' : Slots) : Prop :=
  ∃ M N, L' = M ++ N ∧ Forall2 seg_le L M ∧ Forall (λ y, a_recs y.1 = [] ∧ n ≤ a_idx y.1) N.

Lemma seg_le_refl L : Forall2 seg_le L L.
Proof. by apply Forall_Forall2_diag, Forall_forall. Qed.

Lemma seg_le_trans A B C : Forall2 seg_le A B → Forall2 seg_le B C → Forall2 seg_le A C.
Proof.
  intros HA. revert C. induction HA as [|x y A B Hxy _ IH]; intros C HC; inversion HC as [|? z ? ? Hyz]; subst; constructor; [|by apply IH].
  destruct Hxy as (? & ? & ?), Hyz as (? & ? & ?). split_and!; [congruence..|tauto].
Qed.

Lemma Grow_refl n L : Grow n L L.
Proof. exists L, []. rewrite app_nil_r. split_and!; [done | apply seg_le_refl | done]. Qed.

Lemma Grow_mono n n' L L' : n ≤ n' → Grow n' L L' → Grow n L L'.
Proof.
  intros Hn (M & N & -> & HM & HN). exists M, N. split_and!; [done..|]. eapply Forall_impl; [exact HN|]. cbn. intros y [? ?]. split; [done | lia].
Qed.

Lemma Grow_trans n L1 L2 L3 : Grow n L1 L2 → Grow n L2 L3 → Grow n L1 L3.
Proof.
  intros (M & N & -> & HM & HN) (M' & N' & -> & HM' & HN'). apply Forall2_app_inv_l in HM' as (K1 & K2 & HK1 & HK2 & ->).
  exists K1, (K2 ++ N'). split_and!; [by rewrite app_assoc | |].
  - by eapply seg_le_trans.
  - apply Forall_app. split; [|done]. clear -HN HK2. induction HK2 as [|x y K K' Hxy _ IH]; [done|].
    apply Forall_cons in HN as [[Hr Hi] HN]. apply seg_le_fields in Hxy as (Hxi & _ & _ & Hxr).
    constructor; [|by apply IH]. split; [congruence | lia].
Qed.

Lemma Grow_fresh L n gen fl i : Grow n L (L ++ [(fresh_seg n gen fl, i)]).
Proof. exists L, [(fresh_seg n gen fl, i)]. split_and!; [done | apply seg_le_refl |]. apply Forall_singleton. cbn. split; [done | lia]. Qed.

Lemma Grow_seal n L a i : Grow n (L ++ [(a, i)]) (L ++ [(seal_seg a, i)]).
Proof.
  exists (L ++ [(seal_seg a, i)]), []. rewrite app_nil_r. split_and!; [done | | done].
  apply Forall2_app; [apply seg_le_refl|]. by repeat constructor.
Qed.

Lemma Grow_Ext n L L' : Grow n L L' → Ext L L'.
Proof.
  intros (M & N & -> & HM & _) x Hx. apply list_elem_of_lookup in Hx as [ix Hk].
  destruct (Forall2_lookup_l _ _ _ _ _ HM Hk) as (y & Hy & Hxy). exists y. split; [apply elem_of_app; left; by eapply list_elem_of_lookup_2|].
  pose proof (seg_le_fields _ _ Hxy) as (? & ? & ? & Hr). destruct Hxy as (? & _ & _). split_and!; try done. by rewrite Hr.
Qed.

Lemma Grow_has_rec n L L' g r : Grow n L L' → has_rec L' g r → has_rec L g r.
Proof.
  intros (M & N & -> & HM & HN) [(y & Hy & Hg & Hr)|(y & Hy & Hg & Hr)]%has_rec_app.
  - apply list_elem_of_lookup in Hy as [ix Hk]. destruct (Forall2_lookup_r _ _ _ _ _ HM Hk) as (x & Hx & Hxy).
    apply seg_le_fields in Hxy as (_ & Hxg & _ & Hxr). exists x. split_and!; [by eapply list_elem_of_lookup_2 | congruence | by rewrite Hxr].
  - rewrite Forall_forall in HN. destruct (HN y Hy) as [Hnil _]. rewrite Hnil in Hr. by apply not_elem_of_nil in Hr.
Qed.

(** Every segment survives, is acknowledged, or is covered by a marker. *)
Definition Kept (L L' : Slots) : Prop := ∀ x, x ∈ L →
  (∃ y, y ∈ L' ∧ slot_ext x y) ∨ acked_users x.1 ∨ a_users x.1 = [] ∨
  ∃ y l, y ∈ L' ∧ ALoss l ∈ a_recs y.1 ∧ ∀ q, q ∈ a_users x.1 → covers l (a_gen x.1) q.

Lemma Safe_Kept L L1 L2 : Safe L L1 → Ext L1 L2 → Kept L L2.
Proof.
  intros [HA _] HE x Hx. destruct (HA x Hx) as [(y & Hy & Hxy) | [Ha | [He | (L0 & y & l & -> & Hy & Hl & Hq)]]].
  - left. destruct (HE y Hy) as (z & Hz & Hyz). exists z. split; [done | by eapply slot_ext_trans].
  - by right; left.
  - by right; right; left.
  - right; right; right. destruct (HE y) as (z & Hz & Hyz); [apply elem_of_app; right; by apply list_elem_of_singleton|].
    exists z, l. split_and!; [done | | done]. destruct Hyz as (_ & _ & _ & _ & [t Ht]). rewrite Ht. apply elem_of_app. by left.
Qed.

Lemma Safe_drops D K : Forall (λ x, fully_acked x.1 = true ∧ is_sealed_slot x) D → Safe (D ++ K) K.
Proof.
  induction 1 as [|x D [Hx Hs] _ IH]; [apply Safe_refl|]. cbn. eapply Safe_trans; [|exact IH].
  apply Safe_drop; [done|]. left. intros q Hq. by apply fully_acked_users.
Qed.

Lemma Rep_size W L : Rep max W L → size (w_dir W) = length L.
Proof.
  intros HR. rewrite <- size_dom. unfold size, set_size. cbn.
  rewrite (Rep_dom _ _ _ HR). by rewrite length_fmap.
Qed.

Lemma length_sealed_of L : (length (sealed_of L) ≤ length L)%nat.
Proof. unfold sealed_of. induction L as [|x L IH]; [done|]. cbn. destruct (negb _); cbn; lia. Qed.

Lemma t_reclaim c n L gen : top_is gen → 38 ≤ max → 0 ≤ n → n + spare c < 2 ^ 64 → is_uint 32 gen →
  triple (λ s, Inv n L s ∧ has_live s.1 = c) (reclaim gen) (λ _, Reclaimed c n L) (λ _, True).
Proof.
  intros Htop H38 Hn Hb Hg. unfold reclaim. intros s [HI Hc]. unfold bindM at 1, mget.
  destruct (over_budget s.1) eqn:Hov; cbn [negb].
  2:{ split; [|done]. exists n, L. rewrite Hc. split_and!; [done | apply Safe_refl | lia | lia | by left]. }
  rewrite (Inv_has_live _ _ _ HI) in Hc. clear Hov. revert s HI.
  eapply t_bind; [eapply t_amb, t_gcAcked|]. intros cnt. apply t_exists. intros D. apply t_exists. intros K.
  apply t_pure. intros ->. apply t_pure. intros HD.
  assert (HcK : existsb (λ x, a_live x.1) K = c).
  { rewrite existsb_app, existsb_sealed in Hc; [done|]. eapply Forall_impl; [exact HD|]. by intros x []. }
  intros s HI. unfold bindM, mget. rewrite (Rep_size _ _ (iv_rep _ _ _ HI)).
  assert (Hlen : (length (sealed_of K) < S (length K))%nat) by (pose proof (length_sealed_of K); lia).
  assert (Hcs : has_live s.1 = c) by by rewrite (Inv_has_live _ _ _ HI).
  pose proof (t_overflow_loop c _ n K gen Htop H38 Hn Hb Hg Hlen s (conj HI Hcs)) as Ht.
  destruct (overflow_loop _ _ s) as [[[]|e] s']; [|done].
  destruct Ht as [(n' & L' & HI' & HS & H1 & H2 & H3) Hf]. split; [|done]. exists n', L'. split_and!; try done.
  eapply Safe_trans; [by apply Safe_drops | done].
Qed.

Lemma t_seal_current n L0 a i : Forall is_sealed_slot L0 → a_live a = true →
  triple (λ s, Inv n (L0 ++ [(a, i)]) s ∧ w_current s.1 = Some (seg_of max a i)) sealCurrentLocked
    (λ _ s, Inv n (L0 ++ [(seal_seg a, i)]) s ∧ w_current s.1 = None) (λ _, True).
Proof.
  intros HF Ha [w W] [HI Hc]. cbn in Hc. unfold sealCurrentLocked. unfold bindM at 1, this, mget. cbn [fst]. rewrite Hc.
  unfold bindM. rewrite (run_on_current _ w W _ Hc).
  pose proof (t_seal max L0 a i Ha (seg_of max a i, W) (conj eq_refl (iv_rep _ _ _ HI))) as Ht.
  destruct (Seal _) as [[p|e] [seg W']]; cbn [fst snd]; [|exact (conj I (proj2 Ht))].
  destruct Ht as [HR Hf]. cbn in HR. unfold modify, mput. cbn [fst snd]. split; [|exact Hf]. split; [|done].
  destruct HI as [_ ? ? ? ? ? ? Hidx Hlive Hus Htot Hnf Hct]. cbn in *. constructor; cbn; try done.
  - apply Forall_app in Hidx as [H1 H2]. apply Forall_app. split; [done|]. inversion H2; subst. by apply Forall_singleton.
  - apply Forall_app. split; [done|]. by apply Forall_singleton.
  - apply Forall_app in Hus as [H1 H2]. apply Forall_app. split; [done|]. inversion H2; subst. by apply Forall_singleton.
  - intros Hn. specialize (Htot Hn). rewrite disk_bytes_app in *. exact Htot.
  - intros Hn. by apply Hf, Hnf.
  - intros Hn top Ht. by apply Counted_seal, (Counted_same top _ w), Hct.
Qed.

(** The live segment has generation [gen]. *)
Definition At (gen : Z) (L : Slots) (s : WAL * World) : Prop :=
  ∃ L0 a i, L = L0 ++ [(a, i)] ∧ Forall is_sealed_slot L0 ∧ a_live a = true ∧ a_gen a = gen ∧
            w_current s.1 = Some (seg_of max a i).

Lemma slot_ext_seal a i : slot_ext (a, i) (seal_seg a, i).
Proof. by repeat split. Qed.

(** Seal the live segment and open one of generation [gen]. *)
Lemma t_roll op1 op2 n L0 a i gen fl : top_is gen → 0 ≤ n → n + 1 < 2 ^ 64 → is_uint 32 gen → (fl = 0 ∨ fl = FlagGenInit) →
  Forall is_sealed_slot L0 → a_live a = true →
  triple (λ s, Inv n (L0 ++ [(a, i)]) s ∧ w_current s.1 = Some (seg_of max a i))
    (do* ambiguous op1 sealCurrentLocked in ambiguous op2 (open_current gen fl))
    (λ _ s, ∃ L', Inv (n + 1) L' s ∧ Grow n (L0 ++ [(a, i)]) L' ∧ At gen L' s) (λ _, True).
Proof.
  intros Htop Hn Hb Hg Hfl HF Ha. eapply t_bind; [eapply t_amb, t_seal_current; done|]. intros [].
  eapply t_post; [eapply t_amb, t_open_current; done|]. intros [] s (j & HI & Hc).
  exists ((L0 ++ [(seal_seg a, i)]) ++ [(fresh_seg n gen fl, j)]). split_and!; [done | |].
  - eapply Grow_trans; [apply Grow_seal | apply Grow_fresh].
  - exists (L0 ++ [(seal_seg a, i)]), (fresh_seg n gen fl), j. split_and!; try done.
    apply Forall_app. split; [done|]. by apply Forall_singleton.
Qed.

(** A step that opens at most one segment and drops none. *)
Definition Rolled (n : Z) (L : Slots) (P : Slots → WAL * World → Prop) (s : WAL * World) : Prop :=
  ∃ n' L', Inv n' L' s ∧ Grow n L L' ∧ n ≤ n' ∧ n' ≤ n + 1 ∧ P L' s.

Lemma t_roll_generation n L gen : top_is gen → 0 ≤ n → n + 1 < 2 ^ 64 → is_uint 32 gen →
  triple (Inv n L) (roll_generation gen)
    (λ _, Rolled n L (λ L' s, w_current s.1 = None ∨ At gen L' s)) (λ _, True).
Proof.
  intros Htop Hn Hb Hg s HI. unfold roll_generation. unfold bindM at 1, mget.
  destruct (w_current s.1) as [seg|] eqn:Hc.
  2:{ split; [|done]. exists n, L. split_and!; [done | apply Grow_refl | lia | lia | by left]. }
  destruct (Inv_live _ _ _ _ HI Hc) as (L0 & a & i & -> & HF & Ha & ->). cbn [seg_of s_gen].
  destruct (Z.eqb_spec (a_gen a) gen) as [Hgen|Hgen].
  { split; [|done]. exists n, (L0 ++ [(a, i)]). split_and!; [done | apply Grow_refl | lia | lia | right].
    by exists L0, a, i. }
  pose proof (t_roll "seal-on-gen-roll" "open-on-gen-roll" n L0 a i gen FlagGenInit Htop Hn Hb Hg (or_intror eq_refl) HF Ha
                s (conj HI Hc)) as Ht.
  unfold bindM in *. destruct (ambiguous "seal-on-gen-roll" sealCurrentLocked s) as [[[]|e] s1]; [|done].
  destruct (ambiguous "open-on-gen-roll" _ s1) as [[[]|e] s2]; [|done].
  destruct Ht as [(L' & HI' & HE & HA) Hf]. split; [|done]. exists (n + 1), L'.
  split_and!; [done.. | lia | lia | by right].
Qed.

Lemma t_open_first n L gen : top_is gen → 0 ≤ n → n + 1 < 2 ^ 64 → is_uint 32 gen →
  triple (λ s, Inv n L s ∧ (w_current s.1 = None ∨ At gen L s)) (open_first gen)
    (λ _, Rolled n L (At gen)) (λ _, True).
Proof.
  intros Htop Hn Hb Hg s [HI Hor]. unfold open_first. unfold bindM, mget. destruct (w_current s.1) as [seg|] eqn:Hc.
  - split; [|done]. exists n, L. destruct Hor as [|HA]; [done|]. split_and!; [done | apply Grow_refl | lia | lia | done].
  - pose proof (t_amb "open-first" _ _ _ _ (t_open_current n L gen FlagGenInit Htop Hn Hb Hg (or_intror eq_refl)) s (conj HI Hc)) as Ht.
    destruct (ambiguous _ _ s) as [[[]|e] s']; [|done]. destruct Ht as [(i & HI' & Hc') Hf]. split; [|done].
    eexists (n + 1), _. split_and!; [exact HI' | apply Grow_fresh | lia | lia |].
    exists L, (fresh_seg n gen FlagGenInit), i. split_and!; try done. by eapply Inv_no_live.
Qed.

Lemma t_roll_full n L gen p : top_is gen → 0 ≤ n → n + 1 < 2 ^ 64 → is_uint 32 gen →
  triple (λ s, Inv n L s ∧ At gen L s) (roll_full gen p) (λ _, Rolled n L (At gen)) (λ _, True).
Proof.
  intros Htop Hn Hb Hg s [HI (L0 & a & i & -> & HF & Ha & Hgen & Hc)]. unfold roll_full. unfold bindM at 1, mget.
  rewrite Hc. destruct (_ <? _).
  - pose proof (t_roll "seal-on-full" "open-on-full" n L0 a i gen 0 Htop Hn Hb Hg (or_introl eq_refl) HF Ha s (conj HI Hc)) as Ht.
    destruct (bindM _ _ s) as [[[]|e] s']; [|done]. destruct Ht as [(L' & HI' & HE & HA) Hf]. split; [|done].
    exists (n + 1), L'. split_and!; [done.. | lia | lia | done].
  - split; [|done]. exists n, (L0 ++ [(a, i)]). split_and!; [done | apply Grow_refl | lia | lia |]. by exists L0, a, i.
Qed.

(** The log after a successful append. *)
Definition Appended (n : Z) (L : Slots) (seq gen : Z) (p : bytes) (s : WAL * World) : Prop :=
  ∃ n' L0 a i, Inv n' (L0 ++ [(add_rec (AUser seq p) a, i)]) s ∧ a_gen a = gen ∧ n ≤ n' ∧ n' ≤ n + 4 ∧
               Kept L (L0 ++ [(add_rec (AUser seq p) a, i)]) ∧ Forall is_sealed_slot L0 ∧ a_live a = true.



(** The part after reclaiming drops nothing. *)
Definition Placed (n : Z) (L : Slots) (seq gen : Z) (p : bytes) (s : WAL * World) : Prop :=
  ∃ n' L0 a i, Inv n' (L0 ++ [(add_rec (AUser seq p) a, i)]) s ∧ a_gen a = gen ∧ n ≤ n' ∧ n' ≤ n + 3 ∧
               Ext L (L0 ++ [(add_rec (AUser seq p) a, i)]) ∧ Forall is_sealed_slot L0 ∧ a_live a = true ∧
               (∀ g r, has_rec (L0 ++ [(add_rec (AUser seq p) a, i)]) g r → has_rec L g r ∨ (g = gen ∧ r = AUser seq p)) ∧
               Grow n L (L0 ++ [(a, i)]).

Lemma t_append_record n L q gen p :
  top_is gen → 0 ≤ n → n + 3 < 2 ^ 64 → is_uint 32 gen → 0 ≤ q < 2 ^ 63 → q ≠ sentinel_seq →
  20 + Z.of_nat (length p) ≤ max → (∀ u p', U gen u p' → u ≤ q) → U gen q p →
  triple (Inv n L) (append_record SyncImmediate q gen p) (λ _, Placed n L q gen p) (λ _, True).
Proof.
  intros Htop Hn Hb Hg Hq Hqs Hp HU HUq. unfold append_record.
  eapply t_bind; [apply (t_roll_generation n L gen); try done; lia|]. intros rolled.
  apply t_exists. intros n2. apply t_exists. intros L2. intros s (HI2 & HE2 & Hn2 & Hn2' & HA2).
  assert (Hpre : Inv n2 L2 s ∧ (w_current s.1 = None ∨ At gen L2 s)) by done. clear HI2 HA2. revert s Hpre.
  eapply t_bind; [apply (t_open_first n2 L2 gen); try done; lia|]. intros [].
  apply t_exists. intros n3. apply t_exists. intros L3. intros s (HI3 & HE3 & Hn3 & Hn3' & HA3).
  assert (Hpre : Inv n3 L3 s ∧ At gen L3 s) by done. clear HI3 HA3. revert s Hpre.
  eapply t_bind; [apply (t_roll_full n3 L3 gen p); try done; lia|]. intros [].
  apply t_exists. intros n4. apply t_exists. intros L4.
  intros s (HI4 & HE4 & Hn4 & Hn4' & (L0 & a & i & -> & HF & Ha & Hga & Hc)).
  assert (Hr : rec_wf max (a_gen a) (AUser q p)).
  { split; [|done]. unfold fits. cbn [enc]. rewrite length_encodeSeqGenFrame. lia. }
  assert (Husers : users_ok (add_rec (AUser q p) a)).
  { pose proof (last_users _ _ _ _ _ HI4) as Hok. pose proof Hok as [Hs1 Hs2]. unfold users_ok. rewrite add_user_users. split.
    - apply sorted_snoc; [done|]. apply Forall_forall. intros u Hu. destruct (users_ok_elem _ _ Hok Hu) as [p' Hp'].
      rewrite Hga in Hp'. by eapply HU.
    - apply Forall_app. split; [done|]. apply Forall_singleton. cbn. by rewrite Hga. }
  assert (Hle : Forall (λ u, u ≤ q) (gen_users (a_gen a) L0 ++ a_users a)).
  { pose proof (iv_users _ _ _ HI4) as Hall. rewrite Forall_forall in Hall. apply Forall_forall. intros u Hu.
    assert (Hu' : u ∈ gen_users gen (L0 ++ [(a, i)])) by (by rewrite gen_users_app, gen_users_single; cbn; rewrite Hga, Z.eqb_refl; rewrite <- Hga).
    apply gen_users_elem in Hu' as (x & Hx & Hxg & Hxu). destruct (users_ok_elem _ _ (Hall x Hx) Hxu) as [p' Hp'].
    rewrite Hxg in Hp'. by eapply HU. }
  assert (HG : Grow n L (L0 ++ [(a, i)])).
  { eapply Grow_trans; [exact HE2|]. eapply Grow_trans; [eapply Grow_mono; [|exact HE3]; lia | eapply Grow_mono; [|exact HE4]; lia]. }
  pose proof (Grow_Ext _ _ _ HG) as HE. pose proof (λ g r, Grow_has_rec _ _ _ g r HG) as Hrec.
  assert (HK : Ext L (L0 ++ [(add_rec (AUser q p) a, i)])).
  { eapply Ext_trans; [exact HE|]. apply Ext_last. split_and!; [done..|]. cbn. by eexists. }
  assert (HR : ∀ g r, has_rec (L0 ++ [(add_rec (AUser q p) a, i)]) g r → has_rec L g r ∨ (g = gen ∧ r = AUser q p)).
  { intros g r [Hr0|[Hr1 Hr2]%has_rec_single]%has_rec_app; [left; apply Hrec, has_rec_app; by left|].
    cbn in Hr1, Hr2. apply elem_of_app in Hr2 as [Hr2|Hr2%list_elem_of_singleton].
    - left. apply Hrec, has_rec_app. right. by apply has_rec_single.
    - right. split; [by rewrite <- Hr1, <- Hga | done]. }
  assert (Hpre : Inv n4 (L0 ++ [(a, i)]) s ∧ w_current s.1 = Some (seg_of max a i)) by done.
  clear HI4 Hc. revert s Hpre. subst gen.
  eapply t_bind; [eapply t_amb, (t_on_write n4 L0 a i (AUser q p)); done|]. intros [].
  eapply t_bind; [eapply t_amb, t_on_sync; done|]. intros [].
  eapply t_bind with (R := λ _ s, Inv n4 (L0 ++ [(add_rec (AUser q p) a, i)]) s).
  { apply t_put. intros s Hs. split; [|done]. cbn [fst snd]. eapply (Inv_appended n4 L0 a i (AUser q p) s); [exact Hs | done..|].
    intros _ top _ HC. apply (Counted_add_user _ _ _ _ _ _ _ _ HC Hle); cbn; [|done].
    unfold to_uint64. by rewrite Z.mod_small by lia. }
  intros [] s HI. split; [|done]. exists n4, L0, a, i. split_and!; try done; lia.
Qed.

(** The guards of Append, passed. *)
Lemma Append_guarded n L s q gen p : Inv n L s → o_SegmentSize o = max + SegmentHeaderSize → o_SyncMode o = SyncImmediate →
  20 + Z.of_nat (length p) ≤ max →
  Append q gen p s = (do* reclaim gen in append_record SyncImmediate q gen p) s.
Proof.
  intros HI Hsz Hmode Hp. unfold Append. unfold bindM at 1, mget.
  rewrite (iv_closed _ _ _ HI), (iv_fatal _ _ _ HI), (iv_opts _ _ _ HI), Hsz, Hmode.
  by rewrite (proj2 (Z.ltb_ge _ _)) by (unfold recordOverhead; lia).
Qed.

Lemma t_Append n L q gen p :
  top_is gen → 38 ≤ max → 0 ≤ n → n + 4 < 2 ^ 64 → is_uint 32 gen → 0 ≤ q < 2 ^ 63 → q ≠ sentinel_seq →
  o_SegmentSize o = max + SegmentHeaderSize → o_SyncMode o = SyncImmediate →
  20 + Z.of_nat (length p) ≤ max → (∀ u p', U gen u p' → u ≤ q) → U gen q p →
  triple (Inv n L) (Append q gen p) (λ _, Appended n L q gen p) (λ _, True).
Proof.
  intros Htop H38 Hn Hb Hg Hq Hqs Hsz Hmode Hp HU HUq s HI. rewrite (Append_guarded n L) by done.
  set (c := has_live s.1). assert (HIc : Inv n L s ∧ has_live s.1 = c) by done. revert HIc. generalize s, c. clear s HI c.
  intros s c. revert s.
  assert (Hsp : ∀ c, 0 ≤ spare c ≤ 1) by (intros []; cbn; lia).
  eapply t_bind; [apply t_reclaim; try done; specialize (Hsp c); lia|]. intros [].
  apply t_exists. intros n1. apply t_exists. intros L1. intros s (HI1 & HS & Hn1 & Hn1' & _).
  specialize (Hsp c). pose proof (spare_nonneg (has_live s.1)) as Hsp1.
  assert (Hn1b : n1 ≤ n + 1) by lia. clear Hn1' Hsp1. revert s HI1.
  eapply t_post; [apply (t_append_record n1 L1); try done; lia|].
  intros b s (n' & L0 & a & i & HI & Hga & H1 & H2 & HE & HF & Ha & _). exists n', L0, a, i.
  split_and!; try done; try lia. by eapply Safe_Kept.
Qed.

(** Within the budget nothing is dropped. *)
Lemma t_Append_within n L q gen p :
  top_is gen → 0 ≤ n → n + 3 < 2 ^ 64 → is_uint 32 gen → 0 ≤ q < 2 ^ 63 → q ≠ sentinel_seq →
  o_SegmentSize o = max + SegmentHeaderSize → o_SyncMode o = SyncImmediate →
  20 + Z.of_nat (length p) ≤ max → (∀ u p', U gen u p' → u ≤ q) → U gen q p →
  triple (λ s, Inv n L s ∧ over_budget s.1 = false) (Append q gen p) (λ _, Placed n L q gen p) (λ _, True).
Proof.
  intros Htop Hn Hb Hg Hq Hqs Hsz Hmode Hp HU HUq s [HI Hov]. rewrite (Append_guarded n L) by done.
  unfold bindM at 1, reclaim. unfold bindM at 1, mget. rewrite Hov. cbn.
  by apply (t_append_record n L).
Qed.
End wal.
