(* ===== verification/WalRecover.v ===== *)
(** * Acknowledgement, crash and recovery of the write-ahead log

    Continues WalSpec: what MarkAcked removes, which operations leave meta.json
    alone, and what Open finds after a crash, including one in the middle of a
    record. The properties of the log are collected at the end. *)

From S2P Require Import Prelude WalFrame WalFs Wal WalInv WalSpec.
Open Scope Z_scope.

(** ** Operations that leave meta.json alone *)

Class HasMeta (S : Type) := meta_of : S → option Meta.
#[export] Instance World_meta : HasMeta World := w_meta.
#[export] Instance pair_meta {S} : HasMeta (S * World) := λ s, w_meta s.2.

Definition keeps {S E A} `{HasMeta S} (m : M S E A) : Prop := ∀ s, meta_of (m s).2 = meta_of s.

Create HintDb keeps discriminated.

Section keeps_rules.
Context {S E : Type} `{HasMeta S}.

Lemma keeps_ret {A} (a : A) : keeps (ret a : M S E A).
Proof. done. Qed.
Lemma keeps_err {A} (e : E) : keeps (merr e : M S E A).
Proof. done. Qed.
Lemma keeps_get {A} (f : S → A) : keeps (mget f : M S E A).
Proof. done. Qed.
Lemma keeps_mlift {A} (r : Result E A) : keeps (mlift r : M S E A).
Proof. done. Qed.
Lemma keeps_put (f : S → S) : (∀ s, meta_of (f s) = meta_of s) → keeps (mput f : M S E unit).
Proof. intros Hf s. apply Hf. Qed.
Lemma keeps_bind {A B} (m : M S E A) (g : A → M S E B) : keeps m → (∀ a, keeps (g a)) → keeps (bindM m g).
Proof.
  intros Hm Hg s. unfold bindM. specialize (Hm s). destruct (m s) as [[a|e] s1]; [|done].
  by rewrite (Hg a s1).
Qed.
Lemma keeps_try {E' A} (m : M S E A) : keeps m → keeps (mtry m : M S E' _).
Proof. intros Hm s. apply Hm. Qed.
Lemma keeps_ignore {E' A} (m : M S E A) : keeps m → keeps (mignore m : M S E' unit).
Proof. intros Hm s. apply Hm. Qed.
Lemma keeps_err_map {E' A} (f : E → E') (m : M S E A) : keeps m → keeps (merr_map f m).
Proof. intros Hm s. specialize (Hm s). unfold merr_map. by destruct (m s) as [[a|e] s1]. Qed.
End keeps_rules.

Lemma keeps_lift {T A} (m : Os A) : keeps m → keeps (lift m : M (T * World) OsErr A).
Proof. intros Hm [t W]. unfold lift. cbn. specialize (Hm W). by destruct (m W) as [r W']. Qed.
Lemma keeps_zoom {T V A} (get : T → V) put (m : M (V * World) OsErr A) : keeps m → keeps (zoom get put m).
Proof. intros Hm [t W]. unfold zoom. cbn. specialize (Hm (get t, W)). by destruct (m (get t, W)) as [r [v W']]. Qed.
Lemma keeps_modify {T} (f : T → T) : keeps (modify f : M (T * World) OsErr unit).
Proof. by apply keeps_put. Qed.
Lemma keeps_this {T A} (f : T → A) : keeps (this f : M (T * World) OsErr A).
Proof. done. Qed.
Lemma keeps_io : keeps io.
Proof. intros W. unfold io, next_fault, bindM. by destruct (w_faults W) as [|[n|] fs]. Qed.
Lemma keeps_next_fault : keeps next_fault.
Proof. intros W. unfold next_fault. by destruct (w_faults W). Qed.
Lemma keeps_on_current {A} (m : SegM A) : keeps m → keeps (on_current m).
Proof.
  intros Hm [w W]. unfold on_current. cbn. destruct (w_current w) as [seg|]; [|done].
  specialize (Hm (seg, W)). by destruct (m (seg, W)) as [r [seg' W']].
Qed.
Lemma keeps_amb {A} op (m : WalM OsErr A) : keeps m → keeps (ambiguous op m).
Proof. intros Hm s. unfold ambiguous. specialize (Hm s). by destruct (m s) as [[a|e] [w W]]. Qed.
Lemma keeps_with_writer (m : BwM unit) : keeps m → keeps (with_writer m).
Proof. intros Hm W. unfold with_writer. specialize (Hm (fresh_writer, W)). by destruct (m (fresh_writer, W)) as [r [b W']]. Qed.

#[local] Hint Resolve @keeps_ret @keeps_err @keeps_get @keeps_mlift @keeps_bind @keeps_try @keeps_ignore
  @keeps_err_map @keeps_lift @keeps_zoom @keeps_modify @keeps_this keeps_io keeps_next_fault @keeps_on_current
  @keeps_amb keeps_with_writer : keeps.

(** Case analysis down to the primitives. *)
Ltac keep :=
  repeat first
    [ solve [auto with keeps nocore]
    | apply keeps_put; solve [intros []; reflexivity | intros ?; reflexivity]
    | apply keeps_bind; [|intros ?]
    | match goal with |- keeps (match ?x with _ => _ end) => destruct x end
    | apply keeps_amb | apply keeps_on_current | apply keeps_lift | apply keeps_zoom | apply keeps_try
    | apply keeps_ignore | apply keeps_with_writer | apply keeps_err_map ].

Lemma keeps_os_Open n : keeps (os_Open n).
Proof. unfold os_Open. keep. Qed.
Lemma keeps_os_ReadDir : keeps os_ReadDir.
Proof. unfold os_ReadDir. keep. Qed.
Lemma keeps_os_Create n : keeps (os_Create n).
Proof. unfold os_Create. keep. by intros W. Qed.
Lemma keeps_file_Write i d : keeps (file_Write i d).
Proof. unfold file_Write. keep. Qed.
Lemma keeps_file_Sync i : keeps (file_Sync i).
Proof. unfold file_Sync. keep. Qed.
Lemma keeps_file_Truncate i n : keeps (file_Truncate i n).
Proof. unfold file_Truncate. keep. Qed.
Lemma keeps_os_Remove n : keeps (os_Remove n).
Proof. unfold os_Remove. keep. Qed.
Lemma keeps_atomicRename a b : keeps (atomicRename a b).
Proof. unfold atomicRename. keep. Qed.
#[local] Hint Resolve keeps_os_Open keeps_os_ReadDir keeps_os_Create keeps_file_Write keeps_file_Sync keeps_file_Truncate
  keeps_os_Remove keeps_atomicRename : keeps.

Lemma keeps_bw_out i d : keeps (bw_out i d).
Proof. unfold bw_out. keep. Qed.
#[local] Hint Resolve keeps_bw_out : keeps.
Lemma keeps_bw_Flush i : keeps (bw_Flush i).
Proof. unfold bw_Flush. keep. Qed.
#[local] Hint Resolve keeps_bw_Flush : keeps.
Lemma keeps_bw_Write i p : keeps (bw_Write i p).
Proof. unfold bw_Write, bw_buffer. keep. Qed.
#[local] Hint Resolve keeps_bw_Write : keeps.

Lemma keeps_OpenSegment i h n : keeps (OpenSegment i h n).
Proof. unfold OpenSegment, abandon, file_Close, syncDir. keep. Qed.
Lemma keeps_seg_writes cs : keeps (seg_writes cs).
Proof. induction cs as [|c cs IH]; cbn [seg_writes]; unfold on_writer; keep. Qed.
#[local] Hint Resolve keeps_OpenSegment keeps_seg_writes : keeps.
Lemma keeps_WriteRecord p : keeps (Segment_WriteRecord p).
Proof. unfold Segment_WriteRecord. keep. Qed.
Lemma keeps_Segment_Sync : keeps Segment_Sync.
Proof. unfold Segment_Sync, on_writer, on_file. keep. Qed.
#[local] Hint Resolve keeps_WriteRecord keeps_Segment_Sync : keeps.
Lemma keeps_Seal : keeps Seal.
Proof. unfold Seal, on_file, file_Close, syncDir. keep. Qed.
#[local] Hint Resolve keeps_Seal : keeps.

Lemma keeps_segmentHigh n m : keeps (segmentHighSeqAndGen n m).
Proof. unfold segmentHighSeqAndGen. keep. Qed.
Lemma keeps_surviving names acc : keeps (surviving_gens names acc).
Proof.
  revert acc. induction names as [|n ns IH]; intros acc; cbn [surviving_gens]; [done|].
  unfold surviving_gen. keep.
Qed.
Lemma keeps_prune {E} : keeps (prunePerGenMapsLocked : WalM E unit).
Proof.
  intros [w W]. unfold prunePerGenMapsLocked. cbn. pose proof (keeps_os_ReadDir W) as H1.
  destruct (os_ReadDir W) as [[names|e] W1]; [|done]. pose proof (keeps_surviving names ∅ W1) as H2.
  destruct (surviving_gens names ∅ W1) as [[g|e] W2]; unfold meta_of, pair_meta, World_meta in *; cbn in *; congruence.
Qed.
Lemma keeps_remove_counted n : keeps (remove_counted n).
Proof. unfold remove_counted, os_Stat. keep. Qed.
#[local] Hint Resolve keeps_segmentHigh @keeps_prune keeps_remove_counted : keeps.

Lemma keeps_gc_loop l r : keeps (gc_acked_loop l r).
Proof. revert r. induction l as [|e l IH]; intros r; cbn [gc_acked_loop]; keep. Qed.
#[local] Hint Resolve keeps_gc_loop : keeps.
Lemma keeps_gcAcked : keeps gcAckedLocked.
Proof. unfold gcAckedLocked, list_sealed, syncDir. keep. Qed.
Lemma keeps_dropOldest : keeps dropOldestLocked.
Proof. unfold dropOldestLocked, list_sealed, syncDir. keep. Qed.
Lemma keeps_open_current g f : keeps (open_current g f).
Proof. unfold open_current, openNewSegmentLocked. keep. Qed.
Lemma keeps_appendLossLocked l : keeps (appendLossLocked l).
Proof. unfold appendLossLocked. keep. Qed.
Lemma keeps_sealCurrent : keeps sealCurrentLocked.
Proof. unfold sealCurrentLocked. keep. Qed.
#[local] Hint Resolve keeps_gcAcked keeps_dropOldest keeps_open_current keeps_appendLossLocked keeps_sealCurrent : keeps.
Lemma keeps_overflow fuel g : keeps (overflow_loop fuel g).
Proof. induction fuel as [|fuel IH]; cbn [overflow_loop]; [done|]. unfold overflow_marker. keep. Qed.
#[local] Hint Resolve keeps_overflow : keeps.

Lemma keeps_Append q g p : keeps (Append q g p).
Proof. unfold Append, reclaim, roll_generation, open_first, roll_full, clean. keep. Qed.

Lemma keeps_mark_loop l r : keeps (mark_acked_loop l r).
Proof. revert r. induction l as [|e l IH]; intros r; cbn [mark_acked_loop]; keep. Qed.

(** ** Acknowledgement *)

Section ack.
Context (max : Z) (Hmax : bad_max max = false) (o : Options) (c0 : Z) (nf : bool) (gt : option Z) (U : Z → Z → bytes → Prop).
Notation I := (Inv max o).

Lemma Rep_set_meta W L m : Rep max W L → Rep max (set_meta m W) L.
Proof. intros []. by constructor. Qed.

Lemma t_removing {R : Type} L (step : Os unit) (Q : World → Prop) (next : Os R) (Q' : R → World → Prop) :
  triple (λ W, Rep max W L) step (λ _ W, Rep max W L ∧ Q W) (λ W, Rep max W L) →
  triple (λ W, Rep max W L ∧ Q W) next Q' (λ W, Rep max W L) →
  triple (λ W, Rep max W L)
    (do* (let* r := mtry step in match r with Ok _ => ret tt | Err e => do* mignore io in merr e end) in next)
    Q' (λ W, Rep max W L).
Proof.
  intros Hs Hn. eapply t_bind with (R := λ _ W, Rep max W L ∧ Q W); [|by intros []].
  eapply t_try_abort; [exact Hs | | by intros [] W HW].
  intros e W HR. pose proof (t_io_stable _ (stable_Rep max L) W HR) as Ht. unfold bindM, mignore, merr.
  do 2 eexists. split; [done|]. by destruct (io W) as [[[]|e'] W']; destruct Ht.
Qed.

Lemma t_WriteMeta L m :
  triple (λ W, Rep max W L) (WriteMeta m) (λ _ W, Rep max W L ∧ w_meta W = Some (stamp_version m)) (λ W, Rep max W L).
Proof.
  pose proof (t_io_stable _ (stable_Rep max L)) as Hio.
  assert (Hio' : triple (λ W, Rep max W L) io (λ _ W, Rep max W L ∧ True) (λ W, Rep max W L)).
  { eapply t_post; [exact Hio | done]. }
  unfold WriteMeta. eapply t_bind; [exact Hio|]. intros [].
  eapply t_removing; [exact Hio'|]. apply (t_pre (λ W, Rep max W L)); [|by intros ? []].
  eapply t_removing; [exact Hio'|]. apply (t_pre (λ W, Rep max W L)); [|by intros ? []].
  eapply t_removing; [exact Hio'|]. apply (t_pre (λ W, Rep max W L)); [|by intros ? []].
  eapply t_removing with (Q := λ W, w_meta W = Some (stamp_version m)).
  - eapply t_bind; [exact Hio|]. intros []. apply t_put. intros W HR. split; [|done]. split; [by apply Rep_set_meta | done].
  - eapply t_conseq; [apply (t_io_stable (λ W, Rep max W L ∧ w_meta W = Some (stamp_version m))) | done | done | by intros W []].
    intros W W' [fs ->] [HR HM]. split; [|done]. eapply Rep_same; [|exact HR]. by exists fs.
Qed.

Lemma t_mark_loop k n P S T r : Forall is_sealed_slot S →
  triple (I k c0 nf gt U n (P ++ S ++ T)) (mark_acked_loop (slot_entry <$> S) r)
    (λ _ s, ∃ S', I k c0 nf gt U n (P ++ S' ++ T) s ∧ S' `sublist_of` S ∧
                  ∀ x, x ∈ S → x ∈ S' ∨ fully_acked k x.1 = true) (λ _, True).
Proof.
  revert P r. induction S as [|x S IH]; intros P r HS; cbn [fmap list_fmap mark_acked_loop].
  { intros s HI. split; [|done]. exists []. split_and!; [done..|]. intros x Hx. by apply not_elem_of_nil in Hx. }
  apply Forall_cons in HS as [Hx HS].
  assert (Hkeep : ∀ r, triple (I k c0 nf gt U n (P ++ (x :: S) ++ T)) (mark_acked_loop (slot_entry <$> S) r)
    (λ _ s, ∃ S', I k c0 nf gt U n (P ++ S' ++ T) s ∧ S' `sublist_of` x :: S ∧
                  ∀ y, y ∈ x :: S → y ∈ S' ∨ fully_acked k y.1 = true) (λ _, True)).
  { intros r'. replace (P ++ (x :: S) ++ T) with ((P ++ [x]) ++ S ++ T) by by rewrite <- app_assoc.
    eapply t_post; [by apply IH|]. intros _ s (S' & HI & Hsub & Hall). exists (x :: S').
    split_and!; [by rewrite <- app_assoc in HI | by apply sublist_skip |].
    intros y [-> | Hy]%elem_of_cons; [left; apply elem_of_cons; by left|].
    destruct (Hall y Hy); [left; apply elem_of_cons; by right | by right]. }
  apply t_this. intros w. intros s0 [HI0 Hw]. assert (Hwm : w_maxRec w = max) by (rewrite <- Hw; apply HI0).
  assert (Hwk : ack_of w = k) by (rewrite <- Hw; apply HI0). rewrite Hwm. clear Hw. revert s0 HI0.
  assert (Hin : x ∈ P ++ (x :: S) ++ T) by (apply elem_of_app; right; apply elem_of_cons; by left).
  eapply t_bind.
  { eapply t_weak, t_try, (t_lift_rep max o k c0 nf gt U n _ _ _ (t_segmentHigh max Hmax _ _ Hin)). }
  intros [sc|e].
  2:{ eapply t_pre; [apply Hkeep | by intros s []]. }
  apply t_pure. intros ->. rewrite (segmentFullyAcked_scan k) by done.
  destruct (fully_acked k x.1) eqn:Hf; cbn [negb]; [|apply Hkeep].
  eapply t_bind; [eapply t_weak, t_try, (t_remove_counted max o k c0 nf gt U n P x (S ++ T)); done|].
  intros [[]|e].
  - eapply t_post; [by apply IH|]. intros _ s (S' & HI & Hsub & Hall). exists S'.
    split_and!; [done | by apply sublist_cons |].
    intros y [-> | Hy]%elem_of_cons; [by right | by apply Hall].
  - eapply t_pre; [apply Hkeep | by intros s []].
Qed.

Definition new_ack (k : AckMark) (gen seq : Z) : AckMark :=
  if negb (ak_present k) || (ak_gen k <? gen) || ((gen =? ak_gen k) && (ak_seq k <? seq)) then mkAck true gen seq else k.

Definition ack_meta (k : AckMark) : Meta :=
  mkMeta metaFormatVersion (ak_seq k) (ak_gen k) true (o_SessionID o) (o_KeyFingerprint o) (o_ContextDigest o).

Lemma Inv_set_ack k n L w W gen seq : I k c0 nf gt U n L (w, W) →
  I (new_ack k gen seq) c0 nf gt U n L (if ack_advances w gen seq then set_ack gen seq w else w, W).
Proof.
  intros HI. assert (Hk : ack_of w = k) by apply HI. unfold new_ack, ack_advances. rewrite <- Hk. cbn.
  destruct (_ || _) eqn:Ha; destruct HI; constructor; try done.
  intros Hn top Ht. by eapply Counted_same, iv_counts.
Qed.

(** MarkAcked advances the watermark, persists it, and removes only sealed segments
    the new watermark covers. *)
Lemma t_MarkAcked k n L gen seq :
  triple (I k c0 nf gt U n L) (MarkAcked gen seq)
    (λ _ s, ∃ L', I (new_ack k gen seq) c0 nf gt U n L' s ∧ L' `sublist_of` L ∧
                  w_meta s.2 = Some (ack_meta (new_ack k gen seq)) ∧
                  ∀ x, x ∈ L → x ∈ L' ∨ fully_acked (new_ack k gen seq) x.1 = true) (λ _, True).
Proof.
  set (k' := new_ack k gen seq).
  assert (Hpres : ak_present k' = true).
  { unfold k', new_ack. destruct (ak_present k) eqn:Hp; cbn; [|done]. by destruct (_ || _). }
  unfold MarkAcked. eapply t_bind with (R := λ _, I k' c0 nf gt U n L).
  { apply t_put. intros [w W] HI. split; [|done]. by apply Inv_set_ack. }
  intros []. apply t_this. intros w. intros s0 [HI0 Hw].
  assert (Hwk : ack_of w = k') by (rewrite <- Hw; apply HI0). assert (Hwo : w_opts w = o) by (rewrite <- Hw; apply HI0).
  clear Hw. revert s0 HI0.
  set (M := ack_meta k').
  assert (HM : stamp_version (mkMeta 0 (w_ackHighSeq w) (w_ackHighGen w) true (o_SessionID (w_opts w))
                 (o_KeyFingerprint (w_opts w)) (o_ContextDigest (w_opts w))) = M).
  { unfold M, ack_meta, stamp_version. cbn. rewrite Hwo. unfold ack_of in Hwk. rewrite <- Hwk. done. }
  set (IM := λ L s, I k' c0 nf gt U n L s ∧ w_meta s.2 = Some M).
  eapply t_bind with (R := λ _, IM L).
  { intros [w' W] HI. unfold lift. cbn [fst snd]. pose proof (t_WriteMeta L (mkMeta 0 (w_ackHighSeq w) (w_ackHighGen w) true
      (o_SessionID (w_opts w)) (o_KeyFingerprint (w_opts w)) (o_ContextDigest (w_opts w))) W (iv_rep _ _ _ _ _ _ _ _ _ _ HI)) as Ht.
    destruct (WriteMeta _ W) as [[[]|e] W']; [|exact (conj Logic.I (proj2 Ht))].
    destruct Ht as [[HR Hm] Hf]. split; [|exact Hf]. split; [|cbn; by rewrite Hm, HM].
    destruct HI. constructor; try done. intros Hn. by apply Hf, iv_nf. }
  assert (Hkm : ∀ {A} L1 (m : WalM OsErr A) Q, keeps m → triple (I k' c0 nf gt U n L1) m Q (λ _, True) →
     triple (IM L1) m (λ a s, Q a s ∧ w_meta s.2 = Some M) (λ _, True)).
  { intros A L1 m Q Hk Hm s [HI Hms]. specialize (Hm s HI). specialize (Hk s). destruct (m s) as [[a|e] s']; [|done].
    destruct Hm. split; [|done]. split; [done|]. unfold meta_of, pair_meta in Hk. cbn in Hk. by rewrite Hk. }
  intros []. eapply t_bind with (R := λ es s, es = slot_entry <$> sealed_of L ∧ IM L s).
  { eapply t_post; [eapply Hkm; [unfold list_sealed; keep | eapply t_weak, (t_lift_rep max o k' c0 nf gt U n L _ _ (t_list_sealed max L))]|].
    intros es s [[Hes HI] HMs]. done. }
  intros es. apply t_pure. intros ->. intros s0 HIM.
  destruct (Live_split max _ _ (iv_live _ _ _ _ _ _ _ _ _ _ (proj1 HIM))) as (HS & T & HL & _). revert s0 HIM.
  eapply t_bind with (R := λ _ s, ∃ L', (L' `sublist_of` L ∧ ∀ x, x ∈ L → x ∈ L' ∨ fully_acked k' x.1 = true) ∧ IM L' s).
  { eapply t_post; [eapply Hkm; [apply keeps_mark_loop | rewrite HL at 1; by apply (t_mark_loop k' n [] (sealed_of L) T)]|].
    intros _ s [(S' & HI & Hsub & Hall) HMs]. exists (S' ++ T). split_and!; [| |done..].
    - rewrite HL at 1. by apply sublist_app.
    - intros x Hx. rewrite HL in Hx. apply elem_of_app in Hx as [Hx|Hx]; [destruct (Hall x Hx); [left | by right] | left]; apply elem_of_app; tauto. }
  intros removed. apply t_exists. intros L'. apply t_pure. intros [Hsub Hall].
  assert (Hend : ∀ s, IM L' s → ∃ L', I k' c0 nf gt U n L' s ∧ L' `sublist_of` L ∧ w_meta s.2 = Some M ∧
                        ∀ x, x ∈ L → x ∈ L' ∨ fully_acked k' x.1 = true) by (intros s [? ?]; by exists L').
  destruct removed; [|intros s HIM'; split; [by apply Hend | done]].
  eapply t_bind with (R := λ _, IM L').
  - apply (Hkm _ L' (lift syncDir) (λ _, I k' c0 nf gt U n L')); [unfold syncDir; keep|].
    eapply t_conseq; [apply (t_lift_rep max o k' c0 nf gt U n L' _ (λ _, True)) | done | by intros [] s [] | done].
    eapply t_conseq; [apply t_io_stable, (stable_Rep max L') | done..].
  - intros []. eapply t_post; [eapply Hkm; [apply keeps_prune | by apply (t_prune max Hmax)]|]. intros [] s. apply Hend.
Qed.
End ack.

(** ** Recovery *)

(** The fields that scanning for watermarks does not touch. *)
Record Core := mkCore {
  co_opts : Options; co_max : Z; co_current : option Segment; co_closed : bool; co_fatal : option OsErr;
  co_ack : AckMark; co_next : Z; co_total : Z;
}.
Definition core (w : WAL) : Core :=
  mkCore (w_opts w) (w_maxRec w) (w_current w) (w_closed w) (w_fatalErr w) (ack_of w) (w_nextIndex w) (w_totalBytes w).

Section recovery.
Context (max : Z) (Hmax : bad_max max = false).

(** Bytes that end a scan without being a record. *)
Definition torn (t : bytes) : Prop := ∃ e, Scan t max = ([], e) ∧ stops_scan e = true.

Lemma torn_nil : torn [].
Proof. exists ErrEOF. by rewrite Scan_nil. Qed.

Lemma torn_prefix p t : Z.of_nat (length p) ≤ max → t `prefix_of` frame p → t ≠ frame p → torn t.
Proof.
  intros Hp Hpre Hne. eexists. rewrite Scan_unfold, (ReadRecord_torn p) by done. split; [done|]. by case_decide.
Qed.

Lemma scan_offset_frames ps : scan_offset ps = SegmentHeaderSize + Z.of_nat (length (frames ps)).
Proof.
  unfold scan_offset. f_equal. induction ps as [|p ps IH]; [done|]. rewrite frames_cons, length_app, length_frame.
  cbn [foldr]. rewrite IH. lia.
Qed.

Lemma scan_offset_size a : seg_wf max a → scan_offset (a_payloads a) = a_size a.
Proof.
  intros Ha. rewrite scan_offset_frames. unfold a_size, a_bytes. rewrite length_app, (length_hdr_bytes max) by done.
  unfold SegmentHeaderSize. lia.
Qed.

Definition recovered (w : WAL) (a : ASeg) : WAL :=
  fold_left (recover_step (a_gen a)) (a_payloads a) (set_high (w_highSeq w) (a_gen a) w).

Lemma recover_fold g ps w : core (fold_left (recover_step g) ps w) = core w.
Proof.
  revert w. induction ps as [|p ps IH]; intros w; [done|]. cbn [fold_left]. rewrite IH.
  unfold recover_step. destruct (isLossMarker p); [done|]. by destruct (parseSeqGen p) as [[q gen]|].
Qed.

Lemma core_recovered w a : core (recovered w a) = core w.
Proof. unfold recovered. by rewrite recover_fold. Qed.

Lemma recover_high g rs w : is_uint 32 g → Forall (rec_wf max g) rs →
  w_highSeq (fold_left (recover_step g) (enc g <$> rs) w) =
  default (w_highSeq w) (last (omap (λ r, match r with AUser s _ => Some s | ALoss _ => None end) rs)).
Proof.
  intros Hg Hr. revert w. induction Hr as [|r rs Hr _ IH]; intros w; [done|].
  cbn [fmap list_fmap fold_left]. unfold fmap in IH. rewrite IH. unfold recover_step. rewrite (isLossMarker_enc _ _ _ Hr).
  destruct r as [q p|l]; [|done]. rewrite (parseSeqGen_enc _ _ _ _ Hg Hr). cbn [omap list_omap]. rewrite last_cons.
  by destruct (last _).
Qed.

Lemma recover_high_gen g rs w : is_uint 32 g → Forall (rec_wf max g) rs → w_highGen w = g →
  w_highGen (fold_left (recover_step g) (enc g <$> rs) w) = g.
Proof.
  intros Hg Hr. revert w. induction Hr as [|r rs Hr _ IH]; intros w Hw; [done|].
  cbn [fmap list_fmap fold_left]. unfold fmap in IH. rewrite IH; [done|]. unfold recover_step. rewrite (isLossMarker_enc _ _ _ Hr).
  destruct r as [q p|l]; [|done]. by rewrite (parseSeqGen_enc _ _ _ _ Hg Hr).
Qed.

Lemma t_scanRec P nm i a t w : stable P → (∀ W, P W → w_dir W !! nm = Some i ∧ data_of W i = a_bytes a ++ t) →
  seg_wf max a → torn t → w_maxRec w = max →
  triple (λ s, s.1 = w ∧ P s.2) (scanForRecovery nm) (λ off s, off = a_size a ∧ s.1 = recovered w a ∧ P s.2) (λ _, True).
Proof.
  intros HP HW Ha (e & He & Hst) Hm. unfold scanForRecovery.
  eapply t_bind with (R := λ f s, f = i ∧ s.1 = w ∧ P s.2).
  { eapply t_conseq; [apply (t_lift w P (os_Open nm) (λ f W, f = i ∧ P W) (λ _, True)) | done | by intros f s (? & ? & ?) | done].
    unfold os_Open. eapply t_bind; [eapply t_conseq; [by apply (t_io_stable P) | done..]|]. intros [].
    intros W HPW. unfold bindM, mget. by rewrite (proj1 (HW W HPW)). }
  intros f. apply t_pure. intros ->. intros [w' W] [Hw HPW]. cbn in Hw, HPW. subst w'.
  unfold bindM at 1, mget. cbn [snd]. rewrite (proj2 (HW W HPW)). rewrite (read_a_bytes max) by done.
  unfold bindM, modify, mput, this, mget. cbn [fst snd set_high w_maxRec]. rewrite Hm.
  rewrite Scan_frames by (done || by apply seg_fits). rewrite He. cbn [fst snd]. rewrite app_nil_r, Hst.
  split; [|done]. split; [by apply scan_offset_size | done].
Qed.

(** The directory after a crash: the log [L0 ++ [(a, i)]] with a torn tail [t] in the
    live file. *)
Definition Crashed (L0 : Slots) (a : ASeg) (i : nat) (t : bytes) (W : World) : Prop :=
  ∃ W0, Rep max W0 (L0 ++ [(a, i)]) ∧ if decide (t = []) then same W0 W else AtFile W0 i (a_bytes a ++ t) W.

Lemma Crashed_stable L0 a i t : stable (Crashed L0 a i t).
Proof.
  intros W W' Hs (W0 & HR & HW). exists W0. split; [done|]. case_decide; [by eapply same_trans|].
  destruct HW as (sy & HW). exists sy. by eapply same_trans.
Qed.

Lemma Crashed_facts L0 a i t W : Crashed L0 a i t W →
  w_dir W !! a_name a = Some i ∧ data_of W i = a_bytes a ++ t ∧
  elements (dom (w_dir W)) ≡ₚ (λ x, a_name x.1) <$> (L0 ++ [(a, i)]).
Proof.
  intros (W0 & HR & HW). assert (Hin : (a, i) ∈ L0 ++ [(a, i)]) by (apply elem_of_app; right; by apply list_elem_of_singleton).
  assert (Hd : w_dir W = w_dir W0).
  { case_decide; [by destruct HW as [fs ->] | by destruct HW as (sy & fs & ->)]. }
  rewrite Hd. split_and!; [exact (dir_last _ _ _ _ HR) | | by apply Rep_dom with max].
  case_decide as Ht.
  - destruct HW as [fs ->]. rewrite Ht, app_nil_r. exact (Rep_data _ _ _ _ HR Hin).
  - by eapply file_of_AtFile.
Qed.

Lemma t_truncate_take W0 i d n : (n ≤ length d)%nat →
  triple (AtFile W0 i d) (file_Truncate i (Z.of_nat n)) (λ _, AtFile W0 i (take n d)) (λ _, True).
Proof.
  intros Hn. unfold file_Truncate. rewrite Nat2Z.id.
  eapply t_conseq; [apply (t_file_upd W0 i d) | done | | done].
  intros _ W (sy & HW). unfold truncate_to in HW. cbn in HW.
  replace (n - length d)%nat with 0%nat in HW by lia. cbn in HW. rewrite app_nil_r in HW. by eexists.
Qed.

Lemma t_truncateLive L0 a i t :
  triple (Crashed L0 a i t) (truncateLiveSegment (a_name a) (a_size a)) (λ _ W, Rep max W (L0 ++ [(a, i)])) (λ _, True).
Proof.
  unfold truncateLiveSegment. pose proof (t_io_stable _ (Crashed_stable L0 a i t)) as Hio.
  eapply t_bind with (R := λ f W, f = i ∧ Crashed L0 a i t W).
  { unfold os_Open. eapply t_bind; [eapply t_weak, Hio|]. intros [] W HW. unfold bindM, mget.
    by rewrite (proj1 (Crashed_facts _ _ _ _ _ HW)). }
  intros f. apply t_pure. intros ->. eapply t_bind with (R := λ sz W, sz = a_size a + Z.of_nat (length t) ∧ Crashed L0 a i t W).
  { unfold file_Size. eapply t_bind; [eapply t_weak, Hio|]. intros [] W HW. unfold mget.
    rewrite (proj1 (proj2 (Crashed_facts _ _ _ _ _ HW))). split; [|done]. split; [|done]. unfold a_size. rewrite length_app. lia. }
  intros sz. apply t_pure. intros ->. apply t_exists. intros W0. apply t_pure. intros HR.
  destruct (decide (t = [])) as [->|Hne].
  { cbn [length]. rewrite (proj2 (Z.eqb_eq _ _)) by lia. intros W HW. split; [|done]. by eapply Rep_same. }
  rewrite (proj2 (Z.eqb_neq _ _)) by (destruct t; [done | cbn [length]; lia]).
  eapply t_bind; [apply (t_truncate_take W0 i (a_bytes a ++ t)); rewrite length_app; lia|]. intros [].
  rewrite take_app_length. eapply t_bind; [apply t_file_Sync|]. intros [].
  eapply t_conseq; [apply (t_io (with_file i (mkFile (a_bytes a) (length (a_bytes a))) W0)) | done | | done].
  intros [] W HW. eapply Rep_same; [exact HW|].
  pose proof (rep_files _ _ _ HR) as Hf. apply Forall_app in Hf as [_ Hf]. inversion Hf as [|? ? Hi _]; subst. cbn in Hi.
  destruct HR. constructor; try done. cbn. by rewrite insert_id.
Qed.

Lemma t_Reopen L0 a i : a_live a = true →
  triple (λ W, Rep max W (L0 ++ [(a, i)])) (ReopenSegment (a_name a) max)
         (λ seg W, seg = seg_of max a i ∧ Rep max W (L0 ++ [(a, i)])) (λ _, True).
Proof.
  intros Hl. assert (Hin : (a, i) ∈ L0 ++ [(a, i)]) by (apply elem_of_app; right; by apply list_elem_of_singleton).
  unfold ReopenSegment. rewrite Hmax.
  eapply t_bind; [eapply t_weak, (t_os_Open max _ _ Hin)|]. intros f. apply t_pure. cbn [snd]. intros ->.
  eapply t_bind with (R := λ sz W, sz = a_size a ∧ Rep max W (L0 ++ [(a, i)])).
  { unfold file_Size. eapply t_bind; [eapply t_weak, t_io_stable, stable_Rep|]. intros [] W HR. unfold mget.
    pose proof (Rep_data _ _ _ _ HR Hin) as Hd. cbn [fst snd] in Hd. by rewrite Hd. }
  intros sz. apply t_pure. intros ->. intros W HR. pose proof (Rep_wf _ _ _ _ HR Hin) as Hwf. cbn [fst] in Hwf.
  assert (Hsz : SegmentHeaderSize ≤ a_size a).
  { rewrite <- (scan_offset_size a Hwf), scan_offset_frames. lia. }
  rewrite (proj2 (Z.ltb_ge _ _)) by done.
  pose proof (Rep_data _ _ _ _ HR Hin) as Hd. cbn [fst snd] in Hd.
  unfold bindM, mget. rewrite Hd.
  rewrite <- (app_nil_r (a_bytes a)), (read_a_bytes max) by done. cbn [fst].
  assert (Hnm : a_name a = liveName (a_idx a)) by (unfold a_name; by rewrite Hl).
  rewrite Hnm. change (HasSuffix ?s inprogressSuffix) with (is_inprogress s). rewrite is_inprogress_live. cbn [negb].
  rewrite liveName_eq, TrimSuffix_app, ParseUint_pad by apply Hwf. rewrite <- liveName_eq.
  split; [|done]. split; [|done]. unfold seg_of. by rewrite Hnm.
Qed.

Lemma add_total_add n m w : add_total n (add_total m w) = add_total (n + m) w.
Proof. unfold add_total. cbn. f_equal. lia. Qed.

Lemma t_add_sizes L S w : S ⊆ L →
  triple (λ s, s.1 = w ∧ Rep max s.2 L) (add_sizes (slot_entry <$> S))
         (λ _ s, s.1 = add_total (disk_bytes S) w ∧ Rep max s.2 L) (λ _, True).
Proof.
  revert w. induction S as [|x S IH]; intros w HS; cbn [fmap list_fmap add_sizes].
  { intros [w' W] [Hw HR]. cbn in Hw. subst w'. split; [|done]. split; [|done]. cbn. unfold add_total. cbn.
    rewrite Z.add_0_r. by destruct w. }
  assert (Hx : x ∈ L) by (apply HS, elem_of_cons; by left).
  eapply t_bind with (R := λ sz s, sz = a_size x.1 ∧ s.1 = w ∧ Rep max s.2 L).
  { eapply t_conseq; [apply (t_lift w), (t_os_Stat max L x Hx) | done | by intros ? s (? & ? & ?) | done]. }
  intros sz. apply t_pure. intros ->.
  eapply t_bind with (R := λ _ s, s.1 = add_total (a_size x.1) w ∧ Rep max s.2 L).
  { apply t_put. intros s [Hs HR]. cbn. by rewrite Hs. }
  intros []. eapply t_post; [apply IH; intros y Hy; apply HS, elem_of_cons; by right|].
  intros [] s [Hs HR]. split; [|done]. rewrite Hs. change (disk_bytes (x :: S)) with (a_size x.1 + disk_bytes S).
  rewrite Z.add_comm. apply add_total_add.
Qed.

(** The maps answer for every record of these segments. *)
Definition maps_cover (S : Slots) (w : WAL) : Prop :=
  ∀ x, x ∈ S → (∀ q, q ∈ a_users x.1 → ∃ h, w_perGenDataHighWater w !! a_gen x.1 = Some h ∧ q ≤ h) ∧
               (a_recs x.1 ≠ [] → a_gen x.1 ∈ w_perGenAnyReplayable w).

(** What the seed scan makes of one segment. *)
Definition seed_one (sc : SegScan) (w : WAL) : WAL :=
  set_gens (if sc_hasUser sc then bump (sc_gen sc) (sc_hiSeq sc) (w_perGenDataHighWater w) else w_perGenDataHighWater w)
           (if sc_hasAny sc then {[sc_gen sc]} ∪ w_perGenAnyReplayable w else w_perGenAnyReplayable w) w.

Lemma maps_cover_seed S w sc : maps_cover S w → maps_cover S (seed_one sc w).
Proof.
  intros HS x Hx. destruct (HS x Hx) as [Hq Ha]. cbn. split.
  - intros q Hin. destruct (Hq q Hin) as (h & Hh & Hle). destruct (sc_hasUser sc); [|by exists h].
    destruct (bump_ge (sc_gen sc) (sc_hiSeq sc) _ _ _ Hh) as (h' & Hh' & ?). exists h'. split; [done|lia].
  - intros Hne. specialize (Ha Hne). destruct (sc_hasAny sc); set_solver.
Qed.

Lemma seed_covers x w : maps_cover [x] (seed_one (scan_of x.1) w).
Proof.
  intros y ->%list_elem_of_singleton. cbn. split.
  - intros q Hq. rewrite bool_decide_eq_false_2 by (intros Hn; rewrite Hn in Hq; by apply not_elem_of_nil in Hq). cbn.
    destruct (bump_covers (a_gen x.1) (users_max 0 (a_users x.1)) (w_perGenDataHighWater w)) as (h & Hh & Hle).
    exists h. split; [done|]. pose proof (proj2 (users_max_ge (a_users x.1) 0) q Hq). lia.
  - intros Hne. rewrite bool_decide_eq_false_2 by done. cbn. set_solver.
Qed.

Lemma maps_cover_app S T w : maps_cover S w → maps_cover T w → maps_cover (S ++ T) w.
Proof. intros HS HT x [Hx|Hx]%elem_of_app; [by apply HS | by apply HT]. Qed.

Lemma t_seed_gens nf L D S c h g : D ++ S ⊆ L → co_max c = max →
  triple (λ s, ((core s.1 = c ∧ w_highSeq s.1 = h ∧ w_highGen s.1 = g) ∧ Rep max s.2 L) ∧ NF nf s ∧ (nf = true → maps_cover D s.1))
    (seed_gens (slot_entry <$> S))
    (λ _ s, ((core s.1 = c ∧ w_highSeq s.1 = h ∧ w_highGen s.1 = g) ∧ Rep max s.2 L) ∧ (nf = true → maps_cover (D ++ S) s.1)) (λ _, True).
Proof.
  intros HS Hm. revert D HS. induction S as [|x S IH]; intros D HS; cbn [fmap list_fmap seed_gens].
  { intros s (Hs & _ & HD). rewrite app_nil_r. done. }
  assert (Hx : x ∈ L) by (apply HS, elem_of_app; right; apply elem_of_cons; by left).
  intros [w W] (((Hc & Hh & Hg) & HR) & Hnf & HD). unfold bindM at 1, this, mget. cbn [fst snd] in *.
  assert (Hwm : w_maxRec w = max) by (rewrite <- Hm, <- Hc; done). rewrite Hwm.
  unfold bindM at 1, mtry, lift. cbn [fst snd slot_entry e_name].
  pose proof (t_segmentHigh max Hmax L x Hx W HR) as Ht. destruct (segmentHighSeqAndGen (a_name x.1) max W) as [[sc|e] W1]; cbn [fst snd].
  - destruct Ht as [[-> HR1] Hf1]. unfold bindM at 1, modify, mput. cbn [fst snd].
    assert (HP : ((core (seed_one (scan_of x.1) w) = c ∧ w_highSeq (seed_one (scan_of x.1) w) = h ∧ w_highGen (seed_one (scan_of x.1) w) = g) ∧ Rep max W1 L) ∧
      NF nf (seed_one (scan_of x.1) w, W1) ∧ (nf = true → maps_cover (D ++ [x]) (seed_one (scan_of x.1) w))).
    { split_and!; try done; [by intros Hn; apply Hf1, Hnf|]. intros Hn. apply maps_cover_app; [by apply maps_cover_seed, HD | apply seed_covers]. }
    specialize (IH (D ++ [x])). rewrite <- app_assoc in IH. specialize (IH HS (seed_one (scan_of x.1) w, W1) HP).
    fold (seed_one (scan_of x.1) w). destruct (seed_gens _ _) as [[[]|e] s']; destruct IH as [? Hf]; (split; [done|]).
    + intros Hw. by apply Hf, Hf1.
    + intros Hw. by apply Hf, Hf1.
  - destruct Ht as [HR1 Hf1]. unfold bindM at 1, modify, mput. cbn [fst snd].
    specialize (IH (D ++ [x])). rewrite <- app_assoc in IH.
    assert (HP : ((core w = c ∧ w_highSeq w = h ∧ w_highGen w = g) ∧ Rep max W1 L) ∧ NF nf (w, W1) ∧ (nf = true → maps_cover (D ++ [x]) w)).
    { split_and!; try done; intros Hn; exfalso; by apply Hf1, Hnf. }
    specialize (IH HS (w, W1) HP). destruct (seed_gens _ _) as [[[]|e'] s']; (split; [apply IH | intros Hw; by apply Hf1 in Hw]).
Qed.

Lemma pickMax_snoc l x : Forall (λ e, e_idx e < e_idx x) l → pickMaxByIndex (l ++ [x]) = Some x.
Proof.
  intros Hl. destruct l as [|e l]; [done|]. cbn [app pickMaxByIndex]. rewrite fold_left_app. cbn. f_equal.
  inversion Hl as [|? ? He Hr]; subst. clear Hl. revert e He. induction Hr as [|e' l He' _ IH]; intros e He; cbn.
  - by rewrite (proj2 (Z.ltb_lt _ _)).
  - apply IH. by destruct (_ <? _).
Qed.

Lemma pickMax_slots L : StronglySorted Z.lt (idxs L) → pickMaxByIndex (slot_entry <$> L) = slot_entry <$> last L.
Proof.
  destruct L as [|x L _] using rev_ind; [done|]. intros Hs. rewrite fmap_app, last_snoc. apply pickMax_snoc.
  apply Forall_fmap. unfold idxs in Hs. rewrite fmap_app in Hs. apply StronglySorted_app in Hs as (Hlt & _ & _).
  apply Forall_forall. intros y Hy. cbn. apply Hlt; apply list_elem_of_fmap; [by exists y|].
  exists x. split; [done | by apply list_elem_of_singleton].
Qed.

(** The file that the log goes on writing to, and the index of the next one. *)
Definition live_of (L : Slots) : option Segment :=
  match last L with Some (a, i) => if a_live a then Some (seg_of max a i) else None | None => None end.
Definition next_of (L : Slots) : Z := match last L with Some x => a_idx x.1 + 1 | None => 1 end.

(** The last user record of the last segment. *)
Definition high_of (L : Slots) : Z := default 0 (x ← last L; last (a_users x.1)).

(** The generation of the last segment. *)
Definition high_gen_of (L : Slots) : Z := default 0 ((λ x : ASeg * nat, a_gen x.1) <$> last L).

(** The directory of a log that may have crashed while it wrote to its live file. *)
Definition CrashedLog (L : Slots) (t : bytes) (W : World) : Prop :=
  match last L with
  | Some (a, i) => if a_live a
                   then torn t ∧ ∃ L0, L = L0 ++ [(a, i)] ∧ Forall is_sealed_slot L0 ∧ Crashed L0 a i t W
                   else Forall is_sealed_slot L ∧ t = [] ∧ Rep max W L
  | None => t = [] ∧ Rep max W L
  end.

Definition live_slots (L : Slots) : Slots := List.filter (λ x, a_live x.1) L.

Lemma CrashedLog_stable L t : stable (CrashedLog L t).
Proof.
  intros W W' Hs. unfold CrashedLog. destruct (last L) as [[a i]|].
  - destruct (a_live a).
    + intros [Ht (L0 & HL & HF & HC)]. split; [done|]. exists L0. split_and!; [done..|]. by eapply Crashed_stable.
    + intros (? & ? & ?). split_and!; [done..|]. by eapply Rep_same.
  - intros [? ?]. split; [done|]. by eapply Rep_same.
Qed.

Lemma CrashedLog_rep L t W : CrashedLog L t W →
  (∃ W0, Rep max W0 L ∧ elements (dom (w_dir W)) ≡ₚ (λ x, a_name x.1) <$> L) ∧ sealed_of L ++ live_slots L = L ∧
  live_slots L = match last L with Some x => if a_live x.1 then [x] else [] | None => [] end.
Proof.
  assert (Hall : ∀ K, Forall is_sealed_slot K → live_slots K = [] ∧ sealed_of K = K).
  { intros K HK. split; [|by apply sealed_of_all]. unfold live_slots. unfold is_sealed_slot in HK.
    induction HK as [|x K Hx _ IH]; [done|]. cbn. by rewrite Hx. }
  unfold CrashedLog. destruct (last L) as [[a i]|] eqn:Hlast; [destruct (a_live a) eqn:Ha|]; cbn [fst]; rewrite ?Ha.
  - intros [_ (L0 & -> & HF & HC)]. destruct (Hall L0 HF) as [Hl Hs].
    split; [|unfold sealed_of, live_slots in *; rewrite !List.filter_app, Hl, Hs; cbn; rewrite Ha; cbn; by rewrite ?app_nil_r].
    destruct HC as (W0 & HR & HW). exists W0. split; [done|].
    by apply (Crashed_facts L0 a i t W); exists W0.
  - intros (HF & _ & HR). destruct (Hall L HF) as [-> ->]. split; [|by rewrite app_nil_r].
    exists W. split; [done | by apply Rep_dom with max].
  - intros (_ & HR). apply last_None in Hlast as ->. split; [|done]. exists W. split; [done | by apply Rep_dom with max].
Qed.

Lemma max_idx_slots L m : StronglySorted Z.lt (idxs L) → (∀ x, x ∈ L → m ≤ a_idx x.1) →
  max_idx (slot_entry <$> L) m = match last L with Some x => a_idx x.1 | None => m end.
Proof.
  intros Hs Hm. unfold max_idx. rewrite pickMax_slots by done. destruct (last L) as [x|] eqn:Hl; [|done]. cbn.
  rewrite (proj2 (Z.leb_le _ _)); [done|]. apply Hm. apply last_Some in Hl as [L0 ->].
  apply elem_of_app. right. by apply list_elem_of_singleton.
Qed.
(** What recovery leaves in memory. *)
Definition Recovered (L : Slots) (w w' : WAL) (total : Z) : Prop :=
  core w' = mkCore (w_opts w) max (live_of L) (w_closed w) (w_fatalErr w) (ack_of w) (next_of L) total ∧
  w_highSeq w' = high_of L ∧ w_highGen w' = high_gen_of L.

Definition fresh_wal (w : WAL) : Prop := w_current w = None ∧ (w_highSeq w = 0 ∧ w_highGen w = 0) ∧ w_totalBytes w = 0 ∧ w_maxRec w = max.

Lemma core_set n c w : core (set_nextIndex n (set_current c w)) =
  mkCore (co_opts (core w)) (co_max (core w)) c (co_closed (core w)) (co_fatal (core w)) (co_ack (core w)) n (co_total (core w)).
Proof. done. Qed.

Lemma t_tail_live L0 a i t w : a_live a = true → torn t → fresh_wal w → seg_wf max a → a_idx a + 1 < 2 ^ 64 →
  triple (λ s, s.1 = w ∧ Crashed L0 a i t s.2)
    (let* lastGood := scanForRecovery (a_name a) in
     do* lift (truncateLiveSegment (a_name a) lastGood) in
     let* w := this (λ w, w) in
     let* seg := lift (ReopenSegment (a_name a) (w_maxRec w)) in
     modify (λ w, set_nextIndex (to_uint64 (s_index seg + 1)) (set_current (Some seg) w)))
    (λ _ s, Recovered (L0 ++ [(a, i)]) w s.1 0 ∧ Rep max s.2 (L0 ++ [(a, i)])) (λ _, True).
Proof.
  intros Ha Ht (Hc & [Hh Hhg] & Htot & Hm) Hwf Hidx.
  eapply t_bind; [apply (t_scanRec _ _ i a t w (Crashed_stable L0 a i t)); [|done..]|].
  { intros W HW. pose proof (Crashed_facts _ _ _ _ _ HW). tauto. }
  intros off. apply t_pure. intros ->. eapply t_bind; [eapply t_weak, (t_lift (recovered w a)), t_truncateLive|].
  intros []. eapply t_bind with (R := λ w' s, w' = recovered w a ∧ s.1 = recovered w a ∧ Rep max s.2 (L0 ++ [(a, i)])).
  { intros [w' W] [Hw HR]. cbn in Hw. by subst w'. }
  intros w'. apply t_pure. intros ->.
  pose proof (core_recovered w a) as Hcore. set (w1 := recovered w a) in *.
  assert (Hm1 : w_maxRec w1 = max) by (rewrite <- Hm; by apply (f_equal co_max) in Hcore). rewrite Hm1.
  eapply t_bind with (R := λ seg s, seg = seg_of max a i ∧ s.1 = w1 ∧ Rep max s.2 (L0 ++ [(a, i)])).
  { eapply t_conseq; [apply (t_lift w1), (t_Reopen L0 a i Ha) | done | by intros ? s (? & ? & ?) | done]. }
  intros seg. apply t_pure. intros ->. apply t_put. intros s [Hs HR]. split; [|done]. cbn [fst snd]. rewrite Hs.
  split; [|done]. unfold Recovered. split_and!.
  - rewrite core_set, Hcore. unfold live_of, next_of. rewrite last_snoc, Ha. unfold core. cbn. rewrite Hm, Htot. f_equal.
    unfold to_uint64. rewrite Z.mod_small; [done|]. destruct Hwf as ([? ?] & _). lia.
  - cbn. unfold w1, recovered, a_payloads. rewrite recover_high by apply Hwf. unfold high_of. rewrite last_snoc. cbn. by rewrite Hh.
  - cbn. unfold w1, recovered, a_payloads. rewrite recover_high_gen by (done || apply Hwf). unfold high_gen_of. by rewrite last_snoc.
Qed.
Lemma t_tail_sealed L x w : last L = Some x → a_live x.1 = false → fresh_wal w → w_nextIndex w = a_idx x.1 + 1 →
  triple (λ s, s.1 = w ∧ Rep max s.2 L) (do* scanForRecovery (a_name x.1) in ret tt)
    (λ _ s, Recovered L w s.1 0 ∧ Rep max s.2 L) (λ _, True).
Proof.
  intros Hl Ha (Hc & [Hh Hhg] & Htot & Hm) Hn. intros [w' W] [Hw HR]. cbn in Hw, HR. subst w'.
  assert (Hx : x ∈ L) by (apply last_Some in Hl as [L0 ->]; apply elem_of_app; right; by apply list_elem_of_singleton).
  pose proof (Rep_wf _ _ _ _ HR Hx) as Hwf. revert HR. intros HR.
  assert (Hpre : (w, W).1 = w ∧ Rep max (w, W).2 L) by done. revert Hpre. generalize (w, W).
  change (triple (λ s, s.1 = w ∧ Rep max s.2 L) (do* scanForRecovery (a_name x.1) in ret tt)
    (λ _ s, Recovered L w s.1 0 ∧ Rep max s.2 L) (λ _, True)).
  eapply t_bind; [apply (t_scanRec _ _ x.2 x.1 [] w (stable_Rep max L)); [|done|apply torn_nil|done]|].
  { intros W' HR'. rewrite app_nil_r. split; [by eapply Rep_lookup | by eapply Rep_data]. }
  intros off. apply t_pure. intros _ s [Hs HR']. split; [|done]. split; [|done]. rewrite Hs. split_and!.
  - rewrite core_recovered. unfold live_of, next_of, core. rewrite Hl. destruct x as [a i]. cbn in *.
    by rewrite Ha, Hc, Hn, Hm, Htot.
  - cbn. unfold recovered, a_payloads. rewrite recover_high by apply Hwf. unfold high_of. rewrite Hl. cbn. by rewrite Hh.
  - unfold recovered, a_payloads. rewrite recover_high_gen by (done || apply Hwf). unfold high_gen_of. by rewrite Hl.
Qed.

Lemma t_recover_tail L t w : fresh_wal w → next_of L < 2 ^ 64 → StronglySorted Z.lt (idxs L) → Forall (λ x, seg_wf max x.1) L →
  live_slots L = match last L with Some x => if a_live x.1 then [x] else [] | None => [] end →
  (∀ x, last L = Some x → a_live x.1 = false → sealed_of L = L) →
  w_nextIndex w = to_uint64 (max_idx (slot_entry <$> live_slots L) (max_idx (slot_entry <$> sealed_of L) 0) + 1) →
  triple (λ s, s.1 = w ∧ CrashedLog L t s.2)
    (match pickMaxByIndex (slot_entry <$> live_slots L) with
       | Some e =>
           let* lastGood := scanForRecovery (e_name e) in
           do* lift (truncateLiveSegment (e_name e) lastGood) in
           let* w := this (λ w, w) in
           let* seg := lift (ReopenSegment (e_name e) (w_maxRec w)) in
           modify (λ w, set_nextIndex (to_uint64 (s_index seg + 1)) (set_current (Some seg) w))
       | None =>
           match pickMaxByIndex (slot_entry <$> sealed_of L) with
           | Some e => do* scanForRecovery (e_name e) in ret tt
           | None => ret tt
           end
       end)
    (λ _ s, Recovered L w s.1 0 ∧ Rep max s.2 L) (λ _, True).
Proof.
  intros Hw Hn Hs Hwf Hlive Hsealed Hnext. unfold CrashedLog. rewrite Hlive in *. unfold next_of in Hn.
  destruct (last L) as [[a i]|] eqn:Hl; [destruct (a_live a) eqn:Ha|]; cbn [fst] in *; rewrite ?Ha in *.
  - intros s [Hs1 [Ht (L0 & HL & HF & HC)]]. assert (Hin : (a, i) ∈ L) by (rewrite HL; apply elem_of_app; right; by apply list_elem_of_singleton).
    rewrite Forall_forall in Hwf. specialize (Hwf _ Hin). cbn. rewrite HL.
    exact (t_tail_live L0 a i t w Ha Ht Hw Hwf Hn s (conj Hs1 HC)).
  - rewrite (Hsealed (a, i)) in Hnext |- * by done. rewrite (pickMax_slots L), Hl by done. cbn [fmap option_fmap option_map pickMaxByIndex].
    intros s [Hs1 (HF & _ & HR)]. rewrite Forall_forall in Hwf.
    assert (Hin : (a, i) ∈ L) by (apply last_Some in Hl as [? ->]; apply elem_of_app; right; by apply list_elem_of_singleton).
    apply (t_tail_sealed L (a, i) w); try done. rewrite Hnext; change (max_idx (slot_entry <$> []) ?m) with m; rewrite max_idx_slots, Hl; [|done|].
    + cbn. unfold to_uint64. apply Z.mod_small. destruct (Hwf _ Hin) as ([? ?] & _). cbn in *. lia.
    + intros x Hx. by destruct (Hwf _ Hx) as ([? ?] & _).
  - apply last_None in Hl as ->. intros s [Hs1 [_ HR]]. cbn. split; [|done]. split; [|done]. rewrite Hs1.
    destruct Hw as (Hc & [Hh Hhg] & Htot & Hm). split; [|done]. unfold core. cbn in *. rewrite Hc, Hm, Htot, Hnext. done.
Qed.

Lemma bind_assoc3 {S E A B C D} (m : M S E A) (f : M S E B) (g : M S E C) (k : M S E D) s :
  (do* m in do* f in do* g in k) s = (do* (do* m in do* f in g) in k) s.
Proof. unfold bindM. destruct (m s) as [[]]; [|done]. by destruct (f _) as [[]]. Qed.

Lemma bind_modify {S B} (f : S → S) (k : M (S * World) OsErr B) s : (do* modify f in k) s = k (f s.1, s.2).
Proof. done. Qed.

(** Recovery up to the seed scan. *)
Lemma t_recover_sizes L t w : fresh_wal w → next_of L < 2 ^ 64 →
  StronglySorted Z.lt (idxs L) → Forall (λ x, seg_wf max x.1) L →
  sealed_of L ++ live_slots L = L →
  live_slots L = match last L with Some x => if a_live x.1 then [x] else [] | None => [] end →
  w_nextIndex w = to_uint64 (max_idx (slot_entry <$> live_slots L) (max_idx (slot_entry <$> sealed_of L) 0) + 1) →
  triple (λ s, s.1 = w ∧ CrashedLog L t s.2)
    (do* (match pickMaxByIndex (slot_entry <$> live_slots L) with
       | Some e =>
           let* lastGood := scanForRecovery (e_name e) in
           do* lift (truncateLiveSegment (e_name e) lastGood) in
           let* w := this (λ w, w) in
           let* seg := lift (ReopenSegment (e_name e) (w_maxRec w)) in
           modify (λ w, set_nextIndex (to_uint64 (s_index seg + 1)) (set_current (Some seg) w))
       | None =>
           match pickMaxByIndex (slot_entry <$> sealed_of L) with
           | Some e => do* scanForRecovery (e_name e) in ret tt
           | None => ret tt
           end
       end) in
     do* add_sizes (slot_entry <$> sealed_of L) in add_sizes (slot_entry <$> live_slots L))
    (λ _ s, Recovered L w s.1 (disk_bytes L) ∧ Rep max s.2 L) (λ _, True).
Proof.
  intros Hw Hn Hs Hwf Hsplit Hlive Hnext. eapply t_bind.
  { apply (t_recover_tail L t w); try done.
    intros x Hx Hax. rewrite Hx, Hax in Hlive. rewrite Hlive, app_nil_r in Hsplit. done. }
  intros []. intros [w2 W2] [HRec HR]. cbn [fst snd] in HRec, HR.
  assert (HLs : sealed_of L ⊆ L ∧ live_slots L ⊆ L).
  { split; intros x Hx; rewrite <- Hsplit; apply elem_of_app; tauto. }
  assert (Hpre : (w2, W2).1 = w2 ∧ Rep max (w2, W2).2 L) by done. revert Hpre. generalize (w2, W2).
  change (triple (λ s, s.1 = w2 ∧ Rep max s.2 L)
    (do* add_sizes (slot_entry <$> sealed_of L) in add_sizes (slot_entry <$> live_slots L))
    (λ _ s, Recovered L w s.1 (disk_bytes L) ∧ Rep max s.2 L) (λ _, True)).
  eapply t_bind; [apply t_add_sizes, HLs|]. intros []. eapply t_post; [apply t_add_sizes, HLs|]. intros [] s [Hs1 HR'].
  split; [|done]. rewrite Hs1, add_total_add. destruct HRec as (Hcore & Hhigh & Hgen). split_and!; [|done..].
  assert (Hd : disk_bytes (live_slots L) + disk_bytes (sealed_of L) = disk_bytes L)
    by (rewrite <- Hsplit at 3; rewrite disk_bytes_app; lia).
  rewrite Hd. transitivity (mkCore (co_opts (core w2)) (co_max (core w2)) (co_current (core w2)) (co_closed (core w2))
    (co_fatal (core w2)) (co_ack (core w2)) (co_next (core w2)) (disk_bytes L + co_total (core w2))).
  - unfold core, add_total. cbn. f_equal. lia.
  - rewrite Hcore. cbn. f_equal. lia.
Qed.

Lemma t_recover nf L t w : fresh_wal w → next_of L < 2 ^ 64 →
  triple (λ s, (s.1 = w ∧ CrashedLog L t s.2) ∧ NF nf s) recover
    (λ _ s, (Recovered L w s.1 (disk_bytes L) ∧ Rep max s.2 L) ∧ (nf = true → maps_cover L s.1)) (λ _, True).
Proof.
  intros Hw Hn [w' W] [[Hw' HC] HNF]. cbn in Hw', HC. subst w'.
  destruct (CrashedLog_rep _ _ _ HC) as ((W0 & HR0 & _) & Hsplit & Hlive).
  assert (Hpre : ((w, W).1 = w ∧ CrashedLog L t (w, W).2) ∧ NF nf (w, W)) by done. revert Hpre. generalize (w, W).
  change (triple (λ s, (s.1 = w ∧ CrashedLog L t s.2) ∧ NF nf s) recover
    (λ _ s, (Recovered L w s.1 (disk_bytes L) ∧ Rep max s.2 L) ∧ (nf = true → maps_cover L s.1)) (λ _, True)). unfold recover.
  eapply t_bind with (R := λ names s, (names ≡ₚ (λ x, a_name x.1) <$> L ∧ s.1 = w ∧ CrashedLog L t s.2) ∧ NF nf s).
  { eapply t_weak, t_nf.
    eapply t_conseq; [apply (t_lift w (CrashedLog L t) os_ReadDir (λ names W, names ≡ₚ (λ x, a_name x.1) <$> L ∧ CrashedLog L t W) (λ _, True))
      | done | by intros ? s (? & ? & ?) | done].
    unfold os_ReadDir. eapply t_bind; [eapply t_weak, t_io_stable, CrashedLog_stable|]. intros [] W' HC'. unfold mget.
    split; [|done]. split; [|done]. rewrite SliceStable_perm. by destruct (CrashedLog_rep _ _ _ HC') as ((? & _ & ?) & _). }
  intros names s [[Hnames Hs] Hnf]. revert s Hs Hnf.
  rewrite !(entries_where_Rep max _ W0 L names HR0 Hnames).
  rewrite (filter_ext_bool (λ x, is_sealed (a_name x.1)) (λ x, negb (a_live x.1))) by (intros; apply is_sealed_a_name).
  rewrite (filter_ext_bool (λ x, is_inprogress (a_name x.1)) (λ x, a_live x.1)) by (intros; apply is_inprogress_a_name).
  fold (sealed_of L) (live_slots L).
  set (w1 := set_nextIndex (to_uint64 (max_idx (slot_entry <$> live_slots L) (max_idx (slot_entry <$> sealed_of L) 0) + 1)) w).
  pose proof (t_recover_sizes L t w1 Hw Hn (rep_sorted _ _ _ HR0) (rep_wf _ _ _ HR0) Hsplit Hlive eq_refl) as Hpre.
  apply (t_nf nf) in Hpre.
  intros s Hs Hnf. specialize (Hpre (w1, s.2)). rewrite bind_modify. cbn [fst snd] in *.
  destruct Hs as [Hs HCs]. rewrite Hs. specialize (Hpre (conj (conj eq_refl HCs) Hnf)). rewrite bind_assoc3. unfold bindM at 1.
  fold w1. destruct (bindM _ _ (w1, s.2)) as [[[]|e] s3]; [|by destruct Hpre as [_ Hf]; split].
  destruct Hpre as [[[(Hcore & Hhigh & Hgen) HR] Hnf3] Hf3]. rewrite <- fmap_app, Hsplit.
  pose proof (t_seed_gens nf L [] L (core s3.1) (high_of L) (high_gen_of L) ltac:(done) ltac:(by rewrite Hcore) s3) as Hsd.
  specialize (Hsd (conj (conj (conj eq_refl (conj Hhigh Hgen)) HR) (conj Hnf3 (λ _ x Hx, False_ind _ (not_elem_of_nil _ Hx))))).
  destruct (seed_gens _ s3) as [[[]|e] s4]; destruct Hsd as [Hq Hf4]; (split; [|intros Hfs; by apply Hf4, Hf3]); [|done].
  destruct Hq as [[(Hc4 & Hh4 & Hg4) HR4] Hcov]. split; [|done]. split; [|done]. split_and!; [by rewrite Hc4 | done..].
Qed.

Lemma CrashedLog_sealed L t W : CrashedLog L t W → Live max (live_of L) L.
Proof.
  unfold CrashedLog, live_of, Live. destruct (last L) as [[a i]|] eqn:Hl; [destruct (a_live a) eqn:Ha|].
  - intros [_ (L0 & -> & HF & _)]. by exists L0, a, i.
  - by intros (HF & _).
  - intros _. apply last_None in Hl as ->. constructor.
Qed.
End recovery.

Lemma keeps_scanRec nm : keeps (scanForRecovery nm).
Proof. unfold scanForRecovery. keep. Qed.
Lemma keeps_add_sizes l : keeps (add_sizes l).
Proof. induction l as [|e l IH]; cbn [add_sizes]; [done|]. unfold os_Stat. keep. Qed.
Lemma keeps_seed_gens l : keeps (seed_gens l).
Proof. induction l as [|e l IH]; cbn [seed_gens]; keep. Qed.
#[local] Hint Resolve keeps_scanRec keeps_add_sizes keeps_seed_gens : keeps.
Lemma keeps_recover : keeps recover.
Proof. unfold recover, truncateLiveSegment, file_Size, ReopenSegment, file_Close, syncDir. keep. Qed.

(** ** Opening *)

(** meta.json is absent and no identity is asked for, or it carries the identity asked for. *)
Definition meta_ok (o : Options) (m : option Meta) : Prop :=
  match m with
  | None => o_SessionID o = "" ∧ o_KeyFingerprint o = "" ∧ o_ContextDigest o = ""
  | Some m => m_FormatVersion m = metaFormatVersion ∧ m_SessionID m = o_SessionID o ∧
              m_KeyFingerprint m = o_KeyFingerprint o ∧ m_ContextDigest m = o_ContextDigest o
  end.

Definition options_ok (max : Z) (o : Options) : Prop :=
  o_Dir o ≠ "" ∧ o_SegmentSize o = max + SegmentHeaderSize ∧ o_SyncMode o = SyncImmediate.

Lemma conflicts_refl a : conflicts a a = false.
Proof. unfold conflicts. rewrite String.eqb_refl. cbn. by rewrite andb_false_r. Qed.

Lemma backfills_refl a : backfills a a = false.
Proof. unfold backfills. by destruct (String.eqb a ""). Qed.

Lemma new_wal_fresh o max m : fresh_wal max (new_wal o max m).
Proof. unfold new_wal. destruct m as [m|]; [|done]. by destruct (m_AckRecorded m). Qed.

(** The acknowledgement that meta.json records. *)
Definition meta_ack (m : option Meta) : AckMark :=
  match m with
  | Some m => if m_AckRecorded m then mkAck true (m_AckHighWatermarkGen m) (m_AckHighWatermarkSeq m) else mkAck false 0 0
  | None => mkAck false 0 0
  end.

Lemma new_wal_ack o max m : ack_of (new_wal o max m) = meta_ack m.
Proof. unfold new_wal, meta_ack. destruct m as [m|]; [|done]. by destruct (m_AckRecorded m). Qed.

Lemma t_Open max o m nf L t : bad_max max = false → 0 < max → options_ok max o → meta_ok o m → next_of L < 2 ^ 64 →
  triple (λ W, (CrashedLog max L t W ∧ w_meta W = m) ∧ NF nf W) (Open o)
    (λ w W, Recovered max L (new_wal o max m) w (disk_bytes L) ∧ Rep max W L ∧ w_meta W = m ∧ (nf = true → maps_cover L w)) (λ _, True).
Proof.
  intros Hmax Hpos (Hdir & Hsz & Hsync) Hm Hn. unfold Open.
  rewrite (proj2 (String.eqb_neq _ _)), Hsz by done.
  rewrite (proj2 (Z.leb_gt _ _)) by (unfold SegmentHeaderSize; lia).
  replace (max + SegmentHeaderSize - SegmentHeaderSize) with max by lia. rewrite Hmax, Hsync.
  set (P := λ W, CrashedLog max L t W ∧ w_meta W = m).
  assert (HP : stable P) by (intros W W' [fs ->] [HC HM]; split; [eapply CrashedLog_stable; [by exists fs | done] | done]).
  eapply t_bind; [eapply t_err, t_weak, t_nf, (t_io_stable P HP)|]. intros [].
  apply t_weak with (X := λ _, True). eapply t_bind with (R := λ ack W, ack = m ∧ P W ∧ NF nf W).
  - intros W [[HC HM] HNF]. unfold bindM, mtry, ReadMeta.
    pose proof (t_io_stable P HP W (conj HC HM)) as Ht. unfold bindM.
    destruct (io W) as [[[]|e] W'] eqn:Hio; cbn.
    + destruct Ht as [[HC' HM'] Hf]. assert (HNF' : NF nf W') by (intros Hnf; by apply Hf, HNF). rewrite HM'. destruct m as [m|]; cbn in *.
      * destruct Hm as (Hv & H1 & H2 & H3). rewrite Hv. cbn. unfold identity_conflict.
        rewrite H1, H2, H3, !conflicts_refl, !backfills_refl. done.
      * destruct Hm as (H1 & H2 & H3). rewrite H1, H2, H3. done.
    + destruct Ht as [_ Hf]. unfold io, next_fault, bindM in Hio. destruct (w_faults W) as [|[n|] fs] eqn:Hfs; inversion Hio; subst. cbn. done.
  - intros ack. apply t_pure. intros ->. intros W [[HC HM] HNF].
    pose proof (t_recover max Hmax nf L t (new_wal o max m) (new_wal_fresh _ _ _) Hn (new_wal o max m, W) (conj (conj eq_refl HC) HNF)) as Ht.
    pose proof (keeps_recover (new_wal o max m, W)) as Hk. unfold meta_of, pair_meta in Hk.
    destruct (recover _) as [[[]|e] [w W']]; cbn in *; destruct Ht as [Ht Hf]; [|done].
    split; [|done]. destruct Ht as [[? ?] ?]. split_and!; [done..| |done]. by rewrite Hk.
Qed.
