(* ===== verification/WalProps.v ===== *)
(** * Properties of the write-ahead log

    The theorems of wal.go in terms of its methods: what one append, one
    acknowledgement, one failed call and one crash do to the records on disk, and
    the refinement of an abstract log (a list of records and a watermark) by any
    sequence of them. *)

From S2P Require Import Prelude WalFrame WalFs Wal WalInv WalSpec WalRecover.
Open Scope Z_scope.

(** ** States *)

(** The open log [s] stores exactly the segments and records [L]; it is neither closed
    nor latched. *)
Record LogState (max : Z) (o : Options) (L : Slots) (s : WAL * World) : Prop := mkLogState {
  ls_inv : Inv max o (ack_of s.1) 0 false None (λ _ _ _, True) (w_nextIndex s.1) L s;
  ls_opts : options_ok max o;
  ls_max : bad_max max = false;
  ls_marker : 38 ≤ max;
  ls_next : 0 ≤ w_nextIndex s.1;
}.

Lemma Inv_relax max o k c0 nf gt U n L s c0' U' :
  Inv max o k c0 nf gt U n L s → Forall (λ x, users_ok U' x.1) L → Inv max o k c0' false None U' n L s.
Proof. intros [] HU. by constructor. Qed.

Lemma users_ok_any a : StronglySorted Z.le (a_users a) → users_ok (λ _ _ _, True) a.
Proof. intros Hs. split; [done|]. apply Forall_forall. by intros [] _. Qed.

Lemma Inv_LogState max o k c0 nf gt U n L s : Inv max o k c0 nf gt U n L s → options_ok max o → bad_max max = false → 38 ≤ max → 0 ≤ n →
  LogState max o L s.
Proof.
  intros HI Ho Hm H38 Hn. pose proof (iv_ack _ _ _ _ _ _ _ _ _ _ HI) as Hk. pose proof (iv_next _ _ _ _ _ _ _ _ _ _ HI) as Hnx.
  constructor; [|done..|by rewrite Hnx]. rewrite Hk, Hnx. eapply Inv_relax; [exact HI|].
  eapply Forall_impl; [exact (iv_users _ _ _ _ _ _ _ _ _ _ HI)|]. intros x [Hs _]. by apply users_ok_any.
Qed.

(** The bound on sequence numbers that one append of [(gen, q)] needs. *)
Definition upto (gen q : Z) (g u : Z) (_ : bytes) : Prop := g = gen → u ≤ q.

Lemma has_rec_user x q : q ∈ a_users x → ∃ p, AUser q p ∈ a_recs x.
Proof. unfold a_users. intros ([q' p|l] & Hr & [= <-])%list_elem_of_omap. by exists p. Qed.

Lemma user_of_rec x q p : AUser q p ∈ a_recs x → q ∈ a_users x.
Proof. intros Hr. apply list_elem_of_omap. by eexists. Qed.

Lemma LogState_upto max o L s gen q c0 : LogState max o L s → (∀ q' p, has_rec L gen (AUser q' p) → q' ≤ q) →
  Inv max o (ack_of s.1) c0 false None (upto gen q) (w_nextIndex s.1) L s.
Proof.
  intros HL Hq. eapply Inv_relax; [apply HL|]. pose proof (iv_users _ _ _ _ _ _ _ _ _ _ (ls_inv _ _ _ _ HL)) as Hus.
  rewrite Forall_forall in Hus. apply Forall_forall. intros x Hx. destruct (Hus x Hx) as [Hs _]. split; [done|].
  apply Forall_forall. intros [u p|l] Hu; [|done]. intros Hg. apply (Hq u p). by exists x.
Qed.

(** ** Appending *)

(** *** The log on disk is unique *)

Lemma enc_inj max gen r r' : is_uint 32 gen → rec_wf max gen r → rec_wf max gen r' → enc gen r = enc gen r' → r = r'.
Proof.
  intros Hg Hr Hr' He. pose proof (isLossMarker_enc _ _ _ Hr) as Hm. rewrite He, (isLossMarker_enc _ _ _ Hr') in Hm.
  destruct r as [q p|l], r' as [q' p'|l']; try done.
  - pose proof (parseSeqGen_enc max gen q p Hg Hr) as Hp. rewrite He, (parseSeqGen_enc max gen q' p' Hg Hr') in Hp.
    injection Hp as ->. f_equal. cbn in He. unfold encodeSeqGenFrame in He. by simplify_list_eq.
  - destruct Hr as [_ Hl], Hr' as [_ Hl']. cbn [enc] in He. apply (f_equal decodeLossPayload) in He.
    rewrite !decodeLossPayload_encode in He by done. congruence.
Qed.
Lemma enc_list_inj max gen l l' : is_uint 32 gen → Forall (rec_wf max gen) l → Forall (rec_wf max gen) l' →
  enc gen <$> l = enc gen <$> l' → l = l'.
Proof.
  intros Hg Hl. revert l'. induction Hl as [|r l Hr _ IH]; intros [|r' l'] Hl' He; try done.
  apply Forall_cons in Hl' as [Hr' Hl']. injection He as H1 H2. f_equal; [by eapply enc_inj|by apply IH].
Qed.

Lemma a_bytes_inj max a b : bad_max max = false → seg_wf max a → seg_wf max b → a_idx a = a_idx b → a_live a = a_live b →
  a_bytes a = a_bytes b → a = b.
Proof.
  intros Hmax Ha Hb Hi Hl He. pose proof (read_a_bytes max a [] Ha) as Hra. rewrite He, (read_a_bytes max b [] Hb) in Hra.
  injection Hra as Hfl Hg Hfr. rewrite !app_nil_r in Hfr. apply (f_equal (λ x, (Scan x max).1)) in Hfr.
  rewrite (scan_a_bytes max b Hmax Hb), (scan_a_bytes max a Hmax Ha) in Hfr. cbn in Hfr. unfold a_payloads in Hfr. rewrite Hg in Hfr.
  destruct Ha as (_ & Hga & _ & Hra), Hb as (_ & _ & _ & Hrb). rewrite Hg in Hrb.
  apply (enc_list_inj max (a_gen a)) in Hfr; [|done..]. destruct a, b; cbn in *; congruence.
Qed.

Lemma Rep_subset max W L L' : bad_max max = false → Rep max W L → Rep max W L' → L ⊆ L'.
Proof.
  intros Hmax HR HR' [a i] Hx. pose proof (Rep_lookup _ _ _ _ HR Hx) as Hd. rewrite (rep_dir _ _ _ HR') in Hd.
  apply elem_of_list_to_map_2, list_elem_of_fmap in Hd as ([b j] & [= Hn Hj] & Hy). cbn in Hn, Hj. subst j.
  pose proof (Rep_wf _ _ _ _ HR Hx) as Ha. pose proof (Rep_wf _ _ _ _ HR' Hy) as Hb. cbn in Ha, Hb.
  assert (a = b) as ->; [|done]. apply (a_bytes_inj max); try done.
  - apply (f_equal parseSegmentIndex) in Hn. rewrite !parse_a_name in Hn by (apply Ha || apply Hb). congruence.
  - by rewrite <- !is_inprogress_a_name, Hn.
  - pose proof (Rep_data _ _ _ _ HR Hx) as Hdx. pose proof (Rep_data _ _ _ _ HR' Hy) as Hdy. cbn in Hdx, Hdy. congruence.
Qed.

Lemma LogState_unique max o L L' s : LogState max o L s → LogState max o L' s → L = L'.
Proof.
  intros HL HL'. pose proof (iv_rep _ _ _ _ _ _ _ _ _ _ (ls_inv _ _ _ _ HL)) as HR.
  pose proof (iv_rep _ _ _ _ _ _ _ _ _ _ (ls_inv _ _ _ _ HL')) as HR'. pose proof (ls_max _ _ _ _ HL) as Hmax.
  assert (Hp : L ≡ₚ L').
  { apply NoDup_Permutation; [by apply (NoDup_fmap_1 snd), HR|by apply (NoDup_fmap_1 snd), HR'|].
    intros x. split; [by apply (Rep_subset max s.2 L L')|by apply (Rep_subset max s.2 L' L)]. }
  clear HL HL'. destruct HR as [_ Hs _ _ _ _], HR' as [_ Hs' _ _ _ _]. clear Hmax.
  revert L' Hs' Hp. induction L as [|x L IH]; intros [|y L'] Hs' Hp; [done| | |].
  - by apply Permutation_nil_cons in Hp.
  - symmetry in Hp. by apply Permutation_nil_cons in Hp.
  - apply sorted_cons in Hs as [Hs Hx], Hs' as [Hs' Hy]. rewrite Forall_forall in Hx, Hy.
    assert (x = y) as <-.
    { assert (Hxy : x ∈ y :: L') by (rewrite <- Hp; by left). assert (Hyx : y ∈ x :: L) by (rewrite Hp; by left).
      apply elem_of_cons in Hxy as [|Hxy], Hyx as [|Hyx]; try congruence. specialize (Hx y Hyx). specialize (Hy x Hxy). lia. }
    f_equal. apply IH; [done|done|]. by apply Permutation_cons_inv in Hp.
Qed.

(** What may be appended: a representable generation and sequence number, a record
    that fits in a segment, and no reordering within the generation. *)
Record Appendable (max : Z) (L : Slots) (q gen : Z) (p : bytes) : Prop := mkAppendable {
  ap_gen : is_uint 32 gen;
  ap_seq : 0 ≤ q < 2 ^ 63;
  ap_sentinel : q ≠ sentinel_seq;
  ap_fits : 20 + Z.of_nat (length p) ≤ max;
  ap_order : ∀ q' p', has_rec L gen (AUser q' p') → q' ≤ q;
}.

Lemma Kept_has_rec k L L' g q p : Kept k L L' → has_rec L g (AUser q p) →
  has_rec L' g (AUser q p) ∨ acked k g q ∨ ∃ g' l, has_rec L' g' (ALoss l) ∧ covers l g q.
Proof.
  intros HK (x & Hx & <- & Hr). pose proof (user_of_rec _ _ _ Hr) as Hu.
  destruct (HK x Hx) as [(y & Hy & _ & _ & Hg & _ & Hp) | [Ha | [He | (y & l & Hy & Hl & Hc)]]].
  - left. exists y. split_and!; [done | by rewrite Hg |]. destruct Hp as [t ->]. apply elem_of_app. by left.
  - right. left. by apply Ha.
  - rewrite He in Hu. by apply not_elem_of_nil in Hu.
  - right. right. exists (a_gen y.1), l. split; [by exists y | by apply Hc].
Qed.

(** C12. Append on an open log, of a record that fits and whose sequence number is not the
    sentinel and not below those of its generation on disk ([Appendable]): it fails only
    when a file operation fails. When it returns, the record is durable as the last record
    of the last segment, the acknowledgement is unchanged, and every user record that was on
    disk is still there, or was acknowledged, or lies in the range of an overflow marker that
    is now on disk. *)
Theorem append_no_silent_loss max o L s q gen p :
  LogState max o L s → w_nextIndex s.1 + 4 < 2 ^ 64 → Appendable max L q gen p →
  match Append q gen p s with
  | (Ok _, s') => ∃ L0 a i, LogState max o (L0 ++ [(a, i)]) s' ∧
      a_gen a = gen ∧ last (a_recs a) = Some (AUser q p) ∧ ack_of s'.1 = ack_of s.1 ∧
      ∀ g q' p', has_rec L g (AUser q' p') →
        has_rec (L0 ++ [(a, i)]) g (AUser q' p') ∨ acked (ack_of s.1) g q' ∨
        ∃ g' l, has_rec (L0 ++ [(a, i)]) g' (ALoss l) ∧ covers l g q'
  | (Err _, _) => w_faults s.2 ≠ []
  end.
Proof.
  intros HL Hn [Hg Hq Hqs Hp Hord]. pose proof (LogState_upto _ _ _ _ _ _ 0 HL Hord) as HI. destruct HL as [_ Ho Hmax H38 Hn0].
  pose proof Ho as (_ & Hsz & Hmode).
  assert (Ht : triple (Inv max o (ack_of s.1) 0 false None (upto gen q) (w_nextIndex s.1) L) (Append q gen p)
    (λ _, Appended max o (ack_of s.1) 0 false None (upto gen q) (w_nextIndex s.1) L q gen p) (λ _, True)).
  { apply t_Append; try done; unfold upto; [by intros u p' Hu; apply Hu | lia]. }
  specialize (Ht s HI). destruct (Append q gen p s) as [[b|e] s']; [|by destruct Ht].
  destruct Ht as [(n' & L0 & a & i & HI' & Hga & H1 & _ & HK & _) _]. exists L0, (add_rec (AUser q p) a), i.
  split_and!; [| done | | by apply HI' |].
  - eapply Inv_LogState; [exact HI' | done.. | lia].
  - cbn. by rewrite last_snoc.
  - intros g q' p'. by apply Kept_has_rec.
Qed.

(** ** Crash and recovery *)

(** The machine stops while [t] is being written to file [i]: what reached the disk
    is what the next process reads. *)
Definition torn_write (i : nat) (t : bytes) (W : World) : World :=
  with_file i (mkFile (data_of W i ++ t) (length (data_of W i ++ t))) W.

(** The log opened on a crashed directory. *)
Definition Reopened (max : Z) (o : Options) (L : Slots) (m : option Meta) (w : WAL) (W : World) : Prop :=
  LogState max o L (w, W) ∧ ack_of w = meta_ack m ∧ w_meta W = m ∧ w_totalBytes w = disk_bytes L ∧
  w_highSeq w = high_of L ∧ w_nextIndex w = next_of L.

Lemma open_recovers max o L t W : options_ok max o → bad_max max = false → 38 ≤ max →
  CrashedLog max L t W → Forall (λ x, StronglySorted Z.le (a_users x.1)) L → meta_ok o (w_meta W) → next_of L < 2 ^ 64 →
  match Open o W with
  | (Ok w, W') => Reopened max o L (w_meta W) w W' ∧ (w_faults W = [] → w_faults W' = [])
  | (Err _, _) => w_faults W ≠ []
  end.
Proof.
  intros Ho Hmax H38 HC Hus Hm Hn.
  assert (Hnf : NF false W) by (by intros ?).
  pose proof (t_Open max o (w_meta W) false L t Hmax ltac:(lia) Ho Hm Hn W (conj (conj HC eq_refl) Hnf)) as Ht.
  destruct (Open o W) as [[w|e] W']; [|by destruct Ht]. destruct Ht as [((Hcore & Hh & _) & HR & HM & _) Hf]. split; [|exact Hf].
  assert (Hidx : Forall (λ y, a_idx y.1 < next_of L) L).
  { unfold next_of. destruct (last L) as [x|] eqn:Hl; [|by apply last_None in Hl as ->].
    apply last_Some in Hl as [L0 ->]. apply Forall_app. split; [|apply Forall_singleton; lia].
    eapply Forall_impl; [exact (last_idx _ _ _ _ HR)|]. cbn. lia. }
  assert (Hn0 : 0 ≤ next_of L).
  { unfold next_of. destruct (last L) as [x|] eqn:Hl; [|lia]. apply last_Some in Hl as [L0 ->].
    pose proof (Rep_wf _ _ _ x HR) as Hwf. destruct Hwf as ([? _] & _); [|lia].
    apply elem_of_app. right. by apply list_elem_of_singleton. }
  unfold core in Hcore. cbn in Hcore. injection Hcore as H1 H2 H3 H4 H5 H6 H7 H8 H9 H10.
  assert (Hnw : w_opts (new_wal o max (w_meta W)) = o ∧ w_closed (new_wal o max (w_meta W)) = false ∧ w_fatalErr (new_wal o max (w_meta W)) = None).
  { unfold new_wal. destruct (w_meta W) as [m|]; [|done]. by destruct (m_AckRecorded m). }
  destruct Hnw as (Hw1 & Hw2 & Hw3).
  assert (Hack : ack_of w = meta_ack (w_meta W)) by (rewrite <- (new_wal_ack o max); unfold ack_of; congruence).
  split_and!; try done; [|congruence..].
  constructor; [|done..|cbn; lia]. constructor; cbn; try done; [congruence.. | by rewrite H9 | rewrite H3; by eapply CrashedLog_sealed |].
  eapply Forall_impl; [exact Hus|]. intros x Hx. by apply users_ok_any.
Qed.

Lemma LogState_sorted max o L s : LogState max o L s → Forall (λ x, StronglySorted Z.le (a_users x.1)) L.
Proof.
  intros HL. eapply Forall_impl; [exact (iv_users _ _ _ _ _ _ _ _ _ _ (ls_inv _ _ _ _ HL))|]. by intros x [].
Qed.

(** What a crash in the middle of writing record [r] leaves behind. *)
Definition survives (r : ARec) (t : bytes) (a : ASeg) : ASeg := if decide (t = frame (enc (a_gen a) r)) then add_rec r a else a.

Lemma torn_write_crashed max L0 a i r t W : bad_max max = false → Rep max W (L0 ++ [(a, i)]) → Forall is_sealed_slot L0 → a_live a = true →
  rec_wf max (a_gen a) r → t `prefix_of` frame (enc (a_gen a) r) →
  ∃ t', CrashedLog max (L0 ++ [(survives r t a, i)]) t' (torn_write i t W).
Proof.
  intros Hmax HR HF Ha Hr Ht.
  assert (Hd : data_of W i = a_bytes a) by (apply (Rep_data max W _ (a, i) HR), elem_of_app; right; by apply list_elem_of_singleton).
  unfold torn_write. rewrite Hd. unfold CrashedLog, survives. case_decide as Hf.
  - exists []. rewrite last_snoc. cbn [add_rec a_live]. rewrite Ha.
    split; [by apply torn_nil|]. exists L0. split_and!; [done..|].
    rewrite Hf, <- a_bytes_add_rec. eexists. split; [|rewrite decide_True by done; apply same_refl].
    by apply Rep_add_rec.
  - exists t. rewrite last_snoc, Ha. split; [apply (torn_prefix max Hmax (enc (a_gen a) r)); [apply Hr | done..]|].
    exists L0. split_and!; [done..|]. exists W. split; [done|]. case_decide as Hnil.
    + subst t. rewrite app_nil_r. exists (w_faults W). pose proof (rep_files _ _ _ HR) as Hfs.
      apply Forall_app in Hfs as [_ Hfs]. inversion Hfs as [|? ? Hi _]; subst. cbn in Hi.
      unfold with_file. rewrite insert_id by done. by destruct W.
    + eexists. apply same_refl.
Qed.

Lemma survives_users r t a : StronglySorted Z.le (a_users a) → (∀ q p, r = AUser q p → Forall (λ u, u ≤ q) (a_users a)) →
  StronglySorted Z.le (a_users (survives r t a)).
Proof.
  intros Hs Hr. unfold survives. case_decide; [|done]. destruct r as [q p|l].
  - rewrite add_user_users. apply sorted_snoc; [done | by eapply Hr].
  - by rewrite add_loss_users.
Qed.

(** C22. A crash in the middle of writing a record: whatever prefix of its frame
    reached the live file, opening the directory again succeeds, the log has all its
    earlier records, and the interrupted record exactly when its whole frame was
    written; the torn bytes are gone, the byte count is what is on disk, and the
    acknowledgement is the one last persisted. *)
Theorem crash_recovery max o L0 a i r t s :
  LogState max o (L0 ++ [(a, i)]) s → a_live a = true → rec_wf max (a_gen a) r →
  (∀ q p, r = AUser q p → Forall (λ u, u ≤ q) (a_users a)) →
  t `prefix_of` frame (enc (a_gen a) r) →
  meta_ok o (w_meta s.2) → w_nextIndex s.1 < 2 ^ 64 → w_faults s.2 = [] →
  ∃ w W, Open o (torn_write i t s.2) = (Ok w, W) ∧
    LogState max o (L0 ++ [(if decide (t = frame (enc (a_gen a) r)) then add_rec r a else a, i)]) (w, W) ∧
    ack_of w = meta_ack (w_meta s.2) ∧
    w_totalBytes w = disk_bytes (L0 ++ [(if decide (t = frame (enc (a_gen a) r)) then add_rec r a else a, i)]).
Proof.
  intros HL Ha Hr Hord Ht Hm Hn Hf. pose proof (ls_inv _ _ _ _ HL) as HI.
  assert (HF : Forall is_sealed_slot L0).
  { pose proof (iv_live _ _ _ _ _ _ _ _ _ _ HI) as Hlive. unfold Live in Hlive. destruct (w_current s.1).
    - destruct Hlive as (L1 & a1 & i1 & [-> _]%app_inj_tail & ? & _). done.
    - by apply Forall_app in Hlive as [? _]. }
  destruct (torn_write_crashed max L0 a i r t s.2) as [t' HC]; [apply HL | apply HI | done..|].
  pose proof (LogState_sorted _ _ _ _ HL) as Hs. apply Forall_app in Hs as [Hs1 Hs2]. inversion Hs2 as [|? ? Hs3 _]; subst. cbn in Hs3.
  pose proof (iv_idx _ _ _ _ _ _ _ _ _ _ HI) as Hidx. apply Forall_app in Hidx as [_ Hidx]. inversion Hidx as [|? ? Hidx1 _]; subst. cbn in Hidx1.
  fold (survives r t a).
  assert (Hs : Forall (λ x : ASeg * nat, StronglySorted Z.le (a_users x.1)) (L0 ++ [(survives r t a, i)])).
  { apply Forall_app. split; [done|]. apply Forall_singleton. by apply survives_users. }
  assert (Hnx : next_of (L0 ++ [(survives r t a, i)]) < 2 ^ 64).
  { unfold next_of. rewrite last_snoc. unfold survives. case_decide; cbn; lia. }
  destruct HL as [_ Ho Hmax H38 _].
  pose proof (open_recovers max o _ t' (torn_write i t s.2) Ho Hmax H38 HC Hs Hm Hnx) as Hgo.
  destruct (Open _ _) as [[w|e] W]; [|done]. destruct Hgo as [(H1 & H2 & _ & H3 & _) _]. by exists w, W.
Qed.

(** ** Acknowledgement *)

(** The watermark never moves back in the order of generations and sequence numbers. *)
Definition ack_le (k k' : AckMark) : Prop :=
  ak_present k = true → ak_present k' = true ∧ (ak_gen k < ak_gen k' ∨ (ak_gen k = ak_gen k' ∧ ak_seq k ≤ ak_seq k')).

Lemma ack_le_acked k k' g q : ack_le k k' → acked k g q → acked k' g q.
Proof. intros Hle [Hp H]. destruct (Hle Hp) as [Hp' H']. split; [done|]. lia. Qed.

Lemma new_ack_le k gen seq : ack_le k (new_ack k gen seq).
Proof.
  unfold ack_le, new_ack. intros Hp. rewrite Hp. cbn [negb orb].
  destruct (Z.ltb_spec (ak_gen k) gen), (Z.eqb_spec gen (ak_gen k)), (Z.ltb_spec (ak_seq k) seq); cbn; split; try done; lia.
Qed.

Lemma new_ack_acked k gen seq : acked (new_ack k gen seq) gen seq.
Proof.
  unfold acked, new_ack. destruct (ak_present k) eqn:Hp; cbn [negb orb]; [|cbn; split; [done|lia]].
  destruct (Z.ltb_spec (ak_gen k) gen), (Z.eqb_spec gen (ak_gen k)), (Z.ltb_spec (ak_seq k) seq); cbn; split; try done; lia.
Qed.

Lemma LogState_MarkAcked max o L s gen seq : LogState max o L s →
  match MarkAcked gen seq s with
  | (Ok _, s') => ∃ L', LogState max o L' s' ∧ ack_of s'.1 = new_ack (ack_of s.1) gen seq ∧
      w_meta s'.2 = Some (ack_meta o (ack_of s'.1)) ∧ w_nextIndex s'.1 = w_nextIndex s.1 ∧
      L' `sublist_of` L ∧ ∀ x, x ∈ L → x ∈ L' ∨ fully_acked (ack_of s'.1) x.1 = true
  | (Err _, _) => w_faults s.2 ≠ []
  end.
Proof.
  intros HL. pose proof HL as [HI Ho Hmax H38 Hn].
  pose proof (t_MarkAcked max Hmax o 0 false _ _ _ _ L gen seq s HI) as Ht.
  destruct (MarkAcked gen seq s) as [[u|e] s']; [|by destruct Ht]. destruct Ht as [(L' & HI' & Hsub & Hm & Hall) _].
  pose proof (iv_ack _ _ _ _ _ _ _ _ _ _ HI') as Hk. exists L'. rewrite Hk.
  split_and!; try done; [by eapply Inv_LogState | apply HI'].
Qed.

Lemma sublist_has_rec L L' g r : L' `sublist_of` L → has_rec L' g r → has_rec L g r.
Proof. intros Hsub (x & Hx & H). exists x. split; [by eapply elem_of_sublist | done]. Qed.

(** MarkAcked fails only when a file operation fails. When it returns, the record
    named by the caller is acknowledged, the watermark has not moved back and is what
    meta.json now records, no record was added, and every record that is gone was
    acknowledged. *)
Theorem ack_removes_only_acked max o L s gen seq :
  LogState max o L s →
  match MarkAcked gen seq s with
  | (Ok _, s') => ∃ L', LogState max o L' s' ∧
      acked (ack_of s'.1) gen seq ∧ ack_le (ack_of s.1) (ack_of s'.1) ∧ meta_ack (w_meta s'.2) = ack_of s'.1 ∧
      (∀ g r, has_rec L' g r → has_rec L g r) ∧
      (∀ g q p, has_rec L g (AUser q p) → has_rec L' g (AUser q p) ∨ acked (ack_of s'.1) g q)
  | (Err _, _) => w_faults s.2 ≠ []
  end.
Proof.
  intros HL. pose proof (LogState_MarkAcked _ _ _ _ gen seq HL) as Ht.
  destruct (MarkAcked gen seq s) as [[u|e] s']; [|done]. destruct Ht as (L' & HL' & Hk & Hm & _ & Hsub & Hall).
  exists L'. split_and!; [done | | | | |].
  - rewrite Hk. apply new_ack_acked.
  - rewrite Hk. apply new_ack_le.
  - rewrite Hm. cbn. pose proof (new_ack_acked (ack_of s.1) gen seq) as [Hp _]. rewrite <- Hk in Hp.
    unfold ack_of in *. cbn in *. by rewrite Hp.
  - intros g r. by apply sublist_has_rec.
  - intros g q p (x & Hx & <- & Hr). destruct (Hall x Hx) as [Hx'|Hf]; [left; by exists x|].
    right. eapply fully_acked_users; [exact Hf | by eapply user_of_rec].
Qed.

(** ** The fatal latch *)

(** Every error of [m] is ambiguous and latches the log. *)
Definition latches {A} (m : WalM AppendError A) : Prop := ∀ s,
  match m s with (Err e, s') => IsAmbiguous e = true ∧ is_Some (w_fatalErr s'.1) | (Ok _, _) => True end.

Lemma latches_ret {A} (a : A) : latches (ret a).
Proof. done. Qed.
Lemma latches_get {A} (f : WAL * World → A) : latches (mget f).
Proof. done. Qed.
Lemma latches_put f : latches (mput f).
Proof. done. Qed.
Lemma latches_amb {A} op (m : WalM OsErr A) : latches (ambiguous op m).
Proof.
  intros s. unfold ambiguous. destruct (m s) as [[a|e] [w W]]; [done|]. split; [done|].
  cbn. destruct (w_fatalErr w) eqn:Hf; cbn; [rewrite Hf|]; by eexists.
Qed.
Lemma latches_bind {A B} (m : WalM AppendError A) (k : A → WalM AppendError B) :
  latches m → (∀ a, latches (k a)) → latches (bindM m k).
Proof.
  intros Hm Hk s. unfold bindM. specialize (Hm s). destruct (m s) as [[a|e] s']; [apply Hk | done].
Qed.
#[local] Hint Resolve @latches_ret @latches_get @latches_put @latches_amb @latches_bind : keeps.

Ltac latch := repeat first
  [ solve [auto with keeps nocore] | apply latches_bind; [|intros ?]
  | match goal with |- latches (match ?x with _ => _ end) => destruct x end ].

Lemma latches_overflow fuel gen : latches (overflow_loop fuel gen).
Proof. induction fuel as [|fuel IH]; cbn [overflow_loop]; [done|]. unfold overflow_marker. latch. Qed.
#[local] Hint Resolve latches_overflow : keeps.

Lemma latches_append_record mode q gen p : latches (append_record mode q gen p).
Proof. unfold append_record, roll_generation, open_first, roll_full. latch. Qed.

(** The two ways an operation may fail: cleanly, without any effect, or ambiguously,
    and then the log is latched. *)
Definition clean_or_latched {A} (m : WalM AppendError A) : Prop := ∀ s,
  match m s with
  | (Err e, s') => (IsClean e = true ∧ s' = s) ∨ (IsAmbiguous e = true ∧ is_Some (w_fatalErr s'.1))
  | (Ok _, _) => True
  end.

Lemma latches_clean_or {A} (m : WalM AppendError A) : latches m → clean_or_latched m.
Proof. intros Hm s. specialize (Hm s). destruct (m s) as [[a|e] s']; [done | by right]. Qed.

Lemma Append_failures q gen p : clean_or_latched (Append q gen p).
Proof.
  intros s. unfold Append. unfold bindM at 1, mget. destruct (w_closed s.1); [by left|].
  destruct (w_fatalErr s.1); [by left|]. destruct (_ <? _); [by left|].
  apply latches_clean_or, latches_bind; [unfold reclaim; latch | intros []; apply latches_append_record].
Qed.

Lemma AppendLoss_failures l : clean_or_latched (AppendLoss l).
Proof.
  intros s. unfold AppendLoss. unfold bindM at 1, mget. destruct (w_closed s.1); [by left|].
  destruct (w_fatalErr s.1); [by left|]. apply latches_clean_or. latch.
Qed.

Lemma fatal_refuses s : is_Some (w_fatalErr s.1) →
  ∀ q gen p l, (∃ e, Append q gen p s = (Err e, s) ∧ IsClean e = true) ∧ (∃ e, AppendLoss l s = (Err e, s) ∧ IsClean e = true).
Proof.
  intros [e He] q gen p l. unfold Append, AppendLoss. unfold bindM, mget. rewrite He.
  destruct (w_closed s.1); split; eexists; done.
Qed.

(** What a caller may rely on when an operation returns an error. *)
Definition failure_contract {A} (s : WAL * World) (r : Result AppendError A * (WAL * World)) : Prop :=
  match r with
  | (Ok _, _) => True
  | (Err e, s') =>
      (IsClean e = true ∧ s' = s) ∨
      (IsAmbiguous e = true ∧
       ∀ q gen p l, (∃ e', Append q gen p s' = (Err e', s') ∧ IsClean e' = true) ∧
                    (∃ e', AppendLoss l s' = (Err e', s') ∧ IsClean e' = true))
  end.

Lemma clean_or_latched_contract {A} (m : WalM AppendError A) s : clean_or_latched m → failure_contract s (m s).
Proof.
  intros Hm. specialize (Hm s). destruct (m s) as [[a|e] s']; [done|].
  destruct Hm as [?|[? ?]]; [by left | right; split; [done | by apply fatal_refuses]].
Qed.

(** Failures of Append and AppendLoss, whatever the file system does and for any
    state and arguments: a clean failure left the log and the disk exactly as they
    were, so it may be retried; after an ambiguous one, which may have left a partial
    record, every later Append and AppendLoss is refused cleanly and writes nothing. *)
Theorem wal_failure_contract q gen p l s :
  failure_contract s (Append q gen p s) ∧ failure_contract s (AppendLoss l s).
Proof. split; apply clean_or_latched_contract; [apply Append_failures | apply AppendLoss_failures]. Qed.

(** ** Byte accounting *)

Lemma LogState_exact max o L s gen q : LogState max o L s → w_faults s.2 = [] → (∀ q' p, has_rec L gen (AUser q' p) → q' ≤ q) →
  Inv max o (ack_of s.1) (w_totalBytes s.1 + 16 * w_nextIndex s.1 - disk_bytes L) true None (upto gen q) (w_nextIndex s.1) L s.
Proof.
  intros HL Hf Hq. pose proof (LogState_upto _ _ _ _ _ _ 0 HL Hq) as []. constructor; try done; intros _; [lia | done].
Qed.

(** The byte count that decides overflow: with a file system that does not fail,
    Append succeeds, and the difference between the count and the bytes on disk falls
    by 16 for every segment the append opened, the segment header that is never
    counted when a segment is created but is subtracted when it is removed. *)
Theorem byte_count_drift max o L s q gen p :
  LogState max o L s → w_nextIndex s.1 + 4 < 2 ^ 64 → Appendable max L q gen p → w_faults s.2 = [] →
  ∃ b s' L', Append q gen p s = (Ok b, s') ∧ LogState max o L' s' ∧ w_faults s'.2 = [] ∧
    w_nextIndex s.1 ≤ w_nextIndex s'.1 ∧
    w_totalBytes s'.1 - disk_bytes L' =
      w_totalBytes s.1 - disk_bytes L - SegmentHeaderSize * (w_nextIndex s'.1 - w_nextIndex s.1).
Proof.
  intros HL Hn [Hg Hq Hqs Hp Hord] Hf. pose proof (LogState_exact _ _ _ _ _ _ HL Hf Hord) as HI. destruct HL as [_ Ho Hmax H38 Hn0].
  pose proof Ho as (_ & Hsz & Hmode). set (c0 := _ - disk_bytes L) in HI.
  assert (Ht : triple (Inv max o (ack_of s.1) c0 true None (upto gen q) (w_nextIndex s.1) L) (Append q gen p)
    (λ _, Appended max o (ack_of s.1) c0 true None (upto gen q) (w_nextIndex s.1) L q gen p) (λ _, True)).
  { apply t_Append; try done; unfold upto; [by intros u p' Hu; apply Hu | lia]. }
  specialize (Ht s HI). destruct (Append q gen p s) as [[b|e] s']; [|by destruct Ht].
  destruct Ht as [(n' & L0 & a & i & HI' & _ & H1 & _) Hf']. eexists b, s', _.
  pose proof (iv_total _ _ _ _ _ _ _ _ _ _ HI' eq_refl) as Ht. pose proof (iv_next _ _ _ _ _ _ _ _ _ _ HI') as Hn'.
  split_and!; [done | eapply Inv_LogState; [exact HI' | done.. | lia] | by apply Hf' | lia |].
  unfold SegmentHeaderSize, c0 in *. lia.
Qed.

(** ** Refinement of an abstract log *)

(** The abstract log: the records whose append returned (or was interrupted by a crash
    after the whole record was on disk), and the watermark. *)
Record Spec := mkSpec { sp_recs : list (Z * Z * bytes); sp_ack : AckMark }.

Inductive Event :=
  | EvAppend (q gen : Z) (p : bytes)      (** an append that returned *)
  | EvAck (gen seq : Z)                   (** an acknowledgement that returned *)
  | EvCrash (q gen : Z) (p : bytes)       (** a crash during an append to the live segment, and a restart *)
  | EvRestart.                            (** a crash between operations, and a restart *)

Inductive spec_step : Spec → Event → Spec → Prop :=
  | spec_append R k q gen p : spec_step (mkSpec R k) (EvAppend q gen p) (mkSpec (R ++ [(gen, q, p)]) k)
  | spec_ack R k gen seq : spec_step (mkSpec R k) (EvAck gen seq) (mkSpec R (new_ack k gen seq))
  | spec_crash_lost R k q gen p : spec_step (mkSpec R k) (EvCrash q gen p) (mkSpec R k)
  | spec_crash_kept R k q gen p : spec_step (mkSpec R k) (EvCrash q gen p) (mkSpec (R ++ [(gen, q, p)]) k)
  | spec_restart R k : spec_step (mkSpec R k) EvRestart (mkSpec R k).

(** What the code does on each event; an append here finds the budget sufficient. *)
Inductive wal_step (o : Options) : WAL * World → Event → WAL * World → Prop :=
  | step_append s q gen p b s' : over_budget s.1 = false → Append q gen p s = (Ok b, s') →
      wal_step o s (EvAppend q gen p) s'
  | step_ack s gen seq s' : MarkAcked gen seq s = (Ok tt, s') → wal_step o s (EvAck gen seq) s'
  | step_crash s q p seg i t w W : w_current s.1 = Some seg → s_file seg = Some i →
      t `prefix_of` frame (encodeSeqGenFrame q (s_gen seg) p) → Open o (torn_write i t s.2) = (Ok w, W) →
      wal_step o s (EvCrash q (s_gen seg) p) (w, W)
  | step_restart s w W : Open o s.2 = (Ok w, W) → wal_step o s EvRestart (w, W).

Definition ev_rec (e : Event) : option (Z * Z * bytes) :=
  match e with EvAppend q gen p | EvCrash q gen p => Some (gen, q, p) | _ => None end.

(** The event's record may be appended after the records of [R]. *)
Definition legal (max : Z) (R : list (Z * Z * bytes)) (e : Event) : Prop :=
  ∀ gen q p, ev_rec e = Some (gen, q, p) →
    is_uint 32 gen ∧ 0 ≤ q < 2 ^ 63 ∧ q ≠ sentinel_seq ∧ 20 + Z.of_nat (length p) ≤ max ∧
    ∀ q' p', (gen, q', p') ∈ R → q' ≤ q.

Record RefinesLog (max : Z) (o : Options) (A : Spec) (s : WAL * World) (L : Slots) : Prop := mkRefines {
  rf_state : LogState max o L s;
  rf_meta : meta_ok o (w_meta s.2);
  rf_ack : ack_of s.1 = sp_ack A;
  rf_persisted : meta_ack (w_meta s.2) = sp_ack A;
  rf_sound : ∀ g q p, has_rec L g (AUser q p) → (g, q, p) ∈ sp_recs A;
  rf_complete : ∀ g q p, (g, q, p) ∈ sp_recs A → has_rec L g (AUser q p) ∨ acked (sp_ack A) g q;
}.

(** Every user record on disk is a record of [A], every record of [A] is on disk or
    acknowledged, and the watermark is that of [A], in memory and in meta.json. *)
Definition Refines (max : Z) (o : Options) (A : Spec) (s : WAL * World) : Prop := ∃ L, RefinesLog max o A s L.

Lemma Ext_has_rec L L' g r : Ext L L' → has_rec L g r → has_rec L' g r.
Proof.
  intros HE (x & Hx & <- & Hr). destruct (HE x Hx) as (y & Hy & _ & _ & Hg & _ & [t Ht]).
  exists y. split_and!; [done | by rewrite Hg |]. rewrite Ht. apply elem_of_app. by left.
Qed.

(** One more record on both sides. *)
Lemma Refines_add max o R k s s' L L' q gen p : RefinesLog max o (mkSpec R k) s L → LogState max o L' s' →
  ack_of s'.1 = k → w_meta s'.2 = w_meta s.2 →
  (∀ g r, has_rec L g r → has_rec L' g r) → has_rec L' gen (AUser q p) →
  (∀ g r, has_rec L' g r → has_rec L g r ∨ (g = gen ∧ r = AUser q p)) →
  RefinesLog max o (mkSpec (R ++ [(gen, q, p)]) k) s' L'.
Proof.
  intros [HL Hm Hk Hmk Hs Hc] HL' Hk' Hmeta Hkeep Hnew Hback. cbn in *.
  constructor; cbn; try done; [by rewrite Hmeta.. | |].
  - intros g q' p' [?|[-> [= -> ->]]]%Hback; apply elem_of_app; [left; auto | right; by apply list_elem_of_singleton].
  - intros g q' p' [Hin|[= -> -> ->]%list_elem_of_singleton]%elem_of_app; [|by left].
    destruct (Hc _ _ _ Hin); [left; auto | by right].
Qed.

Lemma sim_append max o A s q gen p b s' : Refines max o A s → legal max (sp_recs A) (EvAppend q gen p) → w_nextIndex s.1 + 3 < 2 ^ 64 →
  over_budget s.1 = false → Append q gen p s = (Ok b, s') → ∃ A', spec_step A (EvAppend q gen p) A' ∧ Refines max o A' s'.
Proof.
  intros [L HR] Hleg Hn Hov Happ. destruct (Hleg gen q p eq_refl) as (Hg & Hq & Hqs & Hp & Hord). destruct A as [R k].
  assert (Hord' : ∀ q' p', has_rec L gen (AUser q' p') → q' ≤ q) by (intros q' p' Hr; eapply Hord, (rf_sound _ _ _ _ _ HR), Hr).
  pose proof (LogState_upto _ _ _ _ _ _ 0 (rf_state _ _ _ _ _ HR) Hord') as HI.
  destruct (rf_state _ _ _ _ _ HR) as [_ Ho Hmax H38 Hn0]. pose proof Ho as (_ & Hsz & Hmode).
  assert (Ht : triple (λ s0, Inv max o (ack_of s.1) 0 false None (upto gen q) (w_nextIndex s.1) L s0 ∧ over_budget s0.1 = false) (Append q gen p)
    (λ _, Placed max o (ack_of s.1) 0 false None (upto gen q) (w_nextIndex s.1) L q gen p) (λ _, True)).
  { apply t_Append_within; try done; unfold upto; [by intros u p' Hu; apply Hu | lia]. }
  specialize (Ht s (conj HI Hov)). pose proof (keeps_Append q gen p s) as Hkm. rewrite Happ in Ht, Hkm. unfold meta_of, pair_meta in Hkm. cbn in Hkm.
  destruct Ht as [(n' & L0 & a & i & HI' & Hga & H1 & _ & HE & _ & _ & Hback & _) _].
  exists (mkSpec (R ++ [(gen, q, p)]) k). split; [constructor|]. exists (L0 ++ [(add_rec (AUser q p) a, i)]).
  eapply Refines_add; [exact HR | | | done | | | done].
  - eapply Inv_LogState; [exact HI' | done.. | lia].
  - rewrite (iv_ack _ _ _ _ _ _ _ _ _ _ HI'). apply HR.
  - intros g r. by apply Ext_has_rec.
  - apply has_rec_app. right. apply has_rec_single. split; [done|]. cbn. apply elem_of_app. right. by apply list_elem_of_singleton.
Qed.

Lemma sim_ack max o A s gen seq s' : Refines max o A s → MarkAcked gen seq s = (Ok tt, s') →
  ∃ A', spec_step A (EvAck gen seq) A' ∧ Refines max o A' s'.
Proof.
  intros [L HR] Hack. destruct A as [R k]. destruct HR as [HL Hm Hk Hmk Hs Hc]. cbn [sp_recs sp_ack] in *.
  pose proof (LogState_MarkAcked _ _ _ _ gen seq HL) as Ht. rewrite Hack in Ht. destruct Ht as (L' & HL' & Hk' & Hm' & _ & Hsub & Hall).
  rewrite Hk in Hk'. exists (mkSpec R (new_ack k gen seq)). split; [constructor|]. exists L'.
  constructor; cbn; [done | rewrite Hm'; done | done | | |].
  - rewrite Hm', Hk'. cbn. pose proof (new_ack_acked k gen seq) as [Hp _]. destruct (new_ack k gen seq) as [pr g0 s0].
    cbn in *. by rewrite Hp.
  - intros g q p Hr. apply Hs. by eapply sublist_has_rec.
  - intros g q p Hin. destruct (Hc _ _ _ Hin) as [(x & Hx & <- & Hr)|Ha].
    + destruct (Hall x Hx) as [Hx'|Hf]; [left; by exists x|]. right. rewrite <- Hk'.
      eapply fully_acked_users; [exact Hf | by eapply user_of_rec].
    + right. eapply ack_le_acked; [apply new_ack_le | done].
Qed.

Lemma sim_reopen max o A s L L' t W w W' : RefinesLog max o A s L → CrashedLog max L' t W → w_meta W = w_meta s.2 →
  Forall (λ x, StronglySorted Z.le (a_users x.1)) L' → next_of L' < 2 ^ 64 → Open o W = (Ok w, W') →
  LogState max o L' (w, W') ∧ ack_of w = sp_ack A ∧ w_meta W' = w_meta s.2.
Proof.
  intros HR HC HM Hs Hn Hopen. destruct HR as [[_ Ho Hmax H38 _] Hm Hk Hmk _ _]. rewrite <- HM in Hm, Hmk.
  pose proof (open_recovers max o L' t W Ho Hmax H38 HC Hs Hm Hn) as Ht. rewrite Hopen in Ht.
  destruct Ht as [(HL & Hack & Hmeta & _) _]. split_and!; [done | by rewrite Hack | congruence].
Qed.

Lemma next_of_bound max o L s : LogState max o L s → w_nextIndex s.1 + 3 < 2 ^ 64 → next_of L < 2 ^ 64.
Proof.
  intros HL Hn. unfold next_of. destruct (last L) as [x|] eqn:Hl; [|lia]. apply last_Some in Hl as [L0 ->].
  pose proof (iv_idx _ _ _ _ _ _ _ _ _ _ (ls_inv _ _ _ _ HL)) as Hidx. apply Forall_app in Hidx as [_ Hidx].
  inversion Hidx; subst. lia.
Qed.

Lemma Live_crashed max c L W : bad_max max = false → Live max c L → Rep max W L → CrashedLog max L [] W.
Proof.
  intros Hmax Hl HR. unfold CrashedLog. destruct c as [seg|]; cbn in Hl.
  - destruct Hl as (L0 & a & i & -> & HF & Ha & _). rewrite last_snoc, Ha. split; [by apply torn_nil|].
    exists L0. split_and!; [done..|]. exists W. split; [done|]. rewrite decide_True by done. apply same_refl.
  - destruct (last L) as [[a i]|] eqn:Hlast; [|done]. pose proof Hl as Hall. apply last_Some in Hlast as [L0 ->].
    apply Forall_app in Hall as [_ Hall]. inversion Hall as [|? ? Ha _]; subst. unfold is_sealed_slot in Ha. cbn in Ha. by rewrite Ha.
Qed.

Lemma sim_restart max o A s w W : Refines max o A s → w_nextIndex s.1 + 3 < 2 ^ 64 → Open o s.2 = (Ok w, W) →
  ∃ A', spec_step A EvRestart A' ∧ Refines max o A' (w, W).
Proof.
  intros [L HR] Hn Hopen. exists A. split; [destruct A; constructor|]. exists L.
  pose proof (rf_state _ _ _ _ _ HR) as HL. pose proof (ls_inv _ _ _ _ HL) as HI.
  destruct (sim_reopen max o A s L L [] s.2 w W) as (HL' & Hk & Hm); try done;
    [eapply Live_crashed; [apply HL | apply HI..] | by eapply LogState_sorted | by eapply next_of_bound|].
  destruct HR. constructor; cbn in *; try done; by rewrite Hm.
Qed.

Lemma sim_crash max o A s q p seg i t w W : Refines max o A s → legal max (sp_recs A) (EvCrash q (s_gen seg) p) →
  w_nextIndex s.1 + 3 < 2 ^ 64 → w_current s.1 = Some seg → s_file seg = Some i →
  t `prefix_of` frame (encodeSeqGenFrame q (s_gen seg) p) → Open o (torn_write i t s.2) = (Ok w, W) →
  ∃ A', spec_step A (EvCrash q (s_gen seg) p) A' ∧ Refines max o A' (w, W).
Proof.
  intros [L HR] Hleg Hn Hc Hfile Ht Hopen. destruct A as [R k].
  destruct (Hleg (s_gen seg) q p eq_refl) as (Hg & Hq & Hqs & Hp & Hord).
  pose proof (rf_state _ _ _ _ _ HR) as HL. pose proof (ls_inv _ _ _ _ HL) as HI.
  pose proof (iv_live _ _ _ _ _ _ _ _ _ _ HI) as Hlive. rewrite Hc in Hlive. destruct Hlive as (L0 & a & i' & HLe & HF & Ha & ->).
  cbn in *. injection Hfile as ->. subst L. set (r := AUser q p).
  assert (Hr : rec_wf max (a_gen a) r).
  { split; [|done]. unfold fits, r. cbn [enc]. rewrite length_encodeSeqGenFrame. lia. }
  destruct (torn_write_crashed max L0 a i r t s.2) as [t' HC]; [apply HL | apply HI | done..|].
  assert (Hs : Forall (λ x : ASeg * nat, StronglySorted Z.le (a_users x.1)) (L0 ++ [(survives r t a, i)])).
  { pose proof (LogState_sorted _ _ _ _ HL) as Hs. apply Forall_app in Hs as [Hs1 Hs2]. inversion Hs2 as [|? ? Hs3 _]; subst.
    apply Forall_app. split; [done|]. apply Forall_singleton. apply survives_users; [done|]. intros q0 p0 [= <- <-].
    apply Forall_forall. intros u Hu. destruct (has_rec_user _ _ Hu) as [pu Hpu]. apply (Hord u pu), (rf_sound _ _ _ _ _ HR).
    apply has_rec_app. right. by apply has_rec_single. }
  assert (Hnx : next_of (L0 ++ [(survives r t a, i)]) < 2 ^ 64).
  { pose proof (next_of_bound _ _ _ _ HL Hn) as Hnx. unfold next_of in *. rewrite last_snoc in *. unfold survives. by case_decide. }
  destruct (sim_reopen max o _ s _ _ t' (torn_write i t s.2) w W HR HC eq_refl Hs Hnx Hopen) as (HL' & Hk & Hm).
  unfold survives in HL'. case_decide as Hfull.
  - exists (mkSpec (R ++ [(a_gen a, q, p)]) k). split; [constructor|]. eexists. eapply Refines_add; [exact HR | exact HL' | done | done | | |].
    + intros g r'. rewrite !has_rec_app, !has_rec_single. cbn. rewrite elem_of_app. tauto.
    + apply has_rec_app. right. apply has_rec_single. split; [done|]. cbn. apply elem_of_app. right. by apply list_elem_of_singleton.
    + intros g r'. rewrite !has_rec_app, !has_rec_single. cbn. rewrite elem_of_app, list_elem_of_singleton. intuition congruence.
  - exists (mkSpec R k). split; [apply spec_crash_lost|]. eexists. destruct HR. constructor; cbn in *; try done; by rewrite Hm.
Qed.

(** A sequence of events, and the log that refines it. *)
Inductive wal_run (max : Z) (o : Options) : list (Z * Z * bytes) → WAL * World → list Event → WAL * World → Prop :=
  | run_nil R s : wal_run max o R s [] s
  | run_cons R s e s1 es s2 : wal_step o s e s1 → legal max R e → w_nextIndex s.1 + 3 < 2 ^ 64 →
      wal_run max o (R ++ option_list (ev_rec e)) s1 es s2 → wal_run max o R s (e :: es) s2.

Inductive spec_run : Spec → list Event → Spec → Prop :=
  | srun_nil A : spec_run A [] A
  | srun_cons A e A1 es A2 : spec_step A e A1 → spec_run A1 es A2 → spec_run A (e :: es) A2.

Lemma spec_step_recs A e A' : spec_step A e A' → sp_recs A' ⊆ sp_recs A ++ option_list (ev_rec e).
Proof. intros []; cbn; set_solver. Qed.

Lemma legal_sub max R R' e : R ⊆ R' → legal max R' e → legal max R e.
Proof.
  intros Hs Hl gen q p He. destruct (Hl gen q p He) as (H1 & H2 & H3 & H4 & Ho).
  exact (conj H1 (conj H2 (conj H3 (conj H4 (λ q' p' Hin, Ho q' p' (Hs _ Hin)))))).
Qed.

Lemma sim_step max o A s e s' : Refines max o A s → legal max (sp_recs A) e → w_nextIndex s.1 + 3 < 2 ^ 64 → wal_step o s e s' →
  ∃ A', spec_step A e A' ∧ Refines max o A' s'.
Proof.
  intros HR Hl Hn Hs. destruct Hs as [s q gen p b s' Hov Happ | s gen seq s' Hack | s q p seg i t w W Hc Hf Ht Ho | s w W Ho].
  - by eapply sim_append.
  - by eapply sim_ack.
  - by eapply sim_crash.
  - by eapply sim_restart.
Qed.

(** C2. The log refines the abstract log through any sequence of successful appends within
    the byte budget, acknowledgements, crashes and restarts: the abstract log can take the
    same steps, and in the end the user records on disk are records of the abstract log,
    every record of the abstract log is on disk or acknowledged, and the watermark in
    memory and in meta.json is the abstract one. The appended records fit in a segment, have
    a sequence number that is not the sentinel and, within their generation, not below the
    earlier ones ([legal]). A crash is one between two operations, or one that leaves any
    part of a record in the open live segment of its generation; a crash while a segment is
    created is not covered ([torn_header_unrecoverable]). *)
Theorem wal_refines max o A s es s' R :
  Refines max o A s → sp_recs A ⊆ R → wal_run max o R s es s' →
  ∃ A', spec_run A es A' ∧ Refines max o A' s'.
Proof.
  intros HR Hsub Hrun. revert A HR Hsub. induction Hrun as [R s | R s e s1 es s2 Hs Hl Hn _ IH]; intros A HR Hsub.
  - exists A. split; [constructor | done].
  - destruct (sim_step max o A s e s1 HR) as (A1 & HA1 & HR1); [by eapply legal_sub | done..|].
    destruct (IH A1 HR1) as (A2 & HA2 & HR2).
    + pose proof (spec_step_recs _ _ _ HA1). set_solver.
    + exists A2. split; [by econstructor | done].
Qed.

(** ** Concrete logs *)

Definition o0 : Options := mkOptions "wal" 100 250 SyncImmediate 0 "" "" "".
Definition W0 : World := mkWorld ∅ ∅ 0 None [].
Definition p0 : bytes := String.list_ascii_of_string "hello".

(** A log opened on an empty directory, and after its first append. *)
Definition s0 : WAL * World := Eval vm_compute in match Open o0 W0 with (Ok w, W) => (w, W) | (Err _, W) => (new_wal o0 84 None, W) end.
Definition s1 : WAL * World := Eval vm_compute in (Append 1 1 p0 s0).2.
Definition a1 : ASeg := mkASeg 1 1 FlagGenInit [AUser 1 p0] true.

Lemma s0_state : LogState 84 o0 [] s0.
Proof.
  constructor; [|done | done | lia | vm_compute; congruence]. constructor; try done; try by constructor. constructor; [by vm_compute | constructor..].
Qed.

Lemma s1_state : LogState 84 o0 [(a1, 0%nat)] s1.
Proof.
  assert (Hwf : seg_wf 84 a1).
  { split_and!; [by vm_compute | by vm_compute | by right |]. apply Forall_singleton. split; [|done].
    unfold fits. vm_compute. split; congruence. }
  constructor; [|done | done | lia | vm_compute; congruence]. constructor; try done.
  - constructor.
    + vm_compute. reflexivity.
    + repeat constructor.
    + apply NoDup_singleton.
    + apply Forall_singleton. vm_compute. reflexivity.
    + apply Forall_singleton. vm_compute. lia.
    + by apply Forall_singleton.
  - by apply Forall_singleton.
  - exists [], a1, 0%nat. split_and!; [done..|by vm_compute].
  - apply Forall_singleton. apply users_ok_any. repeat constructor.
Qed.

Lemma empty_appendable : Appendable 84 [] 1 1 p0.
Proof. constructor; [by vm_compute | lia | by vm_compute | cbn; lia |]. intros q p (x & Hx & _). by apply not_elem_of_nil in Hx. Qed.

(** Two full segments: the next append is over the budget and drops the first. *)
Definition big : bytes := String.list_ascii_of_string "a record that does not fit behind the first one of a segment".
Definition s_full : WAL * World := Eval vm_compute in (Append 2 1 big (Append 1 1 big s0).2).2.
Definition full1 : ASeg := mkASeg 1 1 FlagGenInit [AUser 1 big] false.
Definition full2 : ASeg := mkASeg 2 1 0 [AUser 2 big] true.
Definition L_full : Slots := [(full1, 0%nat); (full2, 1%nat)].

Lemma s_full_state : LogState 84 o0 L_full s_full.
Proof.
  assert (Hwf : seg_wf 84 full1 ∧ seg_wf 84 full2).
  { split; (split_and!; [by vm_compute | by vm_compute | by (left + right) |]; apply Forall_singleton; (split; [|done]);
      unfold fits; vm_compute; split; congruence). }
  destruct Hwf as [H1 H2]. constructor; [|done | done | lia | vm_compute; congruence]. constructor; try done.
  - constructor.
    + vm_compute. reflexivity.
    + repeat constructor.
    + by apply (bool_decide_unpack _).
    + repeat (apply Forall_cons; split; [vm_compute; reflexivity|]). constructor.
    + repeat (apply Forall_cons; split; [vm_compute; lia|]). constructor.
    + by repeat constructor.
  - by repeat constructor.
  - exists [(full1, 0%nat)], full2, 1%nat. split_and!; [done|by repeat constructor|done|by vm_compute].
  - repeat (apply Forall_cons; split; [apply users_ok_any; repeat constructor|]). constructor.
Qed.
Lemma s_full_appendable : Appendable 84 L_full 3 1 big.
Proof.
  constructor; [by vm_compute | lia | by vm_compute | cbn; lia |]. intros q p (x & Hx & _ & Hr).
  apply elem_of_cons in Hx as [->|Hx%list_elem_of_singleton]; [|subst x]; cbn in Hr;
    apply list_elem_of_singleton in Hr as [= -> ->]; lia.
Qed.

(** The dropped record is in the range of a marker: it is not on disk any more. *)
Lemma append_no_silent_loss_witness : LogState 84 o0 L_full s_full ∧ over_budget s_full.1 = true ∧
  w_dir (Append 3 1 big s_full).2.2 !! "0000000001.seg" = None ∧
  match Append 3 1 big s_full with
  | (Ok _, s') => ∃ L0 a i, LogState 84 o0 (L0 ++ [(a, i)]) s' ∧
      a_gen a = 1 ∧ last (a_recs a) = Some (AUser 3 big) ∧ ack_of s'.1 = ack_of s_full.1 ∧
      ∀ g q' p', has_rec L_full g (AUser q' p') →
        has_rec (L0 ++ [(a, i)]) g (AUser q' p') ∨ acked (ack_of s_full.1) g q' ∨
        ∃ g' l, has_rec (L0 ++ [(a, i)]) g' (ALoss l) ∧ covers l g q'
  | (Err _, _) => w_faults s_full.2 ≠ []
  end.
Proof.
  split; [exact s_full_state|]. split; [vm_compute; reflexivity|]. split; [vm_compute; reflexivity|].
  apply (append_no_silent_loss 84 o0 L_full s_full 3 1 big); [exact s_full_state | vm_compute; reflexivity | exact s_full_appendable].
Defined.

Lemma byte_count_drift_witness : w_faults s0.2 = [] ∧
  ∃ b s' L', Append 1 1 p0 s0 = (Ok b, s') ∧ LogState 84 o0 L' s' ∧ w_faults s'.2 = [] ∧
    w_nextIndex s0.1 ≤ w_nextIndex s'.1 ∧
    w_totalBytes s'.1 - disk_bytes L' =
      w_totalBytes s0.1 - disk_bytes [] - SegmentHeaderSize * (w_nextIndex s'.1 - w_nextIndex s0.1).
Proof.
  split; [reflexivity|]. apply (byte_count_drift 84 o0 [] s0 1 1 p0); [exact s0_state | vm_compute; reflexivity | exact empty_appendable | reflexivity].
Defined.

Lemma ack_removes_only_acked_witness : LogState 84 o0 [(a1, 0%nat)] s1 ∧
  match MarkAcked 1 1 s1 with
  | (Ok _, s') => ∃ L', LogState 84 o0 L' s' ∧
      acked (ack_of s'.1) 1 1 ∧ ack_le (ack_of s1.1) (ack_of s'.1) ∧ meta_ack (w_meta s'.2) = ack_of s'.1 ∧
      (∀ g r, has_rec L' g r → has_rec [(a1, 0%nat)] g r) ∧
      (∀ g q p, has_rec [(a1, 0%nat)] g (AUser q p) → has_rec L' g (AUser q p) ∨ acked (ack_of s'.1) g q)
  | (Err _, _) => w_faults s1.2 ≠ []
  end.
Proof. split; [exact s1_state|]. apply (ack_removes_only_acked 84 o0 [(a1, 0%nat)] s1 1 1). exact s1_state. Defined.

(** Half of the frame of record (1, 2) reached the disk. *)
Definition half_frame : bytes := take 15 (frame (enc 1 (AUser 2 p0))).

Lemma crash_recovery_witness : half_frame `prefix_of` frame (enc 1 (AUser 2 p0)) ∧
  ∃ w W, Open o0 (torn_write 0 half_frame s1.2) = (Ok w, W) ∧
    LogState 84 o0 ([] ++ [(if decide (half_frame = frame (enc (a_gen a1) (AUser 2 p0))) then add_rec (AUser 2 p0) a1 else a1, 0%nat)]) (w, W) ∧
    ack_of w = meta_ack (w_meta s1.2) ∧
    w_totalBytes w = disk_bytes ([] ++ [(if decide (half_frame = frame (enc (a_gen a1) (AUser 2 p0))) then add_rec (AUser 2 p0) a1 else a1, 0%nat)]).
Proof.
  split; [apply prefix_take|].
  apply (crash_recovery 84 o0 [] a1 0 (AUser 2 p0) half_frame s1);
    [exact s1_state | reflexivity | | | apply prefix_take | done | vm_compute; reflexivity | reflexivity].
  - split; [|done]. unfold fits. vm_compute. split; congruence.
  - intros q p [= <- <-]. apply Forall_singleton. lia.
Defined.

Definition A0 : Spec := mkSpec [] (mkAck false 0 0).

Lemma s0_refines : Refines 84 o0 A0 s0.
Proof.
  exists []. constructor; [exact s0_state | done | done | done | |].
  - intros g q p (x & Hx & _). by apply not_elem_of_nil in Hx.
  - intros g q p Hin. by apply not_elem_of_nil in Hin.
Qed.

Definition s2 : WAL * World := Eval vm_compute in (MarkAcked 1 1 s1).2.
Definition s3 : WAL * World := Eval vm_compute in match Open o0 s2.2 with (Ok w, W) => (w, W) | (Err _, W) => (s2.1, W) end.

(** An append, its acknowledgement, and a restart. *)
Lemma wal_refines_witness : wal_run 84 o0 [] s0 [EvAppend 1 1 p0; EvAck 1 1; EvRestart] s3 ∧
  ∃ A', spec_run A0 [EvAppend 1 1 p0; EvAck 1 1; EvRestart] A' ∧ Refines 84 o0 A' s3.
Proof.
  assert (Hrun : wal_run 84 o0 [] s0 [EvAppend 1 1 p0; EvAck 1 1; EvRestart] s3).
  { apply (run_cons _ _ _ _ _ s1).
    - apply (step_append _ _ _ _ _ false); vm_compute; reflexivity.
    - intros gen q p [= <- <- <-]. split; [by vm_compute|]. split; [lia|]. split; [by vm_compute|]. split; [cbn; lia|].
      intros q' p' Hin. by apply not_elem_of_nil in Hin.
    - vm_compute. reflexivity.
    - apply (run_cons _ _ _ _ _ s2); [apply step_ack; vm_compute; reflexivity | done | vm_compute; reflexivity|].
      apply (run_cons _ _ _ _ _ s3); [apply step_restart; vm_compute; reflexivity | done | vm_compute; reflexivity|]. constructor. }
  split; [exact Hrun|]. apply (wal_refines 84 o0 A0 s0 _ s3 []); [exact s0_refines | set_solver | exact Hrun].
Defined.

(** ** What overflow forgets *)

Fixpoint append_all (qs : list Z) (s : WAL * World) : option (WAL * World) :=
  match qs with
  | [] => Some s
  | q :: qs => match Append q 1 p0 s with (Ok _, s') => append_all qs s' | (Err _, _) => None end
  end.

(** Every record that a reader of the directory can find. *)
Definition disk_payloads (maxRec : Z) (W : World) : list bytes :=
  map_to_list (w_dir W) ≫= λ f, match ReadSegmentHeader (data_of W f.2) with
                                | (Ok _, r) => (Scan r maxRec).1
                                | (Err _, _) => []
                                end.

(** The payload is record [q], or a marker whose range has [q]. *)
Definition mentions (q : Z) (payload : bytes) : bool :=
  if isLossMarker payload
  then match decodeLossPayload payload with
       | Some l => (l_FromSequence l <=? q) && (q <=? l_ToSequence l)
       | None => false
       end
  else match parseSeqGen payload with Some (s, _) => s =? q | None => false end.

(** Record 0 was appended, is not acknowledged, and after ten more appends neither the
    record nor a marker that covers it is on disk: overflow drops a segment together
    with the markers of earlier drops that it holds. *)
Theorem overflow_forgets_markers :
  ∃ s, append_all [0; 1; 2; 3; 4; 5; 6; 7; 8; 9; 10] s0 = Some s ∧ w_ackPresent s.1 = false ∧
       existsb (mentions 0) (disk_payloads 84 s.2) = false ∧ existsb (mentions 10) (disk_payloads 84 s.2) = true.
Proof. eexists. split; [vm_compute; reflexivity|]. vm_compute. by repeat split. Qed.

(** The nine bytes of the marker prefix are the first nine of a record with this
    sequence number and a generation below 2^24, so such a record is taken for a
    marker. *)
Theorem sentinel_collides : isLossMarker (encodeSeqGenFrame sentinel_seq 1 p0) = true ∧ 0 ≤ sentinel_seq < 2 ^ 63.
Proof. vm_compute. repeat split; congruence. Qed.

(** A crash after a segment file was created and before its header was written: the
    directory cannot be opened any more. *)
Theorem torn_header_unrecoverable :
  match Open o0 (mkWorld {[0%nat := mkFile [] 0]} {["0000000001.seg.INPROGRESS" := 0%nat]} 1 None []) with
  | (Ok _, _) => False
  | (Err _, _) => True
  end.
Proof. vm_compute. exact I. Qed.
