(* ===== verification/WalReader.v ===== *)
(** * Reading the write-ahead log

    reader.go: a cursor over the segments of one generation, which tails the live
    segment and follows it when it is sealed. The model has the open file as its inode
    and offset, so that a file stays readable after it was renamed or removed.

    The theorems: the loop of [nextLocked] ends within the fuel given to it for any
    directory contents (but for a file name with the largest 64-bit index), and a reader
    delivers exactly the pending records of the log in order. Readers that follow a log while
    it grows are in [WalFollow.v]. *)

From S2P Require Import Prelude WalFrame WalFs Wal WalInv WalSpec WalRecover WalProps.
Open Scope Z_scope.

Inductive RecordKind := RecordData | RecordLoss | RecordGenerationRoll.

Record WalRecord := mkRecord {
  rec_Kind : RecordKind;
  rec_Sequence : Z;
  rec_Generation : Z;
  rec_Payload : bytes;
  rec_Loss : LossRecord;
}.

Definition no_loss : LossRecord := mkLoss 0 0 0 "".
Definition data_record (seq gen : Z) (payload : bytes) : WalRecord := mkRecord RecordData seq gen payload no_loss.
Definition loss_record (gen : Z) (loss : LossRecord) : WalRecord := mkRecord RecordLoss 0 gen [] loss.

Inductive ReaderErr :=
| ErrReaderClosed
| ErrWalClosed                      (** NewReader on a closed log *)
| ErrReaderOs (e : OsErr)
| ErrReaderHeader (e : HeaderErr)
| ErrReaderFrame (e : FrameErr)
| ErrMalformedLoss (len : Z)
| ErrMalformedFrame (len : Z)
| ErrReaderFuel.                    (** the model's loop bound; never returned *)

Record ReaderOptions := mkReaderOptions { ro_Generation : Z; ro_Start : Z }.

Definition RdM := M (Reader * World) ReaderErr.

(** ** Field updates *)

Definition rd_queue (segs : list segmentEntry) (next : Z) (r : Reader) : Reader :=
  mkReader (r_notify r) segs (r_current r) (r_curHdr r) (r_curIdx r) (r_curLive r) next (r_lastGoodSeq r)
           (r_lastGoodGen r) (r_lastGoodGenSet r) (r_nextSeq r) (r_readerGen r) (r_lastEmittedSeq r) (r_closed r).
Definition rd_live (live : bool) (r : Reader) : Reader :=
  mkReader (r_notify r) (r_segments r) (r_current r) (r_curHdr r) (r_curIdx r) live (r_nextScanIdx r) (r_lastGoodSeq r)
           (r_lastGoodGen r) (r_lastGoodGenSet r) (r_nextSeq r) (r_readerGen r) (r_lastEmittedSeq r) (r_closed r).
Definition rd_at (cur : option (nat * nat)) (r : Reader) : Reader :=
  mkReader (r_notify r) (r_segments r) cur (r_curHdr r) (r_curIdx r) (r_curLive r) (r_nextScanIdx r) (r_lastGoodSeq r)
           (r_lastGoodGen r) (r_lastGoodGenSet r) (r_nextSeq r) (r_readerGen r) (r_lastEmittedSeq r) (r_closed r).
(** [r.current = f] and the fields set with it. *)
Definition rd_open (f : nat) (hdr : SegmentHeader) (idx : Z) (live : bool) (r : Reader) : Reader :=
  let fresh := negb (r_lastGoodGenSet r) || negb (sh_Generation hdr =? r_lastGoodGen r) in
  mkReader (r_notify r) (r_segments r) (Some (f, 16%nat)) hdr idx live (r_nextScanIdx r)
           (if fresh then 0 else r_lastGoodSeq r) (if fresh then sh_Generation hdr else r_lastGoodGen r)
           (r_lastGoodGenSet r || fresh) (r_nextSeq r) (r_readerGen r) (r_lastEmittedSeq r) (r_closed r).
Definition rd_seen (seq gen : Z) (r : Reader) : Reader :=
  mkReader (r_notify r) (r_segments r) (r_current r) (r_curHdr r) (r_curIdx r) (r_curLive r) (r_nextScanIdx r) seq
           gen true (r_nextSeq r) (r_readerGen r) (r_lastEmittedSeq r) (r_closed r).
Definition rd_emitted (seq : Z) (r : Reader) : Reader :=
  mkReader (r_notify r) (r_segments r) (r_current r) (r_curHdr r) (r_curIdx r) (r_curLive r) (r_nextScanIdx r) (r_lastGoodSeq r)
           (r_lastGoodGen r) (r_lastGoodGenSet r) (r_nextSeq r) (r_readerGen r) seq (r_closed r).

(** ** Operations *)

Definition is_segment (name : string) : bool := HasSuffix name sealedSuffix || is_inprogress name.

Definition rescanLocked : M (Reader * World) OsErr unit :=
  let* names := lift os_ReadDir in
  modify (λ r,
    let found := List.filter (λ e, negb (e_idx e <? r_nextScanIdx r)) (entries_where is_segment names) in
    rd_queue (r_segments r ++ found)
             (match last found with Some e => to_uint64 (e_idx e + 1) | None => r_nextScanIdx r end) r).

(** The live segment was sealed, or a newer one exists. *)
Definition superseded (curIdx : Z) (names : list string) : bool :=
  existsb (λ n, match parseSegmentIndex n with
                | Some idx => (curIdx <? idx) || ((idx =? curIdx) && is_sealed n)
                | None => false
                end) names.

Definition maybeDemoteLiveLocked : M (Reader * World) OsErr bool :=
  let* r := this (λ r, r) in
  if negb (r_curLive r) then ret false
  else
    let* names := lift os_ReadDir in
    if negb (superseded (r_curIdx r) names) then ret false
    else
      do* modify (rd_live false) in
      do* rescanLocked in
      ret true.

(** The open file becomes current if it is of the reader's generation. *)
Definition adopt (e : segmentEntry) (f : nat) (live : bool) : RdM bool :=
  let* data := mget (λ s, data_of s.2 f) in
  match ReadSegmentHeader data with
  | (Err err, _) => merr (ErrReaderHeader err)
  | (Ok hdr, _) =>
      let* r := mget fst in
      if negb (sh_Generation hdr =? r_readerGen r) then ret false
      else do* mput (λ s, (rd_open f hdr (e_idx e) live s.1, s.2)) in ret true
  end.

(** Open the file of a queued entry; an in-progress name that is gone may have been
    sealed since. Returns whether there is a current file now. *)
Definition open_entry (e : segmentEntry) : RdM bool :=
  let live := is_inprogress (e_name e) in
  let* f := mtry (lift (os_Open (e_name e))) in
  match f with
  | Ok f => adopt e f live
  | Err ENOENT =>
      if live then
        let* sf := mtry (lift (os_Open (segmentName (e_idx e)))) in
        match sf with
        | Ok sf => adopt e sf false
        | Err ENOENT => ret false
        | Err err => merr (ErrReaderOs err)
        end
      else ret false
  | Err err => merr (ErrReaderOs err)
  end.

(** The first half of the loop body: [None] when nothing is left to read, otherwise
    whether there is a current file. *)
Definition advance_segment : RdM (option bool) :=
  let* r := mget fst in
  match r_current r with
  | Some _ => ret (Some true)
  | None =>
      do* (match r_segments r with [] => merr_map ErrReaderOs rescanLocked | _ :: _ => ret tt end) in
      let* r := mget fst in
      match r_segments r with
      | [] => ret None
      | e :: l =>
          do* mput (λ s, (rd_queue l (r_nextScanIdx s.1) s.1, s.2)) in
          let* opened := open_entry e in
          ret (Some opened)
      end
  end.

(** What one pass of the loop does: go on, or return a record or nothing. *)
Inductive Pass := Again | Return (r : option WalRecord).

(** A record was read. *)
Definition on_payload (payload : bytes) : RdM Pass :=
  if isLossMarker payload then
    match decodeLossPayload payload with
    | None => merr (ErrMalformedLoss (Z.of_nat (length payload)))
    | Some loss => ret (Return (Some (loss_record (l_Generation loss) loss)))
    end
  else
    match parseSeqGen payload with
    | None => merr (ErrMalformedFrame (Z.of_nat (length payload)))
    | Some (seq, gen) =>
        do* mput (λ s, (rd_seen seq gen s.1, s.2)) in
        let* r := mget fst in
        if seq <? r_nextSeq r then ret Again
        else
          do* mput (λ s, (rd_emitted seq s.1, s.2)) in
          ret (Return (Some (data_record seq gen (drop 12 payload))))
    end.

(** The second half of the loop body, with the file [f] at offset [off]. *)
Definition read_current (maxRec : Z) (f off : nat) : RdM Pass :=
  let* data := mget (λ s, data_of s.2 f) in
  let '(res, rest) := ReadRecord (drop off data) maxRec in
  do* mput (λ s, (rd_at (Some (f, Nat.max off (length data - length rest))) s.1, s.2)) in
  let* r := mget fst in
  match res with
  | Ok payload => on_payload payload
  | Err ErrEOF =>
      if r_curLive r then
        let* demoted := merr_map ErrReaderOs maybeDemoteLiveLocked in
        ret (if demoted : bool then Again else Return None)
      else
        do* mput (λ s, (rd_at None s.1, s.2)) in ret Again
  | Err ErrCRCMismatch =>
      let from := to_uint64 (r_lastGoodSeq r + 1) in
      let gen := sh_Generation (r_curHdr r) in
      do* mput (λ s, (rd_at None s.1, s.2)) in
      ret (Return (Some (loss_record gen (mkLoss from from gen LossReasonCRCCorruption))))
  | Err e => merr (ErrReaderFrame e)
  end.

Definition next_pass (maxRec : Z) : RdM Pass :=
  let* a := advance_segment in
  match a with
  | None => ret (Return None)
  | Some false => ret Again
  | Some true =>
      let* r := mget fst in
      match r_current r with
      | Some (f, off) => read_current maxRec f off
      | None => ret Again
      end
  end.

Fixpoint next_loop (fuel : nat) (maxRec : Z) : RdM (option WalRecord) :=
  match fuel with
  | O => merr ErrReaderFuel
  | S fuel =>
      let* p := next_pass maxRec in
      match p with Again => next_loop fuel maxRec | Return r => ret r end
  end.

(** A bound on the passes: the segments still to open, each with the bytes of the
    largest file, and what is left of the current file. *)
Definition to_open (r : Reader) (W : World) : nat :=
  length (r_segments r) +
  length (List.filter (λ e, negb (e_idx e <? r_nextScanIdx r)) (entries_where is_segment (elements (dom (w_dir W))))).
Definition largest (W : World) : nat := max_list ((λ kv, length (f_data kv.2)) <$> map_to_list (w_inodes W)).
Definition left_current (r : Reader) (W : World) : nat :=
  match r_current r with
  | None => 0
  | Some (f, off) => 2 + (if r_curLive r then 1 else 0) + (length (data_of W f) - off)
  end.
Definition reader_fuel (s : Reader * World) : nat :=
  S (to_open s.1 s.2 * (largest s.2 + 4) + left_current s.1 s.2).

Definition nextLocked (maxRec : Z) : RdM (option WalRecord) := λ s, next_loop (reader_fuel s) maxRec s.

(** [TryNext]; [None] is its ok = false. *)
Definition TryNext (maxRec : Z) : RdM (option WalRecord) :=
  let* r := mget fst in
  if r_closed r then merr ErrReaderClosed else nextLocked maxRec.

(** [Next] turns ok = false into io.EOF. *)
Definition Next (maxRec : Z) : RdM WalRecord :=
  let* r := mget fst in
  if r_closed r then merr ErrReaderClosed
  else
    let* rec := nextLocked maxRec in
    match rec with Some rec => ret rec | None => merr (ErrReaderFrame ErrEOF) end.

Definition fresh_reader (opts : ReaderOptions) : Reader :=
  mkReader false [] None (mkSegmentHeader 0 0 0) 0 false 0 0 0 false (ro_Start opts) (ro_Generation opts) 0 false.

(** Readers are registered in the log under an identity, as the code does by pointer. *)
Definition NewReader (id : nat) (opts : ReaderOptions) : M (WAL * World) ReaderErr Reader := λ s,
  if w_closed s.1 then (Err ErrWalClosed, s)
  else
    match rescanLocked (fresh_reader opts, s.2) with
    | (Err e, (_, W)) => (Err (ErrReaderOs e), (s.1, W))
    | (Ok _, (r, W)) => (Ok r, (set_readers (w_closed s.1) (<[id := r]> (w_readers s.1)) s.1, W))
    end.

(** [Reader.Close]: the handle is closed, and the reader leaves the log's list. *)
Definition Reader_Close (id : nat) : M (WAL * World) OsErr unit := λ s,
  match w_readers s.1 !! id with
  | None => (Ok tt, s)
  | Some r =>
      if r_closed r then (Ok tt, s)
      else
        let '(res, W) := match r_current r with Some (f, _) => file_Close f s.2 | None => (Ok tt, s.2) end in
        (res, (set_readers (w_closed s.1) (delete id (w_readers s.1)) s.1, W))
  end.

(** A method of the registered reader [id]. *)
Definition on_reader {A} (id : nat) (m : RdM A) : M (WAL * World) ReaderErr A := λ s,
  match w_readers s.1 !! id with
  | None => (Err ErrReaderClosed, s)
  | Some r => let '(res, (r', W)) := m (r, s.2) in
              (res, (set_readers (w_closed s.1) (<[id := r']> (w_readers s.1)) s.1, W))
  end.

Definition Reader_Generation (r : Reader) : Z := r_readerGen r.
Definition LastSequence (r : Reader) : Z := r_lastEmittedSeq r.
Definition WALHighWaterSequence (w : WAL) : Z := w_highSeq w.
Definition Reader_WrittenDataHighWater (r : Reader) (w : WAL) : Result WalErr (option Z) := WrittenDataHighWater w (r_readerGen r).

(** ** The loop ends *)

(** No segment name has the largest index, whose successor would wrap around. *)
Definition no_last_index (W : World) : Prop :=
  ∀ n idx, n ∈ dom (w_dir W) → parseSegmentIndex n = Some idx → 0 ≤ idx < 2 ^ 64 - 1.

Definition found_from (next : Z) (names : list string) : list segmentEntry :=
  List.filter (λ e, negb (e_idx e <? next)) (entries_where is_segment names).

Lemma entries_where_perm p names names' : names ≡ₚ names' → entries_where p names ≡ₚ entries_where p names'.
Proof.
  intros Hp. unfold entries_where, by_idx. rewrite !SliceStable_perm. by rewrite (filter_bool_perm p _ _ Hp).
Qed.

Lemma found_from_perm next names names' : names ≡ₚ names' → length (found_from next names) = length (found_from next names').
Proof. intros Hp. apply Permutation_length, filter_bool_perm, entries_where_perm, Hp. Qed.

Lemma entries_where_elem p names e : e ∈ entries_where p names → ∃ n, n ∈ names ∧ entry_of n = Some e.
Proof.
  unfold entries_where, by_idx. rewrite SliceStable_perm. intros (n & Hn & He)%list_elem_of_omap. exists n.
  split; [|done]. apply list_elem_of_In, List.filter_In in Hn as [Hn _]. by apply list_elem_of_In.
Qed.

Lemma found_from_sorted next names : StronglySorted (λ a b, e_idx a ≤ e_idx b) (found_from next names).
Proof.
  assert (Hs : StronglySorted (λ a b, e_idx a ≤ e_idx b) (entries_where is_segment names)).
  { eapply StronglySorted_mono; [|apply SliceStable_sorted]; cbn; intros; lia. }
  unfold found_from. induction Hs as [|e l Hs IH He]; cbn; [constructor|]. destruct (negb _); [|done].
  constructor; [done|]. by apply Forall_filter_bool.
Qed.

Lemma found_from_elem next names e : e ∈ found_from next names → next ≤ e_idx e ∧ e ∈ entries_where is_segment names.
Proof.
  unfold found_from. intros [He Hn]%list_elem_of_In%List.filter_In. split; [|by apply list_elem_of_In].
  apply negb_true_iff, Z.ltb_ge in Hn. done.
Qed.

Definition next_after (next : Z) (found : list segmentEntry) : Z :=
  match last found with Some e => to_uint64 (e_idx e + 1) | None => next end.

(** After a scan nothing is left to find. *)
Lemma found_from_next next names names' : names' ≡ₚ names → (∀ n idx, n ∈ names → parseSegmentIndex n = Some idx → 0 ≤ idx < 2 ^ 64 - 1) →
  found_from (next_after next (found_from next names)) names' = [].
Proof.
  intros Hp Hb. apply Permutation_nil. destruct (found_from _ names') as [|e l] eqn:Hf; [done|]. exfalso.
  assert (He : e ∈ found_from (next_after next (found_from next names)) names') by (rewrite Hf; apply elem_of_cons; by left).
  apply found_from_elem in He as [Hn He]. rewrite (entries_where_perm is_segment _ _ Hp) in He.
  assert (Hin : next ≤ e_idx e → e ∈ found_from next names).
  { intros Hle. apply list_elem_of_In, List.filter_In. split; [by apply list_elem_of_In|]. apply negb_true_iff, Z.ltb_ge. done. }
  pose proof (found_from_sorted next names) as Hs. pose proof (found_from_elem next names) as Hel.
  unfold next_after in *. destruct (last (found_from next names)) as [m|] eqn:Hl.
  - apply last_Some in Hl as [l' Hl]. rewrite Hl in Hs, Hin, Hel.
    assert (Hm : m ∈ l' ++ [m]) by (apply elem_of_app; right; by apply list_elem_of_singleton).
    destruct (Hel m Hm) as [Hmn Hme]. apply entries_where_elem in Hme as (n & Hnn & Hne).
    unfold entry_of in Hne. destruct (parseSegmentIndex n) as [idx|] eqn:Hpi; [|done]. cbn in Hne. injection Hne as <-. cbn in *.
    specialize (Hb n idx Hnn Hpi). unfold to_uint64 in Hn. rewrite Z.mod_small in Hn by lia.
    specialize (Hin ltac:(lia)). apply elem_of_app in Hin as [Hin|Hin%list_elem_of_singleton]; [|subst e; cbn in *; lia].
    apply StronglySorted_app in Hs as (Hs & _ & _). specialize (Hs e _ Hin (proj2 (list_elem_of_singleton _ _) eq_refl)). cbn in Hs. lia.
  - apply last_None in Hl. rewrite Hl in Hin. by apply not_elem_of_nil in Hin; [|lia].
Qed.

Lemma same_io W : same W (io W).2.
Proof.
  unfold io, next_fault, bindM. destruct (w_faults W) as [|[n|] fs] eqn:Hf; cbn; [exists []; rewrite <- Hf; by destruct W | by exists fs..].
Qed.

Lemma same_ReadDir W : same W (os_ReadDir W).2 ∧
  match (os_ReadDir W).1 with Ok names => names ≡ₚ elements (dom (w_dir W)) | Err _ => True end.
Proof.
  unfold os_ReadDir, bindM, mget. pose proof (same_io W) as Hs. destruct (io W) as [[[]|e] W']; cbn in *; [|done].
  split; [done|]. destruct Hs as [fs ->]. cbn. by rewrite SliceStable_perm.
Qed.

Lemma same_Open n W : same W (os_Open n W).2.
Proof.
  unfold os_Open, bindM, mget. pose proof (same_io W) as Hs. destruct (io W) as [[[]|e] W']; cbn in *; [|done].
  by destruct (w_dir W' !! n).
Qed.

Lemma to_open_same r W W' : same W W' → to_open r W' = to_open r W ∧ largest W' = largest W ∧ left_current r W' = left_current r W.
Proof. by intros [fs ->]. Qed.

(** What a scan leaves alone. *)
Definition rd_view (r : Reader) : option (nat * nat) * SegmentHeader * Z * bool * Z * Z * bool * Z * Z * Z * bool :=
  (r_current r, r_curHdr r, r_curIdx r, r_curLive r, r_lastGoodSeq r, r_lastGoodGen r, r_lastGoodGenSet r,
   r_nextSeq r, r_readerGen r, r_lastEmittedSeq r, r_closed r).

Lemma rescan_result r W u r' W' : no_last_index W → rescanLocked (r, W) = (Ok u, (r', W')) →
  same W W' ∧ to_open r' W' = to_open r W ∧ r_current r' = r_current r ∧ r_curLive r' = r_curLive r.
Proof.
  intros Hb. unfold rescanLocked, bindM, lift. cbn. destruct (same_ReadDir W) as [Hs Hn].
  destruct (os_ReadDir W) as [[names|e] W1]; [|done]. cbn in *. intros [= _ <- <-]. split_and!; [done | | done..].
  unfold to_open. cbn. destruct Hs as [fs ->]. cbn.
  fold (found_from (r_nextScanIdx r) names) (found_from (r_nextScanIdx r) (elements (dom (w_dir W)))).
  fold (next_after (r_nextScanIdx r) (found_from (r_nextScanIdx r) names)).
  fold (found_from (next_after (r_nextScanIdx r) (found_from (r_nextScanIdx r) names)) (elements (dom (w_dir W)))).
  rewrite (found_from_next _ names) by (done || (intros n idx Hin; apply Hb; rewrite <- (elem_of_elements (C := gset string)), <- Hn; done)).
  rewrite length_app, (found_from_perm _ _ _ Hn). cbn. lia.
Qed.

Lemma largest_le f W : (length (data_of W f) ≤ largest W)%nat.
Proof.
  unfold largest, data_of, file_of. destruct (w_inodes W !! f) as [d|] eqn:Hf; cbn; [|lia].
  apply max_list_elem_of_le, list_elem_of_fmap. exists (f, d). split; [done|]. by apply elem_of_map_to_list.
Qed.

(** The measure of the loop. *)
Definition mu (s : Reader * World) : nat := to_open s.1 s.2 * (largest s.2 + 4) + left_current s.1 s.2.

Lemma adopt_result e f live r W b r' W' : adopt e f live (r, W) = (Ok b, (r', W')) →
  W' = W ∧ r_segments r' = r_segments r ∧ r_nextScanIdx r' = r_nextScanIdx r ∧
  (if b then ∃ l, r_current r' = Some (f, 16%nat) ∧ r_curLive r' = l else r' = r).
Proof.
  unfold adopt, bindM, mget. cbn. destruct (ReadSegmentHeader _) as [[hdr|err] rest]; [|done].
  destruct (negb _); intros [= <- <- <-]; [done|]. split_and!; try done. by eexists.
Qed.

Lemma open_entry_result e r W b r' W' : open_entry e (r, W) = (Ok b, (r', W')) →
  same W W' ∧ r_segments r' = r_segments r ∧ r_nextScanIdx r' = r_nextScanIdx r ∧
  (if b then ∃ f l, r_current r' = Some (f, 16%nat) ∧ r_curLive r' = l else r' = r).
Proof.
  unfold open_entry, bindM, mtry, lift. cbn. pose proof (same_Open (e_name e) W) as H1.
  destruct (os_Open (e_name e) W) as [[f|err] W1]; cbn in *.
  { intros (-> & ? & ? & Hb)%adopt_result. split_and!; [done..|]. destruct b; [|done]. destruct Hb as (l & ? & ?). by exists f, l. }
  destruct err; try done. destruct (is_inprogress (e_name e)).
  - cbn [fst snd]. pose proof (same_Open (segmentName (e_idx e)) W1) as H2. destruct (os_Open (segmentName (e_idx e)) W1) as [[f|err] W2]; cbn in *.
    { intros (-> & ? & ? & Hb)%adopt_result. split_and!; [by eapply same_trans | done..|]. destruct b; [|done].
      destruct Hb as (l & ? & ?). by exists f, l. }
    destruct err; try done. intros [= <- <- <-]. split_and!; try done. by eapply same_trans.
  - intros [= <- <- <-]. done.
Qed.

Lemma advance_result r W a r' W' : no_last_index W → advance_segment (r, W) = (Ok a, (r', W')) →
  same W W' ∧
  match a with
  | None => True
  | Some true => is_Some (r_current r') ∧ (mu (r', W') ≤ mu (r, W))%nat
  | Some false => (mu (r', W') < mu (r, W))%nat
  end.
Proof.
  intros Hb. unfold advance_segment. unfold bindM at 1, mget. cbn [fst]. destruct (r_current r) as [[f off]|] eqn:Hc.
  { intros [= <- <- <-]. split; [exists (w_faults W); by destruct W|]. rewrite Hc. split; [by eexists | done]. }
  intros H. unfold bindM at 1 in H.
  assert (Hres : ∃ r1 W1, same W W1 ∧ to_open r1 W1 = to_open r W ∧ r_current r1 = None ∧
    (let* r := mget fst in
      match r_segments r with
      | [] => ret None
      | e :: l =>
          do* mput (λ s, (rd_queue l (r_nextScanIdx s.1) s.1, s.2)) in
          let* opened := open_entry e in
          ret (Some opened)
      end) (r1, W1) = (Ok a, (r', W'))).
  { destruct (r_segments r) as [|e l] eqn:Hseg.
    - unfold merr_map in H. destruct (rescanLocked (r, W)) as [[u|err] [r1 W1]] eqn:Hr; [|done].
      destruct (rescan_result _ _ _ _ _ Hb Hr) as (Hs & Ht & Hc' & _). exists r1, W1. split_and!; [done..| congruence | done].
    - exists r, W. split_and!; [exists (w_faults W); by destruct W | done..]. }
  clear H. destruct Hres as (r1 & W1 & Hs & Ht & Hc1 & H). unfold bindM at 1, mget in H. cbn [fst] in H.
  destruct (r_segments r1) as [|e l] eqn:Hseg; [by injection H as <- <- <-|].
  unfold bindM, mput in H. cbn [fst snd] in H.
  destruct (open_entry e _) as [[b|err] [r2 W2]] eqn:Ho; [|done]. injection H as <- <- <-.
  apply open_entry_result in Ho as (Hs2 & Hseg2 & Hn2 & Hb2). split; [by eapply same_trans|].
  destruct (to_open_same r2 _ _ Hs2) as (Ho2 & Hl2 & _). destruct (to_open_same r _ _ Hs) as (_ & Hl & Hlc).
  assert (Hdec : to_open r W = S (to_open r2 W1)).
  { rewrite <- Ht. unfold to_open. rewrite Hseg, Hseg2, Hn2. done. }
  assert (HL : largest W2 = largest W) by congruence.
  unfold mu. cbn [fst snd]. rewrite Ho2, HL, Hdec. destruct b.
  - destruct Hb2 as (f & live & Hcur & Hlive). split; [by rewrite Hcur|]. unfold left_current. rewrite Hcur.
    pose proof (largest_le f W2) as Hf. rewrite HL in Hf. rewrite Hc. destruct (r_curLive r2); nia.
  - subst r2. unfold left_current at 1. cbn [r_current rd_queue]. rewrite Hc1. nia.
Qed.

Lemma demote_result r W b r' W' : no_last_index W → maybeDemoteLiveLocked (r, W) = (Ok b, (r', W')) →
  same W W' ∧ if b then to_open r' W' = to_open r W ∧ r_current r' = r_current r ∧ r_curLive r' = false else r' = r.
Proof.
  intros Hb. unfold maybeDemoteLiveLocked. unfold bindM at 1, this, mget. cbn [fst].
  destruct (negb (r_curLive r)); [intros [= <- <- <-]; split; [exists (w_faults W); by destruct W | done]|].
  unfold bindM at 1, lift. cbn [fst snd]. destruct (same_ReadDir W) as [Hs _].
  destruct (os_ReadDir W) as [[names|e] W1]; [|done]. cbn [snd] in Hs.
  destruct (negb (superseded _ names)); [by intros [= <- <- <-]|]. unfold bindM, modify, mput. cbn [fst snd].
  assert (Hb1 : no_last_index W1) by (destruct Hs as [fs ->]; exact Hb).
  destruct (rescanLocked (rd_live false r, W1)) as [[u|e] [r2 W2]] eqn:Hr2; [|done]. intros [= <- <- <-].
  destruct (rescan_result _ _ _ _ _ Hb1 Hr2) as (Hs2 & Ht & Hc2 & Hlv). split; [by eapply same_trans|].
  split_and!; [|done..]. rewrite Ht. by destruct (to_open_same (rd_live false r) _ _ Hs) as (-> & _).
Qed.

Lemma ReadFull_rest b n res rest : ReadFull b n = (res, rest) → (length rest ≤ length b)%nat.
Proof. unfold ReadFull. destruct (_ <=? _)%nat; intros [= <- <-]; rewrite ?length_drop; cbn; lia. Qed.

Lemma ReadRecord_rest b max res rest : ReadRecord b max = (res, rest) → (length rest ≤ length b)%nat.
Proof.
  unfold ReadRecord. destruct (bad_max max); [intros [= <- <-]; done|].
  destruct (ReadFull b 8) as [[h|n] r1] eqn:H1; apply ReadFull_rest in H1; [|intros [= <- <-]; done].
  destruct (_ <? 4); [intros [= <- <-]; done|]. destruct (max <? _); [intros [= <- <-]; done|].
  destruct (ReadFull r1 _) as [[p|n] r2] eqn:H2; apply ReadFull_rest in H2; [|intros [= <- <-]; lia].
  destruct (negb _); intros [= <- <-]; lia.
Qed.

Lemma read_current_again maxRec r W f off r' W' : no_last_index W → r_current r = Some (f, off) →
  read_current maxRec f off (r, W) = (Ok Again, (r', W')) → same W W' ∧ (mu (r', W') < mu (r, W))%nat.
Proof.
  intros Hb Hc. unfold read_current. unfold bindM at 1, mget. cbn [snd].
  destruct (ReadRecord _ _) as [res rest] eqn:Hr. pose proof (ReadRecord_rest _ _ _ _ Hr) as Hrest.
  unfold bindM at 1, mput. cbn [fst snd]. unfold bindM at 1, mget. cbn [fst].
  set (data := data_of W f) in *. set (off' := Nat.max off (length data - length rest)).
  set (r1 := rd_at (Some (f, off')) r).
  assert (Hm1 : to_open r1 W = to_open r W) by done.
  assert (Hl1 : left_current r1 W = (2 + (if r_curLive r then 1 else 0) + (length data - off'))%nat) by done.
  assert (Hl0 : left_current r W = (2 + (if r_curLive r then 1 else 0) + (length data - off))%nat) by (unfold left_current; by rewrite Hc).
  rewrite length_drop in Hrest.
  destruct res as [payload|e].
  - pose proof (ReadRecord_consumes _ _ _ _ Hr) as Hcons. rewrite length_drop in Hcons. unfold on_payload.
    destruct (isLossMarker payload); [destruct (decodeLossPayload payload); done|].
    destruct (parseSeqGen payload) as [[seq gen]|]; [|done]. unfold bindM, mput, mget. cbn [fst snd].
    destruct (_ <? _); [|done]. intros [= <- <-]. split; [exists (w_faults W); by destruct W|].
    unfold mu. cbn [fst snd]. change (to_open (rd_seen seq gen r1) W) with (to_open r W).
    change (left_current (rd_seen seq gen r1) W) with (left_current r1 W). rewrite Hl1, Hl0. lia.
  - destruct e; try done.
    + change (r_curLive r1) with (r_curLive r). destruct (r_curLive r) eqn:Hlive.
      * unfold bindM, merr_map. destruct (maybeDemoteLiveLocked (r1, W)) as [[b|e] [r2 W2]] eqn:Hd; [|done].
        destruct (demote_result _ _ _ _ _ Hb Hd) as [Hs Hd2]. destruct b; [|done]. cbn. intros [= <- <-]. split; [done|].
        destruct Hd2 as (Ht & Hc2 & Hlv). destruct (to_open_same r2 _ _ Hs) as (Ho & HL & Hlc).
        unfold mu. cbn [fst snd]. rewrite HL, Hlc, Ht. change (to_open r1 W) with (to_open r W).
        unfold left_current at 1. rewrite Hc2, Hlv. cbn [r_current rd_at r1]. fold data. rewrite Hl0. lia.
      * unfold bindM, mput. cbn. intros [= <- <-]. split; [exists (w_faults W); by destruct W|].
        unfold mu. cbn [fst snd]. change (to_open (rd_at None r1) W) with (to_open r W). change (left_current (rd_at None r1) W) with 0%nat.
        rewrite Hl0. lia.
Qed.

Lemma next_pass_again maxRec r W r' W' : no_last_index W → next_pass maxRec (r, W) = (Ok Again, (r', W')) →
  same W W' ∧ (mu (r', W') < mu (r, W))%nat.
Proof.
  intros Hb. unfold next_pass. unfold bindM at 1. destruct (advance_segment (r, W)) as [[a|e] [r1 W1]] eqn:Ha; [|done].
  destruct (advance_result _ _ _ _ _ Hb Ha) as [Hs Hmu]. destruct a as [[|]|]; [| |done].
  - destruct Hmu as [[[f off] Hc] Hmu]. unfold bindM, mget. cbn [fst]. rewrite Hc. intros H.
    assert (Hb1 : no_last_index W1) by (destruct Hs as [fs ->]; exact Hb).
    destruct (read_current_again _ _ _ _ _ _ _ Hb1 Hc H). split; [by eapply same_trans | lia].
  - intros [= <- <-]. done.
Qed.

(** Nothing but the loop itself reports exhausted fuel. *)
Definition fuelled {A} (m : RdM A) : Prop := ∀ s, (m s).1 ≠ Err ErrReaderFuel.

Lemma fuelled_bind {A B} (m : RdM A) (k : A → RdM B) : fuelled m → (∀ a, fuelled (k a)) → fuelled (bindM m k).
Proof. intros Hm Hk s. unfold bindM. specialize (Hm s). destruct (m s) as [[a|e] s']; [apply Hk | cbn in *; congruence]. Qed.
Lemma fuelled_ok {A} (m : RdM A) : (∀ s, ∃ a, (m s).1 = Ok a) → fuelled m.
Proof. intros Hm s. destruct (Hm s) as [a ->]. done. Qed.
Lemma fuelled_err {A} e : e ≠ ErrReaderFuel → fuelled (merr e : RdM A).
Proof. intros He s. cbn. congruence. Qed.
Lemma fuelled_os {A} (m : M (Reader * World) OsErr A) : fuelled (merr_map ErrReaderOs m).
Proof. intros s. unfold merr_map. by destruct (m s) as [[a|e] s']. Qed.

Ltac fuelling := repeat first
  [ apply fuelled_bind; [|intros ?] | apply fuelled_os | solve [apply fuelled_err; congruence]
  | solve [apply fuelled_ok; intros ?; by eexists]
  | match goal with |- fuelled (match ?x with _ => _ end) => destruct x end ].

Lemma fuelled_pass maxRec : fuelled (next_pass maxRec).
Proof. unfold next_pass, advance_segment, open_entry, adopt, read_current, on_payload. fuelling. Qed.

Lemma next_loop_fuel fuel maxRec r W : no_last_index W → (mu (r, W) < fuel)%nat → (next_loop fuel maxRec (r, W)).1 ≠ Err ErrReaderFuel.
Proof.
  revert r W. induction fuel as [|fuel IH]; intros r W Hb Hf; [lia|]. cbn [next_loop]. unfold bindM at 1.
  pose proof (fuelled_pass maxRec (r, W)) as Hfp.
  destruct (next_pass maxRec (r, W)) as [[[|rec]|e] [r1 W1]] eqn:Hp; [| done | cbn in *; congruence].
  destruct (next_pass_again _ _ _ _ _ Hb Hp) as [Hs Hmu]. apply IH; [|lia]. destruct Hs as [fs ->]. exact Hb.
Qed.

(** C40. The loop of nextLocked ends: whatever the reader's state and the contents of
    the directory, of the files and of the outcomes of the file operations, the number of
    passes is bounded by the segments left to open and the bytes left to read, unless
    some file name carries the largest 64-bit index. *)
Theorem reader_terminates maxRec r W : no_last_index W → (nextLocked maxRec (r, W)).1 ≠ Err ErrReaderFuel.
Proof. intros Hb. apply next_loop_fuel; [done|]. unfold reader_fuel, mu. lia. Qed.

(** ** What a reader delivers *)

Section deliver.
Context (max : Z) (Hmax : bad_max max = false).

Definition above (c : Z) (L : Slots) : Slots := List.filter (λ x, c <? a_idx x.1) L.
Definition between (c n : Z) (L : Slots) : Slots := List.filter (λ x, (c <? a_idx x.1) && (a_idx x.1 <? n)) L.
Definition from (n : Z) (L : Slots) : Slots := List.filter (λ x, negb (a_idx x.1 <? n)) L.

Lemma between_none c n L : Forall (λ x, n ≤ a_idx x.1) L → between c n L = [].
Proof.
  unfold between. induction 1 as [|x L Hx _ IH]; [done|]. cbn. by rewrite (proj2 (Z.ltb_ge _ n)), andb_false_r by lia.
Qed.

Lemma above_split c n L : StronglySorted Z.lt (idxs L) → c < n → above c L = between c n L ++ from n L.
Proof.
  intros Hs Hcn. induction L as [|x L IH]; [done|]. apply sorted_cons in Hs as [Hs Hx]. specialize (IH Hs).
  unfold above, between, from in *. cbn. destruct (Z.ltb_spec (a_idx x.1) n) as [Hlt|Hge]; cbn.
  - destruct (c <? a_idx x.1); cbn; by rewrite IH.
  - rewrite andb_false_r, (proj2 (Z.ltb_lt c _)) by lia. rewrite IH.
    fold (between c n L). rewrite between_none; [done|]. eapply Forall_impl; [exact Hx|]. cbn. lia.
Qed.

Lemma filter_none {A} (p : A → bool) l : Forall (λ x, p x = false) l → List.filter p l = [].
Proof. induction 1 as [|x l Hx _ IH]; [done|]. cbn. by rewrite Hx. Qed.

Lemma between_pop c n L x T : StronglySorted Z.lt (idxs L) → between c n L = x :: T →
  T = between (a_idx x.1) n L ∧ above c L = x :: above (a_idx x.1) L ∧ c < a_idx x.1 < n ∧ x ∈ L.
Proof.
  intros Hs. induction L as [|y L IH]; [done|]. apply sorted_cons in Hs as [Hs Hy]. unfold between, above in *. cbn.
  destruct (Z.ltb_spec c (a_idx y.1)) as [Hc|Hc]; cbn; [destruct (Z.ltb_spec (a_idx y.1) n) as [Hn|Hn]; cbn|].
  - intros [= <- <-]. rewrite Z.ltb_irrefl. cbn.
    assert (Hgt : Forall (λ z : ASeg * nat, (c <? a_idx z.1) = true ∧ (a_idx y.1 <? a_idx z.1) = true) L).
    { eapply Forall_impl; [exact Hy|]. cbn. intros z Hz. split; apply Z.ltb_lt; lia. }
    split_and!; [| | lia | lia | apply elem_of_cons; by left].
    + clear -Hgt. induction Hgt as [|z L [H1 H2] _ IH]; [done|]. cbn. rewrite H1, H2. cbn. by destruct (a_idx z.1 <? n); rewrite IH.
    + f_equal. rewrite !filter_all; [done|..]; eapply Forall_impl; [exact Hgt | by intros ? [] | exact Hgt | by intros ? []].
  - intros Heq. exfalso. assert (Hb : between c n L = []).
    { apply between_none. eapply Forall_impl; [exact Hy|]. cbn. lia. }
    unfold between in Hb. by rewrite Hb in Heq.
  - intros Heq. destruct (IH Hs Heq) as (HT & Ha & Hr & Hin). rewrite (proj2 (Z.ltb_ge (a_idx x.1) (a_idx y.1))) by lia. cbn.
    split_and!; [done | done | lia | lia | apply elem_of_cons; by right].
Qed.

(** The record a reader with first sequence [start] returns for [r], if any. *)
Definition deliver (gen start : Z) (r : ARec) : option WalRecord :=
  match r with
  | AUser q p => if q <? start then None else Some (data_record q gen p)
  | ALoss l => Some (loss_record (l_Generation l) l)
  end.

Definition seg_out (gen start : Z) (a : ASeg) : list WalRecord :=
  if a_gen a =? gen then omap (deliver gen start) (a_recs a) else [].

Definition outs (gen start : Z) (L : Slots) : list WalRecord := mjoin ((λ x, seg_out gen start x.1) <$> L).

Lemma outs_cons gen start x L : outs gen start (x :: L) = seg_out gen start x.1 ++ outs gen start L.
Proof. done. Qed.
Lemma outs_app gen start L1 L2 : outs gen start (L1 ++ L2) = outs gen start L1 ++ outs gen start L2.
Proof. unfold outs. by rewrite fmap_app, join_app. Qed.

(** What is still to come: the rest of the current segment and the segments above [c]. *)
Definition pending (L : Slots) (r : Reader) (c : Z) (rest : list ARec) : list WalRecord :=
  omap (deliver (r_readerGen r) (r_nextSeq r)) rest ++
  outs (r_readerGen r) (r_nextSeq r) (above c L).

(** The queued name of segment [x], possibly from before it was sealed. *)
Definition queued (e : segmentEntry) (x : ASeg * nat) : Prop :=
  e_idx e = a_idx x.1 ∧ (e_name e = a_name x.1 ∨ (e_name e = liveName (a_idx x.1) ∧ a_live x.1 = false)).

(** The generation and the first sequence number the reader was opened with. *)
Context (gen0 start0 : Z).

Record Reading (n : Z) (L : Slots) (r : Reader) (c : Z) (rest : list ARec) : Prop := mkReading {
  rd_closed : r_closed r = false;
  rd_seq : 0 ≤ r_nextSeq r;
  rd_next : -1 ≤ c < r_nextScanIdx r;
  rd_bound : r_nextScanIdx r ≤ n;
  rd_segs : Forall2 queued (r_segments r) (between c (r_nextScanIdx r) L);
  rd_cur : match r_current r with
           | None => rest = []
           | Some (f, off) => r_curIdx r = c ∧ ∃ a pre, (a, f) ∈ L ∧ a_idx a = c ∧ a_gen a = r_readerGen r ∧
               a_recs a = pre ++ rest ∧ off = (16 + length (frames (enc (a_gen a) <$> pre)))%nat ∧
               (r_curLive r = false → a_live a = false)
           end;
  (** a live segment of the generation that was reached is current *)
  rd_tail : ∀ x, x ∈ L → a_live x.1 = true → a_idx x.1 ≤ c → a_gen x.1 = r_readerGen r →
            ∃ off, r_current r = Some (x.2, off);
  rd_opts : r_readerGen r = gen0 ∧ r_nextSeq r = start0;
}.

Section pass.
Context (W : World) (L : Slots) (HR : Rep max W L) (Hf : w_faults W = []) (Hidx : Forall (λ x, a_idx x.1 < 2 ^ 64 - 1) L)
        (n : Z) (Hbound : Forall (λ x, a_idx x.1 < n) L).
(** Only the last segment is live. *)
Context (Hlast : ∀ x, x ∈ L → a_live x.1 = true → above (a_idx x.1) L = []).

Lemma io_nf : io W = (Ok tt, W).
Proof. unfold io, next_fault, bindM. by rewrite Hf. Qed.

Lemma Open_nf nm : os_Open nm W = (match w_dir W !! nm with Some i => Ok i | None => Err ENOENT end, W).
Proof. unfold os_Open, bindM, mget. rewrite io_nf. by destruct (w_dir W !! nm). Qed.

Definition dir_names : list string := SliceStable (λ a b : string, String.ltb a b) (elements (dom (w_dir W))).

Lemma ReadDir_nf : os_ReadDir W = (Ok dir_names, W).
Proof. unfold os_ReadDir, bindM, mget. by rewrite io_nf. Qed.

Lemma dir_names_perm : dir_names ≡ₚ (λ x : ASeg * nat, a_name x.1) <$> L.
Proof. unfold dir_names. rewrite SliceStable_perm. by apply Rep_dom with max. Qed.

Lemma is_segment_name (x : ASeg * nat) : is_segment (a_name x.1) = true.
Proof.
  unfold is_segment. pose proof (is_sealed_a_name x.1) as Hs. rewrite is_inprogress_a_name. unfold is_sealed in Hs.
  destruct (a_live x.1); [by rewrite orb_true_r|]. by apply andb_true_iff in Hs as [-> _].
Qed.

Lemma entries_L : entries_where is_segment dir_names = slot_entry <$> L.
Proof.
  rewrite (entries_where_Rep max is_segment W L _ HR dir_names_perm). f_equal. apply filter_all, Forall_forall.
  intros x _. apply is_segment_name.
Qed.

Lemma sorted_L : StronglySorted Z.lt (idxs L).
Proof. apply HR. Qed.

Definition next_from (m : Z) : Z := match last (from m L) with Some x => a_idx x.1 + 1 | None => m end.

Lemma from_next m : from (next_from m) L = [].
Proof.
  unfold next_from. destruct (last (from m L)) as [x|] eqn:Hl; [|by apply last_None in Hl].
  apply last_Some in Hl as [F HF]. apply filter_none, Forall_forall. intros y Hy. apply negb_false_iff, Z.ltb_lt.
  assert (Hs : StronglySorted Z.lt (idxs (from m L))) by apply filter_sorted, sorted_L.
  destruct (Z.ltb_spec (a_idx y.1) m) as [Hlt|Hge].
  - assert (Hx : x ∈ from m L) by (rewrite HF; apply elem_of_app; right; by apply list_elem_of_singleton).
    apply list_elem_of_In, List.filter_In in Hx as [_ Hx]. apply negb_true_iff, Z.ltb_ge in Hx. lia.
  - assert (Hin : y ∈ from m L).
    { apply list_elem_of_In, List.filter_In. split; [by apply list_elem_of_In|]. apply negb_true_iff, Z.ltb_ge. lia. }
    rewrite HF in Hs, Hin. unfold idxs in Hs. rewrite fmap_app in Hs. apply StronglySorted_app in Hs as (Hs & _ & _).
    apply elem_of_app in Hin as [Hin|Hin%list_elem_of_singleton]; [|subst y; lia].
    specialize (Hs (a_idx y.1) (a_idx x.1)). enough (a_idx y.1 < a_idx x.1) by lia. apply Hs; [|by apply list_elem_of_singleton].
    apply list_elem_of_fmap. by exists y.
Qed.

Lemma next_from_ge m : m ≤ next_from m.
Proof.
  unfold next_from. destruct (last (from m L)) as [x|] eqn:Hl; [|lia]. apply last_Some in Hl as [F HF].
  assert (Hx : x ∈ from m L) by (rewrite HF; apply elem_of_app; right; by apply list_elem_of_singleton).
  apply list_elem_of_In, List.filter_In in Hx as [_ Hx]. apply negb_true_iff, Z.ltb_ge in Hx. lia.
Qed.

Lemma next_from_le m : m ≤ n → next_from m ≤ n.
Proof.
  intros Hm. unfold next_from. destruct (last (from m L)) as [x|] eqn:Hl; [|done]. apply last_Some in Hl as [F HF].
  assert (Hx : x ∈ from m L) by (rewrite HF; apply elem_of_app; right; by apply list_elem_of_singleton).
  apply list_elem_of_In, List.filter_In in Hx as [Hx _]. apply list_elem_of_In in Hx.
  rewrite Forall_forall in Hbound. specialize (Hbound x Hx). lia.
Qed.

(** One scan queues every segment that was not queued yet. *)
Lemma rescan_spec r c rest : Reading n L r c rest →
  let r' := rd_queue (r_segments r ++ (slot_entry <$> from (r_nextScanIdx r) L)) (next_from (r_nextScanIdx r)) r in
  rescanLocked (r, W) = (Ok tt, (r', W)) ∧ Reading n L r' c rest.
Proof.
  intros [Hcl Hseq Hn Hbd Hq Hc Htl Hop] r'. split.
  - unfold rescanLocked, bindM, lift, modify, mput. cbn [fst snd]. rewrite ReadDir_nf, entries_L. cbn [fst snd].
    rewrite (filter_fmap_bool slot_entry).
    change (List.filter (λ x, negb (e_idx (slot_entry x) <? r_nextScanIdx r)) L) with (from (r_nextScanIdx r) L).
    unfold r'. repeat f_equal. unfold next_from. rewrite fmap_last. destruct (last (from (r_nextScanIdx r) L)) as [x|] eqn:Hl; [|done]. cbn.
    unfold to_uint64. apply Z.mod_small. apply last_Some in Hl as [F HF].
    assert (Hx : x ∈ L). { assert (Hx : x ∈ from (r_nextScanIdx r) L) by (rewrite HF; apply elem_of_app; right; by apply list_elem_of_singleton).
      apply list_elem_of_In, List.filter_In in Hx as [Hx _]. by apply list_elem_of_In. }
    rewrite Forall_forall in Hidx. specialize (Hidx x Hx). destruct (Rep_wf _ _ _ _ HR Hx) as ([? ?] & _). lia.
  - constructor; cbn; try done.
    + pose proof (next_from_ge (r_nextScanIdx r)). lia.
    + by apply next_from_le.
    + pose proof (next_from_ge (r_nextScanIdx r)) as Hge.
      assert (Hsplit : between c (next_from (r_nextScanIdx r)) L = between c (r_nextScanIdx r) L ++ from (r_nextScanIdx r) L).
      { rewrite <- above_split by (apply sorted_L || lia). rewrite (above_split c (next_from (r_nextScanIdx r))) by (apply sorted_L || lia).
        by rewrite from_next, app_nil_r. }
      rewrite Hsplit. apply Forall2_app; [done|]. apply Forall2_fmap_l, Forall_Forall2_diag, Forall_forall.
      intros x _. split; [done | by left].
Qed.

Lemma adopt_spec e x live r : x ∈ L →
  adopt e x.2 live (r, W) = (if a_gen x.1 =? r_readerGen r then (Ok true, (rd_open x.2 (a_hdr x.1) (e_idx e) live r, W)) else (Ok false, (r, W))).
Proof.
  intros Hx. unfold adopt, bindM, mget, mput. cbn [fst snd]. rewrite (Rep_data _ _ _ _ HR Hx).
  rewrite <- (app_nil_r (a_bytes x.1)), (read_a_bytes max) by (by eapply Rep_wf). cbn. by destruct (_ =? _).
Qed.

Lemma live_name_gone x : x ∈ L → a_live x.1 = false → w_dir W !! liveName (a_idx x.1) = None.
Proof.
  intros Hx Hlive. apply not_elem_of_dom. rewrite <- elem_of_elements, (Rep_dom _ _ _ HR).
  intros (y & Hy & Hin)%list_elem_of_fmap.
  pose proof (Rep_wf _ _ _ _ HR Hin) as [Hyi _]. pose proof (Rep_wf _ _ _ _ HR Hx) as [Hxi _].
  pose proof (parse_a_name y.1 Hyi) as Hp. rewrite <- Hy, parseSegmentIndex_live in Hp by done. injection Hp as Hp.
  assert (y = x) as ->. { apply (NoDup_fmap_inj_elem (λ x : ASeg * nat, a_idx x.1) L); [by eapply Rep_idx_NoDup | done..]. }
  unfold a_name in Hy. rewrite Hlive in Hy. pose proof (is_inprogress_sealed (a_idx x.1)) as Hs. rewrite <- Hy, is_inprogress_live in Hs. done.
Qed.

Lemma open_spec e x r : x ∈ L → queued e x →
  ∃ live, open_entry e (r, W) = adopt e x.2 live (r, W) ∧ (live = false → a_live x.1 = false).
Proof.
  intros Hx [Hi Hname]. unfold open_entry, bindM at 1, mtry, lift. cbn [fst snd]. rewrite Open_nf.
  destruct Hname as [->|[-> Hsealed]].
  - rewrite (Rep_lookup _ _ _ _ HR Hx), is_inprogress_a_name. cbn. by eexists.
  - rewrite live_name_gone by done. rewrite is_inprogress_live. cbn [fst snd]. exists false. split; [|done].
    unfold bindM at 1. cbn [fst snd]. rewrite Open_nf, Hi.
    pose proof (Rep_lookup _ _ _ _ HR Hx) as Hd. unfold a_name in Hd. rewrite Hsealed in Hd. by rewrite Hd.
Qed.

Lemma pending_none r c : pending L r c [] = outs (r_readerGen r) (r_nextSeq r) (above c L).
Proof. done. Qed.

Lemma live_max x y : x ∈ L → y ∈ L → a_live y.1 = true → a_idx y.1 ≤ a_idx x.1 → y = x.
Proof.
  intros Hx Hy Hyl Hle. apply (NoDup_fmap_inj_elem (λ x : ASeg * nat, a_idx x.1) L); [by eapply Rep_idx_NoDup | done..|].
  cbn. destruct (decide (a_idx y.1 < a_idx x.1)) as [Hlt|]; [|lia]. exfalso.
  assert (Hab : x ∈ above (a_idx y.1) L).
  { apply list_elem_of_In, List.filter_In. split; [by apply list_elem_of_In|]. by apply Z.ltb_lt. }
  rewrite (Hlast y Hy Hyl) in Hab. by apply not_elem_of_nil in Hab.
Qed.

(** The first queued segment is opened or skipped. *)
Lemma pop_spec r c e l : Reading n L r c [] → r_current r = None → r_segments r = e :: l →
  ∃ b r' c' rest, open_entry e (rd_queue l (r_nextScanIdx r) r, W) = (Ok b, (r', W)) ∧ Reading n L r' c' rest ∧
    pending L r' c' rest = pending L r c [] ∧ (b = true → is_Some (r_current r')).
Proof.
  intros [Hcl Hseq Hn Hbd Hq _ Htl Hop] Hc Hseg. rewrite Hseg in Hq. destruct (between c (r_nextScanIdx r) L) as [|x T] eqn:Hb; [inversion Hq|].
  apply Forall2_cons in Hq as [Hex Hq]. destruct (between_pop _ _ _ _ _ sorted_L Hb) as (-> & Habove & Hci & Hx).
  destruct (open_spec e x (rd_queue l (r_nextScanIdx r) r) Hx Hex) as (live & -> & Hlive). rewrite adopt_spec by done. cbn [r_readerGen rd_queue].
  destruct (Z.eqb_spec (a_gen x.1) (r_readerGen r)) as [Hg|Hg].
  - exists true. eexists _, (a_idx x.1), (a_recs x.1). split; [done|]. split_and!; [|..].
    + constructor; cbn; try done; [lia | |].
      * split; [apply Hex|]. exists x.1, []. destruct x as [a i]. cbn in *. split_and!; try done.
      * intros y Hy Hyl Hyi _. exists 16%nat. by rewrite (live_max x y Hx Hy Hyl Hyi).
    + unfold pending. rewrite Habove, outs_cons. unfold seg_out. by rewrite (proj2 (Z.eqb_eq _ _)).
    + intros _. by eexists.
  - exists false. eexists _, (a_idx x.1), []. split; [done|]. split_and!; [| | done].
    + constructor; cbn; try done; [lia | by rewrite Hc |].
      intros y Hy Hyl Hyi Hyg. destruct Hg. by rewrite <- (live_max x y Hx Hy Hyl Hyi).
    + rewrite !pending_none, Habove, outs_cons. unfold seg_out. by rewrite (proj2 (Z.eqb_neq _ _)).
Qed.

Lemma advance_spec r c rest : Reading n L r c rest →
  ∃ a r' c' rest', advance_segment (r, W) = (Ok a, (r', W)) ∧ Reading n L r' c' rest' ∧
    pending L r' c' rest' = pending L r c rest ∧
    match a with None => pending L r c rest = [] | Some true => is_Some (r_current r') | Some false => True end.
Proof.
  intros Hr. unfold advance_segment. unfold bindM at 1, mget. cbn [fst]. destruct (r_current r) as [[f off]|] eqn:Hc.
  { exists (Some true), r, c, rest. by split_and!. }
  assert (rest = []) as -> by (pose proof (rd_cur _ _ _ _ _ Hr) as H; by rewrite Hc in H).
  destruct (r_segments r) as [|e l] eqn:Hseg.
  - destruct (rescan_spec r c [] Hr) as [Hres Hr1]. rewrite Hseg in Hres, Hr1. unfold bindM at 1, merr_map. rewrite Hres.
    unfold bindM at 1, mget. cbn [fst app r_segments rd_queue] in *.
    destruct (from (r_nextScanIdx r) L) as [|x F] eqn:HF; cbn [fmap list_fmap] in *.
    + exists None. eexists _, c, []. split_and!; [done..|]. rewrite pending_none.
      rewrite (above_split c (r_nextScanIdx r)) by (apply sorted_L || apply Hr). rewrite HF.
      pose proof (rd_segs _ _ _ _ _ Hr) as Hq. rewrite Hseg in Hq. inversion Hq. done.
    + set (r1 := rd_queue _ _ r) in *. unfold bindM, mput. cbn [fst snd].
      destruct (pop_spec r1 c (slot_entry x) (slot_entry <$> F) Hr1 Hc eq_refl) as (b & r' & c' & rest & Ho & Hr' & Hp & Hb).
      rewrite Ho. exists (Some b), r', c', rest. split_and!; [done..|]. destruct b; [by apply Hb | done].
  - unfold bindM, ret, mget, mput. cbn [fst snd]. rewrite Hseg. cbn [fst snd].
    destruct (pop_spec r c e l Hr Hc Hseg) as (b & r' & c' & rest & Ho & Hr' & Hp & Hb).
    rewrite Ho. exists (Some b), r', c', rest. split_and!; [done..|]. destruct b; [by apply Hb | done].
Qed.

Lemma superseded_spec a f : (a, f) ∈ L → superseded (a_idx a) dir_names = negb (a_live a) || negb (bool_decide (above (a_idx a) L = [])).
Proof.
  intros Hin. unfold superseded. apply eq_true_iff_eq. rewrite existsb_exists, orb_true_iff, !negb_true_iff, bool_decide_eq_false.
  split.
  - intros (nm & Hn & Hp). apply list_elem_of_In in Hn. rewrite dir_names_perm in Hn. apply list_elem_of_fmap in Hn as (y & -> & Hy).
    pose proof (Rep_wf _ _ _ _ HR Hy) as [Hyi _]. rewrite parse_a_name in Hp by done. apply orb_true_iff in Hp as [Hlt|[Heq Hs]%andb_true_iff].
    + right. intros Hnil. assert (Hya : y ∈ above (a_idx a) L).
      { apply list_elem_of_In, List.filter_In. split; [by apply list_elem_of_In | done]. }
      rewrite Hnil in Hya. by apply not_elem_of_nil in Hya.
    + left. apply Z.eqb_eq in Heq. assert (y = (a, f)) as ->.
      { apply (NoDup_fmap_inj_elem (λ x : ASeg * nat, a_idx x.1) L); [by eapply Rep_idx_NoDup | done..]. }
      cbn in Hs. rewrite is_sealed_a_name in Hs. by apply negb_true_iff.
  - intros [Hl|Hne].
    + exists (a_name a). split.
      * apply list_elem_of_In. rewrite dir_names_perm. apply list_elem_of_fmap. by exists (a, f).
      * rewrite parse_a_name by apply (Rep_wf _ _ _ _ HR Hin). rewrite Z.eqb_refl, is_sealed_a_name, Hl. by rewrite orb_true_r.
    + destruct (above (a_idx a) L) as [|y F] eqn:HF; [done|]. exists (a_name y.1).
      assert (Hy : y ∈ above (a_idx a) L) by (rewrite HF; apply elem_of_cons; by left).
      apply list_elem_of_In, List.filter_In in Hy as [Hy Hlt]. apply list_elem_of_In in Hy. split.
      * apply list_elem_of_In. rewrite dir_names_perm. apply list_elem_of_fmap. by exists y.
      * rewrite parse_a_name by apply (Rep_wf _ _ _ _ HR Hy). by rewrite Hlt.
Qed.

Lemma drop_enc q gen p : drop 12 (encodeSeqGenFrame q gen p) = p.
Proof. unfold encodeSeqGenFrame. rewrite app_assoc. apply drop_app_length'. by rewrite length_app, !length_be_put. Qed.

(** One record of the current segment, already read. *)
Lemma on_payload_spec a rec r : seg_wf max a → rec_wf max (a_gen a) rec → a_gen a = r_readerGen r →
  ∃ r', on_payload (enc (a_gen a) rec) (r, W) =
    (Ok (match deliver (r_readerGen r) (r_nextSeq r) rec with Some x => Return (Some x) | None => Again end), (r', W)) ∧
    rd_queue [] 0 (rd_seen 0 0 (rd_emitted 0 r')) = rd_queue [] 0 (rd_seen 0 0 (rd_emitted 0 r)) ∧
    r_segments r' = r_segments r ∧ r_nextScanIdx r' = r_nextScanIdx r.
Proof.
  intros Ha Hrec Hg. unfold on_payload. rewrite (isLossMarker_enc _ _ _ Hrec). destruct rec as [q p|l].
  - rewrite (parseSeqGen_enc max (a_gen a) q p) by (done || apply Ha). unfold bindM, mput, mget. cbn [fst snd deliver].
    change (r_nextSeq (rd_seen q (a_gen a) r)) with (r_nextSeq r).
    destruct (q <? r_nextSeq r); [by eexists|]. exists (rd_emitted q (rd_seen q (a_gen a) r)). split; [|done].
    cbn [fst snd enc]. rewrite drop_enc. by rewrite Hg.
  - destruct Hrec as [_ Hl]. cbn [enc]. rewrite decodeLossPayload_encode by done. by eexists.
Qed.

(** Reading state up to the fields that only label a later corruption report. *)
Lemma Reading_seen r r' c rest : Reading n L r c rest →
  rd_queue [] 0 (rd_seen 0 0 (rd_emitted 0 r')) = rd_queue [] 0 (rd_seen 0 0 (rd_emitted 0 r)) →
  r_segments r' = r_segments r → r_nextScanIdx r' = r_nextScanIdx r → Reading n L r' c rest ∧ pending L r' c rest = pending L r c rest.
Proof.
  intros [Hcl Hseq Hn Hbd Hq Hc Htl Hop] Hv Hs Hnx. destruct r, r'. cbn in *. injection Hv as -> -> -> -> -> -> -> ->. subst.
  split; [|done]. by constructor.
Qed.

Lemma current_data a f pre rest : (a, f) ∈ L → a_recs a = pre ++ rest →
  data_of W f = hdr_bytes (a_hdr a) ++ frames (enc (a_gen a) <$> pre) ++ frames (enc (a_gen a) <$> rest) ∧
  length (hdr_bytes (a_hdr a)) = 16%nat ∧ seg_wf max a ∧ Forall (rec_wf max (a_gen a)) rest.
Proof.
  intros Hin Hrecs. pose proof (Rep_wf _ _ _ _ HR Hin) as Hwf. pose proof (Rep_data _ _ _ _ HR Hin) as Hd. cbn in Hd, Hwf.
  split_and!; [| by eapply length_hdr_bytes | done |].
  - rewrite Hd. unfold a_bytes, a_payloads. by rewrite Hrecs, fmap_app, frames_app.
  - destruct Hwf as (_ & _ & _ & Hall). rewrite Hrecs in Hall. by apply Forall_app in Hall as [_ ?].
Qed.

Lemma read_spec r c rest f off : Reading n L r c rest → r_current r = Some (f, off) →
  ∃ p r' c' rest', read_current max f off (r, W) = (Ok p, (r', W)) ∧ Reading n L r' c' rest' ∧
    match p with
    | Again => pending L r' c' rest' = pending L r c rest
    | Return (Some x) => pending L r c rest = x :: pending L r' c' rest'
    | Return None => pending L r c rest = [] ∧ pending L r' c' rest' = []
    end.
Proof.
  intros Hr Hc. pose proof (rd_cur _ _ _ _ _ Hr) as Hcur. rewrite Hc in Hcur.
  destruct Hcur as (Hci & a & pre & Hin & Hai & Hg & Hrecs & Hoff & Hlive).
  destruct (current_data a f pre rest Hin Hrecs) as (Hd & Hlh & Hwf & Hrest).
  unfold read_current. unfold bindM at 1, mget. cbn [snd]. rewrite Hd.
  assert (Hdrop : drop off (hdr_bytes (a_hdr a) ++ frames (enc (a_gen a) <$> pre) ++ frames (enc (a_gen a) <$> rest)) =
                  frames (enc (a_gen a) <$> rest)).
  { rewrite app_assoc. apply drop_app_length'. rewrite length_app. lia. }
  rewrite Hdrop. destruct rest as [|rec rest].
  - cbn [fmap list_fmap]. assert (Hrd : ReadRecord (frames []) max = (Err ErrEOF, [])) by (unfold ReadRecord; by rewrite Hmax).
    rewrite Hrd. unfold bindM at 1, mput. cbn [fst snd]. unfold bindM at 1, mget. cbn [fst].
    set (off' := Nat.max _ _). assert (off' = off) as ->.
    { unfold off'. rewrite !length_app. cbn. lia. }
    change (r_curLive (rd_at (Some (f, off)) r)) with (r_curLive r).
    assert (Hself : rd_at (Some (f, off)) r = r) by (destruct r; cbn in *; by rewrite Hc). rewrite Hself.
    destruct (r_curLive r) eqn:Hl.
    + unfold bindM at 1, merr_map, maybeDemoteLiveLocked. unfold bindM at 1, this, mget. cbn [fst]. rewrite Hl. cbn [negb].
      unfold bindM at 1, lift. cbn [fst snd]. rewrite ReadDir_nf. replace (r_curIdx r) with (a_idx a) by congruence. rewrite (superseded_spec a f Hin).
      destruct (negb (a_live a) || negb (bool_decide (above (a_idx a) L = []))) eqn:Hsup; cbn [negb].
      * assert (Hsealed : a_live a = false).
        { destruct (a_live a) eqn:Hla; [|done]. pose proof (Hlast (a, f) Hin Hla) as Hab. cbn in Hab.
          by rewrite Hab, bool_decide_eq_true_2 in Hsup. }
        assert (Hr1 : Reading n L (rd_live false r) c []).
        { destruct Hr. constructor; cbn; try done. rewrite Hc. split; [done|]. exists a, pre. by split_and!. }
        destruct (rescan_spec (rd_live false r) c [] Hr1) as [Hres Hr2]. unfold bindM, modify, mput. cbn [fst snd]. rewrite Hres.
        exists Again. eexists _, c, []. split; [reflexivity|]. split; [exact Hr2 | done].
      * apply orb_false_iff in Hsup as [_ Hab]. apply negb_false_iff, bool_decide_eq_true in Hab.
        exists (Return None), r, c, []. split_and!; [done..| |]; rewrite pending_none, <- Hai, Hab; done.
    + unfold bindM, mput. cbn [fst snd]. exists Again. eexists _, c, []. split; [done|]. split; [|done].
      destruct Hr as [? ? ? ? ? ? Htl ?]. constructor; try done. intros x Hx Hxl Hxi Hxg. destruct (Htl x Hx Hxl Hxi Hxg) as [off' Hx2].
      rewrite Hc in Hx2. injection Hx2 as Hx2 _. assert (x = (a, f)) as ->.
      { apply (NoDup_fmap_inj_elem (λ x : ASeg * nat, x.2) L); [apply HR | done..]. }
      cbn in Hxl. rewrite (Hlive eq_refl) in Hxl. done.
  - cbn [fmap list_fmap]. rewrite frames_cons. apply Forall_cons in Hrest as [Hrec Hrest].
    rewrite (ReadRecord_frame (enc (a_gen a) rec)) by (done || apply Hrec). unfold bindM at 1, mput. cbn [fst snd]. unfold bindM at 1, mget. cbn [fst].
    set (off' := Nat.max _ _).
    assert (Hoff' : off' = (16 + length (frames (enc (a_gen a) <$> (pre ++ [rec]))))%nat).
    { unfold off'. rewrite fmap_app. cbn [fmap list_fmap]. rewrite frames_snoc, !length_app. unfold fmap in *. lia. }
    assert (Hr1 : Reading n L (rd_at (Some (f, off')) r) c rest).
    { destruct Hr. constructor; cbn; try done. split; [done|]. exists a, (pre ++ [rec]). split_and!; try done. by rewrite <- app_assoc.
      intros x Hx Hxl Hxi Hxg. destruct (rd_tail0 x Hx Hxl Hxi Hxg) as [o' Ho']. exists off'. rewrite Hc in Ho'. by injection Ho' as ->. }
    destruct (on_payload_spec a rec (rd_at (Some (f, off')) r) Hwf Hrec Hg) as (r' & Hpay & Hv & Hs & Hnx). rewrite Hpay.
    destruct (Reading_seen _ _ _ _ Hr1 Hv Hs Hnx) as [Hr' Hp']. cbn [r_readerGen r_nextSeq rd_at].
    assert (Hpend : pending L r c (rec :: rest) =
      match deliver (r_readerGen r) (r_nextSeq r) rec with Some x => x :: pending L r' c rest | None => pending L r' c rest end).
    { rewrite Hp'. unfold pending. cbn [omap list_omap r_readerGen r_nextSeq rd_at]. by destruct (deliver _ _ rec). }
    destruct (deliver (r_readerGen r) (r_nextSeq r) rec) as [x|]; eexists _, r', c, rest; (split; [done|]); by split.
Qed.

Lemma next_pass_spec r c rest : Reading n L r c rest →
  ∃ p r' c' rest', next_pass max (r, W) = (Ok p, (r', W)) ∧ Reading n L r' c' rest' ∧
    match p with
    | Again => pending L r' c' rest' = pending L r c rest
    | Return (Some x) => pending L r c rest = x :: pending L r' c' rest'
    | Return None => pending L r c rest = [] ∧ pending L r' c' rest' = []
    end.
Proof.
  intros Hr. unfold next_pass. destruct (advance_spec r c rest Hr) as (a & r1 & c1 & rest1 & Ha & Hr1 & Hp1 & Hcase).
  unfold bindM at 1. rewrite Ha. destruct a as [[|]|].
  - destruct Hcase as [[f off] Hc]. unfold bindM, mget. cbn [fst]. rewrite Hc, <- Hp1. by apply read_spec.
  - by exists Again, r1, c1, rest1.
  - exists (Return None), r1, c1, rest1. split_and!; try done. by rewrite Hp1.
Qed.

Lemma no_last_L : no_last_index W.
Proof.
  intros nm idx Hn Hp. rewrite <- elem_of_elements, (Rep_dom _ _ _ HR) in Hn. apply list_elem_of_fmap in Hn as (x & -> & Hx).
  pose proof (Rep_wf _ _ _ _ HR Hx) as [Hxi _]. rewrite parse_a_name in Hp by done. injection Hp as <-.
  rewrite Forall_forall in Hidx. specialize (Hidx x Hx). destruct Hxi. lia.
Qed.

Lemma next_loop_spec fuel r c rest : (mu (r, W) < fuel)%nat → Reading n L r c rest →
  ∃ o r' c' rest', next_loop fuel max (r, W) = (Ok o, (r', W)) ∧ Reading n L r' c' rest' ∧
    match o with
    | Some x => pending L r c rest = x :: pending L r' c' rest'
    | None => pending L r c rest = [] ∧ pending L r' c' rest' = []
    end.
Proof.
  revert r c rest. induction fuel as [|fuel IH]; intros r c rest Hmu Hr; [lia|]. cbn [next_loop]. unfold bindM at 1.
  destruct (next_pass_spec r c rest Hr) as (p & r1 & c1 & rest1 & Hp & Hr1 & Hcase). rewrite Hp. destruct p as [|o].
  - destruct (next_pass_again _ _ _ _ _ no_last_L Hp) as [_ Hlt].
    destruct (IH r1 c1 rest1 ltac:(lia) Hr1) as (o & r2 & c2 & rest2 & Hl & Hr2 & Ho). exists o, r2, c2, rest2. rewrite <- Hcase. done.
  - by exists o, r1, c1, rest1.
Qed.
End pass.

(** *** Readers and appends *)

Lemma filter_idx_le (p : Z → bool) L M : Forall2 seg_le L M →
  Forall2 seg_le (List.filter (λ x, p (a_idx x.1)) L) (List.filter (λ x, p (a_idx x.1)) M).
Proof.
  induction 1 as [|x y L M Hxy _ IH]; [constructor|]. cbn. destruct (seg_le_fields _ _ Hxy) as [<- _].
  destruct (p (a_idx x.1)); [by constructor | done].
Qed.

Lemma queued_le e x y : seg_le x y → queued e x → queued e y.
Proof.
  intros Hxy [Hi Hn]. destruct (seg_le_fields _ _ Hxy) as (Hxi & _). destruct Hxy as (_ & _ & Hl). split; [congruence|].
  unfold a_name in *. destruct (a_live x.1) eqn:Hx, (a_live y.1) eqn:Hy; rewrite Hxi in *; try tauto.
  by specialize (Hl eq_refl).
Qed.

Lemma queued_list es A B : Forall2 queued es A → Forall2 seg_le A B → Forall2 queued es B.
Proof.
  intros HA. revert B. induction HA as [|e x es A He _ IH]; intros B HB; inversion HB; subst; constructor; [by eapply queued_le | by apply IH].
Qed.

Lemma seg_out_le gen start A B : Forall2 seg_le A B →
  outs gen start A = outs gen start B.
Proof.
  induction 1 as [|x y A B Hxy _ IH]; [done|]. rewrite !outs_cons, IH. destruct (seg_le_fields _ _ Hxy) as (_ & Hg & _ & Hr).
  unfold seg_out. by rewrite Hg, Hr.
Qed.

Lemma seg_out_empty gen start N : Forall (λ y : ASeg * nat, a_recs y.1 = []) N → outs gen start N = [].
Proof. induction 1 as [|y N Hy _ IH]; [done|]. rewrite outs_cons, IH. unfold seg_out. rewrite Hy. by destruct (_ =? _). Qed.

Lemma Reading_grow n n' L L' r c rest : Reading n L r c rest → Grow n L L' → n ≤ n' →
  Reading n' L' r c rest ∧ pending L' r c rest = pending L r c rest.
Proof.
  intros [Hcl Hseq Hn Hbd Hq Hc Htl Hop] (M & N & -> & HM & HN) Hle. split.
  - constructor; try done.
    + lia.
    + unfold between. rewrite List.filter_app. fold (between c (r_nextScanIdx r) N). rewrite (between_none c (r_nextScanIdx r) N).
      * rewrite app_nil_r. eapply queued_list; [exact Hq|]. by apply (filter_idx_le (λ i, (c <? i) && (i <? r_nextScanIdx r))).
      * eapply Forall_impl; [exact HN|]. cbn. lia.
    + destruct (r_current r) as [[f off]|]; [|done]. destruct Hc as (Hci & a & pre & Hin & Hai & Hg & Hrecs & Hoff & Hlive).
      split; [done|]. apply list_elem_of_lookup in Hin as [k Hk]. destruct (Forall2_lookup_l _ _ _ _ _ HM Hk) as ([b f'] & Hb & Hxy).
      pose proof (seg_le_fields _ _ Hxy) as (Hbi & Hbg & _ & Hbr). destruct Hxy as (Hf2 & _ & Hbl). cbn in *. subst f'.
      exists b, pre. split_and!; try congruence; [apply elem_of_app; left; by eapply list_elem_of_lookup_2|].
      intros Hl. destruct (a_live b) eqn:Hlb; [|done]. rewrite (Hbl eq_refl) in Hlive. by specialize (Hlive Hl).
    + intros y [Hy|Hy]%elem_of_app Hyl Hyi Hyg.
      * apply list_elem_of_lookup in Hy as [k Hk]. destruct (Forall2_lookup_r _ _ _ _ _ HM Hk) as (x & Hx & Hxy).
        pose proof (seg_le_fields _ _ Hxy) as (Hxi & Hxg & _). destruct Hxy as (Hx2 & _ & Hxl). rewrite <- Hx2.
        apply Htl; [by eapply list_elem_of_lookup_2 | by apply Hxl | lia | congruence].
      * rewrite Forall_forall in HN. destruct (HN y Hy) as [_ ?]. lia.
  - unfold pending. f_equal. unfold above. rewrite List.filter_app, outs_app.
    rewrite (seg_out_empty _ _ (List.filter _ N)), app_nil_r.
    + symmetry. apply seg_out_le. by apply (filter_idx_le (λ i, c <? i)).
    + apply Forall_filter_bool. eapply Forall_impl; [exact HN|]. by intros y [].
Qed.

Lemma Reading_add n W L0 a i rec r c rest : Rep max W (L0 ++ [(add_rec rec a, i)]) → a_live a = true → Reading n (L0 ++ [(a, i)]) r c rest →
  ∃ rest', Reading n (L0 ++ [(add_rec rec a, i)]) r c rest' ∧
    pending (L0 ++ [(add_rec rec a, i)]) r c rest' = pending (L0 ++ [(a, i)]) r c rest ++
      (if a_gen a =? r_readerGen r then option_list (deliver (r_readerGen r) (r_nextSeq r) rec) else []).
Proof.
  intros HR Ha [Hcl Hseq Hn Hbd Hq Hc Htl Hop]. pose proof (last_idx _ _ _ _ HR) as Hlt. cbn in Hlt.
  assert (Hino : ∀ b f, (b, f) ∈ L0 → f ≠ i).
  { intros b f Hin ->. pose proof (rep_inodes _ _ _ HR) as Hnd. rewrite fmap_app in Hnd. apply NoDup_app in Hnd as (_ & Hnd & _).
    apply (Hnd i); [apply list_elem_of_fmap; by exists (b, i) | by apply list_elem_of_singleton]. }
  set (rest' := match r_current r with Some (f, _) => if decide (f = i) then rest ++ [rec] else rest | None => rest end).
  assert (Hbet : ∀ k, Forall2 queued (r_segments r) (between c k (L0 ++ [(a, i)])) → Forall2 queued (r_segments r) (between c k (L0 ++ [(add_rec rec a, i)]))).
  { intros k. unfold between. rewrite !List.filter_app. cbn. destruct (_ && _); [|done].
    intros (e1 & e2 & H1 & H2 & ->)%Forall2_app_inv_r. apply Forall2_app; [done|]. inversion H2 as [|e ? es ? He Hnil]; subst.
    inversion Hnil; subst. constructor; [exact He | constructor]. }
  assert (Hread : Reading n (L0 ++ [(add_rec rec a, i)]) r c rest').
  { constructor; try done; [by apply Hbet | |].
    - unfold rest'. destruct (r_current r) as [[f off]|]; [|done]. destruct Hc as (Hci & b & pre & Hin & Hbi & Hg & Hrecs & Hoff & Hl).
      split; [done|]. apply elem_of_app in Hin as [Hin|Hin%list_elem_of_singleton].
      + rewrite decide_False by (by eapply Hino). exists b, pre. split_and!; try done. apply elem_of_app. by left.
      + injection Hin as -> ->. rewrite decide_True by done. exists (add_rec rec a), pre. cbn. split_and!; try done.
        * apply elem_of_app. right. by apply list_elem_of_singleton.
        * by rewrite Hrecs, <- app_assoc.
    - intros x [Hx|Hx%list_elem_of_singleton]%elem_of_app Hxl Hxi Hxg.
      + apply Htl; try done. apply elem_of_app. by left.
      + subst x. apply (Htl (a, i)); try done. apply elem_of_app. right. by apply list_elem_of_singleton. }
  exists rest'. split; [done|]. clear Hread Hbet. unfold pending, above. rewrite !List.filter_app. cbn [List.filter fst add_rec a_idx].
  destruct (Z.ltb_spec c (a_idx a)) as [Hca|Hca].
  - assert (rest' = rest) as ->.
    { unfold rest'. destruct (r_current r) as [[f off]|]; [|done]. destruct Hc as (_ & b & pre & Hin & Hbi & _). case_decide as Hfi; [|done].
      apply elem_of_app in Hin as [Hin|Hin%list_elem_of_singleton]; [by destruct (Hino b f Hin)|]. injection Hin as -> _. lia. }
    rewrite !outs_app, <- !app_assoc. f_equal. f_equal. rewrite !outs_cons. change (outs ?g ?st []) with (@nil WalRecord).
    unfold seg_out. cbn [fst add_rec a_gen a_recs]. rewrite !app_nil_r.
    destruct (a_gen a =? r_readerGen r); [|by rewrite app_nil_r]. rewrite omap_app. cbn. by destruct (deliver _ _ rec).
  - assert (Hnil : List.filter (λ x : ASeg * nat, c <? a_idx x.1) L0 = []).
    { apply filter_none. eapply Forall_impl; [exact Hlt|]. cbn. intros x Hx. apply Z.ltb_ge. lia. }
    rewrite !Hnil. cbn. rewrite !app_nil_r. destruct (Z.eqb_spec (a_gen a) (r_readerGen r)) as [Hg|Hg].
    + destruct (Htl (a, i)) as [off Hcur]; [apply elem_of_app; right; by apply list_elem_of_singleton | done..|]. cbn in Hcur.
      unfold rest'. rewrite Hcur, decide_True by done. rewrite omap_app. cbn. by destruct (deliver _ _ rec).
    + rewrite app_nil_r. f_equal. unfold rest'. destruct (r_current r) as [[f off]|]; [|done].
      destruct Hc as (_ & b & pre & Hin & _ & Hbg & _). case_decide as Hfi; [|done].
      apply elem_of_app in Hin as [Hin|Hin%list_elem_of_singleton]; [by destruct (Hino b f Hin)|]. by injection Hin as -> _.
Qed.
End deliver.

(** ** Appends and the registered readers *)

(** Every reader is unchanged or has been notified. *)
Definition notified (w w' : WAL) : Prop :=
  ∀ id, w_readers w' !! id = w_readers w !! id ∨ w_readers w' !! id = notify_reader <$> w_readers w !! id.

Definition quiet {E A} (m : WalM E A) : Prop := ∀ s, notified s.1 (m s).2.1.

Lemma notified_refl w w' : w_readers w' = w_readers w → notified w w'.
Proof. intros Hw id. left. by rewrite Hw. Qed.

Lemma notified_trans w1 w2 w3 : notified w1 w2 → notified w2 w3 → notified w1 w3.
Proof.
  intros H12 H23 id. destruct (H12 id) as [H1|H1], (H23 id) as [H2|H2]; rewrite H2, H1; [by left | by right | by right | right].
  by destruct (w_readers w1 !! id).
Qed.

Lemma notified_notify w w' : w_readers w' = w_readers w → notified w (notifyReaders w').
Proof. intros Hw id. right. cbn. by rewrite lookup_fmap, Hw. Qed.

Section quiet_rules.
Context {E : Type}.

Lemma quiet_ret {A} (a : A) : quiet (ret a : WalM E A).
Proof. intros s. by apply notified_refl. Qed.
Lemma quiet_err {A} (e : E) : quiet (merr e : WalM E A).
Proof. intros s. by apply notified_refl. Qed.
Lemma quiet_get {A} (f : WAL * World → A) : quiet (mget f : WalM E A).
Proof. intros s. by apply notified_refl. Qed.
Lemma quiet_bind {A B} (m : WalM E A) (k : A → WalM E B) : quiet m → (∀ a, quiet (k a)) → quiet (bindM m k).
Proof.
  intros Hm Hk s. unfold bindM. specialize (Hm s). destruct (m s) as [[a|e] s1]; [|done].
  eapply notified_trans; [exact Hm | apply Hk].
Qed.
Lemma quiet_put (f : WAL * World → WAL * World) : (∀ s, notified s.1 (f s).1) → quiet (mput f : WalM E unit).
Proof. intros Hf s. apply Hf. Qed.
End quiet_rules.

Lemma quiet_lift {A} (m : Os A) : quiet (lift m : WalM OsErr A).
Proof. intros [w W]. unfold lift. cbn. destruct (m W) as [r W']. by apply notified_refl. Qed.
Lemma quiet_try {E' A} (m : WalM OsErr A) : quiet m → quiet (mtry m : WalM E' _).
Proof. intros Hm s. apply Hm. Qed.
Lemma quiet_on_current {A} (m : SegM A) : quiet (on_current m).
Proof.
  intros [w W]. unfold on_current. cbn. destruct (w_current w) as [seg|]; [|by apply notified_refl].
  destruct (m (seg, W)) as [r [seg' W']]. by apply notified_refl.
Qed.
Lemma quiet_amb {A} op (m : WalM OsErr A) : quiet m → quiet (ambiguous op m).
Proof.
  intros Hm s. unfold ambiguous. specialize (Hm s). destruct (m s) as [[a|e] [w W]]; [done|].
  cbn in *. by destruct (w_fatalErr w).
Qed.
Lemma quiet_prune {E} : quiet (prunePerGenMapsLocked : WalM E unit).
Proof.
  intros [w W]. unfold prunePerGenMapsLocked. cbn. destruct (os_ReadDir W) as [[names|e] W1]; [|by apply notified_refl].
  destruct (surviving_gens names ∅ W1) as [[g|e] W2]; by apply notified_refl.
Qed.

Create HintDb quiet discriminated.
#[local] Hint Resolve @quiet_ret @quiet_err @quiet_get @quiet_lift @quiet_on_current @quiet_prune : quiet.

Ltac hush := repeat first
  [ solve [auto with quiet nocore] | apply quiet_bind; [|intros ?] | apply quiet_amb | apply quiet_try
  | apply quiet_put; intros ?; first [by apply notified_refl | by apply notified_notify]
  | match goal with |- quiet (match ?x with _ => _ end) => destruct x end ].

Lemma quiet_remove_counted n : quiet (remove_counted n).
Proof. unfold remove_counted, modify. hush. Qed.
#[local] Hint Resolve quiet_remove_counted : quiet.
Lemma quiet_gc_loop l r : quiet (gc_acked_loop l r).
Proof. revert r. induction l as [|e l IH]; intros r; cbn [gc_acked_loop]; unfold this; hush. Qed.
#[local] Hint Resolve quiet_gc_loop : quiet.
Lemma quiet_gcAcked : quiet gcAckedLocked.
Proof. unfold gcAckedLocked, this. hush. Qed.
Lemma quiet_dropOldest : quiet dropOldestLocked.
Proof. unfold dropOldestLocked, this. hush. Qed.
Lemma quiet_open_current g f : quiet (open_current g f).
Proof. unfold open_current, openNewSegmentLocked, this, modify. hush. Qed.
Lemma quiet_appendLoss l : quiet (appendLossLocked l).
Proof. unfold appendLossLocked, modify. hush. Qed.
Lemma quiet_seal : quiet sealCurrentLocked.
Proof. unfold sealCurrentLocked, this, modify. hush. Qed.
#[local] Hint Resolve quiet_gcAcked quiet_dropOldest quiet_open_current quiet_appendLoss quiet_seal : quiet.
Lemma quiet_overflow fuel g : quiet (overflow_loop fuel g).
Proof. induction fuel as [|fuel IH]; cbn [overflow_loop]; [apply quiet_ret|]. unfold overflow_marker. hush. Qed.
#[local] Hint Resolve quiet_overflow : quiet.
Lemma quiet_Append q g p : quiet (Append q g p).
Proof.
  unfold Append, append_record, reclaim, roll_generation, open_first, roll_full, clean. hush.
Qed.

(** ** Readers on an open log *)

Lemma LogState_last max o L s : LogState max o L s → ∀ x, x ∈ L → a_live x.1 = true → above (a_idx x.1) L = [].
Proof.
  intros HL x Hx Hxl. pose proof (ls_inv _ _ _ _ HL) as HI. pose proof (iv_live _ _ _ _ _ _ _ _ _ _ HI) as Hlive.
  pose proof (iv_rep _ _ _ _ _ _ _ _ _ _ HI) as HR. unfold Live in Hlive. destruct (w_current s.1) as [seg|].
  - destruct Hlive as (L0 & a & i & -> & HF & Ha & _). apply elem_of_app in Hx as [Hx|Hx%list_elem_of_singleton].
    + rewrite Forall_forall in HF. specialize (HF x Hx). unfold is_sealed_slot in HF. congruence.
    + subst x. apply filter_none, Forall_app. split; [|apply Forall_singleton; cbn; apply Z.ltb_irrefl].
      eapply Forall_impl; [exact (last_idx _ _ _ _ HR)|]. cbn. intros y Hy. apply Z.ltb_ge. lia.
  - rewrite Forall_forall in Hlive. specialize (Hlive x Hx). unfold is_sealed_slot in Hlive. congruence.
Qed.

Lemma LogState_idx max o L s : LogState max o L s → w_nextIndex s.1 < 2 ^ 64 →
  Forall (λ x, a_idx x.1 < 2 ^ 64 - 1) L ∧ Forall (λ x, a_idx x.1 < w_nextIndex s.1) L.
Proof.
  intros HL Hn. pose proof (iv_idx _ _ _ _ _ _ _ _ _ _ (ls_inv _ _ _ _ HL)) as Hidx. split; [|done].
  eapply Forall_impl; [exact Hidx|]. cbn. lia.
Qed.

(** One read of a reader on an open log whose file system does not fail. *)
Lemma TryNext_spec gen start max o L s r c rest : LogState max o L s → w_faults s.2 = [] → w_nextIndex s.1 < 2 ^ 64 →
  Reading gen start (w_nextIndex s.1) L r c rest →
  ∃ out r' c' rest', TryNext max (r, s.2) = (Ok out, (r', s.2)) ∧ Reading gen start (w_nextIndex s.1) L r' c' rest' ∧
    match out with
    | Some x => pending L r c rest = x :: pending L r' c' rest'
    | None => pending L r c rest = [] ∧ pending L r' c' rest' = []
    end.
Proof.
  intros HL Hf Hn Hr. destruct (LogState_idx _ _ _ _ HL Hn) as [Hi Hb].
  unfold TryNext, bindM, mget. cbn [fst]. rewrite (rd_closed _ _ _ _ _ _ _ Hr). unfold nextLocked.
  apply (next_loop_spec max (ls_max _ _ _ _ HL) gen start s.2 L (iv_rep _ _ _ _ _ _ _ _ _ _ (ls_inv _ _ _ _ HL)) Hf Hi _ Hb (LogState_last _ _ _ _ HL));
    [unfold reader_fuel, mu; lia | done].
Qed.

Lemma NewReader_spec max o L s id gen start : LogState max o L s → w_faults s.2 = [] → w_nextIndex s.1 < 2 ^ 64 → 0 ≤ start →
  ∃ r, NewReader id (mkReaderOptions gen start) s = (Ok r, (set_readers (w_closed s.1) (<[id := r]> (w_readers s.1)) s.1, s.2)) ∧
    Reading gen start (w_nextIndex s.1) L r (-1) [] ∧ pending L r (-1) [] = outs gen start L.
Proof.
  intros HL Hf Hn Hst. destruct (LogState_idx _ _ _ _ HL Hn) as [Hi Hb].
  pose proof (iv_rep _ _ _ _ _ _ _ _ _ _ (ls_inv _ _ _ _ HL)) as HR. pose proof (ls_next _ _ _ _ HL) as Hn0.
  assert (Hnn : Forall (λ x : ASeg * nat, 0 ≤ a_idx x.1) L).
  { apply Forall_forall. intros x Hx. by destruct (Rep_wf _ _ _ _ HR Hx) as ([? _] & _). }
  set (r0 := fresh_reader (mkReaderOptions gen start)).
  assert (Hr0 : Reading gen start (w_nextIndex s.1) L r0 (-1) []).
  { constructor; cbn; try done; [by rewrite between_none|].
    intros x Hx _ Hxi. rewrite Forall_forall in Hnn. specialize (Hnn x Hx). cbn in Hnn. lia. }
  destruct (rescan_spec max gen start s.2 L HR Hf Hi _ Hb r0 (-1) [] Hr0) as [Hres Hr1].
  eexists. split; [|split; [exact Hr1|]].
  - unfold NewReader. rewrite (iv_closed _ _ _ _ _ _ _ _ _ _ (ls_inv _ _ _ _ HL)). fold r0. rewrite Hres. done.
  - rewrite pending_none. unfold above. rewrite filter_all; [done|].
    eapply Forall_impl; [exact Hnn|]. cbn. intros x Hx. apply Z.ltb_lt. lia.
Qed.

(** At most [k] reads, until one finds nothing. *)
Fixpoint drain (k : nat) (maxRec : Z) (s : Reader * World) : list WalRecord :=
  match k with
  | O => []
  | S k => match TryNext maxRec s with (Ok (Some x), s') => x :: drain k maxRec s' | _ => [] end
  end.

Lemma drain_pending gen start max o L s k r c rest : LogState max o L s → w_faults s.2 = [] → w_nextIndex s.1 < 2 ^ 64 →
  Reading gen start (w_nextIndex s.1) L r c rest → drain k max (r, s.2) = take k (pending L r c rest).
Proof.
  intros HL Hf Hn. revert r c rest. induction k as [|k IH]; intros r c rest Hr; [done|]. cbn [drain].
  destruct (TryNext_spec gen start max o L s r c rest HL Hf Hn Hr) as (out & r' & c' & rest' & -> & Hr' & Hout).
  destruct out as [x|]; [rewrite Hout; cbn; f_equal; by apply IH|]. destruct Hout as [-> _]. by rewrite take_nil.
Qed.

Lemma LogState_readers max o L w W c rs : LogState max o L (w, W) → c = w_closed w → LogState max o L (set_readers c rs w, W).
Proof. intros [[] Ho Hm H38 Hn] ->. by constructor. Qed.

(** A reader opened on a log replays it: for every number [k] of reads, the
    records it returns are the first [k] of the log's records of the reader's
    generation, in the order in which they were appended, the user records from the first
    requested sequence number on and all loss markers; no further record follows. *)
Theorem reader_replays_log max o L s id gen start :
  LogState max o L s → w_faults s.2 = [] → w_nextIndex s.1 < 2 ^ 64 → 0 ≤ start →
  ∃ r s', NewReader id (mkReaderOptions gen start) s = (Ok r, s') ∧
    ∀ k, drain k max (r, s'.2) = take k (outs gen start L).
Proof.
  intros HL Hf Hn Hst. destruct (NewReader_spec max o L s id gen start HL Hf Hn Hst) as (r & Hnew & Hr & Hp).
  eexists r, _. split; [exact Hnew|]. intros k. rewrite <- Hp. exact (drain_pending gen start max o L s k r (-1) [] HL Hf Hn Hr).
Qed.

(** *** Concrete readers *)

Lemma reader_terminates_witness : no_last_index s1.2 ∧ (nextLocked 84 (fresh_reader (mkReaderOptions 1 0), s1.2)).1 ≠ Err ErrReaderFuel.
Proof.
  assert (Hb : no_last_index s1.2).
  { intros n idx Hn Hp. change (w_dir s1.2) with ({["0000000001.seg.INPROGRESS" := 0%nat]} : gmap string nat) in Hn.
    rewrite dom_singleton in Hn. apply elem_of_singleton in Hn as ->. vm_compute in Hp. injection Hp as <-. lia. }
  split; [exact Hb|]. apply (reader_terminates 84 (fresh_reader (mkReaderOptions 1 0)) s1.2). exact Hb.
Defined.

Lemma reader_replays_log_witness : w_faults s1.2 = [] ∧
  ∃ r s', NewReader 0 (mkReaderOptions 1 0) s1 = (Ok r, s') ∧ ∀ k, drain k 84 (r, s'.2) = take k (outs 1 0 [(a1, 0%nat)]).
Proof.
  split; [reflexivity|]. apply (reader_replays_log 84 o0 [(a1, 0%nat)] s1 0 1 0);
    [exact s1_state | reflexivity | vm_compute; reflexivity | lia].
Defined.
