(* ===== verification/WalFollow.v ===== *)
(** * Following a write-ahead log that grows (internal/store/watchtower/wal)

    [TryNext] holds the reader's lock and [Append] the log's, so a read can overlap an append:
    it may find the old segment renamed and the new one not created, a segment whose header
    is not complete, or a record of which only the first bytes were flushed. The model of a
    run therefore interleaves the passes of the reader's loop with appends and with the
    moments inside an append that the directory and the live file show ([in_flight]).

    The theorem: up to its first error a reader delivers the records of its generation in
    order, none lost or repeated. The examples at the end show the errors. *)

From S2P Require Import Prelude WalFrame WalFs Wal WalInv WalSpec WalRecover WalProps WalReader.
Open Scope Z_scope.

(** ** Moments inside an append *)

(** The file [i] with only its first [k] bytes, and the directory without a name. *)
Definition cut (i k : nat) (W : World) : World :=
  with_file i (mkFile (take k (data_of W i)) (length (take k (data_of W i)))) W.
Definition hide (nm : string) (W : World) : World := set_dir (delete nm (w_dir W)) W.

(** What a reader can see between the start [W] and the end [W1] of an append, once the old
    segment is sealed: the new live segment is not there yet ([false]), or the live file has
    [k] bytes, at least those it had before and not all ([true]). *)
Inductive in_flight (W W1 : World) : bool → World → Prop :=
| fl_sealed nm i : is_inprogress nm = true → w_dir W1 !! nm = Some i → w_dir W !! nm = None →
    in_flight W W1 false (hide nm W1)
| fl_write nm i k : is_inprogress nm = true → w_dir W1 !! nm = Some i →
    (length (data_of W i) ≤ k < length (data_of W1 i))%nat → in_flight W W1 true (cut i k W1).

(** Passes of the loop of [nextLocked], each at a moment that satisfies [P]. *)
Inductive passes (max : Z) (P : World → Prop) : Reader → list Pass → Reader → Prop :=
| ps_nil r : passes max P r [] r
| ps_cons W r p s' ps r' : P W → next_pass max (r, W) = (Ok p, s') → passes max P s'.1 ps r' → passes max P r (p :: ps) r'.

(** The records that passes return. *)
Definition returned (p : Pass) : list WalRecord := match p with Return (Some x) => [x] | _ => [] end.
Definition outputs (ps : list Pass) : list WalRecord := mjoin (returned <$> ps).

(** ** Passes at a moment of an append *)

Section moments.
Context (max : Z) (Hmax : bad_max max = false) (gen0 start0 : Z).

(** What the passes of a reader do on a represented directory. *)
Section steady.
Context (W : World) (L : Slots) (HR : Rep max W L) (Hf : w_faults W = []) (Hidx : Forall (λ x, a_idx x.1 < 2 ^ 64 - 1) L)
        (n : Z) (Hbound : Forall (λ x, a_idx x.1 < n) L) (Hlast : ∀ x, x ∈ L → a_live x.1 = true → above (a_idx x.1) L = []).

(** The worlds of [P] give a reader the answers of [W], or an error. *)
Definition mimics (P : World → Prop) : Prop := ∀ W' r c rest p s', P W' → Reading gen0 start0 n L r c rest →
  next_pass max (r, W') = (Ok p, s') → next_pass max (r, W) = (Ok p, (s'.1, W)).

Lemma passes_spec P r ps r' c rest : mimics P → passes max P r ps r' → Reading gen0 start0 n L r c rest →
  ∃ c' rest', Reading gen0 start0 n L r' c' rest' ∧ pending L r c rest = outputs ps ++ pending L r' c' rest'.
Proof.
  intros HP Hps. revert c rest. induction Hps as [r|W' r p s' ps r' HW Hp _ IH]; intros c rest Hr; [by exists c, rest|].
  pose proof (HP _ _ _ _ _ _ HW Hr Hp) as Hp'.
  destruct (next_pass_spec max Hmax gen0 start0 W L HR Hf Hidx n Hbound Hlast r c rest Hr)
    as (p1 & r1 & c1 & rest1 & Hq & Hr1 & Hout). rewrite Hq in Hp'. injection Hp' as -> ->.
  destruct (IH c1 rest1 Hr1) as (c2 & rest2 & Hr2 & Heq). exists c2, rest2. split; [done|].
  unfold outputs in *. destruct p as [|[x|]]; cbn.
  - by rewrite <- Hout, Heq.
  - by rewrite Hout, Heq.
  - destruct Hout as [-> Ho]. by rewrite Ho in Heq.
Qed.
End steady.

(** *** Worlds that differ in one file *)

Definition same_dir (W' W : World) : Prop := w_dir W' = w_dir W ∧ w_faults W' = [] ∧ w_faults W = [].
Definition same_headers (W' W : World) : Prop :=
  ∀ f hdr b', ReadSegmentHeader (data_of W' f) = (Ok hdr, b') → ∃ b, ReadSegmentHeader (data_of W f) = (Ok hdr, b).

Lemma ReadDir_like W' W : same_dir W' W →
  os_ReadDir W' = (Ok (dir_names W'), W') ∧ os_ReadDir W = (Ok (dir_names W'), W).
Proof.
  intros (Hd & Hf' & Hf). rewrite (ReadDir_nf _ Hf'), (ReadDir_nf _ Hf). split; [done|]. unfold dir_names. by rewrite Hd.
Qed.
Lemma Open_like nm W' W : same_dir W' W →
  ∃ res, os_Open nm W' = (res, W') ∧ os_Open nm W = (res, W).
Proof. intros (Hd & Hf' & Hf). eexists. rewrite (Open_nf _ Hf'), (Open_nf _ Hf), Hd. done. Qed.

(** A computation that gives on [W] what it gives on [W']. *)
Definition follows {E A} (W' W : World) (m : M (Reader * World) E A) : Prop := ∀ r x s',
  m (r, W') = (Ok x, s') → s'.2 = W' ∧ m (r, W) = (Ok x, (s'.1, W)).

Lemma follows_bind {E A B} W' W (m : M (Reader * World) E A) (k : A → M (Reader * World) E B) :
  follows W' W m → (∀ a, follows W' W (k a)) → follows W' W (bindM m k).
Proof.
  intros Hm Hk r x s'. unfold bindM. destruct (m (r, W')) as [[a|] [r1 W1]] eqn:Hr; [|done].
  destruct (Hm r a _ Hr) as [Hw ->]. cbn in Hw. subst W1. apply Hk.
Qed.
Lemma follows_ret {E A} W' W (a : A) : follows W' W (ret a : M (Reader * World) E A).
Proof. intros r x s' [= <- <-]. done. Qed.
Lemma follows_err {E A} W' W (e : E) : follows W' W (merr e : M (Reader * World) E A).
Proof. by intros r x s'. Qed.
Lemma follows_reader {E} W' W : follows W' W (mget fst : M (Reader * World) E Reader).
Proof. intros r x s' [= <- <-]. done. Qed.
Lemma follows_put {E} W' W (f : Reader → Reader) : follows W' W (mput (λ s, (f s.1, s.2)) : M (Reader * World) E unit).
Proof. intros r x s' [= <- <-]. done. Qed.
Lemma follows_modify W' W (f : Reader → Reader) : follows W' W (modify f).
Proof. intros r x s' [= <- <-]. done. Qed.
Lemma follows_this {A} W' W (f : Reader → A) : follows W' W (this f).
Proof. intros r x s' [= <- <-]. done. Qed.
Lemma follows_merr_map {E E' A} W' W (g : E → E') (m : M (Reader * World) E A) : follows W' W m → follows W' W (merr_map g m).
Proof.
  intros Hm r x s'. unfold merr_map. destruct (m (r, W')) as [[a|] s1] eqn:Hr; [|done].
  intros [= <- <-]. destruct (Hm r a _ Hr) as [? ->]. done.
Qed.
Lemma follows_ReadDir W' W : same_dir W' W → follows W' W (lift os_ReadDir).
Proof.
  intros Hd r x s'. destruct (ReadDir_like _ _ Hd) as [H1 H2]. unfold lift. cbn [fst snd]. rewrite H1, H2. intros [= <- <-]. done.
Qed.
Lemma follows_tryOpen {E} nm W' W : same_dir W' W → follows W' W (mtry (lift (os_Open nm)) : M (Reader * World) E _).
Proof.
  intros Hd r x s'. destruct (Open_like nm _ _ Hd) as (res & H1 & H2). unfold mtry, lift. cbn [fst snd]. rewrite H1, H2.
  destruct res; intros [= <- <-]; done.
Qed.
#[local] Hint Resolve follows_ret follows_err follows_reader follows_put follows_modify follows_this follows_ReadDir
  follows_tryOpen follows_bind follows_merr_map : follow.

Lemma rescan_follows W' W : same_dir W' W → follows W' W rescanLocked.
Proof. intros Hd. unfold rescanLocked. eauto with follow. Qed.
Lemma demote_follows W' W : same_dir W' W → follows W' W maybeDemoteLiveLocked.
Proof.
  intros Hd. unfold maybeDemoteLiveLocked. apply follows_bind; [auto with follow|]. intros r. destruct (negb _); [auto with follow|].
  apply follows_bind; [auto with follow|]. intros names. destruct (negb _); [auto with follow|].
  apply follows_bind; [auto with follow|]. intros _. apply follows_bind; [by apply rescan_follows|]. auto with follow.
Qed.

Lemma adopt_follows e f live W' W : same_headers W' W → follows W' W (adopt e f live).
Proof.
  intros Hh r x s'. unfold adopt, bindM, mget. cbn [fst snd].
  destruct (ReadSegmentHeader (data_of W' f)) as [[hdr|] b'] eqn:Hr; [|done]. destruct (Hh f hdr b' Hr) as [b ->].
  destruct (negb _); cbn; by intros [= <- <-].
Qed.
Lemma open_follows e W' W : same_dir W' W → same_headers W' W → follows W' W (open_entry e).
Proof.
  intros Hd Hh. unfold open_entry. apply follows_bind; [auto with follow|]. intros [f|[]]; auto using adopt_follows with follow.
  destruct (is_inprogress (e_name e)); [|auto with follow].
  apply follows_bind; [auto with follow|]. intros [f|[]]; auto using adopt_follows with follow.
Qed.
Lemma advance_follows W' W : same_dir W' W → same_headers W' W → follows W' W advance_segment.
Proof.
  intros Hd Hh. unfold advance_segment. apply follows_bind; [auto with follow|]. intros r.
  destruct (r_current r); [auto with follow|]. apply follows_bind.
  { destruct (r_segments r); auto using rescan_follows with follow. }
  intros _. apply follows_bind; [auto with follow|]. intros r1. destruct (r_segments r1) as [|e l]; [auto with follow|].
  apply follows_bind; [apply (follows_put _ _ (λ r, rd_queue l (r_nextScanIdx r) r))|]. intros _.
  apply follows_bind; [by apply open_follows|]. auto with follow.
Qed.

Lemma on_payload_follows payload W' W : follows W' W (on_payload payload).
Proof.
  unfold on_payload. destruct (isLossMarker payload).
  { destruct (decodeLossPayload payload); auto with follow. }
  destruct (parseSeqGen payload) as [[seq gen]|]; [|auto with follow].
  apply follows_bind; [apply (follows_put _ _ (rd_seen seq gen))|]. intros _. apply follows_bind; [auto with follow|].
  intros r. destruct (seq <? r_nextSeq r); [auto with follow|].
  apply follows_bind; [apply (follows_put _ _ (rd_emitted seq))|]. auto with follow.
Qed.
(** What [read_current] does once a record was read. *)
Definition after_read (f off : nat) (res : Result FrameErr bytes) : RdM Pass :=
  do* mput (λ s, (rd_at (Some (f, off)) s.1, s.2)) in
  let* r := mget fst in
  match res with
  | Ok payload => on_payload payload
  | Err ErrEOF =>
      if r_curLive r then
        let* demoted := merr_map ErrReaderOs maybeDemoteLiveLocked in
        ret (if demoted : bool then Again else Return None)
      else
        do* mput (λ s, (rd_at None s.1, s.2)) in ret Again
  | Err ErrCRCMismatch =>
      let from := to_uint64 (r_lastGoodSeq r + 1) in
      let gen := sh_Generation (r_curHdr r) in
      do* mput (λ s, (rd_at None s.1, s.2)) in
      ret (Return (Some (loss_record gen (mkLoss from from gen LossReasonCRCCorruption))))
  | Err e => merr (ErrReaderFrame e)
  end.
Lemma read_current_eq W f off res b r : ReadRecord (drop off (data_of W f)) max = (res, b) →
  read_current max f off (r, W) = after_read f (Nat.max off (length (data_of W f) - length b)) res (r, W).
Proof. intros Hr. unfold read_current. unfold bindM at 1, mget at 1. cbn [snd]. by rewrite Hr. Qed.

(** Reading where both files have the same next record. *)
Lemma read_follows W' W f off res b' b : same_dir W' W →
  ReadRecord (drop off (data_of W' f)) max = (res, b') → ReadRecord (drop off (data_of W f)) max = (res, b) →
  Nat.max off (length (data_of W' f) - length b') = Nat.max off (length (data_of W f) - length b) →
  follows W' W (read_current max f off).
Proof.
  intros Hd H1 H2 Ho r x s'. rewrite (read_current_eq _ _ _ _ _ _ H1), (read_current_eq _ _ _ _ _ _ H2), Ho.
  set (off' := Nat.max _ _). clearbody off'. revert r x s'. change (follows W' W (after_read f off' res)). unfold after_read.
  apply follows_bind; [apply (follows_put _ _ (rd_at (Some (f, off'))))|]. intros _.
  apply follows_bind; [auto with follow|]. intros r.
  destruct res as [payload|[]]; auto using on_payload_follows with follow.
  destruct (r_curLive r); [|auto with follow].
  apply follows_bind; [apply follows_merr_map; by apply demote_follows|]. auto with follow.
Qed.

(** *** The live file while a record is written *)

Lemma data_cut i k W f : data_of (cut i k W) f = if decide (f = i) then take k (data_of W i) else data_of W f.
Proof.
  unfold data_of at 1, file_of, cut, with_file, set_inodes. cbn. case_decide as Hf.
  - subst f. by rewrite lookup_insert_eq.
  - by rewrite lookup_insert_ne.
Qed.

Section writing.
Context (W1 : World) (L0 : Slots) (a : ASeg) (i : nat) (rec : ARec).
Context (HR : Rep max W1 (L0 ++ [(add_rec rec a, i)])) (Hf : w_faults W1 = []).

(** The segment before the record was written. *)
Definition before : World := cut i (length (a_bytes a)) W1.
(** A part of the record is there, or, in a new segment, a part of the header. *)
Definition partly (W' : World) : Prop :=
  ∃ k, W' = cut i k W1 ∧ (k < length (a_bytes (add_rec rec a)))%nat ∧
       ((length (a_bytes a) ≤ k)%nat ∨ ((k < 16)%nat ∧ a_recs a = [])).

Lemma last_wf : seg_wf max a ∧ rec_wf max (a_gen a) rec.
Proof.
  assert (Hin : (add_rec rec a, i) ∈ L0 ++ [(add_rec rec a, i)]) by (apply elem_of_app; right; by apply list_elem_of_singleton).
  destruct (Rep_wf _ _ _ _ HR Hin) as (H1 & H2 & H3 & Hall). cbn in Hall. apply Forall_app in Hall as [H4 Hr].
  exact (conj (conj H1 (conj H2 (conj H3 H4))) (Forall_inv Hr)).
Qed.
Lemma last_data : data_of W1 i = a_bytes a ++ frame (enc (a_gen a) rec).
Proof. rewrite <- a_bytes_add_rec. apply (Rep_data _ _ _ (add_rec rec a, i) HR), elem_of_app. right. by apply list_elem_of_singleton. Qed.
Lemma data_before : data_of before i = a_bytes a.
Proof. unfold before. rewrite data_cut, decide_True by done. by rewrite last_data, take_app_length. Qed.

Lemma Rep_before : Rep max before (L0 ++ [(a, i)]).
Proof.
  eapply (Rep_replace_last max W1 before L0 (add_rec rec a) a i HR); [done|apply last_wf| | |done].
  - symmetry. apply insert_delete_id. exact (dir_last _ _ _ _ HR).
  - unfold before, cut, with_file. cbn. by rewrite last_data, take_app_length.
Qed.

Lemma cut_short k : (length (a_bytes a) ≤ k)%nat →
  take k (data_of W1 i) = a_bytes a ++ take (k - length (a_bytes a)) (frame (enc (a_gen a) rec)).
Proof. intros Hk. rewrite last_data. by rewrite take_app_ge. Qed.

Lemma partly_dir W' : partly W' → same_dir W' before.
Proof. intros (k & -> & _). by split_and!. Qed.
Lemma partly_headers W' : partly W' → same_headers W' before.
Proof.
  intros (k & -> & _ & Hk) f hdr b'. unfold before. rewrite !data_cut. case_decide as Hfi; [subst f|eauto].
  intros Hh. fold before. destruct (decide (k < 16)%nat) as [Hs|Hs].
  - unfold ReadSegmentHeader, ReadFull in Hh. rewrite (proj2 (Nat.leb_gt _ _)) in Hh; [done|].
    rewrite length_take. change (Z.to_nat SegmentHeaderSize) with 16%nat. lia.
  - destruct Hk as [Hk|[? _]]; [|lia]. rewrite (cut_short k Hk), (read_a_bytes max) in Hh by apply last_wf. injection Hh as <- _.
    eexists. rewrite last_data, take_app_length, <- (app_nil_r (a_bytes a)), (read_a_bytes max) by apply last_wf. done.
Qed.

(** The next record of a live segment at the end of what [before] has. *)
Lemma junk_read k : (length (a_bytes a) ≤ k < length (a_bytes (add_rec rec a)))%nat →
  let junk := take (k - length (a_bytes a)) (frame (enc (a_gen a) rec)) in
  ReadRecord junk max = (Err (if decide (junk = []) then ErrEOF else ErrUnexpectedEOF), []).
Proof.
  intros Hk junk. rewrite a_bytes_add_rec, length_app in Hk.
  apply (ReadRecord_torn (enc (a_gen a) rec)); [done|apply last_wf|unfold junk; apply prefix_take|].
  intros He. apply (f_equal length) in He. unfold junk in He. rewrite length_take in He. lia.
Qed.

Section mimic.
Context (n : Z) (Hidx : Forall (λ x, a_idx x.1 < 2 ^ 64 - 1) (L0 ++ [(a, i)]))
        (Hbound : Forall (λ x, a_idx x.1 < n) (L0 ++ [(a, i)]))
        (Hlast : ∀ x, x ∈ L0 ++ [(a, i)] → a_live x.1 = true → above (a_idx x.1) (L0 ++ [(a, i)]) = []).

Lemma read_partly W' r c rest f off p s' : partly W' → Reading gen0 start0 n (L0 ++ [(a, i)]) r c rest →
  r_current r = Some (f, off) → read_current max f off (r, W') = (Ok p, s') →
  read_current max f off (r, before) = (Ok p, (s'.1, before)).
Proof.
  intros HW Hr Hc Hp. pose proof (partly_dir _ HW) as Hd. destruct HW as (k & -> & Hk1 & Hk).
  destruct (decide (f = i)) as [->|Hfi].
  2:{ destruct (ReadRecord (drop off (data_of W1 f)) max) as [res b] eqn:Hres.
      refine (proj2 (read_follows (cut i k W1) before f off res b b Hd _ _ _ r p s' Hp));
        unfold before; by rewrite !data_cut, !decide_False by done. }
  pose proof (rd_cur _ _ _ _ _ _ _ Hr) as Hcur. rewrite Hc in Hcur.
  destruct Hcur as (_ & a' & pre & Hin & _ & _ & Hrecs & Hoff & _).
  assert (a' = a) as ->.
  { assert (Hx : (a', i) = (a, i)); [|by injection Hx].
    apply (NoDup_fmap_inj_elem (λ x : ASeg * nat, x.2) (L0 ++ [(a, i)])); [apply Rep_before|done| |done].
    apply elem_of_app. right. by apply list_elem_of_singleton. }
  assert (Hdrop : drop off (data_of before i) = frames (enc (a_gen a) <$> rest)).
  { rewrite data_before. unfold a_bytes, a_payloads. rewrite Hrecs, fmap_app, frames_app, app_assoc. apply drop_app_length'.
    rewrite length_app, (length_hdr_bytes max) by apply last_wf. lia. }
  assert (Hlen : (off + length (frames (enc (a_gen a) <$> rest)) = length (a_bytes a))%nat).
  { unfold a_bytes, a_payloads. rewrite Hrecs, fmap_app, frames_app, !length_app, (length_hdr_bytes max) by apply last_wf.
    unfold fmap in *. lia. }
  destruct rest as [|rec' rest].
  - cbn in Hdrop, Hlen.
    assert (Hb : ReadRecord (drop off (data_of before i)) max = (Err ErrEOF, [])) by (rewrite Hdrop; unfold ReadRecord; by rewrite Hmax).
    destruct Hk as [Hk|[Hk Hnil]].
    + assert (Hd' : drop off (data_of (cut i k W1) i) = take (k - length (a_bytes a)) (frame (enc (a_gen a) rec))).
      { rewrite data_cut, decide_True, (cut_short k Hk) by done. apply drop_app_length'. lia. }
      pose proof (junk_read k (conj Hk Hk1)) as Hj. cbv zeta in Hj. rewrite <- Hd' in Hj. case_decide as Hnil.
      * refine (proj2 (read_follows (cut i k W1) before i off _ _ _ Hd Hj Hb _ r p s' Hp)).
        cbn. rewrite !Nat.sub_0_r, data_before. apply (f_equal length) in Hnil. cbn in Hnil. rewrite length_drop in Hnil. lia.
      * rewrite (read_current_eq _ _ _ _ _ _ Hj) in Hp. unfold after_read, bindM, mput, mget in Hp. done.
    + refine (proj2 (read_follows (cut i k W1) before i off (Err ErrEOF) [] [] Hd _ Hb _ r p s' Hp)).
      * rewrite data_cut, decide_True by done. rewrite drop_ge; [unfold ReadRecord; by rewrite Hmax|]. rewrite length_take. lia.
      * cbn. rewrite !Nat.sub_0_r, data_cut, decide_True, data_before, length_take by done. lia.
  - destruct Hk as [Hk|[Hk Hnil]]; [|rewrite Hnil in Hrecs; by destruct pre].
    assert (Hrec' : fits max (enc (a_gen a) rec')).
    { destruct last_wf as [(_ & _ & _ & Hall) _]. rewrite Hrecs, Forall_app, Forall_cons in Hall. apply Hall. }
    assert (Hd' : ∀ t, drop off (a_bytes a ++ t) = drop off (a_bytes a) ++ t) by (intros t; apply drop_app_le; cbn in *; lia).
    rewrite data_before in Hdrop. cbn [fmap list_fmap] in Hdrop. rewrite frames_cons in Hdrop.
    refine (proj2 (read_follows (cut i k W1) before i off (Ok (enc (a_gen a) rec')) _ _ Hd _ _ _ r p s' Hp)).
    + rewrite data_cut, decide_True, (cut_short k Hk), Hd', Hdrop, <- app_assoc by done. apply ReadRecord_frame; [done|apply Hrec'].
    + rewrite data_before, Hdrop. apply ReadRecord_frame; [done|apply Hrec'].
    + rewrite data_cut, decide_True, (cut_short k Hk), data_before, !length_app by done. lia.
Qed.

Lemma partly_mimics : mimics before (L0 ++ [(a, i)]) n partly.
Proof.
  intros W' r c rest p s' HW Hr. unfold next_pass. unfold bindM at 1 3.
  pose proof (advance_follows W' before (partly_dir _ HW) (partly_headers _ HW) r) as Hadv.
  destruct (advance_spec max gen0 start0 before _ Rep_before Hf Hidx n Hbound Hlast r c rest Hr)
    as (b & r1 & c1 & rest1 & Ha & Hr1 & _).
  destruct (advance_segment (r, W')) as [[b'|] s1] eqn:Hw; [|done]. destruct (Hadv _ _ eq_refl) as [Hs1 Ha'].
  rewrite Ha in Ha'. injection Ha' as -> ->. rewrite Ha. destruct s1 as [r2 W2]. cbn in Hs1. subst W2.
  destruct b' as [[|]|]; [|by intros [= <- <-]..].
  unfold bindM, mget. cbn [fst]. destruct (r_current r2) as [[f off]|] eqn:Hc; [|by intros [= <- <-]].
  by eapply read_partly.
Qed.
End mimic.
End writing.

(** *** A whole append *)

Lemma passes_mono (P Q : World → Prop) r ps r' : (∀ W, P W → Q W) → passes max P r ps r' → passes max Q r ps r'.
Proof. intros HPQ. induction 1; econstructor; eauto. Qed.

Lemma live_name W1 L0 a i nm j : Rep max W1 (L0 ++ [(a, i)]) → Forall is_sealed_slot L0 →
  is_inprogress nm = true → w_dir W1 !! nm = Some j → nm = a_name a ∧ j = i.
Proof.
  intros HR HS Hnm Hd. rewrite (rep_dir _ _ _ HR) in Hd. apply elem_of_list_to_map_2, list_elem_of_fmap in Hd as (x & [= -> ->] & Hx).
  apply elem_of_app in Hx as [Hx|Hx%list_elem_of_singleton]; [|by subst x].
  rewrite Forall_forall in HS. specialize (HS x Hx). unfold is_sealed_slot in HS. rewrite is_inprogress_a_name in Hnm. congruence.
Qed.

(** The live segment was there before, or is new and empty. *)
Lemma grow_last n L L0 a i : Grow n L (L0 ++ [(a, i)]) →
  (∃ x, x ∈ L ∧ seg_le x (a, i)) ∨ (a_recs a = [] ∧ n ≤ a_idx a ∧ Grow n L L0).
Proof.
  intros (M & N & Heq & HM & HN). destruct N as [|y N _] using rev_ind.
  - left. rewrite app_nil_r in Heq. subst M. apply Forall2_app_inv_r in HM as (L1 & L2 & _ & HL & ->).
    inversion HL as [|x y L2' ? Hx]; subst. exists x. split; [|done]. set_solver.
  - right. rewrite app_assoc in Heq. apply app_inj_tail in Heq as [-> <-]. apply Forall_app in HN as [HN Hy].
    apply Forall_inv in Hy as [? ?]. split_and!; [done|done|]. by exists M, N.
Qed.
Lemma seg_le_bytes x y : seg_le x y → a_bytes x.1 = a_bytes y.1.
Proof.
  intros Hxy. destruct (seg_le_fields _ _ Hxy) as (_ & Hg & Hfl & Hr). unfold a_bytes, a_payloads, a_hdr. by rewrite Hg, Hfl, Hr.
Qed.
Lemma sealed_last L : Forall is_sealed_slot L → ∀ x, x ∈ L → a_live x.1 = true → above (a_idx x.1) L = [].
Proof. intros HS x Hx Hl. rewrite Forall_forall in HS. specialize (HS x Hx). unfold is_sealed_slot in HS. congruence. Qed.
Lemma live_last W L0 a i : Rep max W (L0 ++ [(a, i)]) → Forall is_sealed_slot L0 →
  ∀ x, x ∈ L0 ++ [(a, i)] → a_live x.1 = true → above (a_idx x.1) (L0 ++ [(a, i)]) = [].
Proof.
  intros HR HS x [Hx|Hx%list_elem_of_singleton]%elem_of_app Hl.
  - rewrite Forall_forall in HS. specialize (HS x Hx). unfold is_sealed_slot in HS. congruence.
  - subst x. apply filter_none, Forall_app. split; [|apply Forall_singleton; cbn; apply Z.ltb_irrefl].
    eapply Forall_impl; [exact (last_idx _ _ _ _ HR)|]. cbn. intros y Hy. apply Z.ltb_ge. lia.
Qed.

Section overlap.
Context (W W1 : World) (n n' : Z) (L L0 : Slots) (a : ASeg) (i : nat) (rec : ARec).
Context (HR : Rep max W L) (HR1 : Rep max W1 (L0 ++ [(add_rec rec a, i)])) (Hf : w_faults W1 = []).
Context (HS : Forall is_sealed_slot L0) (Ha : a_live a = true) (HG : Grow n L (L0 ++ [(a, i)])).
Context (Hn : n ≤ n') (Hbound : Forall (λ x, a_idx x.1 < n') (L0 ++ [(a, i)])) (H64 : n' < 2 ^ 64).
Notation L1 := (L0 ++ [(a, i)]).

Lemma overlap_idx : Forall (λ x, a_idx x.1 < 2 ^ 64 - 1) L1.
Proof. eapply Forall_impl; [exact Hbound|]. cbn. lia. Qed.

(** Before the new segment exists. *)
Lemma sealed_passes r c rest ps r1 : Reading gen0 start0 n L r c rest → passes max (in_flight W W1 false) r ps r1 →
  ∃ c' rest', Reading gen0 start0 n' L1 r1 c' rest' ∧ pending L r c rest = outputs ps ++ pending L1 r1 c' rest'.
Proof.
  intros Hr Hps. destruct (grow_last _ _ _ _ _ HG) as [(x & Hx & Hxl)|(Hnil & Hna & HG0)].
  - inversion Hps as [|W' ? ? ? ? ? HW]; subst.
    + destruct (Reading_grow gen0 start0 n n' L L1 r1 c rest Hr HG Hn) as [Hr1 Hp]. exists c, rest. by rewrite Hp.
    + inversion HW as [nm j Hnm Hd Hno|]; subst. destruct (live_name _ _ _ _ _ _ HR1 HS Hnm Hd) as [-> _].
      destruct (seg_le_fields _ _ Hxl) as (Hi & _). destruct Hxl as (_ & _ & Hl). cbn in Hi, Hl.
      pose proof (Rep_lookup _ _ _ _ HR Hx) as Hlook. unfold a_name in Hlook, Hno. cbn in Hno. rewrite (Hl Ha), Hi in Hlook.
      rewrite Ha in Hno. congruence.
  - pose proof (Rep_remove max W1 L0 (add_rec rec a, i) [] HR1) as HR0. rewrite app_nil_r in HR0. cbn in HR0.
    set (Wh := hide (a_name a) W1) in *.
    destruct (Reading_grow gen0 start0 n (a_idx a) L L0 r c rest Hr HG0 Hna) as [Hr0 Hp0].
    assert (Hb0 : Forall (λ x, a_idx x.1 < a_idx a) L0) by exact (last_idx _ _ _ _ HR1).
    assert (Hi0 : Forall (λ x, a_idx x.1 < 2 ^ 64 - 1) L0) by (pose proof overlap_idx as Hi; by apply Forall_app in Hi as [? _]).
    destruct (passes_spec Wh L0 HR0 Hf Hi0 (a_idx a) Hb0 (sealed_last _ HS) (in_flight W W1 false) r ps r1 c rest)
      as (c1 & rest1 & Hr1 & Heq); [|done|done|].
    { intros W' r' c' rest' p s' HW Hr' Hp. inversion HW as [nm j Hnm Hd _|]; subst.
      destruct (live_name _ _ _ _ _ _ HR1 HS Hnm Hd) as [-> _]. change (hide (a_name (add_rec rec a)) W1) with Wh in Hp.
      destruct (next_pass_spec max Hmax gen0 start0 Wh L0 HR0 Hf Hi0 (a_idx a) Hb0 (sealed_last _ HS) r' c' rest' Hr')
        as (p1 & r2 & ? & ? & Hq & _). rewrite Hq in Hp. injection Hp as <- <-. done. }
    destruct (Reading_grow gen0 start0 (a_idx a) n' L0 L1 r1 c1 rest1 Hr1) as [Hr2 Hp2].
    + exists L0, [(a, i)]. split_and!; [done|apply seg_le_refl|]. apply Forall_singleton. cbn. split; [done|lia].
    + apply Forall_app in Hbound as [_ Hb]. apply Forall_inv in Hb. cbn in Hb. lia.
    + exists c1, rest1. split; [done|]. by rewrite <- Hp0, Heq, Hp2.
Qed.

(** While the live file grows. *)
Lemma flight_partly W' : in_flight W W1 true W' → partly W1 a i rec W'.
Proof.
  inversion 1 as [|nm j k Hnm Hd Hk]; subst. destruct (live_name _ _ _ _ _ _ HR1 HS Hnm Hd) as [-> ->].
  rewrite (last_data W1 L0 a i rec HR1), <- a_bytes_add_rec in Hk. exists k. split_and!; [done|lia|].
  destruct (grow_last _ _ _ _ _ HG) as [(x & Hx & Hxl)|(Hnil & _ & _)].
  - left. pose proof (Rep_data _ _ _ _ HR Hx) as Hdx. pose proof (seg_le_bytes _ _ Hxl) as Hb.
    destruct Hxl as (Hx2 & _). cbn in Hx2, Hb. rewrite Hx2, Hb in Hdx. rewrite Hdx in Hk. lia.
  - destruct (decide (length (a_bytes a) ≤ k)%nat) as [|Hlt]; [by left|]. right. split; [|done].
    unfold a_bytes, a_payloads in Hlt. rewrite Hnil in Hlt. cbn in Hlt. rewrite app_nil_r, (length_hdr_bytes max) in Hlt; [lia|].
    apply (last_wf W1 L0 a i rec HR1).
Qed.

Lemma overlap_spec r c rest ps1 r1 ps2 r2 : Reading gen0 start0 n L r c rest →
  passes max (in_flight W W1 false) r ps1 r1 → passes max (in_flight W W1 true) r1 ps2 r2 →
  ∃ c' rest', Reading gen0 start0 n' L1 r2 c' rest' ∧ pending L r c rest = outputs (ps1 ++ ps2) ++ pending L1 r2 c' rest'.
Proof.
  intros Hr H1 H2. destruct (sealed_passes r c rest ps1 r1 Hr H1) as (c1 & rest1 & Hr1 & ->).
  pose proof (Rep_before W1 L0 a i rec HR1) as HRb. apply (passes_mono _ _ _ _ _ flight_partly) in H2.
  destruct (passes_spec (before W1 a i) L1 HRb Hf overlap_idx n' Hbound (live_last _ _ _ _ HRb HS)
    (partly W1 a i rec) r1 ps2 r2 c1 rest1)
    as (c2 & rest2 & Hr2 & ->); [|done|done|].
  - apply (partly_mimics W1 L0 a i rec HR1 Hf n' overlap_idx Hbound (live_last _ _ _ _ HRb HS)).
  - exists c2, rest2. split; [done|]. unfold outputs. by rewrite fmap_app, join_app, app_assoc.
Qed.
End overlap.
End moments.

(** ** Runs *)

(** The reader as its passes left it, with the notification of the append. *)
Definition rd_notified (b : bool) (r : Reader) : Reader :=
  mkReader b (r_segments r) (r_current r) (r_curHdr r) (r_curIdx r) (r_curLive r) (r_nextScanIdx r) (r_lastGoodSeq r)
           (r_lastGoodGen r) (r_lastGoodGenSet r) (r_nextSeq r) (r_readerGen r) (r_lastEmittedSeq r) (r_closed r).
Definition rejoin (id : nat) (r : Reader) (s : WAL * World) : WAL * World :=
  let b := match w_readers s.1 !! id with Some r1 => r_notify r1 | None => false end in
  (set_readers (w_closed s.1) (<[id := rd_notified b r]> (w_readers s.1)) s.1, s.2).

(** A pass of the reader between appends, or an append with the passes that overlap it. *)
Inductive rd_event := RdPass (p : Pass) | RdAppend (q gen : Z) (p : bytes) (during : list Pass).

Inductive rd_run (max : Z) (o : Options) (id : nat) : WAL * World → list rd_event → WAL * World → Prop :=
  | rr_nil s : rd_run max o id s [] s
  | rr_pass s p s1 es s2 : on_reader id (next_pass max) s = (Ok p, s1) → rd_run max o id s1 es s2 →
      rd_run max o id s (RdPass p :: es) s2
  | rr_append s q gen p b s1 r ps1 r1 ps2 r2 es s2 : over_budget s.1 = false → w_nextIndex s.1 + 3 < 2 ^ 64 →
      (∀ L, LogState max o L s → Appendable max L q gen p) → Append q gen p s = (Ok b, s1) →
      w_readers s.1 !! id = Some r →
      passes max (in_flight s.2 s1.2 false) r ps1 r1 → passes max (in_flight s.2 s1.2 true) r1 ps2 r2 →
      rd_run max o id (rejoin id r2 s1) es s2 → rd_run max o id s (RdAppend q gen p (ps1 ++ ps2) :: es) s2.

Definition emitted (es : list rd_event) : list WalRecord :=
  mjoin ((λ e, match e with RdPass p => returned p | RdAppend _ _ _ ps => outputs ps end) <$> es).
Definition appended (gen start : Z) (es : list rd_event) : list WalRecord :=
  omap (λ e, match e with RdAppend q g p _ => if g =? gen then deliver gen start (AUser q p) else None | RdPass _ => None end) es.

Record Following (max : Z) (o : Options) (id : nat) (gen start : Z) (s : WAL * World) (P : list WalRecord) : Prop := mkFollowing {
  fo_ok : w_faults s.2 = [] ∧ w_nextIndex s.1 < 2 ^ 64;
  fo_log : ∃ L r c rest, LogState max o L s ∧ w_readers s.1 !! id = Some r ∧ Reading gen start (w_nextIndex s.1) L r c rest ∧
             pending L r c rest = P;
}.

Lemma Following_pass max o id gen start s P p s1 : Following max o id gen start s P → on_reader id (next_pass max) s = (Ok p, s1) →
  ∃ P', Following max o id gen start s1 P' ∧ P = returned p ++ P' ∧ (p = Return None → P' = []).
Proof.
  intros [[Hf Hn] (L & r & c & rest & HL & Hid & Hr & HP)] Hnext. unfold on_reader in Hnext. rewrite Hid in Hnext.
  destruct (LogState_idx _ _ _ _ HL Hn) as [Hi Hb].
  destruct (next_pass_spec max (ls_max _ _ _ _ HL) gen start s.2 L (iv_rep _ _ _ _ _ _ _ _ _ _ (ls_inv _ _ _ _ HL)) Hf Hi _ Hb
    (LogState_last _ _ _ _ HL) r c rest Hr) as (p' & r' & c' & rest' & Ht & Hr' & Hout).
  rewrite Ht in Hnext. injection Hnext as <- <-. exists (pending L r' c' rest'). split_and!.
  - constructor; [done|]. exists L, r', c', rest'. destruct s as [w W].
    split_and!; [by apply LogState_readers | cbn; by rewrite lookup_insert_eq | done..].
  - subst P. destruct p' as [|[x|]]; cbn; [done..|]. by destruct Hout as [-> ->].
  - subst P. intros ->. by destruct Hout.
Qed.

Lemma Reading_notified gen start n L r c rest b : Reading gen start n L r c rest →
  Reading gen start n L (rd_notified b r) c rest ∧ pending L (rd_notified b r) c rest = pending L r c rest.
Proof. intros []. split; [by constructor | done]. Qed.

Lemma Following_append max o id gen start s P q g p b s1 r ps1 r1 ps2 r2 : Following max o id gen start s P →
  over_budget s.1 = false → w_nextIndex s.1 + 3 < 2 ^ 64 → (∀ L, LogState max o L s → Appendable max L q g p) →
  Append q g p s = (Ok b, s1) → w_readers s.1 !! id = Some r →
  passes max (in_flight s.2 s1.2 false) r ps1 r1 → passes max (in_flight s.2 s1.2 true) r1 ps2 r2 →
  ∃ P', P = outputs (ps1 ++ ps2) ++ P' ∧
    Following max o id gen start (rejoin id r2 s1) (P' ++ option_list (if g =? gen then deliver gen start (AUser q p) else None)).
Proof.
  intros [[Hf Hn] (L & r0 & c & rest & HL & Hid & Hr & HP)] Hov Hn3 Hap Happ Hid' Hp1 Hp2.
  rewrite Hid in Hid'. injection Hid' as ->.
  destruct (Hap L HL) as [Hg Hq Hqs Hp Hord]. pose proof (LogState_upto _ _ _ _ _ _ 0 HL Hord) as HI.
  destruct HL as [_ Ho Hmax H38 Hn0]. pose proof Ho as (_ & Hsz & Hmode).
  assert (Ht : triple (λ s0, Inv max o (ack_of s.1) 0 false None (upto g q) (w_nextIndex s.1) L s0 ∧ over_budget s0.1 = false) (Append q g p)
    (λ _, Placed max o (ack_of s.1) 0 false None (upto g q) (w_nextIndex s.1) L q g p) (λ _, True)).
  { apply t_Append_within; try done; unfold upto; [by intros u p' Hu; apply Hu | lia]. }
  specialize (Ht s (conj HI Hov)). rewrite Happ in Ht.
  destruct Ht as [(n' & L0 & a & i & HI' & Hga & H1 & H2 & _ & HS & Ha & _ & HG) Hf'].
  pose proof (iv_next _ _ _ _ _ _ _ _ _ _ HI') as Hn'. pose proof (iv_rep _ _ _ _ _ _ _ _ _ _ HI') as HR1.
  assert (Hb : Forall (λ x, a_idx x.1 < n') (L0 ++ [(a, i)])).
  { pose proof (iv_idx _ _ _ _ _ _ _ _ _ _ HI') as Hb. apply Forall_app in Hb as [Hb0 Hb1]. apply Forall_app. split; [done|].
    apply Forall_inv in Hb1. by apply Forall_singleton. }
  destruct (overlap_spec max Hmax gen start s.2 s1.2 (w_nextIndex s.1) n' L L0 a i (AUser q p) (iv_rep _ _ _ _ _ _ _ _ _ _ HI) HR1
    (Hf' Hf) HS Ha HG H1 Hb ltac:(lia) r c rest ps1 r1 ps2 r2 Hr Hp1 Hp2) as (c2 & rest2 & Hr2 & Heq).
  exists (pending (L0 ++ [(a, i)]) r2 c2 rest2). split; [by rewrite <- HP|].
  set (b' := match w_readers s1.1 !! id with Some r1 => r_notify r1 | None => false end).
  destruct (Reading_notified gen start _ _ _ _ _ b' Hr2) as [Hr3 HP3].
  destruct (Reading_add max gen start n' _ L0 a i (AUser q p) _ c2 rest2 HR1 Ha Hr3) as (rest4 & Hr4 & HP4).
  constructor; [split; [by apply Hf' | cbn; lia]|]. exists (L0 ++ [(add_rec (AUser q p) a, i)]), (rd_notified b' r2), c2, rest4.
  split_and!.
  - destruct s1 as [w1 W1]. apply LogState_readers; [|done]. eapply Inv_LogState; [exact HI' | done.. | lia].
  - cbn. by rewrite lookup_insert_eq.
  - cbn. by rewrite Hn'.
  - rewrite HP4, HP3. f_equal. destruct (rd_opts _ _ _ _ _ _ _ Hr4) as [-> ->]. rewrite Hga. by destruct (g =? gen).
Qed.

Lemma Following_run max o id gen start s es s' P : rd_run max o id s es s' → Following max o id gen start s P →
  ∃ P', Following max o id gen start s' P' ∧ P ++ appended gen start es = emitted es ++ P' ∧
        (last es = Some (RdPass (Return None)) → P' = []).
Proof.
  intros Hrun. revert P.
  induction Hrun as [s|s p s1 es s2 Hnext _ IH|s q g p b s1 r ps1 r1 ps2 r2 es s2 Hov Hn Hap Happ Hid Hp1 Hp2 _ IH]; intros P HP.
  - exists P. split_and!; [done | by rewrite app_nil_r | done].
  - destruct (Following_pass _ _ _ _ _ _ _ _ _ HP Hnext) as (P1 & HP1 & -> & Hnone).
    destruct (IH P1 HP1) as (P2 & HP2 & Heq & Hlast). exists P2. split_and!; [done | |].
    + unfold emitted, appended in *. cbn. rewrite <- !app_assoc. f_equal. exact Heq.
    + rewrite last_cons. destruct (last es) eqn:Hes; [exact Hlast|]. intros [= ->]. apply last_None in Hes. subst es.
      unfold emitted, appended in Heq. cbn in Heq. rewrite app_nil_r in Heq. rewrite <- Heq. by apply Hnone.
  - destruct (Following_append _ _ _ _ _ _ _ _ _ _ _ _ _ _ _ _ _ HP Hov Hn Hap Happ Hid Hp1 Hp2) as (P1 & -> & HP1).
    destruct (IH _ HP1) as (P2 & HP2 & Heq & Hlast). exists P2. split_and!; [done | |].
    + unfold emitted, appended in *. cbn. rewrite <- !app_assoc. f_equal. etrans; [|exact Heq]. rewrite <- app_assoc. f_equal.
      destruct (if g =? gen then _ else _); done.
    + rewrite last_cons. destruct (last es); [exact Hlast | done].
Qed.

(** [TryNext] between appends is the passes up to the first that returns. *)
Lemma next_loop_run max o id fuel s r s2 out s1 es :
  w_readers s.1 !! id = Some r → next_loop fuel max (r, s.2) = (Ok out, s1) →
  rd_run max o id (set_readers (w_closed s.1) (<[id := s1.1]> (w_readers s.1)) s.1, s1.2) es s2 →
  ∃ ps, rd_run max o id s ((RdPass <$> ps) ++ RdPass (Return out) :: es) s2 ∧ Forall (λ p, p = Again) ps.
Proof.
  revert s r. induction fuel as [|fuel IH]; intros s r Hid Hl Hrun; [done|]. cbn [next_loop] in Hl. unfold bindM in Hl.
  destruct (next_pass max (r, s.2)) as [[p|] [r1 W1]] eqn:Hp; [|done].
  assert (Hon : on_reader id (next_pass max) s =
    (Ok p, (set_readers (w_closed s.1) (<[id := r1]> (w_readers s.1)) s.1, W1))) by (unfold on_reader; by rewrite Hid, Hp).
  destruct p as [|out'].
  - destruct (IH (set_readers (w_closed s.1) (<[id := r1]> (w_readers s.1)) s.1, W1) r1) as (ps & Hps & Hall).
    + cbn. by rewrite lookup_insert_eq.
    + done.
    + cbn. rewrite insert_insert_eq. done.
    + exists (Again :: ps). split; [|by constructor]. cbn. by eapply rr_pass.
  - injection Hl as <- <-. exists []. split; [|done]. cbn. by eapply rr_pass.
Qed.
Lemma TryNext_run max o id s out s1 es s2 : on_reader id (TryNext max) s = (Ok out, s1) → rd_run max o id s1 es s2 →
  ∃ ps, rd_run max o id s ((RdPass <$> ps) ++ RdPass (Return out) :: es) s2 ∧ Forall (λ p, p = Again) ps.
Proof.
  unfold on_reader. destruct (w_readers s.1 !! id) as [r|] eqn:Hid; [|done]. unfold TryNext, bindM, mget. cbn [fst].
  destruct (r_closed r); [done|]. destruct (nextLocked max (r, s.2)) as [[o1|] s'] eqn:Hl; [|by destruct s'].
  destruct s' as [r' W']. intros [= <- <-] Hrun. by eapply (next_loop_run _ _ _ _ _ _ _ _ (r', W')).
Qed.

(** C8. A reader that follows a log while records are appended to it delivers a first-in
    first-out queue up to its first error. In any interleaving of passes of the reader's loop
    with successful appends within the budget, each append possibly overlapped by passes
    that see the old segment sealed and the new one missing, a part of the new segment's
    header or a part of the record, every pass that returns without an error keeps the
    order: the records delivered so far are a prefix of the log's records at the time the
    reader was opened followed by the records appended since, of its generation and from its
    first sequence number on; nothing is lost, repeated or reordered, and a pass between
    appends finds nothing only when everything has been delivered. Appended records fit, with
    sequence numbers and generations not below those of the log ([Appendable]), and no file
    operation fails. *)
Theorem reader_fifo max o L s id gen start r s1 es s2 :
  LogState max o L s → w_faults s.2 = [] → w_nextIndex s.1 < 2 ^ 64 → 0 ≤ start →
  NewReader id (mkReaderOptions gen start) s = (Ok r, s1) → rd_run max o id s1 es s2 →
  ∃ rest, outs gen start L ++ appended gen start es = emitted es ++ rest ∧
          (last es = Some (RdPass (Return None)) → rest = []).
Proof.
  intros HL Hf Hn Hst Hnew Hrun.
  destruct (NewReader_spec max o L s id gen start HL Hf Hn Hst) as (r' & Hnew' & Hr & Hp). rewrite Hnew in Hnew'. injection Hnew' as <- ->.
  assert (HF : Following max o id gen start (set_readers (w_closed s.1) (<[id := r]> (w_readers s.1)) s.1, s.2) (outs gen start L)).
  { constructor; [done|]. exists L, r, (-1), []. destruct s as [w W].
    split_and!; [by apply LogState_readers | cbn; by rewrite lookup_insert_eq | done..]. }
  destruct (Following_run _ _ _ _ _ _ _ _ _ Hrun HF) as (P & _ & Heq & Hlast). by exists P.
Qed.

(** ** Concrete runs *)

(** The reader of [s1]; its first pass returns the only record. A second record does not fit
    in the segment and starts a new one. *)
Definition new1 : Result ReaderErr Reader * (WAL * World) := Eval vm_compute in NewReader 0 (mkReaderOptions 1 0) s1.
Definition pass1 := Eval vm_compute in on_reader 0 (next_pass 84) new1.2.
Definition reader1 : Reader := Eval vm_compute in default (fresh_reader (mkReaderOptions 1 0)) (w_readers pass1.2.1 !! 0%nat).
Definition roll1 := Eval vm_compute in Append 2 1 big pass1.2.
Definition newName : string := "0000000002.seg.INPROGRESS".

(** Passes while the old segment is sealed and the new one missing: the reader notices, closes
    its file and finds nothing; then one when the new segment has just its header. *)
Definition W_sealed : World := Eval vm_compute in hide newName roll1.2.2.
Definition W_header : World := Eval vm_compute in cut 1 16 roll1.2.2.
Definition look1 := Eval vm_compute in next_pass 84 (reader1, W_sealed).
Definition look2 := Eval vm_compute in next_pass 84 (look1.2.1, W_sealed).
Definition look3 := Eval vm_compute in next_pass 84 (look2.2.1, W_sealed).
Definition look4 := Eval vm_compute in next_pass 84 (look3.2.1, W_header).
Definition joined : WAL * World := Eval vm_compute in rejoin 0 look4.2.1 roll1.2.
Definition pass2 := Eval vm_compute in on_reader 0 (next_pass 84) joined.
Definition pass3 := Eval vm_compute in on_reader 0 (next_pass 84) pass2.2.

Definition history : list rd_event :=
  [RdPass (Return (Some (data_record 1 1 p0))); RdAppend 2 1 big ([Again; Again; Return None] ++ [Return None]);
   RdPass (Return (Some (data_record 2 1 big))); RdPass (Return None)].

Lemma pass1_state : LogState 84 o0 [(a1, 0%nat)] pass1.2.
Proof. apply (LogState_readers 84 o0 [(a1, 0%nat)] s1.1 s1.2 false (w_readers pass1.2.1)); [exact s1_state|reflexivity]. Qed.

Lemma reader_fifo_witness :
  rd_run 84 o0 0 new1.2 history pass3.2 ∧ emitted history = [data_record 1 1 p0; data_record 2 1 big] ∧
  ∃ rest, outs 1 0 [(a1, 0%nat)] ++ appended 1 0 history = emitted history ++ rest ∧
          (last history = Some (RdPass (Return None)) → rest = []).
Proof.
  assert (Hrun : rd_run 84 o0 0 new1.2 history pass3.2).
  { apply (rr_pass _ _ _ _ _ pass1.2); [vm_compute; reflexivity|].
    destruct roll1.1 as [b|e] eqn:Hb; [|vm_compute in Hb; discriminate Hb].
    apply (rr_append _ _ _ pass1.2 2 1 big b roll1.2 reader1 _ look3.2.1 _ look4.2.1).
    - vm_compute. reflexivity.
    - vm_compute. reflexivity.
    - intros L HL. rewrite (LogState_unique _ _ _ _ _ HL pass1_state). constructor; [by vm_compute|lia|by vm_compute|cbn; lia|].
      intros q' p' (x & Hx & _ & Hr). apply list_elem_of_singleton in Hx as ->. cbn in Hr. apply list_elem_of_singleton in Hr as [= -> ->]. lia.
    - rewrite <- Hb. vm_compute. reflexivity.
    - vm_compute. reflexivity.
    - assert (Hw : in_flight pass1.2.2 roll1.2.2 false W_sealed)
        by (assert (E : W_sealed = hide newName roll1.2.2) by (vm_compute; reflexivity); rewrite E;
            apply (fl_sealed _ _ newName 1); vm_compute; reflexivity).
      apply (ps_cons _ _ W_sealed _ _ look1.2); [exact Hw|vm_compute; reflexivity|].
      apply (ps_cons _ _ W_sealed _ _ look2.2); [exact Hw|vm_compute; reflexivity|].
      apply (ps_cons _ _ W_sealed _ _ look3.2); [exact Hw|vm_compute; reflexivity|constructor].
    - apply (ps_cons _ _ W_header _ _ look4.2); [|vm_compute; reflexivity|constructor].
      assert (E : W_header = cut 1 16 roll1.2.2) by (vm_compute; reflexivity). rewrite E.
      apply (fl_write _ _ newName 1 16); [vm_compute; reflexivity|vm_compute; reflexivity|]. vm_compute. lia.
    - assert (E : rejoin 0 look4.2.1 roll1.2 = joined) by (vm_compute; reflexivity). rewrite E.
      apply (rr_pass _ _ _ _ _ pass2.2); [vm_compute; reflexivity|].
      apply (rr_pass _ _ _ _ _ pass3.2); [vm_compute; reflexivity|]. constructor. }
  split; [exact Hrun|]. split; [vm_compute; reflexivity|].
  destruct new1.1 as [r|e] eqn:Hn; [|discriminate Hn].
  apply (reader_fifo 84 o0 [(a1, 0%nat)] s1 0 1 0 r new1.2 history pass3.2);
    [exact s1_state | reflexivity | vm_compute; reflexivity | lia | | exact Hrun].
  rewrite <- Hn. vm_compute. reflexivity.
Defined.

(** A read that overlaps an append can fail, and the reader is then of no use: the handle is
    inside the record, so that once the append is complete it reads the rest of the record
    as a frame of its own. *)
Definition append2 := Eval vm_compute in Append 2 1 p0 pass1.2.
Example torn_read_fails :
  let torn := next_pass 84 (reader1, cut 0 50 append2.2.2) in
  torn.1 = Err (ErrReaderFrame ErrUnexpectedEOF) ∧
  r_current torn.2.1 = Some (0%nat, 50%nat) ∧
  (next_pass 84 (torn.2.1, append2.2.2)).1 ≠ Ok (Return (Some (data_record 2 1 p0))).
Proof. vm_compute. done. Qed.

(** A new segment whose header is not complete is taken from the queue with the error: when
    the append is complete its record is never delivered. *)
Example torn_header_skips_segment :
  let torn := next_pass 84 (look3.2.1, cut 1 10 roll1.2.2) in
  torn.1 = Err (ErrReaderHeader ErrHeaderRead) ∧
  drain 10 84 (look3.2.1, roll1.2.2) = [data_record 2 1 big] ∧
  drain 10 84 (torn.2.1, roll1.2.2) = [].
Proof. vm_compute. done. Qed.
