(* ===== verification/WalIndex.v ===== *)
(** * The per-generation index of the write-ahead log

    wal.go keeps, beside the segments, the highest user sequence number of each
    generation, the generations that have anything to replay and the generation of the
    last append. The transport decides from these which acknowledgements to believe and
    what to replay, so they have to agree with the segments.

    The theorem: on a file system that does not fail, any sequence of appends with
    generations that do not decrease, acknowledgements and restarts keeps the index
    complete, and the queries answer for every record that is on disk. *)

From S2P Require Import Prelude WalFrame WalFs Wal WalInv WalSpec WalRecover WalProps.
Open Scope Z_scope.

(** An open log without faults whose index is complete. *)
Record Indexed (max : Z) (o : Options) (L : Slots) (s : WAL * World) : Prop := mkIndexed {
  ix_log : LogState max o L s;
  ix_nofault : w_faults s.2 = [];
  ix_counts : Counted (w_highGen s.1) L s.1;
}.

Lemma Counted_top top top' L w : top ≤ top' → Counted top L w → Counted top' L w.
Proof. intros Ht [Ho Hg Hb Hd Ha]. constructor; try done. eapply Forall_impl; [exact Hb|]. cbn. lia. Qed.

(** The invariant of the proofs about the log, with the index. *)
Lemma Indexed_Inv max o L s gen q : LogState max o L s → w_faults s.2 = [] → (∀ q' p, has_rec L gen (AUser q' p) → q' ≤ q) →
  Counted gen L s.1 →
  Inv max o (ack_of s.1) (w_totalBytes s.1 + 16 * w_nextIndex s.1 - disk_bytes L) true (Some gen) (upto gen q) (w_nextIndex s.1) L s.
Proof. intros HL Hf Hq HC. destruct (LogState_exact _ _ _ _ _ _ HL Hf Hq). constructor; try done. by intros _ top [= <-]. Qed.

(** ** Operations that leave a field *)

Section same_field.
Context {X : Type} (f : WAL → X).

Definition same_field {E A} (m : WalM E A) : Prop := ∀ s, f (m s).2.1 = f s.1.

Lemma same_bind {E A B} (m : WalM E A) (k : A → WalM E B) : same_field m → (∀ a, same_field (k a)) → same_field (bindM m k).
Proof. intros Hm Hk s. unfold bindM. specialize (Hm s). destruct (m s) as [[a|e] s1]; [|done]. by rewrite Hk. Qed.
Lemma same_lift {A} (m : Os A) : same_field (lift m : WalM OsErr A).
Proof. intros [w W]. unfold lift. cbn. by destruct (m W). Qed.
Lemma same_try {E E' A} (m : WalM E A) : same_field m → same_field (mtry m : WalM E' _).
Proof. intros Hm s. apply Hm. Qed.
Lemma same_get {E A} (g : WAL * World → A) : same_field (mget g : WalM E A).
Proof. by intros s. Qed.
Lemma same_ret {E A} (a : A) : same_field (ret a : WalM E A).
Proof. by intros s. Qed.
Lemma same_put {E} (g : WAL * World → WAL * World) : (∀ s, f (g s).1 = f s.1) → same_field (mput g : WalM E unit).
Proof. intros Hg s. apply Hg. Qed.

(** The field is independent of the counters that garbage collection updates. *)
Context (Hgens : ∀ d a w, f (set_gens d a w) = f w) (Htotal : ∀ n w, f (add_total n w) = f w).

Lemma same_prune {E} : same_field (prunePerGenMapsLocked : WalM E unit).
Proof.
  intros [w W]. unfold prunePerGenMapsLocked. cbn [fst snd]. destruct (os_ReadDir W) as [[names|e] W1]; [|done].
  destruct (surviving_gens names ∅ W1) as [[g|e] W2]; [apply Hgens | done].
Qed.

Ltac same_rules := repeat first
  [ apply same_bind; [|intros ?] | apply same_lift | apply same_try | apply same_prune | apply same_get | apply same_ret
  | apply same_put; intros ?; solve [apply Htotal | auto] | solve [auto]
  | match goal with |- same_field (match ?x with _ => _ end) => destruct x end ].

Lemma same_mark_loop l r : same_field (mark_acked_loop l r).
Proof. revert r. induction l as [|e l IH]; intros r; cbn [mark_acked_loop]; unfold remove_counted, this, modify; same_rules. Qed.

(** Acknowledging changes the watermark, whether or not it succeeds. *)
Lemma MarkAcked_field gen seq s :
  f (MarkAcked gen seq s).2.1 = f (if ack_advances s.1 gen seq then set_ack gen seq s.1 else s.1).
Proof.
  unfold MarkAcked. set (w := if ack_advances s.1 gen seq then set_ack gen seq s.1 else s.1).
  change (f w) with (f (w, s.2).1). unfold bindM at 1, modify at 1, mput at 1. cbn [fst snd]. fold w.
  match goal with |- f (?m (w, s.2)).2.1 = _ => assert (Hm : same_field m) end; [|apply Hm].
  pose proof same_mark_loop. unfold this. same_rules.
Qed.
End same_field.

Lemma MarkAcked_high gen seq s : w_highGen (MarkAcked gen seq s).2.1 = w_highGen s.1.
Proof. rewrite (MarkAcked_field w_highGen) by done. by destruct (ack_advances s.1 gen seq). Qed.

Lemma MarkAcked_ack gen seq s : ack_of (MarkAcked gen seq s).2.1 = new_ack (ack_of s.1) gen seq.
Proof.
  rewrite (MarkAcked_field ack_of) by done. unfold ack_advances, new_ack. cbn. by destruct (_ || _).
Qed.

(** An append that succeeds sets it. *)
Lemma Append_high q gen p s b s' : Append q gen p s = (Ok b, s') → w_highGen s'.1 = gen.
Proof.
  unfold Append, bindM at 1, mget. destruct (w_closed s.1); [done|]. destruct (w_fatalErr s.1); [done|].
  destruct (_ <? _); [done|]. unfold bindM at 1. destruct (reclaim gen s) as [[[]|e] s1]; [|done].
  unfold append_record. unfold bindM at 1. destruct (roll_generation gen s1) as [[r|e] s2]; [|done].
  unfold bindM at 1. destruct (open_first gen s2) as [[[]|e] s3]; [|done].
  unfold bindM at 1. destruct (roll_full gen p s3) as [[[]|e] s4]; [|done].
  unfold bindM at 1. destruct (ambiguous "write-record" _ s4) as [[[]|e] s5]; [|done].
  destruct (o_SyncMode (w_opts s.1)); [unfold bindM at 1; destruct (ambiguous "sync" _ s5) as [[[]|e] s6]; [|done]|];
    unfold bindM, mput, ret; by intros [= _ <-].
Qed.

(** ** Preservation *)

(** The records of the log before an append, and the new one. *)
Definition grown (L : Slots) (q gen : Z) (p : bytes) (g u : Z) (p' : bytes) : Prop :=
  has_rec L g (AUser u p') ∨ (g = gen ∧ u = q ∧ p' = p).

Lemma Inv_grown max o k c0 nf gt n L s q gen p : Inv max o k c0 nf gt (upto gen q) n L s →
  Inv max o k c0 nf gt (λ g u p', upto gen q g u p' ∧ grown L q gen p g u p') n L s.
Proof.
  intros [H1 H2 H3 H4 H5 H6 H7 H8 H9 Hus H11 H12 H13]. constructor; try done. rewrite Forall_forall in Hus. apply Forall_forall.
  intros x Hx. destruct (Hus x Hx) as [Hs HU]. split; [done|]. rewrite Forall_forall in HU. apply Forall_forall.
  intros [u p'|l] Hr; [|done]. split; [exact (HU (AUser u p') Hr)|]. left. by exists x.
Qed.

Lemma Indexed_append_exact max o L s q gen p : Indexed max o L s → w_nextIndex s.1 + 4 < 2 ^ 64 → Appendable max L q gen p →
  w_highGen s.1 ≤ gen → ∃ b s' L0 a i, let L' := L0 ++ [(add_rec (AUser q p) a, i)] in
    Append q gen p s = (Ok b, s') ∧ Indexed max o L' s' ∧ a_gen a = gen ∧ a_live a = true ∧ w_meta s'.2 = w_meta s.2 ∧
    ∀ g q' p', has_rec L' g (AUser q' p') → grown L q gen p g q' p'.
Proof.
  intros [HL Hf HC] Hn [Hg Hq Hqs Hp Hord] Hgen.
  pose proof (Inv_grown _ _ _ _ _ _ _ _ _ _ _ p (Indexed_Inv _ _ _ _ _ _ HL Hf Hord (Counted_top _ gen _ _ Hgen HC))) as HI.
  destruct HL as [_ Ho Hmax H38 Hn0]. pose proof Ho as (_ & Hsz & Hmode). set (c0 := _ - disk_bytes L) in HI. set (U := λ _, _) in HI.
  assert (Ht : triple (Inv max o (ack_of s.1) c0 true (Some gen) U (w_nextIndex s.1) L) (Append q gen p)
    (λ _, Appended max o (ack_of s.1) c0 true (Some gen) U (w_nextIndex s.1) L q gen p) (λ _, True)).
  { apply t_Append; try done; unfold U, upto, top_is; [by intros top [= <-] | by intros u p' [Hu _]; apply Hu|].
    split; [lia|]. by right. }
  specialize (Ht s HI). pose proof (keeps_Append q gen p s) as Hkm.
  destruct (Append q gen p s) as [[b|e] s'] eqn:Happ; [|by destruct Ht]. unfold meta_of, pair_meta in Hkm. cbn in Hkm.
  destruct Ht as [(n' & L0 & a & i & HI' & Hga & H1 & _ & _ & _ & Ha) Hf']. exists b, s', L0, a, i.
  split; [done|]. split; [|split_and!; try done].
  - constructor; [eapply Inv_LogState; [exact HI' | done.. | lia] | by apply Hf' |].
    rewrite (Append_high _ _ _ _ _ _ Happ). by apply HI'.
  - intros g q' p' (x & Hx & <- & Hr). pose proof (iv_users _ _ _ _ _ _ _ _ _ _ HI') as Hus. rewrite Forall_forall in Hus.
    destruct (Hus x Hx) as [_ HU]. rewrite Forall_forall in HU. apply (HU (AUser q' p') Hr).
Qed.

Lemma Indexed_append max o L s q gen p : Indexed max o L s → w_nextIndex s.1 + 4 < 2 ^ 64 → Appendable max L q gen p →
  w_highGen s.1 ≤ gen → ∃ b s' L', Append q gen p s = (Ok b, s') ∧ Indexed max o L' s'.
Proof.
  intros HI Hn Hap Hg. destruct (Indexed_append_exact max o L s q gen p HI Hn Hap Hg) as (b & s' & L0 & a & i & Happ & HI' & _).
  by eexists b, s', _.
Qed.

Lemma Indexed_ack max o L s gen seq : Indexed max o L s →
  ∃ s' L', MarkAcked gen seq s = (Ok tt, s') ∧ Indexed max o L' s' ∧ L' `sublist_of` L ∧
    ack_of s'.1 = new_ack (ack_of s.1) gen seq ∧ w_nextIndex s'.1 = w_nextIndex s.1 ∧
    (∀ x, x ∈ L → x ∈ L' ∨ fully_acked (ack_of s'.1) x.1 = true) ∧ w_meta s'.2 = Some (ack_meta o (ack_of s'.1)).
Proof.
  intros [HL Hf HC].
  assert (HI : Inv max o (ack_of s.1) (w_totalBytes s.1 + 16 * w_nextIndex s.1 - disk_bytes L) true (Some (w_highGen s.1))
    (λ _ _ _, True) (w_nextIndex s.1) L s).
  { destruct (ls_inv _ _ _ _ HL). constructor; try done; [intros _; lia | by intros _ | by intros _ top [= <-]]. }
  destruct HL as [_ Ho Hmax H38 Hn]. pose proof (t_MarkAcked max Hmax o _ _ _ _ _ _ L gen seq s HI) as Ht.
  pose proof (MarkAcked_high gen seq s) as Hh.
  destruct (MarkAcked gen seq s) as [[[]|e] s']; [|by destruct Ht]. destruct Ht as [(L' & HI' & Hsub & Hm & Hall) Hf'].
  pose proof (iv_ack _ _ _ _ _ _ _ _ _ _ HI') as Hk. exists s', L'. rewrite Hk. split_and!; try done; [|apply HI'].
  constructor; [by eapply Inv_LogState | by apply Hf' |]. cbn in Hh. rewrite Hh. by apply HI'.
Qed.

Lemma sorted_last_max (l : list Z) x y : StronglySorted Z.le l → last l = Some y → x ∈ l → x ≤ y.
Proof.
  intros Hs [l' ->]%last_Some Hx. apply StronglySorted_app in Hs as (Hle & _ & _).
  apply elem_of_app in Hx as [Hx|Hx%list_elem_of_singleton]; [|by subst; lia]. apply Hle; [done|]. by apply list_elem_of_singleton.
Qed.

(** The live segment stays. *)
Lemma Indexed_ack_live max o L0 x s gen seq s' L' : Indexed max o (L0 ++ [x]) s → a_live x.1 = true →
  (MarkAcked gen seq s).2 = s' → Indexed max o L' s' → L' `sublist_of` L0 ++ [x] → ∃ L0', L' = L0' ++ [x].
Proof.
  intros [HL _ _] Hx Hm [HL' _ _] Hsub.
  pose proof (iv_live _ _ _ _ _ _ _ _ _ _ (ls_inv _ _ _ _ HL)) as Hlive. pose proof (iv_live _ _ _ _ _ _ _ _ _ _ (ls_inv _ _ _ _ HL')) as Hlive'.
  assert (Hc : w_current s'.1 = w_current s.1).
  { rewrite <- Hm, (MarkAcked_field w_current) by done. by destruct (ack_advances s.1 gen seq). }
  rewrite Hc in Hlive'. destruct (w_current s.1) as [seg|]; cbn in Hlive, Hlive'.
  - destruct Hlive as (L1 & a & i & [<- ->]%app_inj_tail & HF & _). destruct Hlive' as (L2 & a' & i' & -> & _ & Ha' & _).
    exists L2. do 2 f_equal. assert (Hin : (a', i') ∈ L0 ++ [(a, i)]).
    { eapply elem_of_sublist; [|exact Hsub]. apply elem_of_app. right. by apply list_elem_of_singleton. }
    apply elem_of_app in Hin as [Hin|Hin%list_elem_of_singleton]; [|done]. rewrite Forall_forall in HF. specialize (HF _ Hin).
    unfold is_sealed_slot in HF. cbn in HF. congruence.
  - apply Forall_app in Hlive as [_ Hl]. inversion Hl as [|? ? Hs _]; subst. unfold is_sealed_slot in Hs. congruence.
Qed.

(** Opening the directory again. *)
Lemma Indexed_reopen max o L s : Indexed max o L s → meta_ok o (w_meta s.2) → w_nextIndex s.1 + 3 < 2 ^ 64 →
  ∃ w W, Open o s.2 = (Ok w, W) ∧ Indexed max o L (w, W) ∧
    w_meta W = w_meta s.2 ∧ w_highGen w = high_gen_of L ∧ w_nextIndex w = next_of L.
Proof.
  intros [HL Hf HC] Hmeta Hn. pose proof (ls_inv _ _ _ _ HL) as HI.
  assert (HCr : CrashedLog max L [] s.2) by (eapply Live_crashed; [apply HL | apply HI..]).
  pose proof (next_of_bound _ _ _ _ HL Hn) as Hnext.
  pose proof (open_recovers max o L [] s.2 (ls_opts _ _ _ _ HL) (ls_max _ _ _ _ HL) (ls_marker _ _ _ _ HL) HCr
    (LogState_sorted _ _ _ _ HL) Hmeta Hnext) as Hopen.
  assert (Hnf : NF true s.2) by (by intros _).
  pose proof (t_Open max o (w_meta s.2) true L [] (ls_max _ _ _ _ HL) ltac:(pose proof (ls_marker _ _ _ _ HL); lia)
    (ls_opts _ _ _ _ HL) Hmeta Hnext s.2 (conj (conj HCr eq_refl) Hnf)) as Ht.
  destruct (Open o s.2) as [[w|e] W]; [|done]. destruct Ht as [((_ & _ & Hg) & _ & _ & Hcov) _]. specialize (Hcov eq_refl).
  destruct Hopen as [(HL' & _ & HM & _ & _ & Hnx) Hf']. exists w, W. split; [done|]. split; [|done].
  constructor; [done | by apply Hf' |]. cbn. destruct HC as [Hord Hgens Htop _ _]. constructor; try done.
  - rewrite Hg. apply Forall_forall. intros x Hx. unfold high_gen_of. destruct (last L) as [y|] eqn:Hl; cbn.
    + eapply (sorted_last_max _ _ _ Hgens); [by rewrite fmap_last, Hl|]. apply list_elem_of_fmap. by exists x.
    + apply last_None in Hl as ->. by apply not_elem_of_nil in Hx.
  - intros x q Hx. by apply Hcov.
  - intros x Hx. by apply Hcov.
Qed.

(** ** What the queries answer *)

Section queries.
Context (max : Z) (Hmax : bad_max max = false) (W : World) (L : Slots) (HR : Rep max W L) (Hf : w_faults W = []).

Lemma io_ok : io W = (Ok tt, W).
Proof. unfold io, next_fault, bindM. by rewrite Hf. Qed.

Lemma earliest_loop_ok S g : S ⊆ L → earliest_loop max g (slot_entry <$> S) W = (Ok (head (gen_users g S)), W).
Proof.
  induction S as [|x S IH]; intros HS; cbn [fmap list_fmap earliest_loop]; [done|].
  assert (Hx : x ∈ L) by (apply HS, elem_of_cons; by left). pose proof (Rep_wf _ _ _ _ HR Hx) as Hwf.
  assert (HS' : S ⊆ L) by (intros y Hy; apply HS, elem_of_cons; by right). specialize (IH HS').
  unfold bindM at 1, mtry, os_Open, bindM, mget. cbn [slot_entry e_name].
  rewrite io_ok, (Rep_lookup _ _ _ _ HR Hx). cbn [fst snd ret].
  rewrite (Rep_data _ _ _ _ HR Hx), <- (app_nil_r (a_bytes x.1)), (read_a_bytes max) by done. rewrite app_nil_r.
  change (gen_users g (x :: S)) with ((if a_gen x.1 =? g then a_users x.1 else []) ++ gen_users g S). cbn [a_hdr sh_Generation].
  destruct (a_gen x.1 =? g); cbn [negb app]; [|exact IH].
  rewrite (scan_a_bytes max) by done. cbn [fst]. rewrite (user_seqs_enc max) by done.
  destruct (a_users x.1); [exact IH | done].
Qed.

Lemma EarliestDataSequence_ok w g : w_closed w = false → w_maxRec w = max →
  EarliestDataSequence g (w, W) = (Ok (head (gen_users g L)), (w, W)).
Proof.
  intros Hc Hm. unfold EarliestDataSequence, bindM at 1, mget. cbn [fst]. rewrite Hc, Hm.
  unfold merr_map, lift. cbn [fst snd]. unfold os_ReadDir, bindM, mget. rewrite io_ok.
  rewrite (entries_where_Rep max _ W L) by (done || (rewrite SliceStable_perm; by apply Rep_dom with max)).
  rewrite filter_all; [by rewrite earliest_loop_ok|]. apply Forall_forall. intros x _.
  pose proof (is_sealed_a_name x.1) as Hs. rewrite is_inprogress_a_name. unfold is_sealed in Hs.
  destruct (a_live x.1); [by rewrite orb_true_r|]. by apply andb_true_iff in Hs as [-> _].
Qed.
End queries.

Lemma Indexed_earliest max o L s g : Indexed max o L s → EarliestDataSequence g s = (Ok (head (gen_users g L)), s).
Proof.
  intros [HL Hf _]. pose proof (ls_inv _ _ _ _ HL) as HI. destruct s as [w W].
  apply (EarliestDataSequence_ok max); [apply HL | apply HI | done | apply HI..].
Qed.

Lemma has_rec_users L g q p : has_rec L g (AUser q p) → q ∈ gen_users g L.
Proof. intros (x & Hx & Hg & Hr). apply gen_users_elem. exists x. split_and!; [done..|]. by eapply user_of_rec. Qed.

Lemma users_has_rec L g q : q ∈ gen_users g L → ∃ p, has_rec L g (AUser q p).
Proof. intros (x & Hx & Hg & Hr)%gen_users_elem. destruct (has_rec_user _ _ Hr) as [p Hp]. exists p. by exists x. Qed.

Lemma Indexed_first max o L s g q : Indexed max o L s → q ∈ gen_users g L →
  ∃ e, head (gen_users g L) = Some e ∧ e ≤ q ∧ e ∈ gen_users g L.
Proof.
  intros [_ _ HC] Hq. pose proof (ct_order _ _ _ HC g) as Hs. destruct (gen_users g L) as [|e us] eqn:Hu; [by apply not_elem_of_nil in Hq|].
  exists e. split_and!; [done | | apply elem_of_cons; by left]. inversion Hs as [|? ? _ Hle]; subst. rewrite Forall_forall in Hle.
  apply elem_of_cons in Hq as [->|Hq]; [lia | by apply Hle].
Qed.

(** The answers about one record that is on disk. *)
Definition answers (s : WAL * World) (L : Slots) (g q : Z) : Prop :=
  (∃ h, WrittenDataHighWater s.1 g = Ok (Some h) ∧ q ≤ h) ∧ HasReplayableRecords s.1 g = Ok true ∧ g ≤ HighGeneration s.1 ∧
  (∀ t, g < t → HasDataBelowGeneration s.1 t = Ok true) ∧
  ∃ e p, EarliestDataSequence g s = (Ok (Some e), s) ∧ e ≤ q ∧ has_rec L g (AUser e p).

Lemma Indexed_answers max o L s g q p : Indexed max o L s → has_rec L g (AUser q p) → answers s L g q.
Proof.
  intros HIx (x & Hx & <- & Hr). pose proof HIx as [HL _ [_ _ Ht Hd Ha]]. pose proof (ls_inv _ _ _ _ HL) as HI.
  pose proof (iv_closed _ _ _ _ _ _ _ _ _ _ HI) as Hc. pose proof (user_of_rec _ _ _ Hr) as Hu.
  destruct (Hd x q Hx Hu) as (h & Hh & Hle). unfold answers, WrittenDataHighWater, HasReplayableRecords, HasDataBelowGeneration, HighGeneration.
  rewrite Hc. split_and!.
  - exists h. by rewrite Hh.
  - f_equal. apply bool_decide_eq_true_2, (Ha x Hx). intros Hn. rewrite Hn in Hr. by apply not_elem_of_nil in Hr.
  - rewrite Forall_forall in Ht. by apply Ht.
  - intros t Hlt. f_equal. apply existsb_elem. exists (a_gen x.1, h). split; [by apply elem_of_map_to_list | cbn; lia].
  - assert (Hq : q ∈ gen_users (a_gen x.1) L) by (apply gen_users_elem; by exists x).
    destruct (Indexed_first _ _ _ _ _ _ HIx Hq) as (e & He & Hle' & Hin). destruct (users_has_rec _ _ _ Hin) as [p' Hp'].
    exists e, p'. rewrite (Indexed_earliest max o L s) by done. by rewrite He.
Qed.

(** ** Runs *)

(** Appends of records the log can hold with generations that do not decrease,
    acknowledgements, and restarts under the identity recorded on disk. *)
Inductive index_run (max : Z) (o : Options) : WAL * World → WAL * World → Prop :=
| ir_nil s : index_run max o s s
| ir_append s q gen p b s1 s2 : w_nextIndex s.1 + 4 < 2 ^ 64 → (∀ L, LogState max o L s → Appendable max L q gen p) →
    HighGeneration s.1 ≤ gen → Append q gen p s = (Ok b, s1) → index_run max o s1 s2 → index_run max o s s2
| ir_ack s gen seq s1 s2 : MarkAcked gen seq s = (Ok tt, s1) → index_run max o s1 s2 → index_run max o s s2
| ir_restart s w W s2 : w_nextIndex s.1 + 3 < 2 ^ 64 → meta_ok o (w_meta s.2) → Open o s.2 = (Ok w, W) →
    index_run max o (w, W) s2 → index_run max o s s2.

Lemma index_run_Indexed max o s s' : index_run max o s s' → ∀ L, Indexed max o L s → ∃ L', Indexed max o L' s'.
Proof.
  induction 1 as [s | s q gen p b s1 s2 Hn Hap Hg Happ _ IH | s gen seq s1 s2 Hm _ IH | s w W s2 Hn Hmeta Hop _ IH]; intros L HL.
  - by exists L.
  - destruct (Indexed_append max o L s q gen p HL Hn (Hap L (ix_log _ _ _ _ HL)) Hg) as (b' & s' & L' & Happ' & HL').
    rewrite Happ in Happ'. injection Happ' as <- <-. by apply (IH L').
  - destruct (Indexed_ack max o L s gen seq HL) as (s' & L' & Hm' & HL' & _). rewrite Hm in Hm'. injection Hm' as <-. by apply (IH L').
  - destruct (Indexed_reopen max o L s HL Hmeta Hn) as (w' & W' & Hop' & HL' & _). rewrite Hop in Hop'. injection Hop' as <- <-. by apply (IH L).
Qed.

(** C18. The index of the log is complete. Start from an open log whose index is complete
    (a new one, for example) and let any appends with non-decreasing generations and, within
    a generation, non-decreasing sequence numbers ([Appendable]), acknowledgements and
    restarts happen on a file system that does not fail. Then for
    every user record that is on disk, of generation g and sequence number q:
    WrittenDataHighWater knows g and gives at least q, HasReplayableRecords is true of g,
    HighGeneration is at least g, HasDataBelowGeneration is true of every larger
    generation, and EarliestDataSequence gives the sequence number of a record of g that
    is on disk, at most q. *)
Theorem index_complete max o L s s' :
  Indexed max o L s → index_run max o s s' →
  ∃ L', Indexed max o L' s' ∧ ∀ g q p, has_rec L' g (AUser q p) → answers s' L' g q.
Proof.
  intros HL Hrun. destruct (index_run_Indexed _ _ _ _ Hrun L HL) as [L' HL']. exists L'. split; [done|].
  intros g q p Hr. by eapply Indexed_answers.
Qed.

Lemma s0_indexed : Indexed 84 o0 [] s0.
Proof.
  constructor; [exact s0_state | reflexivity|].
  constructor; [intros g; constructor | constructor | constructor | |]; intros x; [intros q|]; intros Hx; by apply not_elem_of_nil in Hx.
Qed.

Lemma empty_log L s : LogState 84 o0 L s → size (w_dir s.2) = 0%nat → L = [].
Proof.
  intros HL Hs. pose proof (iv_rep _ _ _ _ _ _ _ _ _ _ (ls_inv _ _ _ _ HL)) as HR.
  rewrite (Rep_size 84 s.2 L HR) in Hs. by destruct L.
Qed.

Lemma index_complete_witness : index_run 84 o0 s0 s3 ∧
  ∃ L', Indexed 84 o0 L' s3 ∧ ∀ g q p, has_rec L' g (AUser q p) → answers s3 L' g q.
Proof.
  assert (Hrun : index_run 84 o0 s0 s3).
  { destruct (Append 1 1 p0 s0) as [[b|e] t] eqn:He; [|vm_compute in He; discriminate He].
    apply (ir_append 84 o0 s0 1 1 p0 b s1 s3); [vm_compute; reflexivity | | vm_compute; discriminate | rewrite He; vm_compute in He; by inversion He |].
    - intros L HL. rewrite (empty_log L s0 HL) by (vm_compute; reflexivity). exact empty_appendable.
    - apply (ir_ack 84 o0 s1 1 1 s2 s3); [vm_compute; reflexivity|].
      apply (ir_restart 84 o0 s2 s3.1 s3.2 s3); [vm_compute; reflexivity | vm_compute; done | vm_compute; reflexivity | apply ir_nil]. }
  split; [exact Hrun|]. apply (index_complete 84 o0 [] s0 s3); [exact s0_indexed | exact Hrun].
Defined.

(** ** With faults *)

(** Three generations on disk, one record in each. *)
Definition three_gens : WAL * World := Eval vm_compute in (Append 3 3 p0 (Append 2 2 p0 s1).2).2.

(** The [k]-th system call fails. *)
Definition fail_at (k : nat) (s : WAL * World) : WAL * World := (s.1, set_faults (repeat None k ++ [Some 0%nat]) s.2).

(** When opening a segment fails while the maps are pruned, its generation is dropped
    from them: MarkAcked succeeds, the segment of generation 2 is on disk, and the index
    denies that there is anything to replay in it. *)
Theorem prune_forgets_generation :
  MarkAcked 1 1 (fail_at 13 three_gens) = (Ok tt, (MarkAcked 1 1 (fail_at 13 three_gens)).2) ∧
  HasReplayableRecords (MarkAcked 1 1 (fail_at 13 three_gens)).2.1 2 = Ok false ∧
  is_Some (w_dir (MarkAcked 1 1 (fail_at 13 three_gens)).2.2 !! "0000000002.seg").
Proof. split_and!; [vm_compute; reflexivity | vm_compute; reflexivity | vm_compute; eauto]. Qed.

(** MarkAcked can fail after meta.json was replaced: the caller that takes the error to
    mean that nothing was recorded is behind the disk. *)
Theorem ack_fails_after_persisting :
  (∃ e, (MarkAcked 1 1 (fail_at 11 three_gens)).1 = Err e) ∧
  meta_ack (w_meta (MarkAcked 1 1 (fail_at 11 three_gens)).2.2) = mkAck true 1 1.
Proof. split; [eexists; vm_compute; reflexivity | vm_compute; reflexivity]. Qed.
