(* ===== verification/CredTable.v ===== *)
(** * Credential substitution tables

    internal/proxy/credsub/table.go, internal/proxy/secrets/fakegen.go and the
    bootstrap of internal/session/secrets.go. An agent only ever holds fake
    credentials; the table pairs each with the real one, [ReplaceFakeToReal]
    rewrites requests and [ReplaceRealToFake] scrubs responses.

    The two scans walk the body once and take the longest match at each position.
    [scans] is the declarative reading of that rule, a segmentation of the body
    into literal bytes and substituted credentials; the theorems show that the
    index loops compute the unique segmentation, whatever the order of the
    entries, and what follows for scrubbing and for the round trip. *)

From S2P Require Import Prelude.

Local Open Scope nat_scope.

Notation bytes := (list ascii).

(** [[]byte(s)] and [string(b)]. *)
Definition to_bytes (s : string) : bytes := String.list_ascii_of_string s.
Definition of_bytes (b : bytes) : string := String.string_of_list_ascii b.

Lemma of_to_bytes s : of_bytes (to_bytes s) = s.
Proof. apply String.string_of_list_ascii_of_string. Qed.
Lemma to_of_bytes b : to_bytes (of_bytes b) = b.
Proof. apply String.list_ascii_of_string_of_list_ascii. Qed.

Definition zero_byte : ascii := Ascii.zero.

Module Table.

(** [Entry]: [AddedAt] is only read for diagnostics. *)
Record Entry := MkEntry {
  ServiceName : string;
  Fake : bytes;
  Real : bytes;
  AddedAt : Z;
}.

#[export] Instance Entry_eq_dec : EqDecision Entry.
Proof. solve_decision. Defined.

(** The state of a [Table]: its entries in registration order. *)
Definition Table := list Entry.

Inductive AddError :=
| ErrLengthMismatch
| ErrEmptyValue
| ErrServiceExists
| ErrFakeCollision.

#[export] Instance AddError_eq_dec : EqDecision AddError.
Proof. solve_decision. Defined.

Definition New : Table := [].

Definition Len (t : Table) : nat := length t.

(** [bytes.Equal]. *)
Definition bytes_Equal (a b : bytes) : bool := bool_decide (a = b).

(** The loop of [Add] over the registered entries: its first objection. *)
Fixpoint conflict (serviceName : string) (fake real : bytes) (es : list Entry) : option AddError :=
  match es with
  | [] => None
  | e :: es =>
      if String.eqb (ServiceName e) serviceName then Some ErrServiceExists
      else if bytes_Equal (Fake e) fake then Some ErrFakeCollision
      else if bytes_Equal (Real e) fake then Some ErrFakeCollision
      else if bytes_Equal (Fake e) real then Some ErrFakeCollision
      else if bytes_Equal (Real e) real then Some ErrFakeCollision
      else conflict serviceName fake real es
  end.

Definition Add (t : Table) (serviceName : string) (fake real : bytes) (now : Z)
    : Result AddError Table :=
  if (length fake =? 0) || (length real =? 0) then Err ErrEmptyValue
  else if negb (length fake =? length real) then Err ErrLengthMismatch
  else if bytes_Equal fake real then Err ErrFakeCollision
  else match conflict serviceName fake real t with
       | Some e => Err e
       | None => Ok (t ++ [MkEntry serviceName fake real now])
       end.

Definition FakeForService (t : Table) (serviceName : string) : option bytes :=
  Fake <$> find_first (λ e, String.eqb (ServiceName e) serviceName) t.

Definition RealForService (t : Table) (serviceName : string) : option bytes :=
  Real <$> find_first (λ e, String.eqb (ServiceName e) serviceName) t.

Definition Contains (t : Table) (fake : bytes) : option Entry :=
  if length fake =? 0 then None
  else find_first (λ e, bytes_Equal (Fake e) fake) t.

(** [bytes.HasPrefix] and [bytes.Contains]. *)
Definition bytes_HasPrefix (s pre : bytes) : bool := bool_decide (pre `prefix_of` s).
Fixpoint bytes_Contains (s sub : bytes) : bool :=
  bytes_HasPrefix s sub || match s with [] => false | _ :: s' => bytes_Contains s' sub end.

Definition ContainsFake (t : Table) (data : bytes) : option string :=
  if length data =? 0 then None
  else ServiceName <$> find_first (λ e, bytes_Contains data (Fake e)) t.

(** The inner loop of the two scans: the longest key that matches at position
    [i], with the value to emit. [0] stands for no match. *)
Definition best_match (key val : Entry → bytes) (entries : Table) (body : bytes) (i : nat)
    : nat * bytes :=
  foldl (λ best e,
    let n := length (key e) in
    if n <=? best.1 then best
    else if length body <? i + n then best
    else if bytes_Equal (take n (drop i body)) (key e) then (n, val e)
    else best) (0, []) entries.

(** The outer loop. [out] is [None] while nothing was replaced (Go's [nil]
    slice); [None] as a result means that the fuel ran out. *)
Fixpoint replace_loop (key val : Entry → bytes) (entries : Table) (body : bytes)
    (fuel i : nat) (out : option bytes) : option (option bytes) :=
  match fuel with
  | O => None
  | S fuel =>
      if i <? length body then
        let '(bestLen, best) := best_match key val entries body i in
        if 0 <? bestLen then
          let out' := match out with None => take i body | Some o => o end in
          replace_loop key val entries body fuel (i + bestLen) (Some (out' ++ best))
        else
          replace_loop key val entries body fuel (i + 1)
            (match out, body !! i with
             | Some o, Some b => Some (o ++ [b])
             | _, _ => out
             end)
      else Some out
  end.

(** One more step than bytes is always enough ([replace_loop_scans]). *)
Definition replace (key val : Entry → bytes) (t : Table) (body : bytes) : option bytes :=
  if length body =? 0 then Some body
  else if length t =? 0 then Some body
  else match replace_loop key val t body (S (length body)) 0 None with
       | None => None
       | Some None => Some body
       | Some (Some out) => Some out
       end.

(** The methods; the default is never used. *)
Definition ReplaceFakeToReal (t : Table) (body : bytes) : bytes :=
  default [] (replace Fake Real t body).

Definition ReplaceRealToFake (t : Table) (body : bytes) : bytes :=
  default [] (replace Real Fake t body).

(** [Zero]: the buffers the table owned, overwritten, and the empty table. *)
Definition Zero (t : Table) : list Entry * Table :=
  ((λ e, MkEntry (ServiceName e) (map (λ _, zero_byte) (Fake e))
                 (map (λ _, zero_byte) (Real e)) (AddedAt e)) <$> t, []).

(** ** Well-formed tables *)

(** The invariants the comment of [Add] lists. *)
Record table_wf (t : Table) : Prop := {
  wf_nonempty : ∀ e, e ∈ t → Fake e ≠ [] ∧ Real e ≠ [];
  wf_length : ∀ e, e ∈ t → length (Fake e) = length (Real e);
  wf_services : NoDup (ServiceName <$> t);
  wf_values : NoDup ((Fake <$> t) ++ (Real <$> t));
}.

Lemma conflict_None svc fake real es :
  conflict svc fake real es = None ↔
  svc ∉ (ServiceName <$> es) ∧ fake ∉ (Fake <$> es) ++ (Real <$> es) ∧
  real ∉ (Fake <$> es) ++ (Real <$> es).
Proof.
  induction es as [|e es IH]; [simpl; set_solver|].
  cbn [conflict fmap list_fmap app]. unfold bytes_Equal.
  destruct (String.eqb_spec (ServiceName e) svc) as [<-|?];
    [split; [done|intros [[]%not_elem_of_cons _]; done]|].
  repeat case_bool_decide; subst;
    rewrite ?IH; clear IH; rewrite ?not_elem_of_cons, ?not_elem_of_app, ?not_elem_of_cons in *;
    naive_solver.
Qed.

(** Which error [Add] returns. *)
Lemma conflict_Some svc fake real es err :
  conflict svc fake real es = Some err →
  (err = ErrServiceExists ∧ svc ∈ (ServiceName <$> es)) ∨
  (err = ErrFakeCollision ∧
     (fake ∈ (Fake <$> es) ++ (Real <$> es) ∨ real ∈ (Fake <$> es) ++ (Real <$> es))).
Proof.
  induction es as [|e es IH]; [done|]. cbn [conflict fmap list_fmap app]. unfold bytes_Equal.
  rewrite !elem_of_cons, !elem_of_app, !elem_of_cons.
  destruct (String.eqb_spec (ServiceName e) svc) as [<-|?]; [naive_solver|].
  repeat case_bool_decide; subst; [naive_solver..|].
  intros [[??]|[? Hin]]%IH; [naive_solver|]. rewrite !elem_of_app in Hin. naive_solver.
Qed.

Lemma wf_New : table_wf New.
Proof. split; try (intros ? ?%elem_of_nil; done); apply NoDup_nil_2. Qed.

Lemma wf_snoc t e :
  table_wf t → Fake e ≠ [] → length (Fake e) = length (Real e) → Fake e ≠ Real e →
  conflict (ServiceName e) (Fake e) (Real e) t = None → table_wf (t ++ [e]).
Proof.
  intros [H1 H2 H3 H4] He Hl Hne (Hs & Hf & Hr)%conflict_None.
  split.
  - intros e' [?| ->%list_elem_of_singleton]%elem_of_app; [by apply H1|]. split; [done|].
    intros Hr0. rewrite Hr0 in Hl. by destruct (Fake e).
  - intros e' [?| ->%list_elem_of_singleton]%elem_of_app; [by apply H2|done].
  - rewrite fmap_app. cbn. apply NoDup_app. split_and!; [done| |apply NoDup_singleton].
    intros x Hx ->%list_elem_of_singleton. done.
  - rewrite !fmap_app. cbn.
    rewrite <-(assoc_L (++)), (Permutation_app_comm [Fake e]), <-(assoc_L (++)), (assoc_L (++)).
    apply NoDup_app. split_and!; [done| |].
    + intros x Hx [->|[->|[]%elem_of_nil]%elem_of_cons]%elem_of_cons; done.
    + apply NoDup_cons. split; [|apply NoDup_singleton]. rewrite list_elem_of_singleton. congruence.
Qed.

Section Keys.
Context (t : Table) (Hwf : table_wf t).

Lemma wf_fake_inj e1 e2 : e1 ∈ t → e2 ∈ t → Fake e1 = Fake e2 → e1 = e2.
Proof.
  intros H1 H2 Heq. pose proof (wf_values _ Hwf) as [Hn _]%NoDup_app.
  apply list_elem_of_lookup in H1 as [i Hi]. apply list_elem_of_lookup in H2 as [j Hj].
  assert (i = j) as ->.
  { eapply (NoDup_lookup (Fake <$> t)); [done|rewrite list_lookup_fmap, Hi|rewrite list_lookup_fmap, Hj];
      simpl; by rewrite ?Heq. }
  congruence.
Qed.

Lemma wf_real_inj e1 e2 : e1 ∈ t → e2 ∈ t → Real e1 = Real e2 → e1 = e2.
Proof.
  intros H1 H2 Heq. pose proof (wf_values _ Hwf) as (_ & _ & Hn)%NoDup_app.
  apply list_elem_of_lookup in H1 as [i Hi]. apply list_elem_of_lookup in H2 as [j Hj].
  assert (i = j) as ->.
  { eapply (NoDup_lookup (Real <$> t)); [done|rewrite list_lookup_fmap, Hi|rewrite list_lookup_fmap, Hj];
      simpl; by rewrite ?Heq. }
  congruence.
Qed.

Lemma wf_service_inj e1 e2 : e1 ∈ t → e2 ∈ t → ServiceName e1 = ServiceName e2 → e1 = e2.
Proof.
  intros H1 H2 Heq.
  apply list_elem_of_lookup in H1 as [i Hi]. apply list_elem_of_lookup in H2 as [j Hj].
  assert (i = j) as ->.
  { eapply (NoDup_lookup (ServiceName <$> t)); [apply Hwf|rewrite list_lookup_fmap, Hi|
      rewrite list_lookup_fmap, Hj]; simpl; by rewrite ?Heq. }
  congruence.
Qed.

Lemma wf_fake_ne e : e ∈ t → Fake e ≠ [].
Proof. intros He. apply (wf_nonempty _ Hwf e He). Qed.
Lemma wf_real_ne e : e ∈ t → Real e ≠ [].
Proof. intros He. apply (wf_nonempty _ Hwf e He). Qed.

Lemma wf_disjoint e1 e2 : e1 ∈ t → e2 ∈ t → Fake e1 ≠ Real e2.
Proof.
  intros H1 H2 Heq. pose proof (wf_values _ Hwf) as (_ & Hn & _)%NoDup_app.
  apply (Hn (Fake e1)); [by apply list_elem_of_fmap_2|]. rewrite Heq. by apply list_elem_of_fmap_2.
Qed.
End Keys.

Lemma Add_cases t svc fake real now :
  match Add t svc fake real now with
  | Ok t' => t' = t ++ [MkEntry svc fake real now]
  | Err ErrEmptyValue => fake = [] ∨ real = []
  | Err ErrLengthMismatch => fake ≠ [] ∧ real ≠ [] ∧ length fake ≠ length real
  | Err ErrServiceExists => ∃ e, e ∈ t ∧ ServiceName e = svc
  | Err ErrFakeCollision =>
      fake = real ∨ ∃ e, e ∈ t ∧ (Fake e = fake ∨ Real e = fake ∨ Fake e = real ∨ Real e = real)
  end.
Proof.
  unfold Add, bytes_Equal.
  destruct (Nat.eqb_spec (length fake) 0) as [->%nil_length_inv|Hf]; [by left|].
  destruct (Nat.eqb_spec (length real) 0) as [->%nil_length_inv|Hr]; [by right|]. cbn [orb].
  destruct (Nat.eqb_spec (length fake) (length real)) as [Hl|Hl]; cbn [negb].
  2: { split_and!; [by intros ->..|done]. }
  case_bool_decide; [by left|]. destruct (conflict _ _ _ _) as [err|] eqn:Hc; [|done].
  apply conflict_Some in Hc as [[-> Hin]|[-> Hin]].
  - apply list_elem_of_fmap in Hin as (e & -> & ?). eauto.
  - right. rewrite !elem_of_app, !list_elem_of_fmap in Hin. naive_solver.
Qed.

Lemma Add_ok_iff t svc fake real now :
  table_wf t →
  Add t svc fake real now = Ok (t ++ [MkEntry svc fake real now]) ↔
  table_wf (t ++ [MkEntry svc fake real now]).
Proof.
  intros Hwf. set (e := MkEntry svc fake real now). split.
  - unfold Add, bytes_Equal.
    destruct (Nat.eqb_spec (length fake) 0) as [|Hf]; [done|].
    destruct (Nat.eqb_spec (length real) 0) as [|Hr]; [done|]. cbn [orb].
    destruct (Nat.eqb_spec (length fake) (length real)) as [Hl|]; [|done]. cbn [negb].
    case_bool_decide; [done|]. destruct (conflict _ _ _ _) eqn:Hc; [done|]. intros _.
    apply wf_snoc; try done. subst e. cbn. intros ->. done.
  - intros Hwf'. assert (e ∈ t ++ [e]) as He by (rewrite elem_of_app, list_elem_of_singleton; by right).
    pose proof (wf_nonempty _ Hwf' e He) as [Hf Hr]. pose proof (wf_length _ Hwf' e He) as Hl.
    pose proof (wf_disjoint _ Hwf' e e He He) as Hd. cbn in Hf, Hr, Hl, Hd.
    unfold Add, bytes_Equal. destruct fake; [done|]. destruct real; [done|]. cbn [length Nat.eqb orb].
    destruct (Nat.eqb_spec (length fake) (length real)) as [_|]; [|cbn in Hl; lia]. cbn [negb].
    rewrite bool_decide_false by done.
    destruct (conflict _ _ _ _) eqn:Hc; [|done].
    apply conflict_Some in Hc as [[-> Hin]|[-> Hin]]; exfalso.
    + pose proof (wf_services _ Hwf') as Hn. rewrite fmap_app in Hn.
      apply NoDup_app in Hn as (_ & Hn & _). apply (Hn svc Hin). by apply list_elem_of_singleton.
    + pose proof (wf_values _ Hwf') as Hn. rewrite !fmap_app in Hn. cbn in Hn.
      rewrite <-(assoc_L (++)), (Permutation_app_comm [_] (_ ++ _)), <-(assoc_L (++)), (assoc_L (++)) in Hn.
      apply NoDup_app in Hn as (_ & Hn & _).
      destruct Hin as [Hin|Hin]; apply (Hn _ Hin); rewrite elem_of_app, !list_elem_of_singleton; auto.
Qed.

Lemma Add_wf t svc fake real now t' :
  Add t svc fake real now = Ok t' → table_wf t → table_wf t'.
Proof.
  intros Ha Hwf. pose proof (Add_cases t svc fake real now) as Hc. rewrite Ha in Hc. subst.
  by apply Add_ok_iff.
Qed.

(** ** The substitution rule

    A segmentation of a text: literal bytes, and entries whose key stands there. *)
Inductive Seg :=
| Lit (b : ascii)
| Sub (e : Entry).

Definition seg_text (f : Entry → bytes) (s : Seg) : bytes :=
  match s with Lit b => [b] | Sub e => f e end.

(** The text of a segmentation, with [f] the form its credentials take. *)
Definition texts (f : Entry → bytes) (segs : list Seg) : bytes :=
  concat (map (seg_text f) segs).

(** Leftmost, longest, without overlap: a credential is taken wherever one starts,
    and no longer one starts at the same position. *)
Inductive scans (key : Entry → bytes) (es : Table) : list Seg → Prop :=
| scans_nil : scans key es []
| scans_lit b segs :
    (∀ e, e ∈ es → key e ≠ [] → ¬ key e `prefix_of` b :: texts key segs) →
    scans key es segs → scans key es (Lit b :: segs)
| scans_sub e segs :
    e ∈ es → key e ≠ [] →
    (∀ e', e' ∈ es → key e' `prefix_of` key e ++ texts key segs →
           length (key e') ≤ length (key e)) →
    scans key es segs → scans key es (Sub e :: segs).

Lemma texts_cons f s segs : texts f (s :: segs) = seg_text f s ++ texts f segs.
Proof. done. Qed.
Lemma texts_app f s1 s2 : texts f (s1 ++ s2) = texts f s1 ++ texts f s2.
Proof. unfold texts. by rewrite map_app, concat_app. Qed.

Section Scan.
Context (key val : Entry → bytes) (es : Table) (body : bytes).

Lemma key_at i n k :
  n = length k →
  (length body <? i + n) = false ∧ take n (drop i body) = k ↔
  i + n ≤ length body ∧ k `prefix_of` drop i body.
Proof.
  intros ->. rewrite Nat.ltb_ge. split; intros [Hl Hk]; (split; [done|]).
  - exists (drop (length k) (drop i body)). by rewrite <-Hk at 1; rewrite take_drop.
  - destruct Hk as [rest ->]. by rewrite take_app_length.
Qed.

(** What the inner loop finds. *)
Lemma best_match_spec i n v :
  i ≤ length body →
  best_match key val es body i = (n, v) →
  (∀ e, e ∈ es → key e `prefix_of` drop i body → length (key e) ≤ n) ∧
  (n = 0 ∨ ∃ e, e ∈ es ∧ n = length (key e) ∧ v = val e ∧ key e `prefix_of` drop i body).
Proof.
  intros Hi. unfold best_match. revert n v.
  induction es as [|e l IH] using rev_ind; intros n v.
  { cbn. intros [= <- <-]. split; [by intros ? ?%elem_of_nil|by left]. }
  rewrite foldl_snoc. destruct (foldl _ _ l) as [m w] eqn:Hf.
  destruct (IH m w) as [Hmax Hm]; [done|]. clear IH Hf. cbn zeta. cbn [fst].
  assert (Hlen : key e `prefix_of` drop i body → i + length (key e) ≤ length body).
  { intros [rest Hr]. assert (length (drop i body) = length (key e ++ rest)) as Hr' by by rewrite Hr.
    rewrite length_drop, length_app in Hr'. lia. }
  assert (Hkeep : (key e `prefix_of` drop i body → length (key e) ≤ m) → (m, w) = (n, v) →
    (∀ e', e' ∈ l ++ [e] → key e' `prefix_of` drop i body → length (key e') ≤ n) ∧
    (n = 0 ∨ ∃ e', e' ∈ l ++ [e] ∧ n = length (key e') ∧ v = val e' ∧ key e' `prefix_of` drop i body)).
  { intros He [= <- <-]. split.
    - intros e' [?| ->%list_elem_of_singleton]%elem_of_app; auto.
    - destruct Hm as [->|(e' & ? & ?)]; [by left|right; exists e'; rewrite elem_of_app; tauto]. }
  destruct (Nat.leb_spec (length (key e)) m); [by apply Hkeep|].
  destruct (Nat.ltb_spec (length body) (i + length (key e))) as [Hlt|Hge].
  { apply Hkeep. intros Hp%Hlen. lia. }
  unfold bytes_Equal. case_bool_decide as Heq.
  - intros [= <- <-].
    assert (key e `prefix_of` drop i body) as Hp.
    { apply (key_at i (length (key e))); [done|]. rewrite Nat.ltb_ge. done. }
    split.
    + intros e' [?| ->%list_elem_of_singleton]%elem_of_app Hp'; [|done].
      specialize (Hmax e' ltac:(done) Hp'). lia.
    + right. exists e. rewrite elem_of_app, list_elem_of_singleton. auto.
  - apply Hkeep. intros Hp. destruct Heq.
    apply (key_at i (length (key e)) (key e)); [done|]. auto.
Qed.

Lemma replace_loop_scans fuel i out :
  i ≤ length body → length body - i < fuel →
  ∃ segs o, scans key es segs ∧ texts key segs = drop i body ∧
    replace_loop key val es body fuel i out = Some o ∧
    match o with
    | None => out = None ∧ texts val segs = drop i body
    | Some r => r = default (take i body) out ++ texts val segs
    end.
Proof.
  revert i out. induction fuel as [|fuel IH]; intros i out Hi Hf; [lia|]. cbn [replace_loop].
  destruct (Nat.ltb_spec i (length body)) as [Hlt|Hge].
  2: { exists [], out. rewrite drop_ge by lia. split_and!; [constructor|done..|].
       destruct out; cbn; by rewrite ?app_nil_r. }
  destruct (best_match key val es body i) as [n v] eqn:Hb.
  apply best_match_spec in Hb as [Hmax Hm]; [|lia].
  destruct (Nat.ltb_spec 0 n) as [Hn|Hn].
  - destruct Hm as [->|(e & He & -> & -> & [rest Hrest])]; [lia|].
    assert (length (key e) + length rest = length body - i) as Hl
      by (rewrite <-length_app, <-Hrest, length_drop; done).
    assert (drop (i + length (key e)) body = rest) as Hd
      by (rewrite <-drop_drop, Hrest, drop_app_length; done).
    edestruct (IH (i + length (key e))) as (segs & o & Hs & Ht & -> & Ho); [lia..|].
    rewrite Hd in Ht.
    exists (Sub e :: segs), o. split_and!; [|by rewrite texts_cons, Ht, Hrest|done|].
    + constructor; [done|intros Hk; rewrite Hk in Hn; cbn in Hn; lia| |done]. rewrite Ht, <-Hrest. done.
    + destruct o as [r|]; [|by destruct Ho]. cbn in Ho.
      subst r. rewrite texts_cons, (assoc_L (++)). by destruct out.
  - assert (n = 0) as -> by lia.
    destruct (lookup_lt_is_Some_2 body i Hlt) as [b Hbi].
    pose proof (drop_S _ _ _ Hbi) as Hd. rewrite Hbi.
    edestruct (IH (i + 1)) as (segs & o & Hs & Ht & -> & Ho); [lia..|].
    rewrite Nat.add_1_r in Ht, Ho.
    exists (Lit b :: segs), o. split_and!; [|by rewrite texts_cons, Ht, Hd|done|].
    + constructor; [|done]. rewrite Ht, <-Hd. intros e He Hne Hp%Hmax; [|done].
      destruct (key e); [done|cbn in Hp; lia].
    + destruct o as [r|]; destruct out as [o'|]; cbn [default] in *.
      * rewrite Ho, texts_cons. cbn. by rewrite <-(assoc_L (++)).
      * rewrite Ho, texts_cons, (take_S_r _ _ _ Hbi). cbn. by rewrite <-(assoc_L (++)).
      * by destruct Ho.
      * destruct Ho as [_ Ho]. by rewrite texts_cons, Ho, Hd.
Qed.

Lemma scans_empty_table segs : es = [] → scans key es segs → texts key segs = texts val segs.
Proof. intros -> Hs. induction Hs as [|b segs _ _ IH|e segs []%elem_of_nil]; [done|]. by rewrite !texts_cons, IH. Qed.

Lemma replace_scans :
  ∃ segs, scans key es segs ∧ texts key segs = body ∧
          replace key val es body = Some (texts val segs).
Proof.
  destruct (replace_loop_scans (S (length body)) 0 None) as (segs & o & Hs & Ht & Hr & Ho); [lia..|].
  rewrite drop_0 in Ht. exists segs. split_and!; [done..|]. unfold replace.
  destruct (Nat.eqb_spec (length body) 0) as [H0%nil_length_inv|_].
  { rewrite H0 in *. destruct Hs as [| |e segs _ Hne _ _]; [done|done|]. rewrite texts_cons in Ht.
    cbn in Ht. by apply app_nil in Ht as [? _]. }
  destruct (Nat.eqb_spec (length es) 0) as [H0%nil_length_inv|_].
  { rewrite <-Ht at 1. f_equal. by apply scans_empty_table. }
  rewrite Hr. destruct o as [r|]; cbn in Ho; [by subst|]. destruct Ho as [_ Ho].
  rewrite drop_0 in Ho. by rewrite Ho.
Qed.
End Scan.

Lemma scans_texts_nil key es segs : scans key es segs → texts key segs = [] → segs = [].
Proof.
  destruct 1 as [| |e segs _ Hne]; [done|done|]. rewrite texts_cons. by intros [? _]%app_nil.
Qed.

(** The segmentation of a text is unique. *)
Lemma scans_unique key es s1 s2 :
  (∀ e1 e2, e1 ∈ es → e2 ∈ es → key e1 = key e2 → e1 = e2) →
  scans key es s1 → scans key es s2 → texts key s1 = texts key s2 → s1 = s2.
Proof.
  intros Hinj Hs1. revert s2.
  induction Hs1 as [|b s1 Hb Hs1 IH|e s1 He Hne Hmax Hs1 IH]; intros s2 Hs2 Heq.
  { symmetry. eapply scans_texts_nil; [done|]. by symmetry. }
  - destruct Hs2 as [|b' s2 Hb' Hs2|e' s2 He' Hne' Hmax' Hs2]; [done| |].
    + rewrite !texts_cons in Heq. cbn in Heq. simplify_eq. f_equal. by apply IH.
    + destruct (Hb e'); [done..|]. rewrite !texts_cons in Heq. cbn in Heq. rewrite Heq.
      by apply prefix_app_r.
  - destruct Hs2 as [|b' s2 Hb' Hs2|e' s2 He' Hne' Hmax' Hs2].
    + rewrite texts_cons in Heq. by apply app_nil in Heq as [? _].
    + destruct (Hb' e); [done..|]. rewrite !texts_cons in Heq. cbn in Heq. rewrite <-Heq.
      by apply prefix_app_r.
    + rewrite !texts_cons in Heq. cbn in Heq.
      assert (length (key e') ≤ length (key e)) by
        (apply Hmax; [done|]; rewrite Heq; by apply prefix_app_r).
      assert (length (key e) ≤ length (key e')) by
        (apply Hmax'; [done|]; rewrite <-Heq; by apply prefix_app_r).
      apply app_inj_1 in Heq as [Hk Heq]; [|lia].
      rewrite (Hinj e e') by done. f_equal. by apply IH.
Qed.

Lemma scans_perm key es es' segs : es ≡ₚ es' → scans key es segs → scans key es' segs.
Proof.
  intros Hp Hs. induction Hs as [|b segs Hb Hs IH|e segs He Hne Hmax Hs IH]; constructor; try done.
  - intros e He. apply Hb. by rewrite Hp.
  - by rewrite <-Hp.
  - intros e' He'. apply Hmax. by rewrite Hp.
Qed.

Lemma scans_mem key es segs e : scans key es segs → Sub e ∈ segs → e ∈ es.
Proof.
  induction 1 as [|b segs ? ? IH|e' segs ? ? ? ? IH]; [by intros ?%elem_of_nil|..];
    intros [Heq|?]%elem_of_cons; try (by apply IH); by simplify_eq.
Qed.

Lemma texts_length f g segs :
  (∀ e, Sub e ∈ segs → length (f e) = length (g e)) →
  length (texts f segs) = length (texts g segs).
Proof.
  induction segs as [|s segs IH]; intros Hfg; [done|]. rewrite !texts_cons, !length_app. f_equal.
  - destruct s; [done|]. apply Hfg, elem_of_cons. by left.
  - apply IH. intros e He. apply Hfg, elem_of_cons. by right.
Qed.

(** An occurrence of a key overlaps a segment that was substituted. *)
Lemma scans_overlap key es segs e pre post :
  scans key es segs → e ∈ es → key e ≠ [] → texts key segs = pre ++ key e ++ post →
  ∃ s1 e' s2, segs = s1 ++ Sub e' :: s2 ∧
    length (texts key s1) < length pre + length (key e) ∧
    length pre < length (texts key s1) + length (key e').
Proof.
  intros Hs He Hne. revert pre.
  induction Hs as [|b segs Hb Hs IH|e' segs He' Hne' Hmax Hs IH]; intros pre Heq.
  - symmetry in Heq. by apply app_nil in Heq as [_ [? _]%app_nil].
  - destruct pre as [|c pre].
    { destruct (Hb e); [done..|]. rewrite texts_cons in Heq. cbn in Heq. rewrite Heq.
      by apply prefix_app_r. }
    rewrite texts_cons in Heq. cbn in Heq. simplify_eq.
    destruct (IH pre) as (s1 & e' & s2 & -> & ? & ?); [done|].
    exists (Lit c :: s1), e', s2. rewrite texts_cons. cbn. split; [done|lia].
  - assert (0 < length (key e)) by (destruct (key e); [done|cbn; lia]).
    destruct (decide (length pre < length (key e'))) as [Hlt|Hge].
    { exists [], e', segs. cbn. split; [done|lia]. }
    rewrite texts_cons in Heq. cbn [seg_text] in Heq.
    assert (pre = key e' ++ drop (length (key e')) pre) as Hpre.
    { rewrite <-(take_drop (length (key e')) pre) at 1. f_equal.
      apply (f_equal (take (length (key e')))) in Heq.
      rewrite take_app_length, take_app_le in Heq by lia. done. }
    rewrite Hpre, <-(assoc_L (++)) in Heq. apply (inj _) in Heq.
    destruct (IH _ Heq) as (s1 & e2 & s2 & -> & ? & ?).
    exists (Sub e' :: s1), e2, s2. rewrite texts_cons. cbn [seg_text].
    rewrite Hpre at 1 2. rewrite !length_app. rewrite length_drop in *. split; [done|lia].
Qed.

(** Every credential that occurs in the text of [segs] is one of its segments. *)
Definition placed (val : Entry → bytes) (es : Table) (segs : list Seg) : Prop :=
  ∀ pre e post, e ∈ es → texts val segs = pre ++ val e ++ post →
    ∃ s1 s2, segs = s1 ++ Sub e :: s2 ∧ length (texts val s1) = length pre.

Lemma texts_cons_length val seg segs :
  length (texts val (seg :: segs)) = length (seg_text val seg) + length (texts val segs).
Proof. by rewrite texts_cons, length_app. Qed.

Lemma placed_head val es seg segs e :
  placed val es (seg :: segs) → seg_text val seg ≠ [] → e ∈ es →
  val e `prefix_of` texts val (seg :: segs) → seg = Sub e.
Proof.
  intros Hocc Hsn He [post Hp]. destruct (Hocc [] e post He Hp) as (s1 & s2 & Hseg & Hl).
  destruct s1 as [|s s1]; [by injection Hseg|]. injection Hseg as <- _.
  rewrite texts_cons_length in Hl. destruct (seg_text val seg); [done|]. cbn in Hl. lia.
Qed.

Lemma placed_tail val es seg segs :
  placed val es (seg :: segs) → seg_text val seg ≠ [] → placed val es segs.
Proof.
  intros Hocc Hsn pre e post He Hp.
  destruct (Hocc (seg_text val seg ++ pre) e post He) as (s1 & s2 & Hseg & Hl).
  { by rewrite texts_cons, Hp, <-(assoc_L (++)). }
  rewrite length_app in Hl. destruct s1 as [|s s1].
  { destruct (seg_text val seg); [done|cbn in Hl; lia]. }
  injection Hseg as <- ->. exists s1, s2. split; [done|]. rewrite texts_cons_length in Hl. lia.
Qed.

(** Then the segmentation that substituted the text also scans it. *)
Lemma scans_back key val es segs :
  (∀ e, e ∈ es → val e ≠ []) → scans key es segs → placed val es segs → scans val es segs.
Proof.
  intros Hne Hs. induction Hs as [|b segs Hb Hs IH|e segs He Hk Hmax Hs IH]; intros Hocc.
  - constructor.
  - constructor; [|apply IH; by eapply placed_tail].
    intros e He _ Hp. by apply (placed_head val es (Lit b) segs e) in Hp.
  - constructor; [done|by apply Hne| |apply IH; eapply placed_tail; [done|by apply Hne]].
    intros e' He' Hp. apply (placed_head val es (Sub e) segs e') in Hp; [|done|by apply Hne|done].
    by injection Hp as ->.
Qed.

(** ** Searching *)

Lemma bytes_Contains_spec s sub :
  bytes_Contains s sub = true ↔ ∃ pre post, s = pre ++ sub ++ post.
Proof.
  induction s as [|b s IH]; cbn [bytes_Contains]; unfold bytes_HasPrefix;
    rewrite orb_true_iff, bool_decide_eq_true.
  - split; [intros [[post Hp]|]; [by exists [], post|done]|].
    intros (pre & post & Hp). left. symmetry in Hp.
    apply app_nil in Hp as [_ [-> _]%app_nil]. apply prefix_nil.
  - rewrite IH. split.
    + intros [[post ->]|(pre & post & ->)]; [by exists [], post|by exists (b :: pre), post].
    + intros ([|c pre] & post & Hp); [left; by exists post|right].
      cbn in Hp. simplify_eq. by exists pre, post.
Qed.

(** [ContainsFake] finds nothing exactly on data without fakes. *)
Lemma ContainsFake_None t data :
  table_wf t →
  ContainsFake t data = None ↔ ∀ e pre post, e ∈ t → data ≠ pre ++ Fake e ++ post.
Proof.
  intros Hwf. unfold ContainsFake.
  destruct (Nat.eqb_spec (length data) 0) as [->%nil_length_inv|_].
  - split; [|done]. intros _ e pre post He Hp. symmetry in Hp.
    apply app_nil in Hp as [_ [Hf _]%app_nil]. by apply (wf_fake_ne _ Hwf) in He.
  - rewrite fmap_None, find_first_None. split.
    + intros H e pre post He Hp. specialize (H e He). apply not_true_iff_false in H.
      destruct H. apply bytes_Contains_spec. eauto.
    + intros H e He. apply not_true_iff_false. intros (pre & post & Hp)%bytes_Contains_spec.
      by apply (H e pre post).
Qed.

Lemma ContainsFake_Some t data svc :
  ContainsFake t data = Some svc →
  ∃ e pre post, e ∈ t ∧ ServiceName e = svc ∧ data = pre ++ Fake e ++ post.
Proof.
  unfold ContainsFake. case_match; [done|].
  intros (e & Hf & ->)%fmap_Some. apply find_first_Some in Hf as [He Hc].
  apply bytes_Contains_spec in Hc as (pre & post & ->). by exists e, pre, post.
Qed.

(** ** The substitutions *)

Lemma ReplaceFakeToReal_scans t body :
  ∃ segs, scans Fake t segs ∧ texts Fake segs = body ∧ ReplaceFakeToReal t body = texts Real segs.
Proof.
  destruct (replace_scans Fake Real t body) as (segs & Hs & Ht & Hr). exists segs.
  unfold ReplaceFakeToReal. by rewrite Hr.
Qed.

Lemma ReplaceRealToFake_scans t body :
  ∃ segs, scans Real t segs ∧ texts Real segs = body ∧ ReplaceRealToFake t body = texts Fake segs.
Proof.
  destruct (replace_scans Real Fake t body) as (segs & Hs & Ht & Hr). exists segs.
  unfold ReplaceRealToFake. by rewrite Hr.
Qed.

(** A text without fakes is sent as it is. *)
Lemma ReplaceFakeToReal_id t body :
  table_wf t → (∀ e pre post, e ∈ t → body ≠ pre ++ Fake e ++ post) →
  ReplaceFakeToReal t body = body.
Proof.
  intros Hwf Hno. destruct (ReplaceFakeToReal_scans t body) as (segs & Hs & <- & ->).
  induction segs as [|[b|e] segs IH]; [done| |].
  - rewrite !texts_cons. f_equal. inversion Hs; subst. apply IH; [|done].
    intros e pre post He Heq. apply (Hno e (b :: pre) post He). rewrite texts_cons, Heq. done.
  - destruct (Hno e [] (texts Fake segs)); [|done]. by inversion Hs.
Qed.

End Table.

(** ** Fake credentials (fakegen.go) *)
Module FakeGen.

Definition minFakeEntropy : Z := 24.

Definition base62 : string := "ABCDEFGHIJKLMNOPQRSTUVWXYZabcdefghijklmnopqrstuvwxyz0123456789".

Inductive FakeError :=
| ErrInvalidFakeFormat
| ErrFakeLengthMismatch
| ErrFakeEntropyTooLow
| ErrRand.

#[export] Instance FakeError_eq_dec : EqDecision FakeError.
Proof. solve_decision. Defined.

(** [strings.Index], and [strings.Count] for a nonempty pattern: matches that do
    not overlap, counted from the left. *)
Fixpoint str_index (s sub : string) : option nat :=
  if HasPrefix s sub then Some 0
  else match s with EmptyString => None | String _ s' => S <$> str_index s' sub end.

Fixpoint str_count (fuel : nat) (s sub : string) : nat :=
  match fuel with
  | O => 0
  | S fuel =>
      match str_index s sub with
      | None => 0
      | Some i => S (str_count fuel (str_drop (i + String.length sub) s) sub)
      end
  end.

Definition placeholder : string := "{rand:".

Definition ParseFormat (format : string) : Result FakeError (string * Z) :=
  if String.eqb format "" then Err ErrInvalidFakeFormat
  else match str_index format placeholder with
  | None => Err ErrInvalidFakeFormat
  | Some idx =>
      if negb (str_count (String.length format) format placeholder =? 1) then Err ErrInvalidFakeFormat
      else if negb (HasSuffix format "}") then Err ErrInvalidFakeFormat
      else
        let start := idx + String.length placeholder in
        let inner := str_take (String.length format - 1 - start) (str_drop start format) in
        if String.eqb inner "" then Err ErrInvalidFakeFormat
        else match ParseInt64 inner with
        | None => Err ErrInvalidFakeFormat
        | Some n =>
            if (n <=? 0)%Z then Err ErrInvalidFakeFormat
            else if (n <? minFakeEntropy)%Z then Err ErrFakeEntropyTooLow
            else if negb (start + String.length inner + 1 =? String.length format)
                 then Err ErrInvalidFakeFormat
            else Ok (str_take idx format, n)
        end
  end.

(** [base62[int(b)%len(base62)]]: the remainder is always in range. *)
Definition base62_byte (b : ascii) : ascii :=
  default zero_byte (to_bytes base62 !! (nat_of_ascii b mod String.length base62)).

(** [GenerateFake], with [rand_Read] the outcome of crypto/rand's [Read]. *)
Definition GenerateFake (rand_Read : nat → option bytes) (format : string) (realLen : nat)
    : Result FakeError bytes :=
  let! (prefix, randLen) := ParseFormat format in
  if negb (Z.of_nat (String.length prefix) + randLen =? Z.of_nat realLen)%Z
  then Err ErrFakeLengthMismatch
  else match rand_Read (Z.to_nat randLen) with
       | None => Err ErrRand
       | Some randBytes => Ok (to_bytes prefix ++ (base62_byte <$> randBytes))
       end.

Lemma to_bytes_length s : length (to_bytes s) = String.length s.
Proof. unfold to_bytes. induction s as [|c s IH]; [done|]. cbn. by rewrite IH. Qed.

Lemma ParseFormat_entropy format prefix n : ParseFormat format = Ok (prefix, n) → (minFakeEntropy ≤ n)%Z.
Proof. unfold ParseFormat. intros Hp. repeat (case_match; try done). simplify_eq. bool_hyps. done. Qed.

Lemma base62_byte_in b : base62_byte b ∈ to_bytes base62.
Proof.
  unfold base62_byte.
  destruct (lookup_lt_is_Some_2 (to_bytes base62) (nat_of_ascii b mod String.length base62)) as [c Hc].
  { rewrite to_bytes_length. apply Nat.mod_upper_bound. done. }
  rewrite Hc. cbn. by eapply list_elem_of_lookup_2.
Qed.

(** A generated fake has the prefix of its format, the length of the secret and at
    least 24 base-62 characters. *)
Lemma GenerateFake_ok rand_Read format realLen fake :
  (∀ n b, rand_Read n = Some b → length b = n) →
  GenerateFake rand_Read format realLen = Ok fake →
  length fake = realLen ∧
  ∃ prefix rnd, fake = to_bytes prefix ++ rnd ∧ ParseFormat format = Ok (prefix, Z.of_nat (length rnd)) ∧
    24 ≤ length rnd ∧ Forall (.∈ to_bytes base62) rnd.
Proof.
  intros Hlen. unfold GenerateFake. destruct (ParseFormat format) as [[prefix n]|] eqn:Hp; [|done].
  cbn [rbind]. pose proof (ParseFormat_entropy _ _ _ Hp) as Hn. unfold minFakeEntropy in Hn.
  destruct (Z.eqb_spec (Z.of_nat (String.length prefix) + n) (Z.of_nat realLen)) as [Heq|]; [|done].
  cbn [negb]. destruct (rand_Read (Z.to_nat n)) as [b|] eqn:Hr; [|done]. intros [= <-].
  apply Hlen in Hr. split.
  - rewrite length_app, length_fmap, to_bytes_length. lia.
  - exists prefix, (base62_byte <$> b). rewrite length_fmap, Hr, Z2Nat.id by lia.
    split_and!; [done|done|lia|]. apply Forall_fmap, Forall_true. apply base62_byte_in.
Qed.
End FakeGen.

(** ** Bootstrap (internal/session/secrets.go) *)
Module Bootstrap.
Import Table FakeGen.

Section Bootstrap.
(** The secret providers behind [SecretFetcher.Fetch], crypto/rand (attempt [j]
    for service [i]), the clock. *)
Context {SecretRef FetchError : Type}
  (Fetch : SecretRef → Result FetchError bytes)
  (rand_Read : nat → nat → nat → option bytes)
  (now : nat → Z).

Record ServiceConfig := {
  sc_Name : string;
  sc_SecretRef : SecretRef;
  sc_FakeFormat : string;
}.

Inductive BootError :=
| BE_Fetch (name : string) (e : FetchError)
| BE_Generate (name : string) (e : FakeError)
| BE_Regenerate (name : string) (e : FakeError)
| BE_Add (name : string) (e : AddError).

(** What happens to secret material, in order. *)
Inductive BootEvent :=
| EvFetched (name : string)
| EvSecretZeroed (name : string)
| EvTableZeroed (wiped : list Entry).

Definition fail_with (e : BootError) (t : Table) (evs : list BootEvent)
    : Result BootError Table * list BootEvent :=
  (Err e, evs ++ [EvTableZeroed (Zero t).1]).

Fixpoint boot_loop (services : list ServiceConfig) (i : nat) (table : Table) (evs : list BootEvent)
    : Result BootError Table * list BootEvent :=
  match services with
  | [] => (Ok table, evs)
  | svc :: rest =>
      match Fetch (sc_SecretRef svc) with
      | Err e => fail_with (BE_Fetch (sc_Name svc) e) table evs
      | Ok sv =>
          let evs := evs ++ [EvFetched (sc_Name svc)] in
          let zeroed := evs ++ [EvSecretZeroed (sc_Name svc)] in
          match GenerateFake (rand_Read i 0) (sc_FakeFormat svc) (length sv) with
          | Err e => fail_with (BE_Generate (sc_Name svc) e) table zeroed
          | Ok fake =>
              match Add table (sc_Name svc) fake sv (now i) with
              | Ok table' => boot_loop rest (S i) table' zeroed
              | Err _ =>
                  match GenerateFake (rand_Read i 1) (sc_FakeFormat svc) (length sv) with
                  | Err e => fail_with (BE_Regenerate (sc_Name svc) e) table zeroed
                  | Ok fake2 =>
                      match Add table (sc_Name svc) fake2 sv (now i) with
                      | Err e => fail_with (BE_Add (sc_Name svc) e) table zeroed
                      | Ok table' => boot_loop rest (S i) table' zeroed
                      end
                  end
              end
          end
      end
  end.

(** The returned cleanup function is [Zero] on the table. *)
Definition BootstrapCredentials (services : list ServiceConfig)
    : Result BootError Table * list BootEvent :=
  boot_loop services 0 New [].

(** [BuildServiceEnvVars]: [windows] is [runtime.GOOS]. *)
Record ServiceEnvVar := { ev_ServiceName : string; ev_VarName : string }.

Inductive EnvError :=
| EE_InvalidName (var svc : string)
| EE_Duplicate (var prev svc : string).

Definition envVarKey `{GoLib} (windows : bool) (name : string) : string :=
  if windows then ToUpper name else name.

Fixpoint check_env_names `{GoLib} (windows : bool) (envVars : list ServiceEnvVar)
    (owner : gmap string string) : option EnvError :=
  match envVars with
  | [] => None
  | ev :: rest =>
      if String.eqb (ev_VarName ev) "" || ContainsAny (ev_VarName ev) (String "=" (String zero_byte ""))
      then Some (EE_InvalidName (ev_VarName ev) (ev_ServiceName ev))
      else match owner !! envVarKey windows (ev_VarName ev) with
           | Some prev => Some (EE_Duplicate (ev_VarName ev) prev (ev_ServiceName ev))
           | None => check_env_names windows rest
                       (<[envVarKey windows (ev_VarName ev) := ev_ServiceName ev]> owner)
           end
  end.

(** The table is [None] for a nil pointer; the result is [None] for a nil map. *)
Definition BuildServiceEnvVars `{GoLib} (windows : bool) (envVars : list ServiceEnvVar)
    (table : option Table) : Result EnvError (option (gmap string string)) :=
  if length envVars =? 0 then Ok None
  else match check_env_names windows envVars ∅ with
  | Some e => Err e
  | None =>
      match table with
      | None => Ok None
      | Some t =>
          let result := foldl (λ m ev,
            match FakeForService t (ev_ServiceName ev) with
            | Some fake => <[ev_VarName ev := of_bytes fake]> m
            | None => m
            end) ∅ envVars in
          if bool_decide (result = ∅) then Ok None else Ok (Some result)
      end
  end.

(** ** What the bootstrap guarantees *)

Definition fetched (evs : list BootEvent) : list string :=
  omap (λ ev, match ev with EvFetched n => Some n | _ => None end) evs.
Definition zeroed (evs : list BootEvent) : list string :=
  omap (λ ev, match ev with EvSecretZeroed n => Some n | _ => None end) evs.

(** An entry holds the secret of its service and a fake of its format. *)
Definition entry_for (svc : ServiceConfig) (e : Entry) : Prop :=
  ServiceName e = sc_Name svc ∧ Fetch (sc_SecretRef svc) = Ok (Real e) ∧
  ∃ prefix rnd, Fake e = to_bytes prefix ++ rnd ∧
    ParseFormat (sc_FakeFormat svc) = Ok (prefix, Z.of_nat (length rnd)) ∧
    24 ≤ length rnd ∧ Forall (.∈ to_bytes base62) rnd.

Definition wiped_entry (e : Entry) : Prop :=
  Forall (eq zero_byte) (Fake e) ∧ Forall (eq zero_byte) (Real e).

Lemma Zero_wiped t : Forall wiped_entry (Zero t).1.
Proof.
  apply Forall_fmap, Forall_true. intros e. split; apply Forall_forall; intros x;
    by intros (? & -> & ?)%list_elem_of_fmap.
Qed.

Context (rand_full : ∀ i j n b, rand_Read i j n = Some b → length b = n).

Definition boot_post (services : list ServiceConfig) (table : Table)
    (res : Result BootError Table * list BootEvent) : Prop :=
  fetched res.2 = zeroed res.2 ∧
  match res.1 with
  | Ok t => table_wf t ∧ ∃ new, t = table ++ new ∧ Forall2 entry_for services new
  | Err _ => ∃ wiped, last res.2 = Some (EvTableZeroed wiped) ∧ Forall wiped_entry wiped
  end.

Lemma fail_with_post services e t evs :
  fetched evs = zeroed evs → boot_post services t (fail_with e t evs).
Proof.
  intros Hz. unfold boot_post, fail_with. cbn [fst snd]. split.
  - unfold fetched, zeroed. rewrite !omap_app. cbn. by rewrite !app_nil_r.
  - eexists. rewrite last_snoc. split; [done|]. apply Zero_wiped.
Qed.

Lemma boot_loop_post services i table evs :
  table_wf table → fetched evs = zeroed evs →
  boot_post services table (boot_loop services i table evs).
Proof.
  revert i table evs. induction services as [|svc services IH]; intros i table evs Hwf Hz.
  { cbn. split; [done|]. split; [done|]. exists []. by rewrite app_nil_r. }
  cbn [boot_loop]. destruct (Fetch (sc_SecretRef svc)) as [sv|e] eqn:Hf; [|by apply fail_with_post].
  cbn zeta. set (evs' := (evs ++ [EvFetched _]) ++ [EvSecretZeroed _]).
  assert (Hz' : fetched evs' = zeroed evs').
  { unfold evs', fetched, zeroed in *. rewrite !omap_app, Hz. cbn. by rewrite !app_nil_r. }
  assert (Hstep : ∀ j fake table', GenerateFake (rand_Read i j) (sc_FakeFormat svc) (length sv) = Ok fake →
    Add table (sc_Name svc) fake sv (now i) = Ok table' →
    boot_post (svc :: services) table (boot_loop services (S i) table' evs')).
  { intros j fake table' Hg Ha. pose proof (Add_wf _ _ _ _ _ _ Ha Hwf) as Hwf'.
    destruct (IH (S i) table' evs' Hwf' Hz') as [Hz2 Hres]. split; [done|].
    destruct (boot_loop _ _ _ _) as [[t|e] evs2]; [|done]. cbn [fst] in *.
    destruct Hres as (Hwt & new & -> & Hnew). split; [done|].
    pose proof (Add_cases table (sc_Name svc) fake sv (now i)) as Hc. rewrite Ha in Hc. subst table'.
    exists (MkEntry (sc_Name svc) fake sv (now i) :: new). rewrite <-(assoc_L (++)). split; [done|].
    constructor; [|done]. split_and!; [done..|].
    destruct (GenerateFake_ok _ _ _ _ (rand_full i j) Hg) as [_ Hok]. done. }
  destruct (GenerateFake (rand_Read i 0) _ _) as [fake|] eqn:Hg; [|by apply fail_with_post].
  destruct (Add table _ fake _ _) eqn:Ha; [by eapply Hstep|].
  destruct (GenerateFake (rand_Read i 1) _ _) as [fake2|] eqn:Hg2; [|by apply fail_with_post].
  destruct (Add table _ fake2 _ _) eqn:Ha2; [by eapply Hstep|by apply fail_with_post].
Qed.

(** The environment of the agent: values are fakes. *)
Lemma env_fold_fakes t envVars (m : gmap string string) :
  (∀ k v, m !! k = Some v → ∃ e, e ∈ t ∧ v = of_bytes (Fake e)) →
  ∀ k v, foldl (λ m ev, match FakeForService t (ev_ServiceName ev) with
                        | Some fake => <[ev_VarName ev := of_bytes fake]> m
                        | None => m end) m envVars !! k = Some v →
  ∃ e, e ∈ t ∧ v = of_bytes (Fake e).
Proof.
  revert m. induction envVars as [|ev envVars IH]; intros m Hm; [done|]. cbn [foldl]. apply IH.
  unfold FakeForService. destruct (find_first _ t) as [e|] eqn:Hf; [|done].
  apply find_first_Some in Hf as [He _]. cbn. intros k v.
  destruct (decide (ev_VarName ev = k)) as [<-|Hne].
  - rewrite lookup_insert_eq. intros [= <-]. eauto.
  - rewrite lookup_insert_ne by done. apply Hm.
Qed.
End Bootstrap.

Arguments ServiceConfig : clear implicits.
Arguments BootError : clear implicits.
End Bootstrap.

Section Theorems.
Import Table FakeGen Bootstrap.

(** Tables reachable through the methods. *)
Inductive table_reach : Table → Prop :=
| table_New : table_reach New
| table_Add t svc fake real now t' :
    table_reach t → Add t svc fake real now = Ok t' → table_reach t'
| table_Zero t : table_reach t → table_reach (Zero t).2.

Lemma table_reach_wf t : table_reach t → table_wf t.
Proof.
  induction 1 as [|t svc fake real now t' _ IH Hadd|]; [apply wf_New|by apply Add_wf in Hadd|apply wf_New].
Qed.

(** C38. [Add] keeps the table well formed, so every table the methods can build
    has nonempty values, fakes as long as their reals, one entry per service and
    no value in use twice; it accepts exactly the pairs that keep it so, appends
    them, and otherwise names the reason. *)
Theorem table_invariant t :
  table_reach t →
  table_wf t ∧
  ∀ svc fake real now,
    match Add t svc fake real now with
    | Ok t' => t' = t ++ [MkEntry svc fake real now]
    | Err ErrEmptyValue => fake = [] ∨ real = []
    | Err ErrLengthMismatch => fake ≠ [] ∧ real ≠ [] ∧ length fake ≠ length real
    | Err ErrServiceExists => ∃ e, e ∈ t ∧ ServiceName e = svc
    | Err ErrFakeCollision =>
        fake = real ∨ ∃ e, e ∈ t ∧ (Fake e = fake ∨ Real e = fake ∨ Fake e = real ∨ Real e = real)
    end ∧
    (Add t svc fake real now = Ok (t ++ [MkEntry svc fake real now]) ↔
     table_wf (t ++ [MkEntry svc fake real now])).
Proof.
  intros Hr%table_reach_wf. split; [done|].
  intros svc fake real now. split; [apply Add_cases|by apply Add_ok_iff].
Qed.

(** C19. Each substitution computes the leftmost-longest, non-overlapping
    segmentation of the body and nothing else: its result is the text of the one
    segmentation of the body, with the credentials exchanged; it keeps the
    length, does not depend on the order of registration, and leaves alone a body
    without credentials. *)
Theorem substitution_spec t body out :
  table_wf t →
  (ReplaceFakeToReal t body = out ↔
     ∃ segs, scans Fake t segs ∧ texts Fake segs = body ∧ texts Real segs = out) ∧
  (ReplaceRealToFake t body = out ↔
     ∃ segs, scans Real t segs ∧ texts Real segs = body ∧ texts Fake segs = out) ∧
  length (ReplaceFakeToReal t body) = length body ∧
  length (ReplaceRealToFake t body) = length body ∧
  (∀ t', t ≡ₚ t' → ReplaceFakeToReal t' body = ReplaceFakeToReal t body ∧
                   ReplaceRealToFake t' body = ReplaceRealToFake t body) ∧
  (ContainsFake t body = None → ReplaceFakeToReal t body = body).
Proof.
  intros Hwf. pose proof (wf_fake_inj t Hwf) as Hfi. pose proof (wf_real_inj t Hwf) as Hri.
  destruct (ReplaceFakeToReal_scans t body) as (s1 & Hs1 & Ht1 & Hr1).
  destruct (ReplaceRealToFake_scans t body) as (s2 & Hs2 & Ht2 & Hr2).
  assert (Hlen : ∀ key segs, scans key t segs → length (texts Fake segs) = length (texts Real segs)).
  { intros key segs Hs. apply texts_length. intros e He. apply (wf_length _ Hwf).
    by eapply scans_mem. }
  split_and!.
  - rewrite Hr1. split; [intros <-; by exists s1|]. intros (segs & Hs & Ht & <-).
    rewrite (scans_unique Fake t s1 segs) by (done || congruence). done.
  - rewrite Hr2. split; [intros <-; by exists s2|]. intros (segs & Hs & Ht & <-).
    rewrite (scans_unique Real t s2 segs) by (done || congruence). done.
  - rewrite Hr1, <-Ht1. symmetry. by apply (Hlen Fake).
  - rewrite Hr2, <-Ht2. by apply (Hlen Real).
  - intros t' Hp.
    destruct (ReplaceFakeToReal_scans t' body) as (s1' & Hs1' & Ht1' & ->).
    destruct (ReplaceRealToFake_scans t' body) as (s2' & Hs2' & Ht2' & ->).
    rewrite Hr1, Hr2. symmetry in Hp. split; f_equal.
    + apply (scans_unique Fake t); [done|by eapply scans_perm|done|congruence].
    + apply (scans_unique Real t); [done|by eapply scans_perm|done|congruence].
  - intros Hc. apply ReplaceFakeToReal_id; [done|]. by apply ContainsFake_None.
Qed.

(** C37. Scrubbing misses no real credential: every occurrence of one in a
    response overlaps a window that was overwritten with a fake, so no real
    credential of the response comes through whole. *)
Theorem scrub_complete t e pre post :
  table_wf t → e ∈ t →
  ∃ s1 e' s2, e' ∈ t ∧
    pre ++ Real e ++ post = texts Real s1 ++ Real e' ++ texts Real s2 ∧
    ReplaceRealToFake t (pre ++ Real e ++ post) = texts Fake s1 ++ Fake e' ++ texts Fake s2 ∧
    length (texts Fake s1) = length (texts Real s1) ∧ Fake e' ≠ Real e' ∧
    length (texts Real s1) < length pre + length (Real e) ∧
    length pre < length (texts Real s1) + length (Real e').
Proof.
  intros Hwf He.
  destruct (ReplaceRealToFake_scans t (pre ++ Real e ++ post)) as (segs & Hs & Ht & Hr).
  destruct (scans_overlap Real t segs e pre post) as (s1 & e' & s2 & -> & ? & ?);
    [done|done|by apply (wf_real_ne t)|done|].
  assert (Hin : ∀ x, Sub x ∈ s1 ++ Sub e' :: s2 → x ∈ t) by (intros x; by apply scans_mem with Real).
  assert (e' ∈ t) by (apply Hin, elem_of_app; right; apply elem_of_cons; by left).
  exists s1, e', s2. rewrite Hr, <-Ht, !texts_app, !texts_cons. split_and!; try done.
  - apply texts_length. intros x Hx. apply (wf_length _ Hwf), Hin, elem_of_app. by left.
  - by apply (wf_disjoint t).
Qed.

(** Round trip: when every real credential in a rewritten request is one that
    the substitution put there, scrubbing the request gives back what the agent
    wrote. *)
Theorem substitution_roundtrip t segs :
  table_wf t → scans Fake t segs → placed Real t segs →
  ReplaceRealToFake t (ReplaceFakeToReal t (texts Fake segs)) = texts Fake segs.
Proof.
  intros Hwf Hs Hp.
  destruct (ReplaceFakeToReal_scans t (texts Fake segs)) as (s1 & Hs1 & Ht1 & ->).
  rewrite (scans_unique Fake t s1 segs) by (done || by apply wf_fake_inj).
  destruct (ReplaceRealToFake_scans t (texts Real segs)) as (s2 & Hs2 & Ht2 & ->).
  f_equal. apply (scans_unique Real t); [by apply wf_real_inj|done| |done].
  apply (scans_back Fake); [by apply (wf_real_ne t)|done..].
Qed.

(** Bootstrap: every secret that is fetched is wiped on every path; on success
    each service has one entry, holding its secret and a fake of its format with
    at least 24 random base-62 characters; on failure the last thing that happens
    is that the partial table is overwritten with zeros. *)
Theorem bootstrap_credentials {SecretRef FetchError}
    (Fetch : SecretRef → Result FetchError bytes) rand_Read now services :
  (∀ i j n b, rand_Read i j n = Some b → length b = n) →
  let '(res, evs) := BootstrapCredentials Fetch rand_Read now services in
  fetched evs = zeroed evs ∧
  match res with
  | Ok t => table_wf t ∧ Forall2 (entry_for Fetch) services t
  | Err _ => ∃ wiped, last evs = Some (EvTableZeroed wiped) ∧ Forall wiped_entry wiped
  end.
Proof.
  intros Hfull. pose proof (boot_loop_post Fetch rand_Read now Hfull services 0 New []) as [Hz Hres];
    [apply wf_New|done|].
  unfold BootstrapCredentials. destruct (boot_loop _ _ _ _ _ _ _) as [[t|e] evs]; (split; [done|]);
    [|done]. destruct Hres as (Hwf & new & -> & Hf). done.
Qed.

(** The agent's environment holds fakes only: no variable is a real credential. *)
Lemma env_has_no_real `{GoLib} windows envVars t m k v :
  table_wf t → BuildServiceEnvVars windows envVars (Some t) = Ok (Some m) → m !! k = Some v →
  (∃ e, e ∈ t ∧ v = of_bytes (Fake e)) ∧ ∀ e, e ∈ t → v ≠ of_bytes (Real e).
Proof.
  intros Hwf Hb Hk.
  assert (∃ e, e ∈ t ∧ v = of_bytes (Fake e)) as (e & He & ->).
  { unfold BuildServiceEnvVars in Hb. repeat (case_match; try done). simplify_eq.
    eapply (env_fold_fakes t envVars ∅); [|done]. intros ? ?. by rewrite lookup_empty. }
  split; [eauto|]. intros e' He' Heq. apply (f_equal to_bytes) in Heq. rewrite !to_of_bytes in Heq.
  by apply (wf_disjoint t Hwf e e').
Qed.

End Theorems.

(** ** Evaluation on concrete tables *)
Section Examples.
Import Table FakeGen Bootstrap.

Definition ex_a : Entry := MkEntry "a" (to_bytes "fake-a") (to_bytes "real-a") 1.
Definition ex_b : Entry := MkEntry "b" (to_bytes "fake-abc") (to_bytes "real-abc") 2.
Definition ex_table : Table := [ex_a; ex_b].

Lemma ex_table_reach : table_reach ex_table.
Proof.
  apply (table_Add [ex_a] "b" (to_bytes "fake-abc") (to_bytes "real-abc") 2); [|by vm_compute].
  apply (table_Add [] "a" (to_bytes "fake-a") (to_bytes "real-a") 1); [constructor|by vm_compute].
Qed.

(** The longer match wins, also when it was registered later. *)
Example ex_longest :
  of_bytes (ReplaceFakeToReal ex_table (to_bytes "x fake-abcd fake-ab")) = "x real-abcd real-ab".
Proof. by vm_compute. Qed.

Example ex_add_errors :
  Add ex_table "c" (to_bytes "k") (to_bytes "kk") 3 = Err ErrLengthMismatch ∧
  Add ex_table "c" [] (to_bytes "kk") 3 = Err ErrEmptyValue ∧
  Add ex_table "a" (to_bytes "kk") (to_bytes "ll") 3 = Err ErrServiceExists ∧
  Add ex_table "c" (to_bytes "real-a") (to_bytes "qqqqqq") 3 = Err ErrFakeCollision.
Proof. by vm_compute. Qed.

Lemma table_invariant_witness :
  table_wf ex_table ∧ Add ex_table "a" (to_bytes "kk") (to_bytes "ll") 3 = Err ErrServiceExists.
Proof.
  destruct (table_invariant ex_table ex_table_reach) as [Hwf Hadd]. split; [exact Hwf|].
  pose proof (Hadd "a" (to_bytes "kk") (to_bytes "ll") 3%Z) as _. vm_compute. reflexivity.
Defined.

Lemma substitution_spec_witness :
  length (ReplaceFakeToReal ex_table (to_bytes "x fake-abcd")) = 11 ∧
  ReplaceFakeToReal [ex_b; ex_a] (to_bytes "x fake-abcd") = ReplaceFakeToReal ex_table (to_bytes "x fake-abcd").
Proof.
  destruct (substitution_spec ex_table (to_bytes "x fake-abcd") []
              (table_reach_wf _ ex_table_reach)) as (_ & _ & Hl & _ & Hp & _).
  split; [exact Hl|]. exact (proj1 (Hp [ex_b; ex_a] (Permutation_swap _ _ _))).
Defined.

Lemma scrub_complete_witness :
  ∃ s1 e' s2, e' ∈ ex_table ∧
    ReplaceRealToFake ex_table (to_bytes "x real-a y") = texts Fake s1 ++ Fake e' ++ texts Fake s2.
Proof.
  destruct (scrub_complete ex_table ex_a (to_bytes "x ") (to_bytes " y")) as (s1 & e' & s2 & He & _ & Hr & _).
  - exact (table_reach_wf _ ex_table_reach).
  - apply list_elem_of_here.
  - exists s1, e', s2. split; [exact He|exact Hr].
Defined.

Definition ex_k : Entry := MkEntry "k" (to_bytes "fk") (to_bytes "rk") 1.
Definition ex_segs : list Seg := [Lit "x"%char; Sub ex_k].

Lemma ex_k_wf : table_wf [ex_k].
Proof.
  apply table_reach_wf, (table_Add [] "k" (to_bytes "fk") (to_bytes "rk") 1); [constructor|by vm_compute].
Qed.

Lemma ex_scans : scans Fake [ex_k] ex_segs.
Proof.
  constructor.
  - intros e ->%list_elem_of_singleton _ [post Hp]. discriminate Hp.
  - constructor; [by apply list_elem_of_singleton|done| |constructor].
    by intros e ->%list_elem_of_singleton.
Qed.

Lemma ex_placed : placed Real [ex_k] ex_segs.
Proof.
  intros pre e post ->%list_elem_of_singleton Hp. change (texts Real ex_segs) with (to_bytes "xrk") in Hp.
  exists [Lit "x"%char], []. split; [done|].
  destruct pre as [|c1 [|c2 [|c3 pre]]]; try discriminate Hp; [done|].
  apply (f_equal length) in Hp. rewrite !length_app in Hp. cbn in Hp. lia.
Qed.

Lemma substitution_roundtrip_witness :
  ReplaceRealToFake [ex_k] (ReplaceFakeToReal [ex_k] (texts Fake ex_segs)) = to_bytes "xfk".
Proof. exact (substitution_roundtrip [ex_k] ex_segs ex_k_wf ex_scans ex_placed). Defined.

Definition ex_services : list (ServiceConfig string) :=
  [ {| sc_Name := "gh"; sc_SecretRef := "vault"; sc_FakeFormat := "ghp_{rand:24}" |} ].
Definition ex_secret : bytes := to_bytes "ghp_realrealrealrealrealreal".
Definition ex_fetch (_ : string) : Result unit bytes := Ok ex_secret.
Definition ex_rand (_ _ n : nat) : option bytes := Some (repeat "7"%char n).

(** ['7'] is byte 55, the 55th character of the alphabet is ['3']. *)
Example ex_boot :
  (BootstrapCredentials ex_fetch ex_rand (λ _, 0%Z) ex_services).1 =
  Ok [MkEntry "gh" (to_bytes "ghp_333333333333333333333333") ex_secret 0].
Proof. by vm_compute. Qed.

Lemma bootstrap_credentials_witness :
  ∃ t evs, BootstrapCredentials ex_fetch ex_rand (λ _, 0%Z) ex_services = (Ok t, evs) ∧
    fetched evs = zeroed evs ∧ table_wf t.
Proof.
  assert (Hfull : ∀ i j n b, ex_rand i j n = Some b → length b = n)
    by (intros i j n b [= <-]; apply repeat_length).
  pose proof (bootstrap_credentials ex_fetch ex_rand (λ _, 0%Z) ex_services Hfull) as H.
  destruct (BootstrapCredentials ex_fetch ex_rand (λ _, 0%Z) ex_services) as [r evs] eqn:Hb.
  destruct r as [t|e]; [|vm_compute in Hb; discriminate Hb].
  exists t, evs. split; [reflexivity|]. split; [exact (proj1 H)|exact (proj1 (proj2 H))].
Defined.
End Examples.
