(* ===== verification/ProxyHooks.v ===== *)
(** * Proxy hooks and declared services

    internal/proxy: hooks.go (the hook registry), credshook.go (leak guard,
    credential substitution, header injection) and declared_service.go (requests
    below [/svc/<name>/]), over the tables of [CredTable] and the service policy of
    [HttpService].

    A request is a record of the fields the code reads and writes; hooks are
    records of functions that return the changed request. The upstream, the
    approvals manager and SHA-256 are parameters. A body is absent, readable or
    fails to read; [http.NoBody] is a readable empty body. Log lines of the
    structured logger and timestamps are left out; what is handed to the body and
    request store is kept, in order.

    The theorems follow a request from the policy check through the guard and the
    substitution to the upstream, and the response back. Two of them isolate where
    the code does less than it intends: the guard only looks at the first
    registered credential it finds, and the policy sees the path only up to its
    first question mark. *)

From S2P Require Import Prelude ShellParse PolicyEngine HttpService CredTable.

Local Open Scope nat_scope.

(** ** net/http and net/url *)

Notation Header := (gmap string (list string)).

Definition validHeaderFieldByte (c : ascii) : bool := alnum c || str_mem c "!#$%&'*+-.^_`|~".

Fixpoint canon_case (upper : bool) (s : string) : string :=
  match s with
  | EmptyString => EmptyString
  | String c s => String ((if upper then upper_byte else lower_byte) c) (canon_case (Ascii.eqb c "-") s)
  end.

(** [http.CanonicalHeaderKey]: names with other bytes are returned as they are. *)
Definition CanonicalHeaderKey (s : string) : string :=
  if str_forall validHeaderFieldByte s then canon_case true s else s.

Definition header_Values (h : Header) (k : string) : list string :=
  default [] (h !! CanonicalHeaderKey k).
Definition header_Get (h : Header) (k : string) : string := default "" (head (header_Values h k)).
Definition header_Del (h : Header) (k : string) : Header := delete (CanonicalHeaderKey k) h.
Definition header_Set (h : Header) (k v : string) : Header := <[CanonicalHeaderKey k := [v]]> h.
Definition header_Add (h : Header) (k v : string) : Header :=
  <[CanonicalHeaderKey k := header_Values h k ++ [v]]> h.

(** Path escaping ([encodePath]). *)
Definition shouldEscape (c : ascii) : bool :=
  negb (alnum c || str_mem c "-_.~" || str_mem c "$&+,/:;=@").

Definition hex_upper (n : nat) : ascii :=
  if n <? 10 then ascii_of_nat (48 + n) else ascii_of_nat (55 + n).
Definition hex_value (c : ascii) : option nat :=
  let n := nat_of_ascii c in
  if byte_in "0" "9" c then Some (n - 48)
  else if byte_in "A" "F" c then Some (n - 55)
  else if byte_in "a" "f" c then Some (n - 87)
  else None.

Fixpoint url_escape (s : string) : string :=
  match s with
  | EmptyString => EmptyString
  | String c s =>
      if shouldEscape c
      then String "%" (String (hex_upper (nat_of_ascii c / 16))
                        (String (hex_upper (nat_of_ascii c mod 16)) (url_escape s)))
      else String c (url_escape s)
  end.

Fixpoint url_unescape (s : string) : option string :=
  match s with
  | EmptyString => Some EmptyString
  | String c s' =>
      if Ascii.eqb c "%" then
        match s' with
        | String a (String b rest) =>
            x ← hex_value a; y ← hex_value b;
            String (ascii_of_nat (16 * x + y)) <$> url_unescape rest
        | _ => None
        end
      else String c <$> url_unescape s'
  end.

Definition validEncoded (s : string) : bool :=
  str_forall (λ c, str_mem c "!$&'()*+,;=:@[]%" || negb (shouldEscape c)) s.

(** [URL.EscapedPath]. *)
Definition EscapedPath (path raw : string) : string :=
  if negb (String.eqb raw "") && validEncoded raw && bool_decide (url_unescape raw = Some path) then raw
  else if String.eqb path "*" then "*"
  else url_escape path.

Record URL := mkURL {
  Scheme : string; UHost : string; UPath : string; URawPath : string; URawQuery : string }.

(** [url.Parse]; [http.NewRequest] prints the URL it is given and parses it again. *)
Class HttpLib := {
  url_ParseURL : string → option URL;
  http_NewRequestURL : URL → option URL;
  sha256_hex : bytes → string;
}.

(** [hasPort] and [removeEmptyPort] of net/http, which [http.NewRequest] applies
    to the host it parsed. *)
Definition hasPort (s : string) : bool :=
  match LastIndexAny s ":", LastIndexAny s "]" with
  | Some i, Some j => j <? i
  | Some _, None => true
  | None, _ => false
  end.
Definition removeEmptyPort (host : string) : string :=
  if hasPort host then TrimSuffix host ":" else host.

(** What the proxy relies on of net/url and net/http: [url_Parse] and
    [url_ParseURL] are views of one function, and printing a URL that has the scheme
    and host of a parsed one, whatever its path and query, and parsing it again gives
    that scheme and, less an empty port, that host. *)
Class HttpLaws `{UrlLib, HttpLib} := {
  url_Parse_view s : url_Parse s = (λ u, (Scheme u, UHost u)) <$> url_ParseURL s;
  NewRequest_keeps s u path raw query u' :
    url_ParseURL s = Some u → Scheme u ≠ "" → UHost u ≠ "" →
    http_NewRequestURL (mkURL (Scheme u) (UHost u) path raw query) = Some u' →
    Scheme u' = Scheme u ∧ UHost u' = removeEmptyPort (UHost u);
}.

(** ** Requests, responses, hooks *)

Inductive Body :=
| NilBody
| BodyOf (b : bytes)
| BodyFails.

(** What [io.ReadAll] returns, and whether it fails. *)
Definition body_bytes (b : Body) : bytes := match b with BodyOf b => b | _ => [] end.
Definition body_fails (b : Body) : bool := match b with BodyFails => true | _ => false end.

Record Request := mkRequest {
  Method : string; Host : string; Path : string; RawPath : string; RawQuery : string;
  ReqHeader : Header; ReqBody : Body; ContentLength : Z }.

Record Response := mkResponse {
  StatusCode : Z; RespHeader : Header; RespBody : Body; RespLength : Z }.

Record RequestContext := mkContext {
  RequestID : string; SessionID : string; CtxServiceName : string }.

Inductive HookError :=
| HookAbortError (StatusCode : Z) (Message : string)
| HookOtherError (Message : string).

(** The [Hook] interface; [HookHeader] is the header name of a
    [HeaderInjectionHook], which the registry finds by a type assertion. *)
Record Hook := mkHook {
  HookName : string;
  PreHook : Request → RequestContext → Request * option HookError;
  PostHook : Response → RequestContext → Response * option HookError;
  HookHeader : option string }.

(** *** The registry of hooks.go *)
Notation Registry := (gmap string (list Hook)).
Definition NewRegistry : Registry := ∅.
Definition Register (r : Registry) (serviceName : string) (h : Hook) : Registry :=
  <[serviceName := default [] (r !! serviceName) ++ [h]]> r.

Definition snapshot (r : Registry) (serviceName : string) : list Hook * list Hook :=
  (default [] (r !! ""), if String.eqb serviceName "" then [] else default [] (r !! serviceName)).

Fixpoint run_pre (hooks : list Hook) (req : Request) (ctx : RequestContext)
    : Request * option HookError :=
  match hooks with
  | [] => (req, None)
  | h :: hooks =>
      match PreHook h req ctx with
      | (req, Some err) => (req, Some err)
      | (req, None) => run_pre hooks req ctx
      end
  end.

Definition ApplyPreHooks (r : Registry) (serviceName : string) (req : Request) (ctx : RequestContext)
    : Request * option HookError :=
  let (global, scoped) := snapshot r serviceName in
  match run_pre global req ctx with
  | (req, Some err) => (req, Some err)
  | (req, None) => run_pre scoped req ctx
  end.

(** All post-hooks run; the first error is kept. *)
Definition post_step (ctx : RequestContext) (acc : Response * option HookError) (h : Hook)
    : Response * option HookError :=
  let '(resp, firstErr) := acc in
  let '(resp, err) := PostHook h resp ctx in
  (resp, match firstErr with Some e => Some e | None => err end).

Definition ApplyPostHooks (r : Registry) (serviceName : string) (resp : Response) (ctx : RequestContext)
    : Response * option HookError :=
  let (global, scoped) := snapshot r serviceName in
  foldl (post_step ctx) (foldl (post_step ctx) (resp, None) global) scoped.

Definition InjectedHeaderNamesForService (r : Registry) (serviceName : string) : list string :=
  let (global, scoped) := snapshot r serviceName in omap HookHeader global ++ omap HookHeader scoped.

(** *** The hooks of credshook.go *)
Section creds.
Context (table : Table.Table).

Definition subst_string (s : string) : string :=
  of_bytes (Table.ReplaceFakeToReal table (to_bytes s)).

(** The parts of the request after the body. *)
Definition subst_parts (r : Request) : Request :=
  mkRequest (Method r) (Host r)
    (if String.eqb (Path r) "" then Path r else subst_string (Path r))
    (if String.eqb (RawPath r) "" then RawPath r else subst_string (RawPath r))
    (if String.eqb (RawQuery r) "" then RawQuery r else subst_string (RawQuery r))
    (fmap (M := gmap string) (λ vals : list string, subst_string <$> vals) (ReqHeader r))
    (ReqBody r) (ContentLength r).

Definition set_req_body (r : Request) (b : Body) (n : Z) : Request :=
  mkRequest (Method r) (Host r) (Path r) (RawPath r) (RawQuery r) (ReqHeader r) b n.
Definition set_resp_body (r : Response) (b : Body) (n : Z) : Response :=
  mkResponse (StatusCode r) (RespHeader r) b n.

(** [CredsSubHook.PreHook]: best effort, a body that cannot be read ends it. *)
Definition CredsSub_PreHook (r : Request) (_ : RequestContext) : Request * option HookError :=
  match ReqBody r with
  | BodyFails => (r, None)
  | NilBody => (subst_parts r, None)
  | BodyOf body =>
      let replaced := Table.ReplaceFakeToReal table body in
      (subst_parts (set_req_body r (BodyOf replaced) (Z.of_nat (length replaced))), None)
  end.

(** [scrubServices] is [None] for a nil map. *)
Definition CredsSub_PostHook (scrubServices : option (gmap string bool)) (resp : Response)
    (ctx : RequestContext) : Response * option HookError :=
  match RespBody resp with
  | NilBody => (resp, None)
  | _ =>
      let skip := match scrubServices with
                  | Some m => negb (default false (m !! CtxServiceName ctx))
                  | None => false
                  end in
      if skip then (resp, None)
      else match RespBody resp with
           | BodyOf body =>
               let replaced := Table.ReplaceRealToFake table body in
               (set_resp_body resp (BodyOf replaced) (Z.of_nat (length replaced)), None)
           | _ => (resp, None)
           end
  end.

Definition NewCredsSubHook (scrubServices : option (gmap string bool)) : Hook :=
  mkHook "creds-sub" CredsSub_PreHook (CredsSub_PostHook scrubServices) None.

(** The test of [LeakGuardHook] on one part of a request. *)
Definition leaks (ctx : RequestContext) (data : bytes) : bool :=
  match Table.ContainsFake table data with
  | Some serviceName => negb (String.eqb serviceName (CtxServiceName ctx))
  | None => false
  end.

Definition leak_abort : HookError := HookAbortError 403 "credential leak blocked".

Definition LeakGuard_PreHook (r : Request) (ctx : RequestContext) : Request * option HookError :=
  if match ReqBody r with BodyOf body => leaks ctx body | _ => false end then (r, Some leak_abort)
  else if negb (String.eqb (RawQuery r) "") && leaks ctx (to_bytes (RawQuery r)) then (r, Some leak_abort)
  else if existsb (λ kv, existsb (λ v, leaks ctx (to_bytes v)) kv.2) (map_to_list (ReqHeader r))
       then (r, Some leak_abort)
  else if negb (String.eqb (Path r) "") && leaks ctx (to_bytes (Path r)) then (r, Some leak_abort)
  else (r, None).

Definition NewLeakGuardHook : Hook :=
  mkHook "leak-guard" LeakGuard_PreHook (λ resp _, (resp, None)) None.

(** [strings.Replace(s, old, new, 1)]. *)
Definition replace_first (s old new : string) : string :=
  match FakeGen.str_index s old with
  | None => s
  | Some i => str_take i s +:+ new +:+ str_drop (i + String.length old) s
  end.

Definition set_header (r : Request) (h : Header) : Request :=
  mkRequest (Method r) (Host r) (Path r) (RawPath r) (RawQuery r) h (ReqBody r) (ContentLength r).

Definition HeaderInjection_PreHook (serviceName headerName template : string) (r : Request)
    (_ : RequestContext) : Request * option HookError :=
  match Table.RealForService table serviceName with
  | None => (r, None)
  | Some real =>
      let value := replace_first template "{{secret}}" (of_bytes real) in
      (set_header r (header_Set (header_Del (ReqHeader r) headerName) headerName value), None)
  end.

Definition NewHeaderInjectionHook (serviceName headerName template : string) : Hook :=
  mkHook "header-inject" (HeaderInjection_PreHook serviceName headerName template)
    (λ resp _, (resp, None)) (Some headerName).

(** The registrations of [StartLLMProxy] in internal/session/llmproxy.go. *)
Record InjectHeader := mkInjectHeader { ih_Service : string; ih_Header : string; ih_Template : string }.

Definition session_hooks (scrubServices : option (gmap string bool)) (injects : list InjectHeader)
    : Registry :=
  foldl (λ r ih, Register r (ih_Service ih)
                   (NewHeaderInjectionHook (ih_Service ih) (ih_Header ih) (ih_Template ih)))
    (Register (Register NewRegistry "" NewLeakGuardHook) "" (NewCredsSubHook scrubServices)) injects.
End creds.

(** ** Declared services (declared_service.go) *)

Definition declaredServicePathPrefix : string := "/svc/".

Inductive Reply :=
| ErrorReply (msg : string) (code : Z)                            (** [http.Error] *)
| ForwardReply (code : Z) (header : Header) (body : bytes).

Record ApprovalRequest := mkApprovalRequest {
  ap_SessionID : string; ap_Kind : string; ap_Target : string; ap_Rule : string; ap_Message : string }.

Record OutRequest := mkOutRequest {
  out_Method : string; out_URL : URL; out_Header : Header; out_Body : Body; out_Host : string;
  out_ContentLength : Z }.

(** Calls of the request store. *)
Inductive StoreCall :=
| LogRequest (id session svc rule method path : string) (headers : Header) (size : nat) (hash : string)
| StoreRequestBody (id : string) (body : bytes)
| LogResponse (id session : string) (status : Z) (headers : Header) (size : nat) (hash : string)
| StoreResponseBody (id : string) (body : bytes).

Record Served := mkServed {
  sv_Reply : Reply; sv_Approval : option ApprovalRequest; sv_Sent : option OutRequest;
  sv_Store : list StoreCall }.

Section declared.
Context `{GoLib, GlobLib, RegexpLib, NetLib, SortLib, UrlLib, HttpLib}.

Record Proxy := mkProxy {
  policyEngine : option (HTTPEngine * list HTTPService);  (** the engine and its [HTTPServices()] *)
  cfgSessionID : string;
  httpSvcApprovals : option (ApprovalRequest → option bool);  (** [None]: an error *)
  hookRegistry : option Registry;
  storage : bool;
  RoundTrip : OutRequest → option Response }.

Definition HashBody (body : bytes) : string :=
  if length body =? 0 then "" else "sha256:" +:+ sha256_hex body.

(** [ok] of the code is the third component. *)
Definition declaredService (p : Proxy) (reqPath : string) : string * string * bool :=
  if negb (HasPrefix reqPath declaredServicePathPrefix) then ("", "", false)
  else
    let tail := TrimPrefix reqPath declaredServicePathPrefix in
    let '(name, rest) := match IndexByte tail "/" with
                         | None => (tail, "/")
                         | Some i => (str_take i tail, str_drop i tail)
                         end in
    if String.eqb name "" then ("", "", false)
    else match policyEngine p with
         | None => (name, rest, false)
         | Some (_, svcs) => (name, rest, existsb (λ s, EqualFold (svc_Name s) name) svcs)
         end.

Definition findHTTPService (svcs : list HTTPService) (name : string) : option HTTPService :=
  find_first (λ s, EqualFold (svc_Name s) name) svcs.

Definition singleSlashJoin (a b : string) : string :=
  if HasSuffix a "/" && HasPrefix b "/" then a +:+ str_drop 1 b
  else if negb (HasSuffix a "/") && negb (HasPrefix b "/") then a +:+ "/" +:+ b
  else a +:+ b.

Definition isHopByHopHeader (h : string) : bool :=
  bool_decide (ToLower h ∈ ["connection"; "keep-alive"; "proxy-authenticate"; "proxy-authorization";
                            "te"; "trailer"; "transfer-encoding"; "upgrade"]).

Definition nominated_token (tok : string) : option string :=
  let tok := TrimSpace tok in
  if String.eqb tok "" then None
  else if bool_decide (ToLower tok ∈ ["close"; "keep-alive"]) then None
  else Some (CanonicalHeaderKey tok).

Definition connectionNominatedDenylist (lines : list string) : gset string :=
  list_to_set (lines ≫= λ line, if String.eqb line "" then [] else omap nominated_token (Split line ",")).

(** The two header copies: hop-by-hop and nominated headers are skipped. *)
Definition copy_headers (h : Header) : Header :=
  let denylist := connectionNominatedDenylist (header_Values h "Connection") in
  foldl (λ out kv,
    if isHopByHopHeader kv.1 then out
    else if bool_decide (CanonicalHeaderKey kv.1 ∈ denylist) then out
    else foldl (λ out v, header_Add out kv.1 v) out kv.2) ∅ (map_to_list h).

Definition sanitizeHeadersForDeclaredService (h : Header) (injectedNames : list string) : Header :=
  let denylist : gset string :=
    list_to_set (["Authorization"; "X-Api-Key"; "Api-Key"; "Cookie"; "Set-Cookie";
                  "Proxy-Authorization"; "Proxy-Authenticate"] ++ (CanonicalHeaderKey <$> injectedNames)) in
  map_imap (λ k v, Some (if bool_decide (CanonicalHeaderKey k ∈ denylist) then ["[REDACTED]"] else v)) h.

Definition buildUpstreamRequest (r : Request) (svcUpstream : string) : option OutRequest :=
  u ← url_ParseURL svcUpstream;
  let escapedPath := EscapedPath (Path r) (RawPath r) in
  let escapedPath := if String.eqb escapedPath "" then Path r else escapedPath in
  let u' := mkURL (Scheme u) (UHost u) (singleSlashJoin (UPath u) (Path r))
              (singleSlashJoin (EscapedPath (UPath u) (URawPath u)) escapedPath) (RawQuery r) in
  outURL ← http_NewRequestURL u';
  Some (mkOutRequest (Method r) outURL (copy_headers (ReqHeader r)) (ReqBody r) (UHost u) (ContentLength r)).

Definition injected_names (p : Proxy) (svc : string) : list string :=
  match hookRegistry p with Some reg => InjectedHeaderNamesForService reg svc | None => [] end.

Definition logDeclaredServiceRequest (p : Proxy) (requestID sessionID svcName ruleName : string)
    (r : Request) (forwardedBody storedBody : bytes) : list StoreCall :=
  if storage p then
    [LogRequest requestID sessionID svcName ruleName (Method r) (Path r)
       (sanitizeHeadersForDeclaredService (ReqHeader r) (injected_names p svcName))
       (length forwardedBody) (HashBody forwardedBody);
     StoreRequestBody requestID storedBody]
  else [].

Definition logDeclaredServiceResponse (p : Proxy) (requestID sessionID svcName : string)
    (resp : Response) (respBody : bytes) : list StoreCall :=
  if storage p then
    [LogResponse requestID sessionID (StatusCode resp)
       (sanitizeHeadersForDeclaredService (RespHeader resp) (injected_names p svcName))
       (length respBody) (HashBody respBody);
     StoreResponseBody requestID respBody]
  else [].

(** The escaped tail of the path below [/svc/<name>]. *)
Definition escaped_tail (r : Request) (rawSegment reqPath : string) : string :=
  let prefix := declaredServicePathPrefix +:+ rawSegment in
  let escaped := EscapedPath (Path r) (RawPath r) in
  let escapedPath :=
    if HasPrefix escaped prefix &&
       ((String.length escaped =? String.length prefix) ||
        match String.get (String.length prefix) escaped with Some c => Ascii.eqb c "/" | None => false end)
    then TrimPrefix escaped prefix
    else EscapedPath reqPath "" in
  if String.eqb escapedPath "" then "/" else escapedPath.

(** The path handed to the policy: cut at the first question mark. *)
Definition path_for_eval (reqPath : string) : string :=
  match IndexByte reqPath "?" with Some i => str_take i reqPath | None => reqPath end.

(** The approval gate: the decision in force and the request that was made. *)
Definition approval_gate (p : Proxy) (sessionID rawSegment escapedPath : string) (r : Request)
    (dec : Decision) : string * option ApprovalRequest :=
  if String.eqb (PolicyDecision dec) DecisionApprove && String.eqb (EffectiveDecision dec) DecisionApprove
  then match httpSvcApprovals p with
       | None => (EffectiveDecision dec, None)
       | Some appr =>
           let target := rawSegment +:+ " " +:+ Method r +:+ " " +:+ escapedPath +:+
             (if String.eqb (RawQuery r) "" then "" else "?" +:+ RawQuery r) in
           let req := mkApprovalRequest sessionID "http_service" target (Rule dec) (Message dec) in
           match appr req with
           | Some true => (DecisionAllow, Some req)
           | _ => (DecisionDeny, Some req)
           end
       end
  else (EffectiveDecision dec, None).

Definition abort_reply (err : HookError) : Reply :=
  match err with
  | HookAbortError code msg =>
      ErrorReply msg (if (code <? 400)%Z || (599 <? code)%Z then 502 else code)%Z
  | HookOtherError msg => ErrorReply ("hook error: " +:+ msg) 502
  end.

(** The reply once the upstream has answered. *)
Definition reply_upstream (p : Proxy) (ctx : RequestContext) (resp : Response) (respBody : bytes)
    : Reply * list StoreCall :=
  let '(resp, respBody) :=
    match hookRegistry p with
    | None => (resp, respBody)
    | Some reg =>
        let resp := set_resp_body resp (BodyOf respBody) (Z.of_nat (length respBody)) in
        let '(resp, _) := ApplyPostHooks reg (CtxServiceName ctx) resp ctx in
        (resp, match RespBody resp with BodyOf b => b | _ => respBody end)
    end in
  (ForwardReply (StatusCode resp) (copy_headers (RespHeader resp)) respBody,
   logDeclaredServiceResponse p (RequestID ctx) (SessionID ctx) (CtxServiceName ctx) resp respBody).

(** Log the request and send it: [r] is the request after the hooks. *)
Definition send_request (p : Proxy) (svc : HTTPService) (rule : string) (ctx : RequestContext)
    (asked : option ApprovalRequest) (r : Request) (forwardedBody storedBody : bytes) : Served :=
  let logged := logDeclaredServiceRequest p (RequestID ctx) (SessionID ctx) (svc_Name svc) rule
                  r forwardedBody storedBody in
  match buildUpstreamRequest r (svc_Upstream svc) with
  | None => mkServed (ErrorReply "rewrite failed" 500) asked None logged
  | Some outReq =>
      match RoundTrip p outReq with
      | None => mkServed (ErrorReply "upstream error" 502) asked (Some outReq) logged
      | Some resp =>
          if body_fails (RespBody resp)
          then mkServed (ErrorReply "read upstream response" 502) asked (Some outReq) logged
          else
            let '(reply, logged') := reply_upstream p ctx resp (body_bytes (RespBody resp)) in
            mkServed reply asked (Some outReq) (logged ++ logged')
      end
  end.

(** From the pre-hooks on: [r] has its body buffered and its URL rewritten. *)
Definition forward_request (p : Proxy) (svc : HTTPService) (rule : string) (ctx : RequestContext)
    (asked : option ApprovalRequest) (r : Request) (storedBody : bytes) : Served :=
  let '(r', err) := match hookRegistry p with
                    | Some reg => ApplyPreHooks reg (svc_Name svc) r ctx
                    | None => (r, None)
                    end in
  match err with
  | Some e => mkServed (abort_reply e) asked None []
  | None =>
      let raw := if negb (String.eqb (Path r') (Path r)) && String.eqb (RawPath r') (RawPath r)
                 then "" else RawPath r' in
      if body_fails (ReqBody r') then mkServed (ErrorReply "re-read request body" 502) asked None []
      else
        let forwardedBody := body_bytes (ReqBody r') in
        let storedBody := if length forwardedBody =? 0 then [] else storedBody in
        send_request p svc rule ctx asked
          (mkRequest (Method r') (Host r') (Path r') raw (RawQuery r') (ReqHeader r')
             (BodyOf forwardedBody) (Z.of_nat (length forwardedBody)))
          forwardedBody storedBody
  end.

Definition serveDeclaredService (p : Proxy) (r : Request) (rawSegment reqPath requestID : string) : Served :=
  match policyEngine p with
  | None => mkServed (ErrorReply "http_services not configured" 500) None None []
  | Some (eng, svcs) =>
      let sessionID := let s := header_Get (ReqHeader r) "X-Session-ID" in
                       if String.eqb s "" then cfgSessionID p else s in
      let escapedPath := escaped_tail r rawSegment reqPath in
      let dec := CheckHTTPService eng rawSegment (Method r) (path_for_eval reqPath) in
      let '(effective, asked) := approval_gate p sessionID rawSegment escapedPath r dec in
      if String.eqb effective DecisionDeny then
        mkServed (ErrorReply (if String.eqb (Message dec) "" then "blocked by http_services rule"
                              else Message dec) 403) asked None []
      else if String.eqb effective DecisionApprove then
        mkServed (ErrorReply "approval not yet implemented" 501) asked None []
      else if String.eqb effective DecisionAllow || String.eqb effective DecisionAudit then
        match findHTTPService svcs rawSegment with
        | None => mkServed (ErrorReply "service vanished" 500) asked None []
        | Some svc =>
            let ctx := mkContext requestID sessionID (svc_Name svc) in
            if body_fails (ReqBody r) then mkServed (ErrorReply "read request body" 400) asked None []
            else
              let n := match ReqBody r with BodyOf b => Z.of_nat (length b) | _ => ContentLength r end in
              forward_request p svc (Rule dec) ctx asked
                (mkRequest (Method r) (Host r) reqPath escapedPath (RawQuery r) (ReqHeader r)
                   (ReqBody r) n)
                (body_bytes (ReqBody r))
        end
      else mkServed (ErrorReply "unsupported decision" 500) asked None []
  end.

(** The dispatch at the top of [Proxy.ServeHTTP]: [None] falls through to the LLM
    routes. *)
Definition serve_svc (p : Proxy) (r : Request) (requestID : string) : option Served :=
  let '(name, rest, ok) := declaredService p (Path r) in
  if ok then Some (serveDeclaredService p r name rest requestID)
  else if negb (String.eqb name "") then Some (mkServed (ErrorReply "no such service" 404) None None [])
  else None.
End declared.

(** ** Headers *)

Lemma lower_upper_byte c : lower_byte (upper_byte c) = lower_byte c.
Proof. destruct c as [[][][][][][][][]]; reflexivity. Qed.
Lemma lower_lower_byte c : lower_byte (lower_byte c) = lower_byte c.
Proof. destruct c as [[][][][][][][][]]; reflexivity. Qed.
Lemma valid_field_ascii c : validHeaderFieldByte c = true → (byte_val c <? 128)%Z = true.
Proof. destruct c as [[][][][][][][][]]; vm_compute; congruence. Qed.
Lemma ascii_case c b :
  (byte_val c <? 128)%Z = true → (byte_val ((if b : bool then upper_byte else lower_byte) c) <? 128)%Z = true.
Proof. destruct b, c as [[][][][][][][][]]; vm_compute; congruence. Qed.

Lemma canon_case_ascii b s :
  str_forall validHeaderFieldByte s = true → is_ascii s = true ∧ is_ascii (canon_case b s) = true.
Proof.
  revert b. induction s as [|c s IH]; intros b; [done|]. cbn [str_forall canon_case].
  intros [Hc Hs]%andb_true_iff. apply valid_field_ascii in Hc. unfold is_ascii. cbn [str_forall].
  destruct (IH (Ascii.eqb c "-") Hs) as [H1 H2]. unfold is_ascii in H1, H2.
  rewrite H1, H2, Hc, ascii_case by done. done.
Qed.

Lemma canon_case_lower b s : str_map lower_byte (canon_case b s) = str_map lower_byte s.
Proof.
  revert b. induction s as [|c s IH]; intros b; [done|]. cbn. rewrite IH.
  destruct b; by rewrite ?lower_upper_byte, ?lower_lower_byte.
Qed.

Lemma ToLower_canonical `{GoLib} s : ToLower (CanonicalHeaderKey s) = ToLower s.
Proof.
  unfold CanonicalHeaderKey. destruct (str_forall _ s) eqn:Hs; [|done].
  destruct (canon_case_ascii true s Hs) as [H1 H2]. unfold ToLower. by rewrite H1, H2, canon_case_lower.
Qed.

Section headers.
Context `{GoLib}.

Lemma header_Add_values_keys (out : Header) k vs k' :
  is_Some (foldl (λ out v, header_Add out k v) out vs !! k') → is_Some (out !! k') ∨ k' = CanonicalHeaderKey k.
Proof.
  revert out. induction vs as [|v vs IH]; intros out; cbn; [by left|].
  intros [Hs|?]%IH; [|by right]. unfold header_Add in Hs.
  destruct (decide (CanonicalHeaderKey k = k')) as [<-|Hne]; [by right|].
  rewrite lookup_insert_ne in Hs by done. by left.
Qed.

(** No copied header is hop-by-hop or named by a Connection header. *)
Lemma copy_headers_clean h k :
  is_Some (copy_headers h !! k) →
  isHopByHopHeader k = false ∧ k ∉ connectionNominatedDenylist (header_Values h "Connection").
Proof.
  unfold copy_headers. set (deny := connectionNominatedDenylist _). clearbody deny.
  assert (Hg : ∀ l (out : Header),
    (∀ k, is_Some (out !! k) → isHopByHopHeader k = false ∧ k ∉ deny) →
    ∀ k, is_Some (foldl (λ (out : Header) (kv : string * list string),
      if isHopByHopHeader kv.1 then out
      else if bool_decide (CanonicalHeaderKey kv.1 ∈ deny) then out
      else foldl (λ out v, header_Add out kv.1 v) out kv.2) out l !! k) →
    isHopByHopHeader k = false ∧ k ∉ deny).
  { induction l as [|[k0 vs] l IH]; intros out Hout; [done|]. cbn [foldl fst snd]. apply IH.
    destruct (isHopByHopHeader k0) eqn:Hh; [done|]. case_bool_decide as Hd; [done|].
    intros k' [?| ->]%header_Add_values_keys; [by apply Hout|]. split; [|done].
    unfold isHopByHopHeader in *. by rewrite ToLower_canonical. }
  apply Hg. intros k'. rewrite lookup_empty. by intros [].
Qed.
End headers.

(** ** The hooks *)
Section hook_lemmas.
Context (table : Table.Table) (scrub : option (gmap string bool)) (injects : list InjectHeader).

Definition injection (ih : InjectHeader) : Hook :=
  NewHeaderInjectionHook table (ih_Service ih) (ih_Header ih) (ih_Template ih).
Definition injections (svc : string) : list Hook :=
  injection <$> List.filter (λ ih, String.eqb (ih_Service ih) svc) injects.

Lemma session_hooks_lookup svc :
  default [] (session_hooks table scrub injects !! svc) =
  (if String.eqb svc "" then [NewLeakGuardHook table; NewCredsSubHook table scrub] else []) ++
  injections svc.
Proof.
  unfold session_hooks, injections. induction injects as [|ih l IH] using rev_ind.
  - cbn [foldl List.filter fmap list_fmap]. rewrite app_nil_r. unfold Register, NewRegistry.
    destruct (String.eqb_spec svc "") as [->|Hne]; [reflexivity|].
    by rewrite !lookup_insert_ne, lookup_empty by done.
  - rewrite foldl_snoc, List.filter_app, fmap_app, (assoc_L (++)), <-IH. clear IH.
    set (reg := foldl _ _ l). clearbody reg. cbn [List.filter]. unfold Register.
    destruct (String.eqb_spec (ih_Service ih) svc) as [<-|Hne].
    + by rewrite lookup_insert_eq.
    + rewrite lookup_insert_ne by done. cbn. by rewrite app_nil_r.
Qed.

(** Injection only touches headers. *)
Definition same_but_header (r r' : Request) : Prop :=
  Method r' = Method r ∧ Path r' = Path r ∧ RawPath r' = RawPath r ∧ RawQuery r' = RawQuery r ∧
  ReqBody r' = ReqBody r.

Lemma injections_pre l ctx r :
  Forall (λ h, ∃ ih, h = injection ih) l →
  ∃ r', run_pre l r ctx = (r', None) ∧ same_but_header r r'.
Proof.
  intros Hl. revert r. induction Hl as [|h l [ih ->] _ IH]; intros r.
  { exists r. split; [done|]. by unfold same_but_header. }
  assert (∃ h, PreHook (injection ih) r ctx = (set_header r h, None)) as [h Hh].
  { cbn. unfold HeaderInjection_PreHook. case_match; [eauto|]. exists (ReqHeader r). by destruct r. }
  cbn [run_pre]. rewrite Hh. destruct (IH (set_header r h)) as (r' & -> & Hs). exists r'. done.
Qed.

Lemma injections_post l ctx acc :
  Forall (λ h, ∃ ih, h = injection ih) l → foldl (post_step ctx) acc l = acc.
Proof.
  intros Hl. revert acc. induction Hl as [|h l [ih ->] _ IH]; intros [resp err]; [done|].
  cbn. rewrite IH. by destruct err.
Qed.

Lemma injections_all svc : Forall (λ h, ∃ ih, h = injection ih) (injections svc).
Proof. apply Forall_fmap, Forall_true. cbn. eauto. Qed.

(** What a request that the session's pre-hooks let through looks like. *)
Lemma session_pre svc r ctx r' :
  ApplyPreHooks (session_hooks table scrub injects) svc r ctx = (r', None) →
  ReqBody r ≠ BodyFails →
  LeakGuard_PreHook table r ctx = (r, None) ∧
  same_but_header (CredsSub_PreHook table r ctx).1 r'.
Proof.
  unfold ApplyPreHooks, snapshot. rewrite session_hooks_lookup. cbn [String.eqb app run_pre].
  change (PreHook (NewLeakGuardHook table)) with (LeakGuard_PreHook table).
  change (PreHook (NewCredsSubHook table scrub)) with (CredsSub_PreHook table).
  intros Hr Hb. assert (Hg : LeakGuard_PreHook table r ctx = (r, None) ∨
                             LeakGuard_PreHook table r ctx = (r, Some leak_abort))
    by (unfold LeakGuard_PreHook; repeat case_match; auto).
  destruct Hg as [Hg|Hg]; rewrite Hg in Hr; [|done]. split; [done|].
  assert (Hc : ∃ r1, CredsSub_PreHook table r ctx = (r1, None))
    by (unfold CredsSub_PreHook; destruct (ReqBody r); eauto).
  destruct Hc as [r1 Hc]. rewrite Hc in *. cbn [fst].
  destruct (injections_pre (injections "") ctx r1) as (r2 & Hr2 & Hs2); [apply injections_all|].
  rewrite Hr2 in Hr.
  assert (∃ l, (if String.eqb svc "" then [] else default [] (session_hooks table scrub injects !! svc)) = l ∧
               Forall (λ h, ∃ ih, h = injection ih) l) as (l & Hl & Hall).
  { eexists. split; [done|]. destruct (String.eqb_spec svc "") as [|Hne]; [constructor|].
    rewrite session_hooks_lookup. destruct (String.eqb_spec svc "") as [|_]; [done|].
    apply injections_all. }
  rewrite Hl in Hr. destruct (injections_pre l ctx r2 Hall) as (r3 & Hr3 & Hs3).
  rewrite Hr3 in Hr. injection Hr as <-. unfold same_but_header in *.
  destruct Hs2 as (? & ? & ? & ? & ?), Hs3 as (? & ? & ? & ? & ?). split_and!; congruence.
Qed.

Lemma session_post svc resp ctx :
  (ApplyPostHooks (session_hooks table scrub injects) svc resp ctx).1 =
  (CredsSub_PostHook table scrub resp ctx).1.
Proof.
  unfold ApplyPostHooks, snapshot. rewrite session_hooks_lookup. cbn [String.eqb app foldl].
  set (l := if String.eqb svc "" then _ else _).
  assert (Forall (λ h, ∃ ih, h = injection ih) l) as Hl.
  { subst l. destruct (String.eqb_spec svc "") as [|Hne]; [constructor|].
    rewrite session_hooks_lookup. destruct (String.eqb_spec svc "") as [|_]; [done|].
    apply injections_all. }
  rewrite (injections_post l), (injections_post (injections "")) by (done || apply injections_all).
  cbn. by destruct (CredsSub_PostHook table scrub resp ctx).
Qed.

(** The guard: every part it scans has no fake, or its first registered fake is of
    the service the request goes to. *)
Definition guarded (ctx : RequestContext) (data : bytes) : Prop :=
  ∀ svc, Table.ContainsFake table data = Some svc → svc = CtxServiceName ctx.

Lemma leaks_guarded ctx data : leaks table ctx data = false ↔ guarded ctx data.
Proof.
  unfold leaks, guarded. destruct (Table.ContainsFake table data) as [svc|]; [|naive_solver].
  rewrite negb_false_iff, String.eqb_eq. naive_solver.
Qed.

Lemma guarded_empty ctx : guarded ctx [].
Proof. done. Qed.

Lemma LeakGuard_passes r ctx :
  LeakGuard_PreHook table r ctx = (r, None) ↔
  (∀ b, ReqBody r = BodyOf b → guarded ctx b) ∧
  guarded ctx (to_bytes (RawQuery r)) ∧
  (∀ k vs v, ReqHeader r !! k = Some vs → v ∈ vs → guarded ctx (to_bytes v)) ∧
  guarded ctx (to_bytes (Path r)).
Proof.
  assert (Hstr : ∀ s, negb (String.eqb s "") && leaks table ctx (to_bytes s) = false ↔
                      guarded ctx (to_bytes s)).
  { intros s. destruct (String.eqb_spec s "") as [->|_]; cbn [negb andb]; [|apply leaks_guarded].
    split; [intros _; apply guarded_empty|done]. }
  assert (Hbody : match ReqBody r with BodyOf body => leaks table ctx body | _ => false end = false ↔
                  ∀ b, ReqBody r = BodyOf b → guarded ctx b).
  { destruct (ReqBody r); [naive_solver| |naive_solver]. rewrite leaks_guarded. naive_solver. }
  assert (Hhdr : existsb (λ kv : string * list string, existsb (λ v, leaks table ctx (to_bytes v)) kv.2)
                   (map_to_list (ReqHeader r)) = false ↔
                 ∀ k vs v, ReqHeader r !! k = Some vs → v ∈ vs → guarded ctx (to_bytes v)).
  { rewrite existsb_false_elem. split.
    - intros Hall k vs v Hk Hv. apply leaks_guarded.
      specialize (Hall (k, vs) ltac:(by apply elem_of_map_to_list)).
      by apply (proj1 (existsb_false_elem _ _) Hall).
    - intros Hall [k vs] Hk%elem_of_map_to_list. apply existsb_false_elem. intros v Hv.
      apply leaks_guarded. by eapply Hall. }
  rewrite <-Hbody, <-Hhdr, <-!Hstr. unfold LeakGuard_PreHook. clear.
  destruct (match ReqBody r with BodyOf body => _ | _ => _ end); [split; [done|by intros []]|].
  destruct (_ && leaks table ctx (to_bytes (RawQuery r))); [split; [done|by intros (_ & ? & _)]|].
  destruct (existsb _ _); [split; [done|by intros (_ & _ & ? & _)]|].
  destruct (_ && leaks table ctx (to_bytes (Path r))); [split; [done|by intros (_ & _ & _ & ?)]|].
  by split.
Qed.
End hook_lemmas.

(** ** Theorems *)

(** Whether responses of a service are scrubbed. *)
Definition scrubs (scrub : option (gmap string bool)) (svc : string) : bool :=
  match scrub with None => true | Some m => default false (m !! svc) end.

Section properties.
Context `{GoLib, GlobLib, RegexpLib, NetLib, SortLib, UrlLib, HttpLib}.

(** What the policy or the approver said. *)
Definition permitted (p : Proxy) (eng : HTTPEngine) (seg method path : string)
    (asked : option ApprovalRequest) : Prop :=
  let dec := CheckHTTPService eng seg method path in
  EffectiveDecision dec = DecisionAllow ∨ EffectiveDecision dec = DecisionAudit ∨
  (PolicyDecision dec = DecisionApprove ∧
   ∃ appr req, httpSvcApprovals p = Some appr ∧ asked = Some req ∧ appr req = Some true ∧
               ap_Rule req = Rule dec).

Lemma approval_gate_permits p session seg tail r dec eff asked :
  approval_gate p session seg tail r dec = (eff, asked) →
  eff = DecisionAllow ∨ eff = DecisionAudit →
  EffectiveDecision dec = DecisionAllow ∨ EffectiveDecision dec = DecisionAudit ∨
  (PolicyDecision dec = DecisionApprove ∧
   ∃ appr req, httpSvcApprovals p = Some appr ∧ asked = Some req ∧ appr req = Some true ∧
               ap_Rule req = Rule dec).
Proof.
  unfold approval_gate. destruct (_ && _) eqn:Hb; [|intros [= <- <-]; tauto].
  apply andb_true_iff in Hb as [Hp%String.eqb_eq _].
  destruct (httpSvcApprovals p) as [appr|]; [|intros [= <- <-]; tauto]. cbn zeta.
  match goal with |- context [appr ?q] => destruct (appr q) as [[]|] eqn:Ha end;
    intros [= <- <-] [Hx|Hx]; try discriminate Hx.
  right; right. split; [done|]. eexists appr, _. split_and!; [done..|]. done.
Qed.

Lemma buildUpstream_fields r up out :
  buildUpstreamRequest r up = Some out →
  ∃ u path raw query, url_ParseURL up = Some u ∧ out_Host out = UHost u ∧
       http_NewRequestURL (mkURL (Scheme u) (UHost u) path raw query) = Some (out_URL out) ∧
       out_Header out = copy_headers (ReqHeader r) ∧ out_Body out = ReqBody r.
Proof.
  unfold buildUpstreamRequest. destruct (url_ParseURL up) as [u|]; [|done]. cbn zeta.
  cbn [mbind option_bind]. destruct (http_NewRequestURL _) eqn:Hn; [|done]. intros [= <-].
  exists u. do 3 eexists. split_and!; [done|done|exact Hn|done|done].
Qed.

(** A validated service has an upstream with a host, over TLS. *)
Lemma validated_upstream insecure i svcs st svc :
  validate_from insecure i svcs st = Ok tt → svc ∈ svcs →
  ∃ scheme host, url_Parse (svc_Upstream svc) = Some (scheme, host) ∧ host ≠ "" ∧
    (scheme = "https" ∨ (insecure = true ∧ scheme = "http")).
Proof.
  revert i st. induction svcs as [|s svcs IH]; intros i st; [by intros _ ?%elem_of_nil|].
  cbn [validate_from]. intros (st' & Hs & Hv)%rbind_Ok [->|Hin]%elem_of_cons; [|by eapply IH].
  clear -Hs. unfold validate_service in Hs.
  destruct (String.eqb _ _); [done|]. destruct (negb _); [done|]. destruct (decide _); [done|].
  destruct (url_Parse _) as [[scheme host]|]; [|done].
  destruct (String.eqb_spec host ""); [done|]. destruct (_ && _) eqn:Hsch in Hs; [done|].
  exists scheme, host. split_and!; [done..|]. clear Hs.
  destruct (String.eqb_spec scheme "https"); [by left|right].
  cbn in Hsch. apply negb_false_iff, andb_true_iff in Hsch as [? ?%String.eqb_eq]. done.
Qed.

(** The request that leaves [forward_request]. *)
Lemma forward_sent p svc rule ctx asked r stored out :
  sv_Sent (forward_request p svc rule ctx asked r stored) = Some out →
  ∃ r' r'' stored', match hookRegistry p with
            | Some reg => ApplyPreHooks reg (svc_Name svc) r ctx = (r', None)
            | None => r' = r
            end ∧
    ReqBody r'' = BodyOf (body_bytes (ReqBody r')) ∧
    buildUpstreamRequest r'' (svc_Upstream svc) = Some out ∧
    stored' = (if length (body_bytes (ReqBody r')) =? 0 then [] else stored) ∧
    forward_request p svc rule ctx asked r stored =
      send_request p svc rule ctx asked r'' (body_bytes (ReqBody r')) stored'.
Proof.
  unfold forward_request.
  destruct (match hookRegistry p with Some reg => _ | None => _ end) as [r' [e|]] eqn:Hh; [done|].
  destruct (body_fails (ReqBody r')); [done|]. cbn zeta.
  set (r'' := mkRequest _ _ _ _ _ _ _ _). set (stored' := if _ =? 0 then _ else _).
  intros Hs. exists r', r'', stored'. split_and!.
  - destruct (hookRegistry p); [done|by injection Hh].
  - done.
  - unfold send_request in Hs. destruct (buildUpstreamRequest r'' _) as [o|]; [|done].
    destruct (RoundTrip p o) as [resp|]; [|done]. destruct (body_fails _); [done|].
    by destruct (reply_upstream _ _ _ _).
  - done.
  - done.
Qed.

Lemma serve_sent p r seg path id out :
  sv_Sent (serveDeclaredService p r seg path id) = Some out →
  ∃ eng svcs svc rule session asked tail n,
    policyEngine p = Some (eng, svcs) ∧ svc ∈ svcs ∧ EqualFold (svc_Name svc) seg = true ∧
    ReqBody r ≠ BodyFails ∧ sv_Approval (serveDeclaredService p r seg path id) = asked ∧
    permitted p eng seg (Method r) (path_for_eval path) asked ∧
    serveDeclaredService p r seg path id =
      forward_request p svc rule (mkContext id session (svc_Name svc)) asked
        (mkRequest (Method r) (Host r) path tail (RawQuery r) (ReqHeader r) (ReqBody r) n)
        (body_bytes (ReqBody r)).
Proof.
  unfold serveDeclaredService. destruct (policyEngine p) as [[eng svcs]|]; [|done].
  cbn zeta. destruct (approval_gate _ _ _ _ _ _) as [eff asked] eqn:Hg.
  destruct (String.eqb_spec eff DecisionDeny); [done|].
  destruct (String.eqb_spec eff DecisionApprove); [done|].
  destruct (_ || _) eqn:Hor; [|done].
  assert (eff = DecisionAllow ∨ eff = DecisionAudit) as Heff
    by (apply orb_true_iff in Hor as [?%String.eqb_eq|?%String.eqb_eq]; auto).
  pose proof (approval_gate_permits _ _ _ _ _ _ _ _ Hg Heff) as Hp.
  destruct (findHTTPService svcs seg) as [svc|] eqn:Hf; [|done].
  apply find_first_Some in Hf as [Hin Hfold].
  assert (Hask : ∀ svc rule ctx asked r0 sb,
            sv_Approval (forward_request p svc rule ctx asked r0 sb) = asked).
  { intros. unfold forward_request, send_request. repeat (case_match; try done). }
  destruct (body_fails (ReqBody r)) eqn:HB; [done|]. intros _.
  exists eng, svcs, svc. do 3 eexists. exists (escaped_tail r seg path). eexists.
  split_and!; [done|done|done|by intros Hf; rewrite Hf in HB|apply Hask|exact Hp|reflexivity].
Qed.


Section session.
Context (table : Table.Table) (scrub : option (gmap string bool)) (injects : list InjectHeader).

Lemma CredsSub_body r ctx :
  ReqBody r ≠ BodyFails →
  body_bytes (ReqBody (CredsSub_PreHook table r ctx).1) =
  Table.ReplaceFakeToReal table (body_bytes (ReqBody r)).
Proof. unfold CredsSub_PreHook. destruct (ReqBody r) as [|b|] eqn:HB; cbn; rewrite ?HB; done. Qed.

(** What reaches the client, and what is stored of it. *)
Lemma reply_upstream_session p ctx resp b :
  hookRegistry p = Some (session_hooks table scrub injects) →
  ∃ code h, let b' := if scrubs scrub (CtxServiceName ctx) then Table.ReplaceRealToFake table b else b in
    (reply_upstream p ctx resp b).1 = ForwardReply code h b' ∧
    (∀ id x, StoreResponseBody id x ∈ (reply_upstream p ctx resp b).2 ↔
       storage p = true ∧ id = RequestID ctx ∧ x = b') ∧
    ∀ id x, StoreRequestBody id x ∉ (reply_upstream p ctx resp b).2.
Proof.
  intros Hreg. unfold reply_upstream. rewrite Hreg. cbn zeta.
  set (resp0 := set_resp_body resp _ _).
  pose proof (session_post table scrub injects (CtxServiceName ctx) resp0 ctx) as Hp.
  destruct (ApplyPostHooks _ _ _ _) as [resp1 err]. cbn [fst] in Hp. subst resp1.
  set (b' := if scrubs _ _ then _ else _).
  assert (Hb : RespBody (CredsSub_PostHook table scrub resp0 ctx).1 = BodyOf b').
  { subst b' resp0. unfold CredsSub_PostHook, scrubs. cbn [RespBody set_resp_body].
    destruct scrub as [m|]; [|done]. by destruct (default false _). }
  rewrite Hb. do 2 eexists. cbn [fst snd]. split; [done|].
  unfold logDeclaredServiceResponse. split; intros id x; destruct (storage p); set_solver.
Qed.

(** The store calls of a request that was sent. *)
Lemma send_store p svc rule ctx asked r fb stored out :
  hookRegistry p = Some (session_hooks table scrub injects) →
  buildUpstreamRequest r (svc_Upstream svc) = Some out →
  let res := send_request p svc rule ctx asked r fb stored in
  (∀ id b, StoreRequestBody id b ∈ sv_Store res ↔
     storage p = true ∧ id = RequestID ctx ∧ b = stored) ∧
  (∀ code h b, sv_Reply res = ForwardReply code h b →
     ∃ resp, RoundTrip p out = Some resp ∧
       b = (if scrubs scrub (CtxServiceName ctx)
            then Table.ReplaceRealToFake table (body_bytes (RespBody resp))
            else body_bytes (RespBody resp)) ∧
       ∀ id x, StoreResponseBody id x ∈ sv_Store res ↔
         storage p = true ∧ id = RequestID ctx ∧ x = b).
Proof.
  intros Hreg Hb res. subst res. unfold send_request. rewrite Hb. cbn zeta.
  set (log := logDeclaredServiceRequest _ _ _ _ _ _ _ _).
  assert (Hlog : ∀ id b, (StoreRequestBody id b ∈ log ↔ storage p = true ∧ id = RequestID ctx ∧ b = stored) ∧
                         StoreResponseBody id b ∉ log)
    by (subst log; unfold logDeclaredServiceRequest; intros id b; destruct (storage p); set_solver).
  destruct (RoundTrip p out) as [resp|]; [|split; [intros id b; apply Hlog|done]].
  destruct (body_fails (RespBody resp)); [split; [intros id b; apply Hlog|done]|].
  destruct (reply_upstream_session p ctx resp (body_bytes (RespBody resp)) Hreg) as (code & h & Hr & Hst & Hno).
  destruct (reply_upstream p ctx resp _) as [reply logged']. cbn in *. split.
  - intros id b. rewrite elem_of_app, (proj1 (Hlog id b)). split; [|by left].
    intros [?|Hx]; [done|by apply Hno in Hx].
  - intros code' h' b Heq. rewrite Hr in Heq. injection Heq as _ _ <-. exists resp. split_and!; [done..|].
    intros id x. rewrite elem_of_app, Hst. split; [|by right].
    intros [Hx|?]; [by apply Hlog in Hx|done].
Qed.

End session.

(** C9. With the hooks a session registers, a request that is sent to a service
    passed the leak guard in its body, query, headers and path, and the bytes sent are
    the agent's with fakes replaced. Where a store is configured it is handed,
    under the request's id, the agent's own bytes (no bytes when the body sent is
    empty) and no other request body, and, where the upstream's answer is passed on,
    the body the client gets and no other: the upstream's body, with real credentials replaced
    where scrubbing is on for the service and as it came where it is off. *)
Theorem session_pipeline table scrub injects p r seg path id out :
  hookRegistry p = Some (session_hooks table scrub injects) →
  sv_Sent (serveDeclaredService p r seg path id) = Some out →
  let res := serveDeclaredService p r seg path id in
  ∃ eng svcs svc, policyEngine p = Some (eng, svcs) ∧ svc ∈ svcs ∧ EqualFold (svc_Name svc) seg = true ∧
    (∀ ctx, CtxServiceName ctx = svc_Name svc →
       guarded table ctx (body_bytes (ReqBody r)) ∧ guarded table ctx (to_bytes (RawQuery r)) ∧
       (∀ k vs v, ReqHeader r !! k = Some vs → v ∈ vs → guarded table ctx (to_bytes v)) ∧
       guarded table ctx (to_bytes path)) ∧
    out_Body out = BodyOf (Table.ReplaceFakeToReal table (body_bytes (ReqBody r))) ∧
    (∀ i b, StoreRequestBody i b ∈ sv_Store res ↔
       storage p = true ∧ i = id ∧
       b = (if length (Table.ReplaceFakeToReal table (body_bytes (ReqBody r))) =? 0 then []
            else body_bytes (ReqBody r))) ∧
    (∀ code h b, sv_Reply res = ForwardReply code h b →
       ∃ resp, RoundTrip p out = Some resp ∧
         b = (if scrubs scrub (svc_Name svc)
              then Table.ReplaceRealToFake table (body_bytes (RespBody resp))
              else body_bytes (RespBody resp)) ∧
         ∀ i x, StoreResponseBody i x ∈ sv_Store res ↔ storage p = true ∧ i = id ∧ x = b).
Proof.
  intros Hreg Hs res. subst res. pose proof (serve_sent _ _ _ _ _ _ Hs)
    as (eng & svcs & svc & rule & session & asked & tail & n & Hpe & Hin & Hf & HB & _ & _ & Heq).
  rewrite Heq in *. clear Heq. exists eng, svcs, svc. do 3 (split; [done|]).
  apply forward_sent in Hs as (r' & r'' & stored & Hpre & Hbody & Hbuild & Hst & ->).
  rewrite Hreg in Hpre. apply session_pre in Hpre as [Hguard Hsame]; [|done].
  pose proof (send_store table scrub injects p svc rule (mkContext id session (svc_Name svc)) asked r''
                (body_bytes (ReqBody r')) stored out Hreg Hbuild) as [Hs1 Hs2].
  assert (Hfb : body_bytes (ReqBody r') = Table.ReplaceFakeToReal table (body_bytes (ReqBody r)))
    by (destruct Hsame as (_ & _ & _ & _ & ->); by rewrite CredsSub_body).
  split; [|split; [|split; [|exact Hs2]]].
  - intros ctx Hctx. apply LeakGuard_passes in Hguard as (G1 & G2 & G3 & G4). cbn in G1, G2, G3, G4.
    unfold guarded in *. rewrite Hctx. split_and!; [|apply G2|apply G3|apply G4].
    destruct (ReqBody r) as [|b|]; [done|by apply G1|done].
  - apply buildUpstream_fields in Hbuild as (_ & _ & _ & _ & _ & _ & _ & _ & ->). by rewrite Hbody, Hfb.
  - intros i b. rewrite Hs1, Hst, Hfb. done.
Qed.

(** On the routes without a service the guard is absolute: a request it lets
    through has no fake in its body, query, headers or path, and substitution
    leaves all of them as they are, so no real credential leaves by these routes
    in any of them. *)
Theorem unmatched_request_unchanged table r ctx :
  Table.table_wf table → (∀ e, e ∈ table → Table.ServiceName e ≠ "") →
  CtxServiceName ctx = "" → LeakGuard_PreHook table r ctx = (r, None) → ReqBody r ≠ BodyFails →
  let r' := (CredsSub_PreHook table r ctx).1 in
  body_bytes (ReqBody r') = body_bytes (ReqBody r) ∧ RawQuery r' = RawQuery r ∧
  ReqHeader r' = ReqHeader r ∧ Path r' = Path r.
Proof.
  intros Hwf Hnames Hctx Hg HB. apply LeakGuard_passes in Hg as (G1 & G2 & G3 & G4).
  assert (Hid : ∀ d, guarded table ctx d → Table.ReplaceFakeToReal table d = d).
  { intros d Hd. apply Table.ReplaceFakeToReal_id; [done|]. apply Table.ContainsFake_None; [done|].
    destruct (Table.ContainsFake table d) as [svc|] eqn:Hc; [|done]. pose proof (Hd _ Hc) as Hsvc.
    apply Table.ContainsFake_Some in Hc as (e & _ & _ & He & <- & _). rewrite Hctx in Hsvc.
    by apply Hnames in He. }
  assert (Hstr : ∀ s, guarded table ctx (to_bytes s) → subst_string table s = s).
  { intros s Hs. unfold subst_string. by rewrite Hid, of_to_bytes. }
  assert (Hparts : ∀ r, guarded table ctx (to_bytes (RawQuery r)) →
    (∀ k vs v, ReqHeader r !! k = Some vs → v ∈ vs → guarded table ctx (to_bytes v)) →
    guarded table ctx (to_bytes (Path r)) →
    RawQuery (subst_parts table r) = RawQuery r ∧ ReqHeader (subst_parts table r) = ReqHeader r ∧
    Path (subst_parts table r) = Path r).
  { clear -Hstr. intros r G2 G3 G4. unfold subst_parts. cbn. split_and!.
    - case_match; [done|by apply Hstr].
    - apply map_eq. intros k. rewrite lookup_fmap. destruct (ReqHeader r !! k) as [vs|] eqn:Hk; [|done].
      cbn. f_equal. rewrite <-(list_fmap_id vs) at 2. apply list_fmap_ext. intros i v Hi. apply Hstr.
      eapply G3; [done|]. by eapply list_elem_of_lookup_2.
    - case_match; [done|by apply Hstr]. }
  unfold CredsSub_PreHook. destruct (ReqBody r) as [|b|] eqn:Hb; [| |done]; cbn [fst].
  - split; [cbn; by rewrite Hb|]. by apply Hparts.
  - cbn zeta. split; [cbn; by apply Hid, G1|].
    destruct (Hparts (set_req_body r (BodyOf (Table.ReplaceFakeToReal table b))
      (Z.of_nat (length (Table.ReplaceFakeToReal table b))))) as (P1 & P2 & P3); [done..|]. done.
Qed.
End properties.

(** ** Concrete runs *)
Module ProxySample.
#[local] Existing Instance ascii_go.
#[local] Existing Instance literal_glob.
#[local] Existing Instance literal_regexp.
#[local] Existing Instance no_net.
#[local] Existing Instance EngineSample.stable_sort.
#[local] Existing Instance HttpSample.plain_urls.

(** URLs of the form [https://host], which survive printing and parsing. *)
Definition plain_http : HttpLib := {|
  url_ParseURL := λ s, if HasPrefix s "https://"
                       then Some (mkURL "https" (TrimPrefix s "https://") "" "" "") else None;
  http_NewRequestURL := λ u, Some (mkURL (Scheme u) (removeEmptyPort (UHost u)) (UPath u) (URawPath u)
                                     (URawQuery u));
  sha256_hex := λ b, of_bytes (take 4 b) |}.
#[local] Existing Instance plain_http.
Lemma plain_http_laws : HttpLaws.
Proof.
  split; [|by intros s u path raw query u' _ _ _ [= <-]].
  intros s. cbn. by destruct (HasPrefix s "https://").
Qed.
#[local] Existing Instance plain_http_laws.

(** Two services with secrets; [a] is registered first. *)
Definition services : list HTTPService :=
  [mkHTTPService "a" "https://a.example" "" [] false "" [mkHTTPRule "get" ["GET"] ["/ok"] "allow" ""]
     (Some (mkHTTPSecret "r" "f"));
   mkHTTPService "b" "https://b.example" "" [] false "allow" [] (Some (mkHTTPSecret "r" "f"))].
Definition tables : gmap string compiledHTTPService * gmap string compiledHTTPService :=
  match compileHTTPServices services with Ok t => t | Err _ => (∅, ∅) end.
Definition engine : HTTPEngine := mkHTTPEngine EngineSample.sample_engine tables.1 tables.2.

Definition creds : Table.Table :=
  [Table.MkEntry "a" (to_bytes "fake-a") (to_bytes "real-a") 1;
   Table.MkEntry "b" (to_bytes "fake-b") (to_bytes "real-b") 2].

Definition echo (o : OutRequest) : option Response :=
  Some (mkResponse 200 ∅ (out_Body o) 0).

Definition proxy : Proxy :=
  mkProxy (Some (engine, services)) "session" None
    (Some (session_hooks creds None [mkInjectHeader "a" "x-token" "Bearer {{secret}}"])) true echo.

Definition request (path raw body : string) : Request :=
  mkRequest "GET" "proxy" path raw "" ∅ (BodyOf (to_bytes body)) 0.

Definition sent_body (s : Served) : option string :=
  o ← sv_Sent s; match out_Body o with BodyOf b => Some (of_bytes b) | _ => None end.
Definition reply_body (s : Served) : option string :=
  match sv_Reply s with ForwardReply _ _ b => Some (of_bytes b) | _ => None end.

(** A request with the service's own fake: the upstream sees the real credential,
    the agent the fake again, and the injected header is redacted in the store. *)
Definition good : Served := serveDeclaredService proxy (request "/svc/a/ok" "" "k=fake-a") "a" "/ok" "id".
Example good_run :
  sent_body good = Some "k=real-a" ∧ reply_body good = Some "k=fake-a" ∧
  (o ← sv_Sent good; out_Header o !! "X-Token") = Some ["Bearer real-a"] ∧
  head (sv_Store good) =
    Some (LogRequest "id" "session" "a" "get" "GET" "/ok" {["X-Token" := ["[REDACTED]"]]} 8 "sha256:k=re").
Proof. vm_compute. auto. Qed.

(** The fake of another service alone is stopped. *)
Example cross_service_blocked :
  sv_Reply (serveDeclaredService proxy (request "/svc/a/ok" "" "k=fake-b") "a" "/ok" "id") =
  ErrorReply "credential leak blocked" 403.
Proof. vm_compute. reflexivity. Qed.


Lemma session_pipeline_witness :
  ∃ out, sv_Sent good = Some out ∧
    out_Body out = BodyOf (Table.ReplaceFakeToReal creds (to_bytes "k=fake-a")) ∧
    StoreRequestBody "id" (to_bytes "k=fake-a") ∈ sv_Store good ∧
    reply_body good = Some "k=fake-a" ∧
    StoreResponseBody "id" (to_bytes "k=fake-a") ∈ sv_Store good.
Proof.
  destruct (sv_Sent good) as [out|] eqn:Hs; [|vm_compute in Hs; discriminate Hs].
  destruct (session_pipeline creds None [mkInjectHeader "a" "x-token" "Bearer {{secret}}"] proxy
    (request "/svc/a/ok" "" "k=fake-a") "a" "/ok" "id" out eq_refl Hs)
    as (eng & svcs & svc & _ & _ & _ & _ & Hb & Hst & Hrep).
  exists out. split; [reflexivity|]. split; [exact Hb|]. split.
  { apply (Hst "id"). vm_compute. auto. }
  split; [vm_compute; reflexivity|].
  assert (Hg : ∃ code h, sv_Reply good = ForwardReply code h (to_bytes "k=fake-a"))
    by (vm_compute; do 2 eexists; reflexivity).
  destruct Hg as (code & h & Hg). destruct (Hrep code h _ Hg) as (_ & _ & _ & Hx).
  apply (Hx "id"). vm_compute. auto.
Defined.

Lemma creds_wf : Table.table_wf creds.
Proof.
  apply table_reach_wf.
  apply (table_Add [Table.MkEntry "a" (to_bytes "fake-a") (to_bytes "real-a") 1] "b" (to_bytes "fake-b")
           (to_bytes "real-b") 2); [|by vm_compute].
  apply (table_Add [] "a" (to_bytes "fake-a") (to_bytes "real-a") 1); [constructor|by vm_compute].
Qed.

Lemma unmatched_request_unchanged_witness :
  Path (CredsSub_PreHook creds (request "/v1/messages" "" "hello") (mkContext "id" "s" "")).1 = "/v1/messages".
Proof.
  refine (proj2 (proj2 (proj2 (unmatched_request_unchanged creds (request "/v1/messages" "" "hello")
    (mkContext "id" "s" "") creds_wf _ eq_refl _ _)))).
  - intros e [->|[->|[]%elem_of_nil]%elem_of_cons]%elem_of_cons; discriminate.
  - vm_compute. reflexivity.
  - discriminate.
Defined.

(** The guard looks only at the first registered fake of each part: a request
    to [a] that also carries the fake of [b] passes, and the real credential of
    [b] is sent to the upstream of [a]. *)
Theorem cross_service_leak :
  let s := serveDeclaredService proxy (request "/svc/a/ok" "" "fake-a fake-b") "a" "/ok" "id" in
  sent_body s = Some "real-a real-b" ∧
  (o ← sv_Sent s; Some (out_Host o)) = Some "a.example" ∧
  guarded creds (mkContext "id" "session" "a") (to_bytes "fake-a fake-b").
Proof.
  split; [vm_compute; reflexivity|]. split; [vm_compute; reflexivity|].
  intros svc Hc. vm_compute in Hc. by injection Hc as <-.
Qed.

(** The policy sees the decoded path only up to its first question mark, the
    upstream gets all of it: for the path [/ok%3F/../secret] the rule for [/ok]
    decides, while the same engine rejects the path that is forwarded. *)
Theorem policy_path_truncated :
  let path := "/ok?/../secret" in
  let s := serveDeclaredService proxy (request "/svc/a/ok?/../secret" "/svc/a/ok%3F/../secret" "") "a" path "id" in
  (o ← sv_Sent s; Some (URawPath (out_URL o))) = Some "/ok%3F/../secret" ∧
  EffectiveDecision (CheckHTTPService engine "a" "GET" path) = DecisionDeny.
Proof. vm_compute. auto. Qed.

(** The request log holds what the hooks substituted into the path. *)
Example path_credential_logged :
  head (sv_Store (serveDeclaredService proxy (request "/svc/b/bot/fake-b" "" "") "b" "/bot/fake-b" "id")) =
  Some (LogRequest "id" "session" "b" "default" "GET" "/bot/real-b" ∅ 0 "").
Proof. vm_compute. reflexivity. Qed.
End ProxySample.
