(* ===== verification/McpCore.v ===== *)
(** * MCP tools: registry, policy, cross-server analysis

    - [Module ToolRegistry] (internal/mcpregistry/registry.go): tool names, the
      servers that provide them, pinned hashes, and the callbacks, whose calls are
      returned as events in the order the code makes them;
    - [Module McpPolicy] (internal/mcpinspect/policy.go): server and tool rules;
    - [Module Analyzer] (session_analyzer.go, tool_classifier.go): the sliding
      window and its four rules;
    - [Module Names] (name_similarity.go): the edit distance;
    - [Module Definitions] (mcpinspect/registry.go): change detection.

    Times are nanoseconds in [Z]; every method runs under its lock, so a method is
    one function on the state. The text of a reason is left out: a reason is the
    format it comes from with its arguments. *)

From S2P Require Import Prelude.

Local Open Scope nat_scope.

(** Go's [path.Match]: [None] for a malformed pattern. *)
Class PathLib := { path_Match : string → string → option bool }.

(** Documented behaviour used below: a star alone matches any sequence of bytes
    other than the slash; a pattern without special bytes matches itself only. *)
Class PathLaws `{PathLib} := {
  path_Match_star : ∀ s, path_Match "*" s = Some (negb (str_mem "/" s));
  path_Match_literal : ∀ p s, ContainsAny p "*?[\" = false → path_Match p s = Some (String.eqb p s);
}.

(** ** The tool registry *)
Module ToolRegistry.

Record ToolEntry := mkToolEntry {
  ToolName : string; ServerID : string; ServerType : string; ServerAddr : string;
  ToolHash : string; RegisteredAt : Z }.

Record ToolInfo := mkToolInfo { Name : string; Hash : string }.

Record OverwrittenTool := mkOverwritten {
  ow_ToolName : string; PreviousServerID : string; NewServerID : string }.

(** Which of the two callbacks are non-nil. *)
Record RegistryCallbacks := mkCallbacks { OnMultiServer : bool; OnOverwrite : bool }.

Inductive Callback :=
| CallMultiServer
| CallOverwrite (toolName oldServerID newServerID : string).

#[export] Instance Callback_eq_dec : EqDecision Callback.
Proof. solve_decision. Defined.

Record Registry := mkRegistry {
  tools : gmap string ToolEntry;
  addrs : gmap string string;
  pinnedHashes : gmap string string;
  callbacks : option RegistryCallbacks;
  servers : gset string;
  multiServerFired : bool }.

Definition NewRegistry : Registry := mkRegistry ∅ ∅ ∅ None ∅ false.

Definition SetCallbacks (r : Registry) (cb : RegistryCallbacks) : Registry * list Callback :=
  let fire := (2 <=? size (servers r)) && negb (multiServerFired r) && OnMultiServer cb in
  (mkRegistry (tools r) (addrs r) (pinnedHashes r) (Some cb) (servers r) (multiServerFired r || fire),
   if fire then [CallMultiServer] else []).

(** The loop of [Register] over the tools. *)
Definition register_tool (serverID serverType serverAddr : string) (now : Z)
    (acc : gmap string ToolEntry * gmap string string * list OverwrittenTool) (t : ToolInfo)
    : gmap string ToolEntry * gmap string string * list OverwrittenTool :=
  let '(tools, pinned, overwrites) := acc in
  (<[Name t := mkToolEntry (Name t) serverID serverType serverAddr (Hash t) now]> tools,
   if negb (String.eqb (Hash t) "") && bool_decide (pinned !! Name t = None)
   then <[Name t := Hash t]> pinned else pinned,
   match tools !! Name t with
   | Some existing =>
       if String.eqb (ServerID existing) serverID then overwrites
       else overwrites ++ [mkOverwritten (Name t) (ServerID existing) serverID]
   | None => overwrites
   end).

Definition Register (r : Registry) (serverID serverType serverAddr : string) (ts : list ToolInfo) (now : Z)
    : Registry * list OverwrittenTool * list Callback :=
  let '(tools', pinned', overwrites) :=
    foldl (register_tool serverID serverType serverAddr now) (tools r, pinnedHashes r, []) ts in
  let addrs' := if String.eqb serverAddr "" then addrs r else <[serverAddr := serverID]> (addrs r) in
  let servers' := {[serverID]} ∪ servers r in
  let fire := (2 <=? size servers') && negb (multiServerFired r) &&
              match callbacks r with Some cb => OnMultiServer cb | None => false end in
  let calls := match callbacks r with
               | None => []
               | Some cb =>
                   (if fire then [CallMultiServer] else []) ++
                   (if OnOverwrite cb
                    then (λ ow, CallOverwrite (ow_ToolName ow) (PreviousServerID ow) (NewServerID ow)) <$> overwrites
                    else [])
               end in
  (mkRegistry tools' addrs' pinned' (callbacks r) servers' (multiServerFired r || fire), overwrites, calls).

Definition Lookup (r : Registry) (toolName : string) : option ToolEntry := tools r !! toolName.

Definition LookupBatch (r : Registry) (names : list string) : gmap string ToolEntry :=
  foldl (λ m n, match tools r !! n with Some e => <[n := e]> m | None => m end) ∅ names.

Definition ServerAddrs (r : Registry) : gmap string string := addrs r.

Definition PinnedHash (r : Registry) (toolName : string) : option string := pinnedHashes r !! toolName.

Definition Remove (r : Registry) (serverID : string) : Registry :=
  mkRegistry (filter (λ kv, ServerID kv.2 ≠ serverID) (tools r)) (filter (λ kv, kv.2 ≠ serverID) (addrs r))
    (pinnedHashes r) (callbacks r) (servers r) (multiServerFired r).

(** Operations and runs: the state, and the callbacks in order. *)
Inductive Op :=
| OpSetCallbacks (cb : RegistryCallbacks)
| OpRegister (serverID serverType serverAddr : string) (ts : list ToolInfo) (now : Z)
| OpRemove (serverID : string).

Definition step (r : Registry) (op : Op) : Registry * list Callback :=
  match op with
  | OpSetCallbacks cb => SetCallbacks r cb
  | OpRegister s ty a ts now => let '(r', _, calls) := Register r s ty a ts now in (r', calls)
  | OpRemove s => (Remove r s, [])
  end.

Fixpoint run (r : Registry) (ops : list Op) : Registry * list Callback :=
  match ops with
  | [] => (r, [])
  | op :: ops => let '(r1, c1) := step r op in let '(r2, c2) := run r1 ops in (r2, c1 ++ c2)
  end.

(** *** Lemmas *)

Lemma register_tools_pinned sid ty ad now ts acc t h :
  acc.1.2 !! t = Some h → (foldl (register_tool sid ty ad now) acc ts).1.2 !! t = Some h.
Proof.
  revert acc. induction ts as [|ti ts IH]; intros [[tools pinned] ows]; [done|]. cbn [foldl].
  intros Ht. apply IH. cbn in *.
  destruct (negb _ && _) eqn:Hc; [|done]. apply andb_true_iff in Hc as [_ Hn%bool_decide_eq_true].
  rewrite lookup_insert_ne; [done|]. intros <-. congruence.
Qed.

(** The tools after a registration: the last entry of each name. *)
Lemma register_tools_lookup sid ty ad now ts acc name :
  (foldl (register_tool sid ty ad now) acc ts).1.1 !! name =
  match last (List.filter (λ t, String.eqb (Name t) name) ts) with
  | Some t => Some (mkToolEntry name sid ty ad (Hash t) now)
  | None => acc.1.1 !! name
  end.
Proof.
  induction ts as [|t ts IH] using rev_ind; [done|].
  rewrite foldl_snoc, List.filter_app. destruct (foldl _ acc ts) as [[tools pinned] ows]. cbn in IH |- *.
  destruct (String.eqb_spec (Name t) name) as [<-|Hne].
  - rewrite last_snoc. by rewrite lookup_insert_eq.
  - rewrite app_nil_r, lookup_insert_ne by done. done.
Qed.

(** A name is reported once, when another server owned it. *)
Lemma register_tools_overwrites sid ty ad now ts acc ow :
  ow ∈ (foldl (register_tool sid ty ad now) acc ts).2 ↔
  ow ∈ acc.2 ∨
  (NewServerID ow = sid ∧ PreviousServerID ow ≠ sid ∧ ow_ToolName ow ∈ (Name <$> ts) ∧
   ∃ e, acc.1.1 !! ow_ToolName ow = Some e ∧ ServerID e = PreviousServerID ow).
Proof.
  induction ts as [|t ts IH] using rev_ind; [set_solver|].
  rewrite foldl_snoc. pose proof (register_tools_lookup sid ty ad now ts acc (Name t)) as Hl.
  destruct (foldl _ acc ts) as [[tools pinned] ows]. cbn in IH, Hl |- *.
  rewrite fmap_app, elem_of_app. cbn [fmap list_fmap]. rewrite list_elem_of_singleton.
  assert (Hlast : ∀ x, last (List.filter (λ t0, String.eqb (Name t0) (Name t)) ts) = Some x →
                       Name t ∈ (Name <$> ts)).
  { intros x Hx. apply last_Some_elem_of, filter_bool_elem in Hx as [Hx Hn%String.eqb_eq].
    rewrite <-Hn. by apply list_elem_of_fmap_2. }
  assert (Hnone : last (List.filter (λ t0, String.eqb (Name t0) (Name t)) ts) = None →
                  tools !! Name t = acc.1.1 !! Name t) by (intros Hn; by rewrite Hn in Hl).
  destruct (last _) as [x|] eqn:Hx.
  - rewrite Hl. cbn. rewrite String.eqb_refl, IH. specialize (Hlast x eq_refl).
    split; [intros [?|(? & ? & ? & ?)]; [by left|right; eauto 10]|].
    intros [?|(? & ? & [?|Ht] & ?)]; [by left|right; eauto 10|right]. split_and!; [done..|by rewrite Ht|done].
  - rewrite (Hnone eq_refl). destruct (acc.1.1 !! Name t) as [e|] eqn:He.
    + destruct (String.eqb_spec (ServerID e) sid) as [Hs|Hs].
      * rewrite IH. split; [intros [?|(? & ? & ? & ?)]; [by left|right; eauto 10]|].
        intros [?|(? & ? & [?|Ht] & e' & He' & ?)]; [by left|right; eauto 10|].
        rewrite Ht in He'. simplify_eq.
      * rewrite elem_of_app, list_elem_of_singleton, IH. split.
        -- intros [[?|(? & ? & ? & ?)]| ->]; [by left|right; eauto 10|]. right. cbn. eauto 10.
        -- intros [?|(? & ? & [?|Ht] & e' & He' & ?)]; [left; by left|left; right; eauto 10|].
           right. rewrite Ht in He'. simplify_eq. destruct ow; cbn in *. subst. done.
    + rewrite IH. split; [intros [?|(? & ? & ? & ?)]; [by left|right; eauto 10]|].
        intros [?|(? & ? & [?|Ht] & e' & He' & ?)]; [by left|right; eauto 10|].
      rewrite Ht in He'. congruence.
Qed.

(** Number of times the multi-server callback is called. *)
Definition multi_calls (calls : list Callback) : nat :=
  length (List.filter (λ c, match c with CallMultiServer => true | _ => false end) calls).

Lemma multi_calls_app c1 c2 : multi_calls (c1 ++ c2) = multi_calls c1 + multi_calls c2.
Proof. unfold multi_calls. by rewrite List.filter_app, length_app. Qed.

Lemma multi_calls_overwrites ows :
  multi_calls ((λ ow, CallOverwrite (ow_ToolName ow) (PreviousServerID ow) (NewServerID ow)) <$> ows) = 0.
Proof. by induction ows. Qed.

(** The multi-server callback is due when it is set and two servers are known. *)
Definition multi_due (r : Registry) : bool :=
  (2 <=? size (servers r)) && match callbacks r with Some cb => OnMultiServer cb | None => false end.

Definition fired_inv (r : Registry) : Prop := multi_due r = true → multiServerFired r = true.

Lemma step_fired r op :
  fired_inv r →
  fired_inv (step r op).1 ∧
  multi_calls (step r op).2 = (if negb (multiServerFired r) && multiServerFired (step r op).1 then 1 else 0) ∧
  (multiServerFired r = true → multiServerFired (step r op).1 = true).
Proof.
  unfold fired_inv, multi_due. destruct op as [cb|s ty a ts now|s].
  - unfold step, SetCallbacks. cbn [fst snd servers callbacks multiServerFired]. intros Hi.
    destruct (2 <=? size (servers r)), (multiServerFired r), (OnMultiServer cb); cbn in *; auto.
  - unfold step, Register. intros Hi. destruct (foldl _ _ ts) as [[t' p'] ows].
    cbn [fst snd servers callbacks multiServerFired].
    destruct (callbacks r) as [cb|] eqn:Hcb.
    + rewrite multi_calls_app.
      assert (multi_calls (if OnOverwrite cb then (λ ow, CallOverwrite (ow_ToolName ow) (PreviousServerID ow)
                (NewServerID ow)) <$> ows else []) = 0) as ->
        by (destruct (OnOverwrite cb); [apply multi_calls_overwrites|done]).
      destruct (2 <=? size ({[s]} ∪ servers r)), (multiServerFired r), (OnMultiServer cb); cbn; auto.
    + rewrite !andb_false_r, orb_false_r. split_and!; [done| |done]. by destruct (multiServerFired r).
  - cbn. intros Hi. split_and!; [done| |done]. by destruct (multiServerFired r).
Qed.

Lemma step_pinned r op t h : pinnedHashes r !! t = Some h → pinnedHashes (step r op).1 !! t = Some h.
Proof.
  destruct op as [cb|s ty a ts now|s]; [done| |done]. cbn. unfold Register.
  intros Hp. apply (register_tools_pinned s ty a now ts (tools r, pinnedHashes r, [])) in Hp.
  by destruct (foldl _ _ ts) as [[t' p'] ows].
Qed.

Lemma run_fired r ops :
  fired_inv r →
  fired_inv (run r ops).1 ∧
  multi_calls (run r ops).2 = (if negb (multiServerFired r) && multiServerFired (run r ops).1 then 1 else 0) ∧
  (multiServerFired r = true → multiServerFired (run r ops).1 = true).
Proof.
  revert r. induction ops as [|op ops IH]; intros r Hi; cbn [run].
  { cbn. split_and!; [done| |done]. by destruct (multiServerFired r). }
  destruct (step_fired r op Hi) as (Hi1 & Hc1 & Hf1). destruct (step r op) as [r1 c1]. cbn [fst snd] in *.
  destruct (IH r1 Hi1) as (Hi2 & Hc2 & Hf2). destruct (run r1 ops) as [r2 c2]. cbn [fst snd] in *.
  split_and!; [done| |auto]. rewrite multi_calls_app, Hc1, Hc2.
  destruct (multiServerFired r), (multiServerFired r1), (multiServerFired r2); cbn in *; auto; naive_solver.
Qed.

Lemma run_pinned r ops t h : pinnedHashes r !! t = Some h → pinnedHashes (run r ops).1 !! t = Some h.
Proof.
  revert r. induction ops as [|op ops IH]; intros r Hp; [done|]. cbn [run].
  apply (step_pinned r op) in Hp. destruct (step r op) as [r1 c1]. specialize (IH r1 Hp).
  by destruct (run r1 ops).
Qed.

End ToolRegistry.

(** ** Server and tool policy *)
Module McpPolicy.

Record MCPServerRule := mkServerRule { sr_ID : string }.
Record MCPToolRule := mkToolRule { tr_Server : string; tr_Tool : string; tr_ContentHash : string }.

(** The fields of [SandboxMCPConfig] that [PolicyEvaluator] reads. *)
Record SandboxMCPConfig := mkMCPConfig {
  EnforcePolicy : bool; FailClosed : bool;
  ServerPolicy : string; AllowedServers : list MCPServerRule; DeniedServers : list MCPServerRule;
  ToolPolicy : string; AllowedTools : list MCPToolRule; DeniedTools : list MCPToolRule }.

Inductive PolicyReason :=
| EnforcementDisabled | ServerInAllowlist | ServerNotInAllowlist | ServerInDenylist
| UnknownServerPolicy (v : string) | MatchedAllowlist | NoAllowlistMatchClosed | NoAllowlistMatch
| MatchedDenylist | NoDenylistMatch | NoToolPolicy | UnknownToolPolicy (v : string).

Record PolicyDecision := mkPolicyDecision {
  Allowed : bool; Reason : PolicyReason; pd_Rule : option MCPToolRule }.

Section policy.
Context `{GoLib, PathLib}.

Definition matchesPattern (pattern value : string) : bool :=
  match path_Match (ToLower pattern) (ToLower value) with
  | None => EqualFold pattern value
  | Some matched => matched
  end.

Definition matchesServerRule (rule : MCPServerRule) (serverID : string) : bool :=
  matchesPattern (sr_ID rule) serverID.

Definition matchesRule (rule : MCPToolRule) (serverID toolName hash : string) : bool :=
  matchesPattern (tr_Server rule) serverID && matchesPattern (tr_Tool rule) toolName &&
  (String.eqb (tr_ContentHash rule) "" || String.eqb (tr_ContentHash rule) hash).

(** [None]: no server-level decision. *)
Definition evaluateServerPolicy (cfg : SandboxMCPConfig) (serverID : string) : option PolicyDecision :=
  if String.eqb (ServerPolicy cfg) "allowlist" then
    Some (if existsb (λ r, matchesServerRule r serverID) (AllowedServers cfg)
          then mkPolicyDecision true ServerInAllowlist None
          else mkPolicyDecision false ServerNotInAllowlist None)
  else if String.eqb (ServerPolicy cfg) "denylist" then
    if existsb (λ r, matchesServerRule r serverID) (DeniedServers cfg)
    then Some (mkPolicyDecision false ServerInDenylist None) else None
  else if String.eqb (ServerPolicy cfg) "" || String.eqb (ServerPolicy cfg) "none" then None
  else Some (mkPolicyDecision false (UnknownServerPolicy (ServerPolicy cfg)) None).

Definition evaluateAllowlist (cfg : SandboxMCPConfig) (serverID toolName hash : string) : PolicyDecision :=
  match find_first (λ r, matchesRule r serverID toolName hash) (AllowedTools cfg) with
  | Some rule => mkPolicyDecision true MatchedAllowlist (Some rule)
  | None => mkPolicyDecision false (if FailClosed cfg then NoAllowlistMatchClosed else NoAllowlistMatch) None
  end.

Definition evaluateDenylist (cfg : SandboxMCPConfig) (serverID toolName hash : string) : PolicyDecision :=
  match find_first (λ r, matchesRule r serverID toolName hash) (DeniedTools cfg) with
  | Some rule => mkPolicyDecision false MatchedDenylist (Some rule)
  | None => mkPolicyDecision true NoDenylistMatch None
  end.

Definition evaluate_tool (cfg : SandboxMCPConfig) (serverID toolName hash : string) : PolicyDecision :=
  if String.eqb (ToolPolicy cfg) "allowlist" then evaluateAllowlist cfg serverID toolName hash
  else if String.eqb (ToolPolicy cfg) "denylist" then evaluateDenylist cfg serverID toolName hash
  else if String.eqb (ToolPolicy cfg) "" || String.eqb (ToolPolicy cfg) "none"
  then mkPolicyDecision true NoToolPolicy None
  else mkPolicyDecision false (UnknownToolPolicy (ToolPolicy cfg)) None.

Definition Evaluate (cfg : SandboxMCPConfig) (serverID toolName hash : string) : PolicyDecision :=
  if negb (EnforcePolicy cfg) then mkPolicyDecision true EnforcementDisabled None
  else match evaluateServerPolicy cfg serverID with
       | Some decision => if negb (Allowed decision) then decision
                          else evaluate_tool cfg serverID toolName hash
       | None => evaluate_tool cfg serverID toolName hash
       end.

Definition IsAllowed (cfg : SandboxMCPConfig) (serverID toolName : string) : bool :=
  Allowed (Evaluate cfg serverID toolName "").
Definition IsAllowedWithHash (cfg : SandboxMCPConfig) (serverID toolName hash : string) : bool :=
  Allowed (Evaluate cfg serverID toolName hash).

(** *** The policy as a specification *)

Definition server_ok (cfg : SandboxMCPConfig) (serverID : string) : Prop :=
  (ServerPolicy cfg = "allowlist" ∧ ∃ r, r ∈ AllowedServers cfg ∧ matchesServerRule r serverID = true) ∨
  (ServerPolicy cfg = "denylist" ∧ ∀ r, r ∈ DeniedServers cfg → matchesServerRule r serverID = false) ∨
  ServerPolicy cfg = "" ∨ ServerPolicy cfg = "none".

Definition tool_ok (cfg : SandboxMCPConfig) (serverID toolName hash : string) : Prop :=
  (ToolPolicy cfg = "allowlist" ∧
     ∃ r, r ∈ AllowedTools cfg ∧ matchesRule r serverID toolName hash = true) ∨
  (ToolPolicy cfg = "denylist" ∧ ∀ r, r ∈ DeniedTools cfg → matchesRule r serverID toolName hash = false) ∨
  ToolPolicy cfg = "" ∨ ToolPolicy cfg = "none".

Lemma server_ok_iff cfg s :
  server_ok cfg s ↔ match evaluateServerPolicy cfg s with Some d => Allowed d = true | None => True end.
Proof.
  unfold server_ok, evaluateServerPolicy.
  destruct (String.eqb_spec (ServerPolicy cfg) "allowlist") as [E|Na].
  { rewrite E. destruct (existsb _ _) eqn:He; cbn.
    - apply existsb_elem in He. naive_solver.
    - rewrite existsb_false_elem in He. split; [|done].
      intros [(_ & r & Hr & Hm)|[[? _]|[?|?]]]; [rewrite He in Hm by done|..]; done. }
  destruct (String.eqb_spec (ServerPolicy cfg) "denylist") as [E|Nd].
  { rewrite E. destruct (existsb _ _) eqn:He; cbn.
    - apply existsb_elem in He as (r & Hr & Hm). split; [|done].
      intros [[? _]|[[_ Hall]|[?|?]]]; [done| |done..]. by rewrite Hall in Hm.
    - rewrite existsb_false_elem in He. naive_solver. }
  destruct (String.eqb_spec (ServerPolicy cfg) "") as [E|]; [cbn; naive_solver|].
  destruct (String.eqb_spec (ServerPolicy cfg) "none") as [E|]; cbn; naive_solver.
Qed.

Lemma tool_ok_iff cfg s t h : tool_ok cfg s t h ↔ Allowed (evaluate_tool cfg s t h) = true.
Proof.
  unfold tool_ok, evaluate_tool, evaluateAllowlist, evaluateDenylist.
  destruct (String.eqb_spec (ToolPolicy cfg) "allowlist") as [E|Na].
  { rewrite E. destruct (find_first _ _) as [r|] eqn:He; cbn.
    - apply find_first_Some in He as []. naive_solver.
    - rewrite find_first_None in He. split; [|done].
      intros [(_ & r & Hr & Hm)|[[? _]|[?|?]]]; [rewrite He in Hm by done|..]; done. }
  destruct (String.eqb_spec (ToolPolicy cfg) "denylist") as [E|Nd].
  { rewrite E. destruct (find_first _ _) as [r|] eqn:He; cbn.
    - apply find_first_Some in He as [Hr Hm]. split; [|done].
      intros [[? _]|[[_ Hall]|[?|?]]]; [done| |done..]. by rewrite Hall in Hm.
    - rewrite find_first_None in He. naive_solver. }
  destruct (String.eqb_spec (ToolPolicy cfg) "") as [E|]; [cbn; naive_solver|].
  destruct (String.eqb_spec (ToolPolicy cfg) "none") as [E|]; cbn; naive_solver.
Qed.

Lemma Evaluate_iff cfg s t h :
  Allowed (Evaluate cfg s t h) = true ↔
  EnforcePolicy cfg = false ∨ (server_ok cfg s ∧ tool_ok cfg s t h).
Proof.
  unfold Evaluate. rewrite server_ok_iff, tool_ok_iff.
  destruct (EnforcePolicy cfg); cbn; [|naive_solver].
  destruct (evaluateServerPolicy cfg s) as [d|]; [|naive_solver].
  destruct (Allowed d) eqn:Hd; cbn; naive_solver.
Qed.
End policy.
End McpPolicy.

(** ** Cross-server analysis *)
Module Analyzer.

Definition CategoryRead : string := "read".
Definition CategoryWrite : string := "write".
Definition CategorySend : string := "send".
Definition CategoryCompute : string := "compute".
Definition CategoryUnknown : string := "unknown".

Definition defaultPrefixes : list (string * string) :=
  ((λ p, (p, CategoryRead)) <$>
     ["read_"; "get_"; "query_"; "list_"; "fetch_"; "search_"; "find_"; "lookup_"]) ++
  ((λ p, (p, CategoryWrite)) <$>
     ["write_"; "update_"; "set_"; "create_"; "delete_"; "remove_"; "put_"; "insert_"]) ++
  ((λ p, (p, CategorySend)) <$>
     ["send_"; "post_"; "upload_"; "http_"; "email_"; "notify_"; "publish_"; "push_"]) ++
  ((λ p, (p, CategoryCompute)) <$> ["run_"; "exec_"; "eval_"; "execute_"; "invoke_"; "call_"]).

Definition Classify `{GoLib} (toolName : string) : string :=
  let lower := ToLower toolName in
  match find_first (λ p, HasPrefix lower p.1) defaultPrefixes with
  | Some p => p.2
  | None => CategoryUnknown
  end.

(** [CrossServerConfig]; pointers are options. *)
Record Config := mkConfig {
  Enabled : bool;
  rts_Enabled : bool; rts_Window : Z;
  burst_Enabled : bool; burst_MaxCalls : Z; burst_Window : Z;
  flow_Enabled : bool; flow_SameTurnOnly : option bool; flow_Window : Z;
  shadow_Enabled : option bool }.

Record ToolCallRecord := mkRecord {
  Timestamp : Z; ServerID : string; ToolName : string; ToolCallID : string; RequestID : string;
  Action : string; Category : string }.

#[export] Instance ToolCallRecord_eq_dec : EqDecision ToolCallRecord.
Proof. solve_decision. Defined.

Inductive BlockReason :=
| ReasonShadow (tool original new : string)
| ReasonBurst (server : string) (calls : nat) (window : Z)
| ReasonReadThenSend (server reader : string) (elapsed : Z)
| ReasonFlow (reader server : string).

Record CrossServerDecision := mkCross {
  Blocked : bool; CrossRule : string; CrossReason : BlockReason; Severity : string;
  Related : list ToolCallRecord }.

Record shadowInfo := mkShadow { OriginalServerID : string; NewServerID : string }.

(** Before [Activate], the window and the bursts are nil: empty. *)
Record SessionAnalyzer := mkAnalyzer {
  active : bool; cfg : Config; window : list ToolCallRecord; maxWindow : Z;
  shadows : gmap string shadowInfo; bursts : gmap string (list Z) }.

Definition NewSessionAnalyzer (c : Config) : SessionAnalyzer := mkAnalyzer false c [] 0 ∅ ∅.

Definition second : Z := 1000000000.
Definition maxWindowEntries : nat := 1000.

Definition computeMaxWindow (c : Config) : Z :=
  let m := rts_Window c in
  let m := if (m <? burst_Window c)%Z then burst_Window c else m in
  let m := if (m <? flow_Window c)%Z then flow_Window c else m in
  if (m =? 0)%Z then (30 * second)%Z else m.

Definition Activate (a : SessionAnalyzer) : SessionAnalyzer :=
  if active a then a
  else mkAnalyzer true (cfg a) [] (computeMaxWindow (cfg a)) (shadows a) ∅.

Definition set_shadows (a : SessionAnalyzer) (s : gmap string shadowInfo) : SessionAnalyzer :=
  mkAnalyzer (active a) (cfg a) (window a) (maxWindow a) s (bursts a).
Definition set_window (a : SessionAnalyzer) (w : list ToolCallRecord) : SessionAnalyzer :=
  mkAnalyzer (active a) (cfg a) w (maxWindow a) (shadows a) (bursts a).
Definition set_bursts (a : SessionAnalyzer) (b : gmap string (list Z)) : SessionAnalyzer :=
  mkAnalyzer (active a) (cfg a) (window a) (maxWindow a) (shadows a) b.

Definition NotifyOverwrite (a : SessionAnalyzer) (toolName oldServerID newServerID : string) : SessionAnalyzer :=
  set_shadows a (<[toolName := mkShadow oldServerID newServerID]> (shadows a)).

Definition ClearShadow (a : SessionAnalyzer) (toolName : string) : SessionAnalyzer :=
  set_shadows a (delete toolName (shadows a)).

(** The prefix of entries before the cutoff goes, then the oldest over the cap. *)
Fixpoint drop_before (cutoff : Z) (w : list ToolCallRecord) : list ToolCallRecord :=
  match w with
  | [] => []
  | rec :: w' => if (Timestamp rec <? cutoff)%Z then drop_before cutoff w' else w
  end.

Definition pruneWindow (maxWindow now : Z) (w : list ToolCallRecord) : list ToolCallRecord :=
  let w := drop_before (now - maxWindow) w in
  if maxWindowEntries <? length w then drop (length w - maxWindowEntries) w else w.

Definition recordLocked (a : SessionAnalyzer) (rec : ToolCallRecord) : SessionAnalyzer :=
  if negb (active a) then a
  else set_window a (pruneWindow (maxWindow a) (Timestamp rec) (window a ++ [rec])).

Definition checkShadow (a : SessionAnalyzer) (toolName : string) : option CrossServerDecision :=
  info ← shadows a !! toolName;
  Some (mkCross true "shadow_tool" (ReasonShadow toolName (OriginalServerID info) (NewServerID info))
          "critical" []).

(** The state changes too: the pruned timestamps with the call of now. *)
Definition checkBurst (a : SessionAnalyzer) (serverID : string) (now : Z)
    : SessionAnalyzer * option CrossServerDecision :=
  if (burst_MaxCalls (cfg a) <=? 0)%Z then (a, None)
  else
    let cutoff := (now - burst_Window (cfg a))%Z in
    let pruned := List.filter (λ t, negb (t <? cutoff)%Z) (default [] (bursts a !! serverID)) ++ [now] in
    (set_bursts a (<[serverID := pruned]> (bursts a)),
     if (burst_MaxCalls (cfg a) <=? Z.of_nat (length pruned))%Z
     then Some (mkCross true "burst" (ReasonBurst serverID (length pruned) (burst_Window (cfg a))) "high" [])
     else None).

(** The backward walks: the newest entry that satisfies [p], up to the first one
    before the cutoff. The argument is the window reversed. *)
Fixpoint walk_back (cutoff : Z) (p : ToolCallRecord → bool) (w : list ToolCallRecord) : option ToolCallRecord :=
  match w with
  | [] => None
  | rec :: w => if (Timestamp rec <? cutoff)%Z then None
                else if p rec then Some rec else walk_back cutoff p w
  end.

Definition foreign_read (serverID : string) (rec : ToolCallRecord) : bool :=
  String.eqb (Category rec) CategoryRead && String.eqb (Action rec) "allow" &&
  negb (String.eqb (ServerID rec) serverID).

Definition checkReadThenSend (a : SessionAnalyzer) (serverID : string) (now : Z) : option CrossServerDecision :=
  rec ← walk_back (now - rts_Window (cfg a)) (foreign_read serverID) (rev (window a));
  Some (mkCross true "read_then_send"
          (ReasonReadThenSend serverID (ServerID rec) (now - Timestamp rec)) "critical" [rec]).

Definition same_turn (c : Config) : bool := default false (flow_SameTurnOnly c).

Definition checkCrossServerFlow (a : SessionAnalyzer) (serverID requestID : string) (now : Z)
    : option CrossServerDecision :=
  rec ← walk_back (now - flow_Window (cfg a))
          (λ rec, foreign_read serverID rec &&
                  negb (same_turn (cfg a) && negb (String.eqb (RequestID rec) requestID)))
          (rev (window a));
  Some (mkCross true "cross_server_flow" (ReasonFlow (ServerID rec) serverID) "high" [rec]).

Definition isSuspiciousCategory (category : string) : bool :=
  bool_decide (category ∈ [CategoryWrite; CategorySend; CategoryCompute; CategoryUnknown]).

Section analyzer.
Context `{GoLib}.

Definition record_of (serverID toolName toolCallID requestID action : string) (now : Z) : ToolCallRecord :=
  mkRecord now serverID toolName toolCallID requestID action (Classify toolName).

Definition CheckAndRecord (a : SessionAnalyzer) (serverID toolName toolCallID requestID : string) (now : Z)
    : SessionAnalyzer * option CrossServerDecision * string :=
  let category := Classify toolName in
  let record (a : SessionAnalyzer) (action : string) :=
    recordLocked a (record_of serverID toolName toolCallID requestID action now) in
  if negb (Enabled (cfg a)) then (a, None, category)
  else if negb (active a) && bool_decide (shadows a = ∅) then (a, None, category)
  else
    match (if default false (shadow_Enabled (cfg a)) then checkShadow a toolName else None) with
    | Some dec => (record a "block", Some dec, category)
    | None =>
        if negb (active a) then (a, None, category)
        else
          let '(a, burst) := if burst_Enabled (cfg a) then checkBurst a serverID now else (a, None) in
          match burst with
          | Some dec => (record a "block", Some dec, category)
          | None =>
              match (if rts_Enabled (cfg a) && String.eqb category CategorySend
                     then checkReadThenSend a serverID now else None) with
              | Some dec => (record a "block", Some dec, category)
              | None =>
                  match (if flow_Enabled (cfg a) && isSuspiciousCategory category
                         then checkCrossServerFlow a serverID requestID now else None) with
                  | Some dec => (record a "block", Some dec, category)
                  | None => (record a "allow", None, category)
                  end
              end
          end
    end.
End analyzer.

(** [MarkBlocked]: the newest matching entry that was allowed. The argument is the
    window reversed. *)
Definition mark_matches (serverID toolName toolCallID requestID : string) (rec : ToolCallRecord) : bool :=
  if negb (String.eqb toolCallID "") then String.eqb (ToolCallID rec) toolCallID
  else String.eqb (ServerID rec) serverID && String.eqb (ToolName rec) toolName &&
       String.eqb (RequestID rec) requestID.

Definition block_record (rec : ToolCallRecord) : ToolCallRecord :=
  mkRecord (Timestamp rec) (ServerID rec) (ToolName rec) (ToolCallID rec) (RequestID rec) "block" (Category rec).

Fixpoint mark_back (p : ToolCallRecord → bool) (w : list ToolCallRecord) : list ToolCallRecord :=
  match w with
  | [] => []
  | rec :: w => if String.eqb (Action rec) "allow" && p rec then block_record rec :: w
                else rec :: mark_back p w
  end.

Definition mark (p : ToolCallRecord → bool) (w : list ToolCallRecord) : list ToolCallRecord :=
  rev (mark_back p (rev w)).

Definition MarkBlocked (a : SessionAnalyzer) (serverID toolName toolCallID requestID : string) : SessionAnalyzer :=
  set_window a (mark (mark_matches serverID toolName toolCallID requestID) (window a)).

(** The server IDs that [CheckServerSimilarity] collects. *)
Definition known_servers (a : SessionAnalyzer) (newServerID : string) : gset string :=
  (list_to_set (ServerID <$> window a) ∪ dom (bursts a) ∪
   list_to_set ((map_to_list (shadows a)) ≫= λ kv, [OriginalServerID kv.2; NewServerID kv.2]))
  ∖ {[newServerID]}.

(** *** A monitor with the whole history

    The same rules over every call of the session instead of the bounded window and
    the pruned timestamps. *)
Record Monitor := mkMonitor {
  m_hist : list ToolCallRecord;      (** every call, in order *)
  m_calls : list (string * Z);       (** calls that reached the burst rule *)
  m_shadows : gmap string shadowInfo }.

Inductive Op :=
| OpCall (serverID toolName toolCallID requestID : string) (now : Z)
| OpMark (serverID toolName toolCallID requestID : string)
| OpOverwrite (toolName oldServerID newServerID : string)
| OpClear (toolName : string).

Section monitor.
Context `{GoLib} (c : Config).

Definition burst_counts : bool := burst_Enabled c && negb (burst_MaxCalls c <=? 0)%Z.

Definition calls_since (m : Monitor) (serverID : string) (from : Z) : list (string * Z) :=
  List.filter (λ st, String.eqb st.1 serverID && (from <=? st.2)%Z) (m_calls m).

Definition seen_since (m : Monitor) (p : ToolCallRecord → bool) (from : Z) : bool :=
  existsb (λ rec, p rec && (from <=? Timestamp rec)%Z) (m_hist m).

(** The rule that stops a call, in order of precedence. *)
Definition m_verdict (m : Monitor) (serverID toolName requestID : string) (now : Z) : option string :=
  if default false (shadow_Enabled c) && bool_decide (is_Some (m_shadows m !! toolName))
  then Some "shadow_tool"
  else if burst_counts &&
    (burst_MaxCalls c <=? Z.of_nat (length (calls_since m serverID (now - burst_Window c)) + 1))%Z
  then Some "burst"
  else if rts_Enabled c && String.eqb (Classify toolName) CategorySend &&
    seen_since m (foreign_read serverID) (now - rts_Window c)
  then Some "read_then_send"
  else if flow_Enabled c && isSuspiciousCategory (Classify toolName) &&
    seen_since m (λ rec, foreign_read serverID rec &&
      negb (same_turn c && negb (String.eqb (RequestID rec) requestID))) (now - flow_Window c)
  then Some "cross_server_flow"
  else None.

Definition m_step (m : Monitor) (op : Op) : Monitor * list (option string) :=
  match op with
  | OpCall s t i r now =>
      let v := m_verdict m s t r now in
      let counted := burst_counts && negb (bool_decide (v = Some "shadow_tool")) in
      (mkMonitor (m_hist m ++ [record_of s t i r (if v then "block" else "allow") now])
         (if counted then m_calls m ++ [(s, now)] else m_calls m) (m_shadows m), [v])
  | OpMark s t i r => (mkMonitor (mark (mark_matches s t i r) (m_hist m)) (m_calls m) (m_shadows m), [])
  | OpOverwrite t o n => (mkMonitor (m_hist m) (m_calls m) (<[t := mkShadow o n]> (m_shadows m)), [])
  | OpClear t => (mkMonitor (m_hist m) (m_calls m) (delete t (m_shadows m)), [])
  end.

Definition a_step (a : SessionAnalyzer) (op : Op) : SessionAnalyzer * list (option string) :=
  match op with
  | OpCall s t i r now => let '(a', dec, _) := CheckAndRecord a s t i r now in (a', [CrossRule <$> dec])
  | OpMark s t i r => (MarkBlocked a s t i r, [])
  | OpOverwrite t o n => (NotifyOverwrite a t o n, [])
  | OpClear t => (ClearShadow a t, [])
  end.

Fixpoint m_run (m : Monitor) (ops : list Op) : Monitor * list (option string) :=
  match ops with
  | [] => (m, [])
  | op :: ops => let '(m1, v1) := m_step m op in let '(m2, v2) := m_run m1 ops in (m2, v1 ++ v2)
  end.

Fixpoint a_run (a : SessionAnalyzer) (ops : list Op) : SessionAnalyzer * list (option string) :=
  match ops with
  | [] => (a, [])
  | op :: ops => let '(a1, v1) := a_step a op in let '(a2, v2) := a_run a1 ops in (a2, v1 ++ v2)
  end.

(** Time does not run backwards from [t]. *)
Fixpoint clocked (t : Z) (ops : list Op) : Prop :=
  match ops with
  | [] => True
  | OpCall _ _ _ _ now :: ops => (t ≤ now)%Z ∧ clocked now ops
  | _ :: ops => clocked t ops
  end.

(** The history within the retention of the window at time [now]. *)
Definition retained (m : Monitor) (now : Z) : list ToolCallRecord :=
  List.filter (λ rec, (now - computeMaxWindow c <=? Timestamp rec)%Z) (m_hist m).

(** After each call of the run, no more calls are retained than the window holds. *)
Fixpoint within_cap (m : Monitor) (ops : list Op) : Prop :=
  match ops with
  | [] => True
  | op :: ops =>
      let m' := (m_step m op).1 in
      match op with OpCall _ _ _ _ now => length (retained m' now) ≤ maxWindowEntries | _ => True end ∧
      within_cap m' ops
  end.

(** *** Simulation *)

Definition sorted_times (w : list ToolCallRecord) : Prop := StronglySorted Z.le (Timestamp <$> w).

Definition times_of (m : Monitor) (s : string) : list Z :=
  snd <$> List.filter (λ st, String.eqb st.1 s) (m_calls m).

Record sim (a : SessionAnalyzer) (m : Monitor) (t : Z) : Prop := {
  sim_active : active a = true;
  sim_cfg : cfg a = c;
  sim_max : maxWindow a = computeMaxWindow c;
  sim_shadows : shadows a = m_shadows m;
  sim_sorted : sorted_times (m_hist m);
  sim_past : Forall (λ rec, (Timestamp rec ≤ t)%Z) (m_hist m);
  sim_window : ∃ old, m_hist m = old ++ window a ∧
    Forall (λ rec, (Timestamp rec < t - computeMaxWindow c)%Z) old;
  sim_bursts : ∀ s, ∃ cut, (cut ≤ t - burst_Window c)%Z ∧
    default [] (bursts a !! s) = List.filter (λ x, negb (x <? cut)%Z) (times_of m s) }.

Lemma computeMaxWindow_ge :
  (rts_Window c ≤ computeMaxWindow c ∧ burst_Window c ≤ computeMaxWindow c ∧
   flow_Window c ≤ computeMaxWindow c)%Z.
Proof.
  unfold computeMaxWindow, second. cbn zeta.
  destruct (Z.ltb_spec (rts_Window c) (burst_Window c));
    [destruct (Z.ltb_spec (burst_Window c) (flow_Window c))|destruct (Z.ltb_spec (rts_Window c) (flow_Window c))];
    match goal with |- context [(?x =? 0)%Z] => destruct (Z.eqb_spec x 0) end; lia.
Qed.

Lemma times_snoc w rec :
  sorted_times (w ++ [rec]) ↔ sorted_times w ∧ Forall (λ r, (Timestamp r ≤ Timestamp rec)%Z) w.
Proof.
  unfold sorted_times. rewrite fmap_app. cbn. induction w as [|r w IH]; cbn.
  - split; [intros _; split; constructor|intros _; repeat constructor].
  - rewrite !StronglySorted_cons, IH, Forall_cons, Forall_app, Forall_singleton. tauto.
Qed.

Lemma walk_back_Some cutoff p w :
  sorted_times w →
  match walk_back cutoff p (rev w) with
  | Some rec => rec ∈ w ∧ p rec = true ∧ (cutoff ≤ Timestamp rec)%Z
  | None => ∀ rec, rec ∈ w → p rec = true → (Timestamp rec < cutoff)%Z
  end.
Proof.
  induction w as [|rec w IH] using rev_ind; [by intros _ ? ?%elem_of_nil|].
  rewrite times_snoc, rev_unit. intros [Hs Hall]. cbn [walk_back]. rewrite Forall_forall in Hall.
  destruct (Z.ltb_spec (Timestamp rec) cutoff).
  - intros r [Hr| ->%list_elem_of_singleton]%elem_of_app _; [|done]. specialize (Hall r Hr). lia.
  - destruct (p rec) eqn:Hp.
    + rewrite elem_of_app, list_elem_of_singleton. auto.
    + specialize (IH Hs). destruct (walk_back cutoff p (rev w)) as [r|].
      * rewrite elem_of_app. tauto.
      * intros r [Hr| ->%list_elem_of_singleton]%elem_of_app Hr'; [by apply IH|congruence].
Qed.

(** A rule that looks back less than the retention sees the whole history. *)
Lemma walk_back_seen a m t now w p :
  sim a m t → (t ≤ now)%Z → (w ≤ computeMaxWindow c)%Z →
  bool_decide (is_Some (walk_back (now - w) p (rev (window a)))) = seen_since m p (now - w).
Proof.
  intros [Ha Hc Hm Hsh Hs Hp (old & Hw & Hold) Hb] Hn Hle.
  assert (Hs' : sorted_times (window a)).
  { unfold sorted_times in *. rewrite Hw, fmap_app in Hs. by apply StronglySorted_app in Hs as (_ & ? & ?). }
  pose proof (walk_back_Some (now - w) p (window a) Hs') as Hwb. unfold seen_since. symmetry.
  destruct (walk_back _ _ _) as [rec|].
  - rewrite bool_decide_true by eauto. destruct Hwb as (Hin & Hpr & Hge).
    apply existsb_elem. exists rec. rewrite Hw, elem_of_app, Hpr. split; [by right|]. by apply Z.leb_le.
  - rewrite bool_decide_false by (by intros []). apply existsb_false_elem. intros rec Hin.
    destruct (p rec) eqn:Hpr; [|done]. cbn. apply Z.leb_gt. rewrite Hw in Hin.
    apply elem_of_app in Hin as [Hin|Hin]; [|by apply Hwb].
    rewrite Forall_forall in Hold. specialize (Hold rec Hin). lia.
Qed.

Lemma times_of_snoc m s s' now :
  snd <$> List.filter (λ st, String.eqb st.1 s) (m_calls m ++ [(s', now)]) =
  times_of m s ++ (if String.eqb s' s then [now] else []).
Proof.
  unfold times_of. rewrite List.filter_app, fmap_app. cbn. by destruct (String.eqb s' s).
Qed.

Lemma filter_later (cut1 cut2 : Z) (l : list Z) :
  (cut1 ≤ cut2)%Z →
  List.filter (λ x, negb (x <? cut2)%Z) (List.filter (λ x, negb (x <? cut1)%Z) l) =
  List.filter (λ x, negb (x <? cut2)%Z) l.
Proof.
  intros Hle. induction l as [|x l IH]; [done|]. cbn.
  destruct (Z.ltb_spec x cut1), (Z.ltb_spec x cut2); cbn; try lia;
    try (rewrite (proj2 (Z.ltb_lt x cut2)) by lia; cbn); try (rewrite (proj2 (Z.ltb_ge x cut2)) by lia; cbn);
    by rewrite ?IH.
Qed.

Lemma calls_since_times m s from :
  length (calls_since m s from) = length (List.filter (λ x, negb (x <? from)%Z) (times_of m s)).
Proof.
  unfold calls_since, times_of. induction (m_calls m) as [|[s' x] l IH]; [done|]. cbn.
  destruct (String.eqb s' s); cbn; [|done].
  destruct (Z.leb_spec from x), (Z.ltb_spec x from); cbn; lia.
Qed.

Lemma drop_before_split cutoff w :
  ∃ pre, w = pre ++ drop_before cutoff w ∧ Forall (λ r, (Timestamp r < cutoff)%Z) pre.
Proof.
  induction w as [|r w (pre & Hw & Hpre)]; [by exists []|]. cbn.
  destruct (Z.ltb_spec (Timestamp r) cutoff); [|by exists []].
  exists (r :: pre). cbn. rewrite <-Hw. split; [done|]. by constructor.
Qed.

Lemma drop_before_ge cutoff w :
  sorted_times w → Forall (λ r, (cutoff ≤ Timestamp r)%Z) (drop_before cutoff w).
Proof.
  unfold sorted_times. induction w as [|r w IH]; [constructor|]. cbn.
  rewrite StronglySorted_cons. intros [Hall Hs].
  destruct (Z.ltb_spec (Timestamp r) cutoff); [by apply IH|]. constructor; [done|].
  rewrite Forall_fmap in Hall. eapply Forall_impl; [exact Hall|]. cbn. intros x Hx. lia.
Qed.

(** Recording a call: the window stays the recent part of the history. *)
Lemma record_window old w rec mw :
  sorted_times (old ++ w ++ [rec]) →
  Forall (λ r, (Timestamp r < Timestamp rec - mw)%Z) old →
  length (List.filter (λ r, (Timestamp rec - mw <=? Timestamp r)%Z) (old ++ w ++ [rec])) ≤ maxWindowEntries →
  ∃ old', old ++ w ++ [rec] = old' ++ pruneWindow mw (Timestamp rec) (w ++ [rec]) ∧
    Forall (λ r, (Timestamp r < Timestamp rec - mw)%Z) old'.
Proof.
  intros Hs Hold Hcap. unfold pruneWindow.
  destruct (drop_before_split (Timestamp rec - mw) (w ++ [rec])) as (pre & Hw & Hpre).
  assert (Hs' : sorted_times (w ++ [rec])).
  { unfold sorted_times in *. rewrite fmap_app in Hs. by apply StronglySorted_app in Hs as (_ & ? & ?). }
  apply (drop_before_ge (Timestamp rec - mw)) in Hs'. set (d := drop_before _ _) in *.
  assert (length d ≤ maxWindowEntries) as Hd.
  { etrans; [|exact Hcap]. rewrite Hw, !List.filter_app, !length_app.
    rewrite (filter_all _ d); [lia|]. eapply Forall_impl; [exact Hs'|]. cbn. intros x Hx. by apply Z.leb_le. }
  destruct (Nat.ltb_spec maxWindowEntries (length d)); [lia|].
  exists (old ++ pre). rewrite Hw, (assoc_L (++)). split; [done|]. by apply Forall_app.
Qed.

Lemma fmap_rev {A B} (f : A → B) l : f <$> rev l = rev (f <$> l).
Proof. induction l as [|x l IH]; [done|]. cbn [rev fmap list_fmap]. by rewrite fmap_app, IH. Qed.

Lemma mark_length p w : length (mark p w) = length w.
Proof.
  unfold mark. rewrite length_rev. transitivity (length (rev w)); [|apply length_rev].
  generalize (rev w). induction l as [|r l IH]; [done|]. cbn. case_match; cbn; by rewrite ?IH.
Qed.

Lemma mark_times p w : Timestamp <$> mark p w = Timestamp <$> w.
Proof.
  unfold mark. rewrite !fmap_rev. rewrite <-(rev_involutive w) at 2. rewrite fmap_rev. f_equal.
  generalize (rev w). induction l as [|r l IH]; [done|]. cbn. case_match; cbn; by rewrite ?IH.
Qed.

Lemma mark_back_app p l1 l2 :
  take (length l1) (mark_back p (l1 ++ l2)) = mark_back p l1.
Proof.
  induction l1 as [|r l1 IH]; [done|]. cbn. case_match; cbn; f_equal; [|done].
  by rewrite take_app_length.
Qed.

(** Marking the history marks its recent part as the analyzer does. *)
Lemma mark_suffix p old w : ∃ old', mark p (old ++ w) = old' ++ mark p w ∧ length old' = length old.
Proof.
  exists (take (length old) (mark p (old ++ w))).
  assert (drop (length old) (mark p (old ++ w)) = mark p w) as Hd.
  { unfold mark. rewrite rev_app_distr. rewrite <-(mark_back_app p (rev w) (rev old)).
    pose proof (mark_length p (old ++ w)) as Hl. unfold mark in Hl. rewrite length_rev, rev_app_distr in Hl.
    rewrite length_app in Hl. set (l := mark_back p (rev w ++ rev old)) in *.
    rewrite length_rev, <-(take_drop (length w) l) at 1. rewrite rev_app_distr.
    rewrite drop_app_length'; [done|]. rewrite length_rev, length_drop. lia. }
  rewrite <-Hd, take_drop. split; [done|]. rewrite length_take, mark_length, length_app. lia.
Qed.

Lemma mark_Forall_times (P : Z → Prop) w w' :
  Timestamp <$> w' = Timestamp <$> w → Forall (λ r, P (Timestamp r)) w → Forall (λ r, P (Timestamp r)) w'.
Proof.
  intros Heq Hw. rewrite Forall_forall in *. intros r Hr.
  assert (Timestamp r ∈ (Timestamp <$> w)) as (r' & Hr' & Hin)%list_elem_of_fmap
    by (rewrite <-Heq; by apply list_elem_of_fmap_2).
  rewrite Hr'. by apply Hw.
Qed.

Lemma sim_mark a m t p :
  sim a m t → sim (set_window a (mark p (window a))) (mkMonitor (mark p (m_hist m)) (m_calls m) (m_shadows m)) t.
Proof.
  intros [Ha Hc Hm Hsh Hs Hp (old & Hw & Hold) Hb]. split; cbn; try done.
  - unfold sorted_times. by rewrite mark_times.
  - eapply (mark_Forall_times (λ x, x ≤ t)%Z); [apply mark_times|done].
  - destruct (mark_suffix p old (window a)) as (old' & Heq & Hl). rewrite Hw. exists old'. split; [done|].
    eapply (mark_Forall_times (λ x, x < t - computeMaxWindow c)%Z old); [|done].
    pose proof (mark_times p (old ++ window a)) as Ht. rewrite Heq, !fmap_app in Ht.
    by apply app_inj_1 in Ht as [? _]; [|rewrite !length_fmap].
Qed.

(** The burst rule. *)
Lemma checkBurst_count a m t s now :
  sim a m t → (t ≤ now)%Z →
  length (List.filter (λ x, negb (x <? now - burst_Window c)%Z) (default [] (bursts a !! s)) ++ [now]) =
  length (calls_since m s (now - burst_Window c)) + 1.
Proof.
  intros Hsim Hn. destruct (sim_bursts _ _ _ Hsim s) as (cut & Hcut & ->).
  rewrite length_app, filter_later by lia. by rewrite calls_since_times.
Qed.

Definition counted_call (a : SessionAnalyzer) (s : string) (now : Z) : SessionAnalyzer :=
  if burst_counts then
    set_bursts a (<[s := List.filter (λ x, negb (x <? now - burst_Window c)%Z) (default [] (bursts a !! s)) ++ [now]]>
                    (bursts a))
  else a.

Definition counted_m (m : Monitor) (s : string) (now : Z) : list (string * Z) :=
  if burst_counts then m_calls m ++ [(s, now)] else m_calls m.

Lemma sim_counted a m t s now :
  (0 ≤ burst_Window c)%Z → sim a m t → (t ≤ now)%Z →
  ∀ s', ∃ cut, (cut ≤ now - burst_Window c)%Z ∧
    default [] (bursts (counted_call a s now) !! s') =
    List.filter (λ x, negb (x <? cut)%Z)
      (times_of (mkMonitor (m_hist m) (counted_m m s now) (m_shadows m)) s').
Proof.
  intros Hw0 Hsim Hn s'. destruct (sim_bursts _ _ _ Hsim s') as (cut & Hcut & Hb).
  unfold counted_call, counted_m, times_of. cbn [m_calls].
  destruct burst_counts eqn:Hbc.
  2: { exists cut. split; [lia|done]. }
  rewrite times_of_snoc. cbn. destruct (String.eqb_spec s s') as [<-|Hne].
  - exists (now - burst_Window c)%Z. split; [done|]. rewrite lookup_insert_eq. cbn.
    rewrite Hb, filter_later, List.filter_app by lia. f_equal. cbn.
    destruct (Z.ltb_spec now (now - burst_Window c)); [lia|done].
  - exists cut. rewrite lookup_insert_ne by done. rewrite app_nil_r. split; [lia|done].
Qed.

Lemma counted_window a s now : window (counted_call a s now) = window a.
Proof. unfold counted_call. by destruct burst_counts. Qed.
Lemma counted_cfg a s now : cfg (counted_call a s now) = cfg a.
Proof. unfold counted_call. by destruct burst_counts. Qed.

Lemma option_is_Some {A} (o : option A) : bool_decide (is_Some o) = match o with Some _ => true | None => false end.
Proof. destruct o; [by rewrite bool_decide_true by eauto|by rewrite bool_decide_false by (by intros [])]. Qed.

(** The burst rule of the analyzer and of the monitor. *)
Lemma burst_agrees a m t s now :
  sim a m t → (t ≤ now)%Z →
  ∃ b, (if burst_Enabled (cfg a) then checkBurst a s now else (a, None)) = (counted_call a s now, b) ∧
    (CrossRule <$> b) =
    (if burst_counts &&
        (burst_MaxCalls c <=? Z.of_nat (length (calls_since m s (now - burst_Window c)) + 1))%Z
     then Some "burst" else None).
Proof.
  intros Hsim Hn. pose proof (checkBurst_count a m t s now Hsim Hn) as Hcount.
  rewrite (sim_cfg _ _ _ Hsim). unfold checkBurst, counted_call, burst_counts.
  rewrite (sim_cfg _ _ _ Hsim). destruct (burst_Enabled c); [|by exists None].
  destruct (burst_MaxCalls c <=? 0)%Z eqn:Hz; [by exists None|]. cbn zeta. cbn [negb andb].
  rewrite Hcount. eexists. split; [done|].
  by destruct (burst_MaxCalls c <=? Z.of_nat (length (calls_since m s (now - burst_Window c)) + 1))%Z.
Qed.

(** What follows when no shadow stops the call. *)
Lemma after_shadow a m s tool id req now b :
  cfg a = c →
  (CrossRule <$> b) =
    (if burst_counts &&
        (burst_MaxCalls c <=? Z.of_nat (length (calls_since m s (now - burst_Window c)) + 1))%Z
     then Some "burst" else None) →
  bool_decide (is_Some (walk_back (now - rts_Window c) (foreign_read s) (rev (window a)))) =
    seen_since m (foreign_read s) (now - rts_Window c) →
  bool_decide (is_Some (walk_back (now - flow_Window c) (λ rec, foreign_read s rec &&
    negb (same_turn c && negb (String.eqb (RequestID rec) req))) (rev (window a)))) =
    seen_since m (λ rec, foreign_read s rec &&
      negb (same_turn c && negb (String.eqb (RequestID rec) req))) (now - flow_Window c) →
  let rest := if burst_counts &&
      (burst_MaxCalls c <=? Z.of_nat (length (calls_since m s (now - burst_Window c)) + 1))%Z then Some "burst"
    else if rts_Enabled c && String.eqb (Classify tool) CategorySend &&
      seen_since m (foreign_read s) (now - rts_Window c) then Some "read_then_send"
    else if flow_Enabled c && isSuspiciousCategory (Classify tool) &&
      seen_since m (λ rec, foreign_read s rec &&
        negb (same_turn c && negb (String.eqb (RequestID rec) req))) (now - flow_Window c)
    then Some "cross_server_flow" else None in
  let a1 := counted_call a s now in
  let rec act := recordLocked a1 (record_of s tool id req act now) in
  rest ≠ Some "shadow_tool" ∧
  ∃ dec,
    match b with
    | Some dec => (rec "block", Some dec, Classify tool)
    | None =>
        match (if rts_Enabled (cfg a1) && String.eqb (Classify tool) CategorySend
               then checkReadThenSend a1 s now else None) with
        | Some dec => (rec "block", Some dec, Classify tool)
        | None =>
            match (if flow_Enabled (cfg a1) && isSuspiciousCategory (Classify tool)
                   then checkCrossServerFlow a1 s req now else None) with
            | Some dec => (rec "block", Some dec, Classify tool)
            | None => (rec "allow", None, Classify tool)
            end
        end
    end = (rec (if rest then "block" else "allow"), dec, Classify tool) ∧ CrossRule <$> dec = rest.
Proof.
  intros Hc Hb Hr Hf rest a1 rec. split.
  { subst rest. destruct (burst_counts && _); [done|]. destruct (_ && seen_since m (foreign_read s) _); [done|].
    by destruct (_ && seen_since _ _ _). }
  subst rest. rewrite option_is_Some in Hr, Hf. rewrite <-Hr, <-Hf. clear Hr Hf.
  unfold checkReadThenSend, checkCrossServerFlow. subst a1.
  rewrite counted_cfg, counted_window, Hc.
  destruct b as [dec|]; cbn in Hb.
  - destruct (burst_counts && _); [|done]. injection Hb as Hb. exists (Some dec). cbn. by rewrite Hb.
  - destruct (burst_counts && _); [done|].
    destruct (rts_Enabled c && _); cbn [andb].
    + destruct (walk_back _ (foreign_read s) _); cbn [mbind option_bind]; [eexists; split; done|].
      destruct (flow_Enabled c && _); cbn [andb]; [|by exists None].
      destruct (walk_back _ _ _); cbn [mbind option_bind]; [eexists; split; done|by exists None].
    + destruct (flow_Enabled c && _); cbn [andb]; [|by exists None].
      destruct (walk_back _ _ _); cbn [mbind option_bind]; [eexists; split; done|by exists None].
Qed.

Lemma CheckAndRecord_verdict a m t s tool id req now :
  Enabled c = true → sim a m t → (t ≤ now)%Z →
  let v := m_verdict m s tool req now in
  let a1 := if bool_decide (v = Some "shadow_tool") then a else counted_call a s now in
  ∃ dec, CheckAndRecord a s tool id req now =
    (recordLocked a1 (record_of s tool id req (if v then "block" else "allow") now), dec, Classify tool) ∧
    CrossRule <$> dec = v.
Proof.
  intros He Hsim Hn v a1. pose proof computeMaxWindow_ge as (Hw1 & _ & Hw2).
  pose proof (walk_back_seen a m t now (rts_Window c) (foreign_read s) Hsim Hn Hw1) as Hr.
  pose proof (walk_back_seen a m t now (flow_Window c) (λ rec, foreign_read s rec &&
    negb (same_turn c && negb (String.eqb (RequestID rec) req))) Hsim Hn Hw2) as Hf.
  destruct (burst_agrees a m t s now Hsim Hn) as (b & Hb & Hbv).
  unfold CheckAndRecord. cbn zeta. rewrite Hb.
  rewrite (sim_cfg _ _ _ Hsim) in *. rewrite He, (sim_active _ _ _ Hsim). cbn [negb andb].
  subst a1 v. unfold m_verdict. unfold checkShadow. rewrite (sim_shadows _ _ _ Hsim).
  destruct (default false (shadow_Enabled c)) eqn:Hse; cbn [andb].
  - rewrite option_is_Some. destruct (m_shadows m !! tool) as [info|] eqn:Hi; cbn [mbind option_bind].
    + rewrite bool_decide_true by done. eexists. split; [done|]. done.
    + destruct (after_shadow a m s tool id req now b (sim_cfg _ _ _ Hsim) Hbv Hr Hf) as (Hns & dec & Hd & Hv).
      rewrite bool_decide_false by exact Hns. by exists dec.
  - destruct (after_shadow a m s tool id req now b (sim_cfg _ _ _ Hsim) Hbv Hr Hf) as (Hns & dec & Hd & Hv).
    rewrite bool_decide_false by exact Hns. by exists dec.
Qed.

Lemma sim_later a m t now : sim a m t → (t ≤ now)%Z → sim a m now.
Proof.
  intros [Ha Hc Hm Hsh Hs Hp (old & Hw & Hold) Hb] Hn. split; try done.
  - eapply Forall_impl; [exact Hp|]. cbn. lia.
  - exists old. split; [done|]. eapply Forall_impl; [exact Hold|]. cbn. lia.
  - intros s. destruct (Hb s) as (cut & ? & ?). exists cut. split; [lia|done].
Qed.

Lemma sim_record a m t rec calls a1 :
  sim a m t → (t ≤ Timestamp rec)%Z → active a1 = true → cfg a1 = c → maxWindow a1 = computeMaxWindow c →
  shadows a1 = m_shadows m → window a1 = window a →
  (∀ s, ∃ cut, (cut ≤ Timestamp rec - burst_Window c)%Z ∧
     default [] (bursts a1 !! s) =
     List.filter (λ x, negb (x <? cut)%Z) (times_of (mkMonitor (m_hist m) calls (m_shadows m)) s)) →
  length (retained (mkMonitor (m_hist m ++ [rec]) calls (m_shadows m)) (Timestamp rec)) ≤ maxWindowEntries →
  sim (recordLocked a1 rec) (mkMonitor (m_hist m ++ [rec]) calls (m_shadows m)) (Timestamp rec).
Proof.
  intros Hsim Hn Ha Hc Hm Hsh Hw Hb Hcap. apply (sim_later _ _ _ (Timestamp rec)) in Hsim; [|done].
  destruct Hsim as [_ _ _ _ Hs Hp (old & Hh & Hold) _].
  unfold recordLocked. rewrite Ha. cbn [negb].
  assert (Hsort : sorted_times (m_hist m ++ [rec])) by by apply times_snoc.
  split; cbn; try done.
  - apply Forall_app. split; [done|]. by apply Forall_singleton.
  - rewrite Hw, Hm. rewrite Hh, <-(assoc_L (++)) in *.
    unfold retained in Hcap. cbn [m_hist] in Hcap. by apply record_window.
Qed.

Lemma sim_call a m t s tool id req now :
  (0 ≤ burst_Window c)%Z → Enabled c = true → sim a m t → (t ≤ now)%Z →
  let op := OpCall s tool id req now in
  length (retained (m_step m op).1 now) ≤ maxWindowEntries →
  (a_step a op).2 = (m_step m op).2 ∧ sim (a_step a op).1 (m_step m op).1 now.
Proof.
  intros Hw0 He Hsim Hn op. subst op. cbn [a_step m_step fst snd].
  destruct (CheckAndRecord_verdict a m t s tool id req now He Hsim Hn) as (dec & -> & Hv).
  set (v := m_verdict m s tool req now) in *. cbn [fst snd]. intros Hcap. split; [by rewrite Hv|].
  set (rec := record_of _ _ _ _ _ _) in *. change now with (Timestamp rec) in Hcap |- *.
  pose proof (sim_counted a m t s now Hw0 Hsim Hn) as Hb.
  destruct Hsim as [Ha Hc Hm Hsh Hs Hp Hold Hbu] eqn:E.
  apply (sim_record a m t); try done.
  all: destruct (bool_decide (v = Some "shadow_tool")); cbn [negb]; rewrite ?andb_false_r, ?andb_true_r;
    unfold counted_call, counted_m in *; try (destruct burst_counts; done).
  - intros s'. destruct (Hbu s') as (cut & ? & ?). exists cut. split; [cbn; lia|done].
Qed.

Lemma sim_run ops a m t :
  (0 ≤ burst_Window c)%Z → Enabled c = true → sim a m t → clocked t ops → within_cap m ops →
  (a_run a ops).2 = (m_run m ops).2.
Proof.
  intros Hw0 He. revert a m t. induction ops as [|op ops IH]; intros a m t Hsim Hcl Hcap; [done|].
  assert (∃ t', (a_step a op).2 = (m_step m op).2 ∧ sim (a_step a op).1 (m_step m op).1 t' ∧ clocked t' ops)
    as (t' & Hv & Hsim' & Hcl').
  { destruct op as [s tool id req now|s tool id req|tool o n|tool]; cbn [clocked within_cap] in *.
    - destruct Hcl as [Hn Hcl], Hcap as [Hcap _]. exists now.
      destruct (sim_call a m t s tool id req now Hw0 He Hsim Hn Hcap). done.
    - exists t. split; [done|]. split; [by apply sim_mark|done].
    - exists t. split; [done|]. split; [|done]. destruct Hsim. split; try done. cbn. by f_equal.
    - exists t. split; [done|]. split; [|done]. destruct Hsim. split; try done. cbn. by f_equal. }
  destruct Hcap as [_ Hcap]. specialize (IH _ _ _ Hsim' Hcl' Hcap). cbn [a_run m_run].
  destruct (a_step a op) as [a1 v1], (m_step m op) as [m1 w1]. cbn [fst snd] in *.
  destruct (a_run a1 ops) as [a2 v2], (m_run m1 ops) as [m2 w2]. cbn [fst snd] in *. by subst.
Qed.

Lemma sim_init a0 t : cfg a0 = c → active a0 = false → sim (Activate a0) (mkMonitor [] [] (shadows a0)) t.
Proof.
  intros Hc Ha. unfold Activate. rewrite Ha. split; cbn; try done.
  - by rewrite Hc.
  - constructor.
  - by exists [].
  - intros s. exists (t - burst_Window c)%Z. split; [lia|]. by rewrite lookup_empty.
Qed.

(** *** The window is bounded, whatever the clock does *)
Lemma pruneWindow_bound mw now w : length (pruneWindow mw now w) ≤ maxWindowEntries.
Proof.
  unfold pruneWindow. set (d := drop_before _ _). destruct (Nat.ltb_spec maxWindowEntries (length d)); [|lia].
  rewrite length_drop. lia.
Qed.

Lemma recordLocked_bound a rec :
  length (window a) ≤ maxWindowEntries → length (window (recordLocked a rec)) ≤ maxWindowEntries.
Proof. unfold recordLocked. destruct (negb (active a)); [done|]. intros _. apply pruneWindow_bound. Qed.

Lemma a_step_bound a op :
  length (window a) ≤ maxWindowEntries → length (window (a_step a op).1) ≤ maxWindowEntries.
Proof.
  intros Hb. destruct op as [s tool id req now|s tool id req|tool o n|tool]; cbn [a_step]; [|by cbn; rewrite mark_length|done..].
  assert (Hcb : length (window (checkBurst a s now).1) ≤ maxWindowEntries)
    by (unfold checkBurst; by case_match).
  unfold CheckAndRecord. cbn zeta. destruct (negb (Enabled _)); [done|].
  destruct (negb (active a) && _); [done|].
  destruct (if default false _ then _ else _); [by apply recordLocked_bound|].
  destruct (negb (active a)); [done|].
  destruct (if burst_Enabled _ then _ else _) as [a1 b] eqn:E.
  assert (length (window a1) ≤ maxWindowEntries).
  { destruct (burst_Enabled (cfg a)); [by rewrite E in Hcb|]. by injection E as <- _. }
  repeat (case_match; simplify_eq; try by apply recordLocked_bound).
Qed.

Lemma a_run_bound ops a :
  length (window a) ≤ maxWindowEntries → length (window (a_run a ops).1) ≤ maxWindowEntries.
Proof.
  revert a. induction ops as [|op ops IH]; intros a Hb; [done|]. cbn [a_run].
  apply (a_step_bound a op) in Hb. destruct (a_step a op) as [a1 v1]. specialize (IH a1 Hb).
  by destruct (a_run a1 ops).
Qed.
End monitor.
End Analyzer.

(** ** Edit distance *)
Module Names.

(** The three-way minimum of the inner loop. *)
Definition min3 (del ins sub : nat) : nat :=
  let m := del in
  let m := if ins <? m then ins else m in
  if sub <? m then sub else m.

(** One row of the table: [prev] from column [j] on, [left] is [curr[j]]. *)
Fixpoint row (ai : ascii) (b : string) (prev : list nat) (left : nat) : list nat :=
  match b, prev with
  | String bj b', p0 :: prev' =>
      match prev' with
      | p1 :: _ =>
          let cost := if Ascii.eqb ai bj then 0 else 1 in
          let m := min3 (p1 + 1) (left + 1) (p0 + cost) in
          m :: row ai b' prev' m
      | [] => []
      end
  | _, _ => []
  end.

(** The outer loop: [i] is the number of the row. *)
Fixpoint rows (a b : string) (i : nat) (prev : list nat) : list nat :=
  match a with
  | EmptyString => prev
  | String ai a' => rows a' b (S i) (i :: row ai b prev i)
  end.

Definition levenshtein (a b : string) : nat :=
  let la := String.length a in
  let lb := String.length b in
  if la =? 0 then lb
  else if lb =? 0 then la
  else default 0 (last (rows a b 1 (seq 0 (S lb)))).

(** *** Edit scripts *)
Inductive edits : list ascii → list ascii → nat → Prop :=
| edits_nil : edits [] [] 0
| edits_keep x a b n : edits a b n → edits (x :: a) (x :: b) n
| edits_replace x y a b n : edits a b n → edits (x :: a) (y :: b) (S n)
| edits_delete x a b n : edits a b n → edits (x :: a) b (S n)
| edits_insert y a b n : edits a b n → edits a (y :: b) (S n).

Fixpoint dist (a : list ascii) : list ascii → nat :=
  match a with
  | [] => λ b, length b
  | x :: a' =>
      fix inner (b : list ascii) : nat :=
        match b with
        | [] => S (length a')
        | y :: b' => min3 (dist a' b + 1) (inner b' + 1) (dist a' b' + (if Ascii.eqb x y then 0 else 1))
        end
  end.

Lemma min3_spec a b c : min3 a b c ≤ a ∧ min3 a b c ≤ b ∧ min3 a b c ≤ c ∧
  (min3 a b c = a ∨ min3 a b c = b ∨ min3 a b c = c).
Proof. unfold min3. destruct (Nat.ltb_spec b a); [destruct (Nat.ltb_spec c b)|destruct (Nat.ltb_spec c a)]; lia. Qed.

Lemma edits_insert_all b : edits [] b (length b).
Proof. induction b; [constructor|by apply edits_insert]. Qed.
Lemma edits_delete_all a : edits a [] (length a).
Proof. induction a; [constructor|by apply edits_delete]. Qed.

Lemma dist_edits a b : edits a b (dist a b).
Proof.
  revert b. induction a as [|x a IH]; intros b; [apply edits_insert_all|].
  induction b as [|y b IHb]; [apply edits_delete_all|].
  change (dist (x :: a) (y :: b)) with
    (min3 (dist a (y :: b) + 1) (dist (x :: a) b + 1) (dist a b + (if Ascii.eqb x y then 0 else 1))).
  destruct (min3_spec (dist a (y :: b) + 1) (dist (x :: a) b + 1)
    (dist a b + (if Ascii.eqb x y then 0 else 1))) as (_ & _ & _ & [->|[->| ->]]).
  - rewrite Nat.add_1_r. by apply edits_delete.
  - rewrite Nat.add_1_r. by apply edits_insert.
  - destruct (Ascii.eqb_spec x y) as [<-|_].
    + rewrite Nat.add_0_r. by apply edits_keep.
    + rewrite Nat.add_1_r. by apply edits_replace.
Qed.

Lemma dist_nil_r a : dist a [] = length a.
Proof. by destruct a. Qed.

Lemma dist_step x a y b :
  dist (x :: a) (y :: b) =
  min3 (dist a (y :: b) + 1) (dist (x :: a) b + 1) (dist a b + (if Ascii.eqb x y then 0 else 1)).
Proof. done. Qed.

Lemma dist_minimal a b n : edits a b n → dist a b ≤ n.
Proof.
  induction 1 as [|x a b n _ IH|x y a b n _ IH|x a b n _ IH|y a b n _ IH].
  - done.
  - rewrite dist_step. pose proof (min3_spec (dist a (x :: b) + 1) (dist (x :: a) b + 1)
      (dist a b + (if Ascii.eqb x x then 0 else 1))) as (_ & _ & Hm & _).
    rewrite Ascii.eqb_refl in *. lia.
  - rewrite dist_step. pose proof (min3_spec (dist a (y :: b) + 1) (dist (x :: a) b + 1)
      (dist a b + (if Ascii.eqb x y then 0 else 1))) as (_ & _ & Hm & _).
    destruct (Ascii.eqb x y); lia.
  - destruct b as [|y b]; [rewrite dist_nil_r in *; cbn; lia|]. rewrite dist_step.
    pose proof (min3_spec (dist a (y :: b) + 1) (dist (x :: a) b + 1)
      (dist a b + (if Ascii.eqb x y then 0 else 1))) as (Hm & _). lia.
  - destruct a as [|x a]; [cbn in *; lia|]. rewrite dist_step.
    pose proof (min3_spec (dist a (y :: b) + 1) (dist (x :: a) b + 1)
      (dist a b + (if Ascii.eqb x y then 0 else 1))) as (_ & Hm & _). lia.
Qed.

Lemma edits_app a b n a' b' n' : edits a b n → edits a' b' n' → edits (a ++ a') (b ++ b') (n + n').
Proof. induction 1; intros H'; cbn; [done|constructor; auto..]. Qed.

Lemma edits_rev a b n : edits a b n → edits (rev a) (rev b) n.
Proof.
  induction 1 as [|x a b n _ IH|x y a b n _ IH|x a b n _ IH|y a b n _ IH]; cbn [rev]; [constructor|..].
  - rewrite <-(Nat.add_0_r n). apply edits_app; [done|]. repeat constructor.
  - rewrite <-Nat.add_1_r. apply edits_app; [done|]. repeat constructor.
  - rewrite <-Nat.add_1_r, <-(app_nil_r (rev b)). apply edits_app; [done|]. repeat constructor.
  - rewrite <-Nat.add_1_r, <-(app_nil_r (rev a)). apply edits_app; [done|]. repeat constructor.
Qed.

(** *** The rows hold the distances of prefixes *)
Fixpoint dists (ra rb : list ascii) (b : string) : list nat :=
  dist ra rb :: match b with EmptyString => [] | String y b' => dists ra (y :: rb) b' end.

Lemma row_dists x ra rb b :
  dist (x :: ra) rb :: row x b (dists ra rb b) (dist (x :: ra) rb) = dists (x :: ra) rb b.
Proof.
  revert rb. induction b as [|y b IH]; intros rb; [done|].
  cbn [dists]. f_equal. rewrite <-IH. cbn [row].
  assert (∃ t, dists ra (y :: rb) b = dist ra (y :: rb) :: t) as [t Ht] by (destruct b; eauto).
  rewrite Ht. cbn zeta. by rewrite <-dist_step.
Qed.

Lemma rows_dists a b ra :
  rows a b (S (length ra)) (dists ra [] b) = dists (rev (String.list_ascii_of_string a) ++ ra) [] b.
Proof.
  revert ra. induction a as [|x a IH]; intros ra; [done|]. cbn [rows String.list_ascii_of_string rev].
  rewrite <-(assoc_L (++)). cbn [app]. rewrite <-IH. cbn [length]. f_equal.
  rewrite <-row_dists. by rewrite dist_nil_r.
Qed.

Lemma dists_last ra rb b : last (dists ra rb b) = Some (dist ra (rev (String.list_ascii_of_string b) ++ rb)).
Proof.
  revert rb. induction b as [|y b IH]; intros rb; [done|]. cbn [dists String.list_ascii_of_string rev].
  rewrite <-(assoc_L (++)). cbn [app]. rewrite <-IH. by destruct b.
Qed.

Lemma dists_nil rb b : dists [] rb b = seq (length rb) (S (String.length b)).
Proof.
  revert rb. induction b as [|y b IH]; intros rb; [done|]. cbn [dists]. rewrite IH. done.
Qed.

Lemma length_bytes s : length (String.list_ascii_of_string s) = String.length s.
Proof. induction s; cbn; auto. Qed.

Lemma levenshtein_dist a b :
  levenshtein a b = dist (rev (String.list_ascii_of_string a)) (rev (String.list_ascii_of_string b)).
Proof.
  unfold levenshtein. destruct (Nat.eqb_spec (String.length a) 0) as [Ha|_].
  { destruct a; [|done]. cbn. by rewrite length_rev, length_bytes. }
  destruct (Nat.eqb_spec (String.length b) 0) as [Hb|_].
  { destruct b; [|done]. cbn [String.list_ascii_of_string rev]. by rewrite dist_nil_r, length_rev, length_bytes. }
  replace (seq 0 (S (String.length b))) with (dists [] [] b) by (by rewrite dists_nil). pose proof (rows_dists a b []) as Hr. cbn [length] in Hr. rewrite Hr.
  by rewrite dists_last, !app_nil_r.
Qed.
End Names.

(** ** Tool definitions and changes *)
Module Definitions.

Record ToolDefinition := mkDefinition {
  td_Name : string; td_Description : string; td_InputSchema : string }.

Inductive RegistrationStatus := StatusNew | StatusUnchanged | StatusChanged.

#[export] Instance RegistrationStatus_eq_dec : EqDecision RegistrationStatus.
Proof. solve_decision. Defined.

Definition RegistrationStatus_String (s : RegistrationStatus) : string :=
  match s with StatusNew => "new" | StatusUnchanged => "unchanged" | StatusChanged => "changed" end.

Record RegisteredTool := mkRegistered {
  rt_Name : string; rt_ServerID : string; rt_Hash : string; rt_FirstSeen : Z; rt_LastSeen : Z;
  rt_Pinned : bool; rt_Definition : ToolDefinition }.

Record RegistrationResult := mkResult {
  rr_Status : RegistrationStatus; rr_Tool : RegisteredTool; rr_Definition : ToolDefinition;
  rr_PreviousHash : string; rr_NewHash : string; rr_PreviousDefinition : ToolDefinition }.

Definition no_definition : ToolDefinition := mkDefinition "" "" "".

Record Registry := mkDefRegistry { dr_tools : gmap string RegisteredTool; pinOnFirstUse : bool }.

(** [ComputeHash]: SHA-256, in hex, of the JSON text of the three fields. *)
Class DigestLib := { sha256_hex : string → string; json_Normalized : string → string → string → string }.

Section registry.
Context `{DigestLib}.

Definition ComputeHash (t : ToolDefinition) : string :=
  sha256_hex (json_Normalized (td_Name t) (td_Description t) (td_InputSchema t)).

Definition tool_key (serverID toolName : string) : string := serverID +:+ ":" +:+ toolName.

Definition Register (r : Registry) (serverID : string) (tool : ToolDefinition) (now : Z)
    : Registry * RegistrationResult :=
  let key := tool_key serverID (td_Name tool) in
  let hash := ComputeHash tool in
  match dr_tools r !! key with
  | None =>
      let t := mkRegistered (td_Name tool) serverID hash now now (pinOnFirstUse r) tool in
      (mkDefRegistry (<[key := t]> (dr_tools r)) (pinOnFirstUse r),
       mkResult StatusNew t tool "" "" no_definition)
  | Some e =>
      if String.eqb (rt_Hash e) hash then
        let t := mkRegistered (rt_Name e) (rt_ServerID e) (rt_Hash e) (rt_FirstSeen e) now (rt_Pinned e)
                   (rt_Definition e) in
        (mkDefRegistry (<[key := t]> (dr_tools r)) (pinOnFirstUse r),
         mkResult StatusUnchanged t tool "" "" no_definition)
      else
        let t := mkRegistered (rt_Name e) (rt_ServerID e) hash (rt_FirstSeen e) now (rt_Pinned e) tool in
        (mkDefRegistry (<[key := t]> (dr_tools r)) (pinOnFirstUse r),
         mkResult StatusChanged t tool (rt_Hash e) hash (rt_Definition e))
  end.

Definition Get (r : Registry) (serverID toolName : string) : option RegisteredTool :=
  dr_tools r !! tool_key serverID toolName.

(** A run of registrations: the statuses. *)
Fixpoint run_register (r : Registry) (l : list (string * ToolDefinition * Z)) : Registry * list RegistrationStatus :=
  match l with
  | [] => (r, [])
  | (s, t, now) :: l =>
      let '(r1, res) := Register r s t now in
      let '(r2, sts) := run_register r1 l in (r2, rr_Status res :: sts)
  end.

(** The last definition registered under a key. *)
Fixpoint last_hash (l : list (string * ToolDefinition * Z)) (key : string) : option string :=
  match l with
  | [] => None
  | (s, t, _) :: l =>
      match last_hash l key with
      | Some h => Some h
      | None => if String.eqb (tool_key s (td_Name t)) key then Some (ComputeHash t) else None
      end
  end.

Lemma Register_hash r s t now key :
  rt_Hash <$> (dr_tools (Register r s t now).1 !! key) =
  if String.eqb (tool_key s (td_Name t)) key then Some (ComputeHash t) else rt_Hash <$> (dr_tools r !! key).
Proof.
  unfold Register. cbn zeta. destruct (dr_tools r !! tool_key s (td_Name t)) as [e|] eqn:He.
  - destruct (String.eqb_spec (rt_Hash e) (ComputeHash t)) as [Hh|Hh]; cbn;
      destruct (String.eqb_spec (tool_key s (td_Name t)) key) as [<-|Hne];
      rewrite ?lookup_insert_eq, ?lookup_insert_ne by done; cbn; by rewrite ?Hh.
  - cbn. destruct (String.eqb_spec (tool_key s (td_Name t)) key) as [<-|Hne];
      rewrite ?lookup_insert_eq, ?lookup_insert_ne by done; done.
Qed.

Lemma Register_status r s t now :
  rr_Status (Register r s t now).2 =
  match rt_Hash <$> (dr_tools r !! tool_key s (td_Name t)) with
  | None => StatusNew
  | Some h => if String.eqb h (ComputeHash t) then StatusUnchanged else StatusChanged
  end.
Proof.
  unfold Register. cbn zeta. destruct (dr_tools r !! _) as [e|]; [|done]. cbn. by destruct (String.eqb _ _).
Qed.

Lemma run_register_hash r l key :
  rt_Hash <$> (dr_tools (run_register r l).1 !! key) =
  match last_hash l key with Some h => Some h | None => rt_Hash <$> (dr_tools r !! key) end.
Proof.
  revert r. induction l as [|[[s t] now] l IH]; intros r; [done|]. cbn [run_register last_hash].
  pose proof (Register_hash r s t now key) as Hr. destruct (Register r s t now) as [r1 res]. cbn [fst] in Hr.
  specialize (IH r1). destruct (run_register r1 l) as [r2 sts]. cbn [fst] in *. rewrite IH, Hr.
  destruct (last_hash l key); [done|]. by destruct (String.eqb _ _).
Qed.
End registry.
End Definitions.

(** ** Theorems *)

(** The wiring of internal/api/app.go: registry callbacks drive the analyzer. *)
Definition deliver (a : Analyzer.SessionAnalyzer) (cb : ToolRegistry.Callback) : Analyzer.SessionAnalyzer :=
  match cb with
  | ToolRegistry.CallMultiServer => Analyzer.Activate a
  | ToolRegistry.CallOverwrite t o n => Analyzer.NotifyOverwrite a t o n
  end.

Lemma deliver_shadow cbs a t :
  is_Some (Analyzer.shadows a !! t) → is_Some (Analyzer.shadows (foldl deliver a cbs) !! t).
Proof.
  revert a. induction cbs as [|[|t' o n] cbs IH]; intros a Ha; cbn [foldl deliver]; [done|..]; apply IH.
  - unfold Analyzer.Activate. by destruct (Analyzer.active a).
  - cbn. destruct (decide (t' = t)) as [->|Hne]; [by rewrite lookup_insert_eq; eauto|].
    by rewrite lookup_insert_ne.
Qed.

Lemma deliver_overwrite cbs a t o n :
  ToolRegistry.CallOverwrite t o n ∈ cbs → is_Some (Analyzer.shadows (foldl deliver a cbs) !! t).
Proof.
  intros (l1 & l2 & ->)%list_elem_of_split. rewrite foldl_app. cbn [foldl deliver]. apply deliver_shadow.
  cbn. rewrite lookup_insert_eq. eauto.
Qed.

Lemma deliver_cfg cbs a : Analyzer.cfg (foldl deliver a cbs) = Analyzer.cfg a.
Proof.
  revert a. induction cbs as [|[|t' o n] cbs IH]; intros a; cbn [foldl deliver]; [done|..]; rewrite IH; [|done].
  unfold Analyzer.Activate. by destruct (Analyzer.active a).
Qed.

Section theorems.
Context `{GoLib}.

(** Callbacks and pins of the tool registry: over any run of operations the
    multi-server callback is called at most once, it has been called as soon as it
    is set and two servers are known, and a pinned hash never changes, whatever is
    registered or removed later. *)
Theorem registry_run ops1 ops2 t h :
  let r1 := (ToolRegistry.run ToolRegistry.NewRegistry ops1).1 in
  let '(r2, calls) := ToolRegistry.run ToolRegistry.NewRegistry (ops1 ++ ops2) in
  ToolRegistry.multi_calls calls = (if ToolRegistry.multiServerFired r2 then 1 else 0) ∧
  (ToolRegistry.multi_due r2 = true → ToolRegistry.multi_calls calls = 1) ∧
  (ToolRegistry.PinnedHash r1 t = Some h → ToolRegistry.PinnedHash r2 t = Some h).
Proof.
  cbn zeta.
  assert (Hrun : ∀ r l1 l2, (ToolRegistry.run r (l1 ++ l2)).1 =
                            (ToolRegistry.run (ToolRegistry.run r l1).1 l2).1).
  { intros r l1. revert r. induction l1 as [|op l1 IH]; intros r l2; [done|]. cbn.
    destruct (ToolRegistry.step r op) as [r1 c1]. specialize (IH r1 l2).
    destruct (ToolRegistry.run r1 (l1 ++ l2)), (ToolRegistry.run r1 l1). done. }
  specialize (Hrun ToolRegistry.NewRegistry ops1 ops2).
  destruct (ToolRegistry.run_fired ToolRegistry.NewRegistry (ops1 ++ ops2)) as (Hi & Hc & _); [done|].
  destruct (ToolRegistry.run _ (ops1 ++ ops2)) as [r2 calls]. cbn [fst snd] in *. split_and!.
  - by rewrite Hc.
  - intros Hd%Hi. by rewrite Hc, Hd.
  - intros Hp. rewrite Hrun. by apply ToolRegistry.run_pinned.
Qed.

(** A tool that one server takes over from another is blocked: when the
    registry's callbacks feed the analyzer and the shadow rule is on, every later
    call of that tool name is answered by the shadow rule, whichever server it
    names and whether or not the analyzer is active. *)
Theorem shadowed_tool_blocked r sid ty addr ts now e name cb a :
  ToolRegistry.callbacks r = Some cb → ToolRegistry.OnOverwrite cb = true →
  ToolRegistry.Lookup r name = Some e → ToolRegistry.ServerID e ≠ sid →
  name ∈ (ToolRegistry.Name <$> ts) →
  Analyzer.Enabled (Analyzer.cfg a) = true → Analyzer.shadow_Enabled (Analyzer.cfg a) = Some true →
  let '(_, _, calls) := ToolRegistry.Register r sid ty addr ts now in
  let a' := foldl deliver a calls in
  ∀ server id req t, ∃ dec,
    (Analyzer.CheckAndRecord a' server name id req t).1.2 = Some dec ∧
    Analyzer.CrossRule dec = "shadow_tool" ∧ Analyzer.Blocked dec = true.
Proof.
  intros Hcb Hon He Hs Hin Hen Hsh.
  pose proof (ToolRegistry.register_tools_overwrites sid ty addr now ts
    (ToolRegistry.tools r, ToolRegistry.pinnedHashes r, [])
    (ToolRegistry.mkOverwritten name (ToolRegistry.ServerID e) sid)) as Hov.
  unfold ToolRegistry.Register. destruct (foldl _ _ ts) as [[tools' pinned'] ows]. rewrite Hcb, Hon.
  cbn zeta.
  intros server id req t.
  match goal with |- context [foldl deliver a ?l] => set (cbs := l) end.
  assert (is_Some (Analyzer.shadows (foldl deliver a cbs) !! name)) as [info Hinfo].
  { apply deliver_overwrite with (ToolRegistry.ServerID e) sid. subst cbs. apply elem_of_app. right.
    apply list_elem_of_fmap. exists (ToolRegistry.mkOverwritten name (ToolRegistry.ServerID e) sid).
    split; [done|]. apply Hov. right. cbn. eauto 10. }
  pose proof (deliver_cfg cbs a) as Hcfg. set (a' := foldl deliver a cbs) in *. clearbody a'.
  unfold Analyzer.CheckAndRecord. cbn zeta. rewrite Hcfg, Hen. cbn [negb].
  rewrite bool_decide_false, andb_false_r by (intros Hemp; by rewrite Hemp, lookup_empty in Hinfo).
  rewrite Hsh. cbn [default]. unfold Analyzer.checkShadow. rewrite Hinfo. cbn. eauto.
Qed.

(** The policy decides exactly as documented: with enforcement on, a call is
    allowed when the server passes the server policy and the tool passes the tool
    policy, and any unknown policy value denies. *)
Theorem mcp_policy_decides `{PathLib} cfg s t h :
  McpPolicy.Allowed (McpPolicy.Evaluate cfg s t h) = true ↔
  McpPolicy.EnforcePolicy cfg = false ∨ (McpPolicy.server_ok cfg s ∧ McpPolicy.tool_ok cfg s t h).
Proof. apply McpPolicy.Evaluate_iff. Qed.

(** A denylist rule for any server and any tool does not deny a tool whose name
    contains a slash. *)
Lemma deny_all_misses_slash `{PathLib, !PathLaws} cfg s t h :
  McpPolicy.ServerPolicy cfg = "" → McpPolicy.ToolPolicy cfg = "denylist" →
  McpPolicy.DeniedTools cfg = [McpPolicy.mkToolRule "*" "*" ""] → str_mem "/" (ToLower t) = true →
  McpPolicy.Allowed (McpPolicy.Evaluate cfg s t h) = true.
Proof.
  intros Hsp Htp Hd Ht. apply McpPolicy.Evaluate_iff. right. split; [right; right; by left|].
  right; left. split; [done|]. rewrite Hd. intros r ->%list_elem_of_singleton.
  unfold McpPolicy.matchesRule, McpPolicy.matchesPattern. cbn [McpPolicy.tr_Server McpPolicy.tr_Tool].
  change (ToLower "*") with "*". rewrite !path_Match_star, Ht. by rewrite andb_false_r.
Qed.

(** C11. The sliding window is as good as the whole history: from activation on, as
    long as time does not run backwards and no more calls fall into the retention
    period than the window holds, every call gets the verdict of a monitor that
    remembers all calls of the session. *)
Theorem analyzer_refines_monitor a0 ops t :
  let c := Analyzer.cfg a0 in
  let m0 := Analyzer.mkMonitor [] [] (Analyzer.shadows a0) in
  Analyzer.active a0 = false → Analyzer.Enabled c = true → (0 ≤ Analyzer.burst_Window c)%Z →
  Analyzer.clocked t ops → Analyzer.within_cap c m0 ops →
  (Analyzer.a_run (Analyzer.Activate a0) ops).2 = (Analyzer.m_run c m0 ops).2.
Proof.
  intros c m0 Ha He Hw Hcl Hcap. eapply Analyzer.sim_run; [done|done| |done|done].
  by apply Analyzer.sim_init.
Qed.

(** The window never holds more than 1000 calls, whatever the calls and the
    clock do. *)
Theorem analyzer_window_bounded c ops :
  length (Analyzer.window (Analyzer.a_run (Analyzer.Activate (Analyzer.NewSessionAnalyzer c)) ops).1) ≤ 1000.
Proof. apply (Analyzer.a_run_bound ops). cbn. unfold Analyzer.maxWindowEntries. lia. Qed.

(** The two-row table computes the edit distance: the length of a shortest
    script of replacements, deletions and insertions. *)
Theorem levenshtein_shortest a b :
  Names.edits (String.list_ascii_of_string a) (String.list_ascii_of_string b) (Names.levenshtein a b) ∧
  ∀ n, Names.edits (String.list_ascii_of_string a) (String.list_ascii_of_string b) n →
       Names.levenshtein a b ≤ n.
Proof.
  rewrite Names.levenshtein_dist. split.
  - pose proof (Names.edits_rev _ _ _ (Names.dist_edits (rev (String.list_ascii_of_string a))
      (rev (String.list_ascii_of_string b)))) as He. by rewrite !rev_involutive in He.
  - intros n Hn%Names.edits_rev. by apply Names.dist_minimal.
Qed.

(** Change detection: a registration is new exactly when its key was never
    registered, and unchanged exactly when the hash is that of the last
    registration under the key. *)
Theorem definition_changes `{Definitions.DigestLib} l s t now pin :
  let r := (Definitions.run_register (Definitions.mkDefRegistry ∅ pin) l).1 in
  Definitions.rr_Status (Definitions.Register r s t now).2 =
  match Definitions.last_hash l (Definitions.tool_key s (Definitions.td_Name t)) with
  | None => Definitions.StatusNew
  | Some h => if String.eqb h (Definitions.ComputeHash t) then Definitions.StatusUnchanged
              else Definitions.StatusChanged
  end.
Proof.
  cbn zeta. rewrite Definitions.Register_status, Definitions.run_register_hash. cbn [Definitions.dr_tools].
  rewrite lookup_empty. cbn. by destruct (Definitions.last_hash _ _).
Qed.

(** Two tools of two servers can share a key. *)
Lemma tool_key_collision :
  Definitions.tool_key "a" "b:c" = Definitions.tool_key "a:b" "c" ∧ ("a", "b:c") ≠ ("a:b", "c").
Proof. done. Qed.
End theorems.

(** ** Concrete runs *)
Module McpSample.
#[local] Existing Instance ascii_go.

Definition config : Analyzer.Config :=
  Analyzer.mkConfig true true (30 * Analyzer.second) true 3 (5 * Analyzer.second) true (Some true)
    (30 * Analyzer.second) (Some true).

Definition ops : list Analyzer.Op :=
  [Analyzer.OpCall "files" "read_secret" "c1" "r1" 0;
   Analyzer.OpCall "mail" "send_mail" "c2" "r2" Analyzer.second;
   Analyzer.OpMark "files" "read_secret" "c1" "r1";
   Analyzer.OpCall "mail" "send_mail" "c3" "r3" (2 * Analyzer.second);
   Analyzer.OpCall "mail" "list_mail" "c4" "r4" (3 * Analyzer.second)].

(** A read on one server stops a send on another, until it is marked blocked; the
    third call of a server within five seconds is a burst of three. *)
Example analyzer_run :
  (Analyzer.a_run (Analyzer.Activate (Analyzer.NewSessionAnalyzer config)) ops).2 =
  [None; Some "read_then_send"; None; Some "burst"].
Proof. vm_compute. reflexivity. Qed.

Lemma analyzer_refines_monitor_witness :
  (Analyzer.a_run (Analyzer.Activate (Analyzer.NewSessionAnalyzer config)) ops).2 =
  (Analyzer.m_run config (Analyzer.mkMonitor [] [] ∅) ops).2.
Proof.
  apply (analyzer_refines_monitor (Analyzer.NewSessionAnalyzer config) ops 0).
  - reflexivity.
  - reflexivity.
  - vm_compute. discriminate.
  - unfold ops, Analyzer.second. cbn. lia.
  - unfold Analyzer.within_cap, ops. repeat (apply conj); try exact I;
      apply Nat.leb_le; vm_compute; reflexivity.
Defined.

(** A thousand later calls push a read out of the window: the monitor still stops
    the send, the analyzer does not. *)
Definition flood : list Analyzer.Op :=
  Analyzer.OpCall "files" "read_secret" "" "r" 0 ::
  repeat (Analyzer.OpCall "mail" "list_mail" "" "r" 1) 1000 ++
  [Analyzer.OpCall "mail" "send_mail" "" "r" 2].
Definition no_burst : Analyzer.Config :=
  Analyzer.mkConfig true true (30 * Analyzer.second) false 0 0 false None 0 None.
Example flood_evicts :
  last (Analyzer.a_run (Analyzer.Activate (Analyzer.NewSessionAnalyzer no_burst)) flood).2 = Some None ∧
  last (Analyzer.m_run no_burst (Analyzer.mkMonitor [] [] ∅) flood).2 = Some (Some "read_then_send").
Proof. vm_compute. auto. Qed.

Definition reg : ToolRegistry.Registry :=
  (ToolRegistry.run ToolRegistry.NewRegistry
     [ToolRegistry.OpSetCallbacks (ToolRegistry.mkCallbacks true true);
      ToolRegistry.OpRegister "files" "stdio" "" [ToolRegistry.mkToolInfo "read_file" "h1"] 1]).1.

Example registry_example :
  ToolRegistry.run ToolRegistry.NewRegistry
    [ToolRegistry.OpRegister "files" "stdio" "" [ToolRegistry.mkToolInfo "read_file" "h1"] 1;
     ToolRegistry.OpRegister "evil" "http" "e:80" [ToolRegistry.mkToolInfo "read_file" "h2"] 2;
     ToolRegistry.OpSetCallbacks (ToolRegistry.mkCallbacks true true);
     ToolRegistry.OpRegister "third" "stdio" "" [ToolRegistry.mkToolInfo "read_file" "h3"] 3] =
  let e := ToolRegistry.mkToolEntry "read_file" "third" "stdio" "" "h3" 3 in
  (ToolRegistry.mkRegistry {["read_file" := e]} {["e:80" := "evil"]} {["read_file" := "h1"]}
     (Some (ToolRegistry.mkCallbacks true true)) {["files"; "evil"; "third"]} true,
   [ToolRegistry.CallMultiServer; ToolRegistry.CallOverwrite "read_file" "evil" "third"]).
Proof. vm_compute. reflexivity. Qed.

Lemma shadowed_tool_blocked_witness :
  let '(_, _, calls) := ToolRegistry.Register reg "evil" "http" "e:80" [ToolRegistry.mkToolInfo "read_file" "h2"] 2 in
  ∃ dec, (Analyzer.CheckAndRecord (foldl deliver (Analyzer.NewSessionAnalyzer config) calls)
            "evil" "read_file" "c" "r" 3).1.2 = Some dec ∧ Analyzer.Blocked dec = true.
Proof.
  pose proof (shadowed_tool_blocked reg "evil" "http" "e:80" [ToolRegistry.mkToolInfo "read_file" "h2"] 2
    (ToolRegistry.mkToolEntry "read_file" "files" "stdio" "" "h1" 1) "read_file"
    (ToolRegistry.mkCallbacks true true) (Analyzer.NewSessionAnalyzer config)
    eq_refl eq_refl eq_refl ltac:(discriminate) ltac:(apply list_elem_of_here) eq_refl eq_refl) as Hw.
  destruct (ToolRegistry.Register reg "evil" "http" "e:80" [ToolRegistry.mkToolInfo "read_file" "h2"] 2)
    as [[r' ows] calls].
  destruct (Hw "evil" "c" "r" 3%Z) as (dec & Hd & _ & Hb). exists dec. split; [exact Hd|exact Hb].
Defined.

Example similar_names : Names.levenshtein "github" "gihtub" = 2 ∧ Names.levenshtein "" "abc" = 3.
Proof. vm_compute. auto. Qed.
End McpSample.
