(* ===== verification/McpIntercept.v ===== *)
(** * Interception of MCP tool calls in LLM responses

    internal/proxy: mcp_intercept.go (whole responses) and sse_intercept.go (event
    streams), over the registry, policy and analyzer of [McpCore];
    internal/mcpinspect/ratelimit.go and the token bucket of pkg/ratelimit.

    JSON text is a parameter ([JsonLib]); what encoding/json does with a parsed
    value is written out ([Section decoding]): objects are decoded key by key into
    the fields of a struct, exact names first and folded names next, later keys
    over earlier ones, [null] leaves a field, a value of the wrong type fails the
    whole call. [float64] arithmetic is a parameter ([Float64]).

    Output lines are kept as values: a line that is passed through, or a [data:]
    line printed from a JSON value. *)

From stdpp Require Import pretty.
From S2P Require Import Prelude AuditChain McpCore.

Local Open Scope nat_scope.

(** ** Decoding JSON values into structs *)
Section decoding.
Context `{GoLib}.

(** Decoding into a variable that already has a value; [None] is a type error. *)
Definition Decoder (A : Type) := A → json → option A.

Definition dec_string : Decoder string := λ prev j,
  match j with JString s => Some s | JNull => Some prev | _ => None end.
Definition dec_int : Decoder Z := λ prev j,
  match j with JNumber n => ParseInt64 n | JNull => Some prev | _ => None end.
(** [*string] *)
Definition dec_string_ptr : Decoder (option string) := λ _ j,
  match j with JString s => Some (Some s) | JNull => Some None | _ => None end.
(** [json.RawMessage] *)
Definition dec_raw : Decoder (option json) := λ _ j, Some (Some j).

(** A slice: its backing array and its length. Decoding an array writes into the
    elements that are there. *)
Record Slice (A : Type) := mkSlice { backing : list A; len : nat }.
Arguments mkSlice {A} _ _.
Arguments backing {A} _.
Arguments len {A} _.
Definition nil_slice {A} : Slice A := mkSlice [] 0.
Definition elements {A} (s : Slice A) : list A := take (len s) (backing s).

Fixpoint dec_elems {A} (zero : A) (d : Decoder A) (old : list A) (js : list json) : option (list A) :=
  match js with
  | [] => Some []
  | j :: js => x ← d (default zero (head old)) j; xs ← dec_elems zero d (tail old) js; Some (x :: xs)
  end.

Definition dec_slice {A} (zero : A) (d : Decoder A) : Decoder (Slice A) := λ prev j,
  match j with
  | JArray [] => Some nil_slice
  | JArray js => xs ← dec_elems zero d (backing prev) js;
                 Some (mkSlice (xs ++ drop (length js) (backing prev)) (length js))
  | JNull => Some nil_slice
  | _ => None
  end.

(** The field a key is decoded into. *)
Definition field_of {R} (fs : list (string * Decoder R)) (k : string) : option (Decoder R) :=
  match find_first (λ f, String.eqb f.1 k) fs with
  | Some f => Some f.2
  | None => snd <$> find_first (λ f, EqualFold f.1 k) fs
  end.

Definition dec_field {R} (fs : list (string * Decoder R)) (acc : option R) (kv : string * json) : option R :=
  r ← acc; match field_of fs kv.1 with Some d => d r kv.2 | None => Some r end.

Definition dec_struct {R} (fs : list (string * Decoder R)) : Decoder R := λ prev j,
  match j with
  | JObject kvs => foldl (dec_field fs) (Some prev) kvs
  | JNull => Some prev
  | _ => None
  end.

(** A field of a struct, by its getter and setter. *)
Definition lens {R A} (get : R → A) (set : R → A → R) (d : Decoder A) : Decoder R :=
  λ r j, set r <$> d (get r) j.
End decoding.

Arguments mkSlice {A} _ _.
Arguments backing {A} _.
Arguments len {A} _.

(** [json.Unmarshal] of a text: one value and nothing but white space after it. *)
Definition json_Unmarshal `{JsonLib} (s : string) : option json :=
  match json_Decode s with
  | Some (v, rest) => if json_EOF rest then Some v else None
  | None => None
  end.

(** [map[string]json.RawMessage], and a map printed; the order of its keys is not
    modelled. *)
Definition dec_map (j : json) : option (gmap string json) :=
  match j with JObject kvs => Some (fields_to_map kvs) | JNull => Some ∅ | _ => None end.
Definition map_json (m : gmap string json) : json := JObject (map_to_list m).
Definition dec_list (j : json) : option (list json) :=
  match j with JArray l => Some l | JNull => Some [] | _ => None end.
(** A slice built by [append] from nil, printed. *)
Definition appended_json (l : list json) : json := match l with [] => JNull | _ => JArray l end.

(** ** Rate limits *)
Class RateLimiter (L : Type) := { rl_Allow : L → string → Z → L * bool }.

(** [float64]: conversion, the four operations, comparison. *)
Class Float64 := {
  f64 : Type;
  f_of_Z : Z → f64;
  f_add : f64 → f64 → f64; f_sub : f64 → f64 → f64; f_mul : f64 → f64 → f64; f_div : f64 → f64 → f64;
  f_ltb : f64 → f64 → bool; f_leb : f64 → f64 → bool }.

Module RateLimit.
Section limiter.
Context `{Float64}.

Record Limiter := mkLimiter { rate : f64; burst : Z; tokens : f64; lastTime : Z }.

Definition NewLimiter (r : f64) (b : Z) (now : Z) : Limiter := mkLimiter r b (f_of_Z b) now.

Definition second : Z := 1000000000.
(** [Duration.Seconds] *)
Definition Seconds (d : Z) : f64 :=
  f_add (f_of_Z (Z.quot d second)) (f_div (f_of_Z (Z.rem d second)) (f_of_Z second)).

Definition refill (l : Limiter) (now : Z) : f64 :=
  let t := f_add (tokens l) (f_mul (Seconds (now - lastTime l)) (rate l)) in
  if f_ltb (f_of_Z (burst l)) t then f_of_Z (burst l) else t.

Definition AllowN (l : Limiter) (n : Z) (now : Z) : Limiter * bool :=
  let t := refill l now in
  if f_leb (f_of_Z n) t then (mkLimiter (rate l) (burst l) (f_sub t (f_of_Z n)) now, true)
  else (mkLimiter (rate l) (burst l) t now, false).

Definition Allow (l : Limiter) (now : Z) : Limiter * bool := AllowN l 1 now.

Definition ForceConsumeN (l : Limiter) (n : Z) (now : Z) : Limiter :=
  mkLimiter (rate l) (burst l) (f_sub (refill l now) (f_of_Z n)) now.

Definition SetBurst (l : Limiter) (b : Z) : Limiter :=
  mkLimiter (rate l) b (if f_ltb (f_of_Z b) (tokens l) then f_of_Z b else tokens l) (lastTime l).
Definition SetRate (l : Limiter) (r : f64) : Limiter := mkLimiter r (burst l) (tokens l) (lastTime l).
Definition Tokens (l : Limiter) (now : Z) : f64 := refill l now.

(** internal/mcpinspect/ratelimit.go *)
Record RateLimitsConfig := mkRateConfig {
  rl_Enabled : bool; DefaultRPM : Z; DefaultBurst : Z; PerServer : gmap string (Z * Z) }.

Record RateLimiterRegistry := mkLimiters { rl_cfg : RateLimitsConfig; limiters : gmap string Limiter }.

Definition getLimiter (r : RateLimiterRegistry) (serverID : string) (now : Z) : Limiter :=
  match limiters r !! serverID with
  | Some l => l
  | None =>
      let '(rpm, b) := match PerServer (rl_cfg r) !! serverID with
                       | Some sc => sc
                       | None => (DefaultRPM (rl_cfg r), DefaultBurst (rl_cfg r))
                       end in
      NewLimiter (f_div (f_of_Z rpm) (f_of_Z 60)) b now
  end.

Definition registry_AllowN (r : RateLimiterRegistry) (serverID : string) (n now : Z)
    : RateLimiterRegistry * bool :=
  if negb (rl_Enabled (rl_cfg r)) then (r, true)
  else let '(l, ok) := AllowN (getLimiter r serverID now) n now in
       (mkLimiters (rl_cfg r) (<[serverID := l]> (limiters r)), ok).

Definition registry_Allow (r : RateLimiterRegistry) (serverID : string) (now : Z)
    : RateLimiterRegistry * bool := registry_AllowN r serverID 1 now.

Definition Reset (r : RateLimiterRegistry) : RateLimiterRegistry := mkLimiters (rl_cfg r) ∅.

#[export] Instance registry_limiter : RateLimiter RateLimiterRegistry := {| rl_Allow := registry_Allow |}.
End limiter.
End RateLimit.

(** ** Evaluation of one call *)

Inductive EvalReason :=
| NoReason
| CrossServer (r : Analyzer.BlockReason)
| RateLimited (server : string)
| HashChanged (tool pinned current : string)
| HashChangedAlert (tool pinned current : string)
| ByPolicy (r : McpPolicy.PolicyReason).

Record ToolDecision := mkToolDecision { Allowed : bool; Reason : EvalReason }.

Record VersionPin := mkVersionPin { vp_Enabled : bool; OnChange : string }.

Record ToolCall := mkToolCall { ID : string; Name : string; Input : option json }.

Record InterceptEvent := mkEvent {
  ev_Tool : string; ev_CallID : string; ev_Input : option json; ev_Server : string; ev_Hash : string;
  ev_Action : string; ev_Reason : EvalReason; ev_CrossRule : string; ev_Severity : string;
  ev_Related : list Analyzer.ToolCallRecord }.

Definition dec_rule (d : option Analyzer.CrossServerDecision) : string :=
  match d with Some d => Analyzer.CrossRule d | None => "" end.
Definition dec_severity (d : option Analyzer.CrossServerDecision) : string :=
  match d with Some d => Analyzer.Severity d | None => "" end.
Definition dec_related (d : option Analyzer.CrossServerDecision) : list Analyzer.ToolCallRecord :=
  match d with Some d => Analyzer.Related d | None => [] end.

Section intercept.
Context `{GoLib, PathLib, JsonLib} {L : Type} `{!RateLimiter L}.

(** The mutable parts: the registry may be nil, the others too. *)
Record Mcp := mkMcp {
  registry : option ToolRegistry.Registry;
  analyzer : option Analyzer.SessionAnalyzer;
  rateLimiter : option L }.

Context (policy : option McpPolicy.SandboxMCPConfig) (versionPinCfg : option VersionPin).

Definition mark_blocked (st : Mcp) (server tool id req : string) : Mcp :=
  mkMcp (registry st) ((λ a, Analyzer.MarkBlocked a server tool id req) <$> analyzer st) (rateLimiter st).

(** [analyzer.CheckAndRecord], when there is an analyzer. *)
Definition check_cross (st : Mcp) (server tool id req : string) (now : Z)
    : Mcp * option Analyzer.CrossServerDecision :=
  match analyzer st with
  | None => (st, None)
  | Some a =>
      let '(a', dec, _) := Analyzer.CheckAndRecord a server tool id req now in
      (mkMcp (registry st) (Some a') (rateLimiter st), dec)
  end.

Definition check_rate (st : Mcp) (server : string) (now : Z) : Mcp * bool :=
  match rateLimiter st with
  | None => (st, true)
  | Some l => let '(l', ok) := rl_Allow l server now in (mkMcp (registry st) (analyzer st) (Some l'), ok)
  end.

Inductive PinResult := PinOk | PinBlock (r : EvalReason) | PinAlert (r : EvalReason).

Definition check_pin (reg : ToolRegistry.Registry) (e : ToolRegistry.ToolEntry) (tool : string) : PinResult :=
  match versionPinCfg with
  | Some vp =>
      if vp_Enabled vp then
        match ToolRegistry.PinnedHash reg tool with
        | Some pinned =>
            let current := ToolRegistry.ToolHash e in
            if String.eqb current pinned then PinOk
            else if String.eqb (OnChange vp) "block" then PinBlock (HashChanged tool pinned current)
            else if String.eqb (OnChange vp) "alert" then PinAlert (HashChangedAlert tool pinned current)
            else PinOk
        | None => PinOk
        end
      else PinOk
  | None => PinOk
  end.

Definition check_policy (e : ToolRegistry.ToolEntry) (tool : string) : ToolDecision :=
  match policy with
  | Some cfg =>
      let d := McpPolicy.Evaluate cfg (ToolRegistry.ServerID e) tool (ToolRegistry.ToolHash e) in
      mkToolDecision (McpPolicy.Allowed d) (ByPolicy (McpPolicy.Reason d))
  | None => mkToolDecision true NoReason
  end.

(** [SSEInterceptor.lookupAndEvaluate]. *)
Definition lookupAndEvaluate (st : Mcp) (toolName toolCallID requestID : string) (now : Z)
    : Mcp * option (ToolRegistry.ToolEntry * ToolDecision * option Analyzer.CrossServerDecision) :=
  match registry st with
  | None => (st, None)
  | Some reg =>
      match ToolRegistry.Lookup reg toolName with
      | None => (st, None)
      | Some entry =>
          let server := ToolRegistry.ServerID entry in
          let '(st, cross) := check_cross st server toolName toolCallID requestID now in
          match cross with
          | Some block =>
              (st, Some (entry, mkToolDecision false (CrossServer (Analyzer.CrossReason block)), Some block))
          | None =>
              let '(st, ok) := check_rate st server now in
              if negb ok then
                (mark_blocked st server toolName toolCallID requestID,
                 Some (entry, mkToolDecision false (RateLimited server), None))
              else
                match check_pin reg entry toolName with
                | PinBlock r =>
                    (mark_blocked st server toolName toolCallID requestID,
                     Some (entry, mkToolDecision false r, None))
                | pin =>
                    let decision := check_policy entry toolName in
                    let st := if Allowed decision then st
                              else mark_blocked st server toolName toolCallID requestID in
                    let decision := match pin with
                                    | PinAlert r => if Allowed decision then mkToolDecision true r else decision
                                    | _ => decision
                                    end in
                    (st, Some (entry, decision, None))
                end
          end
      end
  end.

(** One iteration of [interceptMCPToolCalls]: [None] when the tool is not an MCP
    tool; a decision [None] is Go's zero value. *)
Definition intercept_call (reg : ToolRegistry.Registry) (st : Mcp) (requestID : string) (call : ToolCall) (now : Z)
    : Mcp * option (InterceptEvent * bool) :=
  match ToolRegistry.Lookup reg (Name call) with
  | None => (st, None)
  | Some entry =>
      let server := ToolRegistry.ServerID entry in
      let '(st, cross) := check_cross st server (Name call) (ID call) requestID now in
      let decision := match cross with
                      | Some block => Some (mkToolDecision false (CrossServer (Analyzer.CrossReason block)))
                      | None => None
                      end in
      let '(st, decision) :=
        match cross with
        | Some _ => (st, decision)
        | None => let '(st, ok) := check_rate st server now in
                  (st, if ok then decision else Some (mkToolDecision false (RateLimited server)))
        end in
      let pin := match cross, decision with None, None => check_pin reg entry (Name call) | _, _ => PinOk end in
      let decision := match pin with PinBlock r => Some (mkToolDecision false r) | _ => decision end in
      let alert := match pin with PinAlert r => r | _ => NoReason end in
      let decision := match cross, decision, policy with
                      | None, None, Some _ => Some (check_policy entry (Name call))
                      | _, _, _ => decision
                      end in
      let decision := default (mkToolDecision true NoReason) decision in
      let reason := if Allowed decision then alert else Reason decision in
      let st := if negb (Allowed decision) && bool_decide (cross = None)
                then mark_blocked st server (Name call) (ID call) requestID else st in
      (st, Some (mkEvent (Name call) (ID call) (Input call) server (ToolRegistry.ToolHash entry)
                   (if Allowed decision then "allow" else "block") reason
                   (dec_rule cross) (dec_severity cross) (dec_related cross),
                 negb (Allowed decision)))
  end.

(** ** Whole responses (mcp_intercept.go) *)

Record Block := mkBlock { bl_Type : string; bl_Name : string; bl_ID : string; bl_Input : option json }.

(** No two names fold to the same, so the order of the fields does not matter. *)
Definition block_fields : list (string * Decoder Block) :=
  [("type", lens bl_Type (λ b v, mkBlock v (bl_Name b) (bl_ID b) (bl_Input b)) dec_string);
   ("name", lens bl_Name (λ b v, mkBlock (bl_Type b) v (bl_ID b) (bl_Input b)) dec_string);
   ("id", lens bl_ID (λ b v, mkBlock (bl_Type b) (bl_Name b) v (bl_Input b)) dec_string);
   ("input", lens bl_Input (λ b v, mkBlock (bl_Type b) (bl_Name b) (bl_ID b) v) dec_raw)].
Definition zero_block : Block := mkBlock "" "" "" None.

Record Message := mkMessage { StopReason : string; Content : Slice Block }.
Definition message_fields : list (string * Decoder Message) :=
  [("stop_reason", lens StopReason (λ m v, mkMessage v (Content m)) dec_string);
   ("content", lens Content (λ m v, mkMessage (StopReason m) v) (dec_slice zero_block (dec_struct block_fields)))].
Definition zero_message : Message := mkMessage "" nil_slice.

Definition extractAnthropicToolCalls (body : option json) : list ToolCall :=
  match j ← body; dec_struct message_fields zero_message j with
  | None => []
  | Some resp =>
      if negb (String.eqb (StopReason resp) "tool_use") then []
      else omap (λ b, if String.eqb (bl_Type b) "tool_use"
                      then Some (mkToolCall (bl_ID b) (bl_Name b) (bl_Input b)) else None)
             (elements (Content resp))
  end.

(** [choices[].message.tool_calls[]] *)
Record OAFunction := mkOAFunction { fn_Name : string; fn_Arguments : string }.
Definition oa_function_fields : list (string * Decoder OAFunction) :=
  [("name", lens fn_Name (λ f v, mkOAFunction v (fn_Arguments f)) dec_string);
   ("arguments", lens fn_Arguments (λ f v, mkOAFunction (fn_Name f) v) dec_string)].
Record OACall := mkOACall { oc_ID : string; oc_Function : OAFunction }.
Definition oa_call_fields : list (string * Decoder OACall) :=
  [("id", lens oc_ID (λ c v, mkOACall v (oc_Function c)) dec_string);
   ("function", lens oc_Function (λ c v, mkOACall (oc_ID c) v) (dec_struct oa_function_fields))].
Definition zero_oa_call : OACall := mkOACall "" (mkOAFunction "" "").
Definition oa_message_fields : list (string * Decoder (Slice OACall)) :=
  [("tool_calls", dec_slice zero_oa_call (dec_struct oa_call_fields))].
Record OAChoice := mkOAChoice { och_FinishReason : string; och_ToolCalls : Slice OACall }.
Definition oa_choice_fields : list (string * Decoder OAChoice) :=
  [("finish_reason", lens och_FinishReason (λ c v, mkOAChoice v (och_ToolCalls c)) dec_string);
   ("message", lens och_ToolCalls (λ c v, mkOAChoice (och_FinishReason c) v) (dec_struct oa_message_fields))].
Definition zero_oa_choice : OAChoice := mkOAChoice "" nil_slice.
Definition oa_response_fields : list (string * Decoder (Slice OAChoice)) :=
  [("choices", dec_slice zero_oa_choice (dec_struct oa_choice_fields))].

Definition extractOpenAIToolCalls (body : option json) : list ToolCall :=
  match j ← body; dec_struct oa_response_fields nil_slice j with
  | None => []
  | Some choices =>
      elements choices ≫= λ choice,
        if negb (String.eqb (och_FinishReason choice) "tool_calls") then []
        else (λ tc, mkToolCall (oc_ID tc) (fn_Name (oc_Function tc))
                      (json_Unmarshal (fn_Arguments (oc_Function tc)))) <$> elements (och_ToolCalls choice)
  end.

Inductive Dialect := DialectAnthropic | DialectOpenAI | DialectUnknown.

Definition ExtractToolCalls (body : option json) (d : Dialect) : list ToolCall :=
  match d with
  | DialectAnthropic => extractAnthropicToolCalls body
  | DialectOpenAI => extractOpenAIToolCalls body
  | DialectUnknown => []
  end.

Definition blocked_message (tool : string) : string := "[agentsh] Tool '" +:+ tool +:+ "' blocked by policy".

(** [struct { Type, Name }] *)
Record Info := mkInfo { in_Type : string; in_Name : string }.
Definition info_fields : list (string * Decoder Info) :=
  [("type", lens in_Type (λ i v, mkInfo v (in_Name i)) dec_string);
   ("name", lens in_Name (λ i v, mkInfo (in_Type i) v) dec_string)].

(** A content block after rewriting, and whether it is a tool call that remains. *)
Definition rewrite_block (blocked : gset string) (block : json) : json * bool :=
  match dec_struct info_fields (mkInfo "" "") block with
  | None => (block, false)
  | Some info =>
      if String.eqb (in_Type info) "tool_use" && bool_decide (in_Name info ∈ blocked)
      then (JObject [("text", JString (blocked_message (in_Name info))); ("type", JString "text")], false)
      else (block, String.eqb (in_Type info) "tool_use")
  end.

Definition rewriteAnthropicResponse (body : option json) (blocked : gset string) : option json :=
  j ← body; resp ← dec_map j; c ← resp !! "content"; content ← dec_list c;
  let new := rewrite_block blocked <$> content in
  let resp := <["content" := appended_json (fst <$> new)]> resp in
  let resp := if existsb snd new then resp else <["stop_reason" := JString "end_turn"]> resp in
  Some (map_json resp).

(** [struct { Function struct { Name } }] *)
Definition oa_name_fields : list (string * Decoder string) :=
  [("function", dec_struct [("name", dec_string)])].

Inductive Kept := Keep (j : json) | Drop (msg : string).

Definition keep_call (blocked : gset string) (tc : json) : Kept :=
  match dec_struct oa_name_fields "" tc with
  | None => Keep tc
  | Some name => if bool_decide (name ∈ blocked) then Drop (blocked_message name) else Keep tc
  end.

Definition kept_calls (ks : list Kept) : list json := omap (λ k, match k with Keep j => Some j | _ => None end) ks.
Definition dropped_messages (ks : list Kept) : list string :=
  omap (λ k, match k with Drop m => Some m | _ => None end) ks.

Definition newline : string := String (ascii_of_nat 10) "".

(** One choice; [None] for a message is Go's nil map, printed as [null]. *)
Definition rewrite_choice (blocked : gset string) (choiceRaw : json) : json :=
  match dec_map choiceRaw with
  | None => choiceRaw
  | Some choice =>
      match choice !! "message" with
      | None => choiceRaw
      | Some mj =>
          match dec_map mj with
          | None => choiceRaw
          | Some msg =>
              match (match msg !! "tool_calls" with None => Some [] | Some tj => dec_list tj end) with
              | None => choiceRaw
              | Some toolCalls =>
                  let ks := keep_call blocked <$> toolCalls in
                  let kept := kept_calls ks in
                  let msgs := dropped_messages ks in
                  let '(msg', choice') :=
                    if (length kept =? 0) && (0 <? length msgs) then
                      (delete "tool_calls" (<["content" := JString (Join msgs newline)]> msg),
                       <["finish_reason" := JString "stop"]> choice)
                    else if length kept <? length toolCalls then (<["tool_calls" := JArray kept]> msg, choice)
                    else (msg, choice) in
                  let mj' := match mj with JNull => JNull | _ => map_json msg' end in
                  map_json (<["message" := mj']> choice')
              end
          end
      end
  end.

Definition rewriteOpenAIResponse (body : option json) (blocked : gset string) : option json :=
  j ← body; resp ← dec_map j; c ← resp !! "choices"; choices ← dec_list c;
  Some (map_json (<["choices" := appended_json (rewrite_choice blocked <$> choices)]> resp)).

Record InterceptResult := mkInterceptResult {
  Events : list InterceptEvent; HasBlocked : bool; RewrittenBody : option json }.

(** The loop over the calls: state, events, names blocked so far. *)
Fixpoint intercept_loop (reg : ToolRegistry.Registry) (st : Mcp) (requestID : string) (clock : nat → Z)
    (i : nat) (calls : list ToolCall) : Mcp * list InterceptEvent * gset string :=
  match calls with
  | [] => (st, [], ∅)
  | call :: calls =>
      let '(st, res) := intercept_call reg st requestID call (clock i) in
      let '(st, evs, names) := intercept_loop reg st requestID clock (S i) calls in
      match res with
      | None => (st, evs, names)
      | Some (ev, blocked) => (st, ev :: evs, if blocked then {[Name call]} ∪ names else names)
      end
  end.

Definition interceptMCPToolCalls (st : Mcp) (body : option json) (d : Dialect) (requestID : string)
    (clock : nat → Z) : Mcp * InterceptResult :=
  match registry st with
  | None => (st, mkInterceptResult [] false None)
  | Some reg =>
      let calls := ExtractToolCalls body d in
      if length calls =? 0 then (st, mkInterceptResult [] false None)
      else
        let '(st, evs, names) := intercept_loop reg st requestID clock 0 calls in
        let blocked := negb (bool_decide (names = ∅)) in
        (st, mkInterceptResult evs blocked
               (if blocked then
                  match d with
                  | DialectAnthropic => rewriteAnthropicResponse body names
                  | DialectOpenAI => rewriteOpenAIResponse body names
                  | DialectUnknown => None
                  end
                else None))
  end.

(** What [ModifyResponse] of proxy.go passes on. *)
Definition client_body (body : option json) (res : InterceptResult) : option json :=
  match RewrittenBody res with Some b => if HasBlocked res then Some b else body | None => body end.

(** proxy.go: whether responses are intercepted at all, and the interception of a
    whole response with status 200. *)
Definition hasInterception (st : Mcp) : bool :=
  bool_decide (is_Some policy) || bool_decide (is_Some (rateLimiter st)) || bool_decide (is_Some versionPinCfg).

Definition intercept_response (st : Mcp) (status : Z) (body : option json) (d : Dialect) (requestID : string)
    (clock : nat → Z) : Mcp * list InterceptEvent * option json :=
  if bool_decide (is_Some (registry st)) && hasInterception st && (status =? 200)%Z then
    let '(st', res) := interceptMCPToolCalls st body d requestID clock in (st', Events res, client_body body res)
  else (st, [], body).

(** ** Event streams (sse_intercept.go) *)

Inductive OutLine :=
| OutRaw (line : string)
| OutData (v : json).

Record ChoiceTracking := mkTracking { ct_blocked : gset Z; ct_total : nat; ct_nblocked : nat }.
Definition zero_tracking : ChoiceTracking := mkTracking ∅ 0 0.

Record Sse := mkSse {
  sse_mcp : Mcp; blockedIndices : gset Z; totalToolUse : nat; blockedToolUse : nat;
  openAIChoices : gmap Z ChoiceTracking; tick : nat }.

Definition set_mcp (s : Sse) (m : Mcp) : Sse :=
  mkSse m (blockedIndices s) (totalToolUse s) (blockedToolUse s) (openAIChoices s) (S (tick s)).

Definition extractSSEData (line : string) : option string :=
  if HasPrefix line "data: " then Some (str_drop 6 line)
  else if HasPrefix line "data:" then Some (str_drop 5 line)
  else None.

Definition sse_event (tool id action : string) (reason : EvalReason) (e : ToolRegistry.ToolEntry)
    (cross : option Analyzer.CrossServerDecision) : InterceptEvent :=
  mkEvent tool id None (ToolRegistry.ServerID e) (ToolRegistry.ToolHash e) action reason
    (dec_rule cross) (dec_severity cross) (dec_related cross).

(** [struct { Type, Index }] *)
Record Evt := mkEvt { evt_Type : string; evt_Index : Z }.
Definition evt_fields : list (string * Decoder Evt) :=
  [("type", lens evt_Type (λ e v, mkEvt v (evt_Index e)) dec_string);
   ("index", lens evt_Index (λ e v, mkEvt (evt_Type e) v) dec_int)].

(** [struct { Type, Index, ContentBlock struct { Type, ID, Name } }] *)
Record BlockStart := mkBlockStart { bs_Type : string; bs_Index : Z; bs_Block : Block }.
Definition start_block_fields : list (string * Decoder Block) :=
  [("type", lens bl_Type (λ b v, mkBlock v (bl_Name b) (bl_ID b) (bl_Input b)) dec_string);
   ("name", lens bl_Name (λ b v, mkBlock (bl_Type b) v (bl_ID b) (bl_Input b)) dec_string);
   ("id", lens bl_ID (λ b v, mkBlock (bl_Type b) (bl_Name b) v (bl_Input b)) dec_string)].
Definition start_fields : list (string * Decoder BlockStart) :=
  [("type", lens bs_Type (λ b v, mkBlockStart v (bs_Index b) (bs_Block b)) dec_string);
   ("index", lens bs_Index (λ b v, mkBlockStart (bs_Type b) v (bs_Block b)) dec_int);
   ("content_block", lens bs_Block (λ b v, mkBlockStart (bs_Type b) (bs_Index b) v)
                       (dec_struct start_block_fields))].
Definition zero_start : BlockStart := mkBlockStart "" 0 zero_block.

Definition number (n : Z) : json := JNumber (pretty n).

(** The printed texts are the JSON texts of these values. *)
Definition emitAnthropicTextBlock (index : Z) (toolName : string) : list OutLine :=
  [OutRaw "event: content_block_start";
   OutData (JObject [("type", JString "content_block_start"); ("index", number index);
                     ("content_block", JObject [("type", JString "text"); ("text", JString "")])]);
   OutRaw "";
   OutRaw "event: content_block_delta";
   OutData (JObject [("type", JString "content_block_delta"); ("index", number index);
                     ("delta", JObject [("type", JString "text_delta");
                                        ("text", JString (blocked_message toolName))])]);
   OutRaw "";
   OutRaw "event: content_block_stop";
   OutData (JObject [("type", JString "content_block_stop"); ("index", number index)]);
   OutRaw ""].

(** [None] is a panic: a [null] delta is a nil map, and the code assigns to it. *)
Definition rewriteAnthropicStopReason (data : string) : option OutLine :=
  let unchanged := OutRaw ("data: " +:+ data) in
  match j ← json_Unmarshal data; dec_map j with
  | None => Some unchanged
  | Some obj =>
      match obj !! "delta" with
      | None => Some unchanged
      | Some JNull => None
      | Some dj =>
          match dec_map dj with
          | None => Some unchanged
          | Some delta =>
              Some (OutData (map_json (<["delta" := map_json (<["stop_reason" := JString "end_turn"]> delta)]> obj)))
          end
      end
  end.

(** Lines to write ([None]: suppressed) and events; the outer [None] is a panic. *)
Definition Processed : Type := Sse * option (list OutLine) * list InterceptEvent.

Definition handleContentBlockStart (clock : nat → Z) (requestID : string) (s : Sse) (line data : string) (index : Z)
    : Processed :=
  match j ← json_Unmarshal data; dec_struct start_fields zero_start j with
  | None => (s, Some [OutRaw line], [])
  | Some b =>
      if negb (String.eqb (bl_Type (bs_Block b)) "tool_use") then (s, Some [OutRaw line], [])
      else
        let toolName := bl_Name (bs_Block b) in
        let toolCallID := bl_ID (bs_Block b) in
        let s := mkSse (sse_mcp s) (blockedIndices s) (S (totalToolUse s)) (blockedToolUse s)
                   (openAIChoices s) (tick s) in
        let '(m, res) := lookupAndEvaluate (sse_mcp s) toolName toolCallID requestID (clock (tick s)) in
        let s := set_mcp s m in
        match res with
        | None => (s, Some [OutRaw line], [])
        | Some (entry, decision, cross) =>
            if Allowed decision then
              (s, Some [OutRaw line], [sse_event toolName toolCallID "allow" (Reason decision) entry None])
            else
              (mkSse (sse_mcp s) ({[index]} ∪ blockedIndices s) (totalToolUse s) (S (blockedToolUse s))
                 (openAIChoices s) (tick s),
               Some (emitAnthropicTextBlock index toolName),
               [sse_event toolName toolCallID "block" (Reason decision) entry cross])
        end
  end.

Definition handleMessageDelta (s : Sse) (line data : string) : option OutLine :=
  if (0 <? totalToolUse s) && (blockedToolUse s =? totalToolUse s)
  then rewriteAnthropicStopReason data else Some (OutRaw line).

Definition processAnthropicEvent (clock : nat → Z) (requestID : string) (s : Sse) (line data : string)
    : option Processed :=
  match j ← json_Unmarshal data; dec_struct evt_fields (mkEvt "" 0) j with
  | None => Some (s, Some [OutRaw line], [])
  | Some evt =>
      if String.eqb (evt_Type evt) "content_block_start" then
        Some (handleContentBlockStart clock requestID s line data (evt_Index evt))
      else if String.eqb (evt_Type evt) "content_block_delta" || String.eqb (evt_Type evt) "content_block_stop" then
        Some (s, if bool_decide (evt_Index evt ∈ blockedIndices s) then None else Some [OutRaw line], [])
      else if String.eqb (evt_Type evt) "message_delta" then
        o ← handleMessageDelta s line data; Some (s, Some [o], [])
      else Some (s, Some [OutRaw line], [])
  end.

(** *** OpenAI chunks *)
Record ChunkCall := mkChunkCall {
  tc_Index : Z; tc_ID : string; tc_Type : string; tc_Function : OAFunction }.
Record ChunkDelta := mkChunkDelta {
  dl_Role : string; dl_Content : option json; dl_ToolCalls : Slice ChunkCall }.
Record ChunkChoice := mkChunkChoice { cc_Index : Z; cc_Delta : ChunkDelta; cc_FinishReason : option string }.
Record Chunk := mkChunk { ck_ID : string; ck_Object : string; ck_Choices : Slice ChunkChoice }.

Definition chunk_call_fields : list (string * Decoder ChunkCall) :=
  [("index", lens tc_Index (λ c v, mkChunkCall v (tc_ID c) (tc_Type c) (tc_Function c)) dec_int);
   ("id", lens tc_ID (λ c v, mkChunkCall (tc_Index c) v (tc_Type c) (tc_Function c)) dec_string);
   ("type", lens tc_Type (λ c v, mkChunkCall (tc_Index c) (tc_ID c) v (tc_Function c)) dec_string);
   ("function", lens tc_Function (λ c v, mkChunkCall (tc_Index c) (tc_ID c) (tc_Type c) v)
                  (dec_struct oa_function_fields))].
Definition zero_chunk_call : ChunkCall := mkChunkCall 0 "" "" (mkOAFunction "" "").
Definition chunk_delta_fields : list (string * Decoder ChunkDelta) :=
  [("role", lens dl_Role (λ d v, mkChunkDelta v (dl_Content d) (dl_ToolCalls d)) dec_string);
   ("content", lens dl_Content (λ d v, mkChunkDelta (dl_Role d) v (dl_ToolCalls d)) dec_raw);
   ("tool_calls", lens dl_ToolCalls (λ d v, mkChunkDelta (dl_Role d) (dl_Content d) v)
                    (dec_slice zero_chunk_call (dec_struct chunk_call_fields)))].
Definition chunk_choice_fields : list (string * Decoder ChunkChoice) :=
  [("index", lens cc_Index (λ c v, mkChunkChoice v (cc_Delta c) (cc_FinishReason c)) dec_int);
   ("delta", lens cc_Delta (λ c v, mkChunkChoice (cc_Index c) v (cc_FinishReason c))
               (dec_struct chunk_delta_fields));
   ("finish_reason", lens cc_FinishReason (λ c v, mkChunkChoice (cc_Index c) (cc_Delta c) v) dec_string_ptr)].
Definition zero_choice : ChunkChoice := mkChunkChoice 0 (mkChunkDelta "" None nil_slice) None.
Definition chunk_fields : list (string * Decoder Chunk) :=
  [("id", lens ck_ID (λ c v, mkChunk v (ck_Object c) (ck_Choices c)) dec_string);
   ("object", lens ck_Object (λ c v, mkChunk (ck_ID c) v (ck_Choices c)) dec_string);
   ("choices", lens ck_Choices (λ c v, mkChunk (ck_ID c) (ck_Object c) v)
                 (dec_slice zero_choice (dec_struct chunk_choice_fields)))].
Definition zero_chunk : Chunk := mkChunk "" "" nil_slice.

(** The same structs printed; [omitempty] leaves a zero field out. *)
Definition omit_string (k v : string) : list (string * json) :=
  if String.eqb v "" then [] else [(k, JString v)].
Definition chunk_call_json (c : ChunkCall) : json :=
  JObject ([("index", number (tc_Index c))] ++ omit_string "id" (tc_ID c) ++ omit_string "type" (tc_Type c)
    ++ [("function", JObject (omit_string "name" (fn_Name (tc_Function c))
                              ++ [("arguments", JString (fn_Arguments (tc_Function c)))]))]).
Definition chunk_delta_json (d : ChunkDelta) : json :=
  JObject (omit_string "role" (dl_Role d)
    ++ match dl_Content d with Some v => [("content", v)] | None => [] end
    ++ match elements (dl_ToolCalls d) with
       | [] => []
       | tcs => [("tool_calls", JArray (chunk_call_json <$> tcs))]
       end).
Definition chunk_choice_json (c : ChunkChoice) : json :=
  JObject [("index", number (cc_Index c)); ("delta", chunk_delta_json (cc_Delta c));
           ("finish_reason", match cc_FinishReason c with Some r => JString r | None => JNull end)].
Definition chunk_json (c : Chunk) : json :=
  JObject [("id", JString (ck_ID c)); ("object", JString (ck_Object c));
           ("choices", JArray (chunk_choice_json <$> elements (ck_Choices c)))].

Definition getChoiceTracking (s : Sse) (choiceIdx : Z) : ChoiceTracking :=
  default zero_tracking (openAIChoices s !! choiceIdx).
Definition set_tracking (s : Sse) (choiceIdx : Z) (t : ChoiceTracking) : Sse :=
  mkSse (sse_mcp s) (blockedIndices s) (totalToolUse s) (blockedToolUse s)
    (<[choiceIdx := t]> (openAIChoices s)) (tick s).

(** The loop of [handleOpenAIFirstToolChunk]: state, tracking, calls kept,
    messages for the calls blocked, events. *)
Fixpoint first_chunk_loop (clock : nat → Z) (requestID : string) (s : Sse) (st : ChoiceTracking)
    (tcs : list ChunkCall) : Sse * ChoiceTracking * list ChunkCall * list string * list InterceptEvent :=
  match tcs with
  | [] => (s, st, [], [], [])
  | tc :: tcs =>
      let toolName := fn_Name (tc_Function tc) in
      let toolCallID := tc_ID tc in
      let st := mkTracking (ct_blocked st) (S (ct_total st)) (ct_nblocked st) in
      let '(m, res) := lookupAndEvaluate (sse_mcp s) toolName toolCallID requestID (clock (tick s)) in
      let s := set_mcp s m in
      match res with
      | None =>
          let '(s, st, kept, msgs, evs) := first_chunk_loop clock requestID s st tcs in
          (s, st, tc :: kept, msgs, evs)
      | Some (entry, decision, cross) =>
          if Allowed decision then
            let '(s, st, kept, msgs, evs) := first_chunk_loop clock requestID s st tcs in
            (s, st, tc :: kept, msgs,
             sse_event toolName toolCallID "allow" (Reason decision) entry None :: evs)
          else
            let st := mkTracking ({[tc_Index tc]} ∪ ct_blocked st) (ct_total st) (S (ct_nblocked st)) in
            let '(s, st, kept, msgs, evs) := first_chunk_loop clock requestID s st tcs in
            (s, st, kept, blocked_message toolName :: msgs,
             sse_event toolName toolCallID "block" (Reason decision) entry cross :: evs)
      end
  end.

Definition full_slice {A} (l : list A) : Slice A := mkSlice l (length l).
Definition set_calls (c : ChunkChoice) (content : option json) (tcs : list ChunkCall) : ChunkChoice :=
  mkChunkChoice (cc_Index c) (mkChunkDelta (dl_Role (cc_Delta c)) content (full_slice tcs)) (cc_FinishReason c).

Definition handleOpenAIFirstToolChunk (clock : nat → Z) (requestID : string) (s : Sse) (choice : ChunkChoice)
    : Sse * ChunkChoice * bool * list InterceptEvent :=
  let '(s, st, allowed, msgs, evs) :=
    first_chunk_loop clock requestID s (getChoiceTracking s (cc_Index choice))
      (elements (dl_ToolCalls (cc_Delta choice))) in
  let s := set_tracking s (cc_Index choice) st in
  if length msgs =? 0 then (s, choice, false, evs)
  else if length allowed =? 0 then
    (s, set_calls choice (Some (JString (Join msgs newline))) [], true, evs)
  else (s, set_calls choice (dl_Content (cc_Delta choice)) allowed, true, evs).

Definition handleOpenAIArgChunk (s : Sse) (choice : ChunkChoice) : ChunkChoice * bool :=
  match openAIChoices s !! cc_Index choice with
  | None => (choice, false)
  | Some st =>
      if bool_decide (ct_blocked st = ∅) then (choice, false)
      else
        let tcs := elements (dl_ToolCalls (cc_Delta choice)) in
        let kept := List.filter (λ tc, negb (bool_decide (tc_Index tc ∈ ct_blocked st))) tcs in
        if length kept =? length tcs then (choice, false)
        else (set_calls choice (dl_Content (cc_Delta choice)) kept, true)
  end.

Definition rewriteOpenAIFinish (s : Sse) (choice : ChunkChoice) : ChunkChoice * bool :=
  match openAIChoices s !! cc_Index choice with
  | None => (choice, false)
  | Some st =>
      if (0 <? ct_total st) && (ct_nblocked st =? ct_total st)
         && bool_decide (cc_FinishReason choice = Some "tool_calls")
      then (mkChunkChoice (cc_Index choice) (cc_Delta choice) (Some "stop"), true)
      else (choice, false)
  end.

(** One iteration of the loop over the choices of a chunk. *)
Definition process_choice (clock : nat → Z) (requestID : string) (s : Sse) (choice : ChunkChoice)
    : Sse * ChunkChoice * bool * list InterceptEvent :=
  match cc_FinishReason choice with
  | Some _ => let '(c, m) := rewriteOpenAIFinish s choice in (s, c, m, [])
  | None =>
      let tcs := elements (dl_ToolCalls (cc_Delta choice)) in
      if length tcs =? 0 then (s, choice, false, [])
      else if existsb (λ tc, negb (String.eqb (tc_ID tc) "")) tcs
      then handleOpenAIFirstToolChunk clock requestID s choice
      else let '(c, m) := handleOpenAIArgChunk s choice in (s, c, m, [])
  end.

Fixpoint process_choices (clock : nat → Z) (requestID : string) (s : Sse) (cs : list ChunkChoice)
    : Sse * list ChunkChoice * bool * list InterceptEvent :=
  match cs with
  | [] => (s, [], false, [])
  | c :: cs =>
      let '(s, c, m, evs) := process_choice clock requestID s c in
      let '(s, cs, m', evs') := process_choices clock requestID s cs in
      (s, c :: cs, m || m', evs ++ evs')
  end.

Definition empty_choice (c : ChunkChoice) : bool :=
  (length (elements (dl_ToolCalls (cc_Delta c))) =? 0) && bool_decide (dl_Content (cc_Delta c) = None)
  && String.eqb (dl_Role (cc_Delta c)) "" && bool_decide (cc_FinishReason c = None).

Definition processOpenAIEvent (clock : nat → Z) (requestID : string) (s : Sse) (line : string) : Processed :=
  match extractSSEData line with
  | None => (s, Some [OutRaw line], [])
  | Some data =>
      if String.eqb data "[DONE]" then (s, Some [OutRaw line], [])
      else match j ← json_Unmarshal data; dec_struct chunk_fields zero_chunk j with
           | None => (s, Some [OutRaw line], [])
           | Some chunk =>
               if length (elements (ck_Choices chunk)) =? 0 then (s, Some [OutRaw line], [])
               else
                 let '(s, choices, modified, evs) :=
                   process_choices clock requestID s (elements (ck_Choices chunk)) in
                 if negb modified then (s, Some [OutRaw line], evs)
                 else if forallb empty_choice choices then (s, None, evs)
                 else (s, Some [OutData (chunk_json (mkChunk (ck_ID chunk) (ck_Object chunk) (full_slice choices)))],
                       evs)
           end
  end.

(** *** The stream *)

(** [client i]: whether the [i]-th write to the client succeeds. [written] is the
    returned buffer. *)
Record Loop := mkLoop {
  lp_sse : Sse; pendingEvent : option string; suppressNextEmpty : bool;
  written : list OutLine; lp_events : list InterceptEvent; clientErr : bool }.

Definition writeLine (client : nat → bool) (lp : Loop) (o : OutLine) : Loop :=
  mkLoop (lp_sse lp) (pendingEvent lp) (suppressNextEmpty lp) (written lp ++ [o]) (lp_events lp)
    (clientErr lp || negb (client (length (written lp)))).

Definition out_HasPrefix (o : OutLine) (p : string) : bool :=
  match o with OutRaw l => HasPrefix l p | OutData _ => HasPrefix "data: " p end.

Definition flush_pending (client : nat → bool) (lp : Loop) : Loop :=
  match pendingEvent lp with
  | None => lp
  | Some e =>
      let lp := writeLine client lp (OutRaw e) in
      mkLoop (lp_sse lp) None (suppressNextEmpty lp) (written lp) (lp_events lp) (clientErr lp)
  end.
Definition drop_pending (lp : Loop) : Loop :=
  mkLoop (lp_sse lp) None (suppressNextEmpty lp) (written lp) (lp_events lp) (clientErr lp).
Definition set_suppress (lp : Loop) (b : bool) : Loop :=
  mkLoop (lp_sse lp) (pendingEvent lp) b (written lp) (lp_events lp) (clientErr lp).
Definition after_event (lp : Loop) (s : Sse) (evs : list InterceptEvent) : Loop :=
  mkLoop s (pendingEvent lp) (suppressNextEmpty lp) (written lp) (lp_events lp ++ evs) (clientErr lp).

Definition anthropic_line (clock : nat → Z) (requestID : string) (client : nat → bool) (lp : Loop) (line : string)
    : option Loop :=
  if suppressNextEmpty lp && String.eqb line "" then Some (set_suppress lp false)
  else
    let lp := set_suppress lp false in
    match extractSSEData line with
    | Some data =>
        '(s, out, evs) ← processAnthropicEvent clock requestID (lp_sse lp) line data;
        let lp := after_event lp s evs in
        Some (match out with
              | None => set_suppress (drop_pending lp) true
              | Some outs =>
                  let lp := if existsb (λ o, out_HasPrefix o "event:") outs then drop_pending lp
                            else flush_pending client lp in
                  foldl (writeLine client) lp outs
              end)
    | None =>
        Some (if HasPrefix line "event:" then
                mkLoop (lp_sse lp) (Some line) (suppressNextEmpty lp) (written lp) (lp_events lp) (clientErr lp)
              else writeLine client (flush_pending client lp) (OutRaw line))
    end.

Definition openai_line (clock : nat → Z) (requestID : string) (client : nat → bool) (lp : Loop) (line : string) : Loop :=
  let '(s, out, evs) := processOpenAIEvent clock requestID (lp_sse lp) line in
  foldl (writeLine client) (after_event lp s evs) (default [] out).

Definition stream_line (d : Dialect) (clock : nat → Z) (requestID : string) (client : nat → bool) (lp : Loop)
    (line : string) : option Loop :=
  match d with
  | DialectAnthropic => anthropic_line clock requestID client lp line
  | DialectOpenAI => Some (openai_line clock requestID client lp line)
  | DialectUnknown => Some (writeLine client lp (OutRaw line))
  end.

Fixpoint stream_lines (d : Dialect) (clock : nat → Z) (requestID : string) (client : nat → bool) (lp : Loop)
    (lines : list string) : option Loop :=
  match lines with
  | [] => Some lp
  | line :: lines =>
      if clientErr lp then Some lp
      else lp ← stream_line d clock requestID client lp line; stream_lines d clock requestID client lp lines
  end.

Definition NewSSEInterceptor (m : Mcp) : Sse := mkSse m ∅ 0 0 ∅ 0.

(** [lines] are the lines [bufio.Scanner] gives. *)
Definition Stream (d : Dialect) (clock : nat → Z) (requestID : string) (client : nat → bool) (m : Mcp)
    (lines : list string) : option Loop :=
  lp ← stream_lines d clock requestID client (mkLoop (NewSSEInterceptor m) None false [] [] false) lines;
  Some (if clientErr lp then lp else flush_pending client lp).

(** streaming.go: the lines sent to the client, copied when nothing is to be
    checked. *)
Definition stream_response (st : Mcp) (d : Dialect) (clock : nat → Z) (requestID : string) (client : nat → bool)
    (lines : list string) : option (list OutLine) :=
  if bool_decide (is_Some (registry st)) && hasInterception st
  then written <$> Stream d clock requestID client st lines
  else Some (OutRaw <$> lines).
End intercept.

(** ** The two evaluation paths agree *)
Section paths.
Context `{GoLib, PathLib, JsonLib} {L : Type} `{!RateLimiter L}.
Context (policy : option McpPolicy.SandboxMCPConfig) (versionPinCfg : option VersionPin).

Notation lookupAndEvaluate := (lookupAndEvaluate (L := L) policy versionPinCfg).
Notation intercept_call := (intercept_call (L := L) policy versionPinCfg).

Lemma check_cross_registry (st : Mcp (L := L)) server tool id req now :
  registry (check_cross st server tool id req now).1 = registry st.
Proof. unfold check_cross. destruct (analyzer st); [destruct (Analyzer.CheckAndRecord _ _ _ _ _ _) as [[??]?]|]; done. Qed.

Lemma check_rate_registry (st : Mcp (L := L)) server now : registry (check_rate st server now).1 = registry st.
Proof. unfold check_rate. destruct (rateLimiter st); [destruct (rl_Allow _ _ _)|]; done. Qed.

Lemma lookupAndEvaluate_registry st tool id req now :
  registry (lookupAndEvaluate st tool id req now).1 = registry st.
Proof.
  unfold McpIntercept.lookupAndEvaluate. destruct (registry st) as [reg|] eqn:Hr; [|done].
  destruct (ToolRegistry.Lookup reg tool) as [e|]; [|done]. cbn zeta.
  pose proof (check_cross_registry st (ToolRegistry.ServerID e) tool id req now) as Hc1.
  destruct (check_cross _ _ _ _ _ _) as [st1 [b|]]; cbn [fst] in *; [congruence|].
  pose proof (check_rate_registry st1 (ToolRegistry.ServerID e) now) as Hc2.
  destruct (check_rate _ _ _) as [st2 ok]; cbn [fst] in Hc2. destruct ok; cbn [negb]; [|cbn; congruence].
  destruct (check_pin _ _ _ _); try (cbn; congruence); destruct (Allowed _); cbn; congruence.
Qed.

Lemma lookupAndEvaluate_registered st tool id req now :
  is_Some (lookupAndEvaluate st tool id req now).2 ↔
  ∃ reg, registry st = Some reg ∧ is_Some (ToolRegistry.Lookup reg tool).
Proof.
  unfold McpIntercept.lookupAndEvaluate. destruct (registry st) as [reg|]; cbn.
  2: { split; [intros [? ?]; done|naive_solver]. }
  destruct (ToolRegistry.Lookup reg tool) as [e|] eqn:Hl; cbn.
  2: { split; [intros [? ?]; done|]. intros (r & [= <-] & [? ?]); congruence. }
  split; [eauto|intros _].
  destruct (check_cross _ _ _ _ _ _) as [st1 [b|]]; cbn; [eauto|].
  destruct (check_rate _ _ _) as [st2 ok]; cbn. destruct ok; cbn; [|eauto].
  destruct (check_pin _ _ _ _); cbn; eauto.
Qed.

(** What the two paths report of the same call. *)
Definition same_report (r1 : option (InterceptEvent * bool))
    (r2 : option (ToolRegistry.ToolEntry * ToolDecision * option Analyzer.CrossServerDecision)) : Prop :=
  match r1, r2 with
  | None, None => True
  | Some (ev, blocked), Some (e, d, cross) =>
      ev_Server ev = ToolRegistry.ServerID e ∧ ev_Hash ev = ToolRegistry.ToolHash e
      ∧ blocked = negb (Allowed d) ∧ ev_Action ev = (if Allowed d then "allow" else "block")
      ∧ (Allowed d = false → ev_Reason ev = Reason d)
      ∧ ev_CrossRule ev = dec_rule cross ∧ ev_Severity ev = dec_severity cross
      ∧ ev_Related ev = dec_related cross
  | _, _ => False
  end.

Lemma paths_agree_aux reg st requestID call now :
  registry st = Some reg →
  (intercept_call reg st requestID call now).1
    = (lookupAndEvaluate st (Name call) (ID call) requestID now).1
  ∧ same_report (intercept_call reg st requestID call now).2
      (lookupAndEvaluate st (Name call) (ID call) requestID now).2.
Proof.
  intros Hr. unfold McpIntercept.lookupAndEvaluate, McpIntercept.intercept_call. rewrite Hr.
  destruct (ToolRegistry.Lookup reg (Name call)) as [e|]; [|done]. cbn zeta.
  destruct (check_cross _ _ _ _ _ _) as [st1 [b|]]; [cbn; by rewrite ?bool_decide_false|].
  destruct (check_rate _ _ _) as [st2 ok]. destruct ok; cbn [negb].
  2: { by cbn; rewrite ?bool_decide_true. }
  unfold check_policy.
  destruct (check_pin _ _ _ _) as [|r|r]; [|by cbn; rewrite ?bool_decide_true|];
    (destruct policy as [cfg|]; [|by cbn]; cbn;
     destruct (McpPolicy.Allowed _); cbn; rewrite ?bool_decide_true by done; done).
Qed.
End paths.

(** ** What decoding reads *)
Section decode_lemmas.
Context `{GoLib}.

Definition put {R} (fs : list (string * Decoder R)) (r : R) (k : string) (j : json) : option R :=
  match field_of fs k with Some d => d r j | None => Some r end.

Lemma dec_fields_None {R} (fs : list (string * Decoder R)) kvs : foldl (dec_field fs) None kvs = None.
Proof. by induction kvs. Qed.

(** A struct with fewer fields reads the same of the fields it has. *)
Lemma dec_struct_sim {R S} (fs : list (string * Decoder R)) (gs : list (string * Decoder S)) (f : R → S) :
  (∀ k j r r', put fs r k j = Some r' → put gs (f r) k j = Some (f r')) →
  ∀ prev j r', dec_struct fs prev j = Some r' → dec_struct gs (f prev) j = Some (f r').
Proof.
  intros Hput prev [] r' Hd; try done; cbn in *; [congruence|].
  revert prev Hd. induction fields as [|[k j] kvs IH]; intros prev Hd; cbn in *; [congruence|].
  change (foldl (dec_field fs) (put fs prev k j) kvs = Some r') in Hd.
  change (foldl (dec_field gs) (put gs (f prev) k j) kvs = Some (f r')).
  destruct (put fs prev k j) as [r|] eqn:E; [|by rewrite dec_fields_None in Hd].
  rewrite (Hput _ _ _ _ E). auto.
Qed.
End decode_lemmas.

(** Case analysis on the field a key is decoded into. *)
Ltac key_cases k :=
  unfold put, field_of; cbn [find_first fst snd fmap option_fmap option_map];
  repeat match goal with
    | |- context [String.eqb ?n k] => destruct (String.eqb_spec n k); [subst k|]
    end;
  cbn [fst snd];
  repeat match goal with
    | |- context [EqualFold ?a ?b] =>
        first [ let v := eval vm_compute in (EqualFold a b) in
                match v with true => idtac | false => idtac end; change (EqualFold a b) with v
              | destruct (EqualFold a b) ]; cbn [fst snd fmap option_fmap option_map]
    end.

(** A field was set: the value it got, and the same value in the other struct. *)
Ltac put_solve :=
  cbn; unfold lens; intros; simplify_option_eq; cbn;
  repeat match goal with H : ?d _ _ = Some _ |- _ => rewrite H; clear H end; try done.

Section block_lemmas.
Context `{GoLib}.

Lemma info_of_block (j : json) b :
  dec_struct block_fields zero_block j = Some b →
  dec_struct info_fields (mkInfo "" "") j = Some (mkInfo (bl_Type b) (bl_Name b)).
Proof.
  apply (dec_struct_sim block_fields info_fields (λ b, mkInfo (bl_Type b) (bl_Name b))).
  intros k v r r'. unfold block_fields, info_fields. key_cases k; put_solve.
Qed.

Lemma evt_of_start (j : json) b :
  dec_struct start_fields zero_start j = Some b →
  dec_struct evt_fields (mkEvt "" 0) j = Some (mkEvt (bs_Type b) (bs_Index b)).
Proof.
  apply (dec_struct_sim start_fields evt_fields (λ b, mkEvt (bs_Type b) (bs_Index b))).
  intros k v r r'. unfold start_fields, evt_fields. key_cases k; put_solve.
Qed.
End block_lemmas.

(** ** The rewritten whole response *)
Section rewritten.
Context `{GoLib}.

(** The keys of an object are distinct, and a key that folds to one of [names] is
    that name. *)
Definition plain_keys (names : list string) (kvs : list (string * json)) : Prop :=
  NoDup kvs.*1 ∧ ∀ k n, k ∈ kvs.*1 → n ∈ names → EqualFold n k = true → k = n.

Lemma fields_to_map_plain kvs : NoDup kvs.*1 → fields_to_map kvs = list_to_map kvs.
Proof.
  intros Hn. unfold fields_to_map. rewrite <-(right_id_L ∅ (∪) (list_to_map kvs)).
  generalize (∅ : gmap string json). revert Hn. induction kvs as [|[k v] kvs IH]; intros Hn m; cbn.
  - by rewrite (left_id_L ∅ (∪)).
  - apply NoDup_cons in Hn as [Hk Hn]. rewrite IH by done. apply not_elem_of_list_to_map_1 in Hk.
    by rewrite <-insert_union_r, insert_union_l by done.
Qed.

Lemma fields_to_map_list (m : gmap string json) : fields_to_map (map_to_list m) = m.
Proof. rewrite fields_to_map_plain by apply NoDup_fst_map_to_list. apply list_to_map_to_list. Qed.

Definition opt_dec {A} (d : Decoder A) (a : A) (o : option json) : option A :=
  match o with Some j => d a j | None => Some a end.

Definition dec_content : Decoder (Slice Block) := dec_slice zero_block (dec_struct block_fields).

Lemma message_put r k j :
  (EqualFold "stop_reason" k = true → k = "stop_reason") → (EqualFold "content" k = true → k = "content") →
  put message_fields r k j =
    if String.eqb k "stop_reason" then (λ v, mkMessage v (Content r)) <$> dec_string (StopReason r) j
    else if String.eqb k "content" then (λ v, mkMessage (StopReason r) v) <$> dec_content (Content r) j
    else Some r.
Proof.
  intros H1 H2. rewrite !(String.eqb_sym k).
  unfold put, field_of, message_fields. cbn [find_first fst snd].
  destruct (String.eqb_spec "stop_reason" k) as [<-|N1]; [done|].
  destruct (String.eqb_spec "content" k) as [<-|N2]; [done|].
  destruct (EqualFold "stop_reason" k); [by destruct N1; symmetry; auto|].
  by destruct (EqualFold "content" k); [destruct N2; symmetry; auto|].
Qed.

Lemma dec_message_plain kvs r :
  plain_keys ["stop_reason"; "content"] kvs →
  dec_struct message_fields r (JObject kvs)
  = s ← opt_dec dec_string (StopReason r) ((list_to_map kvs : gmap string json) !! "stop_reason");
    c ← opt_dec dec_content (Content r) ((list_to_map kvs : gmap string json) !! "content");
    Some (mkMessage s c).
Proof.
  intros [Hn Hp]. cbn [dec_struct]. revert r Hn Hp. induction kvs as [|[k j] kvs IH]; intros r Hn Hp.
  { by destruct r. }
  apply NoDup_cons in Hn as [Hk Hn].
  change (foldl (dec_field message_fields) (put message_fields r k j) kvs = 
    s ← opt_dec dec_string (StopReason r) (<[k:=j]> (list_to_map kvs : gmap string json) !! "stop_reason");
    c ← opt_dec dec_content (Content r) (<[k:=j]> (list_to_map kvs : gmap string json) !! "content");
    Some (mkMessage s c)).
  rewrite message_put by (intros; eapply Hp; [by left| |done]; set_solver).
  assert (Hp' : ∀ k n, k ∈ kvs.*1 → n ∈ ["stop_reason"; "content"] → EqualFold n k = true → k = n)
    by (intros; eapply Hp; [by right|done..]).
  apply not_elem_of_list_to_map_1 in Hk. cbn [fst] in Hk.
  destruct (String.eqb_spec k "stop_reason") as [->|N1]; [|destruct (String.eqb_spec k "content") as [->|N2]].
  - rewrite lookup_insert_eq, lookup_insert_ne by done. cbn [opt_dec].
    destruct (dec_string _ _); cbn; [|by rewrite dec_fields_None].
    rewrite IH by done. by rewrite Hk.
  - rewrite lookup_insert_eq, lookup_insert_ne by done. cbn [opt_dec].
    destruct (dec_content _ _) as [c|] eqn:Hc; cbn.
    + rewrite IH by done. cbn. by rewrite Hk.
    + rewrite dec_fields_None. by destruct (opt_dec _ _ _).
  - rewrite !lookup_insert_ne by done. by apply IH.
Qed.

Definition dec_block : json → option Block := dec_struct block_fields zero_block.

Lemma dec_elems_fresh js : dec_elems zero_block (dec_struct block_fields) [] js = mapM dec_block js.
Proof. induction js as [|j js IH]; [done|]. cbn. by rewrite IH. Qed.

(** The calls of one block. *)
Definition block_call (b : Block) : option ToolCall :=
  if String.eqb (bl_Type b) "tool_use" then Some (mkToolCall (bl_ID b) (bl_Name b) (bl_Input b)) else None.

Lemma dec_content_fresh cj bs :
  (elements <$> dec_content nil_slice cj) = Some bs ↔ ∃ js, dec_list cj = Some js ∧ mapM dec_block js = Some bs.
Proof.
  unfold dec_content, dec_slice. destruct cj as [| | | |[|j js]|]; cbn -[mapM dec_elems]; try naive_solver.
  rewrite dec_elems_fresh. split.
  - intros (s & (xs & Hx & [= <-])%bind_Some & Hs)%fmap_Some. exists (j :: js). split; [done|].
    rewrite Hx. f_equal. pose proof (length_mapM _ _ _ Hx) as Hl. 
    rewrite Hs. unfold elements; cbn [len backing]. rewrite app_nil_r. cbn in Hl. by rewrite take_ge by (cbn; lia).
  - intros (js' & [= <-] & Hx). rewrite Hx. cbn. f_equal. unfold elements; cbn [len backing].
    pose proof (length_mapM _ _ _ Hx) as Hl. rewrite app_nil_r, take_ge; [done|cbn in *; lia].
Qed.

Lemma rewrite_block_dec blocked j b :
  dec_block j = Some b →
  let hit := String.eqb (bl_Type b) "tool_use" && bool_decide (bl_Name b ∈ blocked) in
  dec_block (rewrite_block blocked j).1 = Some (if hit then mkBlock "text" "" "" None else b)
  ∧ (rewrite_block blocked j).2 = String.eqb (bl_Type b) "tool_use" && negb hit.
Proof.
  intros Hb. unfold rewrite_block. rewrite (info_of_block _ _ Hb). cbn [in_Type in_Name].
  destruct (String.eqb (bl_Type b) "tool_use" && bool_decide (bl_Name b ∈ blocked)) eqn:E; cbn [fst snd negb].
  - by rewrite andb_false_r.
  - by rewrite andb_true_r.
Qed.

Definition kept_call (blocked : gset string) (c : ToolCall) : bool := negb (bool_decide (Name c ∈ blocked)).

Lemma rewrite_blocks blocked js bs :
  mapM dec_block js = Some bs →
  ∃ bs', mapM dec_block (fst <$> (rewrite_block blocked <$> js)) = Some bs'
       ∧ omap block_call bs' = List.filter (kept_call blocked) (omap block_call bs)
       ∧ existsb snd (rewrite_block blocked <$> js)
         = negb (length (List.filter (kept_call blocked) (omap block_call bs)) =? 0).
Proof.
  revert bs. induction js as [|j js IH]; intros bs Hm.
  { injection Hm as <-. by exists []. }
  apply mapM_Some in Hm. apply Forall2_cons_inv_l in Hm as (b & bs0 & Hb & Hbs & ->).
  destruct (IH bs0) as (bs' & Hm' & Hc & He); [by apply mapM_Some|].
  destruct (rewrite_block_dec blocked j b Hb) as [Hb' Hr].
  exists ((if String.eqb (bl_Type b) "tool_use" && bool_decide (bl_Name b ∈ blocked)
           then mkBlock "text" "" "" None else b) :: bs').
  split; [|split].
  - apply mapM_Some in Hm'. apply mapM_Some. by constructor.
  - assert (Hcb : block_call b = if String.eqb (bl_Type b) "tool_use"
                                 then Some (mkToolCall (bl_ID b) (bl_Name b) (bl_Input b)) else None) by done.
    destruct (String.eqb (bl_Type b) "tool_use"); cbn; [|by rewrite Hcb].
    destruct (bool_decide (bl_Name b ∈ blocked)) eqn:Hd; cbn; rewrite Hcb; cbn; unfold kept_call at 1; cbn;
      rewrite Hd; cbn; [done|by rewrite Hc].
  - cbn [fmap list_fmap existsb]. rewrite Hr, He. cbn.
    assert (Hcb : block_call b = if String.eqb (bl_Type b) "tool_use"
                                 then Some (mkToolCall (bl_ID b) (bl_Name b) (bl_Input b)) else None) by done.
    rewrite Hcb. destruct (String.eqb (bl_Type b) "tool_use"); cbn; [|done].
    unfold kept_call at 2. cbn. by destruct (bool_decide (bl_Name b ∈ blocked)).
Qed.

Lemma extract_plain kvs bs cj :
  plain_keys ["stop_reason"; "content"] kvs →
  (list_to_map kvs : gmap string json) !! "content" = Some cj →
  (elements <$> dec_content nil_slice cj) = Some bs →
  ∀ s, opt_dec dec_string "" ((list_to_map kvs : gmap string json) !! "stop_reason") = Some s →
  extractAnthropicToolCalls (Some (JObject kvs)) = if String.eqb s "tool_use" then omap block_call bs else [].
Proof.
  intros Hp Hc (sl & Hsl & ->)%fmap_Some s Hs. unfold extractAnthropicToolCalls.
  cbn [mbind option_bind]. rewrite (dec_message_plain kvs zero_message Hp), Hc. cbn [zero_message StopReason Content].
  rewrite Hs. cbn [mbind option_bind opt_dec]. rewrite Hsl. cbn. by destruct (String.eqb s "tool_use").
Qed.

Lemma rewrite_anthropic kvs blocked js cj bs :
  plain_keys ["stop_reason"; "content"] kvs →
  (list_to_map kvs : gmap string json) !! "content" = Some cj →
  dec_list cj = Some js → mapM dec_block js = Some bs →
  opt_dec dec_string "" ((list_to_map kvs : gmap string json) !! "stop_reason") = Some "tool_use" →
  ∃ j', rewriteAnthropicResponse (Some (JObject kvs)) blocked = Some j'
      ∧ extractAnthropicToolCalls (Some j') = List.filter (kept_call blocked) (omap block_call bs).
Proof.
  intros Hp Hc Hl Hm Hs. pose proof Hp as [Hn Hf]. unfold rewriteAnthropicResponse.
  cbn [mbind option_bind dec_map]. rewrite fields_to_map_plain by done. rewrite Hc. cbn [option_bind].
  cbn [mbind option_bind]. rewrite Hl. cbn [mbind option_bind].
  destruct (rewrite_blocks blocked js bs Hm) as (bs' & Hm' & Hcalls & He). rewrite He.
  remember (negb (length (List.filter (kept_call blocked) (omap block_call bs)) =? 0)) as z eqn:Hz.
  set (new := fst <$> (rewrite_block blocked <$> js)) in *.
  set (resp := <["content":=appended_json new]> (list_to_map kvs : gmap string json)).
  eexists; split; [reflexivity|].
  set (resp' := if z then resp else _).
  assert (Hp' : plain_keys ["stop_reason"; "content"] (map_to_list resp')).
  { split; [apply NoDup_fst_map_to_list|]. intros k n (kv & -> & Hk)%list_elem_of_fmap Hin Hfold.
    destruct kv as [k v]; cbn [fst] in *. apply elem_of_map_to_list in Hk.
    destruct (decide (k = "stop_reason")) as [->|N1]; [|destruct (decide (k = "content")) as [->|N2]].
    - repeat (apply elem_of_cons in Hin as [->|Hin]); [done|by vm_compute in Hfold|by apply elem_of_nil in Hin].
    - repeat (apply elem_of_cons in Hin as [->|Hin]); [by vm_compute in Hfold|done|by apply elem_of_nil in Hin].
    - assert (Hk' : (list_to_map kvs : gmap string json) !! k = Some v).
      { revert Hk. subst resp'. destruct z; subst resp; rewrite ?lookup_insert_ne by done; done. }
      apply elem_of_list_to_map_2 in Hk'. eapply Hf; [|done|done]. apply list_elem_of_fmap. by exists (k, v). }
  assert (Hc' : (list_to_map (map_to_list resp') : gmap string json) !! "content" = Some (appended_json new)).
  { rewrite list_to_map_to_list. subst resp'. destruct z; subst resp;
      rewrite ?lookup_insert_ne, lookup_insert_eq by done; done. }
  assert (Hb' : (elements <$> dec_content nil_slice (appended_json new)) = Some bs').
  { apply dec_content_fresh. exists new. split; [by destruct new|done]. }
  unfold map_json. destruct z.
  - rewrite (extract_plain _ _ _ Hp' Hc' Hb' "tool_use"); [done|].
    rewrite list_to_map_to_list. subst resp' resp. by rewrite lookup_insert_ne by done.
  - rewrite (extract_plain _ _ _ Hp' Hc' Hb' "end_turn").
    + symmetry in Hz. apply negb_false_iff, Nat.eqb_eq in Hz. by apply nil_length_inv in Hz as ->.
    + rewrite list_to_map_to_list. subst resp'. by rewrite lookup_insert_eq.
Qed.

Lemma extract_nonempty kvs :
  plain_keys ["stop_reason"; "content"] kvs → extractAnthropicToolCalls (Some (JObject kvs)) ≠ [] →
  ∃ cj js bs, (list_to_map kvs : gmap string json) !! "content" = Some cj ∧ dec_list cj = Some js
            ∧ mapM dec_block js = Some bs
            ∧ opt_dec dec_string "" ((list_to_map kvs : gmap string json) !! "stop_reason") = Some "tool_use"
            ∧ extractAnthropicToolCalls (Some (JObject kvs)) = omap block_call bs.
Proof.
  intros Hp. unfold extractAnthropicToolCalls. cbn [mbind option_bind].
  rewrite (dec_message_plain kvs zero_message Hp).
  destruct (opt_dec dec_string _ _) as [s|] eqn:Hs; cbn [mbind option_bind]; [|cbn; congruence].
  destruct (opt_dec dec_content _ _) as [sl|] eqn:Hc; cbn [mbind option_bind]; [|cbn; congruence]. cbn [StopReason Content].
  destruct (String.eqb_spec s "tool_use") as [->|]; cbn [negb]; [|congruence].
  destruct ((list_to_map kvs : gmap string json) !! "content") as [cj|] eqn:Hl; cbn [opt_dec] in Hc.
  2: { injection Hc as <-. cbn. congruence. }
  intros _. destruct (proj1 (dec_content_fresh cj (elements sl))) as (js & Hj & Hm).
  { change nil_slice with (Content zero_message). by rewrite Hc. }
  by exists cj, js, (elements sl).
Qed.
End rewritten.

Section response.
Context `{GoLib, PathLib, JsonLib} {L : Type} `{!RateLimiter L}.
Context (policy : option McpPolicy.SandboxMCPConfig) (versionPinCfg : option VersionPin).

(** The tools an event list reports as blocked. *)
Definition blocked_tools (evs : list InterceptEvent) : gset string :=
  list_to_set (ev_Tool <$> List.filter (λ ev, String.eqb (ev_Action ev) "block") evs).

Lemma intercept_call_event reg (st : Mcp (L := L)) requestID call now ev blocked :
  (intercept_call policy versionPinCfg reg st requestID call now).2 = Some (ev, blocked) →
  ev_Tool ev = Name call ∧ String.eqb (ev_Action ev) "block" = blocked.
Proof.
  unfold intercept_call. destruct (ToolRegistry.Lookup reg (Name call)); [|done].
  destruct (check_cross _ _ _ _ _ _) as [st1 c]. destruct (match c with Some _ => _ | None => _ end) as [st2 d].
  cbn. intros [= <- <-]. cbn. split; [done|]. by destruct (Allowed _).
Qed.

Lemma intercept_loop_names reg (st : Mcp (L := L)) requestID clock i calls :
  (intercept_loop policy versionPinCfg reg st requestID clock i calls).2
  = blocked_tools (intercept_loop policy versionPinCfg reg st requestID clock i calls).1.2.
Proof.
  revert st i. induction calls as [|call calls IH]; intros st i; [done|]. cbn.
  pose proof (intercept_call_event reg st requestID call (clock i)) as Hev.
  destruct (intercept_call _ _ _ _ _ _ _) as [st1 res]. specialize (IH st1 (S i)).
  destruct (intercept_loop _ _ _ _ _ _ _ _) as [[st2 evs] names]. cbn [fst snd] in *.
  destruct res as [[ev blocked]|]; [|done]. destruct (Hev ev blocked eq_refl) as [Ht Ha]. cbn.
  subst names. unfold blocked_tools at 2. cbn. rewrite Ha. destruct blocked; [|done]. cbn. by rewrite Ht.
Qed.

Lemma filter_always {A} (p : A → bool) l : (∀ x, p x = true) → List.filter p l = l.
Proof. intros Hp. apply filter_all, Forall_forall. auto. Qed.

Lemma anthropic_response_aux (st : Mcp (L := L)) kvs requestID clock :
  plain_keys ["stop_reason"; "content"] kvs →
  let body := Some (JObject kvs) in
  let res := (interceptMCPToolCalls policy versionPinCfg st body DialectAnthropic requestID clock).2 in
  extractAnthropicToolCalls (client_body body res)
  = List.filter (kept_call (blocked_tools (Events res))) (extractAnthropicToolCalls body).
Proof.
  intros Hp body res. subst res. unfold interceptMCPToolCalls. destruct (registry st) as [reg|].
  2: { cbn. by rewrite filter_always. }
  cbn [ExtractToolCalls]. destruct (length _ =? 0) eqn:Hlen.
  { apply Nat.eqb_eq, nil_length_inv in Hlen. cbn. by rewrite Hlen. }
  apply Nat.eqb_neq in Hlen.
  destruct (extract_nonempty kvs Hp) as (cj & js & bs & Hc & Hl & Hm & Hs & Hx).
  { subst body. by intros Hz; rewrite Hz in Hlen. }
  pose proof (intercept_loop_names reg st requestID clock 0 (extractAnthropicToolCalls body)) as Hn.
  destruct (intercept_loop _ _ _ _ _ _ _ _) as [[st' evs] names]. cbn [fst snd Events RewrittenBody HasBlocked] in *.
  rewrite <-Hn. unfold client_body. cbn [RewrittenBody HasBlocked]. case_bool_decide as Hz; cbn [negb].
  - subst body. rewrite filter_always; [done|]. intros c. unfold kept_call. rewrite Hz.
    rewrite bool_decide_false; [done|set_solver].
  - subst body. destruct (rewrite_anthropic kvs names js cj bs Hp Hc Hl Hm Hs) as (j' & -> & Hj). by rewrite Hj, Hx.
Qed.
End response.

(** ** The Anthropic stream *)
Section stream.
Context `{GoLib, PathLib, JsonLib} {L : Type} `{!RateLimiter L}.
Context (policy : option McpPolicy.SandboxMCPConfig) (versionPinCfg : option VersionPin).
Context (clock : nat → Z) (requestID : string).

(** The JSON value of a line, and the tool call it starts, as
    [extractAnthropicSSEToolCalls] reads it (with the index the interceptor also
    reads). *)
Definition out_value (o : OutLine) : option json :=
  match o with OutRaw l => d ← extractSSEData l; json_Unmarshal d | OutData v => Some v end.

Definition line_call (o : OutLine) : option ToolCall :=
  v ← out_value o; b ← dec_struct start_fields zero_start v;
  if String.eqb (bs_Type b) "content_block_start" && String.eqb (bl_Type (bs_Block b)) "tool_use"
  then Some (mkToolCall (bl_ID (bs_Block b)) (bl_Name (bs_Block b)) None) else None.

(** The specification: each call is evaluated, in order; a call passes when its tool
    is not registered or when it is allowed. *)
Record Evaluated := mkEvaluated {
  e_mcp : Mcp (L := L); e_tick : nat; e_events : list InterceptEvent; e_passed : list ToolCall }.

Definition evaluate_call (m : Mcp (L := L)) (t : nat) (c : ToolCall) : Evaluated :=
  let '(m', res) := lookupAndEvaluate policy versionPinCfg m (Name c) (ID c) requestID (clock t) in
  match res with
  | None => mkEvaluated m' (S t) [] [c]
  | Some (entry, d, cross) =>
      if Allowed d then mkEvaluated m' (S t) [sse_event (Name c) (ID c) "allow" (Reason d) entry None] [c]
      else mkEvaluated m' (S t) [sse_event (Name c) (ID c) "block" (Reason d) entry cross] []
  end.

Fixpoint evaluate_calls (m : Mcp (L := L)) (t : nat) (calls : list ToolCall) : Evaluated :=
  match calls with
  | [] => mkEvaluated m t [] []
  | c :: calls =>
      let e := evaluate_call m t c in
      let e' := evaluate_calls (e_mcp e) (e_tick e) calls in
      mkEvaluated (e_mcp e') (e_tick e') (e_events e ++ e_events e') (e_passed e ++ e_passed e')
  end.

Lemma evaluate_calls_app m t c1 c2 :
  evaluate_calls m t (c1 ++ c2) =
  let e := evaluate_calls m t c1 in
  let e' := evaluate_calls (e_mcp e) (e_tick e) c2 in
  mkEvaluated (e_mcp e') (e_tick e') (e_events e ++ e_events e') (e_passed e ++ e_passed e').
Proof.
  revert m t. induction c1 as [|c c1 IH]; intros m t; cbn; [by destruct (evaluate_calls m t c2)|].
  rewrite IH. cbn. by rewrite !app_assoc.
Qed.

(** The object of a data line names its type plainly, and its delta is not [null]. *)
Definition plain_line (line : string) : Prop :=
  ∀ data kvs, extractSSEData line = Some data → json_Unmarshal data = Some (JObject kvs) →
  plain_keys ["type"] kvs ∧ ("delta", JNull) ∉ kvs.

Lemma evt_put r k j r' :
  (EqualFold "type" k = true → k = "type") → put evt_fields r k j = Some r' →
  if String.eqb k "type" then dec_string (evt_Type r) j = Some (evt_Type r') else evt_Type r' = evt_Type r.
Proof.
  intros Hk. rewrite (String.eqb_sym k). unfold evt_fields.
  destruct (String.eqb_spec "type" k) as [<-|N].
  - cbn. unfold lens. intros (v & Hv & ->)%fmap_Some. done.
  - destruct (EqualFold "type" k) eqn:Hf; [by destruct N; symmetry; auto|].
    unfold put, field_of. cbn [find_first fst snd]. destruct (String.eqb_spec "type" k); [done|]. rewrite Hf.
    destruct (String.eqb "index" k), (EqualFold "index" k); cbn; unfold lens; intros Hx; simplify_option_eq; done.
Qed.

Lemma evt_type_plain kvs r e :
  plain_keys ["type"] kvs → dec_struct evt_fields r (JObject kvs) = Some e →
  opt_dec dec_string (evt_Type r) ((list_to_map kvs : gmap string json) !! "type") = Some (evt_Type e).
Proof.
  intros [Hn Hp] Hd. cbn [dec_struct] in Hd. revert r Hn Hp Hd.
  induction kvs as [|[k j] kvs IH]; intros r Hn Hp Hd; [by injection Hd as <-|].
  apply NoDup_cons in Hn as [Hk Hn]. apply not_elem_of_list_to_map_1 in Hk. cbn [fst] in Hk.
  change (foldl (dec_field evt_fields) (put evt_fields r k j) kvs = Some e) in Hd.
  change (opt_dec dec_string (evt_Type r) (<[k:=j]> (list_to_map kvs : gmap string json) !! "type") = Some (evt_Type e)).
  destruct (put evt_fields r k j) as [r'|] eqn:Hput; [|by rewrite dec_fields_None in Hd].
  apply evt_put in Hput; [|intros; eapply Hp; [by left|set_solver|done]].
  apply IH in Hd; [|done|intros; eapply Hp; [by right|done..]].
  destruct (String.eqb_spec k "type") as [->|N].
  - rewrite lookup_insert_eq. cbn [opt_dec]. rewrite Hk in Hd. cbn in Hd. congruence.
  - rewrite lookup_insert_ne by done. by rewrite <-Hput.
Qed.

Lemma line_call_typed o v e :
  out_value o = Some v → dec_struct evt_fields (mkEvt "" 0) v = Some e →
  evt_Type e ≠ "content_block_start" → line_call o = None.
Proof.
  intros Hv He Ht. unfold line_call. rewrite Hv. cbn [mbind option_bind].
  destruct (dec_struct start_fields zero_start v) as [b|] eqn:Hb; cbn; [|done].
  apply evt_of_start in Hb. rewrite He in Hb. injection Hb as ->. cbn in Ht.
  by destruct (String.eqb_spec (bs_Type b) "content_block_start").
Qed.

Lemma raw_not_data l : extractSSEData l = None → line_call (OutRaw l) = None.
Proof. intros Hl. unfold line_call, out_value. by rewrite Hl. Qed.

Lemma event_line_call e : HasPrefix e "event:" = true → line_call (OutRaw e) = None.
Proof.
  intros He. apply raw_not_data. destruct e as [|c e]; [done|].
  destruct (decide (c = "e"%char)) as [->|N]; [reflexivity|].
  unfold HasPrefix in He. cbn -[ascii_dec] in He. by destruct (ascii_dec "e" c) as [<-|].
Qed.

Lemma text_block_no_call index tool : omap line_call (emitAnthropicTextBlock index tool) = [].
Proof.
  unfold emitAnthropicTextBlock, number. generalize (pretty index) (blocked_message tool). intros n msg.
  lazy -[ParseInt64]. by destruct (ParseInt64 n).
Qed.

Lemma list_to_map_absent (kvs : list (string * json)) k v :
  NoDup kvs.*1 → (k, v) ∉ kvs → (list_to_map kvs : gmap string json) !! k ≠ Some v.
Proof. intros Hn Hk Hl. by apply elem_of_list_to_map_2 in Hl. Qed.

(** The rewritten [message_delta] is there, and is not a tool call. *)
Lemma stop_reason_no_call line data kvs e :
  plain_line line → extractSSEData line = Some data → json_Unmarshal data = Some (JObject kvs) →
  dec_struct evt_fields (mkEvt "" 0) (JObject kvs) = Some e → evt_Type e ≠ "content_block_start" →
  ∃ o, rewriteAnthropicStopReason data = Some o ∧ line_call o = None.
Proof.
  intros Hpl Hx Hj He Ht. destruct (Hpl data kvs Hx Hj) as [Hp Hnull]. pose proof Hp as [Hn Hfold].
  assert (Hraw : line_call (OutRaw ("data: " +:+ data)) = None).
  { apply (line_call_typed _ (JObject kvs) e); [|done..]. rewrite <-Hj. unfold out_value.
    by destruct data. }
  unfold rewriteAnthropicStopReason. rewrite Hj. cbn [mbind option_bind dec_map].
  rewrite fields_to_map_plain by done.
  pose proof (list_to_map_absent kvs "delta" JNull Hn Hnull) as Hnd.
  destruct ((list_to_map kvs : gmap string json) !! "delta") as [dj|]; [|by eexists].
  destruct dj as [| | | | |dk]; [done|by eexists..|]. eexists; split; [reflexivity|].
  set (m' := <["delta":=_]> _).
  assert (Hp' : plain_keys ["type"] (map_to_list m')).
  { split; [apply NoDup_fst_map_to_list|]. intros k n ([k' v] & -> & Hk)%list_elem_of_fmap ->%list_elem_of_singleton Hf.
    cbn [fst] in *. apply elem_of_map_to_list in Hk. destruct (decide (k' = "delta")) as [->|N]; [by vm_compute in Hf|].
    subst m'. rewrite lookup_insert_ne in Hk by done. apply elem_of_list_to_map_2 in Hk.
    eapply Hfold; [|set_solver|done]. apply list_elem_of_fmap. by exists (k', v). }
  destruct (dec_struct evt_fields (mkEvt "" 0) (map_json m')) as [e'|] eqn:He'.
  - apply (line_call_typed _ (map_json m') e'); [done..|].
    pose proof (evt_type_plain _ _ _ Hp' He') as Ht'. pose proof (evt_type_plain _ _ _ Hp He) as Ht0.
    rewrite list_to_map_to_list in Ht'. subst m'. rewrite lookup_insert_ne in Ht' by done. congruence.
  - unfold line_call, out_value. cbn [mbind option_bind].
    destruct (dec_struct start_fields zero_start (map_json m')) as [b|] eqn:Hb; [|done].
    apply evt_of_start in Hb. congruence.
Qed.

Lemma evaluate_one m t c : evaluate_calls m t (option_list (Some c)) = evaluate_call m t c.
Proof. cbn. rewrite !app_nil_r. by destruct (evaluate_call m t c). Qed.

Lemma omap_one o : omap line_call [o] = option_list (line_call o).
Proof. unfold omap, list_omap. by destruct (line_call o). Qed.

Lemma pass_through m t line :
  line_call (OutRaw line) = None →
  evaluate_calls m t (option_list (line_call (OutRaw line)))
  = mkEvaluated m t [] (omap line_call (default [] (Some [OutRaw line]))).
Proof. intros Hc. cbn [from_option id]. by rewrite omap_one, Hc. Qed.

(** One data line: the code's state, events and output calls are the
    specification's on the call the line starts, if any. *)
Lemma process_anthropic s line data :
  plain_line line → extractSSEData line = Some data →
  ∃ s' out evs, processAnthropicEvent policy versionPinCfg clock requestID s line data = Some (s', out, evs) ∧
    evaluate_calls (sse_mcp s) (tick s) (option_list (line_call (OutRaw line))) =
    mkEvaluated (sse_mcp s') (tick s') evs (omap line_call (default [] out)).
Proof.
  intros Hpl Hx. unfold processAnthropicEvent. destruct (json_Unmarshal data) as [v|] eqn:Hj; cbn [mbind option_bind].
  2: { assert (Hc : line_call (OutRaw line) = None) by (unfold line_call, out_value; by rewrite Hx; cbn; rewrite Hj).
       do 3 eexists; split; [reflexivity|]. by apply pass_through. }
  assert (Hv : out_value (OutRaw line) = Some v) by (cbn; by rewrite Hx).
  destruct (dec_struct evt_fields (mkEvt "" 0) v) as [e|] eqn:He.
  2: { assert (Hc : line_call (OutRaw line) = None).
       { unfold line_call. rewrite Hv. cbn [mbind option_bind].
         destruct (dec_struct start_fields zero_start v) as [b|] eqn:Hb; [|done]. apply evt_of_start in Hb. congruence. }
       do 3 eexists; split; [reflexivity|]. by apply pass_through. }
  destruct (String.eqb_spec (evt_Type e) "content_block_start") as [Ht|Ht].
  - unfold handleContentBlockStart. rewrite Hj. cbn [mbind option_bind].
    assert (Hc : line_call (OutRaw line) = b ← dec_struct start_fields zero_start v;
              if String.eqb (bs_Type b) "content_block_start" && String.eqb (bl_Type (bs_Block b)) "tool_use"
              then Some (mkToolCall (bl_ID (bs_Block b)) (bl_Name (bs_Block b)) None) else None)
      by (unfold line_call; by rewrite Hv).
    destruct (dec_struct start_fields zero_start v) as [b|] eqn:Hb; cbn [mbind option_bind] in Hc.
    2: { do 3 eexists; split; [reflexivity|]. by apply pass_through. }
    apply evt_of_start in Hb. rewrite He in Hb. injection Hb as ->. cbn [evt_Type] in Ht.
    rewrite Ht, String.eqb_refl in Hc. cbn [andb] in Hc.
    destruct (String.eqb (bl_Type (bs_Block b)) "tool_use"); cbn [negb].
    2: { do 3 eexists; split; [reflexivity|]. by apply pass_through. }
    rewrite Hc, evaluate_one. unfold evaluate_call. cbn [Name ID sse_mcp tick].
    destruct (lookupAndEvaluate _ _ _ _ _ _ _) as [m' [[[entry d] cross]|]].
    2: { do 3 eexists; split; [reflexivity|]. cbn [from_option id]. by rewrite omap_one, Hc. }
    destruct (Allowed d); (do 3 eexists; split; [reflexivity|]); cbn [from_option id].
    + by rewrite omap_one, Hc.
    + by rewrite text_block_no_call.
  - assert (Hraw : line_call (OutRaw line) = None) by (by eapply line_call_typed).
    destruct (_ || _); [|destruct (String.eqb_spec (evt_Type e) "message_delta") as [Hmd|]].
    + do 3 eexists; split; [reflexivity|]. case_bool_decide; [by rewrite Hraw|by apply pass_through].
    + unfold handleMessageDelta. destruct (_ && _); [|do 3 eexists; split; [reflexivity|by apply pass_through]].
      destruct v as [| | | | |kvs]; try done.
      { injection He as <-. done. }
      destruct (stop_reason_no_call line data kvs e Hpl Hx Hj He Ht) as (o & -> & Ho).
      do 3 eexists; split; [reflexivity|]. cbn [from_option id]. by rewrite omap_one, Ho, Hraw.
    + do 3 eexists; split; [reflexivity|]. by apply pass_through.
Qed.

Notation stream_lines := (stream_lines (L := L) policy versionPinCfg DialectAnthropic clock requestID).

Lemma writeLine_calls client lp o :
  omap line_call (written (writeLine (L := L) client lp o)) = omap line_call (written lp) ++ option_list (line_call o).
Proof. cbn [writeLine written]. by rewrite omap_app, omap_one. Qed.

Lemma writeLines_keep client os lp :
  let lp' := foldl (writeLine (L := L) client) lp os in
  lp_sse lp' = lp_sse lp ∧ lp_events lp' = lp_events lp ∧ pendingEvent lp' = pendingEvent lp
  ∧ omap line_call (written lp') = omap line_call (written lp) ++ omap line_call os.
Proof.
  revert lp. induction os as [|o os IH]; intros lp; cbn [foldl]; [by rewrite app_nil_r|].
  destruct (IH (writeLine client lp o)) as (-> & -> & -> & ->). rewrite writeLine_calls, <-app_assoc.
  by change (o :: os) with ([o] ++ os); rewrite omap_app, omap_one.
Qed.

Definition pending_ok (lp : Loop (L := L)) : Prop := ∀ e, pendingEvent lp = Some e → HasPrefix e "event:" = true.

Lemma flush_keep client (lp : Loop (L := L)) :
  pending_ok lp →
  let lp' := flush_pending client lp in
  lp_sse lp' = lp_sse lp ∧ lp_events lp' = lp_events lp ∧ pendingEvent lp' = None
  ∧ omap line_call (written lp') = omap line_call (written lp).
Proof.
  intros Hp. unfold flush_pending, pending_ok in *. destruct (pendingEvent lp) as [e|] eqn:He; [|done].
  cbn [lp_sse lp_events pendingEvent written writeLine]. repeat split.
  by rewrite omap_app, omap_one, (event_line_call e (Hp e eq_refl)), app_nil_r.
Qed.

(** The loop's state read as the specification's. *)
Definition lp_view (lp : Loop (L := L)) : Evaluated :=
  mkEvaluated (sse_mcp (lp_sse lp)) (tick (lp_sse lp)) (lp_events lp) (omap line_call (written lp)).

Definition extend (e e' : Evaluated) : Evaluated :=
  mkEvaluated (e_mcp e') (e_tick e') (e_events e ++ e_events e') (e_passed e ++ e_passed e').

Lemma anthropic_line_view client lp line :
  plain_line line → pending_ok lp →
  ∃ lp', anthropic_line policy versionPinCfg clock requestID client lp line = Some lp' ∧ pending_ok lp' ∧
    lp_view lp' = extend (lp_view lp)
      (evaluate_calls (sse_mcp (lp_sse lp)) (tick (lp_sse lp)) (option_list (line_call (OutRaw line)))).
Proof.
  intros Hpl Hpend. unfold anthropic_line.
  assert (Hnone : ∀ lp2, line_call (OutRaw line) = None → lp_sse lp2 = lp_sse lp → lp_events lp2 = lp_events lp →
    omap line_call (written lp2) = omap line_call (written lp) →
    lp_view lp2 = extend (lp_view lp)
      (evaluate_calls (sse_mcp (lp_sse lp)) (tick (lp_sse lp)) (option_list (line_call (OutRaw line))))).
  { intros lp2 Hc E1 E2 E3. rewrite Hc. unfold lp_view, extend. cbn [option_list evaluate_calls from_option e_mcp e_tick e_events e_passed]. rewrite E1, E2, E3. by rewrite !app_nil_r. }
  destruct (suppressNextEmpty lp && String.eqb line "") eqn:Hs.
  { apply andb_true_iff in Hs as [_ ->%String.eqb_eq]. eexists; split; [reflexivity|]. split; [exact Hpend|].
    by apply Hnone. }
  destruct (extractSSEData line) as [data|] eqn:Hx.
  - destruct (process_anthropic (lp_sse lp) line data Hpl Hx) as (s' & out & evs & Hp & He).
    cbn [lp_sse set_suppress]. rewrite Hp. cbn [mbind option_bind]. eexists; split; [reflexivity|].
    rewrite He. set (lp1 := after_event _ s' evs). assert (Hpend1 : pending_ok lp1) by exact Hpend.
    destruct out as [outs|]; cbn [from_option id].
    + set (lp2 := if existsb _ outs then _ else _).
      assert (Hlp2 : lp_sse lp2 = s' ∧ lp_events lp2 = lp_events lp ++ evs ∧ pendingEvent lp2 = None
                     ∧ omap line_call (written lp2) = omap line_call (written lp)).
      { subst lp2. destruct (existsb _ outs); [done|]. by apply (flush_keep client lp1 Hpend1). }
      destruct Hlp2 as (E1 & E2 & E3 & E4). destruct (writeLines_keep client outs lp2) as (F1 & F2 & F3 & F4).
      split; [intros e; rewrite F3, E3; done|]. unfold lp_view, extend. cbn [e_mcp e_tick e_events e_passed].
      by rewrite F1, F2, F4, E1, E2, E4.
    + split; [done|]. unfold lp_view, extend. cbn. by rewrite app_nil_r.
  - eexists; split; [reflexivity|]. apply raw_not_data in Hx. destruct (HasPrefix line "event:") eqn:Hev.
    + split; [by intros e [= <-]|by apply Hnone].
    + destruct (flush_keep client (set_suppress lp false) Hpend) as (E1 & E2 & E3 & E4).
      split; [intros e; cbn [writeLine pendingEvent]; by rewrite E3|].
      apply Hnone; [done|exact E1|exact E2|]. by rewrite writeLine_calls, E4, Hx, app_nil_r.
Qed.

Lemma stream_lines_view client lines lp :
  Forall plain_line lines → pending_ok lp →
  ∃ lp' n, stream_lines client lp lines = Some lp' ∧ pending_ok lp' ∧
    (clientErr lp' = false → n = length lines) ∧
    lp_view lp' = extend (lp_view lp)
      (evaluate_calls (sse_mcp (lp_sse lp)) (tick (lp_sse lp)) (omap line_call (OutRaw <$> take n lines))).
Proof.
  revert lp. induction lines as [|line lines IH]; intros lp Hl Hp.
  { exists lp, 0. split; [done|]. split; [done|]. split; [done|]. unfold lp_view, extend. cbn. by rewrite !app_nil_r. }
  cbn [McpIntercept.stream_lines stream_line]. destruct (clientErr lp) eqn:Hcl.
  { exists lp, 0. split; [done|]. split; [done|]. split; [congruence|]. unfold lp_view, extend. cbn. by rewrite !app_nil_r. }
  apply Forall_cons in Hl as [Hline Hl].
  destruct (anthropic_line_view client lp line Hline Hp) as (lp1 & -> & Hp1 & Hv1). cbn [mbind option_bind].
  destruct (IH lp1 Hl Hp1) as (lp' & n & -> & Hp' & Hn & Hv). exists lp', (S n).
  split; [done|]. split; [done|]. split; [intros Hc; cbn; by rewrite Hn|].
  assert (Hst : sse_mcp (lp_sse lp1) = e_mcp (lp_view lp1) ∧ tick (lp_sse lp1) = e_tick (lp_view lp1)) by done.
  destruct Hst as [Hm Ht]. rewrite Hm, Ht in Hv. rewrite Hv, Hv1.
  change (OutRaw <$> take (S n) (line :: lines)) with ([OutRaw line] ++ (OutRaw <$> take n lines)).
  rewrite omap_app, omap_one, evaluate_calls_app. unfold extend. cbn [e_mcp e_tick e_events e_passed].
  by rewrite !app_assoc.
Qed.
End stream.

(** ** OpenAI chunks *)
Section chunks.
Context `{GoLib, PathLib, JsonLib} {L : Type} `{!RateLimiter L}.
Context (policy : option McpPolicy.SandboxMCPConfig) (versionPinCfg : option VersionPin).
Context (clock : nat → Z) (requestID : string).

Notation evaluate_calls := (evaluate_calls (L := L) policy versionPinCfg clock requestID).

Definition chunk_call (tc : ChunkCall) : ToolCall := mkToolCall (tc_ID tc) (fn_Name (tc_Function tc)) None.
Definition choice_calls (c : ChunkChoice) : list ChunkCall := elements (dl_ToolCalls (cc_Delta c)).
(** Some entry has an id. *)
Definition introduces (c : ChunkChoice) : bool := existsb (λ tc, negb (String.eqb (tc_ID tc) "")) (choice_calls c).

Lemma first_chunk_eval (s : Sse (L := L)) st tcs s' st' kept msgs evs :
  first_chunk_loop policy versionPinCfg clock requestID s st tcs = (s', st', kept, msgs, evs) →
  evaluate_calls (sse_mcp s) (tick s) (chunk_call <$> tcs)
    = mkEvaluated (sse_mcp s') (tick s') evs (chunk_call <$> kept)
  ∧ ct_total st' = ct_total st + length tcs ∧ ct_nblocked st' = ct_nblocked st + length msgs
  ∧ length kept + length msgs = length tcs ∧ (msgs = [] → kept = tcs).
Proof.
  revert s st s' st' kept msgs evs. induction tcs as [|tc tcs IH]; intros s st s' st' kept msgs evs Hl; cbn in Hl.
  { injection Hl as <- <- <- <- <-. cbn. repeat split; lia. }
  cbn [fmap list_fmap McpIntercept.evaluate_calls]. unfold evaluate_call. cbn [chunk_call Name ID].
  destruct (lookupAndEvaluate _ _ _ _ _ _ _) as [m [[[entry d] cross]|]]; [destruct (Allowed d)|];
    destruct (first_chunk_loop _ _ _ _ _ _ _) as [[[[s2 st2] kept2] msgs2] evs2] eqn:Hr;
    injection Hl as <- <- <- <- <-; apply IH in Hr as (He & Ht & Hn & Hk & Hz); cbn in *;
    rewrite He; cbn; repeat split; try lia; naive_solver.
Qed.

(** What one choice of a chunk becomes. *)
Definition choice_spec (s : Sse (L := L)) (choice : ChunkChoice) (s' : Sse (L := L)) (c' : ChunkChoice)
    (evs : list InterceptEvent) : Prop :=
  let t := getChoiceTracking s (cc_Index choice) in
  let t' := getChoiceTracking s' (cc_Index choice) in
  let tcs := choice_calls choice in
  match cc_FinishReason choice with
  | Some r =>
      s' = s ∧ evs = [] ∧ cc_Delta c' = cc_Delta choice ∧
      cc_FinishReason c' = Some (if (0 <? ct_total t) && (ct_nblocked t =? ct_total t) && String.eqb r "tool_calls"
                                 then "stop" else r)
  | None =>
      cc_FinishReason c' = None ∧
      if introduces choice then
        evaluate_calls (sse_mcp s) (tick s) (chunk_call <$> tcs)
          = mkEvaluated (sse_mcp s') (tick s') evs (chunk_call <$> choice_calls c')
        ∧ ct_total t' = ct_total t + length tcs
        ∧ ct_nblocked t' = ct_nblocked t + (length tcs - length (choice_calls c'))
        ∧ (choice_calls c' = [] → ∃ msg, dl_Content (cc_Delta c') = Some (JString msg))
      else
        s' = s ∧ evs = [] ∧
        choice_calls c' = List.filter (λ tc, negb (bool_decide (tc_Index tc ∈ ct_blocked t))) tcs
  end.

Lemma full_slice_elements {A} (l : list A) : elements (full_slice l) = l.
Proof. unfold elements, full_slice. cbn. by apply take_ge. Qed.

Lemma choice_calls_set c content tcs : choice_calls (set_calls c content tcs) = tcs.
Proof. apply full_slice_elements. Qed.

Lemma filter_length_eq {A} (p : A → bool) l : length (List.filter p l) = length l → List.filter p l = l.
Proof.
  induction l as [|x l IH]; [done|]. cbn. destruct (p x); cbn; [intros [= ?]; by rewrite IH|].
  pose proof (List.filter_length_le p l). lia.
Qed.

Lemma arg_chunk_spec s choice c' m :
  handleOpenAIArgChunk (L := L) s choice = (c', m) →
  cc_FinishReason c' = cc_FinishReason choice ∧
  choice_calls c' = List.filter (λ tc, negb (bool_decide
    (tc_Index tc ∈ ct_blocked (getChoiceTracking s (cc_Index choice))))) (choice_calls choice).
Proof.
  unfold handleOpenAIArgChunk, getChoiceTracking.
  destruct (openAIChoices s !! cc_Index choice) as [st|]; cbn [from_option id].
  2: { intros [= <- <-]. by rewrite filter_always. }
  case_bool_decide as He.
  { intros [= <- <-]. split; [done|]. rewrite filter_always; [done|]. intros tc. rewrite He. by rewrite bool_decide_false by set_solver. }
  cbn zeta. destruct (length _ =? length _) eqn:Hlen; intros [= <- <-].
  - apply Nat.eqb_eq in Hlen. by rewrite filter_length_eq.
  - split; [done|]. apply choice_calls_set.
Qed.

Lemma first_chunk_spec s choice s' c' m evs :
  cc_FinishReason choice = None → introduces choice = true →
  handleOpenAIFirstToolChunk policy versionPinCfg clock requestID s choice = (s', c', m, evs) →
  choice_spec s choice s' c' evs.
Proof.
  intros Hf Hi. unfold handleOpenAIFirstToolChunk, choice_spec. rewrite Hf, Hi. fold (choice_calls choice).
  destruct (first_chunk_loop _ _ _ _ _ _ _) as [[[[s1 st] kept] msgs] es] eqn:Hl.
  apply first_chunk_eval in Hl as (He & Ht & Hn & Hk & Hz).
  assert (Hne : choice_calls choice ≠ []) by (unfold introduces in Hi; by intros Hx; rewrite Hx in Hi).
  assert (Hg : ∀ b, getChoiceTracking (set_tracking s1 (cc_Index choice) b) (cc_Index choice) = b).
  { intros b. unfold getChoiceTracking, set_tracking. cbn. by rewrite lookup_insert_eq. }
  destruct (length msgs =? 0) eqn:Hm; [|destruct (length kept =? 0) eqn:Hkz]; intros [= <- <- <- <-]; rewrite Hg.
  - apply Nat.eqb_eq, nil_length_inv in Hm as ->. rewrite (Hz eq_refl) in He.
    split; [done|]. split; [exact He|]. cbn [length] in *. repeat split; [done|lia|done].
  - apply Nat.eqb_eq, nil_length_inv in Hkz as ->. rewrite choice_calls_set. cbn [set_calls cc_Delta dl_Content]. split; [done|]. split; [exact He|]. cbn [length] in *. repeat split; [done|lia|eauto].
  - rewrite choice_calls_set.
    apply Nat.eqb_neq in Hkz. split; [done|]. split; [exact He|]. cbn [length] in *. repeat split; [done|lia|by intros ->].
Qed.

Lemma process_choice_spec s choice s' c' m evs :
  process_choice policy versionPinCfg clock requestID s choice = (s', c', m, evs) → choice_spec s choice s' c' evs.
Proof.
  unfold process_choice. destruct (cc_FinishReason choice) as [r|] eqn:Hf.
  - unfold choice_spec, rewriteOpenAIFinish, getChoiceTracking. rewrite Hf.
    destruct (openAIChoices s !! cc_Index choice) as [st|]; cbn [from_option id].
    2: { intros [= <- <- <- <-]. by rewrite Hf. }
    destruct (String.eqb_spec r "tool_calls") as [->|N].
    + rewrite bool_decide_true by done. destruct (_ && _); intros [= <- <- <- <-]; by rewrite ?Hf.
    + rewrite bool_decide_false by congruence. rewrite andb_false_r. intros [= <- <- <- <-]. by rewrite Hf.
  - fold (choice_calls choice). destruct (length (choice_calls choice) =? 0) eqn:Hlen.
    { apply Nat.eqb_eq, nil_length_inv in Hlen. intros [= <- <- <- <-]. unfold choice_spec, introduces.
      by rewrite Hf, Hlen. }
    fold (introduces choice). destruct (introduces choice) eqn:Hi; [by apply first_chunk_spec|].
    destruct (handleOpenAIArgChunk s choice) as [c m0] eqn:Ha. intros [= <- <- <- <-].
    apply arg_chunk_spec in Ha as [Hf' Hc]. unfold choice_spec. rewrite Hf, Hi. by rewrite Hf', Hf.
Qed.
End chunks.

(** ** The token bucket *)
Section bucket.
Context `{Float64}.
Import RateLimit.

(** [float64] on integers up to 2^53 in absolute value is exact, zero is neutral,
    and comparison is that of the integers. *)
Definition exact_int (z : Z) : Prop := (0 ≤ z ≤ 2 ^ 53)%Z.
Class Float64Laws := {
  f_zero_div : ∀ b, (0 < b)%Z → exact_int b → f_div (f_of_Z 0) (f_of_Z b) = f_of_Z 0;
  f_zero_mul : ∀ a b, exact_int a → (0 < b)%Z → exact_int b →
    f_mul (f_of_Z 0) (f_div (f_of_Z a) (f_of_Z b)) = f_of_Z 0;
  f_add_zero : ∀ a, exact_int a → f_add (f_of_Z a) (f_of_Z 0) = f_of_Z a;
  f_sub_int : ∀ a b, exact_int a → exact_int b → (b ≤ a)%Z → f_sub (f_of_Z a) (f_of_Z b) = f_of_Z (a - b);
  f_leb_int : ∀ a b, exact_int a → exact_int b → f_leb (f_of_Z a) (f_of_Z b) = (a <=? b)%Z;
  f_ltb_int : ∀ a b, exact_int a → exact_int b → f_ltb (f_of_Z a) (f_of_Z b) = (a <? b)%Z }.

(** [n] calls for a server at one instant. *)
Fixpoint allow_run (r : RateLimiterRegistry) (server : string) (now : Z) (n : nat) : list bool :=
  match n with
  | O => []
  | S n => let '(r, ok) := registry_Allow r server now in ok :: allow_run r server now n
  end.

Definition server_limit (cfg : RateLimitsConfig) (server : string) : Z * Z :=
  match PerServer cfg !! server with Some sc => sc | None => (DefaultRPM cfg, DefaultBurst cfg) end.

Context `{!Float64Laws}.

Lemma refill_same_instant rpm b k now :
  exact_int rpm → exact_int b → exact_int k → (k ≤ b)%Z →
  refill (mkLimiter (f_div (f_of_Z rpm) (f_of_Z 60)) b (f_of_Z k) now) now = f_of_Z k.
Proof.
  intros Hr Hb Hk Hle. unfold refill, Seconds. cbn [tokens lastTime rate burst].
  rewrite Z.sub_diag. change (Z.quot 0 second) with 0%Z. change (Z.rem 0 second) with 0%Z.
  assert (E0 : exact_int 0) by (unfold exact_int; lia).
  rewrite f_zero_div, f_add_zero, f_zero_mul, f_add_zero, f_ltb_int by (done || (unfold exact_int, second in *; lia)).
  by rewrite (proj2 (Z.ltb_ge b k)) by lia.
Qed.

Lemma AllowN_same_instant rpm b k now :
  exact_int rpm → exact_int b → exact_int k → (k ≤ b)%Z →
  AllowN (mkLimiter (f_div (f_of_Z rpm) (f_of_Z 60)) b (f_of_Z k) now) 1 now
  = (mkLimiter (f_div (f_of_Z rpm) (f_of_Z 60)) b (f_of_Z (if (1 <=? k)%Z then k - 1 else k)) now, (1 <=? k)%Z).
Proof.
  intros Hr Hb Hk Hle. unfold AllowN. cbn zeta. rewrite refill_same_instant by done. cbn [rate burst].
  assert (E1 : exact_int 1) by (unfold exact_int; lia). rewrite f_leb_int by done.
  destruct (Z.leb_spec 1 k); [|done]. by rewrite f_sub_int by done.
Qed.

Lemma allow_run_bucket r server now rpm b k n :
  rl_Enabled (rl_cfg r) = true → exact_int rpm → exact_int b → exact_int k → (k ≤ b)%Z →
  getLimiter r server now = mkLimiter (f_div (f_of_Z rpm) (f_of_Z 60)) b (f_of_Z k) now →
  allow_run r server now n = repeat true (Nat.min n (Z.to_nat k)) ++ repeat false (n - Z.to_nat k).
Proof.
  intros He Hr Hb. revert r k He. induction n as [|n IH]; intros r k He Hk Hle Hg; [done|]. cbn [allow_run].
  unfold registry_Allow, registry_AllowN. rewrite He. cbn [negb]. rewrite Hg, AllowN_same_instant by done.
  rewrite (IH _ (if (1 <=? k)%Z then k - 1 else k)%Z); [|done| | |].
  - destruct (Z.leb_spec 1 k).
    + replace (Z.to_nat k) with (S (Z.to_nat (k - 1))) by lia. done.
    + replace (Z.to_nat k) with 0 by (unfold exact_int in *; lia). rewrite Nat.min_0_r, !Nat.sub_0_r. by destruct n.
  - unfold exact_int in *. destruct (Z.leb_spec 1 k); lia.
  - destruct (Z.leb_spec 1 k); lia.
  - unfold getLimiter. cbn [limiters]. by rewrite lookup_insert_eq.
Qed.

Lemma burst_exact_aux r server now rpm b n :
  rl_Enabled (rl_cfg r) = true → limiters r !! server = None → server_limit (rl_cfg r) server = (rpm, b) →
  exact_int rpm → exact_int b →
  allow_run r server now n = repeat true (Nat.min n (Z.to_nat b)) ++ repeat false (n - Z.to_nat b).
Proof.
  intros He Hl Hs Hr Hb. apply (allow_run_bucket r server now rpm b b n); try done; try lia.
  unfold getLimiter. rewrite Hl. unfold server_limit in Hs. by rewrite Hs.
Qed.
End bucket.

(** ** Claims *)

(** Whole responses and event streams decide alike: on the same registry,
    analyzer, limiter, policy and call, [interceptMCPToolCalls] and
    [lookupAndEvaluate] leave the same state and agree on whether the tool is
    registered, on the verdict, on the reason of a block and on the cross-server
    details. *)
Theorem paths_agree `{GoLib, PathLib, JsonLib} {L : Type} `{!RateLimiter L} policy versionPinCfg
    reg (st : Mcp (L := L)) requestID call now :
  registry st = Some reg →
  (intercept_call policy versionPinCfg reg st requestID call now).1
    = (lookupAndEvaluate policy versionPinCfg st (Name call) (ID call) requestID now).1
  ∧ same_report (intercept_call policy versionPinCfg reg st requestID call now).2
      (lookupAndEvaluate policy versionPinCfg st (Name call) (ID call) requestID now).2.
Proof. apply paths_agree_aux. Qed.

(** C29. What the client can call after a whole Anthropic response was intercepted:
    the tool calls read from the body that is passed on are exactly those of the
    upstream body whose tool no event reports as blocked, in order and unchanged,
    provided the keys of the body are distinct and spell [content] and [stop_reason]
    exactly; a body with another spelling is passed on ([folded_key_passes]). *)
Theorem anthropic_response_filtered `{GoLib, PathLib, JsonLib} {L : Type} `{!RateLimiter L} policy versionPinCfg
    (st : Mcp (L := L)) kvs requestID clock :
  plain_keys ["stop_reason"; "content"] kvs →
  let body := Some (JObject kvs) in
  let res := (interceptMCPToolCalls policy versionPinCfg st body DialectAnthropic requestID clock).2 in
  extractAnthropicToolCalls (client_body body res)
  = List.filter (kept_call (blocked_tools (Events res))) (extractAnthropicToolCalls body).
Proof. apply anthropic_response_aux. Qed.

(** C6. The Anthropic event stream refines evaluation of its tool calls one by one, for
    streams whose data lines spell the key [type] exactly, repeat no key and have no [null]
    delta, on which the code can panic ([null_delta_panics]): the stream ends; the first [n] lines are processed, all of them
    unless a write to the client failed; the events and the final registry, analyzer
    and limiter are those of evaluating the calls of these lines in order; and the
    tool calls in the lines written are exactly the calls that passed. *)
Theorem anthropic_stream_evaluated `{GoLib, PathLib, JsonLib} {L : Type} `{!RateLimiter L} policy versionPinCfg
    clock requestID client (m : Mcp (L := L)) lines :
  Forall plain_line lines →
  ∃ lp n, Stream policy versionPinCfg DialectAnthropic clock requestID client m lines = Some lp ∧
    (clientErr lp = false → n = length lines) ∧
    let e := evaluate_calls policy versionPinCfg clock requestID m 0 (omap line_call (OutRaw <$> take n lines)) in
    sse_mcp (lp_sse lp) = e_mcp e ∧ lp_events lp = e_events e ∧ omap line_call (written lp) = e_passed e.
Proof.
  intros Hl. unfold Stream.
  destruct (stream_lines_view policy versionPinCfg clock requestID client lines
    (mkLoop (NewSSEInterceptor m) None false [] [] false) Hl) as (lp & n & -> & Hp & Hn & Hv); [done|].
  cbn [mbind option_bind]. assert (Hlast : (if clientErr lp then lp else flush_pending client lp) = lp
    ∨ clientErr lp = false ∧ (if clientErr lp then lp else flush_pending client lp) = flush_pending client lp)
    by (destruct (clientErr lp); auto).
  destruct (flush_keep client lp Hp) as (E1 & E2 & _ & E4).
  eexists _, n. split; [reflexivity|]. unfold lp_view, extend in Hv. cbn in Hv. injection Hv as V1 V2 V3 V4.
  destruct Hlast as [->|[Hc ->]]; [done|]. split; [by intros _; apply Hn|]. by rewrite E1, E2, E4.
Qed.

(** One choice of an OpenAI chunk: entries that introduce calls are evaluated one
    by one and exactly the calls that pass remain, the choice's counters grow by the
    calls seen and the calls removed, and a choice left with none carries a message;
    argument entries of blocked calls are removed, the others kept; a final
    [tool_calls] becomes [stop] exactly when every call of the choice was blocked. *)
Theorem openai_choice_filtered `{GoLib, PathLib, JsonLib} {L : Type} `{!RateLimiter L} policy versionPinCfg
    clock requestID (s : Sse (L := L)) choice :
  let '(s', c', m, evs) := process_choice policy versionPinCfg clock requestID s choice in
  choice_spec policy versionPinCfg clock requestID s choice s' c' evs.
Proof.
  destruct (process_choice _ _ _ _ _ _) as [[[s' c'] m] evs] eqn:Hp. by apply process_choice_spec in Hp.
Qed.

(** A server's bucket admits its burst and no more: of [n] calls at one instant to
    a server with no bucket yet, the first [burst] are allowed and the others are not,
    for limits a [float64] holds exactly. *)
Theorem burst_exact `{Float64, !Float64Laws} r server now rpm b n :
  RateLimit.rl_Enabled (RateLimit.rl_cfg r) = true → RateLimit.limiters r !! server = None →
  server_limit (RateLimit.rl_cfg r) server = (rpm, b) → exact_int rpm → exact_int b →
  allow_run r server now n = repeat true (Nat.min n (Z.to_nat b)) ++ repeat false (n - Z.to_nat b).
Proof. apply burst_exact_aux. Qed.

(** ** Concrete runs *)

(** [plain_keys] of a concrete object. *)
Ltac plain_solve :=
  split; [apply (bool_decide_unpack _); vm_compute; exact I|];
  intros k n Hk Hn Hf;
  repeat (apply elem_of_cons in Hn as [->|Hn]); try (by apply elem_of_nil in Hn);
  repeat (apply elem_of_cons in Hk as [->|Hk]; [first [reflexivity|vm_compute in Hf; discriminate]|]);
  by apply elem_of_nil in Hk.

Module InterceptSample.
#[local] Existing Instance ascii_go.
(** Patterns are literal; the JSON texts used are named by short strings. *)
#[local] Instance literal_path : PathLib := {| path_Match p s := Some (String.eqb p s) |}.

Definition start_event (index id name : string) : json :=
  JObject [("type", JString "content_block_start"); ("index", JNumber index);
           ("content_block", JObject [("type", JString "tool_use"); ("id", JString id); ("name", JString name)])].
Definition chunk (finish : json) (id name : string) : json :=
  JObject [("id", JString "x"); ("object", JString "chunk");
    ("choices", JArray [JObject [("index", JNumber "0");
      ("delta", JObject [("tool_calls", JArray [JObject [("index", JNumber "0"); ("id", JString id);
         ("function", JObject [("name", JString name); ("arguments", JString "{}")])]])]);
      ("finish_reason", finish)]])].

Definition texts : list (string * json) :=
  [("S1", start_event "0" "t1" "rm");
   ("D1", JObject [("type", JString "content_block_delta"); ("index", JNumber "0")]);
   ("E1", JObject [("type", JString "content_block_stop"); ("index", JNumber "0")]);
   ("S2", start_event "1" "t2" "ls");
   ("M", JObject [("type", JString "message_delta"); ("delta", JObject [("stop_reason", JString "tool_use")])]);
   ("N", JObject [("type", JString "message_delta"); ("delta", JNull)]);
   ("C1", chunk JNull "t1" "rm"); ("C2", chunk (JString "tool_calls") "t1" "rm")].

#[local] Instance named_json : JsonLib := {|
  json_Decode s := (λ v, (v, "")) <$> (list_to_map texts : gmap string json) !! s;
  json_EOF s := String.eqb s ""; json_Marshal _ := ""; json_MarshalStamped _ _ := "" |}.

#[local] Instance no_limit : RateLimiter unit := {| rl_Allow l _ _ := (l, true) |}.

Definition reg : ToolRegistry.Registry :=
  (ToolRegistry.run ToolRegistry.NewRegistry
     [ToolRegistry.OpRegister "files" "stdio" "" [ToolRegistry.mkToolInfo "rm" "h1"; ToolRegistry.mkToolInfo "ls" "h2"] 1]).1.
Definition policy : McpPolicy.SandboxMCPConfig :=
  McpPolicy.mkMCPConfig true false "" [] [] "denylist" [] [McpPolicy.mkToolRule "files" "rm" ""].
Definition mcp : Mcp (L := unit) := mkMcp (Some reg) None (Some tt).
Definition clock (n : nat) : Z := Z.of_nat n.
Definition always (n : nat) : bool := true.

Definition stream (d : Dialect) (lines : list string) : option (list OutLine * list (string * string)) :=
  (λ lp, (written lp, (λ ev, (ev_Tool ev, ev_Action ev)) <$> lp_events lp))
    <$> Stream (Some policy) None d clock "r" always mcp lines.

Definition lines : list string :=
  ["event: content_block_start"; "data: S1"; ""; "event: content_block_delta"; "data: D1"; "";
   "event: content_block_stop"; "data: E1"; ""; "event: content_block_start"; "data: S2"; ""].

(** The blocked block is replaced, its delta and stop are dropped with their event and
    blank lines, the next block passes. *)
Example stream_run :
  stream DialectAnthropic lines =
  Some (emitAnthropicTextBlock 0 "rm" ++ [OutRaw ""; OutRaw "event: content_block_start"; OutRaw "data: S2"; OutRaw ""],
        [("rm", "block"); ("ls", "allow")]).
Proof. vm_compute. reflexivity. Qed.

Lemma anthropic_stream_evaluated_witness :
  ∃ lp n, Stream (Some policy) None DialectAnthropic clock "r" always mcp lines = Some lp ∧
    (clientErr lp = false → n = length lines) ∧
    let e := evaluate_calls (Some policy) None clock "r" mcp 0 (omap line_call (OutRaw <$> take n lines)) in
    sse_mcp (lp_sse lp) = e_mcp e ∧ lp_events lp = e_events e ∧ omap line_call (written lp) = e_passed e.
Proof.
  apply (anthropic_stream_evaluated (Some policy) None clock "r" always mcp lines).
  apply Forall_forall. intros l Hl data kvs Hx Hj. unfold lines in Hl.
  repeat (apply elem_of_cons in Hl as [->|Hl];
    [vm_compute in Hx; first [discriminate
       |injection Hx as <-; vm_compute in Hj; injection Hj as <-;
        split; [plain_solve|intros Hd; repeat (apply elem_of_cons in Hd as [Hd|Hd]; [discriminate|]);
                            by apply elem_of_nil in Hd]]|]).
  by apply elem_of_nil in Hl.
Defined.

Definition body : list (string * json) :=
  [("id", JString "m"); ("stop_reason", JString "tool_use");
   ("content", JArray [JObject [("type", JString "tool_use"); ("id", JString "t1"); ("name", JString "rm")];
                       JObject [("type", JString "tool_use"); ("id", JString "t2"); ("name", JString "ls")]])].

Lemma anthropic_response_filtered_witness :
  extractAnthropicToolCalls (client_body (Some (JObject body))
    (interceptMCPToolCalls (Some policy) None mcp (Some (JObject body)) DialectAnthropic "r" clock).2)
  = [mkToolCall "t2" "ls" None].
Proof.
  rewrite (anthropic_response_filtered (Some policy) None mcp body "r" clock).
  - vm_compute. reflexivity.
  - plain_solve.
Defined.

Lemma paths_agree_witness :
  (intercept_call (Some policy) None reg mcp "r" (mkToolCall "t1" "rm" None) 0).1
  = (lookupAndEvaluate (Some policy) None mcp "rm" "t1" "r" 0).1.
Proof. apply (paths_agree (Some policy) None reg mcp "r" (mkToolCall "t1" "rm" None) 0). reflexivity. Defined.

(** A tool call in an OpenAI chunk that also carries a finish reason is not
    evaluated: the same call is replaced when the finish reason comes in a later
    chunk, and passes with no event when it is in the same chunk. *)
Theorem openai_finish_chunk_unchecked :
  stream DialectOpenAI ["data: C2"] = Some ([OutRaw "data: C2"], []) ∧
  (snd <$> stream DialectOpenAI ["data: C1"]) = Some [("rm", "block")] ∧
  (stream DialectOpenAI ["data: C1"] ≠ Some ([OutRaw "data: C1"], [("rm", "block")])).
Proof. split; [vm_compute; reflexivity|]. split; [vm_compute; reflexivity|]. vm_compute. discriminate. Qed.

(** A [message_delta] whose delta is [null] panics once every tool call of the
    stream was blocked: the decoded delta is a nil map and the code assigns to it. *)
Theorem null_delta_panics :
  stream DialectAnthropic ["data: S1"; ""; "data: N"] = None ∧
  is_Some (stream DialectAnthropic ["data: S1"; ""; "data: M"]) ∧
  is_Some (stream DialectAnthropic ["data: S2"; ""; "data: N"]).
Proof. split; [vm_compute; reflexivity|]. split; vm_compute; eauto. Qed.

(** A body whose keys are spelled [Content]: the call is found and reported blocked,
    and the body is passed on unchanged. *)
Example folded_key_passes :
  let kvs := [("stop_reason", JString "tool_use");
              ("Content", JArray [JObject [("type", JString "tool_use"); ("id", JString "t1"); ("name", JString "rm")]])] in
  let res := (interceptMCPToolCalls (Some policy) None mcp (Some (JObject kvs)) DialectAnthropic "r" clock).2 in
  HasBlocked res = true ∧ client_body (Some (JObject kvs)) res = Some (JObject kvs).
Proof. vm_compute. auto. Qed.

(** With cross-server rules configured and nothing else, the analyzer is not
    consulted: a call to a tool another server took over passes unchanged, in a whole
    response and in a stream, without an event; with a rate limiter configured as well
    it is blocked. *)
Theorem analyzer_alone_not_consulted :
  let shadowed := Analyzer.NotifyOverwrite (Analyzer.Activate (Analyzer.NewSessionAnalyzer McpSample.config))
                    "rm" "old" "files" in
  let alone : Mcp (L := unit) := mkMcp (Some reg) (Some shadowed) None in
  let limited := mkMcp (Some reg) (Some shadowed) (Some tt) in
  let respond m := (intercept_response None None m 200 (Some (JObject body)) DialectAnthropic "r" clock).1.2 in
  respond alone = [] ∧
  stream_response None None alone DialectAnthropic clock "r" always ["data: S1"] = Some [OutRaw "data: S1"] ∧
  ((λ ev, (ev_Tool ev, ev_Action ev)) <$> respond limited) = [("rm", "block"); ("ls", "allow")] ∧
  stream_response None None limited DialectAnthropic clock "r" always ["data: S1"]
    = Some (emitAnthropicTextBlock 0 "rm").
Proof. vm_compute. auto. Qed.

#[local] Instance integer_float : Float64 := {|
  f64 := Z; f_of_Z := id; f_add := Z.add; f_sub := Z.sub; f_mul := Z.mul; f_div := Z.div;
  f_ltb := Z.ltb; f_leb := Z.leb |}.
#[local] Instance integer_float_laws : Float64Laws.
Proof.
  constructor; unfold exact_int; cbn; intros; try reflexivity; try lia.
Qed.

Definition limits : RateLimit.RateLimiterRegistry :=
  RateLimit.mkLimiters (RateLimit.mkRateConfig true 60 10 {["files" := (120, 2)%Z]}) ∅.

Lemma burst_exact_witness : allow_run limits "files" 5 4 = [true; true; false; false].
Proof.
  rewrite (burst_exact limits "files" 5 120 2 4); [reflexivity|reflexivity|reflexivity|reflexivity| |];
    split; vm_compute; discriminate.
Defined.
End InterceptSample.
