(* ===== verification/Patterns.v ===== *)
(** * Patterns on process names (internal/policy/pattern and the classifier of
    internal/policy/ancestry)

    pattern.go: literal, glob, regular-expression and class patterns, the guard on the
    complexity of a regular expression, pattern sets; builtin.go: the built-in classes
    and their registry with its cache of compiled sets; classifier.go: the class of a
    process name and the analysis of a chain of processes.

    gobwas/glob, regexp and regexp/syntax are parameters. An error is [None]. *)
From S2P Require Import Prelude.

(** A parsed regular expression (regexp/syntax): the operator, the bound of a
    repetition and the operands. *)
Inductive RxOp := OpStar | OpPlus | OpQuest | OpRepeat | OpConcat | OpAlternate | OpCapture | OpOther.
Inductive Regexp := Rx (op : RxOp) (max : Z) (subs : list Regexp).

Class SyntaxLib := { syntax_Parse : string → option Regexp }.

(** Go's [int] on a 64-bit platform. *)
Definition wrap64 (z : Z) : Z := ((z + 2 ^ 63) mod 2 ^ 64 - 2 ^ 63)%Z.

Fixpoint calculateComplexity (re : Regexp) : Z :=
  match re with
  | Rx op max subs =>
      let total := foldl (λ acc sub, wrap64 (acc + calculateComplexity sub)) 0%Z subs in
      match op with
      | OpStar | OpPlus => if (1 <? total)%Z then wrap64 (total * 100) else wrap64 (total + 10)
      | OpQuest => wrap64 (total + 2)
      | OpRepeat => Z.quot (wrap64 (total * (if (max <? 0)%Z then 100 else max))) 10
      | OpConcat => total
      | OpAlternate => wrap64 (total * 2)
      | OpCapture => wrap64 (total + 1)
      | OpOther => 1
      end
  end%Z.

Inductive PatternType := PatternTypeGlob | PatternTypeRegex | PatternTypeClass | PatternTypeLiteral.
#[export] Instance PatternType_eq_dec : EqDecision PatternType.
Proof. solve_decision. Defined.
Definition PatternType_String (t : PatternType) : string :=
  match t with
  | PatternTypeGlob => "glob" | PatternTypeRegex => "regex"
  | PatternTypeClass => "class" | PatternTypeLiteral => "literal"
  end.

Section patterns.
Context `{GoLib, GlobLib, RegexpLib, SyntaxLib}.

Definition checkRegexComplexity (pattern : string) (maxComplexity : Z) : bool :=
  let maxComplexity := if (maxComplexity =? 0)%Z then 1000%Z else maxComplexity in
  match syntax_Parse pattern with
  | None => false
  | Some re => (calculateComplexity re <=? maxComplexity)%Z
  end.

(** The compiled form of each pattern type. *)
Inductive Compiled :=
| CompiledGlob (g : glob)
| CompiledRegex (r : regexp)
| CompiledClass (class : string)
| CompiledLiteral (s : string).
Record Pattern := mkPattern { Raw : string; compiled : Compiled }.
Definition pattern_Type (p : Pattern) : PatternType :=
  match compiled p with
  | CompiledGlob _ => PatternTypeGlob | CompiledRegex _ => PatternTypeRegex
  | CompiledClass _ => PatternTypeClass | CompiledLiteral _ => PatternTypeLiteral
  end.

Record CompileOptions := mkCompileOptions { MaxRegexComplexity : Z; CaseInsensitive : bool }.
Definition DefaultCompileOptions : CompileOptions := mkCompileOptions 1000 false.

Definition compileRegex (s : string) (opts : CompileOptions) : option Pattern :=
  let regexStr := TrimPrefix s "re:" in
  if String.eqb regexStr "" then None
  else if negb (checkRegexComplexity regexStr (MaxRegexComplexity opts)) then None
  else re ← regexp_Compile ((if CaseInsensitive opts then "(?i)" else "") +:+ regexStr);
       Some (mkPattern s (CompiledRegex re)).

Definition compileClass (s : string) : option Pattern :=
  let className := TrimPrefix s "@" in
  if String.eqb className "" then None else Some (mkPattern s (CompiledClass className)).

Definition compileGlob (s : string) (opts : CompileOptions) : option Pattern :=
  g ← glob_Compile (if CaseInsensitive opts then ToLower s else s) [];
  Some (mkPattern s (CompiledGlob g)).

Definition isGlobPattern (s : string) : bool := ContainsAny s "*?[".

Definition CompileWithOptions (s : string) (opts : CompileOptions) : option Pattern :=
  if String.eqb s "" then None
  else if HasPrefix s "re:" then compileRegex s opts
  else if HasPrefix s "@" then compileClass s
  else if isGlobPattern s then compileGlob s opts
  else Some (mkPattern s (CompiledLiteral s)).

Definition Compile (s : string) : option Pattern := CompileWithOptions s DefaultCompileOptions.

Definition Resolver : Type := string → option (list string).

(** [Pattern.Match]: no resolver, so a class matches nothing. *)
Definition Match (p : Pattern) (s : string) : bool :=
  match compiled p with
  | CompiledLiteral t => String.eqb s t
  | CompiledGlob g => glob_Match g s
  | CompiledRegex r => regexp_MatchString r s
  | CompiledClass _ => false
  end.

(** [Pattern.MatchWithResolver] with a resolver. *)
Definition MatchWithResolver (p : Pattern) (s : string) (resolver : Resolver) : option bool :=
  match compiled p with
  | CompiledClass class =>
      patterns ← resolver class;
      Some (existsb (λ q, match Compile q with Some sub => Match sub s | None => false end) patterns)
  | _ => Some (Match p s)
  end.

Definition PatternSet : Type := list Pattern.
Definition NewPatternSet (patterns : list string) : option PatternSet := mapM Compile patterns.
Definition MatchAny (ps : PatternSet) (s : string) : bool := existsb (λ p : Pattern, Match p s) ps.

Fixpoint MatchAnyWithResolver (ps : PatternSet) (s : string) (resolver : Resolver) : option bool :=
  match ps with
  | [] => Some false
  | p :: ps =>
      match MatchWithResolver p s resolver with
      | None => None
      | Some true => Some true
      | Some false => MatchAnyWithResolver ps s resolver
      end
  end.

(** ** Built-in classes (builtin.go) *)
Definition builtinList : list (string * list string) :=
  [("shell",
     ["bash"; "zsh"; "fish"; "sh"; "dash"; "ksh"; "tcsh"; "csh"; "pwsh"; "powershell"; "nu";
      "nushell"; "xonsh"; "elvish"]);
   ("editor",
     ["Cursor"; "cursor"; "Code"; "code"; "code-oss"; "codium"; "Atom"; "atom"; "Zed"; "zed";
      "vim"; "nvim"; "neovim"; "emacs"; "emacsclient"; "nano"; "pico"; "micro"; "helix"; "hx";
      "kakoune"; "kak"; "idea"; "idea64"; "intellij*"; "goland"; "goland64"; "pycharm";
      "pycharm64"; "webstorm"; "webstorm64"; "clion"; "clion64"; "rustrover"; "rider"; "rider64";
      "eclipse"; "sublime_text"; "subl"; "TextMate"; "notepad++"; "gedit"; "kate"; "geany";
      "mousepad"]);
   ("agent",
     ["claude-agent"; "claude"; "aider"; "aider-chat"; "copilot"; "github-copilot"; "cody";
      "continue"; "cursor-agent"; "windsurf"; "tabnine"; "kite"; "sourcegraph"]);
   ("build",
     ["npm"; "npx"; "yarn"; "pnpm"; "bun"; "pip"; "pip3"; "poetry"; "pdm"; "uv"; "hatch"; "pipx";
      "cargo"; "rustc"; "go"; "mvn"; "maven"; "gradle"; "gradlew"; "sbt"; "ant"; "make"; "cmake";
      "ninja"; "meson"; "bazel"; "gcc"; "g++"; "clang"; "clang++"; "gem"; "bundle"; "bundler";
      "rake"; "composer"; "dotnet"; "nuget"; "msbuild"; "just"; "task"; "earthly"]);
   ("language-server",
     ["*-language-server"; "*-lsp"; "tsserver"; "typescript-language-server";
      "vscode-eslint-language-server"; "vscode-json-language-server"; "vscode-css-language-server";
      "vscode-html-language-server"; "biome"; "gopls"; "rust-analyzer"; "rls"; "pylsp"; "pyright";
      "python-language-server"; "jedi-language-server"; "ruff-lsp"; "basedpyright"; "clangd";
      "ccls"; "solargraph"; "ruby-lsp"; "phpactor"; "intelephense"; "jdtls";
      "java-language-server"; "lua-language-server"; "luals"; "yaml-language-server";
      "bash-language-server"; "docker-langserver"; "terraform-ls"; "marksman"]);
   ("runtime",
     ["node"; "nodejs"; "deno"; "bun"; "python"; "python3"; "python2"; "pypy"; "pypy3"; "ruby";
      "irb"; "php"; "java"; "kotlin"; "scala"; "groovy"; "dotnet"; "lua"; "luajit"; "perl"; "R";
      "Rscript"; "julia"; "elixir"; "iex"; "erl"; "erlang"]);
   ("test",
     ["jest"; "mocha"; "vitest"; "playwright"; "cypress"; "pytest"; "python -m pytest"; "nose";
      "unittest"; "go test"; "cargo test"; "rspec"; "minitest"; "junit"; "testng"; "ctest"]);
   ("formatter",
     ["prettier"; "eslint"; "biome"; "black"; "ruff"; "isort"; "autopep8"; "yapf"; "flake8";
      "pylint"; "mypy"; "gofmt"; "goimports"; "golangci-lint"; "rustfmt"; "clippy"; "rubocop";
      "pre-commit"]);
   ("vcs",
     ["git"; "gh"; "hub"; "hg"; "mercurial"; "svn"; "subversion"]);
   ("container",
     ["docker"; "podman"; "containerd"; "runc"; "crun"; "kubectl"; "k9s"; "helm"; "docker-compose";
      "docker compose"])].
Definition BuiltinClasses : gmap string (list string) := list_to_map builtinList.

Record ClassRegistry := mkClassRegistry {
  classes : gmap string (list string); compiledSets : gmap string PatternSet }.

Definition NewClassRegistry : ClassRegistry := mkClassRegistry BuiltinClasses ∅.
Definition registry_Get (r : ClassRegistry) (name : string) : option (list string) := classes r !! name.
Definition registry_Has (r : ClassRegistry) (name : string) : bool := bool_decide (is_Some (classes r !! name)).
Definition registry_Set (r : ClassRegistry) (name : string) (patterns : list string) : ClassRegistry :=
  mkClassRegistry (<[name := patterns]> (classes r)) (delete name (compiledSets r)).
Definition registry_Extend (r : ClassRegistry) (name : string) (patterns : list string) : ClassRegistry :=
  mkClassRegistry (<[name := default [] (classes r !! name) ++ patterns]> (classes r)) (delete name (compiledSets r)).
Definition registry_Delete (r : ClassRegistry) (name : string) : ClassRegistry :=
  mkClassRegistry (delete name (classes r)) (delete name (compiledSets r)).

(** [Matches] compiles a class on first use and keeps the set. *)
Definition registry_Matches (r : ClassRegistry) (name input : string) : ClassRegistry * option bool :=
  match compiledSets r !! name with
  | Some ps => (r, Some (MatchAny ps input))
  | None =>
      match classes r !! name with
      | None => (r, None)
      | Some patterns =>
          match NewPatternSet patterns with
          | None => (r, None)
          | Some ps => (mkClassRegistry (classes r) (<[name := ps]> (compiledSets r)), Some (MatchAny ps input))
          end
      end
  end.

Definition ExpandClass (name : string) : option (list string) := BuiltinClasses !! TrimPrefix name "@".
Definition IsBuiltinClass (name : string) : bool := bool_decide (is_Some (ExpandClass name)).
End patterns.

Arguments Compiled {_ _}.
Arguments Pattern {_ _}.

(** ** Process classes (taint.go, classifier.go) *)
Inductive ProcessClass :=
| ClassUnknown | ClassShell | ClassEditor | ClassAgent | ClassBuildTool | ClassLanguageServer
| ClassLanguageRuntime.
#[export] Instance ProcessClass_eq_dec : EqDecision ProcessClass.
Proof. solve_decision. Defined.

Definition ProcessClass_String (c : ProcessClass) : string :=
  match c with
  | ClassShell => "shell" | ClassEditor => "editor" | ClassAgent => "agent" | ClassBuildTool => "build_tool"
  | ClassLanguageServer => "language_server" | ClassLanguageRuntime => "language_runtime"
  | ClassUnknown => "unknown"
  end.

Definition ParseProcessClass (s : string) : ProcessClass :=
  if String.eqb s "shell" then ClassShell
  else if String.eqb s "editor" then ClassEditor
  else if String.eqb s "agent" then ClassAgent
  else if String.eqb s "build_tool" then ClassBuildTool
  else if String.eqb s "language_server" then ClassLanguageServer
  else if String.eqb s "language_runtime" then ClassLanguageRuntime
  else ClassUnknown.

Section classifier.
Context `{GoLib, GlobLib, RegexpLib, SyntaxLib}.

(** [customRules] is a Go map: its entries come in some order, that of the list. *)
Record Classifier := mkClassifier {
  cl_registry : ClassRegistry; customRules : list (string * ProcessClass) }.

Definition NewClassifier : Classifier := mkClassifier NewClassRegistry [].

Definition without (commPattern : string) (l : list (string * ProcessClass)) : list (string * ProcessClass) :=
  List.filter (λ kv, negb (String.eqb kv.1 commPattern)) l.
Definition AddCustomRule (c : Classifier) (commPattern : string) (class : ProcessClass) : Classifier :=
  mkClassifier (cl_registry c) ((commPattern, class) :: without commPattern (customRules c)).
Definition RemoveCustomRule (c : Classifier) (commPattern : string) : Classifier :=
  mkClassifier (cl_registry c) (without commPattern (customRules c)).

Definition custom_match (comm : string) (kv : string * ProcessClass) : bool :=
  negb (IsBuiltinClass kv.1) &&
  match Compile kv.1 with Some p => Match p comm | None => false end.

(** [matchesClass]: the registry caches the compiled class. *)
Definition matchesClass (r : ClassRegistry) (className comm : string) : ClassRegistry * bool :=
  let '(r, m) := registry_Matches r className comm in (r, default false m).

(** The built-in classes in the order they are tried. *)
Definition classOrder : list (string * ProcessClass) :=
  [("shell", ClassShell); ("editor", ClassEditor); ("agent", ClassAgent); ("build", ClassBuildTool);
   ("language-server", ClassLanguageServer); ("runtime", ClassLanguageRuntime)].

Fixpoint first_class (r : ClassRegistry) (order : list (string * ProcessClass)) (comm : string)
    : ClassRegistry * ProcessClass :=
  match order with
  | [] => (r, ClassUnknown)
  | (name, class) :: order =>
      let '(r, m) := matchesClass r name comm in
      if m then (r, class) else first_class r order comm
  end.

Definition Classify (c : Classifier) (comm : string) : Classifier * ProcessClass :=
  match assoc comm (customRules c) with
  | Some class => (c, class)
  | None =>
      match find_first (custom_match comm) (customRules c) with
      | Some kv => (c, kv.2)
      | None =>
          let '(r, class) := first_class (cl_registry c) classOrder comm in
          (mkClassifier r (customRules c), class)
      end
  end.

Fixpoint ClassifyChain (c : Classifier) (via : list string) : Classifier * list ProcessClass :=
  match via with
  | [] => (c, [])
  | comm :: via =>
      let '(c, class) := Classify c comm in
      let '(c, classes) := ClassifyChain c via in (c, class :: classes)
  end.
End classifier.

(** *** Chains of processes *)

(** The loop of [CountConsecutive]: the longest run so far and the current one. *)
Definition count_step {A} (hit : A → bool) (acc : nat * nat) (x : A) : nat * nat :=
  let '(maxCount, currentCount) := acc in
  if hit x then (if maxCount <? S currentCount then S currentCount else maxCount, S currentCount)%nat
  else (maxCount, 0%nat).

Definition CountConsecutive (classes : list ProcessClass) (target : ProcessClass) : nat :=
  (foldl (count_step (λ c, bool_decide (c = target))) (0, 0)%nat classes).1.

Definition comm_hit (patterns : list string) (comm : string) : bool :=
  existsb (λ p, String.eqb comm p || Contains comm p) patterns.

Definition CountConsecutiveComm (via patterns : list string) : nat :=
  (foldl (count_step (comm_hit patterns)) (0, 0)%nat via).1.

Record ChainAnalysis := mkChainAnalysis {
  HasShell : bool; HasEditor : bool; HasAgent : bool; HasLanguageServer : bool;
  ConsecutiveShells : nat; ShellLaundering : bool;
  FirstShellIndex : option nat; FirstEditorIndex : option nat; FirstAgentIndex : option nat }.

(** The state of the loop of [AnalyzeChain]: index, current and longest run of
    shells, and the analysis so far. *)
Definition seen_at (o : option nat) (i : nat) : option nat := match o with Some _ => o | None => Some i end.

Definition analyze_step (st : nat * nat * nat * ChainAnalysis) (class : ProcessClass)
    : nat * nat * nat * ChainAnalysis :=
  let '(i, run, longest, a) := st in
  match class with
  | ClassShell =>
      (S i, S run, Nat.max longest (S run),
       mkChainAnalysis true (HasEditor a) (HasAgent a) (HasLanguageServer a) 0 false
         (seen_at (FirstShellIndex a) i) (FirstEditorIndex a) (FirstAgentIndex a))
  | ClassEditor =>
      (S i, 0%nat, longest,
       mkChainAnalysis (HasShell a) true (HasAgent a) (HasLanguageServer a) 0 false
         (FirstShellIndex a) (seen_at (FirstEditorIndex a) i) (FirstAgentIndex a))
  | ClassAgent =>
      (S i, 0%nat, longest,
       mkChainAnalysis (HasShell a) (HasEditor a) true (HasLanguageServer a) 0 false
         (FirstShellIndex a) (FirstEditorIndex a) (seen_at (FirstAgentIndex a) i))
  | ClassLanguageServer =>
      (S i, 0%nat, longest,
       mkChainAnalysis (HasShell a) (HasEditor a) (HasAgent a) true 0 false
         (FirstShellIndex a) (FirstEditorIndex a) (FirstAgentIndex a))
  | _ => (S i, 0%nat, longest, a)
  end.

Definition empty_analysis : ChainAnalysis :=
  mkChainAnalysis false false false false 0 false None None None.

Definition AnalyzeChain (viaClasses : list ProcessClass) : ChainAnalysis :=
  let '(_, _, longest, a) := foldl analyze_step (0, 0, 0, empty_analysis)%nat viaClasses in
  mkChainAnalysis (HasShell a) (HasEditor a) (HasAgent a) (HasLanguageServer a) longest (3 <=? longest)%nat
    (FirstShellIndex a) (FirstEditorIndex a) (FirstAgentIndex a).

(** *** Predicates on chains *)
Definition ChainContainsClass (classes : list ProcessClass) (target : ProcessClass) : bool :=
  existsb (λ c, bool_decide (c = target)) classes.

Section chain_patterns.
Context `{GoLib, GlobLib, RegexpLib, SyntaxLib}.

Definition ChainContainsComm (via patterns : list string) : bool :=
  existsb (λ comm, existsb (λ p,
    String.eqb comm p || match Compile p with Some c => Match c comm | None => false end) patterns) via.

Definition ChainMatchesPattern (via : list string) (p : Pattern) (resolver : Resolver) : bool :=
  existsb (λ comm, default false (MatchWithResolver p comm resolver)) via.
End chain_patterns.

(** ** Runs *)

Section runs.
Context {A : Type} (hit : A → bool).

(** [l] ends in [k] hits in a row; [l] has [k] hits in a row somewhere. *)
Definition tail_run (l : list A) (k : nat) : Prop :=
  ∃ a b, l = a ++ b ∧ length b = k ∧ Forall (λ x, hit x = true) b.
Definition has_run (l : list A) (k : nat) : Prop :=
  ∃ a b c, l = a ++ b ++ c ∧ length b = k ∧ Forall (λ x, hit x = true) b.

Lemma tail_run_snoc l x k :
  tail_run (l ++ [x]) k ↔ k = 0 ∨ ∃ k', k = S k' ∧ hit x = true ∧ tail_run l k'.
Proof.
  split.
  - intros (a & b & He & <- & Hb). destruct b as [|y b _] using rev_ind; [by left|right].
    rewrite app_assoc in He. apply app_inj_tail in He as [-> ->].
    apply Forall_app in Hb as [Hb Hy]. rewrite Forall_singleton in Hy.
    exists (length b). split_and!; [rewrite length_app; simpl; lia|done|by exists a, b].
  - intros [->|(k' & -> & Hx & a & b & -> & <- & Hb)].
    + exists (l ++ [x]), []. by rewrite app_nil_r.
    + exists a, (b ++ [x]). rewrite app_assoc, length_app. simpl.
      split_and!; [done|lia|by apply Forall_app; split; [|apply Forall_singleton]].
Qed.

Lemma has_run_snoc l x k : has_run (l ++ [x]) k ↔ has_run l k ∨ tail_run (l ++ [x]) k.
Proof.
  split.
  - intros (a & b & c & He & Hk & Hb). destruct c as [|y c _] using rev_ind.
    + right. exists a, b. by rewrite app_nil_r in He.
    + left. rewrite !app_assoc in He. apply app_inj_tail in He as [-> _].
      exists a, b, c. by rewrite app_assoc.
  - intros [(a & b & c & -> & Hk & Hb)|(a & b & He & Hk & Hb)].
    + exists a, b, (c ++ [x]). by rewrite !app_assoc.
    + exists a, b, []. by rewrite app_nil_r.
Qed.

Lemma count_step_max m r x :
  count_step hit (m, r) x = if hit x then (Nat.max m (S r), S r) else (m, 0).
Proof. unfold count_step. destruct (hit x); [|done]. destruct (Nat.ltb_spec m (S r)); f_equal; lia. Qed.

Lemma count_runs l :
  let '(m, r) := foldl (count_step hit) (0, 0) l in
  (∀ k, k ≤ r ↔ tail_run l k) ∧ (∀ k, k ≤ m ↔ has_run l k).
Proof.
  induction l as [|x l IH] using rev_ind.
  { simpl. split; intros k.
    - split; [intros ?; exists [], []; split_and!; [done|simpl; lia|constructor]|].
      intros (a & b & He & <- & _). symmetry in He. apply app_eq_nil in He as [_ ->]. simpl. lia.
    - split; [intros ?; exists [], [], []; split_and!; [done|simpl; lia|constructor]|].
      intros (a & b & c & He & <- & _). symmetry in He. apply app_eq_nil in He as [_ He].
      apply app_eq_nil in He as [-> _]. simpl. lia. }
  rewrite foldl_snoc. destruct (foldl _ _ _) as [m r]. destruct IH as [IHr IHm].
  rewrite count_step_max. destruct (hit x) eqn:Hx.
  - assert (Htail : ∀ k, k ≤ S r ↔ tail_run (l ++ [x]) k).
    { intros k. rewrite tail_run_snoc. split.
      - intros Hk. destruct k as [|k]; [by left|right]. exists k. rewrite <- IHr. split_and!; auto. lia.
      - intros [->|(k' & -> & _ & Hk)]; [lia|]. apply IHr in Hk. lia. }
    split; [done|]. intros k. rewrite has_run_snoc, <- IHm, <- Htail. lia.
  - assert (Htail : ∀ k, k ≤ 0 ↔ tail_run (l ++ [x]) k).
    { intros k. rewrite tail_run_snoc. split; [left; lia|].
      intros [->|(k' & _ & Hy & _)]; [lia|congruence]. }
    split; [done|]. intros k. rewrite has_run_snoc, <- IHm, <- Htail. lia.
Qed.

Lemma count_longest l k : k ≤ (foldl (count_step hit) (0, 0) l).1 ↔ has_run l k.
Proof. pose proof (count_runs l) as Hc. destruct (foldl _ _ _) as [m r]. apply Hc. Qed.
End runs.

(** The loop of [AnalyzeChain] computes the run of shells as [CountConsecutive] does. *)
Lemma analyze_counts l :
  let '(i, run, longest, _) := foldl analyze_step (0, 0, 0, empty_analysis) l in
  i = length l ∧ (longest, run) = foldl (count_step (λ c, bool_decide (c = ClassShell))) (0, 0) l.
Proof.
  induction l as [|x l IH] using rev_ind; [done|]. rewrite !foldl_snoc, length_app.
  destruct (foldl analyze_step _ _) as [[[i run] longest] a]. destruct IH as [-> <-].
  rewrite count_step_max. destruct x; simpl; (split; [lia|done]).
Qed.

(** First index of [target] in [l]. *)
Fixpoint index_of (target : ProcessClass) (l : list ProcessClass) : option nat :=
  match l with
  | [] => None
  | c :: l => if decide (c = target) then Some 0 else S <$> index_of target l
  end.

Lemma index_of_snoc t l x :
  index_of t (l ++ [x]) = match index_of t l with
                          | Some i => Some i
                          | None => if decide (x = t) then Some (length l) else None
                          end.
Proof.
  induction l as [|y l IH]; simpl; [by destruct (decide _)|].
  destruct (decide (y = t)); [done|]. rewrite IH. destruct (index_of t l); simpl; [done|].
  by destruct (decide (x = t)).
Qed.

Lemma analyze_first l :
  let '(_, _, _, a) := foldl analyze_step (0, 0, 0, empty_analysis) l in
  FirstShellIndex a = index_of ClassShell l ∧ FirstEditorIndex a = index_of ClassEditor l ∧
  FirstAgentIndex a = index_of ClassAgent l ∧ HasShell a = ChainContainsClass l ClassShell ∧
  HasEditor a = ChainContainsClass l ClassEditor ∧ HasAgent a = ChainContainsClass l ClassAgent ∧
  HasLanguageServer a = ChainContainsClass l ClassLanguageServer.
Proof.
  induction l as [|x l IH] using rev_ind; [done|]. pose proof (analyze_counts l) as Hi.
  rewrite foldl_snoc, !index_of_snoc. unfold ChainContainsClass in *. rewrite !existsb_app.
  destruct (foldl analyze_step _ _) as [[[i run] longest] a].
  destruct Hi as [-> _], IH as (H1 & H2 & H3 & H4 & H5 & H6 & H7).
  rewrite <- H1, <- H2, <- H3, <- H4, <- H5, <- H6, <- H7.
  destruct x; simpl; rewrite ?orb_true_r, ?orb_false_r; split_and!; try done;
    unfold seen_at; by repeat case_match.
Qed.

(** The detector of shell laundering is exact: the count of a class is the length
    of its longest run in the chain, the analysis reports the longest run of shells and
    flags laundering exactly when three shells follow one another, and its first
    indices and presence flags are those of the chain. *)
Theorem laundering_exact (l : list ProcessClass) (target : ProcessClass) (k : nat) :
  (k ≤ CountConsecutive l target ↔ has_run (λ c, bool_decide (c = target)) l k) ∧
  ConsecutiveShells (AnalyzeChain l) = CountConsecutive l ClassShell ∧
  (ShellLaundering (AnalyzeChain l) = true ↔
     ∃ a b, l = a ++ [ClassShell; ClassShell; ClassShell] ++ b) ∧
  FirstShellIndex (AnalyzeChain l) = index_of ClassShell l ∧
  FirstEditorIndex (AnalyzeChain l) = index_of ClassEditor l ∧
  FirstAgentIndex (AnalyzeChain l) = index_of ClassAgent l ∧
  HasShell (AnalyzeChain l) = ChainContainsClass l ClassShell ∧
  HasLanguageServer (AnalyzeChain l) = ChainContainsClass l ClassLanguageServer.
Proof.
  pose proof (analyze_counts l) as Hc. pose proof (analyze_first l) as Hf.
  assert (Hlong := count_longest (λ c, bool_decide (c = ClassShell)) l 3).
  split; [apply count_longest|]. unfold AnalyzeChain, CountConsecutive.
  destruct (foldl analyze_step _ _) as [[[i run] longest] a].
  destruct Hc as [_ Hc], Hf as (? & ? & ? & ? & _ & _ & ?). rewrite <- Hc in *. cbn -[Nat.leb] in *.
  split_and!; try done. rewrite Nat.leb_le, Hlong. split.
  - intros (x & b & c & -> & Hb & Hh). exists x, c.
    destruct b as [|b1 [|b2 [|b3 [|]]]]; try done.
    rewrite !Forall_cons in Hh. destruct Hh as (?%bool_decide_eq_true & ?%bool_decide_eq_true &
      ?%bool_decide_eq_true & _). by subst.
  - intros (x & c & ->). exists x, [ClassShell; ClassShell; ClassShell], c. split_and!; try done.
    by repeat constructor.
Qed.

(** ** Classification does not depend on the cache of compiled classes *)

Section coherence.
Context `{GoLib, GlobLib, RegexpLib, SyntaxLib}.

(** The reference: compile the class at every use. *)
Definition class_matches (cs : gmap string (list string)) (name input : string) : option bool :=
  patterns ← cs !! name; ps ← NewPatternSet patterns; Some (MatchAny ps input).

Definition class_reference (cs : gmap string (list string)) (rules : list (string * ProcessClass))
    (comm : string) : ProcessClass :=
  match assoc comm rules, find_first (custom_match comm) rules with
  | Some class, _ => class
  | None, Some kv => kv.2
  | None, None =>
      match find_first (λ nc : string * ProcessClass, default false (class_matches cs nc.1 comm)) classOrder with
      | Some nc => nc.2
      | None => ClassUnknown
      end
  end.

(** A compiled set in the cache is that of the patterns of its class. *)
Definition registry_ok (r : ClassRegistry) : Prop :=
  ∀ name ps, compiledSets r !! name = Some ps →
    ∃ patterns, classes r !! name = Some patterns ∧ NewPatternSet patterns = Some ps.

Lemma registry_invalidate r name (cs : gmap string (list string)) :
  registry_ok r → (∀ n, n ≠ name → cs !! n = classes r !! n) →
  registry_ok (mkClassRegistry cs (delete name (compiledSets r))).
Proof.
  intros Hok Hcs n ps. simpl. rewrite lookup_delete_Some. intros [Hne Hps].
  rewrite Hcs by done. by apply Hok.
Qed.

Lemma registry_Set_ok r name pats : registry_ok r → registry_ok (registry_Set r name pats).
Proof. intros. apply registry_invalidate; [done|]. intros. by rewrite lookup_insert_ne. Qed.
Lemma registry_Extend_ok r name pats : registry_ok r → registry_ok (registry_Extend r name pats).
Proof. intros. apply registry_invalidate; [done|]. intros. by rewrite lookup_insert_ne. Qed.
Lemma registry_Delete_ok r name : registry_ok r → registry_ok (registry_Delete r name).
Proof. intros. apply registry_invalidate; [done|]. intros. by rewrite lookup_delete_ne. Qed.

Lemma registry_Matches_ok r name input :
  registry_ok r →
  registry_ok (registry_Matches r name input).1 ∧
  classes (registry_Matches r name input).1 = classes r ∧
  (registry_Matches r name input).2 = class_matches (classes r) name input.
Proof.
  intros Hok. unfold registry_Matches, class_matches. destruct (compiledSets r !! name) as [ps|] eqn:Hc.
  { destruct (Hok _ _ Hc) as (patterns & Hp & Hs). rewrite Hp. cbn [mbind option_bind]. by rewrite Hs. }
  destruct (classes r !! name) as [patterns|] eqn:Hp; cbn [mbind option_bind]; [|done].
  destruct (NewPatternSet patterns) as [ps|] eqn:Hs; cbn [mbind option_bind]; [|done].
  split_and!; try done. intros n qs. cbn. destruct (decide (name = n)) as [<-|Hne].
  - rewrite lookup_insert_eq. intros [= <-]. eauto.
  - rewrite lookup_insert_ne by done. apply Hok.
Qed.

Lemma first_class_ok order r comm :
  registry_ok r →
  registry_ok (first_class r order comm).1 ∧ classes (first_class r order comm).1 = classes r ∧
  (first_class r order comm).2 =
    match find_first (λ nc : string * ProcessClass, default false (class_matches (classes r) nc.1 comm)) order with
    | Some nc => nc.2 | None => ClassUnknown end.
Proof.
  revert r. induction order as [|[name class] order IH]; intros r Hok; simpl; [done|].
  unfold matchesClass. destruct (registry_Matches_ok r name comm Hok) as (Hok' & Hcs & Hm).
  destruct (registry_Matches r name comm) as [r' m]. cbn [fst snd] in *. subst m.
  destruct (default false (class_matches _ _ _)); [done|]. rewrite <- Hcs. by apply IH.
Qed.

Lemma Classify_ok c comm :
  registry_ok (cl_registry c) →
  registry_ok (cl_registry (Classify c comm).1) ∧
  classes (cl_registry (Classify c comm).1) = classes (cl_registry c) ∧
  customRules (Classify c comm).1 = customRules c ∧
  (Classify c comm).2 = class_reference (classes (cl_registry c)) (customRules c) comm.
Proof.
  intros Hok. unfold Classify, class_reference. destruct (assoc _ _); [done|].
  destruct (find_first (custom_match comm) _); [done|].
  destruct (first_class_ok classOrder (cl_registry c) comm Hok) as (? & ? & ?).
  by destruct (first_class _ _ _).
Qed.

(** Operations on a classifier and its registry, and what they answer. *)
Inductive ClassifierOp :=
| AddCustom (commPattern : string) (class : ProcessClass) | RemoveCustom (commPattern : string)
| SetClass (name : string) (patterns : list string) | ExtendClass (name : string) (patterns : list string)
| DeleteClass (name : string) | ClassifyComm (comm : string).

Definition with_registry (c : Classifier) (f : ClassRegistry → ClassRegistry) : Classifier :=
  mkClassifier (f (cl_registry c)) (customRules c).

Definition classifier_do (c : Classifier) (op : ClassifierOp) : Classifier * option ProcessClass :=
  match op with
  | AddCustom p class => (AddCustomRule c p class, None)
  | RemoveCustom p => (RemoveCustomRule c p, None)
  | SetClass name pats => (with_registry c (λ r, registry_Set r name pats), None)
  | ExtendClass name pats => (with_registry c (λ r, registry_Extend r name pats), None)
  | DeleteClass name => (with_registry c (λ r, registry_Delete r name), None)
  | ClassifyComm comm => let '(c, class) := Classify c comm in (c, Some class)
  end.

(** The abstract state: the patterns of each class and the custom rules. *)
Definition ClassSpec : Type := gmap string (list string) * list (string * ProcessClass).
Definition spec_do (s : ClassSpec) (op : ClassifierOp) : ClassSpec * option ProcessClass :=
  let '(cs, rules) := s in
  match op with
  | AddCustom p class => ((cs, (p, class) :: without p rules), None)
  | RemoveCustom p => ((cs, without p rules), None)
  | SetClass name pats => ((<[name := pats]> cs, rules), None)
  | ExtendClass name pats => ((<[name := default [] (cs !! name) ++ pats]> cs, rules), None)
  | DeleteClass name => ((delete name cs, rules), None)
  | ClassifyComm comm => (s, Some (class_reference cs rules comm))
  end.

Fixpoint run_ops {S O A} (do : S → O → S * A) (s : S) (ops : list O) : list A :=
  match ops with
  | [] => []
  | op :: ops => let '(s, a) := do s op in a :: run_ops do s ops
  end.

Definition spec_of (c : Classifier) : ClassSpec := (classes (cl_registry c), customRules c).

Lemma classifier_simulates c op :
  registry_ok (cl_registry c) →
  registry_ok (cl_registry (classifier_do c op).1) ∧
  spec_do (spec_of c) op = (spec_of (classifier_do c op).1, (classifier_do c op).2).
Proof.
  intros Hok. destruct op; simpl;
    auto using registry_Set_ok, registry_Extend_ok, registry_Delete_ok.
  destruct (Classify_ok c comm Hok) as (? & Hcs & Hr & Hclass).
  destruct (Classify c comm) as [c' class]. cbn [fst snd] in *. split; [done|].
  unfold spec_of. by rewrite Hcs, Hr, Hclass.
Qed.

Lemma run_ops_simulates c ops :
  registry_ok (cl_registry c) → run_ops classifier_do c ops = run_ops spec_do (spec_of c) ops.
Proof.
  revert c. induction ops as [|op ops IH]; intros c Hok; cbn [run_ops]; [done|].
  destruct (classifier_simulates c op Hok) as [Hok' Hsim]. rewrite Hsim.
  destruct (classifier_do c op) as [c' a]. cbn [fst snd] in *. f_equal. by apply IH.
Qed.

(** The classifier refines a classifier without a cache: whatever rules are added
    or removed, classes replaced, extended or deleted, and processes classified, every
    classification is the one obtained by compiling the current classes afresh. No
    compiled class outlives the patterns it was compiled from. *)
Theorem classifier_refines (ops : list ClassifierOp) :
  run_ops classifier_do NewClassifier ops = run_ops spec_do (BuiltinClasses, []) ops.
Proof. apply (run_ops_simulates NewClassifier). intros name ps Hps. cbn in Hps. by rewrite lookup_empty in Hps. Qed.
End coherence.

(** ** The guard on the complexity of a regular expression *)

Fixpoint Regexp_ind' (P : Regexp → Prop) (Hrx : ∀ op max subs, Forall P subs → P (Rx op max subs))
    (re : Regexp) : P re :=
  match re with
  | Rx op max subs =>
      Hrx op max subs ((fix go l : Forall P l :=
        match l with
        | [] => Forall_nil_2 P
        | x :: l => Forall_cons_2 P x l (Regexp_ind' P Hrx x) (go l)
        end) subs)
  end.

(** The score in unbounded integers. *)
Definition sum_scores (score : Regexp → Z) (subs : list Regexp) : Z :=
  foldl (λ acc sub, acc + score sub)%Z 0%Z subs.
Definition op_product (op : RxOp) (max total : Z) : Z :=
  match op with
  | OpStar | OpPlus => if (1 <? total)%Z then total * 100 else total + 10
  | OpQuest => total + 2
  | OpRepeat => total * (if (max <? 0)%Z then 100 else max)
  | OpConcat => total
  | OpAlternate => total * 2
  | OpCapture => total + 1
  | OpOther => 1
  end%Z.
Fixpoint exact_complexity (re : Regexp) : Z :=
  match re with
  | Rx op max subs =>
      let product := op_product op max (sum_scores exact_complexity subs) in
      match op with OpRepeat => Z.quot product 10 | _ => product end
  end.

(** Every sum and product of the tree is below [2^63]. *)
Fixpoint scores_fit (re : Regexp) : bool :=
  match re with
  | Rx op max subs =>
      forallb scores_fit subs &&
      (sum_scores exact_complexity subs <? 2 ^ 63)%Z &&
      (op_product op max (sum_scores exact_complexity subs) <? 2 ^ 63)%Z
  end.

Lemma wrap64_id z : (0 <= z < 2 ^ 63)%Z → wrap64 z = z.
Proof. intros. unfold wrap64. rewrite Z.mod_small; lia. Qed.

Lemma sum_scores_snoc score l x : sum_scores score (l ++ [x]) = (sum_scores score l + score x)%Z.
Proof. unfold sum_scores. by rewrite foldl_snoc. Qed.

Lemma sum_scores_nonneg score l : Forall (λ x, 0 <= score x)%Z l → (0 <= sum_scores score l)%Z.
Proof.
  induction l as [|x l IH] using rev_ind; [done|]. rewrite Forall_app, Forall_singleton, sum_scores_snoc.
  intros [? ?]. specialize (IH ltac:(done)). lia.
Qed.

Lemma op_product_nonneg op max total : (0 <= total)%Z → (0 <= op_product op max total)%Z.
Proof. intros. destruct op; simpl; try lia; case_match; lia. Qed.

Lemma exact_nonneg re : (0 <= exact_complexity re)%Z.
Proof.
  induction re as [op max subs IH] using Regexp_ind'. simpl.
  apply sum_scores_nonneg in IH. apply (op_product_nonneg op max) in IH.
  destruct op; try done. by apply Z.quot_pos.
Qed.

Lemma wrapped_sum l :
  Forall (λ re, calculateComplexity re = exact_complexity re) l →
  (sum_scores exact_complexity l < 2 ^ 63)%Z →
  foldl (λ acc sub, wrap64 (acc + calculateComplexity sub)) 0%Z l = sum_scores exact_complexity l.
Proof.
  induction l as [|x l IH] using rev_ind; [done|].
  rewrite Forall_app, Forall_singleton, sum_scores_snoc, foldl_snoc. intros [Hl Hx] Hs.
  pose proof (exact_nonneg x).
  assert (Hs0 : (0 <= sum_scores exact_complexity l)%Z) by (apply sum_scores_nonneg, Forall_true; intros; apply exact_nonneg).
  rewrite IH, Hx by (done || lia). apply wrap64_id. lia.
Qed.

Lemma complexity_exact re : scores_fit re = true → calculateComplexity re = exact_complexity re.
Proof.
  induction re as [op max subs IH] using Regexp_ind'. cbn [scores_fit calculateComplexity exact_complexity].
  rewrite !andb_true_iff, !Z.ltb_lt, forallb_forall. intros [[Hf Hs] Hp].
  assert (Hl : Forall (λ re, calculateComplexity re = exact_complexity re) subs).
  { apply Forall_forall. intros x Hx. rewrite Forall_forall in IH. apply IH; [done|].
    apply Hf. by apply list_elem_of_In. }
  rewrite (wrapped_sum _ Hl Hs).
  assert (Hn : (0 <= sum_scores exact_complexity subs)%Z)
    by (apply sum_scores_nonneg, Forall_true; intros; apply exact_nonneg).
  pose proof (op_product_nonneg op max _ Hn).
  destruct op; cbn [op_product] in *; try case_match; rewrite ?wrap64_id; try done; lia.
Qed.

(** A starred atom inside [n] starred groups. *)
Fixpoint nested_groups (n : nat) : Regexp :=
  match n with
  | O => Rx OpStar 0 [Rx OpOther 0 []]
  | S n => Rx OpStar 0 [Rx OpCapture 0 [nested_groups n]]
  end.

Definition wrapped_floor : Z := (-6436643063608541516)%Z.

(** A negative score grows by eleven at each level. *)
Lemma wrapped_step re :
  (- 2 ^ 63 <= calculateComplexity re <= -11)%Z →
  calculateComplexity (Rx OpStar 0 [Rx OpCapture 0 [re]]) = (calculateComplexity re + 11)%Z.
Proof.
  cbn [calculateComplexity foldl]. generalize (calculateComplexity re). intros z Hz.
  assert (Hw : ∀ z, (- 2 ^ 63 <= z < 2 ^ 63)%Z → wrap64 z = z)
    by (intros; unfold wrap64; rewrite Z.mod_small; lia).
  rewrite (Hw (0 + z)%Z), (Hw (0 + z + 1)%Z), (Hw (0 + (0 + z + 1))%Z) by lia.
  replace (1 <? _)%Z with false by (symmetry; apply Z.ltb_ge; lia). rewrite Hw; lia.
Qed.

Lemma nested_wraps n :
  (Z.of_nat n < 2 ^ 32)%Z → calculateComplexity (nested_groups (9 + n)) = (wrapped_floor + 11 * Z.of_nat n)%Z.
Proof.
  induction n as [|n IH]; intros Hn; [by vm_compute|]. unfold wrapped_floor in *.
  rewrite Nat.add_succ_r. cbn [nested_groups]. rewrite wrapped_step; rewrite IH; lia.
Qed.

Lemma nested_exact_ge n : (1200 <= exact_complexity (nested_groups (S n)))%Z.
Proof.
  induction n as [|n IH]; [done|]. revert IH. generalize (S n). intros m IH.
  cbn [nested_groups exact_complexity op_product sum_scores foldl].
  unfold sum_scores. cbn [foldl]. case_match; lia.
Qed.

Section guard.
Context `{GoLib, GlobLib, RegexpLib, SyntaxLib}.

(** The complexity guard of regular expressions is the bound it states as long as
    the scores fit in an [int]: a pattern passes exactly when its score is within the
    limit. Beyond that it fails open: groups nested nine deep or more around a starred
    atom, whose score exceeds the default limit of 1000, overflow to a negative score
    and pass, although one to eight levels are refused. *)
Theorem complexity_guard (pattern : string) (re : Regexp) (limit : Z) (n : nat) :
  syntax_Parse pattern = Some re → (0 < limit)%Z → (Z.of_nat n < 2 ^ 32)%Z →
  (scores_fit re = true →
     checkRegexComplexity pattern limit = true ↔ (exact_complexity re <= limit)%Z) ∧
  (re = nested_groups (9 + n) →
     (1000 < exact_complexity re)%Z ∧ checkRegexComplexity pattern limit = true) ∧
  Forall (λ k, calculateComplexity (nested_groups k) > 1000)%Z (seq 1 8).
Proof.
  intros Hp Hl Hn. unfold checkRegexComplexity. rewrite Hp.
  assert (Hz : (limit =? 0)%Z = false) by (apply Z.eqb_neq; lia). rewrite Hz. split_and!.
  - intros Hf. rewrite (complexity_exact re Hf). apply Z.leb_le.
  - intros ->. split; [pose proof (nested_exact_ge (8 + n)); simpl in *; lia|].
    rewrite nested_wraps by done. unfold wrapped_floor. apply Z.leb_le. lia.
  - by repeat constructor.
Qed.
End guard.

(** ** A sample *)
Module PatternSample.
#[local] Existing Instance ascii_go.
#[local] Existing Instance literal_glob.
#[local] Existing Instance literal_regexp.

(** A parser that knows one text: ten stars around [a], nine groups. *)
Definition nested_text : string := "(((((((((a*)*)*)*)*)*)*)*)*)*".
Definition one_syntax : SyntaxLib :=
  {| syntax_Parse := λ s, if String.eqb s nested_text then Some (nested_groups 9)
                          else if String.eqb s "a*" then Some (nested_groups 0) else None |}.
#[local] Existing Instance one_syntax.

Example simple_fits : scores_fit (nested_groups 0) = true ∧ checkRegexComplexity "a*" 1000 = true.
Proof. by vm_compute. Qed.

Lemma complexity_guard_witness :
  (1000 < exact_complexity (nested_groups 9))%Z ∧ checkRegexComplexity nested_text 1000 = true.
Proof.
  destruct (complexity_guard nested_text (nested_groups (9 + 0)) 1000 0) as (_ & Hwrap & _);
    [by vm_compute|lia|lia|].
  by apply Hwrap.
Defined.

(** Replacing a class is seen at once, though it was compiled before. *)
Example replaced_class_seen :
  run_ops classifier_do NewClassifier
    [ClassifyComm "bash"; SetClass "shell" ["fish"]; ClassifyComm "bash"; ClassifyComm "fish";
     AddCustom "bash" ClassAgent; ClassifyComm "bash"]
  = [Some ClassShell; None; Some ClassUnknown; Some ClassShell; None; Some ClassAgent].
Proof. vm_compute. reflexivity. Qed.
End PatternSample.
