(* ===== verification/Identity.v ===== *)
(** * Process identities (internal/policy/identity)

    Platform-specific descriptions of a process, their merge with the all-platform
    one, and the matcher with its cache of compiled patterns. The running platform,
    [runtime.GOOS], is an argument. *)
From Stdlib Require Import Btauto.
From S2P Require Import Prelude Patterns.

Record PlatformMatch := mkPlatformMatch {
  pm_Comm : list string; pm_ExePath : list string; pm_Cmdline : list string;
  pm_BundleID : list string; pm_ExeName : list string }.

Record ProcessIdentity := mkIdentity {
  id_Name : string; Linux : option PlatformMatch; Darwin : option PlatformMatch;
  Windows : option PlatformMatch; AllPlatforms : option PlatformMatch }.

(** What a process looks like to the matcher. *)
Record IdentityInfo := mkIdentityInfo {
  ii_PID : Z; ii_PPID : Z; ii_Comm : string; ii_ExePath : string; ii_Cmdline : list string;
  ii_BundleID : string }.

Definition Merge (pm other : PlatformMatch) : PlatformMatch :=
  mkPlatformMatch (pm_Comm pm ++ pm_Comm other) (pm_ExePath pm ++ pm_ExePath other)
    (pm_Cmdline pm ++ pm_Cmdline other) (pm_BundleID pm ++ pm_BundleID other)
    (pm_ExeName pm ++ pm_ExeName other).

Definition GetPlatformMatch (goos : string) (pi : ProcessIdentity) : option PlatformMatch :=
  let pm := if String.eqb goos "linux" then Linux pi
            else if String.eqb goos "darwin" then Darwin pi
            else if String.eqb goos "windows" then Windows pi else None in
  match pm, AllPlatforms pi with
  | Some pm, Some other => Some (Merge pm other)
  | None, Some other => Some other
  | pm, None => pm
  end.

Definition IsEmpty (pm : option PlatformMatch) : bool :=
  match pm with
  | None => true
  | Some pm => bool_decide (pm_Comm pm = [] ∧ pm_ExePath pm = [] ∧ pm_Cmdline pm = [] ∧
                            pm_BundleID pm = [] ∧ pm_ExeName pm = [])
  end.

(** [extractExeName]: what follows the last slash or backslash. *)
Fixpoint after_last_sep (path best : string) : string :=
  match path with
  | EmptyString => best
  | String c rest =>
      after_last_sep rest (if Ascii.eqb c "/" || Ascii.eqb c "\" then rest else best)
  end.
Definition extractExeName (path : string) : string := after_last_sep path path.

Section identity.
Context `{GoLib, GlobLib, RegexpLib, SyntaxLib} (goos : string).

(** A nil set is [None]. *)
Record compiledIdentity := mkCompiledIdentity {
  ci_comm : option PatternSet; ci_exePath : option PatternSet; ci_cmdline : option PatternSet;
  ci_bundleID : option PatternSet; ci_exeName : option PatternSet }.

Record ProcessMatcher := mkMatcher {
  identities : gmap string ProcessIdentity; pm_compiled : gmap string compiledIdentity;
  pm_registry : ClassRegistry }.

Definition NewProcessMatcherWithRegistry (r : ClassRegistry) : ProcessMatcher := mkMatcher ∅ ∅ r.
Definition NewProcessMatcher : ProcessMatcher := NewProcessMatcherWithRegistry NewClassRegistry.

(** [None] is [ErrEmptyName]. *)
Definition AddIdentity (m : ProcessMatcher) (id : ProcessIdentity) : option ProcessMatcher :=
  if String.eqb (id_Name id) "" then None
  else Some (mkMatcher (<[id_Name id := id]> (identities m)) (delete (id_Name id) (pm_compiled m)) (pm_registry m)).
Definition RemoveIdentity (m : ProcessMatcher) (name : string) : ProcessMatcher :=
  mkMatcher (delete name (identities m)) (delete name (pm_compiled m)) (pm_registry m).
Definition GetIdentity (m : ProcessMatcher) (name : string) : option ProcessIdentity := identities m !! name.
Definition matcher_Clear (m : ProcessMatcher) : ProcessMatcher := mkMatcher ∅ ∅ (pm_registry m).

Definition optional_set (patterns : list string) : option (option PatternSet) :=
  match patterns with [] => Some None | _ => ps ← NewPatternSet patterns; Some (Some ps) end.

Definition compileIdentity (identity : ProcessIdentity) : option compiledIdentity :=
  match GetPlatformMatch goos identity with
  | None => Some (mkCompiledIdentity None None None None None)
  | Some pm =>
      if IsEmpty (Some pm) then Some (mkCompiledIdentity None None None None None)
      else comm ← optional_set (pm_Comm pm);
           exePath ← optional_set (pm_ExePath pm);
           cmdline ← optional_set (pm_Cmdline pm);
           bundleID ← optional_set (pm_BundleID pm);
           exeName ← optional_set (pm_ExeName pm);
           Some (mkCompiledIdentity comm exePath cmdline bundleID exeName)
  end.

(** One set of an identity against one string; an error of the resolver is no match. *)
Definition set_matches (ps : option PatternSet) (resolver : Resolver) (s : string) : bool :=
  match ps with
  | None => false
  | Some ps => (0 <? length ps)%nat && default false (MatchAnyWithResolver ps s resolver)
  end.

Definition matchesCompiled (info : IdentityInfo) (c : compiledIdentity) (resolver : Resolver) : bool :=
  set_matches (ci_comm c) resolver (ii_Comm info)
  || set_matches (ci_exePath c) resolver (ii_ExePath info)
  || existsb (set_matches (ci_cmdline c) resolver) (ii_Cmdline info)
  || (negb (String.eqb (ii_BundleID info) "") && set_matches (ci_bundleID c) resolver (ii_BundleID info))
  || (negb (String.eqb (ii_ExePath info) "") && set_matches (ci_exeName c) resolver (extractExeName (ii_ExePath info))).

Definition getCompiled (m : ProcessMatcher) (name : string) (identity : ProcessIdentity)
    : ProcessMatcher * option compiledIdentity :=
  match pm_compiled m !! name with
  | Some c => (m, Some c)
  | None =>
      match compileIdentity identity with
      | None => (m, None)
      | Some c => (mkMatcher (identities m) (<[name := c]> (pm_compiled m)) (pm_registry m), Some c)
      end
  end.

Definition identity_resolver (m : ProcessMatcher) : Resolver := registry_Get (pm_registry m).

Definition matches_one (m : ProcessMatcher) (info : IdentityInfo) (name : string) (identity : ProcessIdentity)
    : ProcessMatcher * bool :=
  let '(m, c) := getCompiled m name identity in
  (m, match c with Some c => matchesCompiled info c (identity_resolver m) | None => false end).

Definition MatchesIdentity (m : ProcessMatcher) (info : IdentityInfo) (name : string) : ProcessMatcher * bool :=
  match identities m !! name with
  | None => (m, false)
  | Some identity => matches_one m info name identity
  end.

(** [Matches]: the identities in some order of the map. *)
Fixpoint matches_loop (m : ProcessMatcher) (info : IdentityInfo) (ids : list (string * ProcessIdentity))
    : ProcessMatcher * list string :=
  match ids with
  | [] => (m, [])
  | (name, identity) :: ids =>
      let '(m, hit) := matches_one m info name identity in
      let '(m, names) := matches_loop m info ids in
      (m, if hit then name :: names else names)
  end.
Definition Matches (m : ProcessMatcher) (info : IdentityInfo) : ProcessMatcher * list string :=
  matches_loop m info (map_to_list (identities m)).
End identity.

(** ** The cache of compiled identities *)

Section properties.
Context `{GoLib, GlobLib, RegexpLib, SyntaxLib} (goos : string).

(** The reference: compile the identity at every use. *)
Definition identity_matches (resolver : Resolver) (identity : ProcessIdentity) (info : IdentityInfo) : bool :=
  match compileIdentity goos identity with Some c => matchesCompiled info c resolver | None => false end.

Definition matcher_ok (m : ProcessMatcher) : Prop :=
  ∀ name c, pm_compiled m !! name = Some c →
    ∃ identity, identities m !! name = Some identity ∧ compileIdentity goos identity = Some c.

Lemma matcher_invalidate m name (ids : gmap string ProcessIdentity) :
  matcher_ok m → (∀ n, n ≠ name → ids !! n = identities m !! n) →
  matcher_ok (mkMatcher ids (delete name (pm_compiled m)) (pm_registry m)).
Proof.
  intros Hok Hids n c. cbn. rewrite lookup_delete_Some. intros [Hne Hc].
  rewrite Hids by done. by apply Hok.
Qed.

Lemma matches_one_ok m info name identity :
  matcher_ok m → identities m !! name = Some identity →
  matcher_ok (matches_one goos m info name identity).1 ∧
  identities (matches_one goos m info name identity).1 = identities m ∧
  pm_registry (matches_one goos m info name identity).1 = pm_registry m ∧
  (matches_one goos m info name identity).2 = identity_matches (identity_resolver m) identity info.
Proof.
  intros Hok Hid. unfold matches_one, getCompiled, identity_matches.
  destruct (pm_compiled m !! name) as [c|] eqn:Hc.
  { destruct (Hok _ _ Hc) as (identity' & Hid' & Hcomp). rewrite Hid in Hid'. injection Hid' as <-.
    by rewrite Hcomp. }
  destruct (compileIdentity goos identity) as [c|] eqn:Hcomp; [|done]. split_and!; try done.
  intros n c'. cbn. destruct (decide (name = n)) as [<-|Hne].
  - rewrite lookup_insert_eq. intros [= <-]. eauto.
  - rewrite lookup_insert_ne by done. apply Hok.
Qed.

(** Operations on a matcher and on its class registry. *)
Inductive MatcherOp :=
| AddId (id : ProcessIdentity) | RemoveId (name : string) | ClearIds
| SetIdClass (name : string) (patterns : list string) | MatchId (info : IdentityInfo) (name : string).

Definition matcher_do (m : ProcessMatcher) (op : MatcherOp) : ProcessMatcher * option bool :=
  match op with
  | AddId id => (default m (AddIdentity m id), Some (bool_decide (is_Some (AddIdentity m id))))
  | RemoveId name => (RemoveIdentity m name, None)
  | ClearIds => (matcher_Clear m, None)
  | SetIdClass name pats => (mkMatcher (identities m) (pm_compiled m) (registry_Set (pm_registry m) name pats), None)
  | MatchId info name => let '(m, hit) := MatchesIdentity goos m info name in (m, Some hit)
  end.

(** The abstract matcher: identities and classes, nothing compiled. *)
Definition IdSpec : Type := gmap string ProcessIdentity * gmap string (list string).
Definition idspec_do (s : IdSpec) (op : MatcherOp) : IdSpec * option bool :=
  let '(ids, cs) := s in
  match op with
  | AddId id => if String.eqb (id_Name id) "" then (s, Some false) else ((<[id_Name id := id]> ids, cs), Some true)
  | RemoveId name => ((delete name ids, cs), None)
  | ClearIds => ((∅, cs), None)
  | SetIdClass name pats => ((ids, <[name := pats]> cs), None)
  | MatchId info name =>
      (s, Some (match ids !! name with
                | Some id => identity_matches (λ class, cs !! class) id info
                | None => false
                end))
  end.
Definition idspec_of (m : ProcessMatcher) : IdSpec := (identities m, classes (pm_registry m)).

Lemma matcher_simulates m op :
  matcher_ok m →
  matcher_ok (matcher_do m op).1 ∧ idspec_do (idspec_of m) op = (idspec_of (matcher_do m op).1, (matcher_do m op).2).
Proof.
  intros Hok. destruct op as [id|name| |name pats|info name]; cbn [matcher_do idspec_do idspec_of fst snd].
  - unfold AddIdentity. destruct (String.eqb _ _); [done|]. split; [|done].
    apply matcher_invalidate; [done|]. intros. by rewrite lookup_insert_ne.
  - split; [|done]. apply matcher_invalidate; [done|]. intros. by rewrite lookup_delete_ne.
  - split; [|done]. intros n c Hc. cbn in Hc. by rewrite lookup_empty in Hc.
  - done.
  - unfold MatchesIdentity. destruct (identities m !! name) as [id|] eqn:Hid; [|done].
    destruct (matches_one_ok m info name id Hok Hid) as (? & Hids & Hreg & Hhit).
    destruct (matches_one _ _ _ _ _) as [m' hit]. cbn [fst snd] in *. split; [done|].
    unfold idspec_of. by rewrite Hids, Hreg, Hhit.
Qed.

Lemma matcher_run m ops :
  matcher_ok m → run_ops matcher_do m ops = run_ops idspec_do (idspec_of m) ops.
Proof.
  revert m. induction ops as [|op ops IH]; intros m Hok; cbn [run_ops]; [done|].
  destruct (matcher_simulates m op Hok) as [Hok' Hsim]. rewrite Hsim.
  destruct (matcher_do m op) as [m' a]. cbn [fst snd] in *. f_equal. by apply IH.
Qed.

(** ** What an identity matches *)

(** [p] compiles, to a class that the resolver knows if it is one; [p] matches [s]. *)
Definition resolvable (resolver : Resolver) (p : string) : Prop :=
  ∃ c, Compile p = Some c ∧ ∀ s, is_Some (MatchWithResolver c s resolver).
Definition hits (resolver : Resolver) (s p : string) : bool :=
  match Compile p with Some c => default false (MatchWithResolver c s resolver) | None => false end.

Lemma set_matches_hits resolver pats s :
  Forall (resolvable resolver) pats →
  ∃ ps, optional_set pats = Some ps ∧ set_matches ps resolver s = existsb (hits resolver s) pats.
Proof.
  intros Hr. assert (Hset : ∃ ps, NewPatternSet pats = Some ps ∧ length ps = length pats ∧
    MatchAnyWithResolver ps s resolver = Some (existsb (hits resolver s) pats)).
  { induction Hr as [|p pats (c & Hc & Hres) _ (ps & Hps & Hlen & Hany)]; [by exists []|].
    exists (c :: ps). unfold NewPatternSet in *. cbn. rewrite Hc. cbn. rewrite Hps. cbn.
    split_and!; [done|by f_equal|]. unfold hits at 1. rewrite Hc. destruct (Hres s) as [[] ->]; done. }
  destruct Hset as (ps & Hps & Hlen & Hany). destruct pats as [|p pats]; [by exists None|].
  exists (Some ps). unfold optional_set. rewrite Hps. cbn [mbind option_bind]. split; [done|].
  unfold set_matches. rewrite Hany, Hlen. done.
Qed.

Definition platform_hits (resolver : Resolver) (pm : PlatformMatch) (info : IdentityInfo) : bool :=
  existsb (hits resolver (ii_Comm info)) (pm_Comm pm)
  || existsb (hits resolver (ii_ExePath info)) (pm_ExePath pm)
  || existsb (λ arg, existsb (hits resolver arg) (pm_Cmdline pm)) (ii_Cmdline info)
  || (negb (String.eqb (ii_BundleID info) "") && existsb (hits resolver (ii_BundleID info)) (pm_BundleID pm))
  || (negb (String.eqb (ii_ExePath info) "") &&
      existsb (hits resolver (extractExeName (ii_ExePath info))) (pm_ExeName pm)).

Definition platform_resolvable (resolver : Resolver) (pm : PlatformMatch) : Prop :=
  Forall (resolvable resolver) (pm_Comm pm ++ pm_ExePath pm ++ pm_Cmdline pm ++ pm_BundleID pm ++ pm_ExeName pm).

Lemma compiled_hits resolver identity pm info :
  GetPlatformMatch goos identity = Some pm → platform_resolvable resolver pm →
  identity_matches resolver identity info = platform_hits resolver pm info.
Proof.
  intros Hpm. unfold platform_resolvable. rewrite !Forall_app. intros (R1 & R2 & R3 & R4 & R5).
  unfold identity_matches, compileIdentity. rewrite Hpm. destruct (IsEmpty _) eqn:He.
  { unfold IsEmpty in He. apply bool_decide_eq_true in He as (E1 & E2 & E3 & E4 & E5).
    unfold matchesCompiled, platform_hits. rewrite E1, E2, E3, E4, E5. cbn.
    rewrite !andb_false_r, !orb_false_r. by induction (ii_Cmdline info). }
  destruct (set_matches_hits resolver _ (ii_Comm info) R1) as (c1 & -> & M1).
  destruct (set_matches_hits resolver _ (ii_ExePath info) R2) as (c2 & -> & M2).
  destruct (set_matches_hits resolver _ "" R3) as (c3 & S3 & _). rewrite S3.
  destruct (set_matches_hits resolver _ (ii_BundleID info) R4) as (c4 & -> & M4).
  destruct (set_matches_hits resolver _ (extractExeName (ii_ExePath info)) R5) as (c5 & -> & M5).
  cbn [mbind option_bind]. unfold matchesCompiled, platform_hits.
  cbn [ci_comm ci_exePath ci_cmdline ci_bundleID ci_exeName]. rewrite M1, M2, M4, M5.
  do 3 f_equal. apply existsb_ext. intros arg.
  destruct (set_matches_hits resolver _ arg R3) as (c3' & S3' & M3). congruence.
Qed.

Lemma hits_merge resolver pm other info :
  platform_hits resolver (Merge pm other) info = platform_hits resolver pm info || platform_hits resolver other info.
Proof.
  unfold platform_hits, Merge. cbn [pm_Comm pm_ExePath pm_Cmdline pm_BundleID pm_ExeName].
  rewrite !existsb_app.
  assert (Hcmd : ∀ l, existsb (λ arg, existsb (hits resolver arg) (pm_Cmdline pm ++ pm_Cmdline other)) l
    = existsb (λ arg, existsb (hits resolver arg) (pm_Cmdline pm)) l
      || existsb (λ arg, existsb (hits resolver arg) (pm_Cmdline other)) l).
  { induction l as [|x l IH]; simpl; [done|]. rewrite existsb_app, IH. btauto. }
  rewrite Hcmd. btauto.
Qed.

(** The process matcher refines a matcher that compiles nothing in advance: over any
    sequence of additions, removals and class changes its answers are those of the
    current identities and classes. Those answers are what an identity says: when its
    patterns compile and name known classes, a process matches an identity with a
    description for the running platform and one for all platforms exactly when some
    pattern of either matches. An unknown class, though, hides the patterns listed
    after it: the process is then not matched by them. *)
Theorem matcher_refines (ops : list MatcherOp) (resolver : Resolver) name pm other info
    (class : string) (ps : PatternSet) (s raw : string) :
  run_ops matcher_do NewProcessMatcher ops = run_ops idspec_do (∅, BuiltinClasses) ops ∧
  (platform_resolvable resolver (Merge pm other) →
   identity_matches resolver (mkIdentity name (Some pm) (Some pm) (Some pm) (Some other)) info
   = (if bool_decide (goos ∈ ["linux"; "darwin"; "windows"]) then platform_hits resolver pm info else false)
     || platform_hits resolver other info) ∧
  (resolver class = None →
   set_matches (Some (mkPattern raw (CompiledClass class) :: ps)) resolver s = false).
Proof.
  split_and!.
  - apply (matcher_run NewProcessMatcher). intros n c Hc. cbn in Hc. by rewrite lookup_empty in Hc.
  - intros Hr. assert (Ho : platform_resolvable resolver other).
    { revert Hr. unfold platform_resolvable, Merge. cbn. rewrite !Forall_app. tauto. }
    set (id := mkIdentity _ _ _ _ _).
    assert (Hg : GetPlatformMatch goos id =
      Some (if bool_decide (goos ∈ ["linux"; "darwin"; "windows"]) then Merge pm other else other)).
    { unfold GetPlatformMatch, id. cbn. destruct (String.eqb_spec goos "linux") as [->|]; [done|].
      destruct (String.eqb_spec goos "darwin") as [->|]; [done|].
      destruct (String.eqb_spec goos "windows") as [->|]; [done|].
      rewrite bool_decide_eq_false_2; [done|set_solver]. }
    rewrite (compiled_hits resolver id _ info Hg); [|by case_match].
    case_match; [apply hits_merge|done].
  - intros Hc. unfold set_matches. cbn. unfold MatchWithResolver. cbn. rewrite Hc. done.
Qed.
End properties.
