(* ===== verification/Taint.v ===== *)
(** * Process taint (internal/policy/ancestry: taint.go, snapshot.go, integration.go)

    The cache of taints: which processes descend from an AI tool, through which
    processes and under which context. Time is an argument of the operations that read
    the clock; callbacks are the events an operation returns. The taints handed out are
    clones, so a value suffices for each. *)
From S2P Require Import Prelude Patterns.

Record ProcessSnapshot := mkSnapshot {
  snap_Comm : string; snap_ExePath : string; snap_Cmdline : list string; snap_StartTime : Z }.

Record ProcessTaint := mkTaint {
  SourcePID : Z; SourceName : string; ContextName : string; IsAgent : bool;
  Via : list string; ViaClasses : list ProcessClass; Depth : Z; InheritedAt : Z;
  SourceSnapshot : ProcessSnapshot }.

Record ProcessInfo := mkProcessInfo {
  PID : Z; PPID : Z; Comm : string; ExePath : string; Cmdline : list string; StartTime : Z }.

Inductive TaintEvent :=
| TaintCreated (pid : Z) (taint : ProcessTaint)
| TaintPropagated (pid : Z) (taint : ProcessTaint)
| TaintRemoved (pid : Z).

(** The callbacks are set or nil; the matcher and the classifier are optional
    functions. *)
Record TaintCache := mkTaintCache {
  taints : gmap Z ProcessTaint; ttl : Z; maxDepth : Z;
  onTaintCreated : bool; onTaintPropagated : bool; onTaintRemoved : bool;
  matchesTaintSource : option (ProcessInfo → option string);
  classifyProcess : option (string → ProcessClass) }.

Definition with_taints (c : TaintCache) (m : gmap Z ProcessTaint) : TaintCache :=
  mkTaintCache m (ttl c) (maxDepth c) (onTaintCreated c) (onTaintPropagated c) (onTaintRemoved c)
    (matchesTaintSource c) (classifyProcess c).

Inductive RaceAction := RaceActionDeny | RaceActionAllow | RaceActionApprove.
Record RacePolicy := mkRacePolicy {
  rp_OnMissingParent : RaceAction; rp_OnPIDMismatch : RaceAction; rp_OnValidationError : RaceAction;
  rp_LogRaceConditions : bool }.
Definition DefaultRacePolicy : RacePolicy := mkRacePolicy RaceActionAllow RaceActionDeny RaceActionDeny true.

Record PropagationConfig := mkPropagation { pc_MaxDepth : Z; pc_TTL : Z; pc_RacePolicy : RacePolicy }.
(** One hour, in nanoseconds. *)
Definition Hour : Z := 3600000000000.
Definition DefaultPropagationConfig : PropagationConfig := mkPropagation 100 Hour DefaultRacePolicy.

Record TaintCacheConfig := mkTaintConfig { tc_TTL : Z; tc_MaxDepth : Z }.
Definition TaintCacheConfigFromPropagation (pc : PropagationConfig) : TaintCacheConfig :=
  mkTaintConfig (pc_TTL pc) (pc_MaxDepth pc).

Definition NewTaintCache (cfg : TaintCacheConfig) : TaintCache :=
  mkTaintCache ∅ (tc_TTL cfg) (tc_MaxDepth cfg) false false false None None.

Definition SetMatchesTaintSource (c : TaintCache) (fn : option (ProcessInfo → option string)) : TaintCache :=
  mkTaintCache (taints c) (ttl c) (maxDepth c) (onTaintCreated c) (onTaintPropagated c)
    (onTaintRemoved c) fn (classifyProcess c).
Definition SetClassifyProcess (c : TaintCache) (fn : option (string → ProcessClass)) : TaintCache :=
  mkTaintCache (taints c) (ttl c) (maxDepth c) (onTaintCreated c) (onTaintPropagated c)
    (onTaintRemoved c) (matchesTaintSource c) fn.
Definition SetOnTaintCreated (c : TaintCache) (set : bool) : TaintCache :=
  mkTaintCache (taints c) (ttl c) (maxDepth c) set (onTaintPropagated c) (onTaintRemoved c)
    (matchesTaintSource c) (classifyProcess c).
Definition SetOnTaintPropagated (c : TaintCache) (set : bool) : TaintCache :=
  mkTaintCache (taints c) (ttl c) (maxDepth c) (onTaintCreated c) set (onTaintRemoved c)
    (matchesTaintSource c) (classifyProcess c).
Definition SetOnTaintRemoved (c : TaintCache) (set : bool) : TaintCache :=
  mkTaintCache (taints c) (ttl c) (maxDepth c) (onTaintCreated c) (onTaintPropagated c) set
    (matchesTaintSource c) (classifyProcess c).

Definition IsTainted (c : TaintCache) (pid : Z) : option ProcessTaint := taints c !! pid.

(** The taint a child inherits, and that of a source. *)
Definition class_of_comm (c : TaintCache) (comm : string) : ProcessClass :=
  match classifyProcess c with Some f => f comm | None => ClassUnknown end.
Definition child_taint (c : TaintCache) (parentTaint : ProcessTaint) (info : ProcessInfo) (now : Z) : ProcessTaint :=
  mkTaint (SourcePID parentTaint) (SourceName parentTaint) (ContextName parentTaint) (IsAgent parentTaint)
    (Via parentTaint ++ [Comm info]) (ViaClasses parentTaint ++ [class_of_comm c (Comm info)])
    (Depth parentTaint + 1) now (SourceSnapshot parentTaint).
Definition source_taint (pid : Z) (contextName : string) (info : ProcessInfo) (now : Z) : ProcessTaint :=
  mkTaint pid (Comm info) contextName false [] [] 0 now
    (mkSnapshot (Comm info) (ExePath info) (Cmdline info) (StartTime info)).

Definition OnSpawn (c : TaintCache) (pid ppid : Z) (info : ProcessInfo) (now : Z) : TaintCache * list TaintEvent :=
  match taints c !! ppid with
  | Some parentTaint =>
      if (0 <? maxDepth c)%Z && (maxDepth c <=? Depth parentTaint)%Z then (c, [])
      else let childTaint := child_taint c parentTaint info now in
           (with_taints c (<[pid := childTaint]> (taints c)),
            if onTaintPropagated c then [TaintPropagated pid childTaint] else [])
  | None =>
      match matchesTaintSource c ≫= λ f, f info with
      | Some contextName =>
          let taint := source_taint pid contextName info now in
          (with_taints c (<[pid := taint]> (taints c)),
           if onTaintCreated c then [TaintCreated pid taint] else [])
      | None => (c, [])
      end
  end.

Definition OnExit (c : TaintCache) (pid : Z) : TaintCache * list TaintEvent :=
  (with_taints c (delete pid (taints c)),
   if bool_decide (is_Some (taints c !! pid)) && onTaintRemoved c then [TaintRemoved pid] else []).

Definition as_agent (t : ProcessTaint) : ProcessTaint :=
  mkTaint (SourcePID t) (SourceName t) (ContextName t) true (Via t) (ViaClasses t) (Depth t) (InheritedAt t)
    (SourceSnapshot t).
Definition MarkAsAgent (c : TaintCache) (pid : Z) : TaintCache * bool :=
  match taints c !! pid with
  | Some taint => (with_taints c (<[pid := as_agent taint]> (taints c)), true)
  | None => (c, false)
  end.

Definition Count (c : TaintCache) : nat := size (taints c).
Definition ListPIDs (c : TaintCache) : list Z := (map_to_list (taints c)).*1.

(** One tick of [cleanupLoop]; the expired entries come in some order of the map. *)
Definition expired (c : TaintCache) (now : Z) (t : ProcessTaint) : bool := (ttl c <? now - InheritedAt t)%Z.
Definition cleanup (c : TaintCache) (now : Z) : TaintCache * list TaintEvent :=
  (with_taints c (filter (λ kv, expired c now kv.2 = false) (taints c)),
   if onTaintRemoved c
   then TaintRemoved <$> (map_to_list (filter (λ kv, expired c now kv.2 = true) (taints c))).*1
   else []).

Definition cache_Clear (c : TaintCache) : TaintCache := with_taints c ∅.

(** ** Snapshots (snapshot.go) *)

Inductive ValidationResult := ValidationValid | ValidationMissing | ValidationPIDMismatch | ValidationError.
#[export] Instance ValidationResult_eq_dec : EqDecision ValidationResult.
Proof. solve_decision. Defined.

(** [CaptureSnapshot] asks the operating system; [None] is an error. *)
Class ProcLib := { CaptureSnapshot : Z → option ProcessSnapshot }.

Section snapshots.
Context `{ProcLib}.

Definition ValidateSnapshot (pid : Z) (snapshot : option ProcessSnapshot) : bool :=
  match snapshot with
  | None => false
  | Some snapshot =>
      match CaptureSnapshot pid with
      | None => true
      | Some current => (snap_StartTime current =? snap_StartTime snapshot)%Z
      end
  end.

Definition ValidateSnapshotDetailed (pid : Z) (snapshot : option ProcessSnapshot) : ValidationResult :=
  match snapshot with
  | None => ValidationMissing
  | Some snapshot =>
      match CaptureSnapshot pid with
      | None => ValidationValid
      | Some current =>
          if (snap_StartTime current =? snap_StartTime snapshot)%Z then ValidationValid else ValidationPIDMismatch
      end
  end.
End snapshots.

(** ** Events of the process tree (integration.go) *)

(** A node as the process tree reports it; the provider of details may fail or be nil. *)
Record ProcessNode := mkNode { node_PID : Z; node_PPID : Z; node_Command : string; node_Args : list string }.

Definition spawn_info (infoProvider : option (Z → option ProcessInfo)) (node : ProcessNode) : ProcessInfo :=
  let info := match infoProvider ≫= λ f, f (node_PID node) with
              | Some e => mkProcessInfo (node_PID node) (node_PPID node) (Comm e) (ExePath e) (Cmdline e) (StartTime e)
              | None => mkProcessInfo (node_PID node) (node_PPID node) (node_Command node) "" [] 0
              end in
  mkProcessInfo (PID info) (PPID info)
    (if String.eqb (Comm info) "" then node_Command node else Comm info) (ExePath info)
    (match Cmdline info, node_Args node with
     | [], _ :: _ => node_Command node :: node_Args node
     | cmdline, _ => cmdline
     end) (StartTime info).

Definition handleSpawn (infoProvider : option (Z → option ProcessInfo)) (c : TaintCache) (node : ProcessNode)
    (now : Z) : TaintCache * list TaintEvent :=
  OnSpawn c (node_PID node) (node_PPID node) (spawn_info infoProvider node) now.
Definition handleExit (c : TaintCache) (node : ProcessNode) : TaintCache * list TaintEvent :=
  OnExit c (node_PID node).

(** *** Shape of a chain (classifier.go) *)
Definition AnalyzeTaint (t : option ProcessTaint) : ChainAnalysis :=
  match t with None => empty_analysis | Some t => AnalyzeChain (ViaClasses t) end.
Definition IsLikelyUserTerminal (t : option ProcessTaint) : bool :=
  match t with
  | Some t => (Depth t =? 1)%Z && match ViaClasses t with [class] => bool_decide (class = ClassShell) | _ => false end
  | None => false
  end.
Definition IsLikelyEditorFeature (t : option ProcessTaint) : bool :=
  match t with
  | Some t => existsb (λ class, bool_decide (class = ClassLanguageServer) || bool_decide (class = ClassBuildTool))
                (ViaClasses t)
  | None => false
  end.

(** ** The cache as a machine *)

Inductive TaintOp :=
| Spawn (pid ppid : Z) (info : ProcessInfo) (now : Z) | Exit (pid : Z) | Mark (pid : Z)
| Tick (now : Z) | ClearAll.

Definition taint_step (c : TaintCache) (op : TaintOp) : TaintCache :=
  match op with
  | Spawn pid ppid info now => (OnSpawn c pid ppid info now).1
  | Exit pid => (OnExit c pid).1
  | Mark pid => (MarkAsAgent c pid).1
  | Tick now => (cleanup c now).1
  | ClearAll => cache_Clear c
  end.
Definition taint_run (c : TaintCache) (h : list TaintOp) : TaintCache := foldl taint_step c h.

(** Nothing but the map of taints changes. *)
Definition same_config (c d : TaintCache) : Prop := d = with_taints c (taints d).

Lemma same_config_trans c d e : same_config c d → same_config d e → same_config c e.
Proof. unfold same_config. intros ->. simpl. intros ->. done. Qed.

Lemma taint_step_config c op : same_config c (taint_step c op).
Proof.
  unfold same_config. destruct c, op; unfold taint_step, OnSpawn, OnExit, MarkAsAgent, cleanup; simpl;
    by repeat case_match.
Qed.

Lemma taint_run_config c h : same_config c (taint_run c h).
Proof.
  induction h as [|op h IH] using rev_ind; [by destruct c|]. unfold taint_run in *. rewrite foldl_snoc.
  eapply same_config_trans; [exact IH|]. apply taint_step_config.
Qed.

(** After the history [h], process [pid] descends from the source [src], described by
    [sinfo] and matched to the context [ctx], through the spawns [via]. *)
Inductive Lineage (c : TaintCache) : list TaintOp → Z → Z → ProcessInfo → string → list ProcessInfo → Prop :=
| Lineage_source h pid ppid info now ctx :
    (matchesTaintSource c ≫= λ f, f info) = Some ctx →
    Lineage c (h ++ [Spawn pid ppid info now]) pid pid info ctx []
| Lineage_child h pid ppid info now src sinfo ctx via :
    Lineage c h ppid src sinfo ctx via →
    Lineage c (h ++ [Spawn pid ppid info now]) pid src sinfo ctx (via ++ [info])
| Lineage_later h op pid src sinfo ctx via :
    Lineage c h pid src sinfo ctx via → Lineage c (h ++ [op]) pid src sinfo ctx via.

(** The taint [t] records that descent, and was marked by some [Mark] if it is an agent. *)
Definition records (c : TaintCache) (h : list TaintOp) (pid : Z) (t : ProcessTaint) : Prop :=
  ∃ sinfo via,
    Lineage c h pid (SourcePID t) sinfo (ContextName t) via ∧
    SourceName t = Comm sinfo ∧
    SourceSnapshot t = mkSnapshot (Comm sinfo) (ExePath sinfo) (Cmdline sinfo) (StartTime sinfo) ∧
    Via t = Comm <$> via ∧ ViaClasses t = class_of_comm c ∘ Comm <$> via ∧
    Depth t = Z.of_nat (length via) ∧ ((0 < maxDepth c)%Z → (Depth t <= maxDepth c)%Z) ∧
    (IsAgent t = true → ∃ q, Mark q ∈ h).

Lemma records_later c h op pid t : records c h pid t → records c (h ++ [op]) pid t.
Proof.
  intros (sinfo & via & Hl & ? & ? & ? & ? & ? & ? & Ha). exists sinfo, via.
  split_and!; auto using Lineage_later. intros (q & Hq)%Ha. exists q. set_solver.
Qed.

Lemma records_agent c h pid q t : records c h pid t → records c (h ++ [Mark q]) pid (as_agent t).
Proof.
  intros (sinfo & via & Hl & ? & ? & ? & ? & ? & ? & Ha). exists sinfo, via.
  split_and!; simpl; auto using Lineage_later. intros _. exists q. set_solver.
Qed.

Lemma records_source c h pid ppid info now ctx :
  (matchesTaintSource c ≫= λ f, f info) = Some ctx →
  records c (h ++ [Spawn pid ppid info now]) pid (source_taint pid ctx info now).
Proof. intros Hm. exists info, []. split_and!; simpl; try done; [by apply Lineage_source|lia]. Qed.

Lemma records_child c h pid ppid info now pt :
  records c h ppid pt → ((0 <? maxDepth c) && (maxDepth c <=? Depth pt) = false)%Z →
  records c (h ++ [Spawn pid ppid info now]) pid (child_taint c pt info now).
Proof.
  intros (sinfo & via & Hl & ? & ? & Hv & Hc & Hd & Hm & Ha) Hlim. exists sinfo, (via ++ [info]).
  split_and!; simpl; try done.
  - by apply Lineage_child.
  - by rewrite Hv, fmap_app.
  - by rewrite Hc, fmap_app.
  - rewrite length_app. simpl. lia.
  - intros Hpos. apply andb_false_iff in Hlim as [Hlim%Z.ltb_ge|Hlim%Z.leb_gt]; lia.
  - intros (q & Hq)%Ha. exists q. set_solver.
Qed.

Lemma records_step c h d op :
  same_config c d → (∀ pid t, taints d !! pid = Some t → records c h pid t) →
  ∀ pid t, taints (taint_step d op) !! pid = Some t → records c (h ++ [op]) pid t.
Proof.
  intros Hcfg IH pid t. unfold same_config in Hcfg.
  assert (Hold : taints d !! pid = Some t → records c (h ++ [op]) pid t)
    by (intros; by apply records_later, IH).
  destruct op as [q ppid info now|q|q|now|]; cbn [taint_step].
  - unfold OnSpawn. destruct (taints d !! ppid) as [pt|] eqn:Hp.
    + destruct ((0 <? maxDepth d)%Z && _) eqn:Hlim; [done|]. simpl.
      intros [[-> <-]|[_ Hlook]]%lookup_insert_Some; [|by apply Hold].
      assert (Hct : child_taint d pt info now = child_taint c pt info now) by (by rewrite Hcfg).
      rewrite Hct. rewrite Hcfg in Hlim. by apply records_child; [apply IH|].
    + destruct (_ ≫= _) as [ctx|] eqn:Hm; [|done]. simpl.
      intros [[-> <-]|[_ Hlook]]%lookup_insert_Some; [|by apply Hold].
      apply records_source. by rewrite Hcfg in Hm.
  - simpl. intros [_ Hlook]%lookup_delete_Some. by apply Hold.
  - unfold MarkAsAgent. destruct (taints d !! q) as [qt|] eqn:Hq; [|done]. simpl.
    intros [[-> <-]|[_ Hlook]]%lookup_insert_Some; [|by apply Hold]. by apply records_agent, IH.
  - simpl. intros [Hlook _]%map_lookup_filter_Some. by apply Hold.
  - simpl. by rewrite lookup_empty.
Qed.

(** C20. Taint has provenance. Start from a cache with no taints and let processes be
    spawned, exit, be marked as agents, and entries expire or be cleared in any order.
    Every tainted process then descends, by spawns that happened in that order, from
    a process that the matcher recognised as a source; its taint carries that source's
    name, snapshot and context, the names and classes of the processes in between in
    order, their number as depth, which stays within the limit, and is an agent's only
    if some process was marked. *)
Theorem taint_provenance (c : TaintCache) (h : list TaintOp) (pid : Z) (t : ProcessTaint) :
  taints c = ∅ → taints (taint_run c h) !! pid = Some t → records c h pid t.
Proof.
  intros Hempty. revert pid t. induction h as [|op h IH] using rev_ind.
  - intros pid t. simpl. by rewrite Hempty, lookup_empty.
  - unfold taint_run. rewrite foldl_snoc. apply records_step; [apply taint_run_config|exact IH].
Qed.

(** *** Inheritance and persistence *)

(** An operation that leaves the taint a process got at time [born]. *)
Definition keeps (pid born ttl : Z) (op : TaintOp) : Prop :=
  match op with
  | Spawn q _ _ _ | Exit q => q ≠ pid
  | Mark _ => True
  | Tick now => (now - born <= ttl)%Z
  | ClearAll => False
  end.

(** Equal, up to having been marked as an agent. *)
Definition agent_le (t t' : ProcessTaint) : Prop := t' = t ∨ t' = as_agent t.

Lemma keeps_step c op pid t :
  taints c !! pid = Some t → keeps pid (InheritedAt t) (ttl c) op →
  ∃ t', taints (taint_step c op) !! pid = Some t' ∧ agent_le t t'.
Proof.
  intros Ht Hk. destruct op as [q ppid info now|q|q|now|]; cbn [taint_step keeps] in *.
  - exists t. split; [|by left]. unfold OnSpawn.
    repeat case_match; simpl; rewrite ?lookup_insert_ne; done.
  - exists t. split; [|by left]. simpl. by rewrite lookup_delete_ne.
  - unfold MarkAsAgent. destruct (decide (q = pid)) as [->|Hne].
    + rewrite Ht. simpl. exists (as_agent t). rewrite lookup_insert_eq. split; [done|by right].
    + exists t. split; [|by left]. case_match; simpl; [|done]. by rewrite lookup_insert_ne.
  - exists t. split; [|by left]. simpl. apply map_lookup_filter_Some. split; [done|].
    simpl. unfold expired. apply Z.ltb_ge. lia.
  - done.
Qed.

Lemma agent_le_trans t t' t'' : agent_le t t' → agent_le t' t'' → agent_le t t''.
Proof. intros [->| ->] [->| ->]; [by left|by right|by right|by right]. Qed.
Lemma agent_le_born t t' : agent_le t t' → InheritedAt t' = InheritedAt t.
Proof. by intros [->| ->]. Qed.

Lemma keeps_run c h pid t :
  taints c !! pid = Some t → Forall (keeps pid (InheritedAt t) (ttl c)) h →
  ∃ t', taints (taint_run c h) !! pid = Some t' ∧ agent_le t t'.
Proof.
  revert c t. induction h as [|op h IH]; intros c t Ht Hk; [by exists t; split; [|left]|].
  apply Forall_cons in Hk as [Hop Hk]. destruct (keeps_step c op pid t Ht Hop) as (t1 & Ht1 & Hle).
  pose proof (taint_step_config c op) as Hcfg.
  destruct (IH (taint_step c op) t1 Ht1) as (t2 & Ht2 & Hle2).
  { rewrite (agent_le_born _ _ Hle). by rewrite Hcfg. }
  exists t2. split; [done|by eapply agent_le_trans].
Qed.

Lemma spawned_child (c : TaintCache) (pid ppid : Z) (info : ProcessInfo) (now : Z) (pt : ProcessTaint)
    (h : list TaintOp) :
  taints c !! ppid = Some pt → (maxDepth c <= 0 ∨ Depth pt < maxDepth c)%Z → Forall (keeps pid now (ttl c)) h →
  ∃ t, taints (taint_run (OnSpawn c pid ppid info now).1 h) !! pid = Some t ∧
    agent_le (child_taint c pt info now) t.
Proof.
  intros Hp Hlim Hk. unfold OnSpawn. rewrite Hp.
  assert (Hg : ((0 <? maxDepth c) && (maxDepth c <=? Depth pt) = false)%Z).
  { apply andb_false_iff. rewrite Z.ltb_ge, Z.leb_gt. lia. }
  rewrite Hg. simpl. by eapply keeps_run; [apply lookup_insert_eq|].
Qed.

(** A child cannot shed its parent's taint: spawned below a tainted process within
    the depth limit, it is tainted with the same source, snapshot and context, its own
    name appended to the path, and as an agent if the parent was one; and it stays so
    through everything that happens until it exits, its entry is cleared or outlives
    the time to live. At the limit a spawn changes nothing: the child is not tainted,
    not even if it is itself a source. *)
Theorem taint_inherited (c : TaintCache) (pid ppid : Z) (info : ProcessInfo) (now : Z) (pt : ProcessTaint)
    (h : list TaintOp) :
  taints c !! ppid = Some pt →
  ((maxDepth c <= 0 ∨ Depth pt < maxDepth c)%Z → Forall (keeps pid now (ttl c)) h →
   ∃ t, taints (taint_run (OnSpawn c pid ppid info now).1 h) !! pid = Some t ∧
     SourcePID t = SourcePID pt ∧ SourceSnapshot t = SourceSnapshot pt ∧ ContextName t = ContextName pt ∧
     Via t = Via pt ++ [Comm info] ∧ ViaClasses t = ViaClasses pt ++ [class_of_comm c (Comm info)] ∧
     Depth t = (Depth pt + 1)%Z ∧ (IsAgent pt = true → IsAgent t = true)) ∧
  ((0 < maxDepth c <= Depth pt)%Z → OnSpawn c pid ppid info now = (c, [])).
Proof.
  intros Hp. split.
  - intros Hlim Hk. destruct (spawned_child c pid ppid info now pt h Hp Hlim Hk) as (t & Ht & Hle).
    exists t. split; [done|]. by destruct Hle as [->| ->].
  - intros Hlim. unfold OnSpawn. rewrite Hp.
    assert (Hg : ((0 <? maxDepth c) && (maxDepth c <=? Depth pt) = true)%Z).
    { apply andb_true_iff. rewrite Z.ltb_lt, Z.leb_le. lia. }
    by rewrite Hg.
Qed.
