(* ===== verification/ChainRules.v ===== *)
(** * Chain rules (internal/policy/ancestry/chain.go)

    Conditions on the path from a taint source to a process, their evaluation, and the
    rules that act on them. The YAML-side types of model.go, [ChainConditionConfig] and
    [ConsecutiveMatchConfig], have the same fields and use the same records. A nil
    pointer is [None]. *)
From S2P Require Import Prelude PolicyEngine Patterns Taint.

Record ConsecutiveMatch := mkConsecutive { cm_Value : string; cm_CountGE : Z; cm_CountLE : Z }.

(** The leaf fields of [ChainCondition]. *)
Record ChainLeaf := mkLeaf {
  q_ViaIndex : option Z; q_ViaIndexValue : string; q_ViaContains : list string;
  q_ViaNotContains : list string; q_ViaMatches : list string;
  q_ClassContains : list string; q_ClassNotContains : list string;
  q_ConsecutiveClass : option ConsecutiveMatch; q_ConsecutiveComm : option ConsecutiveMatch;
  q_DepthEQ : option Z; q_DepthGT : option Z; q_DepthLT : option Z; q_DepthGE : option Z; q_DepthLE : option Z;
  q_IsTainted : option bool; q_IsAgent : option bool;
  q_EnvContains : list string; q_ArgsContain : list string; q_CommMatches : list string;
  q_PathMatches : list string; q_SourceName : list string; q_SourceContext : list string }.

Inductive ChainCondition :=
| Condition (leaf : ChainLeaf) (Or And : list (option ChainCondition)) (Not : option ChainCondition).

Record ExecutionContext := mkExecCtx {
  x_Comm : string; x_Args : list string; x_ExePath : string; x_Env : option (gmap string string) }.

(** [ChainAction] is a string type. *)
Definition ActionAllowNormalPolicy : string := "allow_normal_policy".
Definition ActionApplyContextPolicy : string := "apply_context_policy".
Definition ActionDeny : string := "deny".
Definition ActionApprove : string := "approve".
Definition ActionMarkAsAgent : string := "mark_as_agent".
Definition ActionAllow : string := "allow".

Record ChainRule := mkChainRule {
  cr_Name : string; cr_Priority : Z; cr_Condition : option ChainCondition; cr_Action : string;
  cr_Message : string; cr_Continue : bool }.

Section chain.
Context `{GoLib, GlobLib, RegexpLib, SyntaxLib, SortLib}.

(** The evaluator's registry is the built-in one and nothing changes it: only [Get] is
    called, through [GetResolver]. *)
Definition resolver : Resolver := registry_Get NewClassRegistry.
Definition pattern_hit (p : Pattern) (s : string) : bool := default false (MatchWithResolver p s resolver).

Definition checkViaIndex (taint : option ProcessTaint) (index : Z) (value : string) : bool :=
  match taint with
  | None => false
  | Some taint =>
      if (index <? 0)%Z then false
      else match Via taint !! Z.to_nat index with
           | None => false
           | Some v =>
               match Compile value with
               | None => String.eqb v value
               | Some p => pattern_hit p v
               end
           end
  end.

Definition checkViaContains (taint : option ProcessTaint) (patterns : list string) : bool :=
  match taint with
  | None => false
  | Some taint =>
      existsb (λ p, match Compile p with
                    | None => existsb (λ v, String.eqb v p) (Via taint)
                    | Some c => existsb (pattern_hit c) (Via taint)
                    end) patterns
  end.

Definition checkViaMatches (taint : option ProcessTaint) (patterns : list string) : bool :=
  match taint with
  | None => false
  | Some taint =>
      existsb (λ p, match Compile p with
                    | None => false
                    | Some c => existsb (pattern_hit c) (Via taint)
                    end) patterns
  end.

Definition checkClassContains (taint : option ProcessTaint) (classNames : list string) : bool :=
  match taint with
  | None => false
  | Some taint =>
      existsb (λ className,
        let targetClass := ParseProcessClass className in
        if bool_decide (targetClass = ClassUnknown) && negb (String.eqb className "unknown") then false
        else existsb (λ c, bool_decide (c = targetClass)) (ViaClasses taint)) classNames
  end.

Definition count_within (count : nat) (m : ConsecutiveMatch) : bool :=
  negb ((0 <? cm_CountGE m)%Z && (Z.of_nat count <? cm_CountGE m)%Z) &&
  negb ((0 <? cm_CountLE m)%Z && (cm_CountLE m <? Z.of_nat count)%Z).

Definition checkConsecutiveClass (taint : option ProcessTaint) (m : ConsecutiveMatch) : bool :=
  match taint with
  | None => false
  | Some taint => count_within (CountConsecutive (ViaClasses taint) (ParseProcessClass (cm_Value m))) m
  end.

Definition checkConsecutiveComm (taint : option ProcessTaint) (m : ConsecutiveMatch) : bool :=
  match taint with
  | None => false
  | Some taint => count_within (CountConsecutiveComm (Via taint) [cm_Value m]) m
  end.

(** A condition that is set holds. *)
Definition when_set {A} (o : option A) (test : A → bool) : bool := match o with None => true | Some a => test a end.
Definition when_some {A} (l : list A) (test : list A → bool) : bool := match l with [] => true | _ => test l end.

Definition checkDepth (taint : option ProcessTaint) (cond : ChainLeaf) : bool :=
  let depth := match taint with Some taint => Depth taint | None => 0%Z end in
  when_set (q_DepthEQ cond) (λ n, depth =? n)%Z &&
  when_set (q_DepthGT cond) (λ n, negb (depth <=? n))%Z &&
  when_set (q_DepthLT cond) (λ n, negb (n <=? depth))%Z &&
  when_set (q_DepthGE cond) (λ n, negb (depth <? n))%Z &&
  when_set (q_DepthLE cond) (λ n, negb (n <? depth))%Z.

Definition checkEnvContains (ctx : ExecutionContext) (patterns : list string) : bool :=
  match x_Env ctx with
  | None => false
  | Some env =>
      existsb (λ p,
        match Compile p with
        | None => existsb (λ kv : string * string, String.eqb kv.1 p || String.eqb kv.2 p
                             || Contains (kv.1 +:+ "=" +:+ kv.2) p) (map_to_list env)
        | Some c => existsb (λ kv : string * string, pattern_hit c kv.1 || pattern_hit c kv.2) (map_to_list env)
        end) patterns
  end.

Definition checkArgsContain (ctx : ExecutionContext) (patterns : list string) : bool :=
  existsb (λ p,
    match Compile p with
    | None => existsb (λ arg, String.eqb arg p || Contains arg p) (x_Args ctx)
    | Some c => existsb (pattern_hit c) (x_Args ctx)
    end) patterns.

Definition checkPatternMatches (value : string) (patterns : list string) : bool :=
  if String.eqb value "" then false
  else existsb (λ p, match Compile p with None => String.eqb value p | Some c => pattern_hit c value end) patterns.

Definition checkSourceName (taint : option ProcessTaint) (patterns : list string) : bool :=
  match taint with None => false | Some taint => checkPatternMatches (SourceName taint) patterns end.
Definition checkSourceContext (taint : option ProcessTaint) (patterns : list string) : bool :=
  match taint with None => false | Some taint => checkPatternMatches (ContextName taint) patterns end.

Definition evaluateLeafConditions (cond : ChainLeaf) (taint : option ProcessTaint) (ctx : option ExecutionContext)
    : bool :=
  when_set (q_ViaIndex cond) (λ i,
    if String.eqb (q_ViaIndexValue cond) "" then true else checkViaIndex taint i (q_ViaIndexValue cond)) &&
  when_some (q_ViaContains cond) (checkViaContains taint) &&
  when_some (q_ViaNotContains cond) (λ l, negb (checkViaContains taint l)) &&
  when_some (q_ViaMatches cond) (checkViaMatches taint) &&
  when_some (q_ClassContains cond) (checkClassContains taint) &&
  when_some (q_ClassNotContains cond) (λ l, negb (checkClassContains taint l)) &&
  when_set (q_ConsecutiveClass cond) (checkConsecutiveClass taint) &&
  when_set (q_ConsecutiveComm cond) (checkConsecutiveComm taint) &&
  checkDepth taint cond &&
  when_set (q_IsTainted cond) (λ b, Bool.eqb b (bool_decide (is_Some taint))) &&
  when_set (q_IsAgent cond) (λ b, Bool.eqb b (match taint with Some taint => IsAgent taint | None => false end)) &&
  when_set ctx (λ ctx,
    when_some (q_EnvContains cond) (checkEnvContains ctx) &&
    when_some (q_ArgsContain cond) (checkArgsContain ctx) &&
    when_some (q_CommMatches cond) (checkPatternMatches (x_Comm ctx)) &&
    when_some (q_PathMatches cond) (checkPatternMatches (x_ExePath ctx))) &&
  when_some (q_SourceName cond) (checkSourceName taint) &&
  when_some (q_SourceContext cond) (checkSourceContext taint).

(** [Evaluate]: a nil condition holds; [Or], then [And], then [Not] hide the rest. *)
Fixpoint eval_condition (taint : option ProcessTaint) (ctx : option ExecutionContext) (cond : ChainCondition) : bool :=
  let eval_opt := λ o : option ChainCondition,
    match o with None => true | Some sub => eval_condition taint ctx sub end in
  match cond with
  | Condition leaf (o :: Or) _ _ => existsb eval_opt (o :: Or)
  | Condition leaf [] (a :: And) _ => forallb eval_opt (a :: And)
  | Condition leaf [] [] (Some sub) => negb (eval_condition taint ctx sub)
  | Condition leaf [] [] None => evaluateLeafConditions leaf taint ctx
  end.
Definition Evaluate (taint : option ProcessTaint) (ctx : option ExecutionContext) (cond : option ChainCondition) : bool :=
  match cond with None => true | Some cond => eval_condition taint ctx cond end.

(** ** Rules *)

Definition rule_less (a b : ChainRule) : bool := (cr_Priority b <? cr_Priority a)%Z.
Definition SetRules (rules : list ChainRule) : list ChainRule := sort_Slice rule_less rules.
Definition AddRule (sorted : list ChainRule) (rule : ChainRule) : list ChainRule :=
  sort_Slice rule_less (sorted ++ [rule]).

Definition rule_matches (taint : option ProcessTaint) (ctx : option ExecutionContext) (r : ChainRule) : bool :=
  Evaluate taint ctx (cr_Condition r).

(** [ChainRuleEvaluator.Evaluate]. *)
Definition EvaluateFirst (rules : list ChainRule) (taint : option ProcessTaint) (ctx : option ExecutionContext)
    : option ChainRule := find_first (rule_matches taint ctx) rules.

Fixpoint EvaluateAll (rules : list ChainRule) (taint : option ProcessTaint) (ctx : option ExecutionContext)
    : list ChainRule :=
  match rules with
  | [] => []
  | rule :: rules =>
      if rule_matches taint ctx rule
      then rule :: (if cr_Continue rule then EvaluateAll rules taint ctx else [])
      else EvaluateAll rules taint ctx
  end.

(** The loop of [EvaluateWithContinue]: the matches so far and the last action. *)
Fixpoint continue_loop (rules : list ChainRule) (taint : option ProcessTaint) (ctx : option ExecutionContext)
    (found : list ChainRule) (finalAction : string) : list ChainRule * string :=
  match rules with
  | [] => (found, finalAction)
  | rule :: rules =>
      if rule_matches taint ctx rule
      then if cr_Continue rule then continue_loop rules taint ctx (found ++ [rule]) (cr_Action rule)
           else (found ++ [rule], cr_Action rule)
      else continue_loop rules taint ctx found finalAction
  end.
Definition EvaluateWithContinue (rules : list ChainRule) (taint : option ProcessTaint)
    (ctx : option ExecutionContext) : list ChainRule * string := continue_loop rules taint ctx [] "".

(** ** Properties *)

Lemma continue_loop_all rules taint ctx found final :
  (continue_loop rules taint ctx found final).1 = found ++ EvaluateAll rules taint ctx.
Proof.
  revert found final. induction rules as [|r rules IH]; intros found final; simpl; [by rewrite app_nil_r|].
  destruct (rule_matches taint ctx r); [|by rewrite IH].
  destruct (cr_Continue r); [|done]. by rewrite IH, <- app_assoc.
Qed.

Lemma continue_loop_final rules taint ctx found final :
  (continue_loop rules taint ctx found final).2
  = match last (EvaluateAll rules taint ctx) with Some r => cr_Action r | None => final end.
Proof.
  revert found final. induction rules as [|r rules IH]; intros found final; simpl; [done|].
  destruct (rule_matches taint ctx r); [|by rewrite IH].
  destruct (cr_Continue r); [|done]. rewrite IH.
  destruct (EvaluateAll rules taint ctx) as [|r' l]; [done|]. rewrite last_cons_cons.
  by destruct (last_is_Some (r' :: l)) as [_ [x ->]].
Qed.

(** The last rule found is the one whose action is final. *)
Lemma EvaluateWithContinue_spec rules taint ctx :
  EvaluateWithContinue rules taint ctx
  = (EvaluateAll rules taint ctx, from_option cr_Action "" (last (EvaluateAll rules taint ctx))).
Proof.
  unfold EvaluateWithContinue. rewrite (surjective_pairing (continue_loop _ _ _ _ _)).
  rewrite continue_loop_all, continue_loop_final. simpl. by destruct (last _).
Qed.

(** The rules found: all that match up to and including the first that stops. *)
Lemma EvaluateAll_spec rules taint ctx :
  (∃ before r after, rules = before ++ r :: after ∧ rule_matches taint ctx r = true ∧ cr_Continue r = false ∧
     (∀ q, q ∈ before → rule_matches taint ctx q = true → cr_Continue q = true) ∧
     EvaluateAll rules taint ctx = List.filter (rule_matches taint ctx) before ++ [r]) ∨
  ((∀ q, q ∈ rules → rule_matches taint ctx q = true → cr_Continue q = true) ∧
   EvaluateAll rules taint ctx = List.filter (rule_matches taint ctx) rules).
Proof.
  induction rules as [|r rules IH]; simpl; [right; set_solver|].
  destruct (rule_matches taint ctx r) eqn:Hm; [destruct (cr_Continue r) eqn:Hc|].
  2: { left. exists [], r, rules. split_and!; try done. set_solver. }
  all: destruct IH as [(before & x & after & -> & Hx & Hxc & Hb & ->)|[Hall ->]];
    [left; exists (r :: before), x, after; simpl; rewrite Hm; split_and!; try done
    |right; split; [|done]];
    intros q [->|Hq]%elem_of_cons Hqm; first [congruence|by eauto].
Qed.
End chain.
