(* ===== verification/ProcContext.v ===== *)
(** * Process contexts (internal/policy/context_eval.go)

    The policy of commands run by tainted processes: validation of the taint, chain
    rules, then the lists, overrides and rules of the process context. Everything else
    falls back to the command policy of [PolicyEngine]. [None] as a decision stands
    for the panic of an index out of range. *)
From S2P Require Import Prelude PolicyEngine Patterns Identity Taint ChainRules.

(** ** Configuration (model.go) *)

Record CommandOverrideConfig := mkOverrideConfig {
  oc_ArgsAllow : list string; oc_ArgsDeny : list string; oc_Default : string }.
Record RacePolicyConfig := mkRaceConfig {
  OnMissingParent : string; OnPIDMismatch : string; OnValidationError : string; LogRaceConditions : bool }.

(** [CommandOverrides] is a map: its entries come in some order, that of the list. *)
Record ProcessContext := mkProcessContext {
  Identities : list string; ctx_ChainRules : list ChainRule; ctx_CommandRules : list CommandRule;
  ctx_FileRules : list FileRule; ctx_NetworkRules : list NetworkRule; ctx_UnixRules : list UnixSocketRule;
  ctx_EnvPolicy : option EnvPolicy;
  AllowedCommands : list string; DeniedCommands : list string; RequireApproval : list string;
  CommandOverrides : list (string * CommandOverrideConfig); DefaultDecision : string;
  ctx_RacePolicy : option RacePolicyConfig;
  ctx_MaxDepth : Z; StopAt : list string; PassThrough : list string }.

Inductive ContextError :=
| allowed_command_error (cmd : string) | denied_command_error (cmd : string)
| require_approval_error (cmd : string)
| args_allow_error (cmd pat : string) | args_deny_error (cmd pat : string)
| base_engine_error (e : EngineError) | compile_context_error (name : string) (e : ContextError).

(** [convertConditionConfig] copies the condition field by field. *)
Fixpoint convertConditionConfig (cfg : ChainCondition) : ChainCondition :=
  let convert := λ o : option ChainCondition,
    match o with None => None | Some sub => Some (convertConditionConfig sub) end in
  match cfg with
  | Condition leaf Or And Not => Condition leaf (List.map convert Or) (List.map convert And) (convert Not)
  end.

Section context.
Context `{GoLib, GlobLib, RegexpLib, SyntaxLib, NetLib, SortLib, ProcLib}.

Record compiledOverride := mkCompiledOverride {
  argsAllow : list glob; argsDeny : list glob; defDecision : string }.
(** [chainEvaluator] is nil without chain rules, else its sorted rules. *)
Record compiledContext := mkCompiledContext {
  config : ProcessContext; chainEvaluator : option (list ChainRule);
  allowedCmds : list glob; deniedCmds : list glob; requireApproval : list glob;
  overrides : gmap string compiledOverride }.
Record ContextEngine := mkContextEngine {
  ce_Engine : Engine; taintCache : TaintCache; contexts : gmap string compiledContext }.

Definition compile_globs (err : string → ContextError) (l : list string) : Result ContextError (list glob) :=
  rmap (λ pat, opt_err (glob_Compile pat []) (err pat)) l.

Definition compile_override (cmd : string) (o : CommandOverrideConfig) : Result ContextError compiledOverride :=
  let! allow := compile_globs (args_allow_error cmd) (oc_ArgsAllow o) in
  let! deny := compile_globs (args_deny_error cmd) (oc_ArgsDeny o) in
  Ok (mkCompiledOverride allow deny (oc_Default o)).

Fixpoint compile_overrides (l : list (string * CommandOverrideConfig)) (m : gmap string compiledOverride)
    : Result ContextError (gmap string compiledOverride) :=
  match l with
  | [] => Ok m
  | (cmd, o) :: l =>
      let! co := compile_override cmd o in compile_overrides l (<[ToLower cmd := co]> m)
  end.

Definition compile_rule (rc : ChainRule) : ChainRule :=
  mkChainRule (cr_Name rc) (cr_Priority rc)
    (match cr_Condition rc with Some cond => Some (convertConditionConfig cond) | None => None end)
    (cr_Action rc) (cr_Message rc) (cr_Continue rc).

Definition compileContext (ctx : ProcessContext) : Result ContextError compiledContext :=
  let evaluator := match ctx_ChainRules ctx with
                   | [] => None
                   | rules => Some (SetRules (List.map compile_rule rules))
                   end in
  let! allowed := compile_globs allowed_command_error (AllowedCommands ctx) in
  let! denied := compile_globs denied_command_error (DeniedCommands ctx) in
  let! approval := compile_globs require_approval_error (RequireApproval ctx) in
  let! ov := compile_overrides (CommandOverrides ctx) ∅ in
  Ok (mkCompiledContext ctx evaluator allowed denied approval ov).

Definition rmap_err {E F A} (f : E → F) (r : Result E A) : Result F A :=
  match r with Ok a => Ok a | Err e => Err (f e) end.

Fixpoint compile_contexts (l : list (string * ProcessContext)) (m : gmap string compiledContext)
    : Result ContextError (gmap string compiledContext) :=
  match l with
  | [] => Ok m
  | (name, ctx) :: l =>
      let! cc := rmap_err (compile_context_error name) (compileContext ctx) in
      compile_contexts l (<[name := cc]> m)
  end.

(** [NewContextEngine]; [processContexts] are the entries of the policy's map. *)
Definition NewContextEngine (p : Policy) (processContexts : list (string * ProcessContext))
    (approvals redirects : bool) (cache : TaintCache) : Result ContextError ContextEngine :=
  let! base := rmap_err base_engine_error (NewEngine p approvals redirects) in
  let! cs := compile_contexts processContexts ∅ in
  Ok (mkContextEngine base cache cs).

(** ** Evaluation *)

Definition findContext (ce : ContextEngine) (name : string) : option compiledContext :=
  if String.eqb name "" then None else contexts ce !! name.

Definition validateTaint (taint : ProcessTaint) : ValidationResult :=
  if (snap_StartTime (SourceSnapshot taint) =? 0)%Z then ValidationValid
  else ValidateSnapshotDetailed (SourcePID taint) (Some (SourceSnapshot taint)).

Definition race_decision (action message : string) (ce : ContextEngine) (command : string) (args : list string)
    : Decision :=
  let action := ToLower (if String.eqb action "" then "deny" else action) in
  if String.eqb action "allow" then CheckCommand (ce_Engine ce) command args
  else if String.eqb action "approve"
  then set_approval (mkApproval true ApprovalModeEnforced)
         (decision_lit DecisionApprove DecisionApprove "race-condition" message)
  else decision_lit DecisionDeny DecisionDeny "race-condition" message.

Definition handleRaceCondition (ce : ContextEngine) (result : ValidationResult) (taint : ProcessTaint)
    (command : string) (args : list string) : Decision :=
  match findContext ce (ContextName taint) with
  | None => CheckCommand (ce_Engine ce) command args
  | Some pctx =>
      match ctx_RacePolicy (config pctx) with
      | None => decision_lit DecisionDeny DecisionDeny "race-condition" "taint validation failed"
      | Some rp =>
          match result with
          | ValidationMissing => race_decision (OnMissingParent rp) "parent process data unavailable" ce command args
          | ValidationPIDMismatch => race_decision (OnPIDMismatch rp) "PID was reused by a different process" ce command args
          | ValidationError => race_decision (OnValidationError rp) "error validating process ancestry" ce command args
          | ValidationValid => race_decision "deny" "unknown validation failure" ce command args
          end
      end
  end.

(** A pattern of [argsDeny] against the arguments: their join, then each of them. *)
Fixpoint args_denied (command argsJoined : string) (args : list string) (globs : list glob) : option Decision :=
  match globs with
  | [] => None
  | g :: globs =>
      if glob_Match g argsJoined
      then Some (decision_lit DecisionDeny DecisionDeny "context:override:args_deny"
                   ("argument pattern denied for " +:+ Base command))
      else match find_first (glob_Match g) args with
           | Some arg => Some (decision_lit DecisionDeny DecisionDeny "context:override:args_deny"
                                 ("argument " +:+ go_quote arg +:+ " denied for " +:+ Base command))
           | None => args_denied command argsJoined args globs
           end
  end.

Definition args_hit (args : list string) (g : glob) : bool :=
  glob_Match g (Join args " ") || existsb (glob_Match g) args.

Definition evaluateOverride (ce : ContextEngine) (override : compiledOverride) (command : string)
    (args : list string) : option Decision :=
  match args_denied command (Join args " ") args (argsDeny override) with
  | Some d => Some d
  | None =>
      if existsb (args_hit args) (argsAllow override)
      then Some (decision_lit DecisionAllow DecisionAllow "context:override:args_allow" "")
      else let def := ToLower (defDecision override) in
           if String.eqb (defDecision override) "" then None
           else if String.eqb def "allow"
           then Some (decision_lit DecisionAllow DecisionAllow "context:override:default" "")
           else if String.eqb def "deny"
           then Some (decision_lit DecisionDeny DecisionDeny "context:override:default" "")
           else if String.eqb def "approve"
           then Some (wrapDecision (ce_Engine ce) "approve" "context:override:default" "" None)
           else None
  end.

Definition full_command (command : string) (args : list string) : string :=
  let cmdBase := ToLower (Base command) in
  ToLower (match args with [] => cmdBase | _ => cmdBase +:+ " " +:+ Join args " " end).

Definition cmd_hit (command : string) (args : list string) (g : glob) : bool :=
  glob_Match g (ToLower (Base command)) || glob_Match g (ToLower command)
  || glob_Match g (full_command command args).

(** The engine built for one evaluation from the context's command rules; [None] when
    they do not compile or only its default applies. *)
Definition context_rules_decision (ce : ContextEngine) (pctx : compiledContext) (command : string)
    (args : list string) : option Decision :=
  match ctx_CommandRules (config pctx) with
  | [] => None
  | rules =>
      let tempPolicy := mkPolicy [] [] rules [] [] [] [] (mkEnvPolicy [] [] 0 0 false) in
      match NewEngine tempPolicy (enforceApprovals (ce_Engine ce)) (enforceRedirects (ce_Engine ce)) with
      | Err _ => None
      | Ok tempEngine =>
          let dec := CheckCommand tempEngine command args in
          if String.eqb (Rule dec) "default-deny-commands" then None else Some dec
      end
  end.

Definition context_default (ce : ContextEngine) (pctx : compiledContext) : Decision :=
  let defaultDec := ToLower (DefaultDecision (config pctx)) in
  if String.eqb defaultDec "allow" then decision_lit DecisionAllow DecisionAllow "context:default" ""
  else if String.eqb defaultDec "approve" then wrapDecision (ce_Engine ce) "approve" "context:default" "" None
  else decision_lit DecisionDeny DecisionDeny "context:default" "command not allowed in this context".

Definition evaluateContextPolicy (ce : ContextEngine) (pctx : compiledContext) (command : string)
    (args : list string) : Decision :=
  let cmdBase := ToLower (Base command) in
  if existsb (cmd_hit command args) (deniedCmds pctx)
  then decision_lit DecisionDeny DecisionDeny "context:denied_commands"
         ("command " +:+ go_quote cmdBase +:+ " denied in this context")
  else match overrides pctx !! cmdBase ≫= λ override, evaluateOverride ce override command args with
  | Some dec => dec
  | None =>
      if existsb (cmd_hit command args) (requireApproval pctx)
      then wrapDecision (ce_Engine ce) "approve" "context:require_approval" "" None
      else if existsb (cmd_hit command args) (allowedCmds pctx)
      then decision_lit DecisionAllow DecisionAllow "context:allowed_commands" ""
      else default (context_default ce pctx) (context_rules_decision ce pctx command args)
  end.

(** The loop over the matched rules: each [mark_as_agent] marks the cache's entry and
    the local copy. *)
Definition mark_step (pid : Z) (st : TaintCache * ProcessTaint) (rule : ChainRule) : TaintCache * ProcessTaint :=
  if String.eqb (cr_Action rule) ActionMarkAsAgent then ((MarkAsAgent st.1 pid).1, as_agent st.2) else st.
Definition mark_agents (pid : Z) (rules : list ChainRule) (c : TaintCache) (t : ProcessTaint)
    : TaintCache * ProcessTaint := foldl (mark_step pid) (c, t) rules.

(** What the final action of the chain rules decides: nothing, or a decision, or the
    panic of an empty list of matches. *)
Inductive ChainOutcome := Fallthrough | Decided (d : Decision) | Panicked.
Definition final_rule (matched : list ChainRule) (f : ChainRule → Decision) : ChainOutcome :=
  match last matched with Some r => Decided (f r) | None => Panicked end.
Definition chain_outcome (ce : ContextEngine) (matched : list ChainRule) (finalAction command : string)
    (args : list string) : ChainOutcome :=
  if String.eqb finalAction ActionAllowNormalPolicy then Decided (CheckCommand (ce_Engine ce) command args)
  else if String.eqb finalAction ActionDeny
  then final_rule matched (λ r, decision_lit DecisionDeny DecisionDeny ("chain:" +:+ cr_Name r) (cr_Message r))
  else if String.eqb finalAction ActionApprove
  then final_rule matched (λ r, wrapDecision (ce_Engine ce) "approve" ("chain:" +:+ cr_Name r) (cr_Message r) None)
  else if String.eqb finalAction ActionAllow
  then final_rule matched (λ r, decision_lit DecisionAllow DecisionAllow ("chain:" +:+ cr_Name r) (cr_Message r))
  else Fallthrough.

(** The chain rules of a context: mark agents, evaluate again once marked. *)
Definition chain_phase (ce : ContextEngine) (pid : Z) (rules : list ChainRule) (taint : ProcessTaint)
    (execCtx : ExecutionContext) (command : string) (args : list string) : TaintCache * ChainOutcome :=
  let '(matched, finalAction) := EvaluateWithContinue rules (Some taint) (Some execCtx) in
  let '(cache, taint) := mark_agents pid matched (taintCache ce) taint in
  let '(matched, finalAction) :=
    if IsAgent taint then EvaluateWithContinue rules (Some taint) (Some execCtx) else (matched, finalAction) in
  (cache, chain_outcome ce matched finalAction command args).

Definition with_cache (ce : ContextEngine) (c : TaintCache) : ContextEngine :=
  mkContextEngine (ce_Engine ce) c (contexts ce).

Definition CheckCommandWithContext (ce : ContextEngine) (pid : Z) (command : string) (args : list string)
    : ContextEngine * option Decision :=
  match IsTainted (taintCache ce) pid with
  | None => (ce, Some (CheckCommand (ce_Engine ce) command args))
  | Some taint =>
      let validationResult := validateTaint taint in
      if bool_decide (validationResult = ValidationValid) then
        match findContext ce (ContextName taint) with
        | None => (ce, Some (CheckCommand (ce_Engine ce) command args))
        | Some pctx =>
            let execCtx := mkExecCtx (Base command) args command None in
            match chainEvaluator pctx with
            | None => (ce, Some (evaluateContextPolicy ce pctx command args))
            | Some rules =>
                let '(cache, outcome) := chain_phase ce pid rules taint execCtx command args in
                (with_cache ce cache,
                 match outcome with
                 | Fallthrough => Some (evaluateContextPolicy ce pctx command args)
                 | Decided d => Some d
                 | Panicked => None
                 end)
            end
        end
      else (ce, Some (handleRaceCondition ce validationResult taint command args))
  end.
End context.

(** ** Properties *)

(** Induction on conditions, with the conditions inside [Or], [And] and [Not]. *)
Fixpoint ChainCondition_ind' (P : ChainCondition → Prop)
    (Hc : ∀ leaf Or And Not,
       Forall (λ o : option ChainCondition, match o with Some c => P c | None => True end) Or →
       Forall (λ o : option ChainCondition, match o with Some c => P c | None => True end) And →
       match Not with Some c => P c | None => True end → P (Condition leaf Or And Not))
    (c : ChainCondition) : P c :=
  let Q := λ o : option ChainCondition, match o with Some c => P c | None => True end in
  let one := λ o : option ChainCondition,
    match o return Q o with Some c => ChainCondition_ind' P Hc c | None => I end in
  let all := fix all (l : list (option ChainCondition)) : Forall Q l :=
    match l with [] => Forall_nil_2 Q | o :: l => Forall_cons_2 Q o l (one o) (all l) end in
  match c with
  | Condition leaf Or And Not => Hc leaf Or And Not (all Or) (all And) (one Not)
  end.

Lemma convertConditionConfig_id c : convertConditionConfig c = c.
Proof.
  induction c as [leaf Or And Not HOr HAnd HNot] using ChainCondition_ind'. simpl.
  assert (Hmap : ∀ l, Forall (λ o : option ChainCondition, match o with Some c => convertConditionConfig c = c | None => True end) l →
    List.map (λ o : option ChainCondition, match o with None => None | Some sub => Some (convertConditionConfig sub) end) l = l).
  { induction 1 as [|[c|] l Hx _ IH]; simpl; [done|by rewrite Hx, IH|by rewrite IH]. }
  rewrite !Hmap by done. destruct Not as [c|]; [by rewrite HNot|done].
Qed.

Section properties.
Context `{GoLib, GlobLib, RegexpLib, SyntaxLib, NetLib, SortLib, ProcLib}.

Lemma compile_rule_id r : compile_rule r = r.
Proof. destruct r as [? ? [c|] ? ? ?]; unfold compile_rule; simpl; [by rewrite convertConditionConfig_id|done]. Qed.

(** The source validates, or its PID was reused: no other result occurs. *)
Lemma validateTaint_cases t : validateTaint t = ValidationValid ∨ validateTaint t = ValidationPIDMismatch.
Proof. unfold validateTaint, ValidateSnapshotDetailed. repeat case_match; auto. Qed.

(** A condition on the environment fails for every command the context engine checks. *)
Lemma env_conditions_never_hold leaf taint comm args path :
  q_EnvContains leaf ≠ [] →
  evaluateLeafConditions leaf taint (Some (mkExecCtx comm args path None)) = false.
Proof.
  intros He. unfold evaluateLeafConditions. destruct (q_EnvContains leaf); [done|]. simpl.
  by rewrite !andb_false_r.
Qed.

(** *** The chain phase *)

(** The taint the chain rules are judged with: marked when a rule that matches says so. *)
Definition marks (r : ChainRule) : bool := String.eqb (cr_Action r) ActionMarkAsAgent.
Definition judged (rules : list ChainRule) (t : ProcessTaint) (x : ExecutionContext) : ProcessTaint :=
  if existsb marks (EvaluateAll rules (Some t) (Some x)) then as_agent t else t.

Lemma mark_agents_taint pid rules c t : (mark_agents pid rules c t).2 = if existsb marks rules then as_agent t else t.
Proof.
  unfold mark_agents. induction rules as [|r rules IH] using rev_ind; [done|].
  rewrite foldl_snoc, existsb_app. destruct (foldl _ _ _) as [c' t']. cbn [snd] in IH. subst t'. unfold mark_step.
  fold (marks r). cbn [existsb]. destruct (marks r); cbn [fst snd]; destruct (existsb marks rules); done.
Qed.

Lemma mark_agents_shape pid rules c t :
  agent_le t (mark_agents pid rules c t).2 ∧
  (taints c !! pid = Some t →
   mark_agents pid rules c t = (c, t) ∨ mark_agents pid rules c t = ((MarkAsAgent c pid).1, as_agent t)).
Proof.
  unfold mark_agents. induction rules as [|r rules [IHle IH]] using rev_ind; [by split; left|].
  rewrite foldl_snoc. destruct (foldl _ _ _) as [c' t']. unfold mark_step.
  destruct (String.eqb _ _); [|done]. cbn [fst snd] in *. split.
  - right. by destruct IHle as [->| ->].
  - intros Ht. right. destruct (IH Ht) as [[= -> ->]|[= -> ->]]; [done|]. f_equal.
    unfold MarkAsAgent. rewrite Ht. simpl. rewrite lookup_insert_eq. simpl.
    unfold with_taints. simpl. by rewrite insert_insert_eq.
Qed.

(** The rules of the phase's verdict: those found for the taint, marked or not. *)
Lemma chain_phase_spec ce pid rules taint x command args :
  (chain_phase ce pid rules taint x command args).2 =
    chain_outcome ce (EvaluateAll rules (Some (judged rules taint x)) (Some x))
      (from_option cr_Action "" (last (EvaluateAll rules (Some (judged rules taint x)) (Some x)))) command args ∧
  (taints (taintCache ce) !! pid = Some taint →
     (chain_phase ce pid rules taint x command args).1 = taintCache ce ∨
     (chain_phase ce pid rules taint x command args).1 = (MarkAsAgent (taintCache ce) pid).1).
Proof.
  unfold chain_phase. rewrite EvaluateWithContinue_spec.
  destruct (mark_agents_shape pid (EvaluateAll rules (Some taint) (Some x)) (taintCache ce) taint) as [_ Hm].
  pose proof (mark_agents_taint pid (EvaluateAll rules (Some taint) (Some x)) (taintCache ce) taint) as Hj. fold (judged rules taint x) in Hj.
  destruct (mark_agents _ _ _ _) as [c t'] eqn:Hma. cbn [snd] in Hj. subst t'.
  assert (Hc : taints (taintCache ce) !! pid = Some taint → c = taintCache ce ∨ c = (MarkAsAgent (taintCache ce) pid).1).
  { intros Ht. destruct (Hm Ht) as [[= -> _]|[= -> _]]; auto. }
  destruct (IsAgent (judged rules taint x)) eqn:Ha; [by rewrite EvaluateWithContinue_spec|].
  assert (Hn : judged rules taint x = taint) by (unfold judged in *; by destruct (existsb _ _)). by rewrite Hn.
Qed.

(** The actions that decide; after any other the context's own policy is asked. *)
Definition decides (r : ChainRule) : bool :=
  existsb (String.eqb (cr_Action r)) [ActionAllowNormalPolicy; ActionDeny; ActionApprove; ActionAllow].

Lemma chain_outcome_cases ce matched command args :
  let final := from_option cr_Action "" (last matched) in
  (chain_outcome ce matched final command args = Fallthrough ∧ (∀ r, last matched = Some r → decides r = false)) ∨
  (∃ r d, last matched = Some r ∧ chain_outcome ce matched final command args = Decided d ∧
     (EffectiveDecision d = DecisionAllow →
        cr_Action r = ActionAllow ∨
        (cr_Action r = ActionApprove ∧ enforceApprovals (ce_Engine ce) = false) ∨
        (cr_Action r = ActionAllowNormalPolicy ∧ d = CheckCommand (ce_Engine ce) command args))).
Proof.
  intros final. subst final. unfold chain_outcome, final_rule. destruct (last matched) as [r|]; cbn [from_option]; [|by left].
  destruct (String.eqb_spec (cr_Action r) ActionAllowNormalPolicy) as [Hact|Hn1].
  { right. exists r, (CheckCommand (ce_Engine ce) command args). auto 10. }
  destruct (String.eqb_spec (cr_Action r) ActionDeny) as [Hact|Hn2].
  { right. eexists r, _. split_and!; [done|done|]. by intros. }
  destruct (String.eqb_spec (cr_Action r) ActionApprove) as [Hact|Hn3].
  { right. eexists r, _. split_and!; [done|done|]. intros Hr%wrapDecision_runs. right. left. split; [done|].
    unfold lets_run, effective_of in Hr. by destruct (enforceApprovals _). }
  destruct (String.eqb_spec (cr_Action r) ActionAllow) as [Hact|Hn4].
  2: { left. split; [done|]. intros r' [= <-]. unfold decides. cbn [existsb].
       by rewrite !(proj2 (String.eqb_neq _ _)) by done. }
  right. eexists r, _. split_and!; [done|done|]. by left.
Qed.

(** *** The context's own policy *)

Definition approvals_off (ce : ContextEngine) : Prop := enforceApprovals (ce_Engine ce) = false.

Lemma approve_runs ce rule msg :
  EffectiveDecision (wrapDecision (ce_Engine ce) "approve" rule msg None) = DecisionAllow → approvals_off ce.
Proof.
  intros Hr%wrapDecision_runs. unfold lets_run, effective_of in Hr. unfold approvals_off.
  by destruct (enforceApprovals _).
Qed.

(** An override lets these arguments through. *)
Definition override_permits (ce : ContextEngine) (o : compiledOverride) (args : list string) : Prop :=
  existsb (args_hit args) (argsDeny o) = false ∧
  (existsb (args_hit args) (argsAllow o) = true ∨ ToLower (defDecision o) = "allow" ∨
   (ToLower (defDecision o) = "approve" ∧ approvals_off ce)).

Lemma args_denied_spec command args globs :
  match args_denied command (Join args " ") args globs with
  | Some d => EffectiveDecision d = DecisionDeny ∧ existsb (args_hit args) globs = true
  | None => existsb (args_hit args) globs = false
  end.
Proof.
  induction globs as [|g globs IH]; simpl; [done|].
  assert (Hg : args_hit args g = glob_Match g (Join args " ") || existsb (glob_Match g) args) by done.
  destruct (glob_Match g (Join args " ")); [by rewrite Hg|].
  destruct (find_first (glob_Match g) args) as [arg|] eqn:Hf.
  - split; [done|]. apply find_first_Some in Hf as [Hin Hm]. rewrite Hg. simpl. apply orb_true_iff. left.
    apply existsb_exists. exists arg. by rewrite <- list_elem_of_In.
  - rewrite find_first_None in Hf.
    assert (Hn : existsb (glob_Match g) args = false).
    { apply not_true_iff_false. intros (a & Ha & Hm)%existsb_exists. rewrite <- list_elem_of_In in Ha.
      by rewrite Hf in Hm. }
    by rewrite Hg, Hn.
Qed.

Lemma evaluateOverride_runs ce o command args d :
  evaluateOverride ce o command args = Some d → EffectiveDecision d = DecisionAllow → override_permits ce o args.
Proof.
  unfold evaluateOverride. pose proof (args_denied_spec command args (argsDeny o)) as Hd.
  destruct (args_denied _ _ _ _) as [d'|]; [intros [= <-]; destruct Hd as [-> _]; done|].
  unfold override_permits. destruct (existsb _ (argsAllow o)); [auto|].
  destruct (String.eqb (defDecision o) ""); [done|].
  destruct (String.eqb_spec (ToLower (defDecision o)) "allow"); [auto|].
  destruct (String.eqb_spec (ToLower (defDecision o)) "deny"); [by intros [= <-]|].
  destruct (String.eqb_spec (ToLower (defDecision o)) "approve"); [|done].
  intros [= <-] Hr%approve_runs. auto 10.
Qed.

(** The entries of a context that let a command run, in the order they are tried. *)
Inductive context_permits (ce : ContextEngine) (pctx : compiledContext) (command : string) (args : list string) : Prop :=
| permit_override o :
    overrides pctx !! ToLower (Base command) = Some o → override_permits ce o args →
    context_permits ce pctx command args
| permit_approval :
    existsb (cmd_hit command args) (requireApproval pctx) = true → approvals_off ce →
    context_permits ce pctx command args
| permit_allowed :
    existsb (cmd_hit command args) (requireApproval pctx) = false →
    existsb (cmd_hit command args) (allowedCmds pctx) = true → context_permits ce pctx command args
| permit_rules d :
    context_rules_decision ce pctx command args = Some d → EffectiveDecision d = DecisionAllow →
    context_permits ce pctx command args
| permit_default :
    context_rules_decision ce pctx command args = None →
    ToLower (DefaultDecision (config pctx)) = "allow" ∨
    (ToLower (DefaultDecision (config pctx)) = "approve" ∧ approvals_off ce) →
    context_permits ce pctx command args.

Lemma evaluateContextPolicy_runs ce pctx command args :
  EffectiveDecision (evaluateContextPolicy ce pctx command args) = DecisionAllow →
  existsb (cmd_hit command args) (deniedCmds pctx) = false ∧ context_permits ce pctx command args.
Proof.
  unfold evaluateContextPolicy. destruct (existsb _ (deniedCmds pctx)); [done|]. intros Hr. split; [done|].
  revert Hr. destruct (overrides pctx !! _) as [o|] eqn:Ho; cbn [mbind option_bind].
  1: destruct (evaluateOverride ce o command args) as [d|] eqn:Hd;
       [intros; by eapply permit_override, evaluateOverride_runs|].
  all: destruct (existsb _ (requireApproval pctx)) eqn:Ha; [by intros ?%approve_runs; apply permit_approval|];
    destruct (existsb _ (allowedCmds pctx)) eqn:Hal; [by intros; apply permit_allowed|];
    destruct (context_rules_decision _ _ _ _) as [d|] eqn:Hrd; simpl; [by intros; eapply permit_rules|];
    unfold context_default;
    destruct (String.eqb_spec (ToLower (DefaultDecision (config pctx))) "allow");
      [by intros; apply permit_default; [|left]|];
    destruct (String.eqb_spec (ToLower (DefaultDecision (config pctx))) "approve"); [|done];
    intros Hr%approve_runs; apply permit_default; auto.
Qed.

Lemma race_runs ce result t pctx command args :
  findContext ce (ContextName t) = Some pctx → result = ValidationPIDMismatch →
  EffectiveDecision (handleRaceCondition ce result t command args) = DecisionAllow →
  ∃ rp, ctx_RacePolicy (config pctx) = Some rp ∧ ToLower (OnPIDMismatch rp) = "allow" ∧
    EffectiveDecision (CheckCommand (ce_Engine ce) command args) = DecisionAllow.
Proof.
  intros Hf ->. unfold handleRaceCondition. rewrite Hf.
  destruct (ctx_RacePolicy (config pctx)) as [rp|]; [|done]. intros Hr. exists rp. split; [done|].
  revert Hr. unfold race_decision. destruct (String.eqb_spec (OnPIDMismatch rp) "") as [->|]; [done|].
  destruct (String.eqb_spec (ToLower (OnPIDMismatch rp)) "allow"); [done|].
  by destruct (String.eqb _ _).
Qed.

(** *** Commands of tainted processes *)

Definition exec_context (command : string) (args : list string) : ExecutionContext :=
  mkExecCtx (Base command) args command None.

(** The chain rule that has the last word on a command. *)
Definition chain_verdict (pctx : compiledContext) (t : ProcessTaint) (command : string) (args : list string) : option ChainRule :=
  rules ← chainEvaluator pctx;
  last (EvaluateAll rules (Some (judged rules t (exec_context command args))) (Some (exec_context command args))).

(** Why a command of a process tainted with [t] may run in the context [pctx]. *)
Definition may_run (ce : ContextEngine) (t : ProcessTaint) (pctx : compiledContext) (command : string)
    (args : list string) : Prop :=
  (validateTaint t = ValidationPIDMismatch ∧
   ∃ rp, ctx_RacePolicy (config pctx) = Some rp ∧ ToLower (OnPIDMismatch rp) = "allow" ∧
     EffectiveDecision (CheckCommand (ce_Engine ce) command args) = DecisionAllow) ∨
  (validateTaint t = ValidationValid ∧
   ∃ r, chain_verdict pctx t command args = Some r ∧
     (cr_Action r = ActionAllow ∨ (cr_Action r = ActionApprove ∧ approvals_off ce) ∨
      (cr_Action r = ActionAllowNormalPolicy ∧
       EffectiveDecision (CheckCommand (ce_Engine ce) command args) = DecisionAllow))) ∨
  (validateTaint t = ValidationValid ∧
   (∀ r, chain_verdict pctx t command args = Some r → decides r = false) ∧
   existsb (cmd_hit command args) (deniedCmds pctx) = false ∧ context_permits ce pctx command args).

(** What checking a command does to the engine: at most mark the process as an agent. *)
Definition checked (ce : ContextEngine) (pid : Z) (ce' : ContextEngine) : Prop :=
  ce' = ce ∨ ce' = with_cache ce (MarkAsAgent (taintCache ce) pid).1.

Lemma confined ce pid t pctx command args :
  taints (taintCache ce) !! pid = Some t → findContext ce (ContextName t) = Some pctx →
  ∃ ce' d, CheckCommandWithContext ce pid command args = (ce', Some d) ∧ checked ce pid ce' ∧
    (EffectiveDecision d = DecisionAllow → may_run ce t pctx command args).
Proof.
  intros Ht Hf. unfold CheckCommandWithContext, IsTainted. rewrite Ht.
  destruct (validateTaint_cases t) as [Hv|Hv]; rewrite Hv; simpl.
  2: { eexists ce, _. split_and!; [done|by left|]. intros Hr. left. split; [done|]. by apply (race_runs ce ValidationPIDMismatch t). }
  rewrite Hf. unfold may_run, chain_verdict. destruct (chainEvaluator pctx) as [rules|] eqn:Hce.
  2: { eexists ce, _. split_and!; [done|by left|]. intros Hr%evaluateContextPolicy_runs. by right; right. }
  destruct (chain_phase_spec ce pid rules t (exec_context command args) command args) as (Ho & Hc).
  specialize (Hc Ht). fold (exec_context command args).
  destruct (chain_phase _ _ _ _ _ _ _) as [cache outcome]. cbn [fst snd mbind option_bind] in *.
  assert (Hck : checked ce pid (with_cache ce cache)).
  { destruct Hc as [->| ->]; [left|by right]. by destruct ce. }
  destruct (chain_outcome_cases ce (EvaluateAll rules (Some (judged rules t (exec_context command args))) (Some (exec_context command args))) command args)
    as [[Hout Hnd]|(r & d & Hlast & Hout & Hd)]; rewrite Hout in Ho; subst outcome; eexists _, _;
    (split_and!; [done|done|]).
  - intros Hr%evaluateContextPolicy_runs. by right; right.
  - intros Hr. right. left. split; [done|]. exists r. split_and!; try done.
    destruct (Hd Hr) as [?|[?|[? ->]]]; auto.
Qed.

(** C10. A tainted process is confined to its context. The check always answers, never
    indexing past the matched rules, and changes at most the agent mark of the process.
    When no context of the taint's name is configured, the answer is that of the ordinary
    policy. Otherwise its command may run for one of three reasons only: the PID of its
    source was reused, the race policy says allow and the ordinary policy allows the command;
    or the last chain rule that matches, judged after the process is marked as an agent where
    a rule says so, allows it, asks for an approval that is not enforced, or hands over to
    the ordinary policy, which allows it; or no chain rule decides (in particular none
    denies), no denied pattern matches, and an override, an approval that is not enforced, an
    allowed pattern, a context rule or the default permits it. *)
Theorem tainted_command_confined ce pid t command args :
  IsTainted (taintCache ce) pid = Some t →
  ∃ ce' d, CheckCommandWithContext ce pid command args = (ce', Some d) ∧ checked ce pid ce' ∧
    match findContext ce (ContextName t) with
    | Some pctx => EffectiveDecision d = DecisionAllow → may_run ce t pctx command args
    | None => d = CheckCommand (ce_Engine ce) command args
    end.
Proof.
  intros Ht. destruct (findContext ce (ContextName t)) as [pctx|] eqn:Hf; [by apply confined|].
  unfold CheckCommandWithContext, handleRaceCondition. rewrite Ht, Hf. eexists ce, _.
  split_and!; [by destruct (bool_decide _) | by left | done].
Qed.

(** C31. Spawning does not escape the context: take a tainted process within the depth
    limit, let it spawn a child, and let anything happen that does not end, clear or
    expire the child's entry. The child's commands are then confined to the same
    context, whatever process image it runs and even if its parent has exited. *)
Theorem descendants_confined ce pid ppid info now pt pctx h command args :
  taints (taintCache ce) !! ppid = Some pt →
  (maxDepth (taintCache ce) <= 0 ∨ Depth pt < maxDepth (taintCache ce))%Z →
  Forall (keeps pid now (ttl (taintCache ce))) h →
  findContext ce (ContextName pt) = Some pctx →
  let ce1 := with_cache ce (taint_run (OnSpawn (taintCache ce) pid ppid info now).1 h) in
  ∃ t ce' d, agent_le (child_taint (taintCache ce) pt info now) t ∧
    CheckCommandWithContext ce1 pid command args = (ce', Some d) ∧
    (EffectiveDecision d = DecisionAllow → may_run ce1 t pctx command args).
Proof.
  intros Hp Hlim Hk Hf ce1. destruct (spawned_child _ pid ppid info now pt h Hp Hlim Hk) as (t & Ht & Hle).
  assert (Hctx : ContextName t = ContextName pt) by (by destruct Hle as [->| ->]).
  destruct (confined ce1 pid t pctx command args) as (ce' & d & Hd & _ & Hr); [done|by rewrite Hctx|].
  by exists t, ce', d.
Qed.

(** The rule found first has the highest priority of those that match. *)
Lemma first_rule_priority `{!SortLaws} rules taint ctx r q :
  EvaluateFirst (SetRules rules) taint ctx = Some r → q ∈ rules → rule_matches taint ctx q = true →
  (cr_Priority q <= cr_Priority r)%Z.
Proof.
  intros Hf Hq Hm. unfold EvaluateFirst, SetRules in *.
  assert (Hs : StronglySorted (λ a b, rule_less b a = false) (sort_Slice rule_less rules)).
  { apply sort_Slice_sorted; unfold rule_less; intros *; rewrite ?Z.ltb_lt, ?Z.ltb_ge; lia. }
  rewrite <- (sort_Slice_perm rule_less rules) in Hq.
  destruct (find_first_applying _ _ _ Hf) as (before & after & He & _ & Hb). rewrite He in Hq, Hs.
  apply elem_of_app in Hq as [Hq|[->|Hq]%elem_of_cons]; [by rewrite Hb in Hm|done|].
  apply StronglySorted_app_1_r in Hs. apply StronglySorted_inv in Hs as [_ Hs].
  rewrite Forall_forall in Hs. specialize (Hs q Hq). unfold rule_less in Hs. apply Z.ltb_ge in Hs. lia.
Qed.
End properties.

(** ** A sample *)
Module ContextSample.
#[local] Existing Instance ascii_go.
#[local] Existing Instance literal_glob.
#[local] Existing Instance literal_regexp.
#[local] Existing Instance no_net.
#[local] Existing Instance EngineSample.stable_sort.
#[local] Instance no_syntax : SyntaxLib := {| syntax_Parse := λ _, None |}.
(** PID 1000 started at 7; no other process can be inspected. *)
#[local] Instance one_process : ProcLib :=
  {| CaptureSnapshot := λ pid, if (pid =? 1000)%Z then Some (mkSnapshot "cursor" "/usr/bin/cursor" [] 7) else None |}.

Definition no_leaf : ChainLeaf :=
  mkLeaf None "" [] [] [] [] [] None None None None None None None None None [] [] [] [] [] [].
Definition shells3 : ChainCondition := Condition
  (mkLeaf None "" [] [] [] [] [] (Some (mkConsecutive "shell" 3 0)) None None None None None None None None
     [] [] [] [] [] []) [] [] None.
Definition depth1 : ChainCondition := Condition
  (mkLeaf None "" [] [] [] ["shell"] [] None None (Some 1%Z) None None None None None None [] [] [] [] [] []) [] [] None.
Definition via_agent : ChainCondition := Condition
  (mkLeaf None "" ["@agent"] [] [] [] [] None None None None None None None None (Some false) [] [] [] [] [] []) [] [] None.
Definition is_agent : ChainCondition := Condition
  (mkLeaf None "" [] [] [] [] [] None None None None None None None None (Some true) [] [] [] [] [] []) [] [] None.

Definition ai_tools : ProcessContext := mkProcessContext ["cursor"]
  [mkChainRule "terminal" 100 (Some depth1) ActionAllowNormalPolicy "" false;
   mkChainRule "laundering" 200 (Some shells3) ActionDeny "shell laundering" false;
   mkChainRule "agent" 50 (Some via_agent) ActionMarkAsAgent "" true;
   mkChainRule "agents-ask" 40 (Some is_agent) ActionApprove "agent" false]
  [] [] [] [] None ["ls"; "git"] ["rm"] [] [("git", mkOverrideConfig [] ["push"] "allow")] ""
  (Some (mkRaceConfig "" "" "" true)) 0 [] [].

Definition sample_cache : TaintCache :=
  SetClassifyProcess
    (SetMatchesTaintSource (NewTaintCache (TaintCacheConfigFromPropagation DefaultPropagationConfig))
       (Some (λ info, if String.eqb (Comm info) "cursor" then Some "ai_tools" else None)))
    (Some (λ comm, (Classify NewClassifier comm).2)).

Definition proc (comm : string) (start : Z) : ProcessInfo := mkProcessInfo 0 0 comm "" [] start.

(** cursor (1000) runs npm (1001), which runs three shells (1002 to 1004); it also
    runs claude (1005), which runs a shell (1006); a shell of the user runs as 1007. *)
Definition history : list TaintOp :=
  [Spawn 1000 1 (proc "cursor" 7) 0; Spawn 1001 1000 (proc "npm" 8) 1; Spawn 1002 1001 (proc "bash" 9) 2;
   Spawn 1003 1002 (proc "sh" 10) 3; Spawn 1004 1003 (proc "zsh" 11) 4; Spawn 1005 1000 (proc "claude" 12) 5;
   Spawn 1006 1005 (proc "bash" 13) 6; Spawn 1007 1 (proc "bash" 14) 7].

Definition dummy : ContextEngine := mkContextEngine EngineSample.empty_engine sample_cache ∅.
Definition sample : ContextEngine :=
  match NewContextEngine EngineSample.sample_policy [("ai_tools", ai_tools)] true true (taint_run sample_cache history) with
  | Ok ce => ce | Err _ => dummy end.

Definition verdict (pid : Z) (command : string) (args : list string) : option (string * string) :=
  (λ d, (EffectiveDecision d, Rule d)) <$> (CheckCommandWithContext sample pid command args).2.

Example verdicts_by_lineage :
  [verdict 1001 "ls" []; verdict 1001 "/bin/rm" ["-rf"]; verdict 1001 "git" ["status"]; verdict 1001 "git" ["push"];
   verdict 1001 "curl" []; verdict 1004 "ls" []; verdict 1006 "ls" []; verdict 1007 "ls" []; verdict 1007 "curl" []]
  = [Some ("allow", "context:allowed_commands"); Some ("deny", "context:denied_commands");
     Some ("allow", "context:override:default"); Some ("deny", "context:override:args_deny");
     Some ("deny", "context:default"); Some ("deny", "chain:laundering"); Some ("approve", "chain:agents-ask");
     Some ("allow", "allow-ls"); Some ("deny", "default-deny-commands")].
Proof. vm_compute. reflexivity. Qed.

(** Checking a command of the agent's shell marked it in the cache. *)
Example agent_marked :
  IsAgent <$> taints (taintCache (CheckCommandWithContext sample 1006 "ls" []).1) !! 1006%Z = Some true.
Proof. vm_compute. reflexivity. Qed.

Definition default_taint : ProcessTaint := source_taint 0 "" (proc "" 0) 0.
Definition taint_of (pid : Z) : ProcessTaint := default default_taint (taints (taintCache sample) !! pid).
Definition sample_context : compiledContext :=
  match compileContext ai_tools with Ok cc => cc | Err _ => mkCompiledContext ai_tools None [] [] [] ∅ end.

Lemma tainted_command_confined_witness :
  taints (taintCache sample) !! 1001%Z = Some (taint_of 1001) ∧
  may_run sample (taint_of 1001) sample_context "ls" [].
Proof.
  split; [by vm_compute|].
  destruct (tainted_command_confined sample 1001 (taint_of 1001) "ls" []) as (ce' & d & Hd & _ & Hr); [by vm_compute|].
  assert (Hf : findContext sample (ContextName (taint_of 1001)) = Some sample_context) by (by vm_compute).
  rewrite Hf in Hr. apply Hr. assert (Hv : (CheckCommandWithContext sample 1001 "ls" []).2 = Some d) by (by rewrite Hd).
  vm_compute in Hv. injection Hv as <-. reflexivity.
Defined.

(** The parent exits, another process is marked and the entries are swept. *)
Lemma descendants_confined_witness :
  let ce1 := with_cache sample (taint_run (OnSpawn (taintCache sample) 2000 1001 (proc "sh" 9) 10).1
                                  [Exit 1001; Mark 1005; Tick 20]) in
  ∃ t ce' d, agent_le (child_taint (taintCache sample) (taint_of 1001) (proc "sh" 9) 10) t ∧
    CheckCommandWithContext ce1 2000 "curl" [] = (ce', Some d) ∧
    (EffectiveDecision d = DecisionAllow → may_run ce1 t sample_context "curl" []).
Proof.
  apply (descendants_confined sample 2000 1001 (proc "sh" 9) 10 (taint_of 1001) sample_context).
  - by vm_compute.
  - right. by vm_compute.
  - repeat constructor; by vm_compute.
  - by vm_compute.
Defined.

Lemma taint_provenance_witness :
  taints (taint_run sample_cache history) !! 1004%Z = Some (taint_of 1004) ∧
  records sample_cache history 1004 (taint_of 1004).
Proof.
  split; [by vm_compute|]. apply (taint_provenance sample_cache history 1004); [reflexivity|by vm_compute].
Defined.

Lemma taint_inherited_witness :
  ∃ t, taints (taint_run (OnSpawn (taintCache sample) 2000 1005 (proc "sh" 9) 10).1 [Exit 1005; Mark 2000]) !! 2000%Z
         = Some t ∧ Via t = ["claude"; "sh"].
Proof.
  destruct (taint_inherited (taintCache sample) 2000 1005 (proc "sh" 9) 10 (taint_of 1005) [Exit 1005; Mark 2000])
    as [Hin _]; [by vm_compute|].
  destruct Hin as (t & Ht & _ & _ & _ & Hv & _); [right; by vm_compute|repeat constructor; by vm_compute|].
  exists t. split; [exact Ht|]. by rewrite Hv; vm_compute.
Defined.

(** A matcher whose description applies on Linux and everywhere. *)
Definition cursor_linux : PlatformMatch := mkPlatformMatch ["cursor"] [] [] [] [].
Definition cursor_any : PlatformMatch := mkPlatformMatch [] ["/opt/cursor"] [] [] ["cursor.exe"].
Lemma matcher_refines_witness :
  identity_matches "linux" (λ _, None)
    (mkIdentity "cursor" (Some cursor_linux) (Some cursor_linux) (Some cursor_linux) (Some cursor_any))
    (mkIdentityInfo 1 0 "Cursor" "/opt/cursor" [] "") = true.
Proof.
  destruct (matcher_refines "linux" [] (λ _, None) "cursor" cursor_linux cursor_any
              (mkIdentityInfo 1 0 "Cursor" "/opt/cursor" [] "") "nope" [] "" "") as (_ & Hid & _).
  rewrite Hid; [by vm_compute|].
  repeat constructor; eexists; (split; [by vm_compute|intros s; cbn; eauto]).
Defined.
End ContextSample.
