(* ===== verification/NetAcl.v ===== *)
(** * Process network rules (internal/netmonitor/pnacl)

    config.go: the configuration, its validation and merging; matcher.go and policy.go:
    the two evaluators, [Engine] (compiled in advance, used by the monitor) and
    [Evaluator] (lazily compiled with a cache, behind the manager of manager.go).

    gobwas/glob, the net package's parsers and [filepath.Match] are parameters; an
    address is its list of bytes; the platform ([runtime.GOOS]) is an argument. A
    [Decision] is a string, as in the code. *)
From stdpp Require Import pretty.
From S2P Require Import Prelude PolicyEngine.

(** [filepath.Match], with an error for no match. *)
Class FilepathLib := { filepath_Match : string → string → bool }.

Definition pn_Allow : string := "allow".
Definition pn_Deny : string := "deny".
Definition pn_Approve : string := "approve".
Definition pn_AllowOnceThenApprove : string := "allow_once_then_approve".
Definition pn_Audit : string := "audit".
Definition pn_UseDefault : string := "use_default".

(** ** Configuration (config.go, matcher.go) *)

Record ProcessMatchCriteria := mkCriteria {
  mc_ProcessName : string; mc_Path : string; mc_BundleID : string; mc_PackageFamilyName : string;
  mc_Strict : bool }.
Record NetProcess := mkNetProcess {
  np_Name : string; np_Path : string; np_BundleID : string; np_PackageFamilyName : string;
  np_PID : Z; np_ParentPID : Z }.
Record NetworkTarget := mkTarget {
  t_Host : string; t_IP : string; t_CIDR : string; t_Port : string; t_Protocol : string; t_Decision : string }.
#[export] Instance NetworkTarget_eq_dec : EqDecision NetworkTarget.
Proof. solve_decision. Defined.
Record ChildConfig := mkChildConfig {
  cc_Name : string; cc_Match : ProcessMatchCriteria; cc_Inherit : option bool; cc_Rules : list NetworkTarget }.
Record ProcessConfig := mkProcessConfig {
  pc_Name : string; pc_Match : ProcessMatchCriteria; pc_Default : string; pc_Rules : list NetworkTarget;
  pc_Children : list ChildConfig }.
Record ApprovalUIConfig := mkApprovalUI { ui_Mode : string; ui_Timeout : string }.
Record Config := mkConfig {
  c_Default : string; c_Processes : list ProcessConfig; c_ApprovalUI : option ApprovalUIConfig }.

Definition GetMode (c : option ApprovalUIConfig) : string :=
  match c with
  | None => "auto"
  | Some c => if String.eqb (ui_Mode c) "" then "auto" else ui_Mode c
  end.
Definition InheritRules (cc : ChildConfig) : bool := default true (cc_Inherit cc).

Definition hasCriteria (c : ProcessMatchCriteria) : bool :=
  negb (String.eqb (mc_ProcessName c) "") || negb (String.eqb (mc_Path c) "")
  || negb (String.eqb (mc_BundleID c) "") || negb (String.eqb (mc_PackageFamilyName c) "").

Definition isValidDecision (d : string) : bool :=
  bool_decide (d ∈ [pn_Allow; pn_Deny; pn_Approve; pn_AllowOnceThenApprove; pn_Audit]).

(** [Clone] leaves out the approval dialog. *)
Definition child_Clone (cc : ChildConfig) : ChildConfig :=
  mkChildConfig (cc_Name cc) (cc_Match cc) (cc_Inherit cc) (cc_Rules cc).
Definition process_Clone (pc : ProcessConfig) : ProcessConfig :=
  mkProcessConfig (pc_Name pc) (pc_Match pc) (pc_Default pc) (pc_Rules pc) (child_Clone <$> pc_Children pc).
Definition config_Clone (c : Config) : Config := mkConfig (c_Default c) (process_Clone <$> c_Processes c) None.

(** ** Merging *)

(** The map of base entries by name: the last one of a name stays. *)
Definition by_name {A} (name : A → string) (l : list A) : gmap string A :=
  foldl (λ m x, <[name x := x]> m) ∅ l.

(** Overlay entries, merged with the base entry of their name if there is one, then
    the base entries whose name was not merged. *)
Definition merge_named {A} (name : A → string) (merge : A → A → A) (base overlay : list A) : list A :=
  ((λ o, match by_name name base !! name o with Some b => merge b o | None => o end) <$> overlay) ++
  List.filter (λ b, negb (existsb (λ o, String.eqb (name o) (name b)) overlay)) base.

Definition merge_child (baseCC overlayCC : ChildConfig) : ChildConfig :=
  mkChildConfig (cc_Name baseCC)
    (if hasCriteria (cc_Match overlayCC) then cc_Match overlayCC else cc_Match baseCC)
    (match cc_Inherit overlayCC with Some b => Some b | None => cc_Inherit baseCC end)
    (cc_Rules overlayCC ++ cc_Rules baseCC).

Definition mergeChildConfigs (base overlay : list ChildConfig) : list ChildConfig :=
  match overlay, base with
  | [], _ => base
  | _, [] => overlay
  | _, _ => merge_named cc_Name merge_child base overlay
  end.

Definition mergeProcessConfigs (base overlay : ProcessConfig) : ProcessConfig :=
  mkProcessConfig (pc_Name base)
    (if hasCriteria (pc_Match overlay) then pc_Match overlay else pc_Match base)
    (if String.eqb (pc_Default overlay) "" then pc_Default base else pc_Default overlay)
    (pc_Rules overlay ++ pc_Rules base) (mergeChildConfigs (pc_Children base) (pc_Children overlay)).

Definition MergeConfigs (base overlay : option Config) : option Config :=
  match base, overlay with
  | None, None => None
  | None, Some c | Some c, None => Some (config_Clone c)
  | Some base, Some overlay =>
      Some (mkConfig (if String.eqb (c_Default overlay) "" then c_Default base else c_Default overlay)
              (merge_named pc_Name mergeProcessConfigs (c_Processes base) (c_Processes overlay)) None)
  end.

(** ** Ports *)

(** [strings.SplitN(spec, "-", 2)] of a text with a dash. *)
Definition split_dash (spec : string) : option (string * string) :=
  i ← IndexByte spec "-"; Some (str_take i spec, str_drop (S i) spec).

Inductive PortError :=
| invalid_range_start | invalid_range_end | range_start_above_end (start stop : Z)
| range_out_of_bounds (start stop : Z) | invalid_port | port_out_of_range (port : Z).

Section config.
Context `{GoLib, GlobLib, NetLib}.

Definition validatePortSpec (spec : string) : Result PortError unit :=
  let spec := TrimSpace spec in
  if String.eqb spec "" || String.eqb spec "*" then Ok tt
  else match split_dash spec with
       | Some (a, b) =>
           match ParseInt64 (TrimSpace a) with
           | None => Err invalid_range_start
           | Some start =>
               match ParseInt64 (TrimSpace b) with
               | None => Err invalid_range_end
               | Some stop =>
                   if (stop <? start)%Z then Err (range_start_above_end start stop)
                   else if (start <? 1)%Z || (65535 <? start)%Z then Err (range_out_of_bounds start stop)
                   else if (stop <? 1)%Z || (65535 <? stop)%Z then Err (range_out_of_bounds start stop)
                   else Ok tt
               end
           end
       | None =>
           match ParseInt64 spec with
           | None => Err invalid_port
           | Some port => if (port <? 1)%Z || (65535 <? port)%Z then Err (port_out_of_range port) else Ok tt
           end
       end.

(** [NetworkRule.parsePort]: [None] is any port. *)
Definition parsePort (spec : string) : Result PortError (option (Z * Z)) :=
  let spec := TrimSpace spec in
  if String.eqb spec "" || String.eqb spec "*" then Ok None
  else match split_dash spec with
       | Some (a, b) =>
           match ParseInt64 (TrimSpace a) with
           | None => Err invalid_range_start
           | Some min =>
               match ParseInt64 (TrimSpace b) with
               | None => Err invalid_range_end
               | Some max =>
                   if (max <? min)%Z then Err (range_start_above_end min max)
                   else if (min <? 1)%Z || (65535 <? max)%Z then Err (range_out_of_bounds min max)
                   else Ok (Some (min, max))
               end
           end
       | None =>
           match ParseInt64 spec with
           | None => Err invalid_port
           | Some port => if (port <? 1)%Z || (65535 <? port)%Z then Err (port_out_of_range port)
                          else Ok (Some (port, port))
           end
       end.

(** [matchPort] of the second evaluator parses at every match. *)
Definition matchPort (pattern : string) (port : Z) : bool :=
  let pattern := TrimSpace pattern in
  if String.eqb pattern "" || String.eqb pattern "*" then true
  else match split_dash pattern with
       | Some (a, b) =>
           match ParseInt64 (TrimSpace a), ParseInt64 (TrimSpace b) with
           | Some min, Some max => (min <=? port)%Z && (port <=? max)%Z
           | _, _ => false
           end
       | None => match ParseInt64 pattern with Some target => (port =? target)%Z | None => false end
       end.

(** ** Validation *)

Inductive AclError :=
| config_is_nil | invalid_default (d : string) | name_required | no_match_criterion
| no_target | decision_required | invalid_decision (d : string) | invalid_protocol (p : string)
| invalid_IP (ip : string) | invalid_CIDR (cidr : string) | invalid_port_spec (e : PortError)
| in_rule (i : nat) (e : AclError) | in_child (i : nat) (name : string) (e : AclError)
| in_process (i : nat) (name : string) (e : AclError).

(** The first error of a loop with its index. *)
Fixpoint check_each {A} (i : nat) (wrap : nat → A → AclError → AclError) (check : A → Result AclError unit)
    (l : list A) : Result AclError unit :=
  match l with
  | [] => Ok tt
  | x :: l => match check x with Err e => Err (wrap i x e) | Ok _ => check_each (S i) wrap check l end
  end.

Definition require (b : bool) (e : AclError) : Result AclError unit := if b then Ok tt else Err e.
Definition when_given (s : string) (r : Result AclError unit) : Result AclError unit :=
  if String.eqb s "" then Ok tt else r.

Definition validateNetworkTarget (t : NetworkTarget) : Result AclError unit :=
  let! _ := require (negb (String.eqb (t_Host t) "" && String.eqb (t_IP t) "" && String.eqb (t_CIDR t) "")) no_target in
  let! _ := require (negb (String.eqb (t_Decision t) "")) decision_required in
  let! _ := require (isValidDecision (t_Decision t)) (invalid_decision (t_Decision t)) in
  let! _ := (if String.eqb (t_Protocol t) "" || String.eqb (t_Protocol t) "*" then Ok tt
             else let proto := ToLower (t_Protocol t) in
                  require (String.eqb proto "tcp" || String.eqb proto "udp") (invalid_protocol proto)) in
  let! _ := when_given (t_IP t) (require (bool_decide (is_Some (net_ParseIP (t_IP t)))) (invalid_IP (t_IP t))) in
  let! _ := when_given (t_CIDR t) (require (bool_decide (is_Some (net_ParseCIDR (t_CIDR t)))) (invalid_CIDR (t_CIDR t))) in
  if String.eqb (t_Port t) "" || String.eqb (t_Port t) "*" then Ok tt
  else match validatePortSpec (t_Port t) with Ok _ => Ok tt | Err e => Err (invalid_port_spec e) end.

Definition validate_rules (rules : list NetworkTarget) : Result AclError unit :=
  check_each 0 (λ i _ e, in_rule i e) validateNetworkTarget rules.

Definition validateChildConfig (cc : ChildConfig) : Result AclError unit :=
  let! _ := require (negb (String.eqb (cc_Name cc) "")) name_required in
  let! _ := require (hasCriteria (cc_Match cc)) no_match_criterion in
  validate_rules (cc_Rules cc).

Definition validateProcessConfig (pc : ProcessConfig) : Result AclError unit :=
  let! _ := require (negb (String.eqb (pc_Name pc) "")) name_required in
  let! _ := require (hasCriteria (pc_Match pc)) no_match_criterion in
  let! _ := when_given (pc_Default pc) (require (isValidDecision (pc_Default pc)) (invalid_default (pc_Default pc))) in
  let! _ := validate_rules (pc_Rules pc) in
  check_each 0 (λ i cc e, in_child i (cc_Name cc) e) validateChildConfig (pc_Children pc).

Definition ValidateConfig (config : option Config) : Result AclError unit :=
  match config with
  | None => Err config_is_nil
  | Some c =>
      let! _ := when_given (c_Default c) (require (isValidDecision (c_Default c)) (invalid_default (c_Default c))) in
      check_each 0 (λ i pc e, in_process i (pc_Name pc) e) validateProcessConfig (c_Processes c)
  end.
End config.

(** ** Addresses *)

(** [net.IP.To4]: four bytes, or sixteen that map an IPv4 address. *)
Definition To4 (ip : list Z) : option (list Z) :=
  match ip with
  | [_; _; _; _] => Some ip
  | [0; 0; 0; 0; 0; 0; 0; 0; 0; 0; 255; 255; a; b; c; d] => Some [a; b; c; d]
  | _ => None
  end%Z.
Definition ip_norm (ip : list Z) : list Z := default ip (To4 ip).
(** [net.IP.Equal] and [net.IPNet.Contains]. *)
Definition ip_Equal (a b : list Z) : bool := bool_decide (ip_norm a = ip_norm b).
Definition ipnet_Contains (n : list Z * list Z) (ip : list Z) : bool := IPNet_Contains n (ip_norm ip).

(** ** Process matching (matcher.go) *)

Inductive MatchSpecificity := MatchSpecificityNone | MatchSpecificityDefault | MatchSpecificityGlob | MatchSpecificityExact.
#[export] Instance MatchSpecificity_eq_dec : EqDecision MatchSpecificity.
Proof. solve_decision. Defined.
Definition spec_rank (s : MatchSpecificity) : nat :=
  match s with MatchSpecificityNone => 0 | MatchSpecificityDefault => 1 | MatchSpecificityGlob => 2
             | MatchSpecificityExact => 3 end.
Definition spec_max (a b : MatchSpecificity) : MatchSpecificity := if spec_rank a <? spec_rank b then b else a.
Definition spec_min (a b : MatchSpecificity) : MatchSpecificity := if spec_rank b <? spec_rank a then b else a.

Section matching.
Context `{GoLib, GlobLib, NetLib, FilepathLib} (goos : string).

(** The specificity of a match, [None] without one. *)
Definition matchProcessNameWithSpecificity (pattern name : string) (strict : bool) : option MatchSpecificity :=
  let pattern := ToLower pattern in
  let name := ToLower name in
  if String.eqb pattern name then Some MatchSpecificityExact
  else if strict then None
  else let basename := ToLower (Base name) in
       if String.eqb pattern basename then Some MatchSpecificityExact
       else if String.eqb goos "windows" && String.eqb pattern (TrimSuffix basename ".exe")
       then Some MatchSpecificityExact
       else if ContainsAny pattern "*?" && (filepath_Match pattern name || filepath_Match pattern basename)
       then Some MatchSpecificityGlob
       else None.
Definition matchProcessName (pattern name : string) (strict : bool) : bool :=
  bool_decide (is_Some (matchProcessNameWithSpecificity pattern name strict)).

Definition matchPath (pattern path : string) : bool :=
  if String.eqb pattern "" || String.eqb path "" then false
  else match glob_Compile pattern ["/"%char] with Some g => glob_Match g path | None => false end.
Definition matchBundleID (pattern bundleID : string) : bool :=
  if String.eqb pattern "" || String.eqb bundleID "" then false else EqualFold pattern bundleID.
Definition determinePathSpecificity (pattern : string) : MatchSpecificity :=
  if String.eqb pattern "" then MatchSpecificityNone
  else if ContainsAny pattern "*?[]{}" then MatchSpecificityGlob else MatchSpecificityExact.

(** *** The matcher of one set of criteria *)

(** The path pattern is compiled when it is given. *)
Record ProcessMatcher := mkProcessMatcher { pm_criteria : ProcessMatchCriteria; pm_pathGlob : option glob }.
Definition compile_path (path : string) : option (option glob) :=
  if String.eqb path "" then Some None else g ← glob_Compile path ["/"%char]; Some (Some g).
Definition NewProcessMatcher (criteria : ProcessMatchCriteria) : option ProcessMatcher :=
  g ← compile_path (mc_Path criteria); Some (mkProcessMatcher criteria g).

Definition given (s : string) : bool := negb (String.eqb s "").

Definition matchFlexibleSimple (m : ProcessMatcher) (info : NetProcess) : bool :=
  let c := pm_criteria m in
  hasCriteria c &&
  (given (mc_ProcessName c) && matchProcessName (mc_ProcessName c) (np_Name info) false
   || (match pm_pathGlob m with Some g => glob_Match g (np_Path info) | None => false end)
   || given (mc_BundleID c) && given (np_BundleID info) && EqualFold (mc_BundleID c) (np_BundleID info)
   || given (mc_PackageFamilyName c) && given (np_PackageFamilyName info)
      && EqualFold (mc_PackageFamilyName c) (np_PackageFamilyName info)).

Definition matchStrictSimple (m : ProcessMatcher) (info : NetProcess) : bool :=
  let c := pm_criteria m in
  hasCriteria c &&
  (negb (given (mc_ProcessName c)) || matchProcessName (mc_ProcessName c) (np_Name info) true) &&
  (match pm_pathGlob m with Some g => glob_Match g (np_Path info) | None => true end) &&
  (negb (given (mc_BundleID c)) || EqualFold (mc_BundleID c) (np_BundleID info)) &&
  (negb (given (mc_PackageFamilyName c)) || EqualFold (mc_PackageFamilyName c) (np_PackageFamilyName info)).

Definition matcher_Matches (m : ProcessMatcher) (info : NetProcess) : bool :=
  if mc_Strict (pm_criteria m) then matchStrictSimple m info else matchFlexibleSimple m info.

(** *** The matcher of a whole configuration *)

Record compiledConfigMatcher := mkConfigMatcher { ccm_config : ProcessConfig; ccm_pathGlob : option glob }.
Record MatchedProcessACL := mkMatchedACL {
  ma_Name : string; ma_Match : ProcessMatchCriteria; ma_Default : string; ma_Rules : list NetworkTarget;
  ma_Children : list ChildConfig; ma_Specificity : MatchSpecificity }.

Definition NewConfigMatcherFromConfig (config : option Config) : option (list compiledConfigMatcher) :=
  match config with
  | None => Some []
  | Some c => mapM (λ pc, g ← compile_path (mc_Path (pc_Match pc)); Some (mkConfigMatcher pc g)) (c_Processes c)
  end.

Definition if_match (b : bool) (s : MatchSpecificity) : option MatchSpecificity := if b then Some s else None.
(** The highest specificity of the criteria that match. *)
Definition best_of (l : list (option MatchSpecificity)) : option MatchSpecificity :=
  foldl (λ acc o, match o with
                  | None => acc
                  | Some s => Some (spec_max (default MatchSpecificityNone acc) s)
                  end) None l.

Definition cfg_matchFlexible (cm : compiledConfigMatcher) (info : NetProcess) : option MatchSpecificity :=
  let c := pc_Match (ccm_config cm) in
  if negb (hasCriteria c) then None
  else best_of
    [if given (mc_ProcessName c) then matchProcessNameWithSpecificity (mc_ProcessName c) (np_Name info) false else None;
     match ccm_pathGlob cm with
     | Some _ => if_match (matchPath (mc_Path c) (np_Path info)) (determinePathSpecificity (mc_Path c))
     | None => None
     end;
     if_match (given (mc_BundleID c) && given (np_BundleID info) && matchBundleID (mc_BundleID c) (np_BundleID info))
       MatchSpecificityExact;
     if_match (given (mc_PackageFamilyName c) && given (np_PackageFamilyName info)
               && EqualFold (mc_PackageFamilyName c) (np_PackageFamilyName info)) MatchSpecificityExact].

Definition cfg_matchStrict (cm : compiledConfigMatcher) (info : NetProcess) : option MatchSpecificity :=
  let c := pc_Match (ccm_config cm) in
  if negb (hasCriteria c) then None
  else m1 ← (if given (mc_ProcessName c)
             then s ← matchProcessNameWithSpecificity (mc_ProcessName c) (np_Name info) true;
                  Some (spec_min MatchSpecificityExact s)
             else Some MatchSpecificityExact);
       m2 ← (match ccm_pathGlob cm with
             | Some _ => if matchPath (mc_Path c) (np_Path info)
                         then Some (spec_min m1 (determinePathSpecificity (mc_Path c))) else None
             | None => Some m1
             end);
       if given (mc_BundleID c) && negb (matchBundleID (mc_BundleID c) (np_BundleID info)) then None
       else if given (mc_PackageFamilyName c)
               && negb (EqualFold (mc_PackageFamilyName c) (np_PackageFamilyName info)) then None
       else Some m2.

Definition matchProcess (cm : compiledConfigMatcher) (info : NetProcess) : option MatchSpecificity :=
  if mc_Strict (pc_Match (ccm_config cm)) then cfg_matchStrict cm info else cfg_matchFlexible cm info.

Definition matched_acl (pc : ProcessConfig) (s : MatchSpecificity) : MatchedProcessACL :=
  mkMatchedACL (pc_Name pc) (pc_Match pc) (pc_Default pc) (pc_Rules pc) (pc_Children pc) s.
Definition match_step (info : NetProcess) (best : option MatchedProcessACL * MatchSpecificity)
    (cm : compiledConfigMatcher) : option MatchedProcessACL * MatchSpecificity :=
  match matchProcess cm info with
  | None => best
  | Some s => if spec_rank best.2 <? spec_rank s then (Some (matched_acl (ccm_config cm) s), s) else best
  end.
(** [ConfigMatcher.Match]. *)
Definition config_Match (ms : list compiledConfigMatcher) (info : NetProcess) : option MatchedProcessACL :=
  (foldl (match_step info) (None, MatchSpecificityNone) ms).1.

(** [MatchChild] ignores [Strict]. *)
Fixpoint match_children (children : list ChildConfig) (childInfo : NetProcess) : option ChildConfig :=
  match children with
  | [] => None
  | child :: children =>
      match compile_path (mc_Path (cc_Match child)) with
      | None => match_children children childInfo
      | Some g =>
          let cm := mkConfigMatcher (mkProcessConfig "" (cc_Match child) "" [] []) g in
          if bool_decide (is_Some (cfg_matchFlexible cm childInfo)) then Some child
          else match_children children childInfo
      end
  end.
Definition MatchChild (acl : option MatchedProcessACL) (childInfo : NetProcess) : option ChildConfig :=
  match acl with None => None | Some acl => match_children (ma_Children acl) childInfo end.

(** ** The compiled engine (policy.go) *)

Record NetworkRule := mkNetRule {
  nr_target : NetworkTarget; nr_hostGlob : option glob; nr_ipNet : option (list Z * list Z);
  nr_ip : option (list Z); nr_port : option (Z * Z); nr_protocol : string }.

Inductive CompileError :=
| host_pattern_error (host : string) | ip_error (ip : string) | cidr_error (cidr : string)
| port_error (e : PortError) | matcher_error
| compile_rule_error (i : nat) (e : CompileError) | compile_child_error (name : string) (e : CompileError)
| compile_process_error (name : string) (e : CompileError).

(** A field that is given has to parse. *)
Definition parse_given {A} (s : string) (parse : string → option A) (e : CompileError)
    : Result CompileError (option A) :=
  if String.eqb s "" then Ok None
  else match parse s with Some a => Ok (Some a) | None => Err e end.

Definition CompileNetworkRule (t : NetworkTarget) : Result CompileError NetworkRule :=
  let p := ToLower (t_Protocol t) in
  let protocol := if String.eqb p "" || String.eqb p "*" then "*" else p in
  let! g := parse_given (t_Host t) (λ h, glob_Compile (ToLower h) ["."%char]) (host_pattern_error (t_Host t)) in
  let! ip := parse_given (t_IP t) net_ParseIP (ip_error (t_IP t)) in
  let! n := parse_given (t_CIDR t) net_ParseCIDR (cidr_error (t_CIDR t)) in
  match parsePort (t_Port t) with
  | Err e => Err (port_error e)
  | Ok port => Ok (mkNetRule t g n ip port protocol)
  end.

(** [NetworkRule.Matches]: everything that is specified has to match. *)
Definition rule_Matches (r : NetworkRule) (host : string) (ip : option (list Z)) (port : Z) (protocol : string) : bool :=
  (String.eqb (nr_protocol r) "*" || String.eqb (ToLower protocol) (nr_protocol r)) &&
  (match nr_port r with None => true | Some (min, max) => negb ((port <? min)%Z || (max <? port)%Z) end) &&
  (match nr_hostGlob r with None => true | Some g => glob_Match g (ToLower host) end) &&
  (match nr_ip r with None => true | Some a => match ip with Some ip => ip_Equal a ip | None => false end end) &&
  (match nr_ipNet r with None => true | Some n => match ip with Some ip => ipnet_Contains n ip | None => false end end).

Record ChildPolicy := mkChildPolicy {
  cp_Name : string; cp_Match : ProcessMatchCriteria; cp_Inherit : bool; cp_Rules : list NetworkRule;
  cp_Matcher : ProcessMatcher }.
Record ProcessPolicy := mkProcessPolicy {
  pp_Name : string; pp_Match : ProcessMatchCriteria; pp_Default : string; pp_Rules : list NetworkRule;
  pp_Children : list ChildPolicy; pp_Matcher : ProcessMatcher }.
Record NetPolicyEngine := mkNetEngine { GlobalDefault : string; ProcessPolicies : list ProcessPolicy }.

Fixpoint compile_rules (i : nat) (l : list NetworkTarget) : Result CompileError (list NetworkRule) :=
  match l with
  | [] => Ok []
  | t :: l =>
      match CompileNetworkRule t with
      | Err e => Err (compile_rule_error i e)
      | Ok r => let! rs := compile_rules (S i) l in Ok (r :: rs)
      end
  end.

Definition compileChildPolicy (cc : ChildConfig) : Result CompileError ChildPolicy :=
  let! m := opt_err (NewProcessMatcher (cc_Match cc)) matcher_error in
  let! rules := compile_rules 0 (cc_Rules cc) in
  Ok (mkChildPolicy (cc_Name cc) (cc_Match cc) (InheritRules cc) rules m).

Definition wrap_err {E A} (f : E → E) (r : Result E A) : Result E A :=
  match r with Ok a => Ok a | Err e => Err (f e) end.

Definition compileProcessPolicy (pc : ProcessConfig) : Result CompileError ProcessPolicy :=
  let! m := opt_err (NewProcessMatcher (pc_Match pc)) matcher_error in
  let! rules := compile_rules 0 (pc_Rules pc) in
  let! children := rmap (λ cc, wrap_err (compile_child_error (cc_Name cc)) (compileChildPolicy cc)) (pc_Children pc) in
  Ok (mkProcessPolicy (pc_Name pc) (pc_Match pc)
        (if String.eqb (pc_Default pc) "" then pn_Approve else pc_Default pc) rules children m).

Definition NewPolicyEngine (c : Config) : Result CompileError NetPolicyEngine :=
  let! pps := rmap (λ pc, wrap_err (compile_process_error (pc_Name pc)) (compileProcessPolicy pc)) (c_Processes c) in
  Ok (mkNetEngine (if String.eqb (c_Default c) "" then pn_Deny else c_Default c) pps).

(** [RuleIndex] is [None] for a default (-1 in the code). *)
Record PolicyResult := mkPolicyResult {
  pr_Decision : string; pr_ProcessName : string; pr_RuleIndex : option nat; pr_IsInherited : bool;
  pr_ChildName : string }.

Record Connection := mkConnection {
  k_Host : string; k_IP : option (list Z); k_Port : Z; k_Protocol : string }.
Definition hits_rule (k : Connection) (r : NetworkRule) : bool :=
  rule_Matches r (k_Host k) (k_IP k) (k_Port k) (k_Protocol k).

(** The first element that satisfies [p], with its index. *)
Fixpoint find_index {A} (p : A → bool) (i : nat) (l : list A) : option (nat * A) :=
  match l with
  | [] => None
  | x :: l => if p x then Some (i, x) else find_index p (S i) l
  end.

Definition evaluateProcessRules (pp : ProcessPolicy) (k : Connection) : PolicyResult :=
  match find_index (hits_rule k) 0 (pp_Rules pp) with
  | Some (i, r) => mkPolicyResult (t_Decision (nr_target r)) (pp_Name pp) (Some i) false ""
  | None => mkPolicyResult (pp_Default pp) (pp_Name pp) None false ""
  end.

Definition evaluateWithChild (parent : ProcessPolicy) (child : ChildPolicy) (k : Connection) : PolicyResult :=
  match find_index (hits_rule k) 0 (cp_Rules child) with
  | Some (i, r) => mkPolicyResult (t_Decision (nr_target r)) (pp_Name parent) (Some i) false (cp_Name child)
  | None =>
      match (if cp_Inherit child then find_index (hits_rule k) 0 (pp_Rules parent) else None) with
      | Some (i, r) => mkPolicyResult (t_Decision (nr_target r)) (pp_Name parent) (Some i) true (cp_Name child)
      | None => mkPolicyResult (pp_Default parent) (pp_Name parent) None (cp_Inherit child) (cp_Name child)
      end
  end.

Definition findChildPolicy (parent : ProcessPolicy) (proc : NetProcess) : option ChildPolicy :=
  find_first (λ cp, matcher_Matches (cp_Matcher cp) proc) (pp_Children parent).

Definition evaluate_policy (pp : ProcessPolicy) (proc : NetProcess) (k : Connection) : PolicyResult :=
  match findChildPolicy pp proc with
  | Some child => evaluateWithChild pp child k
  | None => evaluateProcessRules pp k
  end.

Definition engine_Evaluate (e : NetPolicyEngine) (proc : NetProcess) (k : Connection) : PolicyResult :=
  match find_first (λ pp, matcher_Matches (pp_Matcher pp) proc) (ProcessPolicies e) with
  | Some pp => evaluate_policy pp proc k
  | None => mkPolicyResult (GlobalDefault e) "" None false ""
  end.

Definition EvaluateForParentChild (e : NetPolicyEngine) (parentProc childProc : NetProcess) (k : Connection)
    : PolicyResult :=
  match find_first (λ pp, matcher_Matches (pp_Matcher pp) parentProc) (ProcessPolicies e) with
  | Some pp => evaluate_policy pp childProc k
  | None => engine_Evaluate e childProc k
  end.

(** ** The evaluator behind the manager (policy.go, manager.go) *)

Inductive EvalACL := mkACL (name : string) (crit : ProcessMatchCriteria) (def : string)
  (rules : list NetworkTarget) (children : list EvalACL) (inherit : bool).
Definition acl_Name (a : EvalACL) : string := let '(mkACL n _ _ _ _ _) := a in n.
Definition acl_Match (a : EvalACL) : ProcessMatchCriteria := let '(mkACL _ m _ _ _ _) := a in m.
Definition acl_Default (a : EvalACL) : string := let '(mkACL _ _ d _ _ _) := a in d.
Definition acl_Rules (a : EvalACL) : list NetworkTarget := let '(mkACL _ _ _ r _ _) := a in r.
Definition acl_Children (a : EvalACL) : list EvalACL := let '(mkACL _ _ _ _ c _) := a in c.
Definition acl_Inherit (a : EvalACL) : bool := let '(mkACL _ _ _ _ _ i) := a in i.

(** Compiled matchers by the name of their rule set, host patterns by their text. *)
Record PolicyEvaluator := mkEvaluator {
  pe_GlobalDefault : string; ProcessACLs : list EvalACL;
  compiledMatchers : gmap string ProcessMatcher; compiledHostGlobs : gmap string glob }.

Definition NewPolicyEvaluator : PolicyEvaluator := mkEvaluator pn_Deny [] ∅ ∅.
Definition AddProcessACL (pe : PolicyEvaluator) (acl : EvalACL) : PolicyEvaluator :=
  mkEvaluator (pe_GlobalDefault pe) (ProcessACLs pe ++ [acl]) (compiledMatchers pe) (compiledHostGlobs pe).
Definition SetGlobalDefault (pe : PolicyEvaluator) (d : string) : PolicyEvaluator :=
  mkEvaluator d (ProcessACLs pe) (compiledMatchers pe) (compiledHostGlobs pe).
Definition ClearCache (pe : PolicyEvaluator) : PolicyEvaluator :=
  mkEvaluator (pe_GlobalDefault pe) (ProcessACLs pe) ∅ ∅.

Definition child_acl (cc : ChildConfig) : EvalACL :=
  mkACL (cc_Name cc) (cc_Match cc) "" (cc_Rules cc) [] (InheritRules cc).
Definition process_acl (pc : ProcessConfig) : EvalACL :=
  mkACL (pc_Name pc) (pc_Match pc) (pc_Default pc) (pc_Rules pc) (child_acl <$> pc_Children pc) false.
Definition LoadFromConfig (c : Config) : PolicyEvaluator :=
  mkEvaluator (if String.eqb (c_Default c) "" then pn_Deny else c_Default c) (process_acl <$> c_Processes c) ∅ ∅.

(** [singleProcessMatcher.matches]: names are compared without case, not as patterns. *)
Definition single_matches (m : ProcessMatcher) (info : NetProcess) : bool :=
  let c := pm_criteria m in
  if negb (hasCriteria c) then false
  else if mc_Strict c then
    (negb (given (mc_ProcessName c)) || EqualFold (mc_ProcessName c) (np_Name info)) &&
    (match pm_pathGlob m with Some g => glob_Match g (np_Path info) | None => true end) &&
    (negb (given (mc_BundleID c)) || EqualFold (mc_BundleID c) (np_BundleID info)) &&
    (negb (given (mc_PackageFamilyName c)) || EqualFold (mc_PackageFamilyName c) (np_PackageFamilyName info))
  else
    given (mc_ProcessName c) && EqualFold (mc_ProcessName c) (np_Name info)
    || (match pm_pathGlob m with Some g => glob_Match g (np_Path info) | None => false end)
    || given (mc_BundleID c) && given (np_BundleID info) && EqualFold (mc_BundleID c) (np_BundleID info)
    || given (mc_PackageFamilyName c) && given (np_PackageFamilyName info)
       && EqualFold (mc_PackageFamilyName c) (np_PackageFamilyName info).

(** The matcher cached under the name, whatever criteria it was made from. *)
Definition getOrCreateMatcher (pe : PolicyEvaluator) (name : string) (criteria : ProcessMatchCriteria)
    : PolicyEvaluator * option ProcessMatcher :=
  match compiledMatchers pe !! name with
  | Some m => (pe, Some m)
  | None =>
      match NewProcessMatcher criteria with
      | None => (pe, None)
      | Some m => (mkEvaluator (pe_GlobalDefault pe) (ProcessACLs pe) (<[name := m]> (compiledMatchers pe))
                     (compiledHostGlobs pe), Some m)
      end
  end.

Definition matchHost (pe : PolicyEvaluator) (pattern host : string) : PolicyEvaluator * bool :=
  if String.eqb pattern "" || String.eqb host "" then (pe, false)
  else let pattern := ToLower pattern in
       let host := ToLower host in
       if String.eqb pattern host || String.eqb pattern "*" then (pe, true)
       else match compiledHostGlobs pe !! pattern with
            | Some g => (pe, glob_Match g host)
            | None =>
                match glob_Compile pattern ["."%char] with
                | None => (pe, false)
                | Some g => (mkEvaluator (pe_GlobalDefault pe) (ProcessACLs pe) (compiledMatchers pe)
                               (<[pattern := g]> (compiledHostGlobs pe)), glob_Match g host)
                end
            end.

Definition matchIP (target : string) (ip : option (list Z)) : bool :=
  match ip with
  | None => false
  | Some ip => if String.eqb target "" then false
               else match net_ParseIP target with Some a => ip_Equal a ip | None => false end
  end.
Definition matchCIDR (cidr : string) (ip : option (list Z)) : bool :=
  match ip with
  | None => false
  | Some ip => if String.eqb cidr "" then false
               else match net_ParseCIDR cidr with Some n => ipnet_Contains n ip | None => false end
  end.
Definition matchProtocol (pattern protocol : string) : bool :=
  let pattern := TrimSpace (ToLower pattern) in
  String.eqb pattern "" || String.eqb pattern "*" || String.eqb pattern (TrimSpace (ToLower protocol)).

(** What the evaluator is asked about. *)
Record ConnectionContext := mkConnCtx {
  x_Process : NetProcess; x_Host : string; x_Port : Z; x_Protocol : string }.

Definition evaluateNetworkTarget (pe : PolicyEvaluator) (rule : NetworkTarget) (ctx : ConnectionContext)
    : PolicyEvaluator * bool :=
  if negb (matchProtocol (t_Protocol rule) (x_Protocol ctx)) then (pe, false)
  else if negb (matchPort (t_Port rule) (x_Port ctx)) then (pe, false)
  else let '(pe, hostMatched) := if given (t_Host rule) then matchHost pe (t_Host rule) (x_Host ctx) else (pe, false) in
       let ip := net_ParseIP (x_Host ctx) in
       let ipMatched := given (t_IP rule) && matchIP (t_IP rule) ip in
       let cidrMatched := given (t_CIDR rule) && matchCIDR (t_CIDR rule) ip in
       (pe, if given (t_Host rule) || given (t_IP rule) || given (t_CIDR rule)
            then hostMatched || ipMatched || cidrMatched else true).

(** The first rule that matches, with its index. *)
Fixpoint first_target (pe : PolicyEvaluator) (ctx : ConnectionContext) (i : nat) (rules : list NetworkTarget)
    : PolicyEvaluator * option (nat * NetworkTarget) :=
  match rules with
  | [] => (pe, None)
  | rule :: rules =>
      let '(pe, m) := evaluateNetworkTarget pe rule ctx in
      if m then (pe, Some (i, rule)) else first_target pe ctx (S i) rules
  end.

(** The first rule set whose matcher accepts the process: [findChildACL] and
    [FindProcessACL]. *)
Fixpoint first_acl (pe : PolicyEvaluator) (info : NetProcess) (acls : list EvalACL)
    : PolicyEvaluator * option EvalACL :=
  match acls with
  | [] => (pe, None)
  | acl :: acls =>
      let '(pe, m) := getOrCreateMatcher pe (acl_Name acl) (acl_Match acl) in
      match m with
      | Some m => if single_matches m info then (pe, Some acl) else first_acl pe info acls
      | None => first_acl pe info acls
      end
  end.
Definition findChildACL (pe : PolicyEvaluator) (parent : EvalACL) (ctx : ConnectionContext) :=
  first_acl pe (x_Process ctx) (acl_Children parent).
Definition FindProcessACL (pe : PolicyEvaluator) (info : NetProcess) := first_acl pe info (ProcessACLs pe).

Record EvaluationResult := mkEvalResult {
  er_Decision : string; er_MatchedRule : option NetworkTarget; er_RuleIndex : option nat;
  er_ProcessACLName : string; er_IsInherited : bool; er_ChildACLName : string }.

Definition matched_result (name : string) (inherited : bool) (child : string) (ir : nat * NetworkTarget) : EvaluationResult :=
  mkEvalResult (t_Decision ir.2) (Some ir.2) (Some ir.1) name inherited child.

Definition evaluateACLRules (pe : PolicyEvaluator) (ctx : ConnectionContext) (acl : EvalACL)
    : PolicyEvaluator * EvaluationResult :=
  let '(pe, hit) := first_target pe ctx 0 (acl_Rules acl) in
  match hit with
  | Some ir => (pe, matched_result (acl_Name acl) false "" ir)
  | None => (pe, mkEvalResult (or_else (acl_Default acl) (pe_GlobalDefault pe)) None None (acl_Name acl) false "")
  end.

Definition evaluateWithInheritance (pe : PolicyEvaluator) (ctx : ConnectionContext) (parent child : EvalACL)
    : PolicyEvaluator * EvaluationResult :=
  let '(pe, hit) := first_target pe ctx 0 (acl_Rules child) in
  match hit with
  | Some ir => (pe, matched_result (acl_Name parent) false (acl_Name child) ir)
  | None =>
      let '(pe, hit) := if acl_Inherit child then first_target pe ctx 0 (acl_Rules parent) else (pe, None) in
      match hit with
      | Some ir => (pe, matched_result (acl_Name parent) true (acl_Name child) ir)
      | None => (pe, mkEvalResult (or_else (acl_Default child) (or_else (acl_Default parent) (pe_GlobalDefault pe)))
                       None None (acl_Name parent) (acl_Inherit child) (acl_Name child))
      end
  end.

Definition evaluator_Evaluate (pe : PolicyEvaluator) (ctx : ConnectionContext) (processACL : option EvalACL)
    : PolicyEvaluator * EvaluationResult :=
  match processACL with
  | None => (pe, mkEvalResult (pe_GlobalDefault pe) None None "" false "")
  | Some acl =>
      let '(pe, child) := findChildACL pe acl ctx in
      match child with
      | Some child => evaluateWithInheritance pe ctx acl child
      | None => evaluateACLRules pe ctx acl
      end
  end.

Definition EvaluateConnection (pe : PolicyEvaluator) (ctx : ConnectionContext) : PolicyEvaluator * EvaluationResult :=
  let '(pe, acl) := FindProcessACL pe (x_Process ctx) in evaluator_Evaluate pe ctx acl.

(** The manager keeps a clone of the configuration, its matcher and its evaluator. *)
Record Manager := mkManager {
  m_config : Config; m_matcher : list compiledConfigMatcher; m_evaluator : PolicyEvaluator }.
Definition empty_config : Config := mkConfig "" [] None.
Definition NewManager (config : option Config) : option Manager :=
  let config := default empty_config config in
  matcher ← NewConfigMatcherFromConfig (Some config);
  Some (mkManager (config_Clone config) matcher (LoadFromConfig config)).
Definition manager_Evaluate (m : Manager) (ctx : ConnectionContext) : Manager * EvaluationResult :=
  let '(pe, r) := EvaluateConnection (m_evaluator m) ctx in (mkManager (m_config m) (m_matcher m) pe, r).
(** [UpdateConfig]: an invalid configuration leaves the manager as it was. *)
Definition UpdateConfig (m : Manager) (config : option Config) : Manager * bool :=
  match NewManager config with Some m' => (m', true) | None => (m, false) end.
Definition GetDefaultDecision (m : Manager) : string := or_else (c_Default (m_config m)) pn_Deny.
End matching.

(** ** Properties *)

Definition is_Ok {E A} (r : Result E A) : bool := match r with Ok _ => true | Err _ => false end.

Section ports.
Context `{GoLib}.

(** A port satisfies a parsed specification. *)
Definition port_in (r : option (Z * Z)) (port : Z) : bool :=
  match r with None => true | Some (min, max) => (min <=? port)%Z && (port <=? max)%Z end.

Ltac ports := repeat match goal with |- context [(?a <? ?b)%Z] => destruct (Z.ltb_spec a b) end; simpl.

Lemma validate_parses spec : is_Ok (validatePortSpec spec) = is_Ok (parsePort spec).
Proof.
  unfold validatePortSpec, parsePort. destruct (_ || _); [done|].
  destruct (split_dash _) as [[a b]|].
  - destruct (ParseInt64 _) as [min|]; [|done]. destruct (ParseInt64 (TrimSpace b)) as [max|]; [|done].
    ports; try done; lia.
  - destruct (ParseInt64 _); [|done]. by destruct (_ || _).
Qed.

Lemma parse_matches spec r port : parsePort spec = Ok r → matchPort spec port = port_in r port.
Proof.
  unfold parsePort, matchPort. destruct (_ || _); [by intros [= <-]|].
  destruct (split_dash _) as [[a b]|].
  - destruct (ParseInt64 _) as [min|]; [|done]. destruct (ParseInt64 (TrimSpace b)) as [max|]; [|done].
    destruct (_ <? _)%Z; [done|]. destruct (_ || _); [done|]. by intros [= <-].
  - destruct (ParseInt64 _) as [p|]; [|done]. destruct (_ || _); [done|]. intros [= <-]. simpl.
    destruct (Z.eqb_spec port p), (Z.leb_spec p port), (Z.leb_spec port p); try done; lia.
Qed.

Lemma parse_bounds spec min max : parsePort spec = Ok (Some (min, max)) → (1 <= min <= max ∧ max <= 65535)%Z.
Proof.
  unfold parsePort. destruct (_ || _); [done|]. destruct (split_dash _) as [[a b]|].
  - destruct (ParseInt64 _) as [x|]; [|done]. destruct (ParseInt64 (TrimSpace b)) as [y|]; [|done].
    ports; try done. intros [= <- <-]. lia.
  - destruct (ParseInt64 _) as [p|]; [|done]. ports; try done. intros [= <- <-]. lia.
Qed.

(** A port printed with the [%d] verb is that port alone. *)
Lemma parsePort_pretty (z : Z) : (1 <= z <= 65535)%Z → parsePort (pretty z) = Ok (Some (z, z)).
Proof.
  intros Hz. pose proof (pretty_digits z ltac:(lia)) as Hd.
  assert (Hp : ParseInt64 (pretty z) = Some z) by (apply ParseInt64_pretty; unfold MaxInt64; lia).
  unfold parsePort, split_dash. rewrite TrimSpace_digits by done.
  destruct (String.eqb_spec (pretty z) "") as [He|_]; [by rewrite He in Hp|].
  destruct (String.eqb_spec (pretty z) "*") as [He|_]; [by rewrite He in Hd|].
  rewrite IndexByte_digits by done. cbn [mbind option_bind orb]. rewrite Hp. ports; try lia. done.
Qed.
End ports.

(** *** The evaluator's caches *)

Section evaluator.
Context `{GoLib, GlobLib, NetLib, FilepathLib}.

(** The reference: no cache. *)
Definition host_hits (pattern host : string) : bool :=
  if String.eqb pattern "" || String.eqb host "" then false
  else let pattern := ToLower pattern in
       let host := ToLower host in
       String.eqb pattern host || String.eqb pattern "*"
       || match glob_Compile pattern ["."%char] with Some g => glob_Match g host | None => false end.
Definition target_hits (ctx : ConnectionContext) (rule : NetworkTarget) : bool :=
  matchProtocol (t_Protocol rule) (x_Protocol ctx) && matchPort (t_Port rule) (x_Port ctx) &&
  (negb (given (t_Host rule) || given (t_IP rule) || given (t_CIDR rule))
   || given (t_Host rule) && host_hits (t_Host rule) (x_Host ctx)
   || given (t_IP rule) && matchIP (t_IP rule) (net_ParseIP (x_Host ctx))
   || given (t_CIDR rule) && matchCIDR (t_CIDR rule) (net_ParseIP (x_Host ctx))).
Definition acl_accepts (info : NetProcess) (acl : EvalACL) : bool :=
  match NewProcessMatcher (acl_Match acl) with Some m => single_matches m info | None => false end.

Definition acl_reference (gd : string) (acl : EvalACL) (ctx : ConnectionContext) : EvaluationResult :=
  match find_first (acl_accepts (x_Process ctx)) (acl_Children acl) with
  | None =>
      match find_index (target_hits ctx) 0 (acl_Rules acl) with
      | Some ir => matched_result (acl_Name acl) false "" ir
      | None => mkEvalResult (or_else (acl_Default acl) gd) None None (acl_Name acl) false ""
      end
  | Some child =>
      match find_index (target_hits ctx) 0 (acl_Rules child),
            (if acl_Inherit child then find_index (target_hits ctx) 0 (acl_Rules acl) else None) with
      | Some ir, _ => matched_result (acl_Name acl) false (acl_Name child) ir
      | None, Some ir => matched_result (acl_Name acl) true (acl_Name child) ir
      | None, None => mkEvalResult (or_else (acl_Default child) (or_else (acl_Default acl) gd)) None None
                        (acl_Name acl) (acl_Inherit child) (acl_Name child)
      end
  end.
Definition connection_reference (gd : string) (acls : list EvalACL) (ctx : ConnectionContext) : EvaluationResult :=
  match find_first (acl_accepts (x_Process ctx)) acls with
  | None => mkEvalResult gd None None "" false ""
  | Some acl => acl_reference gd acl ctx
  end.

(** All rule sets, and the condition that a name stands for one set of criteria. *)
Definition all_acls (acls : list EvalACL) : list EvalACL := acls ++ (acls ≫= acl_Children).
Definition names_agree (acls : list EvalACL) : Prop :=
  ∀ a b, a ∈ all_acls acls → b ∈ all_acls acls → acl_Name a = acl_Name b → acl_Match a = acl_Match b.

(** The caches hold what compiling now would give. *)
Record caches_ok (acls : list EvalACL) (pe : PolicyEvaluator) : Prop := {
  ok_hosts : ∀ p g, compiledHostGlobs pe !! p = Some g → glob_Compile p ["."%char] = Some g;
  ok_matchers : ∀ name m, compiledMatchers pe !! name = Some m →
    ∃ a, a ∈ all_acls acls ∧ acl_Name a = name ∧ NewProcessMatcher (acl_Match a) = Some m }.
Definition same_rules (pe pe' : PolicyEvaluator) : Prop :=
  pe_GlobalDefault pe' = pe_GlobalDefault pe ∧ ProcessACLs pe' = ProcessACLs pe.

(** A step that keeps the caches and the rules and answers [a]. *)
Definition answers {A} (acls : list EvalACL) (pe : PolicyEvaluator) (r : PolicyEvaluator * A) (a : A) : Prop :=
  caches_ok acls r.1 ∧ same_rules pe r.1 ∧ r.2 = a.

Lemma answers_ret {A} acls pe (a : A) : caches_ok acls pe → answers acls pe (pe, a) a.
Proof. intros Hok. split_and!; [exact Hok|by split|done]. Qed.

Lemma same_rules_trans a b c : same_rules a b → same_rules b c → same_rules a c.
Proof. intros [? ?] [? ?]. split; congruence. Qed.

Lemma answers_trans {A} acls pe pe' (r : PolicyEvaluator * A) a :
  same_rules pe pe' → answers acls pe' r a → answers acls pe r a.
Proof. intros Hs (? & ? & ?). split_and!; try done. by eapply same_rules_trans. Qed.

Lemma matchHost_ok acls pe pattern host :
  caches_ok acls pe → answers acls pe (matchHost pe pattern host) (host_hits pattern host).
Proof.
  intros Hok. unfold matchHost, host_hits. destruct (_ || _); [by apply answers_ret|]. cbn zeta.
  destruct (_ || _); [by apply answers_ret|]. simpl.
  destruct (compiledHostGlobs pe !! _) as [g|] eqn:Hg.
  { rewrite (ok_hosts _ _ Hok _ _ Hg). by apply answers_ret. }
  destruct (glob_Compile _ _) as [g|] eqn:Hc; [|by apply answers_ret].
  split_and!; [|done|done]. split; [|apply Hok]. cbn. intros p g'.
  intros [[<- <-]|[_ Hp]]%lookup_insert_Some; [done|]. by eapply ok_hosts.
Qed.

Lemma evaluateNetworkTarget_ok acls pe rule ctx :
  caches_ok acls pe → answers acls pe (evaluateNetworkTarget pe rule ctx) (target_hits ctx rule).
Proof.
  intros Hok. unfold evaluateNetworkTarget, target_hits.
  destruct (matchProtocol _ _); simpl; [|by apply answers_ret].
  destruct (matchPort _ _); simpl; [|by apply answers_ret].
  destruct (given (t_Host rule)) eqn:Hh; simpl.
  - destruct (matchHost_ok acls pe (t_Host rule) (x_Host ctx) Hok) as (? & ? & <-).
    by destruct (matchHost _ _ _).
  - split_and!; [done|done|]. simpl. by destruct (given (t_IP rule)), (given (t_CIDR rule)).
Qed.

Lemma first_target_ok acls pe ctx i rules :
  caches_ok acls pe → answers acls pe (first_target pe ctx i rules) (find_index (target_hits ctx) i rules).
Proof.
  revert pe i. induction rules as [|rule rules IH]; intros pe i Hok; simpl; [by apply answers_ret|].
  destruct (evaluateNetworkTarget_ok acls pe rule ctx Hok) as (Hok' & Hs & <-).
  destruct (evaluateNetworkTarget pe rule ctx) as [pe' []]; cbn [fst snd] in *; [done|].
  eapply answers_trans; [done|]. by apply IH.
Qed.

Lemma getOrCreateMatcher_ok acls pe acl :
  caches_ok acls pe → names_agree acls → acl ∈ all_acls acls →
  answers acls pe (getOrCreateMatcher pe (acl_Name acl) (acl_Match acl)) (NewProcessMatcher (acl_Match acl)).
Proof.
  intros Hok Hn Hacl. unfold getOrCreateMatcher. destruct (compiledMatchers pe !! _) as [m|] eqn:Hm.
  { destruct (ok_matchers _ _ Hok _ _ Hm) as (b & Hb & Hname & Hcomp).
    rewrite (Hn acl b Hacl Hb) by done. rewrite Hcomp. by apply answers_ret. }
  destruct (NewProcessMatcher (acl_Match acl)) as [m|] eqn:Hc; [|by apply answers_ret].
  split_and!; [|done|done]. split; [apply Hok|]. cbn. intros name m'.
  intros [[<- <-]|[_ Hl]]%lookup_insert_Some; [by exists acl|]. by eapply ok_matchers.
Qed.

Lemma first_acl_ok acls pe info l :
  caches_ok acls pe → names_agree acls → (∀ a, a ∈ l → a ∈ all_acls acls) →
  answers acls pe (first_acl pe info l) (find_first (acl_accepts info) l).
Proof.
  revert pe. induction l as [|a l IH]; intros pe Hok Hn Hl; simpl; [by apply answers_ret|].
  destruct (getOrCreateMatcher_ok acls pe a Hok Hn ltac:(set_solver)) as (Hok' & Hs & Hm).
  assert (Hrec : ∀ pe', caches_ok acls pe' → same_rules pe pe' →
    answers acls pe (first_acl pe' info l) (find_first (acl_accepts info) l)).
  { intros pe' Hok1 Hs1. eapply answers_trans; [done|]. apply IH; [done|done|set_solver]. }
  unfold acl_accepts at 1. rewrite <- Hm.
  destruct (getOrCreateMatcher pe (acl_Name a) (acl_Match a)) as [pe' [m|]]; cbn [fst snd] in *; [|by apply Hrec].
  destruct (single_matches m info); [done|by apply Hrec].
Qed.

(** A result built from the last state reached. *)
Ltac answered := split_and!; [done|split; cbn; congruence|cbn; congruence].

Lemma evaluator_Evaluate_ok acls pe ctx acl :
  caches_ok acls pe → names_agree acls → acl ∈ acls →
  answers acls pe (evaluator_Evaluate pe ctx (Some acl)) (acl_reference (pe_GlobalDefault pe) acl ctx).
Proof.
  intros Hok Hn Hacl. unfold evaluator_Evaluate, acl_reference, findChildACL.
  destruct (first_acl_ok acls pe (x_Process ctx) (acl_Children acl) Hok Hn) as (Hok1 & [Hgd Hacls] & Hc).
  { intros a Ha. unfold all_acls. apply elem_of_app. right. apply list_elem_of_bind. eauto. }
  rewrite <- Hc. destruct (first_acl pe _ _) as [pe1 [child|]]; cbn [fst snd] in *.
  - unfold evaluateWithInheritance.
    destruct (first_target_ok acls pe1 ctx 0 (acl_Rules child) Hok1) as (Hok2 & [Hgd2 Hacls2] & Hf).
    destruct (first_target pe1 ctx 0 _) as [pe2 hit]. cbn [fst snd] in *. subst hit.
    destruct (find_index _ 0 (acl_Rules child)) as [ir|]; [answered|].
    destruct (acl_Inherit child); [|answered].
    destruct (first_target_ok acls pe2 ctx 0 (acl_Rules acl) Hok2) as (Hok3 & [Hgd3 Hacls3] & Hf).
    destruct (first_target pe2 ctx 0 _) as [pe3 hit]. cbn [fst snd] in *. subst hit.
    destruct (find_index _ 0 (acl_Rules acl)); answered.
  - unfold evaluateACLRules.
    destruct (first_target_ok acls pe1 ctx 0 (acl_Rules acl) Hok1) as (Hok2 & [Hgd2 Hacls2] & Hf).
    destruct (first_target pe1 ctx 0 _) as [pe2 hit]. cbn [fst snd] in *. subst hit.
    destruct (find_index _ 0 (acl_Rules acl)); answered.
Qed.

Lemma EvaluateConnection_ok acls pe ctx :
  caches_ok acls pe → names_agree acls → ProcessACLs pe = acls →
  answers acls pe (EvaluateConnection pe ctx) (connection_reference (pe_GlobalDefault pe) acls ctx).
Proof.
  intros Hok Hn Hacls. unfold EvaluateConnection, connection_reference, FindProcessACL. rewrite Hacls.
  destruct (first_acl_ok acls pe (x_Process ctx) acls Hok Hn) as (Hok1 & Hs & Hf).
  { intros a Ha. unfold all_acls. apply elem_of_app. by left. }
  destruct (first_acl pe _ _) as [pe1 found]. cbn [fst snd] in *. subst found.
  destruct (find_first _ acls) as [acl|] eqn:Hfind.
  - destruct Hs as [Hgd Hp]. rewrite <- Hgd. eapply answers_trans; [by split|].
    apply evaluator_Evaluate_ok; [done|done|]. by apply find_first_Some in Hfind as [? _].
  - split_and!; [done|done|]. destruct Hs as [Hgd _]. simpl. by rewrite Hgd.
Qed.

(** The answers of a manager to a sequence of connections. *)
Fixpoint evaluate_all (m : Manager) (ctxs : list ConnectionContext) : list EvaluationResult :=
  match ctxs with
  | [] => []
  | ctx :: ctxs => let '(m, r) := manager_Evaluate m ctx in r :: evaluate_all m ctxs
  end.

Lemma evaluate_all_ok acls m ctxs :
  caches_ok acls (m_evaluator m) → names_agree acls → ProcessACLs (m_evaluator m) = acls →
  evaluate_all m ctxs = connection_reference (pe_GlobalDefault (m_evaluator m)) acls <$> ctxs.
Proof.
  revert m. induction ctxs as [|ctx ctxs IH]; intros m Hok Hn Hacls; simpl; [done|].
  unfold manager_Evaluate. destruct (EvaluateConnection_ok acls _ ctx Hok Hn Hacls) as (Hok' & [Hgd Hp] & Hr).
  destruct (EvaluateConnection _ _) as [pe r]. cbn [fst snd] in *. subst r. f_equal.
  rewrite IH; cbn; [by rewrite Hgd|done|done|by rewrite Hp].
Qed.

(** C39. The network rules a manager applies do not depend on what it was asked before:
    as long as rule sets of the same name have the same matching criteria, every
    connection in a sequence gets the answer of the configuration evaluated afresh: the
    first rule set that accepts the process, its first child that does, the child's rules, then
    the inherited ones, then the defaults. *)
Theorem manager_refines (config : Config) (m : Manager) (ctxs : list ConnectionContext) :
  NewManager (Some config) = Some m → names_agree (process_acl <$> c_Processes config) →
  evaluate_all m ctxs
  = connection_reference (or_else (c_Default config) pn_Deny) (process_acl <$> c_Processes config) <$> ctxs.
Proof.
  intros Hm Hn. unfold NewManager in Hm. cbn -[NewConfigMatcherFromConfig] in Hm.
  destruct (NewConfigMatcherFromConfig _) as [matcher|]; [|done]. cbn in Hm. injection Hm as <-.
  rewrite (evaluate_all_ok (process_acl <$> c_Processes config)); [done| |done|done].
  split; cbn; intros ? ?; by rewrite lookup_empty.
Qed.
End evaluator.

(** ** Samples *)

(** A file system library without patterns. *)
Definition no_patterns : FilepathLib := {| filepath_Match := λ _ _, false |}.

Module AclSample.
#[local] Existing Instance ascii_go.
#[local] Existing Instance literal_glob.
#[local] Existing Instance no_net.
#[local] Existing Instance no_patterns.

Definition by_process (name : string) : ProcessMatchCriteria := mkCriteria name "" "" "" false.
Definition curl : NetProcess := mkNetProcess "curl" "/usr/bin/curl" "" "" 42 1.
Definition git : NetProcess := mkNetProcess "git" "/usr/bin/git" "" "" 43 1.
Definition allow_host (h : string) : NetworkTarget := mkTarget h "" "" "443" "tcp" pn_Allow.
Definition sample_config : Config :=
  mkConfig pn_Deny [mkProcessConfig "curl" (by_process "curl") "" [allow_host "example.com"] [];
                    mkProcessConfig "git" (by_process "git") pn_Audit [] []] None.
Definition asks : list ConnectionContext :=
  [mkConnCtx curl "example.com" 443 "tcp"; mkConnCtx git "example.com" 443 "tcp"; mkConnCtx curl "other.org" 443 "tcp"].

Example sample_answers :
  option_map (λ m, List.map er_Decision (evaluate_all m asks)) (NewManager (Some sample_config))
  = Some [pn_Allow; pn_Audit; pn_Deny].
Proof. vm_compute. reflexivity. Qed.

Lemma manager_refines_witness :
  ∃ m, NewManager (Some sample_config) = Some m
    ∧ evaluate_all m asks
      = connection_reference (or_else (c_Default sample_config) pn_Deny) (process_acl <$> c_Processes sample_config) <$> asks.
Proof.
  destruct (NewManager (Some sample_config)) as [m|] eqn:Hm; [|vm_compute in Hm; discriminate Hm].
  exists m. split; [done|]. apply (manager_refines sample_config m asks Hm).
  intros a b Ha%list_elem_of_In Hb%list_elem_of_In. cbn in Ha, Hb.
  destruct Ha as [<-|[<-|[]]], Hb as [<-|[<-|[]]]; done.
Defined.

(** Two rule sets of one name: the matcher made first stands for both, so whether the
    second process is recognised depends on what was asked before. *)
Definition twins : Config :=
  mkConfig pn_Deny [mkProcessConfig "curl" (by_process "curl") pn_Allow []
                      [mkChildConfig "helper" (by_process "git") None [allow_host "example.com"]];
                    mkProcessConfig "helper" (by_process "wget") pn_Allow [] []] None.
Definition wget : NetProcess := mkNetProcess "wget" "/usr/bin/wget" "" "" 44 1.
Example twins_depend_on_history :
  let ask_wget := mkConnCtx wget "example.com" 443 "tcp" in
  option_map (λ m, List.map er_Decision (evaluate_all m [ask_wget])) (NewManager (Some twins)) = Some [pn_Allow]
  ∧ option_map (λ m, List.map er_Decision (evaluate_all m [mkConnCtx curl "example.com" 443 "tcp"; ask_wget]))
      (NewManager (Some twins)) = Some [pn_Allow; pn_Deny].
Proof. split; vm_compute; reflexivity. Qed.
End AclSample.
