(* ===== verification/NetApproval.v ===== *)
(** * Approval of network connections (internal/netmonitor/pnacl)

    persist.go: rules added to the configuration file by the user's permanent decisions;
    approval.go and dialog_prompt.go: requests that wait for an answer from their prompt
    or from [Resolve], and what an answer or the lack of one decides.

    [Room] is the part the approval provider and the eBPF filter share: a request waits on
    a channel of capacity one and is registered under a key as long as it waits. A file is
    the configuration its YAML text decodes to, [None] when it does not exist; the text,
    its comments and I/O errors are not modelled. *)
From stdpp Require Import pretty.
From S2P Require Import Prelude PolicyEngine NetAcl.

(** ** Waiting for an answer *)

(** A channel is identified by the number of its wait. It stays allocated after its wait
    has ended: a late sender still holds it. [Decided]: the wait took an answer or gave up;
    [Left]: its deferred clean-up ran. *)
Inductive Phase := Waiting | Decided | Left.
#[export] Instance Phase_eq_dec : EqDecision Phase.
Proof. solve_decision. Defined.
Record Wait (K W A : Type) := mkWait { w_key : K; w_req : W; w_slot : option A; w_phase : Phase }.
Arguments mkWait {K W A}.
Arguments w_key {K W A}.
Arguments w_req {K W A}.
Arguments w_slot {K W A}.
Arguments w_phase {K W A}.

Record Room (K W A : Type) `{Countable K} := mkRoom { waits : gmap nat (Wait K W A); pending : gmap K nat }.
Arguments mkRoom {K W A _ _}.
Arguments waits {K W A _ _}.
Arguments pending {K W A _ _}.

Section room.
Context {K W A : Type} `{Countable K}.
Implicit Types rm : Room K W A.

Definition empty_room : Room K W A := mkRoom ∅ ∅.

(** Register a request: an earlier one of the same key loses its entry. *)
Definition room_begin rm (i : nat) (key : K) (req : W) : option (Room K W A) :=
  match waits rm !! i with
  | None => Some (mkRoom (<[i := mkWait key req None Waiting]> (waits rm)) (<[key := i]> (pending rm)))
  | Some _ => None
  end.

(** A send that gives up when the channel is full. *)
Definition room_offer rm (i : nat) (a : A) : Room K W A * bool :=
  match waits rm !! i with
  | Some (mkWait k q None p) => (mkRoom (<[i := mkWait k q (Some a) p]> (waits rm)) (pending rm), true)
  | _ => (rm, false)
  end.

(** The wait receives from its channel. *)
Definition room_take rm (i : nat) : option (Room K W A * W * A) :=
  match waits rm !! i with
  | Some (mkWait k q (Some a) Waiting) => Some (mkRoom (<[i := mkWait k q None Decided]> (waits rm)) (pending rm), q, a)
  | _ => None
  end.

(** The wait gives up: timeout, cancellation or shutdown. *)
Definition room_giveup rm (i : nat) : option (Room K W A * W) :=
  match waits rm !! i with
  | Some (mkWait k q s Waiting) => Some (mkRoom (<[i := mkWait k q s Decided]> (waits rm)) (pending rm), q)
  | _ => None
  end.

(** The deferred clean-up: the key is deleted, whoever it belongs to by now. *)
Definition room_leave rm (i : nat) : option (Room K W A) :=
  match waits rm !! i with
  | Some (mkWait k q s Decided) => Some (mkRoom (<[i := mkWait k q s Left]> (waits rm)) (delete k (pending rm)))
  | _ => None
  end.

(** A registered key leads to a wait of that key that has not left. *)
Definition room_ok rm : Prop :=
  ∀ k i, pending rm !! k = Some i → ∃ w, waits rm !! i = Some w ∧ w_key w = k ∧ w_phase w ≠ Left.

(** What is known of the requests and of the answers in their channels. *)
Record room_inv (P : nat → K → W → Prop) (Q : nat → A → Prop) rm : Prop := {
  ri_ok : room_ok rm;
  ri_wait : ∀ i w, waits rm !! i = Some w → P i (w_key w) (w_req w);
  ri_slot : ∀ i w a, waits rm !! i = Some w → w_slot w = Some a → Q i a }.

(** Requests stay, and a wait that is over stays over. *)
Definition room_le rm rm' : Prop :=
  ∀ i w, waits rm !! i = Some w → ∃ w', waits rm' !! i = Some w' ∧ w_key w' = w_key w ∧ w_req w' = w_req w
    ∧ (w_phase w ≠ Waiting → w_phase w' ≠ Waiting).

Lemma room_inv_mono (P P' : nat → K → W → Prop) (Q Q' : nat → A → Prop) rm :
  (∀ i k q, P i k q → P' i k q) → (∀ i a, Q i a → Q' i a) → room_inv P Q rm → room_inv P' Q' rm.
Proof. intros HP HQ [? ? ?]. split; eauto. Qed.

(** Registering a request that is known. *)
Lemma room_begin_inv P Q rm i key req rm' :
  room_inv P Q rm → P i key req → room_begin rm i key req = Some rm' → room_inv P Q rm' ∧ room_le rm rm'.
Proof.
  unfold room_begin. intros [Hok Hw Hs] HP. destruct (waits rm !! i) eqn:Hi; [done|]. intros [= <-].
  assert (Hne : ∀ j v, waits rm !! j = Some v → <[i := mkWait key req None Waiting]> (waits rm) !! j = Some v)
    by (intros j v Hv; by rewrite lookup_insert_ne by congruence).
  split; [|intros j v Hv; exists v; cbn; rewrite (Hne j v Hv); auto]. split; cbn.
  - intros k j. cbn. intros [[<- <-]|[Hk Hj]]%lookup_insert_Some; [rewrite lookup_insert_eq; by eexists|].
    destruct (Hok k j Hj) as (v & Hv & ?). eauto.
  - intros j w [[<- <-]|[_ Hj]]%lookup_insert_Some; auto.
  - intros j w a [[<- <-]|[_ Hj]]%lookup_insert_Some; [done|by eapply Hs].
Qed.

(** A wait replaced by one of the same request; [pd] registers a part of the keys. *)
Lemma room_update_inv P Q rm i w w' pd :
  room_inv P Q rm → waits rm !! i = Some w → w_key w' = w_key w → w_req w' = w_req w →
  (w_phase w ≠ Waiting → w_phase w' ≠ Waiting) →
  (∀ a, w_slot w' = Some a → w_slot w = Some a ∨ Q i a) →
  (∀ k j, pd !! k = Some j → pending rm !! k = Some j ∧ (j = i → w_phase w ≠ Left → w_phase w' ≠ Left)) →
  room_inv P Q (mkRoom (<[i := w']> (waits rm)) pd) ∧ room_le rm (mkRoom (<[i := w']> (waits rm)) pd).
Proof.
  intros [Hok Hw Hs] Hi Hk Hq Hph Hsl Hpd. split; [split; cbn|].
  - intros k j Hj. destruct (Hpd k j Hj) as [Hj' Hl]. destruct (Hok k j Hj') as (v & Hv & Hkv & Hlv). cbn.
    destruct (decide (i = j)) as [<-|]; [|rewrite lookup_insert_ne by done; eauto].
    rewrite lookup_insert_eq. simplify_eq. exists w'. split_and!; [done|done|by apply Hl].
  - intros j v [[<- <-]|[_ Hj]]%lookup_insert_Some; [rewrite Hk, Hq|]; auto.
  - intros j v a [[<- <-]|[_ Hj]]%lookup_insert_Some Ha; [|by eapply Hs].
    destruct (Hsl a Ha); [by eapply Hs|done].
  - intros j v Hv. cbn. destruct (decide (i = j)) as [<-|]; [|rewrite lookup_insert_ne by done; eauto].
    rewrite lookup_insert_eq. simplify_eq. eauto 6.
Qed.

Lemma room_le_refl rm : room_le rm rm.
Proof. intros i w Hw. eauto. Qed.

Lemma room_offer_inv P Q rm i a :
  room_inv P Q rm → (∀ w, waits rm !! i = Some w → Q i a) →
  room_inv P Q (room_offer rm i a).1 ∧ room_le rm (room_offer rm i a).1.
Proof.
  unfold room_offer. intros Hinv HQ. pose proof (room_le_refl rm).
  destruct (waits rm !! i) as [[k q [|] p]|] eqn:Hi; try done.
  eapply room_update_inv; [done|exact Hi|done|done|done| |done]. intros a' [= <-]. right. by eapply HQ.
Qed.

(** The wait was waiting and no longer is. *)
Definition concludes rm rm' (i : nat) : Prop :=
  (∃ w, waits rm !! i = Some w ∧ w_phase w = Waiting) ∧ (∃ w, waits rm' !! i = Some w ∧ w_phase w ≠ Waiting).

Lemma room_take_inv P Q rm i rm' q a :
  room_inv P Q rm → room_take rm i = Some (rm', q, a) →
  room_inv P Q rm' ∧ room_le rm rm' ∧ concludes rm rm' i ∧ Q i a ∧ ∃ k, P i k q.
Proof.
  unfold room_take. intros Hinv. destruct (waits rm !! i) as [[k q' [a'|] []]|] eqn:Hi; try done. intros [= <- <- <-].
  assert (Hup : _ ∧ _) by (eapply (room_update_inv P Q rm i _ (mkWait k q' None Decided) (pending rm)); try done; eauto).
  destruct Hup as [Hinv' Hle]. split_and!; [done|done| |by eapply (ri_slot _ _ _ Hinv)|].
  - split; [eauto|]. cbn. rewrite lookup_insert_eq. by eexists.
  - exists k. exact (ri_wait _ _ _ Hinv _ _ Hi).
Qed.

Lemma room_giveup_inv P Q rm i rm' q :
  room_inv P Q rm → room_giveup rm i = Some (rm', q) →
  room_inv P Q rm' ∧ room_le rm rm' ∧ concludes rm rm' i ∧ ∃ k, P i k q.
Proof.
  unfold room_giveup. intros Hinv. destruct (waits rm !! i) as [[k q' s []]|] eqn:Hi; try done. intros [= <- <-].
  assert (Hup : _ ∧ _) by (eapply (room_update_inv P Q rm i _ (mkWait k q' s Decided) (pending rm)); try done; cbn; eauto).
  destruct Hup as [Hinv' Hle]. split_and!; [done|done| |].
  - split; [eauto|]. cbn. rewrite lookup_insert_eq. by eexists.
  - exists k. exact (ri_wait _ _ _ Hinv _ _ Hi).
Qed.

Lemma room_leave_inv P Q rm i rm' :
  room_inv P Q rm → room_leave rm i = Some rm' → room_inv P Q rm' ∧ room_le rm rm'.
Proof.
  unfold room_leave. intros Hinv. destruct (waits rm !! i) as [[k q s []]|] eqn:Hi; try done. intros [= <-].
  eapply (room_update_inv P Q rm i _ (mkWait k q s Left)); try done; cbn; [eauto|].
  intros k' j [Hk Hj]%lookup_delete_Some. split; [done|]. intros ->.
  destruct (ri_ok _ _ _ Hinv _ _ Hj) as (w & Hw & Hkw & _). by simplify_eq.
Qed.

Lemma empty_room_inv P Q : room_inv P Q empty_room.
Proof. split; [intros k i|intros i w|intros i w a]; cbn; by rewrite lookup_empty. Qed.
End room.

(** ** Persisted rules (persist.go) *)

Section persist.
Context `{GoLib, NetLib}.

Definition new_config : Config := mkConfig pn_Approve [] None.
Definition set_rules (rules : list NetworkTarget) (pc : ProcessConfig) : ProcessConfig :=
  mkProcessConfig (pc_Name pc) (pc_Match pc) (pc_Default pc) rules (pc_Children pc).
Definition new_process (processName : string) : ProcessConfig :=
  mkProcessConfig processName (mkCriteria processName "" "" "" false) pn_Approve [] [].

(** Apply [f] to the first process of that name. *)
Fixpoint at_process (name : string) (f : ProcessConfig → ProcessConfig) (l : list ProcessConfig) : list ProcessConfig :=
  match l with
  | [] => []
  | pc :: l => if String.eqb (pc_Name pc) name then f pc :: l else pc :: at_process name f l
  end.
Definition named (processName : string) (pc : ProcessConfig) : bool := String.eqb (pc_Name pc) processName.

Definition ruleExists (rules : list NetworkTarget) (target : NetworkTarget) : bool :=
  existsb (λ r, bool_decide (r = target)) rules.

(** A file that does not validate is an error. *)
Definition loadOrCreateConfig (file : option Config) : Result AclError Config :=
  match file with
  | None => Ok new_config
  | Some c => let! _ := ValidateConfig (Some c) in Ok (config_Clone c)
  end.

Definition prepend_rule (target : NetworkTarget) (pc : ProcessConfig) : ProcessConfig :=
  set_rules (target :: pc_Rules pc) pc.
Definition drop_rule (target : NetworkTarget) (pc : ProcessConfig) : ProcessConfig :=
  set_rules (List.filter (λ r, negb (bool_decide (r = target))) (pc_Rules pc)) pc.
Definition set_processes (c : Config) (l : list ProcessConfig) : Config := mkConfig (c_Default c) l (c_ApprovalUI c).

(** The file after [FileRulePersister.AddRule]: unchanged when the rule exists. *)
Definition AddRule (file : option Config) (processName : string) (target : NetworkTarget)
    : Result AclError (option Config) :=
  let! config := loadOrCreateConfig file in
  match find_first (named processName) (c_Processes config) with
  | Some pc =>
      if ruleExists (pc_Rules pc) target then Ok file
      else Ok (Some (set_processes config (at_process processName (prepend_rule target) (c_Processes config))))
  | None => Ok (Some (set_processes config (c_Processes config ++ [prepend_rule target (new_process processName)])))
  end.

Definition RemoveRule (file : option Config) (processName : string) (target : NetworkTarget)
    : Result AclError (option Config) :=
  let! config := loadOrCreateConfig file in
  Ok (Some (set_processes config (at_process processName (drop_rule target) (c_Processes config)))).

Definition GetRules (file : option Config) (processName : string) : Result AclError (list NetworkTarget) :=
  let! config := loadOrCreateConfig file in
  Ok (match find_first (named processName) (c_Processes config) with Some pc => pc_Rules pc | None => [] end).
End persist.

(** The persister in memory: rules by process name. *)
Definition mem_AddRule (m : gmap string (list NetworkTarget)) (processName : string) (target : NetworkTarget)
    : gmap string (list NetworkTarget) :=
  let rules := default [] (m !! processName) in
  if ruleExists rules target then m else <[processName := target :: rules]> m.
Definition mem_GetRules (m : gmap string (list NetworkTarget)) (processName : string) : list NetworkTarget :=
  default [] (m !! processName).

(** ** Requests and answers (approval.go) *)

Definition UserDecisionAllowOnce : string := "allow_once".
Definition UserDecisionAllowPermanent : string := "allow_permanent".
Definition UserDecisionDenyOnce : string := "deny_once".
Definition UserDecisionDenyForever : string := "deny_forever".
Definition UserDecisionSkip : string := "skip".
Definition UserDecisionTimeout : string := "timeout".

(** Times are in nanoseconds. *)
Record ApprovalRequest := mkApprovalRequest {
  ar_ID : string; ar_CreatedAt : Z; ar_ExpiresAt : Z; ar_ProcessName : string; ar_ProcessPath : string;
  ar_PID : Z; ar_ParentPID : Z; ar_Target : string; ar_Port : Z; ar_Protocol : string }.
Record ApprovalResponse := mkResponse { rs_RequestID : string; rs_Decision : string; rs_Persistent : bool }.

(** [DefaultDecisionFn] by the decision it returns. *)
Record ApprovalConfig := mkApprovalConfig {
  Timeout : Z; TimeoutFallback : string; DefaultDecisionFn : option string }.
Definition DefaultApprovalConfig : ApprovalConfig := mkApprovalConfig (30 * 1000000000) pn_Deny None.

Definition resolveFallbackDecision (config : ApprovalConfig) : string :=
  if String.eqb (TimeoutFallback config) pn_UseDefault then default pn_Deny (DefaultDecisionFn config)
  else TimeoutFallback config.

Section provider.
Context `{GoLib, NetLib} (config : ApprovalConfig).

(** The events of a request: type, rule source and user action (an error for a rule that
    could not be written). *)
Inductive UserAction := action (s : string) | persist_error (e : AclError).
Record ApprovalEvent := mkApprovalEvent {
  ae_request : ApprovalRequest; ae_type : string; ae_source : string; ae_action : UserAction }.

(** The rule a permanent decision writes: an IP when the target parses as one. *)
Definition persist_target (req : ApprovalRequest) (decision : string) : NetworkTarget :=
  let port := pretty (ar_Port req) in
  match net_ParseIP (ar_Target req) with
  | Some _ => mkTarget "" (ar_Target req) "" port (ar_Protocol req) decision
  | None => mkTarget (ar_Target req) "" "" port (ar_Protocol req) decision
  end.

(** [persister]: whether one is set. The file, and the failure event if there is one. *)
Definition persistRule (persister : bool) (file : option Config) (req : ApprovalRequest) (decision : string)
    : option Config * list ApprovalEvent :=
  if negb persister then (file, [])
  else match AddRule file (ar_ProcessName req) (persist_target req decision) with
       | Ok file' => (file', [])
       | Err e => (file, [mkApprovalEvent req "rule_persist_failed" "" (persist_error e)])
       end.

Definition handleResponse (persister : bool) (file : option Config) (req : ApprovalRequest) (d : string)
    : option Config * list ApprovalEvent * string :=
  let ev := λ t s, mkApprovalEvent req t s (action d) in
  if String.eqb d UserDecisionAllowOnce then (file, [ev "approval_granted" "allow_once"], pn_Allow)
  else if String.eqb d UserDecisionAllowPermanent then
    let '(file, evs) := persistRule persister file req pn_Allow in
    (file, ev "approval_granted" "allow_permanent" :: evs, pn_Allow)
  else if String.eqb d UserDecisionDenyOnce then (file, [ev "approval_denied" "deny_once"], pn_Deny)
  else if String.eqb d UserDecisionDenyForever then
    let '(file, evs) := persistRule persister file req pn_Deny in
    (file, ev "approval_denied" "deny_forever" :: evs, pn_Deny)
  else if String.eqb d UserDecisionSkip then (file, [ev "approval_skipped" ""], resolveFallbackDecision config)
  else (file, [ev "approval_unknown" ""], resolveFallbackDecision config).

(** *** Prompts *)

Definition isPermanent (d : string) : bool :=
  String.eqb d UserDecisionAllowPermanent || String.eqb d UserDecisionDenyForever.

(** [TTYPromptProvider]: the line typed by the user. *)
Definition tty_decision (line : string) : string :=
  let input := ToLower (TrimSpace line) in
  let one_of := λ l, bool_decide (input ∈ l) in
  if one_of ["a"; "allow"; "allow once"] then UserDecisionAllowOnce
  else if one_of ["p"; "permanent"; "allow permanent"] then UserDecisionAllowPermanent
  else if one_of ["d"; "deny"; "deny once"] then UserDecisionDenyOnce
  else if one_of ["f"; "forever"; "deny forever"] then UserDecisionDenyForever
  else UserDecisionSkip.

(** What the desktop notification or the dialog reports; [None] is an error. *)
Record DialogResponse := mkDialogResponse { dr_Allowed : bool; dr_Dismissed : bool; dr_TimedOut : bool }.
Definition allowed_once (allowed : bool) : string := if allowed then UserDecisionAllowOnce else UserDecisionDenyOnce.
Definition notification_decision (fallback : string) (r : option DialogResponse) : string :=
  match r with
  | Some r => if dr_Dismissed r || dr_TimedOut r then fallback else allowed_once (dr_Allowed r)
  | None => fallback
  end.
Definition dialog_decision (fallback : string) (r : option DialogResponse) : string :=
  match r with
  | Some r => if dr_TimedOut r then fallback else allowed_once (dr_Allowed r)
  | None => fallback
  end.
Definition remote_decision (fallback : string) : string := fallback.

(** *** The provider *)

(** [lookups]: the id and the channel of each running [Resolve] that has found one. *)
Record Provider := mkProvider {
  ap_room : Room string ApprovalRequest ApprovalResponse; ap_lookups : gmap nat (string * nat);
  ap_file : option Config; ap_persister : bool; ap_events : list ApprovalEvent }.

(** Steps of the goroutines: a request begins at a time with a fresh id for an empty one,
    its prompt answers or fails, [Resolve] looks an id up and later sends, the request
    receives, times out or is cancelled, and leaves. *)
Inductive Event :=
| E_request (i : nat) (req : ApprovalRequest) (now : Z) (uuid : string)
| E_prompt (i : nat) (answer : option ApprovalResponse)
| E_lookup (r : nat) (id : string)
| E_send (r : nat) (d : string)
| E_receive (i : nat) | E_timeout (i : nat) | E_cancel (i : nat) | E_leave (i : nat).

(** The result of [RequestApproval]; [failed]: it comes with an error. *)
Record Outcome := mkOutcome { oc_wait : nat; oc_decision : string; oc_user : string; oc_failed : bool }.

Definition stamp (req : ApprovalRequest) (now : Z) (uuid : string) : ApprovalRequest :=
  mkApprovalRequest (if String.eqb (ar_ID req) "" then "pnacl-" ++ uuid else ar_ID req) now (now + Timeout config)
    (ar_ProcessName req) (ar_ProcessPath req) (ar_PID req) (ar_ParentPID req) (ar_Target req) (ar_Port req)
    (ar_Protocol req).

Definition set_room (ap : Provider) (rm : Room string ApprovalRequest ApprovalResponse) : Provider :=
  mkProvider rm (ap_lookups ap) (ap_file ap) (ap_persister ap) (ap_events ap).
Definition emitEvents (ap : Provider) (evs : list ApprovalEvent) : Provider :=
  mkProvider (ap_room ap) (ap_lookups ap) (ap_file ap) (ap_persister ap) (ap_events ap ++ evs).

Definition step (ap : Provider) (ev : Event) : option (Provider * list Outcome) :=
  match ev with
  | E_request i req now uuid =>
      let req := stamp req now uuid in
      rm ← room_begin (ap_room ap) i (ar_ID req) req;
      Some (emitEvents (set_room ap rm) [mkApprovalEvent req "approval_requested" "" (action "")], [])
  | E_prompt i answer =>
      w ← waits (ap_room ap) !! i;
      let resp := default (mkResponse (ar_ID (w_req w)) UserDecisionSkip false) answer in
      Some (set_room ap (room_offer (ap_room ap) i resp).1, [])
  | E_lookup r id =>
      i ← pending (ap_room ap) !! id;
      Some (mkProvider (ap_room ap) (<[r := (id, i)]> (ap_lookups ap)) (ap_file ap) (ap_persister ap) (ap_events ap), [])
  | E_send r d =>
      '(id, i) ← ap_lookups ap !! r;
      Some (set_room ap (room_offer (ap_room ap) i (mkResponse id d (isPermanent d))).1, [])
  | E_receive i =>
      '(rm, req, resp) ← room_take (ap_room ap) i;
      let '(file, evs, decision) := handleResponse (ap_persister ap) (ap_file ap) req (rs_Decision resp) in
      Some (mkProvider rm (ap_lookups ap) file (ap_persister ap) (ap_events ap ++ evs),
            [mkOutcome i decision (rs_Decision resp) false])
  | E_timeout i =>
      '(rm, req) ← room_giveup (ap_room ap) i;
      Some (emitEvents (set_room ap rm) [mkApprovalEvent req "approval_timeout" "" (action "timeout")],
            [mkOutcome i (resolveFallbackDecision config) UserDecisionTimeout true])
  | E_cancel i =>
      '(rm, req) ← room_giveup (ap_room ap) i;
      Some (emitEvents (set_room ap rm) [mkApprovalEvent req "approval_cancelled" "" (action "context_cancelled")],
            [mkOutcome i pn_Deny UserDecisionSkip true])
  | E_leave i => rm ← room_leave (ap_room ap) i; Some (set_room ap rm, [])
  end.

Fixpoint run (ap : Provider) (evs : list Event) : option (Provider * list Outcome) :=
  match evs with
  | [] => Some (ap, [])
  | ev :: evs =>
      match step ap ev with
      | None => None
      | Some (ap, os) => match run ap evs with None => None | Some (ap, os') => Some (ap, os ++ os') end
      end
  end.

Definition NewApprovalProvider (persister : bool) (file : option Config) : Provider :=
  mkProvider empty_room ∅ file persister [].

(** [Resolve] as one step, and the requests listed as waiting. *)
Definition Resolve (ap : Provider) (id d : string) : Provider * bool :=
  match pending (ap_room ap) !! id with
  | None => (ap, false)
  | Some i => let '(rm, ok) := room_offer (ap_room ap) i (mkResponse id d (isPermanent d)) in (set_room ap rm, ok)
  end.
Definition ListPending (ap : Provider) (now : Z) : list ApprovalRequest :=
  map_to_list (pending (ap_room ap)) ≫= λ '(_, i),
    match waits (ap_room ap) !! i with
    | Some w => if (now <? ar_ExpiresAt (w_req w))%Z then [w_req w] else []
    | None => []
    end.
End provider.

(** ** Properties of the provider *)

Section provider_props.
Context `{GoLib, NetLib} (config : ApprovalConfig).

(** What an answer decides. *)
Definition decision_of (d : string) : string :=
  if bool_decide (d ∈ [UserDecisionAllowOnce; UserDecisionAllowPermanent]) then pn_Allow
  else if bool_decide (d ∈ [UserDecisionDenyOnce; UserDecisionDenyForever]) then pn_Deny
  else resolveFallbackDecision config.

(** Wait [i] is the request of id [id]. *)
Definition requested (evs : list Event) (i : nat) (id : string) : Prop :=
  ∃ req now uuid, E_request i req now uuid ∈ evs ∧ ar_ID (stamp config req now uuid) = id.

(** An answer [d] was given to the request of wait [i]: by its prompt, or by a [Resolve] of
    its id. *)
Definition answered (evs : list Event) (i : nat) (d : string) : Prop :=
  (∃ a, E_prompt i a ∈ evs ∧ d = from_option rs_Decision UserDecisionSkip a)
  ∨ (∃ r id, E_lookup r id ∈ evs ∧ E_send r d ∈ evs ∧ requested evs i id).

Definition justified (evs : list Event) (o : Outcome) : Prop :=
  (answered evs (oc_wait o) (oc_user o) ∧ oc_decision o = decision_of (oc_user o))
  ∨ (E_timeout (oc_wait o) ∈ evs ∧ oc_decision o = resolveFallbackDecision config)
  ∨ (E_cancel (oc_wait o) ∈ evs ∧ oc_decision o = pn_Deny).

(** The channels and lookups reached after [evs]; [os] are the results so far. *)
Definition known (evs : list Event) (rm : Room string ApprovalRequest ApprovalResponse) : Prop :=
  room_inv (λ i id _, requested evs i id) (λ i resp, answered evs i (rs_Decision resp)) rm.
Record reached (evs : list Event) (os : list Outcome) (rm : Room string ApprovalRequest ApprovalResponse)
    (lk : gmap nat (string * nat)) : Prop := {
  r_room : known evs rm;
  r_lookup : ∀ r id i, lk !! r = Some (id, i) → E_lookup r id ∈ evs ∧ ∃ w, waits rm !! i = Some w ∧ w_key w = id;
  r_done : ∀ i, i ∈ oc_wait <$> os → ∃ w, waits rm !! i = Some w ∧ w_phase w ≠ Waiting;
  r_once : NoDup (oc_wait <$> os);
  r_outcomes : Forall (justified evs) os }.

Lemma handleResponse_decision p file req d : (handleResponse config p file req d).2 = decision_of d.
Proof.
  unfold handleResponse, decision_of.
  destruct (String.eqb_spec d UserDecisionAllowOnce) as [->|]; [done|].
  destruct (String.eqb_spec d UserDecisionAllowPermanent) as [->|]; [by destruct (persistRule _ _ _ _)|].
  destruct (String.eqb_spec d UserDecisionDenyOnce) as [->|]; [done|].
  destruct (String.eqb_spec d UserDecisionDenyForever) as [->|]; [by destruct (persistRule _ _ _ _)|].
  rewrite !bool_decide_false by set_solver. by destruct (String.eqb _ _).
Qed.

Lemma requested_mono evs evs' i id : evs ⊆ evs' → requested evs i id → requested evs' i id.
Proof. unfold requested. set_solver. Qed.
Lemma answered_mono evs evs' i d : evs ⊆ evs' → answered evs i d → answered evs' i d.
Proof. unfold answered, requested. set_solver. Qed.
Lemma justified_mono evs evs' o : evs ⊆ evs' → justified evs o → justified evs' o.
Proof. unfold justified. intros Hs. pose proof (answered_mono evs evs' (oc_wait o) (oc_user o) Hs). set_solver. Qed.

(** More events, the same state. *)
Lemma reached_mono evs evs' os rm lk : evs ⊆ evs' → reached evs os rm lk → reached evs' os rm lk.
Proof.
  intros Hs [Hi Hl Hd ? Ho]. split; try done.
  - eapply room_inv_mono; [| |exact Hi]; eauto using requested_mono, answered_mono.
  - intros r id i Hr. destruct (Hl r id i Hr). set_solver.
  - eapply Forall_impl; [done|]. intros o. by apply justified_mono.
Qed.

(** The channels change. *)
Lemma reached_room evs os rm rm' lk : reached evs os rm lk → known evs rm' ∧ room_le rm rm' → reached evs os rm' lk.
Proof.
  intros [_ Hl Hd ? Ho] [Hi Hle]. split; try done.
  - intros r id i Hr. destruct (Hl r id i Hr) as (? & w & Hw & <-). split; [done|].
    destruct (Hle i w Hw) as (w' & ? & ? & _). eauto.
  - intros i Hi'. destruct (Hd i Hi') as (w & Hw & ?). destruct (Hle i w Hw) as (w' & ? & ? & ? & ?). eauto.
Qed.

(** A wait concludes with a result. *)
Lemma reached_outcome evs os rm rm' lk o :
  reached evs os rm lk → known evs rm' → room_le rm rm' → concludes rm rm' (oc_wait o) → justified evs o →
  reached evs (os ++ [o]) rm' lk.
Proof.
  intros Hr Hk Hle [(w & Hw & Hp) Hw'] Hj. destruct (reached_room evs os rm rm' lk Hr (conj Hk Hle)) as [? ? Hd ? Ho].
  split; try done.
  - intros i. rewrite fmap_app, elem_of_app. intros [Hi|Hi%list_elem_of_singleton]; [by apply Hd|by subst].
  - rewrite fmap_app. apply NoDup_app. split_and!; [done| |apply NoDup_singleton].
    intros i Hi Hio%list_elem_of_singleton. subst i. destruct (r_done _ _ _ _ Hr _ Hi) as (v & Hv & ?). by simplify_eq.
  - apply Forall_app. split; [done|]. by apply Forall_singleton.
Qed.

Lemma step_reached evs os ap ev ap' os' :
  reached evs os (ap_room ap) (ap_lookups ap) → step config ap ev = Some (ap', os') →
  reached (evs ++ [ev]) (os ++ os') (ap_room ap') (ap_lookups ap').
Proof.
  intros Hr Hs. apply (reached_mono _ (evs ++ [ev])) in Hr; [|set_solver].
  assert (Hev : ev ∈ evs ++ [ev]) by set_solver. revert Hev Hr. generalize (evs ++ [ev]). clear evs. intros evs Hev Hr.
  pose proof (r_room _ _ _ _ Hr) as Hrm. unfold known in Hrm.
  destruct ev as [i req now uuid|i answer|r id|r d|i|i|i|i]; simpl in Hs.
  - destruct (room_begin _ _ _ _) as [rm|] eqn:Hb; [|done]. simplify_eq/=. rewrite app_nil_r.
    eapply reached_room; [done|]. eapply room_begin_inv; [done| |done]. by exists req, now, uuid.
  - destruct (waits _ !! i) as [w|] eqn:Hw; [|done]. simplify_eq/=. rewrite app_nil_r.
    eapply reached_room; [done|]. apply room_offer_inv; [done|]. intros _ _. left. exists answer. split; [done|].
    by destruct answer.
  - destruct (pending _ !! id) as [i|] eqn:Hi; [|done]. simplify_eq/=. rewrite app_nil_r.
    split; try apply Hr. intros r' id' j [[-> [= -> ->]]|[_ Hj]]%lookup_insert_Some; [|by eapply r_lookup].
    split; [done|]. destruct (ri_ok _ _ _ Hrm _ _ Hi) as (w & ? & ? & _). eauto.
  - destruct (ap_lookups ap !! r) as [[id i]|] eqn:Hl; [|done]. simplify_eq/=. rewrite app_nil_r.
    eapply reached_room; [done|]. apply room_offer_inv; [done|]. intros w Hw. right. exists r, id.
    destruct (r_lookup _ _ _ _ Hr _ _ _ Hl) as (? & w' & Hw' & <-). split_and!; [done|done|].
    exact (ri_wait _ _ _ Hrm _ _ Hw').
  - destruct (room_take _ _) as [[[rm req] resp]|] eqn:Ht; [|done]. cbn -[handleResponse] in Hs.
    destruct (handleResponse _ _ _ _ _) as [[file evs'] d] eqn:Hd. simplify_eq/=.
    destruct (room_take_inv _ _ _ _ _ _ _ Hrm Ht) as (Hk & Hle & Hc & Ha & _).
    eapply reached_outcome; [done|done|done|done|]. left. split; [done|]. cbn.
    by rewrite <- (handleResponse_decision (ap_persister ap) (ap_file ap) req), Hd.
  - destruct (room_giveup _ _) as [[rm req]|] eqn:Ht; [|done]. simplify_eq/=.
    destruct (room_giveup_inv _ _ _ _ _ _ Hrm Ht) as (? & ? & ? & _).
    eapply reached_outcome; [done..|]. right; left. done.
  - destruct (room_giveup _ _) as [[rm req]|] eqn:Ht; [|done]. simplify_eq/=.
    destruct (room_giveup_inv _ _ _ _ _ _ Hrm Ht) as (? & ? & ? & _).
    eapply reached_outcome; [done..|]. right; right. done.
  - destruct (room_leave _ _) as [rm|] eqn:Hl; [|done]. simplify_eq/=. rewrite app_nil_r.
    eapply reached_room; [done|]. by eapply room_leave_inv.
Qed.

Lemma run_reached evs0 os0 ap evs ap' os :
  reached evs0 os0 (ap_room ap) (ap_lookups ap) → run config ap evs = Some (ap', os) →
  reached (evs0 ++ evs) (os0 ++ os) (ap_room ap') (ap_lookups ap').
Proof.
  revert evs0 os0 ap os. induction evs as [|ev evs IH]; intros evs0 os0 ap os Hr Hs; simpl in Hs.
  { simplify_eq. by rewrite !app_nil_r. }
  destruct (step config ap ev) as [[ap1 os1]|] eqn:Hstep; [|done].
  destruct (run config ap1 evs) as [[ap2 os2]|] eqn:Hrun; [|done]. simplify_eq.
  rewrite cons_middle, !app_assoc. eapply IH; [by eapply step_reached|done].
Qed.

Lemma reached_init : reached [] [] empty_room ∅.
Proof.
  split; [apply empty_room_inv|intros r id i; by rewrite lookup_empty|set_solver|constructor|done].
Qed.

(** C33. In every interleaving of requests, prompts, remote answers, timeouts and
    cancellations, a network approval request gets at most one result, and the result is
    what an answer given to that very request decides (by its own prompt, or by a [Resolve]
    of its id), or the configured fallback after its timeout, or deny after its
    cancellation; and a registered id always leads to a request of that id still in
    progress. *)
Theorem approvals_justified (persister : bool) (file : option Config) (evs : list Event) (ap : Provider)
    (os : list Outcome) :
  run config (NewApprovalProvider persister file) evs = Some (ap, os) →
  Forall (justified evs) os ∧ NoDup (oc_wait <$> os) ∧ room_ok (ap_room ap).
Proof.
  intros Hr. destruct (run_reached [] [] (NewApprovalProvider persister file) evs ap os reached_init Hr) as [Hk _ _ ? ?].
  split_and!; [done|done|apply Hk].
Qed.
End provider_props.

(** ** Properties of persisted rules *)

Section persist_props.
Context `{GoLib, GlobLib, NetLib, FilepathLib} (goos : string).

Lemma check_each_Ok {A} i wrap check (l : list A) :
  check_each i wrap check l = Ok tt ↔ Forall (λ x, check x = Ok tt) l.
Proof.
  revert i. induction l as [|x l IH]; intros i; simpl; [done|]. rewrite Forall_cons, <- (IH (S i)).
  destruct (check x) as [[]|]; naive_solver.
Qed.

Lemma Clone_id c : config_Clone c = mkConfig (c_Default c) (c_Processes c) None.
Proof.
  unfold config_Clone. f_equal. rewrite <- (list_fmap_id (c_Processes c)) at 2. apply list_fmap_ext. intros _ [n m d r ch] _.
  unfold process_Clone. cbn. f_equal. rewrite <- (list_fmap_id ch) at 2. apply list_fmap_ext. by intros _ [] _.
Qed.

(** A file that loads holds valid processes. *)
Lemma load_valid file c :
  loadOrCreateConfig file = Ok c →
  ValidateConfig (Some c) = Ok tt ∧ c_Processes c = from_option c_Processes [] file.
Proof.
  destruct file as [c'|]; simpl; [|by intros [= <-]].
  destruct (when_given _ _) as [[]|] eqn:Hd; [|done]. simpl.
  destruct (check_each _ _ _ _) as [[]|] eqn:Hc; [|done]. simpl. rewrite Clone_id. intros [= <-]. cbn -[validateProcessConfig].
  by rewrite Hd.
Qed.

Lemma valid_rule_added target pc :
  validateNetworkTarget target = Ok tt → validateProcessConfig pc = Ok tt →
  validateProcessConfig (prepend_rule target pc) = Ok tt.
Proof.
  unfold validateProcessConfig, validate_rules. cbn [prepend_rule set_rules pc_Name pc_Match pc_Default pc_Rules pc_Children].
  intros Ht. destruct (require _ _) as [[]|]; [|done]. simpl. destruct (require _ _) as [[]|]; [|done]. simpl.
  destruct (when_given _ _) as [[]|]; [|done]. simpl. rewrite Ht.
  destruct (check_each 0 _ _ (pc_Rules pc)) as [[]|] eqn:Hr; [|done]. intros Hc.
  apply check_each_Ok in Hr. apply (check_each_Ok 1 (λ i _ e, in_rule i e)) in Hr. rewrite Hr. done.
Qed.

Lemma valid_new_process name : name ≠ "" → validateProcessConfig (new_process name) = Ok tt.
Proof.
  intros Hn. unfold validateProcessConfig, new_process, hasCriteria. cbn -[String.eqb].
  destruct (String.eqb_spec name ""); [done|]. done.
Qed.

Lemma at_process_Forall (P : ProcessConfig → Prop) name f l :
  (∀ pc, P pc → P (f pc)) → Forall P l → Forall P (at_process name f l).
Proof. intros Hf. induction 1 as [|pc l Hpc Hl IH]; simpl; [done|]. destruct (String.eqb _ _); constructor; auto. Qed.

Lemma find_first_snoc {A} (p : A → bool) l x :
  find_first p l = None → find_first p (l ++ [x]) = if p x then Some x else None.
Proof. induction l as [|y l IH]; simpl; [done|]. by destruct (p y). Qed.

Lemma find_at_process name f l pc :
  (∀ pc, pc_Name (f pc) = pc_Name pc) → find_first (named name) l = Some pc →
  find_first (named name) (at_process name f l) = Some (f pc).
Proof.
  intros Hf. unfold named. induction l as [|p l IH]; simpl; [done|].
  destruct (String.eqb (pc_Name p) name) eqn:Hp; simpl; [intros [= ->]; by rewrite Hf, Hp|by rewrite Hp].
Qed.

(** What [AddRule] leaves for a rule that was not there. *)
Lemma AddRule_spec file name target c pcs :
  loadOrCreateConfig file = Ok c → pcs = c_Processes c → name ≠ "" → validateNetworkTarget target = Ok tt →
  ruleExists (from_option pc_Rules [] (find_first (named name) pcs)) target = false →
  ∃ c' pc, AddRule file name target = Ok (Some c') ∧ ValidateConfig (Some c') = Ok tt
    ∧ find_first (named name) (c_Processes c') = Some pc
    ∧ pc_Rules pc = target :: from_option pc_Rules [] (find_first (named name) pcs).
Proof.
  intros Hl -> Hn Ht He. unfold AddRule. rewrite Hl. simpl. destruct (load_valid file c Hl) as [Hv _]. revert Hv.
  simpl. destruct (when_given _ _) as [[]|] eqn:Hd; [|done]. simpl. rewrite check_each_Ok. intros Hv.
  assert (Hvalid : ∀ l, Forall (λ pc, validateProcessConfig pc = Ok tt) l →
    ValidateConfig (Some (set_processes c l)) = Ok tt).
  { intros l Hl'. simpl. rewrite Hd. simpl. by apply check_each_Ok. }
  destruct (find_first (named name) (c_Processes c)) as [pc|] eqn:Hf; simpl in *.
  - rewrite He. eexists _, (prepend_rule target pc). split_and!; [done| |by apply find_at_process|done].
    apply Hvalid. apply at_process_Forall; [|done]. intros p. by apply valid_rule_added.
  - eexists _, _. split_and!; [done| | |].
    + apply Hvalid. apply Forall_app. split; [done|]. apply Forall_singleton. apply valid_rule_added; [done|].
      by apply valid_new_process.
    + cbn. rewrite find_first_snoc by done. unfold named. simpl. by rewrite String.eqb_refl.
    + done.
Qed.

(** A request whose rule a file can hold. *)
Record persistable (req : ApprovalRequest) : Prop := {
  ps_name : ar_ProcessName req ≠ "";
  ps_target : ar_Target req ≠ "";
  ps_port : (1 <= ar_Port req <= 65535)%Z;
  ps_proto : ToLower (ar_Protocol req) ∈ ["tcp"; "udp"] }.

Lemma persist_target_valid req d :
  persistable req → d ∈ [pn_Allow; pn_Deny] → validateNetworkTarget (persist_target req d) = Ok tt.
Proof.
  intros [_ Ht Hp Hproto] Hd. unfold validateNetworkTarget.
  assert (Hport : validatePortSpec (pretty (ar_Port req)) = Ok tt).
  { pose proof (validate_parses (pretty (ar_Port req))) as Hv. rewrite parsePort_pretty in Hv by done.
    by destruct (validatePortSpec _) as [[]|]. }
  assert (Hdec : isValidDecision d = true ∧ String.eqb d "" = false) by (set_unfold in Hd; naive_solver).
  destruct Hdec as [Hdec Hd0].
  assert (Hpr : String.eqb (ToLower (ar_Protocol req)) "tcp" || String.eqb (ToLower (ar_Protocol req)) "udp" = true).
  { apply elem_of_cons in Hproto as [->|Hproto%list_elem_of_singleton]; [done|by rewrite Hproto]. }
  apply String.eqb_neq in Ht. unfold persist_target.
  destruct (net_ParseIP (ar_Target req)) eqn:Hip; cbn -[String.eqb validatePortSpec isValidDecision];
    rewrite Ht, ?Hip, Hd0, Hdec, Hport, Hpr; cbn -[String.eqb]; rewrite ?bool_decide_true by eauto;
    unfold when_given; rewrite ?Ht; cbn -[String.eqb pretty];
    by destruct (String.eqb (ar_Protocol req) "" || _), (String.eqb (pretty _) "" || _).
Qed.

(** The connection a request was about. *)
Definition same_connection (req : ApprovalRequest) (k : Connection) : bool :=
  (k_Port k =? ar_Port req)%Z && String.eqb (ToLower (k_Protocol k)) (ToLower (ar_Protocol req)) &&
  match net_ParseIP (ar_Target req) with
  | Some a => match k_IP k with Some ip => ip_Equal a ip | None => false end
  | None => match glob_Compile (ToLower (ar_Target req)) ["."%char] with
            | Some g => glob_Match g (ToLower (k_Host k))
            | None => false
            end
  end.

Lemma persist_target_hits req d r k :
  persistable req → CompileNetworkRule (persist_target req d) = Ok r → same_connection req k = true →
  hits_rule k r = true ∧ nr_target r = persist_target req d.
Proof.
  intros [_ Ht Hp Hproto] Hc Hk. apply andb_true_iff in Hk as [[Hport Hpr]%andb_true_iff Hk].
  apply Z.eqb_eq in Hport. apply String.eqb_eq in Hpr.
  assert (Hlow : String.eqb (ToLower (ar_Protocol req)) "" || String.eqb (ToLower (ar_Protocol req)) "*" = false).
  { apply elem_of_cons in Hproto as [->|Hproto%list_elem_of_singleton]; [done|by rewrite Hproto]. }
  apply String.eqb_neq in Ht. revert Hc. unfold CompileNetworkRule, persist_target.
  destruct (net_ParseIP (ar_Target req)) as [a|] eqn:Hip; cbn -[String.eqb parsePort]; unfold parse_given;
    rewrite Ht, parsePort_pretty by done; rewrite Hlow, ?Hip; cbn -[String.eqb].
  - intros [= <-]. split; [|done]. unfold hits_rule, rule_Matches. cbn -[String.eqb].
    rewrite Hpr, String.eqb_refl, Hport, orb_true_r, Z.ltb_irrefl, Hk. done.
  - destruct (glob_Compile _ _) as [g|]; [|done]. intros [= <-]. split; [|done].
    unfold hits_rule, rule_Matches. cbn -[String.eqb].
    rewrite Hpr, String.eqb_refl, Hport, orb_true_r, Z.ltb_irrefl, Hk. done.
Qed.

(** The policy of a name is the compiled process of that name. *)
Lemma engine_named c e name pp :
  NewPolicyEngine c = Ok e → find_first (λ pp, String.eqb (pp_Name pp) name) (ProcessPolicies e) = Some pp →
  ∃ pc, find_first (named name) (c_Processes c) = Some pc ∧ compileProcessPolicy pc = Ok pp.
Proof.
  unfold NewPolicyEngine. destruct (rmap _ _) as [pps|] eqn:Hm; [|done]. simpl. intros [= <-]. cbn [ProcessPolicies].
  revert pps Hm. induction (c_Processes c) as [|pc l IH]; intros pps Hm; simpl in Hm; [by simplify_eq|].
  destruct (compileProcessPolicy pc) as [pp1|] eqn:Hpp; [|done]. simpl in Hm.
  destruct (rmap _ l) as [pps'|]; [|done]. simpl in Hm. simplify_eq. simpl.
  assert (Hname : pp_Name pp1 = pc_Name pc).
  { revert Hpp. unfold compileProcessPolicy. destruct (opt_err _ _); [|done]. simpl.
    destruct (compile_rules _ _); [|done]. simpl. destruct (rmap _ _); [|done]. simpl. by intros [= <-]. }
  unfold named at 1. rewrite Hname. destruct (String.eqb _ _); [|by apply IH].
  intros [= <-]. by exists pc.
Qed.

Lemma compile_first_rule pc pp target rules :
  compileProcessPolicy pc = Ok pp → pc_Rules pc = target :: rules →
  ∃ r rs, CompileNetworkRule target = Ok r ∧ pp_Rules pp = r :: rs.
Proof.
  unfold compileProcessPolicy. intros Hc Hr. rewrite Hr in Hc. revert Hc.
  destruct (opt_err _ _); [|done]. simpl. destruct (CompileNetworkRule target) as [r|]; [|done].
  destruct (compile_rules _ _) as [rs|]; [|done]. simpl. destruct (rmap _ _); [|done]. simpl. intros [= <-]. eauto.
Qed.

(** A permanent decision holds. When the user answers a request with allow
    permanently or deny forever and its rule is new to a file that loads, the file that is
    written loads again, no error is reported, and the engine compiled from it decides the
    same connection of that process the way the user did, by its first rule and ahead of
    every older one; the process has to be one whose rule set carries the request's process
    name and whose children do not take it over. *)
Theorem permanent_decision_sticks (config : ApprovalConfig) (file : option Config) (c : Config)
    (req : ApprovalRequest) (d : string) :
  loadOrCreateConfig file = Ok c → persistable req → isPermanent d = true →
  ruleExists (from_option pc_Rules [] (find_first (named (ar_ProcessName req)) (c_Processes c)))
    (persist_target req (decision_of config d)) = false →
  ∃ c' ev, handleResponse config true file req d = (Some c', [ev], decision_of config d)
    ∧ is_Ok (loadOrCreateConfig (Some c')) = true
    ∧ ∀ e pp proc k,
        NewPolicyEngine c' = Ok e →
        find_first (λ pp, matcher_Matches goos (pp_Matcher pp) proc) (ProcessPolicies e) = Some pp →
        find_first (λ pp, String.eqb (pp_Name pp) (ar_ProcessName req)) (ProcessPolicies e) = Some pp →
        findChildPolicy goos pp proc = None → same_connection req k = true →
        engine_Evaluate goos e proc k
        = mkPolicyResult (decision_of config d) (ar_ProcessName req) (Some 0) false "".
Proof.
  intros Hl Hreq Hd Hnew. pose proof (persist_target_valid req (decision_of config d) Hreq) as Hvalid.
  assert (Hcase : (d = UserDecisionAllowPermanent ∨ d = UserDecisionDenyForever)).
  { unfold isPermanent in Hd. apply orb_true_iff in Hd as [->%String.eqb_eq| ->%String.eqb_eq]; auto. }
  assert (Hdec : decision_of config d ∈ [pn_Allow; pn_Deny]) by (destruct Hcase as [->| ->]; cbn; set_solver).
  destruct (AddRule_spec file _ _ c _ Hl eq_refl (ps_name _ Hreq) (Hvalid Hdec) Hnew) as (c' & pc & Hadd & Hok & Hf & Hr).
  assert (Hh : ∃ ev, handleResponse config true file req d = (Some c', [ev], decision_of config d)).
  { destruct Hcase as [->| ->]; [change (decision_of config UserDecisionAllowPermanent) with pn_Allow in *
                                |change (decision_of config UserDecisionDenyForever) with pn_Deny in *];
      unfold handleResponse, persistRule; cbn -[AddRule persist_target]; rewrite Hadd; eauto. }
  destruct Hh as [ev Hh]. exists c', ev. split_and!; [done|by cbn in *; rewrite Hok|].
  intros e pp proc k He Hacc Hname Hchild Hk. unfold engine_Evaluate. rewrite Hacc. unfold evaluate_policy. rewrite Hchild.
  destruct (engine_named _ _ _ _ He Hname) as (pc' & Hf' & Hcomp). rewrite Hf in Hf'. simplify_eq.
  destruct (compile_first_rule _ _ _ _ Hcomp Hr) as (r & rs & Hc & Hrs).
  destruct (persist_target_hits _ _ _ _ Hreq Hc Hk) as [Hhit Htgt].
  unfold evaluateProcessRules. rewrite Hrs. simpl. rewrite Hhit, Htgt.
  apply find_first_Some in Hname as [_ ->%String.eqb_eq]. f_equal. unfold persist_target. by destruct (net_ParseIP _).
Qed.
End persist_props.

(** ** Samples *)

Module ApprovalSample.
#[local] Existing Instance ascii_go.
#[local] Existing Instance literal_glob.
#[local] Existing Instance no_net.
#[local] Existing Instance no_patterns.

Definition request : ApprovalRequest :=
  mkApprovalRequest "" 0 0 "curl" "/usr/bin/curl" 42 1 "example.com" 443 "tcp".
(** The prompt fails after a remote answer; the second request times out. *)
Definition history : list Event :=
  [E_request 0 request 100 "a"; E_lookup 7 "pnacl-a"; E_send 7 UserDecisionAllowPermanent; E_prompt 0 None;
   E_request 1 request 200 "b"; E_receive 0; E_leave 0; E_timeout 1; E_leave 1].

Example history_outcomes :
  option_map (λ p : Provider * list Outcome, List.map (λ o, (oc_wait o, oc_decision o, oc_user o)) p.2)
    (run DefaultApprovalConfig (NewApprovalProvider true None) history)
  = Some [(0, pn_Allow, UserDecisionAllowPermanent); (1, pn_Deny, UserDecisionTimeout)].
Proof. vm_compute. reflexivity. Qed.

Lemma approvals_justified_witness :
  ∃ ap os, run DefaultApprovalConfig (NewApprovalProvider true None) history = Some (ap, os)
    ∧ Forall (justified DefaultApprovalConfig history) os ∧ NoDup (oc_wait <$> os).
Proof.
  destruct (run DefaultApprovalConfig (NewApprovalProvider true None) history) as [[ap os]|] eqn:Hr.
  - exists ap, os. destruct (approvals_justified DefaultApprovalConfig true None history ap os Hr) as (? & ? & _). done.
  - exfalso. vm_compute in Hr. discriminate Hr.
Defined.

Definition curl_config : Config :=
  mkConfig pn_Deny [mkProcessConfig "curl" (mkCriteria "curl" "" "" "" false) pn_Deny
                      [mkTarget "example.com" "" "" "443" "tcp" pn_Deny] []] None.
Definition curl : NetProcess := mkNetProcess "curl" "/usr/bin/curl" "" "" 42 1.
Definition to_example : Connection := mkConnection "example.com" None 443 "tcp".

Lemma permanent_decision_sticks_witness :
  ∃ c' ev, handleResponse DefaultApprovalConfig true (Some curl_config) request UserDecisionAllowPermanent
           = (Some c', [ev], pn_Allow)
    ∧ ∃ e, NewPolicyEngine c' = Ok e
    ∧ engine_Evaluate "linux" e curl to_example = mkPolicyResult pn_Allow "curl" (Some 0) false "".
Proof.
  destruct (permanent_decision_sticks "linux" DefaultApprovalConfig (Some curl_config) (config_Clone curl_config) request
    UserDecisionAllowPermanent) as (c' & ev & Hh & Hl & He).
  - vm_compute. reflexivity.
  - split; [done|done|cbn; lia|]. cbn. set_solver.
  - vm_compute. reflexivity.
  - vm_compute. reflexivity.
  - exists c', ev. split; [exact Hh|]. vm_compute in Hh. injection Hh as <- _.
    destruct (NewPolicyEngine _) as [e|] eqn:Hc in |- *; [|vm_compute in Hc; discriminate Hc].
    exists e. split; [done|]. pose proof Hc as Hc'. vm_compute in Hc'. injection Hc' as <-.
    eapply He; [exact Hc|vm_compute; reflexivity|vm_compute; reflexivity|vm_compute; reflexivity|vm_compute; reflexivity].
Defined.
End ApprovalSample.
