(* ===== verification/NetMaps.v ===== *)
(** * The kernel's connection maps (internal/netmonitor/ebpf)

    collector.go: the events the BPF program emits, decoded from their bytes; program.go and
    maps_linux.go: the maps that hold allowed and denied endpoints per cgroup, filled and
    cleaned by the server; connect.bpf.c: the verdict of the hooks over these maps;
    connection_holder.go: the entries made from a rule engine and from approved connections,
    and the monitor around them.

    Structures that cross the boundary are modelled with their layout: the C compiler aligns
    fields, encoding/binary (used by cilium/ebpf on the Go side) packs them, and a key whose
    size differs from the map's is refused, as keysize_test.go documents. The hash maps are
    of type LRU_HASH: an update never fails for want of room, it evicts other entries. Which
    ones is the kernel's choice, an argument of every operation that writes ([Lru]). *)
From stdpp Require Import list_numbers.
From S2P Require Import Prelude PolicyEngine NetAcl.

(** ** Layout of structures *)

(** A field by size and alignment. *)
Definition align_up (a off : Z) : Z := ((off + a - 1) / a * a)%Z.
Fixpoint c_offsets (off : Z) (fields : list (Z * Z)) : list Z :=
  match fields with
  | [] => []
  | (size, al) :: fields => let o := align_up al off in o :: c_offsets (o + size)%Z fields
  end.
Fixpoint c_end (off : Z) (fields : list (Z * Z)) : Z :=
  match fields with [] => off | (size, al) :: fields => c_end (align_up al off + size)%Z fields end.
Definition c_sizeof (fields : list (Z * Z)) : Z :=
  align_up (foldr Z.max 1%Z (fields.*2)) (c_end 0 fields).
(** encoding/binary: no padding but the explicit fields. *)
Definition binary_size (fields : list Z) : Z := foldr Z.add 0%Z fields.

(** struct allow_key, lpm4_key, lpm6_key and connect_event of connect.bpf.c. *)
Definition allow_key_c : list (Z * Z) := [(8, 8); (1, 1); (1, 1); (2, 2); (16, 1)]%Z.
Definition lpm4_key_c : list (Z * Z) := [(4, 4); (8, 8); (4, 4); (2, 2)]%Z.
Definition lpm6_key_c : list (Z * Z) := [(4, 4); (8, 8); (16, 1); (2, 2)]%Z.
Definition connect_event_c : list (Z * Z) :=
  [(8, 8); (8, 8); (4, 4); (4, 4); (2, 2); (2, 2); (1, 1); (1, 1); (6, 1); (16, 4); (1, 1); (7, 1)]%Z.
(** [AllowKey] and the lpm4Key and lpm6Key of maps_linux.go. *)
Definition AllowKey_go : list Z := [8; 1; 1; 2; 16; 4]%Z.
Definition lpm4Key_go : list Z := [4; 8; 4; 2]%Z.
Definition lpm6Key_go : list Z := [4; 8; 16; 2]%Z.

(** ** Events (collector.go) *)

Record ConnectEvent := mkConnectEvent {
  ce_TsNs : Z; ce_Cookie : Z; ce_PID : Z; ce_TGID : Z; ce_Sport : Z; ce_Dport : Z; ce_Family : Z;
  ce_Protocol : Z; ce_DstIPv4 : Z; ce_DstIPv6 : list Z; ce_Blocked : Z }.

Definition at_off (b : list Z) (i : nat) : Z := nth i b 0%Z.
Definition le16 (b : list Z) : Z := Z.lor (at_off b 0) (Z.shiftl (at_off b 1) 8).
Definition le32 (b : list Z) : Z :=
  Z.lor (Z.lor (Z.lor (at_off b 0) (Z.shiftl (at_off b 1) 8)) (Z.shiftl (at_off b 2) 16)) (Z.shiftl (at_off b 3) 24).
Definition le64 (b : list Z) : Z := Z.lor (le32 b) (Z.shiftl (le32 (drop 4 b)) 32).

Definition zero_event : ConnectEvent := mkConnectEvent 0 0 0 0 0 0 0 0 0 (replicate 16 0%Z) 0.
Definition copyToEvent (data : list Z) : ConnectEvent :=
  let n := length data in
  if n <? 30 then zero_event
  else mkConnectEvent (le64 data) (le64 (drop 8 data)) (le32 (drop 16 data)) (le32 (drop 20 data))
         (le16 (drop 24 data)) (le16 (drop 26 data)) (at_off data 28) (at_off data 29)
         (if 48 <=? n then le32 (drop 36 data) else 0%Z)
         (if 48 <=? n then take 16 (drop 32 data) else replicate 16 0%Z)
         (if 48 <? n then at_off data 48 else 0%Z).

Definition byte_of (x : Z) (shift : Z) : Z := Z.land (Z.shiftr x shift) 255.
(** [extractDstIP]; [buildConnectionEvent] does the same. *)
Definition extractDstIP (ev : ConnectEvent) : option (list Z) :=
  if (ce_Family ev =? 2)%Z
  then let x := ce_DstIPv4 ev in Some [byte_of x 0; byte_of x 8; byte_of x 16; byte_of x 24]
  else if (ce_Family ev =? 10)%Z then Some (ce_DstIPv6 ev)
  else None.

(** The bytes [emit_event] submits, in the order of struct connect_event, on a little-endian
    machine. [ts], [cookie] and [pid_tgid] come from the kernel; the reserved memory is not
    cleared, so padding and the rest of an IPv4 union hold arbitrary bytes. *)
Definition store (n : Z) (x : Z) : list Z := Z_to_little_endian n 8 x.
Record ctx_info := mkCtx { ci_cgroup_id : Z; ci_family : Z; ci_dport : Z; ci_addr : list Z }.
Definition emit_event (ts cookie pid_tgid : Z) (pad : list Z) (rest : list Z) (tail : list Z) (info : ctx_info)
    (protocol : Z) (blocked : bool) : list Z :=
  store 8 ts ++ store 8 cookie ++ store 4 (Z.shiftr pid_tgid 32) ++ store 4 pid_tgid ++ store 2 0 ++
  store 2 (ci_dport info) ++ [ci_family info; protocol] ++ pad ++ (ci_addr info ++ rest) ++
  [if blocked then 1%Z else 0%Z] ++ tail.

(** ** The maps (program.go, maps_linux.go) *)

Record AllowKey := mkAllowKey {
  ak_CgroupID : Z; ak_Family : Z; ak_Protocol : Z; ak_Dport : Z; ak_Addr : list Z }.
#[export] Instance AllowKey_eq_dec : EqDecision AllowKey.
Proof. solve_decision. Defined.
#[export] Instance AllowKey_countable : Countable AllowKey.
Proof.
  refine (inj_countable' (λ k, (ak_CgroupID k, ak_Family k, ak_Protocol k, ak_Dport k, ak_Addr k))
    (λ '(c, f, p, d, a), mkAllowKey c f p d a) _). by intros [].
Defined.
Record AllowCIDR := mkAllowCIDR {
  ac_Family : Z; ac_Protocol : Z; ac_PrefixLen : Z; ac_Dport : Z; ac_Addr : list Z }.
Record LpmKey := mkLpmKey { lk_Prefixlen : Z; lk_CgroupID : Z; lk_Addr : list Z; lk_Dport : Z }.
#[export] Instance LpmKey_eq_dec : EqDecision LpmKey.
Proof. solve_decision. Defined.
#[export] Instance LpmKey_countable : Countable LpmKey.
Proof.
  refine (inj_countable' (λ k, (lk_Prefixlen k, lk_CgroupID k, lk_Addr k, lk_Dport k))
    (λ '(p, c, a, d), mkLpmKey p c a d) _). by intros [].
Defined.

Record MapCounts := mkMapCounts {
  AllowCgroup : Z; AllowTotal : Z; DenyCgroup : Z; DenyTotal : Z;
  LpmAllowCgroup : Z; LpmAllowTotal : Z; LpmDenyCgroup : Z; LpmDenyTotal : Z }.
Record Maps := mkMaps {
  allowlist : gset AllowKey; denylist : gset AllowKey;
  lpm4_allow : gset LpmKey; lpm6_allow : gset LpmKey; lpm4_deny : gset LpmKey; lpm6_deny : gset LpmKey;
  default_deny : gmap Z bool; last_counts : MapCounts }.
Definition no_counts : MapCounts := mkMapCounts 0 0 0 0 0 0 0 0.
Definition empty_maps : Maps := mkMaps ∅ ∅ ∅ ∅ ∅ ∅ ∅ no_counts.

Inductive MapError := nil_collection | iterate_lpm4 | iterate_lpm6 | put_allowlist | put_denylist
| put_lpm4_allow | put_lpm6_allow | put_lpm4_deny | put_lpm6_deny.

(** A key can be written or read when it has the map's size. *)
Definition fits (go : list Z) (c : list (Z * Z)) : bool := (binary_size go =? c_sizeof c)%Z.

(** The entries an update evicts from a hash map: a function of what the map holds and of the
    key, for each of the maps. [htab_lru_map_update_elem] takes its node before it looks for
    an old entry, so that an update of a present key may evict as well. *)
Record Lru := mkLru {
  lru_allow : gset AllowKey → AllowKey → gset AllowKey;
  lru_deny : gset AllowKey → AllowKey → gset AllowKey;
  lru_default : gset Z → Z → gset Z }.
Definition hash_put {K} `{Countable K} (victims : gset K → K → gset K) (m : gset K) (k : K) : gset K :=
  (m ∖ victims m k) ∪ {[k]}.
Definition hash_puts {K} `{Countable K} (victims : gset K → K → gset K) (m : gset K) (ks : list K) : gset K :=
  foldl (hash_put victims) m ks.
Definition put_default (victims : gset Z → Z → gset Z) (m : gmap Z bool) (k : Z) (v : bool) : gmap Z bool :=
  <[k := v]> (filter (λ e, e.1 ∉ victims (dom m) k) m).

(** Iterating decodes every key; a foreign cgroup's entries stay. *)
Definition clear_lpm (go : list Z) (c : list (Z * Z)) (m : gset LpmKey) (cg : Z) : option (gset LpmKey) :=
  if bool_decide (m = ∅) then Some ∅
  else if fits go c then Some (filter (λ k, lk_CgroupID k ≠ cg) m) else None.
Definition foreign (m : gset AllowKey) (cg : Z) : gset AllowKey := filter (λ k, ak_CgroupID k ≠ cg) m.
Definition set_cgroup (cg : Z) (k : AllowKey) : AllowKey :=
  mkAllowKey cg (ak_Family k) (ak_Protocol k) (ak_Dport k) (ak_Addr k).

Definition lpm_key (cg : Z) (addr : list Z) (c : AllowCIDR) : LpmKey :=
  mkLpmKey (if negb (ac_Dport c =? 0)%Z then 64 + ac_PrefixLen c + 16 else 64 + ac_PrefixLen c)%Z cg addr (ac_Dport c).

(** The loop over CIDRs: the two tries, the entries made, and the first refusal. *)
Fixpoint put_cidrs (e4 e6 : MapError) (cg : Z) (l : list AllowCIDR) (m4 m6 : gset LpmKey) (n : Z)
    : gset LpmKey * gset LpmKey * Result MapError Z :=
  match l with
  | [] => (m4, m6, Ok n)
  | c :: l =>
      if (ac_Family c =? 2)%Z then
        if fits lpm4Key_go lpm4_key_c
        then put_cidrs e4 e6 cg l (m4 ∪ {[lpm_key cg (take 4 (ac_Addr c)) c]}) m6 (n + 1) else (m4, m6, Err e4)
      else if (ac_Family c =? 10)%Z then
        if fits lpm6Key_go lpm6_key_c
        then put_cidrs e4 e6 cg l m4 (m6 ∪ {[lpm_key cg (ac_Addr c) c]}) (n + 1) else (m4, m6, Err e6)
      else put_cidrs e4 e6 cg l m4 m6 n
  end.

Definition zlen {A} (l : list A) : Z := Z.of_nat (length l).
Definition zsize {A} `{Countable A} (m : gset A) : Z := Z.of_nat (size m).

(** [PopulateAllowlist]: what was written before an error stays; the deny tries are not
    cleared. *)
Definition PopulateAllowlist (lru : Lru) (coll : option Maps) (cg : Z) (allow : list AllowKey) (allowCIDRs : list AllowCIDR)
    (deny : list AllowKey) (denyCIDRs : list AllowCIDR) (defaultDeny : bool)
    : option Maps * Result MapError unit :=
  match coll with
  | None => (None, Err nil_collection)
  | Some m =>
      match clear_lpm lpm4Key_go lpm4_key_c (lpm4_allow m) cg with
      | None => (Some m, Err iterate_lpm4)
      | Some l4 =>
          match clear_lpm lpm6Key_go lpm6_key_c (lpm6_allow m) cg with
          | None => (Some (mkMaps (allowlist m) (denylist m) l4 (lpm6_allow m) (lpm4_deny m) (lpm6_deny m)
                             (default_deny m) (last_counts m)), Err iterate_lpm6)
          | Some l6 =>
              let allow0 := foreign (allowlist m) cg in
              let deny0 := foreign (denylist m) cg in
              let allow1 := hash_puts (lru_allow lru) allow0 (set_cgroup cg <$> allow) in
              let deny1 := hash_puts (lru_deny lru) deny0 (set_cgroup cg <$> deny) in
              let dd := default_deny m in
              let lc := last_counts m in
              if negb (fits AllowKey_go allow_key_c) && negb (bool_decide (allow = []))
              then (Some (mkMaps allow0 deny0 l4 l6 (lpm4_deny m) (lpm6_deny m) dd lc), Err put_allowlist)
              else if negb (fits AllowKey_go allow_key_c) && negb (bool_decide (deny = []))
              then (Some (mkMaps allow1 deny0 l4 l6 (lpm4_deny m) (lpm6_deny m) dd lc), Err put_denylist)
              else
                let '(a4, a6, ra) := put_cidrs put_lpm4_allow put_lpm6_allow cg allowCIDRs l4 l6 0 in
                match ra with
                | Err e => (Some (mkMaps allow1 deny1 a4 a6 (lpm4_deny m) (lpm6_deny m) dd lc), Err e)
                | Ok na =>
                    let '(d4, d6, rd) := put_cidrs put_lpm4_deny put_lpm6_deny cg denyCIDRs (lpm4_deny m) (lpm6_deny m) 0 in
                    match rd with
                    | Err e => (Some (mkMaps allow1 deny1 a4 a6 d4 d6 dd lc), Err e)
                    | Ok nd =>
                        let counts := mkMapCounts
                          (zlen allow) (zsize allow0 + zlen allow) (zlen deny) (zsize deny0 + zlen deny)
                          na (zsize a4 + zsize a6) nd (zsize d4 + zsize d6) in
                        (Some (mkMaps allow1 deny1 a4 a6 d4 d6 (put_default (lru_default lru) dd cg defaultDeny) counts), Ok tt)
                    end
                end
          end
      end
  end.

(** [CleanupAllowlist] leaves the deny maps. *)
Definition CleanupAllowlist (coll : option Maps) (cg : Z) : option Maps * Result MapError unit :=
  match coll with
  | None => (None, Ok tt)
  | Some m =>
      let m1 := mkMaps (foreign (allowlist m) cg) (denylist m) (lpm4_allow m) (lpm6_allow m) (lpm4_deny m)
                  (lpm6_deny m) (default_deny m) (last_counts m) in
      match clear_lpm lpm4Key_go lpm4_key_c (lpm4_allow m) cg with
      | None => (Some m1, Err iterate_lpm4)
      | Some l4 =>
          let m2 := mkMaps (allowlist m1) (denylist m) l4 (lpm6_allow m) (lpm4_deny m) (lpm6_deny m)
                      (default_deny m) (last_counts m) in
          match clear_lpm lpm6Key_go lpm6_key_c (lpm6_allow m) cg with
          | None => (Some m2, Err iterate_lpm6)
          | Some l6 => (Some (mkMaps (allowlist m1) (denylist m) l4 l6 (lpm4_deny m) (lpm6_deny m)
                                (delete cg (default_deny m)) (last_counts m)), Ok tt)
          end
      end
  end.

Definition set_allowlist (m : Maps) (a : gset AllowKey) : Maps :=
  mkMaps a (denylist m) (lpm4_allow m) (lpm6_allow m) (lpm4_deny m) (lpm6_deny m) (default_deny m) (last_counts m).
Definition AddTemporaryAllowRule (lru : Lru) (coll : option Maps) (cg : Z) (key : AllowKey) : option Maps * Result MapError unit :=
  match coll with
  | None => (None, Err nil_collection)
  | Some m => if fits AllowKey_go allow_key_c
              then (Some (set_allowlist m (hash_put (lru_allow lru) (allowlist m) (set_cgroup cg key))), Ok tt)
              else (Some m, Err put_allowlist)
  end.
Definition RemoveTemporaryAllowRule (coll : option Maps) (cg : Z) (key : AllowKey) : option Maps :=
  m ← coll; Some (set_allowlist m (allowlist m ∖ {[set_cgroup cg key]})).

(** ** The verdict of the hooks (connect.bpf.c) *)

(** The bits of a trie key after its prefix length, as laid out by the compiler: four bytes
    of padding before the cgroup id. *)
Definition byte_bits (b : Z) : list bool := Z.testbit b <$> [7; 6; 5; 4; 3; 2; 1; 0]%Z.
Definition lpm_bits (k : LpmKey) : list bool :=
  (replicate 4 0%Z ++ store 8 (lk_CgroupID k) ++ lk_Addr k ++ store 2 (lk_Dport k)) ≫= byte_bits.
Definition lpm_match (q e : LpmKey) : bool :=
  (lk_Prefixlen e <=? lk_Prefixlen q)%Z &&
  bool_decide (take (Z.to_nat (lk_Prefixlen e)) (lpm_bits e) = take (Z.to_nat (lk_Prefixlen e)) (lpm_bits q)).
Definition lpm_lookup (m : gset LpmKey) (q : LpmKey) : bool := existsb (lpm_match q) (elements m).

Definition pad_addr (a : list Z) : list Z := a ++ replicate (16 - length a) 0%Z.
Definition exact_key (info : ctx_info) (protocol : Z) : AllowKey :=
  mkAllowKey (ci_cgroup_id info) (ci_family info) protocol (ci_dport info) (pad_addr (ci_addr info)).
(** A port-specific lookup, then one for any port. *)
Definition lpm_any (m : gset LpmKey) (bits : Z) (info : ctx_info) : bool :=
  lpm_lookup m (mkLpmKey (64 + bits + 16) (ci_cgroup_id info) (ci_addr info) (ci_dport info))
  || lpm_lookup m (mkLpmKey (64 + bits) (ci_cgroup_id info) (ci_addr info) 0).

(** The body that [is_denied] and [allow] share, on their own maps. *)
Definition listed (exact : gset AllowKey) (m4 m6 : gset LpmKey) (info : ctx_info) (protocol : Z) : bool :=
  bool_decide (exact_key info protocol ∈ exact)
  || (negb (protocol =? 0)%Z && bool_decide (exact_key info 0 ∈ exact))
  || (if (ci_family info =? 2)%Z then lpm_any m4 32 info
      else if (ci_family info =? 10)%Z then lpm_any m6 128 info else false).
Definition is_denied (m : Maps) (info : ctx_info) (protocol : Z) : bool :=
  listed (denylist m) (lpm4_deny m) (lpm6_deny m) info protocol.
Definition allow (m : Maps) (info : ctx_info) (protocol : Z) : bool :=
  listed (allowlist m) (lpm4_allow m) (lpm6_allow m) info protocol.
Definition is_default_deny (m : Maps) (cg : Z) : bool := default false (default_deny m !! cg).
(** The four hooks: refused or not. *)
Definition handle_connect (m : Maps) (info : ctx_info) (protocol : Z) : bool :=
  is_denied m info protocol || (is_default_deny m (ci_cgroup_id info) && negb (allow m info protocol)).

(** ** The monitor (connection_holder.go) *)

Section monitor.
Context `{GoLib, GlobLib, NetLib}.

Definition proto_number (p : string) : Z :=
  if String.eqb p "tcp" then 6%Z else if String.eqb p "udp" then 17%Z else 0%Z.
(** 0 (any port) for a range or a text that is not a port. *)
Definition kernel_port (spec : string) : Z :=
  if String.eqb spec "" || String.eqb spec "*" then 0%Z
  else match ParseInt64 spec with
       | Some p => if (0 <? p)%Z && (p <=? 65535)%Z then p else 0%Z
       | None => 0%Z
       end.

Definition To16 (ip : list Z) : list Z :=
  if length ip =? 4 then (replicate 10 0 ++ [255; 255] ++ ip)%Z else if length ip =? 16 then ip else [].
(** [copy(key.Addr[:4], ip4)] or [copy(key.Addr[:], ip.To16())] into a zero array. *)
Definition family_addr (ip : list Z) : Z * list Z :=
  match To4 ip with Some ip4 => (2%Z, pad_addr ip4) | None => (10%Z, pad_addr (take 16 (To16 ip))) end.

(** The exact entry of a rule that names an address. *)
Definition rule_key (t : NetworkTarget) : option AllowKey :=
  if String.eqb (t_IP t) "" then None
  else ip ← net_ParseIP (t_IP t);
       let '(family, addr) := family_addr ip in
       Some (mkAllowKey 0 family (proto_number (t_Protocol t)) (kernel_port (t_Port t)) addr).

(** [IPMask.Size]: the leading ones, 0 when ones follow a zero. *)
Fixpoint leading_ones (bits : list bool) : nat :=
  match bits with true :: bits => S (leading_ones bits) | _ => 0 end.
Definition mask_ones (mask : list Z) : Z :=
  let bits := mask ≫= byte_bits in
  let n := leading_ones bits in
  if existsb id (drop n bits) then 0%Z else Z.of_nat n.
Definition rule_cidr (t : NetworkTarget) : option AllowCIDR :=
  if String.eqb (t_CIDR t) "" then None
  else '(ip, mask) ← net_ParseCIDR (t_CIDR t);
       let '(family, addr) := family_addr ip in
       Some (mkAllowCIDR family (proto_number (t_Protocol t)) (mask_ones mask) (kernel_port (t_Port t)) addr).

(** The rules of all processes; those of children are left out. *)
Definition engine_targets (e : NetPolicyEngine) : list NetworkTarget :=
  ProcessPolicies e ≫= λ pp, nr_target <$> pp_Rules pp.
Definition decided (d : string) (t : NetworkTarget) : bool := String.eqb (t_Decision t) d.
Definition entries {A} (f : NetworkTarget → option A) (d : string) (e : NetPolicyEngine) : list A :=
  omap f (List.filter (decided d) (engine_targets e)).

Record MapEntries := mkEntries {
  en_allow : list AllowKey; en_allowCIDRs : list AllowCIDR; en_deny : list AllowKey; en_denyCIDRs : list AllowCIDR;
  en_defaultDeny : bool }.
Definition convertPolicyToMapEntries (engine : option NetPolicyEngine) : MapEntries :=
  match engine with
  | None => mkEntries [] [] [] [] false
  | Some e => mkEntries (entries rule_key pn_Allow e) (entries rule_cidr pn_Allow e)
                (entries rule_key pn_Deny e) (entries rule_cidr pn_Deny e) (String.eqb (GlobalDefault e) pn_Deny)
  end.
Definition populate_with (lru : Lru) (coll : option Maps) (cg : Z) (en : MapEntries) : option Maps * Result MapError unit :=
  PopulateAllowlist lru coll cg (en_allow en) (en_allowCIDRs en) (en_deny en) (en_denyCIDRs en) (en_defaultDeny en).

(** [running] with the collection attached; the filter's engine follows the monitor's. *)
Record Monitor := mkMonitor { mn_engine : option NetPolicyEngine; mn_coll : option Maps; mn_running : bool }.
Inductive MonitorError := already_running | attach_failed | cgroup_id_failed | populate_failed (e : MapError)
| collector_failed.

(** [attach], [cgroup] and [collector]: what attaching the programs, the cgroup's id and
    starting the collector give. *)
Definition Start (lru : Lru) (mn : Monitor) (attach : option Maps) (cgroup : option Z) (collector : bool)
    : Monitor * Result MonitorError unit :=
  if mn_running mn then (mn, Err already_running)
  else match attach with
       | None => (mn, Err attach_failed)
       | Some coll =>
           let mn1 := mkMonitor (mn_engine mn) (Some coll) false in
           match cgroup with
           | None => (mn1, Err cgroup_id_failed)
           | Some cg =>
               let '(coll, r) := match mn_engine mn with
                                 | Some e => populate_with lru (Some coll) cg (convertPolicyToMapEntries (Some e))
                                 | None => (Some coll, Ok tt)
                                 end in
               match r with
               | Err e => (mkMonitor (mn_engine mn) coll false, Err (populate_failed e))
               | Ok _ => if collector then (mkMonitor (mn_engine mn) coll true, Ok tt)
                         else (mkMonitor (mn_engine mn) coll false, Err collector_failed)
               end
           end
       end.

(** Errors of filling the maps are dropped. *)
Definition SetPolicyEngine (lru : Lru) (mn : Monitor) (engine : option NetPolicyEngine) (cgroup : option Z) : Monitor :=
  match mn_running mn, mn_coll mn, cgroup with
  | true, Some m, Some cg => mkMonitor engine (populate_with lru (Some m) cg (convertPolicyToMapEntries engine)).1 true
  | _, _, _ => mkMonitor engine (mn_coll mn) (mn_running mn)
  end.
Definition Stop (mn : Monitor) : Monitor :=
  if mn_running mn then mkMonitor (mn_engine mn) None false else mn.

(** [ConnectionHolder.addTemporaryAllowRule] for an approved connection. *)
Definition temporary_key (family dport : Z) (protocol : string) (dstIP : option (list Z)) : AllowKey :=
  let ip := default [] dstIP in
  let addr := if (family =? 2)%Z then (if 4 <=? length ip then pad_addr (default [] (To4 ip)) else pad_addr [])
              else if (family =? 10)%Z then (if 16 <=? length ip then pad_addr (To16 ip) else pad_addr [])
              else pad_addr [] in
  mkAllowKey 0 family (proto_number protocol) dport addr.
Definition addTemporaryAllowRule (lru : Lru) (coll : option Maps) (cgroupID : Z) (key : AllowKey) : option Maps :=
  match coll with
  | None => None
  | Some m => if (cgroupID =? 0)%Z then Some m else (AddTemporaryAllowRule lru (Some m) cgroupID key).1
  end.
End monitor.

(** ** Properties of the maps *)

(** The tries hold nothing. *)
Definition lpm_free (m : Maps) : Prop :=
  lpm4_allow m = ∅ ∧ lpm6_allow m = ∅ ∧ lpm4_deny m = ∅ ∧ lpm6_deny m = ∅.

(** Operations on the maps of a running program. *)
Inductive MapOp :=
| Op_populate (lru : Lru) (cg : Z) (al : list AllowKey) (ac : list AllowCIDR) (dl : list AllowKey) (dc : list AllowCIDR) (dd : bool)
| Op_cleanup (cg : Z) | Op_allow (lru : Lru) (cg : Z) (k : AllowKey) | Op_unallow (cg : Z) (k : AllowKey).
Definition map_op (coll : option Maps) (op : MapOp) : option Maps :=
  match op with
  | Op_populate lru cg al ac dl dc dd => (PopulateAllowlist lru coll cg al ac dl dc dd).1
  | Op_cleanup cg => (CleanupAllowlist coll cg).1
  | Op_allow lru cg k => (AddTemporaryAllowRule lru coll cg k).1
  | Op_unallow cg k => RemoveTemporaryAllowRule coll cg k
  end.
Definition map_run (ops : list MapOp) : option Maps := foldl map_op (Some empty_maps) ops.

Definition has_family (c : AllowCIDR) : bool := (ac_Family c =? 2)%Z || (ac_Family c =? 10)%Z.

Lemma put_cidrs_spec e4 e6 cg l m4 m6 n :
  put_cidrs e4 e6 cg l m4 m6 n = (m4, m6, if existsb has_family l
    then Err (if (from_option ac_Family 0 (find_first has_family l) =? 2)%Z then e4 else e6) else Ok n).
Proof.
  induction l as [|c l IH]; simpl; [done|]. unfold has_family at 1 3.
  destruct (ac_Family c =? 2)%Z eqn:H2; simpl; [by rewrite H2|].
  destruct (ac_Family c =? 10)%Z eqn:H10; simpl; [by rewrite H2|]. apply IH.
Qed.

Lemma clear_lpm_empty go c cg : clear_lpm go c ∅ cg = Some ∅.
Proof. done. Qed.

(** [PopulateAllowlist] on empty tries. *)
Lemma populate_spec lru m cg al ac dl dc dd :
  lpm_free m →
  ∃ m', (PopulateAllowlist lru (Some m) cg al ac dl dc dd).1 = Some m' ∧ lpm_free m'
    ∧ allowlist m' = hash_puts (lru_allow lru) (foreign (allowlist m) cg) (set_cgroup cg <$> al)
    ∧ denylist m' = hash_puts (lru_deny lru) (foreign (denylist m) cg) (set_cgroup cg <$> dl)
    ∧ default_deny m' = (if existsb has_family (ac ++ dc) then default_deny m else put_default (lru_default lru) (default_deny m) cg dd)
    ∧ is_Ok (PopulateAllowlist lru (Some m) cg al ac dl dc dd).2 = negb (existsb has_family (ac ++ dc)).
Proof.
  intros (H1 & H2 & H3 & H4). unfold PopulateAllowlist. rewrite H1, H2, H3, H4, !clear_lpm_empty, !put_cidrs_spec.
  change (fits AllowKey_go allow_key_c) with true. cbn [negb andb]. rewrite existsb_app.
  destruct (existsb has_family ac); [by eexists|]. destruct (existsb has_family dc); by eexists.
Qed.

Lemma map_op_free coll op :
  (∀ m, coll = Some m → lpm_free m) → ∀ m', map_op coll op = Some m' → lpm_free m'.
Proof.
  intros Hc m'. destruct coll as [m|]; [specialize (Hc m eq_refl)|by destruct op].
  destruct op as [lru cg al ac dl dc dd|cg|lru cg k|cg k]; cbn -[PopulateAllowlist CleanupAllowlist].
  - destruct (populate_spec lru m cg al ac dl dc dd Hc) as (m1 & -> & Hm1 & _). by intros [= <-].
  - unfold CleanupAllowlist. destruct Hc as (H1 & H2 & H3 & H4). rewrite H1, H2, !clear_lpm_empty.
    intros [= <-]. done.
  - by intros [= <-].
  - by intros [= <-].
Qed.

Lemma map_run_free ops m : map_run ops = Some m → lpm_free m.
Proof.
  unfold map_run. intros Hr.
  assert (Hgen : ∀ coll, (∀ m, coll = Some m → lpm_free m) → ∀ m, foldl map_op coll ops = Some m → lpm_free m).
  { clear. induction ops as [|op ops IH]; simpl; [done|]. intros coll Hc. apply IH. by apply map_op_free. }
  eapply Hgen; [|done]. by intros ? [= <-].
Qed.

(** An endpoint list names the connection exactly. *)
Definition key_hits (info : ctx_info) (protocol : Z) (k : AllowKey) : bool :=
  (ak_Family k =? ci_family info)%Z && ((ak_Protocol k =? protocol)%Z || (ak_Protocol k =? 0)%Z)
  && (ak_Dport k =? ci_dport info)%Z && bool_decide (ak_Addr k = pad_addr (ci_addr info)).

Lemma key_hits_spec info protocol k :
  key_hits info protocol k = true ↔
  set_cgroup (ci_cgroup_id info) k = exact_key info protocol ∨ set_cgroup (ci_cgroup_id info) k = exact_key info 0.
Proof.
  unfold key_hits, set_cgroup, exact_key. destruct k as [cg f p d a]. cbn.
  rewrite !andb_true_iff, orb_true_iff, !Z.eqb_eq, bool_decide_eq_true. split; [naive_solver|].
  intros [[=]|[=]]; subst; auto.
Qed.

(** Entries written for the connection's cgroup are found, those of others are not. *)
Lemma written_hit (m : gset AllowKey) l info p :
  exact_key info p ∈ foreign m (ci_cgroup_id info) ∪ list_to_set (set_cgroup (ci_cgroup_id info) <$> l)
  ↔ ∃ k, k ∈ l ∧ set_cgroup (ci_cgroup_id info) k = exact_key info p.
Proof.
  rewrite elem_of_union, elem_of_list_to_set, list_elem_of_fmap. unfold foreign. rewrite elem_of_filter. cbn.
  naive_solver.
Qed.
Lemma written_miss (m : gset AllowKey) l cg info p :
  cg ≠ ci_cgroup_id info →
  exact_key info p ∈ foreign m cg ∪ list_to_set (set_cgroup cg <$> l) ↔ exact_key info p ∈ m.
Proof.
  intros Hcg. rewrite elem_of_union, elem_of_list_to_set, list_elem_of_fmap. unfold foreign. rewrite elem_of_filter. cbn.
  split; [|naive_solver]. intros [[_ ?]|(k & Hk & _)]; [done|]. by injection Hk.
Qed.

Lemma listed_free exact info protocol :
  listed exact ∅ ∅ info protocol
  = bool_decide (exact_key info protocol ∈ exact) || (negb (protocol =? 0)%Z && bool_decide (exact_key info 0 ∈ exact)).
Proof.
  unfold listed, lpm_any, lpm_lookup. rewrite elements_empty. cbn.
  by destruct (ci_family info =? 2)%Z, (ci_family info =? 10)%Z; rewrite orb_false_r.
Qed.

Lemma listed_written (m : gset AllowKey) l info protocol :
  protocol ≠ 0%Z →
  listed (foreign m (ci_cgroup_id info) ∪ list_to_set (set_cgroup (ci_cgroup_id info) <$> l)) ∅ ∅ info protocol
  = existsb (key_hits info protocol) l.
Proof.
  intros Hp. rewrite listed_free. apply Z.eqb_neq in Hp. rewrite Hp. cbn [negb andb].
  apply eq_true_iff_eq. rewrite orb_true_iff, !bool_decide_eq_true, !written_hit, existsb_elem.
  setoid_rewrite key_hits_spec. naive_solver.
Qed.

Lemma listed_foreign (m : gset AllowKey) l cg info protocol :
  cg ≠ ci_cgroup_id info →
  listed (foreign m cg ∪ list_to_set (set_cgroup cg <$> l)) ∅ ∅ info protocol = listed m ∅ ∅ info protocol.
Proof.
  intros Hcg. rewrite !listed_free. f_equal; [|f_equal]; apply bool_decide_ext; by apply written_miss.
Qed.

(** *** Eviction *)

(** The kernel evicts only when a map would hold more than [room] entries. *)
Definition keeps {K} `{Countable K} (room : nat) (victims : gset K → K → gset K) : Prop :=
  ∀ m k, size (m ∪ {[k]}) ≤ room → victims m k = ∅.
Definition lru_keeps (room : nat) (lru : Lru) : Prop :=
  keeps room (lru_allow lru) ∧ keeps room (lru_deny lru) ∧ keeps room (lru_default lru).
(** The entries of all cgroups fit after the maps of [cg] are filled. *)
Definition has_room (room : nat) (m : Maps) (cg : Z) (al dl : list AllowKey) : Prop :=
  size (foreign (allowlist m) cg ∪ list_to_set (set_cgroup cg <$> al)) ≤ room
  ∧ size (foreign (denylist m) cg ∪ list_to_set (set_cgroup cg <$> dl)) ≤ room
  ∧ size (dom (default_deny m) ∪ {[cg]}) ≤ room.

Lemma hash_puts_sub {K} `{Countable K} (v : gset K → K → gset K) ks m : hash_puts v m ks ⊆ m ∪ list_to_set ks.
Proof.
  revert m. induction ks as [|k ks IH]; intros m; cbn; [set_solver|]. etrans; [apply IH|].
  unfold hash_put. set_solver.
Qed.
Lemma hash_puts_all {K} `{Countable K} room (v : gset K → K → gset K) ks m :
  keeps room v → size (m ∪ list_to_set ks) ≤ room → hash_puts v m ks = m ∪ list_to_set ks.
Proof.
  intros Hv. revert m. induction ks as [|k ks IH]; intros m Hs; cbn in *; [set_solver|].
  assert (Hk : hash_put v m k = m ∪ {[k]}).
  { unfold hash_put. rewrite Hv; [set_solver|]. etrans; [|exact Hs]. apply subseteq_size. set_solver. }
  rewrite Hk. etrans; [apply IH|set_solver]. etrans; [|exact Hs]. apply subseteq_size. set_solver.
Qed.
Lemma put_default_own v m cg b : put_default v m cg b !! cg = Some b.
Proof. apply lookup_insert_eq. Qed.
Lemma put_default_all room v m cg b :
  keeps room v → size (dom m ∪ {[cg]}) ≤ room → put_default v m cg b = <[cg := b]> m.
Proof.
  intros Hv Hs. unfold put_default. rewrite (Hv _ _ Hs). f_equal. apply map_filter_id. intros i x _. apply not_elem_of_empty.
Qed.

Lemma listed_mono exact exact' info protocol :
  exact ⊆ exact' → listed exact ∅ ∅ info protocol = true → listed exact' ∅ ∅ info protocol = true.
Proof.
  intros Hs. rewrite !listed_free, !orb_true_iff, !andb_true_iff, !bool_decide_eq_true. set_solver.
Qed.

(** Whatever is evicted, what is left of a list names only what the list names. *)
Lemma listed_sound v (m : gset AllowKey) l info protocol :
  protocol ≠ 0%Z →
  listed (hash_puts v (foreign m (ci_cgroup_id info)) (set_cgroup (ci_cgroup_id info) <$> l)) ∅ ∅ info protocol = true →
  existsb (key_hits info protocol) l = true.
Proof. intros Hp Hl. rewrite <- (listed_written m) by done. eapply listed_mono; [apply hash_puts_sub|done]. Qed.

Lemma filled_maps lru m m' cg al ac dl dc dd :
  lpm_free m → PopulateAllowlist lru (Some m) cg al ac dl dc dd = (Some m', Ok tt) →
  lpm_free m'
  ∧ allowlist m' = hash_puts (lru_allow lru) (foreign (allowlist m) cg) (set_cgroup cg <$> al)
  ∧ denylist m' = hash_puts (lru_deny lru) (foreign (denylist m) cg) (set_cgroup cg <$> dl)
  ∧ default_deny m' = put_default (lru_default lru) (default_deny m) cg dd.
Proof.
  intros Hf Hp. destruct (populate_spec lru m cg al ac dl dc dd Hf) as (m1 & H1 & Hf' & Ha & Hd & Hdd & Hok).
  rewrite Hp in H1, Hok. injection H1 as <-. cbn in Hok. symmetry in Hok. apply negb_true_iff in Hok.
  by rewrite Hok in Hdd.
Qed.

(** What holds whatever the kernel evicts: a refusal has a reason, and under default deny
    so does a connection that passes. *)
Lemma evicted_verdict lru m m' cg al ac dl dc dd info protocol :
  lpm_free m → PopulateAllowlist lru (Some m) cg al ac dl dc dd = (Some m', Ok tt) →
  ci_cgroup_id info = cg → protocol ≠ 0%Z →
  (handle_connect m' info protocol = true → existsb (key_hits info protocol) dl = true ∨ dd = true)
  ∧ (handle_connect m' info protocol = false → dd = true → existsb (key_hits info protocol) al = true).
Proof.
  intros Hf Hp Hcg Hp0. destruct (filled_maps _ _ _ _ _ _ _ _ _ Hf Hp) as ((F1 & F2 & F3 & F4) & Ha & Hd & Hdd).
  unfold handle_connect, is_denied, allow, is_default_deny. rewrite F1, F2, F3, F4, Ha, Hd, Hdd, Hcg, put_default_own.
  subst cg. cbn [default]. split.
  - intros [Hl|[Hl _]%andb_true_iff]%orb_true_iff; [left; by eapply listed_sound|by right].
  - intros [_ Hl]%orb_false_iff ->. apply negb_false_iff in Hl. by eapply listed_sound.
Qed.

Lemma populated_verdict room lru m m' cg al ac dl dc dd :
  lpm_free m → PopulateAllowlist lru (Some m) cg al ac dl dc dd = (Some m', Ok tt) →
  lru_keeps room lru → has_room room m cg al dl →
  (∀ info protocol, ci_cgroup_id info = cg → protocol ≠ 0%Z →
     handle_connect m' info protocol
     = existsb (key_hits info protocol) dl || (dd && negb (existsb (key_hits info protocol) al)))
  ∧ (∀ info protocol, ci_cgroup_id info ≠ cg → handle_connect m' info protocol = handle_connect m info protocol).
Proof.
  intros Hf Hp (Ka & Kd & Kdd) (Ra & Rd & Rdd).
  destruct (filled_maps _ _ _ _ _ _ _ _ _ Hf Hp) as ((F1 & F2 & F3 & F4) & Ha & Hd & Hdd).
  destruct Hf as (E1 & E2 & E3 & E4).
  rewrite (hash_puts_all room) in Ha, Hd by done. rewrite (put_default_all room) in Hdd by done.
  unfold handle_connect, is_denied, allow, is_default_deny. rewrite F1, F2, F3, F4, E1, E2, E3, E4, Ha, Hd, Hdd.
  split; intros info protocol Hcg.
  - intros Hp0. rewrite <- Hcg, !listed_written, lookup_insert_eq by done. done.
  - by rewrite !listed_foreign, lookup_insert_ne by done.
Qed.

(** C34. What the kernel enforces. The maps of a cgroup are filled without an error, at any
    point of a run, and the kernel evicts whatever it likes from its LRU maps. A refused
    connection of the cgroup is named by an entry of the deny list (its family, address,
    port and protocol, or no protocol), or the default is deny; under default deny one that
    passes is named by an entry of the allow list. When the kernel evicts only above [room]
    entries and those of all cgroups fit, a connection of the cgroup is refused exactly when
    the deny list names it or the default is deny and the allow list does not, and the
    connections of other cgroups are treated as before. *)
Theorem kernel_verdict (ops : list MapOp) (lru : Lru) (m m' : Maps) (cg : Z) (al : list AllowKey)
    (ac : list AllowCIDR) (dl : list AllowKey) (dc : list AllowCIDR) (dd : bool) :
  map_run ops = Some m → PopulateAllowlist lru (Some m) cg al ac dl dc dd = (Some m', Ok tt) →
  (∀ info protocol, ci_cgroup_id info = cg → protocol ≠ 0%Z →
     (handle_connect m' info protocol = true → existsb (key_hits info protocol) dl = true ∨ dd = true)
     ∧ (handle_connect m' info protocol = false → dd = true → existsb (key_hits info protocol) al = true))
  ∧ (∀ room, lru_keeps room lru → has_room room m cg al dl →
     (∀ info protocol, ci_cgroup_id info = cg → protocol ≠ 0%Z →
        handle_connect m' info protocol
        = existsb (key_hits info protocol) dl || (dd && negb (existsb (key_hits info protocol) al)))
     ∧ (∀ info protocol, ci_cgroup_id info ≠ cg → handle_connect m' info protocol = handle_connect m info protocol)).
Proof.
  intros Hr%map_run_free Hp. split; [intros; by eapply evicted_verdict|intros; by eapply populated_verdict].
Qed.

(** No address range reaches the kernel: the structures the server writes to the
    prefix tries do not have the size of the tries' keys, so filling the maps fails as soon
    as there is an allowed or denied range, the default of the cgroup then stays what it was,
    and the tries are empty at every point of a run. *)
Theorem ranges_never_enforced (ops : list MapOp) (lru : Lru) (m : Maps) (cg : Z) (al : list AllowKey) (ac : list AllowCIDR)
    (dl : list AllowKey) (dc : list AllowCIDR) (dd : bool) :
  map_run ops = Some m →
  lpm_free m
  ∧ (existsb has_family (ac ++ dc) = true →
     ∃ m' e, PopulateAllowlist lru (Some m) cg al ac dl dc dd = (Some m', Err e) ∧ default_deny m' = default_deny m).
Proof.
  intros Hr. pose proof (map_run_free ops m Hr) as Hf. split; [done|]. intros He.
  destruct (populate_spec lru m cg al ac dl dc dd Hf) as (m1 & H1 & _ & _ & _ & Hdd & Hok). rewrite He in Hdd, Hok.
  destruct (PopulateAllowlist _ _ _ _ _ _ _ _) as [c [u|e]]; [done|]. cbn in H1. subst c. eauto.
Qed.

Section monitor_props.
Context `{GoLib, GlobLib, NetLib}.

(** A rule of the engine that names the connection with an address and one port. *)
Definition rule_names (d : string) (info : ctx_info) (protocol : Z) (t : NetworkTarget) : bool :=
  decided d t && from_option (key_hits info protocol) false (rule_key t).

Lemma entries_hit d e info protocol :
  existsb (key_hits info protocol) (entries rule_key d e) = existsb (rule_names d info protocol) (engine_targets e).
Proof.
  unfold entries, rule_names. induction (engine_targets e) as [|t l IH]; simpl; [done|].
  destruct (decided d t); simpl; [|done]. destruct (rule_key t); simpl; [f_equal|]; exact IH.
Qed.

(** A monitor that starts on fresh maps: in its cgroup the kernel refuses what a deny rule of
    any process names, and everything no allow rule names when the global default is deny. *)
Theorem monitor_verdict (room : nat) (lru : Lru) (e : NetPolicyEngine) (cg : Z) (mn : Monitor) :
  Start lru (mkMonitor (Some e) None false) (Some empty_maps) (Some cg) true = (mn, Ok tt) →
  lru_keeps room lru → has_room room empty_maps cg (entries rule_key pn_Allow e) (entries rule_key pn_Deny e) →
  ∃ m, mn_coll mn = Some m ∧ ∀ info protocol, ci_cgroup_id info = cg → protocol ≠ 0%Z →
    handle_connect m info protocol
    = existsb (rule_names pn_Deny info protocol) (engine_targets e)
      || (String.eqb (GlobalDefault e) pn_Deny && negb (existsb (rule_names pn_Allow info protocol) (engine_targets e))).
Proof.
  unfold Start, populate_with. cbn -[PopulateAllowlist has_room]. intros Hs Hk Hroom.
  destruct (PopulateAllowlist _ _ _ _ _ _ _ _) as [coll [[]|]] eqn:Hp; [|done]. injection Hs as <-.
  destruct (populate_spec lru empty_maps cg (entries rule_key pn_Allow e) (entries rule_cidr pn_Allow e)
    (entries rule_key pn_Deny e) (entries rule_cidr pn_Deny e) (String.eqb (GlobalDefault e) pn_Deny)) as (m & Hm & _); [done|].
  rewrite Hp in Hm. cbn in Hm. subst coll. exists m. split; [done|]. intros info protocol Hcg Hp0.
  destruct (populated_verdict room _ empty_maps _ _ _ _ _ _ _ ltac:(done) Hp Hk Hroom) as [Hv _].
  by rewrite (Hv info protocol Hcg Hp0), !entries_hit.
Qed.
End monitor_props.

(** ** Events *)

Lemma le16_bytes a b r : le16 (a :: b :: r) = little_endian_to_Z 8 [a; b].
Proof. unfold le16. cbn -[Z.shiftl Z.lor]. by rewrite Z.shiftl_0_l, Z.lor_0_r. Qed.
Lemma le32_bytes a b c d r : le32 (a :: b :: c :: d :: r) = little_endian_to_Z 8 [a; b; c; d].
Proof.
  unfold le32. cbn -[Z.shiftl Z.lor]. rewrite Z.shiftl_0_l, Z.lor_0_r, !Z.shiftl_lor, !Z.shiftl_shiftl by done.
  by rewrite !Z.lor_assoc.
Qed.
Lemma le64_bytes a b c d e f g h r :
  le64 (a :: b :: c :: d :: e :: f :: g :: h :: r) = little_endian_to_Z 8 [a; b; c; d; e; f; g; h].
Proof.
  unfold le64. cbn [drop]. rewrite !le32_bytes. cbn -[Z.shiftl Z.lor].
  rewrite !Z.shiftl_0_l, !Z.lor_0_r, !Z.shiftl_lor, !Z.shiftl_shiftl by done. by rewrite !Z.lor_assoc.
Qed.

Lemma store_load n x : (0 <= n)%Z → (0 <= x < 2 ^ (n * 8))%Z → little_endian_to_Z 8 (store n x) = x.
Proof. intros Hn Hx. unfold store. rewrite little_endian_to_Z_to_little_endian by lia. by apply Z.mod_small. Qed.
Lemma le16_store x r : (0 <= x < 2 ^ 16)%Z → le16 (store 2 x ++ r) = x.
Proof. intros Hx. rewrite <- (store_load 2 x) at 2 by lia. apply le16_bytes. Qed.
Lemma le32_store x r : (0 <= x < 2 ^ 32)%Z → le32 (store 4 x ++ r) = x.
Proof. intros Hx. rewrite <- (store_load 4 x) at 2 by lia. apply le32_bytes. Qed.
Lemma le64_store x r : (0 <= x < 2 ^ 64)%Z → le64 (store 8 x ++ r) = x.
Proof. intros Hx. rewrite <- (store_load 8 x) at 2 by lia. apply le64_bytes. Qed.

Lemma bytes_of_le32 a b c d :
  Forall (λ x, 0 <= x < 2 ^ 8)%Z [a; b; c; d] →
  let x := little_endian_to_Z 8 [a; b; c; d] in [byte_of x 0; byte_of x 8; byte_of x 16; byte_of x 24] = [a; b; c; d].
Proof. intros Hb. exact (Z_to_little_endian_to_Z 4 8 [a; b; c; d] eq_refl ltac:(lia) Hb). Qed.

(** What the kernel's values have to satisfy, and the shape of the submitted memory. *)
Record emitted (ts cookie pid_tgid : Z) (pad rest tail : list Z) (info : ctx_info) : Prop := {
  em_ts : (0 <= ts < 2 ^ 64)%Z;
  em_cookie : (0 <= cookie < 2 ^ 64)%Z;
  em_pid : (0 <= pid_tgid < 2 ^ 64)%Z;
  em_dport : (0 <= ci_dport info < 2 ^ 16)%Z;
  em_addr : Forall (λ x, 0 <= x < 2 ^ 8)%Z (ci_addr info);
  em_pad : length pad = 6;
  em_dst : length (ci_addr info ++ rest) = 16;
  em_tail : length tail = 11 }.

Lemma store_low n x r : (0 <= n)%Z → little_endian_to_Z 8 (store n x) = r → r = (x mod 2 ^ (n * 8))%Z.
Proof. intros Hn <-. unfold store. by rewrite little_endian_to_Z_to_little_endian by lia. Qed.

(** The fields before the destination. *)
Lemma event_header ts cookie pid_tgid pad rest tail info protocol blocked :
  emitted ts cookie pid_tgid pad rest tail info →
  let ev := copyToEvent (emit_event ts cookie pid_tgid pad rest tail info protocol blocked) in
  Z.of_nat (length (emit_event ts cookie pid_tgid pad rest tail info protocol blocked)) = c_sizeof connect_event_c
  ∧ ce_TsNs ev = ts ∧ ce_Cookie ev = cookie ∧ ce_PID ev = Z.shiftr pid_tgid 32
  ∧ ce_TGID ev = (pid_tgid mod 2 ^ 32)%Z ∧ ce_Sport ev = 0%Z ∧ ce_Dport ev = ci_dport info
  ∧ ce_Family ev = ci_family info ∧ ce_Protocol ev = protocol.
Proof.
  intros [Hts Hck Hpid Hdp _ Hpad Hdst Htail] ev. subst ev. unfold emit_event.
  set (dst := ci_addr info ++ rest) in *. clearbody dst.
  assert (Hhi : (0 <= Z.shiftr pid_tgid 32 < 2 ^ 32)%Z).
  { rewrite Z.shiftr_div_pow2 by done. split; [apply Z.div_pos; lia|]. apply Z.div_lt_upper_bound; lia. }
  set (data := store 8 ts ++ _).
  assert (Hlen : length data = 64) by (subst data; rewrite !length_app, Hpad, Hdst, Htail; done).
  split; [rewrite Hlen; done|]. unfold copyToEvent. rewrite Hlen. cbn -[data drop le64 le32 le16 at_off].
  split_and!.
  - exact (le64_store ts (drop 8 data) Hts).
  - exact (le64_store cookie (drop 16 data) Hck).
  - exact (le32_store _ (drop 20 data) Hhi).
  - apply (store_low 4); [done|]. symmetry. exact (le32_bytes _ _ _ _ (drop 24 data)).
  - done.
  - exact (le16_store _ (drop 28 data) Hdp).
  - done.
  - done.
Qed.

(** The events of the kernel, read back. Whatever the uninitialised bytes hold, the
    time, cookie, process, port, family and protocol of an event are decoded as they were
    written and the whole IPv4 destination is; of an IPv6 destination only the first twelve
    bytes arrive, behind four bytes of padding, and the blocked flag is read from inside the
    destination. *)
Theorem event_roundtrip (ts cookie pid_tgid protocol : Z) (pad rest tail : list Z) (info : ctx_info) (blocked : bool) :
  emitted ts cookie pid_tgid pad rest tail info →
  let data := emit_event ts cookie pid_tgid pad rest tail info protocol blocked in
  let ev := copyToEvent data in
  Z.of_nat (length data) = c_sizeof connect_event_c
  ∧ (ce_TsNs ev, ce_Cookie ev, ce_PID ev, ce_Dport ev, ce_Family ev, ce_Protocol ev)
    = (ts, cookie, Z.shiftr pid_tgid 32, ci_dport info, ci_family info, protocol)
  ∧ (ci_family info = 2%Z → length (ci_addr info) = 4 → extractDstIP ev = Some (ci_addr info))
  ∧ (ci_family info = 10%Z → length (ci_addr info) = 16 → extractDstIP ev = Some (drop 2 pad ++ take 12 (ci_addr info)))
  ∧ ce_Blocked ev = nth 12 (ci_addr info ++ rest) 0%Z.
Proof.
  intros He data ev. destruct (event_header _ _ _ _ _ _ _ protocol blocked He) as (Hl & H1 & H2 & H3 & _ & _ & H6 & H7 & H8).
  fold data in Hl, H1, H2, H3, H6, H7, H8. fold ev in H1, H2, H3, H6, H7, H8. split; [done|].
  rewrite H1, H2, H3, H6, H7, H8. split; [done|]. destruct He as [_ _ _ _ Hb Hpad Hdst Htail].
  assert (Hlen : length data = 64) by (apply Nat2Z.inj; rewrite Hl; done). unfold extractDstIP. rewrite H7.
  destruct pad as [|p0 [|p1 [|p2 [|p3 [|p4 [|p5 [|]]]]]]]; try done.
  unfold ev, copyToEvent. rewrite Hlen. cbn [Nat.ltb Nat.leb ce_DstIPv4 ce_DstIPv6 ce_Blocked]. split_and!.
  - intros -> Ha. destruct (ci_addr info) as [|a [|b [|c [|d [|]]]]] eqn:Haddr; try done. cbn [Z.eqb Pos.eqb].
    assert (Hd : le32 (drop 36 data) = little_endian_to_Z 8 [a; b; c; d]).
    { unfold data, emit_event. rewrite Haddr. exact (le32_bytes a b c d _). }
    rewrite Hd. f_equal. by apply bytes_of_le32.
  - intros -> Ha. cbn [Z.eqb Pos.eqb]. f_equal. unfold data, emit_event.
    destruct (ci_addr info) as [|a0 [|a1 [|a2 [|a3 [|a4 [|a5 [|a6 [|a7 [|a8 [|a9 [|a10 [|a11 l]]]]]]]]]]]]; done.
  - unfold data, emit_event. set (dst := ci_addr info ++ rest) in *. clearbody dst.
    do 16 (destruct dst as [|? dst]; [done|]). done.
Qed.

(** ** Samples *)

Module MapsSample.
Definition host_a : AllowKey := mkAllowKey 0 2 6 443 (pad_addr [10; 0; 0; 1]%Z).
Definition any_port : AllowKey := mkAllowKey 0 2 6 0 (pad_addr [10; 0; 0; 2]%Z).
Definition to_a (port : Z) : ctx_info := mkCtx 5 2 port [10; 0; 0; 1]%Z.
Definition to_b (port : Z) : ctx_info := mkCtx 5 2 port [10; 0; 0; 2]%Z.
Definition range_a : AllowCIDR := mkAllowCIDR 2 0 8 0 (pad_addr [10; 0; 0; 0]%Z).

(** A kernel that evicts its first entry when a map would exceed [room]. *)
Definition victim {K} `{Countable K} (room : nat) (m : gset K) (k : K) : gset K :=
  if size (m ∪ {[k]}) <=? room then ∅ else list_to_set (take 1 (elements m)).
Definition evicting (room : nat) : Lru := mkLru (victim room) (victim room) (victim room).
Lemma evicting_keeps room : lru_keeps room (evicting room).
Proof.
  assert (Hk : ∀ K `(Countable K), keeps room (@victim K _ _ room)).
  { intros K ? ? m k Hs. unfold victim. by apply Nat.leb_le in Hs as ->. }
  split_and!; apply Hk.
Qed.

Definition earlier : list MapOp := [Op_populate (evicting 4) 5 [] [] [host_a] [] false; Op_allow (evicting 4) 6 host_a].
Definition before : Maps := default empty_maps (map_run earlier).
Definition filled : Maps :=
  default empty_maps (PopulateAllowlist (evicting 4) (Some before) 5 [host_a] [] [any_port] [] true).1.

Lemma kernel_verdict_witness :
  map_run earlier = Some before
  ∧ PopulateAllowlist (evicting 4) (Some before) 5 [host_a] [] [any_port] [] true = (Some filled, Ok tt)
  ∧ lru_keeps 4 (evicting 4) ∧ has_room 4 before 5 [host_a] [any_port]
  ∧ handle_connect filled (to_a 443) 6 = false ∧ handle_connect filled (to_a 80) 6 = true
  ∧ handle_connect filled (mkCtx 6 2 80 [10; 0; 0; 1]%Z) 6 = handle_connect before (mkCtx 6 2 80 [10; 0; 0; 1]%Z) 6.
Proof.
  assert (Hr : map_run earlier = Some before) by (vm_compute; reflexivity).
  assert (Hp : PopulateAllowlist (evicting 4) (Some before) 5 [host_a] [] [any_port] [] true = (Some filled, Ok tt))
    by (vm_compute; reflexivity).
  assert (Hroom : has_room 4 before 5 [host_a] [any_port])
    by (split_and!; apply Nat.leb_le; vm_compute; reflexivity).
  destruct (kernel_verdict earlier (evicting 4) before filled 5 [host_a] [] [any_port] [] true Hr Hp) as [_ Hx].
  destruct (Hx 4 (evicting_keeps 4) Hroom) as [Hv Ho].
  split_and!; [exact Hr|exact Hp|apply evicting_keeps|exact Hroom| | |by apply Ho];
    (rewrite Hv by done; vm_compute; reflexivity).
Defined.

(** A full map loses entries without an error: filling the maps of one cgroup lifts the
    denial of another. *)
Example eviction_lifts_denial :
  let m := default empty_maps (PopulateAllowlist (evicting 1) (Some empty_maps) 5 [] [] [host_a] [] false).1 in
  let '(m', r) := PopulateAllowlist (evicting 1) (Some m) 6 [] [] [any_port] [] false in
  handle_connect m (to_a 443) 6 = true ∧ r = Ok tt ∧ handle_connect (default empty_maps m') (to_a 443) 6 = false.
Proof. vm_compute. done. Qed.

(** A denied endpoint without a port refuses no connection to a port of that host. *)
Example any_port_never_matches :
  let m := default empty_maps (PopulateAllowlist (evicting 4) (Some empty_maps) 5 [] [] [any_port] [] false).1 in
  handle_connect m (to_b 443) 6 = false ∧ handle_connect m (to_b 80) 6 = false ∧ handle_connect m (to_b 0) 6 = true.
Proof. split_and!; vm_compute; reflexivity. Qed.

(** Cleaning up a cgroup leaves its deny list in force. *)
Example cleanup_leaves_denials :
  let m := default empty_maps (PopulateAllowlist (evicting 4) (Some empty_maps) 5 [] [] [host_a] [] false).1 in
  handle_connect (default empty_maps (CleanupAllowlist (Some m) 5).1) (to_a 443) 6 = true.
Proof. vm_compute. reflexivity. Qed.

Lemma ranges_never_enforced_witness :
  map_run earlier = Some before
  ∧ ∃ m' e, PopulateAllowlist (evicting 4) (Some before) 5 [host_a] [range_a] [] [] true = (Some m', Err e)
      ∧ default_deny m' = default_deny before.
Proof.
  assert (Hr : map_run earlier = Some before) by (vm_compute; reflexivity).
  split; [exact Hr|].
  destruct (ranges_never_enforced earlier (evicting 4) before 5 [host_a] [range_a] [] [] true Hr) as [_ Hc]. apply Hc. reflexivity.
Defined.

Definition zeros (n : nat) : list Z := replicate n 0%Z.
Lemma event_roundtrip_witness :
  emitted 12 34 (42 * 2 ^ 32 + 43) (zeros 6) (zeros 12) (zeros 11) (to_a 443)
  ∧ extractDstIP (copyToEvent (emit_event 12 34 (42 * 2 ^ 32 + 43) (zeros 6) (zeros 12) (zeros 11) (to_a 443) 6 true))
    = Some [10; 0; 0; 1]%Z.
Proof.
  assert (He : emitted 12 34 (42 * 2 ^ 32 + 43) (zeros 6) (zeros 12) (zeros 11) (to_a 443)).
  { split; cbn; try lia. repeat constructor; lia. }
  split; [exact He|].
  destruct (event_roundtrip 12 34 (42 * 2 ^ 32 + 43) 6 (zeros 6) (zeros 12) (zeros 11) (to_a 443) true He)
    as (_ & _ & H4 & _). by apply H4.
Defined.
End MapsSample.
