(* ===== verification/NetFilter.v ===== *)
(** * The process network filter (internal/netmonitor/ebpf/process_filter.go)

    An event of the kernel is completed with the process, its parent and the host name, and
    evaluated by the rule engine; connections that need approval wait in a [Room] under
    their cookie for the answer of the approval callback or of [ApproveConnection] and
    [DenyConnection]; an approved connection is opened in the kernel's allow list
    (connection_holder.go).

    Files under /proc, reverse DNS and [net.IP.String] are arguments. *)
From stdpp Require Import pretty.
From S2P Require Import Prelude ShellParse PolicyEngine NetAcl NetApproval NetMaps.

(** ** Processes *)

(** The parts of [strings.Fields] (on ASCII text) and [strings.LastIndex] that are used. *)
Fixpoint Fields_from (s cur : string) : list string :=
  match s with
  | EmptyString => if String.eqb cur "" then [] else [cur]
  | String c s =>
      if is_space_byte c then (if String.eqb cur "" then Fields_from s "" else cur :: Fields_from s "")
      else Fields_from s (cur ++ String c "")
  end.
Definition Fields (s : string) : list string := Fields_from s "".

Definition parseParentPID (stat : string) : Z :=
  match LastIndexAny stat ")" with
  | None => 0%Z
  | Some idx =>
      if (String.length stat <=? idx + 2) then 0%Z
      else match Fields (str_drop (idx + 2) stat) with
           | _ :: ppid :: _ => default 0%Z (ParseInt64 ppid)
           | _ => 0%Z
           end
  end.

(** What the system shows of processes and names. *)
Inductive DnsAnswer := dns_names (l : list string) | dns_error | dns_timeout.
Record Env := mkEnv {
  env_comm : Z → option string; env_exe : Z → option string; env_stat : Z → option string;
  env_dns : string → DnsAnswer }.

(** ** State *)

Record ConnectionEvent := mkConnEvent {
  ev_Protocol : string; ev_Family : Z; ev_DstPort : Z; ev_DstIP : option (list Z); ev_Host : string;
  ev_Process : NetProcess; ev_Decision : string; ev_Blocked : bool }.
Record PendingConnection := mkPending { pd_Event : ConnectionEvent; pd_DefaultOnTimeout : string }.

Inductive Notification := onAllow (ev : ConnectionEvent) | onDeny (ev : ConnectionEvent)
| onAudit (ev : ConnectionEvent) | onApprovalGranted (ev : ConnectionEvent).

Section filter.
Context `{GoLib, GlobLib, NetLib, FilepathLib} (ip_String : list Z → string).

(** [pf_coll] and [pf_cgroup]: the maps the granted callback of the holder writes to. *)
Record ProcessFilter := mkFilter {
  pf_engine : option NetPolicyEngine; pf_room : Room Z PendingConnection string; pf_lookups : gmap nat (Z * nat);
  pf_hasHandler : bool; pf_allowOnce : gset string; pf_dns : gmap string string; pf_procs : gmap Z NetProcess;
  pf_closed : bool; pf_coll : option Maps; pf_cgroup : Z; pf_notes : list Notification }.
Definition NewProcessFilter (engine : option NetPolicyEngine) (coll : option Maps) (cgroup : Z) : ProcessFilter :=
  mkFilter engine empty_room ∅ false ∅ ∅ ∅ false coll cgroup [].

Definition with_procs (f : ProcessFilter) (procs : gmap Z NetProcess) : ProcessFilter :=
  mkFilter (pf_engine f) (pf_room f) (pf_lookups f) (pf_hasHandler f) (pf_allowOnce f) (pf_dns f) procs
    (pf_closed f) (pf_coll f) (pf_cgroup f) (pf_notes f).
Definition with_dns (f : ProcessFilter) (dns : gmap string string) : ProcessFilter :=
  mkFilter (pf_engine f) (pf_room f) (pf_lookups f) (pf_hasHandler f) (pf_allowOnce f) dns (pf_procs f)
    (pf_closed f) (pf_coll f) (pf_cgroup f) (pf_notes f).
Definition with_room (f : ProcessFilter) (rm : Room Z PendingConnection string) : ProcessFilter :=
  mkFilter (pf_engine f) rm (pf_lookups f) (pf_hasHandler f) (pf_allowOnce f) (pf_dns f) (pf_procs f)
    (pf_closed f) (pf_coll f) (pf_cgroup f) (pf_notes f).
Definition with_once (f : ProcessFilter) (keys : gset string) : ProcessFilter :=
  mkFilter (pf_engine f) (pf_room f) (pf_lookups f) (pf_hasHandler f) keys (pf_dns f) (pf_procs f)
    (pf_closed f) (pf_coll f) (pf_cgroup f) (pf_notes f).
Definition with_lookups (f : ProcessFilter) (lk : gmap nat (Z * nat)) : ProcessFilter :=
  mkFilter (pf_engine f) (pf_room f) lk (pf_hasHandler f) (pf_allowOnce f) (pf_dns f) (pf_procs f)
    (pf_closed f) (pf_coll f) (pf_cgroup f) (pf_notes f).
Definition with_coll (f : ProcessFilter) (coll : option Maps) : ProcessFilter :=
  mkFilter (pf_engine f) (pf_room f) (pf_lookups f) (pf_hasHandler f) (pf_allowOnce f) (pf_dns f) (pf_procs f)
    (pf_closed f) coll (pf_cgroup f) (pf_notes f).
Definition notify (f : ProcessFilter) (n : Notification) : ProcessFilter :=
  mkFilter (pf_engine f) (pf_room f) (pf_lookups f) (pf_hasHandler f) (pf_allowOnce f) (pf_dns f) (pf_procs f)
    (pf_closed f) (pf_coll f) (pf_cgroup f) (pf_notes f ++ [n]).
Definition decide_ev (ev : ConnectionEvent) (d : string) (blocked : bool) : ConnectionEvent :=
  mkConnEvent (ev_Protocol ev) (ev_Family ev) (ev_DstPort ev) (ev_DstIP ev) (ev_Host ev) (ev_Process ev) d blocked.

(** The cache is trusted as long as the process name is the same. *)
Definition getProcessInfo (f : ProcessFilter) (env : Env) (pid : Z) : ProcessFilter * NetProcess :=
  match env_comm env pid with
  | None => (with_procs f (delete pid (pf_procs f)), mkNetProcess "" "" "" "" pid 0)
  | Some comm =>
      let currentName := TrimSpace comm in
      let fresh := mkNetProcess currentName (default "" (env_exe env pid)) "" "" pid
                     (from_option parseParentPID 0%Z (env_stat env pid)) in
      let refresh := (with_procs f (<[pid := fresh]> (pf_procs f)), fresh) in
      match pf_procs f !! pid with
      | Some info => if String.eqb (np_Name info) currentName then (f, info) else refresh
      | None => refresh
      end
  end.

Definition resolveHost (f : ProcessFilter) (env : Env) (ip : option (list Z)) : ProcessFilter * string :=
  match ip with
  | None => (f, "")
  | Some ip =>
      let ipStr := ip_String ip in
      match pf_dns f !! ipStr with
      | Some host => (f, host)
      | None =>
          let host := match env_dns env ipStr with
                      | dns_names (n :: _) => or_else (TrimSuffix n ".") ipStr
                      | _ => ipStr
                      end in
          (with_dns f (<[ipStr := host]> (pf_dns f)), host)
      end
  end.

Definition protocol_name (p : Z) : string :=
  if (p =? 6)%Z then "tcp" else if (p =? 17)%Z then "udp" else pretty p.
Definition buildConnectionEvent (f : ProcessFilter) (env : Env) (ev : ConnectEvent) : ProcessFilter * ConnectionEvent :=
  let dst := extractDstIP ev in
  let '(f, host) := resolveHost f env dst in
  let '(f, proc) := getProcessInfo f env (ce_PID ev) in
  (f, mkConnEvent (protocol_name (ce_Protocol ev)) (ce_Family ev) (ce_Dport ev) dst host proc "" (ce_Blocked ev =? 1)%Z).

(** [net.IP.String] of a nil address is <nil>. *)
Definition makeAllowOnceKey (ev : ConnectionEvent) : string :=
  np_Path (ev_Process ev) ++ ":" ++ pretty (ev_DstPort ev) ++ ":" ++
  from_option ip_String "<nil>" (ev_DstIP ev) ++ ":" ++ pretty (ev_Family ev).

(** The engine's decision, with the parent's information when there is a parent. *)
Definition evaluate_event (f : ProcessFilter) (env : Env) (e : NetPolicyEngine) (ev : ConnectionEvent)
    : ProcessFilter * string :=
  let k := mkConnection (ev_Host ev) (ev_DstIP ev) (ev_DstPort ev) (ev_Protocol ev) in
  let proc := ev_Process ev in
  if (1 <? np_ParentPID proc)%Z then
    let '(f, parent) := getProcessInfo f env (np_ParentPID proc mod 2 ^ 32)%Z in
    (f, pr_Decision (EvaluateForParentChild "linux" e parent proc k))
  else (f, pr_Decision (engine_Evaluate "linux" e proc k)).

(** How a result came about. *)
Inductive Reason :=
| no_engine | by_policy (d : string) | first_use (key : string) | no_handler | by_answer (d : string)
| by_timeout (dflt : string) | shut_down.
Record FilterResult := mkFilterResult { fr_event : nat; fr_decision : string; fr_reason : Reason; fr_conn : ConnectionEvent }.

(** [handleApprove] up to the wait; [i] identifies the call, [cookie] the connection. *)
Definition handleApprove (f : ProcessFilter) (i : nat) (cookie : Z) (ev : ConnectionEvent) (dflt : string)
    : option (ProcessFilter * list FilterResult) :=
  if negb (pf_hasHandler f) then
    let ev := decide_ev ev (ev_Decision ev) true in
    Some (notify f (onDeny ev), [mkFilterResult i pn_Deny no_handler ev])
  else rm ← room_begin (pf_room f) i cookie (mkPending ev dflt); Some (with_room f rm, []).

(** [ProcessEvent] up to its result or its wait. *)
Definition ProcessEvent (f : ProcessFilter) (env : Env) (i : nat) (ev : ConnectEvent) (dflt : string)
    : option (ProcessFilter * list FilterResult) :=
  let '(f, cev) := buildConnectionEvent f env ev in
  match pf_engine f with
  | None => let cev := decide_ev cev pn_Allow (ev_Blocked cev) in
            Some (notify f (onAllow cev), [mkFilterResult i pn_Allow no_engine cev])
  | Some e =>
      let '(f, d) := evaluate_event f env e cev in
      let cev := decide_ev cev d (ev_Blocked cev) in
      if String.eqb d pn_Allow then Some (notify f (onAllow cev), [mkFilterResult i pn_Allow (by_policy d) cev])
      else if String.eqb d pn_Deny then
        let cev := decide_ev cev d true in Some (notify f (onDeny cev), [mkFilterResult i pn_Deny (by_policy d) cev])
      else if String.eqb d pn_Audit then Some (notify f (onAudit cev), [mkFilterResult i pn_Audit (by_policy d) cev])
      else if String.eqb d pn_AllowOnceThenApprove then
        let key := makeAllowOnceKey cev in
        if bool_decide (key ∈ pf_allowOnce f) then handleApprove f i (ce_Cookie ev) cev dflt
        else Some (notify (with_once f ({[key]} ∪ pf_allowOnce f)) (onAllow cev), [mkFilterResult i pn_Allow (first_use key) cev])
      else if String.eqb d pn_Approve then handleApprove f i (ce_Cookie ev) cev dflt
      else Some (f, [mkFilterResult i pn_Deny (by_policy d) cev])
  end.

(** [notifyApprovalGranted]: the holder opens the endpoint in the kernel. *)
Definition grant (lru : Lru) (f : ProcessFilter) (ev : ConnectionEvent) : ProcessFilter :=
  let f := notify f (onApprovalGranted ev) in
  with_coll f (addTemporaryAllowRule lru (pf_coll f) (pf_cgroup f)
                 (temporary_key (ev_Family ev) (ev_DstPort ev) (ev_Protocol ev) (ev_DstIP ev))).

(** ** Steps *)

Inductive FEvent :=
| F_event (i : nat) (env : Env) (ev : ConnectEvent) (dflt : string)
| F_answer (i : nat) (d : string)
| F_lookup (r : nat) (cookie : Z)
| F_send (r : nat) (approve : bool)
| F_receive (lru : Lru) (i : nat) | F_timeout (i : nat) | F_done (i : nat) | F_leave (i : nat)
| F_close | F_engine (e : option NetPolicyEngine) | F_handler (b : bool)
| F_dns (name : string) (ip : list Z) | F_clear_procs | F_clear_once.

Definition fstep (f : ProcessFilter) (ev : FEvent) : option (ProcessFilter * list FilterResult) :=
  match ev with
  | F_event i env ev dflt => ProcessEvent f env i ev dflt
  | F_answer i d => Some (with_room f (room_offer (pf_room f) i d).1, [])
  | F_lookup r cookie => i ← pending (pf_room f) !! cookie; Some (with_lookups f (<[r := (cookie, i)]> (pf_lookups f)), [])
  | F_send r approve =>
      '(_, i) ← pf_lookups f !! r;
      Some (with_room f (room_offer (pf_room f) i (if approve : bool then pn_Allow else pn_Deny)).1, [])
  | F_receive lru i =>
      '(rm, p, d) ← room_take (pf_room f) i;
      let f := with_room f rm in
      if String.eqb d pn_Allow then
        let cev := decide_ev (pd_Event p) d (ev_Blocked (pd_Event p)) in
        Some (notify (grant lru f cev) (onAllow cev), [mkFilterResult i pn_Approve (by_answer d) cev])
      else
        let cev := decide_ev (pd_Event p) d true in
        Some (notify f (onDeny cev), [mkFilterResult i pn_Deny (by_answer d) cev])
  | F_timeout i =>
      '(rm, p) ← room_giveup (pf_room f) i;
      let f := with_room f rm in
      let dflt := pd_DefaultOnTimeout p in
      if negb (String.eqb dflt pn_Allow) then
        let cev := decide_ev (pd_Event p) dflt true in
        Some (notify f (onDeny cev), [mkFilterResult i pn_Deny (by_timeout dflt) cev])
      else
        let cev := decide_ev (pd_Event p) dflt false in
        Some (notify f (onAllow cev), [mkFilterResult i pn_Allow (by_timeout dflt) cev])
  | F_done i =>
      if negb (pf_closed f) then None
      else '(rm, p) ← room_giveup (pf_room f) i;
           let cev := decide_ev (pd_Event p) (ev_Decision (pd_Event p)) true in
           Some (notify (with_room f rm) (onDeny cev), [mkFilterResult i pn_Deny shut_down cev])
  | F_leave i => rm ← room_leave (pf_room f) i; Some (with_room f rm, [])
  | F_close => Some (mkFilter (pf_engine f) (pf_room f) (pf_lookups f) (pf_hasHandler f) (pf_allowOnce f) (pf_dns f)
                       (pf_procs f) true (pf_coll f) (pf_cgroup f) (pf_notes f), [])
  | F_engine e => Some (mkFilter e (pf_room f) (pf_lookups f) (pf_hasHandler f) (pf_allowOnce f) (pf_dns f)
                          (pf_procs f) (pf_closed f) (pf_coll f) (pf_cgroup f) (pf_notes f), [])
  | F_handler b => Some (mkFilter (pf_engine f) (pf_room f) (pf_lookups f) b (pf_allowOnce f) (pf_dns f)
                           (pf_procs f) (pf_closed f) (pf_coll f) (pf_cgroup f) (pf_notes f), [])
  | F_dns name ip => Some (with_dns f (<[ip_String ip := name]> (pf_dns f)), [])
  | F_clear_procs => Some (with_procs f ∅, [])
  | F_clear_once => Some (with_once f ∅, [])
  end.

Fixpoint frun (f : ProcessFilter) (evs : list FEvent) : option (ProcessFilter * list FilterResult) :=
  match evs with
  | [] => Some (f, [])
  | ev :: evs =>
      match fstep f ev with
      | None => None
      | Some (f, rs) => match frun f evs with None => None | Some (f, rs') => Some (f, rs ++ rs') end
      end
  end.
End filter.

(** ** Properties *)

Section filter_props.
Context `{GoLib, GlobLib, NetLib, FilepathLib} (ip_String : list Z → string).
Notation step := (fstep ip_String).

(** The state that decides; the caches of processes and names are left out. *)
Definition core (f : ProcessFilter) :=
  (pf_room f, pf_lookups f, pf_allowOnce f, pf_coll f, pf_cgroup f, pf_engine f, pf_hasHandler f, pf_closed f).

Lemma getProcessInfo_core f env pid : core (getProcessInfo f env pid).1 = core f.
Proof.
  unfold getProcessInfo. destruct (env_comm env pid); [|done]. destruct (pf_procs f !! pid); [|done].
  by destruct (String.eqb _ _).
Qed.
Lemma buildConnectionEvent_core f env ev : core (buildConnectionEvent ip_String f env ev).1 = core f.
Proof.
  unfold buildConnectionEvent. destruct (resolveHost ip_String f env (extractDstIP ev)) as [f1 host] eqn:Hr.
  assert (H1' : core f1 = core f).
  { revert Hr. unfold resolveHost. destruct (extractDstIP ev); [|by intros [= <- _]].
    destruct (pf_dns f !! _); by intros [= <- _]. }
  rewrite <- H1'. pose proof (getProcessInfo_core f1 env (ce_PID ev)) as Hg.
  by destruct (getProcessInfo f1 env (ce_PID ev)).
Qed.
Lemma evaluate_event_core f env e cev : core (evaluate_event f env e cev).1 = core f.
Proof.
  unfold evaluate_event. destruct (1 <? _)%Z; [|done].
  pose proof (getProcessInfo_core f env (np_ParentPID (ev_Process cev) mod 2 ^ 32)%Z) as Hg.
  by destruct (getProcessInfo _ _ _).
Qed.

(** *** What a result has to do with the kernel's event and the engine *)

(** The name of a process, as /proc shows it. *)
Definition proc_name (env : Env) (pid : Z) : string := from_option TrimSpace "" (env_comm env pid).
(** The connection is the one of the kernel's event. *)
Definition describes (env : Env) (ev : ConnectEvent) (conn : ConnectionEvent) : Prop :=
  ev_Protocol conn = protocol_name (ce_Protocol ev) ∧ ev_Family conn = ce_Family ev ∧ ev_DstPort conn = ce_Dport ev
  ∧ ev_DstIP conn = extractDstIP ev ∧ np_Name (ev_Process conn) = proc_name env (ce_PID ev).
(** The engine's decision on it: as a child's connection when its process has a parent. *)
Definition engine_says (env : Env) (e : NetPolicyEngine) (conn : ConnectionEvent) (d : string) : Prop :=
  let k := mkConnection (ev_Host conn) (ev_DstIP conn) (ev_DstPort conn) (ev_Protocol conn) in
  let proc := ev_Process conn in
  if (1 <? np_ParentPID proc)%Z
  then ∃ parent, np_Name parent = proc_name env (np_ParentPID proc mod 2 ^ 32)%Z
         ∧ d = pr_Decision (EvaluateForParentChild "linux" e parent proc k)
  else d = pr_Decision (engine_Evaluate "linux" e proc k).
Definition asks : list string := [pn_AllowOnceThenApprove; pn_Approve].
(** The engine wants the connection approved. *)
Definition held (eng : option NetPolicyEngine) (env : Env) (conn : ConnectionEvent) : Prop :=
  ∃ e d, eng = Some e ∧ engine_says env e conn d ∧ d ∈ asks.

(** A result reached without waiting, under the engine and the handler of that moment. *)
Definition immediate (eng : option NetPolicyEngine) (handler : bool) (env : Env) (ev : ConnectEvent)
    (r : FilterResult) : Prop :=
  let conn := fr_conn r in
  describes env ev conn ∧
  match fr_reason r with
  | no_engine => eng = None ∧ fr_decision r = pn_Allow
  | by_policy d => (∃ e, eng = Some e ∧ engine_says env e conn d) ∧ d ∉ asks
                   ∧ fr_decision r = (if bool_decide (d ∈ [pn_Allow; pn_Deny; pn_Audit]) then d else pn_Deny)
  | first_use key => (∃ e, eng = Some e ∧ engine_says env e conn pn_AllowOnceThenApprove)
                     ∧ key = makeAllowOnceKey ip_String conn ∧ fr_decision r = pn_Allow
  | no_handler => held eng env conn ∧ handler = false ∧ fr_decision r = pn_Deny
  | _ => False
  end.
(** A connection that is made to wait. *)
Definition waits_for (eng : option NetPolicyEngine) (handler : bool) (env : Env) (ev : ConnectEvent)
    (conn : ConnectionEvent) : Prop :=
  describes env ev conn ∧ held eng env conn ∧ handler = true.
Definition first_key (r : FilterResult) : option string :=
  match fr_reason r with first_use key => Some key | _ => None end.

Lemma getProcessInfo_name f env pid : np_Name (getProcessInfo f env pid).2 = proc_name env pid.
Proof.
  unfold getProcessInfo, proc_name. destruct (env_comm env pid); [|done]. cbn. destruct (pf_procs f !! pid); [|done].
  by destruct (String.eqb_spec (np_Name n) (TrimSpace s)).
Qed.
Lemma buildConnectionEvent_describes f env ev : describes env ev (buildConnectionEvent ip_String f env ev).2.
Proof.
  unfold buildConnectionEvent. destruct (resolveHost ip_String f env (extractDstIP ev)) as [f1 host].
  pose proof (getProcessInfo_name f1 env (ce_PID ev)) as Hn. destruct (getProcessInfo f1 env (ce_PID ev)). by split_and!.
Qed.
Lemma evaluate_event_says f env e cev : engine_says env e cev (evaluate_event f env e cev).2.
Proof.
  unfold evaluate_event, engine_says. destruct (1 <? np_ParentPID (ev_Process cev))%Z; [|done].
  pose proof (getProcessInfo_name f env (np_ParentPID (ev_Process cev) mod 2 ^ 32)%Z) as Hn.
  destruct (getProcessInfo _ _ _) as [f1 parent]. by exists parent.
Qed.

Section one_event.
Context (f : ProcessFilter) (env : Env) (ev : ConnectEvent) (i : nat) (dflt : string).
Notation now := (immediate (pf_engine f) (pf_hasHandler f) env ev).
Notation later := (waits_for (pf_engine f) (pf_hasHandler f) env ev).

(** A result, or a wait. *)
Definition at_once (f' : ProcessFilter) (rs : list FilterResult) : Prop :=
  ∃ r, rs = [r] ∧ fr_event r = i ∧ now r ∧ first_key r = None ∧ core f' = core f.
Definition put_off (f' : ProcessFilter) (rs : list FilterResult) : Prop :=
  ∃ p rm, rs = [] ∧ pd_DefaultOnTimeout p = dflt ∧ later (pd_Event p)
    ∧ room_begin (pf_room f) i (ce_Cookie ev) p = Some rm ∧ core f' = core (with_room f rm).

Lemma handleApprove_cases f2 cev f' rs :
  core f2 = core f → describes env ev cev → held (pf_engine f) env cev →
  handleApprove f2 i (ce_Cookie ev) cev dflt = Some (f', rs) → at_once f' rs ∨ put_off f' rs.
Proof.
  intros Hc Hd Hh. pose proof Hc as Hc'. injection Hc' as Hroom Hlk Honce Hcoll Hcg Heng Hhand Hcl.
  unfold handleApprove. rewrite Hhand, Hroom. destruct (pf_hasHandler f) eqn:Hf; simpl.
  - destruct (room_begin _ _ _ _) as [rm|] eqn:Hb; [|done]. intros [= <- <-]. right. eexists _, rm.
    split_and!; [done| | |exact Hb|unfold core; cbn; congruence]; [done|]. unfold waits_for. rewrite Hf. done.
  - intros [= <- <-]. left. eexists. split_and!; [done|done| |done|exact Hc]. unfold immediate. rewrite Hf. done.
Qed.

(** [ProcessEvent] gives a result at once or registers a wait. *)
Lemma ProcessEvent_cases f' rs :
  ProcessEvent ip_String f env i ev dflt = Some (f', rs) →
  at_once f' rs ∨ put_off f' rs
  ∨ (∃ r key, rs = [r] ∧ fr_event r = i ∧ now r ∧ first_key r = Some key ∧ key ∉ pf_allowOnce f
       ∧ core f' = core (with_once f ({[key]} ∪ pf_allowOnce f))).
Proof.
  unfold ProcessEvent. pose proof (buildConnectionEvent_core f env ev) as Hb.
  pose proof (buildConnectionEvent_describes f env ev) as Hd.
  destruct (buildConnectionEvent _ _ _ _) as [f1 cev]. cbn [fst snd] in Hb, Hd.
  assert (He1 : pf_engine f1 = pf_engine f) by (by injection Hb). rewrite He1.
  destruct (pf_engine f) as [e|] eqn:Heng.
  2:{ intros [= <- <-]. left. eexists. split_and!; [done|done| |done|exact Hb]. unfold immediate. by rewrite Heng. }
  pose proof (evaluate_event_core f1 env e cev) as He. rewrite Hb in He.
  pose proof (evaluate_event_says f1 env e cev) as Hs.
  destruct (evaluate_event _ _ _ _) as [f2 d]. cbn [fst snd] in He, Hs. clear Hb He1 f1.
  assert (Hnow : ∀ dec cev', describes env ev cev' → engine_says env e cev' d → d ∉ asks →
    dec = (if bool_decide (d ∈ [pn_Allow; pn_Deny; pn_Audit]) then d else pn_Deny) →
    now (mkFilterResult i dec (by_policy d) cev')).
  { intros dec cev' ? ? ? ?. unfold immediate. rewrite Heng. split_and!; cbn; eauto. }
  assert (Happ : d ∈ asks → handleApprove f2 i (ce_Cookie ev) (decide_ev cev d (ev_Blocked cev)) dflt = Some (f', rs) →
    at_once f' rs ∨ put_off f' rs).
  { intros Ha. apply handleApprove_cases; [done|done|]. exists e, d. by rewrite Heng. }
  destruct (String.eqb_spec d pn_Allow) as [Ed|N1]; [intros [= <- <-]|].
  { left. eexists. split_and!; [done|done| |done|exact He]. subst d. apply Hnow; [done|done|by apply (bool_decide_unpack _)|done]. }
  destruct (String.eqb_spec d pn_Deny) as [Ed|N2]; [intros [= <- <-]|].
  { left. eexists. split_and!; [done|done| |done|exact He]. subst d. apply Hnow; [done|done|by apply (bool_decide_unpack _)|done]. }
  destruct (String.eqb_spec d pn_Audit) as [Ed|N3]; [intros [= <- <-]|].
  { left. eexists. split_and!; [done|done| |done|exact He]. subst d. apply Hnow; [done|done|by apply (bool_decide_unpack _)|done]. }
  destruct (String.eqb_spec d pn_AllowOnceThenApprove) as [Ed|N4];
    [destruct (bool_decide (_ ∈ pf_allowOnce f2)) eqn:Hk|].
  - intros Hh. destruct (Happ ltac:(subst d; set_solver) Hh); [by left|by right; left].
  - apply bool_decide_eq_false in Hk. intros [= <- <-]. right; right. injection He as Hroom Hlk Honce Hcoll Hcg Heng2 Hhand Hcl.
    eexists _, _. split_and!; [done|done| |done|by rewrite <- Honce|unfold core; cbn; congruence].
    unfold immediate. subst d. split_and!; cbn; eauto.
  - destruct (String.eqb_spec d pn_Approve) as [Ed|N5].
    { intros Hh. destruct (Happ ltac:(subst d; set_solver) Hh); [by left|by right; left]. }
    intros [= <- <-]. left. eexists. split_and!; [done|done| |done|exact He]. apply Hnow; [done|done|set_solver|].
    rewrite bool_decide_false; [done|]. set_solver.
Qed.
End one_event.

(** *** What a result has to do with the history *)

(** The engine and the handler after a history. *)
Definition engine_at (engine : option NetPolicyEngine) (evs : list FEvent) : option NetPolicyEngine :=
  foldl (λ e ev, match ev with F_engine e' => e' | _ => e end) engine evs.
Definition handler_at (evs : list FEvent) : bool :=
  foldl (λ b ev, match ev with F_handler b' => b' | _ => b end) false evs.

Section justified.
Context (engine : option NetPolicyEngine).

(** Event [i] of the history is about the connection [cookie] and was made to wait. *)
Definition f_requested (evs : list FEvent) (i : nat) (cookie : Z) (p : PendingConnection) : Prop :=
  ∃ pre env ev, (pre ++ [F_event i env ev (pd_DefaultOnTimeout p)]) `prefix_of` evs ∧ ce_Cookie ev = cookie
    ∧ waits_for (engine_at engine pre) (handler_at pre) env ev (pd_Event p).
(** An answer given to it: by its approval callback, or for its cookie. *)
Definition f_answered (evs : list FEvent) (i : nat) (d : string) : Prop :=
  F_answer i d ∈ evs
  ∨ ∃ r cookie (b : bool) p, F_lookup r cookie ∈ evs ∧ F_send r b ∈ evs ∧ f_requested evs i cookie p
      ∧ d = (if b then pn_Allow else pn_Deny).

(** A result follows an event of the kernel with its number: at once, or after a wait. *)
Definition f_justified (evs : list FEvent) (r : FilterResult) : Prop :=
  let i := fr_event r in
  ∃ pre env ev dflt, (pre ++ [F_event i env ev dflt]) `prefix_of` evs ∧
  let waited := waits_for (engine_at engine pre) (handler_at pre) env ev (fr_conn r) in
  match fr_reason r with
  | by_answer d => waited ∧ f_answered evs i d
                   ∧ fr_decision r = (if String.eqb d pn_Allow then pn_Approve else pn_Deny)
  | by_timeout dflt' => waited ∧ dflt' = dflt ∧ F_timeout i ∈ evs
                        ∧ fr_decision r = (if String.eqb dflt pn_Allow then pn_Allow else pn_Deny)
  | shut_down => waited ∧ F_close ∈ evs ∧ F_done i ∈ evs ∧ fr_decision r = pn_Deny
  | _ => immediate (engine_at engine pre) (handler_at pre) env ev r
  end.

(** The kernel's entry for a connection, and the entries added to [m0]. *)
Definition conn_key (ev : ConnectionEvent) : AllowKey :=
  temporary_key (ev_Family ev) (ev_DstPort ev) (ev_Protocol ev) (ev_DstIP ev).
Definition opened (m0 : option Maps) (cg : Z) (rs : list FilterResult) (m : option Maps) : Prop :=
  match m0, m with
  | Some m0, Some m =>
      (∀ k, k ∈ allowlist m → k ∈ allowlist m0
         ∨ ∃ r, r ∈ rs ∧ fr_decision r = pn_Approve ∧ k = set_cgroup cg (conn_key (fr_conn r)))
      ∧ set_allowlist m0 (allowlist m) = m
  | None, None => True
  | _, _ => False
  end.

Definition f_known (evs : list FEvent) (rm : Room Z PendingConnection string) : Prop :=
  room_inv (f_requested evs) (f_answered evs) rm.
Record f_reached (m0 : option Maps) (cg : Z) (evs : list FEvent) (rs : list FilterResult) (f : ProcessFilter) : Prop := {
  fr_room : f_known evs (pf_room f);
  fr_lookup : ∀ r cookie i, pf_lookups f !! r = Some (cookie, i) →
    F_lookup r cookie ∈ evs ∧ ∃ w, waits (pf_room f) !! i = Some w ∧ w_key w = cookie;
  fr_close : pf_closed f = true → F_close ∈ evs;
  fr_results : Forall (f_justified evs) rs;
  fr_once : F_clear_once ∉ evs → NoDup (omap first_key rs) ∧ ∀ k, k ∈ omap first_key rs → k ∈ pf_allowOnce f;
  fr_cgroup : pf_cgroup f = cg;
  fr_opened : opened m0 cg rs (pf_coll f) }.

Lemma prefix_elem {A} (l l' : list A) x : l `prefix_of` l' → x ∈ l → x ∈ l'.
Proof. intros [k ->]. set_solver. Qed.
Lemma f_requested_mono evs evs' i cookie p :
  evs `prefix_of` evs' → f_requested evs i cookie p → f_requested evs' i cookie p.
Proof. intros Hs (pre & env & ev & ? & ?). exists pre, env, ev. split; [by etrans|done]. Qed.
Lemma f_answered_mono evs evs' i d : evs `prefix_of` evs' → f_answered evs i d → f_answered evs' i d.
Proof.
  intros Hs [Ha|(r & c & b & p & ? & ? & ? & ?)]; [left; by eapply prefix_elem|]. right. exists r, c, b, p.
  split_and!; [by eapply prefix_elem|by eapply prefix_elem|by eapply f_requested_mono|done].
Qed.
Lemma f_justified_mono evs evs' r : evs `prefix_of` evs' → f_justified evs r → f_justified evs' r.
Proof.
  intros Hs (pre & env & ev & dflt & Hp & Hr). exists pre, env, ev, dflt. split; [by etrans|]. cbv zeta in *.
  destruct (fr_reason r); try done; destruct_and!; split_and!; eauto using f_answered_mono, prefix_elem.
Qed.

Lemma f_reached_mono m0 cg evs evs' rs f :
  evs `prefix_of` evs' → f_reached m0 cg evs rs f → f_reached m0 cg evs' rs f.
Proof.
  intros Hs [Hi Hl Hcl Hj Ho ? ?]. split; try done.
  - eapply room_inv_mono; [| |exact Hi]; cbn; eauto using f_requested_mono, f_answered_mono.
  - intros r c i Hr. destruct (Hl r c i Hr). split; [by eapply prefix_elem|done].
  - eauto using prefix_elem.
  - eapply Forall_impl; [done|]. intros r. by apply f_justified_mono.
  - intros Hn. apply Ho. intros Hc. apply Hn. by eapply prefix_elem.
Qed.
Lemma f_reached_core m0 cg evs rs f f' : core f' = core f → f_reached m0 cg evs rs f → f_reached m0 cg evs rs f'.
Proof.
  intros Hc [? ? ? ? ? ? ?]. injection Hc as Hrm Hlk Ho Hcoll Hcg Heng Hh Hcl.
  split; rewrite ?Hrm, ?Hlk, ?Ho, ?Hcoll, ?Hcg, ?Hcl; done.
Qed.

Lemma f_reached_room m0 cg evs rs f rm :
  f_reached m0 cg evs rs f → f_known evs rm ∧ room_le (pf_room f) rm → f_reached m0 cg evs rs (with_room f rm).
Proof.
  intros [_ Hl ? ? ? ? ?] [Hi Hle]. split; try done. intros r c i Hr. destruct (Hl r c i Hr) as (? & w & Hw & <-).
  split; [done|]. destruct (Hle i w Hw) as (w' & ? & ? & _). eauto.
Qed.

Lemma opened_more m0 cg rs r m : opened m0 cg rs m → opened m0 cg (rs ++ [r]) m.
Proof.
  unfold opened. destruct m0, m; try done. intros [Ho ?]. split; [|done]. intros k Hk.
  destruct (Ho k Hk) as [|(r' & ? & ? & ?)]; [by left|]. right. exists r'. set_solver.
Qed.

(** A result that is not the first use of a key. *)
Lemma f_reached_result m0 cg evs rs f r :
  f_reached m0 cg evs rs f → f_justified evs r → first_key r = None → f_reached m0 cg evs (rs ++ [r]) f.
Proof.
  intros [? ? ? ? Ho ? ?] Hj Hk. split; try done.
  - apply Forall_app. split; [done|]. by apply Forall_singleton.
  - rewrite omap_app. cbn. rewrite Hk, app_nil_r. done.
  - by apply opened_more.
Qed.

Lemma f_reached_first m0 cg evs rs f r key :
  f_reached m0 cg evs rs f → f_justified evs r → first_key r = Some key → key ∉ pf_allowOnce f →
  f_reached m0 cg evs (rs ++ [r]) (with_once f ({[key]} ∪ pf_allowOnce f)).
Proof.
  intros [? ? ? ? Ho ? ?] Hj Hk Hn. split; try done.
  - apply Forall_app. split; [done|]. by apply Forall_singleton.
  - intros Hc. destruct (Ho Hc) as [Hnd Hin]. rewrite omap_app. cbn. rewrite Hk. split; [|set_solver].
    apply NoDup_app. split_and!; [done|set_solver|apply NoDup_singleton].
  - by apply opened_more.
Qed.

(** An approved connection is opened in the kernel. *)
Lemma opened_grant lru m0 cg rs r m :
  opened m0 cg rs m → fr_decision r = pn_Approve →
  opened m0 cg (rs ++ [r]) (addTemporaryAllowRule lru m cg (conn_key (fr_conn r))).
Proof.
  intros Ho Hr. destruct m as [m|]; [|by apply opened_more]. cbn. destruct (cg =? 0)%Z; [by apply opened_more|].
  destruct m0 as [m0|]; [|done]. destruct Ho as [Ho Hm]. split; [|by rewrite <- Hm]. intros k. cbn. unfold hash_put.
  intros [[Hk _]%elem_of_difference|Hk%elem_of_singleton]%elem_of_union.
  - destruct (Ho k Hk) as [|(r' & ? & ? & ?)]; [by left|]. right. exists r'. set_solver.
  - right. exists r. set_solver.
Qed.

Lemma f_reached_grant lru m0 cg evs rs f r :
  f_reached m0 cg evs rs f → f_justified evs r → fr_decision r = pn_Approve → first_key r = None →
  f_reached m0 cg evs (rs ++ [r]) (grant lru f (fr_conn r)).
Proof.
  intros [? ? ? ? Ho Hcg Hop] Hj Hd Hk. split; try done.
  - apply Forall_app. split; [done|]. by apply Forall_singleton.
  - rewrite omap_app. cbn. rewrite Hk, app_nil_r. done.
  - unfold grant. cbn -[addTemporaryAllowRule]. rewrite Hcg. by apply opened_grant.
Qed.

(** The engine and the handler of the state are those of the history. *)
Definition f_setup (evs : list FEvent) (f : ProcessFilter) : Prop :=
  pf_engine f = engine_at engine evs ∧ pf_hasHandler f = handler_at evs.
Definition setup_of (f : ProcessFilter) := (pf_engine f, pf_hasHandler f).
Lemma step_setup f ev f' rs :
  step f ev = Some (f', rs) →
  setup_of f' = (match ev with F_engine e => e | _ => pf_engine f end, match ev with F_handler b => b | _ => pf_hasHandler f end).
Proof.
  assert (Hcore : ∀ g g', core g = core g' → setup_of g = setup_of g') by (intros g g' Hc; unfold setup_of; by injection Hc as _ _ _ _ _ -> -> _).
  destruct ev as [i env ev dflt|i d|r c|r b|lru i|i|i|i| |e|b|name ip| |]; cbn -[ProcessEvent]; intros Hs.
  - destruct (ProcessEvent_cases _ _ _ _ _ _ _ Hs)
      as [(r & _ & _ & _ & _ & Hc)|[(p & rm & _ & _ & _ & _ & Hc)|(r & key & _ & _ & _ & _ & _ & Hc)]]; by apply Hcore in Hc.
  - by simplify_eq.
  - by destruct (pending _ !! c); simplify_eq/=.
  - by destruct (pf_lookups f !! r) as [[]|]; simplify_eq/=.
  - destruct (room_take _ _) as [[[rm p] d]|]; [|done]. cbn -[String.eqb] in Hs. by destruct (String.eqb d pn_Allow); simplify_eq.
  - destruct (room_giveup _ _) as [[rm p]|]; [|done]. cbn -[String.eqb] in Hs. by destruct (negb _); simplify_eq.
  - destruct (pf_closed f); [|done]. by destruct (room_giveup _ _) as [[rm p]|]; simplify_eq/=.
  - by destruct (room_leave _ _); simplify_eq/=.
  - by simplify_eq.
  - by simplify_eq.
  - by simplify_eq.
  - by simplify_eq.
  - by simplify_eq.
  - by simplify_eq.
Qed.
Lemma f_setup_step evs f ev f' rs : f_setup evs f → step f ev = Some (f', rs) → f_setup (evs ++ [ev]) f'.
Proof.
  intros [He Hh] [= He' Hh']%step_setup. split; unfold engine_at, handler_at; rewrite foldl_app; cbn;
    [rewrite He', He|rewrite Hh', Hh]; by destruct ev.
Qed.

Lemma event_reached m0 cg evs rs f env i ev dflt f' rs' :
  f_setup evs f → f_reached m0 cg (evs ++ [F_event i env ev dflt]) rs f →
  ProcessEvent ip_String f env i ev dflt = Some (f', rs') →
  f_reached m0 cg (evs ++ [F_event i env ev dflt]) (rs ++ rs') f'.
Proof.
  intros [He Hh] Hr Hp.
  assert (Hj : ∀ r, fr_event r = i → immediate (pf_engine f) (pf_hasHandler f) env ev r →
    f_justified (evs ++ [F_event i env ev dflt]) r).
  { intros r <- Him. exists evs, env, ev, dflt. split; [done|]. rewrite <- He, <- Hh. cbv zeta.
    pose proof Him as [_ Hm]. by destruct (fr_reason r). }
  destruct (ProcessEvent_cases _ _ _ _ _ _ _ Hp)
    as [(r & -> & Hi & Him & Hk & Hc)|[(p & rm & -> & Hd & Hw & Hb & Hc)|(r & key & -> & Hi & Him & Hk & Hn & Hc)]].
  - eapply f_reached_core; [exact Hc|]. apply f_reached_result; auto.
  - rewrite app_nil_r. eapply f_reached_core; [exact Hc|]. apply f_reached_room; [done|].
    eapply room_begin_inv; [apply Hr| |exact Hb]. exists evs, env, ev. rewrite Hd, <- He, <- Hh. done.
  - eapply f_reached_core; [exact Hc|]. by apply f_reached_first; auto.
Qed.

(** A wait that ends. *)
Lemma f_reached_conclude m0 cg evs rs f rm p i r :
  f_reached m0 cg evs rs f → room_giveup (pf_room f) i = Some (rm, p) →
  fr_event r = i → first_key r = None →
  (∀ cookie, f_requested evs i cookie p → f_justified evs r) →
  f_reached m0 cg evs (rs ++ [r]) (with_room f rm).
Proof.
  intros Hr Hg <- Hk Hj. destruct (room_giveup_inv _ _ _ _ _ _ (fr_room _ _ _ _ _ Hr) Hg) as (Hi & Hle & _ & c & Hc).
  apply f_reached_result; [by apply f_reached_room|by eapply Hj|done].
Qed.

Lemma f_step_reached m0 cg evs0 rs f ev f' rs' :
  f_setup evs0 f → f_reached m0 cg evs0 rs f → step f ev = Some (f', rs') → f_reached m0 cg (evs0 ++ [ev]) (rs ++ rs') f'.
Proof.
  intros Hsetup Hr Hs. apply (f_reached_mono _ _ _ (evs0 ++ [ev])) in Hr; [|by apply prefix_app_r].
  assert (Hev : ev ∈ evs0 ++ [ev]) by set_solver. destruct ev as [i env ev dflt| | | | | | | | | | | | |].
  { by eapply event_reached. }
  all: revert Hev Hr; match goal with |- ?x ∈ _ → _ => generalize (evs0 ++ [x]) end; clear evs0 Hsetup; intros evs Hev Hr.
  all: pose proof (fr_room _ _ _ _ _ Hr) as Hrm; unfold f_known in Hrm; cbn -[ProcessEvent] in Hs.
  - simplify_eq. rewrite app_nil_r. apply f_reached_room; [done|]. apply room_offer_inv; [done|]. intros _ _. by left.
  - destruct (pending _ !! cookie) as [i|] eqn:Hi; [|done]. simplify_eq/=. rewrite app_nil_r. split; try apply Hr. cbn.
    intros r' c' j [[-> [= -> ->]]|[_ Hj]]%lookup_insert_Some; [|by eapply fr_lookup].
    split; [done|]. destruct (ri_ok _ _ _ Hrm _ _ Hi) as (w & ? & ? & _). eauto.
  - destruct (pf_lookups f !! r) as [[c i]|] eqn:Hl; [|done]. simplify_eq/=. rewrite app_nil_r.
    apply f_reached_room; [done|]. apply room_offer_inv; [done|]. intros w Hw. right.
    destruct (fr_lookup _ _ _ _ _ Hr _ _ _ Hl) as (? & w' & Hw' & <-).
    exists r, (w_key w'), approve, (w_req w'). split_and!; try done. exact (ri_wait _ _ _ Hrm _ _ Hw').
  - destruct (room_take _ _) as [[[rm p] d]|] eqn:Ht; [|done]. cbn -[String.eqb] in Hs.
    destruct (room_take_inv _ _ _ _ _ _ _ Hrm Ht) as (Hk & Hle & _ & Ha & c & pre & env & ev & Hpre & _ & Hw).
    pose proof (f_reached_room _ _ _ _ _ rm Hr (conj Hk Hle)) as Hr'.
    assert (Hj : ∀ b, f_justified evs (mkFilterResult i (if String.eqb d pn_Allow then pn_Approve else pn_Deny)
      (by_answer d) (decide_ev (pd_Event p) d b))) by (intros b; by exists pre, env, ev, (pd_DefaultOnTimeout p)).
    destruct (String.eqb d pn_Allow); simplify_eq.
    + apply (f_reached_core _ _ _ _ (grant lru (with_room f rm) (decide_ev (pd_Event p) d (ev_Blocked (pd_Event p)))));
        [done|]. by apply (f_reached_grant _ _ _ _ _ _ (mkFilterResult i _ _ _)).
    + eapply (f_reached_core _ _ _ _ (with_room f rm)); [done|]. by apply f_reached_result.
  - destruct (room_giveup _ _) as [[rm p]|] eqn:Ht; [|done]. cbn -[String.eqb] in Hs.
    assert (Hj : ∀ b, f_reached m0 cg evs (rs ++ [mkFilterResult i (if String.eqb (pd_DefaultOnTimeout p) pn_Allow
      then pn_Allow else pn_Deny) (by_timeout (pd_DefaultOnTimeout p)) (decide_ev (pd_Event p) (pd_DefaultOnTimeout p) b)])
      (with_room f rm)).
    { intros b. eapply f_reached_conclude; [done|done|done|done|]. intros c (pre & env & ev & Hpre & _ & Hw).
      by exists pre, env, ev, (pd_DefaultOnTimeout p). }
    destruct (String.eqb (pd_DefaultOnTimeout p) pn_Allow); simplify_eq/=;
      (eapply (f_reached_core _ _ _ _ (with_room f rm)); [done|apply Hj]).
  - destruct (pf_closed f) eqn:Hcl; [|done]. destruct (room_giveup _ _) as [[rm p]|] eqn:Ht; [|done]. simplify_eq/=.
    eapply (f_reached_core _ _ _ _ (with_room f rm)); [done|].
    eapply f_reached_conclude; [done|done|done|done|]. intros c (pre & env & ev & Hpre & _ & Hw).
    exists pre, env, ev, (pd_DefaultOnTimeout p). split; [done|]. cbv zeta. cbn [fr_reason].
    split_and!; try done. by eapply fr_close.
  - destruct (room_leave _ _) as [rm|] eqn:Hl; [|done]. simplify_eq/=. rewrite app_nil_r.
    apply f_reached_room; [done|]. by eapply room_leave_inv.
  - simplify_eq. rewrite app_nil_r. split; try apply Hr. done.
  - simplify_eq. rewrite app_nil_r. split; apply Hr.
  - simplify_eq. rewrite app_nil_r. split; apply Hr.
  - simplify_eq. rewrite app_nil_r. by eapply f_reached_core; [|exact Hr].
  - simplify_eq. rewrite app_nil_r. by eapply f_reached_core; [|exact Hr].
  - simplify_eq. rewrite app_nil_r. split; try apply Hr. done.
Qed.
Lemma f_run_reached m0 cg evs0 rs0 f evs f' rs :
  f_setup evs0 f → f_reached m0 cg evs0 rs0 f → frun ip_String f evs = Some (f', rs) →
  f_reached m0 cg (evs0 ++ evs) (rs0 ++ rs) f'.
Proof.
  revert evs0 rs0 f rs. induction evs as [|ev evs IH]; intros evs0 rs0 f rs Hset Hr Hs; cbn -[fstep] in Hs.
  { simplify_eq. by rewrite !app_nil_r. }
  destruct (fstep ip_String f ev) as [[f1 rs1]|] eqn:Hstep; [|done].
  destruct (frun ip_String f1 evs) as [[f2 rs2]|] eqn:Hrun; [|done]. simplify_eq.
  rewrite cons_middle, !app_assoc. eapply IH; [by eapply f_setup_step|by eapply f_step_reached|done].
Qed.

Lemma f_reached_init coll cg : f_reached coll cg [] [] (NewProcessFilter engine coll cg).
Proof.
  split; [apply empty_room_inv|intros r c i; cbn; by rewrite lookup_empty|done|done| |done|].
  - intros _. split; [constructor|set_solver].
  - cbn. destruct coll as [m|]; [|done]. split; [by left|]. by destruct m.
Qed.

End justified.

(** C32. What lets a connection through, in every interleaving of kernel events, approval
    callbacks, remote answers, timeouts, changes of the engine and shutdown (an event is
    evaluated without interruption up to its result or its wait). Every result belongs to an
    event of the kernel, names its protocol, family, port, address and process, and is: an
    allow because no engine was configured at that moment; the decision which the engine
    configured then takes on that connection; an allow for the first use of an allow-once
    key, when the engine said allow-once; or, when the engine asked for approval, a refusal
    for want of a handler, what an answer given to that connection says (by its callback or
    for its cookie), its own timeout default, or a refusal at shutdown. The kernel's allow
    list has gained only endpoints of connections whose approval was answered with allow
    (others may be evicted), nothing else of the maps has changed, and as long as
    ClearAllowOnceState is not called no allow-once key is used twice. *)
Theorem connections_justified (engine : option NetPolicyEngine) (coll : option Maps) (cg : Z) (evs : list FEvent)
    (f : ProcessFilter) (rs : list FilterResult) :
  frun ip_String (NewProcessFilter engine coll cg) evs = Some (f, rs) →
  Forall (f_justified engine evs) rs ∧ opened coll cg rs (pf_coll f)
  ∧ (F_clear_once ∉ evs → NoDup (omap first_key rs)).
Proof.
  intros Hr. destruct (f_run_reached engine coll cg [] [] (NewProcessFilter engine coll cg) evs f rs ltac:(done)
    (f_reached_init engine coll cg) Hr) as [_ _ _ Hj Ho _ Hop].
  split_and!; [done|done|]. intros Hn. by apply Ho.
Qed.
End filter_props.

(** ** Samples *)

Module FilterSample.
#[local] Existing Instance ascii_go.
#[local] Existing Instance literal_glob.
#[local] Existing Instance no_net.
#[local] Existing Instance no_patterns.

Definition show_ip (ip : list Z) : string := foldr (λ b s, pretty b ++ "." ++ s)%string "" ip.
Definition proc_env : Env :=
  mkEnv (λ pid, if (pid =? 42)%Z then Some "curl" else None) (λ _, Some "/usr/bin/curl")
    (λ _, Some "42 (curl) S 1 42 42") (λ _, dns_error).
Definition connect_to (port : Z) : ConnectEvent :=
  mkConnectEvent 0 77 42 42 0 port 2 6 33619978 (replicate 16 0%Z) 0.
Definition ask : NetPolicyEngine := mkNetEngine pn_AllowOnceThenApprove [].

(** The first connection passes, the second waits and is approved by its cookie. *)
Definition history : list FEvent :=
  [F_handler true; F_event 0 proc_env (connect_to 443) pn_Deny; F_event 1 proc_env (connect_to 443) pn_Deny;
   F_lookup 0 77; F_send 0 true; F_receive (MapsSample.evicting 4) 1; F_leave 1].
Example history_results :
  option_map (λ p : ProcessFilter * list FilterResult, List.map (λ r, (fr_event r, fr_decision r)) p.2)
    (frun show_ip (NewProcessFilter (Some ask) (Some empty_maps) 5) history)
  = Some [(0, pn_Allow); (1, pn_Approve)].
Proof. vm_compute. reflexivity. Qed.

Lemma connections_justified_witness :
  ∃ f rs, frun show_ip (NewProcessFilter (Some ask) (Some empty_maps) 5) history = Some (f, rs)
    ∧ List.map (λ r, (fr_event r, fr_decision r)) rs = [(0, pn_Allow); (1, pn_Approve)]
    ∧ Forall (f_justified show_ip (Some ask) history) rs ∧ opened (Some empty_maps) 5 rs (pf_coll f).
Proof.
  destruct (frun show_ip (NewProcessFilter (Some ask) (Some empty_maps) 5) history) as [[f rs]|] eqn:Hr.
  - exists f, rs. destruct (connections_justified show_ip _ _ _ _ _ _ Hr) as (Hj & Ho & _).
    pose proof history_results as Hx. rewrite Hr in Hx. injection Hx as Hx. done.
  - exfalso. vm_compute in Hr. discriminate Hr.
Defined.
End FilterSample.
