(* ===== verification/WtpBatch.v ===== *)
(** * Batching and encoding for the watchtower transport

    internal/store/watchtower/transport: the batcher (batcher.go), the window of frames
    that are sent and not yet acknowledged (inflight.go), the wire reason of a loss
    marker (loss_reason.go), the encoder of a batch (state_live.go, with the compressors
    of transport/compress) and the cursors they share (transport.go, replayer.go).

    A payload is opaque: protobuf and the compression libraries are parameters. Times
    are nanoseconds. Metrics are kept as the list of calls made.

    The theorems: whatever is added to a batcher leaves it once and in order, in batches
    of one generation, without a gap and within the limits; the encoder's loop computes
    a reference grouping of its input; a batch can be read back from its frames; an
    acknowledgement releases exactly the frames it covers. *)

From S2P Require Import Prelude WalFrame WalFs Wal WalReader.
Open Scope Z_scope.

(** ** Cursors *)

(** [AckCursor] of transport.go and [Watermark] of replayer.go, the same pair. *)
Record AckCursor := mkCursor { ac_Sequence : Z; ac_Generation : Z }.

#[export] Instance AckCursor_eq_dec : EqDecision AckCursor.
Proof. solve_decision. Defined.

Definition watermarkLess (a b : AckCursor) : bool :=
  if negb (ac_Generation a =? ac_Generation b) then ac_Generation a <? ac_Generation b
  else ac_Sequence a <? ac_Sequence b.

(** The order of the log: by generation, then by sequence number. *)
Definition cursor_le (a b : AckCursor) : Prop :=
  ac_Generation a < ac_Generation b ∨ (ac_Generation a = ac_Generation b ∧ ac_Sequence a ≤ ac_Sequence b).

Lemma watermarkLess_spec a b : watermarkLess a b = true ↔ ¬ cursor_le b a.
Proof.
  unfold watermarkLess, cursor_le.
  destruct (Z.eqb_spec (ac_Generation a) (ac_Generation b)); cbn; rewrite Z.ltb_lt; lia.
Qed.

#[export] Instance cursor_le_preorder : PreOrder cursor_le.
Proof. split; unfold Reflexive, Transitive, cursor_le; intros; lia. Qed.

Lemma cursor_le_total a b : cursor_le a b ∨ cursor_le b a.
Proof. unfold cursor_le. lia. Qed.

(** ** Frames in flight *)

(** The [pending] slice of [inflightTracker]. *)
Definition inflightTracker := list AckCursor.

Definition Push (it : inflightTracker) (gen seq : Z) : inflightTracker := it ++ [mkCursor seq gen].

(** The loop of [Release]: how many leading entries are at or below the ack. *)
Fixpoint release_count (it : inflightTracker) (ackGen ackSeq : Z) : nat :=
  match it with
  | [] => 0
  | p :: it =>
      if (ackGen <? ac_Generation p) || ((ac_Generation p =? ackGen) && (ackSeq <? ac_Sequence p)) then 0
      else S (release_count it ackGen ackSeq)
  end.

Definition Release (it : inflightTracker) (ackGen ackSeq : Z) : inflightTracker * nat :=
  let n := release_count it ackGen ackSeq in (drop n it, n).

Definition Inflight_Len (it : inflightTracker) : Z := Z.of_nat (length it).

(** ** Batcher *)

Record BatcherOptions := mkBatcherOptions { bo_MaxRecords : Z; bo_MaxBytes : Z; bo_MaxAge : Z }.

Record Batcher := mkBatcher {
  b_opts : BatcherOptions;
  b_pending : list WalRecord;
  b_pendingSize : Z;
  b_firstSeq : Z;
  b_lastSeq : Z;
  b_gen : Z;
  b_startedAt : Z;
}.

Definition Batch := list WalRecord.

Definition NewBatcher (opts : BatcherOptions) : Batcher := mkBatcher opts [] 0 0 0 0 0.

Definition len_payload (rec : WalRecord) : Z := Z.of_nat (length (rec_Payload rec)).

(** [start] reads the clock; [now] is what it reads. *)
Definition start (now : Z) (rec : WalRecord) (b : Batcher) : Batcher :=
  mkBatcher (b_opts b) [rec] (len_payload rec) (rec_Sequence rec) (rec_Sequence rec) (rec_Generation rec) now.

Definition flush (b : Batcher) : Batch * Batcher :=
  (b_pending b, mkBatcher (b_opts b) [] 0 0 0 0 (b_startedAt b)).

Definition flushAndStart (now : Z) (rec : WalRecord) (b : Batcher) : Batch * Batcher :=
  let '(out, b) := flush b in (out, start now rec b).

Definition append_pending (rec : WalRecord) (b : Batcher) : Batcher :=
  mkBatcher (b_opts b) (b_pending b ++ [rec]) (b_pendingSize b + len_payload rec) (b_firstSeq b) (rec_Sequence rec)
            (b_gen b) (b_startedAt b).

(** The batch is flushed when it has [MaxRecords] records. *)
Definition flush_if_full (b : Batcher) : option Batch * Batcher :=
  if bo_MaxRecords (b_opts b) <=? Z.of_nat (length (b_pending b)) then let '(out, b) := flush b in (Some out, b)
  else (None, b).

Definition Add (now : Z) (rec : WalRecord) (b : Batcher) : option Batch * Batcher :=
  match b_pending b with
  | [] => flush_if_full (start now rec b)
  | _ :: _ =>
      if negb (rec_Generation rec =? b_gen b) || negb (rec_Sequence rec =? to_uint64 (b_lastSeq b + 1))
         || (bo_MaxBytes (b_opts b) <? b_pendingSize b + len_payload rec)
      then let '(out, b) := flushAndStart now rec b in (Some out, b)
      else flush_if_full (append_pending rec b)
  end.

Definition Tick (now : Z) (b : Batcher) : option Batch * Batcher :=
  match b_pending b with
  | [] => (None, b)
  | _ :: _ =>
      if now - b_startedAt b <? bo_MaxAge (b_opts b) then (None, b)
      else let '(out, b) := flush b in (Some out, b)
  end.

Definition Drain (b : Batcher) : option Batch * Batcher :=
  match b_pending b with
  | [] => (None, b)
  | _ :: _ => let '(out, b) := flush b in (Some out, b)
  end.

(** ** Loss reasons *)

Definition LossReasonMapperFailure : string := "mapper_failure".
Definition LossReasonInvalidMapper : string := "invalid_mapper".
Definition LossReasonInvalidTimestamp : string := "invalid_timestamp".
Definition LossReasonInvalidUTF8 : string := "invalid_utf8".
Definition LossReasonSequenceOverflow : string := "sequence_overflow".

(** The wire enum, as far as the code names it. *)
Inductive TransportLossReason :=
| REASON_UNSPECIFIED | REASON_OVERFLOW | REASON_CRC_CORRUPTION | REASON_ACK_REGRESSION_AFTER_GC
| REASON_MAPPER_FAILURE | REASON_INVALID_MAPPER | REASON_INVALID_TIMESTAMP | REASON_INVALID_UTF8
| REASON_SEQUENCE_OVERFLOW.

Definition ToWireReason (s : string) : TransportLossReason * bool :=
  if String.eqb s LossReasonOverflow then (REASON_OVERFLOW, true)
  else if String.eqb s LossReasonCRCCorruption then (REASON_CRC_CORRUPTION, true)
  else if String.eqb s LossReasonAckRegressionAfterGC then (REASON_ACK_REGRESSION_AFTER_GC, true)
  else if String.eqb s LossReasonMapperFailure then (REASON_MAPPER_FAILURE, true)
  else if String.eqb s LossReasonInvalidMapper then (REASON_INVALID_MAPPER, true)
  else if String.eqb s LossReasonInvalidTimestamp then (REASON_INVALID_TIMESTAMP, true)
  else if String.eqb s LossReasonInvalidUTF8 then (REASON_INVALID_UTF8, true)
  else if String.eqb s LossReasonSequenceOverflow then (REASON_SEQUENCE_OVERFLOW, true)
  else (REASON_UNSPECIFIED, false).

Definition isExtendedReason (r : TransportLossReason) : bool :=
  match r with
  | REASON_MAPPER_FAILURE | REASON_INVALID_MAPPER | REASON_INVALID_TIMESTAMP | REASON_INVALID_UTF8
  | REASON_SEQUENCE_OVERFLOW | REASON_ACK_REGRESSION_AFTER_GC => true
  | _ => false
  end.

(** ** Compressors *)

Inductive Compression := COMPRESSION_UNSPECIFIED | COMPRESSION_NONE | COMPRESSION_ZSTD | COMPRESSION_GZIP.

#[export] Instance Compression_eq_dec : EqDecision Compression.
Proof. solve_decision. Defined.

Definition compressionAlgoLabel (algo : Compression) : string :=
  match algo with COMPRESSION_ZSTD => "zstd" | COMPRESSION_GZIP => "gzip" | _ => "none" end.

(** protobuf and the compression libraries. [zstd_NewWriter] may refuse the level;
    [EncodeAll] returns no error. *)
Class WtpLib := {
  CompactEvent : Type;
  proto_unmarshal_event : bytes → option CompactEvent;      (** [proto.Unmarshal] into a CompactEvent *)
  proto_marshal_events : list CompactEvent → option bytes;  (** [proto.Marshal] of UncompressedEvents *)
  zstd_NewWriter : Z → option (bytes → bytes);
  gzip_NewWriterLevel : Z → option (bytes → option bytes);  (** [Write] and [Close] may fail *)
}.

(** [compress.Encoder]. *)
Record Encoder := mkEncoder { enc_Algo : Compression; enc_Encode : bytes → option bytes }.

Definition newNoneEncoder : Encoder := mkEncoder COMPRESSION_NONE (λ _, None).

Inductive CompressErr := ErrLevelRange (level : Z) | ErrWriter | ErrUnsupportedAlgo (algo : string).

Definition minZstdLevel : Z := 1.
Definition maxZstdLevel : Z := 22.
Definition minGzipLevel : Z := 1.
Definition maxGzipLevel : Z := 9.

Definition newZstdEncoder `{WtpLib} (level : Z) : Result CompressErr Encoder :=
  if (level <? minZstdLevel) || (maxZstdLevel <? level) then Err (ErrLevelRange level)
  else match zstd_NewWriter level with
       | None => Err ErrWriter
       | Some enc => Ok (mkEncoder COMPRESSION_ZSTD (λ raw, Some (enc raw)))
       end.

Definition newGzipEncoder `{WtpLib} (level : Z) : Result CompressErr Encoder :=
  if (level <? minGzipLevel) || (maxGzipLevel <? level) then Err (ErrLevelRange level)
  else match gzip_NewWriterLevel level with
       | None => Err ErrWriter
       | Some enc => Ok (mkEncoder COMPRESSION_GZIP enc)
       end.

Definition NewEncoder `{WtpLib} (algo : string) (zstdLevel gzipLevel : Z) : Result CompressErr Encoder :=
  if String.eqb algo "none" then Ok newNoneEncoder
  else if String.eqb algo "zstd" then newZstdEncoder zstdLevel
  else if String.eqb algo "gzip" then newGzipEncoder gzipLevel
  else Err (ErrUnsupportedAlgo algo).

(** ** Frames *)

Section frames.
Context `{WtpLib}.

Inductive Body := Uncompressed (events : list CompactEvent) | CompressedPayload (payload : bytes).

Record EventBatch := mkEventBatch {
  eb_FromSequence : Z;
  eb_ToSequence : Z;
  eb_Generation : Z;
  eb_Compression : Compression;
  eb_Body : Body;
}.

Record TransportLoss := mkTransportLoss {
  tl_FromSequence : Z;
  tl_ToSequence : Z;
  tl_Generation : Z;
  tl_Reason : TransportLossReason;
}.

(** What the transport sends after the handshake. *)
Inductive DataMessage := MsgEventBatch (b : EventBatch) | MsgTransportLoss (l : TransportLoss).

Definition extractWireHighWatermark (msg : DataMessage) : Z * Z :=
  match msg with
  | MsgEventBatch b => (eb_Generation b, eb_ToSequence b)
  | MsgTransportLoss l => (tl_Generation l, tl_ToSequence l)
  end.

(** ** Encoder *)

Inductive EncodeErr := ErrUnmarshal (seq : Z) | ErrMarshal (gen from to : Z).

Inductive CompressMetric :=
| IncCompressError (algo : string)
| AddBatchUncompressedBytes (algo : string) (n : Z)
| AddBatchCompressedBytes (algo : string) (n : Z)
| ObserveBatchCompressionRatio (algo : string) (compressed raw : Z).

(** The variables of [encodeBatchMessageWithCompressor]. *)
Record EncState := mkEncState {
  es_msgs : list DataMessage;
  es_curEvents : list CompactEvent;
  es_curFromSeq : Z;
  es_curToSeq : Z;
  es_curGen : Z;
  es_curSeen : bool;
  es_metrics : list CompressMetric;
}.

Definition EncM := M EncState EncodeErr.

(** The message is appended, and the current run is over. *)
Definition emit_batch (algo : Compression) (body : Body) (s : EncState) : EncState :=
  mkEncState (es_msgs s ++ [MsgEventBatch (mkEventBatch (es_curFromSeq s) (es_curToSeq s) (es_curGen s) algo body)])
             [] (es_curFromSeq s) (es_curToSeq s) (es_curGen s) false (es_metrics s).
Definition count_metrics (l : list CompressMetric) (s : EncState) : EncState :=
  mkEncState (es_msgs s) (es_curEvents s) (es_curFromSeq s) (es_curToSeq s) (es_curGen s) (es_curSeen s)
             (es_metrics s ++ l).

Definition flushData (compressor : Encoder) : EncM unit :=
  let algo := enc_Algo compressor in
  let algoLabel := compressionAlgoLabel algo in
  let* s := mget (λ s, s) in
  if negb (es_curSeen s) then ret tt
  else if bool_decide (algo = COMPRESSION_NONE) then
    mput (emit_batch COMPRESSION_NONE (Uncompressed (es_curEvents s)))
  else
    match proto_marshal_events (es_curEvents s) with
    | None => merr (ErrMarshal (es_curGen s) (es_curFromSeq s) (es_curToSeq s))
    | Some raw =>
        match enc_Encode compressor raw with
        | None =>
            do* mput (count_metrics [IncCompressError algoLabel]) in
            mput (emit_batch COMPRESSION_NONE (Uncompressed (es_curEvents s)))
        | Some compressed =>
            let nraw := Z.of_nat (length raw) in
            let ncomp := Z.of_nat (length compressed) in
            do* mput (count_metrics ([AddBatchUncompressedBytes algoLabel nraw; AddBatchCompressedBytes algoLabel ncomp]
                        ++ (if 0 <? nraw then [ObserveBatchCompressionRatio algoLabel ncomp nraw] else []))) in
            mput (emit_batch algo (CompressedPayload compressed))
        end
    end.

Definition add_msg (msg : DataMessage) (s : EncState) : EncState :=
  mkEncState (es_msgs s ++ [msg]) (es_curEvents s) (es_curFromSeq s) (es_curToSeq s) (es_curGen s) (es_curSeen s)
             (es_metrics s).
Definition add_event (rec : WalRecord) (ce : CompactEvent) (s : EncState) : EncState :=
  mkEncState (es_msgs s) (es_curEvents s ++ [ce]) (if es_curSeen s then es_curFromSeq s else rec_Sequence rec)
             (rec_Sequence rec) (if es_curSeen s then es_curGen s else rec_Generation rec) true (es_metrics s).

Definition encode_record (emitExtended : bool) (compressor : Encoder) (rec : WalRecord) : EncM unit :=
  match rec_Kind rec with
  | RecordLoss =>
      do* flushData compressor in
      let '(wireReason, ok) := ToWireReason (l_Reason (rec_Loss rec)) in
      if negb ok then ret tt
      else if negb emitExtended && isExtendedReason wireReason then ret tt
      else
        let loss := rec_Loss rec in
        mput (add_msg (MsgTransportLoss
          (mkTransportLoss (l_FromSequence loss) (l_ToSequence loss) (l_Generation loss) wireReason)))
  | RecordData =>
      match proto_unmarshal_event (rec_Payload rec) with
      | None => merr (ErrUnmarshal (rec_Sequence rec))
      | Some ce => mput (add_event rec ce)
      end
  | RecordGenerationRoll => ret tt
  end.

Fixpoint encode_records (emitExtended : bool) (compressor : Encoder) (records : list WalRecord) : EncM unit :=
  match records with
  | [] => ret tt
  | rec :: records => do* encode_record emitExtended compressor rec in encode_records emitExtended compressor records
  end.

Definition encode_init : EncState := mkEncState [] [] 0 0 0 false [].

(** The messages and the metrics calls made. *)
Definition encodeBatchMessageWithCompressor (records : list WalRecord) (emitExtended : bool) (compressor : Encoder) :
    Result EncodeErr (list DataMessage) * list CompressMetric :=
  match (do* encode_records emitExtended compressor records in flushData compressor) encode_init with
  | (Ok _, s) => (Ok (es_msgs s), es_metrics s)
  | (Err e, s) => (Err e, es_metrics s)
  end.

(** The wrapper without a compressor or metrics. *)
Definition encodeBatchMessage (records : list WalRecord) (emitExtended : bool) : Result EncodeErr (list DataMessage) :=
  (encodeBatchMessageWithCompressor records emitExtended newNoneEncoder).1.

End frames.

(** ** An acknowledgement releases what it covers *)

Lemma release_count_cons p it g s :
  release_count (p :: it) g s = if decide (cursor_le p (mkCursor s g)) then S (release_count it g s) else 0%nat.
Proof.
  cbn. destruct (decide _) as [Hle|Hle]; unfold cursor_le in Hle; cbn in Hle;
    destruct (Z.ltb_spec g (ac_Generation p)), (Z.eqb_spec (ac_Generation p) g), (Z.ltb_spec s (ac_Sequence p)); cbn; try done; lia.
Qed.

Lemma release_covered it g s : Forall (λ p, cursor_le p (mkCursor s g)) (take (Release it g s).2 it).
Proof.
  cbn [Release snd]. induction it as [|p it IH]; [constructor|]. rewrite release_count_cons.
  destruct (decide _); cbn; [by constructor | constructor].
Qed.

Lemma release_rest it g s p : head (Release it g s).1 = Some p → ¬ cursor_le p (mkCursor s g).
Proof.
  cbn [Release fst]. induction it as [|q it IH]; [done|]. rewrite release_count_cons.
  destruct (decide _) as [Hle|Hle]; cbn; [done|]. by intros [= <-].
Qed.

(** ** Batches *)

Definition bytes_of (l : list WalRecord) : Z := foldr (λ r n, len_payload r + n) 0 l.

Definition contiguous (l : list WalRecord) : Prop :=
  ∀ i r r', l !! i = Some r → l !! S i = Some r' → rec_Sequence r' = to_uint64 (rec_Sequence r + 1).

(** What the batcher promises of a batch. *)
Record batch_ok (o : BatcherOptions) (l : list WalRecord) : Prop := mkBatchOk {
  bk_nonempty : l ≠ [];
  bk_gen : ∀ r r', r ∈ l → r' ∈ l → rec_Generation r = rec_Generation r';
  bk_contiguous : contiguous l;
  bk_records : Z.of_nat (length l) ≤ Z.max 1 (bo_MaxRecords o);
  bk_bytes : length l = 1%nat ∨ bytes_of l ≤ bo_MaxBytes o;
}.

Inductive BatchOp := OpAdd (now : Z) (rec : WalRecord) | OpTick (now : Z) | OpDrain.

Definition batch_step (op : BatchOp) : Batcher → option Batch * Batcher :=
  match op with OpAdd now rec => Add now rec | OpTick now => Tick now | OpDrain => Drain end.

Fixpoint batch_run (ops : list BatchOp) (b : Batcher) : list Batch * Batcher :=
  match ops with
  | [] => ([], b)
  | op :: ops =>
      let '(out, b) := batch_step op b in
      let '(outs, b) := batch_run ops b in (option_list out ++ outs, b)
  end.

Definition added (ops : list BatchOp) : list WalRecord :=
  omap (λ op, match op with OpAdd _ rec => Some rec | _ => None end) ops.

(** The pending records of a batcher are a batch that is not full. *)
Definition open_ok (b : Batcher) : Prop :=
  b_pending b = [] ∨
  (batch_ok (b_opts b) (b_pending b) ∧ (∀ r, r ∈ b_pending b → rec_Generation r = b_gen b) ∧
   (∀ r, last (b_pending b) = Some r → rec_Sequence r = b_lastSeq b) ∧ b_pendingSize b = bytes_of (b_pending b)).

Lemma contiguous_snoc l r : contiguous l →
  (∀ r', last l = Some r' → rec_Sequence r = to_uint64 (rec_Sequence r' + 1)) → contiguous (l ++ [r]).
Proof.
  intros Hc Hl i x y Hx Hy. destruct (decide (S i < length l)%nat) as [Hi|Hi].
  - rewrite lookup_app_l in Hx, Hy by lia. by apply (Hc i).
  - pose proof (lookup_lt_Some _ _ _ Hy) as Hlen. rewrite length_app in Hlen. cbn in Hlen.
    rewrite lookup_app_l in Hx by lia. rewrite lookup_app_r in Hy by lia.
    replace (S i - length l)%nat with 0%nat in Hy by lia. injection Hy as <-. apply Hl.
    rewrite last_lookup. by replace (pred (length l)) with i by lia.
Qed.

Lemma bytes_of_snoc l r : bytes_of (l ++ [r]) = bytes_of l + len_payload r.
Proof. unfold bytes_of. rewrite foldr_app. cbn. induction l as [|x l IH]; cbn; [lia|]. rewrite IH. lia. Qed.

Lemma batch_ok_single o r : batch_ok o [r].
Proof.
  constructor; [done | | | cbn; lia | by left].
  - intros x y Hx%list_elem_of_singleton Hy%list_elem_of_singleton. by subst.
  - intros i x y _ Hy. by destruct i.
Qed.

Lemma open_ok_start now r b : open_ok (start now r b).
Proof.
  right. cbn. split_and!; [apply batch_ok_single | by intros x Hx%list_elem_of_singleton; subst | by intros x [= ->] | lia].
Qed.

(** Appending a record the checks let through. *)
Lemma open_ok_append r b : open_ok b → b_pending b ≠ [] → rec_Generation r = b_gen b →
  rec_Sequence r = to_uint64 (b_lastSeq b + 1) → b_pendingSize b + len_payload r ≤ bo_MaxBytes (b_opts b) →
  Z.of_nat (length (b_pending b)) + 1 ≤ Z.max 1 (bo_MaxRecords (b_opts b)) → open_ok (append_pending r b).
Proof.
  intros [He|([Hne Hg Hc Hn Hb] & Hgen & Hlast & Hsz)] Hp Hrg Hrs Hbytes Hmax; [done|]. right. cbn. split_and!.
  - constructor.
    + by intros [? [=]]%app_nil.
    + assert (Hall : ∀ x, x ∈ b_pending b ++ [r] → rec_Generation x = b_gen b).
      { intros x [Hx|Hx%list_elem_of_singleton]%elem_of_app; [by apply Hgen | by subst x]. }
      intros x y Hx Hy. by rewrite !Hall.
    + apply contiguous_snoc; [done|]. intros x Hx. by rewrite Hrs, (Hlast x Hx).
    + rewrite length_app. cbn. lia.
    + right. rewrite bytes_of_snoc. lia.
  - intros x [Hx|Hx%list_elem_of_singleton]%elem_of_app; [by apply Hgen | by subst x].
  - intros x. rewrite last_snoc. by intros [= ->].
  - by rewrite bytes_of_snoc, Hsz.
Qed.

(** A batcher between operations: its batch is short of [MaxRecords], so it can take
    one more record. *)
Definition batcher_ok (o : BatcherOptions) (b : Batcher) : Prop :=
  b_opts b = o ∧ open_ok b ∧ (b_pending b = [] ∨ Z.of_nat (length (b_pending b)) < bo_MaxRecords o).

(** What an operation may do: it gives back a batch in front, or nothing. *)
Definition step_ok (o : BatcherOptions) (l : list WalRecord) (res : option Batch * Batcher) : Prop :=
  batcher_ok o res.2 ∧ l = default [] res.1 ++ b_pending res.2 ∧ ∀ out, res.1 = Some out → batch_ok o out.

Lemma open_ok_batch b : open_ok b → b_pending b ≠ [] → batch_ok (b_opts b) (b_pending b).
Proof. by intros [?|[]]. Qed.

Lemma flush_ok o b : b_opts b = o → open_ok b → b_pending b ≠ [] →
  step_ok o (b_pending b) (let '(out, b) := flush b in (Some out, b)).
Proof.
  intros <- Ho Hne. cbn. split_and!; [split_and!; [done | by left | by left] | cbn; by rewrite app_nil_r|].
  intros out [= <-]. by apply open_ok_batch.
Qed.

Lemma flush_if_full_ok o b : b_opts b = o → open_ok b → b_pending b ≠ [] → step_ok o (b_pending b) (flush_if_full b).
Proof.
  intros <- Ho Hne. unfold flush_if_full. destruct (Z.leb_spec (bo_MaxRecords (b_opts b)) (Z.of_nat (length (b_pending b)))).
  - by apply flush_ok.
  - cbn. split_and!; [split_and!; [done..|by right] | done | done].
Qed.

Lemma Add_ok o now rec b : batcher_ok o b → step_ok o (b_pending b ++ [rec]) (Add now rec b).
Proof.
  intros (Ho & Hok & Hlt). unfold Add. destruct (b_pending b) as [|r l] eqn:Hp.
  { apply (flush_if_full_ok o (start now rec b)); [done | apply open_ok_start | done]. }
  rewrite <- Hp in *. assert (Hne : b_pending b ≠ []) by (by rewrite Hp).
  destruct (_ || _) eqn:Hchk.
  - cbn. split_and!; [split_and!; [done | apply open_ok_start |] | done | intros out [= <-]; rewrite <- Ho; by apply open_ok_batch].
    cbn. destruct Hlt as [?|Hlt]; [done|]. destruct (b_pending b); [done|]. cbn in Hlt. right. lia.
  - apply orb_false_iff in Hchk as [[Hg Hs]%orb_false_iff Hb].
    apply negb_false_iff, Z.eqb_eq in Hg. apply negb_false_iff, Z.eqb_eq in Hs. apply Z.ltb_ge in Hb.
    apply (flush_if_full_ok o (append_pending rec b)); [done | | by intros [? [=]]%app_nil].
    apply open_ok_append; try done. rewrite Ho. destruct Hlt as [?|Hlt]; [done|lia].
Qed.

Lemma keep_ok o b : batcher_ok o b → step_ok o (b_pending b) (None, b).
Proof. intros Hb. by split_and!. Qed.

Lemma batch_step_ok o op b : batcher_ok o b → step_ok o (b_pending b ++ added [op]) (batch_step op b).
Proof.
  intros Hb. pose proof Hb as (Ho & Hok & _). destruct op as [now rec|now|]; cbn; [by apply Add_ok | |]; rewrite app_nil_r.
  - unfold Tick. destruct (b_pending b) as [|r l] eqn:Hp; rewrite <- Hp; [by apply keep_ok|].
    destruct (_ <? _); [by apply keep_ok|]. apply flush_ok; [done.. | by rewrite Hp].
  - unfold Drain. destruct (b_pending b) as [|r l] eqn:Hp; rewrite <- Hp; [by apply keep_ok|].
    apply flush_ok; [done.. | by rewrite Hp].
Qed.

Lemma batch_run_ok o ops b : batcher_ok o b →
  let '(outs, b') := batch_run ops b in
  batcher_ok o b' ∧ b_pending b ++ added ops = mjoin outs ++ b_pending b' ∧ Forall (batch_ok o) outs.
Proof.
  revert b. induction ops as [|op ops IH]; intros b Hb; cbn [batch_run]; [by rewrite app_nil_r; split_and!|].
  destruct (batch_step_ok o op b Hb) as (Hb' & Heq & Hout). destruct (batch_step op b) as [out b1]. cbn [fst snd] in Hb', Heq, Hout.
  specialize (IH b1 Hb'). destruct (batch_run ops b1) as [outs b2]. destruct IH as (Hb2 & Heq2 & Houts).
  split_and!; [done | | destruct out as [l|]; cbn; [constructor; auto | done]].
  assert (Ha : added (op :: ops) = added [op] ++ added ops) by (by destruct op).
  rewrite Ha, app_assoc, Heq, <- app_assoc, Heq2. destruct out; cbn; by rewrite ?app_assoc.
Qed.

Lemma NewBatcher_ok o : batcher_ok o (NewBatcher o).
Proof. by split_and!; [|left|left]. Qed.

(** Batching loses, repeats and reorders nothing. For any sequence of Add, Tick and
    Drain calls on a new batcher, the batches given out followed by what is pending are
    the records added, in the order they were added; every batch is non-empty, holds
    records of one generation with consecutive sequence numbers, has at most MaxRecords
    records, and has more than MaxBytes of payload only when it is a single record. *)
Theorem batcher_partition o ops :
  let '(outs, b) := batch_run ops (NewBatcher o) in
  added ops = mjoin outs ++ b_pending b ∧ Forall (batch_ok o) outs ∧ (b_pending b = [] ∨ batch_ok o (b_pending b)).
Proof.
  pose proof (batch_run_ok o ops _ (NewBatcher_ok o)) as Hr. destruct (batch_run ops (NewBatcher o)) as [outs b].
  destruct Hr as ((Ho & [Hp|[Hb _]] & _) & Heq & Hall); split_and!; try done; [by left | right; by rewrite <- Ho].
Qed.

(** ** The encoder computes a grouping *)

Section encoding.
Context `{WtpLib}.

(** The records as the frames group them: maximal runs of data, and loss markers. *)
Inductive Run := RunData (l : list WalRecord) | RunLoss (loss : LossRecord).

Definition cons_data (rec : WalRecord) (g : list Run) : list Run :=
  match g with RunData l :: g => RunData (rec :: l) :: g | _ => RunData [rec] :: g end.

Fixpoint group (records : list WalRecord) : list Run :=
  match records with
  | [] => []
  | rec :: records =>
      match rec_Kind rec with
      | RecordData => cons_data rec (group records)
      | RecordLoss => RunLoss (rec_Loss rec) :: group records
      | RecordGenerationRoll => group records
      end
  end.

Definition event_of (rec : WalRecord) : Result EncodeErr CompactEvent :=
  match proto_unmarshal_event (rec_Payload rec) with None => Err (ErrUnmarshal (rec_Sequence rec)) | Some ce => Ok ce end.

(** The body of a run's frame: compressed when the compressor can, plain otherwise. *)
Definition body_of (compressor : Encoder) (gen from to : Z) (evs : list CompactEvent) : Result EncodeErr (Compression * Body) :=
  if decide (enc_Algo compressor = COMPRESSION_NONE) then Ok (COMPRESSION_NONE, Uncompressed evs)
  else match proto_marshal_events evs with
       | None => Err (ErrMarshal gen from to)
       | Some raw => Ok (match enc_Encode compressor raw with
                         | None => (COMPRESSION_NONE, Uncompressed evs)
                         | Some c => (enc_Algo compressor, CompressedPayload c)
                         end)
       end.

Definition seq_first (l : list WalRecord) : Z := default 0 (rec_Sequence <$> head l).
Definition seq_last (l : list WalRecord) : Z := default 0 (rec_Sequence <$> last l).
Definition gen_first (l : list WalRecord) : Z := default 0 (rec_Generation <$> head l).

Definition batch_frame (compressor : Encoder) (l : list WalRecord) (evs : list CompactEvent) : Result EncodeErr DataMessage :=
  let! cb := body_of compressor (gen_first l) (seq_first l) (seq_last l) evs in
  Ok (MsgEventBatch (mkEventBatch (seq_first l) (seq_last l) (gen_first l) cb.1 cb.2)).

(** The frame of a loss marker, if it is sent at all. *)
Definition loss_frame (emitExtended : bool) (loss : LossRecord) : option DataMessage :=
  let '(r, ok) := ToWireReason (l_Reason loss) in
  if negb ok || (negb emitExtended && isExtendedReason r) then None
  else Some (MsgTransportLoss (mkTransportLoss (l_FromSequence loss) (l_ToSequence loss) (l_Generation loss) r)).

Definition emit_run (emitExtended : bool) (compressor : Encoder) (run : Run) : Result EncodeErr (list DataMessage) :=
  match run with
  | RunData l => let! evs := rmap event_of l in let! m := batch_frame compressor l evs in Ok [m]
  | RunLoss loss => Ok (option_list (loss_frame emitExtended loss))
  end.

Fixpoint emit_runs (emitExtended : bool) (compressor : Encoder) (g : list Run) : Result EncodeErr (list DataMessage) :=
  match g with
  | [] => Ok []
  | run :: g => let! m := emit_run emitExtended compressor run in
                let! ms := emit_runs emitExtended compressor g in Ok (m ++ ms)
  end.

Definition is_data (rec : WalRecord) : Prop := rec_Kind rec = RecordData.

Lemma group_data l rs : l ≠ [] → Forall is_data l →
  group (l ++ rs) = match group rs with RunData k :: g => RunData (l ++ k) :: g | g => RunData l :: g end.
Proof.
  intros Hne Hl. induction Hl as [|r l Hr Hl IH]; [done|]. cbn [app group]. rewrite Hr. destruct l as [|r' l].
  - cbn. by destruct (group rs) as [|[k|]].
  - rewrite IH by done. by destruct (group rs) as [|[k|]].
Qed.

Lemma group_loss l r rs : Forall is_data l → rec_Kind r = RecordLoss →
  group (l ++ r :: rs) = match l with [] => [] | _ => [RunData l] end ++ RunLoss (rec_Loss r) :: group rs.
Proof.
  intros Hl Hr. destruct l as [|x l]; [cbn; by rewrite Hr|]. rewrite group_data by done. cbn. by rewrite Hr.
Qed.

Lemma rmap_app_Err {E A B} (f : A → Result E B) l ys x k e : rmap f l = Ok ys → f x = Err e → rmap f (l ++ x :: k) = Err e.
Proof.
  revert ys. induction l as [|y l IH]; intros ys; cbn; [intros _ ->; done|].
  destruct (f y); cbn; [|done]. destruct (rmap f l) as [zs|]; cbn; [|done]. intros _ Hx. by rewrite (IH _ eq_refl Hx).
Qed.

Lemma rmap_snoc {E A B} (f : A → Result E B) l ys x y : rmap f l = Ok ys → f x = Ok y → rmap f (l ++ [x]) = Ok (ys ++ [y]).
Proof.
  revert ys. induction l as [|z l IH]; intros ys; cbn; [intros [= <-] ->; done|].
  destruct (f z); cbn; [|done]. destruct (rmap f l) as [zs|]; cbn; [|done]. intros [= <-] Hx. by rewrite (IH _ eq_refl Hx).
Qed.

(** The encoder with the run [l] open and [ms] emitted. *)
Record Encoding (ms : list DataMessage) (l : list WalRecord) (s : EncState) : Prop := mkEncoding {
  en_msgs : es_msgs s = ms;
  en_data : Forall is_data l;
  en_events : rmap event_of l = Ok (es_curEvents s);
  en_seen : es_curSeen s = negb (bool_decide (l = []));
  en_head : l ≠ [] → es_curFromSeq s = seq_first l ∧ es_curGen s = gen_first l ∧ es_curToSeq s = seq_last l;
}.

(** The run is emitted. *)
Definition flushed (compressor : Encoder) (ms : list DataMessage) (l : list WalRecord) (evs : list CompactEvent) :
    Result EncodeErr (list DataMessage) :=
  match l with [] => Ok ms | _ => let! m := batch_frame compressor l evs in Ok (ms ++ [m]) end.

Definition Flushes (s : EncState) (r : Result EncodeErr (list DataMessage)) (res : Result EncodeErr unit * EncState) : Prop :=
  match r with
  | Err e => res.1 = Err e
  | Ok ms => res.1 = Ok tt ∧ Encoding ms [] res.2
  end.

Lemma Encoding_emit ms l s algo body mt : Encoding ms l s → l ≠ [] →
  Encoding (ms ++ [MsgEventBatch (mkEventBatch (seq_first l) (seq_last l) (gen_first l) algo body)]) []
    (emit_batch algo body (count_metrics mt s)).
Proof.
  intros [Hm _ _ _ Hh] Hne. destruct (Hh Hne) as (Hf & Hg & Ht). constructor; try done.
  cbn. by rewrite Hm, Hf, Hg, Ht.
Qed.

Lemma flushData_spec compressor ms l s : Encoding ms l s →
  Flushes s (flushed compressor ms l (es_curEvents s)) (flushData compressor s).
Proof.
  intros HE. unfold flushData, bindM, mget, mput. pose proof HE as [Hm Hd He Hs Hh]. rewrite Hs.
  destruct l as [|r l]; [cbn; done|].
  change (flushed compressor ms (r :: l) (es_curEvents s)) with
    (let! m := batch_frame compressor (r :: l) (es_curEvents s) in Ok (ms ++ [m])). set (k := r :: l) in *. assert (Hne : k ≠ []) by done.
  rewrite bool_decide_eq_false_2 by done. cbn [negb]. destruct (Hh Hne) as (Hf & Hg & Ht). rewrite Hf, Hg, Ht.
  unfold batch_frame, body_of. rewrite <- decide_bool_decide.
  destruct (decide (enc_Algo compressor = COMPRESSION_NONE)) as [_|_]; cbn [rbind].
  - cbn. split; [done|].
    pose proof (Encoding_emit ms k s COMPRESSION_NONE (Uncompressed (es_curEvents s)) [] HE Hne) as [Hx ? ? ? ?].
    by constructor.
  - destruct (proto_marshal_events _) as [raw|]; cbn [rbind]; [|done].
    destruct (enc_Encode compressor raw) as [c|]; (split; [done|]; cbn [snd]; by apply Encoding_emit).
Qed.

Lemma Encoding_add ms l s r ce : Encoding ms l s → is_data r → event_of r = Ok ce → Encoding ms (l ++ [r]) (add_event r ce s).
Proof.
  intros [Hm Hd He Hs Hh] Hr Hce. assert (Hne : l ++ [r] ≠ []) by (by intros [? [=]]%app_nil). constructor; cbn; try done.
  - apply Forall_app. split; [done|]. by constructor.
  - by apply rmap_snoc.
  - by rewrite bool_decide_eq_false_2.
  - intros _. rewrite Hs. unfold seq_last. rewrite last_snoc. destruct l as [|x l]; cbn; [done|].
    destruct (Hh ltac:(done)) as (-> & -> & _). done.
Qed.

Lemma Encoding_add_msg ms s m : Encoding ms [] s → Encoding (ms ++ [m]) [] (add_msg m s).
Proof. intros [Hm Hd He Hs Hh]. constructor; cbn; try done. by rewrite Hm. Qed.

Lemma emit_run_head l evs compressor emitExtended ms g : rmap event_of l = Ok evs → l ≠ [] →
  (let! r := emit_runs emitExtended compressor (RunData l :: g) in Ok (ms ++ r)) =
  (let! ms := flushed compressor ms l evs in let! r := emit_runs emitExtended compressor g in Ok (ms ++ r)).
Proof.
  intros He Hne. unfold flushed. destruct l as [|r l]; [done|]. cbn [emit_runs emit_run]. rewrite He. cbn [rbind].
  destruct (batch_frame _ _ _) as [m|]; cbn [rbind]; [|done]. destruct (emit_runs _ _ g); cbn [rbind]; [|done].
  by rewrite <- app_assoc.
Qed.

(** A run of the encoder ends with the reference's messages or error. *)
Definition Agrees (r : Result EncodeErr (list DataMessage)) (res : Result EncodeErr unit * EncState) : Prop :=
  match r with
  | Ok out => res.1 = Ok tt ∧ es_msgs res.2 = out
  | Err e => res.1 = Err e
  end.

(** The reference for the encoder in a state with [ms] emitted and the run [l] open. *)
Definition ref_from (emitExtended : bool) (compressor : Encoder) (ms : list DataMessage) (rs : list WalRecord) :
    Result EncodeErr (list DataMessage) :=
  let! r := emit_runs emitExtended compressor (group rs) in Ok (ms ++ r).

Lemma encode_end x compressor ms l s : Encoding ms l s → Agrees (ref_from x compressor ms l) (flushData compressor s).
Proof.
  intros HE. pose proof (flushData_spec compressor ms l s HE) as Hf. destruct HE as [_ Hd He _ _]. unfold ref_from.
  destruct l as [|r l]; [cbn in *; destruct Hf as [-> [Hm _ _ _ _]]; by rewrite app_nil_r|].
  rewrite <- (app_nil_r (r :: l)), group_data by done. cbn [group]. rewrite emit_run_head with (evs := es_curEvents s) by done.
  destruct (flushed _ _ _ _) as [out|e]; cbn in Hf |- *; [|done]. destruct Hf as [-> [Hm _ _ _ _]]. by rewrite app_nil_r.
Qed.

Lemma ref_unmarshal_error x compressor ms l r rs evs e : Forall is_data l → is_data r → rmap event_of l = Ok evs →
  event_of r = Err e → ref_from x compressor ms (l ++ r :: rs) = Err e.
Proof.
  intros Hd Hr He Hev. unfold ref_from. replace (l ++ r :: rs) with ((l ++ [r]) ++ rs) by (by rewrite <- app_assoc).
  assert (Hds : Forall is_data (l ++ [r])) by (apply Forall_app; split; [done|by constructor]).
  rewrite group_data by (done || by intros [? [=]]%app_nil).
  assert (Hall : ∀ k, rmap event_of ((l ++ [r]) ++ k) = Err e) by (intros k; rewrite <- app_assoc; by eapply rmap_app_Err).
  pose proof (Hall []) as Hall0. rewrite app_nil_r in Hall0.
  destruct (group rs) as [|[k|]]; cbn [emit_runs emit_run]; by rewrite ?Hall, ?Hall0.
Qed.

Lemma ref_loss x compressor ms l r rs evs : Forall is_data l → rec_Kind r = RecordLoss → rmap event_of l = Ok evs →
  ref_from x compressor ms (l ++ r :: rs) =
  (let! ms := flushed compressor ms l evs in ref_from x compressor (ms ++ option_list (loss_frame x (rec_Loss r))) rs).
Proof.
  intros Hd Hr He. unfold ref_from. rewrite group_loss by done.
  assert (Hl : ∀ ms0, (let! o := emit_runs x compressor (RunLoss (rec_Loss r) :: group rs) in Ok (ms0 ++ o)) =
    (let! o := emit_runs x compressor (group rs) in Ok ((ms0 ++ option_list (loss_frame x (rec_Loss r))) ++ o))).
  { intros ms0. cbn [emit_runs emit_run rbind]. destruct (emit_runs x compressor (group rs)); cbn; [|done]. by rewrite <- app_assoc. }
  destruct l as [|y l]; [apply Hl|]. cbn [app]. rewrite emit_run_head with (evs := evs) by done.
  destruct (flushed _ _ _ _); cbn [rbind]; [apply Hl | done].
Qed.

Lemma ref_roll x compressor ms l r rs : Forall is_data l → rec_Kind r = RecordGenerationRoll →
  ref_from x compressor ms (l ++ r :: rs) = ref_from x compressor ms (l ++ rs).
Proof.
  intros Hd Hk. unfold ref_from. do 2 f_equal. destruct l as [|y l]; [cbn; by rewrite Hk|].
  rewrite !group_data by done. cbn [group]. by rewrite Hk.
Qed.

(** A loss marker flushes the open run and adds its frame, if it has one. *)
Lemma encode_loss x compressor r ms l s : Encoding ms l s → rec_Kind r = RecordLoss →
  Flushes s (let! ms := flushed compressor ms l (es_curEvents s) in Ok (ms ++ option_list (loss_frame x (rec_Loss r))))
          (encode_record x compressor r s).
Proof.
  intros HE Hk. unfold encode_record. rewrite Hk. unfold bindM. pose proof (flushData_spec compressor ms l s HE) as Hf.
  destruct (flushed _ _ _ _) as [ms1|e]; destruct (flushData compressor s) as [res s1]; cbn in Hf; [|by subst].
  destruct Hf as [-> HE1]. cbn [rbind]. unfold loss_frame. destruct (ToWireReason _) as [w [|]]; cbn;
    [destruct (negb x && isExtendedReason w); cbn|]; rewrite ?app_nil_r; split; try done; by apply Encoding_add_msg.
Qed.

Lemma encode_records_spec x compressor rs ms l s : Encoding ms l s →
  Agrees (ref_from x compressor ms (l ++ rs)) ((do* encode_records x compressor rs in flushData compressor) s).
Proof.
  revert ms l s. induction rs as [|r rs IH]; intros ms l s HE; [rewrite app_nil_r; by apply encode_end|].
  assert (Hnext : (do* encode_records x compressor (r :: rs) in flushData compressor) s =
    (do* encode_record x compressor r in do* encode_records x compressor rs in flushData compressor) s).
  { unfold bindM; cbn [encode_records]; unfold bindM. by destruct (encode_record x compressor r s) as [[]]. }
  rewrite Hnext. destruct (rec_Kind r) eqn:Hk.
  - unfold encode_record. rewrite Hk. destruct (proto_unmarshal_event (rec_Payload r)) as [ce|] eqn:Hu.
    + assert (Hev : event_of r = Ok ce) by (unfold event_of; by rewrite Hu).
      specialize (IH ms (l ++ [r]) _ (Encoding_add ms l s r ce HE Hk Hev)). by rewrite <- app_assoc in IH.
    + destruct HE as [_ Hd He _ _]. erewrite ref_unmarshal_error; try done. unfold event_of. by rewrite Hu.
  - pose proof (encode_loss x compressor r ms l s HE Hk) as Hl. erewrite ref_loss; [|apply HE|done|apply HE].
    unfold bindM at 1. destruct (flushed _ _ _ _) as [ms1|e]; cbn [rbind] in *;
      destruct (encode_record x compressor r s) as [res s1]; cbn in Hl; [|by subst]. destruct Hl as [-> HE1]. by apply (IH _ []).
  - unfold encode_record. rewrite Hk, ref_roll by (done || apply HE). by apply IH.
Qed.

Lemma encode_ref records emitExtended compressor :
  (encodeBatchMessageWithCompressor records emitExtended compressor).1 = emit_runs emitExtended compressor (group records).
Proof.
  pose proof (encode_records_spec emitExtended compressor records [] [] encode_init ltac:(by constructor)) as Hs.
  unfold encodeBatchMessageWithCompressor. cbn [app] in Hs. unfold ref_from in Hs.
  destruct (emit_runs _ _ _); destruct ((do* _ in _) encode_init) as [res s]; cbn in *; [by destruct Hs as [-> ->] | by subst].
Qed.

(** ** A batch can be read back from its frames *)

(** What a receiver learns: events under their generation and sequence number, and
    the ranges of lost ones. *)
Inductive Item :=
| ItemEvent (gen seq : Z) (ce : CompactEvent)
| ItemLoss (from to gen : Z) (reason : TransportLossReason).

Definition numbered (gen from : Z) (evs : list CompactEvent) : list Item :=
  imap (λ i ce, ItemEvent gen (to_uint64 (from + Z.of_nat i)) ce) evs.

(** [receive] undoes the compression and the marshalling. *)
Definition read_message (receive : Compression → bytes → option (list CompactEvent)) (msg : DataMessage) : option (list Item) :=
  match msg with
  | MsgTransportLoss l => Some [ItemLoss (tl_FromSequence l) (tl_ToSequence l) (tl_Generation l) (tl_Reason l)]
  | MsgEventBatch b =>
      evs ← (match eb_Body b with Uncompressed evs => Some evs | CompressedPayload p => receive (eb_Compression b) p end);
      if eb_ToSequence b =? to_uint64 (eb_FromSequence b + Z.of_nat (length evs) - 1)
      then Some (numbered (eb_Generation b) (eb_FromSequence b) evs) else None
  end.

Fixpoint read_messages (receive : Compression → bytes → option (list CompactEvent)) (msgs : list DataMessage) : option (list Item) :=
  match msgs with
  | [] => Some []
  | m :: msgs => x ← read_message receive m; xs ← read_messages receive msgs; Some (x ++ xs)
  end.

Definition loss_items (emitExtended : bool) (loss : LossRecord) : list Item :=
  match loss_frame emitExtended loss with
  | Some (MsgTransportLoss l) => [ItemLoss (tl_FromSequence l) (tl_ToSequence l) (tl_Generation l) (tl_Reason l)]
  | _ => []
  end.

(** What of a record reaches the receiver. *)
Definition record_items (emitExtended : bool) (rec : WalRecord) : list Item :=
  match rec_Kind rec with
  | RecordData => option_list (ItemEvent (rec_Generation rec) (rec_Sequence rec) <$> proto_unmarshal_event (rec_Payload rec))
  | RecordLoss => loss_items emitExtended (rec_Loss rec)
  | RecordGenerationRoll => []
  end.

Lemma group_prefix l k g : Forall (λ r, rec_Kind r ≠ RecordGenerationRoll) l → group l = RunData k :: g → k `prefix_of` l.
Proof.
  intros Hr. revert k g. induction Hr as [|r l Hr Hl IH]; intros k g; cbn; [done|]. destruct (rec_Kind r); [|done..].
  unfold cons_data. destruct (group l) as [|[k'|]]; intros [= <- _]; [apply prefix_cons, prefix_nil | | apply prefix_cons, prefix_nil].
  eapply prefix_cons, IH; reflexivity.
Qed.

Lemma group_runs l k : Forall (λ r, rec_Kind r ≠ RecordGenerationRoll) l → RunData k ∈ group l → ∃ pre post, l = pre ++ k ++ post.
Proof.
  intros Hr. revert k. induction Hr as [|r l Hr Hl IH]; intros k; [by intros Hk%not_elem_of_nil|].
  intros Hk. assert (Hd : rec_Kind r = RecordData ∨ rec_Kind r = RecordLoss) by (destruct (rec_Kind r); auto; done).
  pose proof (group_prefix (r :: l)) as Hp. cbn in Hk, Hp. destruct Hd as [Hd|Hd]; rewrite Hd in Hk, Hp.
  - unfold cons_data in *.
    assert (Hin : RunData k ∈ group l ∨ ∃ g, cons_data r (group l) = RunData k :: g).
    { unfold cons_data. destruct (group l) as [|[k'|] g']; apply elem_of_cons in Hk as [[= ->]|Hk]; eauto.
      left. apply elem_of_cons. auto. }
    destruct Hin as [Hin|[g Hg]]; [destruct (IH k Hin) as (pre & post & ->); by exists (r :: pre), post|].
    unfold cons_data in Hg. destruct (Hp k g) as [post Hpost]; [by constructor | done |]. by exists [], post.
  - apply elem_of_cons in Hk as [|Hk]; [done|]. destruct (IH k Hk) as (pre & post & ->). by exists (r :: pre), post.
Qed.

Lemma contiguous_infix pre k post : contiguous (pre ++ k ++ post) → contiguous k.
Proof.
  intros Hc i r r' Hr Hr'. apply (Hc (length pre + i)%nat).
  - rewrite lookup_app_r by lia. replace (length pre + i - length pre)%nat with i by lia. by apply lookup_app_l_Some.
  - rewrite lookup_app_r by lia. replace (S (length pre + i) - length pre)%nat with (S i) by lia. by apply lookup_app_l_Some.
Qed.

Lemma to_uint64_id z : 0 ≤ z < 2 ^ 64 → to_uint64 z = z.
Proof. intros Hz. unfold to_uint64. by rewrite Z.mod_small by lia. Qed.

Lemma to_uint64_succ z n : to_uint64 (to_uint64 (z + n) + 1) = to_uint64 (z + (n + 1)).
Proof. unfold to_uint64. rewrite Zplus_mod_idemp_l. f_equal. lia. Qed.

Definition seq_range (r : WalRecord) : Prop := 0 ≤ rec_Sequence r < 2 ^ 64.

Lemma contiguous_lookup k i r : contiguous k → Forall seq_range k → k !! i = Some r →
  rec_Sequence r = to_uint64 (seq_first k + Z.of_nat i).
Proof.
  intros Hc Hs. revert r. induction i as [|i IH]; intros r Hr.
  - destruct k as [|x k]; [done|]. injection Hr as ->. cbn. apply Forall_cons in Hs as [Hx _]. rewrite Z.add_0_r.
    by rewrite to_uint64_id.
  - destruct (k !! i) as [x|] eqn:Hx; [|apply lookup_ge_None in Hx; apply lookup_lt_Some in Hr; lia].
    rewrite (Hc i x r Hx Hr), (IH x eq_refl), to_uint64_succ. by rewrite Nat2Z.inj_succ.
Qed.

Lemma event_of_unmarshal r ce : event_of r = Ok ce → proto_unmarshal_event (rec_Payload r) = Some ce.
Proof. unfold event_of. destruct (proto_unmarshal_event _); by intros [= <-]. Qed.

(** A contiguous run of one generation is what its numbered events say. *)
Lemma numbered_run x k evs gen from : Forall is_data k → rmap event_of k = Ok evs → (∀ r, r ∈ k → rec_Generation r = gen) →
  (∀ i r, k !! i = Some r → rec_Sequence r = to_uint64 (from + Z.of_nat i)) →
  numbered gen from evs = mjoin (record_items x <$> k).
Proof.
  unfold numbered. intros Hd. revert evs from. induction Hd as [|r k Hr Hd IH]; intros evs from; cbn [rmap].
  { by intros [= <-]. }
  destruct (event_of r) as [ce|] eqn:He; cbn; [|done]. destruct (rmap event_of k) as [es|] eqn:Hk; cbn; [|done].
  intros [= <-] Hg Hs. cbn [imap]. unfold record_items at 1. rewrite Hr, (event_of_unmarshal _ _ He). cbn.
  rewrite (Hs 0%nat r eq_refl), (Hg r) by (apply elem_of_cons; by left). f_equal.
  etransitivity; [|apply (IH es (from + 1) eq_refl)].
  - apply imap_ext. intros i y _. unfold compose. f_equal. f_equal. lia.
  - intros y Hy. apply Hg. apply elem_of_cons. by right.
  - intros i y Hy. rewrite (Hs (S i) y Hy). f_equal. lia.
Qed.

Lemma rmap_length {E A B} (f : A → Result E B) l ys : rmap f l = Ok ys → length ys = length l.
Proof.
  revert ys. induction l as [|x l IH]; intros ys; cbn; [by intros [= <-]|].
  destruct (f x); cbn; [|done]. destruct (rmap f l); cbn; [|done]. intros [= <-]. cbn. f_equal. by apply IH.
Qed.

(** What the receiver relies on: it can undo the compressor. *)
Definition receives (compressor : Encoder) (receive : Compression → bytes → option (list CompactEvent)) : Prop :=
  ∀ evs raw c, proto_marshal_events evs = Some raw → enc_Encode compressor raw = Some c → receive (enc_Algo compressor) c = Some evs.

Lemma read_batch_frame x compressor receive k evs m : receives compressor receive → k ≠ [] → Forall is_data k → contiguous k →
  Forall seq_range k → (∀ r r', r ∈ k → r' ∈ k → rec_Generation r = rec_Generation r') → rmap event_of k = Ok evs →
  batch_frame compressor k evs = Ok m → read_message receive m = Some (mjoin (record_items x <$> k)).
Proof.
  intros Hrec Hne Hd Hc Hs Hg He. pose proof (rmap_length _ _ _ He) as Hlen.
  assert (Hgen : ∀ r, r ∈ k → rec_Generation r = gen_first k).
  { intros r Hr. destruct k as [|y k]; [done|]. apply (Hg r y Hr). apply elem_of_cons. by left. }
  assert (Hto : seq_last k = to_uint64 (seq_first k + Z.of_nat (length evs) - 1)).
  { unfold seq_last. rewrite last_lookup. assert (Hl : (0 < length k)%nat) by (destruct k; [done|cbn; lia]).
    destruct (lookup_lt_is_Some_2 k (pred (length k))) as [y Hy]; [lia|]. rewrite Hy. cbn.
    rewrite (contiguous_lookup k _ y Hc Hs Hy), Hlen. f_equal. lia. }
  pose proof (numbered_run x k evs (gen_first k) (seq_first k) Hd He Hgen (λ i r, contiguous_lookup k i r Hc Hs)) as Hnum.
  unfold batch_frame, body_of. destruct (decide (enc_Algo compressor = COMPRESSION_NONE)); cbn.
  - intros [= <-]. cbn. by rewrite Hto, Z.eqb_refl, Hnum.
  - destruct (proto_marshal_events evs) as [raw|] eqn:Hm; cbn; [|done].
    destruct (enc_Encode compressor raw) as [c|] eqn:Hcomp; cbn; intros [= <-]; cbn.
    + rewrite (Hrec evs raw c Hm Hcomp). cbn. by rewrite Hto, Z.eqb_refl, Hnum.
    + by rewrite Hto, Z.eqb_refl, Hnum.
Qed.

Definition run_items (x : bool) (run : Run) : list Item :=
  match run with RunData k => mjoin (record_items x <$> k) | RunLoss loss => loss_items x loss end.

Lemma mjoin_cons {A B} (f : A → list B) x l : mjoin (f <$> x :: l) = f x ++ mjoin (f <$> l).
Proof. done. Qed.

Lemma group_items x l : mjoin (run_items x <$> group l) = mjoin (record_items x <$> l).
Proof.
  induction l as [|r l IH]; [done|]. rewrite mjoin_cons, <- IH. cbn [group]. unfold record_items at 1.
  destruct (rec_Kind r) eqn:Hk; [|done..]. unfold cons_data. destruct (group l) as [|[k|] g]; rewrite !mjoin_cons; cbn [run_items];
    rewrite ?mjoin_cons; unfold record_items at 1; rewrite Hk, ?app_nil_r, ?app_assoc; done.
Qed.

Lemma group_data_runs l k : RunData k ∈ group l → k ≠ [] ∧ Forall is_data k.
Proof.
  revert k. induction l as [|r l IH]; intros k; [by intros Hk%not_elem_of_nil|]. cbn. destruct (rec_Kind r) eqn:Hk.
  - unfold cons_data. destruct (group l) as [|[k'|] g]; (intros [[= ->]|Hin]%elem_of_cons; [split; [done|]|apply IH; try done]).
    + by constructor; [|constructor].
    + constructor; [done|]. apply IH. apply elem_of_cons. by left.
    + apply elem_of_cons. by right.
    + by constructor; [|constructor].
  - intros [?|Hin]%elem_of_cons; [done | by apply IH].
  - apply IH.
Qed.

(** The frame of a loss marker is a loss frame. *)
Lemma read_loss_frame x receive loss : read_messages receive (option_list (loss_frame x loss)) = Some (loss_items x loss).
Proof.
  unfold loss_items, loss_frame. destruct (ToWireReason (l_Reason loss)) as [w ok].
  by destruct (negb ok || _).
Qed.

Lemma read_messages_app receive m1 m2 x1 x2 : read_messages receive m1 = Some x1 → read_messages receive m2 = Some x2 →
  read_messages receive (m1 ++ m2) = Some (x1 ++ x2).
Proof.
  revert x1. induction m1 as [|m m1 IH]; intros x1; cbn [read_messages app]; [by intros [= <-]|].
  destruct (read_message receive m) as [y|]; cbn; [|done]. destruct (read_messages receive m1) as [ys|]; cbn; [|done].
  intros [= <-] H2. rewrite (IH ys eq_refl H2). cbn. by rewrite app_assoc.
Qed.

Lemma read_runs x compressor receive g msgs : receives compressor receive →
  (∀ k, RunData k ∈ g → k ≠ [] ∧ Forall is_data k ∧ contiguous k ∧ Forall seq_range k ∧
     (∀ r r', r ∈ k → r' ∈ k → rec_Generation r = rec_Generation r')) →
  emit_runs x compressor g = Ok msgs → read_messages receive msgs = Some (mjoin (run_items x <$> g)).
Proof.
  intros Hrec. revert msgs. induction g as [|run g IH]; intros msgs Hg; cbn [emit_runs]; [by intros [= <-]|].
  destruct (emit_run x compressor run) as [m|] eqn:Hm; cbn [rbind]; [|done].
  destruct (emit_runs x compressor g) as [ms|]; cbn [rbind]; [|done]. intros [= <-]. cbn.
  apply read_messages_app; [|apply IH; [|done]; intros k Hk; apply Hg, elem_of_cons; by right].
  destruct run as [k|loss]; cbn [emit_run] in Hm; [|injection Hm as <-; apply read_loss_frame].
  destruct (Hg k) as (Hne & Hd & Hc & Hs & Hgen); [apply elem_of_cons; by left|].
  destruct (rmap event_of k) as [evs|] eqn:He; cbn [rbind] in Hm; [|done].
  destruct (batch_frame compressor k evs) as [f|] eqn:Hf; cbn [rbind] in Hm; [|done]. injection Hm as <-. cbn.
  rewrite (read_batch_frame x compressor receive k evs f) by done. cbn. by rewrite app_nil_r.
Qed.

Lemma encode_faithful o l emitExtended compressor receive msgs :
  receives compressor receive → batch_ok o l → Forall (λ r, rec_Kind r ≠ RecordGenerationRoll) l → Forall seq_range l →
  (encodeBatchMessageWithCompressor l emitExtended compressor).1 = Ok msgs →
  read_messages receive msgs = Some (mjoin (record_items emitExtended <$> l)).
Proof.
  intros Hrec [Hne Hg Hc _ _] Hk Hs He. rewrite encode_ref in He. rewrite <- group_items.
  apply (read_runs emitExtended compressor); [done | | done]. intros k Hin. destruct (group_data_runs _ _ Hin) as [Hkne Hkd].
  destruct (group_runs l k Hk Hin) as (pre & post & ->). split_and!; [done | done | by eapply contiguous_infix | |].
  - apply Forall_app in Hs as [_ Hs]. by apply Forall_app in Hs as [Hs _].
  - intros r r' Hr Hr'. apply Hg; apply elem_of_app; right; apply elem_of_app; by left.
Qed.

(** C27. Encoding is faithful. A batch as the batcher makes it (one generation, no gap), with
    no generation-roll record, that the encoder accepts can be read back from the frames it becomes: with a
    receiver that can undo the compressor, the frames hold exactly the events of the
    batch under their own generation and sequence numbers, in order, with the loss
    markers at their places; the only records that do not appear are loss markers whose
    reason has no wire value or is an extended one while these are switched off. This
    holds whether the compressor worked, failed for some frame or is absent. *)
Theorem encode_roundtrip o l emitExtended compressor receive msgs :
  receives compressor receive → batch_ok o l → Forall (λ r, rec_Kind r ≠ RecordGenerationRoll) l → Forall seq_range l →
  (encodeBatchMessageWithCompressor l emitExtended compressor).1 = Ok msgs →
  read_messages receive msgs = Some (mjoin (record_items emitExtended <$> l)).
Proof. apply encode_faithful. Qed.

End encoding.

Arguments Item {_}.

(** ** A concrete run *)

(** One-byte events, a list of events as their bytes, compressors that keep the bytes. *)
#[local] Instance sample_lib : WtpLib := {|
  CompactEvent := ascii;
  proto_unmarshal_event := λ p, match p with [c] => Some c | _ => None end;
  proto_marshal_events := λ evs, Some evs;
  zstd_NewWriter := λ _, Some id;
  gzip_NewWriterLevel := λ _, Some Some;
|}.

Definition sample_rec (seq : Z) : WalRecord := data_record seq 1 ["a"%char].
Definition sample_zstd : Encoder := default newNoneEncoder (match newZstdEncoder 3 with Ok e => Some e | Err _ => None end).
Definition sample_receive (algo : Compression) (c : bytes) : option (list (CompactEvent (WtpLib := sample_lib))) := Some c.

Lemma encode_roundtrip_witness : ∃ msgs,
  (encodeBatchMessageWithCompressor [sample_rec 1; sample_rec 2] false sample_zstd).1 = Ok msgs ∧ length msgs = 1%nat ∧
  read_messages sample_receive msgs = Some (mjoin (record_items false <$> [sample_rec 1; sample_rec 2])).
Proof.
  eexists. split; [vm_compute; reflexivity|]. split; [reflexivity|].
  apply (encode_roundtrip (mkBatcherOptions 10 100 0) [sample_rec 1; sample_rec 2] false sample_zstd sample_receive).
  - intros evs raw c [= <-] [= <-]. reflexivity.
  - constructor; [done | | | vm_compute; congruence | right; vm_compute; congruence].
    + by intros r r' [->|[->|[]%not_elem_of_nil]%elem_of_cons]%elem_of_cons [->|[->|[]%not_elem_of_nil]%elem_of_cons]%elem_of_cons.
    + intros [|i] x y Hx Hy; [by injection Hx as <-; injection Hy as <-|]. destruct i; discriminate Hy.
  - by repeat constructor.
  - repeat constructor; vm_compute; congruence.
  - vm_compute. reflexivity.
Defined.

(** The encoder does not look for gaps: a replay batch is not made by the batcher, and
    when it holds the records 1 and 3 it becomes one event batch that says 1 to 3. *)
Theorem encode_spans_gap :
  encodeBatchMessage [sample_rec 1; sample_rec 3] false =
  Ok [MsgEventBatch (mkEventBatch 1 3 1 COMPRESSION_NONE (Uncompressed ["a"%char; "a"%char]))].
Proof. vm_compute. reflexivity. Qed.
