(* ===== verification/WtpAck.v ===== *)
(** * Acknowledgements and replay plans of the watchtower transport

    internal/store/watchtower/transport/transport.go: the two cursors (what is persisted
    as acknowledged, and what the server is believed to have), the clamp that decides
    which acknowledgements of the server to believe, and the plan of what to replay
    after a connection is made; with the two callers that persist an adopted
    acknowledgement (state_connecting.go, recv_multiplexer.go).

    The transport reaches the log through function fields. They are a record here, with
    the instance that [New] wires for an open log and the one for a nil log. Log lines are
    left out (with the rate limiter and the extra read that only feed them); metrics are
    kept as the list of calls made.

    The theorems: for any sequence of acknowledgements the persisted cursor never moves
    back, never passes the data of the log it was adopted against and never passes what
    the log has persisted; each acknowledgement has the outcome its tuple calls for; a
    replay plan reaches every record that is on disk and not covered by the server's
    cursor. *)

From S2P Require Import Prelude WalFrame WalFs Wal WalInv WalSpec WalRecover WalProps WalReader WalIndex WtpBatch.
Open Scope Z_scope.

(** ** The log as the transport sees it *)

Record WalFns (S : Type) := mkWalFns {
  fn_MarkAcked : Z → Z → M S OsErr unit;
  fn_WrittenDataHighWater : Z → M S WalErr (option Z);
  fn_EarliestDataSequence : Z → M S WalErr (option Z);
  fn_HighGeneration : S → Z;
  fn_HasDataBelowGeneration : Z → M S WalErr bool;
  fn_HasReplayableRecords : Z → M S WalErr bool;
}.
Arguments mkWalFns {S}.
Arguments fn_MarkAcked {S}.
Arguments fn_WrittenDataHighWater {S}.
Arguments fn_EarliestDataSequence {S}.
Arguments fn_HighGeneration {S}.
Arguments fn_HasDataBelowGeneration {S}.
Arguments fn_HasReplayableRecords {S}.

(** [New] with a log. *)
Definition wal_fns : WalFns (WAL * World) :=
  mkWalFns MarkAcked (λ gen s, (WrittenDataHighWater s.1 gen, s)) EarliestDataSequence (λ s, HighGeneration s.1)
           (λ gen s, (HasDataBelowGeneration s.1 gen, s)) (λ gen s, (HasReplayableRecords s.1 gen, s)).

(** [New] without one. *)
Definition nil_fns {S} : WalFns S :=
  mkWalFns (λ _ _, ret tt) (λ _, ret None) (λ _, ret None) (λ _, 0) (λ _, ret false) (λ _, ret false).

(** ** Cursors and outcomes *)

Record AckTuple := mkTuple { at_Sequence : Z; at_Generation : Z; at_Present : bool }.

Inductive AckOutcomeKind := AckOutcomeNoOp | AckOutcomeAdopted | AckOutcomeResendNeeded | AckOutcomeAnomaly.

#[export] Instance AckOutcomeKind_eq_dec : EqDecision AckOutcomeKind.
Proof. solve_decision. Defined.

Record AckOutcome := mkOutcome {
  ao_Kind : AckOutcomeKind;
  ao_PersistedTuple : AckCursor;
  ao_ReplayCursor : AckCursor;
  ao_PersistedAdvanced : bool;
  ao_AnomalyReason : string;
}.

Inductive AckMetric :=
| SetAckHighWatermark (seq : Z)
| IncAnomalousAck (reason : string)
| IncResendNeeded.

(** The cursor fields of [Transport], and the metrics calls made for them. *)
Record Acks := mkAcks {
  k_persistedAck : AckCursor;
  k_persistedAckPresent : bool;
  k_remoteReplayCursor : AckCursor;
  k_metrics : list AckMetric;
}.

Definition zero_cursor : AckCursor := mkCursor 0 0.

(** The seeding of the cursors in [New]. *)
Definition seed_acks (initial : option AckTuple) : Acks :=
  match initial with
  | Some a =>
      if at_Present a
      then let seed := mkCursor (at_Sequence a) (at_Generation a) in mkAcks seed true seed []
      else mkAcks zero_cursor false zero_cursor []
  | None => mkAcks zero_cursor false zero_cursor []
  end.

(** ** The clamp *)

Section clamp.
Context {S E : Type} (fns : WalFns S).

Definition AckM := M (Acks * S) E.

(** A call through one of the function fields, its error kept as a value. *)
Definition call {E' A} (m : M S E' A) : AckM (Result E' A) := λ s, (Ok (m s.2).1, (s.1, (m s.2).2)).

Definition anomaly (reason : string) : AckM AckOutcome := λ s,
  (Ok (mkOutcome AckOutcomeAnomaly (k_persistedAck s.1) (k_remoteReplayCursor s.1) false reason), s).

Definition adopt_tuple (server : AckCursor) : AckM AckOutcome := λ s,
  (Ok (mkOutcome AckOutcomeAdopted server server true ""), (mkAcks server true server (k_metrics s.1), s.2)).

Definition regress (server : AckCursor) : AckM AckOutcome := λ s,
  (Ok (mkOutcome AckOutcomeResendNeeded (k_persistedAck s.1) server false ""),
   (mkAcks (k_persistedAck s.1) (k_persistedAckPresent s.1) server (k_metrics s.1), s.2)).

Definition unmoved : AckM AckOutcome := λ s,
  (Ok (mkOutcome AckOutcomeNoOp (k_persistedAck s.1) (k_remoteReplayCursor s.1) false ""), s).

Definition applyServerAckTuple (serverGen serverSeq : Z) : AckM AckOutcome :=
  let server := mkCursor serverSeq serverGen in
  let* t := mget fst in
  if negb (k_persistedAckPresent t) then
    if serverSeq =? 0 then
      let* lower := call (fn_HasDataBelowGeneration fns serverGen) in
      match lower with
      | Err _ => anomaly "wal_read_failure"
      | Ok true => anomaly "server_ack_exceeds_local_data"
      | Ok false => adopt_tuple server
      end
    else
      let* hw := call (fn_WrittenDataHighWater fns serverGen) in
      match hw with
      | Err _ => anomaly "wal_read_failure"
      | Ok None => anomaly "unwritten_generation"
      | Ok (Some maxDataSeq) =>
          if maxDataSeq <? serverSeq then anomaly "server_ack_exceeds_local_data" else adopt_tuple server
      end
  else if serverGen <? ac_Generation (k_persistedAck t) then anomaly "stale_generation"
  else if ac_Generation (k_persistedAck t) <? serverGen then
    let* hw := call (fn_WrittenDataHighWater fns serverGen) in
    match hw with
    | Err _ => anomaly "wal_read_failure"
    | Ok None => anomaly "unwritten_generation"
    | Ok (Some maxDataSeq) =>
        if maxDataSeq <? serverSeq then anomaly "server_ack_exceeds_local_data" else adopt_tuple server
    end
  else if ac_Sequence (k_persistedAck t) <? serverSeq then
    let* hw := call (fn_WrittenDataHighWater fns serverGen) in
    match hw with
    | Err _ => anomaly "wal_read_failure"
    | Ok None => anomaly "server_ack_exceeds_local_seq"
    | Ok (Some maxDataSeq) =>
        if maxDataSeq <? serverSeq then anomaly "server_ack_exceeds_local_seq" else adopt_tuple server
    end
  else if serverSeq <? ac_Sequence (k_persistedAck t) then regress server
  else unmoved.

Definition count_ack (m : AckMetric) : AckM unit :=
  mput (λ s, (mkAcks (k_persistedAck s.1) (k_persistedAckPresent s.1) (k_remoteReplayCursor s.1) (k_metrics s.1 ++ [m]), s.2)).

(** Both cursors are put back as they were. *)
Definition roll_back (prior : Acks) : AckM unit :=
  mput (λ s, (mkAcks (k_persistedAck prior) (k_persistedAckPresent prior) (k_remoteReplayCursor prior) (k_metrics s.1), s.2)).

Definition applyAckFromRecv (serverGen serverSeq : Z) : AckM AckOutcomeKind :=
  let* prior := mget fst in
  let* outcome := applyServerAckTuple serverGen serverSeq in
  match ao_Kind outcome with
  | AckOutcomeAnomaly => do* count_ack (IncAnomalousAck (ao_AnomalyReason outcome)) in ret (ao_Kind outcome)
  | AckOutcomeAdopted =>
      let* t := mget fst in
      let* r := call (fn_MarkAcked fns (ac_Generation (k_persistedAck t)) (ac_Sequence (k_persistedAck t))) in
      match r with
      | Err _ => do* roll_back prior in ret AckOutcomeNoOp
      | Ok _ => do* count_ack (SetAckHighWatermark (ac_Sequence (k_persistedAck t))) in ret (ao_Kind outcome)
      end
  | AckOutcomeResendNeeded => do* count_ack IncResendNeeded in ret (ao_Kind outcome)
  | AckOutcomeNoOp => ret (ao_Kind outcome)
  end.

Definition ackSessionAck (serverGen serverSeq : Z) : AckM unit :=
  let* prior := mget fst in
  let* outcome := applyServerAckTuple serverGen serverSeq in
  match ao_Kind outcome with
  | AckOutcomeAnomaly => count_ack (IncAnomalousAck (ao_AnomalyReason outcome))
  | AckOutcomeAdopted =>
      let* t := mget fst in
      let* r := call (fn_MarkAcked fns (ac_Generation (k_persistedAck t)) (ac_Sequence (k_persistedAck t))) in
      match r with
      | Err _ => roll_back prior
      | Ok _ => count_ack (SetAckHighWatermark (ac_Sequence (k_persistedAck t)))
      end
  | AckOutcomeResendNeeded => count_ack IncResendNeeded
  | AckOutcomeNoOp => ret tt
  end.

End clamp.

(** ** Replay plans *)

Section plan.
Context {S : Type} (fns : WalFns S).

(** [gapStart], [earliestOnDisk] and the four cases. *)
Definition replay_start (earliest : option Z) (remoteReplayCursor persistedAck : AckCursor) : option LossRecord * Z :=
  let gapStart := to_uint64 (ac_Sequence remoteReplayCursor + 1) in
  match earliest with
  | Some earliestOnDisk =>
      if gapStart <? earliestOnDisk
      then (Some (mkLoss gapStart (to_uint64 (earliestOnDisk - 1)) (ac_Generation persistedAck) LossReasonAckRegressionAfterGC),
            earliestOnDisk)
      else (None, gapStart)
  | None =>
      if gapStart <=? ac_Sequence persistedAck
      then (Some (mkLoss gapStart (ac_Sequence persistedAck) (ac_Generation persistedAck) LossReasonAckRegressionAfterGC),
            gapStart)
      else (None, gapStart)
  end.

Definition computeReplayStart (remoteReplayCursor persistedAck : AckCursor) : M S WalErr (option LossRecord * Z) :=
  let* earliest := fn_EarliestDataSequence fns (ac_Generation persistedAck) in
  ret (replay_start earliest remoteReplayCursor persistedAck).

Record ReplayStage := mkStage {
  st_Generation : Z;
  st_StartSeq : Z;
  st_PrefixLoss : option LossRecord;
}.

Inductive PlanErr := ErrPlanWal (e : WalErr) | ErrPlanFuel.

Definition uint32_succ (n : Z) : Z := (n + 1) mod 2 ^ 32.

(** The loop over the later generations. *)
Fixpoint plan_loop (fuel : nat) (persistedGen highGen gen : Z) (stages : list ReplayStage) : M S PlanErr (list ReplayStage) :=
  match fuel with
  | O => merr ErrPlanFuel
  | Datatypes.S fuel =>
      if (gen <=? highGen) && (persistedGen <? gen) then
        let* haveAny := merr_map ErrPlanWal (fn_HasReplayableRecords fns gen) in
        plan_loop fuel persistedGen highGen (uint32_succ gen) (if haveAny : bool then stages ++ [mkStage gen 0 None] else stages)
      else ret stages
  end.

Definition computeReplayPlan (remoteReplayCursor persistedAck : AckCursor) : M S PlanErr (list ReplayStage) :=
  let* first := merr_map ErrPlanWal (computeReplayStart remoteReplayCursor persistedAck) in
  let '(prefixLoss, readerStart) := first in
  let stages := [mkStage (ac_Generation persistedAck) readerStart prefixLoss] in
  let* highGen := mget (fn_HighGeneration fns) in
  let gen := ac_Generation persistedAck in
  plan_loop (Datatypes.S (Z.to_nat (highGen - gen))) gen highGen (uint32_succ gen) stages.

End plan.

(** ** The outcome of the clamp *)

Section outcomes.
Context {E : Type}.
Notation apply g q := (applyServerAckTuple (E := E) wal_fns g q).

(** The local data reaches the tuple that is adopted. *)
Definition within_data (k : Acks) (w : WAL) (g q : Z) : Prop :=
  (k_persistedAckPresent k = false ∧ q = 0 ∧ HasDataBelowGeneration w g = Ok false) ∨
  ∃ h, WrittenDataHighWater w g = Ok (Some h) ∧ q ≤ h.

(** What the clamp does to the cursors, by outcome. *)
Definition clamp_spec (k : Acks) (w : WAL) (g q : Z) (out : AckOutcome) (k' : Acks) : Prop :=
  match ao_Kind out with
  | AckOutcomeAnomaly => k' = k ∧ ao_AnomalyReason out ≠ ""
  | AckOutcomeNoOp => k' = k ∧ k_persistedAckPresent k = true ∧ k_persistedAck k = mkCursor q g
  | AckOutcomeResendNeeded =>
      k_persistedAckPresent k = true ∧ g = ac_Generation (k_persistedAck k) ∧ q < ac_Sequence (k_persistedAck k) ∧
      k' = mkAcks (k_persistedAck k) true (mkCursor q g) (k_metrics k)
  | AckOutcomeAdopted =>
      (k_persistedAckPresent k = true → ¬ cursor_le (mkCursor q g) (k_persistedAck k)) ∧ within_data k w g q ∧
      k' = mkAcks (mkCursor q g) true (mkCursor q g) (k_metrics k)
  end.

#[local] Ltac clamp_done := do 2 eexists; split; [reflexivity|]; cbn; solve [done].

Lemma clamp_correct k s g q : ∃ out k', apply g q (k, s) = (Ok out, (k', s)) ∧ clamp_spec k s.1 g q out k'.
Proof.
  unfold applyServerAckTuple, bindM, mget, call, anomaly, adopt_tuple, regress, unmoved, clamp_spec, within_data, cursor_le.
  cbn [fst snd wal_fns fn_HasDataBelowGeneration fn_WrittenDataHighWater].
  destruct k as [[ps pg] [|] rc ms]; cbn [k_persistedAckPresent k_persistedAck negb ac_Generation ac_Sequence].
  - destruct (Z.ltb_spec g pg); [clamp_done|]. destruct (Z.ltb_spec pg g).
    + cbn [fst snd]. destruct (WrittenDataHighWater s.1 g) as [[h|]|]; [|clamp_done|clamp_done]. destruct (Z.ltb_spec h q); [clamp_done|].
      do 2 eexists. split; [done|]. cbn. split_and!; [lia | right; by exists h | done].
    + assert (g = pg) as -> by lia. destruct (Z.ltb_spec ps q).
      * cbn [fst snd]. destruct (WrittenDataHighWater s.1 pg) as [[h|]|]; [|clamp_done|clamp_done]. destruct (Z.ltb_spec h q); [clamp_done|].
        do 2 eexists. split; [done|]. cbn. split_and!; [lia | right; by exists h | done].
      * destruct (Z.ltb_spec q ps); [clamp_done|]. assert (q = ps) as -> by lia. clamp_done.
  - destruct (Z.eqb_spec q 0) as [->|Hq].
    + cbn [fst snd]. destruct (HasDataBelowGeneration s.1 g) as [[|]|]; [clamp_done | | clamp_done].
      do 2 eexists. split; [done|]. cbn. split_and!; [done | by left | done].
    + cbn [fst snd]. destruct (WrittenDataHighWater s.1 g) as [[h|]|]; [|clamp_done|clamp_done]. destruct (Z.ltb_spec h q); [clamp_done|].
      do 2 eexists. split; [done|]. cbn. split_and!; [done | right; by exists h | done].
Qed.

(** ** The cursors and the log *)

(** The cursors are either unset or ordered, of one generation, and not ahead of what
    the log has recorded as acknowledged. *)
Record AckInv (k : Acks) (m : AckMark) : Prop := mkAckInv {
  ai_absent : k_persistedAckPresent k = false → k_persistedAck k = zero_cursor ∧ k_remoteReplayCursor k = zero_cursor;
  ai_gen : ac_Generation (k_remoteReplayCursor k) = ac_Generation (k_persistedAck k);
  ai_le : ac_Sequence (k_remoteReplayCursor k) ≤ ac_Sequence (k_persistedAck k);
  ai_log : k_persistedAckPresent k = true → acked m (ac_Generation (k_persistedAck k)) (ac_Sequence (k_persistedAck k));
}.

(** The persisted cursor does not move back. *)
Definition acks_le (k k' : Acks) : Prop :=
  k_persistedAckPresent k = true → k_persistedAckPresent k' = true ∧ cursor_le (k_persistedAck k) (k_persistedAck k').

Lemma acks_le_refl k : acks_le k k.
Proof. intros Hp. split; [done | reflexivity]. Qed.
Lemma acks_le_trans k1 k2 k3 : acks_le k1 k2 → acks_le k2 k3 → acks_le k1 k3.
Proof. intros H12 H23 H1. destruct (H12 H1) as [H2 Hle]. destruct (H23 H2) as [H3 Hle']. split; [done | by etransitivity]. Qed.

Lemma ack_le_refl m : ack_le m m.
Proof. intros Hp. split; [done|]. right. split; [done|lia]. Qed.
Lemma ack_le_trans m1 m2 m3 : ack_le m1 m2 → ack_le m2 m3 → ack_le m1 m3.
Proof. unfold ack_le. intros H12 H23 H1. destruct (H12 H1) as [H2 Hle]. destruct (H23 H2) as [H3 Hle']. split; [done | lia]. Qed.

Lemma AckInv_metrics k m ms : AckInv k m → AckInv (mkAcks (k_persistedAck k) (k_persistedAckPresent k) (k_remoteReplayCursor k) ms) m.
Proof. intros []. by constructor. Qed.

Lemma AckInv_mono k m m' : ack_le m m' → AckInv k m → AckInv k m'.
Proof. intros Hle [H1 H2 H3 H4]. constructor; try done. intros Hp. by eapply ack_le_acked, H4. Qed.

(** What one acknowledgement does, from the server's stream or the handshake. *)
Definition ack_step (k : Acks) (s : WAL * World) (g q : Z) (kind : AckOutcomeKind) (k' : Acks) (s' : WAL * World) : Prop :=
  acks_le k k' ∧ ack_le (ack_of s.1) (ack_of s'.1) ∧ (AckInv k (ack_of s.1) → AckInv k' (ack_of s'.1)) ∧
  (kind = AckOutcomeAdopted →
     k_persistedAckPresent k' = true ∧ k_persistedAck k' = mkCursor q g ∧ k_remoteReplayCursor k' = mkCursor q g ∧ within_data k s.1 g q ∧
     (MarkAcked g q s).1 = Ok tt ∧ s' = (MarkAcked g q s).2) ∧
  (kind = AckOutcomeResendNeeded → k_persistedAck k' = k_persistedAck k ∧ k_remoteReplayCursor k' = mkCursor q g ∧ s' = s) ∧
  (kind = AckOutcomeNoOp ∨ kind = AckOutcomeAnomaly → k_persistedAck k' = k_persistedAck k ∧
     k_persistedAckPresent k' = k_persistedAckPresent k ∧ k_remoteReplayCursor k' = k_remoteReplayCursor k).

(** The step with the outcome the caller acts on: an adoption that could not be
    persisted is rolled back. *)
Definition dispatch (k : Acks) (s : WAL * World) (g q : Z) (out : AckOutcome) (k1 : Acks) : AckOutcomeKind * Acks * (WAL * World) :=
  match ao_Kind out with
  | AckOutcomeAnomaly => (AckOutcomeAnomaly, mkAcks (k_persistedAck k1) (k_persistedAckPresent k1) (k_remoteReplayCursor k1)
      (k_metrics k1 ++ [IncAnomalousAck (ao_AnomalyReason out)]), s)
  | AckOutcomeAdopted =>
      match MarkAcked g q s with
      | (Err _, s') => (AckOutcomeNoOp, mkAcks (k_persistedAck k) (k_persistedAckPresent k) (k_remoteReplayCursor k) (k_metrics k1), s')
      | (Ok _, s') => (AckOutcomeAdopted, mkAcks (k_persistedAck k1) (k_persistedAckPresent k1) (k_remoteReplayCursor k1)
          (k_metrics k1 ++ [SetAckHighWatermark q]), s')
      end
  | AckOutcomeResendNeeded => (AckOutcomeResendNeeded, mkAcks (k_persistedAck k1) (k_persistedAckPresent k1) (k_remoteReplayCursor k1)
      (k_metrics k1 ++ [IncResendNeeded]), s)
  | AckOutcomeNoOp => (AckOutcomeNoOp, k1, s)
  end.

Lemma dispatch_step k s g q out k1 : clamp_spec k s.1 g q out k1 →
  let '(kind, k', s') := dispatch k s g q out k1 in ack_step k s g q kind k' s'.
Proof.
  unfold clamp_spec, dispatch. destruct (ao_Kind out).
  - intros (-> & Hp & Hk). split_and!; [apply acks_le_refl | apply ack_le_refl | done..].
  - intros (Hle & Hd & ->). cbn [k_persistedAck k_persistedAckPresent k_remoteReplayCursor k_metrics].
    pose proof (MarkAcked_ack g q s) as Hm. destruct (MarkAcked g q s) as [[[]|e] s'] eqn:He; cbn [fst snd] in Hm;
      (split_and!; [| rewrite Hm; apply new_ack_le | | intros Hk; try done | intros Hk; try done | intros Hk; try done]).
    + intros Hp. cbn. split; [done|]. destruct (cursor_le_total (mkCursor q g) (k_persistedAck k)) as [Hc|Hc]; [by destruct (Hle Hp)|done].
    + intros _. constructor; cbn; try done. intros _. rewrite Hm. apply new_ack_acked.
    + rewrite He. by split_and!.
    + by destruct Hk.
    + exact (acks_le_refl k).
    + intros HI. apply AckInv_metrics. eapply AckInv_mono; [|exact HI]. rewrite Hm. apply new_ack_le.
  - intros (Hp & -> & Hlt & ->). split_and!; [| apply ack_le_refl | | done | done | by intros []].
    + intros _. split; [done | cbn; reflexivity].
    + intros [H1 H2 H3 H4]. constructor; cbn; [done | done | lia | intros _; by apply H4].
  - intros [-> _]. split_and!; [exact (acks_le_refl k) | apply ack_le_refl | apply AckInv_metrics | done..].
Qed.

Lemma applyAckFromRecv_dispatch k s g q :
  ∃ out k1, clamp_spec k s.1 g q out k1 ∧ applyAckFromRecv (E := E) wal_fns g q (k, s) =
    let '(kind, k', s') := dispatch k s g q out k1 in (Ok kind, (k', s')).
Proof.
  destruct (clamp_correct k s g q) as (out & k1 & Ha & Hc). exists out, k1. split; [done|].
  unfold applyAckFromRecv, dispatch. unfold bindM at 1, mget. cbn [fst]. unfold bindM at 1. rewrite Ha.
  unfold clamp_spec in Hc. destruct (ao_Kind out) eqn:Hk; try (unfold bindM, count_ack, mput, ret; cbn; by rewrite ?Hk).
  destruct Hc as (_ & _ & ->). unfold bindM, mget, call. cbn [fst snd wal_fns fn_MarkAcked k_persistedAck ac_Generation ac_Sequence].
  by destruct (MarkAcked g q s) as [[[]|e] s'].
Qed.

Lemma ackSessionAck_dispatch k s g q :
  ∃ out k1, clamp_spec k s.1 g q out k1 ∧ ackSessionAck (E := E) wal_fns g q (k, s) =
    let '(kind, k', s') := dispatch k s g q out k1 in (Ok tt, (k', s')).
Proof.
  destruct (clamp_correct k s g q) as (out & k1 & Ha & Hc). exists out, k1. split; [done|].
  unfold ackSessionAck, dispatch. unfold bindM at 1, mget. cbn [fst]. unfold bindM at 1. rewrite Ha.
  unfold clamp_spec in Hc. destruct (ao_Kind out) eqn:Hk; try (unfold bindM, count_ack, mput, ret; cbn; by rewrite ?Hk).
  destruct Hc as (_ & _ & ->). unfold bindM, mget, call. cbn [fst snd wal_fns fn_MarkAcked k_persistedAck ac_Generation ac_Sequence].
  by destruct (MarkAcked g q s) as [[[]|e] s'].
Qed.
End outcomes.

(** ** Any sequence of acknowledgements *)

(** An acknowledgement during a stream or at its start, or anything the log does on its
    own (appends, collection) in between. *)
Inductive AckEvent := AeRecv (g q : Z) (kind : AckOutcomeKind) | AeSession (g q : Z) | AeLog.

Inductive ack_run : Acks * (WAL * World) → list AckEvent → Acks * (WAL * World) → Prop :=
| ak_nil c : ack_run c [] c
| ak_recv c g q kind c1 es c2 : applyAckFromRecv (E := Empty_set) wal_fns g q c = (Ok kind, c1) → ack_run c1 es c2 →
    ack_run c (AeRecv g q kind :: es) c2
| ak_session c g q c1 es c2 : ackSessionAck (E := Empty_set) wal_fns g q c = (Ok tt, c1) → ack_run c1 es c2 →
    ack_run c (AeSession g q :: es) c2
| ak_log k s s1 es c2 : ack_of s1.1 = ack_of s.1 → ack_run (k, s1) es c2 → ack_run (k, s) (AeLog :: es) c2.

Lemma recv_step k s g q kind k' s' : applyAckFromRecv (E := Empty_set) wal_fns g q (k, s) = (Ok kind, (k', s')) →
  ack_step k s g q kind k' s'.
Proof.
  intros Hr. destruct (applyAckFromRecv_dispatch (E := Empty_set) k s g q) as (out & k1 & Hc & Ha).
  pose proof (dispatch_step _ _ _ _ _ _ Hc) as Hd. rewrite Hr in Ha. destruct (dispatch k s g q out k1) as [[kind' k2] s2].
  injection Ha as <- <- <-. exact Hd.
Qed.

Lemma session_step k s g q k' s' : ackSessionAck (E := Empty_set) wal_fns g q (k, s) = (Ok tt, (k', s')) →
  ∃ kind, ack_step k s g q kind k' s'.
Proof.
  intros Hr. destruct (ackSessionAck_dispatch (E := Empty_set) k s g q) as (out & k1 & Hc & Ha).
  pose proof (dispatch_step _ _ _ _ _ _ Hc) as Hd. rewrite Hr in Ha. destruct (dispatch k s g q out k1) as [[kind' k2] s2].
  injection Ha as <- <-. by exists kind'.
Qed.

Lemma ack_run_safe c es c' : ack_run c es c' → AckInv c.1 (ack_of c.2.1) →
  AckInv c'.1 (ack_of c'.2.1) ∧ acks_le c.1 c'.1 ∧ ack_le (ack_of c.2.1) (ack_of c'.2.1).
Proof.
  induction 1 as [c | [k s] g q kind [k1 s1] es c2 Hr _ IH | [k s] g q [k1 s1] es c2 Hr _ IH | k s s1 es c2 Hk _ IH];
    cbn [fst snd] in *; intros HI.
  - split_and!; [done | apply acks_le_refl | apply ack_le_refl].
  - destruct (recv_step _ _ _ _ _ _ _ Hr) as (Hle & Hlog & HI1 & _). destruct (IH (HI1 HI)) as (? & ? & ?).
    split_and!; [done | by eapply acks_le_trans | by eapply ack_le_trans].
  - destruct (session_step _ _ _ _ _ _ Hr) as (kind & Hle & Hlog & HI1 & _). destruct (IH (HI1 HI)) as (? & ? & ?).
    split_and!; [done | by eapply acks_le_trans | by eapply ack_le_trans].
  - rewrite Hk in IH. by apply IH.
Qed.

(** Where the cursors come from: the acknowledgement recorded in the log. *)
Definition tuple_of (m : AckMark) : AckTuple := mkTuple (ak_seq m) (ak_gen m) (ak_present m).

Lemma seed_inv m : AckInv (seed_acks (Some (tuple_of m))) m.
Proof.
  unfold seed_acks, tuple_of. cbn. destruct (ak_present m) eqn:Hp; constructor; cbn; try done; try lia.
  intros _. split; [done|]. right. split; [done | lia].
Qed.

(** C17. Acknowledgements are safe whatever the server sends. Start from the cursors New
    seeds with the acknowledgement the log has recorded, and let any acknowledgements
    arrive in any order during any changes of the log, with any system call failing. The
    persisted cursor never moves back and is never ahead of what the log has recorded;
    the replay cursor stays at or below it in the same generation; and the log's own
    watermark never moves back. *)
Theorem ack_cursors_safe s es k' s' :
  ack_run (seed_acks (Some (tuple_of (ack_of s.1))), s) es (k', s') →
  AckInv k' (ack_of s'.1) ∧ acks_le (seed_acks (Some (tuple_of (ack_of s.1)))) k' ∧ ack_le (ack_of s.1) (ack_of s'.1).
Proof. intros Hrun. exact (ack_run_safe _ _ _ Hrun (seed_inv _)). Qed.

(** What an acknowledgement does depends on its outcome alone, and an adopted one is
    justified. If the outcome reported to the sender is Adopted then the tuple was past
    the persisted cursor, the log had data of that generation up to the sequence number
    (or, for the very first tuple, no data below the generation and the number is 0), the
    log recorded it without an error, and both cursors are the tuple; if it is
    ResendNeeded only the replay cursor moved, to the tuple, and the log is untouched;
    otherwise no cursor moved. *)
Theorem ack_outcomes k s g q kind k' s' :
  applyAckFromRecv (E := Empty_set) wal_fns g q (k, s) = (Ok kind, (k', s')) →
  match kind with
  | AckOutcomeAdopted => (k_persistedAckPresent k = true → ¬ cursor_le (mkCursor q g) (k_persistedAck k)) ∧ within_data k s.1 g q ∧
      MarkAcked g q s = (Ok tt, s') ∧ k_persistedAckPresent k' = true ∧ k_persistedAck k' = mkCursor q g ∧ k_remoteReplayCursor k' = mkCursor q g
  | AckOutcomeResendNeeded => s' = s ∧ k_persistedAckPresent k = true ∧ k_persistedAck k' = k_persistedAck k ∧
      g = ac_Generation (k_persistedAck k) ∧ q < ac_Sequence (k_persistedAck k) ∧ k_remoteReplayCursor k' = mkCursor q g
  | _ => k_persistedAck k' = k_persistedAck k ∧ k_persistedAckPresent k' = k_persistedAckPresent k ∧
      k_remoteReplayCursor k' = k_remoteReplayCursor k
  end.
Proof.
  intros Hr. destruct (applyAckFromRecv_dispatch (E := Empty_set) k s g q) as (out & k1 & Hc & Ha). rewrite Hr in Ha.
  unfold dispatch, clamp_spec in *. destruct (ao_Kind out).
  - injection Ha as -> -> ->. by destruct Hc as (-> & _).
  - destruct Hc as (Hle & Hd & ->). destruct (MarkAcked g q s) as [[[]|e] s2] eqn:Hm; injection Ha as -> -> ->; done.
  - injection Ha as -> -> ->. by destruct Hc as (? & ? & ? & ->).
  - injection Ha as -> -> ->. by destruct Hc as (-> & _).
Qed.

(** ** What a replay plan reaches *)

(** The generations above [gen] that have anything to replay. *)
Definition later_gens (w : WAL) (gen : Z) : list Z :=
  List.filter (λ g, bool_decide (g ∈ w_perGenAnyReplayable w)) (seqZ gen (w_highGen w - gen + 1)).

Lemma later_gens_elem w gen g : g ∈ later_gens w gen ↔ gen ≤ g ≤ w_highGen w ∧ g ∈ w_perGenAnyReplayable w.
Proof.
  unfold later_gens. rewrite list_elem_of_In, List.filter_In, <- list_elem_of_In, elem_of_seqZ, bool_decide_eq_true.
  split; intros [Hr Hin]; (split; [lia | exact Hin]).
Qed.

Lemma later_gens_sorted w gen : StronglySorted Z.lt (later_gens w gen).
Proof.
  unfold later_gens. generalize (w_highGen w - gen + 1) as n. intros n. destruct (Z.le_gt_cases n 0) as [Hn|Hn]; [rewrite seqZ_nil by lia; constructor|].
  rewrite <- (Z2Nat.id n) by lia. generalize (Z.to_nat n) as k. clear. intros k. revert gen.
  induction k as [|k IH]; intros gen; [rewrite seqZ_nil by lia; constructor|].
  rewrite seqZ_cons, Nat2Z.inj_succ, Z.pred_succ by lia. cbn [List.filter].
  destruct (bool_decide _); [|apply IH]. constructor; [apply IH|]. apply Forall_forall. intros g Hg.
  apply list_elem_of_In, List.filter_In in Hg as [Hg _]. apply list_elem_of_In, elem_of_seqZ in Hg. lia.
Qed.

Lemma plan_loop_ok s pg : w_closed s.1 = false → 0 ≤ pg → w_highGen s.1 < 2 ^ 32 → ∀ fuel gen acc, pg < gen ≤ 2 ^ 32 →
  (Z.to_nat (w_highGen s.1 - gen + 1) < fuel)%nat →
  plan_loop wal_fns fuel pg (w_highGen s.1) (gen mod 2 ^ 32) acc s = (Ok (acc ++ ((λ g, mkStage g 0 None) <$> later_gens s.1 gen)), s).
Proof.
  intros Hc Hpg Hh. induction fuel as [|fuel IH]; intros gen acc Hgen Hfuel; [lia|]. cbn [plan_loop]. unfold later_gens.
  destruct (Z.eq_dec gen (2 ^ 32)) as [->|Hne].
  { rewrite Z_mod_same_full, (proj2 (Z.ltb_ge pg 0)), andb_false_r, seqZ_nil by lia. by rewrite app_nil_r. }
  rewrite (Z.mod_small gen) by lia. rewrite (proj2 (Z.ltb_lt pg gen)), andb_true_r by lia.
  destruct (Z.leb_spec gen (w_highGen s.1)) as [Hle|Hgt]; [|rewrite seqZ_nil by lia; by rewrite app_nil_r].
  unfold bindM at 1, merr_map. cbn [wal_fns fn_HasReplayableRecords]. unfold HasReplayableRecords. rewrite Hc. cbn [fst snd].
  unfold uint32_succ. rewrite (IH (gen + 1)) by lia. unfold later_gens.
  rewrite (seqZ_cons gen) by lia. replace (Z.pred (w_highGen s.1 - gen + 1)) with (w_highGen s.1 - (gen + 1) + 1) by lia.
  change (Z.succ gen) with (gen + 1). cbn [List.filter].
  destruct (bool_decide _); [by rewrite <- app_assoc | done].
Qed.

(** The record is past the cursor: of a later generation, or of the same one and a
    marker or a larger sequence number. *)
Definition beyond (rc : AckCursor) (g : Z) (r : ARec) : Prop :=
  ac_Generation rc < g ∨ (g = ac_Generation rc ∧ match r with AUser q _ => ac_Sequence rc < q | ALoss _ => True end).

(** The reader of some stage returns the record. *)
Definition reached (L : Slots) (stages : list ReplayStage) (g : Z) (r : ARec) : Prop :=
  ∃ st d, st ∈ stages ∧ st_Generation st = g ∧ deliver g (st_StartSeq st) r = Some d ∧ d ∈ outs g (st_StartSeq st) L.

(** The loss announced with the first stage: it starts right after the cursor and no
    record of its range is on disk. *)
Definition loss_exact (L : Slots) (rc : AckCursor) (l : LossRecord) : Prop :=
  l_Generation l = ac_Generation rc ∧ l_FromSequence l = ac_Sequence rc + 1 ∧ l_FromSequence l ≤ l_ToSequence l ∧
  ∀ q p, has_rec L (ac_Generation rc) (AUser q p) → ¬ l_FromSequence l ≤ q ≤ l_ToSequence l.

Lemma outs_elem g start L x r d : x ∈ L → a_gen x.1 = g → r ∈ a_recs x.1 → deliver g start r = Some d → d ∈ outs g start L.
Proof.
  intros Hx Hg Hr Hd. apply list_elem_of_join. exists (seg_out g start x.1). split.
  - unfold seg_out. rewrite Hg, Z.eqb_refl. apply list_elem_of_omap. by exists r.
  - apply list_elem_of_fmap. by exists x.
Qed.

Lemma reached_by L stages st x r : st ∈ stages → x ∈ L → st_Generation st = a_gen x.1 → r ∈ a_recs x.1 →
  (∀ q p, r = AUser q p → st_StartSeq st ≤ q) → reached L stages (a_gen x.1) r.
Proof.
  intros Hst Hx Hg Hr Hs. assert (Hd : is_Some (deliver (a_gen x.1) (st_StartSeq st) r)).
  { destruct r as [q p|l]; [|eauto]. cbn. rewrite (proj2 (Z.ltb_ge q _)); [eauto | by eapply Hs]. }
  destruct Hd as [d Hd]. exists st, d. split_and!; [done..|]. by eapply outs_elem.
Qed.

Lemma user_range max o L s g q : Indexed max o L s → q ∈ gen_users g L → 0 ≤ q < 2 ^ 63.
Proof.
  intros [HL _ _] (x & Hx & _ & Hq)%gen_users_elem. destruct (has_rec_user _ _ Hq) as [p Hp].
  destruct (Rep_wf _ _ _ _ (iv_rep _ _ _ _ _ _ _ _ _ _ (ls_inv _ _ _ _ HL)) Hx) as (_ & _ & _ & Hf).
  rewrite Forall_forall in Hf. destruct (Hf _ Hp) as [_ Hr]. tauto.
Qed.

(** The first stage. *)
Lemma replay_start_ok max o L s rc pa loss start : Indexed max o L s → ac_Generation rc = ac_Generation pa → 0 ≤ ac_Sequence rc < 2 ^ 64 - 1 →
  replay_start (head (gen_users (ac_Generation pa) L)) rc pa = (loss, start) →
  0 ≤ start ∧ (∀ q p, has_rec L (ac_Generation rc) (AUser q p) → ac_Sequence rc < q → start ≤ q) ∧ ∀ l, loss = Some l → loss_exact L rc l.
Proof.
  intros HIx Hg Hs. unfold replay_start, to_uint64. rewrite (Z.mod_small (ac_Sequence rc + 1)) by lia. rewrite <- Hg.
  assert (Hfirst : ∀ q p, has_rec L (ac_Generation rc) (AUser q p) → ∃ e, head (gen_users (ac_Generation rc) L) = Some e ∧ e ≤ q).
  { intros q p Hr. destruct (Indexed_first _ _ _ _ _ _ HIx (has_rec_users _ _ _ _ Hr)) as (e & ? & ? & _). by exists e. }
  destruct (head (gen_users (ac_Generation rc) L)) as [e|] eqn:He.
  - assert (Hr : 0 ≤ e < 2 ^ 63). { apply (user_range max o L s (ac_Generation rc)); [done|]. by apply head_Some_elem_of. }
    destruct (Z.ltb_spec (ac_Sequence rc + 1) e) as [Hlt|Hge]; intros [= <- <-].
    + split; [lia|]. split; [intros q p (? & [= <-] & ?)%Hfirst; lia|]. intros l [= <-]. unfold loss_exact. cbn. rewrite Z.mod_small by lia.
      split_and!; [done | done | lia|]. intros q p (? & [= <-] & ?)%Hfirst. lia.
    + split; [lia|]. split; [intros q p _; lia | done].
  - destruct (Z.leb_spec (ac_Sequence rc + 1) (ac_Sequence pa)) as [Hle|Hgt]; intros [= <- <-].
    + split; [lia|]. split; [by intros q p (? & ? & ?)%Hfirst|]. intros l [= <-]. unfold loss_exact. cbn.
      split_and!; [done.. |]. by intros q p (? & ? & ?)%Hfirst.
    + split; [lia|]. split; [intros q p _; lia | done].
Qed.

Lemma plan_reaches max o L s rc pa :
  Indexed max o L s → ac_Generation rc = ac_Generation pa → 0 ≤ ac_Generation pa < 2 ^ 32 → HighGeneration s.1 < 2 ^ 32 →
  0 ≤ ac_Sequence rc < 2 ^ 64 - 1 →
  ∃ st stages, computeReplayPlan wal_fns rc pa s = (Ok (st :: stages), s) ∧ st_Generation st = ac_Generation pa ∧ 0 ≤ st_StartSeq st ∧
    StronglySorted Z.lt (st_Generation <$> st :: stages) ∧
    Forall (λ st, st_StartSeq st = 0 ∧ st_PrefixLoss st = None) stages ∧
    (∀ l, st_PrefixLoss st = Some l → loss_exact L rc l) ∧
    ∀ g r, has_rec L g r → beyond rc g r → reached L (st :: stages) g r.
Proof.
  intros HIx Hg Hpg Hh Hs. pose proof HIx as [HL _ HC]. pose proof (iv_closed _ _ _ _ _ _ _ _ _ _ (ls_inv _ _ _ _ HL)) as Hc.
  destruct (replay_start (head (gen_users (ac_Generation pa) L)) rc pa) as [loss start] eqn:Hst.
  destruct (replay_start_ok max o L s rc pa loss start HIx Hg Hs Hst) as (Hpos & Hfirst & Hloss).
  exists (mkStage (ac_Generation pa) start loss), ((λ g, mkStage g 0 None) <$> later_gens s.1 (ac_Generation pa + 1)).
  split_and!.
  - unfold computeReplayPlan, computeReplayStart, bindM at 1, merr_map, bindM at 1. cbn [wal_fns fn_EarliestDataSequence].
    rewrite (Indexed_earliest max o L s) by done. cbn [fst snd ret]. rewrite Hst. unfold bindM, mget. cbn [wal_fns fn_HighGeneration].
    unfold HighGeneration, uint32_succ in *. by rewrite plan_loop_ok by (done || lia).
  - done.
  - exact Hpos.
  - cbn [fmap list_fmap st_Generation]. rewrite <- list_fmap_compose. rewrite list_fmap_id. constructor; [apply later_gens_sorted|].
    apply Forall_forall. intros g Hgl%later_gens_elem. lia.
  - apply Forall_fmap, Forall_forall. by intros g _.
  - exact Hloss.
  - intros g r (x & Hx & <- & Hr) [Hlt|[Heq Hq]].
    + destruct HC as [_ _ Htop _ Hany]. rewrite Forall_forall in Htop. specialize (Htop x Hx).
      apply (reached_by L _ (mkStage (a_gen x.1) 0 None)); [|done..|].
      * apply elem_of_cons. right. apply list_elem_of_fmap. exists (a_gen x.1). split; [done|]. apply later_gens_elem. split; [lia|].
        apply Hany; [done|]. intros Hn. rewrite Hn in Hr. by apply not_elem_of_nil in Hr.
      * intros q p ->. cbn. destruct (user_range max o L s (a_gen x.1) q HIx); [|lia]. eapply has_rec_users. by exists x.
    + apply (reached_by L _ (mkStage (ac_Generation pa) start loss)); [apply elem_of_cons; by left | done | cbn; congruence | done|].
      intros q p ->. cbn. eapply Hfirst; [exists x; split_and!; try done | done].
Qed.

(** C24. A replay plan reaches everything the server is missing. On a log whose index is
    complete and cursors of one generation, computeReplayPlan returns without an error,
    for any number of generations: the stages are of strictly increasing generations,
    starting with the cursor's; every record on disk past the server's cursor, of any
    generation, is among those the reader of its generation's stage returns, and later
    generations are read from their beginning; and a prefix loss names a non-empty range
    right after the cursor of which nothing is on disk. *)
Theorem replay_plan_complete max o L s rc pa :
  Indexed max o L s → ac_Generation rc = ac_Generation pa → 0 ≤ ac_Generation pa < 2 ^ 32 → HighGeneration s.1 < 2 ^ 32 →
  0 ≤ ac_Sequence rc < 2 ^ 64 - 1 →
  ∃ st stages, computeReplayPlan wal_fns rc pa s = (Ok (st :: stages), s) ∧ st_Generation st = ac_Generation pa ∧ 0 ≤ st_StartSeq st ∧
    StronglySorted Z.lt (st_Generation <$> st :: stages) ∧
    Forall (λ st, st_StartSeq st = 0 ∧ st_PrefixLoss st = None) stages ∧
    (∀ l, st_PrefixLoss st = Some l → loss_exact L rc l) ∧
    ∀ g r, has_rec L g r → beyond rc g r → reached L (st :: stages) g r.
Proof. apply plan_reaches. Qed.

(** ** Concrete runs *)

Definition fresh_acks (s : WAL * World) : Acks := seed_acks (Some (tuple_of (ack_of s.1))).

(** The server acknowledges the one record of the log. *)
Definition after_ack : Acks * (WAL * World) := (applyAckFromRecv (E := Empty_set) wal_fns 1 1 (fresh_acks s1, s1)).2.

Lemma after_ack_run : applyAckFromRecv (E := Empty_set) wal_fns 1 1 (fresh_acks s1, s1) = (Ok AckOutcomeAdopted, after_ack).
Proof. vm_compute. reflexivity. Qed.

Lemma ack_cursors_safe_witness :
  let k' := after_ack.1 in let s' := after_ack.2 in
  ack_run (fresh_acks s1, s1) [AeRecv 1 1 AckOutcomeAdopted] (k', s') ∧ k_persistedAck k' = mkCursor 1 1 ∧
  AckInv k' (ack_of s'.1) ∧ acks_le (fresh_acks s1) k' ∧ ack_le (ack_of s1.1) (ack_of s'.1).
Proof.
  cbv zeta.
  assert (Hrun : ack_run (fresh_acks s1, s1) [AeRecv 1 1 AckOutcomeAdopted] (after_ack.1, after_ack.2)).
  { eapply ak_recv; [exact after_ack_run|]. destruct after_ack. apply ak_nil. }
  split; [exact Hrun|]. split; [vm_compute; reflexivity|]. exact (ack_cursors_safe s1 _ _ _ Hrun).
Defined.

Lemma ack_outcomes_witness :
  applyAckFromRecv (E := Empty_set) wal_fns 1 1 (fresh_acks s1, s1) = (Ok AckOutcomeAdopted, (after_ack.1, after_ack.2)) ∧
  within_data (fresh_acks s1) s1.1 1 1 ∧ MarkAcked 1 1 s1 = (Ok tt, after_ack.2).
Proof.
  assert (Hr : applyAckFromRecv (E := Empty_set) wal_fns 1 1 (fresh_acks s1, s1) = (Ok AckOutcomeAdopted, (after_ack.1, after_ack.2))).
  { rewrite after_ack_run. by destruct after_ack. }
  split; [exact Hr|]. pose proof (ack_outcomes _ _ _ _ _ _ _ Hr) as (_ & Hd & Hm & _). by split.
Defined.

Lemma s1_indexed : ∃ L, Indexed 84 o0 L s1.
Proof.
  destruct (Indexed_append 84 o0 [] s0 1 1 p0) as (b & s' & L' & Happ & HL');
    [exact s0_indexed | vm_compute; reflexivity | exact empty_appendable | vm_compute; discriminate|].
  exists L'. assert (Hs : (Append 1 1 p0 s0).2 = s1) by (vm_compute; reflexivity). rewrite Happ in Hs. cbn in Hs. by subst s'.
Qed.

Lemma replay_plan_complete_witness : ∃ L, Indexed 84 o0 L s1 ∧
  ∃ st stages, computeReplayPlan wal_fns (mkCursor 0 1) (mkCursor 0 1) s1 = (Ok (st :: stages), s1) ∧ st_Generation st = 1 ∧ 0 ≤ st_StartSeq st ∧
    StronglySorted Z.lt (st_Generation <$> st :: stages) ∧
    Forall (λ st, st_StartSeq st = 0 ∧ st_PrefixLoss st = None) stages ∧
    (∀ l, st_PrefixLoss st = Some l → loss_exact L (mkCursor 0 1) l) ∧
    ∀ g r, has_rec L g r → beyond (mkCursor 0 1) g r → reached L (st :: stages) g r.
Proof.
  destruct s1_indexed as [L HL]. exists L. split; [exact HL|].
  apply (replay_plan_complete 84 o0 L s1 (mkCursor 0 1) (mkCursor 0 1)); [exact HL | reflexivity | cbn; lia | vm_compute; reflexivity | cbn; lia].
Defined.

(** With one record in each of three generations and nothing acknowledged, the tuple
    (3, 0) is refused as the first acknowledgement because the older generations have
    data; after an acknowledgement of (1, 0) the same tuple is adopted, and the records
    of generations 1 and 2 are collected although no sequence number of theirs was
    acknowledged. *)
Theorem later_generation_zero_adopted :
  let first := applyAckFromRecv (E := Empty_set) wal_fns 3 0 (fresh_acks three_gens, three_gens) in
  let c1 := (applyAckFromRecv (E := Empty_set) wal_fns 1 0 (fresh_acks three_gens, three_gens)).2 in
  let second := applyAckFromRecv (E := Empty_set) wal_fns 3 0 c1 in
  first.1 = Ok AckOutcomeAnomaly ∧ second.1 = Ok AckOutcomeAdopted ∧
  EarliestDataSequence 1 c1.2 = (Ok (Some 1), c1.2) ∧ EarliestDataSequence 2 c1.2 = (Ok (Some 2), c1.2) ∧
  (EarliestDataSequence 1 second.2.2).1 = Ok None ∧ (EarliestDataSequence 2 second.2.2).1 = Ok None.
Proof. vm_compute. repeat split; reflexivity. Qed.

(** The plan from (0, 1) on that log: three stages. *)
Lemma three_gens_plan : (computeReplayPlan wal_fns (mkCursor 0 1) (mkCursor 0 1) three_gens).1 =
  Ok [mkStage 1 1 None; mkStage 2 0 None; mkStage 3 0 None].
Proof. vm_compute. reflexivity. Qed.
