(* ===== verification/WtpSession.v ===== *)
(** * Sessions of the watchtower transport

    internal/store/watchtower/transport: the run loop ([Run] in transport.go) and its
    states (state_connecting.go, state_replaying.go with replayer.go, state_live.go,
    state_shutdown.go), the goroutine that receives from the server
    (recv_multiplexer.go), [Stop], and policy pushes (policy_install.go).

    The transport's goroutine is written as the code is, in a state monad. Everything
    that happens beside it, appends to the log, frames from the server, steps of the
    receiving goroutine, cancellation, [Stop], timers, comes from a script: before each
    read of the log and at each select the next turn of the script is played, so any
    interleaving at these points is some script. A turn also picks the arm of a select
    among the ones that are ready, as the runtime may. Dials and failing sends come from
    oracles in the state. [v_read] is a history variable: the records read through the
    current reader.

    A loop that is not structural takes fuel; running out of it, blocking for ever with
    no script left, and a nil connection (a panic) are the errors of the monad. Log lines
    are left out, and the length of a backoff, which only decides how long the wait for
    the next turn is.

    The theorems: the run loop never leaks a connection or a receiver and never touches a
    nil one; every connection starts with a SessionInit that carries the persisted
    cursor and nothing is sent before the server has accepted it; while Live the frames on the
    wire are the encodings, in order, of the records read so far except those still in
    the batcher; replay without interference ends and sends everything of its stage. *)

From S2P Require Import Prelude WalFrame WalFs Wal WalInv WalSpec WalRecover WalProps WalReader WalIndex WtpBatch WtpAck.
Open Scope Z_scope.

(** ** Frames *)

Inductive HashAlgorithm := HASH_ALGORITHM_UNSPECIFIED | HASH_ALGORITHM_HMAC_SHA256 | HASH_ALGORITHM_HMAC_SHA512.

#[export] Instance HashAlgorithm_eq_dec : EqDecision HashAlgorithm.
Proof. solve_decision. Defined.

Record SessionInit (C : Type) := mkSessionInit {
  si_SessionId : string;
  si_OcsfVersion : string;
  si_FormatVersion : Z;
  si_Algorithm : HashAlgorithm;
  si_KeyFingerprint : string;
  si_ContextDigest : string;
  si_WalHighWatermarkSeq : Z;
  si_Generation : Z;
  si_AgentId : string;
  si_AgentVersion : string;
  si_TotalChained : Z;
  si_DecisionContext : option C;
}.
Arguments mkSessionInit {C}.
Arguments si_WalHighWatermarkSeq {C}.
Arguments si_Generation {C}.
Arguments si_SessionId {C}.

Record PolicyPushed := mkPolicyPushed {
  pp_PolicyID : string;
  pp_PolicyVersion : Z;
  pp_ContentHash : string;
  pp_Content : bytes;
  pp_Signature : bytes;
  pp_SignerKeyID : string;
  pp_OverlayIDs : list string;
}.

(** The PolicyPush frame; SessionAck has the same policy fields. *)
Record PolicyPush := mkPolicyPush {
  wp_PolicyId : string;
  wp_PolicyVersion : Z;
  wp_PolicyContentHash : string;
  wp_PolicyContent : bytes;
  wp_PolicySignature : bytes;
  wp_PolicySignerKeyId : string;
  wp_OverlayIds : list string;
}.

Record SessionAck := mkSessionAck {
  sa_Accepted : bool;
  sa_RejectReason : string;
  sa_Generation : Z;
  sa_AckHighWatermarkSeq : Z;
  sa_Policy : PolicyPush;
}.

Inductive ServerMessage :=
| SmSessionAck (a : SessionAck)
| SmBatchAck (gen seq : Z)
| SmServerHeartbeat (gen seq : Z)
| SmPolicyPush (p : PolicyPush)
| SmGoaway
| SmServerUpdate
| SmUnknown.

(** The generated protocol package: validation of frames ([None]: valid; an error may
    carry a reason). *)
Class WtpWire := {
  DecisionContext : Type;
  ValidateSessionInit : SessionInit DecisionContext → bool;
  ValidateServerMessage : ServerMessage → option (option string);
}.

Inductive ClientMessage `{WtpLib, WtpWire} := CmSessionInit (i : SessionInit DecisionContext) | CmData (m : DataMessage).

(** Errors of a connection: the sentinel, a gRPC status, anything else. *)
Inductive ConnErr := CeAuthRejected | CeStatus (code : Z) | CeOther.

Definition code_PermissionDenied : Z := 7.
Definition code_Unauthenticated : Z := 16.

Definition IsAuthReject (e : ConnErr) : bool :=
  match e with
  | CeAuthRejected => true
  | CeStatus code => (code =? code_Unauthenticated) || (code =? code_PermissionDenied)
  | CeOther => false
  end.

Definition fromWirePolicyPush (p : PolicyPush) : PolicyPushed :=
  mkPolicyPushed (wp_PolicyId p) (wp_PolicyVersion p) (wp_PolicyContentHash p) (wp_PolicyContent p)
                 (wp_PolicySignature p) (wp_PolicySignerKeyId p) (wp_OverlayIds p).

(** ** State *)

Inductive State := StateConnecting | StateReplaying | StateLive | StateShutdown.

#[export] Instance State_eq_dec : EqDecision State.
Proof. solve_decision. Defined.

(** Values of type error that the states return. *)
Inductive TErr :=
| ErrInvalidSessionInit
| ErrDialAuth
| ErrDial
| ErrSendSessionInit
| ErrRecvSessionAckAuth
| ErrRecvSessionAck
| ErrExpectedSessionAck
| ErrSessionRejected (reason : string)
| ErrRecvConn (e : ConnErr)
| ErrRecvInvalid (frame : string)
| ErrRecvControl (frame : string)
| ErrCtx
| ErrReaderNext (e : ReaderErr)
| ErrReaderFactory (e : ReaderErr)
| ErrReplayerTail (e : WalErr)
| ErrEncode (e : EncodeErr)
| ErrSend
| ErrTransportSingleUse.

(** [errors.Is(err, ErrAuthRejected)] *)
Definition is_auth (e : TErr) : bool := match e with ErrDialAuth | ErrRecvSessionAckAuth => true | _ => false end.

Record LiveOptions := mkLiveOptions { lo_Batcher : BatcherOptions; lo_MaxInflight : Z; lo_HeartbeatEvery : Z }.

Inductive recvAckEvent := EvBatchAck (gen seq : Z) | EvHeartbeat (gen seq : Z) | EvPolicyPush (p : PolicyPush).

(** Where the receiving goroutine is: about to receive, blocked on the event channel, or
    returned. *)
Inductive RecvCtl := RcRecv | RcSend (ev : recvAckEvent) | RcDone.

Record recvSession := mkRecvSession {
  rs_eventCh : list recvAckEvent;      (** capacity 4 *)
  rs_errCh : option TErr;              (** capacity 1 *)
  rs_ctl : RecvCtl;
}.

Definition eventCh_cap : nat := 4.

Inductive SessMetric := IncDroppedInvalidFrame (reason : string) | IncSessionInitFailures (reason : string).

Inductive SimErr := OutOfFuel | Blocked | Panic.

(** What happens beside the transport's goroutine. *)
Inductive Act :=
| ActAppend (seq gen : Z) (payload : bytes)
| ActAppendLoss (loss : LossRecord)
| ActServer (m : Result ConnErr ServerMessage)   (** a frame, or the end of the stream, arrives *)
| ActRecv                                        (** the receiving goroutine takes a step *)
| ActRecvQuit                                    (** its select takes the cancelled context *)
| ActCancel
| ActStop (drainDeadline : Z)
| ActTime (d : Z)
| ActTicker.

Record Turn := mkTurn { tn_acts : list Act; tn_pick : nat }.

Section session.
Context `{WtpLib, WtpWire}.

Record TOptions := mkTOptions {
  to_Dialer : bool;                    (** present *)
  to_AgentID : string;
  to_SessionID : string;
  to_FormatVersion : Z;
  to_Algorithm : HashAlgorithm;
  to_AgentVersion : string;
  to_OcsfVersion : string;
  to_KeyFingerprint : string;
  to_ContextDigest : string;
  to_TotalChained : Z;
  to_DecisionContext : option DecisionContext;
  to_OnPolicyPushed : bool;            (** present *)
  to_InitialAckTuple : option AckTuple;
  to_WAL : bool;                       (** present *)
  to_EmitExtendedLossReasons : bool;
  to_Compressor : option Encoder;
}.

(** An open connection: what was sent, what has arrived, which sends fail. *)
Record Conn := mkConn {
  cn_sent : list ClientMessage;
  cn_inbox : list (Result ConnErr ServerMessage);
  cn_sendfail : list bool;
}.

Record Net := mkNet {
  n_conn : option Conn;
  n_recv : option recvSession;
  n_past : list (list ClientMessage);            (** what closed connections were sent *)
  n_dials : list (Result ConnErr Conn);
}.

Record LiveVars := mkLiveVars {
  v_batcher : Batcher;
  v_inflight : inflightTracker;
  v_tick : bool;                                 (** the ticker's channel holds a value *)
  v_read : list WalRecord;
}.

Record EnvVars := mkEnv {
  ev_script : list Turn;
  ev_now : Z;
  ev_cancelled : bool;
  ev_stopCh : list Z;
  ev_stopped : nat;                              (** stop requests whose done was closed *)
  ev_nextReader : nat;
  ev_runStarted : bool;
  ev_runDone : bool;
}.

Record Obs := mkObs { b_metrics : list SessMetric; b_policies : list PolicyPushed; b_rejectReason : string }.

Record Sess := mkSess {
  x_acks : Acks;
  x_log : WAL * World;
  x_net : Net;
  x_live : LiveVars;
  x_env : EnvVars;
  x_obs : Obs;
}.

Definition set_log (s : WAL * World) (x : Sess) : Sess := mkSess (x_acks x) s (x_net x) (x_live x) (x_env x) (x_obs x).
Definition set_net (n : Net) (x : Sess) : Sess := mkSess (x_acks x) (x_log x) n (x_live x) (x_env x) (x_obs x).
Definition set_live (v : LiveVars) (x : Sess) : Sess := mkSess (x_acks x) (x_log x) (x_net x) v (x_env x) (x_obs x).
Definition set_env (e : EnvVars) (x : Sess) : Sess := mkSess (x_acks x) (x_log x) (x_net x) (x_live x) e (x_obs x).
Definition set_obs (b : Obs) (x : Sess) : Sess := mkSess (x_acks x) (x_log x) (x_net x) (x_live x) (x_env x) b.

Definition set_conn (c : option Conn) (n : Net) : Net := mkNet c (n_recv n) (n_past n) (n_dials n).
Definition set_recv (r : option recvSession) (n : Net) : Net := mkNet (n_conn n) r (n_past n) (n_dials n).

Definition set_script (l : list Turn) (e : EnvVars) : EnvVars :=
  mkEnv l (ev_now e) (ev_cancelled e) (ev_stopCh e) (ev_stopped e) (ev_nextReader e) (ev_runStarted e) (ev_runDone e).

Definition count_metric (m : SessMetric) (x : Sess) : Sess :=
  set_obs (mkObs (b_metrics (x_obs x) ++ [m]) (b_policies (x_obs x)) (b_rejectReason (x_obs x))) x.

Definition SessM := M Sess SimErr.

(** ** The receiving goroutine *)

Definition newRecvSession : recvSession := mkRecvSession [] None RcRecv.

(** The metric for a frame that does not validate. *)
Definition ClassifyAndIncInvalidFrame (reason : option string) : SessMetric :=
  IncDroppedInvalidFrame (default "classifier_bypass" reason).

(** The switch of [runRecv]: an event for the run loop, or the error it ends with. *)
Definition demux (m : ServerMessage) : Result (TErr * list SessMetric) recvAckEvent :=
  let invalid (frame : string) (k : Result (TErr * list SessMetric) recvAckEvent) :=
    match ValidateServerMessage m with
    | Some reason => Err (ErrRecvInvalid frame, [ClassifyAndIncInvalidFrame reason])
    | None => k
    end in
  match m with
  | SmBatchAck gen seq => invalid "BatchAck" (Ok (EvBatchAck gen seq))
  | SmServerHeartbeat gen seq => invalid "ServerHeartbeat" (Ok (EvHeartbeat gen seq))
  | SmPolicyPush p => invalid "PolicyPush" (Ok (EvPolicyPush p))
  | SmGoaway => invalid "Goaway" (Err (ErrRecvControl "goaway", []))
  | SmServerUpdate => invalid "ServerUpdate" (Err (ErrRecvControl "session_update", []))
  | SmSessionAck _ | SmUnknown => Err (ErrRecvControl "unknown", [])
  end.

(** A send to errCh with a default arm. *)
Definition offer_err (e : TErr) (rs : recvSession) : recvSession :=
  mkRecvSession (rs_eventCh rs) (match rs_errCh rs with Some e' => Some e' | None => Some e end) RcDone.

(** One step of [runRecv]: nothing happens when it is blocked. *)
Definition runRecv (x : Sess) : Sess :=
  let n := x_net x in
  match n_recv n, n_conn n with
  | Some rs, Some c =>
      match rs_ctl rs with
      | RcDone => x
      | RcSend ev =>
          if decide (length (rs_eventCh rs) < eventCh_cap)%nat
          then set_net (set_recv (Some (mkRecvSession (rs_eventCh rs ++ [ev]) (rs_errCh rs) RcRecv)) n) x
          else x
      | RcRecv =>
          if ev_cancelled (x_env x)
          then set_net (set_recv (Some (mkRecvSession (rs_eventCh rs) (rs_errCh rs) RcDone)) n) x
          else
            match cn_inbox c with
            | [] => x
            | r :: inbox =>
                let n := set_conn (Some (mkConn (cn_sent c) inbox (cn_sendfail c))) n in
                match r with
                | Err e => set_net (set_recv (Some (offer_err (ErrRecvConn e) rs)) n) x
                | Ok m =>
                    match demux m with
                    | Ok ev => set_net (set_recv (Some (mkRecvSession (rs_eventCh rs) (rs_errCh rs) (RcSend ev))) n) x
                    | Err (e, ms) => foldl (λ x m, count_metric m x) (set_net (set_recv (Some (offer_err e rs)) n) x) ms
                    end
                end
            end
      end
  | _, _ => x
  end.

(** The other arm of its send. *)
Definition runRecv_quit (x : Sess) : Sess :=
  match n_recv (x_net x) with
  | Some rs =>
      match rs_ctl rs with
      | RcSend _ => if ev_cancelled (x_env x)
                    then set_net (set_recv (Some (mkRecvSession (rs_eventCh rs) (rs_errCh rs) RcDone)) (x_net x)) x else x
      | _ => x
      end
  | None => x
  end.

(** ** The script *)

(** [Stop] up to the wait: nothing after [Run] has returned, else the request is queued
    (a second one waits behind the first). *)
Definition enqueue_stop (d : Z) (e : EnvVars) : EnvVars :=
  if ev_runDone e then e
  else mkEnv (ev_script e) (ev_now e) (ev_cancelled e) (ev_stopCh e ++ [d]) (ev_stopped e) (ev_nextReader e)
             (ev_runStarted e) (ev_runDone e).

Definition do_act (x : Sess) (a : Act) : Sess :=
  let e := x_env x in
  match a with
  | ActAppend seq gen payload => set_log (Append seq gen payload (x_log x)).2 x
  | ActAppendLoss loss => set_log (AppendLoss loss (x_log x)).2 x
  | ActServer m =>
      match n_conn (x_net x) with
      | Some c => set_net (set_conn (Some (mkConn (cn_sent c) (cn_inbox c ++ [m]) (cn_sendfail c))) (x_net x)) x
      | None => x
      end
  | ActRecv => runRecv x
  | ActRecvQuit => runRecv_quit x
  | ActCancel => set_env (mkEnv (ev_script e) (ev_now e) true (ev_stopCh e) (ev_stopped e) (ev_nextReader e)
                                (ev_runStarted e) (ev_runDone e)) x
  | ActStop d => set_env (enqueue_stop d e) x
  | ActTime d => set_env (mkEnv (ev_script e) (ev_now e + Z.max 0 d) (ev_cancelled e) (ev_stopCh e) (ev_stopped e)
                                (ev_nextReader e) (ev_runStarted e) (ev_runDone e)) x
  | ActTicker => set_live (mkLiveVars (v_batcher (x_live x)) (v_inflight (x_live x)) true (v_read (x_live x))) x
  end.

(** The next turn, if the script has one. *)
Definition play : SessM nat := λ x,
  match ev_script (x_env x) with
  | [] => (Ok O, x)
  | t :: ts => (Ok (tn_pick t), foldl do_act (set_env (set_script ts (x_env x)) x) (tn_acts t))
  end.

Definition pick_arm {A} (pick : nat) (ready : list A) : option A :=
  match ready !! pick with Some a => Some a | None => head ready end.

(** A select without a default: turns are played until an arm is ready. *)
Fixpoint select_loop {A} (k : nat) (arms : Sess → list A) : SessM A :=
  match k with
  | O => merr Blocked
  | S k =>
      let* pick := play in
      let* ready := mget arms in
      match pick_arm pick ready with Some a => ret a | None => select_loop k arms end
  end.

Definition select {A} (arms : Sess → list A) : SessM A := λ x, select_loop (S (length (ev_script (x_env x)))) arms x.

(** ** Connections *)

(** [t.conn.Send(msg)]; [false] is an error. *)
Definition conn_Send (msg : ClientMessage) : SessM bool := λ x,
  match n_conn (x_net x) with
  | None => (Err Panic, x)
  | Some c =>
      match cn_sendfail c with
      | true :: f => (Ok false, set_net (set_conn (Some (mkConn (cn_sent c) (cn_inbox c) f)) (x_net x)) x)
      | f => (Ok true, set_net (set_conn (Some (mkConn (cn_sent c ++ [msg]) (cn_inbox c) (List.tl f))) (x_net x)) x)
      end
  end.

(** [t.conn.Close()], [teardownRecv] (which waits for the receiver to return) and
    [t.conn = nil]. *)
Definition drop_conn : SessM unit := λ x,
  match n_conn (x_net x) with
  | None => (Err Panic, x)
  | Some c => (Ok tt, set_net (mkNet None None (n_past (x_net x) ++ [cn_sent c]) (n_dials (x_net x))) x)
  end.

Definition regressToConnecting : SessM unit :=
  let* c := mget (λ x, n_conn (x_net x)) in
  match c with Some _ => drop_conn | None => ret tt end.

Definition startRecv : SessM unit := mput (λ x, set_net (set_recv (Some newRecvSession) (x_net x)) x).

(** [close(sr.done)] *)
Definition close_done : SessM unit := mput (λ x, let e := x_env x in
  set_env (mkEnv (ev_script e) (ev_now e) (ev_cancelled e) (ev_stopCh e) (S (ev_stopped e)) (ev_nextReader e)
                 (ev_runStarted e) (ev_runDone e)) x).

Definition handleOuterStop : SessM unit := do* regressToConnecting in close_done.

(** [<-t.stopCh] *)
Definition take_stop : SessM unit := mput (λ x, let e := x_env x in
  set_env (mkEnv (ev_script e) (ev_now e) (ev_cancelled e) (List.tl (ev_stopCh e)) (ev_stopped e) (ev_nextReader e)
                 (ev_runStarted e) (ev_runDone e)) x).

(** [<-recvEventCh], [<-recvErrCh] *)
Definition take_event : SessM unit := mput (λ x,
  match n_recv (x_net x) with
  | Some rs => set_net (set_recv (Some (mkRecvSession (List.tl (rs_eventCh rs)) (rs_errCh rs) (rs_ctl rs))) (x_net x)) x
  | None => x
  end).
Definition take_err : SessM unit := mput (λ x,
  match n_recv (x_net x) with
  | Some rs => set_net (set_recv (Some (mkRecvSession (rs_eventCh rs) None (rs_ctl rs))) (x_net x)) x
  | None => x
  end).

(** [<-t.recv.eventCh] and [<-t.recv.errCh] when they can be taken. *)
Definition ready_event (x : Sess) : option recvAckEvent := rs ← n_recv (x_net x); head (rs_eventCh rs).
Definition ready_err (x : Sess) : option TErr := rs ← n_recv (x_net x); rs_errCh rs.
Definition ready_stop (x : Sess) : option Z := head (ev_stopCh (x_env x)).
Definition ctx_done (x : Sess) : bool := ev_cancelled (x_env x).

Definition on_acks {A} (m : M (Acks * (WAL * World)) SimErr A) : SessM A := λ x,
  let '(r, (k, s)) := m (x_acks x, x_log x) in
  (r, mkSess k s (x_net x) (x_live x) (x_env x) (x_obs x)).

Definition fns (o : TOptions) : WalFns (WAL * World) := if to_WAL o then wal_fns else nil_fns.

(** ** Readers of the log *)

(** The factory that store.go passes to [Run]. *)
Definition rdrFactory (gen start : Z) : SessM (Result ReaderErr nat) := λ x,
  let e := x_env x in
  let id := ev_nextReader e in
  let '(r, s) := NewReader id (mkReaderOptions gen start) (x_log x) in
  (Ok (match r with Ok _ => Ok id | Err e => Err e end),
   set_env (mkEnv (ev_script e) (ev_now e) (ev_cancelled e) (ev_stopCh e) (ev_stopped e) (S id)
                  (ev_runStarted e) (ev_runDone e))
     (set_live (mkLiveVars (v_batcher (x_live x)) (v_inflight (x_live x)) (v_tick (x_live x)) []) (set_log s x))).

Definition add_read (l : list WalRecord) (v : LiveVars) : LiveVars := mkLiveVars (v_batcher v) (v_inflight v) (v_tick v) (v_read v ++ l).

Definition rdr_TryNext (id : nat) : SessM (Result ReaderErr (option WalRecord)) := λ x,
  let '(r, s) := on_reader id (TryNext (w_maxRec (x_log x).1)) (x_log x) in
  (Ok r, set_live (add_read (match r with Ok (Some rec) => [rec] | _ => [] end) (x_live x)) (set_log s x)).

Definition rdr_Close (id : nat) : SessM unit := mput (λ x, set_log (Reader_Close id (x_log x)).2 x).

Definition rdr_notified (id : nat) (x : Sess) : bool :=
  match w_readers (x_log x).1 !! id with Some r => r_notify r | None => false end.

Definition clear_notify (r : Reader) : Reader :=
  mkReader false (r_segments r) (r_current r) (r_curHdr r) (r_curIdx r) (r_curLive r) (r_nextScanIdx r)
           (r_lastGoodSeq r) (r_lastGoodGen r) (r_lastGoodGenSet r) (r_nextSeq r) (r_readerGen r)
           (r_lastEmittedSeq r) (r_closed r).

(** [<-rdr.Notify()] *)
Definition take_notify (id : nat) : SessM unit := mput (λ x,
  let '(w, W) := x_log x in set_log (set_readers (w_closed w) (alter clear_notify id (w_readers w)) w, W) x).

(** ** Connecting *)

Definition validate (o : TOptions) : bool :=
  if negb (to_Dialer o) then false
  else if String.eqb (to_AgentID o) "" then false
  else negb (String.eqb (to_SessionID o) "").

(** [New]: the options with their defaults, the cursors, the compressor. *)
Definition New (o : TOptions) : option (TOptions * Acks) :=
  if validate o then
    Some (mkTOptions (to_Dialer o) (to_AgentID o) (to_SessionID o)
            (if to_FormatVersion o =? 0 then 2 else to_FormatVersion o)
            (if decide (to_Algorithm o = HASH_ALGORITHM_UNSPECIFIED) then HASH_ALGORITHM_HMAC_SHA256 else to_Algorithm o)
            (to_AgentVersion o) (to_OcsfVersion o) (to_KeyFingerprint o) (to_ContextDigest o) (to_TotalChained o)
            (to_DecisionContext o) (to_OnPolicyPushed o) (to_InitialAckTuple o) (to_WAL o) (to_EmitExtendedLossReasons o)
            (Some (default newNoneEncoder (to_Compressor o))),
          seed_acks (to_InitialAckTuple o))
  else None.

Context (o : TOptions).

Definition compressor : Encoder := default newNoneEncoder (to_Compressor o).

Definition sessionInit (k : Acks) : SessionInit DecisionContext :=
  mkSessionInit (to_SessionID o) (to_OcsfVersion o) (to_FormatVersion o) (to_Algorithm o) (to_KeyFingerprint o) (to_ContextDigest o)
    (ac_Sequence (k_persistedAck k)) (ac_Generation (k_persistedAck k)) (to_AgentID o) (to_AgentVersion o) (to_TotalChained o)
    (to_DecisionContext o).

Definition applyPushedPolicy (p : PolicyPushed) : SessM unit := mput (λ x,
  if to_OnPolicyPushed o
  then set_obs (mkObs (b_metrics (x_obs x)) (b_policies (x_obs x) ++ [p]) (b_rejectReason (x_obs x))) x else x).

Definition count_failure (reason : string) : SessM unit := mput (count_metric (IncSessionInitFailures reason)).

(** [t.opts.Dialer.Dial(ctx)]; the connection becomes [t.conn]. *)
Definition dial : SessM (option ConnErr) :=
  do* play in λ x,
  let n := x_net x in
  match n_dials n with
  | [] => (Err Blocked, x)
  | Err e :: ds => (Ok (Some e), set_net (mkNet (n_conn n) (n_recv n) (n_past n) ds) x)
  | Ok c :: ds => (Ok None, set_net (mkNet (Some (mkConn [] (cn_inbox c) (cn_sendfail c))) (n_recv n) (n_past n) ds) x)
  end.

(** [conn.Recv()], which waits for a frame. *)
Definition conn_Recv : SessM (Result ConnErr ServerMessage) :=
  let* r := select (λ x, match n_conn (x_net x) with Some c => option_list (head (cn_inbox c)) | None => [] end) in
  do* mput (λ x, match n_conn (x_net x) with
                 | Some c => set_net (set_conn (Some (mkConn (cn_sent c) (List.tl (cn_inbox c)) (cn_sendfail c))) (x_net x)) x
                 | None => x
                 end) in
  ret r.

Definition set_reject (reason : string) : SessM unit := mput (λ x, set_obs (mkObs (b_metrics (x_obs x)) (b_policies (x_obs x)) reason) x).

(** The connection is closed and forgotten with a failure counted. *)
Definition refuse (reason : string) (st : State) (e : TErr) : SessM (State * option TErr) :=
  do* drop_conn in do* count_failure reason in ret (st, Some e).

Definition runConnecting : SessM (State * option TErr) :=
  let* init := mget (λ x, sessionInit (x_acks x)) in
  if negb (ValidateSessionInit init) then
    do* count_failure "unknown" in ret (StateShutdown, Some ErrInvalidSessionInit)
  else
  let* d := dial in
  match d with
  | Some e =>
      if IsAuthReject e then do* count_failure "auth_rejected" in ret (StateConnecting, Some ErrDialAuth)
      else ret (StateConnecting, Some ErrDial)
  | None =>
      let* sent := conn_Send (CmSessionInit init) in
      if negb sent then refuse "send_failed" StateConnecting ErrSendSessionInit
      else
      let* r := conn_Recv in
      match r with
      | Err e =>
          if IsAuthReject e then refuse "auth_rejected" StateConnecting ErrRecvSessionAckAuth
          else refuse "recv_failed" StateConnecting ErrRecvSessionAck
      | Ok (SmSessionAck ack) =>
          if negb (sa_Accepted ack) then
            do* set_reject (sa_RejectReason ack) in
            refuse "rejected" StateShutdown (ErrSessionRejected (sa_RejectReason ack))
          else
            do* (if negb (String.eqb (wp_PolicyId (sa_Policy ack)) "") then applyPushedPolicy (fromWirePolicyPush (sa_Policy ack))
                 else ret tt) in
            do* on_acks (ackSessionAck (fns o) (sa_Generation ack) (sa_AckHighWatermarkSeq ack)) in
            ret (StateReplaying, None)
      | Ok _ => refuse "unexpected_message" StateConnecting ErrExpectedSessionAck
      end
  end.

(** ** Replaying *)

Record ReplayerOptions := mkReplayerOptions { ro_MaxBatchRecords : Z; ro_MaxBatchBytes : Z }.

Record Replayer := mkReplayer {
  rp_rdr : nat;
  rp_opts : ReplayerOptions;
  rp_tail : AckCursor;
  rp_lastReplayed : AckCursor;
}.

Definition NewReplayer (id : nat) (opts : ReplayerOptions) : SessM (Result WalErr Replayer) := mget (λ x,
  match w_readers (x_log x).1 !! id with
  | None => Err ErrClosed
  | Some r =>
      match Reader_WrittenDataHighWater r (x_log x).1 with
      | Err e => Err e
      | Ok hw => Ok (mkReplayer id opts (mkCursor (default 0 hw) (Reader_Generation r)) zero_cursor)
      end
  end).

Definition note_replayed (rec : WalRecord) (r : Replayer) : Replayer :=
  mkReplayer (rp_rdr r) (rp_opts r) (rp_tail r) (mkCursor (rec_Sequence rec) (rec_Generation rec)).

(** The loop of [NextBatch]. *)
Fixpoint next_batch (fuel : nat) (r : Replayer) (batch : list WalRecord) (nbytes : Z) :
  SessM (list WalRecord * bool * option TErr * Replayer) :=
  match fuel with
  | O => merr OutOfFuel
  | S fuel =>
      do* play in
      let* cancelled := mget ctx_done in
      if cancelled : bool then ret (batch, false, Some ErrCtx, r)
      else if (0 <? ro_MaxBatchRecords (rp_opts r)) && (ro_MaxBatchRecords (rp_opts r) <=? Z.of_nat (length batch))
      then ret (batch, false, None, r)
      else if (0 <? ro_MaxBatchBytes (rp_opts r)) && (ro_MaxBatchBytes (rp_opts r) <=? nbytes) && (0 <? Z.of_nat (length batch))
      then ret (batch, false, None, r)
      else
        let* res := rdr_TryNext (rp_rdr r) in
        match res with
        | Err e => ret (batch, false, Some (ErrReaderNext e), r)
        | Ok None => ret (batch, true, None, r)
        | Ok (Some rec) =>
            match rec_Kind rec with
            | RecordData =>
                if watermarkLess (rp_tail r) (mkCursor (rec_Sequence rec) (rec_Generation rec))
                then ret (batch ++ [rec], true, None, note_replayed rec r)
                else next_batch fuel (note_replayed rec r) (batch ++ [rec]) (nbytes + len_payload rec)
            | _ => next_batch fuel r (batch ++ [rec]) nbytes
            end
        end
  end.

Definition NextBatch (fuel : nat) (r : Replayer) := next_batch fuel r [] 0.

(** Sends until one fails. *)
Fixpoint send_msgs (msgs : list DataMessage) : SessM (option TErr) :=
  match msgs with
  | [] => ret None
  | msg :: msgs =>
      let* sent := conn_Send (CmData msg) in
      if sent : bool then send_msgs msgs else ret (Some ErrSend)
  end.

Definition encodeBatch (records : list WalRecord) : Result EncodeErr (list DataMessage) :=
  (encodeBatchMessageWithCompressor records (to_EmitExtendedLossReasons o) compressor).1.

Definition fail_replay (e : TErr) (r : Replayer) : SessM (State * option TErr * Replayer) :=
  do* drop_conn in ret (StateConnecting, Some e, r).

Inductive LiveArm := ArmDone | ArmStop (d : Z) | ArmEvent (ev : recvAckEvent) | ArmErr (e : TErr) | ArmNotify | ArmTick.

Definition replay_arms (x : Sess) : list LiveArm :=
  option_list (ArmEvent <$> ready_event x) ++ option_list (ArmErr <$> ready_err x) ++ option_list (ArmStop <$> ready_stop x).

(** A batch that is not empty is encoded and sent. *)
Definition send_replayed (batch : list WalRecord) : SessM (option TErr) :=
  match batch with
  | [] => ret None
  | _ :: _ => match encodeBatch batch with Err e => ret (Some (ErrEncode e)) | Ok msgs => send_msgs msgs end
  end.

(** After the select: read a batch, encode it, send it. *)
Definition replay_batch (fuel : nat) (again : Replayer → SessM (State * option TErr * Replayer)) (r : Replayer) :
  SessM (State * option TErr * Replayer) :=
  let* res := NextBatch fuel r in
  let '(batch, done, err, r) := res in
  match err with
  | Some e => fail_replay e r
  | None =>
      let* e := send_replayed batch in
      match e with
      | Some e => fail_replay e r
      | None => if done : bool then ret (StateLive, None, r) else again r
      end
  end.

Fixpoint runReplaying (fuel : nat) (r : Replayer) : SessM (State * option TErr * Replayer) :=
  match fuel with
  | O => merr OutOfFuel
  | S fuel =>
      let* pick := play in
      let* ready := mget replay_arms in
      match pick_arm pick ready with
      | Some (ArmEvent ev) =>
          do* take_event in
          do* (match ev with
               | EvBatchAck gen seq => do* on_acks (applyAckFromRecv (fns o) gen seq) in ret tt
               | EvHeartbeat gen seq => do* on_acks (applyAckFromRecv (fns o) gen seq) in ret tt
               | EvPolicyPush _ => ret tt
               end) in
          replay_batch fuel (runReplaying fuel) r
      | Some (ArmErr e) => do* take_err in fail_replay e r
      | Some (ArmStop d) => do* take_stop in do* drop_conn in do* close_done in ret (StateShutdown, None, r)
      | _ => replay_batch fuel (runReplaying fuel) r
      end
  end.

(** ** Live *)

Context (opts : LiveOptions).

Definition set_batcher (b : Batcher) (v : LiveVars) : LiveVars := mkLiveVars b (v_inflight v) (v_tick v) (v_read v).
Definition set_inflight (it : inflightTracker) (v : LiveVars) : LiveVars := mkLiveVars (v_batcher v) it (v_tick v) (v_read v).

(** A call of the batcher. *)
Definition on_batcher (f : Z → Batcher → option Batch * Batcher) : SessM (option Batch) := λ x,
  let '(out, b) := f (ev_now (x_env x)) (v_batcher (x_live x)) in (Ok out, set_live (set_batcher b (x_live x)) x).

Definition push_inflight (msg : DataMessage) : SessM unit := mput (λ x,
  let '(gen, seq) := extractWireHighWatermark msg in set_live (set_inflight (Push (v_inflight (x_live x)) gen seq) (x_live x)) x).

Fixpoint send_tracked (msgs : list DataMessage) : SessM (option TErr) :=
  match msgs with
  | [] => ret None
  | msg :: msgs =>
      let* sent := conn_Send (CmData msg) in
      if sent : bool then do* push_inflight msg in send_tracked msgs else ret (Some ErrSend)
  end.

Definition sendBatch (outBatch : option Batch) : SessM (option TErr) :=
  match outBatch with
  | None => ret None
  | Some b => match encodeBatch b with Err e => ret (Some (ErrEncode e)) | Ok msgs => send_tracked msgs end
  end.

Definition window_open (x : Sess) : bool := Inflight_Len (v_inflight (x_live x)) <? lo_MaxInflight opts.

Fixpoint drainAvailable (fuel : nat) (id : nat) : SessM (option TErr) :=
  match fuel with
  | O => merr OutOfFuel
  | S fuel =>
      let* open := mget window_open in
      if open : bool then
        do* play in
        let* r := rdr_TryNext id in
        match r with
        | Err e => ret (Some (ErrReaderNext e))
        | Ok None => ret None
        | Ok (Some rec) =>
            let* out := on_batcher (λ now, Add now rec) in
            let* e := sendBatch out in
            match e with Some e => ret (Some e) | None => drainAvailable fuel id end
        end
      else ret None
  end.

(** *** Shutdown *)

(** The drain loop of [runShutdown], up to the time [limit]. *)
Fixpoint shutdown_drain (fuel : nat) (id : nat) (limit : Z) : SessM unit :=
  match fuel with
  | O => merr OutOfFuel
  | S fuel =>
      do* play in
      let* expired := mget (λ x, ctx_done x || (limit <=? ev_now (x_env x))) in
      if expired : bool then ret tt
      else
        let* r := rdr_TryNext id in
        match r with
        | Ok (Some rec) =>
            let* out := on_batcher (λ now, Add now rec) in
            let* e := match out with
                      | None => ret None
                      | Some b => match encodeBatch b with Err e => ret (Some (ErrEncode e)) | Ok msgs => send_msgs msgs end
                      end in
            match e with Some _ => ret tt | None => shutdown_drain fuel id limit end
        | _ => ret tt
        end
  end.

(** Sends every message whatever happens to the others. *)
Fixpoint send_anyway (msgs : list DataMessage) : SessM unit :=
  match msgs with
  | [] => ret tt
  | msg :: msgs => do* conn_Send (CmData msg) in send_anyway msgs
  end.

Definition runShutdown (fuel : nat) (id : nat) (drainDeadline : Z) : SessM unit :=
  let* now := mget (λ x, ev_now (x_env x)) in
  do* (if 0 <? drainDeadline then shutdown_drain fuel id (now + drainDeadline) else ret tt) in
  let* final := on_batcher (λ _, Drain) in
  match final with
  | None => ret tt
  | Some b => match encodeBatch b with Err _ => ret tt | Ok msgs => send_anyway msgs end
  end.

(** *** The loop *)

Definition live_arms (id : nat) (x : Sess) : list LiveArm :=
  (if ctx_done x then [ArmDone] else []) ++ option_list (ArmStop <$> ready_stop x) ++ option_list (ArmEvent <$> ready_event x) ++
  option_list (ArmErr <$> ready_err x) ++ (if rdr_notified id x then [ArmNotify] else []) ++
  (if v_tick (x_live x) then [ArmTick] else []).

Definition fail_live (e : TErr) : SessM (option (State * option TErr)) :=
  do* drop_conn in ret (Some (StateConnecting, Some e)).

(** [drainAvailable], with the reconnect on error; [None] goes on. *)
Definition drain_or_fail (fuel : nat) (id : nat) : SessM (option (State * option TErr)) :=
  let* e := drainAvailable fuel id in
  match e with Some e => fail_live e | None => ret None end.

Definition release_inflight (gen seq : Z) : SessM unit := mput (λ x,
  set_live (set_inflight (Release (v_inflight (x_live x)) gen seq).1 (x_live x)) x).

Definition live_ack (fuel : nat) (id : nat) (gen seq : Z) : SessM (option (State * option TErr)) :=
  let* outcome := on_acks (applyAckFromRecv (fns o) gen seq) in
  if decide (outcome = AckOutcomeAdopted) then do* release_inflight gen seq in drain_or_fail fuel id
  else ret None.

(** One arm of the select; [None] continues the loop. *)
Definition live_arm (fuel : nat) (id : nat) (a : LiveArm) : SessM (option (State * option TErr)) :=
  match a with
  | ArmDone => do* drop_conn in ret (Some (StateShutdown, Some ErrCtx))
  | ArmStop d =>
      do* take_stop in do* runShutdown fuel id d in do* drop_conn in do* close_done in ret (Some (StateShutdown, None))
  | ArmEvent ev =>
      do* take_event in
      match ev with
      | EvBatchAck gen seq => live_ack fuel id gen seq
      | EvHeartbeat gen seq => live_ack fuel id gen seq
      | EvPolicyPush p => do* applyPushedPolicy (fromWirePolicyPush p) in ret None
      end
  | ArmErr e => do* take_err in fail_live e
  | ArmNotify => do* take_notify id in drain_or_fail fuel id
  | ArmTick =>
      do* mput (λ x, set_live (mkLiveVars (v_batcher (x_live x)) (v_inflight (x_live x)) false (v_read (x_live x))) x) in
      let* open := mget window_open in
      if open : bool then
        let* out := on_batcher Tick in
        let* e := sendBatch out in
        match e with Some e => fail_live e | None => ret None end
      else ret None
  end.

Fixpoint live_loop (fuel : nat) (id : nat) : SessM (State * option TErr) :=
  match fuel with
  | O => merr OutOfFuel
  | S fuel =>
      let* a := select (live_arms id) in
      let* r := live_arm fuel id a in
      match r with Some r => ret r | None => live_loop fuel id end
  end.

(** The locals of [runLive]; a ticker with no positive period panics. *)
Definition live_init : SessM unit := λ x,
  if Z.quot (bo_MaxAge (lo_Batcher opts)) 2 <=? 0 then (Err Panic, x)
  else (Ok tt, set_live (mkLiveVars (NewBatcher (lo_Batcher opts)) [] false (v_read (x_live x))) x).

Definition runLive (fuel : nat) (id : nat) : SessM (State * option TErr) :=
  do* live_init in
  let* r := drain_or_fail fuel id in
  let* res := match r with Some r => ret r | None => live_loop fuel id end in
  do* rdr_Close id in
  ret res.

(** ** The run loop *)

(** How the loop over the stages ends. *)
Inductive StagesEnd := SeDone | SeErr (e : TErr) | SeState (st : State) | SeReturn (e : TErr).

Fixpoint stages_loop (fuel : nat) (stages : list ReplayStage) (rep : option Replayer) : SessM (StagesEnd * option Replayer) :=
  match stages with
  | [] => ret (SeDone, rep)
  | stage :: stages =>
      let* rdr := rdrFactory (st_Generation stage) (st_StartSeq stage) in
      match rdr with
      | Err e => ret (SeErr (ErrReaderFactory e), rep)
      | Ok id =>
          let* r := NewReplayer id (mkReplayerOptions (bo_MaxRecords (lo_Batcher opts)) (bo_MaxBytes (lo_Batcher opts))) in
          match r with
          | Err e => do* rdr_Close id in ret (SeErr (ErrReplayerTail e), None)
          | Ok r =>
              let* res := runReplaying fuel r in
              let '(next, err, r) := res in
              do* rdr_Close id in
              match err with
              | Some e => ret (if decide (next = StateShutdown) then SeReturn e else SeErr e, Some r)
              | None => if decide (next = StateLive) then stages_loop fuel stages (Some r) else ret (SeState next, Some r)
              end
          end
      end
  end.

Inductive WaitArm := WaDone | WaStop | WaElapsed.

Definition wait_arms (x : Sess) : list WaitArm :=
  (if ctx_done x then [WaDone] else []) ++ option_list ((λ _, WaStop) <$> ready_stop x) ++ [WaElapsed].

(** The select around a backoff; [Some] returns from [Run]. *)
Definition backoff_wait : SessM (option (option TErr)) :=
  let* a := select wait_arms in
  match a with
  | WaDone => ret (Some (Some ErrCtx))
  | WaStop => do* take_stop in do* handleOuterStop in ret (Some None)
  | WaElapsed => ret None
  end.

(** Where the live reader starts. *)
Definition live_start (k : Acks) (rep : option Replayer) : Z :=
  let start := to_uint64 (ac_Sequence (k_remoteReplayCursor k) + 1) in
  match rep with
  | Some r => let next := to_uint64 (ac_Sequence (rp_lastReplayed r) + 1) in if start <? next then next else start
  | None => start
  end.

(** The body of the loop for one state: the next state and replayer, or the result. *)
Definition run_state (fuel : nat) (st : State) (rep : option Replayer) : SessM (option TErr + State * option Replayer) :=
  match st with
  | StateConnecting =>
      let* res := runConnecting in
      let '(next, err) := res in
      match err with
      | Some e =>
          if decide (next = StateShutdown) then ret (inl (Some e))
          else
            let* w := backoff_wait in
            match w with Some r => ret (inl r) | None => ret (inr (StateConnecting, rep)) end
      | None =>
          do* (if decide (next = StateReplaying) then startRecv else ret tt) in
          ret (inr (next, None))
      end
  | StateReplaying =>
      let* k := mget x_acks in
      let* plan := (λ x, let '(r, s) := computeReplayPlan (fns o) (k_remoteReplayCursor k) (k_persistedAck k) (x_log x) in (Ok r, set_log s x)) in
      match plan with
      | Err _ => do* regressToConnecting in ret (inr (StateConnecting, None))
      | Ok stages =>
          let* res := stages_loop fuel stages rep in
          match res with
          | (SeErr e, _) =>
              do* regressToConnecting in
              let* w := backoff_wait in
              match w with Some r => ret (inl r) | None => ret (inr (StateConnecting, None)) end
          | (SeReturn e, _) => ret (inl (Some e))
          | (SeState st, rep) => ret (inr (st, rep))
          | (SeDone, rep) => ret (inr (StateLive, rep))
          end
      end
  | StateLive =>
      let* start := mget (λ x, live_start (x_acks x) rep) in
      let* liveGen := mget (λ x, if to_WAL o then HighGeneration (x_log x).1 else 0) in
      let* rdr := rdrFactory liveGen start in
      match rdr with
      | Err _ => do* regressToConnecting in ret (inr (StateConnecting, None))
      | Ok id =>
          let* res := runLive fuel id in
          let '(next, err) := res in
          match err with
          | Some e =>
              if decide (next = StateShutdown) then ret (inl (Some e))
              else
                let* w := backoff_wait in
                match w with Some r => ret (inl r) | None => ret (inr (StateConnecting, None)) end
          | None => ret (inr (next, None))
          end
      end
  | StateShutdown => ret (inl None)
  end.

Inductive TopArm := TaDone | TaStop.

Definition top_arms (x : Sess) : list TopArm :=
  (if ctx_done x then [TaDone] else []) ++ option_list ((λ _, TaStop) <$> ready_stop x).

Fixpoint run_loop (fuel : nat) (st : State) (rep : option Replayer) : SessM (option TErr) :=
  match fuel with
  | O => merr OutOfFuel
  | S fuel =>
      let* pick := play in
      let* ready := mget top_arms in
      match pick_arm pick ready with
      | Some TaDone => do* regressToConnecting in ret (Some ErrCtx)
      | Some TaStop => do* take_stop in do* handleOuterStop in ret None
      | None =>
          let* r := run_state fuel st rep in
          match r with inl err => ret err | inr (st, rep) => run_loop fuel st rep end
      end
  end.

Definition mark_run (started done : bool) : SessM unit := mput (λ x, let e := x_env x in
  set_env (mkEnv (ev_script e) (ev_now e) (ev_cancelled e) (ev_stopCh e) (ev_stopped e) (ev_nextReader e) started done) x).

Definition Run (fuel : nat) : SessM (option TErr) :=
  let* started := mget (λ x, ev_runStarted (x_env x)) in
  if started : bool then ret (Some ErrTransportSingleUse)
  else
    do* mark_run true false in
    let* err := run_loop fuel StateConnecting None in
    do* mark_run true true in
    ret err.

End session.
