(* ===== verification/WtpRun.v ===== *)
(** * The run loop of the watchtower transport

    Theorems about the definitions of WtpSession: the discipline of connections through
    the whole run loop. *)

From S2P Require Import Prelude WalFrame WalFs Wal WalInv WalSpec WalRecover WalProps WalReader WalIndex WtpBatch WtpAck WtpSession.
Open Scope Z_scope.

Section discipline.
Context `{WtpLib, WtpWire} (o : TOptions) (opts : LiveOptions).

(** ** Connections are not leaked *)

(** What of the state the discipline of connections is about: what the current connection
    was sent, whether there is a receiver, and what earlier connections were sent. *)
Definition view (x : Sess) : option (list ClientMessage) * option unit * list (list ClientMessage) :=
  (cn_sent <$> n_conn (x_net x), (λ _, tt) <$> n_recv (x_net x), n_past (x_net x)).

Lemma runRecv_view x : view (runRecv x) = view x ∧ x_acks (runRecv x) = x_acks x.
Proof.
  unfold runRecv. destruct (n_recv (x_net x)) as [rs|] eqn:Hr; [|done]. destruct (n_conn (x_net x)) as [c|] eqn:Hc; [|done].
  assert (Hms : ∀ ms y, view (foldl (λ x m, count_metric m x) y ms) = view y ∧ x_acks (foldl (λ x m, count_metric m x) y ms) = x_acks y).
  { induction ms as [|m ms IH]; intros y; cbn; [done|]. destruct (IH (count_metric m y)) as [-> ->]. done. }
  unfold view. destruct (rs_ctl rs); [destruct (ev_cancelled (x_env x)); [|destruct (cn_inbox c) as [|[m|e] inbox]]|destruct (decide _)|];
    cbn; rewrite ?Hr, ?Hc; try done.
  destruct (demux m) as [ev|[e ms]]; cbn; rewrite ?Hr, ?Hc; [done|]. unfold view in Hms.
  destruct (Hms ms (set_net (set_recv (Some (offer_err e rs)) (set_conn (Some (mkConn (cn_sent c) inbox (cn_sendfail c))) (x_net x))) x)) as [Hv Ha].
  rewrite Hv, Ha. done.
Qed.

(** Nothing beside the transport's goroutine touches it. *)
Lemma do_act_view x a : view (do_act x a) = view x ∧ x_acks (do_act x a) = x_acks x.
Proof.
  destruct a; cbn; try done; [| apply runRecv_view |].
  - destruct (n_conn (x_net x)) as [c|] eqn:Hc; [|done]. unfold view. cbn. by rewrite ?Hc.
  - unfold runRecv_quit, view. destruct (n_recv (x_net x)) as [rs|] eqn:Hr; [|by rewrite ?Hr]. destruct (rs_ctl rs); rewrite ?Hr; try done.
    destruct (ev_cancelled (x_env x)); cbn; rewrite ?Hr; done.
Qed.

(** An operation that leaves the connections and the cursors alone. *)
Definition inert {A} (m : SessM A) : Prop := ∀ x,
  view (m x).2 = view x ∧ x_acks (m x).2 = x_acks x ∧ (m x).1 ≠ Err Panic.

Lemma inert_ret {A} (a : A) : inert (ret a).
Proof. done. Qed.
Lemma inert_err {A} e : e ≠ Panic → inert (merr e : SessM A).
Proof. intros He x. cbn. split_and!; congruence. Qed.
Lemma inert_get {A} (f : Sess → A) : inert (mget f).
Proof. done. Qed.
Lemma inert_put f : (∀ x, view (f x) = view x ∧ x_acks (f x) = x_acks x) → inert (mput f).
Proof. intros Hf x. destruct (Hf x). done. Qed.
Lemma inert_bind {A B} (m : SessM A) (k : A → SessM B) : inert m → (∀ a, inert (k a)) → inert (bindM m k).
Proof.
  intros Hm Hk x. unfold bindM. destruct (Hm x) as (Hv & Ha & Hp). destruct (m x) as [[a|e] y]; cbn in *; [|split_and!; congruence].
  destruct (Hk a y) as (-> & -> & ?). done.
Qed.

Lemma play_inert : inert play.
Proof.
  intros x. unfold play. destruct (ev_script (x_env x)) as [|t ts]; [done|]. cbn.
  assert (Hf : ∀ l y, view (foldl do_act y l) = view y ∧ x_acks (foldl do_act y l) = x_acks y).
  { induction l as [|a l IH]; intros y; cbn; [done|]. destruct (IH (do_act y a)) as [-> ->]. apply do_act_view. }
  destruct (Hf (tn_acts t) (set_env (set_script ts (x_env x)) x)) as [-> ->]. done.
Qed.

Lemma select_inert {A} (arms : Sess → list A) : inert (select arms).
Proof.
  intros x. unfold select. generalize (S (length (ev_script (x_env x)))) as k. intros k. revert x.
  assert (Hk : ∀ k, inert (select_loop k arms)); [|intros x; apply Hk].
  clear k. induction k as [|k IH]; cbn [select_loop]; [by apply inert_err|].
  apply inert_bind; [apply play_inert|]. intros pick. apply inert_bind; [apply inert_get|]. intros ready.
  destruct (pick_arm pick ready); [apply inert_ret | exact IH].
Qed.

Lemma TryNext_inert id : inert (rdr_TryNext id).
Proof. intros x. unfold rdr_TryNext. by destruct (on_reader _ _ _) as [r s]. Qed.
Lemma rdrFactory_inert gen start : inert (rdrFactory gen start).
Proof. intros x. unfold rdrFactory. by destruct (NewReader _ _ _) as [r s]. Qed.
Lemma rdr_Close_inert id : inert (rdr_Close id).
Proof. by apply inert_put. Qed.
Lemma on_batcher_inert f : inert (on_batcher f).
Proof. intros x. unfold on_batcher. by destruct (f _ _) as [out b]. Qed.
Lemma push_inflight_inert msg : inert (push_inflight msg).
Proof. apply inert_put. intros x. by destruct (extractWireHighWatermark msg). Qed.
Lemma take_notify_inert id : inert (take_notify id).
Proof. apply inert_put. intros x. by destruct (x_log x). Qed.
Lemma take_event_inert : inert take_event.
Proof. apply inert_put. intros x. unfold view. destruct (n_recv (x_net x)) as [rs|] eqn:Hr; cbn; by rewrite ?Hr. Qed.
Lemma take_err_inert : inert take_err.
Proof. apply inert_put. intros x. unfold view. destruct (n_recv (x_net x)) as [rs|] eqn:Hr; cbn; by rewrite ?Hr. Qed.
Lemma applyPushedPolicy_inert p : inert (applyPushedPolicy o p).
Proof. apply inert_put. intros x. by destruct (to_OnPolicyPushed o). Qed.

Lemma conn_Recv_inert : inert conn_Recv.
Proof.
  apply inert_bind; [apply select_inert|]. intros r. apply inert_bind; [|intros; apply inert_ret].
  apply inert_put. intros x. unfold view. destruct (n_conn (x_net x)) as [c|] eqn:Hc; cbn; by rewrite ?Hc.
Qed.

(** ** The discipline *)

(** A cursor that has been persisted: zero when nothing was acknowledged yet, or not ahead of
    the one persisted now. *)
Definition cursor_ok (k : Acks) (c : AckCursor) : Prop :=
  c = zero_cursor ∨ (k_persistedAckPresent k = true ∧ cursor_le c (k_persistedAck k)).
(** The cursor is zero until something is persisted. *)
Definition unset_zero (k : Acks) : Prop := k_persistedAckPresent k = false → k_persistedAck k = zero_cursor.

(** The cursor a SessionInit carries. *)
Definition cursor_of (i : SessionInit DecisionContext) : AckCursor :=
  {| ac_Sequence := si_WalHighWatermarkSeq i; ac_Generation := si_Generation i |}.

(** What a connection is sent: a SessionInit of the session with such a cursor, then only data. *)
Definition wire_ok (k : Acks) (l : list ClientMessage) : Prop :=
  match l with
  | [] => True
  | CmSessionInit i :: l => (si_SessionId i = to_SessionID o ∧ cursor_ok k (cursor_of i)) ∧ Forall (λ m, ∃ d, m = CmData d) l
  | CmData _ :: _ => False
  end.

(** Every connection there has been. *)
Definition wires (x : Sess) : list (list ClientMessage) := n_past (x_net x) ++ option_list (cn_sent <$> n_conn (x_net x)).

Definition Disciplined (x : Sess) : Prop := unset_zero (x_acks x) ∧ Forall (wire_ok (x_acks x)) (wires x).

(** No connection and no receiver. *)
Definition Idle (x : Sess) : Prop := (view x).1.1 = None ∧ (view x).1.2 = None.
(** A connection on which the SessionInit was sent. *)
Definition Greeted (x : Sess) : Prop := ∃ m l, (view x).1.1 = Some (m :: l).
(** ... and a receiver for it. *)
Definition Connected (x : Sess) : Prop := Greeted x ∧ is_Some (view x).1.2.

Lemma cursor_eta c : {| ac_Sequence := ac_Sequence c; ac_Generation := ac_Generation c |} = c.
Proof. by destruct c. Qed.

Lemma wire_ok_mono k k' l : acks_le k k' → wire_ok k l → wire_ok k' l.
Proof.
  intros Hle. destruct l as [|[i|d] l]; [done | | done]. intros [[? Hk] Hl]. split; [|done]. split; [done|].
  destruct Hk as [Hz|[Hp Hk]]; [by left|]. right. destruct (Hle Hp) as [Hp' Hk']. split; [done|]. by etransitivity.
Qed.

(** [m] does not touch a nil connection and keeps the discipline, and its results
    satisfy [Q]. *)
Definition ht {A} (P : Sess → Prop) (m : SessM A) (Q : A → Sess → Prop) : Prop := ∀ x,
  Disciplined x → P x →
  Disciplined (m x).2 ∧ match (m x).1 with Ok a => Q a (m x).2 | Err e => e ≠ Panic end.

Lemma ht_bind {A B} P (m : SessM A) R (k : A → SessM B) Q : ht P m R → (∀ a, ht (R a) (k a) Q) → ht P (bindM m k) Q.
Proof.
  intros Hm Hk x HJ HP. unfold bindM. destruct (Hm x HJ HP) as [HJ1 H1]. destruct (m x) as [[a|e] y]; [|done]. by apply (Hk a y).
Qed.
Lemma ht_conseq {A} (P P' : Sess → Prop) (m : SessM A) (Q Q' : A → Sess → Prop) :
  ht P m Q → (∀ x, P' x → P x) → (∀ a x, Q a x → Q' a x) → ht P' m Q'.
Proof. intros Hm HP HQ x HJ Hx. destruct (Hm x HJ (HP x Hx)) as [? Hr]. split; [done|]. destruct (m x).1; auto. Qed.
Lemma ht_ret {A} (P : Sess → Prop) (Q : A → Sess → Prop) a : (∀ x, P x → Q a x) → ht P (ret a) Q.
Proof. intros HQ x HJ HP. by split; [|apply HQ]. Qed.
Lemma ht_err {A} P (Q : A → Sess → Prop) e : e ≠ Panic → ht P (merr e) Q.
Proof. done. Qed.

Lemma ht_get_then {A B} P (f : Sess → A) (k : A → SessM B) Q : (∀ a, ht (λ x, P x ∧ f x = a) (k a) Q) → ht P (bindM (mget f) k) Q.
Proof. intros Hk x HJ HP. by apply (Hk (f x)). Qed.

(** A predicate of the connections only. *)
Definition of_view (P : Sess → Prop) : Prop := ∀ x y, view x = view y → P x → P y.

Lemma of_view_Idle : of_view Idle.
Proof. intros x y Hv. unfold Idle. by rewrite Hv. Qed.
Lemma of_view_Greeted : of_view Greeted.
Proof. intros x y Hv. unfold Greeted. by rewrite Hv. Qed.
Lemma of_view_Connected : of_view Connected.
Proof. intros x y Hv. unfold Connected, Greeted. by rewrite Hv. Qed.

Lemma Disciplined_view x y : view x = view y → x_acks x = x_acks y → Disciplined x → Disciplined y.
Proof.
  unfold Disciplined, wires, view. intros Hv ->. injection Hv as Hc _ Hp. by rewrite Hc, Hp.
Qed.

Lemma ht_inert {A} P (m : SessM A) : of_view P → inert m → ht P m (λ _, P).
Proof.
  intros HP Hm x HJ Hx. destruct (Hm x) as (Hv & Ha & Hp). split; [by apply (Disciplined_view x)|].
  destruct (m x) as [[a|e] y]; cbn in *; [by apply (HP x) | by intros ->].
Qed.

Lemma ht_inert_then {A B} P (m : SessM A) (k : A → SessM B) Q : of_view P → inert m → (∀ a, ht P (k a) Q) → ht P (bindM m k) Q.
Proof. intros HP Hm Hk. eapply ht_bind; [by apply ht_inert|]. exact Hk. Qed.

(** A send on a connection that was greeted. *)
Lemma Send_view x msg : Greeted x → Disciplined x → (∃ d, msg = CmData d) →
  ∃ b y, conn_Send msg x = (Ok b, y) ∧ Disciplined y ∧ Greeted y ∧ (view y).1.2 = (view x).1.2.
Proof.
  intros (m & l & Hg) HJ [d ->]. unfold view in Hg. cbn in Hg. unfold conn_Send.
  destruct (n_conn (x_net x)) as [c|] eqn:Hc; [|done]. cbn in Hg. injection Hg as Hg.
  unfold Disciplined, wires in HJ. rewrite Hc in HJ. cbn in HJ. destruct HJ as [HJz [HJ1 HJ2]%Forall_app]. inversion HJ2 as [|? ? Hw _]; subst.
  assert (Hsend : Disciplined (set_net (set_conn (Some (mkConn (cn_sent c ++ [CmData d]) (cn_inbox c) (List.tl (cn_sendfail c)))) (x_net x)) x)).
  { unfold Disciplined, wires. cbn. split; [done|]. apply Forall_app. split; [done|]. constructor; [|constructor]. rewrite Hg in *. cbn.
    destruct m as [i|?]; [|done]. destruct Hw as [Hi Hl]. split; [done|]. apply Forall_app. split; [done|]. constructor; [by eexists | constructor]. }
  destruct (cn_sendfail c) as [|[|] f] eqn:Hf; (do 2 eexists; split; [reflexivity|]); (split; [|split; [|done]]);
    try exact Hsend; unfold Greeted, view; cbn; rewrite Hg; try (by do 2 eexists).
  unfold Disciplined, wires. cbn. split; [done|]. apply Forall_app. split; [exact HJ1 | rewrite <- Hg; exact HJ2].
Qed.

Lemma Send_ok msg : (∃ d, msg = CmData d) → ht Connected (conn_Send msg) (λ _, Connected).
Proof.
  intros Hmsg x HJ [Hg Hr]. destruct (Send_view x msg Hg HJ Hmsg) as (b & y & He & HJ' & Hg' & Hr'). rewrite He. cbn.
  split; [done|]. split; [done|]. by rewrite Hr'.
Qed.

Definition HasConn (x : Sess) : Prop := is_Some (view x).1.1.

Lemma Greeted_HasConn x : Greeted x → HasConn x.
Proof. intros (m & l & Hg). unfold HasConn. rewrite Hg. eauto. Qed.
Lemma Connected_HasConn x : Connected x → HasConn x.
Proof. intros [Hg _]. by apply Greeted_HasConn. Qed.

Lemma drop_ok : ht HasConn drop_conn (λ _, Idle).
Proof.
  intros x HJ [l Hg]. unfold drop_conn, view in *. cbn in Hg. destruct (n_conn (x_net x)) as [c|] eqn:Hc; [|done].
  cbn. split; [|done]. unfold Disciplined, wires in *. rewrite Hc in HJ. cbn in *. by rewrite app_nil_r.
Qed.

Lemma regress_ok : ht (λ x, Idle x ∨ Connected x) regressToConnecting (λ _, Idle).
Proof.
  intros x HJ [HI|[HG Hr]]; unfold regressToConnecting, bindM, mget.
  - destruct HI as [HI HI2]. pose proof HI as HI'. unfold view in HI'. cbn in HI'. destruct (n_conn (x_net x)); [done|]. by split.
  - pose proof (drop_ok x HJ (Greeted_HasConn x HG)) as Hd. destruct HG as (m & l & HG). unfold view in HG. cbn in HG.
    by destruct (n_conn (x_net x)).
Qed.

Lemma ht_drop_then {A} (k : unit → SessM A) Q : (∀ u, ht Idle (k u) Q) → ht Connected (bindM drop_conn k) Q.
Proof.
  intros Hk. eapply ht_bind; [|exact Hk]. eapply ht_conseq; [exact drop_ok | exact Connected_HasConn | by intros ? ? Hx].
Qed.
Lemma ht_regress_then {A} P (k : unit → SessM A) Q : (∀ x, P x → Idle x ∨ Connected x) → (∀ u, ht Idle (k u) Q) →
  ht P (bindM regressToConnecting k) Q.
Proof. intros HP Hk. eapply ht_bind; [|exact Hk]. eapply ht_conseq; [exact regress_ok | exact HP | by intros ? ? Hx]. Qed.

(** An acknowledgement does not touch the connections, and keeps the discipline. *)
Lemma ht_acks {A} P (m : M (Acks * (WAL * World)) SimErr A) : of_view P →
  (∀ k s, ∃ a k' s', m (k, s) = (Ok a, (k', s')) ∧ acks_le k k' ∧ (unset_zero k → unset_zero k')) → ht P (on_acks m) (λ _, P).
Proof.
  intros HP Hm x [HJz HJ] Hx. unfold on_acks. destruct (Hm (x_acks x) (x_log x)) as (a & k' & s' & -> & Hle & Hz). cbn. split.
  - unfold Disciplined, wires in *. cbn. split; [by apply Hz|]. eapply Forall_impl; [exact HJ|]. intros l. by apply wire_ok_mono.
  - by apply (HP x).
Qed.

Context (Hwal : to_WAL o = true).

Lemma recv_ack_step g q k s : ∃ kind k' s', applyAckFromRecv (E := SimErr) (fns o) g q (k, s) = (Ok kind, (k', s')) ∧ ack_step k s g q kind k' s'.
Proof.
  unfold fns. rewrite Hwal. destruct (applyAckFromRecv_dispatch (E := SimErr) k s g q) as (out & k1 & Hc & ->).
  pose proof (dispatch_step _ _ _ _ _ _ Hc) as Hd. destruct (dispatch k s g q out k1) as [[kind k'] s']. by exists kind, k', s'.
Qed.
Lemma ack_step_unset k s g q kind k' s' : ack_step k s g q kind k' s' → unset_zero k → unset_zero k'.
Proof.
  intros (Hle & _ & _ & Had & Hre & Hno) Hz Hp.
  assert (Hk : k_persistedAckPresent k = false) by (destruct (k_persistedAckPresent k) eqn:Hk; [by destruct (Hle Hk); congruence | done]).
  rewrite <- (Hz Hk). destruct kind.
  - apply Hno. by left.
  - destruct (Had eq_refl) as [? _]. congruence.
  - by apply Hre.
  - apply Hno. by right.
Qed.
Lemma recv_acks g q k s : ∃ a k' s', applyAckFromRecv (E := SimErr) (fns o) g q (k, s) = (Ok a, (k', s')) ∧ acks_le k k' ∧
  (unset_zero k → unset_zero k').
Proof.
  destruct (recv_ack_step g q k s) as (kind & k' & s' & Hr & Hs). exists kind, k', s'. split_and!; [done | by destruct Hs | by eapply ack_step_unset].
Qed.
Lemma session_acks g q k s : ∃ a k' s', ackSessionAck (E := SimErr) (fns o) g q (k, s) = (Ok a, (k', s')) ∧ acks_le k k' ∧
  (unset_zero k → unset_zero k').
Proof.
  unfold fns. rewrite Hwal. destruct (ackSessionAck_dispatch (E := SimErr) k s g q) as (out & k1 & Hc & ->).
  pose proof (dispatch_step _ _ _ _ _ _ Hc) as Hd. destruct (dispatch k s g q out k1) as [[kind k'] s'].
  exists tt, k', s'. split_and!; [done | by destruct Hd | by eapply ack_step_unset].
Qed.

#[local] Hint Resolve of_view_Idle of_view_Connected of_view_Greeted : session.
#[local] Hint Resolve play_inert TryNext_inert rdr_Close_inert rdrFactory_inert on_batcher_inert push_inflight_inert take_notify_inert
  take_event_inert take_err_inert applyPushedPolicy_inert conn_Recv_inert inert_ret inert_get : session.
#[local] Hint Extern 3 (inert (select _)) => apply select_inert : session.
#[local] Hint Extern 3 (inert (mput _)) => apply inert_put; intros ?; split; reflexivity : session.
#[local] Hint Extern 3 (inert (merr _)) => apply inert_err; discriminate : session.

(** Peels the operations that leave the connections alone. *)
#[local] Ltac peel := repeat (apply ht_inert_then; [by auto with session | by auto with session | intros ?]).

(** *** Connecting *)

Definition connect_end (r : State * option TErr) (x : Sess) : Prop :=
  match r with
  | (st, Some _) => Idle x ∧ (st = StateConnecting ∨ st = StateShutdown)
  | (st, None) => Greeted x ∧ st = StateReplaying
  end.

Lemma refuse_ok reason st e : st = StateConnecting ∨ st = StateShutdown → ht HasConn (refuse reason st e) connect_end.
Proof.
  intros Hst. unfold refuse. eapply ht_bind; [exact drop_ok|]. intros []. apply ht_inert_then; [apply of_view_Idle | by apply inert_put|].
  intros []. apply ht_ret. intros x Hx. by split.
Qed.

(** A fresh connection, and the frame to greet it with. *)
Definition Dialed (init : SessionInit DecisionContext) (x : Sess) : Prop := (view x).1.1 = Some [] ∧ sessionInit o (x_acks x) = init.

Lemma dial_ok init : ht (λ x, Idle x ∧ sessionInit o (x_acks x) = init) dial (λ r, match r with Some _ => Idle | None => Dialed init end).
Proof.
  intros x HJ [HI Hk]. unfold dial, bindM. destruct (play_inert x) as (Hv & Ha & Hp). pose proof (Disciplined_view _ _ (eq_sym Hv) (eq_sym Ha) HJ) as HJ1.
  pose proof (of_view_Idle _ _ (eq_sym Hv) HI) as [HI1 HI2]. rewrite <- Ha in Hk. destruct (play x) as [[pick|e] y]; cbn [fst snd] in *;
    [|split; [done | by intros ->]].
  destruct (n_dials (x_net y)) as [|[c|e] ds]; [done| |].
  - split; [|done]. unfold Disciplined, wires in *. cbn. destruct HJ1 as [HJz [HJ1 _]%Forall_app]. split; [done|]. apply Forall_app. split; [done|].
    by constructor; [|constructor].
  - by split.
Qed.

Lemma greet_ok init : ht (Dialed init) (conn_Send (CmSessionInit init)) (λ b, if b then Greeted else HasConn).
Proof.
  intros x HJ [Hc Hk]. unfold conn_Send, view in *. cbn in Hc. destruct (n_conn (x_net x)) as [c|] eqn:Hn; [|done]. cbn in Hc. injection Hc as Hc.
  unfold Disciplined, wires in HJ. rewrite Hn in HJ. cbn in HJ. destruct HJ as [HJz [HJ1 _]%Forall_app].
  assert (Hw : wire_ok (x_acks x) [CmSessionInit init]).
  { split; [|constructor]. rewrite <- Hk. split; [done|]. unfold cursor_of. cbn [sessionInit si_WalHighWatermarkSeq si_Generation].
    rewrite cursor_eta. destruct (k_persistedAckPresent (x_acks x)) eqn:Hp; [right; split; [done|reflexivity] | left; by apply HJz]. }
  destruct (cn_sendfail c) as [|[|] f]; cbn; unfold Disciplined, wires, HasConn, Greeted, view; cbn; rewrite Hc; cbn;
    (split; [split; [done|]; apply Forall_app; split; [done|]; by constructor; [|constructor] | by repeat eexists]).
Qed.

Lemma runConnecting_ok : ht Idle (runConnecting o) connect_end.
Proof.
  unfold runConnecting. apply ht_get_then. intros init. destruct (negb _).
  { eapply ht_conseq with (P := Idle); [|by intros x []|intros a x Hx; exact Hx].
    apply ht_inert_then; [apply of_view_Idle | by apply inert_put|]. intros []. apply ht_ret. intros x Hx. split; [done | by right]. }
  eapply ht_bind; [apply dial_ok|]. intros [e|].
  { destruct (IsAuthReject e); [apply ht_inert_then; [apply of_view_Idle | by apply inert_put|]; intros []|];
      apply ht_ret; intros x Hx; (split; [done | by left]). }
  eapply ht_bind; [apply greet_ok|]. intros [|]; cbn [negb]; [|apply refuse_ok; by left].
  peel. match goal with r : Result _ _ |- _ => destruct r as [m|e] end.
  2: { destruct (IsAuthReject e); (eapply ht_conseq; [apply refuse_ok; by left | exact Greeted_HasConn | by intros ? ? Hx]). }
  destruct m as [ack| | | | | |]; try (eapply ht_conseq; [apply refuse_ok; by left | exact Greeted_HasConn | by intros ? ? Hx]).
  destruct (negb (sa_Accepted ack)).
  { apply ht_inert_then; [apply of_view_Greeted | by apply inert_put|]. intros [].
    eapply ht_conseq; [apply refuse_ok; by right | exact Greeted_HasConn | by intros ? ? Hx]. }
  apply ht_inert_then; [apply of_view_Greeted | destruct (negb _); auto with session |]. intros [].
  eapply ht_bind; [apply ht_acks; [apply of_view_Greeted | intros; apply session_acks]|]. intros []. apply ht_ret. by intros x Hx.
Qed.

(** Nothing is sent and no connection opened. *)
Definition mute {A} (m : SessM A) : Prop := ∀ x, wires (m x).2 = wires x.
Lemma inert_mute {A} (m : SessM A) : inert m → mute m.
Proof. intros Hm x. destruct (Hm x) as (Hv & _ & _). unfold view in Hv. injection Hv as Hc _ Hp. unfold wires. by rewrite Hc, Hp. Qed.
Lemma mute_bind {A B} (m : SessM A) (k : A → SessM B) : mute m → (∀ a, mute (k a)) → mute (bindM m k).
Proof. intros Hm Hk x. specialize (Hm x). unfold bindM. destruct (m x) as [[a|e] y]; [by rewrite Hk | done]. Qed.
Lemma drop_mute : mute drop_conn.
Proof. intros x. unfold drop_conn, wires. destruct (n_conn (x_net x)) eqn:Hc; cbn; rewrite ?Hc; cbn; by rewrite ?app_nil_r. Qed.
Lemma refuse_mute reason st e : mute (refuse reason st e).
Proof. apply mute_bind; [exact drop_mute|]. intros _. apply inert_mute. by auto with session. Qed.
Lemma on_acks_mute {A} (m : M (Acks * (WAL * World)) SimErr A) : mute (on_acks m).
Proof. intros x. unfold on_acks. by destruct (m _) as [r [k s]]. Qed.
Lemma handshake_mute r : mute (match r with
  | Err e => if IsAuthReject e then refuse "auth_rejected" StateConnecting ErrRecvSessionAckAuth
             else refuse "recv_failed" StateConnecting ErrRecvSessionAck
  | Ok (SmSessionAck ack) =>
      if negb (sa_Accepted ack) then
        do* set_reject (sa_RejectReason ack) in
        refuse "rejected" StateShutdown (ErrSessionRejected (sa_RejectReason ack))
      else
        do* (if negb (String.eqb (wp_PolicyId (sa_Policy ack)) "") then applyPushedPolicy o (fromWirePolicyPush (sa_Policy ack))
             else ret tt) in
        do* on_acks (ackSessionAck (fns o) (sa_Generation ack) (sa_AckHighWatermarkSeq ack)) in
        ret (StateReplaying, None)
  | Ok _ => refuse "unexpected_message" StateConnecting ErrExpectedSessionAck
  end).
Proof.
  destruct r as [[ack| | | | | |]|e]; try apply refuse_mute; [|by destruct (IsAuthReject e); apply refuse_mute].
  destruct (negb (sa_Accepted ack)); (apply mute_bind; [apply inert_mute | intros _]).
  - by apply inert_put.
  - apply refuse_mute.
  - destruct (negb _); auto with session.
  - apply mute_bind; [apply on_acks_mute|]. by intros _ x.
Qed.

(** The Connecting state opens at most one connection and sends it at most one frame: a
    SessionInit with exactly the cursor persisted when the state was entered. *)
Definition greeting (x : Sess) (l : list (list ClientMessage)) : Prop :=
  l = [] ∨ l = [[]] ∨
  ∃ i, l = [[CmSessionInit i]] ∧ si_SessionId i = to_SessionID o ∧ cursor_of i = k_persistedAck (x_acks x).
Lemma runConnecting_greets x : Idle x → ∃ l, wires (runConnecting o x).2 = wires x ++ l ∧ greeting x l.
Proof.
  intros [HI _]. unfold runConnecting, bindM at 1, mget. destruct (negb _).
  { exists []. rewrite app_nil_r. split; [done | by left]. }
  unfold bindM at 1. destruct (dial x) as [d y] eqn:Hd. unfold dial, bindM in Hd. pose proof (inert_mute _ play_inert x) as Hw.
  destruct (play_inert x) as (Hv & _ & _). unfold view in HI, Hv. cbn in HI. destruct (play x) as [[pick|e] z]; cbn [fst snd] in *.
  2: { injection Hd as <- <-. exists []. rewrite app_nil_r. split; [done | by left]. }
  injection Hv as Hc _ _. rewrite HI in Hc. unfold wires in Hw. rewrite Hc in Hw. cbn in Hw. rewrite app_nil_r in Hw. fold (wires x) in Hw.
  assert (Hz : wires z = wires x) by (unfold wires at 1; rewrite Hc; cbn; by rewrite app_nil_r).
  destruct (n_dials (x_net z)) as [|[c|e] ds]; injection Hd as <- <-.
  - exists []. rewrite app_nil_r. split; [done | by left].
  - unfold bindM at 1. unfold conn_Send. cbn [x_net set_net n_conn cn_sent cn_sendfail cn_inbox].
    destruct (cn_sendfail c) as [|[|] f]; cbn [negb].
    2: { exists [[]]. split; [|by right; left]. rewrite refuse_mute. unfold wires at 1. cbn. by rewrite Hw. }
    all: exists [[CmSessionInit (sessionInit o (x_acks x))]]; (split; [|right; right; eexists; split_and!; [done | done | by apply cursor_eta]]);
      (rewrite (mute_bind conn_Recv _ (inert_mute _ conn_Recv_inert) handshake_mute)); unfold wires at 1; cbn; by rewrite Hw.
  - exists []. rewrite app_nil_r. split; [|by left]. rewrite <- Hz. by destruct (IsAuthReject e).
Qed.

(** *** Replaying *)

Lemma next_batch_inert fuel r batch n : inert (next_batch fuel r batch n).
Proof.
  revert r batch n. induction fuel as [|fuel IH]; intros r batch n; cbn [next_batch]; [auto with session|].
  apply inert_bind; [auto with session|]. intros _. apply inert_bind; [auto with session|]. intros c.
  destruct c; [auto with session|]. destruct (_ && _); [auto with session|]. destruct (_ && _); [auto with session|].
  apply inert_bind; [auto with session|]. intros [[rec|]|e]; [|auto with session..].
  destruct (rec_Kind rec); [destruct (watermarkLess _ _); auto with session | auto..].
Qed.

Lemma send_msgs_ok msgs : ht Connected (send_msgs msgs) (λ _, Connected).
Proof.
  induction msgs as [|msg msgs IH]; cbn [send_msgs]; [by apply ht_ret|].
  eapply ht_bind; [apply Send_ok; eauto|]. intros [|]; [exact IH | by apply ht_ret].
Qed.

Definition replay_end (r : State * option TErr * Replayer) (x : Sess) : Prop :=
  match r with
  | (st, Some _, _) => Idle x ∧ st = StateConnecting
  | (st, None, _) => (st = StateLive ∧ Connected x) ∨ (st = StateShutdown ∧ Idle x)
  end.

Lemma fail_replay_ok e r : ht Connected (fail_replay e r) replay_end.
Proof.
  unfold fail_replay. apply ht_drop_then.
  intros []. by apply ht_ret.
Qed.

Lemma replay_batch_ok fuel again r : (∀ r, ht Connected (again r) replay_end) → ht Connected (replay_batch o fuel again r) replay_end.
Proof.
  intros Ha. unfold replay_batch. apply ht_inert_then; [auto with session | apply next_batch_inert|]. intros [[[batch done] err] r'].
  destruct err as [e|]; [apply fail_replay_ok|].
  eapply ht_bind with (R := λ _, Connected).
  - unfold send_replayed. destruct batch; [by apply ht_ret|]. destruct (encodeBatch _ _); [apply send_msgs_ok | by apply ht_ret].
  - intros [e|]; [apply fail_replay_ok|]. destruct done; [apply ht_ret; intros x Hx; by left | apply Ha].
Qed.

Lemma stop_inert : inert take_stop.
Proof. by apply inert_put. Qed.
Lemma close_done_inert : inert close_done.
Proof. by apply inert_put. Qed.

Lemma runReplaying_ok fuel r : ht Connected (runReplaying o fuel r) replay_end.
Proof.
  revert r. induction fuel as [|fuel IH]; intros r; cbn [runReplaying]; [by apply ht_err|].
  peel. destruct (pick_arm _ _) as [[| | ev | e | |]|]; try (by apply replay_batch_ok).
  - apply ht_inert_then; [auto with session | apply stop_inert|]. intros [].
    apply ht_drop_then. intros [].
    apply ht_inert_then; [auto with session | apply close_done_inert|]. intros []. apply ht_ret. intros x Hx. by right.
  - peel. eapply ht_bind with (R := λ _, Connected); [|intros []; by apply replay_batch_ok].
    destruct ev; [..|by apply ht_ret];
      (eapply ht_bind; [apply ht_acks; [auto with session | intros; apply recv_acks]|]; intros ?; by apply ht_ret).
  - peel. apply fail_replay_ok.
Qed.

(** *** Live *)

Lemma send_tracked_ok msgs : ht Connected (send_tracked msgs) (λ _, Connected).
Proof.
  induction msgs as [|msg msgs IH]; cbn [send_tracked]; [by apply ht_ret|].
  eapply ht_bind; [apply Send_ok; eauto|]. intros [|]; [peel; exact IH | by apply ht_ret].
Qed.

Lemma sendBatch_ok out : ht Connected (sendBatch o out) (λ _, Connected).
Proof. unfold sendBatch. destruct out as [b|]; [|by apply ht_ret]. destruct (encodeBatch o b); [apply send_tracked_ok | by apply ht_ret]. Qed.

Lemma drainAvailable_ok fuel id : ht Connected (drainAvailable o opts fuel id) (λ _, Connected).
Proof.
  induction fuel as [|fuel IH]; cbn [drainAvailable]; [by apply ht_err|]. peel.
  match goal with b : bool |- _ => destruct b end; [|by apply ht_ret]. peel.
  match goal with r : Result _ _ |- _ => destruct r as [[rec|]|e] end; [|by apply ht_ret..]. peel.
  eapply ht_bind; [apply sendBatch_ok|]. intros [e|]; [by apply ht_ret | exact IH].
Qed.

Lemma send_anyway_ok msgs : ht Connected (send_anyway msgs) (λ _, Connected).
Proof.
  induction msgs as [|msg msgs IH]; cbn [send_anyway]; [by apply ht_ret|].
  eapply ht_bind; [apply Send_ok; eauto|]. by intros ?.
Qed.

Lemma shutdown_drain_ok fuel id limit : ht Connected (shutdown_drain o fuel id limit) (λ _, Connected).
Proof.
  induction fuel as [|fuel IH]; cbn [shutdown_drain]; [by apply ht_err|]. peel.
  match goal with b : bool |- _ => destruct b end; [by apply ht_ret|]. peel.
  match goal with r : Result _ _ |- _ => destruct r as [[rec|]|e] end; [|by apply ht_ret..]. peel.
  eapply ht_bind with (R := λ _, Connected); [|intros [e|]; [by apply ht_ret | exact IH]].
  match goal with b : option Batch |- _ => destruct b as [bt|] end; [|by apply ht_ret].
  destruct (encodeBatch o bt); [apply send_msgs_ok | by apply ht_ret].
Qed.

Lemma runShutdown_ok fuel id d : ht Connected (runShutdown o fuel id d) (λ _, Connected).
Proof.
  unfold runShutdown. peel. eapply ht_bind with (R := λ _, Connected).
  - destruct (0 <? d); [apply shutdown_drain_ok | by apply ht_ret].
  - intros []. peel. match goal with b : option Batch |- _ => destruct b as [bt|] end; [|by apply ht_ret].
    destruct (encodeBatch o bt); [apply send_anyway_ok | by apply ht_ret].
Qed.

Definition live_end (r : State * option TErr) (x : Sess) : Prop :=
  Idle x ∧ match r.2 with Some _ => r.1 = StateConnecting ∨ r.1 = StateShutdown | None => r.1 = StateShutdown end.

(** An arm of the loop either goes on or ends the session. *)
Definition arm_end (r : option (State * option TErr)) : Sess → Prop :=
  match r with Some r => live_end r | None => Connected end.

Lemma fail_live_ok e : ht Connected (fail_live e) arm_end.
Proof.
  unfold fail_live. apply ht_drop_then.
  intros []. apply ht_ret. intros x Hx. split; [done | by left].
Qed.

Lemma drain_or_fail_ok fuel id : ht Connected (drain_or_fail o opts fuel id) arm_end.
Proof.
  unfold drain_or_fail. eapply ht_bind; [apply drainAvailable_ok|]. intros [e|]; [apply fail_live_ok | by apply ht_ret].
Qed.

Lemma live_ack_ok fuel id g q : ht Connected (live_ack o opts fuel id g q) arm_end.
Proof.
  unfold live_ack. eapply ht_bind; [apply ht_acks; [auto with session | intros; apply recv_acks]|]. intros out.
  destruct (decide _); [|by apply ht_ret]. apply ht_inert_then; [auto with session | by apply inert_put|]. intros []. apply drain_or_fail_ok.
Qed.

Lemma live_arm_ok fuel id a : ht Connected (live_arm o opts fuel id a) arm_end.
Proof.
  destruct a as [|d|ev|e| |]; cbn [live_arm].
  - apply ht_drop_then.
    intros []. apply ht_ret. intros x Hx. split; [done | by right].
  - apply ht_inert_then; [auto with session | apply stop_inert|]. intros []. eapply ht_bind; [apply runShutdown_ok|]. intros [].
    apply ht_drop_then. intros [].
    apply ht_inert_then; [auto with session | apply close_done_inert|]. intros []. apply ht_ret. by intros x Hx.
  - peel. destruct ev; [apply live_ack_ok.. |]. peel. by apply ht_ret.
  - peel. apply fail_live_ok.
  - peel. apply drain_or_fail_ok.
  - peel. match goal with b : bool |- _ => destruct b end; [|by apply ht_ret]. peel.
    eapply ht_bind; [apply sendBatch_ok|]. intros [e|]; [apply fail_live_ok | by apply ht_ret].
Qed.

Lemma live_loop_ok fuel id : ht Connected (live_loop o opts fuel id) live_end.
Proof.
  induction fuel as [|fuel IH]; cbn [live_loop]; [by apply ht_err|]. peel.
  eapply ht_bind; [apply live_arm_ok|]. intros [r|]; [by apply ht_ret | exact IH].
Qed.

(** The ticker has a positive period. *)
Context (Hage : 2 ≤ bo_MaxAge (lo_Batcher opts)).

Lemma runLive_ok fuel id : ht Connected (runLive o opts fuel id) live_end.
Proof.
  unfold runLive. apply ht_inert_then; [auto with session | |].
  { intros x. unfold live_init. rewrite (proj2 (Z.leb_gt _ 0)); [done|]. pose proof (Z.quot_le_mono 2 _ 2 ltac:(lia) Hage) as Hq.
    rewrite Z.quot_same in Hq by lia. lia. }
  intros []. eapply ht_bind; [apply drain_or_fail_ok|]. intros r. eapply ht_bind with (R := live_end).
  - destruct r as [r|]; [by apply ht_ret | apply live_loop_ok].
  - intros res. apply ht_inert_then; [| auto with session | intros []; by apply ht_ret].
    intros x y Hv [HI Hr]. split; [by apply (of_view_Idle x) | done].
Qed.

(** *** The run loop *)

Definition at_state (st : State) : Sess → Prop :=
  match st with StateConnecting | StateShutdown => Idle | StateReplaying | StateLive => Connected end.

Definition stages_end (r : StagesEnd * option Replayer) (x : Sess) : Prop :=
  match r.1 with
  | SeDone => Connected x
  | SeErr _ => Idle x ∨ Connected x
  | SeState st => st = StateShutdown ∧ Idle x
  | SeReturn _ => Idle x
  end.

Lemma replay_end_view r : of_view (replay_end r).
Proof.
  intros x y Hv. destruct r as [[st [e|]] r]; cbn.
  - intros [? ?]. split; [by apply (of_view_Idle x) | done].
  - intros [[? ?]|[? ?]]; [left | right]; (split; [done|]); [by apply (of_view_Connected x) | by apply (of_view_Idle x)].
Qed.

Lemma stages_loop_ok fuel stages rep : ht Connected (stages_loop o opts fuel stages rep) stages_end.
Proof.
  revert rep. induction stages as [|stage stages IH]; intros rep; cbn [stages_loop]; [by apply ht_ret|].
  peel. match goal with r : Result ReaderErr nat |- _ => destruct r as [id'|e] end; [|apply ht_ret; intros x Hx; by right].
  apply ht_inert_then; [auto with session | apply inert_get|]. intros [r|e]; [|peel; apply ht_ret; intros x Hx; by right].
  eapply ht_bind; [apply runReplaying_ok|]. intros [[next err] r'].
  apply ht_inert_then; [apply replay_end_view | auto with session|]. intros [].
  destruct err as [e|].
  - apply ht_ret. intros x [Hx ->]. by left.
  - destruct (decide (next = StateLive)) as [->|Hne].
    + eapply ht_conseq; [apply IH | | by intros ? ? Hx]. by intros x [[_ Hx]|[? _]].
    + apply ht_ret. intros x [[? _]|[-> Hx]]; done.
Qed.

Lemma backoff_ok : ht Idle backoff_wait (λ _, Idle).
Proof.
  unfold backoff_wait. peel. match goal with a : WaitArm |- _ => destruct a end; [by apply ht_ret | | by apply ht_ret].
  apply ht_inert_then; [auto with session | apply stop_inert|]. intros []. unfold handleOuterStop.
  eapply ht_bind with (R := λ _, Idle); [|intros []; by apply ht_ret].
  apply ht_regress_then; [by left|].
  intros []. apply ht_inert; [auto with session | apply close_done_inert].
Qed.

Definition run_end (r : option TErr + State * option Replayer) : Sess → Prop :=
  match r with inl _ => Idle | inr (st, _) => at_state st end.

(** A backoff, then either the end or another try. *)
Lemma backoff_then rep : ht Idle (let* w := backoff_wait in
  match w with Some r => ret (inl r) | None => ret (inr (StateConnecting, rep)) end) run_end.
Proof. eapply ht_bind; [apply backoff_ok|]. intros [r|]; by apply ht_ret. Qed.

Lemma run_state_ok fuel st rep : ht (at_state st) (run_state o opts fuel st rep) run_end.
Proof.
  destruct st; cbn [run_state at_state].
  - eapply ht_bind; [apply runConnecting_ok|]. intros [next err]. destruct err as [e|].
    + destruct (decide (next = StateShutdown)) as [->|Hne]; [apply ht_ret; by intros x [? _]|].
      eapply ht_conseq; [apply backoff_then | by intros x [? _] | by intros ? ? Hx].
    + intros x HJ [Hg ->]. unfold bindM, startRecv, mput, ret. cbn. split; [done|]. split; [|eauto].
      destruct Hg as (m & l & Hg). by exists m, l.
  - peel. apply ht_inert_then; [auto with session | |].
    { intros x. by destruct (computeReplayPlan _ _ _ _) as [r s]. }
    intros [stages|e].
    + eapply ht_bind; [apply stages_loop_ok|]. intros [[|e|st|e] rep']; unfold stages_end; cbn.
      * by apply ht_ret.
      * eapply ht_bind; [apply regress_ok|]. intros []. apply backoff_then.
      * apply ht_ret. by intros x [-> Hx].
      * by apply ht_ret.
    + apply ht_regress_then; [by right|]. intros []. by apply ht_ret.
  - peel. match goal with r : Result ReaderErr nat |- _ => destruct r as [id'|e] end.
    + eapply ht_bind; [apply runLive_ok|]. intros [next err]. destruct err as [e|].
      * destruct (decide (next = StateShutdown)); [apply ht_ret; by intros x [? _]|].
        eapply ht_conseq; [apply backoff_then | by intros x [? _] | by intros ? ? Hx].
      * apply ht_ret. intros x [Hx Hn]. cbn in Hn. by subst next.
    + apply ht_regress_then; [by right|]. intros []. by apply ht_ret.
  - by apply ht_ret.
Qed.

Lemma at_state_any st x : at_state st x → Idle x ∨ Connected x.
Proof. destruct st; cbn; tauto. Qed.

Lemma of_view_at st : of_view (at_state st).
Proof. destruct st; auto with session. Qed.

Lemma run_loop_ok fuel st rep : ht (at_state st) (run_loop o opts fuel st rep) (λ _, Idle).
Proof.
  revert st rep. induction fuel as [|fuel IH]; intros st rep; cbn [run_loop]; [by apply ht_err|].
  apply ht_inert_then; [apply of_view_at | auto with session|]. intros pick.
  apply ht_inert_then; [apply of_view_at | auto with session|]. intros ready.
  destruct (pick_arm pick ready) as [[|]|].
  - apply ht_regress_then; [apply at_state_any|]. intros []. by apply ht_ret.
  - apply ht_inert_then; [apply of_view_at | apply stop_inert|]. intros []. unfold handleOuterStop.
    eapply ht_bind with (R := λ _, Idle); [|intros []; by apply ht_ret].
    apply ht_regress_then; [apply at_state_any|].
    intros []. apply ht_inert; [auto with session | apply close_done_inert].
  - eapply ht_bind; [apply run_state_ok|]. intros [err|[st' rep']]; [by apply ht_ret | apply IH].
Qed.

End discipline.

(** C13. The run loop keeps its connections in order, whatever the server, the network,
    the log and the scheduler do and wherever it is observed, with a log configured and a
    batch age of at least two nanoseconds (half of it is the period of a ticker, and
    [time.NewTicker] panics on zero). It never uses a nil connection; when it returns there is no
    connection and no receiver left; and each connection there ever was has been sent at most
    one SessionInit, as its first frame, followed by data frames only. The cursor in it is
    zero or not ahead of the one persisted by now; and exactly the one that was persisted when
    the Connecting state was entered, which opens at most one connection and sends it
    nothing else. *)
Theorem run_disciplined `{WtpLib, WtpWire} o opts fuel x r y :
  to_WAL o = true → 2 ≤ bo_MaxAge (lo_Batcher opts) → Idle x → Disciplined o x → Run o opts fuel x = (r, y) →
  r ≠ Err Panic ∧ (∀ err, r = Ok err → Idle y) ∧ Forall (wire_ok o (x_acks y)) (wires y) ∧
  ∀ z, Idle z → ∃ l, wires (runConnecting o z).2 = wires z ++ l ∧ greeting o z l.
Proof.
  intros Hwal Hage HI HJ Hrun.
  assert (Hg : ∀ z, Idle z → ∃ l, wires (runConnecting o z).2 = wires z ++ l ∧ greeting o z l) by (intros z Hz; by apply runConnecting_greets).
  unfold Run, bindM at 1, mget in Hrun.
  destruct (ev_runStarted (x_env x)); [injection Hrun as <- <-; split_and!; [done | by intros err _ | apply HJ | exact Hg]|].
  unfold bindM at 1, mark_run at 1, mput in Hrun.
  match type of Hrun with bindM _ _ ?z = _ => set (x1 := z) in Hrun end.
  pose proof (run_loop_ok o opts Hwal Hage fuel StateConnecting None x1) as Hl.
  assert (HJ1 : Disciplined o x1) by (by apply (Disciplined_view o x)). assert (HI1 : Idle x1) by (by apply (of_view_Idle x)).
  specialize (Hl HJ1 HI1). unfold bindM at 1 in Hrun. destruct (run_loop o opts fuel StateConnecting None x1) as [[err|e] z]; cbn [fst snd] in Hl.
  - destruct Hl as [[_ HJz] HIz]. unfold bindM, mark_run, mput, ret in Hrun. injection Hrun as <- <-. split_and!; [done | by intros ? _ | done | exact Hg].
  - destruct Hl as [[_ HJz] He]. injection Hrun as <- <-. split_and!; [congruence | done | done | exact Hg].
Qed.

(** ** A concrete session *)

(** Payloads as events, frames that are all valid. *)
Definition demo_lib : WtpLib := {|
  CompactEvent := bytes;
  proto_unmarshal_event := Some;
  proto_marshal_events := λ evs, Some (mjoin evs);
  zstd_NewWriter := λ _, None;
  gzip_NewWriterLevel := λ _, None;
|}.
Definition demo_wire : WtpWire := {| DecisionContext := unit; ValidateSessionInit := λ _, true; ValidateServerMessage := λ _, None |}.

#[local] Existing Instance demo_lib.
#[local] Existing Instance demo_wire.

Definition demo_opts : TOptions :=
  mkTOptions true "agent" "session" 2 HASH_ALGORITHM_HMAC_SHA256 "" "" "" "" 0 None true None true false None.
Definition demo_live : LiveOptions := mkLiveOptions (mkBatcherOptions 1 1000 100) 8 0.

Definition no_policy : PolicyPush := mkPolicyPush "" 0 "" [] [] "" [].
Definition demo_ack : ServerMessage := SmSessionAck (mkSessionAck true "" 1 0 no_policy).

Definition demo_env (script : list Turn) : EnvVars := mkEnv script 0 false [] 0 0 false false.
Definition no_live : LiveVars := mkLiveVars (NewBatcher (lo_Batcher demo_live)) [] false [].

(** One record in the log, a server that accepts the session, and a stop request after a
    while. *)
Definition demo_start : Sess :=
  mkSess (fresh_acks s1) s1 (mkNet None None [] [Ok (mkConn [] [Ok demo_ack] [])]) no_live
         (demo_env (repeat (mkTurn [] 0) 20 ++ [mkTurn [ActStop 1000] 0])) (mkObs [] [] "").

Lemma run_disciplined_witness :
  let y := (Run demo_opts demo_live 50 demo_start).2 in
  Run demo_opts demo_live 50 demo_start = (Ok None, y) ∧ Idle y ∧
  n_past (x_net y) = [[CmSessionInit (sessionInit demo_opts (fresh_acks s1));
                       CmData (MsgEventBatch (mkEventBatch 1 1 1 COMPRESSION_NONE (Uncompressed [p0])))]] ∧
  Forall (wire_ok demo_opts (x_acks y)) (wires y).
Proof.
  cbv zeta. assert (Hr : (Run demo_opts demo_live 50 demo_start).1 = Ok None) by (vm_compute; reflexivity).
  destruct (Run demo_opts demo_live 50 demo_start) as [r y] eqn:Hrun. cbn [fst] in Hr. subst r. cbn [snd].
  assert (HI0 : Idle demo_start) by (split; reflexivity).
  assert (HJ0 : Disciplined demo_opts demo_start) by (split; [intros _; reflexivity | apply Forall_nil_2]).
  pose proof (run_disciplined demo_opts demo_live 50 demo_start (Ok None) y eq_refl ltac:(cbn; lia) HI0 HJ0 Hrun) as (_ & HI & HW & _).
  split; [reflexivity|]. split; [exact (HI _ eq_refl)|]. split; [|exact HW].
  assert (Hp : n_past (x_net (Run demo_opts demo_live 50 demo_start).2) = [[CmSessionInit (sessionInit demo_opts (fresh_acks s1));
    CmData (MsgEventBatch (mkEventBatch 1 1 1 COMPRESSION_NONE (Uncompressed [p0])))]]) by (vm_compute; reflexivity).
  rewrite Hrun in Hp. exact Hp.
Defined.
