(* ===== verification/WtpLive.v ===== *)
(** * What the watchtower transport puts on the wire

    Theorems about the Live and Replaying states of WtpSession: the frames of a session
    are the encodings of the records read from the log, in order. *)

From S2P Require Import Prelude WalFrame WalFs Wal WalInv WalSpec WalRecover WalProps WalReader WalIndex WtpBatch WtpAck WtpSession WtpRun.
Open Scope Z_scope.

Section live.
Context `{WtpLib, WtpWire} (o : TOptions) (opts : LiveOptions).

(** The part of the state that carries the stream. *)
Definition core (x : Sess) := (cn_sent <$> n_conn (x_net x), v_batcher (x_live x), v_inflight (x_live x), v_read (x_live x), x_acks x).

Lemma runRecv_live x : x_live (runRecv x) = x_live x.
Proof.
  unfold runRecv. destruct (n_recv (x_net x)) as [rs|]; [|done]. destruct (n_conn (x_net x)) as [c|]; [|done].
  assert (Hms : ∀ ms y, x_live (foldl (λ x m, count_metric m x) y ms) = x_live y).
  { induction ms as [|m ms IH]; intros y; cbn; [done|]. by rewrite IH. }
  destruct (rs_ctl rs); [destruct (ev_cancelled (x_env x)); [|destruct (cn_inbox c) as [|[m|e] inbox]]|destruct (decide _)|]; try done.
  destruct (demux m) as [ev|[e ms]]; [done | by rewrite Hms].
Qed.

Lemma do_act_core x a : core (do_act x a) = core x.
Proof.
  assert (Hl : v_batcher (x_live (do_act x a)) = v_batcher (x_live x) ∧ v_inflight (x_live (do_act x a)) = v_inflight (x_live x) ∧
               v_read (x_live (do_act x a)) = v_read (x_live x)).
  { destruct a; cbn; try done; [by destruct (n_conn (x_net x)) | by rewrite runRecv_live|].
    unfold runRecv_quit. destruct (n_recv (x_net x)) as [rs|]; [|done]. destruct (rs_ctl rs); try done. by destruct (ev_cancelled (x_env x)). }
  destruct (do_act_view x a) as [Hv Ha]. unfold view in Hv. injection Hv as Hv _ _. unfold core. destruct Hl as (-> & -> & ->). by rewrite Hv, Ha.
Qed.

(** ** Partial correctness with a condition for waiting for ever *)

Definition pt {A} (P : Sess → Prop) (m : SessM A) (Q : A → Sess → Prop) (E : Sess → Prop) : Prop := ∀ x, P x →
  match m x with (Ok a, y) => Q a y | (Err Blocked, y) => E y | (Err _, _) => True end.

Lemma pt_bind {A B} P (m : SessM A) R (k : A → SessM B) Q E : pt P m R E → (∀ a, pt (R a) (k a) Q E) → pt P (bindM m k) Q E.
Proof. intros Hm Hk x Hx. unfold bindM. specialize (Hm x Hx). destruct (m x) as [[a|e] y]; [|done]. by apply Hk. Qed.
Lemma pt_conseq {A} (P P' : Sess → Prop) (m : SessM A) (Q Q' : A → Sess → Prop) (E E' : Sess → Prop) :
  pt P m Q E → (∀ x, P' x → P x) → (∀ a x, Q a x → Q' a x) → (∀ x, E x → E' x) → pt P' m Q' E'.
Proof. intros Hm HP HQ HE x Hx. specialize (Hm x (HP x Hx)). destruct (m x) as [[a|[]] y]; auto. Qed.
Lemma pt_ret {A} (P : Sess → Prop) (Q : A → Sess → Prop) E a : (∀ x, P x → Q a x) → pt P (ret a) Q E.
Proof. intros HQ x Hx. by apply HQ. Qed.
Lemma pt_fuel {A} P (Q : A → Sess → Prop) E : pt P (merr OutOfFuel) Q E.
Proof. done. Qed.
Lemma pt_get_then {A B} (P : Sess → Prop) (f : Sess → A) (k : A → SessM B) Q E : (∀ a, pt (λ x, P x ∧ f x = a) (k a) Q E) → pt P (bindM (mget f) k) Q E.
Proof. intros Hk x HP. by apply (Hk (f x)). Qed.

(** Operations that leave the stream alone. *)
Definition calm {A} (m : SessM A) : Prop := ∀ x, core (m x).2 = core x.
Definition of_core (P : Sess → Prop) : Prop := ∀ x y, core x = core y → P x → P y.

Lemma pt_calm {A} P (m : SessM A) : of_core P → calm m → pt P m (λ _, P) P.
Proof. intros HP Hm x Hx. pose proof (HP x _ (eq_sym (Hm x)) Hx) as HP'. by destruct (m x) as [[a|[]] y]. Qed.
Lemma pt_calm_then {A B} P (m : SessM A) (k : A → SessM B) Q : of_core P → calm m → (∀ a, pt P (k a) Q P) → pt P (bindM m k) Q P.
Proof. intros HP Hm Hk. eapply pt_bind; [by apply pt_calm | exact Hk]. Qed.

Lemma calm_bind {A B} (m : SessM A) (k : A → SessM B) : calm m → (∀ a, calm (k a)) → calm (bindM m k).
Proof. intros Hm Hk x. unfold bindM. specialize (Hm x). destruct (m x) as [[a|e] y]; [|done]. by rewrite Hk. Qed.
Lemma calm_put f : (∀ x, core (f x) = core x) → calm (mput f).
Proof. intros Hf x. apply Hf. Qed.
Lemma play_calm : calm play.
Proof.
  intros x. unfold play. destruct (ev_script (x_env x)) as [|t ts]; [done|]. cbn.
  assert (Hf : ∀ l y, core (foldl do_act y l) = core y).
  { induction l as [|a l IH]; intros y; cbn; [done|]. by rewrite IH, do_act_core. }
  by rewrite Hf.
Qed.
Lemma pt_play P E : of_core P → pt P play (λ _, P) E.
Proof.
  intros HP x Hx. pose proof (HP x _ (eq_sym (play_calm x)) Hx) as Hy. revert Hy. unfold play. by destruct (ev_script (x_env x)).
Qed.
Lemma select_calm {A} (arms : Sess → list A) : calm (select arms).
Proof.
  intros x. unfold select. assert (Hk : ∀ k, calm (select_loop k arms)); [|apply Hk].
  induction k as [|k IH]; cbn [select_loop]; [done|]. apply calm_bind; [apply play_calm|]. intros pick.
  apply calm_bind; [done|]. intros ready. by destruct (pick_arm pick ready).
Qed.
Lemma take_event_calm : calm take_event.
Proof. apply calm_put. intros x. by destruct (n_recv (x_net x)). Qed.
Lemma take_notify_calm id : calm (take_notify id).
Proof. apply calm_put. intros x. by destruct (x_log x). Qed.
Lemma policy_calm p : calm (applyPushedPolicy o p).
Proof. apply calm_put. intros x. by destruct (to_OnPolicyPushed o). Qed.

(** ** What a reader returns *)

(** The values an operation can return. *)
Definition yields {S E A} (P : A → Prop) (m : M S E A) : Prop := ∀ s a, (m s).1 = Ok a → P a.

Lemma yields_bind {S E A B} (P : B → Prop) (m : M S E A) (k : A → M S E B) : (∀ a, yields P (k a)) → yields P (bindM m k).
Proof. intros Hk s b. unfold bindM. destruct (m s) as [[a|e] s']; [apply Hk | done]. Qed.
Lemma yields_ret {S E A} (P : A → Prop) a : P a → yields P (ret a : M S E A).
Proof. by intros HP s b [= <-]. Qed.
Lemma yields_err {S E A} (P : A → Prop) e : yields P (merr e : M S E A).
Proof. done. Qed.

(** Data or a loss marker, with a sequence number of 64 bits. *)
Definition sendable (r : WalRecord) : Prop := rec_Kind r ≠ RecordGenerationRoll ∧ seq_range r.

Lemma loss_sendable gen l : sendable (loss_record gen l).
Proof. by split. Qed.

Definition pass_ok (p : Pass) : Prop := match p with Return (Some r) => sendable r | _ => True end.

Lemma on_payload_yields payload : yields pass_ok (on_payload payload).
Proof.
  unfold on_payload. destruct (isLossMarker payload).
  - destruct (decodeLossPayload payload); [apply yields_ret, loss_sendable | apply yields_err].
  - unfold parseSeqGen. destruct (Nat.ltb_spec (length payload) 12) as [Hlt|Hge]; [apply yields_err|].
    do 2 (apply yields_bind; intros ?). destruct (_ <? _); [by apply yields_ret|]. apply yields_bind. intros ?. apply yields_ret. split; [done|].
    pose proof (be_get_range (slice 0 8 payload)) as Hr. unfold slice in Hr. rewrite length_take, length_drop in Hr.
    replace (Nat.min (8 - 0) (length payload - 0)) with 8%nat in Hr by lia. exact Hr.
Qed.

Lemma TryNext_yields max : yields (λ r, match r with Some rec => sendable rec | None => True end) (TryNext max).
Proof.
  unfold TryNext. apply yields_bind. intros r. destruct (r_closed r); [apply yields_err|]. unfold nextLocked.
  intros s. generalize (reader_fuel s) as fuel. intros fuel. revert s.
  assert (Hl : ∀ fuel, yields (λ r, match r with Some rec => sendable rec | None => True end) (next_loop fuel max)); [|apply Hl].
  clear fuel. induction fuel as [|fuel IH]; cbn [next_loop]; [apply yields_err|].
  assert (Hp : yields pass_ok (next_pass max)).
  { unfold next_pass. apply yields_bind. intros [[|]|]; [|by apply yields_ret..]. apply yields_bind. intros r'.
    destruct (r_current r') as [[f off]|]; [|by apply yields_ret]. unfold read_current. apply yields_bind. intros data.
    destruct (ReadRecord _ _) as [res rest]. do 2 (apply yields_bind; intros ?). destruct res as [payload|[]];
      [apply on_payload_yields | try apply yields_err..].
    - destruct (r_curLive _); apply yields_bind; intros ?; apply yields_ret; [by match goal with |- pass_ok (if ?b then _ else _) => destruct b end | done].
    - apply yields_bind. intros ?. apply yields_ret, loss_sendable. }
  intros s a. unfold bindM. specialize (Hp s). destruct (next_pass max s) as [[[|p]|e] s']; [apply IH | | done].
  intros [= <-]. exact (Hp _ eq_refl).
Qed.

Lemma on_reader_yields id max s r s' : on_reader id (TryNext max) s = (r, s') →
  Forall sendable (match r with Ok (Some rec) => [rec] | _ => [] end).
Proof.
  unfold on_reader. destruct (w_readers s.1 !! id) as [rd|]; [|by intros [= <- <-]].
  pose proof (TryNext_yields max (rd, s.2)) as Hy. destruct (TryNext max (rd, s.2)) as [res [r' W]]. intros [= <- <-].
  destruct res as [[rec|]|e]; try constructor; [exact (Hy _ eq_refl) | constructor].
Qed.

(** ** The stream of a session *)

Definition wm (m : DataMessage) : AckCursor := let '(g, q) := extractWireHighWatermark m in mkCursor q g.

(** Covered by the persisted cursor. *)
Definition acked_by (k : Acks) (p : AckCursor) : Prop := k_persistedAckPresent k = true ∧ cursor_le p (k_persistedAck k).

Section stream.
(** What the connection was sent before. *)
Context (w0 : list ClientMessage).

(** The connection was sent [frames] beyond [w0]; the records read are those of the
    batches [bs], then [b], then what the batcher holds, then [extra]; every frame is in
    flight or covered by the persisted cursor. *)
Record Stream (bs : list Batch) (b : Batch) (frames : list DataMessage) (extra : list WalRecord) (x : Sess) : Prop := mkStream {
  sm_wire : cn_sent <$> n_conn (x_net x) = Some (w0 ++ (CmData <$> frames));
  sm_read : v_read (x_live x) = mjoin bs ++ b ++ b_pending (v_batcher (x_live x)) ++ extra;
  sm_batcher : batcher_ok (lo_Batcher opts) (v_batcher (x_live x));
  sm_batches : Forall (batch_ok (lo_Batcher opts)) bs;
  sm_good : Forall sendable (v_read (x_live x));
  sm_window : ∃ done, wm <$> frames = done ++ v_inflight (x_live x) ∧ Forall (acked_by (x_acks x)) done;
}.

Lemma Stream_core bs b frames extra : of_core (Stream bs b frames extra).
Proof.
  intros x y Hc [Hw Hr Hb Hbs Hgd Hi]. unfold core in Hc. injection Hc as H1 H2 H3 H4 H5.
  constructor; [by rewrite <- H1 | by rewrite <- H2, <- H4 | by rewrite <- H2 | done | by rewrite <- H4 | by rewrite <- H3, <- H5].
Qed.

Definition encoded (bs : list Batch) (frames : list DataMessage) : Prop :=
  ∃ fss, rmap (encodeBatch o) bs = Ok fss ∧ frames = mjoin fss.

Lemma encoded_snoc bs frames b msgs : encoded bs frames → encodeBatch o b = Ok msgs → encoded (bs ++ [b]) (frames ++ msgs).
Proof.
  intros (fss & Hf & ->) Hb. exists (fss ++ [msgs]). split; [by apply rmap_snoc|]. rewrite join_app. cbn. by rewrite app_nil_r.
Qed.

Lemma batches_snoc (bs : list Batch) (b : Batch) : mjoin (bs ++ [b]) = mjoin bs ++ b.
Proof. unfold Batch in *. rewrite join_app. cbn. by rewrite app_nil_r. Qed.

(** Between operations: all that was read is on the wire or in the batcher. *)
Definition Live (x : Sess) : Prop := ∃ bs frames, encoded bs frames ∧ Stream bs [] frames [] x.

(** After an error: one batch may be on the wire in part. *)
Definition Broken (x : Sess) : Prop := ∃ bs b frames part, encoded bs frames ∧ (b = [] ∨ batch_ok (lo_Batcher opts) b) ∧
  match encodeBatch o b with Ok msgs => part `prefix_of` msgs | Err _ => part = [] end ∧ Stream bs b (frames ++ part) [] x.

Lemma Live_core : of_core Live.
Proof. intros x y Hc (bs & frames & He & Hs). exists bs, frames. split; [done|]. by eapply Stream_core. Qed.

Lemma Live_Broken x : Live x → Broken x.
Proof.
  intros (bs & frames & He & Hs). exists bs, [], frames, []. rewrite app_nil_r. split_and!; [done | by left | | done].
  destruct (encodeBatch o []); [apply prefix_nil | done].
Qed.

Lemma send_tracked_stream bs b msgs frames E : pt (Stream bs b frames []) (send_tracked msgs)
  (λ r x, match r with
          | None => Stream bs b (frames ++ msgs) [] x
          | Some _ => ∃ part, part `prefix_of` msgs ∧ Stream bs b (frames ++ part) [] x
          end) E.
Proof.
  revert frames. induction msgs as [|msg msgs IH]; intros frames; cbn [send_tracked].
  { apply pt_ret. intros x Hx. by rewrite app_nil_r. }
  eapply pt_bind with (R := λ (sent : bool) x, if sent then Stream bs b frames [] (set_net (set_conn (Some (mkConn (w0 ++ (CmData <$> frames)) [] [])) (x_net x)) x) ∧
      cn_sent <$> n_conn (x_net x) = Some (w0 ++ (CmData <$> frames ++ [msg])) else Stream bs b frames [] x).
  - intros x Hs. pose proof Hs as [Hw Hr Hb Hbs Hgd Hi]. unfold conn_Send. destruct (n_conn (x_net x)) as [c|] eqn:Hc; [|done]. cbn in Hw. injection Hw as Hw.
    destruct (cn_sendfail c) as [|[|] f]; [| |].
    + split; [by constructor|]. cbn. by rewrite Hw, fmap_app, app_assoc.
    + constructor; try done. cbn. by rewrite Hw.
    + split; [by constructor|]. cbn. by rewrite Hw, fmap_app, app_assoc.
  - intros [|].
    + eapply pt_bind with (R := λ _, Stream bs b (frames ++ [msg]) []).
      * intros x [[_ Hr Hb Hbs Hgd (done & Hi & Hd)] Hw]. unfold push_inflight, mput.
        assert (Hwm : wm msg = mkCursor (extractWireHighWatermark msg).2 (extractWireHighWatermark msg).1).
        { unfold wm. by destruct (extractWireHighWatermark msg). }
        destruct (extractWireHighWatermark msg) as [g q]. cbn in Hwm. constructor; try done. cbn. exists done. split; [|done].
        unfold Push. rewrite fmap_app, Hi, <- app_assoc. cbn. by rewrite Hwm.
      * intros []. eapply pt_conseq; [apply IH | done | | done]. intros [e|] x; cbn.
        -- intros (part & Hp & Hs). exists (msg :: part). split; [by apply prefix_cons|]. by rewrite <- app_assoc in Hs.
        -- by rewrite <- app_assoc.
    + apply pt_ret. intros x Hx. exists []. split; [apply prefix_nil|]. by rewrite app_nil_r.
Qed.

(** The state in which the batcher has given out [out]. *)
Definition Handed (out : option Batch) (x : Sess) : Prop := ∃ bs frames, encoded bs frames ∧ Stream bs (default [] out) frames [] x ∧
  ∀ b, out = Some b → batch_ok (lo_Batcher opts) b.

Lemma sendBatch_stream out E : pt (Handed out) (sendBatch o out) (λ r, match r with None => Live | Some _ => Broken end) E.
Proof.
  unfold sendBatch. destruct out as [b|]; [|apply pt_ret; intros x (bs & frames & He & Hs & _); by exists bs, frames].
  intros x (bs & frames & He & Hs & Hb). specialize (Hb b eq_refl). cbn in Hs. destruct (encodeBatch o b) as [msgs|e] eqn:Henc.
  - pose proof (send_tracked_stream bs b msgs frames E x Hs) as Ht. destruct (send_tracked msgs x) as [[[e|]|[]] y]; try done.
    + destruct Ht as (part & Hp & Hs'). exists bs, b, frames, part. rewrite Henc. split_and!; [done | by right | done | done].
    + exists (bs ++ [b]), (frames ++ msgs). split; [by apply encoded_snoc|]. destruct Ht as [Hw Hr Hbt Hbs Hgd Hi]. constructor; try done.
      * rewrite Hr, batches_snoc. by rewrite <- !app_assoc.
      * apply Forall_app. split; [done|]. by constructor.
  - cbn. exists bs, b, frames, []. rewrite Henc, app_nil_r. split_and!; [done | by right | done | done].
Qed.

(** A call of the batcher on the records it holds and those it is given. *)
Lemma on_batcher_stream (f : Z → Batcher → option Batch * Batcher) extra E :
  (∀ now b, batcher_ok (lo_Batcher opts) b → step_ok (lo_Batcher opts) (b_pending b ++ extra) (f now b)) →
  pt (λ x, ∃ bs frames, encoded bs frames ∧ Stream bs [] frames extra x) (on_batcher f) Handed E.
Proof.
  intros Hf x (bs & frames & He & [Hw Hr Hb Hbs Hgd Hi]). unfold on_batcher.
  destruct (Hf (ev_now (x_env x)) _ Hb) as (Hb' & Heq & Hout). destruct (f (ev_now (x_env x)) (v_batcher (x_live x))) as [out b']. cbn [fst snd] in *.
  exists bs, frames. split_and!; [done | | done]. constructor; try done. cbn. rewrite app_nil_r, Hr. f_equal. exact Heq.
Qed.

Lemma drainAvailable_stream fuel id E : pt Live (drainAvailable o opts fuel id) (λ r, match r with None => Live | Some _ => Broken end) E.
Proof.
  induction fuel as [|fuel IH]; cbn [drainAvailable]; [apply pt_fuel|].
  apply pt_get_then. intros [|]; [|apply pt_ret; by intros x [Hx _]].
  eapply pt_bind with (R := λ _, Live); [eapply pt_conseq; [apply pt_play, Live_core | by intros x [Hx _] | done..]|].
  intros _. eapply pt_bind with (R := λ r x, ∃ bs frames, encoded bs frames ∧
      Stream bs [] frames (match r with Ok (Some rec) => [rec] | _ => [] end) x).
  { intros x (bs & frames & He & [Hw Hr Hb Hbs Hgd Hi]). unfold rdr_TryNext. destruct (on_reader _ _ _) as [r s] eqn:Hrd. cbn.
    exists bs, frames. split; [done|]. constructor; try done; cbn.
    - rewrite Hr. cbn. by rewrite app_nil_r, <- app_assoc.
    - apply Forall_app. split; [done|]. apply (on_reader_yields id _ _ r s Hrd). }
  intros [[rec|]|e]; [|by apply pt_ret | apply pt_ret; intros x Hx; by apply Live_Broken].
  eapply pt_bind; [apply on_batcher_stream; intros now b; apply Add_ok|]. intros out.
  eapply pt_bind; [apply sendBatch_stream|]. intros [e|]; [by apply pt_ret | exact IH].
Qed.

(** ** The end of a session *)

(** The connection is closed; what it was sent is the last entry of the history. *)
Definition Ended (x : Sess) : Prop := ∃ bs b frames part, encoded bs frames ∧ (b = [] ∨ batch_ok (lo_Batcher opts) b) ∧
  match encodeBatch o b with Ok msgs => part `prefix_of` msgs | Err _ => part = [] end ∧
  last (n_past (x_net x)) = Some (w0 ++ (CmData <$> frames ++ part)) ∧
  v_read (x_live x) = mjoin bs ++ b ++ b_pending (v_batcher (x_live x)) ∧ Forall (batch_ok (lo_Batcher opts)) bs ∧
  Forall sendable (v_read (x_live x)).

Lemma drop_ended E : pt Broken drop_conn (λ _, Ended) E.
Proof.
  intros x (bs & b & frames & part & He & Hb & Hp & [Hw Hr Hbt Hbs Hgd _]). unfold drop_conn.
  destruct (n_conn (x_net x)) as [c|] eqn:Hc; [|done]. cbn in Hw. injection Hw as Hw. exists bs, b, frames, part.
  split_and!; [done.. | cbn; rewrite last_snoc; by f_equal | cbn; by rewrite Hr, app_nil_r | done | done].
Qed.

(** Shutting down does not wait. *)
Definition no_wait {A} (m : SessM A) : Prop := ∀ x, (m x).1 ≠ Err Blocked.

Lemma no_wait_bind {A B} (m : SessM A) (k : A → SessM B) : no_wait m → (∀ a, no_wait (k a)) → no_wait (bindM m k).
Proof.
  intros Hm Hk x. unfold bindM. specialize (Hm x). destruct (m x) as [[a|e] y]; [apply Hk|]. cbn in *. congruence.
Qed.
Lemma play_no_wait : no_wait play.
Proof. intros x. unfold play. by destruct (ev_script (x_env x)). Qed.
Lemma TryNext_no_wait id : no_wait (rdr_TryNext id).
Proof. intros x. unfold rdr_TryNext. by destruct (on_reader _ _ _). Qed.
Lemma on_batcher_no_wait f : no_wait (on_batcher f).
Proof. intros x. unfold on_batcher. by destruct (f _ _). Qed.
Lemma Send_no_wait msg : no_wait (conn_Send msg).
Proof. intros x. unfold conn_Send. destruct (n_conn (x_net x)) as [c|]; [|done]. by destruct (cn_sendfail c) as [|[|] f]. Qed.
Lemma send_msgs_no_wait msgs : no_wait (send_msgs msgs).
Proof.
  induction msgs as [|msg msgs IH]; cbn [send_msgs]; [done|]. apply no_wait_bind; [apply Send_no_wait|]. by intros [|].
Qed.
Lemma send_anyway_no_wait msgs : no_wait (send_anyway msgs).
Proof.
  induction msgs as [|msg msgs IH]; cbn [send_anyway]; [done|]. apply no_wait_bind; [apply Send_no_wait|]. by intros ?.
Qed.
Lemma shutdown_drain_no_wait fuel id limit : no_wait (shutdown_drain o fuel id limit).
Proof.
  induction fuel as [|fuel IH]; cbn [shutdown_drain]; [done|]. apply no_wait_bind; [apply play_no_wait|]. intros ?.
  apply no_wait_bind; [done|]. intros [|]; [done|]. apply no_wait_bind; [apply TryNext_no_wait|]. intros [[rec|]|e]; [|done..].
  apply no_wait_bind; [apply on_batcher_no_wait|]. intros out. apply no_wait_bind; [|by intros [?|]].
  destruct out as [b|]; [|done]. destruct (encodeBatch o b); [apply send_msgs_no_wait | done].
Qed.
Lemma runShutdown_no_wait fuel id d : no_wait (runShutdown o fuel id d).
Proof.
  unfold runShutdown. apply no_wait_bind; [done|]. intros now. apply no_wait_bind; [destruct (0 <? d); [apply shutdown_drain_no_wait | done]|].
  intros []. apply no_wait_bind; [apply on_batcher_no_wait|]. intros [b|]; [|done]. destruct (encodeBatch o b); [apply send_anyway_no_wait | done].
Qed.

Lemma drop_no_wait : no_wait drop_conn.
Proof. intros x. unfold drop_conn. by destruct (n_conn (x_net x)). Qed.

Lemma pt_no_wait {A} P (m : SessM A) E : no_wait m → pt P m (λ _ _, True) E.
Proof. intros Hm x _. specialize (Hm x). by destruct (m x) as [[a|[]] y]. Qed.

(** The result of an arm. *)
Definition arm_result (r : option (State * option TErr)) (x : Sess) : Prop :=
  match r with None => Live x | Some (_, Some _) => Ended x | Some (_, None) => True end.

Lemma fail_live_stream e E : pt Broken (fail_live e) arm_result E.
Proof. unfold fail_live. eapply pt_bind; [apply drop_ended|]. intros []. by apply pt_ret. Qed.

Lemma drain_or_fail_stream fuel id E : pt Live (drain_or_fail o opts fuel id) arm_result E.
Proof.
  unfold drain_or_fail. eapply pt_bind; [apply drainAvailable_stream|]. intros [e|]; [apply fail_live_stream | by apply pt_ret].
Qed.

Context (Hwal : to_WAL o = true).

(** An acknowledgement that is adopted covers what it releases from the window. *)
Lemma live_ack_stream fuel id g q : pt Live (live_ack o opts fuel id g q) arm_result Live.
Proof.
  intros x (bs & frames & He & [Hw Hr Hb Hbs Hgd (done & Hi & Hd)]). unfold live_ack, bindM at 1, on_acks.
  destruct (recv_ack_step o Hwal g q (x_acks x) (x_log x)) as (kind & k' & s' & -> & Hle & _ & _ & Had & _).
  assert (Hd' : Forall (acked_by k') done).
  { eapply Forall_impl; [exact Hd|]. intros p [Hp Hc]. destruct (Hle Hp) as [? Hle']. split; [done | by etransitivity]. }
  destruct (decide (kind = AckOutcomeAdopted)) as [Hk|Hk].
  - destruct (Had Hk) as (Hpres & Hper & _). unfold bindM at 1, release_inflight, mput. cbn [x_live]. apply (drain_or_fail_stream fuel id Live).
    exists bs, frames. split; [done|]. constructor; try done. cbn.
    exists (done ++ take (release_count (v_inflight (x_live x)) g q) (v_inflight (x_live x))). split.
    + by rewrite <- app_assoc, take_drop.
    + apply Forall_app. split; [done|]. eapply Forall_impl; [apply (release_covered _ g q)|]. intros p Hp. split; [done | by rewrite Hper].
  - exists bs, frames. split; [done|]. constructor; try done. by exists done.
Qed.

Lemma live_arm_stream fuel id a : pt Live (live_arm o opts fuel id a) arm_result Live.
Proof.
  destruct a as [|d|ev|e| |]; cbn [live_arm].
  - eapply pt_bind; [eapply pt_conseq; [apply drop_ended | apply Live_Broken | done | done]|]. intros []. by apply pt_ret.
  - eapply pt_bind; [apply pt_no_wait; done|]. intros []. eapply pt_bind; [apply pt_no_wait, runShutdown_no_wait|]. intros [].
    eapply pt_bind; [apply pt_no_wait, drop_no_wait|]. intros []. eapply pt_bind; [apply pt_no_wait; done|]. intros []. by apply pt_ret.
  - apply pt_calm_then; [apply Live_core | apply take_event_calm|]. intros [].
    destruct ev; [apply live_ack_stream.. |]. apply pt_calm_then; [apply Live_core | apply policy_calm|]. intros []. by apply pt_ret.
  - apply pt_calm_then; [apply Live_core | by apply calm_put; intros x; destruct (n_recv (x_net x)) |]. intros [].
    eapply pt_conseq; [apply fail_live_stream | apply Live_Broken | done | done].
  - apply pt_calm_then; [apply Live_core | apply take_notify_calm|]. intros []. apply drain_or_fail_stream.
  - apply pt_calm_then; [apply Live_core | by apply calm_put|]. intros []. apply pt_get_then. intros [|]; [|apply pt_ret; by intros x [Hx _]].
    eapply pt_bind with (R := Handed).
    { eapply pt_conseq; [apply (on_batcher_stream Tick [] Live) | | done | done].
      - intros now b Hb. exact (batch_step_ok _ (OpTick now) b Hb).
      - intros x [(bs & frames & He & Hs) _]. by exists bs, frames. }
    intros out. eapply pt_bind; [apply sendBatch_stream|]. intros [e|]; [apply fail_live_stream | by apply pt_ret].
Qed.

Lemma live_loop_stream fuel id : pt Live (live_loop o opts fuel id) (λ r x, r.2 ≠ None → Ended x) Live.
Proof.
  induction fuel as [|fuel IH]; cbn [live_loop]; [apply pt_fuel|].
  apply pt_calm_then; [apply Live_core | apply select_calm|]. intros a.
  eapply pt_bind; [apply live_arm_stream|]. intros [[st [e|]]|]; [by apply pt_ret | by apply pt_ret | exact IH].
Qed.

Lemma runLive_stream fuel id x : cn_sent <$> n_conn (x_net x) = Some w0 → v_read (x_live x) = [] →
  match runLive o opts fuel id x with
  | (Ok r, y) => r.2 ≠ None → Ended y
  | (Err Blocked, y) => Live y
  | (Err _, _) => True
  end.
Proof.
  intros Hc Hr. unfold runLive, bindM at 1, live_init. destruct (_ <=? 0); [done|].
  set (x1 := set_live (mkLiveVars (NewBatcher (lo_Batcher opts)) [] false (v_read (x_live x))) x).
  assert (Hx1 : Live x1).
  { exists [], []. split; [by exists []|]. constructor; cbn; rewrite ?Hr; try done; [by rewrite app_nil_r | apply NewBatcher_ok | by exists []]. }
  revert Hx1. generalize x1 as z. clear x x1 Hc Hr.
  assert (Hp : pt Live (let* r := drain_or_fail o opts fuel id in let* res := match r with Some r => ret r | None => live_loop o opts fuel id end in
                        do* rdr_Close id in ret res) (λ r x, r.2 ≠ None → Ended x) Live); [|intros z Hz; specialize (Hp z Hz); exact Hp].
  eapply pt_bind; [apply drain_or_fail_stream|]. intros r. eapply pt_bind with (R := λ r x, r.2 ≠ None → Ended x).
  - destruct r as [[st [e|]]|]; [by apply pt_ret | by apply pt_ret | apply live_loop_stream].
  - intros res x Hx. exact Hx.
Qed.

(** ** What the server can read *)

Lemma encoded_reads receive bs frames : receives (compressor o) receive → encoded bs frames → Forall (batch_ok (lo_Batcher opts)) bs →
  Forall sendable (mjoin bs) → read_messages receive frames = Some (mjoin (record_items (to_EmitExtendedLossReasons o) <$> mjoin bs)).
Proof.
  intros Hrec (fss & Hf & ->) Hbs. revert fss Hf. induction Hbs as [|b bs Hb _ IH]; intros fss; cbn [rmap]; [by intros [= <-]|].
  destruct (encodeBatch o b) as [msgs|] eqn:He; cbn [rbind]; [|done]. destruct (rmap (encodeBatch o) bs) as [ms|]; cbn [rbind]; [|done].
  intros [= <-] Hs. change (mjoin (b :: bs)) with (b ++ mjoin bs) in *. apply Forall_app in Hs as [Hs1 Hs2].
  change (mjoin (msgs :: ms)) with (msgs ++ mjoin ms). rewrite fmap_app, join_app.
  apply read_messages_app; [|by apply IH]. apply Forall_and in Hs1 as [Hk Hq].
  exact (encode_faithful _ b _ (compressor o) receive msgs Hrec Hb Hk Hq He).
Qed.

End stream.
End live.

(** C5. A Live session sends what it reads. Enter Live with a connection and a fresh
    reader, and let anything happen at any time: appends, acknowledgements and policy
    pushes from the server, timers, failing sends and reads. Whenever the loop waits for
    something to happen, the frames put on the connection since, read back by a receiver
    that can undo the compressor, hold exactly the records read from the log, in order,
    under their own generation and sequence numbers (less loss markers that are not sent
    by choice), except for one last batch that the batcher still holds; and every frame is either
    in flight or covered by the persisted acknowledgement. When the session ends with an
    error the same holds of the closed connection, except that the batch after those may
    be on the wire in part. *)
Theorem live_session_faithful `{WtpLib, WtpWire} o opts receive fuel id x c r y :
  to_WAL o = true → receives (compressor o) receive → n_conn (x_net x) = Some c → v_read (x_live x) = [] →
  runLive o opts fuel id x = (r, y) →
  let items l := mjoin (record_items (to_EmitExtendedLossReasons o) <$> l) in
  (r = Err Blocked → ∃ bs frames,
     cn_sent <$> n_conn (x_net y) = Some (cn_sent c ++ (CmData <$> frames)) ∧
     v_read (x_live y) = mjoin bs ++ b_pending (v_batcher (x_live y)) ∧ read_messages receive frames = Some (items (mjoin bs)) ∧
     (b_pending (v_batcher (x_live y)) = [] ∨ batch_ok (lo_Batcher opts) (b_pending (v_batcher (x_live y)))) ∧
     ∃ done, wm <$> frames = done ++ v_inflight (x_live y) ∧ Forall (acked_by (x_acks y)) done) ∧
  (∀ st e, r = Ok (st, Some e) → ∃ bs b frames part,
     last (n_past (x_net y)) = Some (cn_sent c ++ (CmData <$> frames ++ part)) ∧
     v_read (x_live y) = mjoin bs ++ b ++ b_pending (v_batcher (x_live y)) ∧ read_messages receive frames = Some (items (mjoin bs)) ∧
     match encodeBatch o b with Ok msgs => part `prefix_of` msgs | Err _ => part = [] end).
Proof.
  intros Hwal Hrec Hc Hr Hrun items. pose proof (runLive_stream o opts (cn_sent c) Hwal fuel id x) as Hs. rewrite Hrun, Hc in Hs.
  specialize (Hs eq_refl Hr). split.
  - intros ->. destruct Hs as (bs & frames & He & [Hw Hrd Hb Hbs Hgd Hi]). exists bs, frames. rewrite app_nil_r in Hrd. cbn in Hrd.
    split_and!; [done | done | | | done].
    + apply (encoded_reads o opts); try done. rewrite Hrd in Hgd. by apply Forall_app in Hgd as [? _].
    + destruct Hb as (<- & [Hp|[Hp _]] & _); [by left | by right].
  - intros st e ->. destruct (Hs ltac:(done)) as (bs & b & frames & part & He & _ & Hp & Hw & Hrd & Hbs & Hgd).
    exists bs, b, frames, part. split_and!; [done | done | | done]. apply (encoded_reads o opts); try done.
    rewrite Hrd in Hgd. by apply Forall_app in Hgd as [? _].
Qed.

(** ** A concrete session *)

#[local] Existing Instance demo_lib.
#[local] Existing Instance demo_wire.

(** The log with a reader opened on its first generation. *)
Definition opened1 : WAL * World := Eval vm_compute in (NewReader 0 (mkReaderOptions 1 0) s1).2.

(** Live on the log with one record, with nothing else going on. *)
Definition demo_streaming : Sess :=
  mkSess (fresh_acks s1) opened1 (mkNet (Some (mkConn [] [] [])) (Some newRecvSession) [] []) no_live (demo_env []) (mkObs [] [] "").

Lemma no_compressor : receives (compressor demo_opts) (λ _ _, None).
Proof. intros evs raw c _ Hc. discriminate Hc. Qed.

Definition demo_waiting : Sess := (runLive demo_opts demo_live 10 0 demo_streaming).2.

Lemma live_session_faithful_witness :
  runLive demo_opts demo_live 10 0 demo_streaming = (Err Blocked, demo_waiting) ∧ v_read (x_live demo_waiting) = [data_record 1 1 p0] ∧ ∃ bs frames,
  cn_sent <$> n_conn (x_net demo_waiting) = Some ([] ++ (CmData <$> frames)) ∧
  v_read (x_live demo_waiting) = mjoin bs ++ b_pending (v_batcher (x_live demo_waiting)) ∧
  read_messages (λ _ _, None) frames = Some (mjoin (record_items (to_EmitExtendedLossReasons demo_opts) <$> mjoin bs)).
Proof.
  assert (Hrun : runLive demo_opts demo_live 10 0 demo_streaming = (Err Blocked, demo_waiting)) by (vm_compute; reflexivity).
  split; [exact Hrun|]. split; [vm_compute; reflexivity|].
  pose proof (live_session_faithful demo_opts demo_live (λ _ _, None) 10 0 demo_streaming (mkConn [] [] []) (Err Blocked) demo_waiting
    eq_refl no_compressor eq_refl eq_refl Hrun) as [Hw _].
  destruct (Hw eq_refl) as (bs & frames & H1 & H2 & H3 & _). exists bs, frames. split; [exact H1|]. split; [exact H2 | exact H3].
Defined.
