(* ===== verification/WtpReplay.v ===== *)
(** * Replay reaches the server

    The Replaying state of WtpSession on a log that nothing else touches: it ends, and
    everything the plan reaches is on the wire. *)

From S2P Require Import Prelude WalFrame WalFs Wal WalInv WalSpec WalRecover WalProps WalReader WalIndex WtpBatch WtpAck WtpSession WtpRun WtpLive.
Open Scope Z_scope.

(** ** A reader on an indexed log *)

Lemma Indexed_readers max o L w W rs : Indexed max o L (w, W) → Indexed max o L (set_readers (w_closed w) rs w, W).
Proof.
  intros [HL Hf HC]. constructor; [by apply LogState_readers | done |]. eapply Counted_same; [| |exact HC]; done.
Qed.

(** The records the registered reader [id] has still to return. *)
Definition Reads (max : Z) (wo : Options) (L : Slots) (gen start : Z) (id : nat) (P : list WalRecord) (s : WAL * World) : Prop :=
  Indexed max wo L s ∧ w_nextIndex s.1 < 2 ^ 64 ∧
  ∃ r c rest, w_readers s.1 !! id = Some r ∧ Reading gen start (w_nextIndex s.1) L r c rest ∧ pending L r c rest = P.

Lemma Reads_next max wo L gen start id P s : Reads max wo L gen start id P s →
  ∃ out s' P', on_reader id (TryNext (w_maxRec s.1)) s = (Ok out, s') ∧ Reads max wo L gen start id P' s' ∧
    P = option_list out ++ P' ∧ (out = None → P' = []).
Proof.
  intros (HI & Hn & r & c & rest & Hid & Hr & HP). pose proof HI as [HL Hf _]. pose proof (iv_max _ _ _ _ _ _ _ _ _ _ (ls_inv _ _ _ _ HL)) as Hmax.
  destruct (TryNext_spec gen start max wo L s r c rest HL Hf Hn Hr) as (out & r' & c' & rest' & Ht & Hr' & Hout).
  unfold on_reader. rewrite Hid, Hmax, Ht. eexists out, _, (pending L r' c' rest'). split; [done|]. destruct s as [w W]. split_and!.
  - split_and!; [by apply Indexed_readers | done|]. exists r', c', rest'. split_and!; [cbn; by rewrite lookup_insert_eq | done..].
  - subst P. destruct out; [done | by destruct Hout as [-> ->]].
  - intros ->. by destruct Hout.
Qed.

Lemma Reads_new max wo L s id gen start : Indexed max wo L s → w_nextIndex s.1 < 2 ^ 64 → 0 ≤ start →
  ∃ r s', NewReader id (mkReaderOptions gen start) s = (Ok r, s') ∧ Reads max wo L gen start id (outs gen start L) s' ∧
    w_readers s'.1 !! id = Some r ∧ r_readerGen r = gen ∧ w_perGenDataHighWater s'.1 = w_perGenDataHighWater s.1 ∧ w_closed s'.1 = false.
Proof.
  intros HI Hn Hst. pose proof HI as [HL Hf _]. pose proof (iv_closed _ _ _ _ _ _ _ _ _ _ (ls_inv _ _ _ _ HL)) as Hc.
  destruct (NewReader_spec max wo L s id gen start HL Hf Hn Hst) as (r & Hnew & Hr & Hp).
  eexists r, _. split; [exact Hnew|]. destruct s as [w W]. split_and!; cbn; try done.
  - split_and!; [by apply Indexed_readers | done|]. exists r, (-1), []. split_and!; [cbn; by rewrite lookup_insert_eq | done..].
  - by rewrite lookup_insert_eq.
  - by apply (rd_opts _ _ _ _ _ _ _ Hr).
Qed.

Lemma Reads_close max wo L gen start id P s : Reads max wo L gen start id P s →
  Indexed max wo L (Reader_Close id s).2 ∧ w_nextIndex (Reader_Close id s).2.1 < 2 ^ 64.
Proof.
  intros (HI & Hn & r & c & rest & Hid & Hr & HP). unfold Reader_Close. rewrite Hid, (rd_closed _ _ _ _ _ _ _ Hr).
  pose proof (ix_nofault _ _ _ _ HI) as Hf. destruct s as [w W]. cbn [fst snd] in *.
  assert (Hio : io W = (Ok tt, W)) by (unfold io, next_fault, bindM; by rewrite Hf).
  destruct (r_current r) as [[f off]|]; unfold file_Close; rewrite ?Hio; cbn; (split; [by apply Indexed_readers | done]).
Qed.

Section replay.
Context `{WtpLib, WtpWire} (o : TOptions) (opts : LiveOptions) (max : Z) (wo : Options) (L : Slots).

(** Nothing happens beside the transport, nothing is waiting for it, sends do not fail. *)
Record Quiet (x : Sess) : Prop := mkQuiet {
  qt_script : ev_script (x_env x) = [];
  qt_ctx : ev_cancelled (x_env x) = false;
  qt_stop : ev_stopCh (x_env x) = [];
  qt_recv : ∀ rs, n_recv (x_net x) = Some rs → rs_eventCh rs = [] ∧ rs_errCh rs = None;
  qt_conn : ∃ c, n_conn (x_net x) = Some c ∧ cn_sendfail c = [];
}.

Definition wire (x : Sess) : option (list ClientMessage) := cn_sent <$> n_conn (x_net x).

Lemma play_quiet x : Quiet x → play x = (Ok 0%nat, x).
Proof. intros Hq. unfold play. by rewrite (qt_script _ Hq). Qed.

Lemma Quiet_parts x y : x_net y = x_net x → x_env y = x_env x → Quiet x → Quiet y.
Proof. intros Hn He []. constructor; by rewrite ?He, ?Hn. Qed.

(** No data record is beyond the tail. *)
Definition within (tail : AckCursor) (P : list WalRecord) : Prop :=
  Forall (λ r, rec_Kind r = RecordData → watermarkLess tail (mkCursor (rec_Sequence r) (rec_Generation r)) = false) P.

(** A state that differs in what was read. *)
Definition read_on (x y : Sess) : Prop := x_net y = x_net x ∧ x_env y = x_env x ∧ x_acks y = x_acks x.

Definition same_replayer (r r' : Replayer) : Prop := rp_rdr r' = rp_rdr r ∧ rp_opts r' = rp_opts r ∧ rp_tail r' = rp_tail r.

Lemma next_batch_quiet gen start fuel : ∀ r batch n x P, Quiet x → Reads max wo L gen start (rp_rdr r) P (x_log x) →
  within (rp_tail r) P → (length P < fuel)%nat →
  ∃ l P' fin r' y, next_batch fuel r batch n x = (Ok (batch ++ l, fin, None, r'), y) ∧ P = l ++ P' ∧
    Reads max wo L gen start (rp_rdr r) P' (x_log y) ∧ read_on x y ∧ same_replayer r r' ∧ (fin = true → P' = []) ∧ (fin = false → batch ++ l ≠ []).
Proof.
  induction fuel as [|fuel IH]; intros r batch n x P Hq HR Hw Hf; [lia|]. cbn [next_batch].
  unfold bindM at 1. rewrite (play_quiet x Hq). unfold bindM at 1, mget. unfold ctx_done at 1. rewrite (qt_ctx _ Hq).
  assert (Hstop : batch ≠ [] → ∃ l P' fin r' y, (ret (batch, false, None, r) : SessM (list WalRecord * bool * option TErr * Replayer)) x =
      (Ok (batch ++ l, fin, None, r'), y) ∧ P = l ++ P' ∧
      Reads max wo L gen start (rp_rdr r) P' (x_log y) ∧ read_on x y ∧ same_replayer r r' ∧ (fin = true → P' = []) ∧ (fin = false → batch ++ l ≠ [])).
  { intros Hb. exists [], P, false, r, x. rewrite app_nil_r. by split_and!. }
  destruct (_ && _) eqn:Hmax.
  { apply Hstop. intros ->. apply andb_true_iff in Hmax as [H1%Z.ltb_lt H2%Z.leb_le]. cbn in H2. lia. }
  destruct (_ && _) eqn:Hbytes in |- *.
  { apply Hstop. intros ->. by rewrite andb_false_r in Hbytes. }
  clear Hstop. destruct (Reads_next _ _ _ _ _ _ _ _ HR) as (out & s' & P' & Ht & HR' & HP & Hnone).
  unfold bindM at 1, rdr_TryNext. rewrite Ht. cbn [fst snd].
  destruct out as [rec|].
  - cbn in HP. subst P. inversion Hw as [|? ? Hrec Hw']; subst. cbn in Hf.
    set (y := set_live _ _). assert (Hy : read_on x y) by done. assert (Hqy : Quiet y) by (apply (Quiet_parts x); done).
    assert (Hgo : ∀ r1 n1, same_replayer r r1 → ∃ l P2 fin r' z, next_batch fuel r1 (batch ++ [rec]) n1 y = (Ok (batch ++ l, fin, None, r'), z) ∧
      rec :: P' = l ++ P2 ∧ Reads max wo L gen start (rp_rdr r) P2 (x_log z) ∧ read_on x z ∧ same_replayer r r' ∧ (fin = true → P2 = []) ∧
      (fin = false → batch ++ l ≠ [])).
    { intros r1 n1 (Hid & Ho & Htl).
      destruct (IH r1 (batch ++ [rec]) n1 y P') as (l & P2 & fin & r' & z & He & HP & HR2 & Hz & Hs & H1 & H2);
        [done | by rewrite Hid | by rewrite Htl | lia|].
      exists (rec :: l), P2, fin, r', z. rewrite <- app_assoc in He, H2. cbn in *. rewrite Hid in HR2. unfold read_on, same_replayer in *.
      destruct Hz as (-> & -> & ->), Hs as (-> & -> & ->). split_and!; try done; [by subst P' | congruence..]. }
    destruct (rec_Kind rec); [rewrite (Hrec eq_refl)|..]; by apply Hgo.
  - cbn in HP. subst P. exists [], P', true, r. eexists. rewrite app_nil_r. split; [done|]. split_and!; try done. intros _. by apply Hnone.
Qed.

Lemma send_msgs_quiet msgs : ∀ x w, Quiet x → wire x = Some w →
  ∃ y, send_msgs msgs x = (Ok None, y) ∧ wire y = Some (w ++ (CmData <$> msgs)) ∧ Quiet y ∧ x_log y = x_log x ∧ x_acks y = x_acks x.
Proof.
  induction msgs as [|msg msgs IH]; intros x w Hq Hw; cbn [send_msgs].
  { exists x. cbn. by rewrite app_nil_r. }
  pose proof Hq as [H1 H2 H3 H4 (c & Hc & Hsf)]. unfold wire in Hw. rewrite Hc in Hw. cbn in Hw. injection Hw as Hw.
  unfold bindM at 1, conn_Send. rewrite Hc, Hsf. cbn [fst snd].
  set (y := set_net _ x). assert (Hqy : Quiet y).
  { constructor; cbn; try done. by eexists. }
  destruct (IH y (w ++ [CmData msg]) Hqy) as (z & Hz & Hwz & Hqz & Hl & Ha); [unfold wire; cbn; by rewrite Hw|].
  exists z. rewrite Hz, Hl, Ha. split_and!; try done. rewrite Hwz, <- app_assoc. done.
Qed.

Definition encodable (P : list WalRecord) : Prop := ∀ b, b ⊆ P → ∃ msgs, encodeBatch o b = Ok msgs.

Lemma encodable_app P1 P2 : encodable (P1 ++ P2) → encodable P1 ∧ encodable P2.
Proof. intros He. split; intros b Hb; apply He; set_solver. Qed.

Lemma encoded_cons b msgs bs frames : encodeBatch o b = Ok msgs → encoded o bs frames → encoded o (b :: bs) (msgs ++ frames).
Proof. intros Hb (fss & Hf & ->). exists (msgs :: fss). cbn. by rewrite Hb, Hf. Qed.

Lemma no_arms x : Quiet x → replay_arms x = [].
Proof.
  intros Hq. unfold replay_arms, ready_event, ready_err, ready_stop. rewrite (qt_stop _ Hq).
  pose proof (qt_recv _ Hq) as Hr. destruct (n_recv (x_net x)) as [rs|]; [|done]. destruct (Hr rs eq_refl) as [He Hr']. cbn. by rewrite He, Hr'.
Qed.

(** Everything that is left is sent, in batches, and the state is over. *)
Lemma runReplaying_quiet gen start fuel : ∀ r x w P, Quiet x → wire x = Some w → Reads max wo L gen start (rp_rdr r) P (x_log x) →
  within (rp_tail r) P → encodable P → (length P + 1 < fuel)%nat →
  ∃ bs frames r' y, runReplaying o fuel r x = (Ok (StateLive, None, r'), y) ∧ mjoin bs = P ∧ encoded o bs frames ∧
    wire y = Some (w ++ (CmData <$> frames)) ∧ Quiet y ∧ Reads max wo L gen start (rp_rdr r) [] (x_log y) ∧ x_acks y = x_acks x.
Proof.
  induction fuel as [|fuel IH]; intros r x w P Hq Hw HR Hin Henc Hf; [lia|]. cbn [runReplaying].
  unfold bindM at 1. rewrite (play_quiet x Hq). unfold bindM at 1, mget. rewrite (no_arms x Hq). cbn [pick_arm lookup list_lookup head].
  unfold replay_batch, bindM at 1, NextBatch.
  destruct (next_batch_quiet gen start fuel r [] 0 x P Hq HR Hin) as (l & P' & fin & r' & y & -> & -> & HR' & (Hny & Hey & Hay) & (Hid & Hopt & Htl) & Hfin & Hmore); [lia|].
  cbn [app] in *. assert (Hqy : Quiet y) by (by apply (Quiet_parts x)). assert (Hwy : wire y = Some w) by (unfold wire in *; by rewrite Hny).
  apply encodable_app in Henc as [Hl HP']. apply Forall_app in Hin as [_ Hin'].
  assert (Hsend : ∃ msgs z, encodeBatch o l = Ok msgs ∧ send_replayed o l y = (Ok None, z) ∧ wire z = Some (w ++ (CmData <$> msgs)) ∧ Quiet z ∧ x_log z = x_log y ∧ x_acks z = x_acks y).
  { destruct (Hl l) as [msgs Hm]; [done|]. destruct l as [|rec l].
    - exists [], y. assert (msgs = []) as -> by (vm_compute in Hm; by injection Hm as <-). cbn. by rewrite app_nil_r.
    - unfold send_replayed. rewrite Hm. destruct (send_msgs_quiet msgs y w Hqy Hwy) as (z & Hz). exists msgs, z. by split. }
  destruct Hsend as (msgs & z & Hm & Hsend & Hwz & Hqz & Hlz & Haz). unfold bindM at 1. rewrite Hsend. destruct fin.
  - rewrite (Hfin eq_refl) in *. exists [l], msgs, r', z. rewrite Hlz, Haz, Hay, app_nil_r. split_and!; try done; [cbn; by rewrite app_nil_r|].
    exists [msgs]. cbn. rewrite Hm. cbn. by rewrite app_nil_r.
  - specialize (Hmore eq_refl). rewrite length_app in Hf. assert (Hll : (0 < length l)%nat) by (destruct l; [done|cbn; lia]).
    destruct (IH r' z (w ++ (CmData <$> msgs)) P') as (bs & frames & r2 & z2 & Hrun & HPs & He & Hw2 & Hq2 & HR2 & Ha2);
      [done | done | by rewrite Hid, Hlz | by rewrite Htl | done | lia|].
    exists (l :: bs), (msgs ++ frames), r2, z2. split_and!; [exact Hrun | cbn; by rewrite <- HPs | by apply encoded_cons | | done | by rewrite Hid in HR2 | congruence].
    by rewrite Hw2, fmap_app, app_assoc.
Qed.

(** ** Batches that can be encoded *)

(** What replay relies on: the payloads on disk are events, and a list of events can be
    marshalled when there is a compressor. *)
Definition events_decode : Prop := ∀ g q p, has_rec L g (AUser q p) → is_Some (proto_unmarshal_event p).
Definition events_marshal : Prop := enc_Algo (compressor o) = COMPRESSION_NONE ∨ ∀ evs, is_Some (proto_marshal_events evs).

Lemma rmap_ok {E A B} (f : A → Result E B) l : (∀ x, x ∈ l → ∃ y, f x = Ok y) → ∃ ys, rmap f l = Ok ys.
Proof.
  induction l as [|x l IH]; intros Hf; [by eexists|]. destruct (Hf x) as [y Hy]; [set_solver|].
  destruct IH as [ys Hys]; [intros z Hz; apply Hf; set_solver|]. exists (y :: ys). cbn. by rewrite Hy, Hys.
Qed.

Lemma group_elem l k r : RunData k ∈ group l → r ∈ k → r ∈ l ∧ rec_Kind r = RecordData.
Proof.
  revert k. induction l as [|x l IH]; intros k; cbn; [by intros Hk%not_elem_of_nil|]. destruct (rec_Kind x) eqn:Hx.
  - assert (Hnew : RunData k = RunData [x] → r ∈ k → r ∈ x :: l ∧ rec_Kind r = RecordData).
    { intros [= ->] Hr%list_elem_of_singleton. subst r. split; [set_solver | done]. }
    unfold cons_data. destruct (group l) as [|[k'|] g] eqn:Hg; (intros [Heq|Hin]%elem_of_cons; [try by apply Hnew|]).
    + by apply not_elem_of_nil in Hin.
    + injection Heq as ->. intros [->|Hr]%elem_of_cons; [split; [set_solver | done]|].
      destruct (IH k' ltac:(set_solver) Hr). split; [set_solver | done].
    + intros Hr. destruct (IH k ltac:(set_solver) Hr). split; [set_solver | done].
    + intros Hr. destruct (IH k Hin Hr). split; [set_solver | done].
  - intros [?|Hin]%elem_of_cons Hr; [done|]. destruct (IH k Hin Hr). split; [set_solver | done].
  - intros Hin Hr. destruct (IH k Hin Hr). split; [set_solver | done].
Qed.

Lemma outs_data g start r : r ∈ outs g start L → rec_Kind r = RecordData → ∃ q p, r = data_record q g p ∧ has_rec L g (AUser q p).
Proof.
  intros (l & Hr & (x & -> & Hx)%list_elem_of_fmap)%list_elem_of_join. unfold seg_out in Hr.
  destruct (Z.eqb_spec (a_gen x.1) g) as [Hg|]; [|by apply not_elem_of_nil in Hr].
  apply list_elem_of_omap in Hr as ([q p|loss] & Hrec & Hd); cbn in Hd; [|by injection Hd as <-].
  destruct (q <? start); [done|]. injection Hd as <-. intros _. exists q, p. split; [done|]. by exists x.
Qed.

Lemma outs_encodable g start : events_decode → events_marshal → encodable (outs g start L).
Proof.
  intros Hdec Hmar b Hb. unfold encodeBatch. rewrite encode_ref.
  assert (Hk : ∀ k, RunData k ∈ group b → ∃ evs, rmap event_of k = Ok evs).
  { intros k Hk. apply rmap_ok. intros r Hr. destruct (group_elem b k r Hk Hr) as [Hrb Hkind].
    destruct (outs_data g start r (Hb r Hrb) Hkind) as (q & p & -> & Hrec). destruct (Hdec g q p Hrec) as [ce Hce].
    exists ce. unfold event_of. cbn. by rewrite Hce. }
  revert Hk. induction (group b) as [|run gr IH]; intros Hk; cbn [emit_runs]; [by eexists|].
  destruct IH as [ms Hms]; [intros k Hin; apply Hk; set_solver|].
  assert (Hrun : ∃ m, emit_run (to_EmitExtendedLossReasons o) (compressor o) run = Ok m).
  { destruct run as [k|loss]; [|by eexists]. destruct (Hk k) as [evs He]; [set_solver|]. cbn. rewrite He. cbn.
    unfold batch_frame, body_of. destruct (decide _) as [Hd|Hd]; [by eexists|]. destruct Hmar as [?|Hm]; [done|].
    destruct (Hm evs) as [raw ->]. by eexists. }
  destruct Hrun as [m ->]. cbn. rewrite Hms. by eexists.
Qed.

(** ** Stages *)

Lemma outs_within s g start : Indexed max wo L s → within (mkCursor (default 0 (w_perGenDataHighWater s.1 !! g)) g) (outs g start L).
Proof.
  intros [_ _ HC]. apply Forall_forall. intros r Hr Hk. destruct (outs_data g start r Hr Hk) as (q & p & -> & x & Hx & Hg & Hrec).
  destruct (ct_data _ _ _ HC x q Hx (user_of_rec _ _ _ Hrec)) as (h & Hh & Hle). rewrite Hg in Hh. rewrite Hh. cbn.
  apply not_true_iff_false. rewrite watermarkLess_spec. unfold cursor_le. cbn. intros Hn. apply Hn. right. split; [done|lia].
Qed.

Definition records (L : Slots) : nat := length (mjoin ((λ x : ASeg * nat, a_recs x.1) <$> L)).

Lemma outs_length g start K : (length (outs g start K) <= records K)%nat.
Proof.
  unfold records. induction K as [|x K IH]; [done|]. rewrite outs_cons, length_app. cbn. rewrite length_app.
  apply Nat.add_le_mono; [|exact IH]. unfold seg_out. destruct (_ =? _); [apply omap_length_le | cbn; lia].
Qed.

Definition stage_outs (st : ReplayStage) : list WalRecord := outs (st_Generation st) (st_StartSeq st) L.

Context (Hdec : events_decode) (Hmar : events_marshal).

Lemma encoded_app bs1 bs2 f1 f2 : encoded o bs1 f1 → encoded o bs2 f2 → encoded o (bs1 ++ bs2) (f1 ++ f2).
Proof.
  intros (fss & Hf & ->) He2. revert fss Hf. induction bs1 as [|b bs IH]; intros fss; cbn [rmap]; [by intros [= <-]|].
  destruct (encodeBatch o b) as [msgs|] eqn:Hb; cbn [rbind]; [|done]. destruct (rmap (encodeBatch o) bs) as [ms|]; cbn [rbind]; [|done].
  intros [= <-]. change (mjoin (msgs :: ms)) with (msgs ++ mjoin ms). rewrite <- app_assoc. apply encoded_cons; [done|]. by apply IH.
Qed.

Lemma stages_loop_quiet fuel stages : ∀ rep x w, Quiet x → wire x = Some w → Indexed max wo L (x_log x) → w_nextIndex (x_log x).1 < 2 ^ 64 →
  Forall (λ st, 0 ≤ st_StartSeq st) stages → (records L + 1 < fuel)%nat →
  ∃ bs frames rep' y, stages_loop o opts fuel stages rep x = (Ok (SeDone, rep'), y) ∧ mjoin bs = mjoin (stage_outs <$> stages) ∧
    encoded o bs frames ∧ wire y = Some (w ++ (CmData <$> frames)) ∧ Quiet y ∧ Indexed max wo L (x_log y).
Proof.
  induction stages as [|st stages IH]; intros rep x w Hq Hw HI Hn Hst Hf; cbn [stages_loop].
  { exists [], [], rep, x. rewrite app_nil_r. split_and!; try done. by exists []. }
  inversion Hst as [|? ? Hs0 Hst']; subst. unfold bindM at 1, rdrFactory. set (id := ev_nextReader (x_env x)).
  destruct (Reads_new max wo L (x_log x) id (st_Generation st) (st_StartSeq st) HI Hn Hs0) as (rd & s' & -> & HR & Hid & Hgen & Hmap & Hcl).
  cbn [fst snd]. set (x1 := set_env _ _). assert (Hq1 : Quiet x1) by (destruct Hq; by constructor).
  unfold bindM at 1, NewReplayer, mget. change (x_log x1) with s'. rewrite Hid. unfold Reader_WrittenDataHighWater, WrittenDataHighWater, Reader_Generation.
  rewrite Hcl, Hgen, Hmap. set (r := mkReplayer _ _ _ _). unfold bindM at 1.
  destruct (runReplaying_quiet (st_Generation st) (st_StartSeq st) fuel r x1 w (stage_outs st)) as (bs & frames & r' & y & -> & Hbs & He & Hwy & Hqy & HRy & _);
    [done | done | done | by apply outs_within | by apply outs_encodable | pose proof (outs_length (st_Generation st) (st_StartSeq st) L); unfold stage_outs; lia |].
  cbn beta iota. unfold bindM at 1, rdr_Close, mput. destruct (decide (StateLive = StateLive)) as [_|]; [|done].
  destruct (Reads_close _ _ _ _ _ _ _ _ HRy) as [HIy Hny]. set (y1 := set_log _ y).
  destruct (IH (Some r') y1 (w ++ (CmData <$> frames))) as (bs2 & frames2 & rep2 & z & Hz & Hbs2 & He2 & Hwz & Hqz & HIz); [by apply (Quiet_parts y) | done..|].
  exists (bs ++ bs2), (frames ++ frames2), rep2, z. split_and!; [exact Hz | | by apply encoded_app | | done | done].
  - rewrite join_app, Hbs, Hbs2. done.
  - by rewrite Hwz, fmap_app, app_assoc.
Qed.

End replay.

(** The record as a reader returns it. *)
Definition record_of (g : Z) (r : ARec) : WalRecord :=
  match r with AUser q p => data_record q g p | ALoss l => loss_record (l_Generation l) l end.

Lemma deliver_record g start r d : deliver g start r = Some d → d = record_of g r.
Proof. destruct r as [q p|l]; cbn; [destruct (q <? start); [done|]|]; by intros [= <-]. Qed.

(** A record among the frames: a user record is one of a run of records whose events make up
    an event batch, a loss marker is a frame of its own if it has a wire form. *)
Definition on_wire `{WtpLib, WtpWire} (o : TOptions) (frames : list DataMessage) (g : Z) (r : ARec) : Prop :=
  match r with
  | AUser q p => ∃ m k evs ev, m ∈ frames ∧ rmap event_of k = Ok evs ∧ batch_frame (compressor o) k evs = Ok m ∧
                   data_record q g p ∈ k ∧ proto_unmarshal_event p = Some ev ∧ ev ∈ evs
  | ALoss l => match loss_frame (to_EmitExtendedLossReasons o) l with Some m => m ∈ frames | None => True end
  end.

Lemma group_mem l r : r ∈ l →
  match rec_Kind r with
  | RecordData => ∃ k, RunData k ∈ group l ∧ r ∈ k
  | RecordLoss => RunLoss (rec_Loss r) ∈ group l
  | RecordGenerationRoll => True
  end.
Proof.
  induction l as [|x l IH]; [by intros ?%not_elem_of_nil|]. intros [->|Hr]%elem_of_cons.
  - cbn. destruct (rec_Kind x) eqn:Hk; [|by apply elem_of_cons; left|done].
    unfold cons_data. destruct (group l) as [|[k|] g]; eexists; (split; [by apply elem_of_cons; left|]); by apply elem_of_cons; left.
  - specialize (IH Hr). cbn. destruct (rec_Kind r) eqn:Hk; [| |done].
    + destruct IH as (k & Hk1 & Hk2). destruct (rec_Kind x); [|exists k; split; [by apply elem_of_cons; right|done]|by exists k].
      unfold cons_data. destruct (group l) as [|[k'|] g]; [by apply not_elem_of_nil in Hk1| |exists k; split; [by apply elem_of_cons; right|done]].
      apply elem_of_cons in Hk1 as [[= ->]|Hk1]; [|exists k; split; [by apply elem_of_cons; right|done]].
      exists (x :: k'). split; apply elem_of_cons; [by left|by right].
    + destruct (rec_Kind x); [|by apply elem_of_cons; right|done]. unfold cons_data.
      destruct (group l) as [|[k'|] g]; [by apply not_elem_of_nil in IH| |by apply elem_of_cons; right].
      apply elem_of_cons in IH as [?|IH]; [done|]. by apply elem_of_cons; right.
Qed.

Lemma emit_runs_mem `{WtpLib} x comp g msgs run : emit_runs x comp g = Ok msgs → run ∈ g → ∃ ms, emit_run x comp run = Ok ms ∧ ms ⊆ msgs.
Proof.
  revert msgs. induction g as [|run' g IH]; intros msgs; [by intros _ ?%not_elem_of_nil|]. cbn [emit_runs].
  destruct (emit_run x comp run') as [m|] eqn:Hm; cbn [rbind]; [|done]. destruct (emit_runs x comp g) as [ms|]; cbn [rbind]; [|done].
  intros [= <-] [->|Hr]%elem_of_cons; [exists m; split; [done|set_solver]|].
  destruct (IH ms eq_refl Hr) as (m' & ? & ?). exists m'. split; [done|set_solver].
Qed.

Lemma Forall2_image {A B} (P : A → B → Prop) l k x : Forall2 P l k → x ∈ l → ∃ y, y ∈ k ∧ P x y.
Proof.
  induction 1 as [|a b l k Hab _ IH]; [by intros ?%not_elem_of_nil|]. intros [->|Hx]%elem_of_cons; [exists b; set_solver|].
  destruct (IH Hx) as (y & ? & ?). exists y. set_solver.
Qed.

Lemma encoded_on_wire `{WtpLib, WtpWire} o bs frames g r : encoded o bs frames → record_of g r ∈ mjoin bs → on_wire o frames g r.
Proof.
  intros (fss & Hf & ->) Hr. apply list_elem_of_join in Hr as (b & Hr & Hb). apply rmap_Ok in Hf.
  destruct (Forall2_image _ _ _ _ Hf Hb) as (msgs & Hmsgs & He). unfold encodeBatch in He. rewrite encode_ref in He.
  assert (Hsub : ∀ m, m ∈ msgs → m ∈ mjoin fss) by (intros m Hm; apply list_elem_of_join; eauto).
  pose proof (group_mem b (record_of g r) Hr) as Hg. destruct r as [q p|l]; cbn in Hg.
  - destruct Hg as (k & Hk & Hin). destruct (emit_runs_mem _ _ _ _ _ He Hk) as (ms & Hms & Hle). cbn in Hms.
    destruct (rmap event_of k) as [evs|] eqn:Hevs; cbn [rbind] in Hms; [|done].
    destruct (batch_frame _ k evs) as [m|] eqn:Hbf; cbn [rbind] in Hms; [|done]. injection Hms as <-.
    pose proof Hevs as Hall. apply rmap_Ok in Hall. destruct (Forall2_image _ _ _ _ Hall Hin) as (ev & Hev & Hof).
    unfold event_of in Hof. cbn in Hof. destruct (proto_unmarshal_event p) as [ev'|] eqn:Hu; [|done]. injection Hof as ->.
    exists m, k, evs, ev. split_and!; try done. apply Hsub, Hle. by apply elem_of_cons; left.
  - destruct (emit_runs_mem _ _ _ _ _ He Hg) as (ms & Hms & Hle). cbn in Hms. injection Hms as <-. cbn.
    destruct (loss_frame _ l) as [m|]; [|done]. apply Hsub, Hle. by apply elem_of_cons; left.
Qed.

(** C4. Replay ends and reaches the server. Let a session be in the state Replaying on a
    log whose index is complete (which [index_complete] shows of logs that were appended to in
    order without failures), with nothing else happening and sends that succeed, whatever the
    cursors (of one generation) are and however many segments and generations there are. Let
    every payload on disk decode as an event (a record that does not stops replay), and lists
    of events be marshallable. Then, with fuel beyond the number of records on disk, the state
    ends in Live; the frames put on the connection are the encodings of batches whose
    records are those of the stages of the plan, stage after stage in the order of the
    generations and of the log. Every user record on disk past the server's cursor is, with
    its event, in one of the event batches sent; and every loss marker there is a frame that
    is sent, unless its reason is unknown or is an extended one and these are off, in which
    case the encoder drops it. *)
Theorem replay_reaches_server `{WtpLib, WtpWire} o opts max wo L fuel rep x w :
  to_WAL o = true → Indexed max wo L (x_log x) → w_nextIndex (x_log x).1 < 2 ^ 64 →
  let rc := k_remoteReplayCursor (x_acks x) in let pa := k_persistedAck (x_acks x) in
  ac_Generation rc = ac_Generation pa → 0 ≤ ac_Generation pa < 2 ^ 32 → HighGeneration (x_log x).1 < 2 ^ 32 → 0 ≤ ac_Sequence rc < 2 ^ 64 - 1 →
  events_decode L → events_marshal o → Quiet x → wire x = Some w → (records L + 1 < fuel)%nat →
  ∃ bs frames stages rep' y, run_state o opts fuel StateReplaying rep x = (Ok (inr (StateLive, rep')), y) ∧
    wire y = Some (w ++ (CmData <$> frames)) ∧ encoded o bs frames ∧
    mjoin bs = mjoin (stage_outs L <$> stages) ∧ StronglySorted Z.lt (st_Generation <$> stages) ∧
    ∀ g r, has_rec L g r → beyond rc g r → record_of g r ∈ mjoin bs ∧ on_wire o frames g r.
Proof.
  intros Hwal HI Hn rc pa Hg Hpg Hh Hs Hdec Hmar Hq Hw Hf.
  destruct (plan_reaches max wo L (x_log x) rc pa HI Hg Hpg Hh Hs) as (st & stages & Hplan & _ & Hpos & Hsort & Hlater & _ & Hreach).
  cbn [run_state]. unfold bindM at 1, mget. unfold bindM at 1. unfold fns. rewrite Hwal. fold rc pa. rewrite Hplan.
  destruct (stages_loop_quiet o opts max wo L Hdec Hmar fuel (st :: stages) rep (set_log (x_log x) x) w) as (bs & frames & rep' & y & Hrun & Hbs & He & Hwy & _ & _);
    [by apply (Quiet_parts x) | done | done | done | constructor; [done|]; eapply Forall_impl; [exact Hlater|]; intros z [-> _]; done | done |].
  exists bs, frames, (st :: stages), rep', y. split_and!; try done.
  - unfold bindM at 1. by rewrite Hrun.
  - intros g r Hrec Hb. destruct (Hreach g r Hrec Hb) as (st' & d & Hin & <- & Hd & Hout).
    assert (Hmem : record_of (st_Generation st') r ∈ mjoin bs); [|split; [done | by eapply encoded_on_wire]].
    rewrite Hbs, <- (deliver_record _ _ _ _ Hd). apply list_elem_of_join. exists (stage_outs L st'). split; [done|].
    apply list_elem_of_fmap. by exists st'.
Qed.

(** ** A concrete session *)

#[local] Existing Instance demo_lib.
#[local] Existing Instance demo_wire.

(** Replaying the log with one record to a server that has nothing. *)
Definition demo_replaying : Sess :=
  mkSess (mkAcks (mkCursor 0 1) true (mkCursor 0 1) []) s1 (mkNet (Some (mkConn [] [] [])) (Some newRecvSession) [] []) no_live (demo_env [])
         (mkObs [] [] "").

Lemma replay_reaches_server_witness : ∃ L fuel bs frames stages rep' y, Indexed 84 o0 L s1 ∧
  run_state demo_opts demo_live fuel StateReplaying None demo_replaying = (Ok (inr (StateLive, rep')), y) ∧
  wire y = Some (CmData <$> frames) ∧ encoded demo_opts bs frames ∧ mjoin bs = mjoin (stage_outs L <$> stages) ∧
  ∀ g r, has_rec L g r → beyond (mkCursor 0 1) g r → record_of g r ∈ mjoin bs ∧ on_wire demo_opts frames g r.
Proof.
  destruct s1_indexed as [L HL].
  destruct (replay_reaches_server demo_opts demo_live 84 o0 L (records L + 2) None demo_replaying []) as (bs & frames & stages & rep' & y & H1 & H2 & H3 & H4 & H5 & H6);
    [reflexivity | exact HL | vm_compute; reflexivity | reflexivity | cbn; lia | vm_compute; reflexivity | cbn; lia | | by left | | reflexivity | lia |].
  - intros g q p _. by eexists.
  - constructor; [reflexivity | reflexivity | reflexivity | by intros rs [= <-] | by eexists].
  - exists L, (records L + 2)%nat, bs, frames, stages, rep', y. split_and!; done.
Defined.

(** A policy push that arrives while Replaying is taken off the queue and not applied,
    although a callback is registered; in Live it is. *)
Definition pushed : PolicyPush := mkPolicyPush "p" 1 "" [] [] "" [].
Definition with_push (x : Sess) : Sess := set_net (set_recv (Some (mkRecvSession [EvPolicyPush pushed] None RcRecv)) (x_net x)) x.

Theorem replay_drops_policy_push :
  let replayed := (run_state demo_opts demo_live 10 StateReplaying None (with_push demo_replaying)).2 in
  let lived := (runLive demo_opts demo_live 10 0 (with_push demo_streaming)).2 in
  ready_event replayed = None ∧ b_policies (x_obs replayed) = [] ∧ b_policies (x_obs lived) = [fromWirePolicyPush pushed].
Proof. vm_compute. repeat split; reflexivity. Qed.

(** The live reader starts from the larger of two sequence numbers that may belong to
    different generations: after the replay of generation 2 up to record 1, with the
    server's cursor at record 5 of generation 1, records 2 to 5 of generation 2 are not
    read. *)
Theorem live_start_mixes_generations :
  live_start (mkAcks (mkCursor 5 1) true (mkCursor 5 1) []) (Some (mkReplayer 0 (mkReplayerOptions 1 1) (mkCursor 1 2) (mkCursor 1 2))) = 6.
Proof. reflexivity. Qed.
