(* ===== verification/WtpCanonical.v ===== *)
(** * The canonical form of an integrity record

    internal/store/watchtower/chain: the JSON text that the HMAC chain signs
    (canonical.go), with the UTF-8 checks and the escaping of its strings, and the two
    hashes over canonical bytes (chain.go). SHA-256 is a parameter.

    The theorem: a reader that knows the format gets every field back from the text, so
    two records with the same canonical bytes are the same record, and the text is
    ASCII without control bytes. *)

From stdpp Require Import pretty.
From S2P Require Import Prelude WalFrame AuditChain.
Open Scope Z_scope.

(** ** unicode/utf8 and unicode/utf16 *)

Definition RuneError : Z := 0xfffd.

Definition byte_between (lo hi : Z) (c : ascii) : bool := (lo <=? byte_val c) && (byte_val c <=? hi).

(** The [first] table: the length of an encoding by its first byte, and the range of the
    second byte; [None] is an illegal first byte. *)
Definition first (p0 : Z) : option (nat * (Z * Z)) :=
  if p0 <? 0xc2 then None
  else if p0 <=? 0xdf then Some (2%nat, (0x80, 0xbf))
  else if p0 =? 0xe0 then Some (3%nat, (0xa0, 0xbf))
  else if p0 <=? 0xec then Some (3%nat, (0x80, 0xbf))
  else if p0 =? 0xed then Some (3%nat, (0x80, 0x9f))
  else if p0 <=? 0xef then Some (3%nat, (0x80, 0xbf))
  else if p0 =? 0xf0 then Some (4%nat, (0x90, 0xbf))
  else if p0 <=? 0xf3 then Some (4%nat, (0x80, 0xbf))
  else if p0 =? 0xf4 then Some (4%nat, (0x80, 0x8f))
  else None.

Definition cont_byte : ascii → bool := byte_between 0x80 0xbf.
Definition low6 (c : ascii) : Z := Z.land (byte_val c) 0x3f.

(** The rune that starts [s] and its length; [None] when the encoding is invalid. *)
Definition rune_at (s : string) : option (Z * nat) :=
  match s with
  | EmptyString => None
  | String c0 r =>
      let p0 := byte_val c0 in
      if p0 <? 0x80 then Some (p0, 1%nat)
      else match first p0 with
      | None => None
      | Some (n, (lo, hi)) =>
          match r with
          | EmptyString => None
          | String b1 r =>
              if negb (byte_between lo hi b1) then None
              else if (n <=? 2)%nat then Some (Z.lor (Z.shiftl (Z.land p0 0x1f) 6) (low6 b1), 2%nat)
              else match r with
              | EmptyString => None
              | String b2 r =>
                  if negb (cont_byte b2) then None
                  else if (n <=? 3)%nat
                  then Some (Z.lor (Z.shiftl (Z.land p0 0x0f) 12) (Z.lor (Z.shiftl (low6 b1) 6) (low6 b2)), 3%nat)
                  else match r with
                  | EmptyString => None
                  | String b3 r =>
                      if negb (cont_byte b3) then None
                      else Some (Z.lor (Z.shiftl (Z.land p0 0x07) 18)
                                   (Z.lor (Z.shiftl (low6 b1) 12) (Z.lor (Z.shiftl (low6 b2) 6) (low6 b3))), 4%nat)
                  end
              end
          end
      end
  end.

(** [utf8.DecodeRuneInString]. *)
Definition DecodeRuneInString (s : string) : Z * nat :=
  match s with
  | EmptyString => (RuneError, 0%nat)
  | _ => default (RuneError, 1%nat) (rune_at s)
  end.

Fixpoint valid_from (fuel : nat) (s : string) : bool :=
  match s, fuel with
  | EmptyString, _ => true
  | _, O => false
  | _, S fuel => match rune_at s with Some (_, n) => valid_from fuel (str_drop n s) | None => false end
  end.

(** [utf8.ValidString]; a step consumes at least one byte. *)
Definition ValidString (s : string) : bool := valid_from (String.length s) s.

(** [utf16.EncodeRune] of a rune above the basic plane. *)
Definition utf16_EncodeRune (r : Z) : Z * Z :=
  (0xd800 + Z.land (Z.shiftr (r - 0x10000) 10) 0x3ff, 0xdc00 + Z.land (r - 0x10000) 0x3ff).

(** ** Escaping *)

Definition dq : ascii := "034".
Definition escaped (c : ascii) : string := String "\" (String c "").
Definition hexd (z : Z) : ascii := hex_digit (Z.to_nat z).

(** [fmt.Fprintf(buf, `\u%04x`, r)] of a 16-bit value. *)
Definition u_escape (r : Z) : string :=
  String "\" (String "u" (String (hexd (r / 4096)) (String (hexd ((r / 256) `mod` 16))
    (String (hexd ((r / 16) `mod` 16)) (String (hexd (r `mod` 16)) ""))))).

(** The switch of [writeStringEscapedBody]. *)
Definition escape_rune (r : Z) : string :=
  if r =? 34 then escaped dq
  else if r =? 92 then escaped "\"
  else if r =? 8 then escaped "b"
  else if r =? 12 then escaped "f"
  else if r =? 10 then escaped "n"
  else if r =? 13 then escaped "r"
  else if r =? 9 then escaped "t"
  else if r <? 0x20 then u_escape r
  else if r <? 0x80 then String (ascii_of_N (Z.to_N r)) ""
  else if r <=? 0xffff then u_escape r
  else let '(hi, lo) := utf16_EncodeRune r in u_escape hi +:+ u_escape lo.

Fixpoint escape_loop (fuel : nat) (s : string) : string :=
  match s, fuel with
  | EmptyString, _ | _, O => ""
  | _, S fuel => let '(r, size) := DecodeRuneInString s in escape_rune r +:+ escape_loop fuel (str_drop size s)
  end.

Definition writeStringEscapedBody (s : string) : string := escape_loop (String.length s) s.

Definition quoted (body : string) : string := String dq (body +:+ String dq "").
Definition writeStringValue (s : string) : string := quoted (writeStringEscapedBody s).
Definition writeUint (n : Z) : string := pretty n.
Definition writeKey (k : string) (first : bool) : string :=
  (if first then "" else ",") +:+ quoted (writeStringEscapedBody k) +:+ ":".

(** ** Records *)

Record IntegrityRecord := mkIntegrity {
  ir_FormatVersion : Z;
  ir_Sequence : Z;
  ir_Generation : Z;
  ir_PrevHash : string;
  ir_EventHash : string;
  ir_ContextDigest : string;
  ir_KeyFingerprint : string;
}.

Record SessionContext := mkContext {
  cx_SessionID : string;
  cx_AgentID : string;
  cx_AgentVersion : string;
  cx_OCSFVersion : string;
  cx_FormatVersion : Z;
  cx_Algorithm : string;
  cx_KeyFingerprint : string;
}.

(** [ErrInvalidUTF8] with the name of the field. *)
Inductive CanonErr := ErrInvalidUTF8 (field : string).

Definition invalid_field (fields : list (string * string)) : option string :=
  fst <$> find_first (λ f, negb (ValidString f.2)) fields.

Definition EncodeCanonical (rec : IntegrityRecord) : Result CanonErr string :=
  match invalid_field [("context_digest", ir_ContextDigest rec); ("event_hash", ir_EventHash rec);
                       ("key_fingerprint", ir_KeyFingerprint rec); ("prev_hash", ir_PrevHash rec)] with
  | Some name => Err (ErrInvalidUTF8 name)
  | None =>
      Ok ("{" +:+
          writeKey "context_digest" true +:+ writeStringValue (ir_ContextDigest rec) +:+
          writeKey "event_hash" false +:+ writeStringValue (ir_EventHash rec) +:+
          writeKey "format_version" false +:+ writeUint (ir_FormatVersion rec) +:+
          writeKey "generation" false +:+ writeUint (ir_Generation rec) +:+
          writeKey "key_fingerprint" false +:+ writeStringValue (ir_KeyFingerprint rec) +:+
          writeKey "prev_hash" false +:+ writeStringValue (ir_PrevHash rec) +:+
          writeKey "sequence" false +:+ writeUint (ir_Sequence rec) +:+ "}")
  end.

Definition encodeContextCanonical (ctx : SessionContext) : Result CanonErr string :=
  match invalid_field [("agent_id", cx_AgentID ctx); ("agent_version", cx_AgentVersion ctx);
                       ("algorithm", cx_Algorithm ctx); ("key_fingerprint", cx_KeyFingerprint ctx);
                       ("ocsf_version", cx_OCSFVersion ctx); ("session_id", cx_SessionID ctx)] with
  | Some name => Err (ErrInvalidUTF8 name)
  | None =>
      Ok ("{" +:+
          writeKey "agent_id" true +:+ writeStringValue (cx_AgentID ctx) +:+
          writeKey "agent_version" false +:+ writeStringValue (cx_AgentVersion ctx) +:+
          writeKey "algorithm" false +:+ writeStringValue (cx_Algorithm ctx) +:+
          writeKey "format_version" false +:+ writeUint (cx_FormatVersion ctx) +:+
          writeKey "key_fingerprint" false +:+ writeStringValue (cx_KeyFingerprint ctx) +:+
          writeKey "ocsf_version" false +:+ writeStringValue (cx_OCSFVersion ctx) +:+
          writeKey "session_id" false +:+ writeStringValue (cx_SessionID ctx) +:+ "}")
  end.

(** crypto/sha256. *)
Class ShaLib := { sha256_Sum256 : string → string }.

Definition ComputeContextDigest `{ShaLib} (ctx : SessionContext) : Result CanonErr string :=
  let! canon := encodeContextCanonical ctx in Ok (hex_EncodeToString (sha256_Sum256 canon)).

Definition ComputeEventHash `{ShaLib} (canonicalEvent : string) : string :=
  hex_EncodeToString (sha256_Sum256 canonicalEvent).

(** ** A reader of the format *)

(** The UTF-8 encoding of a rune. *)
Definition byte_of (z : Z) : ascii := ascii_of_N (Z.to_N z).
Definition utf8_encode (r : Z) : string :=
  if r <? 0x80 then String (byte_of r) ""
  else if r <? 0x800 then String (byte_of (0xc0 + r / 64)) (String (byte_of (0x80 + r `mod` 64)) "")
  else if r <? 0x10000
  then String (byte_of (0xe0 + r / 4096)) (String (byte_of (0x80 + (r / 64) `mod` 64)) (String (byte_of (0x80 + r `mod` 64)) ""))
  else String (byte_of (0xf0 + r / 262144)) (String (byte_of (0x80 + (r / 4096) `mod` 64))
         (String (byte_of (0x80 + (r / 64) `mod` 64)) (String (byte_of (0x80 + r `mod` 64)) ""))).

(** A Unicode scalar value. *)
Definition scalar (r : Z) : Prop := 0 ≤ r < 0xd800 ∨ 0xe000 ≤ r < 0x110000.

Definition hex_val (c : ascii) : option Z :=
  if byte_in "0" "9" c then Some (byte_val c - 48) else if byte_in "a" "f" c then Some (byte_val c - 87) else None.

(** Four hex digits. *)
Definition read_hex4 (s : string) : option (Z * string) :=
  match s with
  | String a (String b (String c (String d r))) =>
      x ← hex_val a; y ← hex_val b; z ← hex_val c; w ← hex_val d; Some (x * 4096 + y * 256 + z * 16 + w, r)
  | _ => None
  end.

(** One UTF-16 code unit of a string body; [None] is the closing quote. *)
Definition read_unit (s : string) : option (option Z * string) :=
  match s with
  | EmptyString => None
  | String c r =>
      if Ascii.eqb c dq then Some (None, r)
      else if negb (Ascii.eqb c "\") then
        if byte_between 0x20 0x7f c then Some (Some (byte_val c), r) else None
      else match r with
      | EmptyString => None
      | String e r =>
          if Ascii.eqb e dq then Some (Some 34, r)
          else if Ascii.eqb e "\" then Some (Some 92, r)
          else if Ascii.eqb e "b" then Some (Some 8, r)
          else if Ascii.eqb e "f" then Some (Some 12, r)
          else if Ascii.eqb e "n" then Some (Some 10, r)
          else if Ascii.eqb e "r" then Some (Some 13, r)
          else if Ascii.eqb e "t" then Some (Some 9, r)
          else if Ascii.eqb e "u" then '(v, r) ← read_hex4 r; Some (Some v, r)
          else None
      end
  end.

(** One rune: a surrogate pair is two units. *)
Definition read_rune (s : string) : option (option Z * string) :=
  '(u, r) ← read_unit s;
  match u with
  | None => Some (None, r)
  | Some hi =>
      if (0xd800 <=? hi) && (hi <? 0xdc00) then
        '(u, r) ← read_unit r;
        match u with
        | Some lo => if (0xdc00 <=? lo) && (lo <? 0xe000)
                     then Some (Some (0x10000 + (hi - 0xd800) * 1024 + (lo - 0xdc00)), r) else None
        | None => None
        end
      else Some (Some hi, r)
  end.

Fixpoint read_body (fuel : nat) (s : string) : option (string * string) :=
  match fuel with
  | O => None
  | S fuel =>
      '(u, r) ← read_rune s;
      match u with
      | None => Some ("", r)
      | Some u => '(v, r) ← read_body fuel r; Some (utf8_encode u +:+ v, r)
      end
  end.

(** [pre] must come next. *)
Definition expect (pre s : string) : option string :=
  if String.prefix pre s then Some (str_drop (String.length pre) s) else None.

Definition read_string (s : string) : option (string * string) :=
  r ← expect (String dq "") s; read_body (String.length r) r.

Fixpoint read_uint (s : string) (acc : Z) : Z * string :=
  match s with
  | EmptyString => (acc, "")
  | String c r => if byte_in "0" "9" c then read_uint r (acc * 10 + (byte_val c - 48)) else (acc, s)
  end.

Definition read_key (k : string) (is_first : bool) (s : string) : option string :=
  expect ((if is_first then "" else ",") +:+ String dq (k +:+ String dq ":")) s.

Definition DecodeCanonical (s : string) : option IntegrityRecord :=
  s ← expect "{" s;
  s ← read_key "context_digest" true s; '(contextDigest, s) ← read_string s;
  s ← read_key "event_hash" false s; '(eventHash, s) ← read_string s;
  s ← read_key "format_version" false s; let '(formatVersion, s) := read_uint s 0 in
  s ← read_key "generation" false s; let '(generation, s) := read_uint s 0 in
  s ← read_key "key_fingerprint" false s; '(keyFingerprint, s) ← read_string s;
  s ← read_key "prev_hash" false s; '(prevHash, s) ← read_string s;
  s ← read_key "sequence" false s; let '(sequence, s) := read_uint s 0 in
  if String.eqb s "}"
  then Some (mkIntegrity formatVersion sequence generation prevHash eventHash contextDigest keyFingerprint)
  else None.

(** ** UTF-8 *)

#[local] Ltac Zify.zify_post_hook ::= Z.to_euclidean_division_equations.

Lemma byte_val_range c : 0 ≤ byte_val c < 256.
Proof. unfold byte_val. pose proof (nat_ascii_bounded c). lia. Qed.

Lemma byte_of_val c : byte_of (byte_val c) = c.
Proof. unfold byte_of, byte_val, nat_of_ascii. rewrite N_nat_Z, N2Z.id. apply ascii_N_embedding. Qed.

Lemma byte_val_of z : 0 ≤ z < 256 → byte_val (byte_of z) = z.
Proof. intros Hz. unfold byte_of, byte_val, nat_of_ascii. rewrite N_nat_Z, N_ascii_embedding by lia. lia. Qed.

Lemma byte_of_eq c z : byte_val c = z → byte_of z = c.
Proof. intros <-. apply byte_of_val. Qed.

Lemma land_low x k : 0 ≤ k → Z.land x (2 ^ k - 1) = x `mod` 2 ^ k.
Proof. intros Hk. rewrite <- Z.land_ones by done. f_equal. rewrite Z.ones_equiv. lia. Qed.

Lemma low6_mod c : low6 c = byte_val c `mod` 64.
Proof. apply (land_low _ 6). lia. Qed.

(** What the table says of a first byte. *)
Lemma first_spec p n lo hi : first p = Some (n, (lo, hi)) →
  (n = 2%nat ∧ 0xc2 ≤ p ≤ 0xdf ∧ lo = 0x80 ∧ hi = 0xbf) ∨
  (n = 3%nat ∧ 0xe0 ≤ p ≤ 0xef ∧ 0x80 ≤ lo ∧ hi ≤ 0xbf ∧ (p = 0xe0 → lo = 0xa0) ∧ (p = 0xed → hi = 0x9f)) ∨
  (n = 4%nat ∧ 0xf0 ≤ p ≤ 0xf4 ∧ 0x80 ≤ lo ∧ hi ≤ 0xbf ∧ (p = 0xf0 → lo = 0x90) ∧ (p = 0xf4 → hi = 0x8f)).
Proof.
  unfold first. destruct (Z.ltb_spec p 0xc2); [done|].
  destruct (Z.leb_spec p 0xdf); [intros [= <- <- <-]; lia|].
  destruct (Z.eqb_spec p 0xe0); [intros [= <- <- <-]; lia|].
  destruct (Z.leb_spec p 0xec); [intros [= <- <- <-]; lia|].
  destruct (Z.eqb_spec p 0xed); [intros [= <- <- <-]; lia|].
  destruct (Z.leb_spec p 0xef); [intros [= <- <- <-]; lia|].
  destruct (Z.eqb_spec p 0xf0); [intros [= <- <- <-]; lia|].
  destruct (Z.leb_spec p 0xf3); [intros [= <- <- <-]; lia|].
  destruct (Z.eqb_spec p 0xf4); [intros [= <- <- <-]; lia|]. done.
Qed.

Lemma byte_between_spec lo hi c : byte_between lo hi c = true ↔ lo ≤ byte_val c ≤ hi.
Proof. unfold byte_between. lia. Qed.

(** The values of the three longer encodings. *)
Lemma rune2_value p b : 0xc0 ≤ p ≤ 0xdf → 0x80 ≤ b ≤ 0xbf →
  Z.lor (Z.shiftl (Z.land p 0x1f) 6) (b `mod` 64) = (p - 0xc0) * 64 + (b - 0x80).
Proof.
  intros Hp Hb. rewrite lor_shift by lia. change 0x1f with (2 ^ 5 - 1). rewrite land_low by lia. lia.
Qed.
Lemma rune3_value p b c : 0xe0 ≤ p ≤ 0xef → 0x80 ≤ b ≤ 0xbf → 0x80 ≤ c ≤ 0xbf →
  Z.lor (Z.shiftl (Z.land p 0x0f) 12) (Z.lor (Z.shiftl (b `mod` 64) 6) (c `mod` 64)) =
  (p - 0xe0) * 4096 + (b - 0x80) * 64 + (c - 0x80).
Proof.
  intros Hp Hb Hc. change 0x0f with (2 ^ 4 - 1). rewrite land_low by lia.
  rewrite (lor_shift (b `mod` 64)) by lia. rewrite lor_shift by lia. lia.
Qed.
Lemma rune4_value p b c d : 0xf0 ≤ p ≤ 0xf7 → 0x80 ≤ b ≤ 0xbf → 0x80 ≤ c ≤ 0xbf → 0x80 ≤ d ≤ 0xbf →
  Z.lor (Z.shiftl (Z.land p 0x07) 18) (Z.lor (Z.shiftl (b `mod` 64) 12) (Z.lor (Z.shiftl (c `mod` 64) 6) (d `mod` 64))) =
  (p - 0xf0) * 262144 + (b - 0x80) * 4096 + (c - 0x80) * 64 + (d - 0x80).
Proof.
  intros Hp Hb Hc Hd. change 0x07 with (2 ^ 3 - 1). rewrite land_low by lia.
  rewrite (lor_shift (c `mod` 64)) by lia. rewrite (lor_shift (b `mod` 64)) by lia. rewrite lor_shift by lia. lia.
Qed.

(** A rune that decodes is a scalar value, and its encoding is what was read. *)
Lemma rune_at_spec s r n : rune_at s = Some (r, n) →
  scalar r ∧ s = utf8_encode r +:+ str_drop n s ∧ (n ≠ 0)%nat.
Proof.
  unfold rune_at. destruct s as [|c0 s]; [done|]. pose proof (byte_val_range c0) as H0.
  destruct (Z.ltb_spec (byte_val c0) 0x80) as [Hlt|Hge].
  { intros [= <- <-]. split_and!; [left; lia | | done]. unfold utf8_encode.
    destruct (Z.ltb_spec (byte_val c0) 0x80); [|lia]. by rewrite byte_of_val. }
  destruct (first (byte_val c0)) as [[k [lo hi]]|] eqn:Hf; [|done]. apply first_spec in Hf.
  destruct s as [|b1 s]; [done|]. destruct (byte_between lo hi b1) eqn:H1; [|done]. apply byte_between_spec in H1. cbn [negb].
  rewrite !low6_mod. destruct Hf as [(-> & Hp & -> & ->)|Hf]; cbn [Nat.leb].
  { rewrite rune2_value by lia. intros [= <- <-]. set (r := _ + _). assert (Hr : 0x80 ≤ r < 0x800) by lia.
    split_and!; [left; lia | | done]. unfold utf8_encode. destruct (Z.ltb_spec r 0x80), (Z.ltb_spec r 0x800); try lia.
    rewrite (byte_of_eq c0), (byte_of_eq b1) by lia. done. }
  destruct s as [|b2 s]; [by destruct Hf as [(-> & _)|(-> & _)]|]. unfold cont_byte.
  destruct (byte_between 0x80 0xbf b2) eqn:H2; [|by destruct Hf as [(-> & _)|(-> & _)]]. apply byte_between_spec in H2. cbn [negb].
  rewrite !low6_mod. destruct Hf as [(-> & Hp & Hlo & Hhi & He0 & Hed)|(-> & Hp & Hlo & Hhi & Hf0 & Hf4)]; cbn [Nat.leb].
  { rewrite rune3_value by lia. intros [= <- <-]. set (r := _ + _). assert (Hr : 0x800 ≤ r < 0x10000) by lia.
    split_and!; [unfold scalar; lia | | done]. unfold utf8_encode.
    destruct (Z.ltb_spec r 0x80), (Z.ltb_spec r 0x800), (Z.ltb_spec r 0x10000); try lia.
    rewrite (byte_of_eq c0), (byte_of_eq b1), (byte_of_eq b2) by lia. done. }
  destruct s as [|b3 s]; [done|]. destruct (byte_between 0x80 0xbf b3) eqn:H3; [|done]. apply byte_between_spec in H3. cbn [negb].
  rewrite !low6_mod, rune4_value by lia. intros [= <- <-]. set (r := _ + _). assert (Hr : 0x10000 ≤ r < 0x110000) by lia.
  split_and!; [right; lia | | done]. unfold utf8_encode.
  destruct (Z.ltb_spec r 0x80), (Z.ltb_spec r 0x800), (Z.ltb_spec r 0x10000); try lia.
  rewrite (byte_of_eq c0), (byte_of_eq b1), (byte_of_eq b2), (byte_of_eq b3) by lia. done.
Qed.

(** ** Escaping *)

Lemma hexd_spec z : 0 ≤ z < 16 → hex_val (hexd z) = Some z ∧ byte_between 0x20 0x7f (hexd z) = true.
Proof.
  intros Hz. assert (Hn : Z.to_nat z ∈ seq 0 16) by (apply elem_of_seq; lia). unfold hexd.
  rewrite <- (Z2Nat.id z) at 2 by lia. revert Hn. generalize (Z.to_nat z). clear z Hz. intros n Hn.
  assert (Hall : Forall (λ n, hex_val (hex_digit n) = Some (Z.of_nat n) ∧ byte_between 0x20 0x7f (hex_digit n) = true) (seq 0 16))
    by (repeat constructor).
  rewrite Forall_forall in Hall. by apply Hall.
Qed.

Lemma hex_val_hexd z : 0 ≤ z < 16 → hex_val (hexd z) = Some z.
Proof. intros Hz. by apply hexd_spec. Qed.
Lemma hexd_graphic z : 0 ≤ z < 16 → byte_between 0x20 0x7f (hexd z) = true.
Proof. intros Hz. by apply hexd_spec. Qed.

Lemma read_u_escape v t : 0 ≤ v < 0x10000 → read_unit (u_escape v +:+ t) = Some (Some v, t).
Proof.
  intros Hv. unfold u_escape. rewrite !string_app_cons. unfold read_unit. cbn -[hexd hex_val Z.div Z.modulo].
  rewrite !hex_val_hexd by lia. cbn [mbind option_bind]. do 3 f_equal. lia.
Qed.

Lemma utf16_EncodeRune_spec r : 0x10000 ≤ r < 0x110000 →
  utf16_EncodeRune r = (0xd800 + (r - 0x10000) / 1024, 0xdc00 + (r - 0x10000) `mod` 1024).
Proof.
  intros Hr. unfold utf16_EncodeRune. change 0x3ff with (2 ^ 10 - 1). rewrite !land_low, Z.shiftr_div_pow2 by lia.
  change (2 ^ 10) with 1024. f_equal. lia.
Qed.

Lemma read_rune_unit s hi r : read_unit s = Some (Some hi, r) → ¬ (0xd800 ≤ hi < 0xdc00) → read_rune s = Some (Some hi, r).
Proof.
  intros Hs Hhi. unfold read_rune. rewrite Hs. cbn [mbind option_bind].
  destruct (Z.leb_spec 0xd800 hi), (Z.ltb_spec hi 0xdc00); cbn; done || lia.
Qed.

Lemma read_plain c t : byte_between 0x20 0x7f c = true → byte_val c ≠ 34 → byte_val c ≠ 92 → read_unit (String c t) = Some (Some (byte_val c), t).
Proof.
  intros Hc H34 H92. unfold read_unit. destruct (Ascii.eqb_spec c dq) as [->|_]; [done|].
  destruct (Ascii.eqb_spec c "\") as [->|_]; [done|]. cbn [negb]. by rewrite Hc.
Qed.

(** An escaped rune reads as the rune. *)
Lemma read_escape r t : scalar r → read_rune (escape_rune r +:+ t) = Some (Some r, t).
Proof.
  intros Hr. unfold escape_rune.
  destruct (Z.eqb_spec r 34) as [->|]; [done|]. destruct (Z.eqb_spec r 92) as [->|]; [done|].
  destruct (Z.eqb_spec r 8) as [->|]; [done|]. destruct (Z.eqb_spec r 12) as [->|]; [done|].
  destruct (Z.eqb_spec r 10) as [->|]; [done|]. destruct (Z.eqb_spec r 13) as [->|]; [done|].
  destruct (Z.eqb_spec r 9) as [->|]; [done|]. unfold scalar in Hr.
  destruct (Z.ltb_spec r 0x20). { apply read_rune_unit; [apply read_u_escape; lia | lia]. }
  destruct (Z.ltb_spec r 0x80).
  { rewrite string_app_cons. fold (byte_of r). apply read_rune_unit; [|lia].
    pose proof (byte_val_of r ltac:(lia)) as Hb. rewrite <- Hb at 2. apply read_plain; [apply byte_between_spec|..]; lia. }
  destruct (Z.leb_spec r 0xffff). { apply read_rune_unit; [apply read_u_escape; lia | lia]. }
  rewrite utf16_EncodeRune_spec by lia. rewrite string_app_assoc. unfold read_rune.
  rewrite read_u_escape by lia. cbn [mbind option_bind].
  destruct (Z.leb_spec 0xd800 (0xd800 + (r - 0x10000) / 1024)), (Z.ltb_spec (0xd800 + (r - 0x10000) / 1024) 0xdc00); cbn [andb]; try lia.
  rewrite read_u_escape by lia. cbn [mbind option_bind].
  destruct (Z.leb_spec 0xdc00 (0xdc00 + (r - 0x10000) `mod` 1024)), (Z.ltb_spec (0xdc00 + (r - 0x10000) `mod` 1024) 0xe000); cbn [andb]; try lia.
  do 3 f_equal. lia.
Qed.

Lemma escape_rune_length r : (0 < String.length (escape_rune r))%nat.
Proof. unfold escape_rune. repeat case_match; rewrite ?string_length_app; cbn; lia. Qed.

Lemma DecodeRune_valid s r n : rune_at s = Some (r, n) → DecodeRuneInString s = (r, n).
Proof. intros Hs. unfold DecodeRuneInString. destruct s; [done|]. by rewrite Hs. Qed.

(** Reading back the body of a valid string. *)
Lemma read_body_escape fuel f s t : valid_from fuel s = true → (String.length (escape_loop fuel s) < f)%nat →
  read_body f (escape_loop fuel s +:+ String dq t) = Some (s, t).
Proof.
  revert f s. induction fuel as [|fuel IH]; intros f s Hv Hf.
  { destruct s; [|done]. destruct f as [|f]; [cbn in Hf; lia|]. done. }
  destruct s as [|c s]; [destruct f as [|f]; [cbn in Hf; lia|]; done|]. cbn [valid_from escape_loop] in *.
  destruct (rune_at (String c s)) as [[r n]|] eqn:Hr; [|done]. rewrite (DecodeRune_valid _ _ _ Hr) in *.
  destruct (rune_at_spec _ _ _ Hr) as (Hsc & Hs & _). rewrite string_length_app in Hf. pose proof (escape_rune_length r).
  destruct f as [|f]; [lia|]. cbn [read_body]. rewrite string_app_assoc, (read_escape r) by done. cbn [mbind option_bind].
  rewrite IH by (done || lia). cbn [mbind option_bind]. by rewrite <- Hs.
Qed.

Lemma expect_app pre t : expect pre (pre +:+ t) = Some t.
Proof.
  unfold expect. assert (String.prefix pre (pre +:+ t) = true ∧ str_drop (String.length pre) (pre +:+ t) = t) as [-> ->]; [|done].
  induction pre as [|c pre IH]; [by destruct t|]. rewrite string_app_cons. cbn. by destruct (ascii_dec c c).
Qed.

Lemma read_string_value v t : ValidString v = true → read_string (writeStringValue v +:+ t) = Some (v, t).
Proof.
  intros Hv. unfold read_string, writeStringValue, quoted, writeStringEscapedBody. rewrite string_app_cons, string_app_assoc.
  set (b := _ +:+ _ +:+ t). change (String dq b) with (String dq "" +:+ b). rewrite expect_app. cbn [mbind option_bind].
  subst b. apply read_body_escape; [done|].
  rewrite string_length_app, string_app_cons. cbn [String.length]. lia.
Qed.

Lemma read_uint_digits d t acc v : parse_digits d acc = Some v → str_forall (byte_in "0" "9") d = true →
  match t with String c _ => byte_in "0" "9" c = false | EmptyString => True end → read_uint (d +:+ t) acc = (v, t).
Proof.
  revert acc. induction d as [|c d IH]; intros acc Hd Hf Ht.
  - injection Hd as <-. destruct t as [|c t]; [done|]. change ("" +:+ String c t) with (String c t). cbn [read_uint]. by rewrite Ht.
  - rewrite string_app_cons. cbn [parse_digits str_forall read_uint] in *. apply andb_true_iff in Hf as [Hc Hf]. rewrite Hc in Hd |- *. by apply IH.
Qed.

Lemma read_uint_write n t : 0 ≤ n → match t with String c _ => byte_in "0" "9" c = false | EmptyString => True end →
  read_uint (writeUint n +:+ t) 0 = (n, t).
Proof.
  intros Hn Ht. apply read_uint_digits; [|by apply pretty_digits | done]. unfold writeUint.
  destruct n as [|p|p]; [done | | lia]. exact (parse_pretty_N (N.pos p)).
Qed.

(** The keys need no escaping. *)
Definition plain (k : string) : bool := String.eqb (writeStringEscapedBody k) k.

Lemma read_key_write k is_first t : plain k = true → read_key k is_first (writeKey k is_first +:+ t) = Some t.
Proof.
  unfold plain, writeKey, read_key, quoted. intros ->%String.eqb_eq.
  replace (((if is_first then "" else ",") +:+ String dq (k +:+ String dq "") +:+ ":") +:+ t) with
    (((if is_first then "" else ",") +:+ String dq (k +:+ String dq ":")) +:+ t); [apply expect_app|].
  f_equal. f_equal. rewrite string_app_cons. f_equal. rewrite string_app_assoc. done.
Qed.

(** ** The theorem *)

Lemma invalid_field_None fields : invalid_field fields = None → Forall (λ f, ValidString f.2 = true) fields.
Proof.
  unfold invalid_field. intros Hf. apply fmap_None in Hf. rewrite find_first_None in Hf. apply Forall_forall.
  intros f Hin. specialize (Hf f Hin). cbn in Hf. by apply negb_false_iff in Hf.
Qed.

Lemma invalid_field_Some fields name : invalid_field fields = Some name → ∃ v, (name, v) ∈ fields ∧ ValidString v = false.
Proof.
  unfold invalid_field. intros ([n v] & Hf & ->)%fmap_Some. apply find_first_Some in Hf as [Hin Hv]. exists v. cbn in *. split; [done|].
  by apply negb_true_iff in Hv.
Qed.

Definition graphic (s : string) : bool := str_forall (byte_between 0x20 0x7f) s.

Lemma graphic_app s t : graphic (s +:+ t) = graphic s && graphic t.
Proof. unfold graphic. induction s as [|c s IH]; [done|]. rewrite string_app_cons. cbn. by rewrite IH, andb_assoc. Qed.

Lemma graphic_u v : 0 ≤ v < 0x10000 → graphic (u_escape v) = true.
Proof. intros Hv. unfold u_escape, graphic. cbn -[hexd byte_between Z.div Z.modulo]. by rewrite !hexd_graphic by lia. Qed.

Lemma graphic_rune r : scalar r → graphic (escape_rune r) = true.
Proof.
  unfold scalar. intros Hr. unfold escape_rune. destruct (Z.eqb_spec r 34), (Z.eqb_spec r 92), (Z.eqb_spec r 8), (Z.eqb_spec r 12),
    (Z.eqb_spec r 10), (Z.eqb_spec r 13), (Z.eqb_spec r 9); try done.
  destruct (Z.ltb_spec r 0x20); [apply graphic_u; lia|]. destruct (Z.ltb_spec r 0x80).
  { unfold graphic. cbn [str_forall]. rewrite andb_true_r. apply byte_between_spec. fold (byte_of r). rewrite byte_val_of; lia. }
  destruct (Z.leb_spec r 0xffff); [apply graphic_u; lia|]. rewrite utf16_EncodeRune_spec by lia.
  rewrite graphic_app, !graphic_u by lia. done.
Qed.

Lemma graphic_value v : ValidString v = true → graphic (writeStringValue v) = true.
Proof.
  unfold ValidString, writeStringValue, quoted, writeStringEscapedBody. intros Hv.
  change (graphic (escape_loop (String.length v) v +:+ String dq "") = true). rewrite graphic_app, andb_true_r.
  revert v Hv. assert (Hgen : ∀ fuel v, valid_from fuel v = true → graphic (escape_loop fuel v) = true); [|by auto].
  induction fuel as [|fuel IH]; intros [|c v]; cbn [valid_from escape_loop]; [done..|]. intros Hv.
  destruct (rune_at (String c v)) as [[r n]|] eqn:Hr; [|done]. rewrite (DecodeRune_valid _ _ _ Hr).
  rewrite graphic_app, graphic_rune, IH; [done | done | by eapply rune_at_spec].
Qed.

Lemma graphic_uint n : 0 ≤ n → graphic (writeUint n) = true.
Proof.
  intros Hn. pose proof (pretty_digits n Hn) as Hd. unfold writeUint, graphic. revert Hd. generalize (pretty n). intros s.
  induction s as [|c s IH]; [done|]. cbn. intros [Hc Hs]%andb_true_iff. rewrite IH by done. rewrite andb_true_r.
  apply byte_between_spec. unfold byte_in in Hc. change (byte_val "0") with 48 in Hc. change (byte_val "9") with 57 in Hc. lia.
Qed.

(** The integers of a record are unsigned. *)
Definition record_wf (rec : IntegrityRecord) : Prop := 0 ≤ ir_FormatVersion rec ∧ 0 ≤ ir_Generation rec ∧ 0 ≤ ir_Sequence rec.

(** C26. The canonical form of an integrity record loses nothing. EncodeCanonical refuses a
    record exactly when a string field is not valid UTF-8. Otherwise its text consists of
    ASCII bytes from space to DEL, and reading it back (undoing the escapes, joining
    surrogate pairs, encoding runes as UTF-8) yields the record with every field; two
    records with the same canonical text are therefore equal. *)
Theorem canonical_roundtrip rec : record_wf rec →
  match EncodeCanonical rec with
  | Ok b => DecodeCanonical b = Some rec ∧ graphic b = true
  | Err _ => Exists (λ s, ValidString s = false) [ir_ContextDigest rec; ir_EventHash rec; ir_KeyFingerprint rec; ir_PrevHash rec]
  end.
Proof.
  intros (Hv & Hg & Hs). unfold EncodeCanonical. destruct (invalid_field _) as [name|] eqn:Hf.
  { apply invalid_field_Some in Hf as (v & Hin & Hval). apply Exists_exists. exists v. split; [|done].
    change [ir_ContextDigest rec; ir_EventHash rec; ir_KeyFingerprint rec; ir_PrevHash rec] with
      (snd <$> [("context_digest", ir_ContextDigest rec); ("event_hash", ir_EventHash rec);
                ("key_fingerprint", ir_KeyFingerprint rec); ("prev_hash", ir_PrevHash rec)]).
    apply list_elem_of_fmap. by exists (name, v). }
  apply invalid_field_None in Hf. apply Forall_cons in Hf as [H1 Hf]. apply Forall_cons in Hf as [H2 Hf].
  apply Forall_cons in Hf as [H3 Hf]. apply Forall_cons in Hf as [H4 _]. cbn [snd] in *. split.
  - unfold DecodeCanonical. rewrite expect_app. cbn [mbind option_bind].
    rewrite read_key_write by done. cbn [mbind option_bind]. rewrite read_string_value by done. cbn [mbind option_bind].
    rewrite read_key_write by done. cbn [mbind option_bind]. rewrite read_string_value by done. cbn [mbind option_bind].
    rewrite read_key_write by done. cbn [mbind option_bind]. rewrite read_uint_write by done.
    rewrite read_key_write by done. cbn [mbind option_bind]. rewrite read_uint_write by done.
    rewrite read_key_write by done. cbn [mbind option_bind]. rewrite read_string_value by done. cbn [mbind option_bind].
    rewrite read_key_write by done. cbn [mbind option_bind]. rewrite read_string_value by done. cbn [mbind option_bind].
    rewrite read_key_write by done. cbn [mbind option_bind]. rewrite read_uint_write by done. cbn. by destruct rec.
  - rewrite !graphic_app, !graphic_value, !graphic_uint by done. done.
Qed.

(** A record with every kind of escape in its fingerprint: a quote, a newline, a control
    byte, and the two- and four-byte encodings of U+00E9 and U+1F600. *)
Definition odd_fingerprint : string :=
  String dq (String "010" (String "001" (String "195" (String "169" (String "240" (String "159" (String "152" (String "128" "z")))))))).
Definition odd_record : IntegrityRecord := mkIntegrity 2 18446744073709551615 7 "" "ab" "cd" odd_fingerprint.

Lemma canonical_roundtrip_witness : record_wf odd_record ∧
  (∃ b, EncodeCanonical odd_record = Ok b ∧ (String.length b = 172)%nat) ∧
  match EncodeCanonical odd_record with
  | Ok b => DecodeCanonical b = Some odd_record ∧ graphic b = true
  | Err _ => Exists (λ s, ValidString s = false) ["cd"; "ab"; odd_fingerprint; ""]
  end.
Proof.
  assert (Hwf : record_wf odd_record) by (unfold record_wf; cbn; lia).
  split; [exact Hwf|]. split; [|exact (canonical_roundtrip odd_record Hwf)].
  eexists. split; vm_compute; reflexivity.
Defined.

(** ASCII is valid UTF-8, and hashes are printed in ASCII. *)
Lemma ValidString_ascii s : is_ascii s = true → ValidString s = true.
Proof.
  unfold ValidString, is_ascii. induction s as [|c s IH]; [done|]. cbn [str_forall String.length valid_from].
  intros [Hc Hs]%andb_true_iff. unfold rune_at. rewrite Hc. by apply IH.
Qed.

Lemma hex_ascii s : is_ascii (hex_EncodeToString s) = true.
Proof.
  unfold is_ascii. induction s as [|c s IH]; [done|]. cbn [hex_EncodeToString str_forall]. rewrite IH, !andb_true_r.
  pose proof (nat_ascii_bounded c) as Hc.
  assert (Hd : ∀ n, (n < 16)%nat → (byte_val (hex_digit n) <? 128) = true).
  { intros n Hn. pose proof (hexd_graphic (Z.of_nat n)) as Hg. unfold hexd in Hg. rewrite Nat2Z.id in Hg.
    specialize (Hg ltac:(lia)). apply byte_between_spec in Hg. lia. }
  rewrite !Hd; [done | apply Nat.mod_upper_bound; lia | apply Nat.Div0.div_lt_upper_bound; lia].
Qed.

Lemma ValidString_hex s : ValidString (hex_EncodeToString s) = true.
Proof. apply ValidString_ascii, hex_ascii. Qed.

(** A context with a digest has valid identities. *)
Lemma ComputeContextDigest_Ok `{ShaLib} ctx d : ComputeContextDigest ctx = Ok d →
  ValidString d = true ∧ ValidString (cx_KeyFingerprint ctx) = true.
Proof.
  unfold ComputeContextDigest, encodeContextCanonical. destruct (invalid_field _) eqn:Hf; [done|]. intros [= <-].
  split; [apply ValidString_hex|]. apply invalid_field_None in Hf. rewrite Forall_forall in Hf.
  apply (Hf ("key_fingerprint", cx_KeyFingerprint ctx)). set_solver.
Qed.

Lemma EncodeCanonical_Ok rec : Forall (λ s, ValidString s = true) [ir_ContextDigest rec; ir_EventHash rec; ir_KeyFingerprint rec; ir_PrevHash rec] →
  ∃ b, EncodeCanonical rec = Ok b.
Proof.
  intros Hv. unfold EncodeCanonical. destruct (invalid_field _) as [name|] eqn:Hf; [|by eexists].
  apply invalid_field_Some in Hf as (v & Hin & Hval). rewrite Forall_forall in Hv. exfalso.
  assert (Hc : ValidString v = true) by (apply Hv; set_solver). congruence.
Qed.
