(* ===== verification/WtpStore.v ===== *)
(** * The watchtower store

    internal/store/watchtower: the options (options.go), the projection of an event
    (compact/encoder.go, compact/mapper.go), the transaction that signs an event and
    writes it to the log (append.go), the rebuilding of the chain from the log
    (chain_restore.go), the quarantine of a foreign directory (quarantine.go), and the
    life of a store (store.go).

    The store is a record over the WAL of Wal.v, the sink chain of AuditChain.v and the
    canonical form of WtpCanonical.v; the WAL is shared with the transport of WtpSession.v,
    whose acknowledgements and reads happen between the store's operations. AppendEvent
    holds appendMu, so it is one transition. Protobuf, JSON and the mapper injected by the
    caller are parameters; log output is left out; metrics are the list of calls made. *)

From stdpp Require Import countable.
From S2P Require Import Prelude AuditChain WalFrame WalFs Wal WalReader WtpBatch WtpAck WtpSession WtpCanonical.
Open Scope Z_scope.

(** ** Events *)

Record ChainState := mkStamp { cs_Sequence : Z; cs_Generation : Z }.

(** [types.Event]: the stamp of the composite store, the time in nanoseconds from the Unix
    epoch, and the fields only a mapper looks at. *)
Record Event (Rest : Type) := mkEvent { ev_Chain : option ChainState; ev_Timestamp : Z; ev_Rest : Rest }.
Arguments mkEvent {Rest} _ _ _.
Arguments ev_Chain {Rest} _.
Arguments ev_Timestamp {Rest} _.
Arguments ev_Rest {Rest} _.

(** [wtpv1.CompactEvent]; its integrity message has the fields of [chain.IntegrityRecord]. *)
Record Compact := mkCompact {
  ce_Sequence : Z;
  ce_Generation : Z;
  ce_TimestampUnixNanos : Z;
  ce_OcsfClassUid : Z;
  ce_OcsfActivityId : Z;
  ce_Payload : bytes;
  ce_Integrity : option IntegrityRecord;
}.

Record MappedEvent := mkMapped { OCSFClassUID : Z; OCSFActivityID : Z; mapped_Payload : bytes }.

(** Errors of [compact.Encode] and of mappers; a mapper may return any of them. *)
Inductive MapErr :=
| ErrInvalidMapper
| ErrMissingChain
| ErrInvalidTimestamp
| ErrMapperFailure
| ErrOtherMapper (msg : string)
| mapperFailureErr (inner : MapErr).

#[export] Instance MapErr_eq_dec : EqDecision MapErr.
Proof. solve_decision. Defined.

(** [errors.Is]: the error itself, its Is method, then what it wraps. *)
Fixpoint errors_Is (e target : MapErr) : bool :=
  bool_decide (e = target) ||
  match e with
  | mapperFailureErr inner => bool_decide (target = ErrMapperFailure) || errors_Is inner target
  | _ => false
  end.

(** google.golang.org/protobuf and encoding/json on events, and the compressors. *)
Class EventLib := {
  EventRest : Type;
  proto_marshal_event : Compact → option bytes;          (** [proto.Marshal] *)
  proto_marshal_deterministic : Compact → option bytes;  (** with [Deterministic: true] *)
  proto_unmarshal_compact : bytes → option Compact;
  json_Marshal_event : Event EventRest → option bytes;
  proto_marshal_batch : list Compact → option bytes;
  zstd_writer : Z → option (bytes → bytes);
  gzip_writer : Z → option (bytes → option bytes);
}.

(** The transport reads the same events. *)
#[export] Instance store_wtp `{EventLib} : WtpLib := {|
  CompactEvent := Compact;
  proto_unmarshal_event := proto_unmarshal_compact;
  proto_marshal_events := proto_marshal_batch;
  zstd_NewWriter := zstd_writer;
  gzip_NewWriterLevel := gzip_writer;
|}.

Section store.
Context `{EventLib, WtpWire, HmacLib, ShaLib}.

(** The dynamic values of a [compact.Mapper]. *)
Inductive Mapper :=
| MapperNil
| MapperNilPointer (stub : bool)        (** a typed nil pointer, of the stub's type or another *)
| MapperStub                            (** [StubMapper], by value or by pointer *)
| MapperOf (Map : Event EventRest → Result MapErr MappedEvent).

Definition StubMapper_Map (ev : Event EventRest) : Result MapErr MappedEvent :=
  match json_Marshal_event ev with
  | None => Err (ErrOtherMapper "stub mapper marshal")
  | Some b => Ok (mkMapped 0 0 b)
  end.

Definition IsStubMapper (m : Mapper) : bool :=
  match m with MapperNilPointer stub => stub | MapperStub => true | _ => false end.

(** [time.Time.IsZero]: January 1, year 1. *)
Definition zero_time : Z := -62135596800 * 1000000000.
(** Conversion to int64, which wraps around; [time.Time.UnixNano] does too. *)
Definition to_int64 (z : Z) : Z := (z + 2 ^ 63) `mod` 2 ^ 64 - 2 ^ 63.
Definition UnixNano (t : Z) : Z := to_int64 t.

Definition compact_Encode (m : Mapper) (ev : Event EventRest) : Result MapErr Compact :=
  match m with
  | MapperNil | MapperNilPointer _ => Err ErrInvalidMapper
  | _ =>
      match ev_Chain ev with
      | None => Err ErrMissingChain
      | Some ch =>
          if ev_Timestamp ev =? zero_time then Err ErrInvalidTimestamp
          else
            let nanos := UnixNano (ev_Timestamp ev) in
            if nanos <? 0 then Err ErrInvalidTimestamp
            else
              let mapped := match m with MapperOf Map => Map ev | _ => StubMapper_Map ev end in
              match mapped with
              | Err e => Err (mapperFailureErr e)
              | Ok mapped => Ok (mkCompact (cs_Sequence ch) (cs_Generation ch) nanos (OCSFClassUID mapped)
                                           (OCSFActivityID mapped) (mapped_Payload mapped) None)
              end
      end
  end.

(** ** Options *)

Record StoreOptions := mkStoreOptions {
  so_WALDir : string;
  so_WALSegmentSize : Z;
  so_WALMaxTotalSize : Z;
  so_Mapper : Mapper;
  so_Allocator : bool;                          (** present *)
  so_AgentID : string;
  so_SessionID : string;
  so_KeyFingerprint : string;
  so_DecisionContext : option DecisionContext;
  so_HMACKeyID : string;
  so_HMACSecret : string;
  so_HMACAlgorithm : string;
  so_BatchMaxRecords : Z;
  so_BatchMaxBytes : Z;
  so_BatchMaxAge : Z;
  so_TLSCertFile : string;
  so_TLSKeyFile : string;
  so_CredentialSource : bool;                   (** present *)
  so_HeartbeatEvery : Z;
  so_BackoffInitial : Z;
  so_BackoffMax : Z;
  so_EmitExtendedLossReasons : bool;
  so_CompressionAlgo : string;
  so_ZstdLevel : Z;
  so_GzipLevel : Z;
  so_MaxInflight : Z;
  so_DrainDeadline : Z;
  so_AllowStubMapper : bool;
  so_SinkChainOverride : option SinkChain;      (** the test seam *)
  so_AllowSinkChainOverride : bool;
  so_OnPolicyPushed : bool;                     (** present *)
}.

Definition millisecond : Z := 1000000.
Definition second : Z := 1000000000.
Definition or_default (v d : Z) : Z := if v =? 0 then d else v.

Definition applyDefaults (o : StoreOptions) : StoreOptions :=
  mkStoreOptions (so_WALDir o) (or_default (so_WALSegmentSize o) (256 * 1024))
    (or_default (so_WALMaxTotalSize o) (16 * 1024 * 1024)) (so_Mapper o) (so_Allocator o) (so_AgentID o) (so_SessionID o)
    (so_KeyFingerprint o) (so_DecisionContext o) (so_HMACKeyID o) (so_HMACSecret o) (so_HMACAlgorithm o)
    (or_default (so_BatchMaxRecords o) 256) (or_default (so_BatchMaxBytes o) (256 * 1024))
    (or_default (so_BatchMaxAge o) (100 * millisecond)) (so_TLSCertFile o) (so_TLSKeyFile o) (so_CredentialSource o)
    (or_default (so_HeartbeatEvery o) (5 * second)) (or_default (so_BackoffInitial o) (200 * millisecond))
    (or_default (so_BackoffMax o) (30 * second)) (so_EmitExtendedLossReasons o) (so_CompressionAlgo o) (so_ZstdLevel o)
    (so_GzipLevel o) (so_MaxInflight o) (or_default (so_DrainDeadline o) (2 * second)) (so_AllowStubMapper o)
    (so_SinkChainOverride o) (so_AllowSinkChainOverride o) (so_OnPolicyPushed o).

Inductive OptErr :=
| OeWALDir | OeMapper | OeMapperNilPointer | OeStubMapper | OeAllocator | OeAgentID | OeSessionID | OeHMACKeyID
| OeSecretEmpty | OeSecretShort | OeAlgorithm (a : string) | OeBatchBytes | OeBatchRecords | OeBatchAge | OeSegmentSize
| OeTotalSize | OeSegmentRatio | OeDrain | OeTLSAndBearer | OeTLSPair | OeOverride | OeZstdLevel (l : Z) | OeGzipLevel (l : Z)
| OeCompression (a : string).

Definition store_validate (o : StoreOptions) : option OptErr :=
  if String.eqb (so_WALDir o) "" then Some OeWALDir
  else if (match so_Mapper o with MapperNil => true | _ => false end) then Some OeMapper
  else if (match so_Mapper o with MapperNilPointer _ => true | _ => false end) then Some OeMapperNilPointer
  else if negb (so_AllowStubMapper o) && IsStubMapper (so_Mapper o) then Some OeStubMapper
  else if negb (so_Allocator o) then Some OeAllocator
  else if String.eqb (so_AgentID o) "" then Some OeAgentID
  else if String.eqb (so_SessionID o) "" then Some OeSessionID
  else if String.eqb (so_HMACKeyID o) "" then Some OeHMACKeyID
  else if (String.length (so_HMACSecret o) =? 0)%nat then Some OeSecretEmpty
  else if Z.of_nat (String.length (so_HMACSecret o)) <? MinKeyLength then Some OeSecretShort
  else if negb (String.eqb (so_HMACAlgorithm o) "" || String.eqb (so_HMACAlgorithm o) "hmac-sha256" ||
                String.eqb (so_HMACAlgorithm o) "hmac-sha512") then Some (OeAlgorithm (so_HMACAlgorithm o))
  else if so_BatchMaxBytes o <? 4096 then Some OeBatchBytes
  else if so_BatchMaxRecords o <=? 0 then Some OeBatchRecords
  else if so_BatchMaxAge o <=? 0 then Some OeBatchAge
  else if so_WALSegmentSize o <=? 0 then Some OeSegmentSize
  else if so_WALMaxTotalSize o <=? 0 then Some OeTotalSize
  else if so_WALMaxTotalSize o `quot` 2 <? so_WALSegmentSize o then Some OeSegmentRatio
  else if so_DrainDeadline o <? 0 then Some OeDrain
  else if negb (String.eqb (so_TLSCertFile o) "") && so_CredentialSource o then Some OeTLSAndBearer
  else if xorb (String.eqb (so_TLSCertFile o) "") (String.eqb (so_TLSKeyFile o) "") then Some OeTLSPair
  else if (match so_SinkChainOverride o with Some _ => true | None => false end) && negb (so_AllowSinkChainOverride o)
       then Some OeOverride
  else if String.eqb (so_CompressionAlgo o) "" || String.eqb (so_CompressionAlgo o) "none" then None
  else if String.eqb (so_CompressionAlgo o) "zstd" then
    if (so_ZstdLevel o <? 1) || (22 <? so_ZstdLevel o) then Some (OeZstdLevel (so_ZstdLevel o)) else None
  else if String.eqb (so_CompressionAlgo o) "gzip" then
    if (so_GzipLevel o <? 1) || (9 <? so_GzipLevel o) then Some (OeGzipLevel (so_GzipLevel o)) else None
  else Some (OeCompression (so_CompressionAlgo o)).

(** ** The store *)

(** Calls on the metrics collector. *)
Inductive StoreMetric :=
| IncDroppedSequenceOverflow | IncDroppedMapperFailure | IncDroppedInvalidMapper | IncDroppedInvalidTimestamp
| IncDroppedInvalidUTF8 | IncWALQuarantine (reason : string).

(** What latched the store. *)
Inductive FatalCause := CauseWal (e : AppendError) | CauseCommit (e : ChainError).

(** Errors of [Close]. *)
Inductive CloseErr :=
| CloseRun (e : TErr)
| CloseSafetyNet                                 (** ErrCloseSafetyNet *)
| CloseDrainTimeout
| CloseRunAndDrain (e : TErr)
| CloseWal (e : OsErr)
| CloseRunAndWal (e : TErr) (w : OsErr).

Record Store := mkStore {
  st_opts : StoreOptions;
  st_w : WAL;
  st_sink : SinkChain;
  st_metrics : list StoreMetric;
  st_runCancelled : bool;
  st_runDone : option (option TErr);             (** the channel's value: what Run returned *)
  st_closeOnce : bool;                           (** [closeOnce] has run *)
  st_closed : bool;
  st_closeErr : option CloseErr;
  st_fatalLatched : bool;
  st_fatalErr : option FatalCause;
  st_closing : bool;
  st_appendDrained : bool;
  st_contextDigest : string;
  st_lastEventHash : string;
  st_lastEventGen : Z;
}.

Definition st_set_w (w : WAL) (s : Store) : Store :=
  mkStore (st_opts s) w (st_sink s) (st_metrics s) (st_runCancelled s) (st_runDone s) (st_closeOnce s) (st_closed s)
    (st_closeErr s) (st_fatalLatched s) (st_fatalErr s) (st_closing s) (st_appendDrained s) (st_contextDigest s)
    (st_lastEventHash s) (st_lastEventGen s).
Definition st_set_sink (c : SinkChain) (s : Store) : Store :=
  mkStore (st_opts s) (st_w s) c (st_metrics s) (st_runCancelled s) (st_runDone s) (st_closeOnce s) (st_closed s)
    (st_closeErr s) (st_fatalLatched s) (st_fatalErr s) (st_closing s) (st_appendDrained s) (st_contextDigest s)
    (st_lastEventHash s) (st_lastEventGen s).
Definition st_count (m : StoreMetric) (s : Store) : Store :=
  mkStore (st_opts s) (st_w s) (st_sink s) (st_metrics s ++ [m]) (st_runCancelled s) (st_runDone s) (st_closeOnce s) (st_closed s)
    (st_closeErr s) (st_fatalLatched s) (st_fatalErr s) (st_closing s) (st_appendDrained s) (st_contextDigest s)
    (st_lastEventHash s) (st_lastEventGen s).
Definition st_set_fatal (e : FatalCause) (s : Store) : Store :=
  mkStore (st_opts s) (st_w s) (st_sink s) (st_metrics s) (st_runCancelled s) (st_runDone s) (st_closeOnce s) (st_closed s)
    (st_closeErr s) true (Some e) (st_closing s) (st_appendDrained s) (st_contextDigest s)
    (st_lastEventHash s) (st_lastEventGen s).
Definition st_set_anchor (hash : string) (gen : Z) (s : Store) : Store :=
  mkStore (st_opts s) (st_w s) (st_sink s) (st_metrics s) (st_runCancelled s) (st_runDone s) (st_closeOnce s) (st_closed s)
    (st_closeErr s) (st_fatalLatched s) (st_fatalErr s) (st_closing s) (st_appendDrained s) (st_contextDigest s)
    hash gen.
Definition st_set_closing (drained : bool) (s : Store) : Store :=
  mkStore (st_opts s) (st_w s) (st_sink s) (st_metrics s) (st_runCancelled s) (st_runDone s) true (st_closed s)
    (st_closeErr s) (st_fatalLatched s) (st_fatalErr s) true drained (st_contextDigest s)
    (st_lastEventHash s) (st_lastEventGen s).
Definition st_set_closed (e : option CloseErr) (s : Store) : Store :=
  mkStore (st_opts s) (st_w s) (st_sink s) (st_metrics s) (st_runCancelled s) (st_runDone s) (st_closeOnce s) true
    e (st_fatalLatched s) (st_fatalErr s) (st_closing s) (st_appendDrained s) (st_contextDigest s)
    (st_lastEventHash s) (st_lastEventGen s).
Definition st_set_run (cancelled : bool) (done : option (option TErr)) (s : Store) : Store :=
  mkStore (st_opts s) (st_w s) (st_sink s) (st_metrics s) cancelled done (st_closeOnce s) (st_closed s)
    (st_closeErr s) (st_fatalLatched s) (st_fatalErr s) (st_closing s) (st_appendDrained s) (st_contextDigest s)
    (st_lastEventHash s) (st_lastEventGen s).

Inductive StoreErr :=
| ErrStoreClosing                                (** errStoreClosing *)
| ErrFatalLatch                                  (** errFatalLatch *)
| ErrChainRequired
| ErrSequenceRange (seq : Z)
| ErrCompactEncode (e : MapErr)
| ErrMarshalCanonical
| ErrEncodeCanonical (e : CanonErr)
| ErrChainCompute (e : ChainError)
| ErrMarshalFinal
| ErrWalAppend (e : AppendError)
| ErrChainCommit (e : ChainError).

Definition StoreM := M (Store * World) StoreErr.
Definition st_update (f : Store → Store) : StoreM unit := mput (λ s, (f s.1, s.2)).

(** ** Appending *)

Definition isFatal (s : Store) : bool := st_fatalLatched s.

(** Only the first cause is kept. *)
Definition latchFatal (e : FatalCause) (s : Store) : Store := if st_fatalLatched s then s else st_set_fatal e s.

(** An ambiguous failure of the log stops the chain and the store. *)
Definition wal_ambiguous (e : AppendError) (s : Store) : Store :=
  latchFatal (CauseWal e) (st_set_sink (Fatal (st_sink s)) s).

Definition emitInFlightLoss (ch : ChainState) (reason : string) : StoreM unit := λ s,
  if negb (so_EmitExtendedLossReasons (st_opts s.1)) then (Ok tt, s)
  else
    let loss := mkLoss (cs_Sequence ch) (cs_Sequence ch) (cs_Generation ch) reason in
    match AppendLoss loss (st_w s.1, s.2) with
    | (Ok _, (w, W)) => (Ok tt, (st_set_w w s.1, W))
    | (Err e, (w, W)) =>
        (Ok tt, ((if IsAmbiguous e then wal_ambiguous e else id) (st_set_w w s.1), W))
    end.

Definition recordSequenceOverflow (ch : ChainState) : StoreM unit :=
  do* st_update (st_count IncDroppedSequenceOverflow) in emitInFlightLoss ch LossReasonSequenceOverflow.

Definition recordCompactEncodeFailure (e : MapErr) (ch : ChainState) : StoreM unit :=
  let '(metric, reason) :=
    if errors_Is e ErrMapperFailure then (IncDroppedMapperFailure, LossReasonMapperFailure)
    else if errors_Is e ErrInvalidMapper then (IncDroppedInvalidMapper, LossReasonInvalidMapper)
    else if errors_Is e ErrInvalidTimestamp then (IncDroppedInvalidTimestamp, LossReasonInvalidTimestamp)
    else (IncDroppedMapperFailure, LossReasonMapperFailure) in
  do* st_update (st_count metric) in emitInFlightLoss ch reason.

Definition recordCanonicalFailure (ch : ChainState) : StoreM unit :=
  do* st_update (st_count IncDroppedInvalidUTF8) in emitInFlightLoss ch LossReasonInvalidUTF8.

(** Step 2 of AppendEvent: the record of an event with hash [eventHash]. *)
Definition integrity_record (s : Store) (ch : ChainState) (eventHash : string) : IntegrityRecord :=
  mkIntegrity IntegrityFormatVersion (cs_Sequence ch) (cs_Generation ch)
    (if cs_Generation ch =? st_lastEventGen s then st_lastEventHash s else "")
    eventHash (st_contextDigest s) (so_KeyFingerprint (st_opts s)).

Definition with_integrity (ir : IntegrityRecord) (ce : Compact) : Compact :=
  mkCompact (ce_Sequence ce) (ce_Generation ce) (ce_TimestampUnixNanos ce) (ce_OcsfClassUid ce) (ce_OcsfActivityId ce)
            (ce_Payload ce) (Some ir).

Definition str_of_bytes (b : bytes) : string := String.string_of_list_ascii b.

(** Step 5: an ambiguous failure latches the chain and the store. *)
Definition store_wal_append (seq gen : Z) (final : bytes) : StoreM unit := λ s,
  match Append seq gen final (st_w s.1, s.2) with
  | (Ok _, (w, W)) => (Ok tt, (st_set_w w s.1, W))
  | (Err e, (w, W)) =>
      (Err (ErrWalAppend e), ((if IsAmbiguous e then wal_ambiguous e else id) (st_set_w w s.1), W))
  end.

(** Step 6: every failure of Commit latches the store. *)
Definition store_commit (cr : ComputeResult) : StoreM unit := λ s,
  match Commit (st_sink s.1) (Some cr) with
  | (Ok _, c) => (Ok tt, (st_set_sink c s.1, s.2))
  | (Err e, c) => (Err (ErrChainCommit e), (latchFatal (CauseCommit e) (st_set_sink c s.1), s.2))
  end.

Definition AppendEvent (ev : Event EventRest) : StoreM unit :=
  let* s := mget fst in
  if st_closing s then merr ErrStoreClosing
  else if isFatal s then merr ErrFatalLatch
  else match ev_Chain ev with
  | None => merr ErrChainRequired
  | Some ch =>
      if MaxInt64 <? cs_Sequence ch then
        do* recordSequenceOverflow ch in merr (ErrSequenceRange (cs_Sequence ch))
      else match compact_Encode (so_Mapper (st_opts s)) ev with
      | Err e => do* recordCompactEncodeFailure e ch in merr (ErrCompactEncode e)
      | Ok ce =>
          match proto_marshal_deterministic ce with
          | None => merr ErrMarshalCanonical
          | Some canonicalEvent =>
              let eventHash := ComputeEventHash (str_of_bytes canonicalEvent) in
              let integrityRec := integrity_record s ch eventHash in
              match EncodeCanonical integrityRec with
              | Err e => do* recordCanonicalFailure ch in merr (ErrEncodeCanonical e)
              | Ok canonicalIntegrity =>
                  match Compute_ (st_sink s) IntegrityFormatVersion (cs_Sequence ch) (cs_Generation ch) canonicalIntegrity with
                  | Err e => merr (ErrChainCompute e)
                  | Ok cr =>
                      match proto_marshal_event (with_integrity integrityRec ce) with
                      | None => merr ErrMarshalFinal
                      | Some final =>
                          do* store_wal_append (cs_Sequence ch) (cs_Generation ch) final in
                          do* store_commit cr in
                          st_update (st_set_anchor eventHash (cs_Generation ch))
                      end
                  end
              end
          end
      end
  end.

(** ** Rebuilding the chain *)

Inductive RestoreErr :=
| ReHighWater (gen : Z) (e : WalErr)
| ReNewChain (e : ChainError)
| ReSeed (e : ChainError)
| ReReader (e : ReaderErr)
| ReNext (e : ReaderErr)
| ReUnmarshal (seq : Z)
| ReCanonical (seq : Z) (e : CanonErr)
| ReCompute (seq : Z) (e : ChainError)
| ReCommit (seq : Z) (e : ChainError)
| ReProduction (e : ChainError)
| ReFuel.                                        (** the model's loop bound *)

(** The highest generation at or below [g] that has data records. *)
Fixpoint data_generation (w : WAL) (n : nat) : Result RestoreErr (option Z) :=
  let g := Z.of_nat n in
  match WrittenDataHighWater w g with
  | Err e => Err (ReHighWater g e)
  | Ok (Some _) => Ok (Some g)
  | Ok None => match n with O => Ok None | S n => data_generation w n end
  end.

(** The ephemeral chain and the last event replayed into it; [None]: none yet. *)
Record Replayed := mkReplayed { rp_temp : SinkChain; rp_last : option (string * Z) }.

(** The body of the loop of [restoreChainFromWAL]. *)
Definition restore_record (rec : WalRecord) (rp : Replayed) : Result RestoreErr Replayed :=
  match rec_Kind rec with
  | RecordData =>
      match proto_unmarshal_compact (rec_Payload rec) with
      | None => Err (ReUnmarshal (rec_Sequence rec))
      | Some ce =>
          match ce_Integrity ce with
          | None => Ok rp
          | Some ir =>
              match EncodeCanonical ir with
              | Err e => Err (ReCanonical (ir_Sequence ir) e)
              | Ok canonIR =>
                  match Compute_ (rp_temp rp) (ir_FormatVersion ir) (to_int64 (ir_Sequence ir)) (ir_Generation ir) canonIR with
                  | Err e => Err (ReCompute (ir_Sequence ir) e)
                  | Ok cr =>
                      match Commit (rp_temp rp) (Some cr) with
                      | (Err e, _) => Err (ReCommit (ir_Sequence ir) e)
                      | (Ok _, temp) => Ok (mkReplayed temp (Some (ir_EventHash ir, ir_Generation ir)))
                      end
                  end
              end
          end
      end
  | _ => Ok rp
  end.

Definition RestoreM := M (WAL * World) RestoreErr.

(** The reader's identity; no other reader exists when the store is built. *)
Definition restore_reader : nat := 0.

Fixpoint restore_loop (fuel : nat) (rp : Replayed) : RestoreM Replayed :=
  match fuel with
  | O => merr ReFuel
  | S fuel =>
      let* w := mget fst in
      let* rec := mtry (on_reader restore_reader (Next (w_maxRec w))) in
      match rec with
      | Err (ErrReaderFrame ErrEOF) => ret rp
      | Err e => merr (ReNext e)
      | Ok rec => let* rp := mlift (restore_record rec rp) in restore_loop fuel rp
      end
  end.

(** Every record takes bytes of a file of its own. *)
Definition restore_fuel (W : World) : nat := S (size (w_dir W) * largest W).

(** [defer rdr.Close()] *)
Definition closing_reader {A} (m : RestoreM A) : RestoreM A := λ s,
  let '(r, s) := m s in (r, (Reader_Close restore_reader s).2).

(** The identities of the two chains differ. *)
Definition production_chain : nat := 0.
Definition ephemeral_chain : nat := 1.

(** The production chain after it, and the wire anchor. *)
Definition restoreChainFromWAL (innerChain : SinkChain) (opts : StoreOptions) : RestoreM (SinkChain * (string * Z)) :=
  let* w := mget fst in
  let* target := mlift (data_generation w (Z.to_nat (HighGeneration w))) in
  match target with
  | None => ret (innerChain, ("", 0))
  | Some targetGen =>
      match NewSinkChain ephemeral_chain (so_HMACSecret opts) (so_HMACAlgorithm opts) with
      | Err e => merr (ReNewChain e)
      | Ok temp =>
          match chain_Restore temp targetGen "" false with
          | (Err e, _) => merr (ReSeed e)
          | (Ok _, temp) =>
              do* merr_map ReReader (NewReader restore_reader (mkReaderOptions targetGen 0)) in
              closing_reader (
                let* W := mget snd in
                let* rp := restore_loop (restore_fuel W) (mkReplayed temp None) in
                match rp_last rp with
                | None => ret (innerChain, ("", 0))
                | Some (lastEventHash, lastEventGen) =>
                    let st := chain_State (rp_temp rp) in
                    match chain_Restore innerChain (ss_Generation st) (ss_PrevHash st) false with
                    | (Err e, _) => merr (ReProduction e)
                    | (Ok _, c) => ret (c, (lastEventHash, lastEventGen))
                    end
                end)
          end
      end
  end.

(** ** Opening *)

(** One attempt at a quarantine name: [crypto/rand] and [Lstat]. *)
Inductive Probe := ProbeRandFails | ProbeTaken | ProbeStatFails | ProbeFree.

Inductive NewErr :=
| NeOptions (e : OptErr)
| NeSinkChain (e : ChainError)
| NeContextDigest (e : CanonErr)
| NeOpenWAL (e : OpenErr)
| NeQuarantineRand | NeQuarantineProbe | NeQuarantineRename (e : OsErr) | NeQuarantineExhausted
| NeOpenWALAgain (e : OpenErr)
| NeRestore (e : RestoreErr)
| NeReadMeta (e : OsErr)
| NeCtx
| NeCompress (e : CompressErr)
| NeTransport.

Definition NewM := M World NewErr.

(** Renaming the log's directory leaves an empty place. *)
Definition os_RenameDir : Os unit := do* io in mput (λ W, mkWorld (w_inodes W) ∅ (w_next W) None (w_faults W)).

Fixpoint quarantine_attempts (n : nat) (probes : list Probe) : NewM unit :=
  match n with
  | O => merr NeQuarantineExhausted
  | S n =>
      match default ProbeFree (head probes) with
      | ProbeRandFails => merr NeQuarantineRand
      | ProbeTaken => quarantine_attempts n (tail probes)
      | ProbeStatFails => merr NeQuarantineProbe
      | ProbeFree => merr_map NeQuarantineRename os_RenameDir
      end
  end.

Definition maxAttempts : nat := 8.
Definition quarantineWAL (probes : list Probe) : NewM unit := quarantine_attempts maxAttempts probes.

Definition wal_options (opts : StoreOptions) (contextDigest : string) : Options :=
  mkOptions (so_WALDir opts) (so_WALSegmentSize opts) (so_WALMaxTotalSize opts) SyncImmediate 0 (so_SessionID opts)
            (so_KeyFingerprint opts) contextDigest.

Definition quarantine_reason (m : ErrIdentityMismatch) (opts : StoreOptions) : string :=
  if negb (String.eqb (mm_PersistedSessionID m) (so_SessionID opts)) then "session_id_mismatch"
  else if negb (String.eqb (mm_PersistedKeyFingerprint m) (so_KeyFingerprint opts)) then "key_fingerprint_mismatch"
  else if String.eqb (mm_MismatchedField m) "context_digest" then "context_digest_mismatch"
  else "unknown".

Definition openWALWithIdentityRecovery (opts : StoreOptions) (contextDigest : string) (probes : list Probe)
    : NewM (WAL * list StoreMetric) :=
  let* w := mtry (Open (wal_options opts contextDigest)) in
  match w with
  | Ok w => ret (w, [])
  | Err (ErrIdentity idErr) =>
      do* quarantineWAL probes in
      let* w := merr_map NeOpenWALAgain (Open (wal_options opts contextDigest)) in
      ret (w, [IncWALQuarantine (quarantine_reason idErr opts)])
  | Err e => merr (NeOpenWAL e)
  end.

Definition readInitialAckTuple (opts : StoreOptions) : NewM (option AckTuple) :=
  let* meta := mtry ReadMeta in
  match meta with
  | Err ENOENT => ret None
  | Err e => merr (NeReadMeta e)
  | Ok meta =>
      if negb (String.eqb (m_SessionID meta) "") && negb (String.eqb (m_SessionID meta) (so_SessionID opts)) then ret None
      else if negb (String.eqb (m_KeyFingerprint meta) "") && negb (String.eqb (m_KeyFingerprint meta) (so_KeyFingerprint opts))
      then ret None
      else if negb (m_AckRecorded meta) then ret None
      else ret (Some (mkTuple (m_AckHighWatermarkSeq meta) (m_AckHighWatermarkGen meta) true))
  end.

Definition maxInflightForOpts (opts : StoreOptions) : Z := if 0 <? so_MaxInflight opts then so_MaxInflight opts else 8.

(** [ocsf.SchemaVersion] *)
Definition ocsf_SchemaVersion : string := "1.8.0".

Definition algorithm_of (opts : StoreOptions) : string :=
  if String.eqb (so_HMACAlgorithm opts) "" then "hmac-sha256" else so_HMACAlgorithm opts.

Definition session_context (opts : StoreOptions) : SessionContext :=
  mkContext (so_SessionID opts) (so_AgentID opts) "" ocsf_SchemaVersion IntegrityFormatVersion (algorithm_of opts)
            (so_KeyFingerprint opts).

Definition transport_options (opts : StoreOptions) (initialAck : option AckTuple) (ctxDigest : string) (compressor : Encoder)
    : TOptions :=
  mkTOptions true (so_AgentID opts) (so_SessionID opts) IntegrityFormatVersion
    (if String.eqb (algorithm_of opts) "hmac-sha512" then HASH_ALGORITHM_HMAC_SHA512 else HASH_ALGORITHM_HMAC_SHA256)
    "" ocsf_SchemaVersion (so_KeyFingerprint opts) ctxDigest 0 (so_DecisionContext opts) (so_OnPolicyPushed opts)
    initialAck true (so_EmitExtendedLossReasons opts) (Some compressor).

Definition live_options (opts : StoreOptions) : LiveOptions :=
  mkLiveOptions (mkBatcherOptions (so_BatchMaxRecords opts) (so_BatchMaxBytes opts) (so_BatchMaxAge opts))
                (maxInflightForOpts opts) (so_HeartbeatEvery opts).

(** A failure after the log was opened closes it; the error of Close is dropped. *)
Definition closing_wal {A} (w : WAL) (m : NewM A) : NewM A := λ W,
  match m W with
  | (Ok a, W) => (Ok a, W)
  | (Err e, W) => (Err e, (Close (w, W)).2.2)
  end.

(** The same around a method of the log. *)
Definition on_new_wal {E A} (f : E → NewErr) (w : WAL) (m : M (WAL * World) E A) : NewM (A * WAL) := λ W,
  match m (w, W) with
  | (Ok a, (w, W)) => (Ok (a, w), W)
  | (Err e, (w, W)) => (Err (f e), (Close (w, W)).2.2)
  end.

(** [New]: the store, and what its transport is started with. The setup context may be
    cancelled already. *)
Definition store_New (cancelled : bool) (probes : list Probe) (opts : StoreOptions) : NewM (Store * (TOptions * Acks) * LiveOptions) :=
  let opts := applyDefaults opts in
  match store_validate opts with
  | Some e => merr (NeOptions e)
  | None =>
      match NewSinkChain production_chain (so_HMACSecret opts) (so_HMACAlgorithm opts) with
      | Err e => merr (NeSinkChain e)
      | Ok innerChain =>
          match ComputeContextDigest (session_context opts) with
          | Err e => merr (NeContextDigest e)
          | Ok ctxDigest =>
              let* opened := openWALWithIdentityRecovery opts ctxDigest probes in
              let '(w, quarantined) := opened in
              let* restored := (match so_SinkChainOverride opts with
                | Some sink => ret ((sink, ("", 0)), w)
                | None => on_new_wal NeRestore w (restoreChainFromWAL innerChain opts)
                end) in
              let '((sink, (lastEventHash, lastEventGen)), w) := restored in
              closing_wal w (
                let* initialAck := readInitialAckTuple opts in
                if cancelled : bool then merr NeCtx
                else match NewEncoder (if String.eqb (so_CompressionAlgo opts) "" then "none" else so_CompressionAlgo opts)
                                      (so_ZstdLevel opts) (so_GzipLevel opts) with
                | Err e => merr (NeCompress e)
                | Ok compressor =>
                    match WtpSession.New (transport_options opts initialAck ctxDigest compressor) with
                    | None => merr NeTransport
                    | Some tr =>
                        ret (mkStore opts w sink quarantined false None false false None false None false false ctxDigest
                                     lastEventHash lastEventGen, tr, live_options opts)
                    end
                end)
          end
      end
  end.

(** ** Closing *)

(** When the run loop exits after Stop was requested: within the drain deadline, within
    the grace after the cancellation, or not at all. *)
Inductive RunExit := ExitInDrain (e : option TErr) | ExitInGrace (e : option TErr) | ExitNever.

(** What the other goroutines do while [Close] waits: whether the append in flight ends
    within the deadline, and the run loop. *)
Record CloseEnv := mkCloseEnv { cv_appendEnds : bool; cv_exit : RunExit }.

Definition combineWALCloseErr (runErr : option TErr) (s : Store * World) : option CloseErr * (Store * World) :=
  if negb (st_appendDrained s.1) then
    (Some (match runErr with None => CloseDrainTimeout | Some e => CloseRunAndDrain e end), s)
  else
    let '(walErr, (w, W)) := Close (st_w s.1, s.2) in
    let s := (st_set_w w s.1, W) in
    match walErr with
    | Ok _ => (CloseRun <$> runErr, s)
    | Err e => (Some (match runErr with None => CloseWal e | Some r => CloseRunAndWal r e end), s)
    end.

(** [None]: the wait never ends. *)
Definition shutdown (env : CloseEnv) (s : Store * World) : option (option CloseErr * (Store * World)) :=
  match st_runDone s.1 with
  | Some err => Some (combineWALCloseErr err (st_set_run true (Some err) s.1, s.2))
  | None =>
      if so_DrainDeadline (st_opts s.1) <=? 0 then
        match cv_exit env with
        | ExitInDrain e | ExitInGrace e => Some (combineWALCloseErr e (st_set_run true None s.1, s.2))
        | ExitNever => None
        end
      else match cv_exit env with
      | ExitInDrain e => Some (combineWALCloseErr e s)
      | ExitInGrace e => Some (combineWALCloseErr e (st_set_run true None s.1, s.2))
      | ExitNever => Some (Some CloseSafetyNet, (st_set_run true None s.1, s.2))
      end
  end.

Definition store_Close (env : CloseEnv) (s : Store * World) : option (option CloseErr * (Store * World)) :=
  if st_closeOnce s.1 then Some (st_closeErr s.1, s)
  else
    r ← shutdown env (st_set_closing (cv_appendEnds env) s.1, s.2);
    Some (r.1, (st_set_closed r.1 r.2.1, r.2.2)).

Inductive ErrValue := EvClose (e : CloseErr) | EvFatal (e : FatalCause) | EvFatalLatch | EvRun (e : TErr).

(** [Err]: peeking at the channel puts the value back. *)
Definition store_Err (s : Store) : option ErrValue :=
  if st_closed s then EvClose <$> st_closeErr s
  else if st_fatalLatched s then Some (match st_fatalErr s with Some e => EvFatal e | None => EvFatalLatch end)
  else match st_runDone s with Some e => EvRun <$> e | None => None end.
End store.
