(* ===== verification/WtpStoreProps.v ===== *)
(** * Properties of the watchtower store

    The transaction of AppendEvent over the log and the chain, for any behaviour of the
    file system; the chain across restarts on a file system that does not fail. *)

From S2P Require Import Prelude AuditChain WalFrame WalFs Wal WalInv WalSpec WalRecover WalProps WalReader WalIndex.
From S2P Require Import WtpBatch WtpAck WtpSession WtpCanonical WtpStore.
Open Scope Z_scope.

Section append.
Context `{EventLib, WtpWire, HmacLib, ShaLib}.

(** The projected event with its record; [accepted_logged] shows that its bytes are what
    AppendEvent gives to the log. *)
Definition written (s : Store) (ev : Event EventRest) : option Compact :=
  ch ← ev_Chain ev;
  match compact_Encode (so_Mapper (st_opts s)) ev with
  | Err _ => None
  | Ok ce =>
      canon ← proto_marshal_deterministic ce;
      Some (with_integrity (integrity_record s ch (ComputeEventHash (str_of_bytes canon))) ce)
  end.

(** The record of an event is computed over the event without it. *)
Definition hash_of (ce : Compact) : option string :=
  ComputeEventHash ∘ str_of_bytes <$>
  proto_marshal_deterministic (mkCompact (ce_Sequence ce) (ce_Generation ce) (ce_TimestampUnixNanos ce) (ce_OcsfClassUid ce)
                                         (ce_OcsfActivityId ce) (ce_Payload ce) None).

(** An event that the store signed in state [s]. *)
Record Signed (s : Store) (ce : Compact) (ir : IntegrityRecord) : Prop := mkSigned {
  sg_record : ce_Integrity ce = Some ir;
  sg_hash : hash_of ce = Some (ir_EventHash ir);
  sg_seq : ir_Sequence ir = ce_Sequence ce;
  sg_gen : ir_Generation ir = ce_Generation ce;
  sg_prev : ir_PrevHash ir = if ir_Generation ir =? st_lastEventGen s then st_lastEventHash s else "";
  sg_version : ir_FormatVersion ir = IntegrityFormatVersion;
  sg_context : ir_ContextDigest ir = st_contextDigest s;
  sg_key : ir_KeyFingerprint ir = so_KeyFingerprint (st_opts s);
}.

Lemma written_Signed s ev ce : written s ev = Some ce →
  ∃ ch ir, ev_Chain ev = Some ch ∧ Signed s ce ir ∧ ce_Sequence ce = cs_Sequence ch ∧ ce_Generation ce = cs_Generation ch.
Proof.
  unfold written. destruct (ev_Chain ev) as [ch|] eqn:Hch; [|done]. cbn [mbind option_bind].
  destruct (compact_Encode _ ev) as [ce0|e] eqn:He; [|done].
  assert (Hce : ce_Integrity ce0 = None ∧ ce_Sequence ce0 = cs_Sequence ch ∧ ce_Generation ce0 = cs_Generation ch).
  { unfold compact_Encode in He. rewrite Hch in He. by repeat case_match; simplify_eq. }
  destruct Hce as (Hi & Hq & Hg). destruct (proto_marshal_deterministic ce0) as [canon|] eqn:Hm; [|done].
  cbn [mbind option_bind]. intros [= <-]. eexists ch, _. split; [done|]. split; [|done].
  constructor; cbn; try done. unfold hash_of. cbn. destruct ce0. cbn in *. subst. by rewrite Hm.
Qed.

(** ** Failures *)

(** The position of a chain: everything but its latch. *)
Definition position (c : SinkChain) : nat * string * string * Z * string :=
  (sc_id c, sc_key c, sc_algorithm c, sc_generation c, sc_prevHash c).

(** Nothing that decides the next record has changed. *)
Record SameAnchor (s s' : Store) : Prop := mkSameAnchor {
  sa_hash : st_lastEventHash s' = st_lastEventHash s;
  sa_gen : st_lastEventGen s' = st_lastEventGen s;
  sa_chain : position (st_sink s') = position (st_sink s);
  sa_opts : st_opts s' = st_opts s;
  sa_digest : st_contextDigest s' = st_contextDigest s;
  sa_closing : st_closing s' = st_closing s;
}.

(** A failed step: the store is latched, or it is as before but for metrics, and the log is
    untouched unless loss markers are on. *)
Definition refused (s s' : Store * World) : Prop :=
  SameAnchor s.1 s'.1 ∧
  (st_fatalLatched s'.1 = true ∨
   (st_fatalLatched s'.1 = st_fatalLatched s.1 ∧ st_sink s'.1 = st_sink s.1 ∧
    (so_EmitExtendedLossReasons (st_opts s.1) = false → st_w s'.1 = st_w s.1 ∧ s'.2 = s.2))).

Lemma SameAnchor_refl s : SameAnchor s s.
Proof. by constructor. Qed.
Lemma refused_refl s : refused s s.
Proof. split; [apply SameAnchor_refl|]. by right. Qed.

Lemma wal_ambiguous_refused e w W s : refused s (wal_ambiguous e (st_set_w w s.1), W).
Proof.
  unfold wal_ambiguous, latchFatal. split; [|left]; cbn [fst st_fatalLatched st_set_sink st_set_w];
    destruct (st_fatalLatched s.1) eqn:Hf; try done; by constructor.
Qed.

Lemma emitInFlightLoss_refused ch reason s : (emitInFlightLoss ch reason s).1 = Ok tt ∧ refused s (emitInFlightLoss ch reason s).2.
Proof.
  unfold emitInFlightLoss. destruct (so_EmitExtendedLossReasons (st_opts s.1)) eqn:Hx; cbn [negb]; [|split; [done | apply refused_refl]].
  destruct (AppendLoss _ (st_w s.1, s.2)) as [[[]|e] [w W]]; cbn [fst snd]; split; try done.
  - split; [by constructor|]. right. by rewrite Hx.
  - destruct (IsAmbiguous e); [apply wal_ambiguous_refused|]. split; [by constructor|]. right. by rewrite Hx.
Qed.

(** Counting first changes nothing that matters. *)
Lemma dropped_refused m ch reason (e : StoreErr) s :
  ∃ s', (do* (do* st_update (st_count m) in emitInFlightLoss ch reason) in merr e : StoreM unit) s = (Err e, s') ∧ refused s s' ∧
        (so_EmitExtendedLossReasons (st_opts s.1) = false → st_fatalLatched s'.1 = st_fatalLatched s.1).
Proof.
  unfold bindM, st_update, mput, merr. destruct (emitInFlightLoss_refused ch reason (st_count m s.1, s.2)) as [Hok [Ha Hr]].
  assert (Hoff : so_EmitExtendedLossReasons (st_opts s.1) = false → (emitInFlightLoss ch reason (st_count m s.1, s.2)).2 = (st_count m s.1, s.2)).
  { intros Hoff. unfold emitInFlightLoss. cbn. by rewrite Hoff. }
  destruct (emitInFlightLoss ch reason (st_count m s.1, s.2)) as [r s']. cbn [fst snd] in *. subst r. exists s'. split; [done|].
  split; [split; [destruct Ha; by constructor | exact Hr]|]. intros Hx. by rewrite (Hoff Hx).
Qed.

Lemma Append_clean q gen p s e s' : Append q gen p s = (Err e, s') → IsAmbiguous e = false → s' = s.
Proof.
  intros He Ha. pose proof (Append_failures q gen p s) as Hc. rewrite He in Hc. destruct Hc as [[_ Hc]|[Hc _]]; congruence.
Qed.

Lemma store_wal_append_refused q gen p s e s' : store_wal_append q gen p s = (Err e, s') → refused s s'.
Proof.
  unfold store_wal_append. destruct (Append q gen p (st_w s.1, s.2)) as [[b|e'] [w W]] eqn:Happ; [done|].
  intros [= <- <-]. destruct (IsAmbiguous e') eqn:Ha; [apply wal_ambiguous_refused|].
  apply (Append_clean _ _ _ _ _ _ Happ) in Ha as [= -> ->]. cbn. split; [by constructor|]. by right.
Qed.

Lemma set_fatal_position c : position (AuditChain.set_fatal c) = position c.
Proof. done. Qed.

(** A failed Commit comes after the record was written: the store is latched. *)
Lemma store_commit_refused cr s e s' : store_commit cr s = (Err e, s') → SameAnchor s.1 s'.1 ∧ st_fatalLatched s'.1 = true.
Proof.
  unfold store_commit. destruct (Commit (st_sink s.1) (Some cr)) as [[[]|e'] c] eqn:Hc; [done|]. apply Commit_Err in Hc as ->.
  intros [= <- <-]. unfold latchFatal. cbn [fst st_fatalLatched st_set_sink].
  destruct (st_fatalLatched s.1) eqn:Hf; cbn; split; try done; by constructor.
Qed.

(** ** The transaction *)

(** What is prepared for an event before the log is touched. *)
Record Prepared (ev : Event EventRest) (s : Store) (ch : ChainState) (ce : Compact) (ir : IntegrityRecord) (canon : string)
    (cr : ComputeResult) (final : bytes) : Prop := mkPrepared {
  pr_stamp : ev_Chain ev = Some ch;
  pr_range : cs_Sequence ch ≤ MaxInt64;
  pr_open : st_closing s = false ∧ st_fatalLatched s = false;
  pr_written : written s ev = Some ce;
  pr_record : ce_Integrity ce = Some ir;
  pr_canon : EncodeCanonical ir = Ok canon;
  pr_token : Compute_ (st_sink s) IntegrityFormatVersion (cs_Sequence ch) (cs_Generation ch) canon = Ok cr;
  pr_final : proto_marshal_event ce = Some final;
}.

Definition transaction (ch : ChainState) (ir : IntegrityRecord) (cr : ComputeResult) (final : bytes) : StoreM unit :=
  do* store_wal_append (cs_Sequence ch) (cs_Generation ch) final in
  do* store_commit cr in
  st_update (st_set_anchor (ir_EventHash ir) (cs_Generation ch)).

(** An event is dropped before the log is touched, which latches nothing but through a
    loss marker; or it is prepared, and the transaction decides. *)
Lemma AppendEvent_cases ev s out : AppendEvent ev s = out →
  (∃ e s', out = (Err e, s') ∧ refused s s' ∧
           (so_EmitExtendedLossReasons (st_opts s.1) = false → st_fatalLatched s'.1 = st_fatalLatched s.1)) ∨
  (∃ ch ce ir canon cr final, Prepared ev s.1 ch ce ir canon cr final ∧ out = transaction ch ir cr final s).
Proof.
  set (early := ∃ e s', out = (Err e, s') ∧ refused s s' ∧ _).
  assert (Hdone : ∀ e, (Err e, s) = out → early).
  { intros e <-. exists e, s. split_and!; [done | apply refused_refl | done]. }
  assert (Hdrop : ∀ m ch reason e, (do* (do* st_update (st_count m) in emitInFlightLoss ch reason) in merr e : StoreM unit) s = out → early).
  { intros m ch reason e <-. destruct (dropped_refused m ch reason e s) as (s1 & Hs1 & Hr). by exists e, s1. }
  unfold AppendEvent, bindM at 1, mget. cbn [fst]. unfold isFatal.
  destruct (st_closing s.1) eqn:Hcl; [intros Ho; left; by eapply Hdone|].
  destruct (st_fatalLatched s.1) eqn:Hla in |- *; [intros Ho; left; by eapply Hdone|].
  destruct (ev_Chain ev) as [ch|] eqn:Hch; [|intros Ho; left; by eapply Hdone].
  destruct (Z.ltb_spec MaxInt64 (cs_Sequence ch)); [intros Ho; left; by eapply Hdrop|].
  destruct (compact_Encode _ ev) as [ce0|e0] eqn:Henc.
  2: { unfold recordCompactEncodeFailure. set (mr := if errors_Is e0 ErrMapperFailure then _ else _). destruct mr as [m reason].
       intros Ho. left. by eapply Hdrop. }
  destruct (proto_marshal_deterministic ce0) as [canonEv|] eqn:Hdet; [|intros Ho; left; by eapply Hdone].
  set (ir := integrity_record s.1 ch _) in *. destruct (EncodeCanonical ir) as [canon|e0] eqn:Hcan; [|intros Ho; left; by eapply Hdrop].
  destruct (Compute_ _ _ _ _ canon) as [cr|e0] eqn:Hcr; [|intros Ho; left; by eapply Hdone].
  destruct (proto_marshal_event _) as [final|] eqn:Hfin; [|intros Ho; left; by eapply Hdone].
  intros <-. right. exists ch, (with_integrity ir ce0), ir, canon, cr, final. split; [|reflexivity]. constructor; try done.
  unfold written. rewrite Hch. cbn [mbind option_bind]. by rewrite Henc, Hdet.
Qed.

(** AppendEvent that returns nil: the event that was signed is in the log, the token of the
    chain was committed, and the anchor moved to it. *)
Lemma AppendEvent_Ok ev s s' : AppendEvent ev s = (Ok tt, s') →
  ∃ ch ce ir canon cr final b w c, Prepared ev s.1 ch ce ir canon cr final ∧
    Append (cs_Sequence ch) (cs_Generation ch) final (st_w s.1, s.2) = (Ok b, (w, s'.2)) ∧
    Commit (st_sink s.1) (Some cr) = (Ok tt, c) ∧
    s'.1 = st_set_anchor (ir_EventHash ir) (cs_Generation ch) (st_set_sink c (st_set_w w s.1)).
Proof.
  destruct (AppendEvent_cases ev s _ eq_refl) as [(e & s1 & -> & _)|(ch & ce & ir & canon & cr & final & HP & ->)]; [done|].
  unfold transaction, bindM at 1, store_wal_append. destruct (Append _ _ final (st_w s.1, s.2)) as [[b|e] [w W]] eqn:Happ; [|done].
  unfold bindM, store_commit. cbn [fst snd st_sink st_set_w].
  destruct (Commit (st_sink s.1) (Some cr)) as [[[]|e] c] eqn:Hcom; [|done].
  unfold st_update, mput. intros [= <-]. by exists ch, ce, ir, canon, cr, final, b, w, c.
Qed.

Lemma AppendEvent_Err ev s e s' : AppendEvent ev s = (Err e, s') → refused s s'.
Proof.
  destruct (AppendEvent_cases ev s _ eq_refl) as [(e1 & s1 & -> & Hr & _)|(ch & ce & ir & canon & cr & final & HP & ->)]; [by intros [= _ <-]|].
  unfold transaction, bindM at 1. destruct (store_wal_append _ _ final s) as [[[]|e0] s1] eqn:Hap.
  2: { intros [= _ <-]. by eapply store_wal_append_refused. }
  unfold bindM. destruct (store_commit cr s1) as [[[]|e0] s2] eqn:Hcm; [done|]. intros [= _ <-].
  destruct (store_commit_refused _ _ _ _ Hcm) as [Ha Hf]. split; [|by left].
  unfold store_wal_append in Hap. destruct (Append _ _ final _) as [[b|?] [w W]]; [|done]. injection Hap as <-.
  destruct Ha. by constructor.
Qed.

(** Without loss markers only the transaction latches. *)
Lemma AppendEvent_latches ev s e s' : AppendEvent ev s = (Err e, s') → so_EmitExtendedLossReasons (st_opts s.1) = false →
  st_fatalLatched s.1 = false → st_fatalLatched s'.1 = true →
  ∃ ch ce ir canon cr final, Prepared ev s.1 ch ce ir canon cr final ∧
    ((∃ e' s2, Append (cs_Sequence ch) (cs_Generation ch) final (st_w s.1, s.2) = (Err e', s2) ∧ IsAmbiguous e' = true) ∨
     (∃ e' c, Commit (st_sink s.1) (Some cr) = (Err e', c))).
Proof.
  intros Ha Hoff Hla Hla'. destruct (AppendEvent_cases ev s _ eq_refl) as [(e1 & s1 & Hs1 & _ & Hf)|(ch & ce & ir & canon & cr & final & HP & Ht)].
  { specialize (Hf Hoff). congruence. }
  exists ch, ce, ir, canon, cr, final. split; [done|]. rewrite Ht in Ha. revert Ha.
  unfold transaction, bindM at 1, store_wal_append. destruct (Append _ _ final (st_w s.1, s.2)) as [[b|e0] [w W]] eqn:Happ.
  - unfold bindM, store_commit. cbn [fst snd st_sink st_set_w].
    destruct (Commit (st_sink s.1) (Some cr)) as [[[]|e0] c] eqn:Hcom; [done|]. intros _. right. by eexists _, _.
  - intros [= <- <-]. destruct (IsAmbiguous e0) eqn:Hamb; [left; by eexists _, _|]. cbn in Hla'. congruence.
Qed.

(** A latched store does nothing any more. *)
Lemma latched_refuses ev s : st_fatalLatched s.1 = true →
  AppendEvent ev s = (Err (if st_closing s.1 then ErrStoreClosing else ErrFatalLatch), s).
Proof. intros Hf. unfold AppendEvent, bindM, mget, isFatal. cbn. rewrite Hf. by destruct (st_closing s.1). Qed.

(** C25. What AppendEvent leaves behind when it fails, whatever the file system does. The hash
    and generation that the next record will be chained to, and the position of the HMAC
    chain, are as before. Then either the store is latched, and every later AppendEvent
    fails and changes nothing at all; or it is not, and the chain is exactly as before, and
    so are the log and the disk (with loss markers off; with them on, a marker may have
    been written). *)
Theorem append_event_failures ev s e s' :
  AppendEvent ev s = (Err e, s') →
  (st_lastEventHash s'.1 = st_lastEventHash s.1 ∧ st_lastEventGen s'.1 = st_lastEventGen s.1 ∧
   position (st_sink s'.1) = position (st_sink s.1)) ∧
  ((st_fatalLatched s'.1 = true ∧
    ∀ ev', AppendEvent ev' s' = (Err (if st_closing s'.1 then ErrStoreClosing else ErrFatalLatch), s')) ∨
   (st_fatalLatched s'.1 = st_fatalLatched s.1 ∧ st_sink s'.1 = st_sink s.1 ∧
    (so_EmitExtendedLossReasons (st_opts s.1) = false → st_w s'.1 = st_w s.1 ∧ s'.2 = s.2))).
Proof.
  intros [[] Hr]%AppendEvent_Err. split; [done|]. destruct Hr as [Hf|Hr]; [left | by right].
  split; [done|]. intros ev'. by apply latched_refuses.
Qed.

(** ** Chains of accepted events *)

(** Appends, and anything that happens to the log in between. *)
Inductive StoreOp := OpAppend (ev : Event EventRest) | OpLog (f : WAL * World → WAL * World).

(** What an accepted append of [ev] gave to the log is [ce]: the projection of [ev] with a
    record, and the log is left as Append leaves it on the bytes of [ce] under its stamp. *)
Definition logged (ev : Event EventRest) (ce : Compact) (s s' : Store * World) : Prop :=
  (∃ ce0 ir, compact_Encode (so_Mapper (st_opts s.1)) ev = Ok ce0 ∧ ce = with_integrity ir ce0) ∧
  ∃ final b, proto_marshal_event ce = Some final ∧
    Append (ce_Sequence ce) (ce_Generation ce) final (st_w s.1, s.2) = (Ok b, (st_w s'.1, s'.2)).

(** [l] is what a sequence of operations gave to the log, one event for each append that was
    accepted. *)
Fixpoint logged_run (ops : list StoreOp) (s : Store * World) (l : list Compact) : Prop :=
  match ops with
  | [] => l = []
  | OpAppend ev :: ops =>
      match AppendEvent ev s with
      | (Ok _, s') => ∃ ce l', l = ce :: l' ∧ logged ev ce s s' ∧ logged_run ops s' l'
      | (Err _, s') => logged_run ops s' l
      end
  | OpLog f :: ops => let '(w, W) := f (st_w s.1, s.2) in logged_run ops (st_set_w w s.1, W) l
  end.

(** A record is chained to the event hash of the one before it, or to nothing when it is
    the first of its generation. *)
Fixpoint wire_linked (gen : Z) (hash : string) (l : list IntegrityRecord) : Prop :=
  match l with
  | [] => True
  | ir :: l => ir_PrevHash ir = (if ir_Generation ir =? gen then hash else "") ∧
               wire_linked (ir_Generation ir) (ir_EventHash ir) l
  end.

(** A record that covers its event. *)
Definition covers_event (s : Store) (ce : Compact) : Prop :=
  ∃ ir, ce_Integrity ce = Some ir ∧ hash_of ce = Some (ir_EventHash ir) ∧ ir_Sequence ir = ce_Sequence ce ∧
        ir_Generation ir = ce_Generation ce ∧ ir_ContextDigest ir = st_contextDigest s ∧
        ir_KeyFingerprint ir = so_KeyFingerprint (st_opts s).

Lemma Compute_gen c fv q g p cr : Compute_ c fv q g p = Ok cr → cr_generation cr = g.
Proof. unfold Compute_. repeat case_match; intros; by simplify_eq. Qed.

(** The bytes of an accepted event. *)
Lemma accepted_logged ev s s' ce : AppendEvent ev s = (Ok tt, s') → written s.1 ev = Some ce → logged ev ce s s'.
Proof.
  intros (ch & ce' & ir & canon & cr & final & b & w & c & [Hch _ _ Hw _ _ _ Hfin] & Happ & _ & Hs')%AppendEvent_Ok Hw'.
  rewrite Hw in Hw'. injection Hw' as ->. destruct (written_Signed _ _ _ Hw) as (ch' & ir' & Hch' & _ & Hq & Hg).
  rewrite Hch in Hch'. injection Hch' as <-. split.
  - unfold written in Hw. rewrite Hch in Hw. cbn [mbind option_bind] in Hw. destruct (compact_Encode _ ev) as [ce0|]; [|done].
    destruct (proto_marshal_deterministic ce0); [|done]. injection Hw as <-. by eexists _, _.
  - exists final, b. split; [done|]. rewrite Hq, Hg, Hs'. exact Happ.
Qed.

(** The state after an accepted event. *)
Lemma accepted_state ev s s' : AppendEvent ev s = (Ok tt, s') → ∃ ce ir, written s.1 ev = Some ce ∧ Signed s.1 ce ir ∧
  st_lastEventHash s'.1 = ir_EventHash ir ∧ st_lastEventGen s'.1 = ir_Generation ir ∧
  sc_generation (st_sink s.1) ≤ ir_Generation ir ∧ sc_generation (st_sink s'.1) = ir_Generation ir ∧
  st_opts s'.1 = st_opts s.1 ∧ st_contextDigest s'.1 = st_contextDigest s.1.
Proof.
  intros (ch & ce & ir & canon & cr & final & b & w & c & [Hch _ _ Hw Hir _ Hcr _] & _ & Hcom & Hs')%AppendEvent_Ok.
  destruct (written_Signed _ _ _ Hw) as (ch' & ir' & Hch' & HS & Hq & Hg). rewrite Hch in Hch'. injection Hch' as <-.
  assert (ir' = ir) as -> by (pose proof (sg_record _ _ _ HS); congruence). exists ce, ir. split; [done|]. split; [done|].
  pose proof (sg_gen _ _ _ HS) as Hgen. apply Commit_Ok in Hcom as (_ & _ & Hcont & ->).
  apply Compute_gen in Hcr. rewrite Hs'. cbn. split_and!; try done; [congruence | | congruence].
  unfold continues in Hcont. destruct Hcont as [[? _]|[? _]]; lia.
Qed.

(** C14. The events a store accepts form one chain, as they are in the log. Take any sequence
    of appends, of events with any stamps, with any failures of the file system and anything
    else happening to the log in between. For each append that is accepted, what is given to
    the log are the marshalled bytes, under the event's stamp, of the projected event
    together with a record whose event hash is the hash of that event, with its sequence
    number and generation and the session's context and key; its previous hash is the event
    hash of the event accepted before it, or empty when that one has another generation; and
    the generations never decrease. *)
Theorem wire_chain_linked ops s :
  ∃ accepted, logged_run ops s accepted ∧
    wire_linked (st_lastEventGen s.1) (st_lastEventHash s.1) (omap ce_Integrity accepted) ∧
    Forall (covers_event s.1) accepted ∧
    StronglySorted Z.le (sc_generation (st_sink s.1) :: (ce_Generation <$> accepted)).
Proof.
  revert s. induction ops as [|[ev|f] ops IH]; intros s; cbn [logged_run].
  - exists []. split_and!; [done | done | constructor | repeat constructor].
  - destruct (AppendEvent ev s) as [[[]|e] s'] eqn:Ha; destruct (IH s') as (l & Hrun & Hl1 & Hl2 & Hl3).
    + destruct (accepted_state _ _ _ Ha) as (ce & ir & Hw & HS & Hh & Hg & Hle & Hsc & Ho & Hd). destruct HS as [S1 S2 S3 S4 S5 S6 S7 S8].
      exists (ce :: l). rewrite Hh, Hg in Hl1. rewrite Hsc in Hl3. split_and!.
      * exists ce, l. split_and!; [done | by apply accepted_logged | done].
      * cbn. rewrite S1. done.
      * constructor; [by exists ir; rewrite S7, S8|]. eapply Forall_impl; [exact Hl2|].
        unfold covers_event. by rewrite Ho, Hd.
      * rewrite fmap_cons, <- S4. constructor; [exact Hl3|]. constructor; [done|].
        apply StronglySorted_inv in Hl3 as [_ Hl3]. eapply Forall_impl; [exact Hl3|]. cbn. lia.
    + destruct (AppendEvent_Err _ _ _ _ Ha) as [[Hh Hg Hp Ho Hd _] _]. unfold covers_event in *. rewrite Hh, Hg, Ho, Hd in *.
      replace (sc_generation (st_sink s'.1)) with (sc_generation (st_sink s.1)) in Hl3 by (unfold position in Hp; congruence). by exists l.
  - destruct (f (st_w s.1, s.2)) as [w W]. exact (IH (st_set_w w s.1, W)).
Qed.
End append.
