(* ===== verification/WtpRestart.v ===== *)
(** * The watchtower store across restarts

    store.go and chain_restore.go on a file system that does not fail: the anchor that a
    new process reads from the log is the one the last process had, so the events accepted
    by all of them form one chain. *)

From S2P Require Import Prelude AuditChain WalFrame WalFs Wal WalInv WalSpec WalRecover WalProps WalReader WalIndex.
From S2P Require Import WtpBatch WtpAck WtpSession WtpCanonical WtpStore WtpStoreProps.
Open Scope Z_scope.

(** What was marshalled is read back. *)
Class EventLaws `{EventLib} := {
  proto_roundtrip : ∀ ce b, proto_marshal_event ce = Some b → proto_unmarshal_compact b = Some ce;
}.

Section restore.
Context `{EventLib, WtpWire, HmacLib, ShaLib, !HmacLaws, !EventLaws}.

(** ** Replaying records into the ephemeral chain *)

Fixpoint restore_all (l : list WalRecord) (rp : Replayed) : Result RestoreErr Replayed :=
  match l with
  | [] => Ok rp
  | r :: l => let! rp := restore_record r rp in restore_all l rp
  end.

(** The hash and generation a record leaves as anchor. *)
Definition record_anchor (r : WalRecord) : option (string * Z) :=
  match rec_Kind r with
  | RecordData =>
      ce ← proto_unmarshal_compact (rec_Payload r); ir ← ce_Integrity ce; Some (ir_EventHash ir, ir_Generation ir)
  | _ => None
  end.

(** A payload that the store wrote in generation [g]. *)
Definition recorded (g : Z) (p : bytes) : Prop :=
  ∃ ce ir b, proto_unmarshal_compact p = Some ce ∧ ce_Integrity ce = Some ir ∧ ir_Generation ir = g ∧ EncodeCanonical ir = Ok b.

Definition replayable (g : Z) (r : WalRecord) : Prop :=
  rec_Kind r = RecordLoss ∨ (rec_Kind r = RecordData ∧ recorded g (rec_Payload r)).

(** A chain that signs with algorithm [a] in generation [g]. *)
Record Chaining (a : string) (g : Z) (c : SinkChain) : Prop := mkChaining {
  ch_fatal : sc_fatal c = false;
  ch_gen : sc_generation c = g;
  ch_alg : sc_algorithm c = a;
  ch_known : known_algorithm a;
  ch_prev : validatePrevHash (sc_algorithm c) (sc_prevHash c) = true;
}.

(** A token of the chain commits unless its generation goes back. *)
Lemma compute_commit a g0 c fv q g p : Chaining a g0 c → g0 ≤ g →
  ∃ cr c', Compute_ c fv q g p = Ok cr ∧ Commit c (Some cr) = (Ok tt, c') ∧ Chaining a g c'.
Proof.
  intros [Hf Hg0 Ha Hk _] Hg. rewrite <- Ha in Hk. rewrite <- Hg0 in Hg. unfold Compute_. rewrite Hf.
  destruct (computed_hash (sc_key c) (sc_algorithm c) fv q (if negb (g =? sc_generation c) then "" else sc_prevHash c) p Hk) as (h & -> & Hv).
  eexists _, _. split; [done|]. unfold Commit. cbn [cr_chain cr_generation cr_prevHash cr_entryHash]. rewrite Hf, Nat.eqb_refl. cbn [negb].
  destruct (Z.ltb_spec g (sc_generation c)); [lia|].
  destruct (Z.eqb_spec g (sc_generation c)); cbn [negb]; rewrite String.eqb_refl; cbn [negb]; (split; [done|]);
    constructor; cbn; try done; by rewrite <- Ha.
Qed.

Lemma restore_record_ok a g r rp : replayable g r → Chaining a g (rp_temp rp) →
  ∃ rp', restore_record r rp = Ok rp' ∧ Chaining a g (rp_temp rp') ∧
    rp_last rp' = match record_anchor r with Some x => Some x | None => rp_last rp end.
Proof.
  intros Hr HC. unfold restore_record, record_anchor. destruct Hr as [Hk|[Hk (ce & ir & b & Hu & Hi & Hg & Hb)]]; rewrite Hk.
  { exists rp. done. }
  rewrite Hu, Hi. cbn [mbind option_bind]. rewrite Hi, Hb, Hg. cbn [mbind option_bind]. 
  destruct (compute_commit a g (rp_temp rp) (ir_FormatVersion ir) (to_int64 (ir_Sequence ir)) g b HC ltac:(lia)) as (cr & c' & -> & -> & HC').
  eexists. split_and!; [reflexivity | exact HC' | by rewrite Hg].
Qed.

Lemma restore_all_app l1 l2 rp : restore_all (l1 ++ l2) rp = let! rp := restore_all l1 rp in restore_all l2 rp.
Proof.
  revert rp. induction l1 as [|r l1 IH]; intros rp; [done|]. cbn [app restore_all]. destruct (restore_record r rp); [apply IH | done].
Qed.

Lemma restore_all_ok a g l rp : Forall (replayable g) l → Chaining a g (rp_temp rp) →
  ∃ rp', restore_all l rp = Ok rp' ∧ Chaining a g (rp_temp rp').
Proof.
  intros Hl. revert rp. induction Hl as [|r l Hr Hl IH]; intros rp HC; cbn [restore_all]; [by exists rp|].
  destruct (restore_record_ok a g r rp Hr HC) as (rp1 & -> & HC1 & _). by apply IH.
Qed.

(** The last record decides the anchor. *)
Lemma restore_all_last a g l r x rp : Forall (replayable g) (l ++ [r]) → Chaining a g (rp_temp rp) → record_anchor r = Some x →
  ∃ temp, restore_all (l ++ [r]) rp = Ok (mkReplayed temp (Some x)) ∧ Chaining a g temp.
Proof.
  intros [Hl Hr]%Forall_app HC Hx. inversion Hr as [|? ? Hr' _]; subst; clear Hr; rename Hr' into Hr. rewrite restore_all_app.
  destruct (restore_all_ok a g l rp Hl HC) as (rp1 & -> & HC1). cbn [rbind restore_all].
  destruct (restore_record_ok a g r rp1 Hr HC1) as ([temp la] & -> & HC2 & Hla). rewrite Hx in Hla. cbn in *. subst la. by exists temp.
Qed.

(** ** Reading them from the log *)

Lemma Next_TryNext max s : Next max s =
  match TryNext max s with
  | (Ok (Some r), s) => (Ok r, s)
  | (Ok None, s) => (Err (ErrReaderFrame ErrEOF), s)
  | (Err e, s) => (Err e, s)
  end.
Proof.
  unfold Next, TryNext, bindM, mget. destruct (r_closed s.1); [done|]. destruct (nextLocked max s) as [[[r|]|e] s']; done.
Qed.

(** The log with a reader table. *)
Definition with_readers (rs : gmap nat Reader) (w : WAL) : WAL := set_readers (w_closed w) rs w.

Lemma on_reader_with {A} id (m : RdM A) r rs w W r' a : m (r, W) = (a, (r', W)) →
  on_reader id m (with_readers (<[id := r]> rs) w, W) = (a, (with_readers (<[id := r']> rs) w, W)).
Proof.
  intros Hm. unfold on_reader, with_readers. cbn. rewrite lookup_insert_eq, Hm. cbn. by rewrite insert_insert_eq.
Qed.

Section loop.
Context (max : Z) (o : Options) (L : Slots) (w : WAL) (W : World) (g : Z).
Context (HL : LogState max o L (w, W)) (Hf : w_faults W = []) (Hn : w_nextIndex w < 2 ^ 64).

Lemma restore_loop_ok fuel rp rp' r c rest rs : Reading g 0 (w_nextIndex w) L r c rest →
  (length (pending L r c rest) < fuel)%nat → restore_all (pending L r c rest) rp = Ok rp' →
  ∃ r', restore_loop fuel rp (with_readers (<[restore_reader := r]> rs) w, W) =
        (Ok rp', (with_readers (<[restore_reader := r']> rs) w, W)).
Proof.
  revert rp r c rest. induction fuel as [|fuel IH]; intros rp r c rest Hr Hlen Hall; [lia|].
  destruct (TryNext_spec g 0 max o L (w, W) r c rest HL Hf Hn Hr) as (out & r1 & c1 & rest1 & Ht & Hr1 & Hout). cbn [fst snd] in *.
  pose proof (Next_TryNext max (r, W)) as Hnext. rewrite Ht in Hnext.
  assert (Hmax : w_maxRec (with_readers (<[restore_reader := r]> rs) w) = max) by apply (ls_inv _ _ _ _ HL).
  cbn [restore_loop]. unfold bindM at 1, mget. cbn [fst]. rewrite Hmax. unfold bindM at 1, mtry.
  destruct out as [x|].
  - rewrite (on_reader_with _ _ _ _ _ _ _ _ Hnext). cbn [fst snd]. rewrite Hout in Hlen, Hall. cbn [restore_all length] in *.
    destruct (restore_record x rp) as [rp1|]; [|done]. unfold bindM, mlift. cbn [rbind] in Hall.
    apply (IH rp1 r1 c1 rest1); [done | lia | done].
  - rewrite (on_reader_with _ _ _ _ _ _ _ _ Hnext). cbn [fst snd]. destruct Hout as [Hout _]. rewrite Hout in Hall.
    injection Hall as <-. by eexists.
Qed.

(** The records are fewer than the bytes. *)
Lemma frames_count ps : (length ps ≤ length (frames ps))%nat.
Proof.
  induction ps as [|p ps IH]; [done|]. rewrite frames_cons, length_app, length_frame. cbn [length]. lia.
Qed.

Lemma outs_count S : S ⊆ L → (length (outs g 0 S) ≤ length S * largest W)%nat.
Proof.
  pose proof (iv_rep _ _ _ _ _ _ _ _ _ _ (ls_inv _ _ _ _ HL)) as HR. cbn [snd] in HR.
  induction S as [|x S IH]; intros HS; [done|]. rewrite outs_cons, length_app. cbn [length].
  assert (Hx : x ∈ L) by (apply HS, elem_of_cons; by left). pose proof (largest_le x.2 W) as Hlg.
  rewrite (Rep_data _ _ _ _ HR Hx) in Hlg. unfold a_bytes in Hlg. rewrite length_app in Hlg.
  pose proof (frames_count (a_payloads x.1)) as Hfc. unfold a_payloads in Hfc. rewrite length_fmap in Hfc.
  assert (Hso : (length (seg_out g 0 x.1) ≤ length (a_recs x.1))%nat).
  { unfold seg_out. destruct (_ =? _); [apply omap_length_le | cbn; lia]. }
  specialize (IH ltac:(intros y Hy; apply HS, elem_of_cons; by right)). unfold a_payloads in Hlg. lia.
Qed.

Lemma restore_fuel_enough : (length (outs g 0 L) < restore_fuel W)%nat.
Proof.
  pose proof (outs_count L ltac:(done)) as Hc. unfold restore_fuel.
  rewrite (Rep_size max W L (iv_rep _ _ _ _ _ _ _ _ _ _ (ls_inv _ _ _ _ HL))). lia.
Qed.

(** Closing the reader leaves the disk as it is. *)
Lemma Reader_Close_with rs : ∃ rs', (Reader_Close restore_reader (with_readers rs w, W)).2 = (with_readers rs' w, W).
Proof.
  unfold Reader_Close, with_readers. cbn [fst snd w_readers set_readers w_closed].
  destruct (rs !! restore_reader) as [r|]; [|by exists rs]. destruct (r_closed r); [by exists rs|].
  assert (Hio : ∀ f, file_Close f W = (Ok tt, W)) by (intros f; unfold file_Close, io, next_fault, bindM; by rewrite Hf).
  destruct (r_current r) as [[f off]|]; rewrite ?Hio; by eexists.
Qed.

Lemma data_generation_at h : 0 ≤ g → w_perGenDataHighWater w !! g = Some h → w_closed w = false →
  data_generation w (Z.to_nat g) = Ok (Some g).
Proof.
  intros Hg Hh Hc. destruct (Z.to_nat g) eqn:Hz; cbn [data_generation]; unfold WrittenDataHighWater; rewrite <- Hz, Hc, Z2Nat.id by done;
    by rewrite Hh.
Qed.

(** The algorithms a store may have. *)
Definition chain_options (opts : StoreOptions) : Prop :=
  MinKeyLength ≤ Z.of_nat (String.length (so_HMACSecret opts)) ∧
  (so_HMACAlgorithm opts = "" ∨ known_algorithm (so_HMACAlgorithm opts)).

Lemma NewSinkChain_ok id opts : chain_options opts → ∃ c, NewSinkChain id (so_HMACSecret opts) (so_HMACAlgorithm opts) = Ok c ∧
  Chaining (algorithm_of opts) 0 c.
Proof.
  intros [Hk Ha]. unfold NewSinkChain, algorithm_of. destruct (Z.ltb_spec (Z.of_nat (String.length (so_HMACSecret opts))) MinKeyLength); [lia|].
  unfold known_algorithm in Ha. destruct Ha as [->|[->| ->]]; cbn; eexists; (split; [reflexivity|]); constructor; cbn; try done; unfold known_algorithm; tauto.
Qed.

(** The chain after a restore, and the anchor. *)
Lemma restore_ok opts inner pre r x : chain_options opts → Chaining (algorithm_of opts) 0 inner → 0 ≤ g → HighGeneration w = g →
  is_Some (w_perGenDataHighWater w !! g) → outs g 0 L = pre ++ [r] → Forall (replayable g) (pre ++ [r]) →
  record_anchor r = Some x →
  ∃ c rs, restoreChainFromWAL inner opts (w, W) = (Ok (c, x), (with_readers rs w, W)) ∧ Chaining (algorithm_of opts) g c.
Proof.
  intros Ho HCi Hg Hhi [h Hh] Hout Hall Hx.
  pose proof (iv_closed _ _ _ _ _ _ _ _ _ _ (ls_inv _ _ _ _ HL)) as Hcl. cbn [fst] in Hcl.
  unfold restoreChainFromWAL, bindM at 1, mget. cbn [fst]. rewrite Hhi. unfold bindM at 1, mlift.
  rewrite (data_generation_at h Hg Hh Hcl).
  destruct (NewSinkChain_ok ephemeral_chain opts Ho) as (temp & -> & [Ht1 Ht2 Ht3 Ht4 Ht5]).
  unfold chain_Restore at 1. cbn [validatePrevHash String.eqb negb].
  destruct (NewReader_spec max o L (w, W) restore_reader g 0 HL Hf Hn ltac:(lia)) as (rd & Hnew & Hrd & Hpend). cbn [fst snd] in *.
  unfold bindM at 1, merr_map. rewrite Hnew. change (set_readers (w_closed w) (<[restore_reader:=rd]> (w_readers w)) w) with (with_readers (<[restore_reader:=rd]> (w_readers w)) w).
  set (temp' := Build_SinkChain _ _ _ _ _ _).
  assert (HC : Chaining (algorithm_of opts) g (rp_temp (mkReplayed temp' None))) by (by constructor).
  destruct (restore_all_last _ g pre r x _ Hall HC Hx) as (tempN & HallN & HCN). rewrite <- Hout, <- Hpend in HallN.
  pose proof restore_fuel_enough as Hfuel. rewrite <- Hpend in Hfuel.
  destruct (restore_loop_ok _ _ _ _ _ _ (w_readers w) Hrd Hfuel HallN) as (rd' & Hloop).
  unfold closing_reader, bindM at 1, mget. cbn [snd]. unfold bindM at 1. rewrite Hloop. cbn [rp_last rp_temp chain_State ss_Generation ss_PrevHash].
  destruct x as [xh xg], HCN as [Hn1 Hn2 Hn3 Hn4 Hn5], HCi as [Hi1 Hi2 Hi3 Hi4 Hi5].
  unfold chain_Restore. rewrite Hi3, <- Hn3, Hn5. cbn [negb]. unfold ret.
  destruct (Reader_Close_with (<[restore_reader:=rd']> (w_readers w))) as (rs' & ->).
  eexists _, rs'. split; [done|]. constructor; cbn; try done. by rewrite Hn3.
Qed.
End loop.

(** An empty log restores nothing. *)
Lemma data_generation_open w n : w_closed w = false → ∃ r, data_generation w n = Ok r.
Proof.
  intros Hc. induction n as [|n IH]; cbn [data_generation]; unfold WrittenDataHighWater; rewrite Hc;
    destruct (_ !! _); eauto.
Qed.

Lemma restore_empty max o w W opts inner : LogState max o [] (w, W) → w_faults W = [] → w_nextIndex w < 2 ^ 64 → chain_options opts →
  ∃ rs, restoreChainFromWAL inner opts (w, W) = (Ok (inner, ("", 0)), (with_readers rs w, W)).
Proof.
  intros HL Hf Hn Ho. pose proof (iv_closed _ _ _ _ _ _ _ _ _ _ (ls_inv _ _ _ _ HL)) as Hcl. cbn [fst] in Hcl.
  unfold restoreChainFromWAL, bindM at 1, mget. cbn [fst]. unfold bindM at 1, mlift.
  destruct (data_generation_open w (Z.to_nat (HighGeneration w)) Hcl) as (tg & ->). destruct tg as [g|].
  2: { exists (w_readers w). unfold ret, with_readers. by destruct w. }
  destruct (NewSinkChain_ok ephemeral_chain opts Ho) as (temp & -> & _).
  unfold chain_Restore at 1. cbn [validatePrevHash String.eqb negb].
  destruct (NewReader_spec max o [] (w, W) restore_reader g 0 HL Hf Hn ltac:(lia)) as (rd & Hnew & Hrd & Hpend). cbn [fst snd] in *.
  unfold bindM at 1, merr_map. rewrite Hnew. change (set_readers (w_closed w) (<[restore_reader:=rd]> (w_readers w)) w) with (with_readers (<[restore_reader:=rd]> (w_readers w)) w).
  pose proof (restore_fuel_enough max o [] w W g HL) as Hfuel. rewrite <- Hpend in Hfuel. set (rp := mkReplayed _ None).
  assert (Hall : restore_all (pending [] rd (-1) []) rp = Ok rp) by (by rewrite Hpend).
  destruct (restore_loop_ok max o [] w W g HL Hf Hn _ _ _ _ _ _ (w_readers w) Hrd Hfuel Hall) as (rd' & Hloop).
  unfold closing_reader, bindM at 1, mget. cbn [snd]. unfold bindM at 1. rewrite Hloop. cbn [rp_last rp]. unfold ret.
  destruct (Reader_Close_with w W Hf (<[restore_reader:=rd']> (w_readers w))) as (rs' & ->). by exists rs'.
Qed.

(** ** Healthy stores *)

(** Options with which New does not fail before it opens the log; loss markers are off. *)
Record Startable (opts : StoreOptions) (d : string) (max : Z) : Prop := mkStartable {
  su_valid : store_validate (applyDefaults opts) = None;
  su_digest : ComputeContextDigest (session_context (applyDefaults opts)) = Ok d;
  su_codec : ∃ enc, NewEncoder (if String.eqb (so_CompressionAlgo opts) "" then "none" else so_CompressionAlgo opts)
                               (so_ZstdLevel opts) (so_GzipLevel opts) = Ok enc;
  su_override : so_SinkChainOverride opts = None;
  su_markers : so_EmitExtendedLossReasons opts = false;
  su_size : so_WALSegmentSize (applyDefaults opts) = max + SegmentHeaderSize;
  su_max : bad_max max = false;
  su_marker : 38 ≤ max;
}.

Lemma store_validate_None opts : store_validate opts = None →
  so_WALDir opts ≠ "" ∧ so_AgentID opts ≠ "" ∧ so_SessionID opts ≠ "" ∧ chain_options opts.
Proof.
  unfold store_validate, chain_options, known_algorithm.
  destruct (String.eqb_spec (so_WALDir opts) ""); [done|]. destruct (match so_Mapper opts with MapperNil => true | _ => false end); [done|].
  destruct (match so_Mapper opts with MapperNilPointer _ => true | _ => false end); [done|].
  destruct (negb (so_AllowStubMapper opts) && _); [done|]. destruct (negb (so_Allocator opts)); [done|].
  destruct (String.eqb_spec (so_AgentID opts) ""); [done|]. destruct (String.eqb_spec (so_SessionID opts) ""); [done|].
  destruct (String.eqb_spec (so_HMACKeyID opts) ""); [done|]. destruct (_ =? 0)%nat; [done|].
  destruct (Z.ltb_spec (Z.of_nat (String.length (so_HMACSecret opts))) MinKeyLength); [done|].
  destruct (String.eqb_spec (so_HMACAlgorithm opts) ""), (String.eqb_spec (so_HMACAlgorithm opts) "hmac-sha256"),
    (String.eqb_spec (so_HMACAlgorithm opts) "hmac-sha512"); cbn [orb negb]; intros; split_and!; tauto || done.
Qed.

(** The log holds the event with stamp [ch] last, with anchor [x]. *)
Definition ends_with (L : Slots) (ch : ChainState) (x : string * Z) : Prop :=
  ∃ L0 a i p, L = L0 ++ [(a, i)] ∧ a_live a = true ∧ a_gen a = cs_Generation ch ∧
    last (a_recs a) = Some (AUser (cs_Sequence ch) p) ∧ record_anchor (data_record (cs_Sequence ch) (cs_Generation ch) p) = Some x.

Definition anchored (stamp : option ChainState) (L : Slots) (x : string * Z) (high : Z) : Prop :=
  match stamp with
  | None => L = [] ∧ x = ("", 0) ∧ high = 0
  | Some ch => x.2 = cs_Generation ch ∧ high = cs_Generation ch ∧ ends_with L ch x
  end.

Section healthy.
Context (opts : StoreOptions) (d : string) (max : Z).
Definition eff : StoreOptions := applyDefaults opts.
Definition wal_opts : Options := wal_options eff d.

(** An open store that has accepted the event with stamp [last], its log being [L]. *)
Record Healthy (stamp : option ChainState) (L : Slots) (s : Store * World) : Prop := mkHealthy {
  he_opts : st_opts s.1 = eff;
  he_digest : st_contextDigest s.1 = d;
  he_open : st_closing s.1 = false;
  he_latch : st_fatalLatched s.1 = false;
  he_log : Indexed max wal_opts L (st_w s.1, s.2);
  he_meta : meta_ok wal_opts (w_meta s.2);
  he_recorded : ∀ g q p, has_rec L g (AUser q p) → recorded g p;
  he_chain : Chaining (algorithm_of eff) (st_lastEventGen s.1) (st_sink s.1);
  he_anchor : anchored stamp L (st_lastEventHash s.1, st_lastEventGen s.1) (w_highGen (st_w s.1));
}.

(** A stamp the composite store may give after [stamp]. *)
Definition stamp_ok (stamp : option ChainState) (ch : ChainState) : Prop :=
  is_uint 32 (cs_Generation ch) ∧ 0 ≤ cs_Sequence ch ∧ cs_Sequence ch ≠ sentinel_seq ∧
  match stamp with
  | None => True
  | Some c => cs_Generation c < cs_Generation ch ∨ (cs_Generation c = cs_Generation ch ∧ cs_Sequence c ≤ cs_Sequence ch)
  end.

(** Appends in the order of the stamps. *)
Lemma anchored_order stamp L s x ch q' p' : Indexed max wal_opts L s → anchored stamp L x (w_highGen s.1) → stamp_ok stamp ch →
  has_rec L (cs_Generation ch) (AUser q' p') → q' ≤ cs_Sequence ch.
Proof.
  intros HI Ha (_ & _ & _ & Hs) Hr. destruct stamp as [c|]; cbn in Ha.
  2: { destruct Ha as [-> _]. destruct Hr as (y & Hy & _). by apply not_elem_of_nil in Hy. }
  destruct Ha as (_ & Hh & L0 & a & i & p & HL & _ & Hga & Hlast & _). destruct HI as [_ _ [Hord _ Htop _ _]]. destruct Hs as [Hs|[Hs1 Hs2]].
  - destruct Hr as (y & Hy & Hyg & _). rewrite Forall_forall in Htop. specialize (Htop y Hy). lia.
  - apply has_rec_users in Hr. transitivity (cs_Sequence c); [|done]. rewrite <- Hs1 in Hr. eapply sorted_last_max; [apply (Hord (cs_Generation c)) | | exact Hr].
    rewrite HL, gen_users_app, gen_users_single. cbn [fst]. rewrite Hga, Z.eqb_refl. apply last_Some in Hlast as [rs Hrs].
    unfold a_users. rewrite Hrs, omap_app, app_assoc. cbn. by rewrite last_snoc.
Qed.

Lemma anchored_gen stamp L x high ch : anchored stamp L x high → stamp_ok stamp ch → x.2 ≤ cs_Generation ch ∧ high ≤ cs_Generation ch.
Proof.
  intros Ha (Hg & _ & _ & Hs). unfold is_uint in Hg. destruct stamp as [c|]; cbn in Ha.
  - destruct Ha as (-> & -> & _). lia.
  - destruct Ha as (_ & -> & ->). cbn. lia.
Qed.

(** The log refuses a record that is too large, and accepts every other. *)
Lemma log_append stamp L s x ch final : Indexed max wal_opts L s → anchored stamp L x (w_highGen s.1) → stamp_ok stamp ch →
  cs_Sequence ch ≤ MaxInt64 → w_nextIndex s.1 + 4 < 2 ^ 64 →
  (∃ e, Append (cs_Sequence ch) (cs_Generation ch) final s = (Err e, s) ∧ IsAmbiguous e = false) ∨
  (∃ b s' L0 a i, let L' := L0 ++ [(add_rec (AUser (cs_Sequence ch) final) a, i)] in
    Append (cs_Sequence ch) (cs_Generation ch) final s = (Ok b, s') ∧ Indexed max wal_opts L' s' ∧ a_gen a = cs_Generation ch ∧
    a_live a = true ∧ w_meta s'.2 = w_meta s.2 ∧ w_highGen s'.1 = cs_Generation ch ∧
    ∀ g q' p', has_rec L' g (AUser q' p') → grown L (cs_Sequence ch) (cs_Generation ch) final g q' p').
Proof.
  intros HI Ha Hs Hq Hn. destruct (anchored_gen _ _ _ _ _ Ha Hs) as [_ Hhigh]. pose proof Hs as (Hg & Hq0 & Hqs & _).
  destruct (Z.le_gt_cases (20 + Z.of_nat (length final)) max) as [Hle|Hgt].
  - right. destruct (Indexed_append_exact max wal_opts L s (cs_Sequence ch) (cs_Generation ch) final HI Hn) as (b & s' & L0 & a & i & Happ & HI' & Hrest);
      [|done|].
    { constructor; [done | unfold MaxInt64 in Hq; lia | done | done|]. intros q' p'. by eapply anchored_order. }
    exists b, s', L0, a, i. destruct Hrest as (H5 & H6 & H7 & H8). split_and!; try done. by eapply Append_high.
  - left. pose proof (ls_inv _ _ _ _ (ix_log _ _ _ _ HI)) as Hinv. pose proof (ls_opts _ _ _ _ (ix_log _ _ _ _ HI)) as (_ & Hsz & _).
    unfold Append, bindM at 1, mget. rewrite (iv_closed _ _ _ _ _ _ _ _ _ _ Hinv), (iv_fatal _ _ _ _ _ _ _ _ _ _ Hinv), (iv_opts _ _ _ _ _ _ _ _ _ _ Hinv), Hsz.
    rewrite (proj2 (Z.ltb_lt _ _)) by (unfold recordOverhead; lia). by eexists.
Qed.

(** An accepted event. *)
Lemma healthy_accept stamp L s ev ch s1 : Healthy stamp L s → ev_Chain ev = Some ch → stamp_ok stamp ch → w_nextIndex (st_w s.1) + 4 < 2 ^ 64 →
  AppendEvent ev s = (Ok tt, s1) → ∃ L', Healthy (Some ch) L' s1.
Proof.
  intros HH Hch Hst Hn Hap. destruct HH as [Ho Hd Hcl Hla HI Hm Hrec HC Han].
  pose proof Hap as (ch' & ce & ir & canon & cr & final & b & w & c & [Hch' Hq _ Hwr Hir Hcan Hcr Hfin] & Happ & Hcom & Hs1)%AppendEvent_Ok.
  rewrite Hch in Hch'. injection Hch' as <-. destruct (written_Signed _ _ _ Hwr) as (ch' & ir' & Hch' & HS & Hcq & Hcg).
  rewrite Hch in Hch'. injection Hch' as <-. assert (ir' = ir) as -> by (pose proof (sg_record _ _ _ HS); congruence).
  assert (Hig : ir_Generation ir = cs_Generation ch) by (rewrite (sg_gen _ _ _ HS); done).
  destruct (log_append stamp L (st_w s.1, s.2) _ ch final HI Han Hst Hq Hn) as [(e & He & _)|Hok]; [rewrite Happ in He; done|].
  destruct Hok as (b' & s' & L0 & a & i & Happ' & HI' & Hga & Hal & Hmeta & Hhigh & Hgrown). rewrite Happ in Happ'. injection Happ' as <- <-.
  cbn [fst snd] in *. set (L' := L0 ++ _) in *. exists L'. destruct s1 as [s1 W1]. cbn [fst snd] in *. subst s1.
  assert (Hrecd : recorded (cs_Generation ch) final).
  { exists ce, ir, canon. split_and!; try done. by apply proto_roundtrip. }
  assert (HC' : Chaining (algorithm_of eff) (cs_Generation ch) c).
  { destruct (anchored_gen _ _ _ _ _ Han Hst) as [Hle _]. cbn in Hle.
    destruct (compute_commit _ _ _ IntegrityFormatVersion (cs_Sequence ch) (cs_Generation ch) canon HC Hle) as (cr' & c' & Hcr' & Hcom' & HC').
    rewrite Hcr in Hcr'. injection Hcr' as <-. rewrite Hcom in Hcom'. by injection Hcom' as <-. }
  constructor; cbn; try done; [by rewrite Hmeta | |].
  - intros g q p [Hr|(-> & -> & ->)]%Hgrown; [by eapply Hrec | done].
  - split_and!; [done | done|]. exists L0, (add_rec (AUser (cs_Sequence ch) final) a), i, final. split_and!; try done.
    + cbn. by rewrite last_snoc.
    + unfold record_anchor. cbn. rewrite (proto_roundtrip _ _ Hfin). cbn. rewrite Hir. cbn. by rewrite Hig.
Qed.

(** A refused event. *)
Lemma healthy_refuse stamp L s ev ch e s1 : so_EmitExtendedLossReasons opts = false → Healthy stamp L s → ev_Chain ev = Some ch →
  stamp_ok stamp ch → w_nextIndex (st_w s.1) + 4 < 2 ^ 64 → AppendEvent ev s = (Err e, s1) → Healthy stamp L s1.
Proof.
  intros Hoff HH Hch Hst Hn Hap. pose proof (AppendEvent_Err _ _ _ _ Hap) as [[Hh Hg Hp Hop Hdg Hcl] Hr].
  assert (Hoff' : so_EmitExtendedLossReasons (st_opts s.1) = false) by (by rewrite (he_opts _ _ _ HH)).
  assert (Hlat : st_fatalLatched s1.1 = false).
  { destruct (st_fatalLatched s1.1) eqn:Hf; [exfalso | done].
    destruct (AppendEvent_latches _ _ _ _ Hap Hoff' (he_latch _ _ _ HH) Hf) as (ch' & ce & ir & canon & cr & final & [Hch' Hq _ _ _ _ Hcr _] & Hbad).
    rewrite Hch in Hch'. injection Hch' as <-. pose proof (he_anchor _ _ _ HH) as Han. destruct Hbad as [(e' & s2 & Happ & Hamb)|(e' & c & Hcom)].
    - destruct (log_append stamp L (st_w s.1, s.2) _ ch final (he_log _ _ _ HH) Han Hst Hq Hn) as [(e2 & He & Ha)|(b & s' & _ & _ & _ & He & _)];
        rewrite Happ in He; congruence.
    - destruct (anchored_gen _ _ _ _ _ Han Hst) as [Hle _]. cbn in Hle.
      destruct (compute_commit _ _ _ IntegrityFormatVersion (cs_Sequence ch) (cs_Generation ch) canon (he_chain _ _ _ HH) Hle) as (cr' & c' & Hcr' & Hcom' & _).
      rewrite Hcr in Hcr'. injection Hcr' as <-. congruence. }
  destruct Hr as [Hr|(Hf & Hsk & Hw)]; [congruence|]. destruct (Hw Hoff') as [Hw1 Hw2]. destruct HH as [Ho Hd Hc0 Hla HI Hm Hrec HC Han].
  destruct s as [st W], s1 as [st1 W1]. cbn in *. constructor; cbn; congruence || (rewrite ?Hh, ?Hg, ?Hsk, ?Hw1, ?Hw2; done).
Qed.

(** An acknowledgement by the transport. *)
Lemma healthy_ack stamp L s gen seq r w W : Healthy stamp L s → MarkAcked gen seq (st_w s.1, s.2) = (r, (w, W)) →
  ∃ L', Healthy stamp L' (st_set_w w s.1, W).
Proof.
  intros HH Hm. destruct HH as [Ho Hd Hcl Hla HI Hmt Hrec HC Han].
  destruct (Indexed_ack max wal_opts L _ gen seq HI) as (s' & L' & Hm' & HI' & Hsub & _ & _ & _ & Hmeta').
  pose proof (MarkAcked_high gen seq (st_w s.1, s.2)) as Hh. rewrite Hm in Hm', Hh. injection Hm' as -> <-. cbn in Hh, Hmeta'.
  exists L'. constructor; cbn; try done; [by rewrite Hmeta' | |].
  - intros g q p Hr. eapply Hrec, sublist_has_rec; [exact Hsub | exact Hr].
  - rewrite Hh. destruct stamp as [ch|]; cbn in Han |- *.
    + destruct Han as (H5 & H6 & L0 & a & i & p & -> & Hal & Hrest). split_and!; [done..|].
      destruct (Indexed_ack_live max wal_opts L0 (a, i) (st_w s.1, s.2) gen seq (w, W) L' HI Hal) as [L0' ->]; [by rewrite Hm | done..|].
      by exists L0', a, i, p.
    + destruct Han as (-> & ? & ?). apply sublist_nil_r in Hsub as ->. done.
Qed.

Lemma readInitialAck_ok W : w_faults W = [] → meta_ok wal_opts (w_meta W) → ∃ a, readInitialAckTuple eff W = (Ok a, W).
Proof.
  intros Hf Hm. assert (HR : ReadMeta W = (Err ENOENT, W) ∨ ∃ m, ReadMeta W = (Ok m, W)).
  { unfold ReadMeta, bindM, mget. rewrite io_ok by done. destruct (w_meta W) as [m|]; cbn in Hm; [|by left].
    destruct Hm as (-> & _). cbn. right. by eexists. }
  unfold readInitialAckTuple, bindM, mtry. destruct HR as [->|[m ->]]; cbn [fst snd]; [by eexists|].
  destruct (_ && _); [by eexists|]. destruct (_ && _); [by eexists|]. destruct (negb _); by eexists.
Qed.

Lemma Indexed_with_readers L w W rs : Indexed max wal_opts L (w, W) → Indexed max wal_opts L (with_readers rs w, W).
Proof. intros [HL Hf HC]. constructor; [by apply LogState_readers | done | by destruct HC]. Qed.

(** What a reader of the last generation finds. *)
Lemma ends_with_outs L s ch x : Indexed max wal_opts L s → ends_with L ch x → (∀ g q p, has_rec L g (AUser q p) → recorded g p) →
  ∃ pre r, outs (cs_Generation ch) 0 L = pre ++ [r] ∧ Forall (replayable (cs_Generation ch)) (pre ++ [r]) ∧ record_anchor r = Some x ∧
    0 ≤ cs_Generation ch ∧ high_gen_of L = cs_Generation ch ∧ is_Some (w_perGenDataHighWater s.1 !! cs_Generation ch).
Proof.
  intros HI (L0 & a & i & p & HL & Hal & Hga & Hlast & Hx) Hrec. pose proof (iv_rep _ _ _ _ _ _ _ _ _ _ (ls_inv _ _ _ _ (ix_log _ _ _ _ HI))) as HR.
  assert (Hin : (a, i) ∈ L) by (rewrite HL; apply elem_of_app; right; by apply list_elem_of_singleton).
  pose proof Hlast as Hl2. apply last_Some in Hl2 as [rs Hrs].
  assert (Hu : AUser (cs_Sequence ch) p ∈ a_recs a) by (rewrite Hrs; apply elem_of_app; right; by apply list_elem_of_singleton).
  destruct (Rep_wf _ _ _ _ HR Hin) as (_ & Hg & _ & Hwf). cbn in Hg, Hwf. rewrite Forall_forall in Hwf. destruct (Hwf _ Hu) as [_ [Hq _]].
  exists (outs (cs_Generation ch) 0 L0 ++ omap (deliver (cs_Generation ch) 0) rs), (data_record (cs_Sequence ch) (cs_Generation ch) p).
  assert (Hout : outs (cs_Generation ch) 0 L = (outs (cs_Generation ch) 0 L0 ++ omap (deliver (cs_Generation ch) 0) rs) ++ [data_record (cs_Sequence ch) (cs_Generation ch) p]).
  { rewrite HL, outs_app, outs_cons. unfold seg_out. cbn [fst]. rewrite Hga, Z.eqb_refl, Hrs, omap_app. cbn. rewrite (proj2 (Z.ltb_ge _ _)) by lia.
    by rewrite app_nil_r, app_assoc. }
  split_and!; [done | | done | destruct Hg; lia | unfold high_gen_of; rewrite HL, last_snoc; done|].
  - rewrite <- Hout. apply Forall_forall. intros r Hr. unfold outs in Hr. apply list_elem_of_join in Hr as (l & Hr & Hl).
    apply list_elem_of_fmap in Hl as (y & -> & Hy). unfold seg_out in Hr. destruct (Z.eqb_spec (a_gen y.1) (cs_Generation ch)) as [Hyg|]; [|by apply not_elem_of_nil in Hr].
    apply list_elem_of_omap in Hr as ([q' p'|l] & Hr & Hdel); cbn in Hdel; [|injection Hdel as <-; by left].
    destruct (_ <? _); [done|]. injection Hdel as <-. right. split; [done|]. apply (Hrec _ q'). by exists y.
  - destruct HI as [_ _ [_ _ _ Hd _]]. destruct (Hd (a, i) (cs_Sequence ch) Hin) as (h & Hh & _); [by eapply user_of_rec|].
    cbn in Hh. rewrite Hga in Hh. by exists h.
Qed.

(** Restoring after the log was opened again. *)
Lemma healthy_restore stamp L x w W inner : Startable opts d max → Indexed max wal_opts L (w, W) → w_nextIndex w < 2 ^ 64 →
  w_highGen w = high_gen_of L → anchored stamp L x (high_gen_of L) → (∀ g q p, has_rec L g (AUser q p) → recorded g p) →
  Chaining (algorithm_of eff) 0 inner →
  ∃ c rs, restoreChainFromWAL inner eff (w, W) = (Ok (c, x), (with_readers rs w, W)) ∧ Chaining (algorithm_of eff) x.2 c.
Proof.
  intros HS HI Hn Hh Ha Hrec HC. destruct (store_validate_None _ (su_valid _ _ _ HS)) as (_ & _ & _ & Hco).
  pose proof (ix_log _ _ _ _ HI) as HL. pose proof (ix_nofault _ _ _ _ HI) as Hf. cbn in Hf. destruct stamp as [ch|]; cbn in Ha.
  - destruct Ha as (Hx2 & Hhg & He). destruct (ends_with_outs _ _ _ _ HI He Hrec) as (pre & r & Hout & Hall & Hra & Hg & _ & Hd).
    rewrite Hx2. eapply (restore_ok max wal_opts L w W (cs_Generation ch) HL Hf Hn); try done. unfold HighGeneration. congruence.
  - destruct Ha as (-> & -> & _). destruct (restore_empty max wal_opts w W eff inner HL Hf Hn Hco) as (rs & Hr). by exists inner, rs.
Qed.

(** New, once the log is open. *)
Lemma New_opened stamp L x W0 w W : Startable opts d max → Open wal_opts W0 = (Ok w, W) → Indexed max wal_opts L (w, W) →
  meta_ok wal_opts (w_meta W) → w_nextIndex w < 2 ^ 64 → w_highGen w = high_gen_of L → anchored stamp L x (high_gen_of L) →
  (∀ g q p, has_rec L g (AUser q p) → recorded g p) →
  ∃ s1 tr lv, store_New false [] opts W0 = (Ok (s1, tr, lv), W) ∧ Healthy stamp L (s1, W) ∧
    (st_lastEventHash s1, st_lastEventGen s1) = x ∧ w_nextIndex (st_w s1) = w_nextIndex w.
Proof.
  intros HS Hopen HI Hmt Hn Hhg Han Hrec. destruct (store_validate_None _ (su_valid _ _ _ HS)) as (Hdir & Hag & Hse & Hco).
  destruct (NewSinkChain_ok production_chain eff Hco) as (inner & Hinner & HCi).
  destruct (healthy_restore stamp L x w W inner HS HI Hn Hhg Han Hrec HCi) as (c & rs & Hres & HCc).
  destruct (readInitialAck_ok W (ix_nofault _ _ _ _ HI) Hmt) as (ack & Hack). destruct (su_codec _ _ _ HS) as [enc Henc].
  assert (Hva : WtpSession.validate (transport_options eff ack d enc) = true).
  { unfold WtpSession.validate. change (to_AgentID (transport_options eff ack d enc)) with (so_AgentID (applyDefaults opts)).
    change (to_SessionID (transport_options eff ack d enc)) with (so_SessionID (applyDefaults opts)).
    by rewrite (proj2 (String.eqb_neq _ _) Hag), (proj2 (String.eqb_neq _ _) Hse). }
  destruct x as [xh xg]. eexists _, _, _. split; [|split].
  - unfold store_New. fold eff. pose proof (su_valid _ _ _ HS) as Hv. fold eff in Hv. rewrite Hv, Hinner. pose proof (su_digest _ _ _ HS) as Hdg.
    fold eff in Hdg. rewrite Hdg. unfold bindM at 1, openWALWithIdentityRecovery, bindM at 1, mtry. fold wal_opts. rewrite Hopen. cbn [fst snd ret].
    change (so_SinkChainOverride eff) with (so_SinkChainOverride opts). rewrite (su_override _ _ _ HS).
    unfold bindM at 1, on_new_wal. rewrite Hres. unfold closing_wal, bindM at 1. rewrite Hack. cbv iota beta.
    change (so_CompressionAlgo eff) with (so_CompressionAlgo opts). change (so_ZstdLevel eff) with (so_ZstdLevel opts).
    change (so_GzipLevel eff) with (so_GzipLevel opts). rewrite Henc. unfold WtpSession.New. rewrite Hva. reflexivity.
  - constructor; cbn; try done; [by apply Indexed_with_readers | by rewrite Hhg].
  - done.
Qed.

(** New on the disk of a healthy store continues where that store was. *)
Lemma healthy_New stamp L s : Startable opts d max → Healthy stamp L s → w_nextIndex (st_w s.1) + 3 < 2 ^ 64 →
  ∃ s1 tr lv W, store_New false [] opts s.2 = (Ok (s1, tr, lv), W) ∧ Healthy stamp L (s1, W) ∧
    st_lastEventHash s1 = st_lastEventHash s.1 ∧ st_lastEventGen s1 = st_lastEventGen s.1.
Proof.
  intros HS HH Hn. destruct HH as [Ho Hd Hcl Hla HI Hmt Hrec HC Han].
  destruct (Indexed_reopen max wal_opts L (st_w s.1, s.2) HI Hmt Hn) as (w & W & Hopen & HI' & Hmeta & Hhg & Hnx). cbn [snd fst] in *.
  pose proof (next_of_bound _ _ _ _ (ix_log _ _ _ _ HI) Hn) as Hnb.
  assert (Hhigh : w_highGen (st_w s.1) = high_gen_of L).
  { destruct stamp as [ch|]; cbn in Han; [|by destruct Han as (-> & _ & ->)]. destruct Han as (_ & -> & L0 & a & i & p & -> & _ & Hga & _).
    unfold high_gen_of. by rewrite last_snoc. }
  rewrite Hhigh in Han. rewrite <- Hmeta in Hmt.
  destruct (New_opened stamp L _ s.2 w W HS Hopen HI' Hmt ltac:(lia) Hhg Han Hrec) as (s1 & tr & lv & Hnew & HH & [= Hh Hg] & _).
  by exists s1, tr, lv, W.
Qed.

(** *** The first start *)

(** A directory in which no log was ever opened. *)
Definition pristine (W : World) : Prop := w_dir W = ∅ ∧ w_meta W = None ∧ w_faults W = [].

Lemma Open_pristine W : Startable opts d max → pristine W →
  ∃ w W', Open wal_opts W = (Ok w, W') ∧ Indexed max wal_opts [] (w, W') ∧ meta_ok wal_opts (w_meta W') ∧ w_highGen w = 0 ∧ w_nextIndex w = 1.
Proof.
  intros HS (Hdir & Hmeta & Hf). destruct (store_validate_None _ (su_valid _ _ _ HS)) as (Hd0 & _ & Hse & _).
  pose proof (su_size _ _ _ HS) as Hsz. fold eff in Hd0, Hse, Hsz.
  set (m := mkMeta metaFormatVersion 0 0 false (o_SessionID wal_opts) (o_KeyFingerprint wal_opts) (o_ContextDigest wal_opts)).
  assert (Hio : ∀ W, w_faults W = [] → io W = (Ok tt, W)) by (intros W0 Hf0; by apply io_ok).
  assert (Hls : ∀ W, w_faults W = [] → w_dir W = ∅ → os_ReadDir W = (Ok [], W)).
  { intros W0 Hf0 Hd1. unfold os_ReadDir, bindM, mget. by rewrite Hio, Hd1, dom_empty_L, elements_empty. }
  assert (Hwr : ∀ M, WriteMeta M W = (Ok tt, set_meta (stamp_version M) W)).
  { intros M. unfold WriteMeta, bindM, mtry, mput, ret, syncDir. 
    repeat (rewrite (Hio W) by done; cbn [fst snd]; cbv beta iota). by rewrite Hio. }
  assert (Hrec : recover (new_wal wal_opts max None, set_meta m W) = (Ok tt, (set_nextIndex 1 (new_wal wal_opts max None), set_meta m W))).
  { unfold recover, bindM at 1, lift. cbn [snd]. by rewrite Hls. }
  exists (set_nextIndex 1 (new_wal wal_opts max None)), (set_meta m W). split.
  - unfold Open. change (o_Dir wal_opts) with (so_WALDir eff). change (o_SegmentSize wal_opts) with (so_WALSegmentSize eff).
    rewrite (proj2 (String.eqb_neq _ _) Hd0), Hsz. pose proof (su_marker _ _ _ HS). rewrite (proj2 (Z.leb_gt _ _)) by (unfold SegmentHeaderSize; lia).
    replace (max + SegmentHeaderSize - SegmentHeaderSize) with max by lia. rewrite (su_max _ _ _ HS). cbn [o_SyncMode wal_opts wal_options].
    unfold bindM at 1, os, merr_map. rewrite Hio by done. unfold bindM at 1, mtry.
    assert (HRM : ReadMeta W = (Err ENOENT, W)) by (unfold ReadMeta, bindM, mget; by rewrite Hio, Hmeta). rewrite HRM. cbn [fst snd].
    assert (Hse' : String.eqb (o_SessionID wal_opts) EmptyString = false) by exact (proj2 (String.eqb_neq _ _) Hse). rewrite Hse'. cbn [negb orb].
    unfold bindM at 1, bindM at 1, adopt_identity, bindM at 1, segmentsDirHasRecords, os, merr_map, bindM at 1. rewrite Hls by done.
    cbn [any_records ret]. rewrite Hwr. change (stamp_version _) with m. cbn [ret]. by rewrite Hrec.
  - split_and!; [|by unfold meta_ok, m; cbn|done|done]. constructor; [|done|].
    + constructor; [|by split_and!|apply HS..|cbn; lia]. constructor; try done; try (by constructor).
      constructor; [exact Hdir | constructor..].
    + constructor; [intros g0; constructor | constructor | constructor | |]; intros x; [intros q|]; intros Hx; by apply not_elem_of_nil in Hx.
Qed.

(** New in a pristine directory. *)
Lemma New_pristine W : Startable opts d max → pristine W → ∃ s tr lv W', store_New false [] opts W = (Ok (s, tr, lv), W') ∧
  Healthy None [] (s, W') ∧ w_nextIndex (st_w s) = 1.
Proof.
  intros HS HW. destruct (Open_pristine W HS HW) as (w & W' & Hopen & HI & Hmt & Hhg & Hnx).
  destruct (New_opened None [] ("", 0) W w W' HS Hopen HI Hmt) as (s & tr & lv & Hnew & HH & _ & Hnx'); [lia | done | done | |].
  - intros g q p (x & Hx & _). by apply not_elem_of_nil in Hx.
  - exists s, tr, lv, W'. by rewrite <- Hnx.
Qed.

(** ** Lives *)

(** Events with increasing stamps, acknowledgements by the transport, and restarts; the
    list is the appends that were accepted, each with the states before and after it. *)
Record Accepted := mkAccepted { at_event : Event EventRest; at_before : Store * World; at_after : Store * World }.
Inductive life : option ChainState → Store * World → list Accepted → option ChainState → Store * World → Prop :=
| life_done stamp s : life stamp s [] stamp s
| life_accept stamp s ev ch s1 l stamp' s' : ev_Chain ev = Some ch → stamp_ok stamp ch → w_nextIndex (st_w s.1) + 4 < 2 ^ 64 →
    AppendEvent ev s = (Ok tt, s1) → life (Some ch) s1 l stamp' s' → life stamp s (mkAccepted ev s s1 :: l) stamp' s'
| life_refuse stamp s ev ch e s1 l stamp' s' : ev_Chain ev = Some ch → stamp_ok stamp ch → w_nextIndex (st_w s.1) + 4 < 2 ^ 64 →
    AppendEvent ev s = (Err e, s1) → life stamp s1 l stamp' s' → life stamp s l stamp' s'
| life_ack stamp s gen seq r w W l stamp' s' : MarkAcked gen seq (st_w s.1, s.2) = (r, (w, W)) →
    life stamp (st_set_w w s.1, W) l stamp' s' → life stamp s l stamp' s'
| life_restart stamp s s1 tr lv W l stamp' s' : w_nextIndex (st_w s.1) + 3 < 2 ^ 64 →
    store_New false [] opts s.2 = (Ok (s1, tr, lv), W) → life stamp (s1, W) l stamp' s' → life stamp s l stamp' s'.

(** [ces] is what the accepted appends gave to the log. *)
Definition given (l : list Accepted) (ces : list Compact) : Prop :=
  Forall2 (λ a ce, logged (at_event a) ce (at_before a) (at_after a)) l ces.

Lemma life_linked stamp L s l stamp' s' : Startable opts d max → Healthy stamp L s → life stamp s l stamp' s' →
  (∃ ces, given l ces ∧ wire_linked (st_lastEventGen s.1) (st_lastEventHash s.1) (omap ce_Integrity ces)) ∧
  (w_nextIndex (st_w s'.1) + 3 < 2 ^ 64 → ∃ s2 tr lv W, store_New false [] opts s'.2 = (Ok (s2, tr, lv), W) ∧
     st_lastEventHash s2 = st_lastEventHash s'.1 ∧ st_lastEventGen s2 = st_lastEventGen s'.1).
Proof.
  intros HS HH Hlife. revert L HH.
  induction Hlife as [stamp s | stamp s ev ch s1 l stamp' s' Hch Hst Hn Hap _ IH | stamp s ev ch e s1 l stamp' s' Hch Hst Hn Hap _ IH
    | stamp s gen seq r w W l stamp' s' Hm _ IH | stamp s s1 tr lv W l stamp' s' Hn Hnew _ IH]; intros L HH.
  - split; [exists []; split; [constructor | done]|]. intros Hn. destruct (healthy_New stamp L s HS HH Hn) as (s1 & tr & lv & W & ? & _ & ? & ?). by exists s1, tr, lv, W.
  - destruct (healthy_accept stamp L s ev ch s1 HH Hch Hst Hn Hap) as [L' HH']. destruct (IH L' HH') as [(ces & Hgv & Hl) Hend]. split; [|exact Hend].
    destruct (accepted_state _ _ _ Hap) as (ce & ir & Hw & HSg & Hh & Hg & _). exists (ce :: ces).
    split; [by constructor; [apply accepted_logged|]|].
    cbn. rewrite (sg_record _ _ _ HSg). rewrite Hh, Hg in Hl. split; [exact (sg_prev _ _ _ HSg) | exact Hl].
  - pose proof (healthy_refuse stamp L s ev ch e s1 (su_markers _ _ _ HS) HH Hch Hst Hn Hap) as HH'.
    destruct (AppendEvent_Err _ _ _ _ Hap) as [[Hh Hg _ _ _ _] _]. rewrite <- Hh, <- Hg. by apply (IH L).
  - destruct (healthy_ack stamp L s gen seq r w W HH Hm) as [L' HH']. by apply (IH L').
  - destruct (healthy_New stamp L s HS HH Hn) as (s1' & tr' & lv' & W' & Hnew' & HH' & Hh & Hg). rewrite Hnew in Hnew'.
    injection Hnew' as <- <- <- <-. cbn [fst] in *. rewrite <- Hh, <- Hg. by apply (IH L).
Qed.

(** C3. The chain of a session survives restarts. On a file system that does not fail, New
    succeeds in an empty directory. Let the store it returns, and the stores opened after it
    on the same directory with the same options, with extended loss markers off, accept and
    refuse events whose stamps never decrease, across the restarts too, with acknowledgements
    (and the garbage collection they cause) and with crashes between two operations. Then what
    the accepted appends gave to the log, whose bytes each left the log as Append leaves it on
    them, forms one chain: each record carries the event hash of the event accepted before it,
    in whichever process, or nothing when it opens a generation. And when it is over, New
    succeeds on what is on disk, and the new store is chained to the last accepted event. *)
Theorem restart_continues_chain W :
  Startable opts d max → pristine W →
  ∃ s tr lv W0, store_New false [] opts W = (Ok (s, tr, lv), W0) ∧
    ∀ l stamp s', life None (s, W0) l stamp s' →
      (∃ ces, given l ces ∧ wire_linked 0 "" (omap ce_Integrity ces)) ∧
      (w_nextIndex (st_w s'.1) + 3 < 2 ^ 64 → ∃ s2 tr lv W2, store_New false [] opts s'.2 = (Ok (s2, tr, lv), W2) ∧
         st_lastEventHash s2 = st_lastEventHash s'.1 ∧ st_lastEventGen s2 = st_lastEventGen s'.1).
Proof.
  intros HS HW. destruct (New_pristine W HS HW) as (s & tr & lv & W0 & Hnew & HH & _). exists s, tr, lv, W0. split; [done|].
  intros l stamp s' Hlife. pose proof (he_anchor _ _ _ HH) as (_ & [= Hh Hg] & _). cbn [fst] in Hh, Hg.
  pose proof (life_linked None [] (s, W0) l stamp s' HS HH Hlife) as Hl. cbn [fst] in Hl. by rewrite Hh, Hg in Hl.
Qed.
End healthy.
End restore.

(** ** A concrete store *)

(** The libraries, instantiated: events are written bit by bit, hashes are checksums. *)
#[export] Instance IntegrityRecord_eq_dec : EqDecision IntegrityRecord.
Proof. solve_decision. Defined.
#[export] Instance IntegrityRecord_countable : Countable IntegrityRecord.
Proof.
  refine (inj_countable' (λ r, (ir_FormatVersion r, ir_Sequence r, ir_Generation r, ir_PrevHash r, ir_EventHash r, ir_ContextDigest r, ir_KeyFingerprint r))
    (λ '(a, b, c, e, f, g, h), mkIntegrity a b c e f g h) _). by intros [].
Defined.
#[export] Instance Compact_eq_dec : EqDecision Compact.
Proof. solve_decision. Defined.
#[export] Instance Compact_countable : Countable Compact.
Proof.
  refine (inj_countable' (λ r, (ce_Sequence r, ce_Generation r, ce_TimestampUnixNanos r, ce_OcsfClassUid r, ce_OcsfActivityId r, ce_Payload r, ce_Integrity r))
    (λ '(a, b, c, e, f, g, h), mkCompact a b c e f g h) _). by intros [].
Defined.

Fixpoint pos_bytes (p : positive) : bytes :=
  match p with xH => [] | xO p => "0"%char :: pos_bytes p | xI p => "1"%char :: pos_bytes p end.
Fixpoint bytes_pos (b : bytes) : positive :=
  match b with [] => xH | c :: b => if Ascii.eqb c "0" then xO (bytes_pos b) else xI (bytes_pos b) end.

Lemma bytes_pos_bytes p : bytes_pos (pos_bytes p) = p.
Proof. induction p as [p IH|p IH|]; cbn; by rewrite ?IH. Qed.

Definition checksum (s : string) : ascii := ascii_of_nat (foldr (λ c n, (nat_of_ascii c + 3 * n) `mod` 251)%nat 7%nat (String.list_ascii_of_string s)).
Definition demo_digest (n : nat) (s : string) : string := String.string_of_list_ascii (replicate n (checksum s)).

#[export] Instance demo_events : EventLib := {|
  EventRest := unit;
  proto_marshal_event := λ ce, Some (pos_bytes (encode ce));
  proto_marshal_deterministic := λ ce, Some (pos_bytes (encode ce));
  proto_unmarshal_compact := λ b, decode (bytes_pos b);
  json_Marshal_event := λ _, None;
  proto_marshal_batch := λ _, None;
  zstd_writer := λ _, None;
  gzip_writer := λ _, None;
|}.
#[export] Instance demo_event_laws : EventLaws.
Proof. constructor. intros ce b [= <-]. cbn. by rewrite bytes_pos_bytes, decode_encode. Qed.
#[export] Instance demo_sha : ShaLib := {| sha256_Sum256 := demo_digest 1 |}.
#[export] Instance demo_hmac : HmacLib := {| hmac_sha256 := λ k m, demo_digest 32 (k +:+ m); hmac_sha512 := λ k m, demo_digest 64 (k +:+ m) |}.
#[export] Instance demo_hmac_laws : HmacLaws.
Proof. by constructor. Qed.
#[export] Instance demo_store_wire : WtpWire := {| DecisionContext := unit; ValidateSessionInit := λ _, true; ValidateServerMessage := λ _, None |}.

Definition demo_key : string := "0123456789abcdef0123456789abcdef".
Definition demo_store_opts : StoreOptions :=
  mkStoreOptions "wal" 1200 4800 (MapperOf (λ _, Ok (mkMapped 1 2 []))) true "agent" "session" "key" None "kid" demo_key "" 0 0 0 "" "" false
    0 0 0 false "" 0 0 0 0 false None false false.
Definition demo_event (seq gen : Z) : Event EventRest := mkEvent (Some (mkStamp seq gen)) 1000000000 tt.

Definition demo_world : World := mkWorld ∅ ∅ 0 None [].


(** A run: two events accepted and one refused in the first process, an acknowledgement that
    collects the first segment, a restart, and one more event. *)
Definition got {A : Type} (o : option A) : match o return Type with Some _ => A | None => unit end := match o with Some a => a | None => tt end.
Definition started (W : World) : option (Store * World) :=
  match store_New false [] demo_store_opts W with (Ok (s, _, _), W) => Some (s, W) | _ => None end.
Definition acked (gen seq : Z) (s : Store * World) : Store * World :=
  let '(_, (w, W)) := MarkAcked gen seq (st_w s.1, s.2) in (st_set_w w s.1, W).

Definition demo_New := Eval vm_compute in started demo_world.
Definition demo_s0 : Store * World := Eval cbv in got demo_New.
Definition demo_s1 := Eval vm_compute in (AppendEvent (demo_event 1 1) demo_s0).2.
Definition demo_s2 := Eval vm_compute in (AppendEvent (demo_event 2 1) demo_s1).2.
Definition demo_early : Event EventRest := mkEvent (Some (mkStamp 3 1)) (-1) tt.
Definition demo_s3 := Eval vm_compute in (AppendEvent demo_early demo_s2).2.
Definition demo_s4 := Eval vm_compute in acked 1 1 demo_s3.
Definition demo_reopen := Eval vm_compute in started demo_s4.2.
Definition demo_s5 : Store * World := Eval cbv in got demo_reopen.
Definition demo_s6 := Eval vm_compute in (AppendEvent (demo_event 3 1) demo_s5).2.

Definition demo_accepted : list Accepted :=
  [mkAccepted (demo_event 1 1) demo_s0 demo_s1; mkAccepted (demo_event 2 1) demo_s1 demo_s2; mkAccepted (demo_event 3 1) demo_s5 demo_s6].

Lemma demo_life : life demo_store_opts None demo_s0 demo_accepted (Some (mkStamp 3 1)) demo_s6.
Proof.
  eapply (life_accept _ _ _ _ (mkStamp 1 1) demo_s1); [reflexivity | by vm_compute | by vm_compute | by vm_compute |].
  eapply (life_accept _ _ _ _ (mkStamp 2 1) demo_s2); [reflexivity | vm_compute; naive_solver | by vm_compute | by vm_compute |].
  eapply (life_refuse _ _ _ demo_early (mkStamp 3 1) _ demo_s3); [reflexivity | vm_compute; naive_solver | by vm_compute | by vm_compute |].
  eapply (life_ack _ _ _ 1 1 _ (st_w demo_s4.1) demo_s4.2); [by vm_compute|].
  eapply (life_restart _ _ _ demo_s5.1 _ _ demo_s5.2); [by vm_compute | by vm_compute |].
  eapply (life_accept _ _ _ _ (mkStamp 3 1) demo_s6); [reflexivity | vm_compute; naive_solver | by vm_compute | by vm_compute |].
  apply life_done.
Qed.

Lemma demo_startable : Startable demo_store_opts "04" 1184.
Proof. constructor; try (vm_compute; reflexivity); [eexists; vm_compute; reflexivity | by vm_compute]. Qed.

Lemma demo_New_eq : started demo_world = Some demo_s0.
Proof. vm_compute. reflexivity. Qed.

(** The run above satisfies the theorem: three records, the third written after the restart
    and chained to the second. *)
Lemma restart_continues_chain_witness :
  pristine demo_world ∧ ∃ ces, given demo_accepted ces ∧ length ces = 3%nat ∧ wire_linked 0 "" (omap ce_Integrity ces).
Proof.
  split; [done|].
  destruct (restart_continues_chain demo_store_opts "04" 1184 demo_world demo_startable ltac:(done)) as (s & tr & lv & W0 & Hn & Hl).
  pose proof demo_New_eq as Hs. unfold started in Hs. rewrite Hn in Hs. injection Hs as Hs HW. 
  destruct (Hl demo_accepted (Some (mkStamp 3 1)) demo_s6) as [(ces & Hg & Hw) _]; [rewrite Hs, HW; exact demo_life|].
  exists ces. split; [exact Hg|]. split; [|exact Hw]. symmetry. exact (Forall2_length _ _ _ Hg).
Defined.

(** A refused event: it is dated before the epoch. *)
Lemma append_event_failures_witness :
  st_lastEventHash demo_s3.1 = st_lastEventHash demo_s2.1 ∧ st_sink demo_s3.1 = st_sink demo_s2.1 ∧
  st_w demo_s3.1 = st_w demo_s2.1 ∧ demo_s3.2 = demo_s2.2.
Proof.
  destruct (append_event_failures demo_early demo_s2 (ErrCompactEncode ErrInvalidTimestamp) demo_s3 ltac:(vm_compute; reflexivity))
    as ((Hh & _ & _) & [[Hf _]|(_ & Hs & Hw)]); [discriminate Hf|].
  destruct (Hw eq_refl) as [Hw1 Hw2]. exact (conj Hh (conj Hs (conj Hw1 Hw2))).
Defined.

(** ** Where the store differs from its comments *)

(** An event whose generation is below the chain's is in the log before Commit refuses it,
    and the store is latched. *)
Definition demo_s7 := Eval vm_compute in (AppendEvent (demo_event 1 2) demo_s0).2.

Example backwards_generation_reaches_log :
  let '(r, s) := AppendEvent (demo_event 2 1) demo_s7 in
  r = Err (ErrChainCommit ErrBackwardsGeneration) ∧ st_fatalLatched s.1 = true ∧
  w_totalBytes (st_w s.1) = 2 * w_totalBytes (st_w demo_s7.1).
Proof. vm_compute. done. Qed.

(** After the first segment of the generation was collected, the HMAC chain restored from
    the log is not the one the previous process had; the wire chain is. *)
Example collection_changes_restored_hmac :
  sc_prevHash (st_sink demo_s5.1) ≠ sc_prevHash (st_sink demo_s4.1) ∧ st_lastEventHash demo_s5.1 = st_lastEventHash demo_s4.1.
Proof. vm_compute. done. Qed.

(** An instant in 1653 passes the check for instants before the epoch: UnixNano wraps. *)
Example ancient_timestamp_accepted :
  let ev : Event EventRest := mkEvent (Some (mkStamp 1 1)) (-10000000000 * 10 ^ 9) tt in
  compact_Encode (so_Mapper demo_store_opts) ev = Ok (mkCompact 1 1 8446744073709551616 1 2 [] None).
Proof. vm_compute. done. Qed.
