(* ===== verification/CompositeStore.v ===== *)
(** * The composite event store
    (internal/store: composite/composite.go, the error type of integrity_wrapper.go)

    One allocator stamps every event with a sequence number and a generation, and the
    stamped event goes to the primary store and to every other sink. Appends run side by
    side under the read side of a lock; rotating the generation takes the write side. The
    sinks are an interface, of which the watchtower store is one implementation. *)

From S2P Require Import Prelude AuditChain WalFrame WalFs Wal WalReader.
From S2P Require Import WtpBatch WtpAck WtpSession WtpCanonical WtpStore WtpStoreProps WtpRestart.
Open Scope Z_scope.

(** ** Errors *)

(** An error of a sink: one that wraps nothing, one that wraps another, or a
    [FatalIntegrityError]. *)
Inductive GoErr :=
| ErrPlain (msg : string)
| ErrWraps (msg : string) (inner : GoErr)
| ErrAlloc (e : Alloc.AllocError)
| ErrWatchtower (e : StoreErr)
| FatalIntegrityError (Op : string) (Err : GoErr).

(** [errors.As(err, &fatal)]: the first [FatalIntegrityError] of the chain. *)
Fixpoint as_fatal (e : GoErr) : option GoErr :=
  match e with
  | FatalIntegrityError _ _ => Some e
  | ErrWraps _ inner => as_fatal inner
  | _ => None
  end.

(** ** Sinks *)

(** [store.EventStore], the part that AppendEvent and Close use. *)
Class EventStore (Rest S : Type) := {
  sink_AppendEvent : Event Rest → S → option GoErr * S;
  sink_Close : S → option GoErr * S;
}.

Section composite.
Context {Rest S : Type} `{!EventStore Rest S}.

Record CompositeStore := mkComposite {
  primary : option S;
  others : list S;
  allocator : Alloc.SequenceAllocator;
  onAppendError : bool; (** a hook is installed *)
}.

Definition composite_New (primary : option S) (others : list S) : CompositeStore :=
  mkComposite primary others Alloc.NewSequenceAllocator false.

Definition SetAppendErrorHook (hook : bool) (s : CompositeStore) : CompositeStore :=
  mkComposite (primary s) (others s) (allocator s) hook.

Definition set_sinks (p : option S) (os : list S) (s : CompositeStore) : CompositeStore :=
  mkComposite p os (allocator s) (onAppendError s).
Definition set_allocator (a : Alloc.SequenceAllocator) (s : CompositeStore) : CompositeStore :=
  mkComposite (primary s) (others s) a (onAppendError s).

(** ** Appending *)

Definition stampForSink (ch : ChainState) (ev : Event Rest) : Event Rest :=
  mkEvent (Some ch) (ev_Timestamp ev) (ev_Rest ev).

(** [firstErr] and [hookErr] after a sink answered. *)
Definition note_error (err : option GoErr) (acc : option GoErr * option GoErr) : option GoErr * option GoErr :=
  match err with
  | None => acc
  | Some e =>
      let firstErr := match acc.1 with None => Some e | f => f end in
      let hookErr := match acc.2 with None => Some e | h => h end in
      (firstErr, match as_fatal e with Some f => Some f | None => hookErr end)
  end.

Fixpoint fan_out (ev : Event Rest) (sinks : list S) (acc : option GoErr * option GoErr) : (option GoErr * option GoErr) * list S :=
  match sinks with
  | [] => (acc, [])
  | o :: sinks =>
      let '(err, o) := sink_AppendEvent ev o in
      let '(acc, sinks) := fan_out ev sinks (note_error err acc) in
      (acc, o :: sinks)
  end.

(** The error returned, the errors given to the hook, and the store. *)
Definition composite_AppendEvent (ev : Event Rest) (s : CompositeStore) : (option GoErr * list GoErr) * CompositeStore :=
  match Alloc.Next (allocator s) with
  | (Err e, a) =>
      let fatalErr := FatalIntegrityError "audit sequence allocate" (ErrAlloc e) in
      ((Some fatalErr, if onAppendError s then [fatalErr] else []), set_allocator a s)
  | (Ok (seq, gen), a) =>
      let stamped := stampForSink (mkStamp seq gen) ev in
      let '(acc, p) :=
        match primary s with
        | None => ((None, None), None)
        | Some p => let '(err, p) := sink_AppendEvent stamped p in (note_error err (None, None), Some p)
        end in
      let '((firstErr, hookErr), os) := fan_out stamped (others s) acc in
      ((firstErr, match hookErr with Some h => if onAppendError s then [h] else [] | None => [] end),
       set_sinks p os (set_allocator a s))
  end.

(** ** The allocator's operations, and Close *)

Definition composite_NextGeneration (s : CompositeStore) : Result Alloc.AllocError Z * CompositeStore :=
  let '(r, a) := Alloc.NextGeneration (allocator s) in (r, set_allocator a s).

Definition composite_State (s : CompositeStore) : Alloc.AllocatorState := Alloc.State (allocator s).

Definition composite_Restore (st : Alloc.AllocatorState) (s : CompositeStore) : Result Alloc.AllocError unit * CompositeStore :=
  let '(r, a) := Alloc.Restore st (allocator s) in (r, set_allocator a s).

Fixpoint close_all (sinks : list S) (firstErr : option GoErr) : option GoErr * list S :=
  match sinks with
  | [] => (firstErr, [])
  | o :: sinks =>
      let '(err, o) := sink_Close o in
      let '(firstErr, sinks) := close_all sinks (match firstErr with None => err | f => f end) in
      (firstErr, o :: sinks)
  end.

Definition composite_Close (s : CompositeStore) : option GoErr * CompositeStore :=
  let '(firstErr, p) := match primary s with None => (None, None) | Some p => let '(e, p) := sink_Close p in (e, Some p) end in
  let '(firstErr, os) := close_all (others s) firstErr in
  (firstErr, set_sinks p os s).

(** The sinks in the order of the fan-out. *)
Definition sinks (s : CompositeStore) : list S := option_list (primary s) ++ others s.

(** What is returned and what the hook gets, from the errors of the sinks in order: the first
    error; and the last fatal error, or the first error when none is fatal. *)
Definition hook_error (errs : list GoErr) : option GoErr :=
  match last (omap as_fatal errs) with Some f => Some f | None => head errs end.

Lemma note_error_spec err errs : note_error err (head errs, hook_error errs) =
  (head (errs ++ option_list err), hook_error (errs ++ option_list err)).
Proof.
  destruct err as [e|]; cbn; [|by rewrite app_nil_r]. unfold hook_error. rewrite omap_app, head_app. cbn.
  destruct (as_fatal e) as [f|] eqn:Hf; cbn; rewrite ?app_nil_r, ?last_snoc.
  - by destruct errs.
  - destruct (last (omap as_fatal errs)); by destruct errs.
Qed.

Lemma fan_out_spec ev ss errs : fan_out ev ss (head errs, hook_error errs) =
  ((head (errs ++ omap (λ o, (sink_AppendEvent ev o).1) ss), hook_error (errs ++ omap (λ o, (sink_AppendEvent ev o).1) ss)),
   (λ o, (sink_AppendEvent ev o).2) <$> ss).
Proof.
  revert errs. induction ss as [|o ss IH]; intros errs; cbn [fan_out omap list_omap fmap list_fmap]; [by rewrite app_nil_r|].
  destruct (sink_AppendEvent ev o) as [err o']. cbn [fst snd]. rewrite note_error_spec, IH.
  destruct err as [e|]; cbn; [|by rewrite app_nil_r]. by rewrite <- !app_assoc.
Qed.

(** What AppendEvent does. When the allocator is exhausted no sink sees the event, and a
    fatal error is returned. Otherwise every sink gets the event exactly once, under the
    same fresh stamp, whatever the other sinks answer; the first error in the order of the
    sinks is returned, and the hook is called once, with the last fatal error, or with the
    first error when none is fatal; when no sink fails nothing is returned or reported. *)
Theorem composite_append_spec ev s :
  let errs ch := omap (λ o, (sink_AppendEvent (stampForSink ch ev) o).1) (sinks s) in
  let '((r, hook), s') := composite_AppendEvent ev s in
  onAppendError s' = onAppendError s ∧ allocator s' = (Alloc.Next (allocator s)).2 ∧
  match (Alloc.Next (allocator s)).1 with
  | Err e => r = Some (FatalIntegrityError "audit sequence allocate" (ErrAlloc e)) ∧ sinks s' = sinks s ∧
             hook = (if onAppendError s then option_list r else [])
  | Ok (seq, gen) =>
      sinks s' = (λ o, (sink_AppendEvent (stampForSink (mkStamp seq gen) ev) o).2) <$> sinks s ∧
      r = head (errs (mkStamp seq gen)) ∧
      hook = (if onAppendError s then option_list (hook_error (errs (mkStamp seq gen))) else [])
  end.
Proof.
  unfold composite_AppendEvent, sinks. destruct (Alloc.Next (allocator s)) as [[[seq gen]|e] a]; cbn [fst snd]; [|cbn; split_and!; done].
  set (st := stampForSink (mkStamp seq gen) ev).
  assert (Hp : (match primary s with None => ((None, None), None)
        | Some p => let '(err, p) := sink_AppendEvent st p in (note_error err (None, None), Some p) end) =
     ((head (omap (λ o, (sink_AppendEvent st o).1) (option_list (primary s))), hook_error (omap (λ o, (sink_AppendEvent st o).1) (option_list (primary s)))),
      (λ o, (sink_AppendEvent st o).2) <$> primary s)).
  { destruct (primary s) as [p|]; [|done]. cbn. destruct (sink_AppendEvent st p) as [err p']. cbn.
    change (@None GoErr, @None GoErr) with (head (@nil GoErr), hook_error []). rewrite note_error_spec. by destruct err. }
  rewrite Hp, fan_out_spec, <- omap_app. clear Hp. cbn [sinks set_sinks set_allocator primary others allocator onAppendError].
  set (errs := omap _ _). split_and!; try done.
  - rewrite fmap_app. by destruct (primary s).
  - destruct (hook_error _); by destruct (onAppendError s).
Qed.

(** ** Appends side by side *)

(** A call of AppendEvent that holds the read lock: its event, its stamp once it has one, and
    the sinks it has yet to reach. *)
Record Call := mkCall { cl_ev : Event Rest; cl_stamp : option ChainState; cl_todo : list nat }.

Definition put_sink (i : nat) (o : S) (s : CompositeStore) : CompositeStore :=
  match primary s, i with
  | Some _, O => set_sinks (Some o) (others s) s
  | Some p, Datatypes.S i => set_sinks (Some p) (<[i := o]> (others s)) s
  | None, i => set_sinks None (<[i := o]> (others s)) s
  end.

Lemma sinks_put_sink i o s : sinks (put_sink i o s) = <[i := o]> (sinks s).
Proof. unfold put_sink, sinks. destruct (primary s), i; done. Qed.

Inductive Label :=
| LStamp (ch : ChainState)
| LDeliver (i : nat) (ch : ChainState) (err : option GoErr)
| LSilent.

(** A step of one of the goroutines. [background] is what a sink does on its own. NextGeneration
    takes the write lock, so no call is under way. *)
Inductive cstep (background : S → S → Prop) : CompositeStore * list Call → Label → CompositeStore * list Call → Prop :=
| cs_begin s cs ev : cstep background (s, cs) LSilent (s, cs ++ [mkCall ev None []])
| cs_stamp s l1 l2 ev sq gen a : Alloc.Next (allocator s) = (Ok (sq, gen), a) →
    cstep background (s, l1 ++ mkCall ev None [] :: l2) (LStamp (mkStamp sq gen))
      (set_allocator a s, l1 ++ mkCall ev (Some (mkStamp sq gen)) (seq 0 (length (sinks s))) :: l2)
| cs_exhausted s l1 l2 ev e a : Alloc.Next (allocator s) = (Err e, a) →
    cstep background (s, l1 ++ mkCall ev None [] :: l2) LSilent (set_allocator a s, l1 ++ l2)
| cs_deliver s l1 l2 ev ch i todo o err o' : sinks s !! i = Some o → sink_AppendEvent (stampForSink ch ev) o = (err, o') →
    cstep background (s, l1 ++ mkCall ev (Some ch) (i :: todo) :: l2) (LDeliver i ch err)
      (put_sink i o' s, l1 ++ mkCall ev (Some ch) todo :: l2)
| cs_return s l1 l2 ev ch : cstep background (s, l1 ++ mkCall ev (Some ch) [] :: l2) LSilent (s, l1 ++ l2)
| cs_rotate s : cstep background (s, []) LSilent ((composite_NextGeneration s).2, [])
| cs_background s cs i o o' : sinks s !! i = Some o → background o o' → cstep background (s, cs) LSilent (put_sink i o' s, cs).

Inductive crun (background : S → S → Prop) (c0 : CompositeStore * list Call) : list Label → CompositeStore * list Call → Prop :=
| crun_nil : crun background c0 [] c0
| crun_snoc tr c l c' : crun background c0 tr c → cstep background c l c' → crun background c0 (tr ++ [l]) c'.

(** A store is its sinks, its allocator and its hook, and whether it has a primary. *)
Lemma composite_ext s1 s2 : sinks s1 = sinks s2 → allocator s1 = allocator s2 → onAppendError s1 = onAppendError s2 →
  (primary s1 = None ↔ primary s2 = None) → s1 = s2.
Proof.
  destruct s1 as [[p1|] o1 a1 h1], s2 as [[p2|] o2 a2 h2]; unfold sinks; cbn; intros Hs -> -> Hp; simplify_eq; try done.
  - by destruct Hp as [_ ?%(λ f, f eq_refl)].
  - by destruct Hp as [?%(λ f, f eq_refl) _].
Qed.

Lemma put_sink_keeps i o s : allocator (put_sink i o s) = allocator s ∧ onAppendError (put_sink i o s) = onAppendError s ∧
  (primary (put_sink i o s) = None ↔ primary s = None).
Proof. unfold put_sink. by destruct (primary s), i. Qed.

Lemma deliver_rest background c0 ev ch k j s tr : length (sinks s) = (j + k)%nat →
  crun background c0 tr (s, [mkCall ev (Some ch) (seq j k)]) →
  ∃ tr' s', crun background c0 tr' (s', [mkCall ev (Some ch) []]) ∧
    sinks s' = take j (sinks s) ++ ((λ o, (sink_AppendEvent (stampForSink ch ev) o).2) <$> drop j (sinks s)) ∧
    allocator s' = allocator s ∧ onAppendError s' = onAppendError s ∧ (primary s' = None ↔ primary s = None).
Proof.
  revert j s tr. induction k as [|k IH]; intros j s tr Hlen Hrun.
  { exists tr, s. rewrite drop_ge, take_ge, app_nil_r by lia. by split_and!. }
  destruct (lookup_lt_is_Some_2 (sinks s) j ltac:(lia)) as [o Ho].
  destruct (sink_AppendEvent (stampForSink ch ev) o) as [err o'] eqn:Hap.
  pose proof (crun_snoc _ _ _ _ _ _ Hrun (cs_deliver _ s [] [] ev ch j (seq (Datatypes.S j) k) o err o' Ho Hap)) as Hrun'.
  destruct (put_sink_keeps j o' s) as (Ha & Hh & Hp).
  destruct (IH (Datatypes.S j) (put_sink j o' s) _ ltac:(rewrite sinks_put_sink, length_insert; lia) Hrun') as (tr' & s' & Hr & Hs & Ha' & Hh' & Hp').
  exists tr', s'. split; [exact Hr|]. rewrite Ha', Hh', Hp', Ha, Hh, Hp. split_and!; try done. rewrite Hs, sinks_put_sink.
  rewrite (drop_S (sinks s) o j Ho), fmap_cons, Hap, (take_S_r _ _ o') by (apply list_lookup_insert_eq, lookup_lt_Some with o; done).
  rewrite take_insert_ge, drop_insert_lt by lia. by rewrite <- app_assoc.
Qed.

(** AppendEvent as written, from its lock to its return, is a run of the steps. *)
Lemma append_is_a_run background ev s : ∃ tr, crun background (s, []) tr ((composite_AppendEvent ev s).2, []).
Proof.
  pose proof (composite_append_spec ev s) as Hspec. cbv zeta in Hspec. 
  assert (Hp : primary (composite_AppendEvent ev s).2 = None ↔ primary s = None).
  { unfold composite_AppendEvent. destruct (Alloc.Next _) as [[[q g]|e] a]; [|done].
    destruct (primary s) as [p|]; [destruct (sink_AppendEvent _ p)|]; destruct (fan_out _ _ _) as [[? ?] ?]; done. }
  destruct (composite_AppendEvent ev s) as [[r hook] s']. cbn [snd] in *. destruct Hspec as (Hh & Ha & Hr).
  pose proof (crun_snoc _ _ _ _ _ _ (crun_nil background (s, [])) (cs_begin _ s [] ev)) as Hrun.
  destruct (Alloc.Next (allocator s)) as [[[q g]|e] a] eqn:Hn; cbn [fst snd] in *.
  - destruct Hr as (Hs & _). pose proof (crun_snoc _ _ _ _ _ _ Hrun (cs_stamp _ s [] [] ev q g a Hn)) as Hrun'.
    destruct (deliver_rest _ _ ev (mkStamp q g) (length (sinks s)) 0 (set_allocator a s) _ eq_refl Hrun') as (tr & s2 & Hr & Hs2 & Ha2 & Hh2 & Hp2).
    eexists. pose proof (crun_snoc _ _ _ _ _ _ Hr (cs_return _ s2 [] [] ev (mkStamp q g))) as Hfin.
    assert (s2 = s') as <-; [|exact Hfin]. apply composite_ext; [by rewrite Hs2, Hs | by rewrite Ha2, Ha | by rewrite Hh2, Hh |].
    by rewrite Hp2, Hp.
  - destruct Hr as (_ & Hs & _). eexists. pose proof (crun_snoc _ _ _ _ _ _ Hrun (cs_exhausted _ s [] [] ev e a Hn)) as Hfin.
    assert (set_allocator a s = s') as <-; [|exact Hfin]. by apply composite_ext.
Qed.

(** The stamps given out, those delivered, and those delivered to sink [i], in time. *)
Definition issued (tr : list Label) : list ChainState := omap (λ l, match l with LStamp ch => Some ch | _ => None end) tr.
Definition deliveries (tr : list Label) : list ChainState := omap (λ l, match l with LDeliver _ ch _ => Some ch | _ => None end) tr.
Definition delivered (i : nat) (tr : list Label) : list ChainState :=
  omap (λ l, match l with LDeliver j ch _ => if decide (i = j) then Some ch else None | _ => None end) tr.

Definition stamp_lt (x y : ChainState) : Prop := Alloc.lex_lt (cs_Generation x, cs_Sequence x) (cs_Generation y, cs_Sequence y).
Definition gen_le (x y : ChainState) : Prop := cs_Generation x ≤ cs_Generation y.

(** The stamps that calls under way have yet to take to sink [i]. *)
Definition pending (i : nat) (cs : list Call) : list ChainState := omap (λ c, if decide (i ∈ cl_todo c) then cl_stamp c else None) cs.

Definition call_ok (n : nat) (a : Alloc.SequenceAllocator) (c : Call) : Prop :=
  match cl_stamp c with None => cl_todo c = [] | Some ch => cs_Generation ch = Alloc.generation a end ∧
  NoDup (cl_todo c) ∧ Forall (λ i, i < n)%nat (cl_todo c).

(** A stamp that was given out before the allocator got to [a]. *)
Definition stamp_old (a : Alloc.SequenceAllocator) (ch : ChainState) : Prop :=
  cs_Generation ch < Alloc.generation a ∨ (cs_Generation ch = Alloc.generation a ∧ cs_Sequence ch ≤ Alloc.sequence a).

Record CInv (n : nat) (tr : list Label) (c : CompositeStore * list Call) : Prop := mkCInv {
  ci_wf : Alloc.wf (allocator c.1);
  ci_sinks : length (sinks c.1) = n;
  ci_calls : Forall (call_ok n (allocator c.1)) c.2;
  ci_issued : StronglySorted stamp_lt (issued tr) ∧ Forall (stamp_old (allocator c.1)) (issued tr);
  ci_sorted : StronglySorted gen_le (deliveries tr) ∧ Forall (λ ch, cs_Generation ch ≤ Alloc.generation (allocator c.1)) (deliveries tr);
  ci_each : ∀ i, (i < n)%nat → delivered i tr ++ pending i c.2 ≡ₚ issued tr;
}.

Lemma StronglySorted_snoc {A} (R : A → A → Prop) l x : StronglySorted R l → Forall (λ y, R y x) l → StronglySorted R (l ++ [x]).
Proof.
  intros Hl Hx. apply StronglySorted_app. split_and!; [|done|by repeat constructor].
  intros x1 x2 H1 ->%list_elem_of_singleton. rewrite Forall_forall in Hx. by apply Hx.
Qed.

Lemma pending_app i cs1 cs2 : pending i (cs1 ++ cs2) = pending i cs1 ++ pending i cs2.
Proof. apply omap_app. Qed.

Lemma pending_idle i ev st cs : pending i (mkCall ev st [] :: cs) = pending i cs.
Proof. done. Qed.

Lemma pending_todo i ev ch todo cs : i ∈ todo → pending i (mkCall ev (Some ch) todo :: cs) = ch :: pending i cs.
Proof. intros Hi. unfold pending. cbn. by rewrite decide_True. Qed.

Lemma pending_done i ev st todo cs : i ∉ todo → pending i (mkCall ev st todo :: cs) = pending i cs.
Proof. intros Hi. unfold pending. cbn. by rewrite decide_False. Qed.

(** The step changes neither the stamps nor the deliveries. *)
Lemma CInv_silent n tr s cs s' cs' : CInv n tr (s, cs) → Alloc.wf (allocator s') → length (sinks s') = n →
  Alloc.generation (allocator s) ≤ Alloc.generation (allocator s') →
  (∀ ch, stamp_old (allocator s) ch → stamp_old (allocator s') ch) →
  Forall (call_ok n (allocator s')) cs' → (∀ i, pending i cs' = pending i cs) → CInv n (tr ++ [LSilent]) (s', cs').
Proof.
  intros [Hwf Hn Hc [Hi1 Hi2] [Hd1 Hd2] He] Hwf' Hn' Hg Hold Hc' Hp. cbn [fst snd] in *.
  assert (Hd : ∀ i, delivered i (tr ++ [LSilent]) = delivered i tr) by (intros i; unfold delivered; rewrite omap_app; cbn; by rewrite app_nil_r).
  constructor; cbn [fst snd]; try done; unfold issued, deliveries; rewrite ?omap_app; cbn; rewrite ?app_nil_r.
  - split; [done|]. by eapply Forall_impl.
  - split; [done|]. eapply Forall_impl; [exact Hd2|]. intros ch Hch. cbn in *. lia.
  - intros i Hi. unfold issued in He. rewrite Hd, Hp. by apply He.
Qed.

Lemma CInv_stamp n tr s l1 l2 ev sq gen a : Alloc.Next (allocator s) = (Ok (sq, gen), a) →
  CInv n tr (s, l1 ++ mkCall ev None [] :: l2) →
  CInv n (tr ++ [LStamp (mkStamp sq gen)]) (set_allocator a s, l1 ++ mkCall ev (Some (mkStamp sq gen)) (seq 0 (length (sinks s))) :: l2).
Proof.
  intros Hnext [Hwf Hn Hc [Hi1 Hi2] [Hd1 Hd2] He]. cbn [fst snd] in *. pose proof (Alloc.Next_wf _ Hwf) as Hwf'. rewrite Hnext in Hwf'.
  unfold Alloc.Next in Hnext. destruct (_ =? MaxInt64); [done|]. injection Hnext as <- <- <-. cbn [snd] in Hwf'.
  rewrite Forall_app, Forall_cons in Hc. destruct Hc as (Hc1 & _ & Hc2).
  assert (Hd : ∀ i, delivered i (tr ++ [LStamp (mkStamp (Alloc.sequence (allocator s) + 1) (Alloc.generation (allocator s)))]) = delivered i tr).
  { intros i. unfold delivered. rewrite omap_app. cbn. by rewrite app_nil_r. }
  constructor; cbn [fst snd set_allocator allocator Alloc.generation Alloc.sequence]; try done; unfold issued, deliveries;
    rewrite ?omap_app; cbn [omap list_omap]; rewrite ?app_nil_r.
  - rewrite Forall_app, Forall_cons. split_and!; [exact Hc1 | | exact Hc2]. split_and!; cbn; [done | apply NoDup_seq |].
    apply Forall_forall. intros i Hi%elem_of_seq. lia.
  - split.
    + apply StronglySorted_snoc; [done|]. eapply Forall_impl; [exact Hi2|]. intros ch [?|[? ?]]; unfold stamp_lt, Alloc.lex_lt; cbn; lia.
    + apply Forall_app. split; [|constructor; [right; cbn; lia | constructor]].
      eapply Forall_impl; [exact Hi2|]. intros ch [?|[? ?]]; unfold stamp_old; cbn; lia.
  - done.
  - intros i Hi. specialize (He i Hi). rewrite Hd, pending_app, pending_todo by (apply elem_of_seq; lia).
    rewrite pending_app, pending_idle in He. unfold issued in He. rewrite <- He. solve_Permutation.
Qed.

Lemma CInv_deliver n tr s l1 l2 ev ch i todo o err o' : sinks s !! i = Some o →
  CInv n tr (s, l1 ++ mkCall ev (Some ch) (i :: todo) :: l2) →
  CInv n (tr ++ [LDeliver i ch err]) (put_sink i o' s, l1 ++ mkCall ev (Some ch) todo :: l2).
Proof.
  intros Ho [Hwf Hn Hc [Hi1 Hi2] [Hd1 Hd2] He]. cbn [fst snd] in *.
  destruct (put_sink_keeps i o' s) as (Ha & _).
  rewrite Forall_app, Forall_cons in Hc. destruct Hc as (Hc1 & (Hg & Hnd & Hlt) & Hc2). cbn in Hg, Hnd, Hlt.
  apply NoDup_cons in Hnd as [Hni Hnd]. inversion Hlt as [|? ? Hil Hlt']; subst; clear Hlt.
  constructor; cbn [fst snd]; rewrite ?Ha; try done; unfold issued, deliveries; rewrite ?omap_app; cbn [omap list_omap]; rewrite ?app_nil_r.
  - by rewrite sinks_put_sink, length_insert.
  - rewrite Forall_app, Forall_cons. split_and!; [exact Hc1 | by split_and! | exact Hc2].
  - done.
  - split; [|apply Forall_app; split; [exact Hd2 | constructor; [lia | constructor]]].
    apply StronglySorted_snoc; [done|]. eapply Forall_impl; [exact Hd2|]. intros x Hx. unfold gen_le. cbn in *. lia.
  - intros j Hj. specialize (He j Hj). unfold delivered, issued in *. rewrite omap_app. cbn [omap list_omap]. rewrite <- He, !pending_app.
    destruct (decide (j = i)) as [->|Hne].
    + rewrite (pending_todo i ev ch (i :: todo)) by left. rewrite pending_done by done. solve_Permutation.
    + rewrite app_nil_r. destruct (decide (j ∈ todo)).
      * rewrite !pending_todo by (done || by right). done.
      * rewrite !pending_done; [done | | done]. intros [?|?]%elem_of_cons; done.
Qed.

Lemma CInv_step background n tr c l c' : cstep background c l c' → CInv n tr c → CInv n (tr ++ [l]) c'.
Proof.
  intros Hs HI. destruct Hs as [s cs ev|s l1 l2 ev sq gen a Hn|s l1 l2 ev e a Hn|s l1 l2 ev ch i todo o err o' Ho _|s l1 l2 ev ch|s|s cs i o o' Ho _].
  - pose proof HI as [Hwf Hlen Hc _ _ _]. eapply (CInv_silent _ _ s _ s); try done.
    + apply Forall_app. split; [done|]. repeat constructor.
    + intros i. rewrite pending_app. cbn. by rewrite app_nil_r.
  - by apply CInv_stamp.
  - pose proof HI as [Hwf Hlen Hc _ _ _]. cbn [fst snd] in *. rewrite Forall_app, Forall_cons in Hc. destruct Hc as (Hc1 & _ & Hc2).
    unfold Alloc.Next in Hn. destruct (_ =? MaxInt64); [|done]. injection Hn as _ <-.
    eapply (CInv_silent _ _ s); try done; [by apply Forall_app|]. intros i. by rewrite !pending_app.
  - by eapply CInv_deliver.
  - pose proof HI as [Hwf Hlen Hc _ _ _]. cbn [fst snd] in *. rewrite Forall_app, Forall_cons in Hc. destruct Hc as (Hc1 & _ & Hc2).
    eapply (CInv_silent _ _ s _ s); try done; [by apply Forall_app|]. intros i. by rewrite !pending_app.
  - pose proof HI as [Hwf Hlen _ _ _ _]. cbn [fst snd] in *. pose proof (Alloc.NextGeneration_wf _ Hwf) as Hwf'.
    unfold composite_NextGeneration in *. unfold Alloc.NextGeneration in *.
    destruct (Alloc.generation (allocator s) =? AuditChain.MaxUint32); eapply (CInv_silent _ _ s); try done; unfold stamp_old; cbn; intros; lia.
  - pose proof HI as [Hwf Hlen Hc _ _ _]. cbn [fst snd] in *.
    destruct (put_sink_keeps i o' s) as (Ha & _).
    eapply (CInv_silent _ _ s _ (put_sink i o' s) cs); rewrite ?Ha; try done. by rewrite sinks_put_sink, length_insert.
Qed.

(** C15. Appends side by side. Take any interleaving of AppendEvent calls, each of which takes
    its stamp and then goes from sink to sink, of generation changes, and of what the sinks
    do on their own. The stamps are given out in strictly increasing order, once each. No
    sink gets a stamp twice, or one that was not given out; and when no call is under way
    every sink has got exactly the stamps given out, whatever the sinks answered. The order
    in which stamps reach the sinks may differ from the order of the stamps, but never
    crosses a change of generation: once a stamp of a generation was delivered to any sink,
    no stamp of an earlier generation is delivered to any. *)
Theorem fan_out_interleaved background s0 tr s cs :
  Alloc.wf (allocator s0) → crun background (s0, []) tr (s, cs) →
  StronglySorted stamp_lt (issued tr) ∧ StronglySorted gen_le (deliveries tr) ∧
  ∀ i, (i < length (sinks s0))%nat →
    NoDup (delivered i tr) ∧ (∀ ch, ch ∈ delivered i tr → ch ∈ issued tr) ∧ (cs = [] → delivered i tr ≡ₚ issued tr).
Proof.
  intros Hwf Hrun. assert (HI : CInv (length (sinks s0)) tr (s, cs)).
  { remember (s, cs) as c eqn:Hc. clear Hc. induction Hrun as [|tr c l c' Hrun IH Hs]; [|by eapply CInv_step].
    constructor; cbn; try done; repeat constructor. }
  destruct HI as [_ _ _ [Hi Ho] [Hd _] He]. cbn [fst snd] in *. split_and!; [done|done|]. intros i Hin. specialize (He i Hin).
  assert (Hnd : NoDup (issued tr)).
  { clear -Hi. induction Hi as [|x l _ IH Hx]; constructor; [|done]. intros Hin. rewrite Forall_forall in Hx. specialize (Hx x Hin).
    unfold stamp_lt, Alloc.lex_lt in Hx. cbn in Hx. lia. }
  split_and!.
  - rewrite <- He in Hnd. by apply NoDup_app in Hnd as (? & _).
  - intros ch Hch. rewrite <- He. apply elem_of_app. by left.
  - intros ->. cbn in He. by rewrite app_nil_r in He.
Qed.
End composite.

(** ** The watchtower store as a sink *)

Section watchtower.
Context `{EventLib, WtpWire, HmacLib, ShaLib}.

(** Close needs the scripts of its goroutines and is not part of what follows. *)
#[export] Instance watchtower_sink : EventStore EventRest (Store * World) := {|
  sink_AppendEvent := λ ev s, match AppendEvent ev s with (Ok _, s) => (None, s) | (Err e, s) => (Some (ErrWatchtower e), s) end;
  sink_Close := λ s, (None, s);
|}.

Lemma watchtower_append ev o err o' : sink_AppendEvent ev o = (err, o') →
  (err = None ∧ AppendEvent ev o = (Ok tt, o')) ∨ ∃ e, err = Some (ErrWatchtower e) ∧ AppendEvent ev o = (Err e, o').
Proof.
  cbn [sink_AppendEvent watchtower_sink]. destruct (AppendEvent ev o) as [[[]|e] o2]; intros [= <- <-]; [by left | right; by exists e].
Qed.

(** Commit refuses a token that AppendEvent just computed only when the generation goes back. *)
Lemma commit_refuses_backwards ev s e s' : AppendEvent ev s = (Err (ErrChainCommit e), s') →
  ∃ ch, ev_Chain ev = Some ch ∧ cs_Generation ch < sc_generation (st_sink s.1).
Proof.
  assert (Hdrop : ∀ m ch reason e0, (do* (do* st_update (st_count m) in emitInFlightLoss ch reason) in merr e0 : StoreM unit) s =
    (Err (ErrChainCommit e), s') → e0 = ErrChainCommit e).
  { intros m ch reason e0 He. destruct (dropped_refused m ch reason e0 s) as (s1 & Hs1 & _). rewrite Hs1 in He. by injection He. }
  unfold AppendEvent, bindM at 1, mget. cbn [fst]. unfold isFatal.
  destruct (st_closing s.1); [done|]. destruct (st_fatalLatched s.1); [done|]. destruct (ev_Chain ev) as [ch|]; [|done].
  destruct (MaxInt64 <? cs_Sequence ch); [by intros ?%Hdrop|].
  destruct (compact_Encode _ ev) as [ce0|e0].
  2: { unfold recordCompactEncodeFailure. set (mr := if errors_Is e0 ErrMapperFailure then _ else _). destruct mr as [m reason]. by intros ?%Hdrop. }
  destruct (proto_marshal_deterministic ce0); [|done]. destruct (EncodeCanonical _) as [canon|e0]; [|by intros ?%Hdrop].
  destruct (Compute_ _ _ _ _ canon) as [cr|e0] eqn:Hcr; [|done]. destruct (proto_marshal_event _) as [final|]; [|done].
  unfold bindM, store_wal_append. destruct (Append _ _ final _) as [[b|e0] [w W]]; [|done]. unfold store_commit. cbn [fst snd st_sink st_set_w].
  intros Hc. exists ch. split; [done|]. revert Hc. unfold Compute_ in Hcr. destruct (sc_fatal (st_sink s.1)) eqn:Hf; [done|].
  destruct (computeIntegrityHash _ _ _ _ _ canon) as [h|]; [|done]. injection Hcr as <-. unfold Commit. rewrite Hf. cbn [cr_chain cr_generation cr_prevHash].
  rewrite Nat.eqb_refl. cbn [negb]. destruct (Z.ltb_spec (cs_Generation ch) (sc_generation (st_sink s.1))); [done|].
  destruct (_ =? _); cbn [negb]; by rewrite String.eqb_refl.
Qed.

Lemma sink_generation ev s r s' ch : ev_Chain ev = Some ch → AppendEvent ev s = (r, s') →
  sc_generation (st_sink s'.1) ≤ sc_generation (st_sink s.1) ∨ sc_generation (st_sink s'.1) = cs_Generation ch.
Proof.
  intros Hch. destruct r as [[]|e].
  - intros (ch' & ce & ir & canon & cr & final & b & w & c & [Hch' _ _ _ _ _ Hcr _] & _ & Hcom & ->)%AppendEvent_Ok.
    rewrite Hch in Hch'. injection Hch' as <-. right. apply Commit_Ok in Hcom as (_ & _ & _ & ->). cbn. by eapply Compute_gen.
  - intros [Ha _]%AppendEvent_Err. left. pose proof (sa_chain _ _ Ha) as Hp. unfold position in Hp. by injection Hp as _ _ _ -> _.
Qed.

(** What a sink does on its own leaves the chain as it is: acknowledgements and garbage
    collection are about the log. *)
Definition keeps_chain (o o' : Store * World) : Prop := st_sink o'.1 = st_sink o.1.

(** The chains of the sinks are not ahead of the allocator. *)
Definition not_ahead (s : CompositeStore (S := Store * World)) : Prop :=
  Forall (λ o, sc_generation (st_sink o.1) ≤ Alloc.generation (allocator s)) (sinks s).

Lemma not_ahead_step n tr c l c' : cstep keeps_chain c l c' → CInv n tr c → not_ahead c.1 → not_ahead c'.1.
Proof.
  intros Hs [Hwf _ Hc _ _ _]. unfold not_ahead.
  destruct Hs as [s cs ev|s l1 l2 ev sq gen a Hn|s l1 l2 ev e a Hn|s l1 l2 ev ch i todo o err o' Ho Hap|s l1 l2 ev ch|s|s cs i o o' Ho Hb];
    cbn [fst snd] in *; try done.
  - unfold Alloc.Next in Hn. destruct (_ =? MaxInt64); [done|]. by injection Hn as <- <- <-.
  - unfold Alloc.Next in Hn. destruct (_ =? MaxInt64); [|done]. by injection Hn as _ <-.
  - assert (Ha : allocator (put_sink i o' s) = allocator s) by (unfold put_sink; by destruct (primary s), i).
    rewrite Ha, sinks_put_sink. intros Hall. apply Forall_insert; [done|].
    rewrite Forall_app, Forall_cons in Hc. destruct Hc as (_ & (Hg & _) & _). cbn in Hg.
    rewrite Forall_forall in Hall. pose proof (Hall o (list_elem_of_lookup_2 _ _ _ Ho)) as Hle. cbn in Hle.
    destruct (watchtower_append _ _ _ _ Hap) as [[_ HA]|(e & _ & HA)]; destruct (sink_generation (stampForSink ch ev) _ _ _ ch eq_refl HA); lia.
  - unfold composite_NextGeneration, Alloc.NextGeneration. destruct (_ =? AuditChain.MaxUint32); cbn; [done|].
    intros Hall. eapply Forall_impl; [exact Hall|]. cbn. intros; lia.
  - assert (Ha : allocator (put_sink i o' s) = allocator s) by (unfold put_sink; by destruct (primary s), i).
    rewrite Ha, sinks_put_sink. intros Hall. apply Forall_insert; [done|]. rewrite Hb.
    rewrite Forall_forall in Hall. exact (Hall o (list_elem_of_lookup_2 _ _ _ Ho)).
Qed.

(** C23. What the lock is for. Watchtower stores are the sinks of a composite store whose
    generation their chains are not ahead of. Then in every interleaving of appends,
    generation changes and acknowledgements, no append to a sink fails at Commit, the
    failure that comes after the record is on disk and latches the store for good. *)
Theorem rotation_never_latches s0 tr s cs :
  Alloc.wf (allocator s0) → not_ahead s0 → crun keeps_chain (s0, []) tr (s, cs) →
  ∀ i ch e, LDeliver i ch (Some (ErrWatchtower (ErrChainCommit e))) ∉ tr.
Proof.
  intros Hwf Hna. assert (HI : ∀ c, crun keeps_chain (s0, []) tr c → CInv (length (sinks s0)) tr c ∧ not_ahead c.1 ∧
    ∀ i ch e, LDeliver i ch (Some (ErrWatchtower (ErrChainCommit e))) ∉ tr); [|by intros (_ & _ & ?)%HI].
  intros c Hrun. induction Hrun as [|tr c l c' Hrun (HI & Ha & Hno) Hs].
  { split_and!; [constructor; cbn; try done; repeat constructor | done | intros i ch e Hin; by apply not_elem_of_nil in Hin]. }
  split_and!; [by eapply CInv_step | by eapply not_ahead_step |].
  intros i ch e [Hin|Hin%list_elem_of_singleton]%elem_of_app; [by eapply Hno|]. subst l.
  inversion Hs as [| | |? ? ? ev ? ? todo o err o' Ho Hap| | |]; subst. cbn [fst snd] in *.
  pose proof (ci_calls _ _ _ HI) as Hc. cbn in Hc. rewrite Forall_app, Forall_cons in Hc. destruct Hc as (_ & (Hg & _) & _). cbn in Hg.
  unfold not_ahead in Ha. rewrite Forall_forall in Ha. pose proof (Ha o (list_elem_of_lookup_2 _ _ _ Ho)) as Hle. cbn in Hle.
  destruct (watchtower_append _ _ _ _ Hap) as [[? _]|(e2 & [= <-] & HA)]; [done|].
  apply commit_refuses_backwards in HA as (ch' & [= <-] & Hlt). lia.
Qed.
End watchtower.

(** ** Concrete runs *)
Module CompositeSample.

(** A sink that keeps the stamps it gets and refuses every event of an odd number. *)
#[export] Instance recorder : EventStore unit (list ChainState) := {|
  sink_AppendEvent := λ ev l,
    match ev_Chain ev with
    | Some ch => (if Z.odd (cs_Sequence ch) then Some (FatalIntegrityError "odd" (ErrPlain "refused")) else None, l ++ [ch])
    | None => (Some (ErrPlain "no stamp"), l)
    end;
  sink_Close := λ l, (None, l);
|}.

Definition ev0 : Event unit := mkEvent None 1 tt.
Definition two_sinks : CompositeStore (S := list ChainState) := composite_New (Some []) [[]].
Definition st (q g : Z) : ChainState := mkStamp q g.
Definition odd_err : option GoErr := Some (FatalIntegrityError "odd" (ErrPlain "refused")).

(** Two calls: the second takes its stamp after the first but reaches both sinks before it;
    then the generation changes and a third call runs. *)
Definition overtaking : list Label :=
  [LSilent; LSilent; LStamp (st 0 0); LStamp (st 1 0); LDeliver 0 (st 1 0) odd_err; LDeliver 1 (st 1 0) odd_err;
   LDeliver 0 (st 0 0) None; LDeliver 1 (st 0 0) None; LSilent; LSilent; LSilent; LSilent; LStamp (st 0 1);
   LDeliver 0 (st 0 1) None; LDeliver 1 (st 0 1) None; LSilent].

(** Extends the run in the context by a step. *)
Tactic Notation "then_step" uconstr(t) :=
  match goal with Hrun : crun _ _ _ _ |- _ => let Hnew := fresh "Hnew" in
    eassert (crun _ _ _ _) as Hnew by (eapply (crun_snoc _ _ _ _ _ _ Hrun); eapply t; reflexivity);
    clear Hrun; vm_compute in Hnew; rename Hnew into Hrun end.

Lemma overtaking_runs : ∃ s, crun (λ _ _, False) (two_sinks, []) overtaking (s, []) ∧
  sinks s = [[st 1 0; st 0 0; st 0 1]; [st 1 0; st 0 0; st 0 1]].
Proof.
  pose proof (crun_nil (λ _ _, False) (two_sinks, [])) as Hrun. vm_compute in Hrun.
  then_step (cs_begin _ _ _ ev0). then_step (cs_begin _ _ _ ev0).
  then_step (cs_stamp _ _ [] [mkCall ev0 None []] ev0 0 0).
  then_step (cs_stamp _ _ [mkCall ev0 (Some (st 0 0)) [0; 1]%nat] [] ev0 1 0).
  then_step (cs_deliver _ _ [mkCall ev0 (Some (st 0 0)) [0; 1]%nat] [] ev0 (st 1 0) 0 [1%nat]).
  then_step (cs_deliver _ _ [mkCall ev0 (Some (st 0 0)) [0; 1]%nat] [] ev0 (st 1 0) 1 []).
  then_step (cs_deliver _ _ [] [mkCall ev0 (Some (st 1 0)) []] ev0 (st 0 0) 0 [1%nat]).
  then_step (cs_deliver _ _ [] [mkCall ev0 (Some (st 1 0)) []] ev0 (st 0 0) 1 []).
  then_step (cs_return _ _ [] [mkCall ev0 (Some (st 1 0)) []] ev0 (st 0 0)). then_step (cs_return _ _ [] [] ev0 (st 1 0)).
  then_step (cs_rotate _ _). then_step (cs_begin _ _ _ ev0). then_step (cs_stamp _ _ [] [] ev0 0 1).
  then_step (cs_deliver _ _ [] [] ev0 (st 0 1) 0 [1%nat]).
  then_step (cs_deliver _ _ [] [] ev0 (st 0 1) 1 []).
  then_step (cs_return _ _ [] [] ev0 (st 0 1)).
  eexists. split; [exact Hrun | reflexivity].
Qed.

(** Stamp 1 overtakes stamp 0 on the way to both sinks, and one sink's errors keep nothing
    from the other; the change of generation waits for both. *)
Lemma fan_out_interleaved_witness :
  StronglySorted gen_le (deliveries overtaking) ∧ delivered 0 overtaking ≡ₚ issued overtaking ∧
  delivered 0 overtaking = [st 1 0; st 0 0; st 0 1].
Proof.
  destruct overtaking_runs as (s & Hrun & _).
  destruct (fan_out_interleaved (λ _ _, False) two_sinks overtaking s [] ltac:(vm_compute; split; lia || done) Hrun) as (_ & Hg & Hi).
  destruct (Hi 0%nat ltac:(cbn; lia)) as (_ & _ & Hall). split; [exact Hg|]. split; [exact (Hall eq_refl) | reflexivity].
Defined.

(** *** A watchtower store behind the composite *)

Definition ev1 : Event EventRest := mkEvent None 1000000000 tt.
Definition behind (o : Store * World) (q g : Z) : CompositeStore (S := Store * World) :=
  mkComposite None [o] {| Alloc.sequence := q; Alloc.generation := g |} false.
Definition one_store : CompositeStore (S := Store * World) := composite_New None [demo_s0].

(** One event, a change of generation, one event. *)
Definition rotated : list Label :=
  [LSilent; LStamp (st 0 0); LDeliver 0 (st 0 0) None; LSilent; LSilent; LSilent; LStamp (st 0 1); LDeliver 0 (st 0 1) None; LSilent].

Definition after_first := Eval vm_compute in (sink_AppendEvent (stampForSink (st 0 0) ev1) demo_s0).2.
Definition after_second := Eval vm_compute in (sink_AppendEvent (stampForSink (st 0 1) ev1) after_first).2.

Lemma rotated_runs : ∃ s, crun keeps_chain (one_store, []) rotated (s, []).
Proof.
  eexists. change rotated with ((((((((([] ++ [LSilent]) ++ [LStamp (st 0 0)]) ++ [LDeliver 0 (st 0 0) None]) ++ [LSilent]) ++ [LSilent]) ++ [LSilent])
    ++ [LStamp (st 0 1)]) ++ [LDeliver 0 (st 0 1) None]) ++ [LSilent]).
  eapply (crun_snoc _ _ _ (behind after_second 0 1, [mkCall ev1 (Some (st 0 1)) []]));
    [|apply (cs_return _ _ [] [] ev1 (st 0 1))].
  eapply (crun_snoc _ _ _ (behind after_first 0 1, [mkCall ev1 (Some (st 0 1)) [0%nat]]));
    [|apply (cs_deliver _ (behind after_first 0 1) [] [] ev1 (st 0 1) 0 [] after_first None after_second); [reflexivity | vm_compute; reflexivity]].
  eapply (crun_snoc _ _ _ (behind after_first (-1) 1, [mkCall ev1 None []]));
    [|apply (cs_stamp _ (behind after_first (-1) 1) [] [] ev1 0 1); reflexivity].
  eapply (crun_snoc _ _ _ (behind after_first (-1) 1, [])); [|apply (cs_begin _ _ [] ev1)].
  eapply (crun_snoc _ _ _ (behind after_first 0 0, [])); [|exact (cs_rotate _ (behind after_first 0 0))].
  eapply (crun_snoc _ _ _ (behind after_first 0 0, [mkCall ev1 (Some (st 0 0)) []]));
    [|apply (cs_return _ _ [] [] ev1 (st 0 0))].
  eapply (crun_snoc _ _ _ (behind demo_s0 0 0, [mkCall ev1 (Some (st 0 0)) [0%nat]]));
    [|apply (cs_deliver _ (behind demo_s0 0 0) [] [] ev1 (st 0 0) 0 [] demo_s0 None after_first); [reflexivity | vm_compute; reflexivity]].
  eapply (crun_snoc _ _ _ (one_store, [mkCall ev1 None []])); [|apply (cs_stamp _ one_store [] [] ev1 0 0); reflexivity].
  eapply (crun_snoc _ _ _ (one_store, [])); [|apply (cs_begin _ _ [] ev1)].
  apply crun_nil.
Qed.

(** Both events are accepted, the second in the new generation. *)
Lemma rotation_never_latches_witness :
  (∀ i ch e, LDeliver i ch (Some (ErrWatchtower (ErrChainCommit e))) ∉ rotated) ∧ deliveries rotated = [st 0 0; st 0 1].
Proof.
  split; [|reflexivity]. destruct rotated_runs as (s & Hrun).
  apply (rotation_never_latches one_store rotated s []); [vm_compute; split; lia || done | | exact Hrun].
  constructor; [by vm_compute | constructor].
Defined.

(** Two events whose appends overtake each other, as in [overtaking], are in the log out of
    order. When the server has acknowledged the first record sent, number 1, the plan of the
    next connection starts at 2: the event with number 0 is never sent again. *)
Definition overtaken := Eval vm_compute in
  acked 0 1 (sink_AppendEvent (stampForSink (st 0 0) ev1) (sink_AppendEvent (stampForSink (st 1 0) ev1) demo_s0).2).2.

Example overtaken_event_lost :
  let '(s, W) := overtaken in
  WrittenDataHighWater (st_w s) 0 = Ok (Some 1) ∧
  (computeReplayPlan wal_fns (mkCursor 1 0) (mkCursor 1 0) (st_w s, W)).1 = Ok [mkStage 0 2 None].
Proof. vm_compute. done. Qed.

(** A new process starts a new allocator at (0, 0), which nothing restores. Its first event gets
    a stamp the server has acknowledged in the last process, is accepted, and is not in the
    plan of the next connection. *)
Definition previous_process := Eval vm_compute in acked 0 1 overtaken.
Definition next_process : option (Store * World) := Eval vm_compute in started previous_process.2.

Example restarted_allocator_repeats_stamps :
  match next_process with
  | None => False
  | Some o =>
      let '((r, _), s) := composite_AppendEvent ev1 (composite_New None [o]) in
      r = None ∧
      match sinks s with
      | [(s, W)] => (computeReplayPlan wal_fns (mkCursor 1 0) (mkCursor 1 0) (st_w s, W)).1 = Ok [mkStage 0 2 None]
      | _ => False
      end
  end.
Proof. vm_compute. done. Qed.
End CompositeSample.
