(* ===== verification/AuditLog.v ===== *)
(** * The signed audit log on disk
    (internal/store/integrity_wrapper.go, internal/store/jsonl/jsonl.go,
     internal/audit: sidecar.go, logset.go)

    A JSON-lines file with numbered backups, a sidecar that holds the last durable position
    of the chain, and the store that signs events, writes them, and picks the chain up again
    when the program starts. The disk can fail any call, and a failed write may leave a part
    of its bytes. *)

From stdpp Require Import pretty.
From S2P Require Import Prelude AuditChain WalFs McpIntercept.
Open Scope Z_scope.

(** ** The disk *)

(** The files of the log's directory by name; and for each call to come whether it fails,
    and after how many bytes when it reads or writes. *)
Record Disk := mkDisk { dk_files : gmap string string; dk_faults : list (option nat) }.

Inductive OsErr := ErrNotExist | ErrIO.

(** The sums of Go's int64 *)
Definition int64 (z : Z) : Z := (z + 2 ^ 63) `mod` 2 ^ 64 - 2 ^ 63.

Section disk.
Context {E : Type}.

Definition outcome : M Disk E (option nat) := λ d,
  (Ok (default None (head (dk_faults d))), mkDisk (dk_files d) (tail (dk_faults d))).
Definition lookup_file (path : string) : M Disk E (option string) := mget (λ d, dk_files d !! path).
Definition put_file (path content : string) : M Disk E unit := mput (λ d, mkDisk (<[path := content]> (dk_files d)) (dk_faults d)).
End disk.

(** A call that gives a value or fails without effect. *)
Definition may_fail {A} (v : A) : M Disk OsErr A :=
  let* f := outcome in match f with Some _ => merr ErrIO | None => ret v end.

Definition os_ReadDir : M Disk OsErr (list string) :=
  let* names := mget (λ d, (map_to_list (dk_files d)).*1) in may_fail names.

Definition os_ReadFile (path : string) : M Disk OsErr string :=
  let* c := lookup_file path in
  match c with None => merr ErrNotExist | Some content => may_fail content end.

Definition os_Stat (path : string) : M Disk OsErr nat :=
  let* c := lookup_file path in
  match c with None => merr ErrNotExist | Some content => may_fail (String.length content) end.

(** A buffered reader of a file: the bytes it will give, and whether an error follows them. *)
Definition open_reader (path : string) : M Disk OsErr (string * bool) :=
  let* c := lookup_file path in
  match c with
  | None => merr ErrNotExist
  | Some content =>
      let* f := outcome in
      match f with
      | None => ret (content, false)
      | Some O => merr ErrIO
      | Some (S n) => ret (str_take n content, true)
      end
  end.

Definition os_Rename (from to : string) : M Disk OsErr unit :=
  let* c := lookup_file from in
  match c with
  | None => merr ErrNotExist
  | Some content =>
      do* may_fail tt in
      mput (λ d, mkDisk (<[to := content]> (delete from (dk_files d))) (dk_faults d))
  end.

Definition truncateFile (path : string) (size : nat) : M Disk OsErr unit :=
  let* c := lookup_file path in
  match c with
  | None => merr ErrNotExist
  | Some content => do* may_fail tt in do* may_fail tt in put_file path (str_take size content)
  end.

(** [os.OpenFile] with O_CREATE and O_APPEND *)
Definition os_OpenAppend (path : string) : M Disk OsErr unit :=
  do* may_fail tt in
  let* c := lookup_file path in
  match c with None => put_file path "" | Some _ => ret tt end.

(** [Write] on a file opened for appending. *)
Definition file_Write (path buf : string) : M Disk OsErr unit :=
  let* c := lookup_file path in
  let content := default "" c in
  let* f := outcome in
  match f with
  | None => put_file path (content +:+ buf)
  | Some n => do* put_file path (content +:+ str_take (Nat.min n (pred (String.length buf))) buf) in merr ErrIO
  end.

(** ** The JSON-lines file (jsonl.go) *)

Definition newline : ascii := "010".
Definition line_end : string := String newline "".

Inductive Handle := HandleNil | HandleClosed | HandleOpen.

Record Jsonl := mkJsonl {
  jl_path : string;
  jl_maxBytes : Z;
  jl_maxBackups : Z;
  jl_file : Handle;
  jl_syncOnWrite : bool;
}.

Definition jl_set_file (h : Handle) (s : Jsonl) : Jsonl := mkJsonl (jl_path s) (jl_maxBytes s) (jl_maxBackups s) h (jl_syncOnWrite s).
Definition SetSyncOnWrite (v : bool) (s : Jsonl) : Jsonl := mkJsonl (jl_path s) (jl_maxBytes s) (jl_maxBackups s) (jl_file s) v.

Inductive JsonlErr :=
| JPathEmpty | JLockNil | JMkdir | JOpen
| JNotOpen | JStat | JCloseForRotate | JReopen
| JWrite                  (** nothing is left of the write *)
| PartialWriteError       (** a part may be left *)
| DurabilityError         (** written, perhaps not durable *)
| JSync | JCloseFile.

Definition IsPartialWrite (e : JsonlErr) : bool := match e with PartialWriteError | DurabilityError => true | _ => false end.

Definition JsonlM := M (Jsonl * Disk) JsonlErr.
Definition on_disk {E E' St A} (f : E → E') (m : M Disk E A) : M (St * Disk) E' A := λ s,
  let '(r, d) := m s.2 in (match r with Ok a => Ok a | Err e => Err (f e) end, (s.1, d)).
Definition ignoring {E E' A} (m : M Disk E A) : M Disk E' unit := λ d, (Ok tt, (m d).2).

Definition NewWithLock (path : string) (maxSizeMB maxBackups : Z) (locked : bool) : M Disk JsonlErr Jsonl :=
  if String.eqb path "" then merr JPathEmpty
  else if negb locked then merr JLockNil
  else
    let maxSizeMB := if maxSizeMB <=? 0 then 100 else maxSizeMB in
    let maxBackups := if maxBackups <=? 0 then 3 else maxBackups in
    do* merr_map (λ _, JMkdir) (may_fail tt) in
    do* merr_map (λ _, JOpen) (os_OpenAppend path) in
    ret (mkJsonl path (maxSizeMB * 1024 * 1024) maxBackups HandleOpen true).

Definition backup_path (path : string) (i : Z) : string := path +:+ "." +:+ pretty i.

(** [for i := maxBackups - 1; i >= 1; i--]; failures are ignored. *)
Fixpoint shift_backups {E} (path : string) (n : nat) : M Disk E unit :=
  match n with
  | O => ret tt
  | S n' =>
      let i := Z.of_nat n in
      let* st := mtry (os_Stat (backup_path path i)) in
      do* match st with
          | Ok _ => ignoring (os_Rename (backup_path path i) (backup_path path (i + 1)))
          | Err _ => ret tt
          end in
      shift_backups path n'
  end.

Definition rotateIfNeededLocked : JsonlM unit :=
  let* s := mget fst in
  match jl_file s with
  | HandleNil => merr JNotOpen
  | HandleClosed => merr JStat
  | HandleOpen =>
      let* size := on_disk (λ _, JStat) (os_Stat (jl_path s)) in
      if Z.of_nat size <? jl_maxBytes s then ret tt
      else
        do* mput (λ s, (jl_set_file HandleClosed s.1, s.2)) in
        do* on_disk (λ _, JCloseForRotate) (may_fail tt) in
        do* on_disk id (shift_backups (jl_path s) (Z.to_nat (jl_maxBackups s - 1))) in
        do* on_disk id (ignoring (os_Rename (jl_path s) (backup_path (jl_path s) 1))) in
        do* on_disk (λ _, JReopen) (os_OpenAppend (jl_path s)) in
        mput (λ s, (jl_set_file HandleOpen s.1, s.2))
  end.

Definition WriteRaw (data : string) : JsonlM unit :=
  do* rotateIfNeededLocked in
  let* s := mget fst in
  let* preSize := on_disk (λ _, JStat) (os_Stat (jl_path s)) in
  let* w := mtry (on_disk id (file_Write (jl_path s) (data +:+ line_end))) in
  match w with
  | Err _ =>
      let* t := mtry (on_disk id (let* c := lookup_file (jl_path s) in
                                  do* may_fail tt in put_file (jl_path s) (str_take preSize (default "" c)))) in
      merr (match t with Err _ => PartialWriteError | Ok _ => JWrite end)
  | Ok _ => if jl_syncOnWrite s then on_disk (λ _, DurabilityError) (may_fail tt) else ret tt
  end.

Definition jsonl_Sync : JsonlM unit :=
  let* s := mget fst in
  match jl_file s with
  | HandleNil => ret tt
  | HandleClosed => merr JSync
  | HandleOpen => on_disk (λ _, JSync) (may_fail tt)
  end.

Definition jsonl_Close : JsonlM unit :=
  let* s := mget fst in
  do* mput (λ s, (jl_set_file HandleNil s.1, s.2)) in
  match jl_file s with
  | HandleNil => ret tt
  | HandleClosed => merr JCloseFile
  | HandleOpen => on_disk (λ _, JCloseFile) (may_fail tt)
  end.

(** ** The sidecar (sidecar.go) *)

(** [time.Time] in JSON *)
Class TimeLib := { time_json : Z → json; dec_time : json → option Z }.

Record SidecarState := mkSidecar {
  sd_FormatVersion : Z;
  sd_Sequence : Z;
  sd_PrevHash : string;
  sd_KeyFingerprint : string;
  sd_UpdatedAt : Z;
}.

(** [sidecarStateDisk]: nil pointers for what is absent. *)
Record SidecarDisk := mkSidecarDisk {
  kd_FormatVersion : option Z;
  kd_Sequence : option Z;
  kd_PrevHash : option string;
  kd_KeyFingerprint : option string;
  kd_UpdatedAt : option Z;
}.

Inductive SidecarErr := ErrSidecarNotFound | ErrSidecarCorrupt | ErrSidecarUnsupportedFormat | SidecarRead.

Section sidecar.
Context `{GoLib, JsonLib, TimeLib}.

Definition SidecarPath (logPath : string) : string := logPath +:+ ".chain".

Definition dec_int_ptr : Decoder (option Z) := λ _ j,
  match j with JNumber n => Some <$> ParseInt64 n | JNull => Some None | _ => None end.
Definition dec_time_ptr : Decoder (option Z) := λ _ j,
  match j with JNull => Some None | _ => Some <$> dec_time j end.

Definition sidecar_fields : list (string * Decoder SidecarDisk) :=
  [("format_version", lens kd_FormatVersion (λ r v, mkSidecarDisk v (kd_Sequence r) (kd_PrevHash r) (kd_KeyFingerprint r) (kd_UpdatedAt r)) dec_int_ptr);
   ("sequence", lens kd_Sequence (λ r v, mkSidecarDisk (kd_FormatVersion r) v (kd_PrevHash r) (kd_KeyFingerprint r) (kd_UpdatedAt r)) dec_int_ptr);
   ("prev_hash", lens kd_PrevHash (λ r v, mkSidecarDisk (kd_FormatVersion r) (kd_Sequence r) v (kd_KeyFingerprint r) (kd_UpdatedAt r)) dec_string_ptr);
   ("key_fingerprint", lens kd_KeyFingerprint (λ r v, mkSidecarDisk (kd_FormatVersion r) (kd_Sequence r) (kd_PrevHash r) v (kd_UpdatedAt r)) dec_string_ptr);
   ("updated_at", lens kd_UpdatedAt (λ r v, mkSidecarDisk (kd_FormatVersion r) (kd_Sequence r) (kd_PrevHash r) (kd_KeyFingerprint r) v) dec_time_ptr)].

(** The checks of ReadSidecar on what was decoded. *)
Definition check_sidecar (disk : SidecarDisk) : Result SidecarErr SidecarState :=
  match kd_FormatVersion disk, kd_Sequence disk, kd_PrevHash disk, kd_KeyFingerprint disk with
  | None, _, _, _ => Err ErrSidecarCorrupt
  | Some fv, sq, ph, kf =>
      if fv <=? 0 then Err ErrSidecarCorrupt
      else match sq, ph, kf with
      | Some sq, Some ph, Some kf =>
          if String.eqb kf "" then Err ErrSidecarCorrupt
          else if IntegrityFormatVersion <? fv then Err ErrSidecarUnsupportedFormat
          else if sq <? -1 then Err ErrSidecarCorrupt
          else if (sq <? 0) && negb (String.eqb ph "") then Err ErrSidecarCorrupt
          else if (0 <=? sq) && String.eqb ph "" then Err ErrSidecarCorrupt
          else if negb (String.eqb ph "") && negb (hex_decodes ph) then Err ErrSidecarCorrupt
          else Ok (mkSidecar fv sq ph kf (default 0 (kd_UpdatedAt disk)))
      | _, _, _ => Err ErrSidecarCorrupt
      end
  end.

Definition parse_sidecar (data : string) : Result SidecarErr SidecarState :=
  match json_Unmarshal data with
  | None => Err ErrSidecarCorrupt
  | Some j =>
      match dec_struct sidecar_fields (mkSidecarDisk None None None None None) j with
      | None => Err ErrSidecarCorrupt
      | Some disk => check_sidecar disk
      end
  end.

Definition ReadSidecar (path : string) : M Disk SidecarErr SidecarState :=
  let* data := mtry (os_ReadFile path) in
  match data with
  | Err ErrNotExist => merr ErrSidecarNotFound
  | Err ErrIO => merr SidecarRead
  | Ok data => mlift (parse_sidecar data)
  end.

Definition sidecar_json (st : SidecarState) : json :=
  JObject [("format_version", JNumber (pretty (sd_FormatVersion st))); ("sequence", JNumber (pretty (sd_Sequence st)));
           ("prev_hash", JString (sd_PrevHash st)); ("key_fingerprint", JString (sd_KeyFingerprint st));
           ("updated_at", time_json (sd_UpdatedAt st))].

(** A temporary file is created, written, synced and closed; it replaces the sidecar; the
    directory is synced. (A zero time, for which the current one is taken, does not come from
    the callers, which pass the current time.) *)
Definition WriteSidecar (path : string) (st : SidecarState) : M Disk OsErr unit :=
  let st := mkSidecar IntegrityFormatVersion (sd_Sequence st) (sd_PrevHash st) (sd_KeyFingerprint st) (sd_UpdatedAt st) in
  do* may_fail tt in do* may_fail tt in do* may_fail tt in do* may_fail tt in
  do* may_fail tt in
  do* put_file path (json_Marshal (sidecar_json st) +:+ line_end) in
  may_fail tt.
End sidecar.

(** ** The rotation set (logset.go) *)

Record LogFile := mkLogFile { lf_Path : string; lf_Index : Z; lf_IsBackup : bool }.

Inductive SetErr := SetReadDir | SetMissing (i : Z) | SetStat | SetMissingBase | SetRead (e : OsErr) | SetNotExist.

(** The numbers of the backups among the names of a directory. *)
Definition backup_index (baseName name : string) : option Z :=
  if HasPrefix name (baseName +:+ ".") then ParseInt64 (TrimPrefix name (baseName +:+ ".")) else None.

Definition sort_ints (l : list Z) : list Z := merge_sort Z.le l.

Fixpoint contiguous (want : Z) (indexes : list Z) : option Z :=
  match indexes with
  | [] => None
  | i :: indexes => if i =? want then contiguous (want + 1) indexes else Some want
  end.

Definition DiscoverRotationSet (base : string) : M Disk SetErr (list LogFile) :=
  let* names := merr_map (λ _, SetReadDir) os_ReadDir in
  let indexes := sort_ints (omap (backup_index base) names) in
  match contiguous 1 indexes with
  | Some want => merr (SetMissing want)
  | None =>
      let backups := (λ i, mkLogFile (backup_path base i) i true) <$> reverse indexes in
      let* st := mtry (os_Stat base) in
      match st with
      | Ok _ => ret (backups ++ [mkLogFile base 0 false])
      | Err ErrNotExist => if bool_decide (indexes = []) then ret backups else merr SetMissingBase
      | Err ErrIO => merr SetStat
      end
  end.

Section lines.
Context `{GoLib}.

Definition chunkSize : nat := N.to_nat 65536.

Definition byte_at (i : nat) (s : string) : option ascii := String.get i s.
(** [data[i:j]] *)
Definition sub (i j : nat) (s : string) : string := str_take (j - i) (str_drop i s).

(** The scan of a chunk from its end: a line, or where the unread part ends. *)
Fixpoint scan_back (i : nat) (data : string) (scanEnd : nat) : string + nat :=
  match i with
  | O => inr scanEnd
  | S i =>
      if bool_decide (byte_at i data = Some newline) then
        let line := TrimSpace (sub (S i) scanEnd data) in
        if negb (String.eqb line "") then inl line else scan_back i data i
      else scan_back i data scanEnd
  end.

Fixpoint last_line_loop (fuel : nat) (chunk : nat) (content : string) (end_ : nat) (tail : string) : M Disk OsErr string :=
  match end_, fuel with
  | O, _ | _, O =>
      let line := TrimSpace tail in
      if String.eqb line "" then merr ErrNotExist else ret line
  | _, S fuel =>
      let readSize := Nat.min end_ chunk in
      let start := (end_ - readSize)%nat in
      do* may_fail tt in
      let data := sub start end_ content +:+ tail in
      let n := String.length data in
      let scanEnd := if bool_decide (end_ = String.length content) && bool_decide (byte_at (pred n) data = Some newline) then pred n else n in
      match scan_back scanEnd data scanEnd with
      | inl line => ret line
      | inr scanEnd => last_line_loop fuel chunk content start (str_take scanEnd data)
      end
  end.

Definition readLastNonEmptyLineFromFile (path : string) : M Disk OsErr string :=
  let* c := lookup_file path in
  match c with
  | None => merr ErrNotExist
  | Some content =>
      do* may_fail tt in
      do* may_fail tt in
      if (String.length content =? 0)%nat then merr ErrNotExist
      else last_line_loop (String.length content) chunkSize content (String.length content) ""
  end.

Fixpoint read_last (files : list LogFile) : M Disk SetErr (LogFile * string) :=
  match files with
  | [] => merr SetNotExist
  | f :: files =>
      let* line := mtry (readLastNonEmptyLineFromFile (lf_Path f)) in
      match line with
      | Ok line => ret (f, line)
      | Err ErrNotExist => read_last files
      | Err e => merr (SetRead e)
      end
  end.

(** Newest file first. *)
Definition ReadLastNonEmptyLine (files : list LogFile) : M Disk SetErr (LogFile * string) := read_last (reverse files).
End lines.

(** ** The integrity store (integrity_wrapper.go) *)

(** What [ReadBytes('\n')] gives of a text, one call after the other: the complete lines,
    without their end, and what is left. *)
Fixpoint split_lines (s : string) : list string * string :=
  match s with
  | EmptyString => ([], "")
  | String c s =>
      let '(ls, rest) := split_lines s in
      if Ascii.eqb c newline then ("" :: ls, rest)
      else match ls with
           | l :: ls => (String c l :: ls, rest)
           | [] => ([], String c rest)
           end
  end.

Record visibleChainState := mkVisible {
  expectedSequence : Z;
  expectedPrevHash : string;
  seeded : bool;
  verifiedEntries : nat;
}.
Definition no_entries : visibleChainState := mkVisible 0 "" false 0.

Record ChainSummary := mkSummary { sm_LastSequence : Z; sm_LastEntryHash : string }.
(** [rotationBoundaryPayload], its Fields *)
Record BoundaryFields := mkBoundaryFields { bf_PriorLogArchivedTo : string; bf_PriorChainSummary : option ChainSummary }.

Inductive BoundaryErr := BoundaryParse | BoundaryOmitsHistory | BoundaryNoSummary | BoundarySequence | BoundaryHash.

Inductive VisibleErr :=
| VisOpen | VisScan | VisCorrupted | VisUnsigned | VisLegacy | VisUnsupported
| VisBoundary (e : BoundaryErr) | VisSequence (want got : Z) | VisPrevHash (want got : string) | VisVerify | VisInvalid.

Inductive IntErr :=
| IeSet (e : SetErr) | IeKeyFingerprint | IeNoLogWithCorruptSidecar | IeSidecar (e : SidecarErr)
| IeVisible (e : VisibleErr) | IeMalformedLast | IeVerifyLast | IeInvalidLast | IeRestore (e : WrapError) | IeMismatch
| IeOpenRecovery | IeReadRecovery | IeBrokenRecovery (seq : Z) | IeVerifyRecovery (seq : Z) | IeInvalidRecovery (seq : Z)
| IeCorruptedLast | IeLegacyLast | IeUnsupportedLast
| IeMarshal | IeWrap (e : WrapError) | IePanic | IeWrite (e : JsonlErr) | IeWriteSidecar (e : OsErr)
| ErrIntegrityFatal | IeFatal (op : string).

Record IntegrityStore := mkIntegrityStore {
  is_inner : Jsonl;
  is_chain : IntegrityChain;
  is_logPath : string;
  is_algorithm : string;
  is_keyFingerprint : string;
  is_fatal : bool;
  is_pendingFlush : bool;
  is_closed : bool;
}.

Definition is_set_inner (j : Jsonl) (s : IntegrityStore) : IntegrityStore :=
  mkIntegrityStore j (is_chain s) (is_logPath s) (is_algorithm s) (is_keyFingerprint s) (is_fatal s) (is_pendingFlush s) (is_closed s).
Definition is_set_chain (c : IntegrityChain) (s : IntegrityStore) : IntegrityStore :=
  mkIntegrityStore (is_inner s) c (is_logPath s) (is_algorithm s) (is_keyFingerprint s) (is_fatal s) (is_pendingFlush s) (is_closed s).
Definition is_set_fatal (s : IntegrityStore) : IntegrityStore :=
  mkIntegrityStore (is_inner s) (is_chain s) (is_logPath s) (is_algorithm s) (is_keyFingerprint s) true (is_pendingFlush s) (is_closed s).
Definition is_set_pending (b : bool) (s : IntegrityStore) : IntegrityStore :=
  mkIntegrityStore (is_inner s) (is_chain s) (is_logPath s) (is_algorithm s) (is_keyFingerprint s) (is_fatal s) b (is_closed s).
Definition is_set_closed (s : IntegrityStore) : IntegrityStore :=
  mkIntegrityStore (is_inner s) (is_chain s) (is_logPath s) (is_algorithm s) (is_keyFingerprint s) (is_fatal s) (is_pendingFlush s) true.

Definition is_sidecarPath (s : IntegrityStore) : string := SidecarPath (is_logPath s).

(** [json.Marshal] of an event, which may fail *)
Class EventJson := { Ev : Type; json_MarshalEvent : Ev → option string }.

Section integrity.
Context `{GoLib, JsonLib, HmacLib, TimeLib, EventJson}.

Definition chain_VerifyHash (c : IntegrityChain) (m : IntegrityMetadata) (payload : string) : option bool :=
  VerifyHash (sc_key (ic_chain c)) (sc_algorithm (ic_chain c)) (im_FormatVersion m) (im_Sequence m) (im_PrevHash m) payload (im_EntryHash m).

(** *** Validating what is visible *)

Definition summary_fields : list (string * Decoder ChainSummary) :=
  [("last_sequence_seen_in_log", lens sm_LastSequence (λ r v, mkSummary v (sm_LastEntryHash r)) dec_int);
   ("last_entry_hash_seen_in_log", lens sm_LastEntryHash (λ r v, mkSummary (sm_LastSequence r) v) dec_string)].
Definition dec_summary_ptr : Decoder (option ChainSummary) := λ prev j,
  match j with
  | JNull => Some None
  | _ => Some <$> dec_struct summary_fields (default (mkSummary 0 "") prev) j
  end.
Definition boundary_fields : list (string * Decoder BoundaryFields) :=
  [("prior_log_archived_to", lens bf_PriorLogArchivedTo (λ r v, mkBoundaryFields v (bf_PriorChainSummary r)) dec_string);
   ("prior_chain_summary", lens bf_PriorChainSummary (λ r v, mkBoundaryFields (bf_PriorLogArchivedTo r) v) dec_summary_ptr)].
Definition dec_boundary : Decoder BoundaryFields := dec_struct [("fields", dec_struct boundary_fields)].

Definition validateRotationBoundary (payload : string) (st : visibleChainState) (visibleOriginIsBackup : bool) : Result BoundaryErr unit :=
  match json_Unmarshal payload ≫= dec_boundary (mkBoundaryFields "" None) with
  | None => Err BoundaryParse
  | Some event =>
      if (verifiedEntries st =? 0)%nat then
        if negb visibleOriginIsBackup && bool_decide (is_Some (bf_PriorChainSummary event)) && String.eqb (bf_PriorLogArchivedTo event) ""
        then Err BoundaryOmitsHistory else Ok tt
      else match bf_PriorChainSummary event with
      | None => Err BoundaryNoSummary
      | Some sm =>
          if negb (sm_LastSequence sm =? int64 (expectedSequence st - 1)) then Err BoundarySequence
          else if negb (String.eqb (sm_LastEntryHash sm) (expectedPrevHash st)) then Err BoundaryHash
          else Ok tt
      end
  end.

(** The checks on a signed entry. *)
Definition check_entry (c : IntegrityChain) (file : LogFile) (typ : string) (m : IntegrityMetadata) (payload : string)
    (st : visibleChainState) : Result VisibleErr visibleChainState :=
  if im_FormatVersion m <? IntegrityFormatVersion then Err VisLegacy
  else if IntegrityFormatVersion <? im_FormatVersion m then Err VisUnsupported
  else
    let rotationBoundary := String.eqb typ "integrity_chain_rotated" && (im_Sequence m =? 0) && String.eqb (im_PrevHash m) "" in
    let! st :=
      (if rotationBoundary then
         match validateRotationBoundary payload st (lf_IsBackup file) with Err e => Err (VisBoundary e) | Ok _ => Ok st end
       else
         let st :=
           if negb (seeded st) then
             if lf_IsBackup file && (verifiedEntries st =? 0)%nat
             then mkVisible (im_Sequence m) (im_PrevHash m) true (verifiedEntries st)
             else mkVisible 0 "" true (verifiedEntries st)
           else st in
         if negb (im_Sequence m =? expectedSequence st) then Err (VisSequence (expectedSequence st) (im_Sequence m))
         else if negb (String.eqb (im_PrevHash m) (expectedPrevHash st)) then Err (VisPrevHash (expectedPrevHash st) (im_PrevHash m))
         else Ok st) in
    match chain_VerifyHash c m payload with
    | None => Err VisVerify
    | Some false => Err VisInvalid
    | Some true => Ok (mkVisible (int64 (im_Sequence m + 1)) (im_EntryHash m) true (S (verifiedEntries st)))
    end.

(** One line of a file; [eof] for what stands after the last line end. *)
Definition validate_line (c : IntegrityChain) (file : LogFile) (raw : string) (eof : bool) (st : visibleChainState)
    : Result VisibleErr visibleChainState :=
  let line := TrimSpace raw in
  if String.eqb line "" then Ok st
  else match ParseIntegrityEntry line with
  | Some (Build_ParsedEntry typ (Some m) payload) => check_entry c file typ m payload st
  | r => if eof && negb (lf_IsBackup file) then Ok st
         else Err (match r with None => VisCorrupted | Some _ => VisUnsigned end)
  end.

Fixpoint validate_lines (c : IntegrityChain) (file : LogFile) (ls : list string) (st : visibleChainState)
    : Result VisibleErr visibleChainState :=
  match ls with
  | [] => Ok st
  | l :: ls => let! st := validate_line c file l false st in validate_lines c file ls st
  end.

Definition validate_file (c : IntegrityChain) (file : LogFile) (data : string * bool) (st : visibleChainState)
    : Result VisibleErr visibleChainState :=
  let '(ls, rest) := split_lines data.1 in
  let! st := validate_lines c file ls st in
  if data.2 then Err VisScan
  else if String.eqb rest "" then Ok st
  else validate_line c file rest true st.

Fixpoint validate_files (c : IntegrityChain) (files : list LogFile) (st : visibleChainState) : M Disk VisibleErr unit :=
  match files with
  | [] => ret tt
  | file :: files =>
      let* f := mtry (open_reader (lf_Path file)) in
      match f with
      | Err ErrNotExist => validate_files c files st
      | Err ErrIO => merr VisOpen
      | Ok data => let* st := mlift (validate_file c file data st) in validate_files c files st
      end
  end.

Definition validateVisibleChain (c : IntegrityChain) (files : list LogFile) : M Disk VisibleErr unit := validate_files c files no_entries.

(** *** Recovery *)

Definition IntM := M (IntegrityStore * Disk) IntErr.

Definition restore_chain (sequence : Z) (prevHash : string) : IntM unit := λ s,
  match ic_Restore sequence prevHash (is_chain s.1) with
  | (Err e, c) => (Err (IeRestore e), (is_set_chain c s.1, s.2))
  | (Ok _, c) => (Ok tt, (is_set_chain c s.1, s.2))
  end.

Definition write_sidecar (now : Z) (sequence : Z) (prevHash : string) : IntM unit :=
  let* s := mget fst in
  on_disk IeWriteSidecar (WriteSidecar (is_sidecarPath s) (mkSidecar 0 sequence prevHash (is_keyFingerprint s) now)).

(** The state of the walk of recoverFromSidecarGap. *)
Record Walk := mkWalk {
  wk_lastVerified : option IntegrityMetadata;
  wk_lastGoodOffset : nat;
  wk_currentOffset : nat;
  wk_expectedSeq : Z;
  wk_expectedPrev : string;
}.

(** What a line does to it: [None] where the loop ends with a truncation. *)
Definition walk_line (c : IntegrityChain) (sidecar : SidecarState) (raw : string) (lineLen : nat) (wk : Walk)
    : Result IntErr (option Walk) :=
  let line := TrimSpace raw in
  let off := (wk_currentOffset wk + lineLen)%nat in
  if String.eqb line "" then Ok (Some (mkWalk (wk_lastVerified wk) (wk_lastGoodOffset wk) off (wk_expectedSeq wk) (wk_expectedPrev wk)))
  else match ParseIntegrityEntry line with
  | Some (Build_ParsedEntry _ (Some m) payload) =>
      if im_Sequence m <=? sd_Sequence sidecar then
        Ok (Some (mkWalk (wk_lastVerified wk) off off (wk_expectedSeq wk) (wk_expectedPrev wk)))
      else if negb (im_Sequence m =? wk_expectedSeq wk) || negb (String.eqb (im_PrevHash m) (wk_expectedPrev wk)) then
        Err (IeBrokenRecovery (im_Sequence m))
      else match chain_VerifyHash c m payload with
      | None => Err (IeVerifyRecovery (im_Sequence m))
      | Some false => Err (IeInvalidRecovery (im_Sequence m))
      | Some true => Ok (Some (mkWalk (Some m) off off (int64 (im_Sequence m + 1)) (im_EntryHash m)))
      end
  | _ => Ok None
  end.

(** The walk, and whether it ended with a truncation. *)
Fixpoint walk_lines (c : IntegrityChain) (sidecar : SidecarState) (ls : list string) (wk : Walk) : Result IntErr (Walk * bool) :=
  match ls with
  | [] => Ok (wk, false)
  | l :: ls =>
      let! r := walk_line c sidecar l (S (String.length l)) wk in
      match r with
      | None => Ok (wk, true)
      | Some wk => walk_lines c sidecar ls wk
      end
  end.

Definition walk_file (c : IntegrityChain) (sidecar : SidecarState) (data : string * bool) (wk : Walk) : Result IntErr (Walk * bool) :=
  let '(ls, rest) := split_lines data.1 in
  let! r := walk_lines c sidecar ls wk in
  let '(wk, truncated) := r in
  if truncated : bool then Ok (wk, true)
  else if data.2 then Err IeReadRecovery
  else if String.eqb rest "" then Ok (wk, false)
  else
    let! r := walk_line c sidecar rest (String.length rest) wk in
    Ok (match r with None => (wk, true) | Some wk => (wk, false) end).

Definition recoverFromSidecarGap (now : Z) (sidecar : SidecarState) (lastFile : LogFile) : IntM bool :=
  let* s := mget fst in
  let* data := on_disk (λ _, IeOpenRecovery) (open_reader (lf_Path lastFile)) in
  let* r := mlift (walk_file (is_chain s) sidecar data (mkWalk None 0 0 (int64 (sd_Sequence sidecar + 1)) (sd_PrevHash sidecar))) in
  let '(wk, truncated) := r in
  do* (if truncated : bool then on_disk id (ignoring (truncateFile (lf_Path lastFile) (wk_lastGoodOffset wk))) else ret tt) in
  match wk_lastVerified wk with
  | None => ret false
  | Some m =>
      do* restore_chain (im_Sequence m) (im_EntryHash m) in
      do* write_sidecar now (im_Sequence m) (im_EntryHash m) in
      ret true
  end.

Definition resumeFromSidecar (now : Z) (sidecar : SidecarState) (last : Result SetErr (LogFile * string)) : IntM unit :=
  match last with
  | Err e => merr (IeSet e)
  | Ok (lastFile, lastLine) =>
      let* s := mget fst in
      match ParseIntegrityEntry lastLine with
      | Some (Build_ParsedEntry _ (Some m) payload) =>
          if (sd_Sequence sidecar =? im_Sequence m) && String.eqb (sd_PrevHash sidecar) (im_EntryHash m) then
            match chain_VerifyHash (is_chain s) m payload with
            | None => merr IeVerifyLast
            | Some false => merr IeInvalidLast
            | Some true => restore_chain (sd_Sequence sidecar) (sd_PrevHash sidecar)
            end
          else if sd_Sequence sidecar <? im_Sequence m then
            let* advanced := recoverFromSidecarGap now sidecar lastFile in
            if advanced : bool then ret tt else merr IeMismatch
          else merr IeMismatch
      | _ =>
          let* advanced := recoverFromSidecarGap now sidecar lastFile in
          if advanced : bool then ret tt else merr IeMalformedLast
      end
  end.

(** *** Boundaries *)

Definition boundary_event (now : Z) (reason reasonCode keyFingerprint : string) (prior : option (Z * string)) : json :=
  JObject [("timestamp", time_json now); ("type", JString "integrity_chain_rotated"); ("session_id", JString "");
    ("fields", JObject [
      ("new_chain", JObject [("format_version", JNumber (pretty IntegrityFormatVersion)); ("key_fingerprint", JString keyFingerprint);
                             ("sequence", JNumber (pretty 0))]);
      ("prior_chain_summary", match prior with
        | None => JNull
        | Some (sq, h) => JObject [("last_entry_hash_seen_in_log", JString h); ("last_sequence_seen_in_log", JNumber (pretty sq))]
        end);
      ("reason", JString reason); ("reason_code", JString reasonCode)])].

Definition wrap_payload (payload : string) : IntM string := λ s,
  match Wrap payload (is_chain s.1) with
  | (Wrapped w, c) => (Ok w, (is_set_chain c s.1, s.2))
  | (WrapErr e, c) => (Err (IeWrap e), (is_set_chain c s.1, s.2))
  | (WrapPanic, c) => (Err IePanic, (is_set_chain c s.1, s.2))
  end.

(** A call on the inner store. *)
Definition on_inner {A} (m : JsonlM A) : M (IntegrityStore * Disk) JsonlErr A := λ s,
  let '(r, (j, d)) := m (is_inner s.1, s.2) in (r, (is_set_inner j s.1, d)).

Definition appendRotationBoundary (now : Z) (reasonCode reason : string) (prior : option (Z * string)) : IntM unit :=
  let* s := mget fst in
  let* wrapped := wrap_payload (json_Marshal (boundary_event now reason reasonCode (is_keyFingerprint s) prior)) in
  do* merr_map IeWrite (on_inner (WriteRaw wrapped)) in
  let* s := mget fst in
  let '(sequence, prevHash) := ic_State (is_chain s) in
  write_sidecar now sequence prevHash.

Definition bootstrapWithoutSidecar (now : Z) (files : list LogFile) (last : Result SetErr (LogFile * string)) (reasonCode reason : string) : IntM unit :=
  match last with
  | Err SetNotExist => appendRotationBoundary now "initial" "initial chain creation" None
  | Err e => merr (IeSet e)
  | Ok (lastFile, lastLine) =>
      let* s := mget fst in
      match ParseIntegrityEntry lastLine with
      | None => merr IeCorruptedLast
      | Some (Build_ParsedEntry typ integrity payload) =>
          match integrity with
          | None => merr IeLegacyLast
          | Some m =>
              if im_FormatVersion m <? IntegrityFormatVersion then merr IeLegacyLast
              else if IntegrityFormatVersion <? im_FormatVersion m then merr IeUnsupportedLast
              else
                let verified := chain_VerifyHash (is_chain s) m payload in
                let validate := on_disk IeVisible (validateVisibleChain (is_chain s) files) in
                if String.eqb typ "integrity_chain_rotated" && (im_Sequence m =? 0) && bool_decide (verified = Some true) then
                  do* validate in
                  do* restore_chain (im_Sequence m) (im_EntryHash m) in
                  write_sidecar now (im_Sequence m) (im_EntryHash m)
                else match verified with
                | None => merr IeVerifyLast
                | Some false => merr IeInvalidLast
                | Some true =>
                    do* validate in
                    appendRotationBoundary now reasonCode reason (Some (im_Sequence m, im_EntryHash m))
                end
          end
      end
  end.

Definition bootstrap (now : Z) : IntM unit :=
  let* s := mget fst in
  let* files := on_disk IeSet (DiscoverRotationSet (is_logPath s)) in
  let* sidecar := mtry (on_disk id (ReadSidecar (is_sidecarPath s))) in
  let* last := mtry (on_disk id (ReadLastNonEmptyLine files)) in
  match sidecar with
  | Ok sidecar =>
      if negb (String.eqb (sd_KeyFingerprint sidecar) (is_keyFingerprint s)) then merr IeKeyFingerprint
      else
        do* on_disk IeVisible (validateVisibleChain (is_chain s) files) in
        resumeFromSidecar now sidecar last
  | Err ErrSidecarNotFound => bootstrapWithoutSidecar now files last "sidecar_missing" "sidecar missing; starting fresh chain"
  | Err ErrSidecarCorrupt =>
      match last with
      | Err SetNotExist => merr IeNoLogWithCorruptSidecar
      | _ => bootstrapWithoutSidecar now files last "sidecar_corrupt" "sidecar corrupt; starting fresh chain"
      end
  | Err e => merr (IeSidecar e)
  end.

(** *** The store *)

(** [fingerprint] is what [KeyFingerprint] gives for the chain's key. *)
Definition NewIntegrityStore (now : Z) (inner : Jsonl) (chain : IntegrityChain) (logPath algorithm keyFingerprint fingerprint : string)
    : M Disk IntErr IntegrityStore := λ d,
  let algorithm := if String.eqb algorithm "" then "hmac-sha256" else algorithm in
  let keyFingerprint := if String.eqb keyFingerprint "" then fingerprint else keyFingerprint in
  match bootstrap now (mkIntegrityStore inner chain logPath algorithm keyFingerprint false false false, d) with
  | (Err e, (_, d)) => (Err e, d)
  | (Ok _, (s, d)) => (Ok (is_set_inner (SetSyncOnWrite false (is_inner s)) s), d)
  end.

Definition Int_AppendEvent (ev : Ev) : IntM unit :=
  match json_MarshalEvent ev with
  | None => merr IeMarshal
  | Some payload =>
      let* s := mget fst in
      if is_fatal s then merr ErrIntegrityFatal
      else
        let '(prevSeq, prevHash) := ic_State (is_chain s) in
        let* wrapped := wrap_payload payload in
        let* w := mtry (on_inner (WriteRaw wrapped)) in
        match w with
        | Err e =>
            if IsPartialWrite e then
              do* mput (λ s, (is_set_fatal s.1, s.2)) in merr (IeFatal "write audit log")
            else
              do* restore_chain prevSeq prevHash in merr (IeWrite e)
        | Ok _ => mput (λ s, (is_set_pending true s.1, s.2))
        end
  end.

(** FlushSync up to where it releases the lock: the position to persist. *)
Definition flush_begin : IntM (option (Z * string)) :=
  let* s := mget fst in
  if negb (is_pendingFlush s) || is_fatal s then ret None
  else do* mput (λ s, (is_set_pending false s.1, s.2)) in ret (Some (ic_State (is_chain s))).

(** And after it: other calls may have come in between. *)
Definition flush_end (now : Z) (position : Z * string) : IntM unit :=
  let* sy := mtry (on_inner jsonl_Sync) in
  match sy with
  | Err _ => do* mput (λ s, (is_set_fatal s.1, s.2)) in merr (IeFatal "sync audit log")
  | Ok _ =>
      let* w := mtry (write_sidecar now position.1 position.2) in
      match w with
      | Err _ => do* mput (λ s, (is_set_fatal s.1, s.2)) in merr (IeFatal "write audit integrity sidecar")
      | Ok _ => ret tt
      end
  end.

Definition FlushSync (now : Z) : IntM unit :=
  let* p := flush_begin in
  match p with None => ret tt | Some position => flush_end now position end.

Definition Int_Close (now : Z) : IntM unit :=
  let* s := mget fst in
  if is_closed s then ret tt
  else
    do* mput (λ s, (is_set_closed s.1, s.2)) in
    do* mtry (FlushSync now) in
    merr_map IeWrite (on_inner jsonl_Close).
End integrity.
