(* ===== verification/AuditLogProps.v ===== *)
(** * Properties of the signed audit log

    The last line of a log, read from its end in chunks, is the last line that is not blank;
    what a start of the program accepts is authentic; and three crashes that the recovery of
    a start does not undo. *)

From stdpp Require Import pretty.
From S2P Require Import Prelude AuditChain WalFs McpIntercept AuditLog.
Open Scope Z_scope.

(** ** Strings *)

Lemma str_take_length_app n s t : (n <= String.length s)%nat → str_take n (s +:+ t) = str_take n s.
Proof.
  revert s. induction n as [|n IH]; intros s Hn; [by destruct (s +:+ t), s|]. destruct s as [|c s]; [cbn in Hn; lia|].
  rewrite string_app_cons. cbn in *. rewrite IH by lia. done.
Qed.
Lemma str_take_all s : str_take (String.length s) s = s.
Proof. induction s as [|c s IH]; [done|]. cbn. by rewrite IH. Qed.
Lemma str_take_ge n s : (String.length s <= n)%nat → str_take n s = s.
Proof. revert s. induction n as [|n IH]; intros [|c s] Hn; cbn in *; try done; [lia|]. by rewrite IH by lia. Qed.
Lemma length_str_take n s : String.length (str_take n s) = Nat.min n (String.length s).
Proof. revert s. induction n as [|n IH]; intros [|c s]; cbn; try done. by rewrite IH. Qed.
Lemma str_take_add n k s : str_take (n + k) s = str_take n s +:+ str_take k (str_drop n s).
Proof. revert s. induction n as [|n IH]; intros [|c s]; cbn; try done; [by destruct k|]. rewrite string_app_cons. by rewrite IH. Qed.

(** No line end *)
Definition one_line (s : string) : Prop := str_mem newline s = false.

Lemma one_line_app s t : one_line (s +:+ t) ↔ one_line s ∧ one_line t.
Proof.
  unfold one_line, str_mem. induction s as [|c s IH]; [naive_solver|]. rewrite string_app_cons. cbn. rewrite !orb_false_iff, IH. tauto.
Qed.

Lemma Split_one_line s : one_line s → Split s newline = [s].
Proof.
  unfold one_line, str_mem. induction s as [|c s IH]; [done|]. cbn -[newline Ascii.eqb]. intros [Hc Hs]%orb_false_iff. rewrite IH by done.
  rewrite Ascii.eqb_sym, Hc. done.
Qed.

Lemma Split_line s t : one_line t → Split (s +:+ line_end +:+ t) newline = Split s newline ++ [t].
Proof. intros Ht. rewrite <- (Split_one_line t Ht). apply Split_app. Qed.

(** ** The last line of a file *)
Section last_line.
Context `{GoLib}.

(** The reference: the last line that is not blank. *)
Definition nonblank (l : string) : bool := negb (String.eqb (TrimSpace l) "").
Definition last_nonblank (s : string) : option string := TrimSpace <$> last (List.filter nonblank (Split s newline)).

Lemma filter_snoc_bool {A} (p : A → bool) l x : List.filter p (l ++ [x]) = List.filter p l ++ (if p x then [x] else []).
Proof. rewrite List.filter_app. cbn. by destruct (p x). Qed.

Lemma last_nonblank_line s t : one_line t →
  last_nonblank (s +:+ line_end +:+ t) = if nonblank t then Some (TrimSpace t) else last_nonblank s.
Proof.
  intros Ht. unfold last_nonblank. rewrite Split_line, filter_snoc_bool by done. destruct (nonblank t); [by rewrite last_snoc | by rewrite app_nil_r].
Qed.

Lemma byte_at_split i s : byte_at i s = Some newline → s = str_take i s +:+ line_end +:+ str_drop (S i) s.
Proof.
  unfold byte_at. revert s. induction i as [|i IH]; intros [|c s]; cbn -[newline Ascii.eqb]; try done; [by intros [= ->]|].
  intros Hi. rewrite string_app_cons. f_equal. by apply IH.
Qed.

Lemma byte_at_not i s : (i < String.length s)%nat → byte_at i s ≠ Some newline → one_line (sub i (S i) s).
Proof.
  unfold byte_at, sub. replace (S i - i)%nat with 1%nat by lia. revert s. induction i as [|i IH]; intros [|c s] Hi Hb; cbn -[newline Ascii.eqb] in *; try lia.
  - unfold one_line, str_mem. cbn -[newline Ascii.eqb]. rewrite orb_false_r. destruct (Ascii.eqb_spec newline c); [by subst|done].
  - apply IH; [lia|done].
Qed.

Lemma sub_split i j k s : (i <= j <= k)%nat → sub i k s = sub i j s +:+ sub j k s.
Proof.
  intros Hj. unfold sub. replace (k - i)%nat with ((j - i) + (k - j))%nat by lia. rewrite str_take_add. do 2 f_equal.
  replace j with (i + (j - i))%nat at 2 by lia. generalize (j - i)%nat as n. clear. revert s.
  induction i as [|i IH]; intros s n; [done|]. destruct s; cbn; [by destruct n|]. apply IH.
Qed.

Lemma take_sub i j s : (i <= j)%nat → str_take j s = str_take i s +:+ sub i j s.
Proof. intros Hj. unfold sub. replace j with (i + (j - i))%nat at 1 by lia. apply str_take_add. Qed.

(** What the scan of a chunk finds, whatever stands before the chunk. *)
Lemma scan_back_spec i data se : (i <= se)%nat → (se <= String.length data)%nat → one_line (sub i se data) →
  match scan_back i data se with
  | inl l => ∀ pre, last_nonblank (pre +:+ str_take se data) = Some l
  | inr se' => (se' <= se)%nat ∧ one_line (str_take se' data) ∧ ∀ pre, last_nonblank (pre +:+ str_take se data) = last_nonblank (pre +:+ str_take se' data)
  end.
Proof.
  revert se. induction i as [|i IH]; intros se Hi Hse Hone; cbn [scan_back].
  { split_and!; [done| |done]. by rewrite (take_sub 0 se data ltac:(lia)). }
  case_bool_decide as Hb.
  - assert (Hcut : str_take se data = str_take i data +:+ line_end +:+ sub (S i) se data).
    { rewrite (take_sub (S i) se) by lia. rewrite (byte_at_split i data Hb) at 1. rewrite <- string_app_assoc.
      rewrite str_take_length_app by (rewrite string_length_app, length_str_take; cbn; lia).
      rewrite str_take_ge by (rewrite string_length_app, length_str_take; cbn; lia). by rewrite string_app_assoc. }
    destruct (String.eqb_spec (TrimSpace (sub (S i) se data)) "") as [He|Hne]; cbn [negb].
    + specialize (IH i ltac:(lia) ltac:(lia)). assert (Ho : one_line (sub i i data)) by (unfold sub; rewrite Nat.sub_diag; by destruct (str_drop i data)).
      specialize (IH Ho). destruct (scan_back i data i) as [l|se'].
      * intros pre. rewrite Hcut, <- string_app_assoc, last_nonblank_line by done. unfold nonblank. rewrite He. cbn. apply IH.
      * destruct IH as (Hle & Ho' & Heq). split_and!; [lia|done|]. intros pre. rewrite <- Heq, Hcut, <- string_app_assoc, last_nonblank_line by done.
        unfold nonblank. by rewrite He.
    + intros pre. rewrite Hcut, <- string_app_assoc, last_nonblank_line by done. unfold nonblank.
      by destruct (String.eqb_spec (TrimSpace (sub (S i) se data)) "").
  - apply IH; [lia|done|]. rewrite (sub_split i (S i) se) by lia. apply one_line_app. split; [by apply byte_at_not; [lia|]|done].
Qed.

Definition quiet (d : Disk) : Prop := dk_faults d = [].

Lemma may_fail_quiet {A} (v : A) d : quiet d → may_fail v d = (Ok v, d).
Proof. destruct d as [fs flt]. unfold quiet. cbn. by intros ->. Qed.

(** The loop over chunks finds what the reference finds in all that is not read yet and the
    tail: every chunk but the last scan leaves a tail in one line. *)
Lemma last_line_loop_spec fuel chunk content end_ tl d : quiet d → (0 < chunk)%nat → (end_ <= fuel)%nat → (end_ < String.length content)%nat →
  one_line tl → last_line_loop fuel chunk content end_ tl d =
    (match last_nonblank (str_take end_ content +:+ tl) with Some l => Ok l | None => Err ErrNotExist end, d).
Proof.
  intros Hd Hch. revert end_ tl. induction fuel as [|fuel IH]; intros end_ tl Hf Hend Ht; destruct end_ as [|e]; try lia; cbn [last_line_loop].
  1, 2: replace (str_take 0 content) with "" by (by destruct content); change ("" +:+ tl) with tl; unfold last_nonblank;
    rewrite Split_one_line by done; cbn [List.filter]; unfold nonblank; destruct (String.eqb_spec (TrimSpace tl) ""); cbn; done.
  set (end_ := S e) in *. set (start := (end_ - Nat.min end_ chunk)%nat). unfold bindM. rewrite may_fail_quiet by done.
  set (data := sub start end_ content +:+ tl). rewrite bool_decide_false by lia. cbn [andb].
  assert (Hall : str_take end_ content +:+ tl = str_take start content +:+ str_take (String.length data) data).
  { rewrite str_take_all. unfold data. rewrite <- string_app_assoc, <- take_sub by lia. done. }
  pose proof (scan_back_spec (String.length data) data (String.length data) ltac:(lia) ltac:(lia)) as Hs.
  assert (Ho : one_line (sub (String.length data) (String.length data) data)) by (unfold sub; rewrite Nat.sub_diag; by destruct (str_drop _ data)).
  specialize (Hs Ho). rewrite Hall. destruct (scan_back _ data _) as [l|se']; [by rewrite Hs|].
  destruct Hs as (_ & Ho' & Heq). rewrite IH by (done || lia). by rewrite <- Heq.
Qed.

Lemma drop_last_newline data : byte_at (pred (String.length data)) data = Some newline →
  data = str_take (pred (String.length data)) data +:+ line_end.
Proof.
  intros Hb. rewrite (byte_at_split _ _ Hb) at 1. do 2 f_equal. destruct data as [|c data]; [done|]. cbn [String.length pred].
  cbn [str_drop]. clear. induction data as [|x data IH]; [done|]. exact IH.
Qed.

Lemma last_nonblank_end s : last_nonblank (s +:+ line_end) = last_nonblank s.
Proof. change (s +:+ line_end) with (s +:+ line_end +:+ ""). by rewrite last_nonblank_line. Qed.

(** readLastNonEmptyLineFromFile, which reads from the end in chunks, gives the last line of
    the file that is not blank. *)
Lemma readLast_spec path content d : quiet d → dk_files d !! path = Some content →
  readLastNonEmptyLineFromFile path d = (match last_nonblank content with Some l => Ok l | None => Err ErrNotExist end, d).
Proof.
  intros Hd Hp. unfold readLastNonEmptyLineFromFile, bindM, lookup_file, mget. rewrite Hp. rewrite !may_fail_quiet by done.
  destruct (Nat.eqb_spec (String.length content) 0) as [Hz|Hnz]; [by destruct content|].
  assert (Hch : (0 < chunkSize)%nat) by (unfold chunkSize; lia). revert Hch. generalize chunkSize as chunk. intros chunk Hch.
  set (n := String.length content) in *. destruct n as [|e] eqn:Hn; [done|]. cbn [last_line_loop]. rewrite <- Hn.
  set (start := (n - Nat.min n chunk)%nat). unfold bindM. rewrite may_fail_quiet by done. rewrite string_app_nil.
  set (data := sub start n content). rewrite bool_decide_true by done. cbn [andb].
  assert (Hall : content = str_take start content +:+ data).
  { unfold data. rewrite <- take_sub by lia. unfold n. by rewrite str_take_all. }
  assert (Hmain : ∀ se, (se <= String.length data)%nat → last_nonblank content = last_nonblank (str_take start content +:+ str_take se data) →
    match scan_back se data se with
    | inl line => ret line
    | inr scanEnd => last_line_loop e chunk content start (str_take scanEnd data)
    end d = (match last_nonblank content with Some l => Ok l | None => Err ErrNotExist end, d)).
  { intros se Hse ->. pose proof (scan_back_spec se data se ltac:(lia) Hse) as Hs.
    assert (Ho : one_line (sub se se data)) by (unfold sub; rewrite Nat.sub_diag; by destruct (str_drop _ data)). specialize (Hs Ho).
    destruct (scan_back se data se) as [l|se']; [by rewrite Hs|]. destruct Hs as (_ & Ho' & Heq).
    rewrite last_line_loop_spec by (done || lia). by rewrite <- Heq. }
  case_bool_decide as Hb.
  - apply Hmain; [lia|]. rewrite Hall at 1. rewrite (drop_last_newline data Hb) at 1. rewrite <- string_app_assoc. apply last_nonblank_end.
  - apply Hmain; [lia|]. by rewrite str_take_all, <- Hall.
Qed.

(** The reference for a rotation set: the newest file with such a line. *)
Definition last_in (d : Disk) (f : LogFile) : option (LogFile * string) :=
  content ← dk_files d !! lf_Path f; line ← last_nonblank content; Some (f, line).
Definition last_of_set (files : list LogFile) (d : Disk) : option (LogFile * string) := head (omap (last_in d) (reverse files)).

(** The search for the last line of the log. ReadLastNonEmptyLine goes through the files
    from the newest, and each from its end in chunks of 64 KiB whose unread heads it carries
    along; on a disk that does not fail, what it returns is the last line that is not blank,
    trimmed, of the newest file that has one, wherever the chunks cut the lines; and
    not-exist when there is none. *)
Theorem last_line_found files d : quiet d →
  ReadLastNonEmptyLine files d = (match last_of_set files d with Some x => Ok x | None => Err SetNotExist end, d).
Proof.
  intros Hd. unfold ReadLastNonEmptyLine, last_of_set. induction (reverse files) as [|f l IH]; [done|].
  cbn [read_last omap list_omap]. unfold bindM at 1, mtry. unfold last_in at 1.
  destruct (dk_files d !! lf_Path f) as [content|] eqn:Hf.
  - rewrite (readLast_spec _ content) by done. cbn. by destruct (last_nonblank content).
  - unfold readLastNonEmptyLineFromFile, bindM, lookup_file, mget. rewrite Hf. exact IH.
Qed.
End last_line.

(** ** Authenticity *)

(** encoding/json: an object that was decoded is read back when it is printed again, as a
    whole or without some of its fields. *)
Definition decodable `{JsonLib} (m : gmap string json) : Prop := ∃ s kvs, json_Unmarshal s = Some (JObject kvs) ∧ fields_to_map kvs = m.

Class JsonLaws `{JsonLib} := {
  marshal_decodable : ∀ m m', decodable m → m' ⊆ m →
    ∃ kvs, json_Unmarshal (marshal_map m') = Some (JObject kvs) ∧ kvs ≡ₚ map_to_list m'
}.

Section props.
Context `{GoLib, JsonLib, HmacLib, TimeLib, EventJson, !JsonLaws}.

(** ** Entries *)

Record Entry := mkEntry { en_type : string; en_meta : IntegrityMetadata; en_payload : string }.

Definition parse_entry (raw : string) : option Entry :=
  let line := TrimSpace raw in
  if String.eqb line "" then None
  else match ParseIntegrityEntry line with
  | Some (Build_ParsedEntry typ (Some m) payload) => Some (mkEntry typ m payload)
  | _ => None
  end.

(** The entries of a file: its lines and what stands after them. *)
Definition entries_of (content : string) : list Entry :=
  let '(ls, rest) := split_lines content in omap parse_entry (ls ++ [rest]).

Definition visible_log (files : list LogFile) (d : Disk) : list Entry :=
  mjoin ((λ f, match dk_files d !! lf_Path f with Some content => entries_of content | None => [] end) <$> files).

(** The checks of validateVisibleChain on entries, whichever files they are in. *)
Definition accepts (c : IntegrityChain) (e : Entry) (st st' : visibleChainState) : Prop :=
  ∃ file, check_entry c file (en_type e) (en_meta e) (en_payload e) st = Ok st'.

Inductive accepted (c : IntegrityChain) : list Entry → visibleChainState → Prop :=
| accepted_nil : accepted c [] no_entries
| accepted_snoc l st e st' : accepted c l st → accepts c e st st' → accepted c (l ++ [e]) st'.

(** Parsing by [json_Unmarshal]. *)
Lemma parse_Unmarshal s : parseIntegrityPayloadUseNumber s =
  match json_Unmarshal s with Some (JObject kvs) => Some (Some (fields_to_map kvs)) | Some JNull => Some None | _ => None end.
Proof.
  unfold parseIntegrityPayloadUseNumber, json_Unmarshal. destruct (json_Decode s) as [[[] rest]|]; try done; by destruct (json_EOF rest).
Qed.

Lemma parse_marshal m m' : decodable m → m' ⊆ m → parseIntegrityPayloadUseNumber (marshal_map m') = Some (Some m').
Proof.
  intros Hm Hs. destruct (marshal_decodable m m' Hm Hs) as (kvs & Hk & Hp). rewrite parse_Unmarshal, Hk. do 2 f_equal.
  rewrite fields_to_map_plain by (rewrite Hp; apply NoDup_fst_map_to_list).
  rewrite (list_to_map_proper _ (map_to_list m')), list_to_map_to_list; [done| |done]. rewrite Hp. apply NoDup_fst_map_to_list.
Qed.

(** An entry read from a line: its payload is that of an object without metadata. *)
Lemma parse_entry_payload raw e : parse_entry raw = Some e →
  ∃ m, decodable m ∧ en_payload e = marshal_map (delete "integrity" m) ∧ en_type e = default "" (json_string (m !! "type")).
Proof.
  unfold parse_entry. destruct (String.eqb _ ""); [done|]. unfold ParseIntegrityEntry. rewrite parse_Unmarshal.
  destruct (json_Unmarshal _) as [[]|] eqn:Hu; try done. cbn -[integrityMetadataFromMap].
  destruct (fields_to_map fields !! "integrity") as [v|] eqn:Hi; cbn -[integrityMetadataFromMap]; [|done].
  destruct (integrityMetadataFromMap (Some v)); [|done]. intros [= <-].
  exists (fields_to_map fields). split_and!; [by eexists _, fields | done | done].
Qed.

(** ** What validateVisibleChain accepts *)

Lemma accepted_app c l1 l2 st : accepted c (l1 ++ l2) st → ∃ st1, accepted c l1 st1.
Proof.
  revert st. induction l2 as [|e l2 IH] using rev_ind; intros st; [rewrite app_nil_r; by exists st|].
  rewrite app_assoc. intros Ha. inversion Ha as [Hn|l st0 e0 st' Hl He Heq]; [by destruct (l1 ++ l2)|].
  apply app_inj_2 in Heq as [-> _]; [|done]. by eapply IH.
Qed.

Lemma validate_line_accepted c file raw eof l st st' : accepted c l st → validate_line c file raw eof st = Ok st' →
  accepted c (l ++ option_list (parse_entry raw)) st'.
Proof.
  intros Ha. unfold validate_line, parse_entry. destruct (String.eqb _ "").
  { intros [= <-]. by rewrite app_nil_r. }
  destruct (ParseIntegrityEntry _) as [[typ [m|] payload]|]; cbn [option_list].
  - intros Hc. eapply accepted_snoc; [done|]. by exists file.
  - rewrite app_nil_r. destruct (eof && _); [|done]. by intros [= <-].
  - rewrite app_nil_r. destruct (eof && _); [|done]. by intros [= <-].
Qed.

Lemma validate_lines_accepted c file ls l st st' : accepted c l st → validate_lines c file ls st = Ok st' →
  accepted c (l ++ omap parse_entry ls) st'.
Proof.
  revert l st. induction ls as [|raw ls IH]; intros l st Ha; cbn [validate_lines].
  { intros [= <-]. cbn. by rewrite app_nil_r. }
  destruct (validate_line c file raw false st) as [st1|] eqn:Hv; cbn [rbind]; [|done]. intros Hr.
  pose proof (validate_line_accepted _ _ _ _ _ _ _ Ha Hv) as Ha1. specialize (IH _ _ Ha1 Hr). rewrite <- app_assoc in IH.
  cbn. by destruct (parse_entry raw).
Qed.

Lemma validate_file_accepted c file content l st st' : accepted c l st → validate_file c file (content, false) st = Ok st' →
  accepted c (l ++ entries_of content) st'.
Proof.
  intros Ha. unfold validate_file, entries_of. cbn [fst snd]. destruct (split_lines content) as [ls rest].
  destruct (validate_lines c file ls st) as [st1|] eqn:Hv; cbn [rbind]; [|done].
  pose proof (validate_lines_accepted _ _ _ _ _ _ Ha Hv) as Ha1. rewrite omap_app, app_assoc. cbn.
  destruct (String.eqb_spec rest "") as [->|Hr].
  - intros [= <-]. change (parse_entry "") with (@None Entry). by rewrite app_nil_r.
  - intros Hl. pose proof (validate_line_accepted _ _ _ _ _ _ _ Ha1 Hl) as Ha2. by destruct (parse_entry rest).
Qed.

Lemma validate_files_accepted c files l st d d' : accepted c l st → validate_files c files st d = (Ok tt, d') →
  ∃ st', accepted c (l ++ visible_log files d) st'.
Proof.
  revert l st d. induction files as [|f files IH]; intros l st d Ha; cbn [validate_files].
  { intros _. exists st. unfold visible_log. cbn. by rewrite app_nil_r. }
  unfold bindM at 1, mtry, open_reader, bindM, lookup_file, mget. unfold visible_log. cbn [fmap list_fmap mjoin list_join].
  destruct (dk_files d !! lf_Path f) as [content|] eqn:Hf; cbn -[validate_files].
  2: { intros Hr. destruct (IH _ _ _ Ha Hr) as [st' Hst]. by exists st'. }
  destruct (default None (head (dk_faults d))) as [[|n]|]; cbn -[validate_files validate_file].
  - done.
  - unfold mlift. destruct (validate_file c f (str_take n content, true) st) as [st1|] eqn:Hv; [|done].
    unfold validate_file in Hv. cbn [fst snd] in Hv. destruct (split_lines _) as [ls rest]. by destruct (validate_lines c f ls st).
  - unfold mlift. destruct (validate_file c f (content, false) st) as [st1|] eqn:Hv; [|done]. intros Hr.
    pose proof (validate_file_accepted _ _ _ _ _ _ Ha Hv) as Ha1. destruct (IH _ _ _ Ha1 Hr) as [st' Hst]. exists st'.
    rewrite <- app_assoc in Hst. exact Hst.
Qed.

Lemma validate_accepted c files d d' : validateVisibleChain c files d = (Ok tt, d') → ∃ st, accepted c (visible_log files d) st.
Proof. intros Hv. apply (validate_files_accepted c files [] no_entries d d'); [constructor | done]. Qed.

(** ** Entries with the same hash *)

Definition en_hash (e : Entry) : string := im_EntryHash (en_meta e).
Definition well_read (e : Entry) : Prop := ∃ raw, parse_entry raw = Some e.

Definition is_boundary (e : Entry) : bool :=
  String.eqb (en_type e) "integrity_chain_rotated" && (im_Sequence (en_meta e) =? 0) && String.eqb (im_PrevHash (en_meta e)) "".
(** The hash of the entry before a boundary, from what is signed. *)
Definition summary_hash (e : Entry) : option string :=
  ev ← json_Unmarshal (en_payload e) ≫= dec_boundary (mkBoundaryFields "" None); sm_LastEntryHash <$> bf_PriorChainSummary ev.

(** The hash an entry says stands before it. *)
Definition link (e : Entry) : option string := if is_boundary e then summary_hash e else Some (im_PrevHash (en_meta e)).

Lemma accepts_spec c e st st' : accepts c e st st' →
  expectedPrevHash st' = en_hash e ∧ seeded st' = true ∧ verifiedEntries st' = S (verifiedEntries st) ∧
  chain_VerifyHash c (en_meta e) (en_payload e) = Some true ∧
  (verifiedEntries st ≠ 0%nat → seeded st = true → link e = Some (expectedPrevHash st)).
Proof.
  intros [file Hc]. unfold check_entry in Hc. destruct (_ <? _); [done|]. destruct (_ <? _); [done|].
  fold (is_boundary e) in Hc. unfold link, summary_hash. destruct (is_boundary e) eqn:Hb.
  - unfold validateRotationBoundary in Hc. destruct (json_Unmarshal (en_payload e) ≫= _) as [ev|] eqn:Hu; [|done].
    destruct (verifiedEntries st =? 0)%nat eqn:Hz.
    + destruct (_ && _ && _); [done|]. cbn [rbind] in Hc. destruct (chain_VerifyHash _ _ _) as [[]|]; [|done..]. injection Hc as <-.
      split_and!; try done. apply Nat.eqb_eq in Hz. by rewrite Hz.
    + cbn. destruct (bf_PriorChainSummary ev) as [sm|]; [|done]. destruct (negb (_ =? _)); [done|].
      destruct (String.eqb_spec (sm_LastEntryHash sm) (expectedPrevHash st)) as [Heq|]; [|done]. cbn [negb rbind] in Hc.
      destruct (chain_VerifyHash _ _ _) as [[]|]; [|done..]. injection Hc as <-. split_and!; try done. intros _ _. cbn. by rewrite Heq.
  - set (st1 := if negb (seeded st) then _ else st) in Hc.
    assert (Hs1 : verifiedEntries st1 = verifiedEntries st ∧ (seeded st = true → st1 = st)).
    { unfold st1. destruct (seeded st); [done|]. cbn. by destruct (_ && _). }
    destruct (_ =? expectedSequence st1); [|done]. destruct (String.eqb_spec (im_PrevHash (en_meta e)) (expectedPrevHash st1)) as [Heq|]; [|done].
    cbn [negb rbind] in Hc. destruct (chain_VerifyHash _ _ _) as [[]|]; [|done..]. injection Hc as <-. destruct Hs1 as [Hv Hs].
    cbn. rewrite Hv. split_and!; try done. intros _ Hsd. by rewrite Heq, (Hs Hsd).
Qed.

Lemma accepted_last c l e st : accepted c (l ++ [e]) st → ∃ st0, accepted c l st0 ∧ accepts c e st0 st.
Proof.
  intros Ha. inversion Ha as [Hn|l0 st0 e0 st' Hl He Heq]; [by destruct l|]. apply app_inj_2 in Heq as [-> [= ->]]; [|done]. by exists st0.
Qed.

Lemma accepted_ends c l e st : accepted c (l ++ [e]) st → expectedPrevHash st = en_hash e ∧ seeded st = true ∧ verifiedEntries st ≠ 0%nat ∧
  chain_VerifyHash c (en_meta e) (en_payload e) = Some true.
Proof. intros (st0 & _ & Ha)%accepted_last. destruct (accepts_spec _ _ _ _ Ha) as (? & ? & Hv & ? & _). rewrite Hv. done. Qed.

(** An entry behind another one is linked to it. *)
Lemma accepted_link c l e0 e st : accepted c (l ++ [e0; e]) st → link e = Some (en_hash e0).
Proof.
  change [e0; e] with ([e0] ++ [e]). rewrite app_assoc. intros (st0 & Hl & Ha)%accepted_last.
  destruct (accepted_ends _ _ _ _ Hl) as (Hh & Hs & Hv & _). destruct (accepts_spec _ _ _ _ Ha) as (_ & _ & _ & _ & Hk).
  rewrite <- Hh. by apply Hk.
Qed.

(** The hash of a verified entry, over its payload as it stands. *)
Lemma verified_hash c e : well_read e → chain_VerifyHash c (en_meta e) (en_payload e) = Some true →
  computeIntegrityHash (sc_key (ic_chain c)) (sc_algorithm (ic_chain c)) (im_FormatVersion (en_meta e)) (im_Sequence (en_meta e))
    (im_PrevHash (en_meta e)) (en_payload e) = Some (en_hash e).
Proof.
  intros [raw (m & Hm & -> & _)%parse_entry_payload]. unfold chain_VerifyHash, VerifyHash.
  rewrite (parse_marshal m) by (done || apply delete_subseteq). cbn -[computeIntegrityHash]. rewrite delete_delete_eq.
  destruct (computeIntegrityHash _ _ _ _ _ _) as [h|]; [|done]. cbn. unfold hmac_Equal. intros [= Hh]. by apply String.eqb_eq in Hh as ->.
Qed.

(** The payload decides the type. *)
Lemma payload_type e1 e2 : well_read e1 → well_read e2 → en_payload e1 = en_payload e2 → en_type e1 = en_type e2.
Proof.
  intros [raw1 (m1 & Hm1 & Hp1 & ->)%parse_entry_payload] [raw2 (m2 & Hm2 & Hp2 & ->)%parse_entry_payload] Hp.
  assert (Hd : delete "integrity" m1 = delete "integrity" m2).
  { pose proof (parse_marshal m1 (delete "integrity" m1) Hm1 (delete_subseteq _ _)) as Hu1.
    pose proof (parse_marshal m2 (delete "integrity" m2) Hm2 (delete_subseteq _ _)) as Hu2.
    rewrite <- Hp1, Hp, Hp2, Hu2 in Hu1. by injection Hu1. }
  do 2 f_equal. rewrite <- (lookup_delete_ne m1 "integrity" "type"), Hd by done. by rewrite lookup_delete_ne.
Qed.

Lemma link_bar_free c l e0 e st : Forall well_read (l ++ [e0; e]) → accepted c (l ++ [e0; e]) st → bar_free (im_PrevHash (en_meta e)) = true.
Proof.
  intros Hw Ha. pose proof (accepted_link _ _ _ _ _ Ha) as Hk. unfold link in Hk. destruct (is_boundary e) eqn:Hb.
  - unfold is_boundary in Hb. apply andb_true_iff in Hb as [_ ->%String.eqb_eq]. done.
  - injection Hk as ->. change [e0; e] with ([e0] ++ [e]) in *. rewrite app_assoc in Ha. apply accepted_last in Ha as (st0 & Ha & _).
    destruct (accepted_ends _ _ _ _ Ha) as (_ & _ & _ & Hv). rewrite !Forall_app in Hw. destruct Hw as (_ & Hw & _).
    inversion Hw as [|? ? Hw0 _]; subst. by eapply computed_bar_free, verified_hash.
Qed.

(** The message that is signed for an entry. *)
Definition message (e : Entry) : string :=
  preimage (im_FormatVersion (en_meta e)) (im_Sequence (en_meta e)) (im_PrevHash (en_meta e)) (en_payload e).
(** An entry of each log, with one hash, signed over different messages. *)
Definition colliding (key : string) (l1 l2 : list Entry) : Prop :=
  ∃ e1 e2, e1 ∈ l1 ∧ e2 ∈ l2 ∧ en_hash e1 = en_hash e2 ∧ collide key (message e1) (message e2).

(** Two entries of accepted logs with the same hash, behind other entries, are the same. *)
Lemma same_hash_same_entry c l1 d1 e1 st1 l2 d2 e2 st2 :
  Forall well_read (l1 ++ [d1; e1]) → Forall well_read (l2 ++ [d2; e2]) →
  accepted c (l1 ++ [d1; e1]) st1 → accepted c (l2 ++ [d2; e2]) st2 → en_hash e1 = en_hash e2 →
  e1 = e2 ∨ collide (sc_key (ic_chain c)) (message e1) (message e2).
Proof.
  intros Hw1 Hw2 Ha1 Ha2 Hh. pose proof (link_bar_free _ _ _ _ _ Hw1 Ha1) as Hb1. pose proof (link_bar_free _ _ _ _ _ Hw2 Ha2) as Hb2.
  assert (Hr1 : well_read e1) by (rewrite Forall_app, !Forall_cons in Hw1; tauto).
  assert (Hr2 : well_read e2) by (rewrite Forall_app, !Forall_cons in Hw2; tauto).
  change [d1; e1] with ([d1] ++ [e1]) in Ha1. change [d2; e2] with ([d2] ++ [e2]) in Ha2. rewrite app_assoc in Ha1, Ha2.
  destruct (accepted_ends _ _ _ _ Ha1) as (_ & _ & _ & Hv1). destruct (accepted_ends _ _ _ _ Ha2) as (_ & _ & _ & Hv2).
  pose proof (verified_hash _ _ Hr1 Hv1) as Hc1. pose proof (verified_hash _ _ Hr2 Hv2) as Hc2. rewrite Hh in Hc1.
  destruct (same_hash_same_record _ _ _ _ _ _ _ _ _ _ _ Hb1 Hb2 Hc1 Hc2) as [(Hf & Hq & Hp & Hpl)|]; [left | by right].
  pose proof (payload_type e1 e2 Hr1 Hr2 Hpl) as Ht. unfold en_hash in Hh.
  destruct e1 as [t1 [] p1], e2 as [t2 [] p2]; cbn in *. by subst.
Qed.

(** Two logs agree from their ends back to the oldest entry of the shorter, which may differ. *)
Definition agree_back (l1 l2 : list Entry) : Prop :=
  ∀ i, (S i < length l1)%nat → (S i < length l2)%nat → reverse l1 !! i = reverse l2 !! i.

Lemma agree_back_snoc l1 l2 e : agree_back l1 l2 → agree_back (l1 ++ [e]) (l2 ++ [e]).
Proof.
  intros Ha [|i]; rewrite !reverse_snoc, !length_app; [done|]. cbn. intros ? ?. apply Ha; lia.
Qed.

Lemma accepted_agree c l1 st1 l2 st2 : Forall well_read l1 → Forall well_read l2 → accepted c l1 st1 → accepted c l2 st2 →
  (en_hash <$> last l1) = (en_hash <$> last l2) → agree_back l1 l2 ∨ colliding (sc_key (ic_chain c)) l1 l2.
Proof.
  revert st1 l2 st2. induction l1 as [|e1 l1 IH] using rev_ind; intros st1 l2 st2 Hw1 Hw2 Ha1 Ha2 Hl; [left; intros i; cbn; lia|].
  destruct l2 as [|e2 l2 _] using rev_ind; [by rewrite last_snoc in Hl|]. rewrite !last_snoc in Hl. injection Hl as Hh.
  destruct l1 as [|d1 l1 _] using rev_ind; [left; intros i; cbn; lia|].
  destruct l2 as [|d2 l2 _] using rev_ind; [left; intros i _; cbn; lia|].
  rewrite <- !app_assoc in *. cbn [app] in *.
  destruct (same_hash_same_entry _ _ _ _ _ _ _ _ _ Hw1 Hw2 Ha1 Ha2 Hh) as [->|Hc].
  2: { right. exists e1, e2. split_and!; [| | done | done]; set_solver. }
  pose proof (accepted_link _ _ _ _ _ Ha1) as Hk1. pose proof (accepted_link _ _ _ _ _ Ha2) as Hk2. rewrite Hk1 in Hk2.
  change [d1; e2] with ([d1] ++ [e2]) in *. change [d2; e2] with ([d2] ++ [e2]) in *. rewrite !app_assoc in *.
  apply Forall_app in Hw1 as [Hw1 _]. apply Forall_app in Hw2 as [Hw2 _].
  apply accepted_last in Ha1 as (s1 & Ha1 & _). apply accepted_last in Ha2 as (s2 & Ha2 & _).
  destruct (IH _ _ _ Hw1 Hw2 Ha1 Ha2) as [Hag|(x & y & Hx & Hy & Hxy)]; [by rewrite !last_snoc; cbn; congruence | left; by apply agree_back_snoc |].
  right. exists x, y. split_and!; [set_solver.. | | ]; apply Hxy.
Qed.

Lemma visible_well_read files d : Forall well_read (visible_log files d).
Proof.
  apply Forall_forall. intros e He. unfold visible_log in He. apply list_elem_of_join in He as (l & He & Hl).
  apply list_elem_of_fmap in Hl as (f & -> & _). destruct (dk_files d !! lf_Path f) as [content|]; [|by apply not_elem_of_nil in He].
  unfold entries_of in He. destruct (split_lines content) as [ls rest]. apply list_elem_of_omap in He as (raw & _ & Hr). by exists raw.
Qed.

(** C16. The log is tamper-evident. Take the same directory at two times, say when the
    sidecar was written and when the program starts again, with whatever was done to its
    files in between, and under whatever failing calls; the validation that a start performs
    accepts both. If up to some point the two logs end with entries of the same hash, for
    instance the one in the sidecar, then from there back they hold the same entries, type,
    metadata and payload, as far as both go, the oldest one apart; or there is an entry in
    each of the two logs, with one hash, such that the two different messages signed for
    them have the same HMAC under the key. This holds across rotated files and across
    boundaries where a new chain was started. *)
Theorem visible_log_authentic c files1 d1 d1' files2 d2 d2' l1 r1 l2 r2 :
  validateVisibleChain c files1 d1 = (Ok tt, d1') → validateVisibleChain c files2 d2 = (Ok tt, d2') →
  visible_log files1 d1 = l1 ++ r1 → visible_log files2 d2 = l2 ++ r2 →
  en_hash <$> last l1 = en_hash <$> last l2 →
  agree_back l1 l2 ∨ colliding (sc_key (ic_chain c)) l1 l2.
Proof.
  intros Hv1 Hv2 Hl1 Hl2 Hh. destruct (validate_accepted _ _ _ _ Hv1) as [s1 Ha1]. destruct (validate_accepted _ _ _ _ Hv2) as [s2 Ha2].
  pose proof (visible_well_read files1 d1) as Hw1. pose proof (visible_well_read files2 d2) as Hw2. rewrite Hl1 in *. rewrite Hl2 in *.
  apply accepted_app in Ha1 as [t1 Ha1]. apply accepted_app in Ha2 as [t2 Ha2].
  apply Forall_app in Hw1 as [Hw1 _]. apply Forall_app in Hw2 as [Hw2 _]. by eapply accepted_agree.
Qed.
End props.

(** ** Concrete runs *)
Module AuditLogSample.

(** JSON values as trees. *)
Fixpoint json_tree (j : json) : gen_tree (bool + string) :=
  match j with
  | JNull => GenNode 0 []
  | JBool b => GenLeaf (inl b)
  | JNumber n => GenNode 1 [GenLeaf (inr n)]
  | JString s => GenNode 2 [GenLeaf (inr s)]
  | JArray l => GenNode 3 (json_tree <$> l)
  | JObject kvs => GenNode 4 (foldr (λ kv ts, GenLeaf (inr kv.1) :: json_tree kv.2 :: ts) [] kvs)
  end.
Fixpoint tree_json (t : gen_tree (bool + string)) : json :=
  match t with
  | GenLeaf (inl b) => JBool b
  | GenNode 1 [GenLeaf (inr n)] => JNumber n
  | GenNode 2 [GenLeaf (inr s)] => JString s
  | GenNode 3 l => JArray (tree_json <$> l)
  | GenNode 4 ts =>
      JObject ((fix go ts := match ts with GenLeaf (inr k) :: t :: ts => (k, tree_json t) :: go ts | _ => [] end) ts)
  | _ => JNull
  end.
Lemma tree_json_tree : ∀ j, tree_json (json_tree j) = j.
Proof.
  fix IH 1. intros [|b|n|s|l|kvs]; try reflexivity; cbn; f_equal.
  - induction l as [|j l IHl]; [reflexivity|]. cbn. rewrite IH, IHl. reflexivity.
  - induction kvs as [|[k v] kvs IHl]; [reflexivity|]. cbn. rewrite IH, IHl. reflexivity.
Qed.

(** The text: the nodes of the tree in order, each of a number of items and a kind in unary;
    strings between angles, their line ends, right angles and backslashes escaped. *)
Definition Token : Type := (nat * nat) + (bool + string).

Fixpoint unary (n : nat) (s : string) : string := match n with O => String "," s | S n => String "x" (unary n s) end.
Fixpoint escaped (v s : string) : string :=
  match v with
  | "" => String ">" s
  | String c v =>
      if Ascii.eqb c ">" then String "\" (String "g" (escaped v s))
      else if Ascii.eqb c newline then String "\" (String "n" (escaped v s))
      else if Ascii.eqb c "\" then String "\" (String "b" (escaped v s))
      else String c (escaped v s)
  end.
Fixpoint token_text (l : list Token) : string :=
  match l with
  | [] => "}"
  | inl (n, k) :: l => String "#" (unary n (unary k (token_text l)))
  | inr (inl b) :: l => String (if b then "t" else "f") (token_text l)
  | inr (inr v) :: l => String "<" (escaped v (token_text l))
  end.

Inductive Mode := Between | First (n : nat) | Second (n k : nat) | InString (v : string) | AfterBackslash (v : string).
Definition token (t : Token) (r : option (list Token * string)) : option (list Token * string) := '(l, s) ← r; Some (t :: l, s).
Fixpoint read_tokens (m : Mode) (s : string) : option (list Token * string) :=
  match s with
  | "" => None
  | String c s =>
      match m with
      | Between =>
          if Ascii.eqb c "}" then Some ([], s)
          else if Ascii.eqb c "#" then read_tokens (First 0) s
          else if Ascii.eqb c "t" then token (inr (inl true)) (read_tokens Between s)
          else if Ascii.eqb c "f" then token (inr (inl false)) (read_tokens Between s)
          else if Ascii.eqb c "<" then read_tokens (InString "") s
          else None
      | First n => if Ascii.eqb c "," then read_tokens (Second n 0) s else read_tokens (First (S n)) s
      | Second n k => if Ascii.eqb c "," then token (inl (n, k)) (read_tokens Between s) else read_tokens (Second n (S k)) s
      | InString v =>
          if Ascii.eqb c ">" then token (inr (inr v)) (read_tokens Between s)
          else if Ascii.eqb c "\" then read_tokens (AfterBackslash v) s
          else read_tokens (InString (v +:+ String c "")) s
      | AfterBackslash v =>
          read_tokens (InString (v +:+ String (if Ascii.eqb c "g" then ">"%char else if Ascii.eqb c "n" then newline else "\"%char) "")) s
      end
  end.

Lemma read_First n k s : read_tokens (First n) (unary k s) = read_tokens (Second (n + k) 0) s.
Proof. revert n. induction k as [|k IH]; intros n; cbn; [by rewrite Nat.add_0_r|]. rewrite IH. do 2 f_equal. lia. Qed.
Lemma read_Second n m k s : read_tokens (Second n m) (unary k s) = token (inl (n, (m + k)%nat)) (read_tokens Between s).
Proof. revert m. induction k as [|k IH]; intros m; cbn; [by rewrite Nat.add_0_r|]. rewrite IH. do 3 f_equal. lia. Qed.
Lemma read_InString u v s : read_tokens (InString u) (escaped v s) = token (inr (inr (u +:+ v))) (read_tokens Between s).
Proof.
  revert u. induction v as [|c v IH]; intros u; cbn [escaped]; [by rewrite string_app_nil|].
  destruct (Ascii.eqb_spec c ">") as [->|Hg]; [|destruct (Ascii.eqb_spec c newline) as [->|Hn]; [|destruct (Ascii.eqb_spec c "\") as [->|Hb]]].
  1-3: cbn -[newline]; rewrite IH, string_app_assoc; done.
  cbn -[Ascii.eqb]. apply Ascii.eqb_neq in Hg as ->, Hb as ->. by rewrite IH, string_app_assoc.
Qed.
Lemma read_token_text l : read_tokens Between (token_text l) = Some (l, "").
Proof.
  induction l as [|[[n k]|[[]|v]] l IH]; [done| | | |]; cbn -[unary escaped].
  - by rewrite read_First, read_Second, IH.
  - by rewrite IH.
  - by rewrite IH.
  - by rewrite read_InString, IH.
Qed.

#[export] Instance token_json : JsonLib := {|
  json_Decode := λ s, match s with
    | String "{" s => '(l, r) ← read_tokens Between s; t ← gen_tree_of_list [] l; Some (tree_json t, r)
    | _ => None
    end;
  json_EOF := str_forall is_space_byte;
  json_Marshal := λ v, String "{" (token_text (gen_tree_to_list (json_tree v)));
  json_MarshalStamped := λ m meta,
    String "{" (token_text (gen_tree_to_list (json_tree (JObject (map_to_list (<["integrity" := metadata_json meta]> m))))));
|}.

#[export] Instance token_json_laws : JsonLaws.
Proof.
  constructor. intros m m' _ _. exists (map_to_list m'). split; [|done]. unfold marshal_map, json_Unmarshal. cbn -[json_tree gen_tree_to_list].
  rewrite read_token_text. cbn -[json_tree gen_tree_to_list]. rewrite <- (app_nil_r (gen_tree_to_list _)), gen_tree_of_to_list.
  cbn -[json_tree]. by rewrite tree_json_tree.
Qed.

Definition sum (s : string) : ascii := ascii_of_N (foldr (λ c n, (N_of_ascii c + 3 * n) `mod` 251)%N 7%N (String.list_ascii_of_string s)).
#[export] Instance sum_hmac : HmacLib := {|
  hmac_sha256 := λ k m, String.string_of_list_ascii (replicate 32 (sum (k +:+ m)));
  hmac_sha512 := λ k m, String.string_of_list_ascii (replicate 64 (sum (k +:+ m)));
|}.
#[export] Instance number_time : TimeLib := {|
  time_json := λ t, JNumber (pretty t); dec_time := λ j, match j with JNumber n => ParseInt64 n | _ => None end |}.
#[export] Instance id_event : EventJson := {|
  Ev := Z; json_MarshalEvent := λ n, Some (json_Marshal (JObject [("id", JNumber (pretty n))])) |}.
#[local] Existing Instance ascii_go.

Definition log : string := "audit.log".
Definition demo_chain : IntegrityChain := Build_IntegrityChain Alloc.NewSequenceAllocator
  (Build_SinkChain 1 "0123456789abcdef0123456789abcdef" "hmac-sha256" 0 "" false).
Definition jsonl0 (max : Z) : Jsonl := mkJsonl log max 2 HandleOpen true.
Definition new_store (max : Z) (d : Disk) : Result IntErr IntegrityStore * Disk := NewIntegrityStore 5 (jsonl0 max) demo_chain log "" "sha256:k" "" d.
Definition disk0 : Disk := mkDisk {[ log := "" ]} [].
Definition runs {A} (m : IntM A) (s : option (IntegrityStore * Disk)) : option (IntegrityStore * Disk) :=
  s ← s; match m s with (Ok _, s) => Some s | _ => None end.
Definition opened (r : Result IntErr IntegrityStore * Disk) : option (IntegrityStore * Disk) := match r with (Ok s, d) => Some (s, d) | _ => None end.
Definition err_of (r : Result IntErr IntegrityStore * Disk) : option IntErr := match r with (Err e, _) => Some e | _ => None end.

Definition tear (n : nat) (d : Disk) : Disk := mkDisk (alter (λ c, str_take (String.length c - n) c) log (dk_files d)) [].
Definition disk_of (s : option (IntegrityStore * Disk)) : Disk := from_option snd disk0 s.
(** A log of a boundary and two events, the first of them flushed; with a third event; and
    with files so small that the log rotates twice, before anything is flushed. *)
Definition written : option (IntegrityStore * Disk) :=
  runs (Int_AppendEvent 8) (runs (FlushSync 6) (runs (Int_AppendEvent 7) (opened (new_store 100000 disk0)))).
Definition extended : option (IntegrityStore * Disk) := runs (Int_AppendEvent 9) written.
Definition rotated : option (IntegrityStore * Disk) :=
  runs (Int_AppendEvent 9) (runs (Int_AppendEvent 8) (runs (Int_AppendEvent 7) (opened (new_store 300 disk0)))).
Definition active_file : LogFile := mkLogFile log 0 false.
Definition backup_file (i : Z) : LogFile := mkLogFile (backup_path log i) i true.
Definition log_at (s : option (IntegrityStore * Disk)) : list Entry := visible_log [active_file] (disk_of s).

Lemma visible_log_authentic_witness :
  agree_back (log_at written) (take 3 (log_at extended)) ∨
  colliding (sc_key (ic_chain demo_chain)) (log_at written) (take 3 (log_at extended)).
Proof.
  apply (visible_log_authentic demo_chain [active_file] (disk_of written) (disk_of written) [active_file] (disk_of extended) (disk_of extended)
           (log_at written) [] (take 3 (log_at extended)) (drop 3 (log_at extended))).
  - vm_compute. reflexivity.
  - vm_compute. reflexivity.
  - symmetry. apply app_nil_r.
  - symmetry. apply take_drop.
  - vm_compute. reflexivity.
Defined.

(** A write torn by a crash after everything before it was flushed: the start that repairs
    the file refuses to go on, and the one after it succeeds. *)
Theorem torn_write_refused_once :
  let crashed := tear 60 (disk_of (runs (Int_AppendEvent 9) (runs (FlushSync 6) written))) in
  err_of (new_store 100000 crashed) = Some IeMalformedLast ∧ err_of (new_store 100000 (new_store 100000 crashed).2) = None.
Proof. vm_compute. done. Qed.

(** A crash that loses only the line end of the last entry: the entry is accepted, the next
    event is written behind it on the same line, and no start accepts the log any more. *)
Theorem lost_line_end_corrupts :
  let restarted := opened (new_store 100000 (tear 1 (disk_of written))) in
  is_Some (runs (Int_AppendEvent 9) restarted) ∧
  err_of (new_store 100000 (disk_of (runs (Int_AppendEvent 9) restarted))) = Some (IeVisible VisCorrupted).
Proof. split; [vm_compute; by eexists | vm_compute; done]. Qed.

(** A crash after a rotation and before the next flush: the entries that were not flushed are
    in the backup, the recovery looks for them in the active file only, and no start accepts
    the log any more, though nothing of it is missing. *)
Theorem rotated_backlog_refused :
  err_of (new_store 300 (disk_of rotated)) = Some (IeBrokenRecovery 3) ∧
  (new_store 300 (disk_of rotated)).2 = disk_of rotated ∧
  (validateVisibleChain demo_chain [backup_file 2; backup_file 1; active_file] (disk_of rotated)).1 = Ok tt.
Proof. split_and!; vm_compute; done. Qed.
End AuditLogSample.
